(* ===== verification/_CoqProject ===== *)
-Q . S2P
Prelude.v
Digraph.v
Version.v
DependencyGraph.v
Json.v
JsonCodec.v
Task.v
Target.v
Sequencer.v
Fuzzy.v
Trie.v
Loader.v
RateLimiter.v
Cache.v
EventLoop.v
ServerTasks.v
Ipc.v
ShellTools.v
Repository.v
MemoryRepository.v
CachedRepository.v
JsonTree.v
TaskGenerator.v
TaskList.v
ScriptGenerator.v
Text.v
Json5.v
ConfigSerializer.v
ConfigValidator.v
ConfigManager.v
DeviceManager.v
DeviceBackends.v
ApiRateLimiter.v
ResultMerger.v
DeviceEventBus.v
ComponentManager.v
QueryBuilder.v
TtlCache.v
SpatialIndex.v
FilterEvaluator.v
SearchEngine.v
CsvHandler.v
DictCsv.v
InterpreterPool.v
PluginLoader.v
PluginManager.v
ConfigRegistry.v
DeviceError.v
DeviceTypeRegistry.v
CommandDispatcher.v
HistoryManager.v
InputController.v
