(* ===== verification/Prelude.v ===== *)
(** * Verification of Lithium-Next

    Lithium-Next is the control program of an observatory: it runs sequences of
    astrophotography tasks on devices, loads its components as shared libraries,
    keeps a configuration and a catalog of celestial objects, runs scripts, and
    serves all of it over HTTP.  This library translates the parts that hold
    state and decide things into functions, and proves what makes each of them
    correct.  Where the code does not do what its comments or names promise, the
    theorem states what it does.  Paths below are under src/src/.

    ** Parts and how they interact

    - Sequences (task/core/).  [Task] is one unit of work; [Target] a group of
      tasks with dependencies between them; [Sequencer] the ordered targets, with
      the thread that executes them.  A target uses its tasks through the class
      [Target.TaskI], the sequence its targets through [Sequencer.TargetI]; [Task]
      and [Target] provide the instances at the end of [Target] and [Sequencer].
      [TaskGenerator], [TaskList] and [ScriptGenerator] expand macros into task
      lists and scripts; their documents are those of [JsonTree].
    - Components (components/).  [Version] compares versions, [DependencyGraph]
      orders components by their dependencies, [Loader] loads modules with a graph
      of its own, and [ComponentManager] drives the loader and a second graph.
      [Digraph] holds the depth-first argument the searches share.
    - Configuration (config/).  [ConfigManager] is one document addressed by
      paths; it asks [ConfigValidator] before a write and [Cache] before a read,
      and saves through [ConfigSerializer], whose JSON5 text comes from [Json5].
      [ConfigRegistry] keeps sections and components on top of a manager.
    - Devices (device/).  [DeviceManager] registers, connects and watches devices;
      [DeviceBackends] discovers them and makes drivers; [DeviceEventBus] hands
      their events to subscribers; [DeviceTypeRegistry] holds their types, with the
      errors of [DeviceError].
    - Targets (target/).  [Repository] is the interface of the object stores, with
      the laws clients rely on; [MemoryRepository] implements it and
      [CachedRepository] wraps any implementation.  [Trie], [Fuzzy] and
      [SpatialIndex] are the indexes [SearchEngine] searches, [FilterEvaluator]
      filters and pages results, [ResultMerger] joins local and online ones, and
      [ApiRateLimiter] bounds the requests sent to online catalogs.
      [CsvHandler] reads and writes objects as CSV (target/io/), [DictCsv] records
      (target/reader/).
    - Server (server/).  [RateLimiter] admits requests, [EventLoop] is the thread
      pool, [ServerTasks] runs asynchronous tasks on the interface of a loop,
      [CommandDispatcher] the commands of clients on the same interface.
      [PluginLoader] loads plugin files and orders them with [Digraph];
      [PluginManager] enables what is loaded and keeps its configuration file.
    - Scripts (script/).  [Ipc] is the message format and the pipe to Python
      processes; [ShellTools] the retries, versions and hooks of shell scripts.
      [InterpreterPool] hands tasks to worker threads by priority, in the queue of
      [EventLoop], and lends interpreters.
    - Database (database/).  [QueryBuilder] writes SELECT statements, [TtlCache]
      holds strings for a time.
    - Terminal (debug/terminal/).  [HistoryManager] keeps the commands entered,
      [InputController] edits a line on a Unix terminal, in a build without the
      readline library or, where there is one, asks the library.

    ** How the code is represented

    The fields of a class are a record; a method is a function from the record
    and its arguments to the next record and the result, composed as the code
    composes them.  An exception is [Throw] of its class ([result] below);
    std::expected is [result] with the error value; undefined behaviour, where the
    code can reach it, is [None] or is excluded by a stated bound.  [int] is [Z]
    with its range checked or its wrap-around written out ([to_int]), [size_t] is
    [Z] modulo [2^64] ([to_size]) or [nat] where it only counts elements in memory.
    std::map is a list sorted by key or a [gmap] folded in key order; the order
    of std::unordered_map is never fixed: theorems hold for every order, given as
    an argument where it shows.  [double] is the class [Floats]: the operations the
    code uses, IEEE comparisons that may be false both ways; a theorem that needs
    an order asks for it.  Clocks are arguments or streams of readings.
    Shared objects live in a store addressed by number ([ServerTasks], the
    devices of [DeviceManager]).  A mutex is part of the state where a method locks
    it twice ([Loader], [ComponentManager], [SpatialIndex], [SearchEngine]): that is
    undefined behaviour of std::mutex, an outcome of its own, and nothing is said
    of what follows it.  Elsewhere a locked method is one step.  Threads are
    interleavings of such steps: an operation type with a [run] over lists of
    operations, and theorems over every list.  A method that releases its lock, or
    has none, where others can come between is split into its parts: [Cache.get],
    [Sequencer.stop], the tasks of [CommandDispatcher], the calls and workers of
    [InterpreterPool], the reads and writes of [Ipc] on a pipe of bounded capacity.
    What may never return is an outcome too: a call that waits ([Ipc],
    [InterpreterPool]), a macro function ([TaskGenerator]), a task of the pool.

    Third-party code is a class whose laws are its documented behaviour: the JSON
    library ([Json], [JsonCodec], [JsonTree], [ConfigSerializer.JsonPrinter]), the
    LRU cache of the atom library, the file system and dynamic linker of [Loader],
    the drivers of devices, [Floats], [std::pow] and the readline library.  Each class has an instance, so every theorem
    with such a hypothesis is evaluated on a concrete run (its [_witness]).

    ** What the theorems show

    - Sequences: an execution of a task completes exactly when no check stops it,
      and a cancelled task never runs again; a target reports what its tasks did;
      an idle sequence ends after one round per target and one more, having run
      each pending ready target once, in order; target dependencies stay acyclic.
    - Components: dependency resolution and topological sorting return every node
      once in an order, and the former finds cycles exactly; the methods that lock
      a mutex twice are identified, loadComponent of the manager among them, so that
      no run without undefined behaviour loads a component.
    - Configuration: the cache refines a map; the validator accepts exactly the
      documents that conform to an inductively defined relation; setting, removing,
      merging and listing follow the path structure; documents survive being
      written and read in every format, sections being saved and loaded.
      An update of the registry reaches matching subscribers and components once.
    - Devices: connecting is its specification attempt by attempt; names stay
      unique and indexes agree after any run that adds devices under new names; exported settings are imported
      unchanged; events reach exactly the matching subscribers;
      the events of the type registry replay to its types.
    - Targets: the stores keep their two maps in agreement, entirely while no
      identifier is taken twice; a cached store answers like the store inside, but for
      findByIdentifier, while updates name objects it knows; the edit distance is the least number of edits; the
      tree of terms, the trie and the spatial index return exactly the entries
      their query describes, within their capacity; merging takes each object once;
      what CSV files keep of objects and records is read back as written.
    - Server: token buckets and windows bound the requests; what is posted on the
      event loop is never called, while on a loop that calls it every task ends;
      the future of a command is set exactly when its task has ended, and the end of
      a command is visible only until its task cleans up.
    - Scripts: bytes are decoded exactly when they are the encoding of a message;
      the pipe refines a bounded queue however reads and writes are split, and it is
      said when a call waits; retries stop; versions refine a log.
    - Pools and plugins: the workers of the interpreter pool drain the queue as long
      as tasks end and no call of acquire waits for Python; the load order has no
      plugin before its dependencies, and of the loaded ones leaves out exactly those
      that lead to a cycle; commands are registered only while their plugin is
      enabled, or because taking them back threw.
    - Generators: expansion of macros equals the cacheless reading of the text, in
      what it gives, throws or does not return from.
    - Terminal: the history refines a log, the line editor a zipper.

    ** Fuel

    Recursion that is not structural has fuel and a lemma that the fuel given is
    enough: depth-first searches the number of nodes ([PluginLoader.order_fuel] and the
    graphs), loops over text its length
    ([Json5], [TaskGenerator]), the read and write loops of [Ipc] the bytes left,
    the walk of a document its depth ([ConfigValidator], [ConfigManager]), the
    sequence thread the number of targets plus one.  Results never depend on more.

    ** Not modelled

    Each file names what it leaves out of its classes: mostly locks that are never
    taken twice, times of floating-point type, logging and metrics.  Outside these
    classes the program is calls of other programs and of libraries: the clients
    of devices, mounts and plate solvers (client/), the HTTP routes (server/), SQL
    (database/core, target/repository), processes and embedded Python (script/),
    the rest of debug/, and formulas of astronomy in floating point (tools/,
    target/observability).  Their results are what those libraries and programs
    answer, so no statement about them follows from the text of the program.  *)

From stdpp Require Export base option list gmap strings pretty sorting.
From Stdlib Require Export ZArith Lia.
From Stdlib Require Ascii String.

(** ** Scope and notations *)

Declare Scope lithium_scope.
Delimit Scope lithium_scope with lithium.
#[global] Open Scope lithium_scope.

(** ** Results of code that may throw

    [Ok a] is a normal return, [Throw e] an exception of class [e].  The
    message texts of the THROW_ macros only reach the log and [what()];
    where the code stores a message in its state it is modelled there. *)

Inductive result (E A : Type) : Type :=
| Ok (a : A)
| Throw (e : E).
Arguments Ok {E A} a.
Arguments Throw {E A} e.

Definition rbind {E A B} (m : result E A) (k : A → result E B) : result E B :=
  match m with
  | Ok a => k a
  | Throw e => Throw e
  end.

Notation "'let*' x := m 'in' k" := (rbind m (λ x, k))
  (at level 10, x name, m at level 100, k at level 200) : lithium_scope.

Definition is_ok {E A} (m : result E A) : bool :=
  match m with Ok _ => true | Throw _ => false end.

(** Exception classes thrown by the modelled code. *)
Inductive exn :=
| InvalidArgument     (* THROW_INVALID_ARGUMENT and std::invalid_argument *)
| RuntimeError        (* THROW_RUNTIME_ERROR and std::runtime_error *)
| OutOfRange          (* std::out_of_range, from at() and substr() *)
| ValidationError     (* THROW_VALIDATION_ERROR *)
| MissingArgument     (* THROW_MISSING_ARGUMENT *)
| FailToOpenFile      (* THROW_FAIL_TO_OPEN_FILE *)
| JsonError.          (* json::exception and THROW_JSON_PARSE_ERROR *)

#[export] Instance exn_eq_dec : EqDecision exn.
Proof. solve_decision. Defined.

#[export] Instance result_eq_dec `{EqDecision E, EqDecision A} :
  EqDecision (result E A).
Proof. solve_decision. Defined.

Lemma rbind_ok_inv {E A B} (m : result E A) (k : A → result E B) b :
  rbind m k = Ok b → ∃ a, m = Ok a ∧ k a = Ok b.
Proof. destruct m; simpl; [eauto|done]. Qed.

(** ** Record update

    [r <| f := v |>] is the record [r] with field [f] replaced by [v].  A
    record type provides its eta expansion as an [Eta] instance; the update
    of a field is found by rewriting that expansion. *)

Class Eta (R : Type) := eta : R → R.
Class Upd {R A : Type} (proj : R → A) := upd : (A → A) → R → R.
#[global] Arguments upd {R A} proj {_} _ _.

Ltac derive_upd :=
  lazymatch goal with
  | |- @Upd ?R ?A ?p =>
      let e := constr:(_ : Eta R) in
      let f := fresh "f" in
      let r := fresh "r" in
      refine (λ (f : A → A) (r : R), _);
      let e' := eval hnf in e in
      let t := eval cbv beta in (e' r) in
      lazymatch t with
      | context C [p r] => let t' := context C [f (p r)] in exact t'
      end
  end.
#[export] Hint Extern 0 (Upd _) => derive_upd : typeclass_instances.

Notation "r <| p := v |>" := (upd p (λ _, v) r)
  (at level 1, left associativity, p constr at level 11,
   format "r <| p  :=  v |>") : lithium_scope.
Notation "r <| p ::= g |>" := (upd p g r)
  (at level 1, left associativity, p constr at level 11,
   format "r <| p  ::=  g |>") : lithium_scope.

(** ** Machine integers *)

Definition INT_MAX : Z := 2147483647.
Definition INT_MIN : Z := -2147483648.
Definition in_int (z : Z) : bool := bool_decide (INT_MIN ≤ z ≤ INT_MAX)%Z.

(** [static_cast<int>] of a wider integer: reduction modulo [2^32]. *)
Definition to_int (z : Z) : Z := ((z + 2147483648) mod 4294967296 - 2147483648)%Z.
Definition to_int64 (z : Z) : Z := ((z + 9223372036854775808) mod 18446744073709551616 - 9223372036854775808)%Z.

(** [size_t] and [uint64_t]: arithmetic modulo [2^64]. *)
Definition SIZE_MOD : Z := 18446744073709551616.
Definition to_size (z : Z) : Z := (z mod SIZE_MOD)%Z.

Lemma to_int_range z : (INT_MIN ≤ to_int z ≤ INT_MAX)%Z.
Proof.
  unfold to_int, INT_MIN, INT_MAX.
  pose proof (Z.mod_pos_bound (z + 2147483648) 4294967296 eq_refl). lia.
Qed.

Lemma to_int_id z : in_int z = true → to_int z = z.
Proof.
  unfold in_int, to_int, INT_MIN, INT_MAX. rewrite bool_decide_eq_true.
  intros. rewrite Z.mod_small; lia.
Qed.

Lemma to_size_id z : (0 ≤ z < SIZE_MOD)%Z → to_size z = z.
Proof. apply Z.mod_small. Qed.

(** ** Strings: [std::string] as a sequence of [char] *)

Export Ascii.AsciiSyntax.
#[global] Delimit Scope char_scope with char.
#[global] Bind Scope char_scope with Ascii.ascii.
Abbreviation char := Ascii.ascii.
#[global] Arguments String.append !_ _ / : simpl nomatch.

(** [find(c)], [None] for [npos]. *)
Fixpoint str_find (c : char) (s : string) : option nat :=
  match s with
  | EmptyString => None
  | String d s' => if Ascii.eqb c d then Some 0 else S <$> str_find c s'
  end.

Fixpoint str_drop (n : nat) (s : string) : string :=
  match n, s with
  | S n', String _ s' => str_drop n' s'
  | _, _ => s
  end.

#[global] Arguments str_drop !_ !_ : simpl nomatch.

Fixpoint str_take (n : nat) (s : string) : string :=
  match n, s with
  | S n', String d s' => String d (str_take n' s')
  | _, _ => EmptyString
  end.

(** [find(c, pos)]: the first occurrence at or after [pos]. *)
Definition str_find_from (c : char) (pos : nat) (s : string) : option nat :=
  (λ i, i + pos) <$> str_find c (str_drop pos s).

(** [substr(pos, n)]; [substr(pos)] is [str_drop].  Callers in the modelled
    code never pass [pos > size()], where the library throws. *)
Definition str_substr (pos n : nat) (s : string) : string :=
  str_take n (str_drop pos s).

Definition str_empty (s : string) : bool :=
  match s with EmptyString => true | _ => false end.

Fixpoint str_mem (c : char) (s : string) : bool :=
  match s with
  | EmptyString => false
  | String d s' => Ascii.eqb c d || str_mem c s'
  end.

(** [operator<] of [std::string]: lexicographic on unsigned bytes. *)
Fixpoint str_ltb (a b : string) : bool :=
  match a, b with
  | EmptyString, String _ _ => true
  | String x a', String y b' =>
      if Ascii.eqb x y then str_ltb a' b'
      else N.ltb (Ascii.N_of_ascii x) (Ascii.N_of_ascii y)
  | _, EmptyString => false
  end.

Lemma str_length_app (a b : string) :
  String.length (a +:+ b) = String.length a + String.length b.
Proof. induction a; simpl; congruence. Qed.

Lemma str_app_assoc (a b c : string) : a +:+ (b +:+ c) = (a +:+ b) +:+ c.
Proof. induction a; simpl; congruence. Qed.

Lemma str_app_empty_r (a : string) : a +:+ "" = a.
Proof. induction a; simpl; congruence. Qed.

Lemma str_find_app (c : char) (a b : string) :
  str_mem c a = false →
  str_find c (a +:+ b) = (λ i, i + String.length a) <$> str_find c b.
Proof.
  induction a as [|d a IH]; simpl; intros H.
  - destruct (str_find c b); simpl; [f_equal; lia|done].
  - apply orb_false_iff in H as [-> H]. rewrite IH by done.
    destruct (str_find c b); simpl; [f_equal; lia|done].
Qed.

Lemma str_find_here (c : char) (s : string) : str_find c (String c s) = Some 0.
Proof. simpl. by rewrite Ascii.eqb_refl. Qed.

Lemma str_find_None (c : char) (s : string) :
  str_mem c s = false → str_find c s = None.
Proof.
  induction s as [|d s IH]; simpl; [done|].
  intros H. apply orb_false_iff in H as [-> H]. by rewrite IH.
Qed.

Lemma str_mem_app (c : char) (a b : string) :
  str_mem c (a +:+ b) = str_mem c a || str_mem c b.
Proof. induction a; simpl; [done|]. by rewrite IHa, orb_assoc. Qed.

Lemma str_drop_app (a b : string) : str_drop (String.length a) (a +:+ b) = b.
Proof. induction a; simpl; [by destruct b|done]. Qed.

Lemma str_drop_app_add (a b : string) n :
  str_drop (String.length a + n) (a +:+ b) = str_drop n b.
Proof. induction a; simpl; done. Qed.

Lemma str_take_app (a b : string) : str_take (String.length a) (a +:+ b) = a.
Proof. induction a; simpl; [by destruct b|congruence]. Qed.

Lemma str_take_all (a : string) n : String.length a ≤ n → str_take n a = a.
Proof.
  revert n. induction a; intros [|n] H; simpl in *; try done; try lia.
  rewrite IHa; [done|lia].
Qed.

Lemma str_drop_drop n m (s : string) : str_drop (n + m) s = str_drop m (str_drop n s).
Proof.
  revert s. induction n as [|n IH]; intros s; simpl; [done|].
  destruct s; [by destruct m|apply IH].
Qed.

Lemma str_drop_0 (s : string) : str_drop 0 s = s.
Proof. by destruct s. Qed.

Lemma str_drop_past (s x y : string) pos :
  str_drop pos s = x +:+ y → str_drop (String.length x + pos) s = y.
Proof. intros H. by rewrite Nat.add_comm, str_drop_drop, H, str_drop_app. Qed.

Lemma str_drop_past_char (s x y : string) (c : char) pos :
  str_drop pos s = x +:+ String c y → str_drop (S (String.length x + pos)) s = y.
Proof.
  intros H. replace (S (String.length x + pos)) with ((String.length x + pos) + 1) by lia.
  rewrite str_drop_drop, (str_drop_past _ _ _ _ H). apply str_drop_0.
Qed.

(** What [find] and [substr] return when the text after [pos] is known. *)
Lemma str_find_from_at (c : char) (s x y : string) pos :
  str_drop pos s = x +:+ String c y → str_mem c x = false →
  str_find_from c pos s = Some (String.length x + pos).
Proof.
  intros H Hx. unfold str_find_from.
  by rewrite H, str_find_app, str_find_here.
Qed.

Lemma str_find_from_none (c : char) (s : string) pos :
  str_mem c (str_drop pos s) = false → str_find_from c pos s = None.
Proof. intros H. unfold str_find_from. by rewrite str_find_None. Qed.

Lemma str_substr_at (s x y : string) pos :
  str_drop pos s = x +:+ y → str_substr pos (String.length x) s = x.
Proof. intros H. unfold str_substr. by rewrite H, str_take_app. Qed.

Lemma str_length_drop n (s : string) :
  String.length (str_drop n s) = String.length s - n.
Proof. revert s. induction n; intros []; simpl; auto. Qed.

(** [str_ltb] is a strict total order. *)
Lemma ascii_N_inj x y : Ascii.N_of_ascii x = Ascii.N_of_ascii y → x = y.
Proof. intros H. by rewrite <- (Ascii.ascii_N_embedding x), H, Ascii.ascii_N_embedding. Qed.

Lemma str_ltb_irrefl a : str_ltb a a = false.
Proof. induction a; simpl; [done|]. by rewrite Ascii.eqb_refl. Qed.

Ltac ascii_cases :=
  repeat match goal with
  | |- context [Ascii.eqb ?x ?y] => destruct (Ascii.eqb_spec x y); subst
  | H : context [Ascii.eqb ?x ?y] |- _ => destruct (Ascii.eqb_spec x y); subst
  end.

Lemma str_ltb_trans a b c :
  str_ltb a b = true → str_ltb b c = true → str_ltb a c = true.
Proof.
  revert b c. induction a as [|x a IH]; intros [|y b] [|z c]; simpl; try done.
  ascii_cases; rewrite ?N.ltb_lt; try done; try lia; eauto.
Qed.

Lemma str_ltb_total a b : str_ltb a b = false → str_ltb b a = false → a = b.
Proof.
  revert b. induction a as [|x a IH]; intros [|y b]; simpl; try done.
  ascii_cases; try done.
  - intros. f_equal; eauto.
  - rewrite !N.ltb_ge. intros. exfalso. apply n, ascii_N_inj. lia.
Qed.

Lemma str_ltb_antisym a b : str_ltb a b = true → str_ltb b a = false.
Proof.
  intros H. destruct (str_ltb b a) eqn:E; [|done].
  by rewrite <- (str_ltb_irrefl a), <- (str_ltb_trans _ _ _ H E).
Qed.

(** [std::tolower] in the "C" locale, byte by byte. *)
Definition tolower (c : char) : char :=
  let n := Ascii.N_of_ascii c in
  if (65 <=? n)%N && (n <=? 90)%N then Ascii.ascii_of_N (n + 32) else c.

Fixpoint str_tolower (s : string) : string :=
  match s with
  | EmptyString => EmptyString
  | String c s' => String (tolower c) (str_tolower s')
  end.

(** The characters of a string. *)
Definition chars : string → list char := String.list_ascii_of_string.

(** ** Hash containers

    [std::unordered_map] and [std::unordered_set] are finite maps and sets
    whose iteration order the standard leaves open.  A definition that iterates
    takes an instance of [HashIter], and its theorems hold for every instance,
    that is for every order. *)

Class HashIter (K : Type) `{Countable K} := {
  iter_set : gset K → list K;
  iter_set_perm : ∀ s, iter_set s ≡ₚ elements s;
  iter_map : ∀ {V}, gmap K V → list (K * V);
  iter_map_perm : ∀ {V} (m : gmap K V), iter_map m ≡ₚ map_to_list m
}.

(** The order in which [gmap] enumerates its keys, used to evaluate examples. *)
Definition canonical_iter `{Countable K} : HashIter K :=
  {| iter_set := elements; iter_set_perm := λ s, reflexivity _;
     iter_map := λ V, map_to_list; iter_map_perm := λ V m, reflexivity _ |}.

Definition iter_keys `{HashIter K} {V} (m : gmap K V) : list K := (iter_map m).*1.

Section hash_iter.
Context `{HashIter K}.

Lemma elem_of_iter_set (s : gset K) x : x ∈ iter_set s ↔ x ∈ s.
Proof. by rewrite iter_set_perm, elem_of_elements. Qed.

Lemma NoDup_iter_set (s : gset K) : NoDup (iter_set s).
Proof. rewrite iter_set_perm. apply NoDup_elements. Qed.

Lemma elem_of_iter_map {V} (m : gmap K V) k v : (k, v) ∈ iter_map m ↔ m !! k = Some v.
Proof. by rewrite iter_map_perm, elem_of_map_to_list. Qed.

Lemma elem_of_iter_keys {V} (m : gmap K V) k : k ∈ iter_keys m ↔ is_Some (m !! k).
Proof.
  unfold iter_keys. rewrite list_elem_of_fmap. split.
  - intros ([k' v] & -> & Hkv%elem_of_iter_map). eauto.
  - intros [v Hv]. exists (k, v). by rewrite elem_of_iter_map.
Qed.

Lemma NoDup_iter_keys {V} (m : gmap K V) : NoDup (iter_keys m).
Proof. unfold iter_keys. rewrite iter_map_perm. apply NoDup_fst_map_to_list. Qed.
End hash_iter.

(** ** Floating-point numbers

    [double] is a type with the operations the code uses; nothing is assumed
    about them except in [floats_Z], an instance for examples. *)

Class Floats (F : Type) := {
  f_zero : F;
  f_leb : F → F → bool;                     (* operator<= *)
  f_ltb : F → F → bool;                     (* operator< *)
  f_eqb : F → F → bool;                     (* operator== *)
  f_add : F → F → F;
  f_sub : F → F → F;
  f_mul : F → F → F;
  f_div : F → F → F;
  f_of_Z : Z → F;
  f_to_int : F → Z;                         (* static_cast<int> *)
  f_floor : F → F;
  f_parse : string → option F;              (* std::stod, None where it throws *)
  f_print : F → string;                     (* std::to_string *)
  f_pi : F;                                 (* M_PI *)
  f_sin : F → F;
  f_cos : F → F;
  f_asin : F → F;
  f_sqrt : F → F
}.

Definition floats_Z : Floats Z := {|
  f_zero := 0%Z; f_leb := Z.leb; f_ltb := Z.ltb; f_eqb := Z.eqb; f_add := Z.add; f_sub := Z.sub;
  f_mul := Z.mul; f_div := Z.div; f_of_Z z := z; f_to_int z := z; f_floor z := z; f_parse _ := None;
  f_print := pretty; f_pi := 3%Z; f_sin z := z; f_cos z := z; f_asin z := z; f_sqrt := Z.sqrt
|}.

(** Without NaN the comparisons are those of a total order. *)
Record float_order {F : Type} `{Floats F} : Prop := {
  fo_lt : ∀ a b : F, f_ltb a b = negb (f_leb b a);
  fo_total : ∀ a b : F, f_leb a b = true ∨ f_leb b a = true;
  fo_trans : ∀ a b c : F, f_leb a b = true → f_leb b c = true → f_leb a c = true
}.
#[global] Arguments float_order F {_}.

(** ** Lists *)

Lemma elem_of_concat_map {A B} (f : A → list B) (l : list A) x :
  x ∈ concat (map f l) ↔ ∃ a, a ∈ l ∧ x ∈ f a.
Proof.
  rewrite list_elem_of_In, in_concat. setoid_rewrite in_map_iff. split.
  - intros (? & (a & <- & Ha) & Hx). exists a. by rewrite !list_elem_of_In.
  - intros (a & Ha & Hx). exists (f a). split; [exists a|]; by rewrite <- ?list_elem_of_In.
Qed.

Lemma last_cons_default {A} (x d : A) l : List.last (x :: l) d = List.last l x.
Proof.
  revert x d. induction l as [|y l IH]; intros x d; [done|].
  change (List.last (x :: y :: l) d) with (List.last (y :: l) d). by rewrite !IH.
Qed.

Lemma length_omap_le {A B} (f : A → option B) (l : list A) : length (omap f l) ≤ length l.
Proof. induction l as [|a l IH]; cbn; [done|]. destruct (f a); cbn; lia. Qed.

(** The newest [n] elements of a queue. *)
Definition last_n {A} (n : nat) (l : list A) : list A := drop (length l - n) l.

Lemma length_last_n {A} n (l : list A) : length (last_n n l) = Nat.min (length l) n.
Proof. unfold last_n. rewrite length_drop. lia. Qed.

Lemma last_n_all {A} n (l : list A) : length l ≤ n → last_n n l = l.
Proof. intros Hl. unfold last_n. by replace (length l - n) with 0 by lia. Qed.

Lemma last_n_app {A} n (q l : list A) : last_n n (last_n n q ++ l) = last_n n (q ++ l).
Proof.
  destruct (decide (length q ≤ n)) as [Hle|Hgt]; [by rewrite (last_n_all n q)|].
  unfold last_n. rewrite !length_app, length_drop.
  replace (length q - (length q - n) + length l - n) with (length l) by lia.
  replace (length q + length l - n) with ((length q - n) + length l) by lia.
  rewrite <- drop_drop. f_equal. by rewrite drop_app_le by lia.
Qed.

(** The parts of a concatenation are duplicate-free and pairwise disjoint. *)
Lemma NoDup_concat_map {A B} (f : A → list B) (l : list A) :
  NoDup l → (∀ a, a ∈ l → NoDup (f a)) →
  (∀ a b x, a ∈ l → b ∈ l → x ∈ f a → x ∈ f b → a = b) → NoDup (concat (map f l)).
Proof.
  induction 1 as [|a l Ha Hl IH]; intros Hf Hdisj; simpl; [constructor|].
  apply NoDup_app. split_and!; [apply Hf; left| |].
  - intros x Hx (b & Hb & Hxb)%elem_of_concat_map. apply Ha.
    rewrite (Hdisj a b x); [done|left|by right|done..].
  - apply IH; [by intros; apply Hf; right|]. intros b c x Hb Hc. apply Hdisj; by right.
Qed.

(** ** Sorting

    [std::sort] returns some permutation that is sorted; which one, among
    equivalent elements, the standard leaves open.  The comparison must be a
    strict weak order. *)

Record strict_weak {A} (lt : A → A → bool) : Prop := {
  sw_irrefl : ∀ a, lt a a = false;
  sw_trans : ∀ a b c, lt a b = true → lt b c = true → lt a c = true;
  sw_negative : ∀ a b c, lt b a = false → lt c b = false → lt c a = false
}.

Class StdSort := {
  std_sort : ∀ {A}, (A → A → bool) → list A → list A;
  std_sort_perm : ∀ {A} (lt : A → A → bool) l, std_sort lt l ≡ₚ l;
  std_sort_sorted : ∀ {A} (lt : A → A → bool) l,
    strict_weak lt → StronglySorted (λ a b, lt b a = false) (std_sort lt l)
}.

(** Comparing a natural-number key is a strict weak order. *)
Lemma strict_weak_key {A} (key : A → nat) : strict_weak (λ a b, key a <? key b).
Proof. split; intros *; rewrite ?Nat.ltb_lt, ?Nat.ltb_ge; lia. Qed.

(** Insertion sort, an instance for examples. *)
Fixpoint sort_insert {A} (lt : A → A → bool) (x : A) (l : list A) : list A :=
  match l with
  | [] => [x]
  | y :: l' => if lt x y then x :: l else y :: sort_insert lt x l'
  end.

Lemma sort_insert_perm {A} (lt : A → A → bool) x l : sort_insert lt x l ≡ₚ x :: l.
Proof.
  induction l as [|y l IH]; simpl; [done|]. destruct (lt x y); [done|].
  rewrite IH. apply Permutation_swap.
Qed.

Lemma foldr_insert_perm {A} (lt : A → A → bool) l : foldr (sort_insert lt) [] l ≡ₚ l.
Proof. induction l as [|x l IH]; simpl; [done|]. by rewrite sort_insert_perm, IH. Qed.

Lemma foldr_insert_sorted {A} (lt : A → A → bool) l :
  strict_weak lt → StronglySorted (λ a b, lt b a = false) (foldr (sort_insert lt) [] l).
Proof.
  intros Hsw. induction l as [|x l IH]; simpl; [constructor|].
  induction IH as [|y l' Hl IH Hy]; simpl; [repeat constructor|].
  destruct (lt x y) eqn:E.
  - assert (lt y x = false) as Hyx.
    { destruct (lt y x) eqn:E'; [|done].
      by rewrite <- (sw_irrefl _ Hsw x), <- (sw_trans _ Hsw _ _ _ E E'). }
    constructor; [by constructor|]. constructor; [done|].
    eapply Forall_impl; [exact Hy|]. intros z Hz. by eapply (sw_negative _ Hsw).
  - constructor; [done|]. rewrite sort_insert_perm. by constructor.
Qed.

Definition insertion_sort : StdSort := {|
  std_sort A lt l := foldr (sort_insert lt) [] l;
  std_sort_perm A := foldr_insert_perm;
  std_sort_sorted A := foldr_insert_sorted
|}.
