(* ===== verification/Digraph.v ===== *)
(** * Digraph: depth-first search on a finite graph

    The invariant shared by the depth-first traversals of
    src/src/components/core/dependency.cpp and src/src/task/core/sequencer.cpp:
    the visited set is the current path plus the finished nodes, and the list
    of finished nodes (newest first) only has edges towards older nodes.  No
    definition here models code. *)

From S2P Require Import Prelude.
From stdpp Require Import relations.

Section digraph.
Context `{Countable K} (edge : K → K → Prop).

Definition acyclic : Prop := ∀ x, ¬ tc edge x x.

(** A path, newest node first. *)
Inductive is_path : list K → Prop :=
| is_path_nil : is_path []
| is_path_one n : is_path [n]
| is_path_cons n m l : edge m n → is_path (m :: l) → is_path (n :: m :: l).

(** Every node of the list only has edges towards nodes behind it. *)
Inductive finished : list K → Prop :=
| finished_nil : finished []
| finished_cons n l :
    n ∉ l → (∀ d, edge n d → d ∈ l) → finished l → finished (n :: l).

Record dfs_inv (vis : gset K) (path fin : list K) : Prop := {
  inv_vis : ∀ x, x ∈ vis ↔ x ∈ path ∨ x ∈ fin;
  inv_nodup : NoDup (path ++ fin);
  inv_path : is_path path;
  inv_fin : finished fin
}.

Lemma dfs_inv_start : dfs_inv ∅ [] [].
Proof. split; [set_solver|constructor..]. Qed.

(** Entering an unvisited node reached from the head of the path. *)
Lemma dfs_inv_enter vis path fin n :
  dfs_inv vis path fin → n ∉ vis →
  (∀ m l, path = m :: l → edge m n) →
  dfs_inv ({[n]} ∪ vis) (n :: path) fin.
Proof.
  intros [Hv Hd Hp Hf] Hn He. split; [set_solver| |destruct path; constructor; eauto|done].
  simpl. constructor; [|done]. rewrite elem_of_app. naive_solver.
Qed.

(** Leaving a node all of whose successors are finished. *)
Lemma dfs_inv_leave vis path fin n :
  dfs_inv vis (n :: path) fin → (∀ d, edge n d → d ∈ fin) →
  dfs_inv vis path (n :: fin).
Proof.
  intros [Hv Hd Hp Hf] Hs. simpl in Hd. apply NoDup_cons in Hd as [Hn Hd].
  split.
  - intros x. rewrite Hv. set_solver.
  - rewrite <- Permutation_middle. by constructor.
  - by inversion Hp; subst; try constructor.
  - constructor; [set_solver|done..].
Qed.

(** What a search that found no cycle leaves behind: the same path, and more
    finished nodes. *)
Definition dfs_extends (path fin : list K) (vis' : gset K) (fin' : list K) : Prop :=
  dfs_inv vis' path fin' ∧ ∀ x, x ∈ fin → x ∈ fin'.

Lemma is_path_rtc n l d : is_path (n :: l) → d ∈ n :: l → rtc edge d n.
Proof.
  revert n. induction l as [|m l IH]; intros n Hp Hd.
  - apply list_elem_of_singleton in Hd as ->. done.
  - inversion Hp; subst. apply elem_of_cons in Hd as [->|Hd]; [done|].
    eapply rtc_r; eauto.
Qed.

(** An edge back into the path closes a cycle. *)
Lemma path_back_edge n l d :
  is_path (n :: l) → d ∈ n :: l → edge n d → ∃ x, tc edge x x.
Proof.
  intros Hp Hd He. exists d. eapply tc_rtc_l; [by eapply is_path_rtc|].
  by apply tc_once.
Qed.

Lemma finished_NoDup l : finished l → NoDup l.
Proof. induction 1; by constructor. Qed.

(** Along a path out of a finished node, nodes move to the back of the list. *)
Lemma finished_tc l x y :
  finished l → x ∈ l → tc edge x y → ∃ l1 l2, l = l1 ++ x :: l2 ∧ y ∈ l2.
Proof.
  intros Hl Hx Hxy. revert x y Hx Hxy.
  induction Hl as [|n l Hn Hd Hl IH]; intros x y Hx Hxy; [set_solver|].
  apply elem_of_cons in Hx as [->|Hx].
  - exists [], l. split; [done|].
    assert (∀ z, rtc edge z y → z ∈ l → y ∈ l) as Hrtc.
    { induction 1 as [|z z' y' Hz Hrtc IHz]; [done|]. intros Hin. apply IHz; [done|].
      destruct (IH z z' Hin) as (l1 & l2 & -> & ?); [by apply tc_once|]. set_solver. }
    inversion Hxy; subst; eauto using tc_rtc.
  - destruct (IH x y Hx Hxy) as (l1 & l2 & -> & Hy). by exists (n :: l1), l2.
Qed.

Lemma finished_acyclic l x : finished l → x ∈ l → ¬ tc edge x x.
Proof.
  intros Hl Hx Hc. destruct (finished_tc l x x Hl Hx Hc) as (l1 & l2 & -> & Hin).
  apply finished_NoDup, NoDup_app in Hl as (_ & _ & [Hn _]%NoDup_cons). done.
Qed.

Lemma tc_has_edge x y : tc edge x y → ∃ z, edge x z.
Proof. inversion 1; eauto. Qed.

(** If every node with an edge is finished there is no cycle. *)
Lemma finished_all_acyclic l :
  finished l → (∀ x y, edge x y → x ∈ l) → acyclic.
Proof.
  intros Hl Hall x Hc. destruct (tc_has_edge x x Hc) as [z Hz].
  by eapply finished_acyclic; eauto.
Qed.

(** In a finished list a node comes before its successors. *)
Lemma finished_edge l x y :
  finished l → x ∈ l → edge x y → ∃ l1 l2, l = l1 ++ x :: l2 ∧ y ∈ l2.
Proof. eauto using finished_tc, tc_once. Qed.
End digraph.

(** ** Fuel: the nodes still to be visited *)

Section fuel.
Context `{Countable K}.
Implicit Types N vis : gset K.

Definition unvisited N vis : nat := size (N ∖ vis).

Lemma unvisited_mono N vis vis' : vis ⊆ vis' → unvisited N vis' ≤ unvisited N vis.
Proof. intros Hsub. apply subseteq_size. set_solver. Qed.

Lemma unvisited_lt N vis n :
  n ∈ N → n ∉ vis → unvisited N ({[n]} ∪ vis) < unvisited N vis.
Proof. intros Hn Hv. apply subset_size. set_solver. Qed.

Lemma unvisited_le_size N vis : unvisited N vis ≤ size N.
Proof. apply subseteq_size. set_solver. Qed.
End fuel.
