(* ===== verification/Version.v ===== *)
(** * Version: semantic versions, date versions, ranges and requirement checks

    Models src/src/components/core/version.hpp and version.cpp: parsing and
    printing of versions, the comparison operators, [VersionRange] and
    [checkVersion] / [checkDateVersion].  Exceptions are modelled by their
    class. *)

From S2P Require Import Prelude.

(** ** Integers *)

(** The digits accumulated by [std::from_chars]; scanning stops at the first
    other character, and at least one digit is needed. *)
Definition digit_val (c : char) : option Z :=
  let n := Z.of_N (Ascii.N_of_ascii c) in
  if (48 <=? n)%Z && (n <=? 57)%Z then Some (n - 48)%Z else None.

Fixpoint scan_digits (acc : Z) (s : string) : Z :=
  match s with
  | EmptyString => acc
  | String c s' =>
      match digit_val c with
      | Some d => scan_digits (acc * 10 + d)%Z s'
      | None => acc
      end
  end.

Definition scan_nat (s : string) : option Z :=
  match s with
  | EmptyString => None
  | String c s' =>
      match digit_val c with
      | Some d => Some (scan_digits d s')
      | None => None
      end
  end.

(** [std::from_chars] at [int]: an optional minus sign, no plus sign and no
    white space; [None] is an error code. *)
Definition from_chars (s : string) : option Z :=
  let v := match s with
           | String c s' => if Ascii.eqb c "-" then Z.opp <$> scan_nat s'
                            else scan_nat s
           | EmptyString => None
           end in
  match v with
  | Some z => if in_int z then Some z else None
  | None => None
  end.

(** [parseInt]: characters after the number are ignored. *)
Definition parseInt (s : string) : result exn Z :=
  match from_chars s with
  | Some z => Ok z
  | None => Throw InvalidArgument
  end.

(** [std::format("{}", n)]. *)
Definition format_int (z : Z) : string := pretty z.

(** ** Version *)

Record Version := mkVersion {
  major : Z; minor : Z; patch : Z; prerelease : string; build : string
}.

#[export] Instance Version_eq_dec : EqDecision Version.
Proof. solve_decision. Defined.

(** Default member initialisers of the five-argument constructor. *)
Definition Version3 (maj min pat : Z) : Version := mkVersion maj min pat "" "".
Definition Version0 : Version := Version3 0 0 0.

(** [std::min] of two results of [find], [npos] being the largest. *)
Definition pos_min (a b : option nat) : option nat :=
  match a, b with
  | Some i, Some j => Some (Nat.min i j)
  | Some i, None => Some i
  | None, o => o
  end.

Definition Version_parse (s : string) : result exn Version :=
  if str_empty s then Throw InvalidArgument else
  match str_find_from "." 0 s with
  | None => Throw InvalidArgument
  | Some firstDot =>
    let* maj := parseInt (str_substr 0 firstDot s) in
    let pos := S firstDot in
    match str_find_from "." pos s with
    | None => Throw InvalidArgument
    | Some secondDot =>
      let* min := parseInt (str_substr pos (secondDot - pos) s) in
      let pos := S secondDot in
      let dashPos := str_find_from "-" pos s in
      let plusPos := str_find_from "+" pos s in
      let* pat := parseInt (match pos_min dashPos plusPos with
                            | Some endPos => str_substr pos (endPos - pos) s
                            | None => str_drop pos s
                            end) in
      let pre :=
        match dashPos with
        | Some d =>
            let prereleaseEnd :=
              match plusPos with
              | Some p => if d <? p then p else String.length s
              | None => String.length s
              end in
            str_substr (S d) (prereleaseEnd - d - 1) s
        | None => ""%string
        end in
      let bld := match plusPos with
                 | Some p => str_drop (S p) s
                 | None => ""%string
                 end in
      Ok (mkVersion maj min pat pre bld)
    end
  end.

Definition Version_toString (v : Version) : string :=
  let result := format_int (major v) +:+ "." +:+ format_int (minor v) +:+ "."
                +:+ format_int (patch v) in
  let result := if str_empty (prerelease v) then result
                else result +:+ "-" +:+ prerelease v in
  if str_empty (build v) then result else result +:+ "+" +:+ build v.

Definition Version_toShortString (v : Version) : string :=
  format_int (major v) +:+ "." +:+ format_int (minor v).

(** The comparison operators of version.hpp. *)
Definition Version_lt (a b : Version) : bool :=
  if negb (major a =? major b)%Z then (major a <? major b)%Z else
  if negb (minor a =? minor b)%Z then (minor a <? minor b)%Z else
  if negb (patch a =? patch b)%Z then (patch a <? patch b)%Z else
  if str_empty (prerelease a) && str_empty (prerelease b) then false else
  if str_empty (prerelease a) then false else
  if str_empty (prerelease b) then true else
  str_ltb (prerelease a) (prerelease b).

Definition Version_gt (a b : Version) : bool := Version_lt b a.
Definition Version_eq (a b : Version) : bool :=
  (major a =? major b)%Z && (minor a =? minor b)%Z && (patch a =? patch b)%Z
  && String.eqb (prerelease a) (prerelease b).
Definition Version_le (a b : Version) : bool := negb (Version_lt b a).
Definition Version_ge (a b : Version) : bool := negb (Version_lt a b).

Definition Version_isCompatibleWith (v other : Version) : bool :=
  if negb (major v =? major other)%Z then false else
  if (minor v <? minor other)%Z then true else
  (minor v =? minor other)%Z && (patch v <=? patch other)%Z.

Definition Version_satisfiesRange (v min max : Version) : bool :=
  Version_ge v min && Version_le v max.

Definition Version_isPrerelease (v : Version) : bool := negb (str_empty (prerelease v)).
Definition Version_hasBuildMetadata (v : Version) : bool := negb (str_empty (build v)).

(** ** DateVersion *)

Record DateVersion := mkDateVersion { year : Z; month : Z; day : Z }.

Definition DateVersion_parse (s : string) : result exn DateVersion :=
  if str_empty s then Throw InvalidArgument else
  match str_find_from "-" 0 s with
  | None => Throw InvalidArgument
  | Some firstDash =>
    let* y := parseInt (str_substr 0 firstDash s) in
    let pos := S firstDash in
    match str_find_from "-" pos s with
    | None => Throw InvalidArgument
    | Some secondDash =>
      let* m := parseInt (str_substr pos (secondDash - pos) s) in
      let* d := parseInt (str_drop (S secondDash) s) in
      if (m <? 1)%Z || (12 <? m)%Z || (d <? 1)%Z || (31 <? d)%Z
      then Throw InvalidArgument
      else Ok (mkDateVersion y m d)
    end
  end.

Definition DateVersion_lt (a b : DateVersion) : bool :=
  if negb (year a =? year b)%Z then (year a <? year b)%Z else
  if negb (month a =? month b)%Z then (month a <? month b)%Z else
  (day a <? day b)%Z.
Definition DateVersion_gt (a b : DateVersion) : bool := DateVersion_lt b a.
Definition DateVersion_eq (a b : DateVersion) : bool :=
  (year a =? year b)%Z && (month a =? month b)%Z && (day a =? day b)%Z.
Definition DateVersion_le (a b : DateVersion) : bool := negb (DateVersion_lt b a).
Definition DateVersion_ge (a b : DateVersion) : bool := negb (DateVersion_lt a b).

(** ** Requirement checks *)

Inductive VersionCompareStrategy := Strict | IgnorePrerelease | OnlyMajorMinor.

(** The character at index 1, if any: [size() > 1 && s[1] == c]. *)
Definition second_is (c : char) (s : string) : bool :=
  match s with
  | String _ (String d _) => Ascii.eqb d c
  | _ => false
  end.

Definition checkVersion (actualVersion : Version) (requiredVersionStr : string)
    (strategy : VersionCompareStrategy) : result exn bool :=
  if str_empty requiredVersionStr then Ok true else
  let opLength := if second_is "=" requiredVersionStr
                     || second_is ">" requiredVersionStr then 2 else 1 in
  let operation := str_substr 0 opLength requiredVersionStr in
  let versionPart := str_drop opLength requiredVersionStr in
  let* requiredVersion := Version_parse versionPart in
  let '(actual, required) :=
    match strategy with
    | Strict => (actualVersion, requiredVersion)
    | IgnorePrerelease =>
        (Version3 (major actualVersion) (minor actualVersion) (patch actualVersion),
         Version3 (major requiredVersion) (minor requiredVersion)
                  (patch requiredVersion))
    | OnlyMajorMinor =>
        (Version3 (major actualVersion) (minor actualVersion) 0,
         Version3 (major requiredVersion) (minor requiredVersion) 0)
    end in
  Ok (if String.eqb operation "^" then
        (major actual =? major required)%Z && Version_ge actual required
      else if String.eqb operation "~" then
        (major actual =? major required)%Z && (minor actual =? minor required)%Z
        && Version_ge actual required
      else if String.eqb operation ">" then Version_gt actual required
      else if String.eqb operation "<" then Version_lt actual required
      else if String.eqb operation ">=" then Version_ge actual required
      else if String.eqb operation "<=" then Version_le actual required
      else if String.eqb operation "=" then Version_eq actual required
      else Version_eq actual required).

Definition checkDateVersion (actualVersion : DateVersion)
    (requiredVersionStr : string) : result exn bool :=
  if str_empty requiredVersionStr then Ok true else
  let opLength := if second_is "=" requiredVersionStr then 2 else 1 in
  let operation := str_substr 0 opLength requiredVersionStr in
  let versionPart := str_drop opLength requiredVersionStr in
  let* requiredVersion := DateVersion_parse versionPart in
  if String.eqb operation ">" then Ok (DateVersion_gt actualVersion requiredVersion)
  else if String.eqb operation "<" then Ok (DateVersion_lt actualVersion requiredVersion)
  else if String.eqb operation ">=" then Ok (DateVersion_ge actualVersion requiredVersion)
  else if String.eqb operation "<=" then Ok (DateVersion_le actualVersion requiredVersion)
  else if String.eqb operation "=" then Ok (DateVersion_eq actualVersion requiredVersion)
  else Throw InvalidArgument.

(** ** VersionRange *)

Record VersionRange := mkVersionRange {
  vmin : Version; vmax : Version; includeMin : bool; includeMax : bool
}.

Definition VersionRange_contains (r : VersionRange) (v : Version) : bool :=
  let afterMin := if includeMin r then Version_ge v (vmin r) else Version_gt v (vmin r) in
  let beforeMax := if includeMax r then Version_le v (vmax r) else Version_lt v (vmax r) in
  afterMin && beforeMax.

Definition str_first_is (c : char) (s : string) : bool :=
  match s with String d _ => Ascii.eqb d c | EmptyString => false end.
Fixpoint str_last_is (c : char) (s : string) : bool :=
  match s with
  | EmptyString => false
  | String d EmptyString => Ascii.eqb d c
  | String _ s' => str_last_is c s'
  end.

(** [substr(1, separatorPos - 1)] with [separatorPos = 0] has count [npos];
    the second [substr] has count [length - separatorPos - 2], which wraps to
    [npos] when the comma is the last character. *)
Definition VersionRange_parse (s : string) : result exn VersionRange :=
  if str_empty s then Throw InvalidArgument else
  match str_find "," s with
  | None => Throw InvalidArgument
  | Some sep =>
    let incMin := str_first_is "[" s in
    let incMax := str_last_is "]" s in
    let len := String.length s in
    if len <? 3 then Throw InvalidArgument else
    let minStr := if sep =? 0 then str_drop 1 s else str_substr 1 (sep - 1) s in
    let maxStr := if sep + 2 <=? len then str_substr (S sep) (len - sep - 2) s
                  else str_drop (S sep) s in
    let* mn := Version_parse minStr in
    let* mx := Version_parse maxStr in
    Ok (mkVersionRange mn mx incMin incMax)
  end.

Definition VersionRange_from (minVer : Version) : VersionRange :=
  mkVersionRange minVer (Version3 999 999 999) true false.
Definition VersionRange_upTo (maxVer : Version) : VersionRange :=
  mkVersionRange (Version3 0 0 0) maxVer true true.

Definition VersionRange_toString (r : VersionRange) : string :=
  let core v := format_int (major v) +:+ "." +:+ format_int (minor v) +:+ "."
                +:+ format_int (patch v) in
  (if includeMin r then "[" else "(") +:+ core (vmin r) +:+ ", " +:+ core (vmax r)
  +:+ (if includeMax r then "]" else ")").

Definition VersionRange_overlaps (r other : VersionRange) : bool :=
  if Version_lt (vmax r) (vmin other) || Version_lt (vmax other) (vmin r) then false
  else if Version_eq (vmax r) (vmin other) then includeMax r && includeMin other
  else if Version_eq (vmin r) (vmax other) then includeMin r && includeMax other
  else true.

(** * Properties *)

(** ** Printing and parsing integers *)

Fixpoint all_digits (s : string) : bool :=
  match s with
  | EmptyString => true
  | String c s' => bool_decide (is_Some (digit_val c)) && all_digits s'
  end.

Lemma all_digits_app a b : all_digits (a +:+ b) = all_digits a && all_digits b.
Proof. induction a as [|c a IH]; simpl; [done|]. by rewrite IH, andb_assoc. Qed.

Lemma digit_val_pretty (x : N) :
  (x < 10)%N → digit_val (pretty_N_char x) = Some (Z.of_N x).
Proof.
  intros Hx.
  assert (x = 0 ∨ x = 1 ∨ x = 2 ∨ x = 3 ∨ x = 4 ∨ x = 5 ∨ x = 6 ∨ x = 7
          ∨ x = 8 ∨ x = 9)%N by lia.
  destruct_or!; by subst.
Qed.

Lemma pretty_N_go_digits (x : N) (s : string) :
  ∃ ds, pretty_N_go x s = ds +:+ s ∧ all_digits ds = true
        ∧ (ds = ""%string ↔ x = 0%N)
        ∧ ∃ k : Z, ∀ acc t,
            scan_digits acc (ds +:+ t) = scan_digits (acc * k + Z.of_N x)%Z t.
Proof.
  revert s. induction (N.lt_wf_0 x) as [x _ IH]; intros s.
  destruct (decide (x = 0)%N) as [->|Hx].
  { exists ""%string. rewrite pretty_N_go_0. split_and!; try done.
    exists 1%Z. intros acc t. simpl. f_equal. lia. }
  rewrite pretty_N_go_step by lia.
  destruct (IH (x `div` 10)%N ltac:(apply N.div_lt; lia)
              (String (pretty_N_char (x `mod` 10)) s)) as (ds & -> & Hds & _ & k & Hk).
  exists (ds +:+ String (pretty_N_char (x `mod` 10)) "").
  assert (x `mod` 10 < 10)%N as Hmod by (apply N.mod_lt; lia).
  split_and!.
  - by rewrite <- str_app_assoc.
  - rewrite all_digits_app, Hds. simpl. by rewrite digit_val_pretty.
  - split; [by destruct ds|done].
  - exists (k * 10)%Z. intros acc t. rewrite <- str_app_assoc, Hk. simpl.
    rewrite digit_val_pretty by done. f_equal.
    pose proof (N.div_mod x 10 ltac:(done)) as Hdm. lia.
Qed.

(** Without a sign, a printed integer is a non-empty run of digits that scans
    back to its value. *)
Lemma format_nonneg z :
  (0 ≤ z)%Z → all_digits (format_int z) = true ∧ scan_nat (format_int z) = Some z.
Proof.
  intros Hz. destruct z as [|p|p]; [done| |lia].
  unfold format_int, pretty, pretty_Z, pretty, pretty_positive, pretty, pretty_N.
  destruct (decide _) as [|_]; [done|].
  destruct (pretty_N_go_digits (N.pos p) "") as (ds & -> & Hds & Hne & k & Hk).
  rewrite str_app_empty_r. split; [done|].
  specialize (Hk 0%Z ""%string). rewrite str_app_empty_r in Hk.
  destruct ds as [|c ds]; [by destruct (proj1 Hne eq_refl)|].
  simpl in *. apply andb_true_iff in Hds as [Hc _].
  apply bool_decide_eq_true in Hc as [d Hd]. rewrite Hd in *.
  by rewrite Z.mul_0_l, Z.add_0_l in Hk; rewrite Hk.
Qed.

Lemma format_neg p : format_int (Z.neg p) = String "-" (format_int (Z.pos p)).
Proof. done. Qed.

Lemma digits_no_char c s :
  digit_val c = None → all_digits s = true → str_mem c s = false.
Proof.
  intros Hc. induction s as [|d s IH]; simpl; [done|].
  intros [Hd Hs]%andb_true_iff. apply bool_decide_eq_true in Hd as [v Hv].
  rewrite IH by done. ascii_cases; [congruence|done].
Qed.

Lemma format_int_no_char c z :
  digit_val c = None → c ≠ "-"%char → str_mem c (format_int z) = false.
Proof.
  intros Hc Hd. destruct z as [|p|p].
  - by apply digits_no_char.
  - apply digits_no_char; [done|]. by apply format_nonneg.
  - rewrite format_neg. cbn [str_mem]. ascii_cases; [done|].
    apply digits_no_char; [done|]. by apply format_nonneg.
Qed.

Lemma parseInt_format z : in_int z = true → parseInt (format_int z) = Ok z.
Proof.
  intros Hz. unfold parseInt, from_chars. destruct z as [|p|p].
  - done.
  - destruct (format_nonneg (Z.pos p)) as [Hd Hs]; [lia|].
    destruct (format_int (Z.pos p)) as [|c t]; [done|].
    destruct (Ascii.eqb_spec c "-"); [by subst|]. by rewrite Hs, Hz.
  - rewrite format_neg. destruct (format_nonneg (Z.pos p)) as [_ Hs]; [lia|].
    rewrite Ascii.eqb_refl, Hs. change (Z.opp <$> Some (Z.pos p)) with (Some (Z.neg p)).
    cbv beta iota. by rewrite Hz.
Qed.

(** ** Round trip *)

(** The versions [toString] prints unambiguously: components that fit an
    [int], a non-negative patch (its sign would be read as the prerelease
    separator), no plus sign in the prerelease, and no minus sign in the build
    metadata of a version without a prerelease. *)
Definition Version_printable (v : Version) : bool :=
  in_int (major v) && in_int (minor v) && in_int (patch v) && (0 <=? patch v)%Z
  && negb (str_mem "+" (prerelease v))
  && (negb (str_empty (prerelease v)) || negb (str_mem "-" (build v))).

Definition version_tail (pre bld : string) : string :=
  (if str_empty pre then "" else String "-" pre)
  +:+ (if str_empty bld then "" else String "+" bld).

Lemma Version_toString_eq v :
  Version_toString v =
  format_int (major v) +:+ String "." (format_int (minor v) +:+ String "."
    (format_int (patch v) +:+ version_tail (prerelease v) (build v))).
Proof.
  unfold Version_toString, version_tail.
  destruct (str_empty _), (str_empty _); rewrite <- ?str_app_assoc; simpl;
    rewrite ?str_app_empty_r, <- ?str_app_assoc; done.
Qed.

(** What the parser reads after the second dot of a printed version. *)
Lemma parse_tail (s C pre bld : string) pos :
  str_drop pos s = C +:+ version_tail pre bld →
  str_mem "-" C = false → str_mem "+" C = false → str_mem "+" pre = false →
  (str_empty pre = false ∨ str_mem "-" bld = false) →
  let dashPos := str_find_from "-" pos s in
  let plusPos := str_find_from "+" pos s in
  match pos_min dashPos plusPos with
  | Some endPos => str_substr pos (endPos - pos) s
  | None => str_drop pos s
  end = C
  ∧ match dashPos with
    | Some d =>
        str_substr (S d)
          (match plusPos with
           | Some p => if d <? p then p else String.length s
           | None => String.length s
           end - d - 1) s
    | None => ""%string
    end = pre
  ∧ match plusPos with Some p => str_drop (S p) s | None => ""%string end = bld.
Proof.
  intros Hs HdC HpC Hpp Hamb. unfold version_tail in Hs.
  destruct pre as [|c pre], bld as [|e bld]; cbn [str_empty String.append] in Hs.
  - rewrite str_app_empty_r in Hs.
    rewrite !str_find_from_none by (by rewrite Hs). by simpl.
  - destruct Hamb as [|Hamb]; [done|].
    rewrite (str_find_from_none "-") by
      (rewrite Hs, str_mem_app, HdC; simpl; by simpl in Hamb).
    rewrite (str_find_from_at "+" _ C (String e bld)) by done. simpl.
    replace (String.length C + pos - pos) with (String.length C) by lia.
    rewrite (str_substr_at _ _ _ _ Hs). split_and!; try done.
    by apply str_drop_past_char with (c := "+"%char).
  - rewrite str_app_empty_r in Hs.
    rewrite (str_find_from_none "+") by
      (rewrite Hs, str_mem_app, HpC; simpl; by simpl in Hpp).
    rewrite (str_find_from_at "-" _ C (String c pre)) by done. simpl.
    replace (String.length C + pos - pos) with (String.length C) by lia.
    rewrite (str_substr_at _ _ _ _ Hs). split_and!; try done.
    unfold str_substr. rewrite (str_drop_past_char _ _ _ _ _ Hs).
    apply (f_equal String.length) in Hs.
    rewrite str_length_drop, str_length_app in Hs. simpl in Hs.
    apply (str_take_all (String c pre)). simpl. lia.
  - set (P := String c pre) in *. set (B := String e bld) in *.
    assert (str_drop pos s = (C +:+ String "-" P) +:+ String "+" B) as Hs'.
    { by rewrite <- str_app_assoc. }
    rewrite (str_find_from_at "+" _ (C +:+ String "-" P) B) by
      (try done; rewrite str_mem_app, HpC; simpl; done).
    rewrite (str_find_from_at "-" _ C (P +:+ String "+" B)) by done.
    rewrite str_length_app. cbn [pos_min].
    rewrite Nat.min_l by lia.
    replace (String.length C + pos - pos) with (String.length C) by lia.
    rewrite (str_substr_at _ _ _ _ Hs). split_and!; try done.
    + destruct (Nat.ltb_spec (String.length C + pos)
                  (String.length C + String.length (String "-" P) + pos)) as [_|];
        [|simpl in *; lia].
      replace (_ - _ - 1) with (String.length P) by (simpl; lia).
      apply str_substr_at with (y := String "+" B).
      by apply str_drop_past_char with (c := "-"%char).
    + rewrite <- str_length_app.
      by apply str_drop_past_char with (c := "+"%char).
Qed.

Lemma printed_not_empty z s : str_empty (format_int z +:+ s) = false.
Proof.
  destruct z as [|p|p]; [done| |done].
  destruct (format_nonneg (Z.pos p)) as [_ Hs]; [lia|].
  by destruct (format_int (Z.pos p)).
Qed.

Lemma parse_printed (v : Version) :
  Version_printable v = true → Version_parse (Version_toString v) = Ok v.
Proof.
  unfold Version_printable. rewrite !andb_true_iff, orb_true_iff, !negb_true_iff, Z.leb_le.
  intros [[[[[HA HB] HC] Hpos] Hpp] Hamb].
  rewrite Version_toString_eq. unfold Version_parse. rewrite printed_not_empty.
  set (A := format_int (major v)). set (B := format_int (minor v)).
  set (C := format_int (patch v)). set (T := version_tail _ _).
  set (s := A +:+ _).
  assert (str_drop 0 s = A +:+ String "." (B +:+ String "." (C +:+ T))) as H0.
  { by rewrite str_drop_0. }
  assert (∀ z, str_mem "." (format_int z) = false) as Hdot.
  { intros z. by apply format_int_no_char. }
  rewrite (str_find_from_at "." _ _ _ _ H0) by apply Hdot.
  rewrite Nat.add_0_r. rewrite (str_substr_at _ _ _ _ H0).
  unfold A at 1. rewrite parseInt_format by done. cbn [rbind].
  apply str_drop_past_char in H0. rewrite Nat.add_0_r in H0.
  rewrite (str_find_from_at "." _ _ _ _ H0) by apply Hdot.
  rewrite Nat.add_sub, (str_substr_at _ _ _ _ H0).
  unfold B at 1. rewrite parseInt_format by done. cbn [rbind].
  apply str_drop_past_char in H0.
  assert (str_mem "-" C = false) as HdC.
  { apply digits_no_char; [done|]. by apply format_nonneg. }
  assert (str_mem "+" C = false) as HpC by by apply format_int_no_char.
  destruct (parse_tail s C (prerelease v) (build v) _ H0) as (-> & -> & ->);
    [done..|].
  cbv zeta. unfold C. rewrite parseInt_format by done. cbn [rbind]. by destruct v.
Qed.

(** [Version::parse] reads back every version that [toString] prints
    unambiguously: all five fields, prerelease and build metadata included. *)
Theorem Version_parse_toString (v : Version) :
  Version_printable v = true → Version_parse (Version_toString v) = Ok v.
Proof. apply parse_printed. Qed.

Lemma Version_parse_toString_witness :
  Version_parse "2.14.0-rc.1+build-7" = Ok (mkVersion 2 14 0 "rc.1" "build-7").
Proof.
  apply (Version_parse_toString (mkVersion 2 14 0 "rc.1" "build-7")).
  vm_compute; reflexivity.
Defined.

(** The minus sign of build metadata is taken for the prerelease separator, so
    the last side condition of the round trip cannot be dropped. *)
Example build_metadata_misread :
  Version_parse "1.0.0+a-b" = Ok (mkVersion 1 0 0 "b" "a-b").
Proof. vm_compute. reflexivity. Qed.

(** ** Ordering *)

(** Case analysis on the integer and boolean tests of a comparison. *)
Ltac cmp_cases :=
  repeat match goal with
  | |- context [(?x =? ?y)%Z] => destruct (Z.eqb_spec x y); simpl
  | H : context [(?x =? ?y)%Z] |- _ => destruct (Z.eqb_spec x y); simpl in H
  | |- context [(?x <? ?y)%Z] => destruct (Z.ltb_spec x y); simpl
  | H : context [(?x <? ?y)%Z] |- _ => destruct (Z.ltb_spec x y); simpl in H
  end; try done; try lia.

(** The prerelease part of the order: a missing prerelease is the largest. *)
Definition pre_lt (a b : string) : bool :=
  if str_empty a && str_empty b then false else
  if str_empty a then false else
  if str_empty b then true else str_ltb a b.

Lemma pre_lt_trans a b c : pre_lt a b = true → pre_lt b c = true → pre_lt a c = true.
Proof.
  unfold pre_lt. destruct a, b, c; simpl; try done.
  apply (str_ltb_trans (String _ _) (String _ _) (String _ _)).
Qed.

Lemma pre_lt_irrefl a : pre_lt a a = false.
Proof. destruct a as [|c a]; [done|]. apply (str_ltb_irrefl (String c a)). Qed.

Lemma pre_lt_total a b : pre_lt a b = false → pre_lt b a = false → a = b.
Proof.
  unfold pre_lt. destruct a, b; simpl; try done.
  apply (str_ltb_total (String _ _) (String _ _)).
Qed.

Lemma Version_lt_pre a b :
  Version_lt a b =
  if negb (major a =? major b)%Z then (major a <? major b)%Z else
  if negb (minor a =? minor b)%Z then (minor a <? minor b)%Z else
  if negb (patch a =? patch b)%Z then (patch a <? patch b)%Z else
  pre_lt (prerelease a) (prerelease b).
Proof. done. Qed.

Lemma Version_lt_irrefl a : Version_lt a a = false.
Proof. rewrite Version_lt_pre, !Z.eqb_refl. apply pre_lt_irrefl. Qed.

Lemma Version_lt_trans a b c :
  Version_lt a b = true → Version_lt b c = true → Version_lt a c = true.
Proof.
  rewrite !Version_lt_pre. intros H1 H2. cmp_cases. eauto using pre_lt_trans.
Qed.

Lemma Version_lt_asym a b : Version_lt a b = true → Version_lt b a = false.
Proof.
  intros H. destruct (Version_lt b a) eqn:E; [|done].
  by rewrite <- (Version_lt_irrefl a), <- (Version_lt_trans _ _ _ H E).
Qed.

Lemma Version_eq_iff a b :
  Version_eq a b = true ↔ Version_lt a b = false ∧ Version_lt b a = false.
Proof.
  unfold Version_eq. rewrite !Version_lt_pre, !andb_true_iff, !Z.eqb_eq, String.eqb_eq.
  split.
  - intros [[[-> ->] ->] ->]. rewrite !Z.eqb_refl. simpl. by rewrite pre_lt_irrefl.
  - intros [H1 H2]. cmp_cases. split_and!; auto using pre_lt_total.
Qed.

(** The comparisons only depend on the equivalence class of [==]. *)
Lemma Version_eq_lt a b c :
  Version_eq a b = true → Version_lt a c = Version_lt b c ∧ Version_lt c a = Version_lt c b.
Proof.
  unfold Version_eq. rewrite !andb_true_iff, !Z.eqb_eq, String.eqb_eq.
  intros [[[H1 H2] H3] H4]. by rewrite !Version_lt_pre, H1, H2, H3, H4.
Qed.

(** [operator<] of [Version] is a strict order, and for any two versions
    exactly one of [a < b], [a == b] and [b < a] holds; [<=], [>=] and [>] are
    the relations derived from it (build metadata never matters). *)
Theorem Version_order a b c :
  (Version_lt a b = true → Version_lt b c = true → Version_lt a c = true)
  ∧ ((Version_lt a b = true ∧ Version_eq a b = false ∧ Version_lt b a = false)
     ∨ (Version_lt a b = false ∧ Version_eq a b = true ∧ Version_lt b a = false)
     ∨ (Version_lt a b = false ∧ Version_eq a b = false ∧ Version_lt b a = true))
  ∧ Version_le a b = Version_lt a b || Version_eq a b
  ∧ Version_ge a b = Version_gt a b || Version_eq a b.
Proof.
  assert ((Version_lt a b = true ∧ Version_eq a b = false ∧ Version_lt b a = false)
     ∨ (Version_lt a b = false ∧ Version_eq a b = true ∧ Version_lt b a = false)
     ∨ (Version_lt a b = false ∧ Version_eq a b = false ∧ Version_lt b a = true)) as Htri.
  { pose proof (Version_eq_iff a b) as He. pose proof (Version_lt_asym a b).
    destruct (Version_lt a b), (Version_lt b a), (Version_eq a b); intuition congruence. }
  split_and!; [apply Version_lt_trans|done|..];
    unfold Version_le, Version_ge, Version_gt;
    destruct Htri as [(-> & -> & ->)|[(-> & -> & ->)|(-> & -> & ->)]]; done.
Qed.

(** ** Ranges *)

Lemma Version_le_lt_trans a b c :
  Version_lt b a = false → Version_lt b c = true → Version_lt a c = true.
Proof.
  intros H1 H2. destruct (Version_lt a b) eqn:E; [by eapply Version_lt_trans|].
  assert (Version_eq a b = true) as He by by apply Version_eq_iff.
  by rewrite (proj1 (Version_eq_lt _ _ c He)).
Qed.

Lemma Version_lt_le_trans a b c :
  Version_lt a b = true → Version_lt c b = false → Version_lt a c = true.
Proof.
  intros H1 H2. destruct (Version_lt b c) eqn:E; [by eapply Version_lt_trans|].
  assert (Version_eq b c = true) as He by by apply Version_eq_iff.
  by rewrite <- (proj2 (Version_eq_lt _ _ a He)).
Qed.

(** A version of the range lies between its ends, strictly at an excluded end. *)
Lemma VersionRange_contains_bounds r v :
  VersionRange_contains r v = true →
  Version_lt v (vmin r) = false ∧ Version_lt (vmax r) v = false
  ∧ (includeMin r = false → Version_lt (vmin r) v = true)
  ∧ (includeMax r = false → Version_lt v (vmax r) = true).
Proof.
  unfold VersionRange_contains, Version_ge, Version_gt, Version_le.
  rewrite andb_true_iff. intros [H1 H2].
  destruct (includeMin r), (includeMax r); rewrite ?negb_true_iff in *;
    split_and!; auto using Version_lt_asym; done.
Qed.

(** [VersionRange::overlaps] never misses an overlap: when it answers
    false, no version is contained in both ranges. *)
Theorem VersionRange_overlaps_false (r s : VersionRange) (v : Version) :
  VersionRange_overlaps r s = false →
  VersionRange_contains r v && VersionRange_contains s v = false.
Proof.
  intros Hno. apply not_true_iff_false. rewrite andb_true_iff.
  intros [(Hr1 & Hr2 & Hr3 & Hr4)%VersionRange_contains_bounds
          (Hs1 & Hs2 & Hs3 & Hs4)%VersionRange_contains_bounds].
  assert (∀ a b, Version_lt b v = false → Version_lt v a = false →
                 Version_lt b a = false) as Hbetween.
  { intros a b Hb Ha. apply not_true_iff_false. intros Hlt.
    by rewrite (Version_lt_le_trans _ _ _ Hlt Ha) in Hb. }
  unfold VersionRange_overlaps in Hno.
  rewrite (Hbetween _ _ Hr2 Hs1), (Hbetween _ _ Hs2 Hr1) in Hno. simpl in Hno.
  destruct (Version_eq (vmax r) (vmin s)) eqn:E1; [|
    destruct (Version_eq (vmin r) (vmax s)) eqn:E2; [|done]].
  - destruct (Version_eq_lt _ _ v E1) as [E3 E4].
    destruct (includeMax r); [|by rewrite <- E4, Hr4 in Hs1].
    destruct (includeMin s); [done|by rewrite E3, Hs3 in Hr2].
  - destruct (Version_eq_lt _ _ v E2) as [E3 E4].
    destruct (includeMin r); [|by rewrite <- E3, Hr3 in Hs2].
    destruct (includeMax s); [done|by rewrite E4, Hs4 in Hr1].
Qed.

Lemma VersionRange_overlaps_false_witness :
  VersionRange_contains (VersionRange_upTo (Version3 1 0 0)) (Version3 1 0 0)
  && VersionRange_contains
       (mkVersionRange (Version3 1 0 0) (Version3 2 0 0) false true) (Version3 1 0 0)
  = false.
Proof. apply VersionRange_overlaps_false. vm_compute. reflexivity. Defined.

(** ** Requirement strings *)

(** The operators a requirement may start with, and their meaning. *)
Inductive req_op := Caret | Tilde | Gt | Lt | Ge | Le | Eq.

Definition op_text (o : req_op) : string :=
  match o with
  | Caret => "^" | Tilde => "~" | Gt => ">" | Lt => "<" | Ge => ">=" | Le => "<="
  | Eq => "="
  end.

Definition op_holds (o : req_op) (a r : Version) : Prop :=
  match o with
  | Caret => major a = major r ∧ Version_lt a r = false
  | Tilde => major a = major r ∧ minor a = minor r ∧ Version_lt a r = false
  | Gt => Version_lt r a = true
  | Lt => Version_lt a r = true
  | Ge => Version_lt a r = false
  | Le => Version_lt r a = false
  | Eq => Version_lt a r = false ∧ Version_lt r a = false
  end.

(** The part of a version a comparison strategy looks at. *)
Definition project (st : VersionCompareStrategy) (v : Version) : Version :=
  match st with
  | Strict => v
  | IgnorePrerelease => mkVersion (major v) (minor v) (patch v) "" ""
  | OnlyMajorMinor => mkVersion (major v) (minor v) 0 "" ""
  end.

(** A printed integer starts with neither of the characters [checkVersion]
    looks for after the operator. *)
Lemma printed_head z s :
  ∃ c t, format_int z +:+ s = String c t ∧ Ascii.eqb c "=" = false
         ∧ Ascii.eqb c ">" = false.
Proof.
  destruct z as [|p|p]; [by eexists _, _| |by eexists _, _].
  destruct (format_nonneg (Z.pos p)) as [Hd Hs]; [lia|].
  destruct (format_int (Z.pos p)) as [|c t]; [done|].
  exists c, (t +:+ s). simpl in Hd. apply andb_true_iff in Hd as [Hc _].
  apply bool_decide_eq_true in Hc as [v Hv].
  split_and!; [done|by ascii_cases..].
Qed.

(** A requirement made of an operator and a printed version is decided
    by the order on versions, at the precision of the comparison strategy: the
    caret also asks for the same major version, the tilde for the same major
    and minor. *)
Theorem checkVersion_operator (o : req_op) (actual v : Version)
    (st : VersionCompareStrategy) :
  Version_printable v = true →
  ∃ b, checkVersion actual (op_text o +:+ Version_toString v) st = Ok b
       ∧ (b = true ↔ op_holds o (project st actual) (project st v)).
Proof.
  intros Hv. unfold checkVersion.
  assert (∃ c t, Version_toString v = String c t ∧ Ascii.eqb c "=" = false
                 ∧ Ascii.eqb c ">" = false) as (c & t & Hs & He & Hg).
  { rewrite Version_toString_eq. apply printed_head. }
  pose proof (parse_printed v Hv) as Hparse. rewrite Hs in *.
  assert (∀ a b, (a =? b)%Z = true ↔ a = b) as Hz by apply Z.eqb_eq.
  destruct o; cbn [op_text String.append str_empty second_is orb];
    rewrite ?He, ?Hg; simpl; unfold str_substr; simpl; rewrite Hparse; simpl;
    destruct st; simpl; eexists; (split; [reflexivity|]);
    unfold Version_ge, Version_gt, Version_le;
    rewrite ?Version_eq_iff, ?andb_true_iff, ?negb_true_iff, ?Hz; simpl; tauto.
Qed.

Lemma checkVersion_operator_witness :
  ∃ b, checkVersion (Version3 1 4 0) "^1.2.0" Strict = Ok b
       ∧ (b = true ↔ op_holds Caret (Version3 1 4 0) (Version3 1 2 0)).
Proof.
  apply (checkVersion_operator Caret (Version3 1 4 0) (Version3 1 2 0) Strict).
  vm_compute. reflexivity.
Defined.

(** A requirement without an operator is not an exact match: its first
    character is dropped as if it were the operator, so "11.0.0" is satisfied
    by version 1.0.0 and not by 11.0.0, and "1.0.0" cannot be parsed at all. *)
Example checkVersion_bare_requirement :
  Version_parse "11.0.0" = Ok (Version3 11 0 0)
  ∧ checkVersion (Version3 1 0 0) "11.0.0" Strict = Ok true
  ∧ checkVersion (Version3 11 0 0) "11.0.0" Strict = Ok false
  ∧ checkVersion (Version3 1 0 0) "1.0.0" Strict = Throw InvalidArgument.
Proof. vm_compute. done. Qed.

(** The text of a range does not parse back: the blank after the comma is not
    a digit. *)
Example range_text_not_parsed :
  let r := mkVersionRange (Version3 1 0 0) (Version3 2 0 0) true false in
  VersionRange_toString r = "[1.0.0, 2.0.0)"%string
  ∧ VersionRange_parse (VersionRange_toString r) = Throw InvalidArgument.
Proof. vm_compute. done. Qed.

(** [DateVersion::parse] only returns dates whose month is in 1..12 and
    whose day is in 1..31, with the year an [int]. *)
Theorem DateVersion_parse_bounds (s : string) (d : DateVersion) :
  DateVersion_parse s = Ok d →
  (INT_MIN ≤ year d ≤ INT_MAX ∧ 1 ≤ month d ≤ 12 ∧ 1 ≤ day d ≤ 31)%Z.
Proof.
  assert (∀ t z, parseInt t = Ok z → (INT_MIN ≤ z ≤ INT_MAX)%Z) as Hint.
  { intros t z. unfold parseInt, from_chars.
    repeat (case_match; try done); intros; simplify_eq;
      by eapply bool_decide_eq_true_1. }
  unfold DateVersion_parse. destruct (str_empty s); [done|].
  destruct (str_find_from _ 0 s); [|done].
  intros (y & Hy%Hint & Hd)%rbind_ok_inv.
  destruct (str_find_from _ _ s); [|done].
  apply rbind_ok_inv in Hd as (m & _ & (dd & _ & Hd)%rbind_ok_inv).
  destruct (m <? 1)%Z eqn:?, (12 <? m)%Z eqn:?, (dd <? 1)%Z eqn:?, (31 <? dd)%Z eqn:?;
    simpl in Hd; try done. injection Hd as <-. simpl. lia.
Qed.

Lemma DateVersion_parse_bounds_witness :
  (INT_MIN ≤ 2024 ≤ INT_MAX ∧ 1 ≤ 12 ≤ 12 ∧ 1 ≤ 26 ≤ 31)%Z.
Proof.
  apply (DateVersion_parse_bounds "2024-12-26" (mkDateVersion 2024 12 26)).
  vm_compute. reflexivity.
Defined.
