(* ===== verification/DependencyGraph.v ===== *)
(** * DependencyGraph: component dependencies

    Models class DependencyGraph of src/src/components/core/dependency.hpp and
    dependency.cpp.  The two edge maps, the version map and the caches are a
    record of finite maps; every method is a function on it.  The depth-first
    searches take fuel, and [fuel_enough] lemmas show that the number of nodes
    is enough.  The locks are not modelled: each method is one atomic step. *)

From S2P Require Import Prelude Version Digraph.
From stdpp Require Import relations.

Abbreviation Node := string.

Record DependencyGraph := mkDependencyGraph {
  adjList : gmap Node (gset Node);
  incomingEdges : gmap Node (gset Node);
  nodeVersions : gmap Node Version;
  priorities : gmap Node Z;
  groups : gmap string (list Node);
  dependencyCache : gmap Node (list Node)
}.

#[export] Instance DependencyGraph_eta : Eta DependencyGraph := λ g,
  mkDependencyGraph (adjList g) (incomingEdges g) (nodeVersions g) (priorities g)
    (groups g) (dependencyCache g).

Definition DependencyGraph_new : DependencyGraph := mkDependencyGraph ∅ ∅ ∅ ∅ ∅ ∅.

(** ** Nodes and edges *)

(** [clear] leaves the groups alone. *)
Definition clear (g : DependencyGraph) : DependencyGraph :=
  mkDependencyGraph ∅ ∅ ∅ ∅ (groups g) ∅.

(** [try_emplace(node)]: an empty set unless the key is present. *)
Definition try_emplace (node : Node) (m : gmap Node (gset Node)) : gmap Node (gset Node) :=
  match m !! node with Some _ => m | None => <[node := ∅]> m end.

Definition addNode (node : Node) (version : Version) (g : DependencyGraph)
    : result exn DependencyGraph :=
  if str_empty node then Throw InvalidArgument else
  Ok g <| adjList := try_emplace node (adjList g) |>
       <| incomingEdges := try_emplace node (incomingEdges g) |>
       <| nodeVersions := <[node := version]> (nodeVersions g) |>.

Definition nodeExists (g : DependencyGraph) (node : Node) : bool :=
  bool_decide (is_Some (adjList g !! node)).

Definition getNodeVersion (g : DependencyGraph) (node : Node) : option Version :=
  nodeVersions g !! node.

Definition validateVersion (g : DependencyGraph) (from to : Node)
    (requiredVersion : Version) : result exn unit :=
  match getNodeVersion g to with
  | None => Throw InvalidArgument
  | Some toVersion =>
      if Version_lt toVersion requiredVersion then Throw InvalidArgument else Ok tt
  end.

(** [m[k].insert(x)]: [operator[]] creates the entry. *)
Definition edge_insert (k x : Node) (m : gmap Node (gset Node)) : gmap Node (gset Node) :=
  <[k := {[x]} ∪ default ∅ (m !! k)]> m.

Definition addDependency (from to : Node) (requiredVersion : Version)
    (g : DependencyGraph) : result exn DependencyGraph :=
  if str_empty from || str_empty to then Throw InvalidArgument else
  if String.eqb from to then Throw InvalidArgument else
  let* _ := validateVersion g from to requiredVersion in
  Ok g <| adjList := edge_insert from to (adjList g) |>
       <| incomingEdges := edge_insert to from (incomingEdges g) |>.

Definition removeNode (node : Node) (g : DependencyGraph) : DependencyGraph :=
  g <| adjList := (λ s : gset Node, s ∖ {[node]}) <$> delete node (adjList g) |>
    <| incomingEdges := (λ s : gset Node, s ∖ {[node]}) <$> delete node (incomingEdges g) |>
    <| nodeVersions := delete node (nodeVersions g) |>
    <| priorities := delete node (priorities g) |>
    <| dependencyCache := delete node (dependencyCache g) |>.

(** [if (m.find(k) != m.end()) m[k].erase(x)]. *)
Definition edge_erase (k x : Node) (m : gmap Node (gset Node)) : gmap Node (gset Node) :=
  match m !! k with
  | Some s => <[k := s ∖ {[x]}]> m
  | None => m
  end.

Definition removeDependency (from to : Node) (g : DependencyGraph) : DependencyGraph :=
  g <| adjList := edge_erase from to (adjList g) |>
    <| incomingEdges := edge_erase to from (incomingEdges g) |>.

Definition setPriority (node : Node) (priority : Z) (g : DependencyGraph) : DependencyGraph :=
  g <| priorities := <[node := priority]> (priorities g) |>.

Definition addGroup (groupName : string) (nodes : list Node) (g : DependencyGraph)
    : result exn DependencyGraph :=
  if str_empty groupName then Throw InvalidArgument else
  Ok g <| groups := <[groupName := nodes]> (groups g) |>.

Definition clearCache (g : DependencyGraph) : DependencyGraph :=
  g <| dependencyCache := ∅ |>.

Section iteration.
Context `{!HashIter Node}.

Definition getDependencies (g : DependencyGraph) (node : Node) : list Node :=
  match adjList g !! node with
  | None => []
  | Some dependencies => iter_set dependencies
  end.

Definition getDependents (g : DependencyGraph) (node : Node) : list Node :=
  match incomingEdges g !! node with
  | None => []
  | Some dependents => iter_set dependents
  end.

(** ** Cycles *)

(** The loop over the neighbors of [node]; [util] is the recursive call.
    [None] is exhausted fuel. *)
Fixpoint hasCycle_loop
    (util : Node → gset Node → gset Node → option (bool * gset Node * gset Node))
    (neighbors : list Node) (visited recStack : gset Node)
    : option (bool * gset Node * gset Node) :=
  match neighbors with
  | [] => Some (false, visited, recStack)
  | neighbor :: rest =>
      match (if decide (neighbor ∉ visited) then util neighbor visited recStack
             else Some (false, visited, recStack)) with
      | None => None
      | Some (true, visited', recStack') => Some (true, visited', recStack')
      | Some (false, visited', recStack') =>
          if decide (neighbor ∈ recStack') then Some (true, visited', recStack')
          else hasCycle_loop util rest visited' recStack'
      end
  end.

(** A missing key makes [at] throw; the handler of the same frame returns
    false and leaves the node on the recursion stack. *)
Fixpoint hasCycleUtil (fuel : nat) (g : DependencyGraph) (node : Node)
    (visited recStack : gset Node) : option (bool * gset Node * gset Node) :=
  match fuel with
  | 0 => None
  | S fuel' =>
      if decide (node ∉ visited) then
        let visited := {[node]} ∪ visited in
        let recStack := {[node]} ∪ recStack in
        match adjList g !! node with
        | None => Some (false, visited, recStack)
        | Some neighbors =>
            match hasCycle_loop (hasCycleUtil fuel' g) (iter_set neighbors)
                    visited recStack with
            | Some (false, visited, recStack) =>
                Some (false, visited, recStack ∖ {[node]})
            | r => r
            end
        end
      else Some (false, visited, recStack ∖ {[node]})
  end.

Fixpoint hasCycle_nodes (fuel : nat) (g : DependencyGraph) (nodes : list Node)
    (visited recStack : gset Node) : option bool :=
  match nodes with
  | [] => Some false
  | node :: rest =>
      match hasCycleUtil fuel g node visited recStack with
      | None => None
      | Some (true, _, _) => Some true
      | Some (false, visited', recStack') => hasCycle_nodes fuel g rest visited' recStack'
      end
  end.

Definition dfs_fuel (g : DependencyGraph) : nat := S (size (adjList g)).

Definition hasCycle (g : DependencyGraph) : option bool :=
  hasCycle_nodes (dfs_fuel g) g (iter_keys (adjList g)) ∅ ∅.

(** ** Topological sort *)

(** The stack is a list with its top first. *)
Fixpoint topologicalSort_loop
    (util : Node → gset Node → list Node → option (bool * gset Node * list Node))
    (neighbors : list Node) (visited : gset Node) (stack : list Node)
    : option (bool * gset Node * list Node) :=
  match neighbors with
  | [] => Some (true, visited, stack)
  | neighbor :: rest =>
      if decide (neighbor ∉ visited) then
        match util neighbor visited stack with
        | None => None
        | Some (false, visited', stack') => Some (false, visited', stack')
        | Some (true, visited', stack') => topologicalSort_loop util rest visited' stack'
        end
      else topologicalSort_loop util rest visited stack
  end.

Fixpoint topologicalSortUtil (fuel : nat) (g : DependencyGraph) (node : Node)
    (visited : gset Node) (stack : list Node) : option (bool * gset Node * list Node) :=
  match fuel with
  | 0 => None
  | S fuel' =>
      let visited := {[node]} ∪ visited in
      match adjList g !! node with
      | None => Some (false, visited, stack)
      | Some neighbors =>
          match topologicalSort_loop (topologicalSortUtil fuel' g) (iter_set neighbors)
                  visited stack with
          | Some (true, visited, stack) => Some (true, visited, node :: stack)
          | r => r
          end
      end
  end.

(** The outer loop and the copy of the stack to a vector, top first. *)
Definition topologicalSort (g : DependencyGraph) : option (option (list Node)) :=
  match topologicalSort_loop (topologicalSortUtil (dfs_fuel g) g)
          (iter_keys (adjList g)) ∅ [] with
  | None => None
  | Some (false, _, _) => Some None
  | Some (true, _, stack) => Some (Some stack)
  end.

(** ** Transitive dependencies *)

Fixpoint getAllDependencies_loop (util : Node → gset Node → option (gset Node))
    (neighbors : list Node) (all : gset Node) : option (gset Node) :=
  match neighbors with
  | [] => Some all
  | neighbor :: rest =>
      if decide (neighbor ∉ all) then
        match util neighbor ({[neighbor]} ∪ all) with
        | None => None
        | Some all' => getAllDependencies_loop util rest all'
        end
      else getAllDependencies_loop util rest all
  end.

Fixpoint getAllDependenciesUtil (fuel : nat) (g : DependencyGraph) (node : Node)
    (all : gset Node) : option (gset Node) :=
  match fuel with
  | 0 => None
  | S fuel' =>
      match adjList g !! node with
      | None => Some all
      | Some neighbors =>
          getAllDependencies_loop (getAllDependenciesUtil fuel' g) (iter_set neighbors) all
      end
  end.

(** The first call is made on a node that is not yet in the set, so one more
    unit of fuel than nodes is used. *)
Definition getAllDependencies (g : DependencyGraph) (node : Node) : option (gset Node) :=
  getAllDependenciesUtil (S (dfs_fuel g)) g node ∅.

Fixpoint group_loop (g : DependencyGraph) (nodes : list Node) (result : gset Node)
    : option (gset Node) :=
  match nodes with
  | [] => Some result
  | node :: rest =>
      if nodeExists g node then
        match getAllDependencies g node with
        | None => None
        | Some deps => group_loop g rest ({[node]} ∪ (deps ∪ result))
        end
      else group_loop g rest result
  end.

Definition getGroupDependencies (g : DependencyGraph) (groupName : string)
    : option (list Node) :=
  match groups g !! groupName with
  | None => Some []
  | Some nodes => iter_set <$> group_loop g nodes ∅
  end.

(** ** Version checks *)

Definition conflicts_of (g : DependencyGraph) (node dep : Node)
    : list (Node * Node * Version * Version) :=
  match nodeVersions g !! dep with
  | None => []
  | Some required =>
      flat_map (λ '(otherNode, otherDeps),
        if negb (String.eqb otherNode node) && bool_decide (dep ∈ (otherDeps : gset Node))
        then match nodeVersions g !! dep with
             | None => []
             | Some otherRequired =>
                 if negb (Version_eq required otherRequired)
                 then [(node, otherNode, required, otherRequired)] else []
             end
        else []) (iter_map (adjList g))
  end.

Definition detectVersionConflicts (g : DependencyGraph)
    : list (Node * Node * Version * Version) :=
  flat_map (λ '(node, deps),
    flat_map (conflicts_of g node) (iter_set (deps : gset Node)))
    (iter_map (adjList g)).

(** The body of the loop over the dependencies of [validateDependencies]:
    [depVersion] is checked once per node that depends on [dep]. *)
Definition validate_dep (g : DependencyGraph) (node dep : Node) : bool :=
  nodeExists g dep &&
  match getNodeVersion g dep with
  | None => true
  | Some depVersion =>
      forallb (λ '(_, otherDeps),
        if bool_decide (dep ∈ (otherDeps : gset Node))
        then is_ok (validateVersion g node dep depVersion) else true)
        (iter_map (adjList g))
  end.

Definition validateDependencies (g : DependencyGraph) (node : Node) : option bool :=
  if negb (nodeExists g node) then Some false else
  match getAllDependencies g node with
  | None => None
  | Some deps => Some (forallb (validate_dep g node) (iter_set deps))
  end.
End iteration.

(** ** Removing duplicates *)

Fixpoint removeDuplicates_loop (input : list Node) (uniqueNodes : gset Node)
    (result : list Node) : list Node :=
  match input with
  | [] => result
  | node :: rest =>
      if decide (node ∉ uniqueNodes)
      then removeDuplicates_loop rest ({[node]} ∪ uniqueNodes) (result ++ [node])
      else removeDuplicates_loop rest uniqueNodes result
  end.

Definition removeDuplicates (input : list Node) : list Node :=
  removeDuplicates_loop input ∅ [].

(** ** Package files

    What the JSON, XML and YAML libraries report about a package file is input
    of the model: [Throw e] is a file that cannot be opened or parsed. *)

Inductive json_field := FieldAbsent | FieldNotString | FieldString (s : string).

Record JsonPackage := mkJsonPackage {
  jp_name : json_field;
  jp_version : json_field;
  jp_dependencies : list (string * option string)  (* [None]: not a string *)
}.

Record XmlPackage := mkXmlPackage {
  xp_root : bool;
  xp_name : option string;             (* text of the <name> element *)
  xp_depends : list (option string)    (* texts of the <depend> elements *)
}.

Record YamlPackage := mkYamlPackage {
  yp_name : option string;
  yp_dependencies : list (string * string)
}.

(** A directory: for each file name of FILE_TYPES, the file if it exists. *)
Record PackageDir := mkPackageDir {
  package_json : option (result exn JsonPackage);
  package_xml : option (result exn XmlPackage);
  package_yaml : option (result exn YamlPackage)
}.

Definition json_dep (deps : result exn (gmap Node Version)) (kv : string * option string)
    : result exn (gmap Node Version) :=
  let* deps := deps in
  match kv.2 with
  | Some text => let* v := Version_parse text in Ok (<[kv.1 := v]> deps)
  | None => Ok (<[kv.1 := Version0]> deps)
  end.

Definition parsePackageJson (doc : result exn JsonPackage)
    : result exn (Node * gmap Node Version) :=
  let* packageJson := doc in
  match jp_name packageJson with
  | FieldAbsent => Throw MissingArgument
  | FieldNotString => Throw JsonError
  | FieldString packageName =>
      let version :=
        match jp_version packageJson with
        | FieldAbsent => Version_parse "0.0.0"
        | FieldNotString => Throw JsonError
        | FieldString s => Version_parse s
        end in
      let own := match version with Ok v => v | Throw _ => Version0 end in
      let* deps := fold_left json_dep (jp_dependencies packageJson)
                     (Ok {[packageName := own]}) in
      Ok (packageName, deps)
  end.

Definition parsePackageXml (doc : result exn XmlPackage)
    : result exn (Node * gmap Node Version) :=
  let* root := doc in
  if negb (xp_root root) then Throw MissingArgument else
  match xp_name root with
  | None => Throw MissingArgument
  | Some packageName =>
      Ok (packageName,
          fold_left (λ (deps : gmap Node Version) (text : option string),
            match text with Some t => <[t := Version0]> deps | None => deps end)
            (xp_depends root) ∅)
  end.

Definition parsePackageYaml (doc : result exn YamlPackage)
    : result exn (Node * gmap Node Version) :=
  let* config := doc in
  match yp_name config with
  | None => Throw MissingArgument
  | Some packageName =>
      let* deps := fold_left (λ (deps : result exn (gmap Node Version)) kv,
                     let* deps := deps in
                     let* v := Version_parse kv.2 in Ok (<[kv.1 := v]> deps))
                     (yp_dependencies config) (Ok ∅) in
      Ok (packageName, deps)
  end.

(** The parsed packages of a directory, in the order of FILE_TYPES. *)
Definition dir_packages (d : PackageDir) : list (result exn (Node * gmap Node Version)) :=
  match package_json d with Some f => [parsePackageJson f] | None => [] end
  ++ match package_xml d with Some f => [parsePackageXml f] | None => [] end
  ++ match package_yaml d with Some f => [parsePackageYaml f] | None => [] end.

Section resolve.
Context `{!HashIter Node}.
(** The file system: a directory name to its package files. *)
Variable fs : string → PackageDir.

Definition add_dep (name : Node) (g : result exn DependencyGraph) (dep : Node * Version)
    : result exn DependencyGraph :=
  let* g := g in
  if String.eqb dep.1 name then Ok g else
  let* g := addNode dep.1 dep.2 g in
  addDependency name dep.1 dep.2 g.

(** The body of the inner loop of [resolveDependencies]: [deps.at] throws
    when the file does not list its own package. *)
Definition add_package (g : result exn DependencyGraph)
    (p : result exn (Node * gmap Node Version)) : result exn DependencyGraph :=
  let* g := g in
  let* pkg := p in
  let '(name, deps) := pkg in
  if str_empty name then Ok g else
  match deps !! name with
  | None => Throw OutOfRange
  | Some v =>
      let* g := addNode name v g in
      fold_left (add_dep name) (iter_map deps) (Ok g)
  end.

Definition build_graph (directories : list string) : result exn DependencyGraph :=
  fold_left add_package (flat_map (λ dir, dir_packages (fs dir)) directories)
    (Ok DependencyGraph_new).

Definition resolveDependencies (directories : list string)
    : option (result exn (list Node)) :=
  match directories with
  | [] => Some (Ok [])
  | _ =>
      match build_graph directories with
      | Throw e => Some (Throw e)
      | Ok graph =>
          match hasCycle graph with
          | None => None
          | Some true => Some (Throw RuntimeError)
          | Some false =>
              match topologicalSort graph with
              | None => None
              | Some None => Some (Throw RuntimeError)
              | Some (Some sorted) => Some (Ok (removeDuplicates sorted))
              end
          end
      end
  end.

(** ** System dependencies

    [systemDeps] keeps, for every dependency named "system:x", the greatest
    version seen.  The call of [atom::utils::unique] on the finished map is a
    library call and is left to the caller. *)

Definition system_name (depName : Node) : option string :=
  if String.eqb (str_take 7 depName) "system:" then Some (str_drop 7 depName) else None.

Definition add_system_dep (systemDeps : gmap string Version) (dep : Node * Version)
    : gmap string Version :=
  match system_name dep.1 with
  | None => systemDeps
  | Some name =>
      match systemDeps !! name with
      | None => <[name := dep.2]> systemDeps
      | Some v => if Version_lt v dep.2 then <[name := dep.2]> systemDeps else systemDeps
      end
  end.

Definition resolveSystemDependencies (directories : list string)
    : result exn (gmap string Version) :=
  fold_left (λ systemDeps p,
    let* systemDeps := systemDeps in
    let* pkg := p in
    Ok (fold_left add_system_dep (iter_map (pkg.2 : gmap Node Version)) systemDeps))
    (flat_map (λ dir, dir_packages (fs dir)) directories) (Ok ∅).

(** ** Parallel resolution

    A batch runs in its own thread but touches only the cache, under the lock;
    the model runs the batches one after the other and threads the cache. *)

Fixpoint resolveParallelBatch (batch : list string) (cache : gmap Node (list Node))
    : option (gmap Node (list Node) * result exn (list Node)) :=
  match batch with
  | [] => Some (cache, Ok [])
  | dir :: rest =>
      let step deps cache :=
        match resolveParallelBatch rest cache with
        | None => None
        | Some (cache', r) => Some (cache', let* ds := r in Ok (deps ++ ds))
        end in
      match cache !! dir with
      | Some cachedDeps => step cachedDeps cache
      | None =>
          match resolveDependencies [dir] with
          | None => None
          | Some (Throw e) => Some (cache, Throw e)
          | Some (Ok deps) => step deps (<[dir := deps]> cache)
          end
      end
  end.

(** The batches [for (i = 0; i < n; i += BATCH_SIZE)]; fuel is the number of
    directories, since the batch size is at least one. *)
Fixpoint split_batches (fuel BATCH_SIZE : nat) (dirs : list string) : list (list string) :=
  match fuel, dirs with
  | S fuel', _ :: _ => take BATCH_SIZE dirs :: split_batches fuel' BATCH_SIZE (drop BATCH_SIZE dirs)
  | _, _ => []
  end.

Fixpoint run_batches (bs : list (list string)) (cache : gmap Node (list Node))
    : option (gmap Node (list Node) * result exn (list Node)) :=
  match bs with
  | [] => Some (cache, Ok [])
  | b :: rest =>
      match resolveParallelBatch b cache with
      | None => None
      | Some (cache', r) =>
          match run_batches rest cache' with
          | None => None
          | Some (cache'', rs) => Some (cache'', let* d := r in let* ds := rs in Ok (d ++ ds))
          end
      end
  end.

Definition resolveParallelDependencies (hardware_concurrency : nat)
    (directories : list string) (g : DependencyGraph)
    : option (DependencyGraph * result exn (list Node)) :=
  match directories with
  | [] => Some (g, Ok [])
  | _ =>
      let processorCount := Nat.max 1 hardware_concurrency in
      let BATCH_SIZE := Nat.max 1 (length directories / processorCount) in
      match run_batches (split_batches (length directories) BATCH_SIZE directories)
              (dependencyCache g) with
      | None => None
      | Some (cache, Throw _) => Some (g <| dependencyCache := cache |>, Throw RuntimeError)
      | Some (cache, Ok ds) => Some (g <| dependencyCache := cache |>, Ok (removeDuplicates ds))
      end
  end.
End resolve.

(** * Properties *)

(** [to] is a direct dependency of [from]. *)
Definition neighbors_of (g : DependencyGraph) (node : Node) : gset Node :=
  default ∅ (adjList g !! node).
Definition depends (g : DependencyGraph) (from to : Node) : Prop :=
  to ∈ neighbors_of g from.

(** ** The representation invariant *)

Record graph_ok (g : DependencyGraph) : Prop := {
  ok_dual : ∀ a b, depends g a b ↔ a ∈ default ∅ (incomingEdges g !! b);
  ok_closed : ∀ a b, depends g a b → is_Some (adjList g !! b);
  ok_versions : ∀ a, is_Some (nodeVersions g !! a) → is_Some (adjList g !! a);
  ok_irrefl : ∀ a, ¬ depends g a a;
  ok_named : adjList g !! ""%string = None
}.

Inductive graph_op :=
| OpAddNode (node : Node) (version : Version)
| OpAddDependency (from to : Node) (required : Version)
| OpRemoveNode (node : Node)
| OpRemoveDependency (from to : Node)
| OpSetPriority (node : Node) (priority : Z)
| OpAddGroup (name : string) (nodes : list Node)
| OpClearCache
| OpClear.

(** A method that throws leaves the graph as it was. *)
Definition or_unchanged (g : DependencyGraph) (r : result exn DependencyGraph)
    : DependencyGraph :=
  match r with Ok g' => g' | Throw _ => g end.

Definition run_op (g : DependencyGraph) (o : graph_op) : DependencyGraph :=
  match o with
  | OpAddNode n v => or_unchanged g (addNode n v g)
  | OpAddDependency a b v => or_unchanged g (addDependency a b v g)
  | OpRemoveNode n => removeNode n g
  | OpRemoveDependency a b => removeDependency a b g
  | OpSetPriority n p => setPriority n p g
  | OpAddGroup s ns => or_unchanged g (addGroup s ns g)
  | OpClearCache => clearCache g
  | OpClear => clear g
  end.

Lemma lookup_try_emplace k x m :
  default ∅ (try_emplace k m !! x) = default ∅ (m !! x).
Proof.
  unfold try_emplace. destruct (m !! k) eqn:E; [done|].
  destruct (decide (k = x)) as [->|]; [by rewrite lookup_insert_eq, E|].
  by rewrite lookup_insert_ne.
Qed.

Lemma try_emplace_is_Some k x m :
  is_Some (try_emplace k m !! x) ↔ k = x ∨ is_Some (m !! x).
Proof.
  unfold try_emplace. destruct (m !! k) eqn:E.
  - split; [auto|intros [->|]; [by rewrite E|done]].
  - rewrite lookup_insert_is_Some. destruct (decide (k = x)); naive_solver.
Qed.

Lemma elem_edge_insert k x m a b :
  b ∈ default ∅ (edge_insert k x m !! a) ↔ (a = k ∧ b = x) ∨ b ∈ default ∅ (m !! a).
Proof.
  unfold edge_insert. destruct (decide (k = a)) as [->|].
  - rewrite lookup_insert_eq. simpl. set_solver.
  - rewrite lookup_insert_ne by done. naive_solver.
Qed.

Lemma elem_edge_erase k x m a b :
  b ∈ default ∅ (edge_erase k x m !! a) ↔ b ∈ default ∅ (m !! a) ∧ ¬ (a = k ∧ b = x).
Proof.
  unfold edge_erase. destruct (m !! k) as [s|] eqn:E.
  - destruct (decide (k = a)) as [->|].
    + rewrite lookup_insert_eq, E. simpl. set_solver.
    + rewrite lookup_insert_ne by done. naive_solver.
  - destruct (decide (k = a)) as [->|]; [rewrite E; simpl; set_solver|naive_solver].
Qed.

Lemma elem_remove_key k (m : gmap Node (gset Node)) a b :
  b ∈ default ∅ (((λ s : gset Node, s ∖ {[k]}) <$> delete k m) !! a) ↔
  b ∈ default ∅ (m !! a) ∧ a ≠ k ∧ b ≠ k.
Proof.
  rewrite lookup_fmap. destruct (decide (k = a)) as [->|].
  - rewrite lookup_delete_eq. simpl. set_solver.
  - rewrite lookup_delete_ne by done. destruct (m !! a); simpl; set_solver.
Qed.

Lemma addNode_ok n v g g' : graph_ok g → addNode n v g = Ok g' → graph_ok g'.
Proof.
  intros [Hd Hc Hv Hi Hn]. unfold addNode. destruct n as [|c n]; simpl; [done|].
  intros [= <-]. unfold depends, neighbors_of in *.
  split; unfold depends, neighbors_of; simpl.
  - intros a b. by rewrite !lookup_try_emplace.
  - intros a b. rewrite lookup_try_emplace, try_emplace_is_Some. eauto.
  - intros a. rewrite lookup_insert_is_Some, try_emplace_is_Some. naive_solver.
  - intros a. rewrite lookup_try_emplace. apply Hi.
  - apply eq_None_not_Some. rewrite try_emplace_is_Some, Hn. by intros [|[]].
Qed.

Lemma addDependency_ok a b v g g' :
  graph_ok g → addDependency a b v g = Ok g' → graph_ok g'.
Proof.
  intros [Hd Hc Hv Hi Hn]. unfold addDependency.
  destruct (str_empty a) eqn:Ea, (str_empty b) eqn:Eb; simpl; try done.
  destruct (String.eqb_spec a b) as [|Hab]; [done|].
  unfold validateVersion, getNodeVersion.
  destruct (nodeVersions g !! b) as [bv|] eqn:Eb'; [|done].
  destruct (Version_lt bv v); [done|]. intros [= <-].
  assert (is_Some (adjList g !! b)) as Hb by eauto.
  assert (∀ x, is_Some (edge_insert a b (adjList g) !! x) ↔ x = a ∨ is_Some (adjList g !! x))
    as Hdom.
  { intros x. unfold edge_insert. rewrite lookup_insert_is_Some.
    destruct (decide (a = x)); naive_solver. }
  unfold depends, neighbors_of in *. split; unfold depends, neighbors_of; simpl.
  - intros x y. rewrite !elem_edge_insert, Hd. naive_solver.
  - intros x y. rewrite elem_edge_insert, Hdom. intros [[-> ->]|]; eauto.
  - intros x. rewrite Hdom. eauto.
  - intros x. rewrite elem_edge_insert. intros [[-> <-]|]; [done|by eapply Hi].
  - apply eq_None_not_Some. rewrite Hdom, Hn. intros [<-|[]]; done.
Qed.

Lemma removeNode_ok n g : graph_ok g → graph_ok (removeNode n g).
Proof.
  intros [Hd Hc Hv Hi Hn]. unfold depends, neighbors_of in *.
  assert (∀ x, is_Some (((λ s : gset Node, s ∖ {[n]}) <$> delete n (adjList g)) !! x)
               ↔ x ≠ n ∧ is_Some (adjList g !! x)) as Hdom.
  { intros x. rewrite lookup_fmap, fmap_is_Some, lookup_delete_is_Some. naive_solver. }
  split; unfold depends, neighbors_of; simpl.
  - intros a b. rewrite !elem_remove_key, Hd. naive_solver.
  - intros a b. rewrite elem_remove_key, Hdom. intros (? & ? & ?); eauto.
  - intros a. rewrite lookup_delete_is_Some, Hdom. naive_solver.
  - intros a. rewrite elem_remove_key. naive_solver.
  - apply eq_None_not_Some. rewrite Hdom, Hn. by intros [_ []].
Qed.

Lemma removeDependency_ok a b g : graph_ok g → graph_ok (removeDependency a b g).
Proof.
  intros [Hd Hc Hv Hi Hn]. unfold depends, neighbors_of in *.
  assert (∀ x, is_Some (edge_erase a b (adjList g) !! x) ↔ is_Some (adjList g !! x)) as Hdom.
  { intros x. unfold edge_erase. destruct (adjList g !! a) eqn:E; [|done].
    rewrite lookup_insert_is_Some. destruct (decide (a = x)); naive_solver. }
  split; unfold depends, neighbors_of; simpl.
  - intros x y. rewrite !elem_edge_erase, Hd. naive_solver.
  - intros x y. rewrite elem_edge_erase, Hdom. intros [? _]; eauto.
  - intros x. rewrite Hdom. eauto.
  - intros x. rewrite elem_edge_erase. naive_solver.
  - apply eq_None_not_Some. rewrite Hdom, Hn. by intros [].
Qed.

#[export] Hint Resolve addNode_ok addDependency_ok removeNode_ok removeDependency_ok : core.

Lemma run_op_ok g o : graph_ok g → graph_ok (run_op g o).
Proof.
  intros Hg. destruct o; simpl; auto.
  - destruct (addNode _ _ _) eqn:E; simpl; eauto.
  - destruct (addDependency _ _ _ _) eqn:E; simpl; eauto.
  - by destruct Hg; split.
  - unfold addGroup. destruct (str_empty _); simpl; [done|]. by destruct Hg; split.
  - by destruct Hg; split.
  - destruct Hg. split; unfold depends, neighbors_of; simpl; try done; try set_solver.
    + intros a. by rewrite lookup_empty; intros [].
Qed.

Lemma reachable_graph_ok ops : graph_ok (fold_left run_op ops DependencyGraph_new).
Proof.
  assert (∀ g, graph_ok g → graph_ok (fold_left run_op ops g)) as Hind.
  { induction ops; simpl; auto using run_op_ok. }
  apply Hind. split; unfold depends, neighbors_of; simpl; try done.
  intros a. by rewrite lookup_empty; intros [].
Qed.

(** [C3] Whatever sequence of operations built the graph, and whether or not
    some of them threw, the two edge maps mirror each other, every dependency
    names an existing node, every versioned node exists, no node depends on
    itself and no node has an empty name. *)
Theorem DependencyGraph_invariant (ops : list graph_op) :
  let g := fold_left run_op ops DependencyGraph_new in
  (∀ a b, b ∈ default ∅ (adjList g !! a) ↔ a ∈ default ∅ (incomingEdges g !! b))
  ∧ (∀ a b, b ∈ default ∅ (adjList g !! a) → nodeExists g b = true ∧ a ≠ b)
  ∧ (∀ a, is_Some (getNodeVersion g a) → nodeExists g a = true)
  ∧ nodeExists g "" = false.
Proof.
  intros g. assert (graph_ok g) as [Hd Hc Hv Hi Hn] by apply reachable_graph_ok.
  clearbody g.
  unfold nodeExists, getNodeVersion. setoid_rewrite bool_decide_eq_true.
  split_and!.
  - apply Hd.
  - intros a b Hab. split; [by eapply Hc|]. intros ->. by eapply Hi.
  - apply Hv.
  - apply bool_decide_eq_false. rewrite Hn. by intros [].
Qed.

(** ** Depth-first search *)

Section dfs.
Context `{!HashIter Node}.
Variable g : DependencyGraph.
Hypothesis closed : ∀ a b, depends g a b → is_Some (adjList g !! b).

Abbreviation inv := (dfs_inv (depends g)).
Abbreviation cyclic := (∃ x, tc (depends g) x x).

Lemma elem_of_neighbors n s d :
  adjList g !! n = Some s → d ∈ iter_set s ↔ depends g n d.
Proof. intros H. unfold depends, neighbors_of. by rewrite H, elem_of_iter_set. Qed.

Abbreviation extends := (dfs_extends (depends g)).

(** The contract of the recursive call. *)
Definition cycle_visit_spec
    (util : Node → gset Node → gset Node → option (bool * gset Node * gset Node)) : Prop :=
  ∀ n vis path fin b vis' rec',
    inv vis path fin → n ∉ vis → is_Some (adjList g !! n) →
    (∀ m l, path = m :: l → depends g m n) →
    util n vis (list_to_set path) = Some (b, vis', rec') →
    if b : bool then cyclic
    else rec' = list_to_set path ∧ ∃ fin', extends path fin vis' fin' ∧ n ∈ fin'.

Lemma hasCycle_loop_spec util n path :
  cycle_visit_spec util →
  ∀ nbs vis fin b vis' rec',
    inv vis (n :: path) fin → (∀ d, d ∈ nbs → depends g n d) →
    hasCycle_loop util nbs vis (list_to_set (n :: path)) = Some (b, vis', rec') →
    if b : bool then cyclic
    else rec' = list_to_set (n :: path)
         ∧ ∃ fin', extends (n :: path) fin vis' fin' ∧ ∀ d, d ∈ nbs → d ∈ fin'.
Proof.
  intros Hutil. red in Hutil.
  induction nbs as [|d nbs IH]; intros vis fin b vis' rec' Hinv Hdep Hrun.
  { simplify_eq/=. split; [done|]. exists fin. split; [by split|set_solver]. }
  assert (depends g n d) as Hd by (apply Hdep; left).
  cbn [hasCycle_loop] in Hrun.
  destruct (decide (d ∉ vis)) as [Hdv|Hdv].
  - destruct (util d vis _) as [[[b1 vis1] rec1]|] eqn:E; [|done].
    apply Hutil with (fin := fin) in E; [|done..|by eapply closed|by intros ?? [= <- <-]].
    destruct b1; [by simplify_eq|]. destruct E as (-> & fin1 & [Hinv1 Hsub1] & Hd1).
    destruct (decide (d ∈ _)) as [Hin|_].
    + exfalso. apply elem_of_list_to_set in Hin. apply Hdv.
      apply (inv_vis _ _ _ _ Hinv). by left.
    + apply IH with (fin := fin1) in Hrun; [|done|set_solver].
      destruct b; [done|]. destruct Hrun as (-> & fin2 & [Hinv2 Hsub2] & Hall).
      split; [done|]. exists fin2. split; [split; auto|].
      intros x [->|Hx]%elem_of_cons; auto.
  - apply dec_stable in Hdv.
    destruct (decide (d ∈ _)) as [Hin|Hin].
    + simplify_eq. apply elem_of_list_to_set in Hin.
      by eapply path_back_edge; [apply (inv_path _ _ _ _ Hinv)|..].
    + rewrite elem_of_list_to_set in Hin.
      apply (inv_vis _ _ _ _ Hinv) in Hdv as [|Hdf]; [done|].
      apply IH with (fin := fin) in Hrun; [|done|set_solver].
      destruct b; [done|]. destruct Hrun as (-> & fin2 & [Hinv2 Hsub2] & Hall).
      split; [done|]. exists fin2. split; [by split|].
      intros x [->|Hx]%elem_of_cons; auto.
Qed.

Lemma hasCycleUtil_spec fuel : cycle_visit_spec (hasCycleUtil fuel g).
Proof.
  induction fuel as [|fuel IH]; intros n vis path fin b vis' rec' Hinv Hn [s Hs] Hpath Hrun;
    [done|]. cbn [hasCycleUtil] in Hrun.
  rewrite decide_True, Hs in Hrun by done.
  pose proof (dfs_inv_enter _ _ _ _ _ Hinv Hn Hpath) as Hinv'.
  destruct (hasCycle_loop _ _ _ _) as [[[b1 vis1] rec1]|] eqn:E; [|done].
  apply (hasCycle_loop_spec _ n path IH) with (fin := fin) in E; [|done|];
    [|intros d; by rewrite elem_of_neighbors].
  destruct b1; [by simplify_eq|]. destruct E as (-> & fin1 & [Hinv1 Hsub1] & Hall).
  simplify_eq. split.
  { assert (n ∉ path) by (rewrite (inv_vis _ _ _ _ Hinv) in Hn; tauto). set_solver. }
  exists (n :: fin1). split; [|left]. split; [|by right; auto].
  apply dfs_inv_leave; [done|]. intros d Hd. apply Hall. by rewrite elem_of_neighbors.
Qed.

Lemma hasCycle_nodes_spec fuel nodes :
  (∀ n, n ∈ nodes → is_Some (adjList g !! n)) →
  ∀ vis fin b, inv vis [] fin →
    hasCycle_nodes fuel g nodes vis ∅ = Some b →
    if b then cyclic
    else ∃ fin', finished (depends g) fin' ∧ ∀ x, x ∈ nodes ∨ x ∈ fin → x ∈ fin'.
Proof.
  induction nodes as [|n nodes IH]; intros Hnodes vis fin b Hinv Hrun.
  { simplify_eq/=. exists fin. split; [apply (inv_fin _ _ _ _ Hinv)|set_solver]. }
  cbn [hasCycle_nodes] in Hrun.
  assert (∀ n, n ∈ nodes → is_Some (adjList g !! n)) as Hnodes' by set_solver.
  destruct (hasCycleUtil _ _ _ _ _) as [[[b1 vis1] rec1]|] eqn:E; [|done].
  destruct (decide (n ∈ vis)) as [Hv|Hv].
  - destruct fuel; [done|]. cbn [hasCycleUtil] in E. rewrite decide_False in E by tauto.
    simplify_eq. replace (∅ ∖ {[n]}) with (∅ : gset Node) in Hrun by set_solver.
    eapply IH in Hrun; [|done..]. destruct b; [done|].
    destruct Hrun as (fin' & ? & Hall). exists fin'. split; [done|].
    apply (inv_vis _ _ _ _ Hinv) in Hv as [|Hv]; [set_solver|].
    intros x [[->|Hx]%elem_of_cons|Hx]; auto.
  - apply (hasCycleUtil_spec fuel n vis [] fin) in E; [|done|done|set_solver|done].
    destruct b1; [by simplify_eq|]. destruct E as (-> & fin1 & [Hinv1 Hsub1] & Hd1).
    eapply IH in Hrun; [|done..]. destruct b; [done|].
    destruct Hrun as (fin' & ? & Hall). exists fin'. split; [done|].
    intros x [[->|Hx]%elem_of_cons|Hx]; auto.
Qed.

(** *** Fuel *)

Abbreviation all_nodes := (dom (adjList g)).

(** With fuel for every unvisited node a call returns, and the visited set
    only grows. *)
Definition total_visit {R} (vis_of : R → gset Node) (fuel : nat)
    (util : Node → gset Node → R → option (bool * gset Node * R)) : Prop :=
  ∀ n vis r, n ∈ all_nodes → unvisited all_nodes vis < fuel →
    ∃ b vis' r', util n vis r = Some (b, vis', r') ∧ vis ⊆ vis'.

Lemma hasCycle_loop_total fuel util :
  total_visit id fuel util →
  ∀ nbs vis rec, (∀ d, d ∈ nbs → d ∈ all_nodes) → unvisited all_nodes vis < fuel →
    ∃ b vis' rec', hasCycle_loop util nbs vis rec = Some (b, vis', rec') ∧ vis ⊆ vis'.
Proof.
  intros Hutil. induction nbs as [|d nbs IH]; intros vis rec Hin Hfuel; simpl; [by eauto 10|].
  assert (∃ b vis1 rec1,
    (if decide (d ∉ vis) then util d vis rec else Some (false, vis, rec))
      = Some (b, vis1, rec1) ∧ vis ⊆ vis1) as (b & vis1 & rec1 & -> & Hsub).
  { case_decide; [apply Hutil; [set_solver|done]|by eauto 10]. }
  destruct b; [by eauto 10|]. case_decide; [by eauto 10|].
  destruct (IH vis1 rec1) as (b & vis2 & rec2 & -> & Hsub2);
    [set_solver|pose proof (unvisited_mono all_nodes _ _ Hsub); lia|].
  eexists _, _, _. split; [done|set_solver].
Qed.

Lemma neighbors_in_nodes n s d :
  adjList g !! n = Some s → d ∈ iter_set s → d ∈ all_nodes.
Proof.
  intros Hs Hd. apply elem_of_dom. apply (closed n).
  by rewrite <- elem_of_neighbors.
Qed.

Lemma hasCycleUtil_total fuel : total_visit id fuel (hasCycleUtil fuel g).
Proof.
  induction fuel as [|fuel IH]; intros n vis rec Hn Hfuel; [lia|].
  cbn [hasCycleUtil]. case_decide as Hv; [|by eauto 10].
  destruct (adjList g !! n) as [s|] eqn:Hs; [|apply elem_of_dom in Hn as []; congruence].
  pose proof (unvisited_lt all_nodes vis n Hn Hv).
  destruct (hasCycle_loop_total fuel _ IH (iter_set s) ({[n]} ∪ vis) ({[n]} ∪ rec))
    as (b & vis' & rec' & -> & Hsub); [by eauto using neighbors_in_nodes|lia|].
  destruct b; eexists _, _, _; (split; [done|set_solver]).
Qed.

Lemma hasCycle_total : ∃ b, hasCycle g = Some b.
Proof.
  unfold hasCycle. assert (∀ nodes vis rec, (∀ n, n ∈ nodes → n ∈ all_nodes) →
    ∃ b, hasCycle_nodes (dfs_fuel g) g nodes vis rec = Some b) as Hall.
  { induction nodes as [|n nodes IH]; intros vis rec Hin; cbn [hasCycle_nodes]; [by eauto|].
    destruct (hasCycleUtil_total (dfs_fuel g) n vis rec) as (b & vis' & rec' & -> & _);
      [set_solver| |destruct b; [by eauto|apply IH; set_solver]].
    unfold dfs_fuel. pose proof (unvisited_le_size all_nodes vis).
    rewrite size_dom in *. lia. }
  apply Hall. intros n Hn. apply elem_of_dom. by apply elem_of_iter_keys.
Qed.

Lemma depends_source a b : depends g a b → is_Some (adjList g !! a).
Proof.
  unfold depends, neighbors_of. destruct (adjList g !! a); [by eauto|set_solver].
Qed.

Lemma hasCycle_spec : hasCycle g = Some true ↔ cyclic.
Proof.
  assert (inv ∅ [] []) as H0 by apply dfs_inv_start.
  destruct hasCycle_total as [b Hb]. rewrite Hb. unfold hasCycle in Hb.
  apply hasCycle_nodes_spec with (fin := []) in Hb; [|intros n; apply elem_of_iter_keys|done].
  destruct b; [naive_solver|]. split; [done|]. intros [x Hx].
  destruct Hb as (fin' & Hfin & Hall).
  destruct (finished_all_acyclic (depends g) fin' Hfin) with (x := x); [|done].
  intros a c Hac. apply Hall. left. apply elem_of_iter_keys. by eapply depends_source.
Qed.

(** *** The order left on the stack *)

(** On an acyclic graph the stack is the list of finished nodes. *)
Definition sort_visit_spec
    (util : Node → gset Node → list Node → option (bool * gset Node * list Node)) : Prop :=
  ∀ n vis path fin b vis' st',
    inv vis path fin → n ∉ vis → is_Some (adjList g !! n) →
    (∀ m l, path = m :: l → depends g m n) →
    util n vis fin = Some (b, vis', st') →
    b = true ∧ extends path fin vis' st' ∧ n ∈ st'.

Lemma topologicalSort_loop_spec util n path :
  ¬ cyclic → sort_visit_spec util →
  ∀ nbs vis fin b vis' st',
    inv vis (n :: path) fin → (∀ d, d ∈ nbs → depends g n d) →
    topologicalSort_loop util nbs vis fin = Some (b, vis', st') →
    b = true ∧ extends (n :: path) fin vis' st' ∧ ∀ d, d ∈ nbs → d ∈ st'.
Proof.
  intros Hac Hutil. red in Hutil.
  induction nbs as [|d nbs IH]; intros vis fin b vis' st' Hinv Hdep Hrun.
  { simplify_eq/=. split_and!; [done|by split|set_solver]. }
  assert (depends g n d) as Hd by (apply Hdep; left).
  cbn [topologicalSort_loop] in Hrun. destruct (decide (d ∉ vis)) as [Hdv|Hdv].
  - destruct (util d vis fin) as [[[b1 vis1] st1]|] eqn:E; [|done].
    eapply Hutil in E as (-> & [Hinv1 Hsub1] & Hd1); [|done..|by eapply closed|by intros ?? [= <- <-]].
    apply IH in Hrun as (-> & [Hinv2 Hsub2] & Hall); [|done|set_solver].
    split_and!; [done|split; auto|]. intros x [->|Hx]%elem_of_cons; auto.
  - apply dec_stable in Hdv. apply (inv_vis _ _ _ _ Hinv) in Hdv as [Hin|Hdf].
    + destruct Hac. by eapply path_back_edge; [apply (inv_path _ _ _ _ Hinv)|..].
    + apply IH in Hrun as (-> & [Hinv2 Hsub2] & Hall); [|done|set_solver].
      split_and!; [done|by split|]. intros x [->|Hx]%elem_of_cons; auto.
Qed.

Lemma topologicalSortUtil_spec fuel :
  ¬ cyclic → sort_visit_spec (topologicalSortUtil fuel g).
Proof.
  intros Hac.
  induction fuel as [|fuel IH]; intros n vis path fin b vis' st' Hinv Hn [s Hs] Hpath Hrun;
    [done|]. cbn [topologicalSortUtil] in Hrun. rewrite Hs in Hrun.
  pose proof (dfs_inv_enter _ _ _ _ _ Hinv Hn Hpath) as Hinv'.
  destruct (topologicalSort_loop _ _ _ _) as [[[b1 vis1] st1]|] eqn:E; [|done].
  apply (topologicalSort_loop_spec _ n path Hac IH) in E as (-> & [Hinv1 Hsub1] & Hall);
    [|done|intros d; by rewrite elem_of_neighbors].
  simplify_eq. split_and!; [done| |left]. split; [|by right; auto].
  apply dfs_inv_leave; [done|]. intros d Hd. apply Hall. by rewrite elem_of_neighbors.
Qed.

(** Whether or not there is a cycle, the sort returns, and the stack holds
    every visited node once. *)
Definition sort_visit_total (fuel : nat)
    (util : Node → gset Node → list Node → option (bool * gset Node * list Node)) : Prop :=
  ∀ n vis st, n ∈ all_nodes → n ∉ vis → unvisited all_nodes vis < fuel →
    NoDup st → (∀ x, x ∈ st → x ∈ vis) →
    ∃ vis' new, util n vis st = Some (true, vis', new ++ st)
      ∧ NoDup (new ++ st) ∧ (∀ x, x ∈ vis' ↔ x ∈ vis ∨ x ∈ new)
      ∧ (∀ x, x ∈ new → x ∈ all_nodes ∧ x ∉ vis) ∧ n ∈ new.

Lemma topologicalSort_loop_total fuel util :
  sort_visit_total fuel util →
  ∀ nbs vis st, (∀ d, d ∈ nbs → d ∈ all_nodes) → unvisited all_nodes vis < fuel →
    NoDup st → (∀ x, x ∈ st → x ∈ vis) →
    ∃ vis' new, topologicalSort_loop util nbs vis st = Some (true, vis', new ++ st)
      ∧ NoDup (new ++ st) ∧ (∀ x, x ∈ vis' ↔ x ∈ vis ∨ x ∈ new)
      ∧ (∀ x, x ∈ new → x ∈ all_nodes ∧ x ∉ vis) ∧ (∀ d, d ∈ nbs → d ∈ vis').
Proof.
  intros Hutil. red in Hutil.
  induction nbs as [|d nbs IH]; intros vis st Hin Hfuel Hnd Hst; simpl.
  { exists vis, []. split_and!; [done|done|set_solver..]. }
  case_decide as Hv.
  - destruct (Hutil d vis st) as (vis1 & new1 & -> & Hnd1 & Hvis1 & Hnew1 & Hd1);
      [set_solver|done..|].
    destruct (IH vis1 (new1 ++ st)) as (vis2 & new2 & -> & Hnd2 & Hvis2 & Hnew2 & Hall);
      [set_solver| |done|set_solver|].
    { assert (vis ⊆ vis1) as Hsub by set_solver.
      pose proof (unvisited_mono all_nodes _ _ Hsub). lia. }
    exists vis2, (new2 ++ new1). rewrite <- app_assoc.
    split_and!; [done|done|set_solver..].
  - destruct (IH vis st) as (vis2 & new2 & -> & Hnd2 & Hvis2 & Hnew2 & Hall);
      [set_solver|done..|].
    exists vis2, new2. split_and!; [done|done|set_solver..].
Qed.

Lemma topologicalSortUtil_total fuel : sort_visit_total fuel (topologicalSortUtil fuel g).
Proof.
  induction fuel as [|fuel IH]; intros n vis st Hn Hv Hfuel Hnd Hst; [lia|].
  cbn [topologicalSortUtil].
  destruct (adjList g !! n) as [s|] eqn:Hs; [|apply elem_of_dom in Hn as []; congruence].
  pose proof (unvisited_lt all_nodes vis n Hn Hv).
  destruct (topologicalSort_loop_total fuel _ IH (iter_set s) ({[n]} ∪ vis) st)
    as (vis' & new & -> & Hnd' & Hvis & Hnew & _);
    [by eauto using neighbors_in_nodes|lia|done|set_solver|].
  exists vis', (n :: new). simpl. split_and!; [done| |set_solver..].
  constructor; [|done]. rewrite elem_of_app. set_solver.
Qed.

Lemma topologicalSort_total : ∃ l, topologicalSort g = Some (Some l) ∧ l ≡ₚ iter_keys (adjList g).
Proof.
  unfold topologicalSort.
  destruct (topologicalSort_loop_total (dfs_fuel g) _ (topologicalSortUtil_total _)
              (iter_keys (adjList g)) ∅ []) as (vis & l & -> & Hnd & Hvis & Hl & Hall).
  - intros d. by rewrite elem_of_dom, elem_of_iter_keys.
  - unfold dfs_fuel. pose proof (unvisited_le_size all_nodes ∅). rewrite size_dom in *. lia.
  - constructor.
  - set_solver.
  - rewrite app_nil_r in *. exists l. split; [done|].
    apply NoDup_Permutation; [done|apply NoDup_iter_keys|].
    intros x. rewrite elem_of_iter_keys, <- elem_of_dom. split; [apply Hl|].
    intros Hx. apply elem_of_dom, elem_of_iter_keys in Hx. specialize (Hall x Hx). set_solver.
Qed.

(** The outer loop runs with an empty path, so it is treated separately. *)
Lemma topologicalSort_roots_spec fuel nodes :
  ¬ cyclic → (∀ n, n ∈ nodes → is_Some (adjList g !! n)) →
  ∀ vis fin b vis' st', inv vis [] fin →
    topologicalSort_loop (topologicalSortUtil fuel g) nodes vis fin = Some (b, vis', st') →
    finished (depends g) st'.
Proof.
  intros Hac. induction nodes as [|n nodes IH]; intros Hin vis fin b vis' st' Hinv Hrun.
  { simplify_eq/=. apply (inv_fin _ _ _ _ Hinv). }
  cbn [topologicalSort_loop] in Hrun. case_decide as Hv.
  - destruct (topologicalSortUtil _ _ _ _ _) as [[[b1 vis1] st1]|] eqn:E; [|done].
    apply (topologicalSortUtil_spec fuel Hac n vis []) in E as (-> & [Hinv1 _] & _);
      [|done|done|set_solver|done].
    eapply IH in Hrun; [done|set_solver|done].
  - eapply IH in Hrun; [done|set_solver|done].
Qed.

Lemma topologicalSort_order l a b :
  ¬ cyclic → topologicalSort g = Some (Some l) → depends g a b →
  ∃ l1 l2, l = l1 ++ a :: l2 ∧ b ∈ l2.
Proof.
  intros Hac Hl Hab. apply (finished_edge (depends g) l a b); [| |done].
  - unfold topologicalSort in Hl.
    destruct (topologicalSort_loop _ _ _ _) as [[[[] vis] st]|] eqn:E; simplify_eq.
    apply (topologicalSort_roots_spec (dfs_fuel g) (iter_keys (adjList g)) Hac) in E;
      [done|intros n; apply elem_of_iter_keys|apply dfs_inv_start].
  - destruct topologicalSort_total as (l' & Hl' & Hperm). simplify_eq.
    rewrite Hperm, elem_of_iter_keys. by eapply depends_source.
Qed.

(** *** Reachability *)

(** Every node added is reachable from the start, and the successors of an
    added node are in the final set. *)
Definition reach_visit_spec (util : Node → gset Node → option (gset Node)) : Prop :=
  ∀ n all all', util n all = Some all' →
    all ⊆ all' ∧ (∀ x, x ∈ all' → x ∈ all ∨ tc (depends g) n x)
    ∧ (∀ d, depends g n d → d ∈ all')
    ∧ (∀ x d, x ∈ all' → x ∉ all → depends g x d → d ∈ all').

Lemma getAllDependencies_loop_spec util :
  reach_visit_spec util →
  ∀ n nbs all all', (∀ d, d ∈ nbs → depends g n d) →
    getAllDependencies_loop util nbs all = Some all' →
    all ⊆ all' ∧ (∀ x, x ∈ all' → x ∈ all ∨ tc (depends g) n x)
    ∧ (∀ d, d ∈ nbs → d ∈ all')
    ∧ (∀ x d, x ∈ all' → x ∉ all → depends g x d → d ∈ all').
Proof.
  intros Hutil n. induction nbs as [|d nbs IH]; intros all all' Hdep Hrun; simpl in Hrun.
  { simplify_eq. set_solver. }
  assert (depends g n d) as Hd by (apply Hdep; left).
  case_decide as Hdin.
  - destruct (util d ({[d]} ∪ all)) as [all1|] eqn:E; [|done].
    apply Hutil in E as (Hsub1 & Hr1 & Hn1 & Hc1).
    apply IH in Hrun as (Hsub2 & Hr2 & Hn2 & Hc2); [|set_solver].
    split_and!; [set_solver| |set_solver|].
    + intros x [Hx|]%Hr2; [|by right].
      apply Hr1 in Hx as [[->%elem_of_singleton|]%elem_of_union|]; [right|by left|right].
      * by apply tc_once.
      * by eapply tc_l.
    + intros x e Hx Hnx Hxe. destruct (decide (x ∈ all1)) as [Hx1|]; [|by eapply Hc2].
      apply Hsub2. destruct (decide (x = d)) as [->|]; [by apply Hn1|].
      eapply Hc1; [done|set_solver|done].
  - apply IH in Hrun as (Hsub2 & Hr2 & Hn2 & Hc2); [|set_solver].
    split_and!; [done|done|set_solver|done].
Qed.

Lemma getAllDependenciesUtil_spec fuel : reach_visit_spec (getAllDependenciesUtil fuel g).
Proof.
  induction fuel as [|fuel IH]; intros n all all' Hrun; [done|].
  cbn [getAllDependenciesUtil] in Hrun. destruct (adjList g !! n) as [s|] eqn:Hs.
  - apply (getAllDependencies_loop_spec _ IH n) in Hrun as (? & ? & Hall & ?);
      [|intros d; by rewrite elem_of_neighbors].
    split_and!; [done|done| |done]. intros d Hd. apply Hall. by rewrite elem_of_neighbors.
  - simplify_eq. split_and!; [done|set_solver| |set_solver].
    intros d Hd%depends_source. rewrite Hs in Hd. by destruct Hd.
Qed.

Lemma getAllDependencies_loop_total fuel util :
  (∀ n all, n ∈ all_nodes → unvisited all_nodes all < fuel → ∃ all', util n all = Some all' ∧ all ⊆ all') →
  ∀ nbs all, (∀ d, d ∈ nbs → d ∈ all_nodes) → unvisited all_nodes all ≤ fuel →
    ∃ all', getAllDependencies_loop util nbs all = Some all' ∧ all ⊆ all'.
Proof.
  intros Hutil. induction nbs as [|d nbs IH]; intros all Hin Hfuel; simpl; [by eauto|].
  case_decide as Hd; [|apply IH; [set_solver|done]].
  assert (d ∈ all_nodes) as Hdn by set_solver.
  pose proof (unvisited_lt all_nodes all d Hdn Hd).
  destruct (Hutil d ({[d]} ∪ all)) as (all1 & -> & Hsub1); [done|lia|].
  destruct (IH all1) as (all2 & -> & Hsub2); [set_solver| |].
  { pose proof (unvisited_mono all_nodes _ _ Hsub1). lia. }
  exists all2. split; [done|set_solver].
Qed.

Lemma getAllDependenciesUtil_total fuel n all :
  n ∈ all_nodes → unvisited all_nodes all < fuel →
  ∃ all', getAllDependenciesUtil fuel g n all = Some all' ∧ all ⊆ all'.
Proof.
  revert n all. induction fuel as [|fuel IH]; intros n all Hn Hfuel; [lia|].
  cbn [getAllDependenciesUtil].
  destruct (adjList g !! n) as [s|] eqn:Hs; [|by eauto].
  apply (getAllDependencies_loop_total fuel); [done|by eauto using neighbors_in_nodes|lia].
Qed.

Lemma getAllDependencies_spec node :
  ∃ s, getAllDependencies g node = Some s ∧ ∀ x, x ∈ s ↔ tc (depends g) node x.
Proof.
  assert (∃ s, getAllDependencies g node = Some s) as [s Hs].
  { unfold getAllDependencies. destruct (adjList g !! node) eqn:E.
    - destruct (getAllDependenciesUtil_total (S (dfs_fuel g)) node ∅) as (s & ? & _);
        [by apply elem_of_dom|unfold dfs_fuel|by eauto].
      pose proof (unvisited_le_size all_nodes ∅). rewrite size_dom in *. lia.
    - exists ∅. cbn [getAllDependenciesUtil]. by rewrite E. }
  exists s. split; [done|].
  apply getAllDependenciesUtil_spec in Hs as (_ & Hr & Hn & Hc).
  intros x. split; [intros [|]%Hr; [set_solver|done]|].
  assert (∀ y z, tc (depends g) y z → y ∈ s → z ∈ s) as Hclosed.
  { induction 1 as [y z Hyz|y z w Hyz _ IH]; intros Hy; [|apply IH];
      (eapply Hc; [done|set_solver|done]). }
  inversion 1; subst; eauto.
Qed.
End dfs.

(** ** What the queries answer on every reachable graph *)

Lemma nodeExists_spec g a : nodeExists g a = true ↔ is_Some (adjList g !! a).
Proof. apply bool_decide_eq_true. Qed.

Section queries.
Context `{!HashIter Node}.

(** On every graph the operations can build, [hasCycle] returns (the
    recursion is bounded by the number of nodes) and answers true exactly when
    some node transitively depends on itself. *)
Theorem hasCycle_correct (ops : list graph_op) :
  let g := fold_left run_op ops DependencyGraph_new in
  ∃ b, hasCycle g = Some b ∧ (b = true ↔ ∃ x, tc (depends g) x x).
Proof.
  intros g. pose proof (ok_closed _ (reachable_graph_ok ops)) as Hc. fold g in Hc.
  destruct (hasCycle_total g Hc) as [b Hb]. exists b. split; [done|].
  rewrite <- (hasCycle_spec g Hc), Hb. naive_solver.
Qed.

(** [C2] [topologicalSort] never reports a cycle: on every graph the operations
    can build it returns all the nodes, each once.  Without a cycle every node
    stands before the nodes it depends on. *)
Theorem topologicalSort_correct (ops : list graph_op) :
  let g := fold_left run_op ops DependencyGraph_new in
  ∃ l, topologicalSort g = Some (Some l)
    ∧ NoDup l ∧ (∀ x, x ∈ l ↔ nodeExists g x = true)
    ∧ (hasCycle g = Some false → ∀ a b, depends g a b →
         ∃ l1 l2, l = l1 ++ a :: l2 ∧ b ∈ l2).
Proof.
  intros g. pose proof (ok_closed _ (reachable_graph_ok ops)) as Hc. fold g in Hc.
  destruct (topologicalSort_total g Hc) as (l & Hl & Hperm). exists l. split_and!.
  - done.
  - rewrite Hperm. apply NoDup_iter_keys.
  - intros x. by rewrite Hperm, elem_of_iter_keys, nodeExists_spec.
  - intros Hno a b Hab. apply (topologicalSort_order g Hc); [|done..].
    intros Hcyc%(hasCycle_spec g Hc). by rewrite Hno in Hcyc.
Qed.

(** [getAllDependencies] is the transitive closure of the direct
    dependencies, cycles included. *)
Theorem getAllDependencies_correct (ops : list graph_op) (node : Node) :
  let g := fold_left run_op ops DependencyGraph_new in
  ∃ s, getAllDependencies g node = Some s ∧ ∀ x, x ∈ s ↔ tc (depends g) node x.
Proof.
  intros g. pose proof (ok_closed _ (reachable_graph_ok ops)) as Hc. fold g in Hc.
  by apply getAllDependencies_spec.
Qed.

Lemma tc_exists g a b : graph_ok g → tc (depends g) a b → is_Some (adjList g !! b).
Proof.
  intros Hg. induction 1; [|done]. by eapply ok_closed.
Qed.

Lemma validateVersion_own g node dep v :
  getNodeVersion g dep = Some v → validateVersion g node dep v = Ok tt.
Proof. unfold validateVersion. intros ->. by rewrite Version_lt_irrefl. Qed.

Lemma validate_dep_ok g node dep :
  graph_ok g → is_Some (adjList g !! dep) → validate_dep g node dep = true.
Proof.
  intros Hg Hd. unfold validate_dep. rewrite (proj2 (nodeExists_spec g dep)) by done.
  destruct (getNodeVersion g dep) as [v|] eqn:Hv; [|done].
  apply forallb_forall. intros [k s] _. rewrite (validateVersion_own _ _ _ _ Hv).
  by case_bool_decide.
Qed.

(** The two version checks of the graph cannot fail.  A version is only
    compared with itself: on every graph the operations can build
    [validateDependencies] answers whether the node exists, and
    [detectVersionConflicts] finds nothing. *)
Theorem version_checks_vacuous (ops : list graph_op) (node : Node) :
  let g := fold_left run_op ops DependencyGraph_new in
  validateDependencies g node = Some (nodeExists g node)
  ∧ detectVersionConflicts g = [].
Proof.
  intros g. assert (graph_ok g) as Hg by apply reachable_graph_ok. split.
  - unfold validateDependencies. destruct (nodeExists g node); simpl; [|done].
    destruct (getAllDependencies_spec g (ok_closed _ Hg) node) as (s & -> & Hs).
    f_equal. apply forallb_forall. intros x Hx%list_elem_of_In.
    apply validate_dep_ok; [done|]. rewrite elem_of_iter_set, Hs in Hx.
    by eapply tc_exists.
  - unfold detectVersionConflicts.
    assert (∀ n d, conflicts_of g n d = []) as Hnone.
    { intros n d. unfold conflicts_of. destruct (nodeVersions g !! d) as [v|]; [|done].
      replace (Version_eq v v) with true
        by (symmetry; apply Version_eq_iff; by rewrite Version_lt_irrefl).
      induction (iter_map (adjList g)) as [|[k s] l IH]; simpl in *; [done|].
      by destruct (_ && _). }
    induction (iter_map (adjList g)) as [|[k s] l IH]; simpl; [done|].
    rewrite IH, app_nil_r. induction (iter_set s); simpl; [done|]. by rewrite Hnone.
Qed.
End queries.

Lemma removeDuplicates_loop_spec l seen acc :
  (∀ x, x ∈ seen ↔ x ∈ acc) → NoDup acc →
  ∃ new, removeDuplicates_loop l seen acc = acc ++ new
    ∧ NoDup (acc ++ new) ∧ new `sublist_of` l ∧ ∀ x, x ∈ acc ++ new ↔ x ∈ acc ∨ x ∈ l.
Proof.
  revert seen acc. induction l as [|n l IH]; intros seen acc Hseen Hnd; simpl.
  { exists []. rewrite app_nil_r. split_and!; [done|done|constructor|set_solver]. }
  case_decide as Hn.
  - destruct (IH ({[n]} ∪ seen) (acc ++ [n])) as (new & -> & Hnd' & Hsub & Hel);
      [set_solver|apply NoDup_app; split_and!; [done|set_solver|apply NoDup_singleton]|].
    exists (n :: new). rewrite <- app_assoc in *. simpl in *.
    split_and!; [done|done|by constructor|]. intros x. rewrite Hel. set_solver.
  - destruct (IH seen acc) as (new & -> & Hnd' & Hsub & Hel); [done|done|].
    exists new. split_and!; [done|done|by constructor|]. intros x. rewrite Hel. set_solver.
Qed.

Lemma removeDuplicates_spec l :
  NoDup (removeDuplicates l) ∧ removeDuplicates l `sublist_of` l
  ∧ ∀ x, x ∈ removeDuplicates l ↔ x ∈ l.
Proof.
  unfold removeDuplicates.
  destruct (removeDuplicates_loop_spec l ∅ []) as (new & -> & ? & ? & Hel);
    [set_solver|constructor|].
  split_and!; [done|done|]. intros x. specialize (Hel x). set_solver.
Qed.

Lemma removeDuplicates_loop_NoDup l seen acc :
  NoDup l → (∀ x, x ∈ l → x ∉ seen) → removeDuplicates_loop l seen acc = acc ++ l.
Proof.
  revert seen acc. induction l as [|n l IH]; intros seen acc Hnd Hseen; simpl.
  { by rewrite app_nil_r. }
  apply NoDup_cons in Hnd as [Hn Hnd]. rewrite decide_True by set_solver.
  rewrite IH, <- app_assoc; [done|done|set_solver].
Qed.

Lemma removeDuplicates_NoDup l : NoDup l → removeDuplicates l = l.
Proof. intros Hnd. apply (removeDuplicates_loop_NoDup l ∅ []); [done|set_solver]. Qed.

(** ** Resolution of package directories *)

Section resolution.
Context `{!HashIter Node}.

(** The packages [ps] mention node [x] / make [a] depend on [b]. *)
Definition pkg_node (ps : list (result exn (Node * gmap Node Version))) (x : Node) : Prop :=
  ∃ name deps, Ok (name, deps) ∈ ps ∧ name ≠ ""%string ∧ is_Some (deps !! x).
Definition pkg_depends (ps : list (result exn (Node * gmap Node Version))) (a b : Node) : Prop :=
  ∃ deps, Ok (a, deps) ∈ ps ∧ a ≠ ""%string ∧ a ≠ b ∧ is_Some (deps !! b).

Lemma addNode_result n v g :
  n ≠ ""%string → ∃ g', addNode n v g = Ok g' ∧ getNodeVersion g' n = Some v
    ∧ (∀ a b, depends g' a b ↔ depends g a b)
    ∧ (∀ x, is_Some (adjList g' !! x) ↔ x = n ∨ is_Some (adjList g !! x)).
Proof.
  intros Hn. unfold addNode. destruct n as [|c n]; [done|]. simpl.
  eexists. split; [done|]. unfold getNodeVersion, depends, neighbors_of. simpl.
  split_and!; [by rewrite lookup_insert_eq| |].
  - intros a b. by rewrite lookup_try_emplace.
  - intros x. rewrite try_emplace_is_Some. naive_solver.
Qed.

Lemma addDependency_result a b v g :
  a ≠ ""%string → b ≠ ""%string → a ≠ b → getNodeVersion g b = Some v →
  ∃ g', addDependency a b v g = Ok g'
    ∧ (∀ x y, depends g' x y ↔ (x = a ∧ y = b) ∨ depends g x y)
    ∧ (∀ x, is_Some (adjList g' !! x) ↔ x = a ∨ is_Some (adjList g !! x)).
Proof.
  intros Ha Hb Hab Hv. unfold addDependency.
  rewrite (validateVersion_own _ _ _ _ Hv).
  replace (str_empty a) with false by by destruct a.
  replace (str_empty b) with false by by destruct b.
  replace (a =? b)%string with false by by destruct (String.eqb_spec a b).
  simpl. eexists. split; [done|]. unfold depends, neighbors_of. simpl. split.
  - intros x y. by rewrite elem_edge_insert.
  - intros x. unfold edge_insert. rewrite lookup_insert_is_Some.
    destruct (decide (a = x)); naive_solver.
Qed.

(** The inner loop over the dependencies of one package file. *)
Lemma add_dep_loop name deps g g' :
  name ≠ ""%string → is_Some (adjList g !! name) →
  fold_left (add_dep name) deps (Ok g) = Ok g' →
  (∀ a b, depends g' a b ↔ (a = name ∧ b ≠ name ∧ b ∈ deps.*1) ∨ depends g a b)
  ∧ (∀ x, is_Some (adjList g' !! x) ↔ x ∈ deps.*1 ∨ is_Some (adjList g !! x)).
Proof.
  intros Hname. revert g. induction deps as [|[d v] deps IH]; intros g Hg; simpl.
  { intros [= <-]. split; set_solver. }
  destruct (String.eqb_spec d name) as [->|Hd].
  { intros H. apply IH in H as [H1 H2]; [|done]. setoid_rewrite H1. setoid_rewrite H2.
    split; set_solver. }
  destruct (decide (d = ""%string)) as [->|Hne].
  { simpl. clear. intros H. exfalso. revert H. by induction deps. }
  destruct (addNode_result d v g Hne) as (g1 & -> & Hv1 & Hd1 & Hn1). simpl.
  destruct (addDependency_result name d v g1) as (g2 & -> & Hd2 & Hn2); [done..|].
  intros H. apply IH in H as [H1 H2]; [|set_solver].
  setoid_rewrite H1. setoid_rewrite H2. setoid_rewrite Hd2. setoid_rewrite Hn2.
  setoid_rewrite Hd1. setoid_rewrite Hn1. split; set_solver.
Qed.

Lemma add_package_throw ps e :
  fold_left add_package ps (Throw e) = Throw e.
Proof. by induction ps. Qed.

Lemma elem_of_iter_map_keys (deps : gmap Node Version) x :
  x ∈ (iter_map deps).*1 ↔ is_Some (deps !! x).
Proof. apply elem_of_iter_keys. Qed.

(** The graph built from package files has exactly their nodes and edges. *)
Lemma add_packages_spec ps g g' :
  fold_left add_package ps (Ok g) = Ok g' →
  (∀ a b, depends g' a b ↔ pkg_depends ps a b ∨ depends g a b)
  ∧ (∀ x, is_Some (adjList g' !! x) ↔ pkg_node ps x ∨ is_Some (adjList g !! x)).
Proof.
  unfold pkg_depends, pkg_node.
  revert g. induction ps as [|p ps IH]; intros g H; simpl in H.
  { simplify_eq. split; set_solver. }
  destruct p as [[name deps]|e]; simpl in H; [|by rewrite add_package_throw in H].
  destruct (decide (name = ""%string)) as [->|Hname].
  { apply IH in H as [H1 H2]. setoid_rewrite H1. setoid_rewrite H2.
    setoid_rewrite elem_of_cons. split; intros; naive_solver. }
  replace (str_empty name) with false in H by by destruct name.
  destruct (deps !! name) as [v|] eqn:Hv; [|by rewrite add_package_throw in H].
  destruct (addNode_result name v g Hname) as (g1 & Hg1 & _ & Hd1 & Hn1).
  rewrite Hg1 in H. simpl in H.
  destruct (fold_left (add_dep name) (iter_map deps) (Ok g1)) as [g2|] eqn:E;
    [|by rewrite add_package_throw in H].
  apply add_dep_loop in E as [Hd2 Hn2]; [|done|apply Hn1; by left].
  apply IH in H as [H1 H2]. setoid_rewrite H1. setoid_rewrite H2.
  setoid_rewrite Hd2. setoid_rewrite Hn2. setoid_rewrite Hd1. setoid_rewrite Hn1.
  setoid_rewrite elem_of_iter_map_keys. setoid_rewrite elem_of_cons.
  split; intros; [|destruct (decide (x = name))]; naive_solver.
Qed.

Lemma fold_throw {A B} (f : result exn A → B → result exn A) l e :
  (∀ b, f (Throw e) b = Throw e) → fold_left f l (Throw e) = Throw e.
Proof. intros Hf. induction l as [|b l IH]; simpl; [done|]. by rewrite Hf. Qed.

Lemma build_graph_spec fs dirs g :
  let ps := flat_map (λ dir, dir_packages (fs dir)) dirs in
  build_graph fs dirs = Ok g →
  (∀ a b, depends g a b ↔ pkg_depends ps a b)
  ∧ (∀ x, is_Some (adjList g !! x) ↔ pkg_node ps x)
  ∧ (∀ a b, depends g a b → is_Some (adjList g !! b)).
Proof.
  intros ps H. apply add_packages_spec in H as [H1 H2]. fold ps in H1, H2.
  split_and!.
  - intros a b. rewrite H1. unfold depends, neighbors_of. simpl. set_solver.
  - intros x. rewrite H2. simpl. rewrite lookup_empty, is_Some_alt. naive_solver.
  - intros a b. rewrite H1, H2. unfold depends, neighbors_of. simpl.
    intros [(deps & ? & ? & ? & ?)|]; [|set_solver]. left. by exists a, deps.
Qed.

Lemma resolveDependencies_nonempty fs dirs :
  dirs ≠ [] →
  resolveDependencies fs dirs =
    match build_graph fs dirs with
    | Throw e => Some (Throw e)
    | Ok g => match hasCycle g with
              | None => None
              | Some true => Some (Throw RuntimeError)
              | Some false => match topologicalSort g with
                              | None => None
                              | Some None => Some (Throw RuntimeError)
                              | Some (Some l) => Some (Ok (removeDuplicates l))
                              end
              end
    end.
Proof. by destruct dirs. Qed.

(** What [resolveDependencies] throws for one package file: the error of its
    parser, out_of_range when the file does not list its own package, or the
    error of [addNode] for a dependency without a name. *)
Definition package_error (p : result exn (Node * gmap Node Version)) : option exn :=
  match p with
  | Throw e => Some e
  | Ok (name, deps) =>
      if str_empty name then None
      else if decide (deps !! name = None) then Some OutOfRange
      else if decide (deps !! ""%string = None) then None else Some InvalidArgument
  end.

(** The error of the first package file that has one. *)
Fixpoint first_error (ps : list (result exn (Node * gmap Node Version))) : option exn :=
  match ps with
  | [] => None
  | p :: ps => match package_error p with Some e => Some e | None => first_error ps end
  end.

Lemma add_dep_throw name deps e : fold_left (add_dep name) deps (Throw e) = Throw e.
Proof. by induction deps. Qed.

Lemma add_dep_loop_result name deps g :
  name ≠ ""%string →
  (""%string ∉ deps.*1 → ∃ g', fold_left (add_dep name) deps (Ok g) = Ok g')
  ∧ (""%string ∈ deps.*1 → fold_left (add_dep name) deps (Ok g) = Throw InvalidArgument).
Proof.
  intros Hname. revert g. induction deps as [|[d v] deps IH]; intros g.
  { split; [by eexists|]. simpl. set_solver. }
  cbn [fold_left].
  destruct (decide (d = name)) as [->|Hd].
  { replace (add_dep name (Ok g) (name, v)) with (@Ok exn _ g)
      by (cbn; by rewrite String.eqb_refl).
    destruct (IH g) as [H1 H2]. split; intros ?; [apply H1|apply H2]; set_solver. }
  destruct (decide (d = ""%string)) as [->|Hne].
  { split; [set_solver|]. intros _.
    replace (add_dep name (Ok g) (""%string, v)) with (@Throw exn DependencyGraph InvalidArgument)
      by (by destruct name). apply add_dep_throw. }
  assert (∃ g', add_dep name (Ok g) (d, v) = Ok g') as [g2 ->].
  { cbn. rewrite (proj2 (String.eqb_neq d name) Hd).
    destruct (addNode_result d v g Hne) as (g1 & -> & Hv1 & _ & _). simpl.
    destruct (addDependency_result name d v g1) as (g2 & -> & _ & _); [done..|]. by eexists. }
  destruct (IH g2) as [H1 H2]. split; intros ?; [apply H1|apply H2]; set_solver.
Qed.

Lemma add_package_result g p :
  match package_error p with
  | Some e => add_package (Ok g) p = Throw e
  | None => ∃ g', add_package (Ok g) p = Ok g'
  end.
Proof.
  destruct p as [[name deps]|e]; [|done]. cbn [package_error add_package].
  destruct (str_empty name) eqn:He; [simpl; rewrite He; by eexists|].
  assert (name ≠ ""%string) as Hname by by intros ->.
  destruct (addNode_result name) with (v := default Version0 (deps !! name)) (g := g)
    as (g1 & Hg1 & _); [done|].
  destruct (add_dep_loop_result name (iter_map deps) g1 Hname) as [H1 H2].
  rewrite elem_of_iter_map_keys in H1, H2. simpl. rewrite He.
  destruct (deps !! name) as [v|]; simpl in *;
    [|by destruct (decide (@None Version = None))].
  destruct (decide (Some v = None)); [done|]. rewrite Hg1. simpl.
  destruct (decide (deps !! ""%string = None)) as [Hn|Hn].
  - apply H1. rewrite Hn. by intros [??].
  - apply H2. by apply not_eq_None_Some.
Qed.

Lemma build_graph_first_error fs dirs :
  match first_error (flat_map (λ dir, dir_packages (fs dir)) dirs) with
  | Some e => build_graph fs dirs = Throw e
  | None => ∃ g, build_graph fs dirs = Ok g
  end.
Proof.
  unfold build_graph. generalize DependencyGraph_new.
  induction (flat_map _ dirs) as [|p ps IH]; intros g; cbn [fold_left first_error];
    [by eexists|].
  pose proof (add_package_result g p) as Hp. destruct (package_error p) as [e|].
  - rewrite Hp. apply add_package_throw.
  - destruct Hp as [g' ->]. apply IH.
Qed.

(** [C1] [resolveDependencies] always returns, and its answer is determined by
    the package files read.  It throws the error of the first faulty file, if
    any: the error of reading or parsing it, out_of_range when the file does not
    list its own package, or invalid_argument when it names a dependency with an
    empty name; without a faulty file it throws a runtime error exactly when the
    dependencies are circular.  Otherwise it returns every package and every
    dependency named by the files exactly once, each package before the packages
    it depends on. *)
Theorem resolveDependencies_correct (fs : string → PackageDir) (dirs : list string) :
  let ps := flat_map (λ dir, dir_packages (fs dir)) dirs in
  ∃ r, resolveDependencies fs dirs = Some r ∧
    match r with
    | Ok l =>
        first_error ps = None ∧ (∀ x, ¬ tc (pkg_depends ps) x x)
        ∧ NoDup l ∧ (∀ x, x ∈ l ↔ pkg_node ps x)
        ∧ ∀ a b, pkg_depends ps a b → ∃ l1 l2, l = l1 ++ a :: l2 ∧ b ∈ l2
    | Throw e =>
        first_error ps = Some e
        ∨ (first_error ps = None ∧ e = RuntimeError ∧ ∃ x, tc (pkg_depends ps) x x)
    end.
Proof.
  intros ps. destruct (decide (dirs = [])) as [->|Hdirs].
  { exists (Ok []). split_and!; [done|done|..|constructor| |];
      unfold pkg_node, pkg_depends; [|set_solver..].
    intros x Hx. assert (∃ y, ∃ deps, @Ok exn (Node * gmap Node Version) (y, deps) ∈ []) as (? & ? & ?);
      [|set_solver]. destruct Hx as [??(?&?&_)|???(?&?&_)]; eauto. }
  rewrite resolveDependencies_nonempty by done.
  pose proof (build_graph_first_error fs dirs) as Herr. fold ps in Herr.
  destruct (first_error ps) as [e|] eqn:He; [rewrite Herr; exists (Throw e); auto|].
  destruct Herr as [g Hb]. rewrite Hb.
  apply build_graph_spec in Hb as (Hd & Hn & Hc). fold ps in Hd, Hn.
  assert (∀ x y, tc (depends g) x y ↔ tc (pkg_depends ps) x y) as Htc.
  { intros x y. split; (induction 1; [apply tc_once|eapply tc_l; [|done]]; by apply Hd). }
  destruct (hasCycle_total g Hc) as [[] Hcyc]; rewrite Hcyc.
  { apply (hasCycle_spec g Hc) in Hcyc as [x Hx]. eexists. split; [done|].
    right. split_and!; [done..|]. exists x. by apply Htc. }
  destruct (topologicalSort_total g Hc) as (l & Hl & Hperm). rewrite Hl.
  assert (NoDup l) as Hnd by (rewrite Hperm; apply NoDup_iter_keys).
  assert (¬ ∃ x, tc (depends g) x x) as Hac.
  { intros H%(hasCycle_spec g Hc). by rewrite Hcyc in H. }
  eexists. split; [done|]. simpl. rewrite removeDuplicates_NoDup by done.
  split_and!; [done| |done|..].
  - intros x Hx%Htc. eauto.
  - intros x. by rewrite Hperm, elem_of_iter_keys, Hn.
  - intros a b Hab. apply (topologicalSort_order g Hc); [done|done|by apply Hd].
Qed.

Lemma add_package_unlisted name deps g :
  name ≠ ""%string → deps !! name = None →
  add_package g (Ok (name, deps)) = Throw match g with Ok _ => OutOfRange | Throw e => e end.
Proof. intros Hn Hd. destruct g, name; simpl in *; [done|by rewrite Hd|done..]. Qed.

Lemma add_packages_unlisted name deps ps g :
  name ≠ ""%string → deps !! name = None → Ok (name, deps) ∈ ps →
  ∃ e, fold_left add_package ps g = Throw e.
Proof.
  intros Hn Hd (l1 & l2 & ->)%list_elem_of_split.
  rewrite fold_left_app. simpl. rewrite add_package_unlisted by done.
  rewrite add_package_throw. by eexists.
Qed.

(** A package.xml file lists no version for its own package, so a
    directory whose package.xml names a package that is not among its own
    <depend> elements makes the whole resolution throw. *)
Theorem xml_package_unresolvable (fs : string → PackageDir) (dirs : list string)
    (dir : string) (doc : XmlPackage) (name : Node) :
  dir ∈ dirs → package_xml (fs dir) = Some (Ok doc) →
  xp_root doc = true → xp_name doc = Some name → name ≠ ""%string →
  Some name ∉ xp_depends doc →
  ∃ e, resolveDependencies fs dirs = Some (Throw e).
Proof.
  intros Hdir Hxml Hroot Hname Hne Hself.
  rewrite resolveDependencies_nonempty by by intros ->; set_solver.
  assert (∃ deps, parsePackageXml (Ok doc) = Ok (name, deps) ∧ deps !! name = None)
    as (deps & Hparse & Hdeps).
  { unfold parsePackageXml. simpl. rewrite Hroot, Hname. simpl. eexists. split; [done|].
    assert (∀ m : gmap Node Version, m !! name = None →
      fold_left (λ deps text, match text with Some t => <[t:=Version0]> deps | None => deps end)
        (xp_depends doc) m !! name = None) as Hfold; [|by apply Hfold].
    induction (xp_depends doc) as [|[t|] l IH]; intros m Hm; simpl; [done|..];
      apply IH; try set_solver. rewrite lookup_insert_ne; [done|set_solver]. }
  destruct (add_packages_unlisted name deps (flat_map (λ dir, dir_packages (fs dir)) dirs)
              (Ok DependencyGraph_new)) as [e He]; [done..| |].
  { rewrite <- Hparse. apply list_elem_of_In, in_flat_map. exists dir.
    split; [by apply list_elem_of_In|]. unfold dir_packages. rewrite Hxml.
    rewrite !in_app_iff. simpl. auto. }
  unfold build_graph. rewrite He. by eexists.
Qed.

(** ** Parallel resolution *)

(** What resolving the directories one after the other gives. *)
Fixpoint resolve_each (fs : string → PackageDir) (dirs : list string)
    : result exn (list Node) :=
  match dirs with
  | [] => Ok []
  | d :: rest =>
      let* ds := default (Throw RuntimeError) (resolveDependencies fs [d]) in
      let* all := resolve_each fs rest in Ok (ds ++ all)
  end.

(** Every cached list is what resolving the directory gives. *)
Definition cache_ok (fs : string → PackageDir) (cache : gmap Node (list Node)) : Prop :=
  ∀ d ds, cache !! d = Some ds → resolveDependencies fs [d] = Some (Ok ds).

Lemma resolveDependencies_total fs dirs : ∃ r, resolveDependencies fs dirs = Some r.
Proof.
  destruct (decide (dirs = [])) as [->|Hd]; [by eexists|].
  rewrite resolveDependencies_nonempty by done.
  destruct (build_graph fs dirs) as [g|e] eqn:Hb; [|by eexists].
  apply build_graph_spec in Hb as (_ & _ & Hc).
  destruct (hasCycle_total g Hc) as [[] ->]; [by eexists|].
  destruct (topologicalSort_total g Hc) as (l & -> & _). by eexists.
Qed.

Lemma resolve_each_app fs d1 d2 :
  resolve_each fs (d1 ++ d2) =
  let* a := resolve_each fs d1 in let* b := resolve_each fs d2 in Ok (a ++ b).
Proof.
  induction d1 as [|d d1 IH]; simpl; [by destruct (resolve_each fs d2)|].
  destruct (default _ _); simpl; [|done]. rewrite IH.
  destruct (resolve_each fs d1); simpl; [|done].
  destruct (resolve_each fs d2); simpl; [|done]. by rewrite app_assoc.
Qed.

Lemma resolveParallelBatch_spec fs batch cache :
  cache_ok fs cache →
  ∃ cache', resolveParallelBatch fs batch cache = Some (cache', resolve_each fs batch)
    ∧ cache_ok fs cache'.
Proof.
  revert cache. induction batch as [|d batch IH]; intros cache Hc;
    cbn [resolveParallelBatch resolve_each]; [by eauto|].
  destruct (cache !! d) as [ds|] eqn:Hd.
  - destruct (IH cache Hc) as (cache' & -> & Hc'). rewrite (Hc _ _ Hd). by eauto.
  - destruct (resolveDependencies_total fs [d]) as [[ds|e] Hr]; rewrite Hr; simpl; [|by eauto].
    destruct (IH (<[d := ds]> cache)) as (cache' & -> & Hc'); [|by eauto].
    intros x xs. rewrite lookup_insert_Some. intros [[<- <-]|[_ Hx]]; eauto.
Qed.

Lemma run_batches_spec fs bs cache :
  cache_ok fs cache →
  ∃ cache', run_batches fs bs cache = Some (cache', resolve_each fs (concat bs))
    ∧ cache_ok fs cache'.
Proof.
  revert cache. induction bs as [|b bs IH]; intros cache Hc; simpl; [by eauto|].
  destruct (resolveParallelBatch_spec fs b cache Hc) as (c1 & -> & Hc1).
  destruct (IH c1 Hc1) as (c2 & -> & Hc2). rewrite resolve_each_app. by eauto.
Qed.

Lemma split_batches_concat fuel n dirs :
  n ≠ 0 → length dirs ≤ fuel → concat (split_batches fuel n dirs) = dirs.
Proof.
  intros Hn. revert dirs. induction fuel as [|fuel IH]; intros [|d dirs] H; simpl in *;
    try done; [lia|].
  destruct n as [|n]; [done|]. rewrite IH by (simpl; rewrite length_drop; lia).
  by rewrite take_drop.
Qed.

(** Resolving in parallel gives what resolving the directories one after
    the other and removing duplicates gives, whatever the number of processors
    (and so the batches), as long as the cache holds results of earlier
    resolutions, which it keeps doing; an error of any directory surfaces as
    the runtime error. *)
Theorem resolveParallelDependencies_correct (fs : string → PackageDir)
    (hardware_concurrency : nat) (dirs : list string) (g : DependencyGraph) :
  cache_ok fs (dependencyCache g) →
  ∃ g', resolveParallelDependencies fs hardware_concurrency dirs g =
      Some (g', match resolve_each fs dirs with
                | Ok l => Ok (removeDuplicates l)
                | Throw _ => Throw RuntimeError
                end)
    ∧ cache_ok fs (dependencyCache g') ∧ adjList g' = adjList g.
Proof.
  intros Hc. unfold resolveParallelDependencies.
  destruct dirs as [|d dirs]; [by exists g|].
  set (n := Nat.max 1 (length (d :: dirs) / _)).
  destruct (run_batches_spec fs (split_batches (length (d :: dirs)) n (d :: dirs)) _ Hc)
    as (c' & -> & Hc').
  rewrite split_batches_concat by lia.
  destruct (resolve_each fs (d :: dirs)); by eexists.
Qed.
End resolution.

(** Two directories for the examples: "app" has a package.json that needs
    "lib", and "xml" a package.xml. *)
Definition demo_fs (dir : string) : PackageDir :=
  if String.eqb dir "app" then
    mkPackageDir (Some (Ok (mkJsonPackage (FieldString "app") (FieldString "1.2.0")
                              [("lib", Some "2.0.0")]))) None None
  else if String.eqb dir "xml" then
    mkPackageDir None (Some (Ok (mkXmlPackage true (Some "pkg") [Some "lib"]))) None
  else mkPackageDir None None None.

#[local] Existing Instance canonical_iter.

Example demo_resolve :
  resolveDependencies demo_fs ["app"] = Some (Ok ["app"; "lib"]%string).
Proof. vm_compute. reflexivity. Qed.

Lemma xml_package_unresolvable_witness :
  ∃ e, resolveDependencies demo_fs ["app"; "xml"] = Some (Throw e).
Proof.
  apply (xml_package_unresolvable demo_fs ["app"; "xml"] "xml"
           (mkXmlPackage true (Some "pkg"%string) [Some "lib"%string]) "pkg").
  - right. left.
  - reflexivity.
  - reflexivity.
  - reflexivity.
  - discriminate.
  - intros H. apply list_elem_of_singleton in H. discriminate.
Defined.

Lemma demo_resolve_each :
  resolve_each demo_fs ["app"; "none"; "app"] = Ok ["app"; "lib"; "app"; "lib"]%string.
Proof. vm_compute. reflexivity. Qed.

Lemma resolveParallelDependencies_correct_witness :
  ∃ g', resolveParallelDependencies demo_fs 4 ["app"; "none"; "app"] DependencyGraph_new =
          Some (g', Ok (removeDuplicates ["app"; "lib"; "app"; "lib"]%string))
    ∧ cache_ok demo_fs (dependencyCache g') ∧ adjList g' = ∅.
Proof.
  assert (cache_ok demo_fs (dependencyCache DependencyGraph_new)) as Hc.
  { intros d ds H. simpl in H. by rewrite lookup_empty in H. }
  pose proof (resolveParallelDependencies_correct demo_fs 4 ["app"; "none"; "app"]
                DependencyGraph_new Hc) as H.
  rewrite demo_resolve_each in H. exact H.
Defined.
