(* ===== verification/Json.v ===== *)
(** * Json: what the modelled code uses of nlohmann::json

    The JSON library is third-party code.  [JsonOps] lists the operations the
    modelled components call, and their definitions and theorems hold for every
    instance.  [demo_json] is a small instance used to evaluate examples. *)

From S2P Require Import Prelude.

Class JsonOps (J : Type) := {
  (** [json{}], the null value. *)
  j_null : J;
  (** [find(key)]: [None] is [end()], as for every value that is not an object. *)
  j_find : J → string → option J;
  j_is_string : J → bool;
  j_is_number : J → bool;
  j_is_boolean : J → bool;
  j_is_array : J → bool;
  j_is_object : J → bool;
  (** [dump()]; [Throw what] when a string is not valid UTF-8. *)
  j_dump : J → result string string
}.

Inductive demo_json :=
| DNull
| DString (s : string)
| DNumber (z : Z)
| DObject (fields : list (string * demo_json)).

Fixpoint demo_field (fields : list (string * demo_json)) (k : string) : option demo_json :=
  match fields with
  | [] => None
  | (k', v) :: rest => if String.eqb k k' then Some v else demo_field rest k
  end.

Definition demo_ops : JsonOps demo_json := {|
  j_null := DNull;
  j_find j k := match j with DObject fs => demo_field fs k | _ => None end;
  j_is_string j := match j with DString _ => true | _ => false end;
  j_is_number j := match j with DNumber _ => true | _ => false end;
  j_is_boolean _ := false;
  j_is_array _ := false;
  j_is_object j := match j with DObject _ => true | _ => false end;
  j_dump _ := Ok "{}"%string
|}.
