(* ===== verification/JsonCodec.v ===== *)
(** * JsonCodec: building, reading and printing JSON values

    The part of nlohmann::json that the serializers of the program call: the
    initializer lists of objects, the conversions [get<T>()], [dump] and
    [parse].  The library is third-party code, so [JsonCodec] is an interface:
    its laws state that what is stored under a key of an object is what is
    found there, and that a converted value converts back.  [jval_codec] is an
    instance for examples. *)

From S2P Require Import Prelude Json.

Local Open Scope Z_scope.

Definition INT64_MAX : Z := 9223372036854775807.
Definition INT64_MIN : Z := -9223372036854775808.
Definition UINT32_MOD : Z := 4294967296.

(** The value under the first entry of the key. *)
Fixpoint assoc {V} (k : string) (l : list (string * V)) : option V :=
  match l with
  | [] => None
  | (k', v) :: l' => if String.eqb k k' then Some v else assoc k l'
  end.

(** [F] is the type of the floating-point numbers. *)
Class JsonCodec (J F : Type) := {
  jc_ops :: JsonOps J;
  (** An initializer list of pairs, and [j[key] = v] for a key not yet there. *)
  j_object : list (string * J) → J;
  j_set : J → string → J → J;
  j_of_string : string → J;
  j_of_strings : list string → J;
  j_of_int : Z → J;
  j_of_bool : bool → J;
  j_of_float : F → J;
  (** [get<T>()]; [None] is the exception [type_error]. *)
  j_get_string : J → option string;
  j_get_strings : J → option (list string);
  j_get_int64 : J → option Z;
  j_get_size : J → option Z;
  j_get_uint32 : J → option Z;
  j_get_bool : J → option bool;
  j_get_float : J → option F;
  (** [parse(s)]; [None] is the exception [parse_error]. *)
  j_parse : string → option J;

  j_find_object : ∀ kvs k, NoDup kvs.*1 → j_find (j_object kvs) k = assoc k kvs;
  j_set_object : ∀ kvs k v, k ∉ kvs.*1 → j_set (j_object kvs) k v = j_object (kvs ++ [(k, v)]);
  j_string_law : ∀ s, j_get_string (j_of_string s) = Some s;
  j_strings_law : ∀ l, j_get_strings (j_of_strings l) = Some l;
  j_int64_law : ∀ z, INT64_MIN ≤ z ≤ INT64_MAX → j_get_int64 (j_of_int z) = Some z;
  j_size_law : ∀ z, 0 ≤ z < SIZE_MOD → j_get_size (j_of_int z) = Some z;
  j_uint32_law : ∀ z, 0 ≤ z < UINT32_MOD → j_get_uint32 (j_of_int z) = Some z;
  j_bool_law : ∀ b, j_get_bool (j_of_bool b) = Some b;
  j_float_law : ∀ f, j_get_float (j_of_float f) = Some f
}.

(** [if (j.contains(k)) x = j[k].get<A>();] on a member whose default is [d]. *)
Definition j_member `{JsonCodec J F} {A} (j : J) (k : string) (get : J → option A) (d : A) : option A :=
  match j_find j k with
  | Some v => get v
  | None => Some d
  end.

Lemma j_member_object `{JsonCodec J F} {A} kvs k (get : J → option A) d v a :
  NoDup kvs.*1 → assoc k kvs = Some v → get v = Some a →
  j_member (j_object kvs) k get d = Some a.
Proof. intros Hnd Hk Hv. unfold j_member. by rewrite j_find_object, Hk. Qed.

Lemma j_member_absent `{JsonCodec J F} {A} kvs k (get : J → option A) d :
  NoDup kvs.*1 → assoc k kvs = None → j_member (j_object kvs) k get d = Some d.
Proof. intros Hnd Hk. unfold j_member. by rewrite j_find_object, Hk. Qed.

Create HintDb json.
#[export] Hint Resolve j_string_law j_strings_law j_int64_law j_size_law j_uint32_law
  j_bool_law j_float_law : json.

(** Closes [NoDup] of a literal list of keys. *)
Ltac solve_keys := apply (bool_decide_unpack _); vm_compute; exact I.

(** Rewrites every member read from a literal object; the range side conditions
    are left to [lia] with the hypotheses of the context. *)
Ltac read_members :=
  repeat first
    [ erewrite j_member_object by
        first [solve_keys | reflexivity | solve [eauto with json] | (auto with json; lia)]
    | erewrite j_member_absent by first [solve_keys | reflexivity] ]; cbn.

(** ** A concrete instance *)

Inductive jval :=
| JNull
| JBool (b : bool)
| JInt (z : Z)
| JStr (s : string)
| JArr (l : list string)
| JObj (fields : list (string * jval)).

Definition jval_ops (text : jval → result string string) : JsonOps jval := {|
  j_null := JNull;
  j_find j k := match j with JObj fs => assoc k fs | _ => None end;
  j_is_string j := match j with JStr _ => true | _ => false end;
  j_is_number j := match j with JInt _ => true | _ => false end;
  j_is_boolean j := match j with JBool _ => true | _ => false end;
  j_is_array j := match j with JArr _ => true | _ => false end;
  j_is_object j := match j with JObj _ => true | _ => false end;
  j_dump := text
|}.

Definition jval_int (j : jval) : option Z := match j with JInt z => Some z | _ => None end.

(** The text of one document, [doc], is the string [name]. *)
Definition jval_codec (name : string) (doc : jval) : JsonCodec jval Z.
Proof.
  refine {|
    jc_ops := jval_ops (λ _, Ok name);
    j_object := JObj;
    j_set j k v := match j with JObj fs => JObj (fs ++ [(k, v)]) | _ => j end;
    j_of_string := JStr;
    j_of_strings := JArr;
    j_of_int := JInt;
    j_of_bool := JBool;
    j_of_float := JInt;
    j_get_string j := match j with JStr s => Some s | _ => None end;
    j_get_strings j := match j with JArr l => Some l | _ => None end;
    j_get_int64 := jval_int;
    j_get_size := jval_int;
    j_get_uint32 := jval_int;
    j_get_bool j := match j with JBool b => Some b | _ => None end;
    j_get_float := jval_int;
    j_parse s := if String.eqb s name then Some doc else None
  |}; done.
Defined.
