(* ===== verification/Task.v ===== *)
(** * Task: the unit of work of the sequencer

    Models class Task of src/src/task/core/task.hpp and task.cpp.  The fields
    of the object are the record [TaskCore]; the action and the owned pre- and
    post-tasks complete it to a tree.  An action is a black box: given the
    parameters it makes calls on its own task, then returns or throws.  Clock
    readings come from two streams and a call takes the position it starts at.
    Actions throw only objects derived from std::exception.  The constant
    cpuUsage_ and [toJson] are left out. *)

From S2P Require Import Prelude Json.

Inductive TaskStatus := Pending | InProgress | Completed | Failed.

Inductive TaskErrorType :=
| ErrNone | Timeout | InvalidParameter | DeviceError | SystemError | ExecutionFailed
| Cancelled | DependencyFailed | ResourceUnavailable | Unknown.

#[export] Instance TaskStatus_eq_dec : EqDecision TaskStatus.
Proof. solve_decision. Defined.
#[export] Instance TaskErrorType_eq_dec : EqDecision TaskErrorType.
Proof. solve_decision. Defined.

(** What the two [dynamic_cast]s of the exception handler can tell apart. *)
Inductive exc_class := ExcTimeout | ExcInvalidArgument | ExcOther.

Section task.
Context {J : Type} `{!JsonOps J}.

Record ParamDefinition := mkParamDefinition {
  pd_name : string;
  pd_type : string;
  pd_required : bool;
  pd_defaultValue : J;
  pd_description : string
}.

(** The public mutators an action or an exception callback can call. *)
Inductive task_call :=
| CallSetTimeout (timeout : Z)
| CallSetPriority (priority : Z)
| CallAddDependency (taskId : string)
| CallRemoveDependency (taskId : string)
| CallSetDependencyStatus (taskId : string) (status : bool)
| CallSetLogLevel (level : Z)
| CallSetErrorType (type : TaskErrorType)
| CallAddHistoryEntry (entry : string)
| CallAddParamDefinition (def : ParamDefinition)
| CallRemoveParamDefinition (name : string)
| CallValidateParams (params : J)
| CallSetTaskType (type : string)
| CallCancel
| CallSetStatus (status : TaskStatus)
| CallSetError (error : string)
| CallClearError.

Record TaskCore := mkTaskCore {
  name_ : string;
  uuid_ : string;
  taskType_ : string;
  timeout_ : Z;                                (* seconds *)
  status_ : TaskStatus;
  error_ : option string;
  priority_ : Z;
  dependencies_ : list string;
  dependencyStatus_ : gmap string bool;
  executionTime_ : Z;                          (* milliseconds *)
  logLevel_ : Z;
  errorType_ : TaskErrorType;
  errorDetails_ : string;
  taskHistory_ : list string;
  paramDefinitions_ : list ParamDefinition;
  paramErrors_ : list string;
  exceptionCallback_ : option (string → list task_call);
  cancelled_ : bool;
  creationTime_ : Z;
  startTime_ : option Z;
  endTime_ : option Z
}.

#[export] Instance TaskCore_eta : Eta TaskCore := λ c,
  mkTaskCore (name_ c) (uuid_ c) (taskType_ c) (timeout_ c) (status_ c) (error_ c)
    (priority_ c) (dependencies_ c) (dependencyStatus_ c) (executionTime_ c) (logLevel_ c)
    (errorType_ c) (errorDetails_ c) (taskHistory_ c) (paramDefinitions_ c) (paramErrors_ c)
    (exceptionCallback_ c) (cancelled_ c) (creationTime_ c) (startTime_ c) (endTime_ c).

(** How the body of an action ends, and a whole run of it. *)
Inductive body_end :=
| Returned
| Raised (class : exc_class) (what : string).

Record action_run := mkActionRun { ar_calls : list task_call; ar_end : body_end }.

Inductive Task := mkTask {
  core : TaskCore;
  action_ : J → action_run;
  preTasks_ : list Task;
  postTasks_ : list Task
}.

(** The constructor; the UUID and the creation time come from outside. *)
Definition Task_new (name uuid : string) (now : Z) (action : J → action_run) : Task :=
  mkTask (mkTaskCore name uuid "" 0 Pending None 5 [] ∅ 0 2 ErrNone "" [] [] [] None false
            now None None) action [] [].

(** ** Operations on the fields *)

Definition setTimeout (timeout : Z) (c : TaskCore) : TaskCore := c <| timeout_ := timeout |>.

Definition setPriority (priority : Z) (c : TaskCore) : result exn TaskCore :=
  if (priority <? 1)%Z || (10 <? priority)%Z then Throw InvalidArgument
  else Ok (c <| priority_ := priority |>).

Definition hasDependency (c : TaskCore) (taskId : string) : bool :=
  bool_decide (taskId ∈ dependencies_ c).

Definition addDependency (taskId : string) (c : TaskCore) : TaskCore :=
  if hasDependency c taskId then c
  else c <| dependencies_ ::= (λ l, l ++ [taskId]) |>
         <| dependencyStatus_ ::= (λ m, <[taskId := false]> m) |>.

(** [std::remove] and [erase]: nothing changes when nothing was removed. *)
Definition removeDependency (taskId : string) (c : TaskCore) : TaskCore :=
  if hasDependency c taskId
  then c <| dependencies_ ::= filter (λ d, d ≠ taskId) |>
         <| dependencyStatus_ ::= (λ m, delete taskId m) |>
  else c.

Definition setDependencyStatus (taskId : string) (status : bool) (c : TaskCore) : TaskCore :=
  if hasDependency c taskId then c <| dependencyStatus_ ::= (λ m, <[taskId := status]> m) |> else c.

(** [at] throws for a dependency without a status. *)
Fixpoint dependencies_satisfied (deps : list string) (st : gmap string bool)
    : result exn bool :=
  match deps with
  | [] => Ok true
  | dep :: rest =>
      match st !! dep with
      | None => Throw OutOfRange
      | Some true => dependencies_satisfied rest st
      | Some false => Ok false
      end
  end.

Definition isDependencySatisfied (c : TaskCore) : result exn bool :=
  dependencies_satisfied (dependencies_ c) (dependencyStatus_ c).

Definition setLogLevel (level : Z) (c : TaskCore) : result exn TaskCore :=
  if (level <? 0)%Z || (4 <? level)%Z then Throw InvalidArgument
  else Ok (c <| logLevel_ := level |>).

Definition setErrorType (type : TaskErrorType) (c : TaskCore) : TaskCore :=
  c <| errorType_ := type |>.

Definition addHistoryEntry (entry : string) (c : TaskCore) : TaskCore :=
  c <| taskHistory_ ::= (λ l, l ++ [entry]) |>.

Definition addParamDefinition (def : ParamDefinition) (c : TaskCore) : TaskCore :=
  c <| paramDefinitions_ ::= (λ l, l ++ [def]) |>.

Definition removeParamDefinition (name : string) (c : TaskCore) : TaskCore :=
  c <| paramDefinitions_ ::= filter (λ def, pd_name def ≠ name) |>.

Definition setTaskType (type : string) (c : TaskCore) : TaskCore := c <| taskType_ := type |>.

Definition setExceptionCallback (callback : string → list task_call) (c : TaskCore)
    : TaskCore := c <| exceptionCallback_ := Some callback |>.
Definition clearExceptionCallback (c : TaskCore) : TaskCore :=
  c <| exceptionCallback_ := None |>.

Definition cancel (c : TaskCore) : bool * TaskCore :=
  if decide (status_ c = InProgress)
  then (true, c <| cancelled_ := true |> <| status_ := Failed |>
                <| errorType_ := Cancelled |> <| error_ := Some "Task was cancelled"%string |>)
  else (false, c).

Definition setStatus (status : TaskStatus) (c : TaskCore) : TaskCore := c <| status_ := status |>.

Definition setError (error : string) (c : TaskCore) : TaskCore :=
  c <| error_ := Some error |> <| errorDetails_ := error |>.

Definition clearError (c : TaskCore) : TaskCore :=
  c <| error_ := None |> <| errorType_ := ErrNone |> <| errorDetails_ := ""%string |>.

(** ** Parameters *)

Definition validateParamType (type : string) (value : J) : bool :=
  if String.eqb type "string" && negb (j_is_string value) then false
  else if String.eqb type "number" && negb (j_is_number value) then false
  else if String.eqb type "boolean" && negb (j_is_boolean value) then false
  else if String.eqb type "array" && negb (j_is_array value) then false
  else if String.eqb type "object" && negb (j_is_object value) then false
  else true.

(** The error one definition adds, if any. *)
Definition param_error (params : J) (def : ParamDefinition) : list string :=
  match j_find params (pd_name def) with
  | None => if pd_required def
            then ["Missing required parameter: " +:+ pd_name def]%string else []
  | Some it =>
      if negb (validateParamType (pd_type def) it)
      then [("Invalid type for parameter " +:+ pd_name def +:+ ": expected "
             +:+ pd_type def)%string]
      else []
  end.

Definition validateParams (params : J) (c : TaskCore) : bool * TaskCore :=
  let errors := flat_map (param_error params) (paramDefinitions_ c) in
  (match errors with [] => true | _ => false end, c <| paramErrors_ := errors |>).

(** [std::accumulate] with "; " between the messages. *)
Fixpoint join_errors (acc : string) (errors : list string) : string :=
  match errors with
  | [] => acc
  | e :: rest => join_errors (acc +:+ "; " +:+ e) rest
  end.

Definition param_error_text (errors : list string) : string :=
  match errors with
  | [] => "Parameter validation failed"
  | e :: rest => "Parameter validation failed: " +:+ join_errors e rest
  end.

(** A call of a public mutator; one that throws changes nothing. *)
Definition or_same (c : TaskCore) (r : result exn TaskCore) : TaskCore :=
  match r with Ok c' => c' | Throw _ => c end.

Definition run_call (c : TaskCore) (call : task_call) : TaskCore :=
  match call with
  | CallSetTimeout t => setTimeout t c
  | CallSetPriority p => or_same c (setPriority p c)
  | CallAddDependency d => addDependency d c
  | CallRemoveDependency d => removeDependency d c
  | CallSetDependencyStatus d b => setDependencyStatus d b c
  | CallSetLogLevel l => or_same c (setLogLevel l c)
  | CallSetErrorType t => setErrorType t c
  | CallAddHistoryEntry e => addHistoryEntry e c
  | CallAddParamDefinition d => addParamDefinition d c
  | CallRemoveParamDefinition n => removeParamDefinition n c
  | CallValidateParams p => (validateParams p c).2
  | CallSetTaskType t => setTaskType t c
  | CallCancel => (cancel c).2
  | CallSetStatus s => setStatus s c
  | CallSetError e => setError e c
  | CallClearError => clearError c
  end.

Definition run_calls (calls : list task_call) (c : TaskCore) : TaskCore :=
  fold_left run_call calls c.

(** ** Pre- and post-tasks *)

Definition getUUID (t : Task) : string := uuid_ (core t).
Definition getStatus (t : Task) : TaskStatus := status_ (core t).

Definition same_uuid (uuid : string) (t : Task) : bool := String.eqb (getUUID t) uuid.

(** A null pointer and a task whose UUID is already there are ignored. *)
Definition add_task (task : option Task) (ts : list Task) : list Task :=
  match task with
  | None => ts
  | Some t => if existsb (same_uuid (getUUID t)) ts then ts else ts ++ [t]
  end.

(** The first task with that UUID is erased. *)
Fixpoint remove_task (uuid : string) (ts : list Task) : list Task :=
  match ts with
  | [] => []
  | t :: rest => if same_uuid uuid t then rest else t :: remove_task uuid rest
  end.

Definition addPreTask (task : option Task) (t : Task) : Task :=
  mkTask (core t) (action_ t) (add_task task (preTasks_ t)) (postTasks_ t).
Definition removePreTask (task : Task) (t : Task) : Task :=
  mkTask (core t) (action_ t) (remove_task (getUUID task) (preTasks_ t)) (postTasks_ t).
Definition addPostTask (task : option Task) (t : Task) : Task :=
  mkTask (core t) (action_ t) (preTasks_ t) (add_task task (postTasks_ t)).
Definition removePostTask (task : Task) (t : Task) : Task :=
  mkTask (core t) (action_ t) (preTasks_ t) (remove_task (getUUID task) (postTasks_ t)).

Definition arePreTasksCompleted (pre : list Task) : bool :=
  forallb (λ t, bool_decide (getStatus t = Completed)) pre.

(** ** Execution *)

Section execution.
(** The readings of the system and high-resolution clocks, in nanoseconds. *)
Variables (system_now high_resolution_now : nat → Z).
(** EnhancedPackagedTask of the atom library, run on an action that ends as
    given: the call of the packaged task may throw, and [waitFor(timeout)]
    tells whether the result was there in time. *)
Inductive packaged_end :=
| PackagedThrows (class : exc_class) (what : string)
| PackagedWait (in_time : bool).
Variable run_packaged : Z → body_end → packaged_end.
(** The text of the timeout exception. *)
Variable timeout_what : string.

Definition run_body (timeout : Z) (e : body_end) : body_end :=
  if (0 <? timeout)%Z then
    match run_packaged timeout e with
    | PackagedThrows c w => Raised c w
    | PackagedWait true => Returned
    | PackagedWait false => Raised ExcTimeout timeout_what
    end
  else e.

(** The state the body of the action starts in. *)
Definition begin_run (c : TaskCore) : TaskCore :=
  addHistoryEntry "Task execution started"
    (c <| status_ := InProgress |> <| error_ := None |> <| errorType_ := ErrNone |>).

(** The [try] block up to the post-tasks: an early return, an exception for
    the handler, or the end of the action, completed or cancelled. *)
Inductive attempt :=
| AttemptEarly (c : TaskCore)
| AttemptThrows (c : TaskCore) (class : exc_class) (what : string)
| AttemptDone (c : TaskCore) (completed : bool).

Definition attempt_run (c : TaskCore) (action : J → action_run) (pre : list Task)
    (params : J) : attempt :=
  if cancelled_ c then
    AttemptEarly (c <| status_ := Failed |> <| errorType_ := Cancelled |>
                    <| error_ := Some "Task was cancelled before execution"%string |>)
  else if negb (arePreTasksCompleted pre) then
    AttemptThrows (c <| errorType_ := DependencyFailed |>) ExcOther "Pre-tasks not completed"
  else
    let '(valid, c) := validateParams params c in
    if negb valid then
      AttemptEarly (c <| status_ := Failed |> <| errorType_ := InvalidParameter |>
                      <| error_ := Some (param_error_text (paramErrors_ c)) |>)
    else
      match j_dump params with
      | Throw what => AttemptThrows c ExcOther what
      | Ok _ =>
          let timeout := timeout_ c in
          let run := action params in
          let c := run_calls (ar_calls run) (begin_run c) in
          match run_body timeout (ar_end run) with
          | Raised class what => AttemptThrows c class what
          | Returned =>
              if cancelled_ c then
                AttemptDone (addHistoryEntry "Task cancelled during execution"
                  (c <| status_ := Failed |> <| errorType_ := Cancelled |>
                     <| error_ := Some "Task was cancelled during execution"%string |>)) false
              else
                AttemptDone (addHistoryEntry "Task executed successfully"
                  (c <| status_ := Completed |>)) true
          end
      end.

(** The exception handler; what the callback throws is swallowed. *)
Definition handle_exception (class : exc_class) (what : string) (c : TaskCore) : TaskCore :=
  let c := c <| status_ := Failed |> <| error_ := Some what |> in
  let c := match exceptionCallback_ c with
           | Some callback => run_calls (callback what) c
           | None => c
           end in
  let c := if decide (errorType_ c = ErrNone)
           then setErrorType match class with
                             | ExcTimeout => Timeout
                             | ExcInvalidArgument => InvalidParameter
                             | ExcOther => ExecutionFailed
                             end c
           else c in
  addHistoryEntry ("Task failed: " +:+ what)%string (c <| errorDetails_ := what |>).

(** The loop of [triggerPostTasks]; [exec] executes one post-task. *)
Definition trigger_with (exec : Task → nat → Task * nat) :=
  fix trigger (ts : list Task) (n : nat) : list Task * nat :=
    match ts with
    | [] => ([], n)
    | t :: rest =>
        let '(t', n) := if decide (getStatus t = Pending) then exec t n else (t, n) in
        let '(rest', n) := trigger rest n in
        (t' :: rest', n)
    end.

Definition markStartTime (n : nat) (c : TaskCore) : TaskCore :=
  c <| startTime_ := Some (system_now n) |>.
Definition markEndTime (n : nat) (c : TaskCore) : TaskCore :=
  c <| endTime_ := Some (system_now n) |>.

(** After the [try] block: the end time and the duration in milliseconds. *)
Definition finish (n m : nat) (c : TaskCore) : TaskCore :=
  markEndTime m c
    <| executionTime_ :=
         Z.quot (high_resolution_now m - high_resolution_now n) 1000000 |>.

(** [execute] from clock position [n], with the position after it. *)
Fixpoint execute (t : Task) (params : J) (n : nat) {struct t} : Task * nat :=
  match t with
  | mkTask c action pre post =>
      match attempt_run (markStartTime n c) action pre params with
      | AttemptEarly c => (mkTask (markEndTime (S n) c) action pre post, S (S n))
      | AttemptThrows c class what =>
          (mkTask (finish n (S n) (handle_exception class what c)) action pre post, S (S n))
      | AttemptDone c false => (mkTask (finish n (S n) c) action pre post, S (S n))
      | AttemptDone c true =>
          let '(post, m) := trigger_with (λ p, execute p j_null) post (S n) in
          (mkTask (finish n m c) action pre post, S m)
      end
  end.

Definition triggerPostTasks (post : list Task) (n : nat) : list Task * nat :=
  trigger_with (λ p, execute p j_null) post n.

(** A public operation on a task; [n] is the clock position of [execute]. *)
Inductive task_op :=
| OpCall (call : task_call)
| OpSetExceptionCallback (callback : string → list task_call)
| OpClearExceptionCallback
| OpAddPreTask (task : option Task)
| OpRemovePreTask (task : Task)
| OpAddPostTask (task : option Task)
| OpRemovePostTask (task : Task)
| OpExecute (params : J) (n : nat).

Definition on_core (f : TaskCore → TaskCore) (t : Task) : Task :=
  mkTask (f (core t)) (action_ t) (preTasks_ t) (postTasks_ t).

Definition run_task_op (t : Task) (o : task_op) : Task :=
  match o with
  | OpCall call => on_core (λ c, run_call c call) t
  | OpSetExceptionCallback cb => on_core (setExceptionCallback cb) t
  | OpClearExceptionCallback => on_core clearExceptionCallback t
  | OpAddPreTask x => addPreTask x t
  | OpRemovePreTask x => removePreTask x t
  | OpAddPostTask x => addPostTask x t
  | OpRemovePostTask x => removePostTask x t
  | OpExecute params n => (execute t params n).1
  end.

(** * Properties *)

(** ** What every operation keeps *)

(** A predicate on the fields that every mutator and every assignment made by
    [execute] keeps. *)
Record stable (P : TaskCore → Prop) : Prop := {
  st_call : ∀ c call, P c → P (run_call c call);
  st_status : ∀ c s, P c → P (c <| status_ := s |>);
  st_error : ∀ c e, P c → P (c <| error_ := e |>);
  st_type : ∀ c e, P c → P (c <| errorType_ := e |>);
  st_details : ∀ c e, P c → P (c <| errorDetails_ := e |>);
  st_start : ∀ c e, P c → P (c <| startTime_ := e |>);
  st_end : ∀ c e, P c → P (c <| endTime_ := e |>);
  st_time : ∀ c e, P c → P (c <| executionTime_ := e |>)
}.

(** Strips assignments that a stable predicate survives. *)
Ltac keep HP :=
  repeat first [ assumption | apply (st_status _ HP) | apply (st_error _ HP)
               | apply (st_type _ HP) | apply (st_details _ HP) | apply (st_start _ HP)
               | apply (st_end _ HP) | apply (st_time _ HP) ].

Lemma run_calls_stable P calls c : stable P → P c → P (run_calls calls c).
Proof. intros HP. revert c. induction calls; simpl; intros; [done|].
  by apply IHcalls, (st_call _ HP).
Qed.

Lemma addHistoryEntry_stable P s c : stable P → P c → P (addHistoryEntry s c).
Proof. intros HP. apply (st_call _ HP c (CallAddHistoryEntry s)). Qed.

Lemma validateParams_stable P p c : stable P → P c → P (validateParams p c).2.
Proof. intros HP. apply (st_call _ HP c (CallValidateParams p)). Qed.

Definition attempt_core (a : attempt) : TaskCore :=
  match a with
  | AttemptEarly c => c
  | AttemptThrows c _ _ => c
  | AttemptDone c _ => c
  end.

Lemma attempt_run_stable P c action pre params :
  stable P → P c → P (attempt_core (attempt_run c action pre params)).
Proof.
  intros HP Hc. unfold attempt_run.
  destruct (cancelled_ c); cbn [negb attempt_core]; [by keep HP|].
  destruct (arePreTasksCompleted pre); cbn [negb attempt_core]; [|by keep HP].
  pose proof (validateParams_stable P params c HP Hc) as Hv.
  destruct (validateParams params c) as [[] c1]; cbn [negb attempt_core snd] in *;
    [|by keep HP].
  destruct (j_dump params); cbn [negb attempt_core]; [|done].
  assert (P (run_calls (ar_calls (action params)) (begin_run c1))) as Hr.
  { apply run_calls_stable; [done|]. unfold begin_run.
    apply addHistoryEntry_stable; [done|by keep HP]. }
  destruct (run_body _ _); [|done]. case_match; cbn [negb attempt_core];
    (apply addHistoryEntry_stable; [done|by keep HP]).
Qed.

Lemma handle_exception_stable P class what c :
  stable P → P c → P (handle_exception class what c).
Proof.
  intros HP Hc. unfold handle_exception. apply addHistoryEntry_stable; [done|].
  apply (st_details _ HP).
  assert (P match exceptionCallback_ (c <| status_ := Failed |> <| error_ := Some what |>) with
    | Some cb => run_calls (cb what) (c <| status_ := Failed |> <| error_ := Some what |>)
    | None => c <| status_ := Failed |> <| error_ := Some what |>
    end) as Hcb.
  { case_match; [apply run_calls_stable; [done|]|]; by keep HP. }
  case_decide; [by apply (st_type _ HP)|done].
Qed.

Lemma finish_stable P n m c : stable P → P c → P (finish n m c).
Proof. intros HP Hc. unfold finish, markEndTime. by keep HP. Qed.

(** One unfolding of [execute]. *)
Lemma execute_eq t params n :
  execute t params n =
  match attempt_run (markStartTime n (core t)) (action_ t) (preTasks_ t) params with
  | AttemptEarly c =>
      (mkTask (markEndTime (S n) c) (action_ t) (preTasks_ t) (postTasks_ t), S (S n))
  | AttemptThrows c class what =>
      (mkTask (finish n (S n) (handle_exception class what c))
         (action_ t) (preTasks_ t) (postTasks_ t), S (S n))
  | AttemptDone c false =>
      (mkTask (finish n (S n) c) (action_ t) (preTasks_ t) (postTasks_ t), S (S n))
  | AttemptDone c true =>
      let '(post, m) := triggerPostTasks (postTasks_ t) (S n) in
      (mkTask (finish n m c) (action_ t) (preTasks_ t) post, S m)
  end.
Proof. by destruct t. Qed.

Lemma execute_stable P t params n :
  stable P → P (core t) → P (core (execute t params n).1).
Proof.
  intros HP Hc. rewrite execute_eq.
  pose proof (attempt_run_stable P (markStartTime n (core t)) (action_ t) (preTasks_ t)
                params HP (st_start _ HP _ _ Hc)) as Ha.
  destruct (attempt_run _ _ _ _) as [c|c class what|c []]; simpl in *.
  - unfold markEndTime. by keep HP.
  - by apply finish_stable, handle_exception_stable.
  - destruct (triggerPostTasks _ _). by apply finish_stable.
  - by apply finish_stable.
Qed.

Lemma run_task_op_stable P t o :
  stable P → (∀ c e, P c → P (c <| exceptionCallback_ := e |>)) →
  P (core t) → P (core (run_task_op t o)).
Proof.
  intros HP Hcb Hc. destruct o; simpl; try done.
  - by apply (st_call _ HP).
  - by apply Hcb.
  - by apply Hcb.
  - by apply execute_stable.
Qed.

Lemma run_task_ops_stable P ops t :
  stable P → (∀ c e, P c → P (c <| exceptionCallback_ := e |>)) →
  P (core t) → P (core (fold_left run_task_op ops t)).
Proof.
  intros HP Hcb. revert t. induction ops; simpl; intros; [done|].
  by apply IHops, run_task_op_stable.
Qed.

(** ** Dependencies, priority and log level *)

Record core_ok (c : TaskCore) : Prop := {
  ok_nodup : NoDup (dependencies_ c);
  ok_status : ∀ d, d ∈ dependencies_ c ↔ is_Some (dependencyStatus_ c !! d);
  ok_priority : (1 ≤ priority_ c ≤ 10)%Z;
  ok_log : (0 ≤ logLevel_ c ≤ 4)%Z
}.

Lemma task_addDependency_ok d c : core_ok c → core_ok (addDependency d c).
Proof.
  intros [Hn Hs Hp Hl]. unfold addDependency, hasDependency. case_bool_decide as Hd; [done|].
  split; simpl; [|intros x|done|done].
  - apply NoDup_app. split_and!; [done|set_solver|apply NoDup_singleton].
  - rewrite lookup_insert_is_Some, elem_of_app, list_elem_of_singleton, Hs.
    destruct (decide (d = x)); naive_solver.
Qed.

Lemma task_removeDependency_ok d c : core_ok c → core_ok (removeDependency d c).
Proof.
  intros [Hn Hs Hp Hl]. unfold removeDependency, hasDependency.
  case_bool_decide as Hd; [|done]. split; simpl; [|intros x|done|done].
  - by apply NoDup_filter.
  - rewrite list_elem_of_filter, lookup_delete_is_Some, Hs. naive_solver.
Qed.

Lemma task_setDependencyStatus_ok d b c : core_ok c → core_ok (setDependencyStatus d b c).
Proof.
  intros [Hn Hs Hp Hl]. unfold setDependencyStatus, hasDependency.
  case_bool_decide as Hd; [|done]. split; simpl; [done|intros x|done|done].
  rewrite lookup_insert_is_Some, Hs. rewrite Hs in Hd.
  destruct (decide (d = x)); naive_solver.
Qed.

Lemma core_ok_stable : stable core_ok.
Proof.
  split; try (intros ? ? []; by split). intros c call Hc. destruct call; simpl;
    auto using task_addDependency_ok, task_removeDependency_ok, task_setDependencyStatus_ok;
    try (destruct Hc; by split).
  - unfold setPriority. destruct (priority <? 1)%Z eqn:?, (10 <? priority)%Z eqn:?; simpl;
      try done. destruct Hc; split; simpl; try done. lia.
  - unfold setLogLevel. destruct (level <? 0)%Z eqn:?, (4 <? level)%Z eqn:?; simpl;
      try done. destruct Hc; split; simpl; try done. lia.
  - unfold cancel. case_decide; simpl; [|done]. destruct Hc; by split.
Qed.

Lemma dependencies_satisfied_spec deps st :
  (∀ d, d ∈ deps → is_Some (st !! d)) →
  ∃ b, dependencies_satisfied deps st = Ok b
    ∧ (b = true ↔ ∀ d, d ∈ deps → st !! d = Some true).
Proof.
  induction deps as [|d deps IH]; intros Hst; simpl; [exists true; set_solver|].
  destruct (Hst d) as [b Hb]; [by left|]. rewrite Hb.
  destruct b; [|exists false; set_solver].
  destruct IH as (b & -> & Hbs); [set_solver|]. exists b. split; [done|].
  rewrite Hbs. set_solver.
Qed.

(** [C6] Whatever a program does with a task, executions, actions and exception
    callbacks included, its dependencies are distinct and each has a status, so
    [isDependencySatisfied] never throws and tells whether all of them are
    satisfied; the priority stays in 1..10 and the log level in 0..4. *)
Theorem Task_invariant (name uuid : string) (now : Z) (action : J → action_run)
    (ops : list task_op) :
  let c := core (fold_left run_task_op ops (Task_new name uuid now action)) in
  NoDup (dependencies_ c)
  ∧ (∃ b, isDependencySatisfied c = Ok b
      ∧ (b = true ↔ ∀ d, d ∈ dependencies_ c → dependencyStatus_ c !! d = Some true))
  ∧ (1 ≤ priority_ c ≤ 10)%Z ∧ (0 ≤ logLevel_ c ≤ 4)%Z.
Proof.
  intros c. assert (core_ok c) as [Hn Hs Hp Hl].
  { apply run_task_ops_stable; [apply core_ok_stable|by intros ?? []; split|]. split; simpl; [constructor| |lia|lia].
    intros d. rewrite lookup_empty, is_Some_alt. set_solver. }
  split_and!; try done; try lia. apply dependencies_satisfied_spec. intros d. apply Hs.
Qed.

(** ** The outcome of an execution *)

(** An exception callback that does not overwrite the failure. *)
Definition quiet (call : task_call) : bool :=
  match call with CallSetStatus _ | CallClearError => false | _ => true end.
Definition callback_quiet (c : TaskCore) : Prop :=
  ∀ cb what, exceptionCallback_ c = Some cb → forallb quiet (cb what) = true.

(** Whether calls made from status [st] cancel the task: [cancel] only acts
    on a task in progress. *)
Fixpoint cancels (st : TaskStatus) (calls : list task_call) : bool :=
  match calls with
  | [] => false
  | CallCancel :: rest => bool_decide (st = InProgress) || cancels st rest
  | CallSetStatus s :: rest => cancels s rest
  | _ :: rest => cancels st rest
  end.

Lemma setter_fields c call :
  exceptionCallback_ (run_call c call) = exceptionCallback_ c
  ∧ (call ≠ CallCancel → cancelled_ (run_call c call) = cancelled_ c
     ∧ status_ (run_call c call) = match call with CallSetStatus s => s | _ => status_ c end).
Proof.
  destruct call; simpl; try done;
    unfold setPriority, setLogLevel, addDependency, removeDependency, setDependencyStatus, cancel;
    repeat case_match; simpl; try done.
Qed.

Lemma cancelled_sticky c calls : cancelled_ c = true → cancelled_ (run_calls calls c) = true.
Proof.
  revert c. induction calls as [|call calls IH]; intros c Hc; simpl; [done|]. apply IH.
  destruct (setter_fields c call) as [_ H]. destruct call; try (by rewrite (proj1 (H ltac:(done)))).
  simpl. unfold cancel. by case_decide.
Qed.

Lemma cancelled_run_calls c calls :
  cancelled_ (run_calls calls c) = cancelled_ c || cancels (status_ c) calls.
Proof.
  revert c. induction calls as [|call calls IH]; intros c; [by rewrite orb_false_r|].
  change (run_calls (call :: calls) c) with (run_calls calls (run_call c call)).
  assert (call = CallCancel ∨ call ≠ CallCancel) as [->|Hne] by (destruct call; auto).
  - simpl. unfold cancel. case_decide as Hst; simpl.
    + rewrite bool_decide_eq_true_2 by done. simpl. rewrite orb_true_r.
      by apply cancelled_sticky.
    + rewrite bool_decide_eq_false_2 by done. simpl. apply IH.
  - destruct (setter_fields c call) as [_ H]. destruct (H Hne) as [Hc Hs].
    rewrite IH, Hc, Hs. by destruct call.
Qed.

Lemma callback_quiet_stable : stable callback_quiet.
Proof.
  split; try done. intros c call Hc cb what. rewrite (proj1 (setter_fields c call)). apply Hc.
Qed.

Lemma quiet_calls calls c :
  forallb quiet calls = true → status_ c = Failed → is_Some (error_ c) →
  status_ (run_calls calls c) = Failed ∧ is_Some (error_ (run_calls calls c)).
Proof.
  revert c. induction calls as [|call calls IH]; intros c; simpl; [done|].
  rewrite andb_true_iff. intros [Hq Hqs] Hs He.
  apply IH; [done|..]; destruct call; simpl in *; try done;
    unfold setPriority, setLogLevel, addDependency, removeDependency, setDependencyStatus, cancel;
    repeat case_match; simpl; congruence || done.
Qed.

(** The handler leaves a failed task with a message and an error type. *)
Lemma handle_exception_failed class what c :
  callback_quiet c →
  let c' := handle_exception class what c in
  status_ c' = Failed ∧ is_Some (error_ c') ∧ errorType_ c' ≠ ErrNone.
Proof.
  intros Hq. unfold handle_exception. cbv zeta.
  set (c1 := c <| status_ := Failed |> <| error_ := Some what |>).
  assert (status_ match exceptionCallback_ c1 with
                  | Some cb => run_calls (cb what) c1 | None => c1 end = Failed
    ∧ is_Some (error_ match exceptionCallback_ c1 with
                      | Some cb => run_calls (cb what) c1 | None => c1 end)) as [Hs He].
  { destruct (exceptionCallback_ c1) as [cb|] eqn:Hcb; [|by eauto].
    apply quiet_calls; [|done|by eexists]. by apply Hq. }
  set (c2 := match exceptionCallback_ c1 with Some _ => _ | None => _ end) in *.
  case_decide as Ht; simpl; split_and!; try done. by destruct class.
Qed.

(** What it takes for [execute] to complete the task. *)
Definition succeeds (t : Task) (params : J) : Prop :=
  let c := core t in
  let run := action_ t params in
  cancelled_ c = false
  ∧ arePreTasksCompleted (preTasks_ t) = true
  ∧ (∀ def, def ∈ paramDefinitions_ c → param_error params def = [])
  ∧ is_ok (j_dump params) = true
  ∧ run_body (timeout_ c) (ar_end run) = Returned
  ∧ cancels InProgress (ar_calls run) = false.

Lemma validateParams_true params c :
  (validateParams params c).1 = true ↔
  ∀ def, def ∈ paramDefinitions_ c → param_error params def = [].
Proof.
  unfold validateParams. simpl. induction (paramDefinitions_ c) as [|d ds IH]; simpl.
  { set_solver. }
  setoid_rewrite elem_of_cons. destruct (param_error params d) as [|e es] eqn:E; simpl.
  - rewrite IH. naive_solver.
  - split; [done|]. intros H. specialize (H d (or_introl eq_refl)). congruence.
Qed.

(** The clock only moves forward. *)
Lemma trigger_advances exec ts k :
  Forall (λ p, ∀ n, n ≤ (exec p n).2) ts → k ≤ (trigger_with exec ts k).2.
Proof.
  revert k. induction ts as [|p ts IH]; intros k Hall; simpl; [done|].
  apply Forall_cons in Hall as [Hp Hts].
  assert (k ≤ (if decide (getStatus p = Pending) then exec p k else (p, k)).2) as Hk
    by by case_decide.
  destruct (if decide _ then _ else _) as [p' k']. specialize (IH k' Hts).
  destruct (trigger_with _ ts k'). simpl in *. lia.
Qed.

(** Induction on the tree of post-tasks. *)
Fixpoint Task_post_ind (P : Task → Prop)
    (H : ∀ c a pre post, Forall P post → P (mkTask c a pre post)) (t : Task) : P t :=
  match t with
  | mkTask c a pre post =>
      H c a pre post
        ((fix go (ts : list Task) : Forall P ts :=
            match ts with
            | [] => @List.Forall_nil _ P
            | t :: ts => @List.Forall_cons _ P t ts (Task_post_ind P H t) (go ts)
            end) post)
  end.

Lemma execute_advances t params n : n ≤ (execute t params n).2.
Proof.
  revert params n. induction t as [co a pre post IH] using Task_post_ind. intros params n.
  rewrite execute_eq. cbn [postTasks_ core action_ preTasks_].
  destruct (attempt_run _ _ _ _) as [| |? []]; simpl; try lia.
  assert (S n ≤ (triggerPostTasks post (S n)).2) as H.
  { apply trigger_advances. eapply Forall_impl; [exact IH|]. eauto. }
  destruct (triggerPostTasks _ _). simpl in *. lia.
Qed.

(** The attempt completes the task exactly under [succeeds]; when it does not,
    the failure is recorded or left to the handler. *)
Lemma attempt_run_spec c action pre params :
  callback_quiet c →
  match attempt_run c action pre params with
  | AttemptDone c' true =>
      status_ c' = Completed ∧ succeeds (mkTask c action pre []) params
  | AttemptDone c' false | AttemptEarly c' =>
      status_ c' = Failed ∧ is_Some (error_ c') ∧ errorType_ c' ≠ ErrNone
      ∧ ¬ succeeds (mkTask c action pre []) params
  | AttemptThrows c' _ _ =>
      callback_quiet c' ∧ ¬ succeeds (mkTask c action pre []) params
  end.
Proof.
  intros Hq. pose proof (attempt_run_stable _ c action pre params callback_quiet_stable Hq) as Hq'.
  revert Hq'. unfold attempt_run, succeeds; cbn [core action_ preTasks_].
  destruct (cancelled_ c) eqn:Hc; [intros _; split_and!; [done|by eexists|done|naive_solver]|].
  destruct (arePreTasksCompleted pre); cbn [negb]; [|intros ?; split; [done|naive_solver]].
  pose proof (validateParams_true params c) as Hvt.
  destruct (validateParams params c) as [valid c1] eqn:Hv. cbn [fst] in Hvt.
  assert (timeout_ c1 = timeout_ c ∧ cancelled_ c1 = cancelled_ c) as [Ht Hc1]
    by by injection Hv as <- <-.
  destruct valid; cbn [negb fst];
    [|intros _; split_and!; [done|by eexists|done|naive_solver]].
  destruct (j_dump params); cbn [is_ok]; [|intros ?; split; [done|naive_solver]].
  rewrite Ht. destruct (run_body (timeout_ c) (ar_end (action params)));
    [|intros ?; split; [done|naive_solver]].
  rewrite cancelled_run_calls. change (cancelled_ (begin_run c1)) with (cancelled_ c1).
  rewrite Hc1, Hc. cbn [orb]. change (status_ (begin_run c1)) with InProgress.
  destruct (cancels _ _); intros _;
    [split_and!; [done|by eexists|done|naive_solver]|naive_solver].
Qed.

Lemma attempt_spec t params n :
  callback_quiet (core t) →
  match attempt_run (markStartTime n (core t)) (action_ t) (preTasks_ t) params with
  | AttemptDone c' true => status_ c' = Completed ∧ succeeds t params
  | AttemptDone c' false | AttemptEarly c' =>
      status_ c' = Failed ∧ is_Some (error_ c') ∧ errorType_ c' ≠ ErrNone
      ∧ ¬ succeeds t params
  | AttemptThrows c' _ _ => callback_quiet c' ∧ ¬ succeeds t params
  end.
Proof.
  intros Hq. destruct t as [c a pre post]. exact (attempt_run_spec (markStartTime n c) a pre params Hq).
Qed.

Lemma finish_fields n m c :
  status_ (finish n m c) = status_ c ∧ error_ (finish n m c) = error_ c
  ∧ errorType_ (finish n m c) = errorType_ c.
Proof. done. Qed.

(** [C4] An execution completes the task exactly when the task was not
    cancelled before, all pre-tasks are completed, every parameter is present
    when required and of its type, the body returns in time and the action does
    not cancel the task; otherwise the task ends up failed, with an error
    message and an error type.  (The exception callback must not reset the
    status or the error itself.) *)
Theorem execute_outcome (t : Task) (params : J) (n : nat) :
  callback_quiet (core t) →
  let t' := (execute t params n).1 in
  (getStatus t' = Completed ↔ succeeds t params)
  ∧ (getStatus t' ≠ Completed →
     getStatus t' = Failed ∧ is_Some (error_ (core t')) ∧ errorType_ (core t') ≠ ErrNone).
Proof.
  intros Hq t'. subst t'. rewrite execute_eq.
  pose proof (attempt_spec t params n Hq) as H. revert H. unfold getStatus.
  destruct (attempt_run _ _ _ _) as [c|c class what|c []]; cbn [fst core].
  - intros (Hs & He & Ht & Hn). unfold markEndTime. simpl. rewrite Hs. naive_solver.
  - intros [Hq' Hn]. destruct (handle_exception_failed class what c Hq') as (Hs & He & Ht).
    destruct (finish_fields n (S n) (handle_exception class what c)) as (-> & -> & ->).
    rewrite Hs. naive_solver.
  - intros [Hs Hok]. destruct (triggerPostTasks _ _) as [post m]. cbn [fst core].
    destruct (finish_fields n m c) as (-> & -> & ->). rewrite Hs. naive_solver.
  - intros (Hs & He & Ht & Hn).
    destruct (finish_fields n (S n) c) as (-> & -> & ->). rewrite Hs. naive_solver.
Qed.

(** Post-tasks run only after success: when the task completes, each
    post-task still pending is executed once, with null parameters, in order,
    and the others are left alone; when it does not, no post-task changes.
    Pre-tasks are never executed. *)
Theorem execute_post_tasks (t : Task) (params : J) (n : nat) :
  callback_quiet (core t) →
  let t' := (execute t params n).1 in
  preTasks_ t' = preTasks_ t
  ∧ (¬ succeeds t params → postTasks_ t' = postTasks_ t)
  ∧ (succeeds t params →
     Forall2 (λ p p', if decide (getStatus p = Pending)
                      then ∃ m, n < m ∧ p' = (execute p j_null m).1 else p' = p)
       (postTasks_ t) (postTasks_ t')).
Proof.
  intros Hq t'. subst t'. rewrite execute_eq.
  pose proof (attempt_spec t params n Hq) as H. revert H.
  destruct (attempt_run _ _ _ _) as [c|c class what|c []]; cbn [fst preTasks_ postTasks_];
    [naive_solver..| |naive_solver].
  intros [_ Hok].
  assert (∀ ts k, n < k → n < (triggerPostTasks ts k).2 ∧
    Forall2 (λ p p', if decide (getStatus p = Pending)
                     then ∃ m, n < m ∧ p' = (execute p j_null m).1 else p' = p)
      ts (triggerPostTasks ts k).1) as Htrig.
  { unfold triggerPostTasks. induction ts as [|p ts IH]; intros k Hk; simpl; [by split|].
    assert (n < (if decide (getStatus p = Pending) then execute p j_null k else (p, k)).2) as Hk2.
    { case_decide; [|done]. pose proof (execute_advances p j_null k). lia. }
    destruct (if decide _ then _ else _) as [p' k'] eqn:E. specialize (IH k' Hk2).
    destruct (trigger_with _ ts k') as [ts' k'']. simpl in *. split; [tauto|].
    constructor; [|tauto]. case_decide; [|by simplify_eq].
    exists k. by rewrite E. }
  specialize (Htrig (postTasks_ t) (S n) ltac:(lia)).
  destruct (triggerPostTasks _ _). cbn [fst snd preTasks_ postTasks_] in *. naive_solver.
Qed.

(** ** Cancellation *)

Lemma cancelled_stable : stable (λ c, cancelled_ c = true).
Proof. split; try done. intros c call Hc. apply (cancelled_sticky c [call] Hc). Qed.

(** [C5] Cancellation is final: no operation clears the flag, and every later
    execution of a cancelled task fails as cancelled without running the action
    or a post-task. *)
Theorem cancelled_task_never_runs (t : Task) (ops : list task_op) (params : J) (n : nat) :
  cancelled_ (core t) = true →
  let t1 := fold_left run_task_op ops t in
  let t2 := (execute t1 params n).1 in
  getStatus t2 = Failed ∧ errorType_ (core t2) = Cancelled
  ∧ taskHistory_ (core t2) = taskHistory_ (core t1) ∧ postTasks_ t2 = postTasks_ t1
  ∧ cancelled_ (core t2) = true.
Proof.
  intros Hc t1 t2. subst t2.
  assert (cancelled_ (core t1) = true) as Hc1
    by (apply (run_task_ops_stable _ ops t cancelled_stable); [by intros ??|done]).
  rewrite execute_eq. unfold attempt_run.
  change (cancelled_ (markStartTime n (core t1))) with (cancelled_ (core t1)).
  by rewrite Hc1.
Qed.

(** ** Parameter validation *)

(** The type names the code knows; any other name accepts every value. *)
Definition value_has_type (type : string) (v : J) : Prop :=
  (type = "string"%string → j_is_string v = true)
  ∧ (type = "number"%string → j_is_number v = true)
  ∧ (type = "boolean"%string → j_is_boolean v = true)
  ∧ (type = "array"%string → j_is_array v = true)
  ∧ (type = "object"%string → j_is_object v = true).

Lemma type_test (type s : string) (is_s rest : bool) :
  (if String.eqb type s && negb is_s then false else rest) = true
  ↔ (type = s → is_s = true) ∧ rest = true.
Proof. destruct (String.eqb_spec type s), is_s; simpl; naive_solver. Qed.

Lemma validateParamType_spec type v :
  validateParamType type v = true ↔ value_has_type type v.
Proof.
  unfold validateParamType, value_has_type. rewrite !type_test. tauto.
Qed.

(** [C7] Parameters are valid exactly when every required parameter is present
    and every parameter that is present has the declared type; validation only
    changes the list of errors, which is empty for valid parameters. *)
Theorem validateParams_correct (params : J) (c : TaskCore) :
  let r := validateParams params c in
  (r.1 = true ↔ ∀ def, def ∈ paramDefinitions_ c →
     match j_find params (pd_name def) with
     | None => pd_required def = false
     | Some v => value_has_type (pd_type def) v
     end)
  ∧ (r.1 = true ↔ paramErrors_ r.2 = [])
  ∧ r.2 = c <| paramErrors_ := paramErrors_ r.2 |>.
Proof.
  intros r. split_and!; [|by subst r; simpl; case_match|done].
  subst r. rewrite validateParams_true.
  assert (∀ def, param_error params def = [] ↔
     match j_find params (pd_name def) with
     | None => pd_required def = false
     | Some v => value_has_type (pd_type def) v
     end) as H; [|by setoid_rewrite H].
  intros def. unfold param_error. destruct (j_find _ _) as [v|].
  - rewrite <- validateParamType_spec. by destruct (validateParamType _ _).
  - by destruct (pd_required def).
Qed.
End execution.
End task.

(** ** Examples *)

(** A task that needs a numeric exposure time and appends to its history. *)
Definition demo_action (params : demo_json) : action_run (J := demo_json) :=
  mkActionRun [CallAddHistoryEntry "exposing"] Returned.
Definition demo_task : Task (J := demo_json) :=
  on_core (addParamDefinition (mkParamDefinition "exposure" "number" true DNull "" ))
    (Task_new "expose" "u1" 0 demo_action).
Definition demo_clock (n : nat) : Z := (Z.of_nat n * 1000000)%Z.
Definition demo_packaged (timeout : Z) (e : body_end) : packaged_end := PackagedWait true.

#[local] Existing Instance demo_ops.

Abbreviation demo_execute :=
  (execute demo_clock demo_clock demo_packaged "timed out"%string).

Example demo_missing_parameter :
  error_ (core (demo_execute demo_task (DObject []) 0).1)
  = Some "Parameter validation failed: Missing required parameter: exposure"%string.
Proof. vm_compute. reflexivity. Qed.

Lemma execute_outcome_witness :
  getStatus (demo_execute demo_task (DObject [("exposure"%string, DNumber 30)]) 0).1 = Completed.
Proof.
  apply (execute_outcome demo_clock demo_clock demo_packaged "timed out" demo_task
           (DObject [("exposure"%string, DNumber 30)]) 0).
  - intros cb what H. discriminate H.
  - split; [reflexivity|]. split; [reflexivity|]. split; [|repeat split].
    intros def Hdef. apply list_elem_of_singleton in Hdef. subst def. reflexivity.
Defined.

(** A task that cancels itself. *)
Definition demo_cancelled : Task (J := demo_json) :=
  (demo_execute (Task_new "stop" "u2" 0 (λ _, mkActionRun [CallCancel] Returned))
     (DObject []) 0).1.

Lemma demo_cancelled_flag : cancelled_ (core demo_cancelled) = true.
Proof. vm_compute. reflexivity. Qed.

Lemma cancelled_task_never_runs_witness :
  getStatus (demo_execute
    (fold_left (run_task_op demo_clock demo_clock demo_packaged "timed out")
       [OpCall CallClearError] demo_cancelled) (DObject []) 9).1 = Failed.
Proof.
  exact (proj1 (cancelled_task_never_runs demo_clock demo_clock demo_packaged "timed out"
                  demo_cancelled [OpCall CallClearError] (DObject []) 9 demo_cancelled_flag)).
Defined.

(** A task with one pending post-task. *)
Definition demo_pair : Task (J := demo_json) :=
  addPostTask (Some (Task_new "log" "u3" 0 demo_action)) (Task_new "main" "u4" 0 demo_action).

Lemma execute_post_tasks_witness :
  postTasks_ (demo_execute demo_pair (DObject []) 0).1 ≠ postTasks_ demo_pair.
Proof.
  intros Heq.
  assert (succeeds demo_packaged "timed out" demo_pair (DObject [])) as Hs.
  { split; [reflexivity|]. split; [reflexivity|]. split; [|repeat split].
    intros def Hdef. apply elem_of_nil in Hdef. destruct Hdef. }
  assert (callback_quiet (core demo_pair)) as Hq.
  { intros cb what H. discriminate H. }
  destruct (execute_post_tasks demo_clock demo_clock demo_packaged "timed out"
              demo_pair (DObject []) 0 Hq) as (_ & _ & H).
  apply H in Hs. rewrite Heq in Hs. simpl in Hs.
  apply Forall2_cons_1 in Hs as [[m [_ Hm]] _]. discriminate Hm.
Defined.
