(* ===== verification/Target.v ===== *)
(** * Target: a group of tasks with dependencies and exposure plans

    Models class Target of src/src/task/core/target.hpp and target.cpp, with the
    counters of ExposurePlan and TargetConfig of src/src/tools/astronomy.  A
    target owns its tasks through the virtual interface of Task: the class
    [TaskI] states what it uses of them, and class Task provides it at the end
    of the file.  Callbacks are observed as events.  Left out: the coordinates
    and times of floating-point type, JSON conversion, the global task queue
    and the locks (each public method is one atomic step). *)

From S2P Require Import Prelude Json Task.

(** ** The interface of a task

    [W] is the state of the environment a task runs in.  [ti_execute] returns
    the text of the std::exception it throws, if any. *)
Class TaskI (J T W : Type) := {
  ti_uuid : T → string;
  ti_status : T → TaskStatus;
  ti_execute : J → T → W → T * W * option string
}.
#[global] Hint Mode TaskI - ! - : typeclass_instances.

(** What a target relies on: executing a task keeps its UUID. *)
Class TaskLaws (J T W : Type) `{!TaskI J T W} := {
  ti_execute_uuid : ∀ (params : J) (t : T) (w : W),
    ti_uuid (ti_execute params t w).1.1 = ti_uuid t
}.

Inductive TargetStatus := TPending | TInProgress | TCompleted | TFailed | TSkipped.
#[export] Instance TargetStatus_eq_dec : EqDecision TargetStatus.
Proof. solve_decision. Defined.

(** ** Exposure plans *)

Record ExposurePlan := mkExposurePlan {
  filterName : string;
  count : Z;
  completedCount : Z;
  binning : Z;
  gain : Z;
  offset : Z;
  ditherEnabled : bool;
  ditherEvery : Z
}.

#[export] Instance ExposurePlan_eta : Eta ExposurePlan := λ p,
  mkExposurePlan (filterName p) (count p) (completedCount p) (binning p) (gain p) (offset p)
    (ditherEnabled p) (ditherEvery p).

Definition plan_remaining (p : ExposurePlan) : Z := Z.max 0 (count p - completedCount p).
Definition plan_isComplete (p : ExposurePlan) : bool := (count p <=? completedCount p)%Z.
Definition recordExposure (p : ExposurePlan) : bool * ExposurePlan :=
  if plan_isComplete p then (false, p)
  else (true, p <| completedCount ::= (λ n, n + 1)%Z |>).
Definition plan_reset (p : ExposurePlan) : ExposurePlan := p <| completedCount := 0%Z |>.
(** [%] truncates towards zero. *)
Definition shouldDither (p : ExposurePlan) (exposureNumber : Z) : bool :=
  if negb (ditherEnabled p) then false else
  if (ditherEvery p <=? 0)%Z then false else
  (Z.rem exposureNumber (ditherEvery p) =? 0)%Z.

(** The fields of TargetConfig the target's decisions depend on. *)
Record TargetConfig := mkTargetConfig {
  exposurePlans : list ExposurePlan;
  autoMeridianFlip : bool;
  priority : Z
}.
#[export] Instance TargetConfig_eta : Eta TargetConfig := λ c,
  mkTargetConfig (exposurePlans c) (autoMeridianFlip c) (priority c).

Definition config_isComplete (c : TargetConfig) : bool :=
  match exposurePlans c with [] => true | ps => forallb plan_isComplete ps end.
Definition totalExposureCount (c : TargetConfig) : Z :=
  fold_left (λ total p, total + count p)%Z (exposurePlans c) 0%Z.
Definition totalCompletedCount (c : TargetConfig) : Z :=
  fold_left (λ total p, total + completedCount p)%Z (exposurePlans c) 0%Z.
Definition resetExposurePlans (c : TargetConfig) : TargetConfig :=
  c <| exposurePlans ::= map plan_reset |>.

(** What the callbacks observe. *)
Inductive target_event :=
| EvStart (name : string)
| EvEnd (name : string) (status : TargetStatus)
| EvError (name : string) (what : string).

Section target.
Context {J T W : Type} `{!JsonOps J} `{!TaskI J T W}.

Record Target := mkTarget {
  name : string;
  uuid : string;
  tasks : list T;
  dependencies : list string;
  cooldown : Z;                                  (* seconds *)
  enabled : bool;
  status : TargetStatus;
  completedTasks : Z;
  totalTasks : Z;
  onStart : bool;                                (* whether a callback is set *)
  onEnd : bool;
  onError : bool;
  maxRetries : Z;
  taskParams : gmap string J;
  params : J;
  taskGroups : gmap string (list string);
  taskDependencies : gmap string (list string);
  astroConfig : TargetConfig;
  flipRequired : bool;                           (* of the meridian information *)
  flipCompleted : bool;
  currentExposurePlanIndex : nat;
  paused : bool;
  aborted : bool
}.

#[export] Instance Target_eta : Eta Target := λ t,
  mkTarget (name t) (uuid t) (tasks t) (dependencies t) (cooldown t) (enabled t) (status t)
    (completedTasks t) (totalTasks t) (onStart t) (onEnd t) (onError t) (maxRetries t)
    (taskParams t) (params t) (taskGroups t) (taskDependencies t) (astroConfig t)
    (flipRequired t) (flipCompleted t) (currentExposurePlanIndex t) (paused t) (aborted t).

(** The constructor, when the global task queue exists. *)
Definition Target_new (nm id : string) (cool retries : Z) : Target :=
  mkTarget nm id [] [] cool true TPending 0 0 false false false retries ∅ j_null ∅ ∅
    (mkTargetConfig [] true 5) false false 0 false false.

(** ** Setters *)

(** A null task is refused. *)
Definition addTask (task : option T) (t : Target) : result exn Target :=
  match task with
  | None => Throw InvalidArgument
  | Some x =>
      let ts := tasks t ++ [x] in
      Ok (t <| tasks := ts |> <| totalTasks := Z.of_nat (length ts) |>)
  end.

Definition setCooldown (c : Z) (t : Target) : Target := t <| cooldown := c |>.
Definition setEnabled (b : bool) (t : Target) : Target := t <| enabled := b |>.
Definition setMaxRetries (n : Z) (t : Target) : Target := t <| maxRetries := n |>.
Definition setTargetStatus (s : TargetStatus) (t : Target) : Target := t <| status := s |>.
Definition setTaskParams (id : string) (p : J) (t : Target) : Target :=
  t <| taskParams ::= (λ m, <[id := p]> m) |>.
Definition getTaskParams (t : Target) (id : string) : option J := taskParams t !! id.
Definition setParams (p : J) (t : Target) : Target := t <| params := p |>.

(** Completed tasks and total, the fraction [getProgress] shows as a percentage
    ([None] when there are no tasks: 100%). *)
Definition getProgress (t : Target) : option (Z * Z) :=
  if (totalTasks t =? 0)%Z then None else Some (completedTasks t, totalTasks t).

(** ** Groups and dependencies *)

Definition createTaskGroup (g : string) (t : Target) : Target :=
  match taskGroups t !! g with
  | None => t <| taskGroups ::= (λ m, <[g := []]> m) |>
  | Some _ => t
  end.

Definition addTaskToGroup (g id : string) (t : Target) : Target :=
  match taskGroups t !! g with
  | Some ids =>
      if decide (id ∈ ids) then t
      else t <| taskGroups ::= (λ m, <[g := ids ++ [id]]> m) |>
  | None => t
  end.

Definition removeTaskFromGroup (g id : string) (t : Target) : Target :=
  match taskGroups t !! g with
  | Some ids => t <| taskGroups ::= (λ m, <[g := filter (λ x, x ≠ id) ids]> m) |>
  | None => t
  end.

Definition getTaskGroup (t : Target) (g : string) : list string :=
  default [] (taskGroups t !! g).

Definition addTaskDependency (id dependsOn : string) (t : Target) : Target :=
  let deps := default [] (taskDependencies t !! id) in
  if decide (dependsOn ∈ deps)
  then t <| taskDependencies ::= (λ m, <[id := deps]> m) |>
  else t <| taskDependencies ::= (λ m, <[id := deps ++ [dependsOn]]> m) |>.

Definition removeTaskDependency (id dependsOn : string) (t : Target) : Target :=
  match taskDependencies t !! id with
  | Some deps => t <| taskDependencies ::= (λ m, <[id := filter (λ x, x ≠ dependsOn) deps]> m) |>
  | None => t
  end.

(** [std::find_if] by UUID: the first such task. *)
Definition find_task (id : string) (ts : list T) : option T :=
  List.find (λ x, String.eqb (ti_uuid x) id) ts.

(** The dependency check against a task list. *)
Definition deps_met (deps : gmap string (list string)) (ts : list T) (id : string) : bool :=
  match deps !! id with
  | Some ds =>
      forallb (λ d, match find_task d ts with
                    | None => false
                    | Some x => bool_decide (ti_status x = Completed)
                    end) ds
  | None => true
  end.

Definition checkDependencies (t : Target) (id : string) : bool :=
  deps_met (taskDependencies t) (tasks t) id.

(** ** Execution *)

(** [completedTasks_.fetch_add(1)]. *)
Definition count_completed (t : Target) : Target :=
  t <| completedTasks ::= (λ n, to_size (n + 1)) |>.

Definition notifyStart (t : Target) : list target_event :=
  if onStart t then [EvStart (name t)] else [].
Definition notifyEnd (t : Target) (s : TargetStatus) : list target_event :=
  if onEnd t then [EvEnd (name t) s] else [].
Definition notifyError (t : Target) (what : string) : list target_event :=
  if onError t then [EvError (name t) what] else [].

Section iteration.
Context `{!HashIter string}.

Definition in_group (t : Target) (id : string) : bool :=
  existsb (λ '(_, ids), bool_decide (id ∈ (ids : list string))) (iter_map (taskGroups t)).

(** The loop over the ungrouped tasks: [before] are the tasks already passed,
    [rest] those still to come.  The boolean is [hasFailure]. *)
Fixpoint run_ungrouped (t : Target) (before rest : list T) (w : W) (evs : list target_event)
    : Target * W * bool * list target_event :=
  match rest with
  | [] => (t <| tasks := before |>, w, false, evs)
  | x :: rest' =>
      if in_group t (ti_uuid x) || negb (deps_met (taskDependencies t) (before ++ rest) (ti_uuid x))
      then run_ungrouped t (before ++ [x]) rest' w evs
      else
        let '(x', w', thrown) := ti_execute (params t) x w in
        match thrown with
        | Some what =>
            (t <| tasks := before ++ x' :: rest' |>, w', true, evs ++ notifyError t what)
        | None =>
            let t := count_completed t in
            if decide (ti_status x' = Failed)
            then (t <| tasks := before ++ x' :: rest' |>, w', true, evs)
            else run_ungrouped t (before ++ [x']) rest' w' evs
        end
  end.

(** Execution of the first task with that UUID, in place. *)
Fixpoint execute_first (p : J) (id : string) (ts : list T) (w : W)
    : option (list T * W * option string) :=
  match ts with
  | [] => None
  | x :: rest =>
      if String.eqb (ti_uuid x) id then
        let '(x', w', thrown) := ti_execute p x w in Some (x' :: rest, w', thrown)
      else
        match execute_first p id rest w with
        | None => None
        | Some (rest', w', thrown) => Some (x :: rest', w', thrown)
        end
  end.

(** One round of the loop of [executeGroup]. *)
Definition execute_member (s : Target * W * list target_event) (id : string)
    : Target * W * list target_event :=
  let '(t, w, evs) := s in
  if negb (checkDependencies t id) then (t, w, evs) else
  match execute_first (params t) id (tasks t) w with
  | None => (t, w, evs)
  | Some (ts, w', None) => (count_completed (t <| tasks := ts |>), w', evs)
  | Some (ts, w', Some what) => (t <| tasks := ts |>, w', evs ++ notifyError t what)
  end.

Definition executeGroup (g : string) (s : Target * W * list target_event)
    : Target * W * list target_event :=
  match taskGroups s.1.1 !! g with
  | None => s
  | Some ids => fold_left execute_member ids s
  end.

Definition execute_groups (s : Target * W * list target_event)
    : Target * W * list target_event :=
  fold_left (λ s g, executeGroup g s) (iter_keys (taskGroups s.1.1)) s.

Definition execute (t : Target) (w : W) : Target * W * list target_event :=
  if negb (enabled t) then
    let t := setTargetStatus TSkipped t in (t, w, notifyEnd t TSkipped)
  else
    let t := setTargetStatus TInProgress t in
    let '(t, w, hasFailure, evs) := run_ungrouped t [] (tasks t) w (notifyStart t) in
    let '(t, w, evs) := if hasFailure then (t, w, evs) else execute_groups (t, w, evs) in
    let finalStatus := if hasFailure then TFailed else TCompleted in
    (setTargetStatus finalStatus t, w, evs ++ notifyEnd t finalStatus).
End iteration.

(** ** Exposure plans of the target *)

Definition set_plans (f : list ExposurePlan → list ExposurePlan) (t : Target) : Target :=
  t <| astroConfig ::= (λ c, c <| exposurePlans ::= f |>) |>.

Fixpoint replace_plan (plan : ExposurePlan) (ps : list ExposurePlan) : list ExposurePlan :=
  match ps with
  | [] => [plan]
  | p :: rest =>
      if String.eqb (filterName p) (filterName plan) then plan :: rest
      else p :: replace_plan plan rest
  end.

(** An existing plan for the filter is overwritten in place. *)
Definition addExposurePlan (plan : ExposurePlan) (t : Target) : Target :=
  set_plans (replace_plan plan) t.

Definition removeExposurePlan (f : string) (t : Target) : Target :=
  set_plans (filter (λ p, filterName p ≠ f)) t.

Definition getCurrentExposurePlan (t : Target) : option ExposurePlan :=
  exposurePlans (astroConfig t) !! currentExposurePlanIndex t.

Definition advanceExposurePlan (t : Target) : bool * Target :=
  let stay := match getCurrentExposurePlan t with
              | Some p => negb (plan_isComplete p)
              | None => false
              end in
  if stay then (false, t) else
  let t := t <| currentExposurePlanIndex ::= S |> in
  (bool_decide (currentExposurePlanIndex t < length (exposurePlans (astroConfig t))), t).

(** [completedCount++] without the check of [recordExposure]. *)
Definition recordCompletedExposure (t : Target) : Target :=
  match getCurrentExposurePlan t with
  | None => t
  | Some p =>
      set_plans <[currentExposurePlanIndex t := p <| completedCount ::= (λ n, n + 1)%Z |>]> t
  end.

Definition updateMeridianFlipInfo (required completed : bool) (t : Target) : Target :=
  t <| flipRequired := required |> <| flipCompleted := completed |>.
Definition needsMeridianFlip (t : Target) : bool :=
  if negb (autoMeridianFlip (astroConfig t)) then false
  else flipRequired t && negb (flipCompleted t).
Definition markMeridianFlipCompleted (t : Target) : Target := t <| flipCompleted := true |>.

Definition setAstroConfig (c : TargetConfig) (t : Target) : Target := t <| astroConfig := c |>.
Definition getTargetPriority (t : Target) : Z := priority (astroConfig t).
(** [std::clamp(p, 1, 10)]. *)
Definition setTargetPriority (p : Z) (t : Target) : Target :=
  t <| astroConfig ::= (λ c, c <| priority := if (p <? 1)%Z then 1%Z
                                              else if (10 <? p)%Z then 10%Z else p |>) |>.
Definition areExposurePlansComplete (t : Target) : bool := config_isComplete (astroConfig t).

Definition pause (t : Target) : Target := t <| paused := true |>.
Definition resume (t : Target) : Target := t <| paused := false |>.
Definition abort (t : Target) : Target := setTargetStatus TFailed (t <| aborted := true |>).

(** * Properties *)

Section properties.
Context `{!TaskLaws J T W} `{!HashIter string}.

(** Execution only touches the tasks and the counter of completed tasks. *)
Definition frame (t t' : Target) : Prop :=
  t' = t <| tasks := tasks t' |> <| completedTasks := completedTasks t' |>.

Lemma frame_refl t : frame t t.
Proof. by destruct t. Qed.

Lemma frame_trans t1 t2 t3 : frame t1 t2 → frame t2 t3 → frame t1 t3.
Proof. unfold frame. intros -> ->. done. Qed.

Lemma frame_fields t t' :
  frame t t' → taskGroups t' = taskGroups t ∧ taskDependencies t' = taskDependencies t
    ∧ params t' = params t ∧ totalTasks t' = totalTasks t ∧ name t' = name t
    ∧ astroConfig t' = astroConfig t ∧ status t' = status t ∧ onEnd t' = onEnd t.
Proof. unfold frame. intros ->. done. Qed.

Lemma frame_in_group t t' id : frame t t' → in_group t' id = in_group t id.
Proof. intros (H & _)%frame_fields. unfold in_group. by rewrite H. Qed.

Lemma in_group_spec t id :
  in_group t id = true ↔ ∃ g ids, taskGroups t !! g = Some ids ∧ id ∈ ids.
Proof.
  unfold in_group. rewrite existsb_exists. split.
  - intros ([g ids] & Hin%list_elem_of_In%elem_of_iter_map & H%bool_decide_eq_true). eauto.
  - intros (g & ids & Hg & Hid). exists (g, ids).
    by rewrite <- list_elem_of_In, elem_of_iter_map, bool_decide_eq_true.
Qed.

(** Task lists in which the tasks whose UUID satisfies [keep] are unchanged. *)
Definition kept (keep : string → Prop) (x x' : T) : Prop :=
  ti_uuid x' = ti_uuid x ∧ (keep (ti_uuid x) → x' = x).

#[export] Instance kept_preorder keep : PreOrder (kept keep).
Proof.
  split; [by intros x; split|].
  intros x y z [H1 H2] [H3 H4]. split; [congruence|].
  intros Hk. rewrite <- (H2 Hk). apply H4. by rewrite H1.
Qed.

Lemma kept_refl keep ts : Forall2 (kept keep) ts ts.
Proof. induction ts; by constructor. Qed.

Lemma kept_trans keep ts1 ts2 ts3 :
  Forall2 (kept keep) ts1 ts2 → Forall2 (kept keep) ts2 ts3 → Forall2 (kept keep) ts1 ts3.
Proof.
  intros H. revert ts3. induction H; intros ts3 H3; inversion H3; subst; constructor; [|eauto].
  by etrans.
Qed.

Lemma kept_execute keep p x w : ¬ keep (ti_uuid x) → kept keep x (ti_execute p x w).1.1.
Proof. intros Hk. split; [apply ti_execute_uuid|done]. Qed.

Lemma kept_uuids keep ts ts' id :
  Forall2 (kept keep) ts ts' →
  (∃ x, x ∈ ts ∧ ti_uuid x = id) ↔ (∃ x, x ∈ ts' ∧ ti_uuid x = id).
Proof.
  intros H. assert (ti_uuid <$> ts' = ti_uuid <$> ts) as Heq.
  { induction H as [|x x' l l' [Hu _] _ IH]; [done|by rewrite !fmap_cons, Hu, IH]. }
  assert (∀ l : list T, (∃ x, x ∈ l ∧ ti_uuid x = id) ↔ id ∈ (ti_uuid <$> l)) as Hl.
  { intros l. rewrite list_elem_of_fmap. naive_solver. }
  by rewrite !Hl, Heq.
Qed.

(** ** The loops *)

(** What happened to the tasks the first loop passed without failing. *)
Definition passed (t : Target) (x x' : T) : Prop :=
  x' = x ∨ in_group t (ti_uuid x) = false
           ∧ ∃ w w', ti_execute (params t) x w = (x', w', None) ∧ ti_status x' ≠ Failed.

(** The task it stopped at. *)
Definition failing (t : Target) (x x' : T) : Prop :=
  in_group t (ti_uuid x) = false
  ∧ ∃ w w' thrown, ti_execute (params t) x w = (x', w', thrown)
                   ∧ (is_Some thrown ∨ ti_status x' = Failed).

Lemma count_completed_frame t : frame t (count_completed t).
Proof. by destruct t. Qed.

Lemma run_ungrouped_spec t before rest w evs :
  let '(t', _, hasFailure, _) := run_ungrouped t before rest w evs in
  frame t t' ∧ ∃ rest', tasks t' = before ++ rest' ∧
  if hasFailure : bool
  then ∃ l l' x x' r, rest = l ++ x :: r ∧ rest' = l' ++ x' :: r
         ∧ Forall2 (passed t) l l' ∧ failing t x x'
  else Forall2 (passed t) rest rest'.
Proof.
  revert t before w evs. induction rest as [|x rest IH]; intros t before w evs;
    cbn [run_ungrouped].
  { split; [by destruct t|]. exists []. by rewrite app_nil_r. }
  destruct (in_group t (ti_uuid x)) eqn:Hg; cbn [orb].
  { specialize (IH t (before ++ [x]) w evs).
    destruct (run_ungrouped _ _ _ _ _) as [[[t' w'] []] evs'];
      destruct IH as (Hf & rest' & -> & H); (split; [done|]); exists (x :: rest');
      rewrite <- app_assoc; (split; [done|]).
    - destruct H as (l & l' & y & y' & r & -> & -> & ? & ?).
      exists (x :: l), (x :: l'), y, y', r. split_and!; try done. constructor; [by left|done].
    - constructor; [by left|done]. }
  destruct (deps_met _ _ _); cbn [negb]; last first.
  { specialize (IH t (before ++ [x]) w evs).
    destruct (run_ungrouped _ _ _ _ _) as [[[t' w'] []] evs'];
      destruct IH as (Hf & rest' & -> & H); (split; [done|]); exists (x :: rest');
      rewrite <- app_assoc; (split; [done|]).
    - destruct H as (l & l' & y & y' & r & -> & -> & ? & ?).
      exists (x :: l), (x :: l'), y, y', r. split_and!; try done. constructor; [by left|done].
    - constructor; [by left|done]. }
  destruct (ti_execute (params t) x w) as [[x' w'] [what|]] eqn:Hx.
  { split; [by destruct t|]. exists (x' :: rest). split; [done|].
    exists [], [], x, x', rest. split_and!; [done..|constructor|].
    split; [done|]. eexists _, _, _. split; [done|]. eauto. }
  cbv zeta. case_decide as Hs.
  { split; [by destruct t|]. exists (x' :: rest). split; [done|].
    exists [], [], x, x', rest. split_and!; [done..|constructor|].
    split; [done|]. eexists _, _, _. split; [done|]. eauto. }
  specialize (IH (count_completed t) (before ++ [x']) w' evs).
  assert (passed t x x') as Hp by (right; eauto 10).
  destruct (run_ungrouped _ _ _ _ _) as [[[t' w2] []] evs'];
    destruct IH as (Hf & rest' & -> & H);
    (split; [by eapply frame_trans; [apply count_completed_frame|]|]); exists (x' :: rest');
    rewrite <- app_assoc; (split; [done|]).
  - destruct H as (l & l' & y & y' & r & -> & -> & ? & ?).
    exists (x :: l), (x' :: l'), y, y', r. split_and!; try done. by constructor.
  - by constructor.
Qed.

(** A predicate no executed UUID satisfies survives the first loop. *)
Lemma run_ungrouped_kept keep t before rest w evs :
  (∀ ts' id, Forall2 (kept keep) (before ++ rest) ts' → keep id →
             deps_met (taskDependencies t) ts' id = false) →
  Forall2 (kept keep) (before ++ rest) (tasks (run_ungrouped t before rest w evs).1.1.1).
Proof.
  intros Hdeps. assert (∀ before', Forall2 (kept keep) before before' →
    Forall2 (kept keep) (before ++ rest) (tasks (run_ungrouped t before' rest w evs).1.1.1))
    as H; [|apply H, kept_refl].
  revert t before w evs Hdeps.
  induction rest as [|x rest IH]; intros t before w evs Hdeps before' Hb; cbn [run_ungrouped].
  { simpl. by rewrite app_nil_r. }
  assert (∀ x' t1 w1, taskDependencies t1 = taskDependencies t → kept keep x x' →
    Forall2 (kept keep) (before ++ x :: rest)
      (tasks (run_ungrouped t1 (before' ++ [x']) rest w1 evs).1.1.1)) as Hgo.
  { intros x' t1 w1 Ht Hx. change (x :: rest) with ([x] ++ rest). rewrite app_assoc.
    apply IH; [rewrite Ht, <- app_assoc; apply Hdeps|].
    apply Forall2_app; [done|by apply Forall2_cons]. }
  destruct (in_group t (ti_uuid x) || _) eqn:Hskip; [by apply Hgo|].
  apply orb_false_iff in Hskip as [_ Hmet%negb_false_iff].
  assert (¬ keep (ti_uuid x)) as Hk.
  { intros Hk. rewrite (Hdeps (before' ++ x :: rest)) in Hmet; [done| |done].
    apply Forall2_app; [done|apply kept_refl]. }
  pose proof (kept_execute keep (params t) x w Hk) as Hx.
  destruct (ti_execute (params t) x w) as [[x' w'] thrown]. simpl in Hx.
  assert (Forall2 (kept keep) (before ++ x :: rest) (before' ++ x' :: rest)) as Hstop.
  { apply Forall2_app; [done|]. constructor; [done|apply kept_refl]. }
  destruct thrown; [done|]. cbv zeta. case_decide; [done|]. by apply Hgo.
Qed.

Lemma execute_first_kept keep p id ts w ts' w' thrown :
  ¬ keep id → execute_first p id ts w = Some (ts', w', thrown) → Forall2 (kept keep) ts ts'.
Proof.
  intros Hk. revert ts'. induction ts as [|x ts IH]; intros ts' H; simpl in H; [done|].
  destruct (String.eqb_spec (ti_uuid x) id) as [<-|].
  - pose proof (kept_execute keep p x w Hk) as Hx.
    destruct (ti_execute p x w) as [[x' w1] th]. simplify_eq.
    constructor; [done|apply kept_refl].
  - destruct (execute_first p id ts w) as [[[rest w1] th]|]; [|done]. simplify_eq.
    constructor; [by split|by apply IH].
Qed.

(** Which UUIDs cannot run: their dependencies are never met, or they are in
    no group (and so are not run by the second loop). *)
Definition blocked (t : Target) (keep : string → Prop) (id : string) : Prop :=
  (∀ ts', Forall2 (kept keep) (tasks t) ts' → deps_met (taskDependencies t) ts' id = false)
  ∨ in_group t id = false.

(** The state [t] reached from [t0], tasks under [keep] unchanged. *)
Definition reached (keep : string → Prop) (t0 t : Target) : Prop :=
  frame t0 t ∧ Forall2 (kept keep) (tasks t0) (tasks t).

Lemma execute_member_reached keep t0 s id :
  (keep id → blocked t0 keep id) → in_group t0 id = true →
  reached keep t0 s.1.1 → reached keep t0 (execute_member s id).1.1.
Proof.
  destruct s as [[t w] evs]. simpl. intros Hb Hg [Hf Hk]. unfold checkDependencies.
  destruct (frame_fields _ _ Hf) as (_ & Hd & _). rewrite Hd.
  destruct (deps_met _ _ _) eqn:Hm; simpl; [|done].
  destruct (execute_first _ _ _ _) as [[[ts w'] th]|] eqn:E; [|done].
  apply (execute_first_kept keep) in E.
  - assert (Forall2 (kept keep) (tasks t0) ts) as Hts by by eapply kept_trans.
    destruct th; simpl; (split; [|done]); (eapply frame_trans; [exact Hf|]);
      by destruct t.
  - intros [Hno|Hno]%Hb; [by rewrite Hno in Hm|congruence].
Qed.

Lemma executeGroup_reached keep t0 s g :
  (∀ id, keep id → blocked t0 keep id) →
  reached keep t0 s.1.1 → reached keep t0 (executeGroup g s).1.1.
Proof.
  intros Hb Hs. unfold executeGroup.
  destruct (taskGroups s.1.1 !! g) as [ids|] eqn:Hg; [|done].
  assert (∀ id, id ∈ ids → in_group t0 id = true) as Hids.
  { intros id Hid. apply in_group_spec. exists g, ids. split; [|done].
    destruct Hs as [Hf _]. by rewrite <- (proj1 (frame_fields _ _ Hf)). }
  clear Hg. revert s Hs. induction ids as [|id ids IH]; intros s Hs; simpl; [done|].
  apply IH; [set_solver|]. apply execute_member_reached; [apply Hb|set_solver|done].
Qed.

Lemma execute_groups_reached keep t0 s :
  (∀ id, keep id → blocked t0 keep id) →
  reached keep t0 s.1.1 → reached keep t0 (execute_groups s).1.1.
Proof.
  intros Hb. unfold execute_groups. generalize (iter_keys (taskGroups s.1.1)). intros gs.
  revert s. induction gs as [|g gs IH]; intros s Hs; simpl; [done|].
  by apply IH, executeGroup_reached.
Qed.

(** The two phases of [execute] on an enabled target. *)
Lemma execute_enabled t w :
  enabled t = true →
  let t0 := setTargetStatus TInProgress t in
  let r := run_ungrouped t0 [] (tasks t) w (notifyStart t0) in
  let s := if r.1.2 then (r.1.1.1, r.1.1.2, r.2)
           else execute_groups (r.1.1.1, r.1.1.2, r.2) in
  (execute t w).1.1 = setTargetStatus (if r.1.2 then TFailed else TCompleted) s.1.1.
Proof.
  intros He t0 r s. unfold execute. rewrite He. cbn [negb]. cbv zeta. fold t0 r.
  change (tasks t0) with (tasks t). fold r. destruct r as [[[t1 w1] []] evs]; simpl in *; [done|].
  subst s. by destruct (execute_groups _) as [[t2 w2] evs2].
Qed.

(** [C8] A disabled target is skipped and nothing runs.  An enabled target ends
    failed exactly when a task outside every group was executed and failed or
    threw; the tasks behind it are then untouched.  Otherwise it ends completed
    and no ungrouped task failed: failures of grouped tasks never count. *)
Theorem Target_execute_verdict (t : Target) (w : W) :
  let t' := (execute t w).1.1 in
  (enabled t = false → t' = setTargetStatus TSkipped t ∧ (execute t w).1.2 = w)
  ∧ (enabled t = true →
     (status t' = TFailed ∧ ∃ l l' x x' r, tasks t = l ++ x :: r ∧ tasks t' = l' ++ x' :: r
        ∧ Forall2 (passed t) l l' ∧ failing t x x')
     ∨ (status t' = TCompleted
        ∧ Forall2 (λ x x', in_group t (ti_uuid x) = false → passed t x x')
            (tasks t) (tasks t'))).
Proof.
  intros t'. subst t'. split.
  { intros He. unfold execute. by rewrite He. }
  intros He. rewrite (execute_enabled t w He). cbv zeta.
  set (t0 := setTargetStatus TInProgress t).
  pose proof (run_ungrouped_spec t0 [] (tasks t) w (notifyStart t0)) as H.
  destruct (run_ungrouped _ _ _ _ _) as [[[t1 w1] []] evs]; simpl in *;
    destruct H as (Hf & ts1 & Ht1 & H); [left|right]; (split; [done|]).
  { destruct H as (l & l' & x & x' & r & -> & -> & Hl & Hx).
    exists l, l', x, x', r. by split_and!. }
  destruct (execute_groups_reached (λ id, in_group t0 id = false) t1 (t1, w1, evs))
    as [_ Hk]; [|split; [apply frame_refl|apply kept_refl]|].
  { intros id Hid. right. by rewrite (frame_in_group _ _ _ Hf). }
  simpl in Hk. rewrite Ht1 in Hk. revert H Hk. generalize (tasks t) ts1.
  generalize (tasks (execute_groups (t1, w1, evs)).1.1).
  intros ts3 ts ts2 H. revert ts3. induction H as [|x y ts ts2 Hxy _ IH]; intros ts3 Hk;
    inversion Hk as [|? z ? ? [Hu Hz] Hrest]; subst; constructor; [|by apply IH].
  intros Hg. change (in_group t0 (ti_uuid x) = false) in Hg.
  assert (ti_uuid y = ti_uuid x) as Hy.
  { destruct Hxy as [->|(_ & v & v' & E & _)]; [done|].
    pose proof (ti_execute_uuid (params t0) x v) as Hid. by rewrite E in Hid. }
  rewrite (Hz ltac:(by rewrite Hy)). exact Hxy.
Qed.

(** A task with a dependency that names no task of the target is never
    executed: its state is the same after the target ran. *)
Theorem Target_missing_dependency_blocks (t : Target) (w : W) (id d : string)
    (ds : list string) :
  taskDependencies t !! id = Some ds → d ∈ ds →
  (∀ x, x ∈ tasks t → ti_uuid x ≠ d) →
  Forall2 (λ x x', ti_uuid x = id → x' = x) (tasks t) (tasks (execute t w).1.1).
Proof.
  intros Hds Hd Hmiss.
  assert (∀ ts', Forall2 (kept (eq id)) (tasks t) ts' →
                 deps_met (taskDependencies t) ts' id = false) as Hno.
  { intros ts' Hk. unfold deps_met. rewrite Hds. apply not_true_iff_false.
    rewrite forallb_forall. intros Hall. specialize (Hall d (proj1 (list_elem_of_In _ _) Hd)).
    destruct (find_task d ts') as [x|] eqn:Hf; [|done]. unfold find_task in Hf.
    apply find_some in Hf as [Hx%list_elem_of_In ->%String.eqb_eq%eq_sym].
    destruct (proj2 (kept_uuids _ _ _ (ti_uuid x) Hk)) as (y & Hy & Heq); [by eauto|].
    by eapply Hmiss. }
  assert (Forall2 (kept (eq id)) (tasks t) (tasks (execute t w).1.1)) as Hk.
  { destruct (enabled t) eqn:He; [|unfold execute; rewrite He; apply kept_refl].
    rewrite (execute_enabled t w He). cbv zeta.
    set (t0 := setTargetStatus TInProgress t).
    pose proof (run_ungrouped_spec t0 [] (tasks t) w (notifyStart t0)) as H.
    pose proof (run_ungrouped_kept (eq id) t0 [] (tasks t) w (notifyStart t0)) as Hu.
    destruct (run_ungrouped _ _ _ _ _) as [[[t1 w1] hf] evs]. simpl in *.
    destruct H as [Hf _].
    assert (Forall2 (kept (eq id)) (tasks t) (tasks t1)) as Hk1
      by (apply Hu; intros ts' ? ? <-; by apply Hno).
    destruct hf; simpl; [done|].
    eapply (execute_groups_reached (eq id) t0 (t1, w1, evs)); [|by split].
    intros ? <-. left. exact Hno. }
  eapply Forall2_impl; [exact Hk|]. intros x x' [_ H] Hid. by apply H.
Qed.

(** ** What every operation keeps

    A caller of [getAstroConfigMutable] writes the configuration in place; a
    write is [OpSetAstroConfig] with the configuration it leaves. *)

Inductive target_op :=
| OpAddTask (task : option T)
| OpSetEnabled (b : bool)
| OpSetCooldown (c : Z)
| OpSetMaxRetries (n : Z)
| OpSetStatus (s : TargetStatus)
| OpSetParams (p : J)
| OpSetTaskParams (id : string) (p : J)
| OpCreateTaskGroup (g : string)
| OpAddTaskToGroup (g id : string)
| OpRemoveTaskFromGroup (g id : string)
| OpAddTaskDependency (id d : string)
| OpRemoveTaskDependency (id d : string)
| OpExecute (w : W)
| OpExecuteGroup (g : string) (w : W)
| OpAddExposurePlan (p : ExposurePlan)
| OpRemoveExposurePlan (f : string)
| OpAdvanceExposurePlan
| OpRecordCompletedExposure
| OpSetPriority (p : Z)
| OpSetAstroConfig (c : TargetConfig)
| OpUpdateMeridianFlip (required completed : bool)
| OpMarkMeridianFlipCompleted
| OpPause | OpResume | OpAbort.

Definition run_target_op (t : Target) (o : target_op) : Target :=
  match o with
  | OpAddTask x => match addTask x t with Ok t' => t' | Throw _ => t end
  | OpSetEnabled b => setEnabled b t
  | OpSetCooldown c => setCooldown c t
  | OpSetMaxRetries n => setMaxRetries n t
  | OpSetStatus s => setTargetStatus s t
  | OpSetParams p => setParams p t
  | OpSetTaskParams id p => setTaskParams id p t
  | OpCreateTaskGroup g => createTaskGroup g t
  | OpAddTaskToGroup g id => addTaskToGroup g id t
  | OpRemoveTaskFromGroup g id => removeTaskFromGroup g id t
  | OpAddTaskDependency id d => addTaskDependency id d t
  | OpRemoveTaskDependency id d => removeTaskDependency id d t
  | OpExecute w => (execute t w).1.1
  | OpExecuteGroup g w => (executeGroup g (t, w, [])).1.1
  | OpAddExposurePlan p => addExposurePlan p t
  | OpRemoveExposurePlan f => removeExposurePlan f t
  | OpAdvanceExposurePlan => (advanceExposurePlan t).2
  | OpRecordCompletedExposure => recordCompletedExposure t
  | OpSetPriority p => setTargetPriority p t
  | OpSetAstroConfig c => setAstroConfig c t
  | OpUpdateMeridianFlip r c => updateMeridianFlipInfo r c t
  | OpMarkMeridianFlipCompleted => markMeridianFlipCompleted t
  | OpPause => pause t
  | OpResume => resume t
  | OpAbort => abort t
  end.

(** All the lists of a map of lists are duplicate-free. *)
Definition nodup_lists (m : gmap string (list string)) : Prop :=
  ∀ k l, m !! k = Some l → NoDup l.

Lemma nodup_lists_insert m k l : nodup_lists m → NoDup l → nodup_lists (<[k := l]> m).
Proof. intros Hm Hl k' l'. rewrite lookup_insert_Some. intros [[<- <-]|[_ H]]; eauto. Qed.

Lemma NoDup_snoc (l : list string) x : NoDup l → x ∉ l → NoDup (l ++ [x]).
Proof. intros. apply NoDup_app. split_and!; [done|set_solver|apply NoDup_singleton]. Qed.

(** The priority is in range, or it came with a configuration among [cs]:
    [setAstroConfig] copies its argument without looking at it. *)
Definition priority_from (cs : list TargetConfig) (t : Target) : Prop :=
  (1 ≤ priority (astroConfig t) ≤ 10)%Z ∨ priority (astroConfig t) ∈ map priority cs.

(** The configurations given to [setAstroConfig]. *)
Definition given_config (o : target_op) : list TargetConfig :=
  match o with OpSetAstroConfig c => [c] | _ => [] end.

Record target_ok (cs : list TargetConfig) (t : Target) : Prop := {
  tok_groups : nodup_lists (taskGroups t);
  tok_deps : nodup_lists (taskDependencies t);
  tok_total : totalTasks t = Z.of_nat (length (tasks t));
  tok_priority : priority_from cs t
}.

Lemma reached_ok cs t t' : reached (λ _, False) t t' → target_ok cs t → target_ok cs t'.
Proof.
  intros [(Hg & Hd & _ & Ht & _ & Ha & _)%frame_fields Hk] [H1 H2 H3 H4].
  split; unfold priority_from; rewrite ?Hg, ?Hd, ?Ht, ?Ha; try done.
  by rewrite <- (Forall2_length _ _ _ Hk).
Qed.

Lemma execute_reached t w :
  enabled t = true → reached (λ _, False) t (setTargetStatus (status t) (execute t w).1.1).
Proof.
  intros He. rewrite (execute_enabled t w He). cbv zeta.
  set (t0 := setTargetStatus TInProgress t).
  pose proof (run_ungrouped_spec t0 [] (tasks t) w (notifyStart t0)) as H.
  pose proof (run_ungrouped_kept (λ _, False) t0 [] (tasks t) w (notifyStart t0) ltac:(done)) as Hu.
  destruct (run_ungrouped _ _ _ _ _) as [[[t1 w1] hf] evs]. simpl in *. destruct H as [Hf _].
  assert (reached (λ _, False) t0 t1) as H1 by by split.
  assert (∀ t2 st, reached (λ _, False) t0 t2 →
    reached (λ _, False) t (setTargetStatus (status t) (setTargetStatus st t2))) as Hfin.
  { intros t2 st [Hf2 Hk2]. split; [|exact Hk2]. unfold frame in *. rewrite Hf2. by destruct t. }
  destruct hf; simpl; apply Hfin; [done|].
  by apply (execute_groups_reached (λ _, False) t0 (t1, w1, evs)).
Qed.

Lemma target_ok_more cs cs' t : target_ok cs t → target_ok (cs ++ cs') t.
Proof.
  intros [H1 H2 H3 [H|H]]; (split; [done..|]); [by left|right].
  rewrite map_app. set_solver.
Qed.

Lemma run_target_op_ok cs t o :
  target_ok cs t → target_ok (cs ++ given_config o) (run_target_op t o).
Proof.
  intros Hok%(target_ok_more _ (given_config o)).
  remember (cs ++ given_config o) as cs' eqn:Hcs.
  pose proof Hok as [H1 H2 H3 H4].
  destruct o; simpl; try done; try (split; done).
  - destruct task; simpl; [by split|done].
  - unfold createTaskGroup. case_match; [done|]. split; simpl; try done.
    apply nodup_lists_insert; [done|constructor].
  - unfold addTaskToGroup. case_match; [|done]. case_decide; [done|]. split; simpl; try done.
    apply nodup_lists_insert; [done|]. apply NoDup_snoc; [by eapply H1|done].
  - unfold removeTaskFromGroup. case_match; [|done]. split; simpl; try done.
    apply nodup_lists_insert; [done|]. apply NoDup_filter. by eapply H1.
  - assert (NoDup (default [] (taskDependencies t !! id))) as Hn.
    { destruct (_ !! _) eqn:E; simpl; [by eapply H2|constructor]. }
    unfold addTaskDependency. case_decide; split; simpl; try done;
      apply nodup_lists_insert; try done. by apply NoDup_snoc.
  - unfold removeTaskDependency. case_match; [|done]. split; simpl; try done.
    apply nodup_lists_insert; [done|]. apply NoDup_filter. by eapply H2.
  - destruct (enabled t) eqn:He; [|unfold execute; rewrite He; by split].
    destruct (reached_ok _ _ _ (execute_reached t w He) Hok). by split.
  - eapply reached_ok; [|done]. apply executeGroup_reached; [done|].
    split; [apply frame_refl|apply kept_refl].
  - unfold advanceExposurePlan. destruct (getCurrentExposurePlan t); simpl; [|by split].
    destruct (negb _); simpl; by split.
  - unfold recordCompletedExposure. destruct (getCurrentExposurePlan t); by split.
  - split; simpl; try done. left. simpl.
    destruct (p <? 1)%Z eqn:?, (10 <? p)%Z eqn:?; lia.
  - split; simpl; try done. right. rewrite Hcs, map_app. set_solver.
Qed.

Lemma run_target_ops_ok ops : ∀ cs t,
  target_ok cs t → target_ok (cs ++ flat_map given_config ops) (fold_left run_target_op ops t).
Proof.
  induction ops as [|o ops IH]; intros cs t Hok; simpl; [by rewrite app_nil_r|].
  rewrite app_assoc. by apply IH, run_target_op_ok.
Qed.

(** [C9] Whatever is done with a target, executions included, no group and no
    dependency list has a duplicate, [totalTasks] is the number of tasks, and
    the priority is in 1..10 unless it is the one of a configuration that was
    given to [setAstroConfig], which does not check it. *)
Theorem Target_invariant (nm id : string) (cool retries : Z) (ops : list target_op) :
  let t := fold_left run_target_op ops (Target_new nm id cool retries) in
  (∀ g, NoDup (getTaskGroup t g))
  ∧ (∀ x ds, taskDependencies t !! x = Some ds → NoDup ds)
  ∧ totalTasks t = Z.of_nat (length (tasks t))
  ∧ ((1 ≤ getTargetPriority t ≤ 10)%Z
     ∨ ∃ c, OpSetAstroConfig c ∈ ops ∧ getTargetPriority t = priority c).
Proof.
  intros t. destruct (run_target_ops_ok ops [] (Target_new nm id cool retries))
    as [H1 H2 H3 H4]; [split; simpl; try done; left; simpl; lia|].
  fold t in H1, H2, H3, H4. split; [|split; [exact H2|split; [exact H3|]]].
  - intros g. unfold getTaskGroup.
    destruct (taskGroups t !! g) eqn:E; simpl; [by eapply H1|constructor].
  - destruct H4 as [H4|H4]; [by left|right].
    apply list_elem_of_fmap in H4 as (c & Heq & Hc). exists c. split; [|exact Heq].
    apply list_elem_of_In, in_flat_map in Hc as (o & Ho & Hc).
    apply list_elem_of_In in Ho. destruct o; simpl in Hc; try done.
    destruct Hc as [->|[]]. done.
Qed.

(** ** Exposure plans *)

Inductive exposure_op := ExRecord | ExAdvance.

Definition run_exposure (t : Target) (o : exposure_op) : Target :=
  match o with
  | ExRecord => recordCompletedExposure t
  | ExAdvance => (advanceExposurePlan t).2
  end.

(** The plans before the current one are complete. *)
Definition plans_done (t : Target) : Prop :=
  ∀ i p, i < currentExposurePlanIndex t → exposurePlans (astroConfig t) !! i = Some p →
         plan_isComplete p = true.

Lemma recordCompletedExposure_done t : plans_done t → plans_done (recordCompletedExposure t).
Proof.
  unfold recordCompletedExposure. destruct (getCurrentExposurePlan t) as [p|]; [|done].
  intros Hd i q Hi. simpl in *. rewrite list_lookup_insert_ne by lia. by apply Hd.
Qed.

Lemma advanceExposurePlan_done t : plans_done t → plans_done (advanceExposurePlan t).2.
Proof.
  intros Hd. unfold advanceExposurePlan, getCurrentExposurePlan.
  destruct (exposurePlans (astroConfig t) !! currentExposurePlanIndex t) as [p|] eqn:Hp.
  - destruct (plan_isComplete p) eqn:Hc; simpl; [|done]. intros i q Hi Hq. simpl in *.
    destruct (decide (i = currentExposurePlanIndex t)) as [->|]; [by simplify_eq|].
    apply (Hd i q); [lia|done].
  - intros i q Hi Hq. simpl in *. apply lookup_ge_None in Hp.
    apply (Hd i q); [|done]. apply lookup_lt_Some in Hq. lia.
Qed.

Lemma run_exposure_length t o :
  length (exposurePlans (astroConfig (run_exposure t o))) = length (exposurePlans (astroConfig t)).
Proof.
  destruct o; simpl.
  - unfold recordCompletedExposure. destruct (getCurrentExposurePlan t); simpl; [|done].
    apply length_insert.
  - unfold advanceExposurePlan. destruct (getCurrentExposurePlan t); simpl; [|done].
    by destruct (negb _).
Qed.

(** Recording exposures and advancing never leaves a plan before it is
    complete, so once the index is past the last plan all plans are complete;
    [advanceExposurePlan] answers true exactly when it moved on to a plan. *)
Theorem exposure_plans_in_order (t : Target) (ops : list exposure_op) :
  currentExposurePlanIndex t = 0 →
  let t' := fold_left run_exposure ops t in
  plans_done t'
  ∧ (getCurrentExposurePlan t' = None → areExposurePlansComplete t' = true)
  ∧ ((advanceExposurePlan t').1 = true ↔
     is_Some (getCurrentExposurePlan (advanceExposurePlan t').2)
     ∧ currentExposurePlanIndex (advanceExposurePlan t').2 = S (currentExposurePlanIndex t')).
Proof.
  intros H0 t'. assert (plans_done t') as Hd.
  { subst t'. assert (∀ t, plans_done t → plans_done (fold_left run_exposure ops t)) as Hind.
    { induction ops as [|[] ops IH]; simpl;
        auto using recordCompletedExposure_done, advanceExposurePlan_done. }
    apply Hind. intros i p Hi. lia. }
  clearbody t'. split_and!; [done| |].
  - unfold getCurrentExposurePlan, areExposurePlansComplete, config_isComplete.
    intros Hn%lookup_ge_None. destruct (exposurePlans _) eqn:E; [done|]. rewrite <- E in *.
    apply forallb_forall. intros p (i & Hi)%list_elem_of_In%list_elem_of_lookup.
    apply (Hd i p); [|done]. apply lookup_lt_Some in Hi. lia.
  - assert (∀ u, (bool_decide (currentExposurePlanIndex u < length (exposurePlans (astroConfig u)))
                = true ↔ is_Some (getCurrentExposurePlan u))) as Hcur.
    { intros u. unfold getCurrentExposurePlan. by rewrite bool_decide_eq_true, lookup_lt_is_Some. }
    unfold advanceExposurePlan. cbv zeta.
    set (t2 := t' <| currentExposurePlanIndex ::= S |>).
    assert (bool_decide (currentExposurePlanIndex t2 < length (exposurePlans (astroConfig t2)))
              = true ↔ is_Some (getCurrentExposurePlan t2)
                       ∧ currentExposurePlanIndex t2 = S (currentExposurePlanIndex t')) as H2
      by (rewrite Hcur; split; [by split|by intros [? _]]).
    destruct (getCurrentExposurePlan t') as [p|]; [destruct (plan_isComplete p)|];
      cbn [negb fst snd]; [exact H2| |exact H2].
    split; [done|]. intros [_ ?]. lia.
Qed.
End properties.
End target.
Arguments Target : clear implicits.

(** ** Class Task provides the interface *)

Section task_instance.
Context {J : Type} `{!JsonOps J}.
Variables (system_now high_resolution_now : nat → Z)
          (run_packaged : Z → body_end → packaged_end) (timeout_what : string).

(** [Task::execute] catches every std::exception, so it never throws one. *)
Definition task_interface : TaskI J (Task.Task (J := J)) nat := {|
  ti_uuid := Task.getUUID;
  ti_status := Task.getStatus;
  ti_execute p t w :=
    let r := Task.execute system_now high_resolution_now run_packaged timeout_what t p w in
    (r.1, r.2, None)
|}.

Lemma uuid_stable u : stable (J := J) (λ c, uuid_ c = u).
Proof.
  split; try done. intros c call <-. destruct call; simpl; try done;
    unfold setPriority, setLogLevel, Task.addDependency, Task.removeDependency,
      setDependencyStatus, cancel; by repeat case_match.
Qed.

Lemma task_laws : @TaskLaws J _ nat task_interface.
Proof.
  split. intros p t w. simpl. unfold Task.getUUID.
  by apply (execute_stable _ _ _ _ (λ c, uuid_ c = uuid_ (core t))); [apply uuid_stable|].
Qed.
End task_instance.

(** ** Examples *)

#[local] Existing Instance demo_ops.
#[local] Existing Instance canonical_iter.

#[local] Instance demo_interface : TaskI demo_json (Task.Task (J := demo_json)) nat :=
  task_interface demo_clock demo_clock demo_packaged "timed out".
#[local] Instance demo_laws : TaskLaws demo_json (Task.Task (J := demo_json)) nat :=
  task_laws demo_clock demo_clock demo_packaged "timed out".

(** A target whose only task fails (its parameter is missing), ungrouped or as
    the member of a group. *)
Definition demo_target : Target demo_json (Task.Task (J := demo_json)) :=
  run_target_op (Target_new "M31" "t1" 0 0) (OpAddTask (Some demo_task)).
Definition demo_grouped : Target demo_json (Task.Task (J := demo_json)) :=
  addTaskToGroup "g" "u1" (createTaskGroup "g" demo_target).

(** The failure of a grouped task does not make the target fail. *)
Example grouped_failure_ignored :
  status (execute demo_target 0).1.1 = TFailed
  ∧ status (execute demo_grouped 0).1.1 = TCompleted
  ∧ ti_status <$> tasks (execute demo_grouped 0).1.1 = [Failed].
Proof. vm_compute. done. Qed.

(** The counter of completed tasks is never reset: two runs of one task show
    200% progress, and failures count as completed. *)
Example progress_beyond_total :
  getProgress (execute (execute demo_target 0).1.1 5).1.1 = Some (2, 1)%Z.
Proof. vm_compute. reflexivity. Qed.

(** An aborted target completes when it is executed. *)
Example abort_forgotten :
  status (execute (abort (Target_new "M31" "t1" 0 0 : Target demo_json (Task.Task (J := demo_json)))) 0).1.1
  = TCompleted.
Proof. vm_compute. reflexivity. Qed.

Lemma Target_execute_verdict_witness :
  status (execute demo_target 0).1.1 = TFailed ∨ status (execute demo_target 0).1.1 = TCompleted.
Proof.
  destruct (proj2 (Target_execute_verdict demo_target 0) eq_refl) as [[H _]|[H _]];
    [left|right]; exact H.
Defined.

Lemma Target_missing_dependency_blocks_witness :
  Forall2 (λ x x', ti_uuid x = "u1"%string → x' = x)
    (tasks (addTaskDependency "u1" "u9" demo_target))
    (tasks (execute (addTaskDependency "u1" "u9" demo_target) 0).1.1).
Proof.
  apply (Target_missing_dependency_blocks (addTaskDependency "u1" "u9" demo_target) 0
           "u1" "u9" ["u9"%string]).
  - reflexivity.
  - left.
  - intros x Hx. apply list_elem_of_singleton in Hx. subst x. discriminate.
Defined.

Lemma Target_invariant_witness :
  totalTasks (fold_left run_target_op [OpAddTask (Some demo_task); OpExecute 0]
                (Target_new "M31" "t1" 0 0))
  = Z.of_nat (length (tasks (fold_left run_target_op [OpAddTask (Some demo_task); OpExecute 0]
                (Target_new "M31" "t1" 0 0)))).
Proof.
  exact (proj1 (proj2 (proj2 (Target_invariant "M31" "t1" 0 0
           [OpAddTask (Some demo_task); OpExecute 0])))).
Defined.

(** [setPriority] clamps; [setAstroConfig] stores any priority. *)
Example priority_clamped_or_given :
  let t := Target_new (J := demo_json) (T := Task.Task (J := demo_json)) "M31" "t1" 0 0 in
  getTargetPriority (setTargetPriority 40 t) = 10%Z
  ∧ getTargetPriority (setAstroConfig ((astroConfig t) <| priority := 40%Z |>) t) = 40%Z.
Proof. split; reflexivity. Qed.

(** Two plans of one exposure each. *)
Definition demo_plans : Target demo_json (Task.Task (J := demo_json)) :=
  addExposurePlan (mkExposurePlan "R" 1 0 1 (-1) (-1) true 1)
    (addExposurePlan (mkExposurePlan "L" 1 0 1 (-1) (-1) true 1) (Target_new "M31" "t1" 0 0)).

Lemma exposure_plans_in_order_witness :
  areExposurePlansComplete
    (fold_left run_exposure [ExRecord; ExAdvance; ExRecord; ExAdvance] demo_plans) = true.
Proof.
  apply (exposure_plans_in_order demo_plans [ExRecord; ExAdvance; ExRecord; ExAdvance]);
    reflexivity.
Defined.

(** [recordCompletedExposure] goes past the planned count. *)
Example exposures_beyond_plan :
  completedCount <$> getCurrentExposurePlan (fold_left run_exposure [ExRecord; ExRecord] demo_plans)
  = Some 2%Z.
Proof. vm_compute. reflexivity. Qed.
