(* ===== verification/Sequencer.v ===== *)
(** * Sequencer: the execution of a sequence of targets

    Models class ExposureSequence of src/src/task/core/sequencer.hpp and
    sequencer.cpp: the target list, the state machine, the loop of the sequence
    thread, the target dependencies with their cycle search and ready flags, the
    reorderings and the recovery operations.  Targets come through the interface
    [TargetI], which class Target provides at the end of the file.  The sequence
    thread is part of the state: one round of its loop is one step, so calls of
    the public methods interleave with rounds; [stop], which waits for the thread, is two
    steps.  Left out: the database, JSON,
    macros, the unused execution strategies and the observability queries. *)

From S2P Require Import Prelude Json Task Target Digraph.
From stdpp Require Import relations.

(** ** The interface of a target *)

Class TargetI (J T W : Type) := {
  tg_name : T → string;
  tg_uuid : T → string;
  tg_status : T → TargetStatus;
  tg_setStatus : TargetStatus → T → T;
  tg_setParams : J → T → T;
  tg_params : T → J;
  tg_setTaskParams : string → J → T → T;
  tg_taskParams : T → string → option J;
  tg_dependencies : T → list string;
  tg_needsMeridianFlip : T → bool;
  tg_execute : T → W → T * W
}.
#[global] Hint Mode TargetI - ! - : typeclass_instances.

(** The setters and [execute] keep name and UUID, and an execution leaves the
    target completed, failed or skipped. *)
Class TargetLaws (J T W : Type) `{!TargetI J T W} := {
  tg_execute_ids : ∀ (t : T) (w : W),
    tg_name (tg_execute t w).1 = tg_name t ∧ tg_uuid (tg_execute t w).1 = tg_uuid t;
  tg_execute_final : ∀ (t : T) (w : W),
    tg_status (tg_execute t w).1 ≠ TPending ∧ tg_status (tg_execute t w).1 ≠ TInProgress;
  tg_setStatus_ids : ∀ st (t : T),
    tg_name (tg_setStatus st t) = tg_name t ∧ tg_uuid (tg_setStatus st t) = tg_uuid t;
  tg_setStatus_status : ∀ st (t : T), tg_status (tg_setStatus st t) = st;
  tg_setParams_ids : ∀ p (t : T),
    tg_name (tg_setParams p t) = tg_name t ∧ tg_uuid (tg_setParams p t) = tg_uuid t;
  tg_setTaskParams_ids : ∀ id p (t : T),
    tg_name (tg_setTaskParams id p t) = tg_name t
    ∧ tg_uuid (tg_setTaskParams id p t) = tg_uuid t
}.

Inductive SequenceState := Idle | Running | Paused | Stopping | Stopped.
Inductive SchedulingStrategy := FIFO | ByPriority | ByDependencies.
Inductive RecoveryStrategy := RStop | RSkip | RRetry | RAlternative.

#[export] Instance SequenceState_eq_dec : EqDecision SequenceState.
Proof. solve_decision. Defined.

(** What the callbacks observe. *)
Inductive seq_event :=
| EvSequenceStart
| EvSequenceEnd
| EvTargetStart (name : string)
| EvTargetEnd (name : string) (status : TargetStatus)
| EvTargetError (name : string) (what : string).

Section sequencer.
Context {J T W : Type} `{!TargetI J T W}.

Record Sequencer := mkSequencer {
  targets : list T;
  state : SequenceState;
  thread : bool;                                 (* the sequence thread is running *)
  joining : bool;                                (* a call of [stop] waits for it *)
  completedTargets : Z;
  totalTargets : Z;
  onSequenceStart : bool;                        (* whether a callback is set *)
  onSequenceEnd : bool;
  onTargetStart : bool;
  onTargetEnd : bool;
  onSeqError : bool;
  schedulingStrategy : SchedulingStrategy;
  recoveryStrategy : RecoveryStrategy;
  alternativeTargets : gmap string T;
  targetDependencies : gmap string (list string);
  targetReadyStatus : gmap string bool;
  maxConcurrentTargets : nat;
  globalTimeout : Z;
  failedTargets : Z;
  failedTargetNames : list string;
  totalExecutions : Z;
  successfulExecutions : Z;
  failedExecutions : Z;
  world : W;                                     (* the environment targets run in *)
  log : list seq_event                           (* what the callbacks have observed *)
}.

#[export] Instance Sequencer_eta : Eta Sequencer := λ s,
  mkSequencer (targets s) (state s) (thread s) (joining s) (completedTargets s) (totalTargets s)
    (onSequenceStart s) (onSequenceEnd s) (onTargetStart s) (onTargetEnd s) (onSeqError s)
    (schedulingStrategy s) (recoveryStrategy s) (alternativeTargets s) (targetDependencies s)
    (targetReadyStatus s) (maxConcurrentTargets s) (globalTimeout s) (failedTargets s)
    (failedTargetNames s) (totalExecutions s) (successfulExecutions s) (failedExecutions s)
    (world s) (log s).

Definition Sequencer_new (w : W) : Sequencer :=
  mkSequencer [] Idle false false 0 0 false false false false false FIFO RStop ∅ ∅ ∅ 1 0 0 [] 0 0 0 w [].

(** ** Notifications *)

Definition emit (callback : bool) (e : seq_event) (s : Sequencer) : Sequencer :=
  if callback then s <| log ::= (λ l, l ++ [e]) |> else s.

Definition notifySequenceStart (s : Sequencer) : Sequencer :=
  emit (onSequenceStart s) EvSequenceStart s.
Definition notifySequenceEnd (s : Sequencer) : Sequencer :=
  emit (onSequenceEnd s) EvSequenceEnd s.
Definition notifyTargetStart (n : string) (s : Sequencer) : Sequencer :=
  emit (onTargetStart s) (EvTargetStart n) s.
Definition notifyTargetEnd (n : string) (st : TargetStatus) (s : Sequencer) : Sequencer :=
  emit (onTargetEnd s) (EvTargetEnd n st) s.
Definition notifyTargetError (n what : string) (s : Sequencer) : Sequencer :=
  emit (onSeqError s) (EvTargetError n what) s.

(** ** Managing targets *)

Definition set_targets (ts : list T) (s : Sequencer) : Sequencer :=
  s <| targets := ts |> <| totalTargets := Z.of_nat (length ts) |>.

Definition addTarget (target : option T) (s : Sequencer) : result exn Sequencer :=
  match target with
  | None => Throw InvalidArgument
  | Some t =>
      if existsb (λ x, String.eqb (tg_uuid x) (tg_uuid t)) (targets s) then Throw RuntimeError
      else Ok (set_targets (targets s ++ [t]) s)
  end.

(** [erase] of the first target with that name. *)
Fixpoint erase_name (n : string) (ts : list T) : option (list T) :=
  match ts with
  | [] => None
  | t :: rest =>
      if String.eqb (tg_name t) n then Some rest
      else (λ l, t :: l) <$> erase_name n rest
  end.

Definition removeTarget (n : string) (s : Sequencer) : result exn Sequencer :=
  match erase_name n (targets s) with
  | None => Throw RuntimeError
  | Some ts => Ok (set_targets ts s)
  end.

(** Applies [f] to the first target with that name. *)
Fixpoint update_name (n : string) (f : T → T) (ts : list T) : option (list T) :=
  match ts with
  | [] => None
  | t :: rest =>
      if String.eqb (tg_name t) n then Some (f t :: rest)
      else (λ l, t :: l) <$> update_name n f rest
  end.

(** The modifier is a function that does not throw. *)
Definition modifyTarget (n : string) (modifier : T → T) (s : Sequencer) : result exn Sequencer :=
  match update_name n modifier (targets s) with
  | None => Throw RuntimeError
  | Some ts => Ok (s <| targets := ts |>)
  end.

Definition setTargetParams (n : string) (p : J) (s : Sequencer) : result exn Sequencer :=
  modifyTarget n (tg_setParams p) s.
Definition setTargetTaskParams (n id : string) (p : J) (s : Sequencer) : result exn Sequencer :=
  modifyTarget n (tg_setTaskParams id p) s.

Definition find_target (n : string) (ts : list T) : option T :=
  List.find (λ t, String.eqb (tg_name t) n) ts.

Definition getTargetNames (s : Sequencer) : list string := tg_name <$> targets s.
Definition getTargetStatus (s : Sequencer) (n : string) : TargetStatus :=
  match find_target n (targets s) with Some t => tg_status t | None => TSkipped end.
Definition getTargetParams (s : Sequencer) (n : string) : option J :=
  tg_params <$> find_target n (targets s).
Definition getTargetTaskParams (s : Sequencer) (n id : string) : option J :=
  match find_target n (targets s) with Some t => tg_taskParams t id | None => None end.
(** Completed and total, [None] standing for 100%. *)
Definition getSequenceProgress (s : Sequencer) : option (Z * Z) :=
  if (totalTargets s =? 0)%Z then None else Some (completedTargets s, totalTargets s).
Definition checkMeridianFlips (s : Sequencer) : string :=
  match List.find (λ t, bool_decide (tg_status t = TInProgress) && tg_needsMeridianFlip t)
          (targets s) with
  | Some t => tg_name t
  | None => ""
  end.

(** ** The state machine *)

Definition executeAll (s : Sequencer) : result exn Sequencer :=
  if decide (state s = Idle) then
    let s := s <| state := Running |> <| completedTargets := 0%Z |> in
    Ok ((notifySequenceStart s) <| thread := true |>)
  else Throw RuntimeError.

Definition pause (s : Sequencer) : result exn Sequencer :=
  if decide (state s = Running) then Ok (s <| state := Paused |>) else Throw RuntimeError.
Definition resume (s : Sequencer) : result exn Sequencer :=
  if decide (state s = Paused) then Ok (s <| state := Running |>) else Throw RuntimeError.

(** ** Dependencies between targets *)

Definition sdeps (m : gmap string (list string)) (n : string) : list string :=
  default [] (m !! n).

(** The loop over the dependencies of a target in the cycle search. *)
Fixpoint cycle_loop
    (rec : string → gset string → gset string → option (bool * gset string * gset string))
    (deps : list string) (visited recursionStack : gset string)
    : option (bool * gset string * gset string) :=
  match deps with
  | [] => Some (false, visited, recursionStack)
  | dep :: rest =>
      if decide (dep ∉ visited) then
        match rec dep visited recursionStack with
        | Some (false, v, r) => cycle_loop rec rest v r
        | x => x
        end
      else if decide (dep ∈ recursionStack) then Some (true, visited, recursionStack)
      else cycle_loop rec rest visited recursionStack
  end.

(** The local function [hasCycle]; [None] is exhausted fuel. *)
Fixpoint cycle_visit (fuel : nat) (m : gmap string (list string)) (n : string)
    (visited recursionStack : gset string) : option (bool * gset string * gset string) :=
  match fuel with
  | 0 => None
  | S fuel' =>
      match cycle_loop (cycle_visit fuel' m) (sdeps m n) ({[n]} ∪ visited)
              ({[n]} ∪ recursionStack) with
      | Some (false, v, r) => Some (false, v, r ∖ {[n]})
      | x => x
      end
  end.

Fixpoint cycle_roots (fuel : nat) (m : gmap string (list string)) (names : list string)
    (visited recursionStack : gset string) : option (option string) :=
  match names with
  | [] => Some None
  | n :: rest =>
      if decide (n ∉ visited) then
        match cycle_visit fuel m n visited recursionStack with
        | None => None
        | Some (true, _, _) => Some (Some n)
        | Some (false, v, r) => cycle_roots fuel m rest v r
        end
      else cycle_roots fuel m rest visited recursionStack
  end.

(** Every name the search can meet. *)
Definition dep_names (m : gmap string (list string)) : gset string :=
  dom m ∪ list_to_set (concat (map_to_list m).*2).
Definition cycle_fuel (m : gmap string (list string)) : nat := S (size (dep_names m)).

Section iteration.
Context `{!HashIter string} {sorter : StdSort}.

(** The name the search started from when it closed a cycle. *)
Definition findCyclicDependency (m : gmap string (list string)) : option (option string) :=
  cycle_roots (cycle_fuel m) m (iter_keys m) ∅ ∅.

(** [targetReadyStatus_[n]]: reading a missing name creates it as false, which
    [isTargetReady] cannot tell from missing. *)
Definition ready (m : gmap string bool) (n : string) : bool := default false (m !! n).

Definition isTargetReady (s : Sequencer) (n : string) : bool := ready (targetReadyStatus s) n.

(** One pass over the dependencies; the boolean is [changed]. *)
Definition ready_step (acc : gmap string bool * bool) (entry : string * list string)
    : gmap string bool * bool :=
  let '(m, changed) := acc in
  let '(n, deps) := entry in
  if existsb (λ d, negb (ready m d)) deps && ready m n then (<[n := false]> m, true) else acc.

Definition ready_pass (deps : gmap string (list string)) (m : gmap string bool)
    : gmap string bool * bool :=
  fold_left ready_step (iter_map deps) (m, false).

Fixpoint ready_loop (fuel : nat) (deps : gmap string (list string)) (m : gmap string bool)
    : option (gmap string bool) :=
  match fuel with
  | 0 => None
  | S fuel' =>
      let '(m', changed) := ready_pass deps m in
      if changed : bool then ready_loop fuel' deps m' else Some m'
  end.

(** Each pass that changes something lowers a name. *)
Definition ready_names (m : gmap string bool) : gset string :=
  dom (filter (λ kv, kv.2 = true) m).

Definition mark_ready (ts : list T) (m : gmap string bool) : gmap string bool :=
  fold_left (λ m t, <[tg_name t := true]> m) ts m.

Definition updateTargetReadyStatus (s : Sequencer) : option Sequencer :=
  let m := mark_ready (targets s) (targetReadyStatus s) in
  match ready_loop (S (size (ready_names m))) (targetDependencies s) m with
  | None => None
  | Some m' => Some (s <| targetReadyStatus := m' |>)
  end.

(** The state after the call and whether it threw. *)
Definition addTargetDependency (n dependsOn : string) (s : Sequencer)
    : option (Sequencer * result exn unit) :=
  let deps := sdeps (targetDependencies s) n in
  let deps' := if decide (dependsOn ∈ deps) then deps else deps ++ [dependsOn] in
  let m := <[n := deps']> (targetDependencies s) in
  match findCyclicDependency m with
  | None => None
  | Some (Some _) =>
      Some (s <| targetDependencies := <[n := removelast deps']> m |>, Throw RuntimeError)
  | Some None =>
      match updateTargetReadyStatus (s <| targetDependencies := m |>) with
      | None => None
      | Some s' => Some (s', Ok tt)
      end
  end.

Definition removeTargetDependency (n dependsOn : string) (s : Sequencer) : option Sequencer :=
  updateTargetReadyStatus
    (s <| targetDependencies ::=
            (λ m, <[n := filter (λ d, d ≠ dependsOn) (sdeps m n)]> m) |>).

Definition getTargetDependencies (s : Sequencer) (n : string) : list string :=
  sdeps (targetDependencies s) n.

(** ** Reordering *)

(** The visit of a target.  [targets_] was moved away before the visits, so the
    search for its dependencies in it finds nothing and never recurses; a name
    already visited is not pushed again. *)
Definition reorder_visit (acc : gset string * list T) (t : T) : gset string * list T :=
  let '(visited, stack) := acc in
  if decide (tg_name t ∈ visited) then acc
  else ({[tg_name t]} ∪ visited, t :: stack).

(** The stack, top first, becomes the target list. *)
Definition reorderTargetsByDependencies (s : Sequencer) : Sequencer :=
  s <| targets ::= (λ ts, (fold_left reorder_visit ts (∅, [])).2) |>.

Definition dependency_count (s : Sequencer) (t : T) : nat :=
  length (sdeps (targetDependencies s) (tg_name t)).

Definition reorderTargetsByPriority (s : Sequencer) : Sequencer :=
  s <| targets ::= std_sort (λ a b, dependency_count s a <? dependency_count s b) |>.

Definition setSchedulingStrategy (strategy : SchedulingStrategy) (s : Sequencer) : Sequencer :=
  let s := s <| schedulingStrategy := strategy |> in
  match strategy with
  | ByDependencies => reorderTargetsByDependencies s
  | ByPriority => reorderTargetsByPriority s
  | FIFO => s
  end.
End iteration.

(** ** The sequence thread *)

Definition count_running (ts : list T) : nat :=
  length (filter (λ t, tg_status t = TInProgress) ts).

(** The position of the next target to execute, with the target. *)
Definition getNextExecutableTarget (s : Sequencer) : option (nat * T) :=
  if decide (state s = Stopping) then None else
  if (0 <? maxConcurrentTargets s) && (maxConcurrentTargets s <=? count_running (targets s))
  then None
  else list_find (λ t, tg_status t = TPending ∧ isTargetReady s (tg_name t) = true) (targets s).

(** The end of [executeSequence]. *)
Definition end_thread (s : Sequencer) : Sequencer :=
  (notifySequenceEnd (s <| state := Idle |>)) <| thread := false |>.

(** The bookkeeping after an execution. *)
Definition record_result (n : string) (st : TargetStatus) (s : Sequencer) : Sequencer :=
  match st with
  | TCompleted => s <| successfulExecutions ::= (λ k, k + 1)%Z |>
                    <| completedTargets ::= (λ k, k + 1)%Z |>
  | TFailed => s <| failedExecutions ::= (λ k, k + 1)%Z |>
                 <| failedTargets ::= (λ k, k + 1)%Z |>
                 <| failedTargetNames ::= (λ l, l ++ [n]) |>
  | _ => s
  end.

(** One round of the loop of [executeSequence]. *)
Definition sequence_round (s : Sequencer) : Sequencer :=
  match getNextExecutableTarget s with
  | None => end_thread s
  | Some (i, t) =>
      if decide (state s = Stopping) then end_thread s else
      let s := notifyTargetStart (tg_name t) (s <| totalExecutions ::= (λ k, k + 1)%Z |>) in
      let '(t', w') := tg_execute t (world s) in
      let s := s <| targets ::= <[i := t']> |> <| world := w' |> in
      let s := record_result (tg_name t') (tg_status t') s in
      notifyTargetEnd (tg_name t') (tg_status t') s
  end.

Definition thread_step (s : Sequencer) : Sequencer :=
  if thread s then sequence_round s else s.

(** [executeSequence]: rounds until the thread ends. *)
Fixpoint executeSequence (fuel : nat) (s : Sequencer) : option Sequencer :=
  if thread s then
    match fuel with
    | 0 => None
    | S fuel' => executeSequence fuel' (sequence_round s)
    end
  else Some s.

(** [stop] up to the join of the thread, and what it does once the thread has ended.
    In between the thread makes its last round, and other methods may be called. *)
Definition stop (s : Sequencer) : Sequencer :=
  if decide (state s = Idle ∨ state s = Stopped) then s else s <| state := Stopping |> <| joining := true |>.
Definition stop_joined (s : Sequencer) : Sequencer :=
  if joining s && negb (thread s) then notifySequenceEnd (s <| state := Idle |> <| joining := false |>) else s.

(** ** Recovery *)

Definition setRecoveryStrategy (strategy : RecoveryStrategy) (s : Sequencer) : Sequencer :=
  s <| recoveryStrategy := strategy |>.

Definition addAlternativeTarget (n : string) (alternative : option T) (s : Sequencer)
    : result exn Sequencer :=
  match alternative with
  | None => Throw InvalidArgument
  | Some t => Ok (s <| alternativeTargets ::= (λ m, <[n := t]> m) |>)
  end.

(** The target the error is about is the one at position [i]. *)
Definition handleTargetError (i : nat) (what : string) (s : Sequencer) : Sequencer :=
  match targets s !! i with
  | None => s
  | Some t =>
      let n := tg_name t in
      let s :=
        match recoveryStrategy s with
        | RStop => s <| state := Stopping |>
        | RSkip => notifyTargetEnd n TSkipped
                     (s <| targets ::= <[i := tg_setStatus TSkipped t]> |>)
        | RRetry => s
        | RAlternative =>
            match alternativeTargets s !! n with
            | Some alt =>
                let '(alt', w') := tg_execute alt (world s) in
                s <| alternativeTargets ::= (λ m, <[n := alt']> m) |> <| world := w' |>
            | None => s
            end
        end in
      notifyTargetError n what s
  end.

(** The loops of [retryFailedTargets] and [skipFailedTargets]. *)
Definition mark_failed (st : TargetStatus) (s : Sequencer) : Sequencer :=
  let names := failedTargetNames s in
  s <| failedTargetNames := [] |> <| failedTargets := 0%Z |>
    <| targets ::= (λ ts, fold_left (λ ts n, default ts (update_name n (tg_setStatus st) ts)) names ts) |>.

Definition retryFailedTargets (s : Sequencer) : Sequencer := mark_failed TPending s.
Definition skipFailedTargets (s : Sequencer) : Sequencer := mark_failed TSkipped s.

Definition setMaxConcurrentTargets (max : nat) (s : Sequencer) : Sequencer :=
  s <| maxConcurrentTargets := max |>.
Definition setGlobalTimeout (timeout : Z) (s : Sequencer) : Sequencer :=
  s <| globalTimeout := timeout |>.

(** * Properties *)

(** ** The cycle search *)

Section cycles.
Variable m : gmap string (list string).

(** [a] depends on [b]. *)
Definition sedge (a b : string) : Prop := b ∈ sdeps m a.

Abbreviation inv := (dfs_inv sedge).
Abbreviation cyclic := (∃ x, tc sedge x x).
Abbreviation all_names := (dep_names m).

Definition cycle_visit_spec
    (util : string → gset string → gset string → option (bool * gset string * gset string))
    : Prop :=
  ∀ n vis path fin b vis' rec',
    inv vis path fin → n ∉ vis → (∀ k l, path = k :: l → sedge k n) →
    util n vis (list_to_set path) = Some (b, vis', rec') →
    if b : bool then cyclic
    else rec' = list_to_set path ∧ ∃ fin', dfs_extends sedge path fin vis' fin' ∧ n ∈ fin'.

Lemma cycle_loop_spec util n path :
  cycle_visit_spec util →
  ∀ deps vis fin b vis' rec',
    inv vis (n :: path) fin → (∀ d, d ∈ deps → sedge n d) →
    cycle_loop util deps vis (list_to_set (n :: path)) = Some (b, vis', rec') →
    if b : bool then cyclic
    else rec' = list_to_set (n :: path)
         ∧ ∃ fin', dfs_extends sedge (n :: path) fin vis' fin' ∧ ∀ d, d ∈ deps → d ∈ fin'.
Proof.
  intros Hutil. red in Hutil.
  induction deps as [|d deps IH]; intros vis fin b vis' rec' Hinv Hdep Hrun.
  { simplify_eq/=. split; [done|]. exists fin. split; [by split|set_solver]. }
  assert (sedge n d) as Hd by (apply Hdep; left). cbn [cycle_loop] in Hrun.
  destruct (decide (d ∉ vis)) as [Hdv|Hdv].
  - destruct (util d vis _) as [[[b1 vis1] rec1]|] eqn:E; [|done].
    apply Hutil with (fin := fin) in E; [|done..|by intros ?? [= <- <-]].
    destruct b1; [by simplify_eq|]. destruct E as (-> & fin1 & [Hinv1 Hsub1] & Hd1).
    apply IH with (fin := fin1) in Hrun; [|done|set_solver].
    destruct b; [done|]. destruct Hrun as (-> & fin2 & [Hinv2 Hsub2] & Hall).
    split; [done|]. exists fin2. split; [split; auto|].
    intros x [->|Hx]%elem_of_cons; auto.
  - apply dec_stable in Hdv. destruct (decide (d ∈ _)) as [Hin|Hin].
    + simplify_eq. apply elem_of_list_to_set in Hin.
      by eapply path_back_edge; [apply (inv_path _ _ _ _ Hinv)|..].
    + rewrite elem_of_list_to_set in Hin.
      apply (inv_vis _ _ _ _ Hinv) in Hdv as [|Hdf]; [done|].
      apply IH with (fin := fin) in Hrun; [|done|set_solver].
      destruct b; [done|]. destruct Hrun as (-> & fin2 & [Hinv2 Hsub2] & Hall).
      split; [done|]. exists fin2. split; [by split|].
      intros x [->|Hx]%elem_of_cons; auto.
Qed.

Lemma cycle_visit_ok fuel : cycle_visit_spec (cycle_visit fuel m).
Proof.
  induction fuel as [|fuel IH]; intros n vis path fin b vis' rec' Hinv Hn Hpath Hrun; [done|].
  cbn [cycle_visit] in Hrun. pose proof (dfs_inv_enter _ _ _ _ _ Hinv Hn Hpath) as Hinv'.
  destruct (cycle_loop _ _ _ _) as [[[b1 vis1] rec1]|] eqn:E; [|done].
  apply (cycle_loop_spec _ n path IH) with (fin := fin) in E; [|done|done].
  destruct b1; [by simplify_eq|]. destruct E as (-> & fin1 & [Hinv1 Hsub1] & Hall).
  simplify_eq. split.
  { assert (n ∉ path) by (rewrite (inv_vis _ _ _ _ Hinv) in Hn; tauto). set_solver. }
  exists (n :: fin1). split; [|left]. split; [|by right; auto]. by apply dfs_inv_leave.
Qed.

Lemma cycle_roots_spec fuel names vis fin r :
  inv vis [] fin → cycle_roots fuel m names vis ∅ = Some r →
  match r with
  | Some _ => cyclic
  | None => ∃ fin', finished sedge fin' ∧ ∀ x, x ∈ names ∨ x ∈ fin → x ∈ fin'
  end.
Proof.
  revert vis fin. induction names as [|n names IH]; intros vis fin Hinv Hrun.
  { simplify_eq/=. exists fin. split; [apply (inv_fin _ _ _ _ Hinv)|set_solver]. }
  cbn [cycle_roots] in Hrun. destruct (decide (n ∉ vis)) as [Hv|Hv].
  - destruct (cycle_visit _ _ _ _ _) as [[[b1 vis1] rec1]|] eqn:E; [|done].
    apply (cycle_visit_ok fuel n vis [] fin) in E; [|done|done|done].
    destruct b1; [by simplify_eq|]. destruct E as (-> & fin1 & [Hinv1 Hsub1] & Hd1).
    eapply IH in Hrun; [|done]. destruct r; [done|].
    destruct Hrun as (fin' & ? & Hall). exists fin'. split; [done|].
    intros x [[->|Hx]%elem_of_cons|Hx]; auto.
  - apply dec_stable in Hv. eapply IH in Hrun; [|done]. destruct r; [done|].
    destruct Hrun as (fin' & ? & Hall). exists fin'. split; [done|].
    apply (inv_vis _ _ _ _ Hinv) in Hv as [|Hv]; [set_solver|].
    intros x [[->|Hx]%elem_of_cons|Hx]; auto.
Qed.

(** *** Fuel *)

Lemma sedge_target a b : sedge a b → b ∈ all_names.
Proof.
  unfold sedge, sdeps, dep_names. destruct (m !! a) as [l|] eqn:E; simpl; [|set_solver].
  intros Hb. apply elem_of_union_r, elem_of_list_to_set, list_elem_of_In, in_concat.
  exists l. split; [|by apply list_elem_of_In]. apply list_elem_of_In, list_elem_of_fmap.
  exists (a, l). split; [done|]. by apply elem_of_map_to_list.
Qed.

Definition cycle_visit_total (fuel : nat)
    (util : string → gset string → gset string → option (bool * gset string * gset string))
    : Prop :=
  ∀ n vis rec, n ∈ all_names → n ∉ vis → unvisited all_names vis < fuel →
    ∃ b vis' rec', util n vis rec = Some (b, vis', rec') ∧ vis ⊆ vis'.

Lemma cycle_loop_total fuel util :
  cycle_visit_total fuel util →
  ∀ deps vis rec, (∀ d, d ∈ deps → d ∈ all_names) → unvisited all_names vis < fuel →
    ∃ b vis' rec', cycle_loop util deps vis rec = Some (b, vis', rec') ∧ vis ⊆ vis'.
Proof.
  intros Hutil. induction deps as [|d deps IH]; intros vis rec Hin Hfuel; simpl; [by eauto 10|].
  case_decide as Hd.
  - destruct (Hutil d vis rec) as (b & vis1 & rec1 & -> & Hsub); [set_solver|done|done|].
    destruct b; [by eauto 10|].
    destruct (IH vis1 rec1) as (b & vis2 & rec2 & -> & Hsub2);
      [set_solver|pose proof (unvisited_mono all_names _ _ Hsub); lia|].
    eexists _, _, _. split; [done|set_solver].
  - case_decide; [by eauto 10|]. apply IH; [set_solver|done].
Qed.

Lemma cycle_visit_terminates fuel : cycle_visit_total fuel (cycle_visit fuel m).
Proof.
  induction fuel as [|fuel IH]; intros n vis rec Hn Hv Hfuel; [lia|]. cbn [cycle_visit].
  pose proof (unvisited_lt all_names vis n Hn Hv).
  destruct (cycle_loop_total fuel _ IH (sdeps m n) ({[n]} ∪ vis) ({[n]} ∪ rec))
    as (b & vis' & rec' & -> & Hsub); [by eauto using sedge_target|lia|].
  destruct b; eexists _, _, _; (split; [done|set_solver]).
Qed.

Lemma cycle_roots_total names vis rec :
  (∀ n, n ∈ names → n ∈ all_names) →
  ∃ r, cycle_roots (cycle_fuel m) m names vis rec = Some r.
Proof.
  revert vis rec. induction names as [|n names IH]; intros vis rec Hin; cbn [cycle_roots];
    [by eauto|].
  case_decide as Hv; [|apply IH; set_solver].
  destruct (cycle_visit_terminates (cycle_fuel m) n vis rec)
    as (b & vis' & rec' & -> & _); [set_solver|done| |].
  { unfold cycle_fuel. pose proof (unvisited_le_size all_names vis). lia. }
  destruct b; [by eauto|]. apply IH. set_solver.
Qed.

(** The search always returns, and finds a cycle exactly when there is one. *)
Lemma findCyclicDependency_spec `{!HashIter string} :
  ∃ r, findCyclicDependency m = Some r ∧ (is_Some r ↔ cyclic).
Proof.
  unfold findCyclicDependency.
  destruct (cycle_roots_total (iter_keys m) ∅ ∅) as [r Hr].
  { intros n Hn%elem_of_iter_keys. apply elem_of_union_l. by apply elem_of_dom. }
  exists r. split; [done|].
  apply cycle_roots_spec with (fin := []) in Hr; [|apply dfs_inv_start].
  destruct r as [n|]; [naive_solver|]. split; [by intros []|]. intros [x Hx].
  destruct Hr as (fin & Hfin & Hall).
  destruct (finished_all_acyclic sedge fin Hfin) with (x := x); [|done].
  intros a b Hab. apply Hall. left. apply elem_of_iter_keys.
  unfold sedge, sdeps in Hab. destruct (m !! a); [by eauto|set_solver].
Qed.
End cycles.

(** ** Ready flags *)

Section readiness.
Context `{!HashIter string}.
Variable deps : gmap string (list string).
Variable m0 : gmap string bool.

(** Marked, and everything it transitively depends on is marked. *)
Definition good (n : string) : Prop :=
  ready m0 n = true ∧ ∀ x, tc (sedge deps) n x → ready m0 x = true.

(** Between the marks and the good names. *)
Definition ready_inv (m : gmap string bool) : Prop :=
  (∀ n, ready m n = true → ready m0 n = true) ∧ (∀ n, good n → ready m n = true).

Lemma ready_insert_false m n x :
  ready (<[n := false]> m) x = true ↔ ready m x = true ∧ x ≠ n.
Proof.
  unfold ready. destruct (decide (n = x)) as [->|].
  - rewrite lookup_insert_eq. simpl. naive_solver.
  - rewrite lookup_insert_ne by done. naive_solver.
Qed.

Lemma elem_of_ready_names m n : n ∈ ready_names m ↔ ready m n = true.
Proof.
  unfold ready_names, ready. rewrite elem_of_dom. unfold is_Some.
  setoid_rewrite map_lookup_filter_Some. simpl. destruct (m !! n) as [[]|]; naive_solver.
Qed.

(** What one pass over a list of entries does. *)
Lemma ready_fold_spec l m c :
  (∀ n ds, (n, ds) ∈ l → sdeps deps n = ds) → ready_inv m →
  let r := fold_left ready_step l (m, c) in
  ready_inv r.1 ∧ (c = true → r.2 = true) ∧ ready_names r.1 ⊆ ready_names m
  ∧ (r.2 = false → r.1 = m ∧
     ∀ n ds, (n, ds) ∈ l → ready m n = true → ∀ d, d ∈ ds → ready m d = true)
  ∧ (r.2 = true → c = true ∨ ready_names r.1 ⊂ ready_names m).
Proof.
  revert m c. induction l as [|[n ds] l IH]; intros m c Hl Hinv; cbv zeta; cbn [fold_left].
  { simpl. split_and!; try done; [set_solver|auto]. }
  assert (∀ n ds, (n, ds) ∈ l → sdeps deps n = ds) as Hl' by (intros; apply Hl; by right).
  change (ready_step (m, c) (n, ds)) with
    (if existsb (λ d, negb (ready m d)) ds && ready m n then (<[n := false]> m, true) else (m, c)).
  destruct (existsb (λ d, negb (ready m d)) ds && ready m n) eqn:E.
  - apply andb_true_iff in E as [(d & Hd%list_elem_of_In & Hnr%negb_true_iff)%existsb_exists Hn].
    assert (ready_inv (<[n := false]> m)) as Hinv'.
    { destruct Hinv as [H1 H2]. split; intros x.
      - rewrite ready_insert_false. intros [? _]. by apply H1.
      - intros Hx. rewrite ready_insert_false. split; [by apply H2|]. intros ->.
        assert (good d) as Hgd; [|by rewrite (H2 d Hgd) in Hnr].
        assert (sedge deps n d) as Hnd by (unfold sedge; by rewrite (Hl n ds); [|left]).
        destruct Hx as [_ Hx]. split; [by apply Hx, tc_once|].
        intros y Hy. apply Hx. by eapply tc_l. }
    assert (ready_names (<[n := false]> m) ⊂ ready_names m) as Hsub.
    { split.
      - intros x. rewrite !elem_of_ready_names, ready_insert_false. tauto.
      - intros Hback. specialize (Hback n). rewrite !elem_of_ready_names, ready_insert_false in Hback.
        naive_solver. }
    destruct (IH (<[n := false]> m) true Hl' Hinv') as (I1 & I2 & I3 & I4 & I5).
    rewrite (I2 eq_refl) in *. split_and!; try done.
    + etrans; [exact I3|apply Hsub].
    + intros _. right. eapply strict_trans_r; [exact I3|exact Hsub].
  - destruct (IH m c Hl' Hinv) as (I1 & I2 & I3 & I4 & I5). split_and!; try done.
    intros Hf. destruct (I4 Hf) as [-> Hall]. split; [done|].
    intros x xs [[= -> ->]|Hx]%elem_of_cons Hrx d Hd; [|by eapply Hall].
    apply not_false_iff_true. intros Hd'. apply andb_false_iff in E as [E|E]; [|congruence].
    rewrite <- not_true_iff_false, existsb_exists in E. apply E. exists d.
    by rewrite <- list_elem_of_In, Hd'.
Qed.

Lemma ready_loop_spec fuel m :
  ready_inv m → size (ready_names m) < fuel →
  ∃ m', ready_loop fuel deps m = Some m' ∧ ∀ n, ready m' n = true ↔ good n.
Proof.
  revert m. induction fuel as [|fuel IH]; intros m Hinv Hfuel; [lia|]. cbn [ready_loop].
  unfold ready_pass. destruct (ready_fold_spec (iter_map deps) m false) as (I1 & _ & I3 & I4 & I5);
    [|done|].
  { intros n ds Hn%elem_of_iter_map. unfold sdeps. by rewrite Hn. }
  destruct (fold_left ready_step (iter_map deps) (m, false)) as [m' []]; simpl in *.
  - destruct (I5 eq_refl) as [|Hsub]; [done|]. apply IH; [done|].
    apply subset_size in Hsub. lia.
  - destruct (I4 eq_refl) as [-> Hall]. exists m. split; [done|]. destruct Hinv as [H1 H2].
    intros n. split; [|apply H2]. intros Hn.
    assert (∀ x y, tc (sedge deps) x y → ready m x = true → ready m y = true) as Hcl.
    { assert (∀ x y, sedge deps x y → ready m x = true → ready m y = true) as Hstep.
      { intros x y Hxy Hx. unfold sedge, sdeps in Hxy.
        destruct (deps !! x) as [ds|] eqn:E; simpl in Hxy; [|set_solver].
        eapply Hall; [|done|done]. by apply elem_of_iter_map. }
      induction 1; eauto. }
    split; [by apply H1|]. intros x Hx. apply H1. by eapply Hcl.
Qed.
End readiness.

Lemma ready_mark ts m n :
  ready (mark_ready ts m) n = true ↔ (∃ t, t ∈ ts ∧ tg_name t = n) ∨ ready m n = true.
Proof.
  unfold mark_ready. revert m. induction ts as [|t ts IH]; intros m; simpl; [set_solver|].
  rewrite IH. assert (ready (<[tg_name t := true]> m) n = true ↔ tg_name t = n ∨ ready m n = true)
    as ->; [|set_solver].
  unfold ready. destruct (decide (tg_name t = n)) as [->|].
  - rewrite lookup_insert_eq. simpl. naive_solver.
  - rewrite lookup_insert_ne by done. naive_solver.
Qed.

(** The updated flags: a name is ready when it and all it depends on are the
    names of current targets, or were ready before. *)
Lemma updateTargetReadyStatus_ok `{!HashIter string} s :
  let known n := (∃ t, t ∈ targets s ∧ tg_name t = n) ∨ isTargetReady s n = true in
  ∃ m, updateTargetReadyStatus s = Some (s <| targetReadyStatus := m |>)
    ∧ ∀ n, ready m n = true ↔ known n ∧ ∀ x, tc (sedge (targetDependencies s)) n x → known x.
Proof.
  intros known. unfold updateTargetReadyStatus.
  set (m0 := mark_ready (targets s) (targetReadyStatus s)).
  destruct (ready_loop_spec (targetDependencies s) m0 (S (size (ready_names m0))) m0)
    as (m & -> & Hm); [|lia|].
  { split; [done|]. by intros n []. }
  exists m. split; [done|]. intros n. rewrite Hm. unfold good, m0.
  setoid_rewrite ready_mark. done.
Qed.

(** ** Sequences of operations *)

Section operations.
Context `{!TargetLaws J T W} `{!HashIter string} {sorter : StdSort}.

Inductive seq_op :=
| OpAddTarget (target : option T)
| OpRemoveTarget (n : string)
| OpSetTargetParams (n : string) (p : J)
| OpSetTargetTaskParams (n id : string) (p : J)
| OpSetCallbacks (b1 b2 b3 b4 b5 : bool)
| OpExecuteAll
| OpThreadStep
| OpStop
| OpStopJoined
| OpPause
| OpResume
| OpAddTargetDependency (n d : string)
| OpRemoveTargetDependency (n d : string)
| OpSetSchedulingStrategy (strategy : SchedulingStrategy)
| OpSetRecoveryStrategy (strategy : RecoveryStrategy)
| OpAddAlternativeTarget (n : string) (alternative : option T)
| OpHandleTargetError (i : nat) (what : string)
| OpRetryFailedTargets
| OpSkipFailedTargets
| OpSetMaxConcurrentTargets (max : nat)
| OpSetGlobalTimeout (timeout : Z).

(** A method that throws leaves the sequence as it was. *)
Definition or_unchanged (s : Sequencer) (r : result exn Sequencer) : Sequencer :=
  match r with Ok s' => s' | Throw _ => s end.

(** While a call of [stop] joins the thread, [executeAll] would assign [sequenceThread_]
    and another [stop] join it too: a data race, undefined behaviour, so that neither
    is a step then. *)
Definition run_seq_op (s : Sequencer) (o : seq_op) : Sequencer :=
  match o with
  | OpAddTarget t => or_unchanged s (addTarget t s)
  | OpRemoveTarget n => or_unchanged s (removeTarget n s)
  | OpSetTargetParams n p => or_unchanged s (setTargetParams n p s)
  | OpSetTargetTaskParams n id p => or_unchanged s (setTargetTaskParams n id p s)
  | OpSetCallbacks b1 b2 b3 b4 b5 =>
      s <| onSequenceStart := b1 |> <| onSequenceEnd := b2 |> <| onTargetStart := b3 |>
        <| onTargetEnd := b4 |> <| onSeqError := b5 |>
  | OpExecuteAll => if joining s then s else or_unchanged s (executeAll s)
  | OpThreadStep => thread_step s
  | OpStop => if joining s then s else stop s
  | OpStopJoined => stop_joined s
  | OpPause => or_unchanged s (pause s)
  | OpResume => or_unchanged s (resume s)
  | OpAddTargetDependency n d =>
      match addTargetDependency n d s with Some (s', _) => s' | None => s end
  | OpRemoveTargetDependency n d => default s (removeTargetDependency n d s)
  | OpSetSchedulingStrategy st => setSchedulingStrategy st s
  | OpSetRecoveryStrategy st => setRecoveryStrategy st s
  | OpAddAlternativeTarget n t => or_unchanged s (addAlternativeTarget n t s)
  | OpHandleTargetError i what => handleTargetError i what s
  | OpRetryFailedTargets => retryFailedTargets s
  | OpSkipFailedTargets => skipFailedTargets s
  | OpSetMaxConcurrentTargets k => setMaxConcurrentTargets k s
  | OpSetGlobalTimeout k => setGlobalTimeout k s
  end.

(** ** The invariant *)

Definition uuids (ts : list T) : list string := tg_uuid <$> ts.

Record seq_ok (s : Sequencer) : Prop := {
  sok_acyclic : ∀ x, ¬ tc (sedge (targetDependencies s)) x x;
  sok_uuids : NoDup (uuids (targets s));
  sok_total : (Z.of_nat (length (targets s)) ≤ totalTargets s)%Z;
  sok_thread : thread s = true → state s = Running ∨ state s = Paused ∨ state s = Stopping;
  sok_idle : thread s = false → state s = Idle ∨ state s = Stopping
}.

(** What the invariant looks at. *)
Lemma seq_ok_ext s s' :
  seq_ok s → targetDependencies s' = targetDependencies s → uuids (targets s') = uuids (targets s) →
  totalTargets s' = totalTargets s → thread s' = thread s → state s' = state s → seq_ok s'.
Proof.
  intros [H1 H2 H3 H4 H5] E1 E2 E3 E4 E5. split; rewrite ?E1, ?E2, ?E3, ?E4, ?E5; try done.
  apply (f_equal length) in E2. unfold uuids in E2. rewrite !length_fmap in E2. by rewrite E2.
Qed.

Lemma emit_fields b e s :
  emit b e s = s <| log := log (emit b e s) |>.
Proof. unfold emit. by destruct b, s. Qed.

Lemma emit_ok b e s : seq_ok s → seq_ok (emit b e s).
Proof. intros Hs. eapply seq_ok_ext; [exact Hs|..]; by rewrite emit_fields. Qed.

Lemma uuids_insert ts i t t' :
  ts !! i = Some t → tg_uuid t' = tg_uuid t → uuids (<[i := t']> ts) = uuids ts.
Proof.
  intros Hi Hu. unfold uuids. rewrite list_fmap_insert. apply list_insert_id.
  by rewrite list_lookup_fmap, Hi, Hu.
Qed.

Lemma erase_name_sublist n ts ts' : erase_name n ts = Some ts' → ts' `sublist_of` ts.
Proof.
  revert ts'. induction ts as [|t ts IH]; intros ts'; simpl; [done|].
  destruct (String.eqb _ _); [intros [= <-]; by constructor|].
  destruct (erase_name n ts) as [l|]; [|done]. intros [= <-]. constructor. by apply IH.
Qed.

Lemma update_name_uuids n f ts ts' :
  (∀ t, tg_uuid (f t) = tg_uuid t) → update_name n f ts = Some ts' → uuids ts' = uuids ts.
Proof.
  intros Hf. revert ts'. induction ts as [|t ts IH]; intros ts'; simpl; [done|].
  destruct (String.eqb _ _); [intros [= <-]; unfold uuids; by rewrite !fmap_cons, Hf|].
  destruct (update_name n f ts) as [l|]; [|done]. intros [= <-].
  unfold uuids in *. rewrite !fmap_cons. f_equal. by apply IH.
Qed.

Lemma modifyTarget_ok n f s s' :
  (∀ t, tg_uuid (f t) = tg_uuid t) → seq_ok s → modifyTarget n f s = Ok s' → seq_ok s'.
Proof.
  intros Hf Hs. unfold modifyTarget. destruct (update_name _ _ _) as [ts|] eqn:E; [|done].
  intros [= <-]. eapply seq_ok_ext; [exact Hs|done| |done..]. simpl. by eapply update_name_uuids.
Qed.

Lemma mark_failed_ok st s : seq_ok s → seq_ok (mark_failed st s).
Proof.
  intros Hs. eapply seq_ok_ext; [exact Hs|done| |done..]. simpl.
  generalize (targets s). induction (failedTargetNames s) as [|n ns IH]; intros ts; simpl; [done|].
  rewrite IH. destruct (update_name n _ ts) as [ts'|] eqn:E; simpl; [|done].
  eapply update_name_uuids; [|exact E]. intros t. apply tg_setStatus_ids.
Qed.

(** Reordering by dependencies keeps a sub-multiset of the targets. *)
Lemma reorder_fold ts visited stack :
  (∀ t, t ∈ stack → tg_name t ∈ visited) → (∀ x, x ∈ visited → ∃ t, t ∈ stack ∧ tg_name t = x) →
  NoDup (tg_name <$> stack) →
  ∃ new, (fold_left reorder_visit ts (visited, stack)).2 = reverse new ++ stack
    ∧ new `sublist_of` ts ∧ NoDup (tg_name <$> (reverse new ++ stack))
    ∧ (∀ t, t ∈ ts → ∃ t', t' ∈ reverse new ++ stack ∧ tg_name t' = tg_name t).
Proof.
  revert visited stack. induction ts as [|t ts IH]; intros visited stack Hin Hback Hnd; simpl.
  { exists []. split_and!; [done|constructor|done|set_solver]. }
  case_decide as Hv.
  - destruct (IH visited stack Hin Hback Hnd) as (new & -> & Hsub & Hnd' & Hall).
    exists new. split_and!; [done|by constructor|done|].
    intros x [->|Hx]%elem_of_cons; [|by apply Hall].
    destruct (Hback _ Hv) as (t' & Ht' & Hn). exists t'. split; [|done]. set_solver.
  - destruct (IH ({[tg_name t]} ∪ visited) (t :: stack)) as (new & Heq & Hsub & Hnd' & Hall).
    + set_solver.
    + intros x [->%elem_of_singleton|Hx]%elem_of_union; [exists t; split; [left|done]|].
      destruct (Hback _ Hx) as (t' & ? & ?). exists t'. split; [by right|done].
    + rewrite fmap_cons. constructor; [|done]. intros Hx.
      apply list_elem_of_fmap in Hx as (t' & Hn & Ht'). apply Hv. rewrite Hn. by apply Hin.
    + assert (reverse (t :: new) ++ stack = reverse new ++ t :: stack) as Hrev
        by by rewrite reverse_cons, <- app_assoc.
      exists (t :: new). rewrite Hrev. split_and!; [done|by constructor|done|].
      intros x [->|Hx]%elem_of_cons; [|by apply Hall]. exists t. set_solver.
Qed.

Lemma reorder_dependencies_spec s :
  ∃ new, targets (reorderTargetsByDependencies s) = reverse new
    ∧ new `sublist_of` targets s ∧ NoDup (tg_name <$> reverse new)
    ∧ (∀ t, t ∈ targets s → ∃ t', t' ∈ reverse new ∧ tg_name t' = tg_name t).
Proof.
  destruct (reorder_fold (targets s) ∅ []) as (new & Heq & H); [set_solver..|constructor|].
  exists new. rewrite app_nil_r in *. simpl. by rewrite Heq.
Qed.

Lemma sublist_uuids ts ts' : ts' `sublist_of` ts → uuids ts' `sublist_of` uuids ts.
Proof. induction 1; unfold uuids in *; rewrite ?fmap_cons; by constructor. Qed.

Lemma seq_ok_targets s s' :
  seq_ok s → targetDependencies s' = targetDependencies s →
  NoDup (uuids (targets s')) → (Z.of_nat (length (targets s')) ≤ totalTargets s')%Z →
  thread s' = thread s → state s' = state s → seq_ok s'.
Proof.
  intros [H1 H2 H3 H4 H5] E1 E2 E3 E4 E5. split; rewrite ?E1, ?E4, ?E5; done.
Qed.

Lemma setSchedulingStrategy_ok st s : seq_ok s → seq_ok (setSchedulingStrategy st s).
Proof.
  intros Hs. pose proof Hs as [H1 H2 H3 H4 H5].
  destruct st; simpl; [by eapply seq_ok_ext|..].
  - eapply seq_ok_targets; [exact Hs|done|..|done|done]; simpl.
    + unfold uuids. by rewrite std_sort_perm.
    + by rewrite std_sort_perm.
  - set (s1 := s <| schedulingStrategy := ByDependencies |>).
    destruct (reorder_dependencies_spec s1) as (new & Heq & Hsub & _).
    eapply seq_ok_targets; [exact Hs|done|..|done|done]; rewrite Heq.
    + unfold uuids. rewrite reverse_Permutation.
      eapply sublist_NoDup; [exact H2|by apply sublist_uuids].
    + rewrite length_reverse. apply sublist_length in Hsub. simpl in *. lia.
Qed.

(** *** Steps of the thread *)

Lemma notifySequenceEnd_ok s : seq_ok s → seq_ok (notifySequenceEnd s).
Proof. apply emit_ok. Qed.

Lemma getNext_lookup s i t :
  getNextExecutableTarget s = Some (i, t) →
  state s ≠ Stopping ∧ targets s !! i = Some t ∧ tg_status t = TPending
  ∧ isTargetReady s (tg_name t) = true.
Proof.
  unfold getNextExecutableTarget. case_decide; [done|].
  destruct (_ && _); [done|]. intros (? & [? ?] & _)%list_find_Some. done.
Qed.

(** The bookkeeping of a round leaves the fields of the invariant alone. *)
Lemma record_result_ok n st s : seq_ok s → seq_ok (record_result n st s).
Proof. intros Hs. destruct st; simpl; try done; by eapply seq_ok_ext. Qed.

Lemma end_thread_ok s : seq_ok s → seq_ok (end_thread s).
Proof.
  intros [H1 H2 H3 H4 H5]. unfold end_thread, notifySequenceEnd. rewrite emit_fields.
  split; simpl; try done. by left.
Qed.

Lemma sequence_round_ok s : seq_ok s → seq_ok (sequence_round s).
Proof.
  intros Hs. unfold sequence_round.
  destruct (getNextExecutableTarget s) as [[i t]|] eqn:E; [|by apply end_thread_ok].
  case_decide; [by apply end_thread_ok|]. apply getNext_lookup in E as (_ & Hi & _).
  set (s1 := s <| totalExecutions ::= _ |>).
  assert (seq_ok s1) as Hs1 by by eapply seq_ok_ext.
  assert (targets (notifyTargetStart (tg_name t) s1) = targets s) as Ht
    by (unfold notifyTargetStart; by rewrite emit_fields).
  pose proof (emit_ok (onTargetStart s1) (EvTargetStart (tg_name t)) s1 Hs1) as Hs2.
  fold (notifyTargetStart (tg_name t) s1) in Hs2.
  set (s2 := notifyTargetStart (tg_name t) s1) in *. clearbody s2.
  pose proof (tg_execute_ids t (world s2)) as [_ Hu].
  destruct (tg_execute t (world s2)) as [t' w']. simpl in Hu.
  apply emit_ok, record_result_ok. eapply seq_ok_ext; [exact Hs2|done| |done..].
  simpl. apply uuids_insert with t; [by rewrite Ht|done].
Qed.

Lemma thread_step_ok s : seq_ok s → seq_ok (thread_step s).
Proof. intros Hs. unfold thread_step. destruct (thread s); [by apply sequence_round_ok|done]. Qed.

(** A round that sees [Stopping] is the last one. *)
Lemma stopping_round s : state s = Stopping → sequence_round s = end_thread s.
Proof. intros Hs. unfold sequence_round, getNextExecutableTarget. by rewrite decide_True. Qed.

Lemma emit_log b e s : log (emit b e s) = log s ++ (if b then [e] else []).
Proof. unfold emit. destruct b; simpl; [done|by rewrite app_nil_r]. Qed.

(** A notification changes no other field. *)
Lemma emit_proj {A} (f : Sequencer → A) b e s :
  f (s <| log ::= (λ l, l ++ [e]) |>) = f s → f (emit b e s) = f s.
Proof. intros Hf. by destruct b. Qed.

Lemma end_thread_fields s :
  let s' := end_thread s in
  state s' = Idle ∧ thread s' = false ∧ targets s' = targets s ∧ world s' = world s
  ∧ targetDependencies s' = targetDependencies s ∧ totalTargets s' = totalTargets s
  ∧ onSequenceEnd s' = onSequenceEnd s ∧ completedTargets s' = completedTargets s
  ∧ log s' = log s ++ if onSequenceEnd s then [EvSequenceEnd] else [].
Proof.
  intros s'. subst s'. unfold end_thread, notifySequenceEnd.
  change (onSequenceEnd (s <| state := Idle |>)) with (onSequenceEnd s).
  set (s1 := s <| state := Idle |>).
  set (s2 := emit (onSequenceEnd s) EvSequenceEnd s1).
  change (log (s2 <| thread := false |>)) with (log s2). unfold s2. rewrite emit_log.
  split_and!; try done; by (etrans; [apply emit_proj|]).
Qed.

(** The whole call, when nothing but the thread comes between. *)
Lemma stop_fields s :
  state s = Running ∨ state s = Paused ∨ state s = Stopping →
  let ev := if onSequenceEnd s then [EvSequenceEnd] else [] in
  let s' := stop_joined (thread_step (stop s)) in
  state s' = Idle ∧ thread s' = false ∧ targets s' = targets s
  ∧ world s' = world s ∧ targetDependencies s' = targetDependencies s
  ∧ totalTargets s' = totalTargets s
  ∧ log s' = log s ++ (if thread s then ev else []) ++ ev.
Proof.
  intros Hst ev. unfold stop.
  rewrite decide_False by (intros [E|E]; rewrite E in Hst; destruct Hst as [|[|]]; done).
  set (s1 := s <| state := Stopping |> <| joining := true |>).
  assert (thread_step s1 = if thread s then end_thread s1 else s1) as ->.
  { unfold thread_step. change (thread s1) with (thread s).
    destruct (thread s); [by apply stopping_round|done]. }
  assert (∀ x, onSequenceEnd x = onSequenceEnd s → targets x = targets s → world x = world s →
    targetDependencies x = targetDependencies s → totalTargets x = totalTargets s →
    thread x = false → joining x = true →
    let y := stop_joined x in
    state y = Idle ∧ thread y = false ∧ targets y = targets s ∧ world y = world s
    ∧ targetDependencies y = targetDependencies s ∧ totalTargets y = totalTargets s
    ∧ log y = log x ++ ev) as Hfin.
  { intros x E1 E2 E3 E4 E5 E6 E7 y. subst y. unfold stop_joined, notifySequenceEnd. rewrite E6, E7. cbn [andb negb].
    change (onSequenceEnd (x <| state := Idle |> <| joining := false |>)) with (onSequenceEnd x).
    set (x1 := x <| state := Idle |> <| joining := false |>). rewrite emit_log. rewrite E1 at 7.
    split_and!; try done; by (etrans; [apply emit_proj|]). }
  destruct (thread s) eqn:Ht.
  - destruct (end_thread_fields s1) as (_ & E1 & E2 & E3 & E4 & E5 & E6 & _ & E7).
    destruct (Hfin (end_thread s1)) as (? & ? & ? & ? & ? & ? & Hlog); try done.
    { unfold end_thread, notifySequenceEnd. by rewrite emit_fields. }
    rewrite Hlog, E7, <- app_assoc. by split_and!.
  - by destruct (Hfin s1) as (? & ? & ? & ? & ? & ? & Hlog).
Qed.

Lemma stop_ok s : seq_ok s → seq_ok (stop s).
Proof.
  intros [H1 H2 H3 H4 H5]. unfold stop. case_decide; [by split|]. split; simpl; try done; auto.
Qed.
Lemma stop_joined_ok s : seq_ok s → seq_ok (stop_joined s).
Proof.
  intros [H1 H2 H3 H4 H5]. unfold stop_joined. destruct (joining s && negb (thread s)) eqn:E; [|by split].
  apply andb_true_iff in E as [_ Ht%negb_true_iff]. apply emit_ok. split; simpl; try done; [by rewrite Ht|auto].
Qed.

(** *** Dependency operations *)

Lemma sedge_insert m n l a b :
  sedge (<[n := l]> m) a b ↔ if decide (a = n) then b ∈ l else sedge m a b.
Proof.
  unfold sedge, sdeps. case_decide as Ha.
  - subst. by rewrite lookup_insert_eq.
  - by rewrite lookup_insert_ne.
Qed.

(** Adding a dependency to a list that may have it already. *)
Lemma sedge_add m n d a b :
  let deps := sdeps m n in
  sedge (<[n := if decide (d ∈ deps) then deps else deps ++ [d]]> m) a b
  ↔ sedge m a b ∨ (a = n ∧ b = d).
Proof.
  intros deps. rewrite sedge_insert. case_decide as Ha; [subst a|].
  - subst deps. unfold sedge. case_decide as Hd.
    + split; [by left|intros [?|[_ ->]]; done].
    + rewrite elem_of_app, list_elem_of_singleton. naive_solver.
  - naive_solver.
Qed.

Lemma tc_impl (R R' : string → string → Prop) x y :
  (∀ a b, R a b → R' a b) → tc R x y → tc R' x y.
Proof. intros HR. induction 1; [apply tc_once|eapply tc_l]; eauto. Qed.

Lemma sedge_remove m n d a b :
  sedge (<[n := filter (λ x, x ≠ d) (sdeps m n)]> m) a b → sedge m a b.
Proof.
  rewrite sedge_insert. case_decide as Ha; [subst|done].
  rewrite list_elem_of_filter. by intros [_ ?].
Qed.

(** The whole call, on an acyclic graph. *)
Lemma addTargetDependency_result n d s :
  (∀ x, ¬ tc (sedge (targetDependencies s)) x x) →
  let R := sedge (targetDependencies s) in
  let R' a b := R a b ∨ (a = n ∧ b = d) in
  ∃ s' r, addTargetDependency n d s = Some (s', r)
    ∧ uuids (targets s') = uuids (targets s) ∧ totalTargets s' = totalTargets s
    ∧ thread s' = thread s ∧ state s' = state s
    ∧ match r with
      | Throw e => e = RuntimeError ∧ (∃ x, tc R' x x)
                   ∧ (∀ a b, sedge (targetDependencies s') a b ↔ R a b)
                   ∧ targetReadyStatus s' = targetReadyStatus s
      | Ok _ => (∀ x, ¬ tc R' x x) ∧ (∀ a b, sedge (targetDependencies s') a b ↔ R' a b)
                ∧ let known k := (∃ t, t ∈ targets s ∧ tg_name t = k) ∨ isTargetReady s k = true in
                  ∀ k, isTargetReady s' k = true ↔ known k ∧ ∀ x, tc R' k x → known x
      end.
Proof.
  intros Hac R R'. unfold addTargetDependency. cbv zeta.
  set (l := if decide _ then _ else _).
  set (m := <[n := l]> (targetDependencies s)).
  assert (∀ a b, sedge m a b ↔ R' a b) as Hm by (intros; apply sedge_add).
  assert (∀ x y, tc (sedge m) x y ↔ tc R' x y) as Htc.
  { intros x y. split; apply tc_impl; intros; by apply Hm. }
  destruct (findCyclicDependency_spec m) as (r & -> & Hr). destruct r as [c|].
  - assert (∃ x, tc R' x x) as Hcyc.
    { destruct (proj1 Hr (ex_intro _ c eq_refl)) as [x Hx]. exists x. by apply Htc. }
    eexists _, _. split; [done|]. split_and!; try done. intros a b. simpl.
    rewrite sedge_insert. case_decide as Ha; [subst a|unfold m; rewrite sedge_insert; by case_decide].
    assert (d ∉ sdeps (targetDependencies s) n) as Hd.
    { intros Hin. destruct Hcyc as [x Hx]. apply (Hac x). eapply tc_impl; [|exact Hx].
      intros ? ? [?|[-> ->]]; done. }
    unfold l. rewrite decide_False by done. by rewrite removelast_last.
  - destruct (updateTargetReadyStatus_ok (s <| targetDependencies := m |>)) as (mr & -> & Hmr).
    eexists _, _. split; [done|]. split_and!; try done.
    + intros x Hx%Htc. destruct (proj2 Hr) as [? ?]; [by exists x|done].
    + intros k. cbv zeta. unfold isTargetReady at 1. simpl. rewrite Hmr.
      split; intros [Hk Hx]; (split; [exact Hk|]); intros x Hxt; apply Hx; by apply Htc.
Qed.

Lemma run_seq_op_ok s o : seq_ok s → seq_ok (run_seq_op s o).
Proof.
  intros Hs. pose proof Hs as [H1 H2 H3 H4 H5].
  destruct o; simpl; try (by eapply seq_ok_ext).
  - destruct target as [t|]; simpl; [|done]. destruct (existsb _ _) eqn:E; simpl; [done|].
    eapply seq_ok_targets; [exact Hs|done|..|done|done]; simpl; [|done].
    unfold uuids. rewrite fmap_app. apply NoDup_app. split_and!; [done| |apply NoDup_singleton].
    intros u Hu Hu'%list_elem_of_singleton. subst u.
    apply list_elem_of_fmap in Hu as (x & Hx & Hin).
    rewrite <- not_true_iff_false, existsb_exists in E. apply E. exists x.
    rewrite String.eqb_eq. split; [by apply list_elem_of_In|done].
  - unfold removeTarget. destruct (erase_name n (targets s)) as [ts|] eqn:E; simpl; [|done].
    eapply seq_ok_targets; [exact Hs|done|..|done|done]; simpl; [|done].
    eapply sublist_NoDup; [exact H2|]. by eapply sublist_uuids, erase_name_sublist.
  - destruct (setTargetParams n p s) eqn:E; simpl; [|done].
    eapply modifyTarget_ok; [|exact Hs|exact E]. intros t. apply tg_setParams_ids.
  - destruct (setTargetTaskParams n id p s) eqn:E; simpl; [|done].
    eapply modifyTarget_ok; [|exact Hs|exact E]. intros t. apply tg_setTaskParams_ids.
  - destruct (joining s); [done|]. unfold executeAll. case_decide; simpl; [|done].
    unfold notifySequenceStart. rewrite emit_fields. split; simpl; try done. by left.
  - by apply thread_step_ok.
  - destruct (joining s); [done|by apply stop_ok].
  - by apply stop_joined_ok.
  - unfold pause. case_decide as Hst; simpl; [|done]. split; simpl; try done; [auto|].
    intros Ht. destruct (H5 Ht); congruence.
  - unfold resume. case_decide as Hst; simpl; [|done]. split; simpl; try done; [auto|].
    intros Ht. destruct (H5 Ht); congruence.
  - destruct (addTargetDependency_result n d s H1) as (s' & r & -> & E1 & E2 & E3 & E4 & Hr).
    assert (∀ x, ¬ tc (sedge (targetDependencies s')) x x) as Hac.
    { destruct r as [[]|e].
      - destruct Hr as (Hac & He & _). intros x Hx. apply (Hac x).
        eapply tc_impl; [|exact Hx]. intros; by apply He.
      - destruct Hr as (_ & _ & He & _). intros x Hx. apply (H1 x).
        eapply tc_impl; [|exact Hx]. intros; by apply He. }
    split; rewrite ?E2, ?E3, ?E4; try done; [by rewrite E1|].
    apply (f_equal length) in E1. unfold uuids in E1. rewrite !length_fmap in E1. by rewrite E1.
  - unfold removeTargetDependency.
    destruct (updateTargetReadyStatus_ok (s <| targetDependencies ::=
      (λ m, <[n := filter (λ x, x ≠ d) (sdeps m n)]> m) |>)) as (m & -> & _). simpl.
    split; simpl; try done. intros x Hx. apply (H1 x). eapply tc_impl; [|exact Hx].
    intros a b. apply sedge_remove.
  - by apply setSchedulingStrategy_ok.
  - destruct alternative; simpl; [by eapply seq_ok_ext|done].
  - unfold handleTargetError. destruct (targets s !! i) as [t|] eqn:Hi; [|done]. apply emit_ok.
    destruct (recoveryStrategy s).
    + split; simpl; try done; auto.
    + apply emit_ok. eapply seq_ok_ext; [exact Hs|done| |done..]. simpl.
      apply uuids_insert with t; [done|]. apply tg_setStatus_ids.
    + done.
    + destruct (alternativeTargets s !! tg_name t) as [alt|]; [|done].
      destruct (tg_execute alt (world s)). by eapply seq_ok_ext.
  - by apply mark_failed_ok.
  - by apply mark_failed_ok.
Qed.

Lemma reachable_seq_ok w ops : seq_ok (fold_left run_seq_op ops (Sequencer_new w)).
Proof.
  assert (∀ s, seq_ok s → seq_ok (fold_left run_seq_op ops s)) as H.
  { induction ops; simpl; auto using run_seq_op_ok. }
  apply H. split; simpl; try done; [|constructor|by left].
  intros x Hx. apply tc_has_edge in Hx as [z Hz]. unfold sedge, sdeps in Hz. simpl in Hz.
  rewrite lookup_empty in Hz. set_solver.
Qed.

(** *** A run of the thread *)

(** The fields after the bookkeeping of a round. *)
Lemma record_result_fields n st s :
  let s' := record_result n st s in
  targets s' = targets s ∧ world s' = world s ∧ thread s' = thread s ∧ state s' = state s
  ∧ targetReadyStatus s' = targetReadyStatus s ∧ maxConcurrentTargets s' = maxConcurrentTargets s
  ∧ completedTargets s' = (completedTargets s + if decide (st = TCompleted) then 1 else 0)%Z.
Proof. destruct st; simpl; by rewrite ?Z.add_0_r. Qed.

(** A round that executes the target at position [i]. *)
Lemma round_fields s i t :
  getNextExecutableTarget s = Some (i, t) →
  let s' := sequence_round s in
  let t' := (tg_execute t (world s)).1 in
  targets s' = <[i := t']> (targets s) ∧ world s' = (tg_execute t (world s)).2
  ∧ thread s' = thread s ∧ state s' = state s
  ∧ targetReadyStatus s' = targetReadyStatus s ∧ maxConcurrentTargets s' = maxConcurrentTargets s
  ∧ completedTargets s' =
      (completedTargets s + if decide (tg_status t' = TCompleted) then 1 else 0)%Z.
Proof.
  intros E s'. subst s'. unfold sequence_round. rewrite E.
  apply getNext_lookup in E as (Hst & _). rewrite decide_False by done.
  set (s1 := s <| totalExecutions ::= _ |>). set (s2 := notifyTargetStart (tg_name t) s1).
  assert (targets s2 = targets s ∧ world s2 = world s ∧ thread s2 = thread s ∧ state s2 = state s
    ∧ targetReadyStatus s2 = targetReadyStatus s
    ∧ maxConcurrentTargets s2 = maxConcurrentTargets s
    ∧ completedTargets s2 = completedTargets s) as (E1 & E2 & E3 & E4 & E5 & E6 & E7).
  { split_and!; by (etrans; [apply emit_proj|]). }
  clearbody s2. rewrite E2. destruct (tg_execute t (world s)) as [t' w']. simpl.
  set (s3 := s2 <| targets ::= _ |> <| world := w' |>).
  destruct (record_result_fields (tg_name t') (tg_status t') s3)
    as (F1 & F2 & F3 & F4 & F5 & F6 & F7).
  set (s4 := record_result _ _ s3) in *. clearbody s4.
  unfold notifyTargetEnd. rewrite <- E1, <- E3, <- E4, <- E5, <- E6, <- E7.
  split_and!; (etrans; [apply emit_proj; done|]; done).
Qed.

(** What running the thread to its end should do: every pending and ready
    target is executed once, in list order.  The number counts the targets
    that completed. *)
Fixpoint run_all (rdy : string → bool) (ts : list T) (w : W) : list T * W * Z :=
  match ts with
  | [] => ([], w, 0%Z)
  | t :: rest =>
      let run := bool_decide (tg_status t = TPending) && rdy (tg_name t) in
      let '(t', w) := if run then tg_execute t w else (t, w) in
      let '(rest', w, k) := run_all rdy rest w in
      (t' :: rest', w,
       if run && bool_decide (tg_status t' = TCompleted) then (k + 1)%Z else k)
  end.

Definition eligible (s : Sequencer) (t : T) : Prop :=
  tg_status t = TPending ∧ isTargetReady s (tg_name t) = true.

Lemma getNext_find s :
  state s ≠ Stopping → (∀ t, t ∈ targets s → tg_status t ≠ TInProgress) →
  getNextExecutableTarget s =
    list_find (λ t, tg_status t = TPending ∧ isTargetReady s (tg_name t) = true) (targets s).
Proof.
  intros Hst Hno. unfold getNextExecutableTarget. rewrite decide_False by done.
  assert (count_running (targets s) = 0) as ->.
  { unfold count_running. assert (filter (λ t, tg_status t = TInProgress) (targets s) = []) as ->;
      [|done].
    destruct (filter _ _) as [|t l] eqn:E; [done|]. exfalso.
    assert (t ∈ filter (λ t, tg_status t = TInProgress) (targets s)) as Ht by (rewrite E; left).
    apply list_elem_of_filter in Ht as [Hs Ht]. by eapply Hno. }
  by destruct (maxConcurrentTargets s).
Qed.

Lemma executeSequence_run rest : ∀ prefix s fuel,
  targets s = prefix ++ rest → (∀ t, t ∈ prefix → ¬ eligible s t) →
  thread s = true → state s = Running ∨ state s = Paused →
  (∀ t, t ∈ targets s → tg_status t ≠ TInProgress) → length rest < fuel →
  let r := run_all (isTargetReady s) rest (world s) in
  ∃ s', executeSequence fuel s = Some s' ∧ targets s' = prefix ++ r.1.1 ∧ world s' = r.1.2
    ∧ completedTargets s' = (completedTargets s + r.2)%Z ∧ state s' = Idle ∧ thread s' = false.
Proof.
  induction rest as [|t rest IH]; intros prefix s fuel Ht Hpre Hth Hst Hno Hfuel;
    (destruct fuel as [|fuel]; [simpl in Hfuel; lia|]).
  - assert (getNextExecutableTarget s = None) as Hnext.
    { rewrite getNext_find; [|destruct Hst; congruence|done]. apply list_find_None.
      rewrite Forall_forall, Ht, app_nil_r. exact Hpre. }
    destruct (end_thread_fields s) as (E1 & E2 & E3 & E4 & _ & _ & _ & E5 & _).
    assert (executeSequence (S fuel) s = Some (end_thread s)) as Hrun.
    { cbn [executeSequence]. rewrite Hth. unfold sequence_round. rewrite Hnext.
      destruct fuel; cbn [executeSequence]; by rewrite E2. }
    exists (end_thread s). rewrite E1, E2, E3, E4, E5, Ht. split_and!; try done. cbn. lia.
  - destruct (decide (eligible s t)) as [[Hp Hr]|Hel].
    + assert (getNextExecutableTarget s = Some (length prefix, t)) as Hnext.
      { rewrite getNext_find; [|destruct Hst; congruence|done]. apply list_find_Some.
        rewrite Ht. split_and!; [by apply list_lookup_middle|done..|].
        intros j y Hy Hj. apply Hpre. rewrite lookup_app_l in Hy by done.
        by eapply list_elem_of_lookup_2. }
      destruct (round_fields s _ _ Hnext) as (F1 & F2 & F3 & F4 & F5 & F6 & F7).
      destruct (tg_execute_final t (world s)) as [Hnp Hnip].
      destruct (tg_execute_ids t (world s)) as [Hname _].
      cbn [executeSequence run_all]. rewrite Hth, Hr, bool_decide_eq_true_2 by done.
      destruct (tg_execute t (world s)) as [t' w']. simpl in *.
      assert (isTargetReady (sequence_round s) = isTargetReady s) as Hrdy
        by (unfold isTargetReady; by rewrite F5).
      rewrite Ht, insert_app_r_alt, Nat.sub_diag in F1 by done. simpl in F1.
      destruct (IH (prefix ++ [t']) (sequence_round s) fuel) as (s' & -> & G1 & G2 & G3 & G4).
      * by rewrite F1, <- app_assoc.
      * unfold eligible. rewrite Hrdy. intros x [Hx| ->%list_elem_of_singleton]%elem_of_app;
          [by apply Hpre|naive_solver].
      * by rewrite F3.
      * by rewrite F4.
      * rewrite F1. intros x Hx. rewrite Ht in Hno.
        apply elem_of_app in Hx as [Hx|[->|Hx]%elem_of_cons]; [apply Hno; set_solver|done|].
        apply Hno. set_solver.
      * lia.
      * exists s'. rewrite Hrdy, F2 in *. destruct (run_all _ rest w') as [[ts2 w2] k].
        simpl in *. rewrite <- app_assoc in G1. split_and!; try done; [|apply G4..].
        rewrite G3, F7. case_decide; case_bool_decide; try done; lia.
    + destruct (IH (prefix ++ [t]) s (S fuel)) as (s' & -> & G1 & G2 & G3 & G4); try done.
      * by rewrite <- app_assoc.
      * intros x [Hx| ->%list_elem_of_singleton]%elem_of_app; [by apply Hpre|done].
      * simpl in Hfuel. lia.
      * exists s'. cbn [run_all].
        assert (bool_decide (tg_status t = TPending) && isTargetReady s (tg_name t) = false) as ->.
        { apply not_true_iff_false. rewrite andb_true_iff, bool_decide_eq_true. exact Hel. }
        destruct (run_all _ rest (world s)) as [[ts2 w2] k]. simpl in *.
        rewrite <- app_assoc in G1. split_and!; try done; apply G4.
Qed.
(** ** The theorems *)

(** [C11] Whatever sequence of operations, parts of [stop] and thread rounds ran, without
    [executeAll] or another [stop] while a [stop] waits for the thread, the target
    dependencies are acyclic, the targets have distinct UUIDs and are at most
    [totalTargets], and the thread runs only in the states running, paused and
    stopping, so that [executeAll] never starts a second thread. *)
Theorem Sequencer_invariant (w : W) (ops : list seq_op) :
  let s := fold_left run_seq_op ops (Sequencer_new w) in
  (∀ x, ¬ tc (sedge (targetDependencies s)) x x)
  ∧ NoDup (uuids (targets s))
  ∧ (Z.of_nat (length (targets s)) ≤ totalTargets s)%Z
  ∧ (thread s = true → state s = Running ∨ state s = Paused ∨ state s = Stopping)
  ∧ (thread s = false → state s = Idle ∨ state s = Stopping)
  ∧ (is_ok (executeAll s) = true → thread s = false).
Proof.
  intros s. destruct (reachable_seq_ok w ops) as [H1 H2 H3 H4 H5]. fold s in H1, H2, H3, H4, H5.
  split_and!; try done. unfold executeAll. case_decide as Hi; [|done]. intros _.
  destruct (thread s); [|done]. destruct (H4 eq_refl) as [|[|]]; congruence.
Qed.

(** Adding a target dependency to a sequence reached by any operations
    always returns.  It throws exactly when the new edge closes a cycle, and
    then leaves the dependencies and ready flags as they were; otherwise the
    edge is there, and a target is ready exactly when it and everything it
    transitively depends on is in the sequence or was ready before. *)
Theorem addTargetDependency_correct (w : W) (ops : list seq_op) (n d : string) :
  let s := fold_left run_seq_op ops (Sequencer_new w) in
  let R := sedge (targetDependencies s) in
  let R' a b := R a b ∨ (a = n ∧ b = d) in
  ∃ s' r, addTargetDependency n d s = Some (s', r)
    ∧ (r ≠ Ok tt ↔ ∃ x, tc R' x x)
    ∧ (r ≠ Ok tt → (∀ a b, sedge (targetDependencies s') a b ↔ R a b)
                   ∧ targetReadyStatus s' = targetReadyStatus s)
    ∧ (r = Ok tt → (∀ a b, sedge (targetDependencies s') a b ↔ R' a b)
         ∧ ∀ k, isTargetReady s' k = true ↔
             ∀ x, x = k ∨ tc R' k x →
               (∃ t, t ∈ targets s ∧ tg_name t = x) ∨ isTargetReady s x = true).
Proof.
  intros s R R'. destruct (reachable_seq_ok w ops) as [H1 _ _ _ _]. fold s in H1.
  destruct (addTargetDependency_result n d s H1) as (s' & r & Hrun & _ & _ & _ & _ & Hr).
  exists s', r. split; [exact Hrun|]. destruct r as [[]|e].
  - destruct Hr as (Hac & He & Hk). split_and!; [|done|].
    + split; [done|]. intros [x Hx] _. by apply (Hac x).
    + intros _. split; [exact He|]. intros k. rewrite Hk. split.
      * intros [Hkn Hx] x [->|Hkx]; auto.
      * intros Hall. split; [apply Hall; by left|]. intros x Hx. apply Hall. by right.
  - destruct Hr as (_ & Hc & He & Hk). by split_and!.
Qed.

(** [C10] Starting an idle sequence whose targets are not in progress and
    running its thread to the end: a round per target and one more suffice;
    every target that is pending and ready is executed once, in list order,
    [completedTargets] counts those that completed, and the sequence is idle
    without a thread.  Pausing it in between makes no difference. *)
Theorem executeSequence_correct (s : Sequencer) (fuel : nat) :
  state s = Idle → (∀ t, t ∈ targets s → tg_status t ≠ TInProgress) →
  length (targets s) < fuel →
  let r := run_all (isTargetReady s) (targets s) (world s) in
  ∃ s1, executeAll s = Ok s1 ∧ ∀ s2, s2 = s1 ∨ pause s1 = Ok s2 →
  ∃ s', executeSequence fuel s2 = Some s' ∧ targets s' = r.1.1 ∧ world s' = r.1.2
    ∧ completedTargets s' = r.2 ∧ state s' = Idle ∧ thread s' = false.
Proof.
  intros Hi Hno Hfuel r. unfold executeAll. rewrite decide_True by done.
  set (s0 := s <| state := Running |> <| completedTargets := 0%Z |>).
  eexists. split; [done|]. set (s1 := _ <| thread := true |>). intros s2 Hs2.
  assert (targets s1 = targets s ∧ world s1 = world s ∧ isTargetReady s1 = isTargetReady s
          ∧ completedTargets s1 = 0%Z ∧ thread s1 = true ∧ state s1 = Running)
    as (E1 & E2 & E3 & E4 & E5 & E6).
  { unfold s1, notifySequenceStart. rewrite emit_fields. by split_and!. }
  assert (targets s2 = targets s ∧ world s2 = world s ∧ isTargetReady s2 = isTargetReady s
          ∧ completedTargets s2 = 0%Z ∧ thread s2 = true ∧ (state s2 = Running ∨ state s2 = Paused))
    as (F1 & F2 & F3 & F4 & F5 & F6).
  { clearbody s1. destruct Hs2 as [->|Hs2]; [split_and!; auto|].
    unfold pause in Hs2. rewrite decide_True in Hs2 by done. simplify_eq.
    split_and!; try done. by right. }
  clearbody s1. destruct (executeSequence_run (targets s2) [] s2 fuel) as (s' & -> & G); try done.
  - set_solver.
  - by rewrite F1.
  - by rewrite F1.
  - exists s'. rewrite F1, F2, F3, F4 in G. split; [done|exact G].
Qed.
(** The operations that compute ready flags. *)
Definition is_dependency_op (o : seq_op) : bool :=
  match o with
  | OpAddTargetDependency _ _ | OpRemoveTargetDependency _ _ => true
  | _ => false
  end.

Lemma sequence_round_ready s :
  targetReadyStatus (sequence_round s) = targetReadyStatus s.
Proof.
  destruct (getNextExecutableTarget s) as [[i t]|] eqn:E.
  - apply (round_fields s i t E).
  - unfold sequence_round, end_thread, notifySequenceEnd. rewrite E.
    set (s1 := s <| state := Idle |>). rewrite emit_fields. done.
Qed.

Lemma stop_ready s : targetReadyStatus (stop s) = targetReadyStatus s ∧ targetReadyStatus (stop_joined s) = targetReadyStatus s.
Proof.
  unfold stop, stop_joined. split; [by case_decide|]. destruct (_ && _); [|done]. unfold notifySequenceEnd. by rewrite emit_fields.
Qed.

Lemma handleTargetError_ready i what s :
  targetReadyStatus (handleTargetError i what s) = targetReadyStatus s.
Proof.
  unfold handleTargetError. destruct (targets s !! i) as [t|]; [|done].
  unfold notifyTargetError. rewrite emit_fields. simpl.
  destruct (recoveryStrategy s); [done| |done|].
  - unfold notifyTargetEnd. by rewrite emit_fields.
  - destruct (alternativeTargets s !! tg_name t) as [alt|]; [|done].
    by destruct (tg_execute alt (world s)).
Qed.

Lemma run_seq_op_ready s o :
  is_dependency_op o = false → targetReadyStatus (run_seq_op s o) = targetReadyStatus s.
Proof.
  destruct o; intros Ho; try done; simpl;
    unfold addTarget, removeTarget, setTargetParams, setTargetTaskParams, modifyTarget, executeAll,
      pause, resume, addAlternativeTarget;
    try (by repeat case_match; simplify_eq/=).
  - destruct (joining s); [done|]. case_decide; [|done]. unfold or_unchanged, notifySequenceStart. by rewrite emit_fields.
  - unfold thread_step. destruct (thread s); [apply sequence_round_ready|done].
  - destruct (joining s); [done|apply stop_ready].
  - apply stop_ready.
  - by destruct strategy.
  - apply handleTargetError_ready.
Qed.

(** As long as no target dependency is added or removed, no target is ever
    ready: [addTarget] does not compute the flags.  The sequence thread then
    ends in its first round without executing any target. *)
Theorem targets_never_ready (w : W) (ops : list seq_op) :
  forallb (negb ∘ is_dependency_op) ops = true →
  let s := fold_left run_seq_op ops (Sequencer_new w) in
  (∀ n, isTargetReady s n = false)
  ∧ (thread s = true → ∀ fuel, executeSequence (S fuel) s = Some (end_thread s))
  ∧ targets (end_thread s) = targets s ∧ world (end_thread s) = world s.
Proof.
  intros Hops s. assert (targetReadyStatus s = ∅) as Hr.
  { subst s. assert (∀ s, targetReadyStatus (fold_left run_seq_op ops s) = targetReadyStatus s)
      as H; [|apply H]. revert Hops. induction ops as [|o ops' IH]; intros Hops s; simpl; [done|].
    apply andb_true_iff in Hops as [Ho%negb_true_iff Hops].
    rewrite (IH Hops). by apply run_seq_op_ready. }
  assert (∀ n, isTargetReady s n = false) as Hn.
  { intros n. unfold isTargetReady, ready. by rewrite Hr, lookup_empty. }
  split; [done|]. clearbody s. destruct (end_thread_fields s) as (_ & E2 & E3 & E4 & _).
  split_and!; try done. intros Hth fuel. cbn [executeSequence]. rewrite Hth.
  assert (sequence_round s = end_thread s) as ->.
  { unfold sequence_round. destruct (getNextExecutableTarget s) as [[i t]|] eqn:E; [|done].
    apply getNext_lookup in E as (_ & _ & _ & E). by rewrite Hn in E. }
  destruct fuel; cbn [executeSequence]; by rewrite E2.
Qed.

(** Stopping a sequence in any reachable state in which no stop waits, with nothing but
    the thread running meanwhile, leaves it idle with no thread, no target executed, dependencies kept.  The end callback is told
    twice when a thread was running, once by the thread and once by [stop]. *)
Theorem stop_correct (w : W) (ops : list seq_op) :
  let s := fold_left run_seq_op ops (Sequencer_new w) in
  let s' := stop_joined (thread_step (stop s)) in
  let ev := if onSequenceEnd s then [EvSequenceEnd] else [] in
  joining s = false →
  state s' = Idle ∧ thread s' = false ∧ targets s' = targets s
  ∧ world s' = world s ∧ targetDependencies s' = targetDependencies s
  ∧ log s' = log s ++ if decide (state s = Idle) then []
                      else if thread s then ev ++ ev else ev.
Proof.
  intros s s' ev Hj. subst s'. destruct (reachable_seq_ok w ops) as [_ _ _ H4 H5]. fold s in H4, H5.
  assert (state s = Idle ∧ thread s = false
          ∨ state s = Running ∨ state s = Paused ∨ state s = Stopping) as [[Hi Ht]|Hst].
  { destruct (thread s); [right; by apply H4|]. destruct (H5 eq_refl); auto. }
  - assert (stop_joined (thread_step (stop s)) = s) as ->.
    { unfold stop. rewrite decide_True by by left. unfold thread_step, stop_joined. by rewrite Ht, Hj. }
    rewrite decide_True, app_nil_r by done. by split_and!.
  - destruct (stop_fields s Hst) as (E1 & E2 & E3 & E4 & E5 & _ & E6).
    split_and!; try done. rewrite E6, decide_False by (intros E; rewrite E in Hst; naive_solver).
    by destruct (thread s).
Qed.

Lemma sublist_same_length {A} (l1 l2 : list A) :
  l1 `sublist_of` l2 → length l2 ≤ length l1 → l1 = l2.
Proof.
  induction 1 as [|x l1 l2 _ IH|x l1 l2 Hs _]; simpl; intros Hl; [done|f_equal; apply IH; lia|].
  apply sublist_length in Hs. lia.
Qed.

Lemma sublist_same_names (ts new : list T) :
  new `sublist_of` ts → NoDup (tg_name <$> ts) →
  (∀ t, t ∈ ts → ∃ t', t' ∈ new ∧ tg_name t' = tg_name t) → new = ts.
Proof.
  intros Hsub Hnd Hall. apply sublist_same_length; [done|].
  rewrite <- (length_fmap tg_name ts), <- (length_fmap tg_name new).
  apply submseteq_length, NoDup_submseteq; [done|].
  intros x (t & -> & Ht)%list_elem_of_fmap. destruct (Hall t Ht) as (t' & Ht' & <-).
  by apply list_elem_of_fmap_2.
Qed.

(** FIFO keeps the target order.  By priority, the targets are permuted and
    sorted by the number of dependencies, not by any priority.  By
    dependencies, the target list is reversed whatever the dependencies are,
    and of targets with the same name all but one are lost. *)
Theorem setSchedulingStrategy_correct (s : Sequencer) :
  targets (setSchedulingStrategy FIFO s) = targets s
  ∧ (let ts := targets (setSchedulingStrategy ByPriority s) in
     ts ≡ₚ targets s ∧ StronglySorted (λ a b, dependency_count s a ≤ dependency_count s b) ts)
  ∧ (let ts := targets (setSchedulingStrategy ByDependencies s) in
     (NoDup (getTargetNames s) → ts = reverse (targets s))
     ∧ reverse ts `sublist_of` targets s ∧ NoDup (tg_name <$> ts)
     ∧ ∀ n, n ∈ getTargetNames s ↔ n ∈ tg_name <$> ts).
Proof.
  split; [done|]. split; cbv zeta.
  { split; [apply std_sort_perm|]. simpl.
    assert (∀ l, StronglySorted (λ a b, (dependency_count s b <? dependency_count s a) = false) l →
                 StronglySorted (λ a b, dependency_count s a ≤ dependency_count s b) l) as Hw.
    { induction 1 as [|x l Hl IH Hx]; constructor; [done|].
      eapply Forall_impl; [exact Hx|]. intros y Hy%Nat.ltb_ge. done. }
    apply Hw. apply std_sort_sorted, (strict_weak_key (dependency_count s)). }
  set (s1 := s <| schedulingStrategy := ByDependencies |>).
  destruct (reorder_dependencies_spec s1) as (new & Heq & Hsub & Hnd & Hall).
  change (setSchedulingStrategy ByDependencies s) with (reorderTargetsByDependencies s1).
  rewrite Heq. change (targets s1) with (targets s) in *. split_and!; [|by rewrite reverse_involutive|done|].
  - intros Hn. f_equal. apply sublist_same_names; [done|done|].
    intros t Ht. destruct (Hall t Ht) as (t' & Ht' & ?). exists t'.
    split; [by apply elem_of_reverse|done].
  - intros n. unfold getTargetNames. rewrite !list_elem_of_fmap. split.
    + intros (t & -> & Ht). destruct (Hall t Ht) as (t' & Ht' & Hn). by exists t'.
    + intros (t & -> & Ht). rewrite elem_of_reverse in Ht. exists t.
      split; [done|]. exact (sublist_subseteq _ _ Hsub t Ht).
Qed.
End operations.
End sequencer.
Arguments Sequencer : clear implicits.

(** ** Class Target provides the interface *)

Section target_instance.
Context {J T W : Type} `{!JsonOps J} `{!TaskI J T W} `{!HashIter string}.

(** Target callbacks are not set by the sequence, so their events are dropped. *)
Definition target_interface : TargetI J (Target.Target J T) W := {|
  tg_name := Target.name;
  tg_uuid := Target.uuid;
  tg_status := Target.status;
  tg_setStatus := Target.setTargetStatus;
  tg_setParams := Target.setParams;
  tg_params := Target.params;
  tg_setTaskParams := Target.setTaskParams;
  tg_taskParams := Target.getTaskParams;
  tg_dependencies := Target.dependencies;
  tg_needsMeridianFlip := Target.needsMeridianFlip;
  tg_execute t w := (Target.execute t w).1
|}.

Lemma target_laws `{!TaskLaws J T W} : @TargetLaws J (Target.Target J T) W target_interface.
Proof.
  split; try done.
  - intros t w. simpl. destruct (enabled t) eqn:He.
    + destruct (execute_reached t w He) as [Hf _]. unfold frame in Hf.
      split; [apply (f_equal Target.name) in Hf|apply (f_equal Target.uuid) in Hf]; exact Hf.
    + unfold execute. by rewrite He.
  - intros t w. simpl. destruct (enabled t) eqn:He.
    + rewrite (execute_enabled t w He). cbv zeta. destruct (run_ungrouped _ _ _ _ _) as [[? []] ?];
        by split.
    + unfold execute. by rewrite He.
Qed.
End target_instance.

(** ** Examples *)

#[local] Existing Instance demo_ops.
#[local] Existing Instance canonical_iter.
#[local] Existing Instance insertion_sort.

#[local] Instance demo_tasks : TaskI demo_json (Task.Task (J := demo_json)) nat :=
  task_interface demo_clock demo_clock demo_packaged "timed out".
#[local] Instance demo_task_laws : TaskLaws demo_json (Task.Task (J := demo_json)) nat :=
  task_laws demo_clock demo_clock demo_packaged "timed out".

Abbreviation DemoTarget := (Target.Target demo_json (Task.Task (J := demo_json))).
#[local] Instance demo_targets : TargetI demo_json DemoTarget nat := target_interface.
#[local] Instance demo_target_laws : TargetLaws demo_json DemoTarget nat := target_laws.

Definition empty_target (n id : string) : DemoTarget := Target_new n id 0 0.

(** Two targets; [ops] run on the new sequence. *)
Definition demo_seq (ops : list (seq_op (J := demo_json) (T := DemoTarget))) : Sequencer DemoTarget nat :=
  fold_left run_seq_op
    ([OpAddTarget (Some (empty_target "A" "1")); OpAddTarget (Some (empty_target "B" "2"))] ++ ops)
    (Sequencer_new 0).

(** A depends on B, and yet A is executed first: a dependency only has to be
    the name of a target, not a completed one. *)
Example dependencies_do_not_order :
  log (demo_seq [OpSetCallbacks false false true false false; OpAddTargetDependency "A" "B";
                 OpExecuteAll; OpThreadStep; OpThreadStep])
  = [EvTargetStart "A"; EvTargetStart "B"].
Proof. vm_compute. reflexivity. Qed.

(** Without a dependency the sequence ends at once, both targets pending. *)
Example nothing_executed :
  let s := demo_seq [OpExecuteAll; OpThreadStep] in
  state s = Idle ∧ tg_status <$> targets s = [TPending; TPending].
Proof. vm_compute. done. Qed.

Definition demo_ready : Sequencer DemoTarget nat := demo_seq [OpAddTargetDependency "A" "B"].

Lemma demo_ready_run :
  (run_all (isTargetReady demo_ready) (targets demo_ready) (world demo_ready)).2 = 2%Z.
Proof. vm_compute. reflexivity. Qed.

Lemma demo_ready_pending : tg_status <$> targets demo_ready = [TPending; TPending].
Proof. vm_compute. reflexivity. Qed.

Lemma executeSequence_correct_witness :
  ∃ s1 s', executeAll demo_ready = Ok s1 ∧ executeSequence 3 s1 = Some s'
           ∧ completedTargets s' = 2%Z ∧ state s' = Idle.
Proof.
  destruct (executeSequence_correct demo_ready 3) as (s1 & E1 & H).
  - vm_compute. reflexivity.
  - intros t Ht Hs. apply (list_elem_of_fmap_2 tg_status) in Ht.
    rewrite demo_ready_pending, Hs in Ht. set_solver.
  - vm_compute. lia.
  - destruct (H s1 (or_introl eq_refl)) as (s' & E2 & _ & _ & E3 & E4 & _).
    rewrite demo_ready_run in E3. exists s1, s'. by split_and!.
Defined.

Lemma targets_never_ready_witness :
  isTargetReady (fold_left run_seq_op [OpAddTarget (Some (empty_target "A" "1")); OpExecuteAll]
                   (Sequencer_new 0)) "A" = false.
Proof.
  apply (targets_never_ready 0 [OpAddTarget (Some (empty_target "A" "1")); OpExecuteAll]).
  reflexivity.
Defined.

Lemma Sequencer_invariant_witness : NoDup (uuids (targets demo_ready)).
Proof.
  exact (proj1 (proj2 (Sequencer_invariant 0
    ([OpAddTarget (Some (empty_target "A" "1")); OpAddTarget (Some (empty_target "B" "2"))]
     ++ [OpAddTargetDependency "A" "B"])))).
Defined.

Lemma demo_ready_edge : sedge (targetDependencies demo_ready) "A" "B".
Proof.
  unfold sedge. assert (sdeps (targetDependencies demo_ready) "A" = ["B"%string]) as ->;
    [vm_compute; reflexivity|left].
Qed.

(** Closing the cycle between A and B throws. *)
Lemma addTargetDependency_correct_witness :
  ∃ s' e, addTargetDependency "B" "A" demo_ready = Some (s', Throw e)
          ∧ targetReadyStatus s' = targetReadyStatus demo_ready.
Proof.
  destruct (addTargetDependency_correct 0
    ([OpAddTarget (Some (empty_target "A" "1")); OpAddTarget (Some (empty_target "B" "2"))]
     ++ [OpAddTargetDependency "A" "B"]) "B" "A") as (s' & r & E1 & E2 & E3 & _).
  assert (r ≠ Ok tt) as Hr.
  { apply E2. exists "A"%string. apply tc_l with "B"%string.
    - left. exact demo_ready_edge.
    - apply tc_once. by right. }
  destruct r as [[]|e]; [by destruct Hr|]. exists s', e. split; [exact E1|]. apply E3. done.
Defined.

Lemma stop_correct_witness :
  let s' := stop_joined (thread_step (stop (demo_seq [OpSetCallbacks false true false false false; OpExecuteAll]))) in
  state s' = Idle ∧ log s' = [EvSequenceEnd; EvSequenceEnd].
Proof.
  destruct (stop_correct 0
    ([OpAddTarget (Some (empty_target "A" "1")); OpAddTarget (Some (empty_target "B" "2"))]
     ++ [OpSetCallbacks false true false false false; OpExecuteAll])) as (H1 & _ & _ & _ & _ & H6); [reflexivity|].
  split; [exact H1|]. etransitivity; [exact H6|]. vm_compute. reflexivity.
Defined.

Lemma setSchedulingStrategy_correct_witness :
  tg_name <$> targets (setSchedulingStrategy ByDependencies demo_ready) = ["B"; "A"]%string.
Proof.
  rewrite (proj1 (proj2 (proj2 (setSchedulingStrategy_correct demo_ready)))).
  - vm_compute. reflexivity.
  - apply (bool_decide_unpack _). vm_compute. exact I.
Defined.
