(* ===== verification/Fuzzy.v ===== *)
(** * Fuzzy: edit distance and the fuzzy matcher of the target index

    Models class FuzzyMatcher of src/src/target/index/fuzzy_matcher.hpp and
    fuzzy_matcher.cpp: the two-row Levenshtein distance, the BK-tree of terms
    and the map from terms to object identifiers.  Strings are shorter than
    2^31, so distances are ints without overflow.  Left out: move construction
    and assignment, the text of getStats and the locks. *)

From S2P Require Import Prelude.

(** ** The edit distance *)

(** The inner loop: [prev] from the cell above the left one on, [left] the cell
    just written. *)
Fixpoint lev_cells (c : char) (s2 : list char) (prev : list nat) (left : nat) : list nat :=
  match s2, prev with
  | b :: s2', diag :: ((up :: _) as prev') =>
      let cost := if decide (c = b) then 0 else 1 in
      let cell := Nat.min (up + 1) (Nat.min (left + 1) (diag + cost)) in
      cell :: lev_cells c s2' prev' cell
  | _, _ => []
  end.

(** The outer loop; [i] is the row number and [prev] the previous row. *)
Fixpoint lev_rows (s1 s2 : list char) (i : nat) (prev : list nat) : list nat :=
  match s1 with
  | [] => prev
  | c :: s1' => lev_rows s1' s2 (S i) (i :: lev_cells c s2 prev i)
  end.

Definition levenshteinDistance (s1 s2 : string) : nat :=
  let a := chars s1 in
  let b := chars s2 in
  match a, b with
  | [], _ => length b
  | _, [] => length a
  | _, _ => default 0 (lev_rows a b 1 (seq 0 (S (length b))) !! length b)
  end.

(** ** What it should compute

    [align a b k]: [a] becomes [b] by [k] insertions, deletions and
    substitutions of characters. *)
Inductive align : list char → list char → nat → Prop :=
| al_nil : align [] [] 0
| al_keep x a b k : align a b k → align (x :: a) (x :: b) k
| al_subst x y a b k : align a b k → align (x :: a) (y :: b) (S k)
| al_delete x a b k : align a b k → align (x :: a) b (S k)
| al_insert y a b k : align a b k → align a (y :: b) (S k).

Lemma align_app a b k a' b' k' :
  align a b k → align a' b' k' → align (a ++ a') (b ++ b') (k + k').
Proof. induction 1; intros; simpl; try constructor; auto. Qed.

Lemma align_rev a b k : align a b k → align (rev a) (rev b) k.
Proof.
  induction 1 as [|x a b k _ IH|x y a b k _ IH|x a b k _ IH|y a b k _ IH]; simpl.
  - constructor.
  - rewrite <- (Nat.add_0_r k). apply align_app; [done|]. repeat constructor.
  - rewrite <- (Nat.add_1_r k). apply align_app; [done|]. repeat constructor.
  - rewrite <- (Nat.add_1_r k), <- (app_nil_r (rev b)). apply align_app; [done|]. repeat constructor.
  - rewrite <- (Nat.add_1_r k), <- (app_nil_r (rev a)). apply align_app; [done|]. repeat constructor.
Qed.

Lemma align_sym a b k : align a b k → align b a k.
Proof. induction 1; by constructor. Qed.

Lemma align_refl a : align a a 0.
Proof. induction a; by constructor. Qed.

Lemma align_0 a b : align a b 0 → a = b.
Proof.
  remember 0 as k eqn:Hk. induction 1; try done. by rewrite IHalign.
Qed.

(** One more edit after a composed alignment. *)
Ltac align_after IH :=
  let m := fresh "m" in
  destruct IH as (m & ? & ?);
  first [exists m; split; [lia|done] | exists m; split; [lia|by constructor]
        | exists (S m); split; [lia|by constructor]].

(** Composition of two alignments; the inner induction passes the insertions
    of the second one. *)
Lemma align_trans a b k :
  align a b k → ∀ c l, align b c l → ∃ m, m ≤ k + l ∧ align a c m.
Proof.
  induction 1 as [|x a b k Hab IH|x y a b k Hab IH|x a b k Hab IH|y a b k Hab IH];
    intros c l Hbc; [by exists l| | |align_after (IH c l Hbc)|];
    match type of Hbc with align ?b' _ _ => remember b' as b1 eqn:Hb' end;
    (induction Hbc as [|z b0 c l Hbc|z z' b0 c l Hbc|z b0 c l Hbc|z b0 c l Hbc IHc];
      simplify_eq/=; first [align_after (IH c l Hbc) | align_after (IHc eq_refl)]).
Qed.

(** The recurrence the table follows. *)
Fixpoint dist (a : list char) : list char → nat :=
  match a with
  | [] => length
  | x :: a' => fix go (b : list char) : nat :=
      match b with
      | [] => length a
      | y :: b' => Nat.min (dist a' b + 1)
                     (Nat.min (go b' + 1) (dist a' b' + if decide (x = y) then 0 else 1))
      end
  end.

Lemma dist_nil_r a : dist a [] = length a.
Proof. by destruct a. Qed.

Lemma dist_cons x a y b :
  dist (x :: a) (y :: b) =
    Nat.min (dist a (y :: b) + 1)
      (Nat.min (dist (x :: a) b + 1) (dist a b + if decide (x = y) then 0 else 1)).
Proof. done. Qed.

Lemma align_nil_l b : align [] b (length b).
Proof. induction b; by constructor. Qed.

Lemma align_nil_r a : align a [] (length a).
Proof. induction a; by constructor. Qed.

Lemma dist_align a b : align a b (dist a b).
Proof.
  revert b. induction a as [|x a IHa]; [apply align_nil_l|].
  induction b as [|y b IHb]; [apply align_nil_r|]. rewrite dist_cons.
  apply Nat.min_case; [rewrite Nat.add_1_r; by constructor|].
  apply Nat.min_case; [rewrite Nat.add_1_r; by constructor|].
  case_decide as Hxy; [subst; rewrite Nat.add_0_r|rewrite Nat.add_1_r]; by constructor.
Qed.

Lemma dist_min a b k : align a b k → dist a b ≤ k.
Proof.
  induction 1 as [|x a b k _ IH|x y a b k _ IH|x a b k _ IH|y a b k _ IH]; [done| | | |].
  - rewrite dist_cons, decide_True by done. lia.
  - rewrite dist_cons. case_decide; lia.
  - destruct b; [rewrite dist_nil_r in *; simpl; lia|]. rewrite dist_cons. lia.
  - destruct a; [simpl in *; lia|]. rewrite dist_cons. lia.
Qed.

Lemma dist_rev a b : dist (rev a) (rev b) = dist a b.
Proof.
  apply Nat.le_antisymm.
  - apply dist_min, align_rev, dist_align.
  - rewrite <- (rev_involutive a), <- (rev_involutive b) at 1.
    apply dist_min, align_rev, dist_align.
Qed.

(** The row of the table for the prefix [rev a], from the prefix [rev b0] on. *)
Fixpoint ref_row (a b0 b : list char) : list nat :=
  dist a b0 :: match b with [] => [] | y :: b' => ref_row a (y :: b0) b' end.

Lemma lev_cells_ref c a b0 b :
  dist (c :: a) b0 :: lev_cells c b (ref_row a b0 b) (dist (c :: a) b0) = ref_row (c :: a) b0 b.
Proof.
  revert b0. induction b as [|y b IH]; intros b0; [done|].
  change (ref_row (c :: a) b0 (y :: b)) with (dist (c :: a) b0 :: ref_row (c :: a) (y :: b0) b).
  f_equal. rewrite <- IH. destruct b; done.
Qed.

Lemma ref_row_nil b0 b : ref_row [] b0 b = seq (length b0) (S (length b)).
Proof.
  revert b0. induction b as [|y b IH]; intros b0; [done|].
  change (ref_row [] b0 (y :: b)) with (length b0 :: ref_row [] (y :: b0) b). by rewrite IH.
Qed.

Lemma lev_rows_ref s a b :
  lev_rows s b (S (length a)) (ref_row a [] b) = ref_row (rev s ++ a) [] b.
Proof.
  revert a. induction s as [|c s IH]; intros a; [done|]. cbn [lev_rows rev].
  pose proof (lev_cells_ref c a [] b) as H. rewrite dist_nil_r in H. cbn [length] in H.
  rewrite H, <- app_assoc. apply (IH (c :: a)).
Qed.

Lemma ref_row_last a b0 b : ref_row a b0 b !! length b = Some (dist a (rev b ++ b0)).
Proof.
  revert b0. induction b as [|y b IH]; intros b0; [done|].
  cbn [length]. change (ref_row a b0 (y :: b)) with (dist a b0 :: ref_row a (y :: b0) b).
  cbn [lookup list_lookup]. rewrite IH. cbn [rev]. by rewrite <- app_assoc.
Qed.

Lemma levenshtein_dist s1 s2 : levenshteinDistance s1 s2 = dist (chars s1) (chars s2).
Proof.
  unfold levenshteinDistance. destruct (chars s1) as [|x a] eqn:Ha; [done|].
  destruct (chars s2) as [|y b] eqn:Hb; [done|]. rewrite <- Ha, <- Hb.
  pose proof (lev_rows_ref (chars s1) [] (chars s2)) as H. rewrite ref_row_nil in H.
  cbn [length] in H. rewrite H, ref_row_last, !app_nil_r. apply dist_rev.
Qed.

Lemma chars_inj s1 s2 : chars s1 = chars s2 → s1 = s2.
Proof.
  intros H. rewrite <- (String.string_of_list_ascii_of_string s1),
    <- (String.string_of_list_ascii_of_string s2). unfold chars in H. by rewrite H.
Qed.

Lemma lev_le_align s1 s2 k :
  align (chars s1) (chars s2) k → levenshteinDistance s1 s2 ≤ k.
Proof. rewrite levenshtein_dist. apply dist_min. Qed.

Lemma lev_align s1 s2 : align (chars s1) (chars s2) (levenshteinDistance s1 s2).
Proof. rewrite levenshtein_dist. apply dist_align. Qed.

Lemma lev_zero s1 s2 : levenshteinDistance s1 s2 = 0 ↔ s1 = s2.
Proof.
  split; [intros H|intros ->].
  - apply chars_inj, align_0. rewrite <- H. apply lev_align.
  - apply Nat.le_0_r, lev_le_align, align_refl.
Qed.

Lemma lev_sym s1 s2 : levenshteinDistance s1 s2 = levenshteinDistance s2 s1.
Proof. apply Nat.le_antisymm; apply lev_le_align, align_sym, lev_align. Qed.

Lemma lev_triangle s1 s s2 :
  levenshteinDistance s1 s2 ≤ levenshteinDistance s1 s + levenshteinDistance s s2.
Proof.
  destruct (align_trans _ _ _ (lev_align s1 s) _ _ (lev_align s s2)) as (m & ? & ?%lev_le_align).
  lia.
Qed.

(** [C12] The two-row table computes the edit distance: the least number of
    insertions, deletions and substitutions that turn one string into the
    other.  It is zero exactly on equal strings, symmetric, and satisfies the
    triangle inequality the BK-tree search relies on. *)
Theorem levenshteinDistance_correct (s1 s2 : string) :
  align (chars s1) (chars s2) (levenshteinDistance s1 s2)
  ∧ (∀ k, align (chars s1) (chars s2) k → levenshteinDistance s1 s2 ≤ k)
  ∧ (levenshteinDistance s1 s2 = 0 ↔ s1 = s2)
  ∧ levenshteinDistance s1 s2 = levenshteinDistance s2 s1
  ∧ ∀ s, levenshteinDistance s1 s2 ≤ levenshteinDistance s1 s + levenshteinDistance s s2.
Proof. split_and!; auto using lev_align, lev_le_align, lev_zero, lev_sym, lev_triangle. Qed.

(** ** The BK-tree and the matcher *)

(** A node with its term, object identifier and children by distance. *)
Inductive BKTreeNode := BKNode (term objectId : string) (children : gmap nat BKTreeNode).

Definition MatchResult : Type := string * nat.

Record FuzzyMatcher := mkFuzzyMatcher {
  root : option BKTreeNode;
  termMap : gmap string string
}.

Definition FuzzyMatcher_new : FuzzyMatcher := mkFuzzyMatcher None ∅.

Fixpoint countNodes (node : BKTreeNode) : nat :=
  match node with BKNode _ _ ch => S (map_fold (λ _ c k, countNodes c + k) 0 ch) end.

Fixpoint getTreeDepth (node : BKTreeNode) : nat :=
  match node with BKNode _ _ ch => S (map_fold (λ _ c k, Nat.max (getTreeDepth c) k) 0 ch) end.

Definition normalize (s : string) : string := str_tolower s.

(** The null pointer is [None]. *)
Fixpoint insertNode (fuel : nat) (node : option BKTreeNode) (term objectId : string)
    : option BKTreeNode :=
  match fuel with
  | 0 => None
  | S fuel' =>
      match node with
      | None => Some (BKNode term objectId ∅)
      | Some (BKNode t o ch as n) =>
          let d := levenshteinDistance t term in
          if decide (d = 0) then Some n else
          match insertNode fuel' (ch !! d) term objectId with
          | None => None
          | Some c => Some (BKNode t o (<[d := c]> ch))
          end
      end
  end.

Definition depth (node : option BKTreeNode) : nat :=
  match node with None => 0 | Some n => getTreeDepth n end.

(** One insertion, of a normalized term. *)
Definition insert_term (normalized objectId : string) (m : FuzzyMatcher) : option FuzzyMatcher :=
  match insertNode (S (depth (root m))) (root m) normalized objectId with
  | None => None
  | Some n => Some (mkFuzzyMatcher (Some n) (<[normalized := objectId]> (termMap m)))
  end.

Definition addTerm (term objectId : string) (m : FuzzyMatcher) : option FuzzyMatcher :=
  match termMap m !! normalize term with
  | Some _ => Some m
  | None => insert_term (normalize term) objectId m
  end.

Fixpoint addTerms (terms : list (string * string)) (m : FuzzyMatcher) : option FuzzyMatcher :=
  match terms with
  | [] => Some m
  | (term, objectId) :: rest =>
      match addTerm term objectId m with
      | None => None
      | Some m' => addTerms rest m'
      end
  end.

Definition clear (m : FuzzyMatcher) : FuzzyMatcher := mkFuzzyMatcher None ∅.
Definition fuzzy_size (m : FuzzyMatcher) : nat := size (termMap m).
Definition contains (m : FuzzyMatcher) (term : string) : bool :=
  bool_decide (is_Some (termMap m !! normalize term)).
Definition getObjectId (m : FuzzyMatcher) (term : string) : string :=
  default ""%string (termMap m !! normalize term).

Section search.
Context `{!HashIter nat} {sorter : StdSort}.

(** Whether [results] already has [limit] elements; a negative limit converts
    to a huge size. *)
Definition limit_reached (limit : Z) (results : list MatchResult) : bool :=
  (to_size limit <=? Z.of_nat (length results))%Z.

(** The loop over the children within the distance bounds. *)
Fixpoint search_children
    (rec : BKTreeNode → list MatchResult → option (result exn (list MatchResult)))
    (lo hi : Z) (cs : list (nat * BKTreeNode)) (results : list MatchResult)
    : option (result exn (list MatchResult)) :=
  match cs with
  | [] => Some (Ok results)
  | (d, c) :: rest =>
      if (lo <=? Z.of_nat d)%Z && (Z.of_nat d <=? hi)%Z then
        match rec c results with
        | Some (Ok results') => search_children rec lo hi rest results'
        | x => x
        end
      else search_children rec lo hi rest results
  end.

(** [results] is the vector so far; [at()] throws on an unknown term. *)
Fixpoint searchNode (fuel : nat) (query : string) (maxDistance limit : Z)
    (tm : gmap string string) (node : BKTreeNode) (results : list MatchResult)
    : option (result exn (list MatchResult)) :=
  match fuel with
  | 0 => None
  | S fuel' =>
      if limit_reached limit results then Some (Ok results) else
      let 'BKNode term _ ch := node in
      let d := levenshteinDistance query term in
      let visit_children :=
        search_children (searchNode fuel' query maxDistance limit tm)
          (Z.of_nat d - maxDistance) (Z.of_nat d + maxDistance) (iter_map ch) in
      if (Z.of_nat d <=? maxDistance)%Z then
        match tm !! term with
        | None => Some (Throw OutOfRange)
        | Some objectId => visit_children (results ++ [(objectId, d)])
        end
      else visit_children results
  end.

(** [match]. *)
Definition fuzzy_match (m : FuzzyMatcher) (query : string) (maxDistance limit : Z)
    : option (result exn (list MatchResult)) :=
  match root m with
  | None => Some (Ok [])
  | Some n =>
      match searchNode (getTreeDepth n) (normalize query) maxDistance limit (termMap m) n [] with
      | Some (Ok results) =>
          let results := std_sort (λ a b, a.2 <? b.2) results in
          Some (Ok (if (to_size limit <? Z.of_nat (length results))%Z
                    then take (Z.to_nat (to_size limit)) results else results))
      | x => x
      end
  end.

(** ** The tree *)

Inductive in_tree : BKTreeNode → string → Prop :=
| in_root t o ch : in_tree (BKNode t o ch) t
| in_child t o ch d c x : ch !! d = Some c → in_tree c x → in_tree (BKNode t o ch) x.

(** The terms below the child at distance [d] have that distance to the term. *)
Inductive bk_ok : BKTreeNode → Prop :=
| bk_node t o ch :
    (∀ d c, ch !! d = Some c → bk_ok c) →
    (∀ d c x, ch !! d = Some c → in_tree c x → levenshteinDistance t x = d) →
    (ch !! 0 = None) → bk_ok (BKNode t o ch).

Lemma in_tree_inv t o ch x :
  in_tree (BKNode t o ch) x ↔ x = t ∨ ∃ d c, ch !! d = Some c ∧ in_tree c x.
Proof.
  split; [inversion 1; subst; eauto|]. intros [->|(d & c & ? & ?)]; [constructor|].
  by econstructor.
Qed.

Lemma depth_child t o ch d c : ch !! d = Some c → getTreeDepth c < getTreeDepth (BKNode t o ch).
Proof.
  intros H. simpl. rewrite <- (insert_id ch d c), <- insert_delete_eq by done.
  rewrite map_fold_insert_L; [lia|intros; lia|apply lookup_delete_eq].
Qed.

(** A new term joins the tree; a present one changes nothing. *)
Lemma insertNode_spec fuel n term oid :
  bk_ok n → getTreeDepth n < fuel →
  ∃ n', insertNode fuel (Some n) term oid = Some n' ∧ bk_ok n'
        ∧ ∀ x, in_tree n' x ↔ in_tree n x ∨ x = term.
Proof.
  revert n. induction fuel as [|fuel IH]; intros [t o ch] Hok Hfuel; [lia|].
  cbn [insertNode]. cbv zeta. case_decide as Hd.
  { apply lev_zero in Hd as ->. eexists. split; [done|]. split; [done|].
    intros x. rewrite in_tree_inv. naive_solver. }
  inversion Hok as [? ? ? Hch Hdist H0]; subst.
  assert (∃ c', insertNode fuel (ch !! levenshteinDistance t term) term oid = Some c' ∧ bk_ok c'
    ∧ ∀ x, in_tree c' x ↔
           (∃ c, ch !! levenshteinDistance t term = Some c ∧ in_tree c x) ∨ x = term)
    as (c' & -> & Hc' & Hin).
  { destruct (ch !! levenshteinDistance t term) as [c|] eqn:E.
    - pose proof (depth_child t o ch _ c E).
      destruct (IH c (Hch _ _ E)) as (c' & -> & ? & Hin); [lia|].
      exists c'. split_and!; [done|done|]. intros x. rewrite Hin. naive_solver.
    - destruct fuel as [|fuel]; [simpl in Hfuel; lia|]. eexists. split; [done|]. split.
      + constructor; intros *; try (by rewrite lookup_empty); done.
      + intros x. rewrite in_tree_inv. setoid_rewrite lookup_empty. naive_solver. }
  eexists. split; [done|]. split.
  - constructor.
    + intros d c [[_ <-]|[_ ?]]%lookup_insert_Some; eauto.
    + intros d c x [[<- <-]|[_ ?]]%lookup_insert_Some; [|eauto].
      rewrite Hin. intros [(c & ? & ?)| ->]; eauto.
    + rewrite lookup_insert_ne; done.
  - intros x. rewrite !in_tree_inv. split.
    + intros [->|(d & c & [[<- <-]|[_ ?]]%lookup_insert_Some & Hx)]; [by left; left| |by left; eauto].
      apply Hin in Hx as [(c & ? & ?)| ->]; eauto 10.
    + intros [[->|(d & c & Hd' & Hx)]| ->]; [by left| |].
      * right. destruct (decide (d = levenshteinDistance t term)) as [->|].
        -- exists (levenshteinDistance t term), c'. rewrite lookup_insert_eq, Hin. eauto.
        -- exists d, c. by rewrite lookup_insert_ne.
      * right. exists (levenshteinDistance t term), c'. rewrite lookup_insert_eq, Hin. auto.
Qed.

(** ** The search *)

Section query.
Variables (query : string) (maxDistance : Z).

(** The terms the search meets within the distance, without a limit. *)
Fixpoint visited (fuel : nat) (node : BKTreeNode) : list string :=
  match fuel with
  | 0 => []
  | S fuel' =>
      let 'BKNode term _ ch := node in
      let d := Z.of_nat (levenshteinDistance query term) in
      (if (d <=? maxDistance)%Z then [term] else [])
      ++ concat (map (λ '(k, c), if (d - maxDistance <=? Z.of_nat k)%Z
                                    && (Z.of_nat k <=? d + maxDistance)%Z
                                 then visited fuel' c else []) (iter_map ch))
  end.

Definition in_range (t : string) (k : nat) : bool :=
  let d := Z.of_nat (levenshteinDistance query t) in
  (d - maxDistance <=? Z.of_nat k)%Z && (Z.of_nat k <=? d + maxDistance)%Z.

Lemma elem_of_visited_node fuel t o ch x :
  x ∈ visited (S fuel) (BKNode t o ch) ↔
    (x = t ∧ Z.of_nat (levenshteinDistance query t) ≤ maxDistance)%Z
    ∨ ∃ d c, ch !! d = Some c ∧ in_range t d = true ∧ x ∈ visited fuel c.
Proof.
  cbn [visited]. cbv zeta. rewrite elem_of_app, elem_of_concat_map. f_equiv.
  - destruct (Z.leb_spec (Z.of_nat (levenshteinDistance query t)) maxDistance);
      rewrite ?list_elem_of_singleton, ?elem_of_nil; [naive_solver|lia].
  - split.
    + intros ([d c] & Hin%elem_of_iter_map & Hx). exists d, c. unfold in_range. cbv zeta.
      by destruct (_ && _); [|apply elem_of_nil in Hx].
    + intros (d & c & Hd & Hr & Hx). exists (d, c). rewrite elem_of_iter_map.
      unfold in_range in Hr. cbv zeta in Hr. by rewrite Hr.
Qed.

(** Pruning loses nothing, by the triangle inequality. *)
Lemma in_range_dist t x :
  (Z.of_nat (levenshteinDistance query x) ≤ maxDistance)%Z →
  in_range t (levenshteinDistance t x) = true.
Proof.
  intros Hx. pose proof (lev_triangle query x t). pose proof (lev_triangle t query x).
  pose proof (lev_triangle query t x). rewrite (lev_sym x t) in *. rewrite (lev_sym t query) in *.
  unfold in_range. cbv zeta. rewrite andb_true_iff, !Z.leb_le. lia.
Qed.

Lemma elem_of_visited fuel n x :
  bk_ok n → getTreeDepth n ≤ fuel →
  x ∈ visited fuel n ↔ in_tree n x ∧ (Z.of_nat (levenshteinDistance query x) ≤ maxDistance)%Z.
Proof.
  revert n. induction fuel as [|fuel IH]; intros [t o ch] Hok Hfuel; [simpl in Hfuel; lia|].
  inversion Hok as [? ? ? Hch Hdist H0]; subst.
  assert (∀ d c, ch !! d = Some c → x ∈ visited fuel c ↔
    in_tree c x ∧ (Z.of_nat (levenshteinDistance query x) ≤ maxDistance)%Z) as Hc.
  { intros d c Hd. pose proof (depth_child t o ch d c Hd). apply IH; [by eapply Hch|lia]. }
  rewrite elem_of_visited_node, in_tree_inv. split.
  - intros [[-> ?]|(d & c & Hd & _ & Hx)]; [by split; [left|]|].
    apply (Hc d c Hd) in Hx as [??]. eauto 10.
  - intros [[->|(d & c & Hd & Hx)] Hle]; [by left|right]. exists d, c.
    rewrite (Hc d c Hd). pose proof (Hdist d c x Hd Hx) as <-. auto using in_range_dist.
Qed.

(** No term is met twice. *)
Lemma NoDup_visited fuel n : bk_ok n → getTreeDepth n ≤ fuel → NoDup (visited fuel n).
Proof.
  revert n. induction fuel as [|fuel IH]; intros [t o ch] Hok Hfuel; [constructor|].
  inversion Hok as [? ? ? Hch Hdist H0]; subst. cbn [visited]. cbv zeta.
  assert (∀ d c x, ch !! d = Some c → x ∈ visited fuel c → levenshteinDistance t x = d) as Hd.
  { intros d c x Hd Hx. pose proof (depth_child t o ch d c Hd).
    apply elem_of_visited in Hx as [Hx _]; [by eapply Hdist|by eapply Hch|lia]. }
  apply NoDup_app. split_and!.
  - destruct (_ <=? _)%Z; [apply NoDup_singleton|constructor].
  - intros x Hx ([d c] & Hin%elem_of_iter_map & Hxc)%elem_of_concat_map.
    destruct (_ && _); [|by apply elem_of_nil in Hxc].
    destruct (_ <=? _)%Z; [|by apply elem_of_nil in Hx]. apply list_elem_of_singleton in Hx as ->.
    apply (Hd d c t Hin) in Hxc. rewrite (proj2 (lev_zero t t) eq_refl) in Hxc.
    subst d. by rewrite H0 in Hin.
  - apply NoDup_concat_map.
    + rewrite iter_map_perm. apply NoDup_map_to_list.
    + intros [d c] Hin%elem_of_iter_map. destruct (_ && _); [|constructor].
      pose proof (depth_child t o ch d c Hin). apply IH; [by eapply Hch|lia].
    + intros [d c] [d' c'] x Hin%elem_of_iter_map Hin'%elem_of_iter_map Hx Hx'.
      repeat destruct (_ && _); try (by apply elem_of_nil in Hx); try (by apply elem_of_nil in Hx').
      assert (d = d') as <- by (transitivity (levenshteinDistance t x); [symmetry|]; eauto).
      by simplify_eq.
Qed.
End query.

(** ** The matcher *)

(** The search appends what the unlimited one would meet, up to the limit. *)
Lemma searchNode_take query maxDistance limit tm fuel n results :
  (∀ x, in_tree n x → is_Some (tm !! x)) → getTreeDepth n ≤ fuel →
  searchNode fuel query maxDistance limit tm n results =
    Some (Ok (results ++ take (Z.to_nat (to_size limit) - length results)
      (map (λ x, (default ""%string (tm !! x), levenshteinDistance query x))
         (visited query maxDistance fuel n)))).
Proof.
  set (L := Z.to_nat (to_size limit)). set (res := λ x, (default _ (tm !! x), _)).
  assert (∀ l, limit_reached limit l = bool_decide (L ≤ length l)) as HL.
  { intros l. unfold limit_reached, L.
    assert (0 ≤ to_size limit)%Z by (apply Z.mod_pos_bound; done).
    case_bool_decide; [apply Z.leb_le|apply Z.leb_gt]; lia. }
  revert n results. induction fuel as [|fuel IH]; intros [t o ch] results Htm Hfuel;
    [simpl in Hfuel; lia|]. cbn [searchNode]. rewrite HL. case_bool_decide as Hl.
  { by rewrite (proj2 (Nat.sub_0_le _ _)), take_0, app_nil_r. }
  cbv zeta.
  assert (∀ cs lo hi results, (∀ d c, (d, c) ∈ cs → ch !! d = Some c) →
    search_children (searchNode fuel query maxDistance limit tm) lo hi cs results =
    Some (Ok (results ++ take (L - length results) (map res (concat
      (map (λ '(k, c), if (lo <=? Z.of_nat k)%Z && (Z.of_nat k <=? hi)%Z
                       then visited query maxDistance fuel c else []) cs)))))) as Hcs.
  { clear results Hl. induction cs as [|[d c] cs IHcs]; intros lo hi results Hin; cbn [search_children].
    { simpl. by rewrite take_nil, app_nil_r. }
    assert (ch !! d = Some c) as Hd by (apply Hin; left).
    assert (∀ d c, (d, c) ∈ cs → ch !! d = Some c) as Hin' by (intros; apply Hin; by right).
    cbn [map concat]. destruct (_ && _); [|by rewrite IHcs].
    pose proof (depth_child t o ch d c Hd).
    rewrite IH; [|intros x Hx; apply Htm; by econstructor|lia].
    rewrite IHcs by done. do 2 f_equal. rewrite map_app, <- app_assoc. f_equal.
    rewrite take_app, length_app, length_take, !length_map. do 2 f_equal. lia. }
  destruct (Z.of_nat (levenshteinDistance query t) <=? maxDistance)%Z eqn:Hd; cbn [visited];
    cbv zeta; rewrite Hd.
  - destruct (Htm t) as [oid Ht]; [constructor|]. rewrite Ht.
    rewrite Hcs by by intros ?? ?%elem_of_iter_map. do 2 f_equal.
    cbn [map app]. rewrite <- app_assoc. f_equal.
    assert (res t = (oid, levenshteinDistance query t)) as -> by (unfold res; by rewrite Ht).
    rewrite length_app. cbn [length].
    replace (L - length results) with (S (L - (length results + 1))) by lia. done.
  - by rewrite Hcs by by intros ?? ?%elem_of_iter_map.
Qed.

(** The map and the tree hold the same terms. *)
Definition matcher_ok (m : FuzzyMatcher) : Prop :=
  match root m with
  | None => termMap m = ∅
  | Some n => bk_ok n ∧ ∀ x, in_tree n x ↔ is_Some (termMap m !! x)
  end.

Lemma insert_term_ok term oid m :
  matcher_ok m → termMap m !! term = None →
  ∃ m', insert_term term oid m = Some m' ∧ matcher_ok m'
        ∧ termMap m' = <[term := oid]> (termMap m).
Proof.
  intros Hok Hnew. unfold insert_term, matcher_ok in *. destruct (root m) as [n|]; cbn [depth].
  - destruct Hok as [Hbk Hin].
    destruct (insertNode_spec (S (getTreeDepth n)) n term oid Hbk) as (n' & E & Hn' & Hx); [lia|].
    rewrite E. eexists. split; [done|]. split; [|done]. simpl. split; [done|].
    intros x. rewrite Hx, Hin, lookup_insert_is_Some'. naive_solver.
  - eexists. split; [done|]. split; [|done]. simpl. split.
    + constructor; intros *; rewrite ?lookup_empty; done.
    + intros x. rewrite in_tree_inv, Hok, lookup_insert_is_Some'. setoid_rewrite lookup_empty.
      naive_solver.
Qed.

Lemma sorted_by_distance (r : list MatchResult) :
  StronglySorted (λ a b, (b.2 <? a.2) = false) r → StronglySorted (λ a b, a.2 ≤ b.2) r.
Proof.
  induction 1 as [|x l Hl IH Hx]; constructor; [done|].
  eapply Forall_impl; [exact Hx|]. intros y Hy%Nat.ltb_ge. done.
Qed.

Lemma fuzzy_match_spec m query maxDistance limit :
  matcher_ok m →
  let q := normalize query in
  ∃ met r, fuzzy_match m query maxDistance limit = Some (Ok r)
    ∧ met ≡ₚ (λ '(term, oid), (oid, levenshteinDistance q term)) <$>
        filter (λ kv, Z.of_nat (levenshteinDistance q kv.1) ≤ maxDistance)%Z
          (map_to_list (termMap m))
    ∧ r ≡ₚ take (Z.to_nat (to_size limit)) met ∧ StronglySorted (λ a b, a.2 ≤ b.2) r.
Proof.
  intros Hok q. unfold fuzzy_match, matcher_ok in *. fold q. destruct (root m) as [n|].
  2: { rewrite Hok. exists [], []. rewrite map_to_list_empty, take_nil.
       split_and!; try done. constructor. }
  destruct Hok as [Hbk Hin]. set (tm := termMap m) in *. set (L := Z.to_nat (to_size limit)).
  set (vs := visited q maxDistance (getTreeDepth n) n).
  set (res := λ x, (default ""%string (tm !! x), levenshteinDistance q x)).
  exists (map res vs), (std_sort (λ a b, a.2 <? b.2) (take L (map res vs))). split_and!.
  - assert (searchNode (getTreeDepth n) q maxDistance limit tm n [] =
              Some (Ok (take L (map res vs)))) as ->.
    { rewrite searchNode_take; [|intros x; apply Hin|done]. cbn [app length].
      by rewrite Nat.sub_0_r. }
    cbv zeta. do 2 f_equal. set (r := std_sort _ _).
    assert (length r ≤ L) as Hr by (unfold r; rewrite std_sort_perm, length_take; lia).
    destruct (Z.ltb_spec (to_size limit) (Z.of_nat (length r))) as [Hl|]; [exfalso|done].
    assert (0 ≤ to_size limit)%Z by (apply Z.mod_pos_bound; done). unfold L in Hr. lia.
  - assert (vs ≡ₚ (filter (λ kv, Z.of_nat (levenshteinDistance q kv.1) ≤ maxDistance)%Z
                     (map_to_list tm)).*1) as Hvs.
    { apply NoDup_Permutation; [by apply NoDup_visited| |].
      - eapply sublist_NoDup; [apply (NoDup_fst_map_to_list tm)|]. apply fmap_sublist, sublist_filter.
      - intros x. unfold vs. rewrite (elem_of_visited q maxDistance _ n x) by done.
        rewrite Hin, list_elem_of_fmap. split.
        + intros [[oid Hx] Hle]. exists (x, oid).
          by rewrite list_elem_of_filter, elem_of_map_to_list.
        + intros ([x' oid] & -> & [Hle Hx%elem_of_map_to_list]%list_elem_of_filter). eauto. }
    change (map res vs) with (res <$> vs). rewrite Hvs, <- list_fmap_compose.
    match goal with |- ?a ≡ₚ ?b => assert (a = b) as ->; [|done] end. apply list_fmap_ext. intros i [x oid] Hx. unfold res. simpl.
    apply list_elem_of_lookup_2, list_elem_of_filter in Hx as [_ Hx%elem_of_map_to_list].
    by rewrite Hx.
  - apply std_sort_perm.
  - apply sorted_by_distance, std_sort_sorted, (strict_weak_key snd).
Qed.

Inductive matcher_op :=
| OpAddTerm (term objectId : string)
| OpAddTerms (terms : list (string * string))
| OpClear.

Definition run_matcher_op (m : FuzzyMatcher) (o : matcher_op) : option FuzzyMatcher :=
  match o with
  | OpAddTerm term oid => addTerm term oid m
  | OpAddTerms terms => addTerms terms m
  | OpClear => Some (clear m)
  end.

Fixpoint run_matcher_ops (ops : list matcher_op) (m : FuzzyMatcher) : option FuzzyMatcher :=
  match ops with
  | [] => Some m
  | o :: rest => run_matcher_op m o ≫= run_matcher_ops rest
  end.

(** The map the operations should leave: the first identifier of a term stays. *)
Definition spec_add (tm : gmap string string) (kv : string * string) : gmap string string :=
  match tm !! normalize kv.1 with Some _ => tm | None => <[normalize kv.1 := kv.2]> tm end.

Definition spec_op (tm : gmap string string) (o : matcher_op) : gmap string string :=
  match o with
  | OpAddTerm term oid => spec_add tm (term, oid)
  | OpAddTerms terms => fold_left spec_add terms tm
  | OpClear => ∅
  end.

Lemma addTerm_ok term oid m :
  matcher_ok m → ∃ m', addTerm term oid m = Some m' ∧ matcher_ok m'
                       ∧ termMap m' = spec_add (termMap m) (term, oid).
Proof.
  intros Hok. unfold addTerm, spec_add. cbn [fst snd].
  destruct (termMap m !! normalize term) eqn:E; [by exists m|]. by apply insert_term_ok.
Qed.

Lemma run_matcher_op_ok m o :
  matcher_ok m → ∃ m', run_matcher_op m o = Some m' ∧ matcher_ok m'
                       ∧ termMap m' = spec_op (termMap m) o.
Proof.
  intros Hok. destruct o as [term oid|terms|]; simpl; [by apply addTerm_ok| |by eexists].
  revert m Hok. induction terms as [|[term oid] terms IH]; intros m Hok; simpl; [by exists m|].
  destruct (addTerm_ok term oid m Hok) as (m1 & -> & Hok1 & <-). by apply IH.
Qed.

Lemma run_matcher_ops_ok ops m :
  matcher_ok m → ∃ m', run_matcher_ops ops m = Some m' ∧ matcher_ok m'
                       ∧ termMap m' = fold_left spec_op ops (termMap m).
Proof.
  revert m. induction ops as [|o ops IH]; intros m Hok; simpl; [by exists m|].
  destruct (run_matcher_op_ok m o Hok) as (m1 & -> & Hok1 & <-). by apply IH.
Qed.

(** After any operations, a fuzzy match returns the terms within the given
    edit distance of the query with their object identifiers and distances,
    sorted by distance: all of them when they are no more than the limit (a
    negative limit never binds), otherwise as many as the limit, which need not
    be the nearest ones.  Terms are compared in lower case, and the first
    identifier given for a term is the one that stays. *)
Theorem fuzzy_match_correct (ops : list matcher_op) (query : string) (maxDistance limit : Z) :
  let tm := fold_left spec_op ops ∅ in
  let hits := (λ '(term, oid), (oid, levenshteinDistance (normalize query) term)) <$>
    filter (λ kv, Z.of_nat (levenshteinDistance (normalize query) kv.1) ≤ maxDistance)%Z
      (map_to_list tm) in
  ∃ m met r, run_matcher_ops ops FuzzyMatcher_new = Some m ∧ termMap m = tm
    ∧ fuzzy_match m query maxDistance limit = Some (Ok r)
    ∧ met ≡ₚ hits ∧ r ≡ₚ take (Z.to_nat (to_size limit)) met
    ∧ StronglySorted (λ a b, a.2 ≤ b.2) r.
Proof.
  intros tm hits. destruct (run_matcher_ops_ok ops FuzzyMatcher_new) as (m & Hrun & Hok & Htm);
    [done|]. change (termMap FuzzyMatcher_new) with (∅ : gmap string string) in Htm. fold tm in Htm.
  destruct (fuzzy_match_spec m query maxDistance limit Hok) as (met & r & H).
  rewrite Htm in H. exists m, met, r. split; [done|]. split; [done|exact H].
Qed.
End search.

(** ** Examples *)

#[local] Existing Instance canonical_iter.
#[local] Existing Instance insertion_sort.

Definition demo_match (ops : list matcher_op) (query : string) (maxDistance limit : Z)
    : option (result exn (list MatchResult)) :=
  m ← run_matcher_ops ops FuzzyMatcher_new; fuzzy_match m query maxDistance limit.

(** The example of the class documentation: a transposition is two edits. *)
Example documented_example :
  demo_match [OpAddTerm "Andromeda" "M31"; OpAddTerm "Androemda" "M31_typo";
              OpAddTerm "Triangulum" "M33"] "Andromeda" 2 10
  = Some (Ok [("M31"%string, 0); ("M31_typo"%string, 2)]).
Proof. vm_compute. reflexivity. Qed.

(** The limit stops the search before the exact match is met. *)
Example limit_loses_the_nearest :
  demo_match [OpAddTerm "M31" "a"; OpAddTerm "M32" "b"] "M32" 1 1 = Some (Ok [("a"%string, 1)]).
Proof. vm_compute. reflexivity. Qed.

(** A negative limit does not bind; the first identifier of a term stays. *)
Example negative_limit :
  demo_match [OpAddTerm "M31" "a"; OpAddTerm "m31" "c"; OpAddTerm "M32" "b"] "m32" 1 (-1)
  = Some (Ok [("b"%string, 0); ("a"%string, 1)]).
Proof. vm_compute. reflexivity. Qed.
