(* ===== verification/Trie.v ===== *)
(** * Trie: the prefix index of the target library

    Models class TrieIndex of src/src/target/index/trie_index.hpp and
    trie_index.cpp: insertion, batch insertion, autocompletion with its limited
    depth-first search, and the node count.  A word is the list of its
    characters.  Left out: the singleton and its locks. *)

From S2P Require Import Prelude.

Abbreviation word := (list char).

(** The children by character and the end-of-word mark. *)
Inductive TrieNode := TNode (children : gmap char TrieNode) (isEndOfWord : bool).

Definition TrieNode_new : TrieNode := TNode ∅ false.

(** The walk of [insert], creating missing nodes, then the mark. *)
Fixpoint insert_word (w : word) (node : TrieNode) : TrieNode :=
  match w, node with
  | [], TNode ch _ => TNode ch true
  | c :: w', TNode ch e =>
      TNode (<[c := insert_word w' (default TrieNode_new (ch !! c))]> ch) e
  end.

Definition insertBatch (ws : list word) (node : TrieNode) : TrieNode :=
  fold_left (λ n w, insert_word w n) ws node.

(** The walk of [autocomplete] to the node of the prefix. *)
Fixpoint find_prefix (p : word) (node : TrieNode) : option TrieNode :=
  match p, node with
  | [], _ => Some node
  | c :: p', TNode ch _ => ch !! c ≫= find_prefix p'
  end.

Fixpoint subtreeSize (node : TrieNode) : nat :=
  match node with TNode ch _ => S (map_fold (λ _ c k, subtreeSize c + k) 0 ch) end.

(** The height, the fuel of the search. *)
Fixpoint trie_height (node : TrieNode) : nat :=
  match node with TNode ch _ => S (map_fold (λ _ c k, Nat.max (trie_height c) k) 0 ch) end.

Section search.
Context `{!HashIter char}.

(** The loop over the children; [prefix] is the word of their parent. *)
Fixpoint dfs_children (rec : TrieNode → word → list word → option (list word)) (limit : nat)
    (prefix : word) (cs : list (char * TrieNode)) (suggestions : list word)
    : option (list word) :=
  match cs with
  | [] => Some suggestions
  | (c, child) :: rest =>
      if limit <=? length suggestions then Some suggestions else
      match rec child (prefix ++ [c]) suggestions with
      | None => None
      | Some suggestions' => dfs_children rec limit prefix rest suggestions'
      end
  end.

Fixpoint dfs (fuel : nat) (limit : nat) (node : TrieNode) (prefix : word)
    (suggestions : list word) : option (list word) :=
  match fuel with
  | 0 => None
  | S fuel' =>
      if limit <=? length suggestions then Some suggestions else
      let 'TNode ch e := node in
      let suggestions := if e : bool then suggestions ++ [prefix] else suggestions in
      dfs_children (dfs fuel' limit) limit prefix (iter_map ch) suggestions
  end.

Definition autocomplete (root : TrieNode) (prefix : word) (limit : nat) : option (list word) :=
  match find_prefix prefix root with
  | None => Some []
  | Some node => dfs (trie_height node) limit node prefix []
  end.

(** * Properties *)

(** The words of a trie. *)
Definition has_word (node : TrieNode) (w : word) : Prop :=
  ∃ ch, find_prefix w node = Some (TNode ch true).

Lemma has_word_nil ch e : has_word (TNode ch e) [] ↔ e = true.
Proof. unfold has_word. simpl. naive_solver. Qed.

Lemma has_word_cons ch e c w :
  has_word (TNode ch e) (c :: w) ↔ ∃ child, ch !! c = Some child ∧ has_word child w.
Proof. unfold has_word. simpl. destruct (ch !! c); simpl; naive_solver. Qed.

Lemma has_word_new w : ¬ has_word TrieNode_new w.
Proof.
  unfold TrieNode_new. destruct w as [|c w]; [by rewrite has_word_nil|].
  rewrite has_word_cons. setoid_rewrite lookup_empty. naive_solver.
Qed.

Lemma has_word_insert w node x : has_word (insert_word w node) x ↔ x = w ∨ has_word node x.
Proof.
  revert node x. induction w as [|c w IH]; intros [ch e] x; cbn [insert_word].
  - destruct x as [|c' x]; rewrite ?has_word_nil, ?has_word_cons; naive_solver.
  - destruct x as [|c' x]; [rewrite !has_word_nil; naive_solver|]. rewrite !has_word_cons.
    destruct (decide (c = c')) as [->|Hc].
    + rewrite lookup_insert_eq. split.
      * intros (child & [= <-] & Hx%IH). destruct Hx as [->|Hx]; [by left|].
        destruct (ch !! c') as [n|]; simpl in *; [by eauto|]. by apply has_word_new in Hx.
      * intros [[= ->]|(n & Hn & Hx)]; eexists; (split; [done|]); apply IH; [by left|].
        right. by rewrite Hn.
    + rewrite lookup_insert_ne by done. naive_solver.
Qed.

Lemma has_word_app node p w :
  has_word node (p ++ w) ↔ ∃ n, find_prefix p node = Some n ∧ has_word n w.
Proof.
  revert node. induction p as [|c p IH]; intros [ch e]; simpl; [naive_solver|].
  rewrite has_word_cons. setoid_rewrite IH. destruct (ch !! c); simpl; naive_solver.
Qed.

Lemma height_child ch e c n : ch !! c = Some n → trie_height n < trie_height (TNode ch e).
Proof.
  intros H. simpl. rewrite <- (insert_id ch c n), <- insert_delete_eq by done.
  rewrite map_fold_insert_L; [lia|intros; lia|apply lookup_delete_eq].
Qed.

(** The words below a node in search order, without a limit. *)
Fixpoint all_words (fuel : nat) (node : TrieNode) (prefix : word) : list word :=
  match fuel with
  | 0 => []
  | S fuel' =>
      let 'TNode ch e := node in
      (if e : bool then [prefix] else [])
      ++ concat (map (λ '(c, n), all_words fuel' n (prefix ++ [c])) (iter_map ch))
  end.

Lemma elem_of_all_words fuel node p x :
  trie_height node ≤ fuel → x ∈ all_words fuel node p ↔ ∃ w, x = p ++ w ∧ has_word node w.
Proof.
  revert node p. induction fuel as [|fuel IH]; intros [ch e] p Hfuel; [simpl in Hfuel; lia|].
  cbn [all_words]. rewrite elem_of_app, elem_of_concat_map. split.
  - intros [Hx|([c n] & Hn%elem_of_iter_map & Hx)].
    + destruct e; [|by apply elem_of_nil in Hx]. apply list_elem_of_singleton in Hx as ->.
      exists []. by rewrite app_nil_r, has_word_nil.
    + pose proof (height_child ch e c n Hn). apply IH in Hx as (w & -> & Hw); [|lia].
      exists (c :: w). rewrite <- app_assoc, has_word_cons. eauto.
  - intros ([|c w] & -> & Hw).
    + apply has_word_nil in Hw as ->. left. rewrite app_nil_r. by left.
    + apply has_word_cons in Hw as (n & Hn & Hw). right. exists (c, n).
      rewrite elem_of_iter_map. split; [done|]. pose proof (height_child ch e c n Hn).
      apply IH; [lia|]. exists w. by rewrite <- app_assoc.
Qed.

Lemma NoDup_all_words fuel node p : trie_height node ≤ fuel → NoDup (all_words fuel node p).
Proof.
  revert node p. induction fuel as [|fuel IH]; intros [ch e] p Hfuel; [constructor|].
  assert (∀ c n x, (c, n) ∈ iter_map ch → x ∈ all_words fuel n (p ++ [c]) → ∃ w, x = p ++ c :: w)
    as Hbelow.
  { intros c n x Hn%elem_of_iter_map. pose proof (height_child ch e c n Hn).
    intros (w & -> & _)%elem_of_all_words; [|lia]. exists w. by rewrite <- app_assoc. }
  cbn [all_words]. apply NoDup_app. split_and!.
  - destruct e; [apply NoDup_singleton|constructor].
  - intros x Hx ([c n] & Hn & Hxn)%elem_of_concat_map.
    destruct (Hbelow c n x Hn Hxn) as [w ->]. destruct e; [|by apply elem_of_nil in Hx].
    apply list_elem_of_singleton in Hx. apply (f_equal length) in Hx.
    rewrite length_app in Hx. simpl in Hx. lia.
  - apply NoDup_concat_map.
    + rewrite iter_map_perm. apply NoDup_map_to_list.
    + intros [c n] Hn%elem_of_iter_map. apply IH. pose proof (height_child ch e c n Hn). lia.
    + intros [c n] [c' n'] x Hn Hn' Hx Hx'.
      destruct (Hbelow _ _ _ Hn Hx) as [w ->], (Hbelow _ _ _ Hn' Hx') as [w' Heq].
      simplify_eq. apply elem_of_iter_map in Hn, Hn'. by simplify_eq.
Qed.

Lemma dfs_take fuel limit node p acc :
  trie_height node ≤ fuel →
  dfs fuel limit node p acc = Some (acc ++ take (limit - length acc) (all_words fuel node p)).
Proof.
  revert node p acc. induction fuel as [|fuel IH]; intros [ch e] p acc Hfuel;
    [simpl in Hfuel; lia|]. cbn [dfs].
  destruct (Nat.leb_spec limit (length acc)) as [Hl|Hl].
  { by rewrite (proj2 (Nat.sub_0_le _ _)), take_0, app_nil_r. }
  assert (∀ cs acc, (∀ c n, (c, n) ∈ cs → ch !! c = Some n) →
    dfs_children (dfs fuel limit) limit p cs acc =
    Some (acc ++ take (limit - length acc)
                   (concat (map (λ '(c, n), all_words fuel n (p ++ [c])) cs)))) as Hcs.
  { clear acc Hl. induction cs as [|[c n] cs IHcs]; intros acc Hin; cbn [dfs_children].
    { simpl. by rewrite take_nil, app_nil_r. }
    destruct (Nat.leb_spec limit (length acc)) as [Hl|Hl].
    { by rewrite (proj2 (Nat.sub_0_le _ _)), take_0, app_nil_r. }
    assert (ch !! c = Some n) as Hn by (apply Hin; left).
    pose proof (height_child ch e c n Hn). rewrite IH by lia.
    rewrite IHcs by (intros; apply Hin; by right). cbn [map concat].
    rewrite <- app_assoc, take_app, length_app, length_take. do 3 f_equal. f_equal. lia. }
  cbv zeta. rewrite Hcs by by intros ?? ?%elem_of_iter_map. cbn [all_words]. f_equal.
  destruct e; [|done]. rewrite <- app_assoc, length_app. cbn [app length]. f_equal.
  replace (limit - length acc) with (S (limit - (length acc + 1))) by lia. done.
Qed.

(** ** The index *)

Inductive trie_op := OpInsert (w : word) | OpInsertBatch (ws : list word) | OpClear.

Definition run_trie_op (root : TrieNode) (o : trie_op) : TrieNode :=
  match o with
  | OpInsert w => insert_word w root
  | OpInsertBatch ws => insertBatch ws root
  | OpClear => TrieNode_new
  end.

(** The words the index should hold. *)
Definition spec_op (ws : gset (list char)) (o : trie_op) : gset (list char) :=
  match o with
  | OpInsert w => {[w]} ∪ ws
  | OpInsertBatch l => list_to_set l ∪ ws
  | OpClear => ∅
  end.

Lemma has_word_batch ws node x : has_word (insertBatch ws node) x ↔ x ∈ ws ∨ has_word node x.
Proof.
  unfold insertBatch. revert node. induction ws as [|w ws IH]; intros node; simpl; [set_solver|].
  rewrite IH, has_word_insert, elem_of_cons. tauto.
Qed.

Lemma run_trie_ops ops root ws :
  (∀ x, has_word root x ↔ x ∈ ws) →
  ∀ x, has_word (fold_left run_trie_op ops root) x ↔ x ∈ fold_left spec_op ops ws.
Proof.
  revert root ws. induction ops as [|o ops IH]; intros root ws H; simpl; [done|].
  apply IH. intros x. destruct o; simpl.
  - rewrite has_word_insert, H. set_solver.
  - rewrite has_word_batch, H. set_solver.
  - pose proof (has_word_new x). set_solver.
Qed.

(** Completion returns words of the trie below the prefix, as many as the limit
    allows. *)
Lemma autocomplete_words root prefix limit :
  ∃ found, autocomplete root prefix limit = Some (take limit found) ∧ NoDup found
    ∧ ∀ x, x ∈ found ↔ has_word root x ∧ prefix `prefix_of` x.
Proof.
  unfold autocomplete. destruct (find_prefix prefix root) as [node|] eqn:Hp.
  - exists (all_words (trie_height node) node prefix).
    rewrite dfs_take by done. cbn [app length]. rewrite Nat.sub_0_r.
    split_and!; [done|by apply NoDup_all_words|]. intros x.
    rewrite elem_of_all_words by done. split.
    + intros (w & -> & Hw). split; [apply has_word_app; eauto|]. by exists w.
    + intros [Hx [w ->]]. exists w. split; [done|].
      apply has_word_app in Hx as (n & Hn & Hw). by simplify_eq.
  - exists []. rewrite take_nil. split_and!; [done|constructor|]. intros x.
    split; [by intros ?%elem_of_nil|]. intros [Hx [w ->]].
    apply has_word_app in Hx as (n & Hn & _). by simplify_eq.
Qed.

(** After any insertions and clearings, autocompletion returns words of the
    index that start with the prefix, without repetition: all of them, or as
    many as the limit allows. *)
Theorem autocomplete_correct (ops : list trie_op) (prefix : word) (limit : nat) :
  let root := fold_left run_trie_op ops TrieNode_new in
  ∃ found, autocomplete root prefix limit = Some (take limit found) ∧ NoDup found
    ∧ ∀ x, x ∈ found ↔ x ∈ fold_left spec_op ops ∅ ∧ prefix `prefix_of` x.
Proof.
  intros root. assert (∀ x, has_word root x ↔ x ∈ fold_left spec_op ops ∅) as Hroot.
  { apply run_trie_ops. intros x. pose proof (has_word_new x). set_solver. }
  destruct (autocomplete_words root prefix limit) as (found & Hf & Hnd & Hx).
  exists found. split_and!; [done..|]. intros x. by rewrite Hx, Hroot.
Qed.
End search.

(** ** Examples *)

#[local] Existing Instance canonical_iter.

Example demo_autocomplete :
  autocomplete (insertBatch [chars "M31"; chars "M33"; chars "NGC1"; chars "M3"] TrieNode_new)
    (chars "M3") 10 = Some [chars "M3"; chars "M33"; chars "M31"].
Proof. vm_compute. reflexivity. Qed.

(** The node count includes the root: a cleared index has size 1, and the
    documented example "cat" and "car" has five nodes. *)
Example documented_sizes :
  subtreeSize TrieNode_new = 1
  ∧ subtreeSize (insertBatch [chars "cat"; chars "car"] TrieNode_new) = 5.
Proof. vm_compute. done. Qed.
