(* ===== verification/Loader.v ===== *)
(** * Loader: the module loader

    Models class ModuleLoader of src/src/components/core/loader.hpp and
    loader.cpp on top of the dependency graph: the table of modules, the checks
    of a module file (the ELF branch), loading, unloading, enabling, reloading
    and the bulk operations.  The shared mutex is part of the state, because the
    methods lock it again through the methods they call.  The file system, the
    hash and the dynamic linker are parameters.  Tasks of the thread pool run to
    completion in the order they are queued.  Left out: the template methods
    that create instances, buildDependencyGraph (nothing calls it), times, and
    the size of the thread pool. *)

From S2P Require Import Prelude Version DependencyGraph.

Inductive ModuleStatus := UNLOADED | LOADING | LOADED | ERROR.

Record ModuleInfo := mkModuleInfo {
  mi_name : string;
  mi_path : string;
  mi_enabled : bool;
  mLibrary : bool;                               (* the library pointer is set *)
  mi_hash : Z;
  currentStatus : ModuleStatus;
  mi_priority : Z;
  functionCalls : Z;
  loadCount : Z;
  failureCount : Z
}.

#[export] Instance ModuleInfo_eta : Eta ModuleInfo := λ m,
  mkModuleInfo (mi_name m) (mi_path m) (mi_enabled m) (mLibrary m) (mi_hash m)
    (currentStatus m) (mi_priority m) (functionCalls m) (loadCount m) (failureCount m).

(** How the calling thread holds [sharedMutex_]. *)
Inductive ownership := Free | Shared | Exclusive.

Record ModuleLoader := mkModuleLoader {
  modules : gmap string ModuleInfo;
  dependencyGraph : DependencyGraph;
  owner : ownership
}.

#[export] Instance ModuleLoader_eta : Eta ModuleLoader := λ l,
  mkModuleLoader (modules l) (dependencyGraph l) (owner l).

Definition ModuleLoader_new : ModuleLoader := mkModuleLoader ∅ DependencyGraph_new Free.

(** The texts of std::unexpected. *)
Inductive load_error :=
| EmptyName
| AlreadyLoaded (name : string)
| FileNotFound (path : string)
| IntegrityFailed (path : string)
| Exception (what : string)
| HasDependents (names : list string)
| NotLoaded (name : string)
| NotFound (name : string)
| DependenciesNotSatisfied (name : string)
| AlreadyEnabled (name : string)
| AlreadyDisabled (name : string)
| RequiredBy (names : list string)
| UnloadFailed (e : load_error)
| NegativePriority
| CircularDependencies
| LoadFailed (names : list string)
| NoFunction (name : string).

(** ** Runs of a method

    A method returns, or locks the mutex its own thread already holds ([Relock]:
    undefined behaviour of std::shared_mutex, so nothing is said of what follows),
    or a graph search runs out of fuel. *)

Inductive outcome (A : Type) := Done (l : ModuleLoader) (a : A) | Relock | OutOfFuel.
Arguments Done {A} l a.
Arguments Relock {A}.
Arguments OutOfFuel {A}.

Definition M (A : Type) : Type := ModuleLoader → outcome A.

#[export] Instance M_ret : MRet M := λ A a l, Done l a.
#[export] Instance M_bind : MBind M := λ A B k m l,
  match m l with
  | Done l' a => k a l'
  | Relock => Relock
  | OutOfFuel => OutOfFuel
  end.
Definition gets {A} (f : ModuleLoader → A) : M A := λ l, Done l (f l).
Definition modify (f : ModuleLoader → ModuleLoader) : M unit := λ l, Done (f l) tt.
(** A search that may run out of fuel. *)
Definition fueled {A} (f : ModuleLoader → option A) : M A := λ l,
  match f l with Some a => Done l a | None => OutOfFuel end.

(** What the file system holds at a path. *)
Record file := mkFile { contents : list Z; readable : bool }.

Section loader.
Context `{!HashIter string} {sorter : StdSort}.
Variables (fs : string → option file)            (* the file system *)
          (computeHash : string → Z)             (* of a file, 0 on an exception *)
          (open_library : string → option string)  (* the text of the exception it throws *)
          (has_symbol : string → string → bool)  (* of the library at a path *)
          (uninitialized : Z).                   (* what loadCount and failureCount start from *)

Definition release {A} (before : ownership) (r : outcome A) : outcome A :=
  match r with Done l a => Done (l <| owner := before |>) a | r => r end.

(** A [std::unique_lock] in scope around [body]. *)
Definition with_unique {A} (body : M A) : M A := λ l,
  match owner l with
  | Free => release Free (body (l <| owner := Exclusive |>))
  | Shared | Exclusive => Relock
  end.

(** A [std::shared_lock] in scope around [body]. *)
Definition with_shared {A} (body : M A) : M A := λ l,
  match owner l with
  | Free => release Free (body (l <| owner := Shared |>))
  | Shared | Exclusive => Relock
  end.

(** ** Queries *)

Definition hasModule (name : string) : M bool :=
  if str_empty name then mret false else
  with_shared (gets (λ l, bool_decide (is_Some (modules l !! name)))).

Definition getModule (name : string) : M (option ModuleInfo) :=
  if str_empty name then mret None else
  with_shared (gets (λ l, modules l !! name)).

Definition isModuleEnabled (name : string) : M bool :=
  if str_empty name then mret false else
  with_shared
    (md ← getModule name;
     mret (match md with Some m => mi_enabled m | None => false end)).

Definition getAllExistedModules : M (list string) :=
  with_shared (gets (λ l, std_sort str_ltb (iter_keys (modules l)))).

Definition hasFunction (name functionName : string) : M bool :=
  if str_empty name || str_empty functionName then mret false else
  with_shared (gets (λ l,
    match modules l !! name with
    | None => false
    | Some m => mLibrary m && has_symbol (mi_path m) functionName
    end)).

Definition getModuleStatus (name : string) : M ModuleStatus :=
  with_shared
    (md ← getModule name;
     mret (match md with Some m => currentStatus m | None => UNLOADED end)).

Definition getModuleByHash (hash : Z) : M (option ModuleInfo) :=
  with_shared (gets (λ l,
    snd <$> List.find (λ kv, (mi_hash kv.2 =? hash)%Z) (iter_map (modules l)))).

Definition validateModule (name : string) : M bool :=
  if str_empty name then mret false else
  fueled (λ l, validateDependencies (dependencyGraph l) name).

Definition getModuleDependencies (name : string) : M (list string) :=
  if str_empty name then mret [] else
  gets (λ l, getDependencies (dependencyGraph l) name).

(** [ModuleInfo] is shared: a change of it is a change of the table. *)
Definition update_module (name : string) (f : ModuleInfo → ModuleInfo) : M unit :=
  modify (λ l, l <| modules ::= alter f name |>).

Definition updateModuleStatistics (name : string) : M unit :=
  update_module name (λ m, m <| functionCalls ::= (λ n, n + 1)%Z |>).

Definition getFunction (name functionName : string) : M (result load_error unit) :=
  with_shared
    (md ← gets (λ l, modules l !! name);
     match md with
     | None => mret (Throw (NotFound name))
     | Some m =>
         if has_symbol (mi_path m) functionName
         then updateModuleStatistics name;; mret (Ok tt)
         else mret (Throw (NoFunction functionName))
     end).

(** ** Loading and unloading *)

(** The ELF signature is 0x7F, E, L, F. *)
Definition verifyModuleIntegrity (path : string) : bool :=
  match fs path with
  | None => false
  | Some f =>
      match contents f with
      | [] => false
      | bytes =>
          readable f &&
          match bytes with
          | b0 :: b1 :: b2 :: b3 :: _ =>
              (b0 =? 127)%Z && (b1 =? 69)%Z && (b2 =? 76)%Z && (b3 =? 70)%Z
          | _ => false
          end
      end
  end.

Definition new_module (path name : string) : ModuleInfo :=
  mkModuleInfo name path true true (computeHash path) LOADED 0 0 uninitialized uninitialized.

Definition loadModule (path name : string) : M (result load_error bool) :=
  if str_empty name || str_empty path then mret (Throw EmptyName) else
  with_unique
    (loaded ← hasModule name;
     if loaded : bool then mret (Throw (AlreadyLoaded name)) else
     if bool_decide (fs path = None) then mret (Throw (FileNotFound path)) else
     if negb (verifyModuleIntegrity path) then mret (Throw (IntegrityFailed path)) else
     match open_library path with
     | Some what => mret (Throw (Exception what))
     | None =>
         g ← gets (λ l, addNode name (Version3 0 0 0) (dependencyGraph l));
         match g with
         | Throw _ => mret (Throw (Exception "invalid argument"))
         | Ok g' =>
             modify (λ l, l <| dependencyGraph := g' |>
                               <| modules ::= <[name := new_module path name]> |>);;
             updateModuleStatistics name;;
             mret (Ok true)
         end
     end).

Definition unloadModule (name : string) : M (result load_error bool) :=
  if str_empty name then mret (Throw EmptyName) else
  with_unique
    (md ← gets (λ l, modules l !! name);
     match md with
     | None => mret (Throw (NotLoaded name))
     | Some _ =>
         dependents ← gets (λ l, getDependents (dependencyGraph l) name);
         match dependents with
         | _ :: _ => mret (Throw (HasDependents dependents))
         | [] =>
             modify (λ l, l <| dependencyGraph ::= removeNode name |>
                               <| modules ::= delete name |>);;
             mret (Ok true)
         end
     end).

(** The libraries are released in reverse order before the table is cleared. *)
Definition unloadAllModules : M (result load_error bool) :=
  with_unique
    (sorted ← fueled (λ l, topologicalSort (dependencyGraph l));
     match sorted with
        | None => mret tt
        | Some names =>
            modify (λ l, l <| modules ::= (λ ms,
              fold_left (λ ms n, alter (λ m, m <| mLibrary := false |>) n ms) (reverse names) ms) |>)
        end;;
     modify (λ l, l <| modules := ∅ |> <| dependencyGraph ::= DependencyGraph.clear |>);;
     mret (Ok true)).

(** The lock is released before unloading. *)
Definition reloadModule (name : string) : M (result load_error bool) :=
  if str_empty name then mret (Throw EmptyName) else
  md ← with_unique (getModule name);
  match md with
  | None => mret (Throw (NotFound name))
  | Some m =>
      unloaded ← unloadModule name;
      match unloaded with
      | Throw e => mret (Throw (UnloadFailed e))
      | Ok _ => loadModule (mi_path m) name
      end
  end.

(** ** Enabling *)

Definition enableModule (name : string) : M (result load_error bool) :=
  if str_empty name then mret (Throw EmptyName) else
  with_unique
    (md ← getModule name;
     match md with
     | None => mret (Throw (NotFound name))
     | Some m =>
         if mi_enabled m then mret (Throw (AlreadyEnabled name)) else
         valid ← validateModule name;
         if negb valid then mret (Throw (DependenciesNotSatisfied name)) else
         update_module name (λ m, m <| mi_enabled := true |> <| currentStatus := LOADED |>);;
         mret (Ok true)
     end).

(** The enabled ones among [names]. *)
Fixpoint filter_enabled (names : list string) : M (list string) :=
  match names with
  | [] => mret []
  | n :: rest =>
      e ← isModuleEnabled n;
      l ← filter_enabled rest;
      mret (if e : bool then n :: l else l)
  end.

Definition disableModule (name : string) : M (result load_error bool) :=
  if str_empty name then mret (Throw EmptyName) else
  with_unique
    (md ← getModule name;
     match md with
     | None => mret (Throw (NotFound name))
     | Some m =>
         if negb (mi_enabled m) then mret (Throw (AlreadyDisabled name)) else
         dependents ← gets (λ l, getDependents (dependencyGraph l) name);
         enabledDependents ← filter_enabled dependents;
         match enabledDependents with
         | _ :: _ => mret (Throw (RequiredBy enabledDependents))
         | [] =>
             update_module name (λ m, m <| mi_enabled := false |> <| currentStatus := LOADED |>);;
             mret (Ok true)
         end
     end).

Definition setModulePriority (name : string) (priority : Z) : M (result load_error bool) :=
  if str_empty name then mret (Throw EmptyName) else
  if (priority <? 0)%Z then mret (Throw NegativePriority) else
  with_unique
    (md ← getModule name;
     match md with
     | None => mret (Throw (NotFound name))
     | Some _ =>
         update_module name (λ m, m <| mi_priority := priority |>);;
         mret (Ok true)
     end).

(** ** Bulk loading *)

(** The task of the thread pool: the load, then the statistics. *)
Definition loadModuleAsync (path name : string) : M (result load_error bool) :=
  r ← loadModule path name;
  with_unique
       (md ← getModule name;
        match md with
        | None => mret tt
        | Some _ =>
            update_module name (λ m,
              if is_ok r then m <| loadCount ::= (λ n, to_size (n + 1)) |>
              else m <| failureCount ::= (λ n, to_size (n + 1)) |>)
        end);;
  mret r.

(** The nodes added before the tasks start.  [addNode] may throw, with the nodes
    so far added. *)
Fixpoint add_nodes (ms : list (string * string)) (g : DependencyGraph)
    : DependencyGraph * result exn unit :=
  match ms with
  | [] => (g, Ok tt)
  | (_, name) :: rest =>
      match getDependencies g name with
      | [] => match addNode name (Version3 0 0 0) g with
              | Ok g' => add_nodes rest g'
              | Throw e => (g, Throw e)
              end
      | _ :: _ => add_nodes rest g
      end
  end.

Fixpoint run_tasks (ms : list (string * string)) : M (list (result load_error bool)) :=
  match ms with
  | [] => mret []
  | (path, name) :: rest =>
      r ← loadModuleAsync path name;
      rs ← run_tasks rest;
      mret (r :: rs)
  end.

Definition loadModulesAsync (ms : list (string * string))
    : M (result exn (list (result load_error bool))) :=
  added ← with_unique
                (gr ← gets (λ l, add_nodes ms (dependencyGraph l));
                 modify (λ l, l <| dependencyGraph := gr.1 |>);;
                 mret gr.2);
  match added with
  | Throw e => mret (Throw e)
  | Ok _ => rs ← run_tasks ms; mret (Ok rs)
  end.

(** The loaded modules among [names] with their paths. *)
Fixpoint modules_to_load (names : list string) : M (list (string * string)) :=
  match names with
  | [] => mret []
  | n :: rest =>
      md ← getModule n;
      l ← modules_to_load rest;
      mret (match md with Some m => (mi_path m, n) :: l | None => l end)
  end.

Definition loadModulesInOrder : M (result load_error bool) :=
  sorted ← fueled (λ l, topologicalSort (dependencyGraph l));
  match sorted with
  | None => mret (Throw CircularDependencies)
  | Some names =>
      ms ← with_shared (modules_to_load names);
      rs ← loadModulesAsync ms;
      match rs with
      | Throw _ => mret (Throw (Exception "invalid argument"))
      | Ok rs =>
          match (filter (λ mr, is_ok mr.2 = false) (zip ms rs)).*1.*2 with
          | [] => mret (Ok true)
          | failed => mret (Throw (LoadFailed failed))
          end
      end
  end.

(** * Properties *)

(** ** Reasoning about runs

    From a state where [P] holds, [m] returns with [Q] or locks twice; no search
    runs out of fuel. *)
Definition triple {A} (P : ModuleLoader → Prop) (m : M A) (Q : ModuleLoader → A → Prop) : Prop :=
  ∀ l, P l → match m l with Done l' a => Q l' a | Relock => True | OutOfFuel => False end.

(** [m] keeps [I]. *)
Abbreviation keeps I m := (triple I%function m (λ l _, I%function l)).

Lemma keeps_ret {A} I (a : A) : keeps I (mret a).
Proof. by intros l Hl. Qed.

Lemma triple_bind {A B} P (m : M A) (k : A → M B) R Q :
  triple P m R → (∀ a, triple (λ l, R l a) (k a) Q) → triple P (m ≫= k) Q.
Proof.
  intros Hm Hk l Hl. specialize (Hm l Hl). unfold mbind, M_bind. destruct (m l); [|done..].
  by apply (Hk a).
Qed.

(** Sequencing around one invariant. *)
Lemma keeps_bind {A B} I (m : M A) (k : A → M B) : keeps I m → (∀ a, keeps I (k a)) → keeps I (m ≫= k).
Proof. apply triple_bind. Qed.

Lemma keeps_gets {A} I (f : ModuleLoader → A) : keeps I (gets f).
Proof. by intros l Hl. Qed.

Lemma keeps_modify (I : ModuleLoader → Prop) f : (∀ l, I l → I (f l)) → keeps I (modify f).
Proof. intros Hf l Hl. by apply Hf. Qed.

Lemma keeps_fueled {A} (I : ModuleLoader → Prop) (f : ModuleLoader → option A) :
  (∀ l, I l → is_Some (f l)) → keeps I (fueled f).
Proof. intros Hf l Hl. unfold fueled. by destruct (Hf l Hl) as [a ->]. Qed.

(** ** The operations *)

Inductive loader_op :=
| OpLoad (path name : string)
| OpUnload (name : string)
| OpUnloadAll
| OpReload (name : string)
| OpEnable (name : string)
| OpDisable (name : string)
| OpSetModulePriority (name : string) (priority : Z)
| OpGetFunction (name functionName : string)
| OpLoadAsync (ms : list (string * string))
| OpLoadInOrder
| OpIsEnabled (name : string)
| OpGetStatus (name : string).

Definition run_loader_op (o : loader_op) : M unit :=
  match o with
  | OpLoad p n => loadModule p n;; mret tt
  | OpUnload n => unloadModule n;; mret tt
  | OpUnloadAll => unloadAllModules;; mret tt
  | OpReload n => reloadModule n;; mret tt
  | OpEnable n => enableModule n;; mret tt
  | OpDisable n => disableModule n;; mret tt
  | OpSetModulePriority n p => setModulePriority n p;; mret tt
  | OpGetFunction n f => getFunction n f;; mret tt
  | OpLoadAsync ms => loadModulesAsync ms;; mret tt
  | OpLoadInOrder => loadModulesInOrder;; mret tt
  | OpIsEnabled n => isModuleEnabled n;; mret tt
  | OpGetStatus n => getModuleStatus n;; mret tt
  end.

Fixpoint run_loader_ops (ops : list loader_op) : M unit :=
  match ops with
  | [] => mret tt
  | o :: rest => run_loader_op o;; run_loader_ops rest
  end.

(** ** What every run keeps

    No module, and a graph without dependencies (nothing calls
    [buildDependencyGraph]). *)
Definition no_deps (g : DependencyGraph) : Prop :=
  (∀ k s, adjList g !! k = Some s → s = ∅) ∧ ∀ k s, incomingEdges g !! k = Some s → s = ∅.

Definition idle (o : ownership) (l : ModuleLoader) : Prop :=
  modules l = ∅ ∧ no_deps (dependencyGraph l) ∧ owner l = o.

Lemma no_edges g a b : no_deps g → ¬ depends g a b.
Proof.
  intros [Hadj _]. unfold depends, neighbors_of. destruct (adjList g !! a) eqn:E; simpl;
    [rewrite (Hadj _ _ E)|]; set_solver.
Qed.

Lemma try_emplace_values (n k : string) m s :
  (∀ k s, m !! k = Some s → s = ∅) → try_emplace n m !! k = Some s → s = ∅.
Proof.
  intros Hm. unfold try_emplace. destruct (m !! n) eqn:E; [apply Hm|].
  rewrite lookup_insert_Some. intros [[_ <-]|[_ ?]]; [done|by eapply Hm].
Qed.

Lemma addNode_no_deps g g' n v : no_deps g → addNode n v g = Ok g' → no_deps g'.
Proof.
  intros [H1 H2]. unfold addNode. destruct (str_empty n); [done|]. intros [= <-].
  split; intros k s; cbn; by apply try_emplace_values.
Qed.

Lemma removed_values (n k : string) (m : gmap string (gset string)) s :
  (∀ k s, m !! k = Some s → s = ∅) →
  ((λ x : gset string, x ∖ {[n]}) <$> delete n m) !! k = Some s → s = ∅.
Proof.
  intros Hm. rewrite lookup_fmap, fmap_Some.
  intros (x & [_ Hx]%lookup_delete_Some & ->). apply Hm in Hx as ->. set_solver.
Qed.

Lemma removeNode_no_deps g n : no_deps g → no_deps (removeNode n g).
Proof. intros [H1 H2]. split; intros k s; cbn; by apply removed_values. Qed.

Lemma clear_no_deps g : no_deps (DependencyGraph.clear g).
Proof. by split; intros k s; cbn; rewrite lookup_empty. Qed.

Lemma add_nodes_no_deps ms g : no_deps g → no_deps (add_nodes ms g).1.
Proof.
  revert g. induction ms as [|[p n] ms IH]; intros g Hg; simpl; [done|].
  destruct (getDependencies g n); [|by apply IH].
  destruct (addNode n (Version3 0 0 0) g) as [g'|e] eqn:E; [|done].
  by eapply IH, addNode_no_deps.
Qed.

Lemma str_empty_false (s : string) : s ≠ ""%string → str_empty s = false.
Proof. by destruct s. Qed.

Ltac keep := first
  [ apply keeps_bind; [|intros ?] | apply keeps_ret | apply keeps_gets
  | by apply keeps_modify; intros ? (? & ? & ?); split_and! ].

Lemma keeps_with_unique {A} (body : M A) : keeps (idle Exclusive) body → keeps (idle Free) (with_unique body).
Proof.
  intros Hb l (Hm & Hg & Ho). unfold with_unique. rewrite Ho.
  specialize (Hb (l <| owner := Exclusive |>)).
  destruct (body (l <| owner := Exclusive |>)) as [l' a| |]; simpl; [|by apply Hb..].
  destruct Hb as (? & ? & _); [by split_and!|]. by split_and!.
Qed.

Lemma keeps_with_shared {A} o (body : M A) : keeps (idle Shared) body → keeps (idle o) (with_shared body).
Proof.
  intros Hb l (Hm & Hg & Ho). unfold with_shared. rewrite Ho. destruct o; [|done..].
  specialize (Hb (l <| owner := Shared |>)).
  destruct (body (l <| owner := Shared |>)) as [l' a| |]; simpl; [|by apply Hb..].
  destruct Hb as (? & ? & _); [by split_and!|]. by split_and!.
Qed.

Lemma keeps_update o n f : keeps (idle o) (update_module n f).
Proof.
  apply keeps_modify. intros l (Hm & Hg & Ho). split_and!; [|done..]. cbn. rewrite Hm.
  apply map_eq. intros k. destruct (decide (n = k)) as [->|];
    [by rewrite lookup_alter_eq, lookup_empty|by rewrite lookup_alter_ne].
Qed.

(** A lock held by the thread itself: [getModule] and [hasModule] lock again. *)
Lemma getModule_relock {A} n (k : option ModuleInfo → M A) l :
  n ≠ ""%string → owner l ≠ Free → (getModule n ≫= k) l = Relock.
Proof.
  intros Hn Ho. unfold mbind, M_bind, getModule, with_shared. rewrite (str_empty_false n Hn).
  by destruct (owner l).
Qed.

Lemma unique_getModule {A} n (k : option ModuleInfo → M A) l :
  n ≠ ""%string → owner l = Free → with_unique (getModule n ≫= k) l = Relock.
Proof. intros Hn Ho. unfold with_unique. rewrite Ho. by rewrite getModule_relock. Qed.

Lemma loadModule_relock p n l :
  n ≠ ""%string → p ≠ ""%string → owner l = Free → loadModule p n l = Relock.
Proof.
  intros Hn Hp Ho. unfold loadModule. rewrite !str_empty_false by done. simpl.
  unfold with_unique. rewrite Ho. unfold mbind, M_bind, hasModule, with_shared.
  by rewrite str_empty_false.
Qed.

Lemma keeps_getModule o n : keeps (idle o) (getModule n).
Proof. unfold getModule. destruct (str_empty n); [keep|]. apply keeps_with_shared. keep. Qed.

Lemma keeps_isModuleEnabled o n : keeps (idle o) (isModuleEnabled n).
Proof.
  unfold isModuleEnabled. destruct (str_empty n); [keep|]. apply keeps_with_shared.
  keep; [apply keeps_getModule|keep].
Qed.

(** The methods that look for the module under the exclusive lock. *)
Lemma keeps_unique_getModule {A} n (k : option ModuleInfo → M A) :
  n ≠ ""%string → keeps (idle Free) (with_unique (getModule n ≫= k)).
Proof. intros Hn l (_ & _ & Ho). by rewrite unique_getModule. Qed.

Lemma str_empty_spec (s : string) : if str_empty s then s = ""%string else s ≠ ""%string.
Proof. by destruct s. Qed.

Ltac named n := pose proof (str_empty_spec n); destruct (str_empty n); [keep|].

Lemma keeps_loadModule p n : keeps (idle Free) (loadModule p n).
Proof.
  destruct (decide (n = ""%string)) as [->|Hn]; [unfold loadModule; cbn; keep|].
  destruct (decide (p = ""%string)) as [->|Hp]; [unfold loadModule; rewrite orb_true_r; keep|].
  intros l (_ & _ & Ho). by rewrite loadModule_relock.
Qed.

Lemma keeps_unloadModule n : keeps (idle Free) (unloadModule n).
Proof.
  unfold unloadModule. named n. apply keeps_with_unique.
  keep; [keep|]. destruct a; [|keep]. keep; [keep|]. destruct a; [|keep].
  keep; [|keep]. apply keeps_modify. intros l (Hm & Hg & Ho). split_and!; [|by apply removeNode_no_deps|done].
  cbn. by rewrite Hm, delete_empty.
Qed.

Lemma keeps_unloadAllModules : keeps (idle Free) unloadAllModules.
Proof.
  unfold unloadAllModules. apply keeps_with_unique. keep.
  { apply keeps_fueled. intros l (_ & Hg & _).
    destruct (topologicalSort_total (dependencyGraph l)) as (? & -> & _); [|by eexists].
    intros a b Hab. by destruct (no_edges _ a b Hg). }
  apply triple_bind with (R := λ l _, owner l = Exclusive).
  { by destruct a as [names|]; intros l (Hm & Hg & Ho). }
  intros _ l Ho. simpl. split_and!; [done|apply clear_no_deps|done].
Qed.

Lemma keeps_reloadModule n : keeps (idle Free) (reloadModule n).
Proof.
  unfold reloadModule. named n. keep; [apply keeps_with_unique, keeps_getModule|]. destruct a as [m|]; [|keep].
  keep; [apply keeps_unloadModule|]. destruct a; [|keep]. apply keeps_loadModule.
Qed.

Lemma keeps_setModulePriority n p : keeps (idle Free) (setModulePriority n p).
Proof. unfold setModulePriority. named n. destruct (_ <? _)%Z; [keep|]. by apply keeps_unique_getModule. Qed.

Lemma keeps_getFunction n f : keeps (idle Free) (getFunction n f).
Proof.
  unfold getFunction. apply keeps_with_shared. keep; [keep|]. destruct a as [m|]; [|keep].
  destruct (has_symbol _ _); [|keep]. keep; [|keep]. apply keeps_update.
Qed.

Lemma keeps_loadModuleAsync p n : keeps (idle Free) (loadModuleAsync p n).
Proof.
  unfold loadModuleAsync. keep; [apply keeps_loadModule|]. keep; [|keep].
  apply keeps_with_unique. keep; [apply keeps_getModule|]. destruct a0 as [m|]; [|keep]. apply keeps_update.
Qed.

Lemma keeps_run_tasks ms : keeps (idle Free) (run_tasks ms).
Proof.
  induction ms as [|[p n] ms IH]; simpl; [keep|]. keep; [apply keeps_loadModuleAsync|].
  keep; [exact IH|keep].
Qed.

Lemma keeps_loadModulesAsync ms : keeps (idle Free) (loadModulesAsync ms).
Proof.
  unfold loadModulesAsync. keep.
  - apply keeps_with_unique. intros l (Hm & Hg & Ho). cbn. split_and!; [done|by apply add_nodes_no_deps|done].
  - destruct a; [|keep]. keep; [apply keeps_run_tasks|keep].
Qed.

Lemma keeps_modules_to_load o ns : keeps (idle o) (modules_to_load ns).
Proof.
  induction ns as [|n ns IH]; simpl; [keep|]. keep; [apply keeps_getModule|].
  keep; [exact IH|keep].
Qed.

Lemma keeps_loadModulesInOrder : keeps (idle Free) loadModulesInOrder.
Proof.
  unfold loadModulesInOrder. keep.
  { apply keeps_fueled. intros l (_ & Hg & _).
    destruct (topologicalSort_total (dependencyGraph l)) as (? & -> & _); [|by eexists].
    intros a b Hab. by destruct (no_edges _ a b Hg). }
  destruct a as [ns|]; [|keep]. keep; [apply keeps_with_shared, keeps_modules_to_load|].
  keep; [apply keeps_loadModulesAsync|]. destruct a0; [|keep]. destruct (_.*2); keep.
Qed.

Lemma keeps_run_op o : keeps (idle Free) (run_loader_op o).
Proof.
  destruct o; (keep; [|keep]);
    auto using keeps_loadModule, keeps_unloadModule, keeps_unloadAllModules, keeps_reloadModule,
      keeps_setModulePriority, keeps_getFunction, keeps_loadModulesAsync, keeps_loadModulesInOrder, keeps_isModuleEnabled.
  - unfold enableModule. named name. by apply keeps_unique_getModule.
  - unfold disableModule. named name. by apply keeps_unique_getModule.
  - apply keeps_with_shared. keep; [apply keeps_getModule|keep].
Qed.

Lemma keeps_run_ops ops : keeps (idle Free) (run_loader_ops ops).
Proof.
  induction ops as [|o ops IH]; simpl; [keep|]. keep; [apply keeps_run_op|exact IH].
Qed.

Lemma new_idle : idle Free ModuleLoader_new.
Proof. by split_and!; [|split; intros *; cbn; rewrite ?lookup_empty|]. Qed.

(** What the methods answer where there is no module. *)
Lemma owner_id l : owner l = Free → l <| owner := Exclusive |> <| owner := Free |> = l.
Proof. destruct l. simpl. by intros ->. Qed.

Lemma unloadModule_idle n l :
  idle Free l → unloadModule n l = Done l (Throw (if str_empty n then EmptyName else NotLoaded n)).
Proof.
  intros (Hm & _ & Ho). unfold unloadModule. destruct (str_empty n); [done|]. unfold with_unique. rewrite Ho.
  cbv [mbind M_bind gets]. change (modules (l <| owner := Exclusive |>)) with (modules l). rewrite Hm, lookup_empty.
  cbn. by rewrite owner_id.
Qed.

Lemma unloadAllModules_idle l :
  idle Free l → ∃ l', unloadAllModules l = Done l' (Ok true) ∧ idle Free l'.
Proof.
  intros Hl. pose proof (keeps_unloadAllModules l Hl) as H. destruct Hl as (Hm & Hg & Ho).
  destruct (topologicalSort_total (dependencyGraph l)) as (names & Hs & _).
  { intros a b Hab. by destruct (no_edges _ a b Hg). }
  unfold unloadAllModules, with_unique, fueled, modify in *. rewrite Ho in *. cbv [mbind M_bind] in *.
  change (dependencyGraph (l <| owner := Exclusive |>)) with (dependencyGraph l) in *.
  rewrite Hs in *. eexists. split; [reflexivity|exact H].
Qed.

(** [loadModule] holds the mutex exclusively while [hasModule] locks it again, and
    the mutex is a plain std::shared_mutex.  So no sequence of operations that
    stays clear of that ever loads a module; afterwards every call of loadModule
    with a name and a path locks twice, so does every call of the methods that
    look for a module under a lock, and a module is neither found nor unloaded. *)
Theorem module_loader_self_locks (ops : list loader_op) (l : ModuleLoader) :
  run_loader_ops ops ModuleLoader_new = Done l tt →
  modules l = ∅ ∧ owner l = Free
  ∧ (∀ name path, loadModule path name l =
       if decide (name = ""%string ∨ path = ""%string) then Done l (Throw EmptyName) else Relock)
  ∧ (∀ name, unloadModule name l = Done l (Throw (if str_empty name then EmptyName else NotLoaded name)))
  ∧ (∀ name, name ≠ ""%string →
       reloadModule name l = Relock ∧ enableModule name l = Relock ∧ disableModule name l = Relock
       ∧ isModuleEnabled name l = Relock ∧ getModuleStatus name l = Relock
       ∧ ∀ p, (0 ≤ p)%Z → setModulePriority name p l = Relock)
  ∧ ∃ l', unloadAllModules l = Done l' (Ok true).
Proof.
  intros Hrun. pose proof (keeps_run_ops ops ModuleLoader_new new_idle) as Hl. rewrite Hrun in Hl.
  pose proof Hl as (Hm & Hg & Ho). split_and!; [done..| | | |].
  - intros n p. case_decide as Hnp; [|by apply loadModule_relock; naive_solver].
    unfold loadModule. destruct Hnp as [-> | ->]; [done|by rewrite orb_true_r].
  - intros n. by apply unloadModule_idle.
  - intros n Hn. pose proof (str_empty_false n Hn) as Hne.
    unfold reloadModule, enableModule, disableModule, isModuleEnabled, getModuleStatus. rewrite Hne.
    split_and!; try (by apply unique_getModule).
    + unfold mbind at 1, M_bind at 1, with_unique, getModule, with_shared. rewrite Ho, Hne. done.
    + unfold with_shared at 1. rewrite Ho. by rewrite getModule_relock.
    + unfold with_shared at 1. rewrite Ho. by rewrite getModule_relock.
    + intros p Hp. unfold setModulePriority. rewrite Hne, (proj2 (Z.ltb_ge p 0) Hp). by apply unique_getModule.
  - destruct (unloadAllModules_idle l Hl) as (l' & -> & _). by exists l'.
Qed.
End loader.

(** ** Examples *)

#[local] Existing Instance canonical_iter.
#[local] Existing Instance insertion_sort.

(** One shared library, which opens. *)
Definition demo_fs (path : string) : option file :=
  if String.eqb path "a.so" then Some (mkFile [127; 69; 76; 70; 2]%Z true) else None.
Definition demo_hash (path : string) : Z := Z.of_nat (String.length path).
Definition demo_open (path : string) : option string := None.
Definition demo_symbol (path symbol : string) : bool := false.

Definition demo_run (ops : list loader_op) : outcome unit :=
  run_loader_ops demo_fs demo_hash demo_open demo_symbol 0 ops ModuleLoader_new.

(** The first load locks twice, whatever the file; without one nothing is there. *)
Example demo_first_load : demo_run [OpUnload "a"; OpLoad "a.so" "a"] = Relock ∧ demo_run [OpLoad "none.so" "b"] = Relock.
Proof. vm_compute. done. Qed.

(** Only the four bytes of the signature are checked. *)
Example demo_integrity :
  verifyModuleIntegrity demo_fs "a.so" = true ∧ verifyModuleIntegrity demo_fs "b.so" = false
  ∧ verifyModuleIntegrity (λ _, Some (mkFile [127; 69; 76]%Z true)) "a.so" = false.
Proof. vm_compute. done. Qed.

Lemma module_loader_self_locks_witness :
  loadModule demo_fs demo_hash demo_open 0 "a.so" "a" ModuleLoader_new = Relock.
Proof.
  destruct (module_loader_self_locks demo_fs demo_hash demo_open demo_symbol 0
              [] ModuleLoader_new eq_refl) as (_ & _ & H & _).
  exact (H "a"%string "a.so"%string).
Defined.
