(* ===== verification/RateLimiter.v ===== *)
(** * RateLimiter: the request limits of the server

    Models class RateLimiter of src/src/server/rate_limiter.hpp and
    rate_limiter.cpp: the token bucket with its refill, and the sliding windows
    per IP address and per user.  The steady clock is an argument, in
    nanoseconds; durations are truncated the way duration_cast does.  [None] is
    undefined behaviour: a division by a zero interval or a signed overflow.
    The locks are left out: each method is one atomic step. *)

From S2P Require Import Prelude.

Local Open Scope Z_scope.

Definition NS_PER_MS : Z := 1000000.
Definition NS_PER_S : Z := 1000000000.
Definition NS_PER_MIN : Z := 60000000000.

Definition MAX_REQUESTS_PER_SECOND : Z := 5.

Record RateLimiter := mkRateLimiter {
  max_tokens : Z;
  tokens : Z;
  refill_interval : Z;                           (* milliseconds *)
  last_refill_time : Z;
  request_timestamps : list Z;
  ip_rate_limiters : gmap string (list Z);
  user_rate_limiters : gmap string (list Z)
}.

#[export] Instance RateLimiter_eta : Eta RateLimiter := λ r,
  mkRateLimiter (max_tokens r) (tokens r) (refill_interval r) (last_refill_time r)
    (request_timestamps r) (ip_rate_limiters r) (user_rate_limiters r).

Definition RateLimiter_new (max interval now : Z) : RateLimiter :=
  mkRateLimiter max max interval now [] ∅ ∅.

(** ** The token bucket *)

(** The state after the refill; the number of added tokens is only logged. *)
Definition calculate_token_refill (now : Z) (r : RateLimiter) : option RateLimiter :=
  let elapsed := Z.quot (now - last_refill_time r) NS_PER_MS in
  if refill_interval r <=? elapsed then
    if refill_interval r =? 0 then None else
    let tokens_to_add := to_int (Z.quot elapsed (refill_interval r)) in
    let sum := tokens r + tokens_to_add in
    if in_int sum then
      Some (r <| tokens := Z.min (max_tokens r) sum |> <| last_refill_time := now |>)
    else None
  else Some r.

Definition allow_request (now : Z) (r : RateLimiter) : option (RateLimiter * bool) :=
  match calculate_token_refill now r with
  | None => None
  | Some r =>
      if 0 <? tokens r
      then Some (r <| tokens ::= (λ n, n - 1) |> <| request_timestamps ::= (λ l, l ++ [now]) |>, true)
      else Some (r, false)
  end.

Definition get_remaining_tokens (now : Z) (r : RateLimiter) : option (RateLimiter * Z) :=
  match calculate_token_refill now r with
  | None => None
  | Some r => Some (r, tokens r)
  end.

Definition set_refill_rate (interval : Z) (r : RateLimiter) : RateLimiter :=
  r <| refill_interval := interval |>.

(** Timestamps at least [n] units old are dropped. *)
Definition cleanup (unit n now : Z) (ts : list Z) : list Z :=
  filter (λ t, Z.quot (now - t) unit < n) ts.

(** The pruning is permanent: a later call with a longer window misses requests. *)
Definition get_request_count (window now : Z) (r : RateLimiter) : RateLimiter * Z :=
  let ts := cleanup NS_PER_S window now (request_timestamps r) in
  (r <| request_timestamps := ts |>, to_int (Z.of_nat (length ts))).

(** ** The windows *)

(** The timestamps of a limiter after a request; denied requests stay. *)
Definition record_request (unit now : Z) (ts : list Z) : list Z :=
  cleanup unit 1 now (ts ++ [now]).

Definition allow_request_for_ip (ip : string) (now : Z) (r : RateLimiter) : RateLimiter * bool :=
  let ts := record_request NS_PER_S now (default [] (ip_rate_limiters r !! ip)) in
  (r <| ip_rate_limiters ::= <[ip := ts]> |>,
   to_int (Z.of_nat (length ts)) <=? MAX_REQUESTS_PER_SECOND).

Definition allow_request_with_limit (user_id : string) (max_requests_per_minute now : Z)
    (r : RateLimiter) : RateLimiter * bool :=
  let ts := record_request NS_PER_MIN now (default [] (user_rate_limiters r !! user_id)) in
  (r <| user_rate_limiters ::= <[user_id := ts]> |>,
   to_int (Z.of_nat (length ts)) <=? max_requests_per_minute).

(** * Properties *)

(** ** The bucket *)

(** The answers to requests at the given times. *)
Fixpoint allow_all (times : list Z) (r : RateLimiter) : option (RateLimiter * list bool) :=
  match times with
  | [] => Some (r, [])
  | now :: rest =>
      match allow_request now r with
      | None => None
      | Some (r', b) =>
          match allow_all rest r' with
          | None => None
          | Some (r'', bs) => Some (r'', b :: bs)
          end
      end
  end.

(** Times that never go back, from [t] on. *)
Fixpoint monotone (t : Z) (times : list Z) : Prop :=
  match times with
  | [] => True
  | now :: rest => t ≤ now ∧ monotone now rest
  end.

Definition count_true (bs : list bool) : Z := Z.of_nat (length (filter (λ b, b = true) bs)).

(** Whole intervals of [r] between two instants. *)
Definition intervals (r : RateLimiter) (from to : Z) : Z :=
  (to - from) / (refill_interval r * NS_PER_MS).

Lemma intervals_split r a b c :
  0 < refill_interval r → a ≤ b ≤ c → intervals r a b + intervals r b c ≤ intervals r a c.
Proof.
  intros Hi Hab. unfold intervals. set (d := refill_interval r * NS_PER_MS).
  assert (0 < d) as Hd by (unfold d, NS_PER_MS; lia).
  apply Z.div_le_lower_bound; [done|].
  pose proof (Z.mul_div_le (b - a) d Hd). pose proof (Z.mul_div_le (c - b) d Hd). lia.
Qed.

Lemma intervals_mono r a b c :
  0 < refill_interval r → b ≤ c → intervals r a b ≤ intervals r a c.
Proof. intros Hi Hbc. unfold intervals. apply Z.div_le_mono; unfold NS_PER_MS; lia. Qed.

Lemma intervals_nonneg r a b : 0 < refill_interval r → a ≤ b → 0 ≤ intervals r a b.
Proof. intros Hi Hab. unfold intervals. apply Z.div_pos; unfold NS_PER_MS; lia. Qed.

(** What a refill should do. *)
Lemma refill_spec now r :
  0 < refill_interval r → last_refill_time r ≤ now → 0 ≤ tokens r ≤ max_tokens r →
  let n := intervals r (last_refill_time r) now in
  max_tokens r + n ≤ INT_MAX →
  calculate_token_refill now r =
    Some (if decide (0 < n)
          then r <| tokens := Z.min (max_tokens r) (tokens r + n) |> <| last_refill_time := now |>
          else r).
Proof.
  intros Hi Hnow Ht n Hn. unfold calculate_token_refill.
  assert (Z.quot (now - last_refill_time r) NS_PER_MS = (now - last_refill_time r) / NS_PER_MS)
    as -> by (apply Z.quot_div_nonneg; unfold NS_PER_MS; lia).
  set (e := (now - last_refill_time r) / NS_PER_MS).
  assert (0 ≤ e) as He by (apply Z.div_pos; unfold NS_PER_MS; lia).
  assert (n = e / refill_interval r) as En.
  { unfold n, intervals, e. rewrite Z.div_div by (unfold NS_PER_MS; lia). f_equal. lia. }
  rewrite (proj2 (Z.eqb_neq _ _)) by lia. rewrite Z.quot_div_nonneg by lia. rewrite <- En.
  assert (0 ≤ n) as Hn0 by (rewrite En; apply Z.div_pos; lia).
  destruct (Z.leb_spec (refill_interval r) e) as [Hle|Hlt].
  - assert (1 ≤ n) by (rewrite En; apply Z.div_le_lower_bound; lia).
    rewrite decide_True by lia. unfold INT_MAX in *.
    rewrite to_int_id by (apply bool_decide_eq_true; unfold INT_MIN, INT_MAX; lia).
    replace (in_int (tokens r + n)) with true; [done|]. symmetry.
    apply bool_decide_eq_true. unfold INT_MIN, INT_MAX. lia.
  - rewrite decide_False; [done|]. rewrite En, Z.div_small by lia. lia.
Qed.

(** One request. *)
Lemma allow_request_spec now r :
  0 < refill_interval r → last_refill_time r ≤ now → 0 ≤ tokens r ≤ max_tokens r →
  let n := intervals r (last_refill_time r) now in
  max_tokens r + n ≤ INT_MAX →
  ∃ r' b, allow_request now r = Some (r', b)
    ∧ max_tokens r' = max_tokens r ∧ refill_interval r' = refill_interval r
    ∧ last_refill_time r' = (if decide (0 < n) then now else last_refill_time r)
    ∧ (b = true ↔ 0 < Z.min (max_tokens r) (tokens r + n))
    ∧ tokens r' = Z.min (max_tokens r) (tokens r + n) - (if b then 1 else 0).
Proof.
  intros Hi Hnow Ht n Hn. unfold allow_request. rewrite refill_spec by done. fold n.
  assert (0 ≤ n) by by apply intervals_nonneg.
  set (r1 := if decide (0 < n) then _ else r).
  assert (tokens r1 = Z.min (max_tokens r) (tokens r + n) ∧ max_tokens r1 = max_tokens r
    ∧ refill_interval r1 = refill_interval r
    ∧ last_refill_time r1 = if decide (0 < n) then now else last_refill_time r) as (E1 & E2 & E3 & E4).
  { unfold r1. case_decide; simpl; split_and!; try done. lia. }
  clearbody r1. rewrite E1. destruct (Z.ltb_spec 0 (Z.min (max_tokens r) (tokens r + n))).
  - eexists _, true. split; [done|]. simpl. rewrite E1, E2, E3, E4. by split_and!.
  - eexists r1, false. split; [done|]. rewrite E1, E2, E3, E4. split_and!; try done; [|lia].
    split; [done|lia].
Qed.

Lemma monotone_last times t : monotone t times → t ≤ List.last times t.
Proof.
  revert t. induction times as [|now times IH]; intros t; [done|].
  intros [Hnow Hmono]. rewrite last_cons_default. specialize (IH now Hmono). lia.
Qed.

Lemma allow_all_spec times : ∀ t0 t r,
  0 < refill_interval r → 0 ≤ tokens r ≤ max_tokens r →
  t0 ≤ last_refill_time r ≤ t → monotone t times →
  let tl := List.last times t in
  max_tokens r + intervals r t0 tl ≤ INT_MAX →
  ∃ r' bs, allow_all times r = Some (r', bs)
    ∧ max_tokens r' = max_tokens r ∧ refill_interval r' = refill_interval r
    ∧ 0 ≤ tokens r' ≤ max_tokens r ∧ last_refill_time r ≤ last_refill_time r' ≤ tl
    ∧ count_true bs + tokens r' ≤ tokens r + intervals r (last_refill_time r) (last_refill_time r').
Proof.
  induction times as [|now times IH]; intros t0 t r Hi Ht Hl Hmono tl Hmax.
  { exists r, []. subst tl. unfold intervals. rewrite Z.sub_diag. simpl in *. split_and!; try done; try lia.
    unfold count_true. simpl. rewrite Z.div_0_l by (unfold NS_PER_MS; lia). lia. }
  destruct Hmono as [Hnow Hmono]. subst tl.
  rewrite last_cons_default in *. pose proof (monotone_last times now Hmono) as Hlast.
  set (n := intervals r (last_refill_time r) now).
  assert (n ≤ intervals r t0 (List.last times now)) as Hn.
  { pose proof (intervals_split r t0 (last_refill_time r) now Hi ltac:(lia)).
    pose proof (intervals_nonneg r t0 (last_refill_time r) Hi ltac:(lia)).
    pose proof (intervals_mono r t0 now (List.last times now) Hi ltac:(lia)). fold n in H. lia. }
  assert (0 ≤ n) as Hn0 by (apply intervals_nonneg; lia).
  destruct (allow_request_spec now r) as (r1 & b & E & E1 & E2 & E3 & E4 & E5); [done|lia|done| |].
  { fold n. lia. }
  fold n in E3, E4, E5. cbn [allow_all]. rewrite E.
  assert (0 ≤ tokens r1 ≤ max_tokens r1) as Ht1.
  { rewrite E5, E1. destruct b; [pose proof (proj1 E4 eq_refl)|]; lia. }
  assert (last_refill_time r ≤ last_refill_time r1 ≤ now) as Hlr by (rewrite E3; case_decide; lia).
  destruct (IH t0 now r1) as (r' & bs & E' & F1 & F2 & F3 & F4 & F5); try done; try lia.
  { unfold intervals. rewrite E1, E2. exact Hmax. }
  rewrite E'. exists r', (b :: bs). split_and!; try done; try lia.
  assert (∀ x y, intervals r1 x y = intervals r x y) as Hint by (intros; unfold intervals; by rewrite E2).
  rewrite Hint in F5.
  pose proof (intervals_split r (last_refill_time r) (last_refill_time r1) (last_refill_time r') Hi
                ltac:(lia)) as Hs.
  assert (intervals r (last_refill_time r) (last_refill_time r1) = n) as Hin.
  { rewrite E3. case_decide; [done|]. unfold intervals. rewrite Z.sub_diag, Z.div_0_l;
      [lia|unfold NS_PER_MS; lia]. }
  assert (count_true (b :: bs) = (if b then 1 else 0) + count_true bs) as ->.
  { unfold count_true. rewrite filter_cons. destruct b; simpl; lia. }
  lia.
Qed.

(** [C13] The token bucket, on times that never go back and as long as no more
    refill intervals pass than an int can count: the tokens stay between zero
    and the maximum, the requests allowed are at most the maximum plus the
    whole refill intervals that passed, and a request a whole interval after
    the last refill is allowed. *)
Theorem token_bucket_correct (max interval t0 : Z) (times : list Z) :
  0 ≤ max → 0 < interval → monotone t0 times →
  let passed to := (to - t0) / (interval * NS_PER_MS) in
  max + passed (List.last times t0) ≤ INT_MAX →
  ∃ r bs, allow_all times (RateLimiter_new max interval t0) = Some (r, bs)
    ∧ 0 ≤ tokens r ≤ max ∧ count_true bs ≤ max + passed (List.last times t0)
    ∧ ∀ now, last_refill_time r + interval * NS_PER_MS ≤ now →
        0 < max → max + passed now ≤ INT_MAX →
        ∃ r', allow_request now r = Some (r', true).
Proof.
  intros Hmax Hi Hmono passed Hbound. set (r0 := RateLimiter_new max interval t0).
  destruct (allow_all_spec times t0 t0 r0) as (r & bs & E & E1 & E2 & E3 & E4 & E5);
    [done|simpl; lia|simpl; lia|done|exact Hbound|].
  pose proof (intervals_mono r0 t0 (last_refill_time r) (List.last times t0) Hi ltac:(lia)) as Hle.
  change (intervals r0 t0 (List.last times t0)) with (passed (List.last times t0)) in Hle.
  change (last_refill_time r0) with t0 in *. change (tokens r0) with max in *.
  change (max_tokens r0) with max in *.
  exists r, bs. split_and!; try done; try lia.
  intros now Hnow Hpos Hb. assert (last_refill_time r ≤ now) as Hln by (unfold NS_PER_MS in *; lia).
  assert (1 ≤ intervals r (last_refill_time r) now) as H1.
  { unfold intervals. rewrite E2. change (refill_interval r0) with interval.
    apply Z.div_le_lower_bound; unfold NS_PER_MS in *; lia. }
  assert (intervals r (last_refill_time r) now ≤ passed now) as H2.
  { unfold intervals. rewrite E2. change (refill_interval r0) with interval.
    apply Z.div_le_mono; unfold NS_PER_MS; lia. }
  destruct (allow_request_spec now r) as (r' & b & Er & _ & _ & _ & Hb' & _); try lia.
  { rewrite E2. done. }
  exists r'. rewrite Er. by rewrite (proj2 Hb') by lia.
Qed.

(** ** The windows *)

Lemma monotone_snoc t times now :
  monotone t (times ++ [now]) ↔ monotone t times ∧ List.last times t ≤ now.
Proof.
  revert t. induction times as [|a times IH]; intros t; [simpl; naive_solver|].
  rewrite last_cons_default. simpl. rewrite IH. tauto.
Qed.

Lemma monotone_weaken t t' times : t ≤ t' → monotone t' times → monotone t times.
Proof. destruct times; simpl; [done|]. intros ? [??]. split; [lia|done]. Qed.

Lemma cleanup_cleanup unit n a b ts :
  0 < unit → a ≤ b → cleanup unit n b (cleanup unit n a ts) = cleanup unit n b ts.
Proof.
  intros Hu Hab. unfold cleanup. induction ts as [|t ts IH]; [done|].
  assert (Z.quot (a - t) unit ≤ Z.quot (b - t) unit) by (apply Z.quot_le_mono; lia).
  rewrite !filter_cons. case_decide; rewrite ?filter_cons, IH; repeat case_decide; try done; lia.
Qed.

(** The requests of one limiter, folded, are the ones still in the window. *)
Lemma record_all unit t times :
  0 < unit → monotone t times →
  fold_left (λ ts now, record_request unit now ts) times [] =
    cleanup unit 1 (List.last times t) times.
Proof.
  intros Hu. induction times as [|now times IH] using rev_ind; intros Hm; [done|].
  apply monotone_snoc in Hm as [Hm Hle]. rewrite fold_left_app, IH by done. simpl.
  rewrite List.last_last. unfold record_request, cleanup at 1. rewrite filter_app.
  fold (cleanup unit 1 now (cleanup unit 1 (List.last times t) times)).
  rewrite cleanup_cleanup by done. unfold cleanup. by rewrite filter_app.
Qed.

(** Requests by key and time. *)
Definition times_of (key : string) (reqs : list (string * Z)) : list Z :=
  (filter (λ kt, kt.1 = key) reqs).*2.

Definition ip_requests (reqs : list (string * Z)) (r : RateLimiter) : RateLimiter :=
  fold_left (λ r kt, (allow_request_for_ip kt.1 kt.2 r).1) reqs r.
Definition user_requests (limit : Z) (reqs : list (string * Z)) (r : RateLimiter) : RateLimiter :=
  fold_left (λ r kt, (allow_request_with_limit kt.1 limit kt.2 r).1) reqs r.

Lemma times_of_snoc k reqs k' t :
  times_of k (reqs ++ [(k', t)]) = times_of k reqs ++ (if decide (k' = k) then [t] else []).
Proof.
  unfold times_of. rewrite filter_app, fmap_app. f_equal. rewrite filter_cons. simpl.
  by case_decide.
Qed.

(** The limiters after any requests, for either map. *)
Lemma requests_limiters (get : RateLimiter → gmap string (list Z)) unit step reqs r key :
  (∀ r kt, get (step r kt) =
     <[kt.1 := record_request unit kt.2 (default [] (get r !! kt.1))]> (get r)) →
  get r = ∅ →
  default [] (get (fold_left step reqs r) !! key) =
    fold_left (λ ts now, record_request unit now ts) (times_of key reqs) [].
Proof.
  intros Hstep H0. induction reqs as [|[k t] reqs IH] using rev_ind.
  { simpl. rewrite H0. by rewrite lookup_empty. }
  rewrite fold_left_app, times_of_snoc, fold_left_app. simpl. rewrite Hstep. simpl.
  case_decide as Hk; [subst k; rewrite lookup_insert_eq; simpl; by rewrite <- IH|].
  by rewrite lookup_insert_ne.
Qed.

Lemma times_of_monotone t key reqs :
  monotone t (reqs.*2) → monotone t (times_of key reqs).
Proof.
  revert t. induction reqs as [|[k u] reqs IH]; intros t; [done|]. intros [Hu Hm].
  unfold times_of. rewrite filter_cons. case_decide; simpl.
  - split; [done|]. by apply IH.
  - apply IH. by eapply monotone_weaken.
Qed.

(** The requests of [key] less than [unit] before [now]. *)
Definition recent (unit : Z) (key : string) (now : Z) (reqs : list (string * Z)) : Z :=
  Z.of_nat (length (filter (λ t, now - t < unit) (times_of key reqs))).

Lemma window_answer unit limit t0 reqs key now ts :
  0 < unit → monotone t0 ((reqs ++ [(key, now)]).*2) → Z.of_nat (length reqs) < INT_MAX →
  ts = fold_left (λ ts u, record_request unit u ts) (times_of key reqs) [] →
  (to_int (Z.of_nat (length (record_request unit now ts))) <=? limit) =
    bool_decide (recent unit key now (reqs ++ [(key, now)]) ≤ limit).
Proof.
  intros Hu Hm Hlen ->. set (times := times_of key (reqs ++ [(key, now)])).
  assert (times = times_of key reqs ++ [now]) as Htimes
    by (unfold times; rewrite times_of_snoc; by rewrite decide_True).
  assert (record_request unit now (fold_left (λ ts u, record_request unit u ts) (times_of key reqs) [])
    = cleanup unit 1 now times) as ->.
  { pose proof (record_all unit t0 times Hu (times_of_monotone _ _ _ Hm)) as H.
    rewrite Htimes in H at 1. rewrite fold_left_app in H. simpl in H. rewrite H.
    by rewrite Htimes, List.last_last. }
  assert (cleanup unit 1 now times = filter (λ t, now - t < unit) times) as ->.
  { unfold cleanup. assert (∀ t, Z.quot (now - t) unit < 1 ↔ now - t < unit) as Hq;
      [|by apply (list_filter_iff _ _ _ Hq)]. intros t.
    destruct (Z.le_gt_cases 0 (now - t)).
    - rewrite Z.quot_div_nonneg by lia. split; intros H'.
      + destruct (Z.lt_ge_cases (now - t) unit); [done|].
        assert (1 ≤ (now - t) / unit) by (apply Z.div_le_lower_bound; lia). lia.
      + rewrite Z.div_small; lia.
    - split; intros _; [lia|]. assert (Z.quot (now - t) unit ≤ Z.quot 0 unit)
        by (apply Z.quot_le_mono; lia). rewrite Z.quot_0_l in *; lia. }
  unfold recent. fold times.
  assert (length (filter (λ t, (now - t < unit)%Z) times) ≤ S (length reqs))%nat as Hle.
  { etrans; [apply length_filter|]. rewrite Htimes, length_app. simpl. unfold times_of.
    rewrite length_fmap. pose proof (length_filter (λ kt : string * Z, kt.1 = key) reqs). lia. }
  rewrite to_int_id; [case_bool_decide; [apply Z.leb_le|apply Z.leb_gt]; lia|].
  apply bool_decide_eq_true. unfold INT_MIN, INT_MAX in *. lia.
Qed.

(** The windows are exact: after any requests at times that never go back,
    a request of an address is allowed when at most five requests of that
    address, this one and denied ones included, were made less than a second
    ago; and a request of a user when at most the given number were made by
    the user less than a minute ago.  Other keys have no influence. *)
Theorem request_windows_correct (r0 : RateLimiter) (t0 : Z) (reqs : list (string * Z))
    (key : string) (now limit : Z) :
  ip_rate_limiters r0 = ∅ → user_rate_limiters r0 = ∅ →
  monotone t0 ((reqs ++ [(key, now)]).*2) → Z.of_nat (length reqs) < INT_MAX →
  (allow_request_for_ip key now (ip_requests reqs r0)).2 =
    bool_decide (recent NS_PER_S key now (reqs ++ [(key, now)]) ≤ 5)
  ∧ (allow_request_with_limit key limit now (user_requests limit reqs r0)).2 =
    bool_decide (recent NS_PER_MIN key now (reqs ++ [(key, now)]) ≤ limit).
Proof.
  intros Hip Huser Hm Hlen. split.
  - apply (window_answer _ 5 t0 reqs key now _); [done|done|done|].
    by apply (requests_limiters ip_rate_limiters NS_PER_S).
  - apply (window_answer _ limit t0 reqs key now _); [done|done|done|].
    by apply (requests_limiters user_rate_limiters NS_PER_MIN).
Qed.

(** ** Examples *)

(** After 2^31 refill intervals without a request the conversion to int wraps:
    the bucket becomes negative and the request is denied. *)
Example idle_bucket_denies :
  option_map (λ rb, (tokens rb.1, rb.2))
    (allow_request (2147483648 * NS_PER_MS) (RateLimiter_new 5 1 0))
  = Some (5 - 2147483648, false).
Proof. vm_compute. reflexivity. Qed.

(** One interval earlier the addition of the tokens overflows. *)
Example idle_bucket_overflows :
  allow_request (2147483647 * NS_PER_MS) (RateLimiter_new 5 1 0) = None.
Proof. vm_compute. reflexivity. Qed.

(** A refill rate of zero divides by zero. *)
Example zero_rate_divides :
  allow_request 0 (set_refill_rate 0 (RateLimiter_new 5 1000 0)) = None.
Proof. vm_compute. reflexivity. Qed.

(** Asking for the requests of the last second forgets the older ones. *)
Example count_forgets :
  let r := (RateLimiter_new 5 1000 0) <| request_timestamps := [0; 5 * NS_PER_S] |> in
  let now := 5 * NS_PER_S + 1 in
  (get_request_count 60 now r).2 = 2
  ∧ (get_request_count 60 now (get_request_count 1 now r).1).2 = 1.
Proof. vm_compute. done. Qed.

Lemma token_bucket_correct_witness :
  ∃ r bs, allow_all [0; 0; 0; 1000000000] (RateLimiter_new 2 1000 0) = Some (r, bs)
          ∧ count_true bs ≤ 3.
Proof.
  destruct (token_bucket_correct 2 1000 0 [0; 0; 0; 1000000000]) as (r & bs & E & _ & H & _).
  - lia.
  - lia.
  - simpl. lia.
  - vm_compute. discriminate.
  - exists r, bs. split; [exact E|]. exact H.
Defined.

Lemma request_windows_correct_witness :
  (allow_request_for_ip "a" 900000000
     (ip_requests [("a"%string, 0); ("b"%string, 0); ("a"%string, 1); ("a"%string, 2); ("a"%string, 3); ("a"%string, 4)]
        (RateLimiter_new 5 1000 0))).2 = false.
Proof.
  rewrite (proj1 (request_windows_correct (RateLimiter_new 5 1000 0) 0
    [("a"%string, 0); ("b"%string, 0); ("a"%string, 1); ("a"%string, 2); ("a"%string, 3); ("a"%string, 4)]
    "a" 900000000 5 eq_refl eq_refl ltac:(simpl; lia) ltac:(vm_compute; reflexivity))).
  vm_compute. reflexivity.
Defined.
