(* ===== verification/Cache.v ===== *)
(** * Cache: the configuration cache

    Models class ConfigCache of src/src/config/components/cache.hpp and
    cache.cpp: entries with a time to live, eviction of the least recently used
    entry, statistics and cleanup.  The steady clock is an argument, in
    nanoseconds, and a method reads it once.  [get] is two critical sections,
    between which other methods may run.  The counters are not bounded.  Left
    out: the methods the header declares and no file defines, the hooks, the
    logger and the sleep of the cleanup thread, whose work is [performCleanup]. *)

From S2P Require Import Prelude.

Section cache.
Context {J : Type}.

Record CacheEntry := mkCacheEntry {
  value : J;
  lastAccess : Z;
  expiry : option Z;                             (* [None] is time_point::max() *)
  accessCount : Z
}.

#[export] Instance CacheEntry_eta : Eta CacheEntry := λ e,
  mkCacheEntry (value e) (lastAccess e) (expiry e) (accessCount e).

Record ConfigCache := mkConfigCache {
  maxSize : nat;
  defaultTtl : Z;                                (* milliseconds *)
  cache : gmap string CacheEntry;
  hits : nat;
  misses : nat;
  evictions : nat;
  expirations : nat;
  currentSize : nat
}.

#[export] Instance ConfigCache_eta : Eta ConfigCache := λ c,
  mkConfigCache (maxSize c) (defaultTtl c) (cache c) (hits c) (misses c) (evictions c)
    (expirations c) (currentSize c).

Definition ConfigCache_new (max : nat) (ttl : Z) : ConfigCache :=
  mkConfigCache max ttl ∅ 0 0 0 0 0.

(** When an entry stored at [now] expires, a TTL not above zero meaning never.  The clock
    counts in 64 bits: a sum out of their range is undefined behaviour, and wraps here,
    as the compilers do it. *)
Definition expiry_of (now ttl : Z) : option Z :=
  if (0 <? ttl)%Z then Some (to_int64 (now + ttl * 1000000)) else None.
(** No overflow: the end of the TTL is within the clock, some 292 years. *)
Definition ttl_fits (now ttl : Z) : Prop := (0 ≤ now ∧ now + ttl * 1000000 < 9223372036854775808)%Z.

Definition new_entry (v : J) (now ttl : Z) : CacheEntry := mkCacheEntry v now (expiry_of now ttl) 0.

Definition expired_at (now : Z) (ex : option Z) : bool :=
  match ex with Some t => (t <=? now)%Z | None => false end.

Definition isExpired (now : Z) (e : CacheEntry) : bool := expired_at now (expiry e).

Definition performCleanup (now : Z) (c : ConfigCache) : ConfigCache * nat :=
  let kept := filter (λ kv, isExpired now kv.2 = false) (cache c) in
  let cleaned := size (cache c) - size kept in
  (c <| cache := kept |> <| expirations ::= (λ n, n + cleaned) |>
     <| currentSize := size kept |>, cleaned).

(** ** Reading *)

Inductive read_result := Hit (v : J) | Miss | Stale.

(** The part of [get] under the shared lock; [Stale] releases it. *)
Definition get_read (key : string) (now : Z) (c : ConfigCache) : ConfigCache * read_result :=
  match cache c !! key with
  | None => (c <| misses ::= S |>, Miss)
  | Some e =>
      if isExpired now e then (c, Stale)
      else (c <| cache ::= <[key := e <| lastAccess := now |> <| accessCount ::= (λ n, n + 1)%Z |>]> |>
              <| hits ::= S |>, Hit (value e))
  end.

(** The part under the exclusive lock, which checks again. *)
Definition get_erase (key : string) (now : Z) (c : ConfigCache) : ConfigCache :=
  match cache c !! key with
  | Some e =>
      if isExpired now e then
        let m := delete key (cache c) in
        c <| cache := m |> <| expirations ::= S |> <| misses ::= S |> <| currentSize := size m |>
      else c
  | None => c
  end.

(** [get] when nothing runs in between. *)
Definition get (key : string) (now : Z) (c : ConfigCache) : ConfigCache * option J :=
  match get_read key now c with
  | (c', Hit v) => (c', Some v)
  | (c', Miss) => (c', None)
  | (c', Stale) => (get_erase key now c', None)
  end.

Definition contains (key : string) (now : Z) (c : ConfigCache) : bool :=
  match cache c !! key with None => false | Some e => negb (isExpired now e) end.

(** ** Writing *)

Definition remove (key : string) (c : ConfigCache) : ConfigCache * bool :=
  match cache c !! key with
  | None => (c, false)
  | Some _ =>
      let m := delete key (cache c) in
      (c <| cache := m |> <| currentSize := size m |>, true)
  end.

Definition clear (c : ConfigCache) : ConfigCache := c <| cache := ∅ |> <| currentSize := 0 |>.

Definition setDefaultTtl (ttl : Z) (c : ConfigCache) : ConfigCache := c <| defaultTtl := ttl |>.

Section iteration.
Context `{!HashIter string}.

(** [std::min_element]: the first of the least recently accessed entries. *)
Fixpoint min_element (best : string * CacheEntry) (l : list (string * CacheEntry))
    : string * CacheEntry :=
  match l with
  | [] => best
  | kv :: rest =>
      min_element (if (lastAccess kv.2 <? lastAccess best.2)%Z then kv else best) rest
  end.

Definition lru (m : gmap string CacheEntry) : option (string * CacheEntry) :=
  match iter_map m with
  | [] => None
  | kv :: rest => Some (min_element kv rest)
  end.

Definition evictLru (c : ConfigCache) : ConfigCache :=
  match lru (cache c) with
  | None => c
  | Some (key, _) => c <| cache ::= delete key |> <| evictions ::= S |>
  end.

Definition put (key : string) (v : J) (ttl now : Z) (c : ConfigCache) : ConfigCache :=
  let effectiveTtl := if (0 <? ttl)%Z then ttl else defaultTtl c in
  let entry := new_entry v now effectiveTtl in
  let c := if (maxSize c <=? size (cache c)) && bool_decide (cache c !! key = None)
           then evictLru c else c in
  let m := <[key := entry]> (cache c) in
  c <| cache := m |> <| currentSize := size m |>.

Fixpoint evict_to (fuel newMaxSize : nat) (c : ConfigCache) : option ConfigCache :=
  if newMaxSize <? size (cache c) then
    match fuel with
    | 0 => None
    | S fuel' => evict_to fuel' newMaxSize (evictLru c)
    end
  else Some c.

Definition setMaxSize (newMaxSize : nat) (c : ConfigCache) : option ConfigCache :=
  evict_to (size (cache c)) newMaxSize (c <| maxSize := newMaxSize |>).

(** ** Operations *)

Inductive cache_op :=
| OpPut (key : string) (v : J) (ttl : Z)
| OpGetRead (key : string)
| OpGetErase (key : string)
| OpRemove (key : string)
| OpClear
| OpCleanup
| OpSetMaxSize (n : nat)
| OpSetDefaultTtl (ttl : Z).

Definition run_cache_op (c : ConfigCache) (t : Z) (o : cache_op) : option ConfigCache :=
  match o with
  | OpPut k v ttl => Some (put k v ttl t c)
  | OpGetRead k => Some (get_read k t c).1
  | OpGetErase k => Some (get_erase k t c)
  | OpRemove k => Some (remove k c).1
  | OpClear => Some (clear c)
  | OpCleanup => Some (performCleanup t c).1
  | OpSetMaxSize n => setMaxSize n c
  | OpSetDefaultTtl ttl => Some (setDefaultTtl ttl c)
  end.

(** Operations at their times; [get]s of other threads show as their two parts. *)
Fixpoint run_cache (ops : list (Z * cache_op)) (c : ConfigCache) : option ConfigCache :=
  match ops with
  | [] => Some c
  | (t, o) :: rest => run_cache_op c t o ≫= run_cache rest
  end.

(** * Properties *)

(** ** Eviction *)

Lemma min_element_spec best l :
  min_element best l ∈ best :: l
  ∧ ∀ kv, kv ∈ best :: l → (lastAccess (min_element best l).2 ≤ lastAccess kv.2)%Z.
Proof.
  revert best. induction l as [|kv l IH]; intros best; simpl.
  { split; [left|]. by intros kv ->%list_elem_of_singleton. }
  set (b := if (lastAccess kv.2 <? lastAccess best.2)%Z then kv else best).
  destruct (IH b) as [Hin Hmin]. split.
  - apply elem_of_cons in Hin as [->|Hin]; [|by right; right].
    unfold b. destruct (_ <? _)%Z; [right|]; left.
  - assert (lastAccess b.2 ≤ lastAccess best.2 ∧ lastAccess b.2 ≤ lastAccess kv.2)%Z as [H1 H2].
    { unfold b. destruct (Z.ltb_spec (lastAccess kv.2) (lastAccess best.2)); lia. }
    pose proof (Hmin b ltac:(left)). intros x [->|[->|Hx]%elem_of_cons]%elem_of_cons; [lia..|].
    apply Hmin. by right.
Qed.

Lemma lru_spec m :
  match lru m with
  | None => m = ∅
  | Some (k, e) => m !! k = Some e ∧ ∀ k' e', m !! k' = Some e' → (lastAccess e ≤ lastAccess e')%Z
  end.
Proof.
  unfold lru. destruct (iter_map m) as [|kv l] eqn:E.
  - apply map_empty. intros k. apply eq_None_not_Some. intros [e He].
    apply elem_of_iter_map in He. rewrite E in He. by apply elem_of_nil in He.
  - destruct (min_element_spec kv l) as [Hin Hmin].
    destruct (min_element kv l) as [k e]. rewrite <- E in Hin, Hmin. split.
    + by apply elem_of_iter_map.
    + intros k' e' He. apply (Hmin (k', e')). by apply elem_of_iter_map.
Qed.

Lemma evictLru_spec c :
  cache c ≠ ∅ →
  ∃ k e, cache c !! k = Some e
    ∧ (∀ k' e', cache c !! k' = Some e' → (lastAccess e ≤ lastAccess e')%Z)
    ∧ evictLru c = c <| cache := delete k (cache c) |> <| evictions ::= S |>.
Proof.
  intros Hne. unfold evictLru. pose proof (lru_spec (cache c)) as H.
  destruct (lru (cache c)) as [[k e]|]; [|done]. exists k, e. by destruct H.
Qed.

Lemma evictLru_size c :
  cache c ≠ ∅ → S (size (cache (evictLru c))) = size (cache c) ∧ cache (evictLru c) ⊆ cache c
                ∧ evictions (evictLru c) = S (evictions c).
Proof.
  intros Hne. destruct (evictLru_spec c Hne) as (k & e & Hk & _ & ->). simpl. split_and!; [|apply delete_subseteq|done].
  rewrite map_size_delete_Some by by eexists.
  assert (size (cache c) ≠ 0) by by apply map_size_ne_0_lookup_2 with k.
  lia.
Qed.

(** The loop ends with at most [n] entries, and changes nothing unless it
    evicts. *)
Lemma evict_to_spec fuel n c :
  size (cache c) ≤ fuel →
  ∃ c', evict_to fuel n c = Some c' ∧ size (cache c') ≤ n ∧ cache c' ⊆ cache c
    ∧ maxSize c' = maxSize c ∧ defaultTtl c' = defaultTtl c
    ∧ (c' = c ∨ evictions c < evictions c').
Proof.
  revert c. induction fuel as [|fuel IH]; intros c Hf; cbn [evict_to];
    destruct (Nat.ltb_spec n (size (cache c)));
    [lia|exists c; split_and!; try done; auto| |exists c; split_and!; try done; auto].
  assert (cache c ≠ ∅) as Hne by (intros E; rewrite E, map_size_empty in *; lia).
  destruct (evictLru_size c Hne) as (Hs & Hsub & He).
  destruct (IH (evictLru c)) as (c' & -> & H1 & H2 & H3 & H4 & H5); [lia|].
  exists c'. split_and!; try done.
  - by etrans.
  - rewrite H3. unfold evictLru. by destruct (lru (cache c)) as [[]|].
  - rewrite H4. unfold evictLru. by destruct (lru (cache c)) as [[]|].
  - right. destruct H5 as [->|]; lia.
Qed.

(** ** The map it caches

    The abstract state: the default TTL and, for every key, the value last put
    with its expiry.  It has no capacity and never forgets. *)
Definition spec_state : Type := Z * gmap string (J * option Z).

Definition spec_step (s : spec_state) (t : Z) (o : cache_op) : spec_state :=
  let '(d, m) := s in
  match o with
  | OpPut k v ttl => (d, <[k := (v, expiry_of t (if (0 <? ttl)%Z then ttl else d))]> m)
  | OpRemove k => (d, delete k m)
  | OpClear => (d, ∅)
  | OpSetDefaultTtl ttl => (ttl, m)
  | _ => s
  end.

Definition spec_run (ops : list (Z * cache_op)) (s : spec_state) : spec_state :=
  fold_left (λ s to, spec_step s to.1 to.2) ops s.

(** What a lookup at time [t] should find. *)
Definition spec_get (k : string) (t : Z) (s : spec_state) : option J :=
  match s.2 !! k with
  | Some (v, ex) => if expired_at t ex then None else Some v
  | None => None
  end.

Definition summary (e : CacheEntry) : J * option Z := (value e, expiry e).

(** The simulation: what the cache holds is what the map holds, and it has
    everything that is not expired unless something was evicted. *)
Record sim (t : Z) (c : ConfigCache) (s : spec_state) : Prop := {
  sim_ttl : defaultTtl c = s.1;
  sim_sound k e : cache c !! k = Some e → s.2 !! k = Some (summary e);
  sim_complete k v ex : evictions c = 0 → s.2 !! k = Some (v, ex) → expired_at t ex = false →
    is_Some (cache c !! k);
  sim_size : size (cache c) ≤ Nat.max 1 (maxSize c)
}.

Lemma expired_later t t' ex : (t ≤ t')%Z → expired_at t' ex = false → expired_at t ex = false.
Proof. destruct ex; simpl; [|done]. rewrite !Z.leb_gt. lia. Qed.

Lemma sim_later t t' c s : (t ≤ t')%Z → sim t c s → sim t' c s.
Proof.
  intros Ht [H1 H2 H3 H4]. split; try done. intros k v ex He Hk Hex.
  by eapply H3, expired_later.
Qed.

(** Steps that only drop entries. *)
Lemma sim_drop t c s c' :
  sim t c s → defaultTtl c' = defaultTtl c → maxSize c' = maxSize c → cache c' ⊆ cache c →
  evictions c ≤ evictions c' →
  (evictions c' = evictions c → ∀ k e, cache c !! k = Some e → isExpired t e = false →
     is_Some (cache c' !! k)) →
  sim t c' s.
Proof.
  intros [H1 H2 H3 H4] Hd Hm Hsub Hle Hkeep. split.
  - by rewrite Hd.
  - intros k e Hk. apply H2. by eapply lookup_weaken.
  - intros k v ex He Hk Hex. destruct (H3 k v ex) as [e Hc]; [lia|done|done|].
    apply (Hkeep ltac:(lia) k e Hc). apply H2 in Hc. rewrite Hc in Hk. unfold isExpired.
    by injection Hk as <- ->.
  - rewrite Hm. etrans; [by apply map_subseteq_size|done].
Qed.

Lemma sim_put t c s k v ttl : sim t c s → sim t (put k v ttl t c) (spec_step s t (OpPut k v ttl)).
Proof.
  intros Hs. destruct s as [d m]. unfold put.
  set (c1 := if (maxSize c <=? size (cache c)) && bool_decide (cache c !! k = None)
             then evictLru c else c).
  assert (sim t c1 (d, m) ∧ maxSize c1 = maxSize c) as [Hs1 Hm].
  { unfold c1. destruct (_ && _); [|done]. split; [|unfold evictLru; by destruct (lru _) as [[]|]].
    destruct (decide (cache c = ∅)) as [E|Hne].
    - assert (evictLru c = c) as ->; [|done]. unfold evictLru.
      pose proof (lru_spec (cache c)) as Hl. destruct (lru (cache c)) as [[k' e]|]; [|done].
      rewrite E in Hl. destruct Hl as [Hl _]. by rewrite lookup_empty in Hl.
    - destruct (evictLru_size c Hne) as (_ & Hsub & He).
      eapply sim_drop; [exact Hs|..]; try done; try lia;
        unfold evictLru; by destruct (lru _) as [[]|]. }
  assert (size (<[k := new_entry v t (if (0 <? ttl)%Z then ttl else defaultTtl c)]> (cache c1))
          ≤ Nat.max 1 (maxSize c)) as Hsize.
  { destruct (cache c1 !! k) as [e|] eqn:Ek.
    - rewrite map_size_insert_Some by by eexists. pose proof (sim_size _ _ _ Hs1). lia.
    - rewrite map_size_insert_None by done. unfold c1 in *.
      destruct (Nat.leb_spec (maxSize c) (size (cache c))) as [Hf|]; simpl in *; [|lia].
      case_bool_decide as Hk; simpl in *; [|by rewrite Ek in Hk].
      destruct (decide (cache c = ∅)) as [E|Hne].
      + assert (size (cache (evictLru c)) ≤ size (cache c)) as Hle.
        { unfold evictLru. destruct (lru _) as [[k' ?]|]; simpl; [|done].
          apply map_subseteq_size, delete_subseteq. }
        rewrite E, map_size_empty in Hle. lia.
      + destruct (evictLru_size c Hne) as (? & _). pose proof (sim_size _ _ _ Hs). lia. }
  assert (defaultTtl c = d) as Hd by apply (sim_ttl _ _ _ Hs).
  destruct Hs1 as [H1 H2 H3 H4]. clearbody c1. split; simpl in *.
  - done.
  - intros k' e [[<- <-]|[Hne Hk]]%lookup_insert_Some.
    + rewrite lookup_insert_eq. unfold summary, new_entry. simpl. by rewrite Hd.
    + rewrite lookup_insert_ne by done. by apply H2.
  - intros k' v' ex He Hk Hex. apply lookup_insert_is_Some'.
    destruct (decide (k = k')) as [|Hne]; [by left|right].
    rewrite lookup_insert_ne in Hk by done. by eapply H3.
  - by rewrite Hm.
Qed.

Lemma sim_step t c s o :
  sim t c s → ∃ c', run_cache_op c t o = Some c' ∧ sim t c' (spec_step s t o).
Proof.
  intros Hs. pose proof Hs as [H1 H2 H3 H4]. destruct s as [d m].
  destruct o; simpl; try (eexists; split; [done|]).
  - exact (sim_put t c (d, m) key v ttl Hs).
  - unfold get_read. destruct (cache c !! key) as [e|] eqn:E; [|by split].
    destruct (isExpired t e) eqn:Ex; [done|]. split; simpl in *; try done.
    + intros k' e' [[<- <-]|[_ Hk]]%lookup_insert_Some; [by apply H2 in E|by apply H2].
    + intros k' v' ex He Hk Hex. apply lookup_insert_is_Some'. right. by eapply H3.
    + by rewrite map_size_insert_Some by by eexists.
  - unfold get_erase. destruct (cache c !! key) as [e|] eqn:E; [|done].
    destruct (isExpired t e) eqn:Ex; [|done].
    eapply sim_drop; [exact Hs|done|done|apply delete_subseteq|done|].
    intros _ k' e' Hk Hex. simpl. rewrite lookup_delete_ne; [by eexists|].
    intros <-. rewrite E in Hk. simplify_eq. congruence.
  - unfold remove. destruct (cache c !! key) as [e|] eqn:E; split; simpl in *; try done.
    + intros k' e' [Hne Hk]%lookup_delete_Some. rewrite lookup_delete_ne by done. by apply H2.
    + intros k' v' ex He [Hne Hk]%lookup_delete_Some Hex. rewrite lookup_delete_ne by done.
      by eapply H3.
    + etrans; [apply map_subseteq_size, delete_subseteq|done].
    + intros k' e' Hk. rewrite lookup_delete_ne; [by apply H2|]. intros <-. congruence.
    + intros k' v' ex He [Hne Hk]%lookup_delete_Some Hex. by eapply H3.
  - split; simpl; intros *; rewrite ?map_size_empty; try done; lia.
  - eapply sim_drop; [exact Hs|done|done|apply map_filter_subseteq|done|].
    intros _ k' e' Hk Hex. simpl. exists e'. by rewrite map_lookup_filter_Some.
  - unfold setMaxSize. destruct (evict_to_spec (size (cache c)) n (c <| maxSize := n |>))
      as (c' & -> & E1 & E2 & E3 & E4 & E5); [done|]. simpl in *.
    exists c'. split; [done|]. split; simpl in *.
    + by rewrite E4.
    + intros k e Hk. apply H2. by eapply lookup_weaken.
    + intros k v ex He Hk Hex. destruct E5 as [->|]; [by eapply H3|lia].
    + rewrite E3. lia.
  - split; simpl in *; done.
Qed.

(** Times that never go back, from [t] on. *)
Fixpoint ordered (t : Z) (ops : list (Z * cache_op)) : Prop :=
  match ops with
  | [] => True
  | (t', _) :: rest => (t ≤ t')%Z ∧ ordered t' rest
  end.

Definition last_time (t : Z) (ops : list (Z * cache_op)) : Z := List.last ops.*1 t.

Lemma last_time_cons t t' o ops : last_time t ((t', o) :: ops) = last_time t' ops.
Proof. apply last_cons_default. Qed.

Lemma sim_new t max ttl : sim t (ConfigCache_new max ttl) (ttl, ∅).
Proof. split; simpl; intros *; rewrite ?map_size_empty; try done; lia. Qed.

Lemma sim_run t c s ops :
  sim t c s → ordered t ops →
  ∃ c', run_cache ops c = Some c' ∧ sim (last_time t ops) c' (spec_run ops s).
Proof.
  revert t c s. induction ops as [|[t' o] ops IH]; intros t c s Hs Hord.
  { exists c. split; [done|]. done. }
  destruct Hord as [Ht Hord]. rewrite last_time_cons. simpl.
  destruct (sim_step t' c s o) as (c' & -> & Hs'); [by eapply sim_later|].
  by apply IH.
Qed.

Lemma get_sim t c s k now :
  sim t c s → (t ≤ now)%Z →
  match (get k now c).2 with
  | Some v => spec_get k now s = Some v
  | None => spec_get k now s = None ∨ evictions c ≠ 0
  end.
Proof.
  intros Hs Ht. apply (sim_later t now) in Hs as [H1 H2 H3 H4]; [|done].
  unfold get, get_read, spec_get. destruct (cache c !! k) as [e|] eqn:E.
  - apply H2 in E as ->. unfold isExpired. simpl.
    destruct (expired_at now (expiry e)); simpl; [by left|done].
  - simpl. destruct (s.2 !! k) as [[v ex]|] eqn:Es; [|by left].
    destruct (expired_at now ex) eqn:Ex; [by left|]. right. intros He.
    destruct (H3 k v ex He Es Ex). congruence.
Qed.

(** [C14] The cache refines the map of the values last put.  Every run of
    operations at times that never go back returns, with the parts of [get]
    interleaved in any way; a hit is the value last put for the key and not
    removed or cleared since, before it expires; and a miss means there is no
    such value, unless the cache has evicted an entry. *)
Theorem cache_refines_map (max : nat) (ttl t0 : Z) (ops : list (Z * cache_op)) :
  ordered t0 ops →
  ∃ c, run_cache ops (ConfigCache_new max ttl) = Some c ∧ ∀ key now,
    (last_time t0 ops ≤ now)%Z →
    match (get key now c).2 with
    | Some v => spec_get key now (spec_run ops (ttl, ∅)) = Some v
    | None => spec_get key now (spec_run ops (ttl, ∅)) = None ∨ evictions c ≠ 0
    end.
Proof.
  intros Hord. destruct (sim_run t0 (ConfigCache_new max ttl) (ttl, ∅) ops) as (c & E & Hs);
    [apply sim_new|done|].
  exists c. split; [done|]. intros key now Hnow. by eapply get_sim.
Qed.

(** Whatever operations ran, the cache never holds more entries than its
    maximum size (one, when that is zero).  Storing a new key in a full cache
    evicts one entry, which no other entry was accessed before; storing in any
    other case evicts none; and the stored value is found at once, unless the end of
    its time to live is beyond the clock ([lost_at_once]). *)
Theorem put_correct (max : nat) (ttl t0 : Z) (ops : list (Z * cache_op)) (key : string) (v : J)
    (entry_ttl now : Z) :
  ordered t0 ops →
  ∃ c, run_cache ops (ConfigCache_new max ttl) = Some c ∧ size (cache c) ≤ Nat.max 1 (maxSize c) ∧
    let c' := put key v entry_ttl now c in
    (ttl_fits now (if (0 <? entry_ttl)%Z then entry_ttl else defaultTtl c) → (get key now c').2 = Some v)
    ∧ if decide (maxSize c ≤ size (cache c) ∧ cache c !! key = None ∧ cache c ≠ ∅)
      then ∃ k e, cache c !! k = Some e
        ∧ (∀ k' e', cache c !! k' = Some e' → (lastAccess e ≤ lastAccess e')%Z)
        ∧ delete key (cache c') = delete k (cache c) ∧ evictions c' = S (evictions c)
      else delete key (cache c') = delete key (cache c) ∧ evictions c' = evictions c.
Proof.
  intros Hord. destruct (sim_run t0 (ConfigCache_new max ttl) (ttl, ∅) ops) as (c & E & Hs);
    [apply sim_new|done|].
  exists c. split; [done|]. split; [apply (sim_size _ _ _ Hs)|]. clear E Hs. split.
  { intros [Hnow Hfit]. unfold get, get_read, put. simpl. rewrite lookup_insert_eq.
    set (eff := if (0 <? entry_ttl)%Z then entry_ttl else defaultTtl c).
    assert (isExpired now (new_entry v now eff) = false) as ->; [|done].
    unfold isExpired, new_entry, expiry_of. simpl. destruct (Z.ltb_spec 0 eff); [|done].
    simpl. apply Z.leb_gt. unfold to_int64. rewrite Z.mod_small by lia. lia. }
  unfold put. simpl. rewrite delete_insert_eq.
  case_decide as Hd.
  - destruct Hd as (Hmax & Hk & Hne). rewrite (proj2 (Nat.leb_le _ _) Hmax), bool_decide_eq_true_2 by done.
    simpl. destruct (evictLru_spec c Hne) as (k & e & Hke & Hmin & ->). exists k, e. simpl.
    split_and!; try done. apply delete_id. rewrite lookup_delete_None. auto.
  - destruct ((maxSize c <=? size (cache c)) && bool_decide (cache c !! key = None)) eqn:Eb; [|done].
    apply andb_true_iff in Eb as [Hmax%Nat.leb_le Hk%bool_decide_eq_true].
    destruct (decide (cache c = ∅)) as [He|Hne]; [|by destruct Hd].
    assert (evictLru c = c) as ->; [|done]. unfold evictLru.
    pose proof (lru_spec (cache c)) as Hl. destruct (lru (cache c)) as [[k' e]|]; [|done].
    rewrite He in Hl. destruct Hl as [Hl _]. by rewrite lookup_empty in Hl.
Qed.
End iteration.
End cache.
Arguments ConfigCache : clear implicits.
Arguments cache_op : clear implicits.

(** ** Examples *)

#[local] Existing Instance canonical_iter.

(** The entry read last survives; a stale entry is not found. *)
Definition demo_ops : list (Z * cache_op nat) :=
  [(0%Z, OpPut "a" 1 0); (1%Z, OpPut "b" 2 5); (2%Z, OpGetRead "a"); (3%Z, OpPut "c" 3 0)].

Example demo_lru :
  (λ c, ((get "a" 4 c).2, (get "b" 4 c).2, evictions c)) <$>
    run_cache demo_ops (ConfigCache_new 2 30000) = Some (Some 1, None, 1).
Proof. vm_compute. reflexivity. Qed.

(** With a maximum size of zero one entry is kept. *)
Example zero_size_keeps_one :
  (λ c, size (cache c)) <$> run_cache demo_ops (ConfigCache_new 0 30000) = Some 1.
Proof. vm_compute. reflexivity. Qed.

(** The longest time to live, milliseconds::max(), ends a millisecond before it begins:
    the entry is not found. *)
Example lost_at_once : (get "a" 5 (put "a" 1 9223372036854775807 5 (ConfigCache_new 2 30000))).2 = None.
Proof. vm_compute. reflexivity. Qed.

Lemma cache_refines_map_witness :
  ∃ c, run_cache demo_ops (ConfigCache_new 2 30000) = Some c ∧ (get "a" 4 c).2 = Some 1.
Proof.
  destruct (cache_refines_map 2 30000 0 demo_ops) as (c & E & H).
  - vm_compute. repeat split; discriminate.
  - exists c. split; [exact E|]. specialize (H "a"%string 4%Z ltac:(vm_compute; discriminate)).
    assert ((λ c, (get "a" 4 c).2) <$> run_cache demo_ops (ConfigCache_new 2 30000) = Some (Some 1))
      as Hg by (vm_compute; reflexivity).
    rewrite E in Hg. injection Hg as Hg. exact Hg.
Defined.

Lemma put_correct_witness :
  ∃ c, run_cache demo_ops (ConfigCache_new 2 30000) = Some c
       ∧ (get "d" 4 (put "d" 4 7 4 c)).2 = Some 4.
Proof.
  destruct (put_correct 2 30000 0 demo_ops "d" 4 7 4) as (c & E & _ & H & _).
  - vm_compute. repeat split; discriminate.
  - exists c. split; [exact E|]. apply H. injection E as <-. by vm_compute.
Defined.
