(* ===== verification/EventLoop.v ===== *)
(** * EventLoop: the thread pool of the server

    Models class EventLoop of src/src/server/eventloop.hpp and eventloop.cpp in
    the configuration that is built, without the macro USE_ASIO: the task order,
    the queues, posting, the worker's iteration, events and intervals.  Closures
    are values of a type [Fn] given by the client.  [std::priority_queue] leaves
    open which of several equivalent elements comes first: the class
    [PriorityQueue].  Left out: epoll and signals, the pool of task objects, the
    threads' idle backoff, futures. *)

From S2P Require Import Prelude.

Local Open Scope Z_scope.

(** Times are nanoseconds of the steady clock, delays and intervals milliseconds. *)
Definition NS_PER_MS : Z := 1000000.

(** ** Tasks and their order *)

Inductive TaskType := Normal | Delayed | Periodic | Cancelable.

(** What a task calls: the client's function, a function behind a cancellation
    flag, or the wrapper of [schedulePeriodic]. *)
Inductive closure (Fn : Type) :=
| Plain (f : Fn)
| Guarded (flag : nat) (f : Fn)
| PeriodicWrapper (interval priority : Z) (f : Fn).
Arguments Plain {Fn} f.
Arguments Guarded {Fn} flag f.
Arguments PeriodicWrapper {Fn} interval priority f.

Record Task (Fn : Type) := mkTask {
  function : closure Fn;
  priority : Z;
  execution_time : Z;
  task_id : Z;
  is_active : bool;
  type : TaskType
}.
Arguments mkTask {Fn} function priority execution_time task_id is_active type.
Arguments function {Fn} _.
Arguments priority {Fn} _.
Arguments execution_time {Fn} _.
Arguments task_id {Fn} _.
Arguments is_active {Fn} _.
Arguments type {Fn} _.

#[export] Instance Task_eta {Fn} : Eta (Task Fn) := λ t,
  mkTask (function t) (priority t) (execution_time t) (task_id t) (is_active t) (type t).

(** [Task::operator<]: the higher priority, then the earlier time comes first. *)
Definition Task_lt {Fn} (a b : Task Fn) : bool :=
  if negb (priority a =? priority b) then priority a <? priority b
  else execution_time b <? execution_time a.

(** A priority queue is the list of its elements; [pop] takes a greatest one. *)
Class PriorityQueue := {
  pq_pop : ∀ {A}, (A → A → bool) → list A → option (A * list A);
  pq_pop_nil : ∀ {A} (lt : A → A → bool), pq_pop lt [] = None;
  pq_pop_cons : ∀ {A} (lt : A → A → bool) x l, pq_pop lt (x :: l) ≠ None;
  pq_pop_perm : ∀ {A} (lt : A → A → bool) l x l', pq_pop lt l = Some (x, l') → l ≡ₚ x :: l';
  pq_pop_top : ∀ {A} (lt : A → A → bool) l x l', strict_weak lt →
    pq_pop lt l = Some (x, l') → ∀ y, y ∈ l → lt x y = false
}.

(** ** The task queue of the workers *)

Section event_loop.
Context {Fn : Type} `{PriorityQueue}.

Record TaskQueue := mkQueue { high : list (Task Fn); middle : list (Task Fn); low : list (Task Fn) }.

Definition queue_push (t : Task Fn) (q : TaskQueue) : TaskQueue :=
  if 0 <? priority t then mkQueue (t :: high q) (middle q) (low q)
  else if priority t <? 0 then mkQueue (high q) (middle q) (t :: low q)
  else mkQueue (high q) (t :: middle q) (low q).

(** The first queue that is not empty gives its top. *)
Definition queue_pop (q : TaskQueue) : option (Task Fn * TaskQueue) :=
  match pq_pop Task_lt (high q) with
  | Some (t, l) => Some (t, mkQueue l (middle q) (low q))
  | None =>
      match pq_pop Task_lt (middle q) with
      | Some (t, l) => Some (t, mkQueue (high q) l (low q))
      | None =>
          match pq_pop Task_lt (low q) with
          | Some (t, l) => Some (t, mkQueue (high q) (middle q) l)
          | None => None
          end
      end
  end.

Definition queue_tasks (q : TaskQueue) : list (Task Fn) := high q ++ middle q ++ low q.

(** ** The loop *)

Record EventLoop := mkLoop {
  task_queue : TaskQueue;
  legacy_tasks : list (Task Fn);
  stop_flag : bool;
  event_subscribers : gmap string (list (closure Fn));
  next_task_id : Z
}.

#[global] Instance EventLoop_eta : Eta EventLoop := λ l,
  mkLoop (task_queue l) (legacy_tasks l) (stop_flag l) (event_subscribers l) (next_task_id l).

Definition EventLoop_new : EventLoop := mkLoop (mkQueue [] [] []) [] false ∅ 0.

(** [legacy_tasks_.emplace(Task{f, priority, time, next_task_id_.fetch_add(1)})]. *)
Definition emplace (f : closure Fn) (prio time : Z) (l : EventLoop) : EventLoop :=
  l <| legacy_tasks ::= cons (mkTask f prio time (next_task_id l) true Normal) |>
    <| next_task_id ::= (λ n, to_int (n + 1)) |>.

Definition post (prio : Z) (f : closure Fn) (now : Z) (l : EventLoop) : EventLoop :=
  emplace f prio now l.

Definition postDelayed (delay prio : Z) (f : closure Fn) (now : Z) (l : EventLoop) : EventLoop :=
  emplace f prio (now + delay * NS_PER_MS) l.

Definition postCancelable (flag : nat) (f : Fn) (now : Z) (l : EventLoop) : EventLoop :=
  emplace (Guarded flag f) 0 now l.

Definition schedulePeriodic (interval prio : Z) (f : Fn) (now : Z) (l : EventLoop) : EventLoop :=
  post prio (PeriodicWrapper interval prio f) now l.

Definition setTimeout (f : Fn) (delay now : Z) (l : EventLoop) : EventLoop :=
  postDelayed delay 0 (Plain f) now l.

Definition setInterval (f : Fn) (interval now : Z) (l : EventLoop) : EventLoop :=
  schedulePeriodic interval 0 f now l.

Definition adjustTaskPriority (id new_priority : Z) (l : EventLoop) : EventLoop * bool :=
  (l <| legacy_tasks ::= map (λ t, if task_id t =? id then t <| priority := new_priority |> else t) |>,
   existsb (λ t, task_id t =? id) (legacy_tasks l)).

Definition subscribeEvent (name : string) (f : closure Fn) (l : EventLoop) : EventLoop :=
  l <| event_subscribers ::= (λ m, <[name := default [] (m !! name) ++ [f]]> m) |>.

(** The lock of the queue is held while the subscribers are posted, and [post]
    takes the same lock: [None] is the caller waiting for itself. *)
Definition emitEvent (name : string) (l : EventLoop) : option EventLoop :=
  match event_subscribers l !! name with
  | Some (_ :: _) => None
  | _ => Some l
  end.

Definition stop (l : EventLoop) : EventLoop := l <| stop_flag := true |>.

(** One pass of the batch: at most [n] pops, [now i] the clock of the [i]-th. *)
Fixpoint batch (n i : nat) (now : nat → Z) (q : TaskQueue) : TaskQueue * list (Task Fn) :=
  match n with
  | O => (q, [])
  | S n =>
      match queue_pop q with
      | None => (q, [])
      | Some (t, q') =>
          if (execution_time t <=? now i) && is_active t
          then let '(q'', ts) := batch n (S i) now q' in (q'', t :: ts)
          else batch n (S i) now (queue_push t q')
      end
  end.

Definition batch_size : nat := 16.

(** The closures an iteration of [workerThread] calls, in order; what they do
    to the loop is the client's business. *)
Definition worker_iteration (now : nat → Z) (l : EventLoop) : EventLoop * list (closure Fn) :=
  if stop_flag l then (l, []) else
  let '(q, local_tasks) := batch batch_size 0 now (task_queue l) in
  let requeue q t :=
    match type t with
    | Periodic => queue_push (t <| execution_time ::= Z.add (100 * NS_PER_MS) |>) q
    | _ => q
    end in
  (l <| task_queue := fold_left requeue local_tasks q |>,
   map function (filter (λ t, is_active t = true) local_tasks)).

(** * Properties *)

(** ** The queue *)

Lemma Task_lt_strict_weak : strict_weak (@Task_lt Fn).
Proof.
  split.
  - intros a. unfold Task_lt. rewrite Z.eqb_refl. apply Z.ltb_irrefl.
  - intros a b c. unfold Task_lt.
    destruct (Z.eqb_spec (priority a) (priority b)), (Z.eqb_spec (priority b) (priority c)),
      (Z.eqb_spec (priority a) (priority c)); cbn; rewrite ?Z.ltb_lt; lia.
  - intros a b c. unfold Task_lt.
    destruct (Z.eqb_spec (priority b) (priority a)), (Z.eqb_spec (priority c) (priority b)),
      (Z.eqb_spec (priority c) (priority a)); cbn; rewrite ?Z.ltb_ge; lia.
Qed.

(** Each of the three queues holds the priorities it is for. *)
Definition queue_wf (q : TaskQueue) : Prop :=
  Forall (λ t, 0 < priority t) (high q) ∧ Forall (λ t, priority t = 0) (middle q)
  ∧ Forall (λ t, priority t < 0) (low q).

Lemma queue_push_wf t q : queue_wf q → queue_wf (queue_push t q).
Proof.
  intros (Hh & Hm & Hl). unfold queue_push.
  destruct (Z.ltb_spec 0 (priority t)); [by split_and!; [constructor|..]|].
  destruct (Z.ltb_spec (priority t) 0); split_and!; try done; constructor; try done; lia.
Qed.

Lemma queue_push_tasks t q : queue_tasks (queue_push t q) ≡ₚ t :: queue_tasks q.
Proof.
  unfold queue_push, queue_tasks. destruct (0 <? priority t); [done|].
  destruct (priority t <? 0); cbn.
  - rewrite (assoc_L (++)), <- Permutation_middle. by rewrite <- (assoc_L (++)).
  - by rewrite <- Permutation_middle.
Qed.

Lemma pq_pop_None {A} (lt : A → A → bool) l : pq_pop lt l = None → l = [].
Proof. destruct l; [done|]. by intros ?%pq_pop_cons. Qed.

(** The three queues together are one priority queue. *)
Lemma queue_pop_spec q t q' :
  queue_wf q → queue_pop q = Some (t, q') →
  queue_wf q' ∧ queue_tasks q ≡ₚ t :: queue_tasks q' ∧ ∀ y, y ∈ queue_tasks q → Task_lt t y = false.
Proof.
  intros (Hh & Hm & Hl). unfold queue_pop, queue_tasks.
  assert (∀ a b, priority b < priority a → Task_lt (Fn := Fn) a b = false) as Hlt.
  { intros a b Hab. unfold Task_lt. rewrite (proj2 (Z.eqb_neq _ _)) by lia. apply Z.ltb_ge. lia. }
  rewrite Forall_forall in Hh, Hm, Hl.
  destruct (pq_pop Task_lt (high q)) as [[x l]|] eqn:Eh.
  { intros [= <- <-]. pose proof (pq_pop_perm _ _ _ _ Eh) as Hp.
    split; [split_and!; apply Forall_forall; try done; intros y Hy; apply Hh; rewrite Hp; by right|].
    split; [by rewrite Hp|]. assert (0 < priority x) by (apply Hh; rewrite Hp; by left).
    intros y [Hy|[Hy|Hy]%elem_of_app]%elem_of_app.
    - by apply (pq_pop_top _ _ _ _ Task_lt_strict_weak Eh).
    - apply Hlt. by rewrite (Hm y Hy).
    - apply Hlt. specialize (Hl y Hy). lia. }
  apply pq_pop_None in Eh. rewrite Eh.
  destruct (pq_pop Task_lt (middle q)) as [[x l]|] eqn:Em.
  { intros [= <- <-]. pose proof (pq_pop_perm _ _ _ _ Em) as Hp.
    split; [split_and!; apply Forall_forall; cbn; rewrite ?Eh; try done;
      [by intros y ?%not_elem_of_nil|intros y Hy; apply Hm; rewrite Hp; by right]|].
    cbn. rewrite ?Eh. split; [by rewrite Hp|].
    assert (priority x = 0) as Hx by (apply Hm; rewrite Hp; by left).
    intros y [Hy|Hy]%elem_of_app.
    - by apply (pq_pop_top _ _ _ _ Task_lt_strict_weak Em).
    - apply Hlt. rewrite Hx. by apply Hl. }
  apply pq_pop_None in Em. rewrite Em.
  destruct (pq_pop Task_lt (low q)) as [[x l]|] eqn:El; [|done].
  intros [= <- <-]. pose proof (pq_pop_perm _ _ _ _ El) as Hp.
  split; [split_and!; apply Forall_forall; cbn; rewrite ?Eh, ?Em;
    [by intros y ?%not_elem_of_nil..|intros y Hy; apply Hl; rewrite Hp; by right]|].
  cbn. rewrite ?Eh, ?Em. split; [done|]. by apply (pq_pop_top _ _ _ _ Task_lt_strict_weak El).
Qed.

(** A task that is not due and precedes all others hides those that are due. *)
Lemma batch_blocked n : ∀ i now q,
  queue_wf q →
  (∀ t, t ∈ queue_tasks q → (∀ y, y ∈ queue_tasks q → Task_lt t y = false) →
     ∀ i, now i < execution_time t) →
  (batch n i now q).2 = [] ∧ queue_tasks (batch n i now q).1 ≡ₚ queue_tasks q.
Proof.
  induction n as [|n IH]; intros i now q Hq Hdue; [done|]. cbn [batch].
  destruct (queue_pop q) as [[t q']|] eqn:E; [|done].
  destruct (queue_pop_spec _ _ _ Hq E) as (Hq' & Hp & Htop).
  assert (now i < execution_time t) as Ht by (apply Hdue; [rewrite Hp; by left|done]).
  rewrite (proj2 (Z.leb_gt _ _)) by lia. cbn [andb].
  assert (queue_tasks (queue_push t q') ≡ₚ queue_tasks q) as Hperm by by rewrite queue_push_tasks, Hp.
  destruct (IH (S i) now (queue_push t q')) as [E1 E2].
  - by apply queue_push_wf.
  - intros u Hu Hmax. apply Hdue; [by rewrite <- Hperm|]. intros y Hy. apply Hmax. by rewrite Hperm.
  - split; [done|]. by rewrite E2.
Qed.
End event_loop.

Arguments TaskQueue : clear implicits.
Arguments EventLoop : clear implicits.

(** ** Posted tasks *)

Section posted.
Context {Fn : Type} `{PriorityQueue}.

(** What the clients and the workers do to a loop, with the closures called. *)
Inductive loop_step : EventLoop Fn → list (closure Fn) → EventLoop Fn → Prop :=
| step_post prio f now l : loop_step l [] (post prio f now l)
| step_postDelayed delay prio f now l : loop_step l [] (postDelayed delay prio f now l)
| step_postCancelable flag f now l : loop_step l [] (postCancelable flag f now l)
| step_schedulePeriodic interval prio f now l : loop_step l [] (schedulePeriodic interval prio f now l)
| step_adjust id prio l : loop_step l [] (adjustTaskPriority id prio l).1
| step_subscribe name f l : loop_step l [] (subscribeEvent name f l)
| step_emit name l l' : emitEvent name l = Some l' → loop_step l [] l'
| step_stop l : loop_step l [] (stop l)
| step_worker now l : loop_step l (worker_iteration now l).2 (worker_iteration now l).1.

(** A run, and all closures called in it. *)
Inductive loop_run : EventLoop Fn → list (closure Fn) → EventLoop Fn → Prop :=
| run_nil l : loop_run l [] l
| run_step l fs1 l1 fs2 l2 : loop_run l fs1 l1 → loop_step l1 fs2 l2 → loop_run l (fs1 ++ fs2) l2.

(** Nothing is in the queue the workers take from. *)
Definition workers_idle (l : EventLoop Fn) : Prop := task_queue l = mkQueue [] [] [].

Lemma batch_empty n i now : batch (Fn := Fn) n i now (mkQueue [] [] []) = (mkQueue [] [] [], []).
Proof. destruct n; [done|]. cbn [batch]. unfold queue_pop. cbn. by rewrite !pq_pop_nil. Qed.

Lemma worker_idle now l :
  workers_idle l → worker_iteration now l = (l, []).
Proof.
  intros Hl. unfold worker_iteration. destruct (stop_flag l); [done|].
  rewrite Hl, batch_empty. cbn. by rewrite <- Hl; destruct l.
Qed.

Lemma loop_step_idle l fs l' :
  loop_step l fs l' → workers_idle l →
  workers_idle l' ∧ fs = [] ∧ map function (legacy_tasks l) `suffix_of` map function (legacy_tasks l').
Proof.
  intros Hs Hl. inversion Hs; subst; clear Hs.
  1-4: split; [exact Hl|]; split; [done|]; by eexists [_].
  - split; [exact Hl|]. split; [done|]. cbn. rewrite map_map. exists []. cbn.
    apply map_ext. intros t. by destruct (task_id t =? id).
  - split; [exact Hl|]. split; [done|]. by exists [].
  - unfold emitEvent in *. destruct (event_subscribers l !! name) as [[|]|]; simplify_eq;
      (split; [exact Hl|]; split; [done|]; by exists []).
  - split; [exact Hl|]. split; [done|]. by exists [].
  - rewrite worker_idle by done. split; [exact Hl|]. split; [done|]. by exists [].
Qed.

Lemma loop_run_idle l fs l' :
  loop_run l fs l' → workers_idle l →
  workers_idle l' ∧ fs = [] ∧ map function (legacy_tasks l) `suffix_of` map function (legacy_tasks l').
Proof.
  induction 1 as [|l fs1 l1 fs2 l2 Hr IH Hs]; intros Hl; [by split; [|split; [|exists []]]|].
  destruct (IH Hl) as (H1 & -> & Hsuf1). destruct (loop_step_idle _ _ _ Hs H1) as (H2 & -> & Hsuf2).
  split; [done|]. split; [done|]. by etrans.
Qed.

(** [C17] The workers never run a posted task.  Whatever is posted, delayed,
    scheduled or subscribed on a new loop, and however many iterations its
    worker threads make, no closure is ever called, and each posted one stays in
    the queue that no worker looks at. *)
Theorem posted_tasks_never_run l fs :
  loop_run EventLoop_new fs l →
  fs = []
  ∧ (∀ delay prio f now fs' l',
       loop_run (post prio f now l) fs' l' ∨ loop_run (postDelayed delay prio f now l) fs' l' →
       fs' = [] ∧ f ∈ map function (legacy_tasks l')).
Proof.
  intros Hl. destruct (loop_run_idle _ _ _ Hl) as (H1 & -> & _); [done|]. split; [done|].
  intros delay prio f now fs' l' [Hr|Hr];
    (destruct (loop_run_idle _ _ _ Hr) as (_ & -> & [pre ->]); [exact H1|]);
    (split; [done|]; apply elem_of_app; right; by left).
Qed.
End posted.

(** A priority queue that takes the first greatest element. *)
Fixpoint pop_first {A} (lt : A → A → bool) (l : list A) : option (A * list A) :=
  match l with
  | [] => None
  | x :: l' =>
      match pop_first lt l' with
      | None => Some (x, [])
      | Some (y, l'') => if lt x y then Some (y, x :: l'') else Some (x, l')
      end
  end.

Lemma pop_first_cons {A} (lt : A → A → bool) x l : pop_first lt (x :: l) ≠ None.
Proof. cbn. by destruct (pop_first lt l) as [[y l']|]; [destruct (lt x y)|]. Qed.

Lemma pop_first_perm {A} (lt : A → A → bool) l x l' : pop_first lt l = Some (x, l') → l ≡ₚ x :: l'.
Proof.
  revert x l'. induction l as [|z l IH]; intros x l'; [done|]. cbn.
  destruct (pop_first lt l) as [[y l'']|] eqn:E.
  - destruct (lt z y); intros [= <- <-]; [|done]. rewrite (IH y l'') by done. apply Permutation_swap.
  - intros [= <- <-]. destruct l; [done|]. by apply pop_first_cons in E.
Qed.

Lemma pop_first_top {A} (lt : A → A → bool) l x l' :
  strict_weak lt → pop_first lt l = Some (x, l') → ∀ y, y ∈ l → lt x y = false.
Proof.
  intros Hsw. revert x l'. induction l as [|z l IH]; intros x l'; [done|]. cbn.
  destruct (pop_first lt l) as [[y l'']|] eqn:E.
  - assert (∀ u, u ∈ l → lt y u = false) as Hy by (intros u Hu; by eapply IH).
    destruct (lt z y) eqn:Ezy; intros [= <- <-] u Hu; apply elem_of_cons in Hu as [->|Hu]; auto.
    + destruct (lt y z) eqn:Eyz; [|done]. rewrite <- (sw_irrefl _ Hsw z). symmetry.
      by apply (sw_trans _ Hsw z y z).
    + by apply sw_irrefl.
    + by apply (sw_negative _ Hsw u y z); [apply Hy|].
  - intros [= <- <-] u [->|Hu]%elem_of_cons; [apply (sw_irrefl _ Hsw)|].
    destruct l; [by apply elem_of_nil in Hu|]. by apply pop_first_cons in E.
Qed.

Definition first_queue : PriorityQueue := {|
  pq_pop A := pop_first;
  pq_pop_nil A lt := eq_refl;
  pq_pop_cons A := pop_first_cons;
  pq_pop_perm A := pop_first_perm;
  pq_pop_top A := pop_first_top
|}.

Lemma posted_tasks_never_run_witness :
  let P := first_queue in
  let l := postDelayed 5 1 (Plain 1%nat) 0 EventLoop_new in
  ∃ l', loop_run (post 1 (Plain 2%nat) 7 l) [] l' ∧ Plain 2%nat ∈ map function (legacy_tasks l').
Proof.
  intros P l.
  assert (loop_run EventLoop_new ([] ++ []) l) as Hl.
  { eapply run_step; [apply run_nil|apply step_postDelayed]. }
  exists (post 1 (Plain 2%nat) 7 l).
  assert (loop_run (post 1 (Plain 2%nat) 7 l) [] (post 1 (Plain 2%nat) 7 l)) as Hr by apply run_nil.
  split; [exact Hr|].
  exact (proj2 (proj2 (posted_tasks_never_run l _ Hl) 0 1 (Plain 2%nat) 7 [] _ (or_introl Hr))).
Defined.

(** A delayed task of higher priority keeps a due one from running. *)
Lemma due_task_hidden :
  let P := first_queue in
  let urgent := mkTask (Plain 1%nat) 5 100 0 true Normal in
  let due := mkTask (Plain 2%nat) 0 0 1 true Normal in
  let l := EventLoop_new <| task_queue := queue_push urgent (queue_push due (mkQueue [] [] [])) |> in
  (worker_iteration (λ _, 10) l).2 = [].
Proof. done. Qed.
