(* ===== verification/ServerTasks.v ===== *)
(** * ServerTasks: the asynchronous tasks of the server

    Models class TaskManager of src/src/server/task_manager.hpp and
    task_manager.cpp.  A task is a shared object: the map of tasks and the
    closure handed to the event loop point to the same one, so tasks live in a
    [heap] and survive there when the map forgets them.  The closure of a task
    is a job with the steps that other threads can come between: looking at the
    cancellation flag, starting, and finishing after the runner.  The event loop
    is an interface, [Loop]; the last section puts in the one of EventLoop.
    Runners touch their task through the manager's methods, as all in the
    repository do.  Doubles are a type [F] with the three operations used.
    Left out: locks (a method body under the lock is one step), log output. *)

From S2P Require Import Prelude Json EventLoop.

Local Open Scope Z_scope.

Inductive Status := Pending | Running | Completed | Failed | Cancelled.

#[export] Instance Status_eq_dec : EqDecision Status.
Proof. solve_decision. Defined.

Definition active (s : Status) : bool := bool_decide (s = Pending) || bool_decide (s = Running).

(** What the manager asks of the loop; closures are numbered. *)
Class Loop (L : Type) := {
  loop_post : Z → nat → Z → L → L;
  loop_postDelayed : Z → Z → nat → Z → L → L
}.

Class Double (F : Type) := {
  dbl_zero : F;
  dbl_hundred : F;
  dbl_clamp : F → F                              (* std::clamp(_, 0.0, 100.0) *)
}.

Section task_manager.
Context {J F L : Type} `{JO : JsonOps J, DF : Double F, LL : Loop L}.

Record TaskInfo := mkInfo {
  id : string;
  type : string;
  status : Status;
  error : string;
  params : J;
  result_json : J;
  createdAt : Z;
  updatedAt : Z;
  cancelRequested : bool;
  priority : Z;
  progress : F;
  progressMessage : string
}.

#[global] Instance TaskInfo_eta : Eta TaskInfo := λ t,
  mkInfo (id t) (type t) (status t) (error t) (params t) (result_json t) (createdAt t)
    (updatedAt t) (cancelRequested t) (priority t) (progress t) (progressMessage t).

Record PeriodicTaskInfo := mkPeriodic { ptype : string; interval : Z; cancelled : bool }.

#[global] Instance PeriodicTaskInfo_eta : Eta PeriodicTaskInfo := λ p,
  mkPeriodic (ptype p) (interval p) (cancelled p).

(** A closure in the hands of the loop. *)
Inductive job :=
| JobWaiting (loc : nat) (delayed : bool)        (* not called yet *)
| JobReady (loc : nat) (delayed : bool)          (* called, the flag was not set *)
| JobRunning (loc : nat)                         (* in the runner *)
| JobPeriodic (pid : string) (ploc : nat)        (* of runPeriodicTask *)
| JobPeriodicRunning (pid : string) (ploc : nat).

Record TaskManager := mkManager {
  event_loop : option L;                         (* None: the weak pointer expired *)
  heap : gmap nat TaskInfo;
  tasks : gmap string nat;
  task_order : list string;
  has_callback : bool;
  notified : list TaskInfo;                      (* what the callback was given *)
  periodic_heap : gmap nat PeriodicTaskInfo;
  periodic_tasks : gmap string nat;
  total_submitted : Z;
  total_completed : Z;
  total_failed : Z;
  total_cancelled : Z;
  jobs : gmap nat job;
  next_loc : nat                                 (* names of new objects *)
}.

#[global] Instance TaskManager_eta : Eta TaskManager := λ m,
  mkManager (event_loop m) (heap m) (tasks m) (task_order m) (has_callback m) (notified m)
    (periodic_heap m) (periodic_tasks m) (total_submitted m) (total_completed m) (total_failed m)
    (total_cancelled m) (jobs m) (next_loc m).

Definition TaskManager_new (loop : option L) : TaskManager :=
  mkManager loop ∅ ∅ [] false [] ∅ ∅ 0 0 0 0 ∅ 0.

Definition setStatusCallback (cb : bool) (m : TaskManager) : TaskManager := m <| has_callback := cb |>.

(** A write through the pointer. *)
Definition modify (loc : nat) (f : TaskInfo → TaskInfo) (m : TaskManager) : TaskManager :=
  m <| heap ::= alter f loc |>.

Definition count (field : TaskManager → Z) `{Upd TaskManager Z field} (m : TaskManager) : TaskManager :=
  m <| field ::= (λ n, to_size (n + 1)) |>.

Definition notifyStatus (loc : nat) (m : TaskManager) : TaskManager :=
  match heap m !! loc with
  | Some t => if has_callback m then m <| notified ::= (λ l, l ++ [t]) |> else m
  | None => m
  end.

(** ** Submitting *)

(** A new task enters the map and the order. *)
Definition register (task : TaskInfo) (m : TaskManager) : TaskManager :=
  let loc := next_loc m in
  count total_submitted
    (m <| next_loc ::= S |> <| heap ::= <[loc := task]> |> <| tasks ::= <[id task := loc]> |>
       <| task_order ::= (λ l, l ++ [id task]) |>).

(** There is no loop to run it. *)
Definition no_loop (loc : nat) (m : TaskManager) : TaskManager :=
  let m := modify loc (λ t, t <| status := Failed |> <| error := "EventLoop not available"%string |>) m in
  notifyStatus loc (count total_failed m).

(** Its closure is posted to the loop, now or after a delay. *)
Definition hand_over (loc : nat) (prio : Z) (delay : option Z) (steady : Z) (l : L) (m : TaskManager) : TaskManager :=
  let l := match delay with
           | Some d => loop_postDelayed d prio loc steady l
           | None => loop_post prio loc steady l
           end in
  m <| event_loop := Some l |>
    <| jobs ::= <[loc := JobWaiting loc (match delay with Some _ => true | None => false end)]> |>.

(** The common body of [submitTask] and [submitDelayedTask]; [new_id] is the
    generated UUID, [now] the system clock, [steady] the loop's. *)
Definition submit (ty : string) (ps : J) (prio : Z) (msg : string) (delay : option Z)
    (new_id : string) (now steady : Z) (m : TaskManager) : TaskManager * string :=
  let loc := next_loc m in
  let task := mkInfo new_id ty Pending "" ps j_null now now false prio dbl_zero msg in
  let m := notifyStatus loc (register task m) in
  match event_loop m with
  | None => (no_loop loc m, new_id)
  | Some l => (hand_over loc prio delay steady l m, new_id)
  end.

Definition submitTask (ty : string) (ps : J) (prio : Z) (new_id : string) (now steady : Z)
    (m : TaskManager) : TaskManager * string :=
  submit ty ps prio "" None new_id now steady m.

Definition submitDelayedTask (ty : string) (ps : J) (delay prio : Z) (new_id : string) (now steady : Z)
    (m : TaskManager) : TaskManager * string :=
  submit ty ps prio "Waiting for delayed start" (Some delay) new_id now steady m.

(** ** The closure of a task *)

(** It is called, and looks at the flag. *)
Definition job_check (j : nat) (now : Z) (m : TaskManager) : option TaskManager :=
  match jobs m !! j with
  | Some (JobWaiting loc delayed) =>
      t ← heap m !! loc;
      Some (if cancelRequested t then
        let m := modify loc (λ t, t <| status := Cancelled |> <| updatedAt := now |>) m in
        let m := count total_cancelled m in
        notifyStatus loc m <| jobs ::= delete j |>
      else m <| jobs ::= <[j := JobReady loc delayed]> |>)
  | _ => None
  end.

(** It marks the task as running and calls the runner. *)
Definition job_start (j : nat) (now : Z) (m : TaskManager) : option TaskManager :=
  match jobs m !! j with
  | Some (JobReady loc delayed) =>
      let m := modify loc (λ t, t <| status := Running |>) m in
      let m := if delayed then modify loc (λ t, t <| progressMessage := "" |>) m else m in
      let m := modify loc (λ t, t <| updatedAt := now |>) m in
      Some (notifyStatus loc m <| jobs ::= <[j := JobRunning loc]> |>)
  | _ => None
  end%string.

(** How the runner ends: it returns, or throws a [std::exception] or something
    else, which no handler of the closure catches. *)
Inductive runner_end := Returns | Throws (what : string) | ThrowsOther.

Definition job_finish (j : nat) (how : runner_end) (now : Z) (m : TaskManager) : option TaskManager :=
  match jobs m !! j with
  | Some (JobRunning loc) =>
      t ← heap m !! loc;
      let fin m := notifyStatus loc (modify loc (λ t, t <| updatedAt := now |>) m) <| jobs ::= delete j |> in
      Some match how with
        | Returns =>
            if cancelRequested t && negb (bool_decide (status t = Failed)) then
              fin (count total_cancelled (modify loc (λ t, t <| status := Cancelled |>) m))
            else if active (status t) then
              fin (count total_completed
                (modify loc (λ t, t <| status := Completed |> <| progress := dbl_hundred |>) m))
            else fin m
        | Throws what =>
            fin (count total_failed (modify loc (λ t, t <| status := Failed |> <| error := what |>) m))
        | ThrowsOther => m <| jobs ::= delete j |>
        end
  | _ => None
  end.

(** ** Looking up and changing tasks *)

Definition getTask (i : string) (m : TaskManager) : option TaskInfo :=
  loc ← tasks m !! i; heap m !! loc.

Definition cancelTask (i : string) (now : Z) (m : TaskManager) : TaskManager * bool :=
  match tasks m !! i with
  | None => (m, false)
  | Some loc =>
      let m := modify loc (λ t, t <| cancelRequested := true |>) m in
      let m := match heap m !! loc with
               | Some t =>
                   if bool_decide (status t = Pending) then
                     count total_cancelled
                       (modify loc (λ t, t <| status := Cancelled |> <| updatedAt := now |>) m)
                   else m
               | None => m
               end in
      (notifyStatus loc m, true)
  end.

Definition updateProgress (i : string) (p : F) (msg : string) (now : Z) (m : TaskManager) : TaskManager * bool :=
  match tasks m !! i with
  | None => (m, false)
  | Some loc =>
      let m := modify loc (λ t, t <| progress := dbl_clamp p |>) m in
      let m := if str_empty msg then m else modify loc (λ t, t <| progressMessage := msg |>) m in
      let m := modify loc (λ t, t <| updatedAt := now |>) m in
      (notifyStatus loc m, true)
  end.

Definition setResult (i : string) (r : J) (now : Z) (m : TaskManager) : TaskManager * bool :=
  match tasks m !! i with
  | None => (m, false)
  | Some loc =>
      (notifyStatus loc (modify loc (λ t, t <| result_json := r |> <| updatedAt := now |>) m), true)
  end.

Definition failTask (i : string) (err : string) (now : Z) (m : TaskManager) : TaskManager * bool :=
  match tasks m !! i with
  | None => (m, false)
  | Some loc =>
      let m := modify loc (λ t, t <| status := Failed |> <| error := err |> <| updatedAt := now |>) m in
      (notifyStatus loc (count total_failed m), true)
  end.

(** The tasks of the given identifiers that the map still has, and that pass. *)
Definition select (p : TaskInfo → bool) (ids : list string) (m : TaskManager) : list TaskInfo :=
  omap (λ i, t ← getTask i m; if p t then Some t else None) ids.

Definition listActiveTasks (m : TaskManager) : list TaskInfo := select (λ t, active (status t)) (task_order m) m.
Definition listTasksByStatus (s : Status) (m : TaskManager) : list TaskInfo :=
  select (λ t, bool_decide (status t = s)) (task_order m) m.
Definition listTasksByType (ty : string) (m : TaskManager) : list TaskInfo :=
  select (λ t, String.eqb (type t) ty) (task_order m) m.

(** The loop of [listAllTasks] over the reversed order. *)
Fixpoint list_page (limit offset count skipped : nat) (ids : list string) (m : TaskManager) : list TaskInfo :=
  match ids with
  | [] => []
  | i :: ids =>
      if (skipped <? offset)%nat then list_page limit offset count (S skipped) ids m else
      match getTask i m with
      | Some t =>
          t :: (if (0 <? limit)%nat && (limit <=? S count)%nat then []
                else list_page limit offset (S count) skipped ids m)
      | None => list_page limit offset count skipped ids m
      end
  end.

Definition listAllTasks (limit offset : nat) (m : TaskManager) : list TaskInfo :=
  list_page limit offset 0 0 (reverse (task_order m)) m.

(** ** Cleaning up *)

Definition NS_PER_S : Z := 1000000000.

(** The pass over the order: the map, the order and the count after it. *)
Fixpoint cleanup_loop (max_age now : Z) (h : gmap nat TaskInfo) (ids : list string)
    (ts : gmap string nat) : gmap string nat * list string * nat :=
  match ids with
  | [] => (ts, [], O)
  | i :: ids =>
      match (loc ← ts !! i; t ← h !! loc; Some t) with
      | None => cleanup_loop max_age now h ids ts
      | Some t =>
          if negb (active (status t)) && (max_age <? Z.quot (now - updatedAt t) NS_PER_S) then
            let '(ts, rest, n) := cleanup_loop max_age now h ids (delete i ts) in (ts, rest, S n)
          else
            let '(ts, rest, n) := cleanup_loop max_age now h ids ts in (ts, i :: rest, n)
      end
  end.

Definition cleanupOldTasks (max_age now : Z) (m : TaskManager) : TaskManager * nat :=
  let '(ts, order, n) := cleanup_loop max_age now (heap m) (task_order m) (tasks m) in
  (m <| tasks := ts |> <| task_order := order |>, n).

Record Stats := mkStats {
  st_total : nat; st_pending : nat; st_running : nat; st_completed : nat; st_failed : nat; st_cancelled : nat
}.

Definition count_status (s : Status) (m : TaskManager) : nat :=
  length (filter (λ p, (status <$> heap m !! p.2) = Some s) (map_to_list (tasks m))).

Definition getStats (m : TaskManager) : Stats :=
  mkStats (size (tasks m)) (count_status Pending m) (count_status Running m) (count_status Completed m)
    (count_status Failed m) (count_status Cancelled m).

(** ** Periodic tasks *)

Definition runPeriodicTask (pid : string) (steady : Z) (m : TaskManager) : TaskManager :=
  match (ploc ← periodic_tasks m !! pid; info ← periodic_heap m !! ploc; Some (ploc, info)) with
  | None => m
  | Some (ploc, info) =>
      if cancelled info then m else
      match event_loop m with
      | None => m
      | Some l =>
          let j := next_loc m in
          m <| event_loop := Some (loop_postDelayed (interval info) 0 j steady l) |>
            <| jobs ::= <[j := JobPeriodic pid ploc]> |> <| next_loc ::= S |>
      end
  end.

Definition schedulePeriodicTask (ty : string) (ival : Z) (pid : string) (steady : Z) (m : TaskManager) :
    TaskManager * string :=
  let ploc := next_loc m in
  let m := m <| next_loc ::= S |> <| periodic_heap ::= <[ploc := mkPeriodic ty ival false]> |>
             <| periodic_tasks ::= <[pid := ploc]> |> in
  (runPeriodicTask pid steady m, pid).

Definition cancelPeriodicTask (pid : string) (m : TaskManager) : TaskManager * bool :=
  match periodic_tasks m !! pid with
  | None => (m, false)
  | Some ploc =>
      (m <| periodic_heap ::= alter (λ p, p <| cancelled := true |>) ploc |>
         <| periodic_tasks ::= delete pid |>, true)
  end.

(** The closure of a periodic task: the runner is called unless cancelled. *)
Definition job_periodic_call (j : nat) (m : TaskManager) : option (TaskManager * bool) :=
  match jobs m !! j with
  | Some (JobPeriodic pid ploc) =>
      info ← periodic_heap m !! ploc;
      Some (if cancelled info then (m <| jobs ::= delete j |>, false)
            else (m <| jobs ::= <[j := JobPeriodicRunning pid ploc]> |>, true))
  | _ => None
  end.

(** The runner has returned, or thrown a [std::exception]: scheduled again. *)
Definition job_periodic_finish (j : nat) (steady : Z) (m : TaskManager) : option TaskManager :=
  match jobs m !! j with
  | Some (JobPeriodicRunning pid ploc) => Some (runPeriodicTask pid steady (m <| jobs ::= delete j |>))
  | _ => None
  end.

(** ** Steps *)

(** What any thread may do at any time, the loop calling each closure once. *)
Inductive manager_step : TaskManager → TaskManager → Prop :=
| ms_submit ty ps prio new_id now steady m :
    new_id ∉ task_order m → manager_step m (submitTask ty ps prio new_id now steady m).1
| ms_submitDelayed ty ps delay prio new_id now steady m :
    new_id ∉ task_order m → manager_step m (submitDelayedTask ty ps delay prio new_id now steady m).1
| ms_check j now m m' : job_check j now m = Some m' → manager_step m m'
| ms_start j now m m' : job_start j now m = Some m' → manager_step m m'
| ms_finish j how now m m' : how ≠ ThrowsOther → job_finish j how now m = Some m' → manager_step m m'
| ms_cancel i now m : manager_step m (cancelTask i now m).1
| ms_progress i p msg now m : manager_step m (updateProgress i p msg now m).1
| ms_result i r now m : manager_step m (setResult i r now m).1
| ms_fail i err now m : manager_step m (failTask i err now m).1
| ms_cleanup max_age now m : manager_step m (cleanupOldTasks max_age now m).1
| ms_callback cb m : manager_step m (setStatusCallback cb m)
| ms_expired m : manager_step m (m <| event_loop := None |>)
| ms_periodic ty ival pid steady m : manager_step m (schedulePeriodicTask ty ival pid steady m).1
| ms_cancelPeriodic pid m : manager_step m (cancelPeriodicTask pid m).1
| ms_periodic_call j m m' b : job_periodic_call j m = Some (m', b) → manager_step m m'
| ms_periodic_finish j steady m m' : job_periodic_finish j steady m = Some m' → manager_step m m'.

(** * Properties *)

(** ** The invariant *)

(** The status of a task whose runner has not been called. *)
Definition before_start (t : TaskInfo) : Prop :=
  match status t with
  | Pending | Failed => True
  | Cancelled => cancelRequested t = true
  | Running | Completed => False
  end.

Definition job_ok (m : TaskManager) (j : nat) (jb : job) : Prop :=
  match jb with
  | JobWaiting loc _ | JobReady loc _ => j = loc ∧ ∃ t, heap m !! loc = Some t ∧ before_start t
  | JobRunning loc => j = loc ∧ is_Some (heap m !! loc)
  | JobPeriodic _ ploc | JobPeriodicRunning _ ploc => heap m !! j = None ∧ is_Some (periodic_heap m !! ploc)
  end.

(** The map and the order name the same tasks; closures belong to tasks that
    exist; an active task has its closure in the hands of the loop. *)
Record manager_inv (m : TaskManager) : Prop := {
  inv_heap_fresh : ∀ loc, (next_loc m ≤ loc)%nat → heap m !! loc = None;
  inv_jobs_fresh : ∀ j, (next_loc m ≤ j)%nat → jobs m !! j = None;
  inv_tasks : ∀ i loc, tasks m !! i = Some loc → ∃ t, heap m !! loc = Some t ∧ id t = i;
  inv_periodic : ∀ pid ploc, periodic_tasks m !! pid = Some ploc → is_Some (periodic_heap m !! ploc);
  inv_order : NoDup (task_order m) ∧ ∀ i, i ∈ task_order m ↔ is_Some (tasks m !! i);
  inv_jobs : ∀ j jb, jobs m !! j = Some jb → job_ok m j jb;
  inv_active : ∀ loc t, heap m !! loc = Some t → active (status t) = true → is_Some (jobs m !! loc)
}.

(** The fields the invariant speaks about. *)
Definition same_state (m m' : TaskManager) : Prop :=
  heap m' = heap m ∧ jobs m' = jobs m ∧ tasks m' = tasks m ∧ task_order m' = task_order m
  ∧ periodic_heap m' = periodic_heap m ∧ periodic_tasks m' = periodic_tasks m ∧ next_loc m' = next_loc m.

Lemma inv_same m m' : same_state m m' → manager_inv m → manager_inv m'.
Proof.
  intros (E1 & E2 & E3 & E4 & E5 & E6 & E7) [H1 H2 H3 H4 H5 H6 H7].
  split; rewrite ?E1, ?E2, ?E3, ?E4, ?E5, ?E6, ?E7; try done.
  intros j jb Hj. specialize (H6 j jb Hj). unfold job_ok in *. by rewrite E1, E5.
Qed.

Lemma notify_same loc m : same_state m (notifyStatus loc m).
Proof. unfold notifyStatus. destruct (heap m !! loc), (has_callback m); by split_and!. Qed.

(** Writing one task and replacing its closure. *)
Lemma inv_write loc f jobs' m :
  manager_inv m → (∀ t, id (f t) = id t) →
  (∀ j, j ≠ loc → jobs' !! j = jobs m !! j) →
  (∀ t, heap m !! loc = Some t →
     (active (status (f t)) = true → is_Some (jobs' !! loc)) ∧
     (∀ jb, jobs' !! loc = Some jb → job_ok (m <| heap ::= alter f loc |>) loc jb)) →
  (heap m !! loc = None → jobs' !! loc = jobs m !! loc) →
  manager_inv (m <| heap ::= alter f loc |> <| jobs := jobs' |>).
Proof.
  intros Hi Hid Hj Hloc Hnone. pose proof Hi as [H1 H2 H3 H4 H5 H6 H7].
  assert (∀ l, heap m !! l = None → alter f loc (heap m) !! l = None) as Hn.
  { intros l Hl. destruct (decide (l = loc)) as [->|]; [by rewrite lookup_alter_eq, Hl|].
    by rewrite lookup_alter_ne. }
  split; cbn.
  - intros l Hl. by apply Hn, H1.
  - intros l Hl. destruct (decide (l = loc)) as [->|Hne]; [|by rewrite Hj, H2].
    rewrite Hnone by by apply H1. by apply H2.
  - intros i l Hl. destruct (H3 i l Hl) as (t & Ht & Hti).
    destruct (decide (l = loc)) as [->|]; [rewrite lookup_alter_eq, Ht|rewrite lookup_alter_ne by done]; eauto.
    cbn. exists (f t). by rewrite Hid.
  - done.
  - done.
  - intros j jb Hjb. destruct (decide (j = loc)) as [->|Hne].
    + destruct (heap m !! loc) as [t|] eqn:Et; [by apply (Hloc t eq_refl)|].
      rewrite Hnone in Hjb by done. pose proof (H6 _ _ Hjb) as Hok. unfold job_ok in *.
      destruct jb; try (destruct Hok as [-> (t & Ht & _)]; by rewrite Et in Ht);
        try (destruct Hok as [-> Hs]; rewrite Et in Hs; by destruct Hs); (destruct Hok; split; [by apply Hn|done]).
    + rewrite Hj in Hjb by done. pose proof (H6 _ _ Hjb) as Hok. unfold job_ok in *. cbn.
      destruct jb; try (destruct Hok as [-> Ht]; split; [done|]; by rewrite lookup_alter_ne);
        (destruct Hok; split; [by apply Hn|done]).
  - intros l t Hl Ha. destruct (decide (l = loc)) as [->|Hne].
    + rewrite lookup_alter_eq in Hl. destruct (heap m !! loc) as [t0|] eqn:Et; [|done].
      cbn in Hl. simplify_eq. by apply (Hloc t0 eq_refl).
    + rewrite lookup_alter_ne in Hl by done. rewrite Hj by done. by eapply H7.
Qed.

(** The same, the closures staying as they are: the new status is not active
    without a closure, and keeps the promise of a closure not yet started. *)
Lemma inv_modify loc f m :
  manager_inv m → (∀ t, id (f t) = id t) →
  (∀ t, heap m !! loc = Some t →
     (active (status (f t)) = true → is_Some (jobs m !! loc)) ∧ (before_start t → before_start (f t))) →
  manager_inv (modify loc f m).
Proof.
  intros Hi Hid Hloc.
  apply (inv_same (m <| heap ::= alter f loc |> <| jobs := jobs m |>)); [by split_and!|].
  apply inv_write; try done. intros t Ht. destruct (Hloc t Ht) as [Ha Hb]. split; [done|].
  intros jb Hjb. pose proof (inv_jobs m Hi _ _ Hjb) as Hok. unfold job_ok in *. cbn.
  destruct jb as [l d|l d|l|p l|p l].
  1-2: destruct Hok as (<- & t' & Ht' & Hs); rewrite Ht in Ht'; injection Ht' as <-;
    rewrite lookup_alter_eq, Ht; cbn; eauto.
  - destruct Hok as (<- & _). rewrite lookup_alter_eq, Ht. by split.
  - destruct Hok as [E _]. by rewrite Ht in E.
  - destruct Hok as [E _]. by rewrite Ht in E.
Qed.

(** What notifying and counting leave alone. *)
Lemma notify_heap loc m : heap (notifyStatus loc m) = heap m.
Proof. apply (notify_same loc m). Qed.
Lemma notify_jobs loc m : jobs (notifyStatus loc m) = jobs m.
Proof. apply (notify_same loc m). Qed.
Lemma notify_tasks loc m : tasks (notifyStatus loc m) = tasks m.
Proof. apply (notify_same loc m). Qed.
Lemma notify_order loc m : task_order (notifyStatus loc m) = task_order m.
Proof. apply (notify_same loc m). Qed.
Lemma notify_pheap loc m : periodic_heap (notifyStatus loc m) = periodic_heap m.
Proof. apply (notify_same loc m). Qed.
Lemma notify_ptasks loc m : periodic_tasks (notifyStatus loc m) = periodic_tasks m.
Proof. apply (notify_same loc m). Qed.
Lemma notify_next loc m : next_loc (notifyStatus loc m) = next_loc m.
Proof. apply (notify_same loc m). Qed.
Lemma notify_loop loc m : event_loop (notifyStatus loc m) = event_loop m.
Proof. unfold notifyStatus. by destruct (heap m !! loc), (has_callback m). Qed.
End task_manager.

Arguments TaskInfo : clear implicits.
Arguments TaskManager : clear implicits.

Create Rewrite HintDb notify.
#[export] Hint Rewrite @notify_heap @notify_jobs @notify_tasks @notify_order @notify_pheap
  @notify_ptasks @notify_next @notify_loop : notify.

(** Proves two states the same, field by field. *)
Ltac same_fields :=
  unfold same_state, modify, count; cbn; autorewrite with notify; cbn;
  autorewrite with notify; cbn; by split_and!.

Section invariant.
Context {J F L : Type} `{JO : JsonOps J, DF : Double F, LL : Loop L}.
Implicit Types m : TaskManager J F L.

Lemma inv_new_task new_id (task : TaskInfo J F) jobs' m :
  let loc := next_loc m in
  manager_inv m → id task = new_id → new_id ∉ task_order m →
  (jobs' = jobs m ∧ active (status task) = false
   ∨ ∃ d, jobs' = <[loc := JobWaiting loc d]> (jobs m) ∧ before_start task) →
  manager_inv (m <| next_loc ::= S |> <| heap ::= <[loc := task]> |> <| tasks ::= <[new_id := loc]> |>
    <| task_order ::= (λ l, l ++ [new_id]) |> <| jobs := jobs' |>).
Proof.
  intros loc Hi Hid Hfresh Hjobs. pose proof Hi as [H1 H2 H3 H4 [H5 H5'] H6 H7].
  assert (∀ j, j ≠ loc → jobs' !! j = jobs m !! j) as Hj.
  { intros j Hne. destruct Hjobs as [[-> _]|(d & -> & _)]; [done|by rewrite lookup_insert_ne]. }
  assert (heap m !! loc = None) as Hloc by by apply H1.
  assert (jobs m !! loc = None) as Hjloc by by apply H2.
  split; cbn.
  - intros l Hl. rewrite lookup_insert_ne by (unfold loc; lia). apply H1. lia.
  - intros j Hl. rewrite Hj by (unfold loc; lia). apply H2. lia.
  - intros i l. rewrite lookup_insert_Some. intros [[<- <-]|[Hne Hl]].
    + exists task. by rewrite lookup_insert_eq.
    + destruct (H3 i l Hl) as (t & Ht & Hti). exists t. rewrite lookup_insert_ne; [done|].
      intros <-. by rewrite Hloc in Ht.
  - done.
  - split.
    + apply NoDup_app. split; [done|]. split; [|apply NoDup_singleton].
      by intros i Hi' ->%list_elem_of_singleton.
    + intros i. rewrite elem_of_app, list_elem_of_singleton, H5', lookup_insert_is_Some'.
      naive_solver.
  - intros j jb Hjb. unfold job_ok. cbn. destruct (decide (j = loc)) as [->|Hne].
    + destruct Hjobs as [[-> _]|(d & -> & Hb)]; [by rewrite Hjloc in Hjb|].
      rewrite lookup_insert_eq in Hjb. injection Hjb as <-. split; [done|].
      exists task. by rewrite lookup_insert_eq.
    + rewrite Hj in Hjb by done. pose proof (H6 _ _ Hjb) as Hok. unfold job_ok in Hok. cbn.
      destruct jb as [l d|l d|l|p l|p l].
      1-2: destruct Hok as (<- & t & Ht & Hs); split; [done|]; exists t; by rewrite lookup_insert_ne.
      * destruct Hok as (<- & Hs). split; [done|]. by rewrite lookup_insert_ne.
      * destruct Hok. split; [by rewrite lookup_insert_ne|done].
      * destruct Hok. split; [by rewrite lookup_insert_ne|done].
  - intros l t. rewrite lookup_insert_Some. intros [[<- <-]|[Hne Hl]] Ha.
    + destruct Hjobs as [[-> Hn]|(d & -> & _)]; [by rewrite Hn in Ha|by rewrite lookup_insert_eq].
    + rewrite Hj by done. by eapply H7.
Qed.

Lemma register_fields task m :
  let m' := register task m in let loc := next_loc m in
  next_loc m' = S loc ∧ tasks m' = <[id task := loc]> (tasks m) ∧ task_order m' = task_order m ++ [id task]
  ∧ periodic_heap m' = periodic_heap m ∧ periodic_tasks m' = periodic_tasks m
  ∧ heap m' = <[loc := task]> (heap m) ∧ jobs m' = jobs m ∧ event_loop m' = event_loop m.
Proof. by split_and!. Qed.

Lemma no_loop_fields loc m :
  let m' := no_loop loc m in
  next_loc m' = next_loc m ∧ tasks m' = tasks m ∧ task_order m' = task_order m
  ∧ periodic_heap m' = periodic_heap m ∧ periodic_tasks m' = periodic_tasks m
  ∧ heap m' = alter (λ t, t <| status := Failed |> <| error := "EventLoop not available"%string |>) loc (heap m)
  ∧ jobs m' = jobs m ∧ event_loop m' = event_loop m.
Proof. unfold no_loop. cbv zeta. autorewrite with notify. by split_and!. Qed.

Lemma hand_over_fields loc prio delay steady l m :
  let m' := hand_over loc prio delay steady l m in
  next_loc m' = next_loc m ∧ tasks m' = tasks m ∧ task_order m' = task_order m
  ∧ periodic_heap m' = periodic_heap m ∧ periodic_tasks m' = periodic_tasks m ∧ heap m' = heap m
  ∧ jobs m' = <[loc := JobWaiting loc (match delay with Some _ => true | None => false end)]> (jobs m)
  ∧ event_loop m' = Some match delay with
                         | Some d => loop_postDelayed d prio loc steady l
                         | None => loop_post prio loc steady l
                         end.
Proof. by split_and!. Qed.

(** The state after a submission, field by field. *)
Lemma submit_spec ty ps prio msg delay new_id now steady m :
  let loc := next_loc m in
  let task := mkInfo new_id ty Pending "" ps j_null now now false prio dbl_zero msg in
  let m' := (submit ty ps prio msg delay new_id now steady m).1 in
  next_loc m' = S loc ∧ tasks m' = <[new_id := loc]> (tasks m) ∧ task_order m' = task_order m ++ [new_id]
  ∧ periodic_heap m' = periodic_heap m ∧ periodic_tasks m' = periodic_tasks m
  ∧ match event_loop m with
    | Some l =>
        heap m' = <[loc := task]> (heap m)
        ∧ jobs m' = <[loc := JobWaiting loc (match delay with Some _ => true | None => false end)]> (jobs m)
        ∧ ∃ l', event_loop m' = Some l'
            ∧ l' = match delay with
                   | Some d => loop_postDelayed d prio loc steady l
                   | None => loop_post prio loc steady l
                   end
    | None =>
        heap m' = <[loc := task <| status := Failed |> <| error := "EventLoop not available"%string |>]> (heap m)
        ∧ jobs m' = jobs m ∧ event_loop m' = None
    end.
Proof.
  intros loc task. unfold submit. fold loc task. rewrite notify_loop.
  destruct (register_fields task m) as (R1 & R2 & R3 & R4 & R5 & R6 & R7 & R8). rewrite R8.
  fold loc in R1, R2, R3, R6. clearbody loc.
  pose proof (notify_same loc (register task m)) as (N1 & N2 & N3 & N4 & N5 & N6 & N7).
  rewrite R6 in N1. rewrite R7 in N2. rewrite R2 in N3. rewrite R3 in N4. rewrite R4 in N5.
  rewrite R5 in N6. rewrite R1 in N7.
  pose proof (notify_loop loc (register task m)) as N8. rewrite R8 in N8.
  destruct (event_loop m) as [l|]; cbn [fst].
  - destruct (hand_over_fields loc prio delay steady l (notifyStatus loc (register task m)))
      as (-> & -> & -> & -> & -> & -> & -> & ->).
    rewrite N1, N2, N3, N4, N5, N6, N7. split_and!; eauto.
  - destruct (no_loop_fields loc (notifyStatus loc (register task m)))
      as (-> & -> & -> & -> & -> & -> & -> & ->).
    rewrite N1, N2, N3, N4, N5, N6, N7, N8, alter_insert_eq. by split_and!.
Qed.

Lemma submit_inv ty ps prio msg delay new_id now steady m :
  manager_inv m → new_id ∉ task_order m →
  manager_inv (submit ty ps prio msg delay new_id now steady m).1.
Proof.
  intros Hi Hn. pose proof (submit_spec ty ps prio msg delay new_id now steady m) as Hs.
  destruct (submit _ _ _ _ _ _ _ _ m) as [m' i]. cbn [fst] in *.
  destruct Hs as (E1 & E2 & E3 & E4 & E5 & Hs).
  set (task := mkInfo new_id ty Pending "" ps j_null now now false prio dbl_zero msg) in Hs.
  destruct (event_loop m) as [l|].
  - destruct Hs as (E6 & E7 & _).
    eapply inv_same; [|eapply (inv_new_task new_id task _ m Hi eq_refl Hn); right; by eexists].
    unfold same_state. rewrite E1, E2, E3, E4, E5, E6, E7. by split_and!.
  - destruct Hs as (E6 & E7 & _). set (task' := task <| status := _ |> <| error := _ |>) in E6.
    eapply inv_same; [|eapply (inv_new_task new_id task' _ m Hi eq_refl Hn); by left].
    unfold same_state. rewrite E1, E2, E3, E4, E5, E6, E7. by split_and!.
Qed.

Lemma alter_alter {A} (f g h : A → A) (l : nat) (h1 : gmap nat A) :
  (∀ t, h t = f (g t)) → alter f l (alter g l h1) = alter h l h1.
Proof.
  intros Hh. apply map_eq. intros k. destruct (decide (k = l)) as [->|].
  - rewrite !lookup_alter_eq. destruct (h1 !! l); cbn; by rewrite ?Hh.
  - by rewrite !lookup_alter_ne.
Qed.

(** The closure [j] of the task [loc] ends or moves on, and the task is written. *)
Lemma inv_job_write j loc f jobs' m m' :
  manager_inv m → same_state (m <| heap ::= alter f loc |> <| jobs := jobs' |>) m' →
  (∀ t, id (f t) = id t) → (∀ j', j' ≠ loc → jobs' !! j' = jobs m !! j') →
  j = loc → is_Some (heap m !! loc) →
  (∀ t, heap m !! loc = Some t →
     match jobs' !! loc with
     | None => active (status (f t)) = false
     | Some (JobReady l _) => l = loc ∧ before_start (f t)
     | Some (JobRunning l) => l = loc
     | _ => False
     end) →
  manager_inv m'.
Proof.
  intros Hi Hs Hid Hj -> [t0 Ht0] Hok. apply (inv_same _ _ Hs).
  apply inv_write; try done; [|by rewrite Ht0].
  intros t Ht. specialize (Hok t Ht). destruct (jobs' !! loc) as [[l d|l d|l|p l|p l]|]; try done.
  - destruct Hok as [-> Hb]. split; [done|]. intros jb [= <-]. split; [done|].
    exists (f t). cbn. by rewrite lookup_alter_eq, Ht.
  - subst l. split; [done|]. intros jb [= <-]. split; [done|]. cbn. by rewrite lookup_alter_eq, Ht.
  - by rewrite Hok.
Qed.

Lemma job_check_inv j now m m' : manager_inv m → job_check j now m = Some m' → manager_inv m'.
Proof.
  intros Hi. unfold job_check. destruct (jobs m !! j) as [[loc d|loc d|loc|p l|p l]|] eqn:Ej; try done.
  destruct (inv_jobs m Hi _ _ Ej) as (-> & t & Ht & Hb). rewrite Ht. cbn. intros [= <-].
  destruct (cancelRequested t) eqn:Ec.
  - apply (inv_job_write loc loc (λ t, t <| status := Cancelled |> <| updatedAt := now |>)
      (delete loc (jobs m)) m); try done.
    + same_fields.
    + intros j' Hj'. by rewrite lookup_delete_ne.
    + intros ? _. by rewrite lookup_delete_eq.
  - apply (inv_job_write loc loc (λ t, t) (<[loc := JobReady loc d]> (jobs m)) m); try done.
    + unfold same_state. cbn. rewrite alter_id by done. by split_and!.
    + intros j' Hj'. by rewrite lookup_insert_ne.
    + intros t' Ht'. rewrite lookup_insert_eq. by simplify_eq.
Qed.

Lemma job_start_inv j now m m' : manager_inv m → job_start j now m = Some m' → manager_inv m'.
Proof.
  intros Hi. unfold job_start. destruct (jobs m !! j) as [[loc d|loc d|loc|p l|p l]|] eqn:Ej; try done.
  destruct (inv_jobs m Hi _ _ Ej) as (-> & t & Ht & Hb). intros [= <-].
  apply (inv_job_write loc loc
    (λ t, (if d then (t <| status := Running |>) <| progressMessage := ""%string |> else t <| status := Running |>)
      <| updatedAt := now |>) (<[loc := JobRunning loc]> (jobs m)) m); try done.
  - destruct d; (unfold same_state, modify; cbn; autorewrite with notify; cbn; split_and!; try done).
    + rewrite (alter_alter _ _ (λ t, t <| progressMessage := ""%string |> <| updatedAt := now |>)) by done.
      by apply alter_alter.
    + by apply alter_alter.
  - by destruct d.
  - intros j' Hj'. by rewrite lookup_insert_ne.
  - intros t' Ht'. by rewrite lookup_insert_eq.
Qed.

Lemma job_finish_inv j how now m m' :
  manager_inv m → how ≠ ThrowsOther → job_finish j how now m = Some m' → manager_inv m'.
Proof.
  intros Hi Hhow. unfold job_finish. destruct (jobs m !! j) as [[loc d|loc d|loc|p l|p l]|] eqn:Ej; try done.
  destruct (inv_jobs m Hi _ _ Ej) as (-> & t & Ht). rewrite Ht. cbn. intros [= <-].
  assert (∀ f, (∀ t, id (f t) = id t) → active (status (f t)) = false →
    ∀ m1, same_state (modify loc f m) m1 →
    manager_inv (notifyStatus loc (modify loc (λ t, t <| updatedAt := now |>) m1) <| jobs ::= delete loc |>)) as Hfin.
  { intros f Hid Hf m1 (E1 & E2 & E3 & E4 & E5 & E6 & E7).
    apply (inv_job_write loc loc (λ t, (f t) <| updatedAt := now |>) (delete loc (jobs m)) m); try done.
    - unfold same_state. cbn. autorewrite with notify. cbn. rewrite E1, E2, E3, E4, E5, E6, E7. cbn.
      split_and!; try done. by apply alter_alter.
    - intros j' Hj'. by rewrite lookup_delete_ne.
    - intros t' Ht'. rewrite lookup_delete_eq. by simplify_eq. }
  destruct how as [|what|]; [|by apply (Hfin (λ t, t <| status := Failed |> <| error := what |>)); [..|same_fields]|done].
  destruct (cancelRequested t && _) eqn:Ec.
  { by apply (Hfin (λ t, t <| status := Cancelled |>)); [..|same_fields]. }
  destruct (active (status t)) eqn:Ea.
  { by apply (Hfin (λ t, t <| status := Completed |> <| progress := dbl_hundred |>)); [..|same_fields]. }
  apply (Hfin (λ t, t)); try done. unfold same_state, modify. cbn. rewrite alter_id by done. by split_and!.
Qed.

(** A write that only makes a task less active and keeps it cancellable. *)
Lemma inv_soft loc f m m' :
  manager_inv m → same_state (modify loc f m) m' → (∀ t, id (f t) = id t) →
  (∀ t, active (status (f t)) = true → active (status t) = true) →
  (∀ t, before_start t → before_start (f t)) → manager_inv m'.
Proof.
  intros Hi Hs Hid Ha Hb. apply (inv_same _ _ Hs), inv_modify; try done.
  intros t Ht. split; [|auto]. intros Hf. by eapply (inv_active m Hi), Ha.
Qed.

Lemma cancelTask_inv i now m : manager_inv m → manager_inv (cancelTask i now m).1.
Proof.
  intros Hi. unfold cancelTask. destruct (tasks m !! i) as [loc|] eqn:El; [|done].
  destruct (inv_tasks m Hi _ _ El) as (t & Ht & _).
  cbn. rewrite lookup_alter_eq, Ht. cbn. case_bool_decide as Hp.
  - apply (inv_soft loc (λ t, t <| cancelRequested := true |> <| status := Cancelled |> <| updatedAt := now |>) m);
      try done.
    unfold same_state, modify, count; cbn; autorewrite with notify; cbn. split_and!; try done.
    by apply alter_alter.
  - apply (inv_soft loc (λ t, t <| cancelRequested := true |>) m); try done; [same_fields|].
    intros t'. unfold before_start. cbn. by destruct (status t').
Qed.

Lemma updateProgress_inv i p msg now m : manager_inv m → manager_inv (updateProgress i p msg now m).1.
Proof.
  intros Hi. unfold updateProgress. destruct (tasks m !! i) as [loc|] eqn:El; [|done]. cbn.
  apply (inv_soft loc (λ t, (if str_empty msg then t <| progress := dbl_clamp p |>
    else t <| progress := dbl_clamp p |> <| progressMessage := msg |>) <| updatedAt := now |>) m); try done.
  - destruct (str_empty msg); (unfold same_state, modify; cbn; autorewrite with notify; cbn; split_and!; try done).
    + by apply alter_alter.
    + rewrite (alter_alter _ _ (λ t, t <| progressMessage := msg |> <| updatedAt := now |>)) by done.
      by apply alter_alter.
  - by destruct (str_empty msg).
  - by destruct (str_empty msg).
  - intros t. by destruct (str_empty msg).
Qed.

Lemma setResult_inv i r now m : manager_inv m → manager_inv (setResult i r now m).1.
Proof.
  intros Hi. unfold setResult. destruct (tasks m !! i) as [loc|] eqn:El; [|done]. cbn.
  by apply (inv_soft loc (λ t, t <| result_json := r |> <| updatedAt := now |>) m); [|same_fields|..].
Qed.

Lemma failTask_inv i err now m : manager_inv m → manager_inv (failTask i err now m).1.
Proof.
  intros Hi. unfold failTask. destruct (tasks m !! i) as [loc|] eqn:El; [|done]. cbn.
  by apply (inv_soft loc (λ t, t <| status := Failed |> <| error := err |> <| updatedAt := now |>) m);
    [|same_fields|..].
Qed.

(** ** Cleaning up *)

(** A task that goes. *)
Definition stale (max_age now : Z) (t : TaskInfo J F) : bool :=
  negb (active (status t)) && (max_age <? Z.quot (now - updatedAt t) NS_PER_S).

(** The pass keeps the tasks that are not stale, and counts the others. *)
Lemma cleanup_loop_spec max_age now (h : gmap nat (TaskInfo J F)) ids : ∀ ts,
  NoDup ids → (∀ i, i ∈ ids → ∃ loc t, ts !! i = Some loc ∧ h !! loc = Some t) →
  let '(ts', order, n) := cleanup_loop max_age now h ids ts in
  let keep i := ∀ loc t, ts !! i = Some loc → h !! loc = Some t → stale max_age now t = false in
  order `sublist_of` ids ∧ (∀ i, i ∈ order ↔ i ∈ ids ∧ keep i) ∧ n = (length ids - length order)%nat
  ∧ (∀ i, i ∉ ids → ts' !! i = ts !! i)
  ∧ (∀ i, i ∈ ids → keep i → ts' !! i = ts !! i) ∧ (∀ i, i ∈ ids → ¬ keep i → ts' !! i = None).
Proof.
  induction ids as [|i ids IH]; intros ts Hnd Hids.
  { cbn. split; [done|]. split; [intros i; rewrite elem_of_nil; tauto|].
    split; [done|]. split; [done|]. split; by intros i ?%elem_of_nil. }
  apply NoDup_cons in Hnd as [Hi Hnd]. cbn [cleanup_loop].
  destruct (Hids i) as (loc & t & Hloc & Ht); [by left|]. rewrite Hloc. cbn. rewrite Ht. cbn.
  fold (stale max_age now t).
  assert (∀ k, (∀ loc' t', ts !! i = Some loc' → h !! loc' = Some t' → stale max_age now t' = k) ↔
    stale max_age now t = k) as Hkeep.
  { intros k. split; [by intros Hk; eapply Hk|]. by intros <- loc' t' ??; simplify_eq. }
  destruct (stale max_age now t) eqn:Es.
  - assert (∀ j, j ∈ ids → (delete i ts : gmap string nat) !! j = ts !! j) as Hdel.
    { intros j Hj. apply lookup_delete_ne. by intros ->. }
    specialize (IH (delete i ts) Hnd). destruct (cleanup_loop max_age now h ids (delete i ts)) as [[ts' order] n].
    destruct IH as (H1 & H2 & H3 & H4 & H5 & H6).
    { intros j Hj. rewrite Hdel by done. apply Hids. by right. }
    assert (length order ≤ length ids)%nat as Hlen by by apply sublist_length.
    split; [by apply sublist_cons|]. split; [|split; [cbn; lia|split; [|split]]].
    + intros j. rewrite H2, elem_of_cons. split.
      * intros [Hj Hk]. split; [by right|]. by rewrite Hdel in Hk.
      * intros [[->|Hj] Hk]; [by apply Hkeep in Hk|]. split; [done|]. by rewrite Hdel.
    + intros j [Hji Hj]%not_elem_of_cons. rewrite H4 by done. by apply lookup_delete_ne.
    + intros j [->|Hj]%elem_of_cons Hk; [by apply Hkeep in Hk|]. rewrite <- (Hdel j Hj). apply H5; [done|].
      by rewrite Hdel.
    + intros j [->|Hj]%elem_of_cons Hk; [rewrite H4 by done; apply lookup_delete_eq|].
      apply H6; [done|]. by rewrite Hdel.
  - specialize (IH ts Hnd). destruct (cleanup_loop max_age now h ids ts) as [[ts' order] n].
    destruct IH as (H1 & H2 & H3 & H4 & H5 & H6).
    { intros j Hj. apply Hids. by right. }
    split; [by apply sublist_skip|]. split; [|split; [cbn; lia|split; [|split]]].
    + intros j. rewrite !elem_of_cons, H2. split.
      * intros [->|[Hj Hk]]; [split; [by left|by apply Hkeep]|split; [by right|done]].
      * intros [[->|Hj] Hk]; [by left|by right].
    + intros j [Hji Hj]%not_elem_of_cons. by apply H4.
    + intros j [->|Hj]%elem_of_cons Hk; [by apply H4|by apply H5].
    + intros j [->|Hj]%elem_of_cons Hk; [by destruct Hk; apply Hkeep|by apply H6].
Qed.

(** The identifiers in the order lead to tasks. *)
Lemma inv_found m i : manager_inv m → i ∈ task_order m →
  ∃ loc t, tasks m !! i = Some loc ∧ heap m !! loc = Some t ∧ id t = i.
Proof.
  intros Hi [loc Hloc]%(proj2 (inv_order m Hi)). destruct (inv_tasks m Hi _ _ Hloc) as (t & Ht & ?). eauto.
Qed.

Lemma inv_cleanup_loop max_age now m :
  manager_inv m →
  let '(ts', order, n) := cleanup_loop max_age now (heap m) (task_order m) (tasks m) in
  order `sublist_of` task_order m ∧ n = (length (task_order m) - length order)%nat
  ∧ (∀ i, i ∈ order ↔ is_Some (ts' !! i))
  ∧ (∀ i, ts' !! i = loc ← tasks m !! i; t ← heap m !! loc; if stale max_age now t then None else Some loc).
Proof.
  intros Hi. pose proof (cleanup_loop_spec max_age now (heap m) (task_order m) (tasks m)) as Hc.
  destruct (cleanup_loop _ _ _ _ _) as [[ts' order] n].
  destruct Hc as (H1 & H2 & H3 & H4 & H5 & H6).
  { apply (inv_order m Hi). }
  { intros i Hin. destruct (inv_found m i Hi Hin) as (loc & t & ? & ? & _). eauto. }
  assert (∀ i, ts' !! i = loc ← tasks m !! i; t ← heap m !! loc; if stale max_age now t then None else Some loc) as Hts.
  { intros i. destruct (decide (i ∈ task_order m)) as [Hin|Hni].
    - destruct (inv_found m i Hi Hin) as (loc & t & Hl & Ht & _). rewrite Hl. cbn. rewrite Ht. cbn.
      destruct (stale max_age now t) eqn:Es.
      + apply H6; [done|]. intros Hk. specialize (Hk loc t Hl Ht). by rewrite Es in Hk.
      + rewrite <- Hl. apply H5; [done|]. intros loc' t' ??. by simplify_eq.
    - rewrite H4 by done. destruct (tasks m !! i) eqn:E; [|done]. destruct Hni.
      apply (proj2 (inv_order m Hi)). by rewrite E. }
  split; [done|]. split; [done|]. split; [|done]. intros i. rewrite H2, Hts. split.
  - intros [Hin Hk]. destruct (inv_found m i Hi Hin) as (loc & t & Hl & Ht & _). rewrite Hl. cbn.
    rewrite Ht. cbn. by rewrite (Hk loc t Hl Ht).
  - intros [loc' Hs]. destruct (tasks m !! i) as [loc|] eqn:Hl; [|done]. cbn in Hs.
    destruct (heap m !! loc) as [t|] eqn:Ht; [|done]. cbn in Hs.
    destruct (stale max_age now t) eqn:Es; [done|]. split; [apply (proj2 (inv_order m Hi)); by rewrite Hl|].
    intros ????. by simplify_eq.
Qed.

Lemma cleanup_inv max_age now m : manager_inv m → manager_inv (cleanupOldTasks max_age now m).1.
Proof.
  intros Hi. pose proof (inv_cleanup_loop max_age now m Hi) as Hc. unfold cleanupOldTasks.
  destruct (cleanup_loop _ _ _ _ _) as [[ts' order] n]. destruct Hc as (Hsub & _ & Hord & Hts).
  pose proof Hi as [H1 H2 H3 H4 H5 H6 H7]. split; cbn; try done.
  - intros i loc. rewrite Hts. destruct (tasks m !! i) as [loc'|] eqn:Hl; [|done]. cbn.
    destruct (heap m !! loc') as [t|] eqn:Ht; [|done]. cbn. destruct (stale _ _ _); [done|].
    intros [= ->]. by apply H3.
  - split; [|done]. eapply sublist_NoDup; [apply H5|done].
Qed.

(** ** Periodic tasks *)

Lemma runPeriodicTask_inv pid steady m : manager_inv m → manager_inv (runPeriodicTask pid steady m).
Proof.
  intros Hi. pose proof Hi as [H1 H2 H3 H4 H5 H6 H7]. unfold runPeriodicTask.
  destruct (periodic_tasks m !! pid) as [ploc|] eqn:Ep; [|done]. cbn.
  destruct (periodic_heap m !! ploc) as [info|] eqn:Ei; [|done]. cbn.
  destruct (cancelled info); [done|]. destruct (event_loop m) as [l|]; [|done].
  split; cbn; try done.
  - intros loc Hl. apply H1. lia.
  - intros j Hj. rewrite lookup_insert_ne by lia. apply H2. lia.
  - intros j jb. rewrite lookup_insert_Some. intros [[<- <-]|[Hne Hjb]].
    + split; [by apply H1|]. cbn. by rewrite Ei.
    + exact (H6 j jb Hjb).
  - intros loc t Ht Ha. rewrite lookup_insert_is_Some'. right. by eapply H7.
Qed.

(** A change of the periodic tasks only. *)
Lemma inv_periodic_change m ph pt n :
  manager_inv m → (next_loc m ≤ n)%nat →
  (∀ ploc, is_Some (periodic_heap m !! ploc) → is_Some (ph !! ploc)) →
  (∀ pid ploc, pt !! pid = Some ploc → is_Some (ph !! ploc)) →
  manager_inv (m <| periodic_heap := ph |> <| periodic_tasks := pt |> <| next_loc := n |>).
Proof.
  intros [H1 H2 H3 H4 H5 H6 H7] Hn Hph Hpt. split; cbn; try done.
  - intros loc Hl. apply H1. lia.
  - intros j Hj. apply H2. lia.
  - intros j jb Hjb. specialize (H6 j jb Hjb). unfold job_ok in *. cbn.
    destruct jb; try done; (destruct H6 as [E Hs]; split; [done|by apply Hph]).
Qed.

Lemma schedulePeriodicTask_inv ty ival pid steady m :
  manager_inv m → manager_inv (schedulePeriodicTask ty ival pid steady m).1.
Proof.
  intros Hi. unfold schedulePeriodicTask. cbn. apply runPeriodicTask_inv.
  eapply inv_same; [|apply (inv_periodic_change m (<[next_loc m := mkPeriodic ty ival false]> (periodic_heap m))
    (<[pid := next_loc m]> (periodic_tasks m)) (S (next_loc m)) Hi)].
  - by split_and!.
  - lia.
  - intros ploc Hp. rewrite lookup_insert_is_Some'. by right.
  - intros p ploc. rewrite lookup_insert_Some, lookup_insert_is_Some'.
    intros [[_ <-]|[_ Hp]]; [by left|right]. by eapply (inv_periodic m Hi).
Qed.

Lemma cancelPeriodicTask_inv pid m : manager_inv m → manager_inv (cancelPeriodicTask pid m).1.
Proof.
  intros Hi. unfold cancelPeriodicTask. destruct (periodic_tasks m !! pid) as [ploc|]; [|done]. cbn.
  eapply inv_same; [|apply (inv_periodic_change m (alter (λ p, p <| cancelled := true |>) ploc (periodic_heap m))
    (delete pid (periodic_tasks m)) (next_loc m) Hi)]; [by split_and!|done|..].
  - intros l Hl. rewrite lookup_alter_is_Some. done.
  - intros p l [_ Hl]%lookup_delete_Some. rewrite lookup_alter_is_Some. by eapply (inv_periodic m Hi).
Qed.

(** The closure of a periodic task is not that of a task. *)
Lemma inv_periodic_job m j p ploc jb' :
  manager_inv m → jobs m !! j = Some (JobPeriodic p ploc) ∨ jobs m !! j = Some (JobPeriodicRunning p ploc) →
  jb' = None ∨ jb' = Some (JobPeriodicRunning p ploc) →
  manager_inv (m <| jobs ::= partial_alter (λ _, jb') j |>).
Proof.
  intros Hi Hj Hjb'. pose proof Hi as [H1 H2 H3 H4 H5 H6 H7].
  assert (heap m !! j = None ∧ is_Some (periodic_heap m !! ploc)) as [Hh Hp].
  { by destruct Hj as [Hj|Hj]; apply (H6 _ _ Hj). }
  assert (j < next_loc m)%nat as Hlt.
  { destruct (decide (j < next_loc m)%nat); [done|]. rewrite H2 in Hj by lia. by destruct Hj. }
  split; cbn; try done.
  - intros j' Hj'. rewrite lookup_partial_alter_ne by lia. by apply H2.
  - intros j' jb. destruct (decide (j' = j)) as [->|].
    + rewrite lookup_partial_alter_eq. destruct Hjb' as [->| ->]; [done|]. intros [= <-]. by split.
    + rewrite lookup_partial_alter_ne by done. apply H6.
  - intros loc t Ht Ha. rewrite lookup_partial_alter_ne; [by eapply H7|]. intros <-. by rewrite Hh in Ht.
Qed.

Lemma job_periodic_call_inv j m m' b : manager_inv m → job_periodic_call j m = Some (m', b) → manager_inv m'.
Proof.
  intros Hi. unfold job_periodic_call. destruct (jobs m !! j) as [[loc d|loc d|loc|p l|p l]|] eqn:Ej; try done.
  destruct (periodic_heap m !! l) as [info|]; [|done]. cbn. destruct (cancelled info); intros [= <- <-];
    (eapply inv_same; [|eapply (inv_periodic_job m j p l); [done|by left|]]; [by split_and!|auto]).
Qed.

Lemma job_periodic_finish_inv j steady m m' :
  manager_inv m → job_periodic_finish j steady m = Some m' → manager_inv m'.
Proof.
  intros Hi. unfold job_periodic_finish. destruct (jobs m !! j) as [[loc d|loc d|loc|p l|p l]|] eqn:Ej; try done.
  intros [= <-]. apply runPeriodicTask_inv.
  eapply inv_same; [|eapply (inv_periodic_job m j p l); [done|by right|]]; [by split_and!|auto].
Qed.

Lemma manager_step_inv m m' : manager_step m m' → manager_inv m → manager_inv m'.
Proof.
  intros Hs Hi. destruct Hs.
  - by apply submit_inv.
  - by apply submit_inv.
  - by eapply job_check_inv.
  - by eapply job_start_inv.
  - by eapply job_finish_inv.
  - by apply cancelTask_inv.
  - by apply updateProgress_inv.
  - by apply setResult_inv.
  - by apply failTask_inv.
  - by apply cleanup_inv.
  - by apply (inv_same m); [split_and!|].
  - by apply (inv_same m); [split_and!|].
  - by apply schedulePeriodicTask_inv.
  - by apply cancelPeriodicTask_inv.
  - by eapply job_periodic_call_inv.
  - by eapply job_periodic_finish_inv.
Qed.

Lemma new_inv loop : manager_inv (TaskManager_new loop : TaskManager J F L).
Proof.
  split; cbn; try done. split; [constructor|]. intros i. rewrite lookup_empty, elem_of_nil.
  split; [done|by intros [? ?]].
Qed.

(** The states a manager can get into. *)
Definition reachable m : Prop := ∃ loop, rtc manager_step (TaskManager_new loop) m.

Lemma steps_inv m m' : rtc manager_step m m' → manager_inv m → manager_inv m'.
Proof. induction 1; eauto using manager_step_inv. Qed.

Lemma reachable_inv m : reachable m → manager_inv m.
Proof. intros [loop Hr]. eapply steps_inv, new_inv; done. Qed.

(** ** How closures move on *)

(** What a step does to the closures: one of them moves to its next stage or
    ends, or a new one gets a name not used before. *)
Definition job_next (jb jb' : option job) : Prop :=
  match jb, jb' with
  | Some (JobWaiting loc d), Some (JobReady loc' d') => loc = loc' ∧ d = d'
  | Some (JobReady loc _), Some (JobRunning loc') => loc = loc'
  | Some (JobPeriodic p l), Some (JobPeriodicRunning p' l') => p = p' ∧ l = l'
  | Some _, None => True
  | _, _ => jb = jb'
  end.

Lemma job_next_refl jb : job_next jb jb.
Proof. by destruct jb as [[]|]. Qed.

Lemma partial_job_next (js : gmap nat job) j jb' k :
  job_next (js !! j) jb' → job_next (js !! k) (partial_alter (λ _, jb') j js !! k).
Proof.
  intros Hn. destruct (decide (k = j)) as [->|]; [by rewrite lookup_partial_alter_eq|].
  rewrite lookup_partial_alter_ne by done. apply job_next_refl.
Qed.

Lemma runPeriodicTask_jobs pid steady m k :
  (k < next_loc m)%nat → jobs (runPeriodicTask pid steady m) !! k = jobs m !! k
  ∧ (next_loc m ≤ next_loc (runPeriodicTask pid steady m))%nat.
Proof.
  intros Hk. unfold runPeriodicTask. destruct (_ ≫= _) as [[ploc info]|]; [|by split].
  destruct (cancelled info); [by split|]. destruct (event_loop m); [|by split]. cbn.
  split; [|lia]. rewrite lookup_insert_ne by lia. done.
Qed.

Lemma submit_fields ty ps prio msg delay new_id now steady m :
  let m' := (submit ty ps prio msg delay new_id now steady m).1 in
  next_loc m' = S (next_loc m) ∧ (∀ k, (k < next_loc m)%nat → jobs m' !! k = jobs m !! k)
  ∧ (∀ k, (k < next_loc m)%nat → heap m' !! k = heap m !! k).
Proof.
  pose proof (submit_spec ty ps prio msg delay new_id now steady m) as Hs.
  destruct (submit _ _ _ _ _ _ _ _ m) as [m' i]. cbn [fst] in *.
  destruct Hs as (E1 & _ & _ & _ & _ & Hs). split; [done|].
  destruct (event_loop m); destruct Hs as (E6 & E7 & _); rewrite E6, E7;
    split; intros k Hk; by rewrite ?lookup_insert_ne by lia.
Qed.

Lemma cleanup_fields max_age now m :
  let m' := (cleanupOldTasks max_age now m).1 in
  heap m' = heap m ∧ jobs m' = jobs m ∧ next_loc m' = next_loc m.
Proof. unfold cleanupOldTasks. by destruct (cleanup_loop _ _ _ _ _) as [[ts' order] n]. Qed.

Lemma cancelTask_fields i now m :
  let m' := (cancelTask i now m).1 in jobs m' = jobs m ∧ next_loc m' = next_loc m.
Proof.
  unfold cancelTask. destruct (tasks m !! i) as [loc|]; [|done]. cbn. autorewrite with notify. unfold modify. cbn.
  destruct (alter _ _ _ !! loc) as [t|]; [|done]. by case_bool_decide.
Qed.

Lemma updateProgress_fields i p msg now m :
  let m' := (updateProgress i p msg now m).1 in jobs m' = jobs m ∧ next_loc m' = next_loc m.
Proof.
  unfold updateProgress. destruct (tasks m !! i); [|done]. cbn. autorewrite with notify. by destruct (str_empty msg).
Qed.

Lemma setResult_fields i r now m :
  let m' := (setResult i r now m).1 in jobs m' = jobs m ∧ next_loc m' = next_loc m.
Proof. unfold setResult. destruct (tasks m !! i); [|done]. cbn. by autorewrite with notify. Qed.

Lemma failTask_fields i err now m :
  let m' := (failTask i err now m).1 in jobs m' = jobs m ∧ next_loc m' = next_loc m.
Proof. unfold failTask. destruct (tasks m !! i); [|done]. cbn. by autorewrite with notify. Qed.

(** The closures of the three steps of a task. *)
Lemma job_check_jobs j now m m' :
  job_check j now m = Some m' →
  next_loc m' = next_loc m ∧ ∃ jb', jobs m' = partial_alter (λ _, jb') j (jobs m) ∧ job_next (jobs m !! j) jb'
    ∧ jb' ≠ jobs m !! j.
Proof.
  unfold job_check. destruct (jobs m !! j) as [[loc d|loc d|loc|p l|p l]|]; try done.
  destruct (heap m !! loc) as [t|]; [|done]. cbn. destruct (cancelRequested t); intros [= <-]; cbn;
    autorewrite with notify; (split; [done|]); eexists; done.
Qed.

Lemma job_start_jobs j now m m' :
  job_start j now m = Some m' →
  next_loc m' = next_loc m ∧ ∃ jb', jobs m' = partial_alter (λ _, jb') j (jobs m) ∧ job_next (jobs m !! j) jb'
    ∧ jb' ≠ jobs m !! j.
Proof.
  unfold job_start. destruct (jobs m !! j) as [[loc d|loc d|loc|p l|p l]|]; try done.
  intros [= <-]. destruct d; cbn; autorewrite with notify; (split; [done|]); eexists; done.
Qed.

Lemma job_finish_jobs j how now m m' :
  job_finish j how now m = Some m' →
  next_loc m' = next_loc m ∧ jobs m' = partial_alter (λ _, None) j (jobs m) ∧ is_Some (jobs m !! j).
Proof.
  unfold job_finish. destruct (jobs m !! j) as [[loc d|loc d|loc|p l|p l]|]; try done.
  destruct (heap m !! loc) as [t|]; [|done]. cbn. intros [= <-].
  destruct how; [|by cbn; autorewrite with notify|done].
  destruct (cancelRequested t && _); [by cbn; autorewrite with notify|].
  destruct (active (status t)); by cbn; autorewrite with notify.
Qed.

(** Every step moves closures forward; names already given keep their meaning. *)
Lemma manager_step_jobs m m' :
  manager_step m m' →
  (next_loc m ≤ next_loc m')%nat ∧ ∀ k, (k < next_loc m)%nat → job_next (jobs m !! k) (jobs m' !! k).
Proof.
  assert (∀ m m' : TaskManager J F L, jobs m' = jobs m → next_loc m' = next_loc m →
    (next_loc m ≤ next_loc m')%nat ∧ ∀ k, (k < next_loc m)%nat → job_next (jobs m !! k) (jobs m' !! k)) as Hsame.
  { intros m1 m2 -> ->. split; [done|]. intros k _. apply job_next_refl. }
  intros Hs. destruct Hs as [ty ps prio i now st m|ty ps d prio i now st m|j now m m1 E|j now m m1 E|
    j how now m m1 _ E|i now m|i p msg now m|i r now m|i err now m|age now m|cb m|m|ty ival pid st m|pid m|
    j m m1 b E|j st m m1 E].
  1-2: unfold submitTask, submitDelayedTask;
    match goal with |- context [submit ?a ?b ?c ?d ?e ?f ?g ?h ?m] =>
      destruct (submit_fields a b c d e f g h m) as (E1 & E2 & _) end;
    (split; [lia|]); intros k Hk; rewrite E2 by done; apply job_next_refl.
  - destruct (job_check_jobs _ _ _ _ E) as (En & jb' & Ej & Hn & _). split; [lia|]. intros k _.
    rewrite Ej. by apply partial_job_next.
  - destruct (job_start_jobs _ _ _ _ E) as (En & jb' & Ej & Hn & _). split; [lia|]. intros k _.
    rewrite Ej. by apply partial_job_next.
  - destruct (job_finish_jobs _ _ _ _ _ E) as (En & Ej & [jb Hjb]). split; [lia|]. intros k _.
    rewrite Ej. apply partial_job_next. rewrite Hjb. by destruct jb.
  - by apply Hsame; apply cancelTask_fields.
  - by apply Hsame; apply updateProgress_fields.
  - by apply Hsame; apply setResult_fields.
  - by apply Hsame; apply failTask_fields.
  - by apply Hsame; apply cleanup_fields.
  - by apply Hsame.
  - by apply Hsame.
  - unfold schedulePeriodicTask. cbn. split.
    + match goal with |- context [runPeriodicTask pid st ?m1] =>
        destruct (runPeriodicTask_jobs pid st m1 (next_loc m)) as [_ Hle] end; [cbn; lia|]. cbn in Hle. lia.
    + intros k Hk. match goal with |- context [runPeriodicTask pid st ?m1] =>
        destruct (runPeriodicTask_jobs pid st m1 k) as [-> _] end; [cbn; lia|]. apply job_next_refl.
  - unfold cancelPeriodicTask. destruct (periodic_tasks m !! pid); by apply Hsame.
  - unfold job_periodic_call in E. destruct (jobs m !! j) as [[loc d|loc d|loc|p l|p l]|] eqn:Ej; try done.
    destruct (periodic_heap m !! l) as [info|]; [|done]. cbn in E. destruct (cancelled info);
      injection E as <- <-; (split; [done|]); intros k _; apply (partial_job_next (jobs m)); by rewrite Ej.
  - unfold job_periodic_finish in E. destruct (jobs m !! j) as [[loc d|loc d|loc|p l|p l]|] eqn:Ej; try done.
    injection E as <-. set (m1 := m <| jobs ::= delete j |>).
    split.
    + destruct (next_loc m) as [|n] eqn:En; [lia|].
      destruct (runPeriodicTask_jobs p st m1 n) as [_ Hle]; [cbn; lia|]. cbn in Hle. lia.
    + intros k Hk. destruct (runPeriodicTask_jobs p st m1 k) as [-> _]; [done|].
      apply (partial_job_next (jobs m)). by rewrite Ej.
Qed.

(** ** Tasks persist, and a cancellation request is never withdrawn *)

(** A task whose closure is neither ready nor running, [R] not holding of it,
    only becomes cancelled or failed. *)
Definition heap_next (R : nat → Prop) (h h' : gmap nat (TaskInfo J F)) : Prop :=
  ∀ k t, h !! k = Some t →
    ∃ t', h' !! k = Some t' ∧ (cancelRequested t = true → cancelRequested t' = true)
      ∧ (R k ∨ status t' = status t ∨ status t' = Cancelled ∨ status t' = Failed).

Lemma heap_next_refl R h : heap_next R h h.
Proof. intros k t Ht. exists t. auto. Qed.

Lemma heap_next_alter R f l h h' :
  heap_next R h h' → (∀ t, cancelRequested t = true → cancelRequested (f t) = true) →
  (R l ∨ ∀ t, status (f t) = status t ∨ status (f t) = Cancelled ∨ status (f t) = Failed) →
  heap_next R h (alter f l h').
Proof.
  intros Hh Hf Hs k t Ht. destruct (Hh k t Ht) as (t' & Ht' & Hc & Hst). destruct (decide (k = l)) as [->|].
  - exists (f t'). rewrite lookup_alter_eq, Ht'. split; [done|]. split; [eauto|].
    destruct Hs as [Hs|Hs]; [by left|]. specialize (Hs t'). destruct Hst as [|[E|[E|E]]]; [by left|..];
      rewrite E in Hs; naive_solver.
  - exists t'. by rewrite lookup_alter_ne.
Qed.

(** For the states that only writes and notifications separate. *)
Ltac solve_heap_next :=
  repeat (cbn; autorewrite with notify); unfold modify, count; repeat (cbn; autorewrite with notify);
  repeat (apply heap_next_alter; [|by intros; cbn; eauto|first [by left; eauto|right; intros; cbn; eauto]]);
  apply heap_next_refl.

Lemma runPeriodicTask_heap pid steady m : heap (runPeriodicTask pid steady m) = heap m.
Proof.
  unfold runPeriodicTask. destruct (_ ≫= _) as [[ploc info]|]; [|done].
  destruct (cancelled info); [done|]. by destruct (event_loop m).
Qed.

Lemma submit_heap_next ty ps prio msg d i now st m :
  manager_inv m → heap_next (λ _, False) (heap m) (heap (submit ty ps prio msg d i now st m).1).
Proof.
  intros Hi k t Ht. destruct (decide (k < next_loc m)%nat);
    [|by rewrite (inv_heap_fresh m Hi) in Ht by lia].
  exists t. destruct (submit_fields ty ps prio msg d i now st m) as (_ & _ & ->); auto.
Qed.

(** The runner of the task is about to be called or has been. *)
Definition started m (k : nat) : Prop :=
  (∃ d, jobs m !! k = Some (JobReady k d)) ∨ jobs m !! k = Some (JobRunning k).

Lemma manager_step_heap m m' :
  manager_inv m → manager_step m m' → heap_next (started m) (heap m) (heap m').
Proof.
  intros Hi Hs. destruct Hs as [ty ps prio i now st m|ty ps d prio i now st m|j now m m1 E|j now m m1 E|
    j how now m m1 _ E|i now m|i p msg now m|i r now m|i err now m|age now m|cb m|m|ty ival pid st m|pid m|
    j m m1 b E|j st m m1 E].
  - intros k t Ht. destruct (submit_heap_next ty ps prio "" None i now st m Hi k t Ht) as (t' & ? & ? & [[]|]); eauto.
  - intros k t Ht. destruct (submit_heap_next ty ps prio "Waiting for delayed start" (Some d) i now st m Hi k t Ht)
      as (t' & ? & ? & [[]|]); eauto.
  - unfold job_check in E. destruct (jobs m !! j) as [[]|]; try done. destruct (heap m !! _); [|done].
    cbn in E. destruct (cancelRequested _); injection E as <-; solve_heap_next.
  - unfold job_start in E. destruct (jobs m !! j) as [[? d|l d| | |]|] eqn:Ej; try done. injection E as <-.
    assert (started m l) by (destruct (inv_jobs m Hi _ _ Ej) as [-> _]; left; eauto).
    destruct d; solve_heap_next.
  - unfold job_finish in E. destruct (jobs m !! j) as [[| |l| |]|] eqn:Ej; try done.
    assert (started m l) by (destruct (inv_jobs m Hi _ _ Ej) as [-> _]; by right).
    destruct (heap m !! _) as [t|]; [|done].
    cbn in E. injection E as <-. destruct how; [|solve_heap_next..].
    destruct (cancelRequested t && _); [solve_heap_next|]. destruct (active (status t)); solve_heap_next.
  - unfold cancelTask. destruct (tasks m !! i) as [loc|]; [|apply heap_next_refl]. cbn.
    destruct (alter _ _ _ !! loc); [case_bool_decide|]; solve_heap_next.
  - unfold updateProgress. destruct (tasks m !! i); [|apply heap_next_refl].
    destruct (str_empty msg); solve_heap_next.
  - unfold setResult. destruct (tasks m !! i); [solve_heap_next|apply heap_next_refl].
  - unfold failTask. destruct (tasks m !! i); [solve_heap_next|apply heap_next_refl].
  - destruct (cleanup_fields age now m) as (-> & _ & _). apply heap_next_refl.
  - apply heap_next_refl.
  - apply heap_next_refl.
  - unfold schedulePeriodicTask. cbn. rewrite runPeriodicTask_heap. apply heap_next_refl.
  - unfold cancelPeriodicTask. destruct (periodic_tasks m !! pid); apply heap_next_refl.
  - unfold job_periodic_call in E. destruct (jobs m !! j) as [[]|]; try done.
    destruct (periodic_heap m !! _) as [info|]; [|done]. cbn in E.
    destruct (cancelled info); injection E as <- <-; apply heap_next_refl.
  - unfold job_periodic_finish in E. destruct (jobs m !! j) as [[]|]; try done. injection E as <-.
    rewrite runPeriodicTask_heap. apply heap_next_refl.
Qed.

(** ** Every task ends *)

(** A step of the closure of a task; how runners end is left open. *)
Definition task_step m m' : Prop :=
  ∃ j now, job_check j now m = Some m' ∨ job_start j now m = Some m'
    ∨ ∃ how, how ≠ ThrowsOther ∧ job_finish j how now m = Some m'.

Lemma task_step_manager m m' : task_step m m' → manager_step m m'.
Proof. intros (j & now & [Hs|[Hs|(how & Hh & Hs)]]); by econstructor. Qed.

(** The steps a closure has before it. *)
Definition stages (jb : job) : nat :=
  match jb with JobWaiting _ _ => 3 | JobReady _ _ => 2 | JobRunning _ => 1 | _ => 0 end.

Definition total_stages (js : gmap nat job) : nat := map_fold (λ _ jb n, stages jb + n)%nat 0%nat js.

Lemma total_stages_delete (js : gmap nat job) j jb :
  js !! j = Some jb → total_stages js = (stages jb + total_stages (delete j js))%nat.
Proof.
  intros Hj. unfold total_stages. rewrite (map_fold_delete_L _ _ j jb js); [done| |done]. intros. lia.
Qed.

Lemma partial_alter_twice {A} (f : option A → option A) (jb : option A) j (m : gmap nat A) :
  partial_alter f j (partial_alter (λ _, jb) j m) = partial_alter (λ _, f jb) j m.
Proof.
  apply map_eq. intros k. destruct (decide (k = j)) as [->|].
  - by rewrite !lookup_partial_alter_eq.
  - by rewrite !lookup_partial_alter_ne.
Qed.

Lemma total_stages_partial_alter (js : gmap nat job) j jb jb' :
  js !! j = Some jb → (default 0 (stages <$> jb') < stages jb)%nat →
  (total_stages (partial_alter (λ _, jb') j js) < total_stages js)%nat.
Proof.
  intros Hj Hlt. rewrite (total_stages_delete js j jb Hj). destruct jb' as [jb'|]; cbn in Hlt.
  - rewrite (total_stages_delete _ j jb') by apply lookup_partial_alter_eq. unfold delete, map_delete.
    rewrite partial_alter_twice. by apply Nat.add_lt_mono_r.
  - unfold delete, map_delete. rewrite <- (Nat.add_0_l (total_stages (partial_alter _ _ _))) at 1.
    by apply Nat.add_lt_mono_r.
Qed.

Lemma total_stages_bound (js : gmap nat job) : (total_stages js ≤ 3 * size js)%nat.
Proof.
  unfold total_stages. apply (map_fold_weak_ind (λ n (js : gmap nat job), n ≤ 3 * size js)%nat); [done|].
  intros j jb js' n Hj IH. rewrite map_size_insert_None by done. destruct jb; cbn; lia.
Qed.

Lemma task_step_stages m m' : task_step m m' → (total_stages (jobs m') < total_stages (jobs m))%nat.
Proof.
  intros (j & now & [Hs|[Hs|(how & Hh & Hs)]]).
  - pose proof (job_check_jobs _ _ _ _ Hs) as (_ & jb' & -> & Hn & Hne). unfold job_check in Hs.
    destruct (jobs m !! j) as [[loc d|loc d|loc|p l|p l]|] eqn:Ej; try done.
    eapply total_stages_partial_alter; [done|]. destruct jb' as [[]|]; cbn in *; try lia; by simplify_eq.
  - pose proof (job_start_jobs _ _ _ _ Hs) as (_ & jb' & -> & Hn & Hne). unfold job_start in Hs.
    destruct (jobs m !! j) as [[loc d|loc d|loc|p l|p l]|] eqn:Ej; try done.
    eapply total_stages_partial_alter; [done|]. destruct jb' as [[]|]; cbn in *; try lia; by simplify_eq.
  - pose proof (job_finish_jobs _ _ _ _ _ Hs) as (_ & -> & _). unfold job_finish in Hs.
    destruct (jobs m !! j) as [[loc d|loc d|loc|p l|p l]|] eqn:Ej; try done.
    eapply total_stages_partial_alter; [done|]. cbn. lia.
Qed.

Lemma task_steps_stages n m m' : nsteps task_step n m m' → (n + total_stages (jobs m') ≤ total_stages (jobs m))%nat.
Proof. induction 1 as [|n m m1 m2 Hs _ IH]; [lia|]. apply task_step_stages in Hs. lia. Qed.

(** An active task can always take its next step. *)
Lemma active_can_step m loc t :
  manager_inv m → heap m !! loc = Some t → active (status t) = true → ∃ m', task_step m m'.
Proof.
  intros Hi Ht Ha. destruct (inv_active m Hi loc t Ht Ha) as [jb Hjb].
  pose proof (inv_jobs m Hi _ _ Hjb) as Hok. unfold job_ok in Hok. destruct jb as [l d|l d|l|p l|p l].
  - destruct Hok as [<- _]. eexists _, loc, 0. left. unfold job_check. rewrite Hjb, Ht. done.
  - destruct Hok as [<- _]. eexists _, loc, 0. right; left. unfold job_start. by rewrite Hjb.
  - destruct Hok as [<- _]. eexists _, loc, 0. right; right. exists Returns. split; [done|].
    unfold job_finish. rewrite Hjb, Ht. done.
  - destruct Hok as [E _]. by rewrite Ht in E.
  - destruct Hok as [E _]. by rewrite Ht in E.
Qed.

(** A task whose closure is gone stays without one. *)
Lemma gone_steps m m' loc t :
  rtc manager_step m m' → manager_inv m → heap m !! loc = Some t → jobs m !! loc = None →
  ∃ t', heap m' !! loc = Some t' ∧ active (status t') = false.
Proof.
  intros Hr. revert t. induction Hr as [m|m m1 m2 Hs Hr IH]; intros t Hi Ht Hj.
  - exists t. split; [done|]. destruct (active (status t)) eqn:Ha; [|done].
    destruct (inv_active m Hi loc t Ht Ha) as [jb Hjb]. by rewrite Hj in Hjb.
  - destruct (manager_step_heap m m1 Hi Hs loc t Ht) as (t1 & Ht1 & _).
    apply (IH t1); [by eapply manager_step_inv|done|].
    destruct (manager_step_jobs m m1 Hs) as [_ Hk].
    assert (loc < next_loc m)%nat as Hlt.
    { destruct (decide (loc < next_loc m)%nat); [done|]. by rewrite (inv_heap_fresh m Hi) in Ht by lia. }
    specialize (Hk loc Hlt). rewrite Hj in Hk. by destruct (jobs m1 !! loc).
Qed.

(** [C18] On a loop that calls what is posted, every task ends.  In any state a
    manager can get into, the closures of its tasks take at most three steps
    each, whatever the runners do as long as what they throw is a std::exception;
    once they can take no more, no task is pending or running; and a task whose
    closure is done is never pending or running again, whatever else happens. *)
Theorem tasks_finish m :
  reachable m →
  (∀ n m', nsteps task_step n m m' → (n ≤ 3 * size (jobs m))%nat)
  ∧ (∀ m', rtc task_step m m' → (∀ m'', ¬ task_step m' m'') →
       ∀ loc t, heap m' !! loc = Some t → active (status t) = false)
  ∧ (∀ m' loc t, rtc manager_step m m' → heap m !! loc = Some t → jobs m !! loc = None →
       ∃ t', heap m' !! loc = Some t' ∧ active (status t') = false).
Proof.
  intros Hr%reachable_inv. split; [|split].
  - intros n m' Hn%task_steps_stages. pose proof (total_stages_bound (jobs m)). lia.
  - intros m' Hs Hstuck loc t Ht. destruct (active (status t)) eqn:Ha; [|done].
    destruct (active_can_step m' loc t) as [m'' Hm'']; [|done|done|by destruct (Hstuck m'')].
    eapply steps_inv, Hr. clear -Hs. induction Hs; [done|]. eapply rtc_l; [by apply task_step_manager|done].
  - intros m' loc t Hs Ht Hj. by eapply gone_steps.
Qed.

(** Only looking at the flag makes a closure ready. *)
Lemma ready_by_check m m' k l d d' :
  manager_step m m' → (k < next_loc m)%nat → jobs m !! k = Some (JobWaiting k d) →
  jobs m' !! k = Some (JobReady l d') → ∃ now, job_check k now m = Some m'.
Proof.
  intros Hs Hk Hw. assert (∀ m' : TaskManager J F L, jobs m' !! k = jobs m !! k → jobs m' !! k ≠ Some (JobReady l d'))
    as Hsame by (intros m1 ->; by rewrite Hw).
  assert (∀ j jb, jobs m !! j = Some jb → jb ≠ JobWaiting k d → j ≠ k) as Hne.
  { intros j jb Hj Hjb ->. rewrite Hw in Hj. by simplify_eq. }
  destruct Hs as [ty ps prio i now st m|ty ps dl prio i now st m|j now m m1 E|j now m m1 E|
    j how now m m1 _ E|i now m|i p msg now m|i r now m|i err now m|age now m|cb m|m|ty ival pid st m|pid m|
    j m m1 b E|j st m m1 E].
  1-2: unfold submitTask, submitDelayedTask;
    match goal with |- context [submit ?a ?b ?c ?d ?e ?f ?g ?h ?m] =>
      destruct (submit_fields a b c d e f g h m) as (_ & E2 & _) end; intros ?%Hsame; [done|by apply E2].
  - destruct (decide (j = k)) as [->|Hjk]; [eauto|].
    destruct (job_check_jobs _ _ _ _ E) as (_ & jb' & Ej & _). intros ?%Hsame; [done|].
    by rewrite Ej, lookup_partial_alter_ne.
  - destruct (job_start_jobs _ _ _ _ E) as (_ & jb' & Ej & _). unfold job_start in E.
    destruct (jobs m !! j) as [[]|] eqn:Hj; try done. intros ?%Hsame; [done|].
    rewrite Ej, lookup_partial_alter_ne; [done|]. by eapply Hne.
  - destruct (job_finish_jobs _ _ _ _ _ E) as (_ & Ej & _). unfold job_finish in E.
    destruct (jobs m !! j) as [[]|] eqn:Hj; try done. intros ?%Hsame; [done|].
    rewrite Ej, lookup_partial_alter_ne; [done|]. by eapply Hne.
  - intros ?%Hsame; [done|]. by destruct (cancelTask_fields i now m) as [-> _].
  - intros ?%Hsame; [done|]. by destruct (updateProgress_fields i p msg now m) as [-> _].
  - intros ?%Hsame; [done|]. by destruct (setResult_fields i r now m) as [-> _].
  - intros ?%Hsame; [done|]. by destruct (failTask_fields i err now m) as [-> _].
  - intros ?%Hsame; [done|]. by destruct (cleanup_fields age now m) as (_ & -> & _).
  - by intros ?%Hsame.
  - by intros ?%Hsame.
  - intros ?%Hsame; [done|]. unfold schedulePeriodicTask. cbn.
    match goal with |- context [runPeriodicTask pid st ?m1] =>
      destruct (runPeriodicTask_jobs pid st m1 k) as [-> _] end; [cbn; lia|done].
  - intros ?%Hsame; [done|]. unfold cancelPeriodicTask. by destruct (periodic_tasks m !! pid).
  - intros ?%Hsame; [done|]. unfold job_periodic_call in E. destruct (jobs m !! j) as [[]|] eqn:Hj; try done.
    destruct (periodic_heap m !! _) as [info|]; [|done]. cbn in E.
    assert (j ≠ k) by by eapply Hne.
    destruct (cancelled info); injection E as <- <-; cbn; by rewrite ?lookup_delete_ne, ?lookup_insert_ne.
  - intros ?%Hsame; [done|]. unfold job_periodic_finish in E. destruct (jobs m !! j) as [[]|] eqn:Hj; try done.
    injection E as <-. assert (j ≠ k) by by eapply Hne.
    match goal with |- context [runPeriodicTask ?pid st ?m1] =>
      destruct (runPeriodicTask_jobs pid st m1 k) as [-> _] end; [done|]. cbn. by rewrite lookup_delete_ne.
Qed.

Lemma no_ready m m' k l d d' t :
  manager_step m m' → (k < next_loc m)%nat → jobs m !! k = Some (JobWaiting k d) →
  heap m !! k = Some t → cancelRequested t = true → jobs m' !! k ≠ Some (JobReady l d').
Proof.
  intros Hs Hk Hw Ht Hc Hr. destruct (ready_by_check m m' k l d d' Hs Hk Hw Hr) as [now E].
  unfold job_check in E. rewrite Hw, Ht in E. cbn in E. rewrite Hc in E. injection E as <-.
  cbn in Hr. autorewrite with notify in Hr. cbn in Hr. by rewrite lookup_delete_eq in Hr.
Qed.

(** A task that is asked to stop while its closure waits stays like that. *)
Lemma cancelled_steps m m' loc d t :
  rtc manager_step m m' → manager_inv m →
  (jobs m !! loc = Some (JobWaiting loc d) ∨ jobs m !! loc = None) → heap m !! loc = Some t →
  cancelRequested t = true → status t = Cancelled ∨ status t = Failed →
  (jobs m' !! loc = Some (JobWaiting loc d) ∨ jobs m' !! loc = None)
  ∧ ∃ t', heap m' !! loc = Some t' ∧ (status t' = Cancelled ∨ status t' = Failed).
Proof.
  intros Hr. revert t. induction Hr as [m|m m1 m2 Hs Hr IH]; intros t Hi Hj Ht Hc Hst; [eauto|].
  destruct (manager_step_heap m m1 Hi Hs loc t Ht) as (t1 & Ht1 & Hc1 & Hst1).
  assert (loc < next_loc m)%nat as Hlt.
  { destruct (decide (loc < next_loc m)%nat); [done|]. by rewrite (inv_heap_fresh m Hi) in Ht by lia. }
  pose proof (proj2 (manager_step_jobs m m1 Hs) loc Hlt) as Hn.
  apply (IH t1); [by eapply manager_step_inv| |done|by apply Hc1|].
  - destruct Hj as [Hj|Hj]; rewrite Hj in Hn; [|by right; destruct (jobs m1 !! loc)].
    destruct (jobs m1 !! loc) as [[l' d'|l' d'|l'|p l'|p l']|] eqn:Ej; try done; [by left; rewrite Hn| |by right].
    exfalso. destruct Hn as [<- <-]. by eapply (no_ready m m1).
  - destruct Hst1 as [[[d' E]|E]|[->|Hst1]]; [..|done|done]; destruct Hj as [Hj|Hj]; by rewrite Hj in E.
Qed.

(** A task cancelled before its closure is called never runs.  If
    [cancelTask] finds the task while its closure waits in the loop, then in
    every later state, whatever the other threads do, the closure still waits or
    is done, the runner was never called, and the task is cancelled or failed. *)
Theorem cancelled_before_call m i loc d now m' :
  reachable m → tasks m !! i = Some loc → jobs m !! loc = Some (JobWaiting loc d) →
  (cancelTask i now m).2 = true
  ∧ (rtc manager_step (cancelTask i now m).1 m' →
     (jobs m' !! loc = Some (JobWaiting loc d) ∨ jobs m' !! loc = None)
     ∧ ∃ t, heap m' !! loc = Some t ∧ (status t = Cancelled ∨ status t = Failed)).
Proof.
  intros Hr%reachable_inv Hi Hj. split; [unfold cancelTask; by rewrite Hi|].
  set (m0 := (cancelTask i now m).1). intros Hs.
  assert (manager_inv m0) as Hinv by by apply cancelTask_inv.
  destruct (inv_tasks m Hr _ _ Hi) as (t & Ht & _).
  assert (jobs m0 !! loc = Some (JobWaiting loc d)) as Hj0.
  { unfold m0. by destruct (cancelTask_fields i now m) as [-> _]. }
  assert (∃ t0, heap m0 !! loc = Some t0 ∧ cancelRequested t0 = true ∧ (status t0 = Cancelled ∨ status t0 = Failed))
    as (t0 & Ht0 & Hc0 & Hst0).
  { destruct (inv_jobs m Hr _ _ Hj) as (_ & t' & Ht' & Hb). simplify_eq.
    unfold m0, cancelTask. rewrite Hi. cbn. rewrite lookup_alter_eq, Ht. cbn.
    case_bool_decide as Hp; cbn; autorewrite with notify; cbn; rewrite ?lookup_alter_eq, Ht; cbn;
      eexists; (split; [done|]); cbn; [by auto|]. split; [done|].
    unfold before_start in Hb. destruct (status t); auto; done. }
  apply (cancelled_steps m0 m' loc d t0); auto.
Qed.

(** ** Old tasks *)

Lemma getTask_found m i loc t : tasks m !! i = Some loc → heap m !! loc = Some t → getTask i m = Some t.
Proof. intros Hl Ht. unfold getTask. rewrite Hl. done. Qed.

Lemma listAllTasks_all m : manager_inv m → listAllTasks 0 0 m = omap (λ i, getTask i m) (reverse (task_order m)).
Proof.
  intros Hi. unfold listAllTasks.
  assert (∀ ids n, list_page 0 0 n 0 ids m = omap (λ i, getTask i m) ids) as E; [|done].
  induction ids as [|i ids IH]; intros n; [done|]. cbn. destruct (getTask i m); by rewrite IH.
Qed.

(** A page is a slice of the tasks, the newest first. *)
Lemma listAllTasks_page limit offset m :
  manager_inv m →
  listAllTasks limit offset m
  = let all := drop offset (listAllTasks 0 0 m) in if (limit =? 0)%nat then all else take limit all.
Proof.
  intros Hi. rewrite listAllTasks_all by done. unfold listAllTasks.
  assert (∀ ids, (∀ i, i ∈ ids → is_Some (getTask i m)) → ∀ n k, (limit = 0 ∨ n < limit)%nat → (k ≤ offset)%nat →
    list_page limit offset n k ids m
    = let all := drop (offset - k) (omap (λ i, getTask i m) ids) in
      if (limit =? 0)%nat then all else take (limit - n) all) as E.
  { induction ids as [|i ids IH]; intros Hids n k Hn Hk.
    { cbn. rewrite drop_nil, take_nil. by destruct (limit =? 0)%nat. }
    destruct (Hids i) as [t Ht]; [by left|]. cbn [list_page omap list_omap].
    assert (∀ i, i ∈ ids → is_Some (getTask i m)) as Hids' by (intros; apply Hids; by right).
    change (omap (λ i, getTask i m) (i :: ids)) with
      (match getTask i m with Some t => t :: omap (λ i, getTask i m) ids | None => omap (λ i, getTask i m) ids end).
    rewrite Ht. destruct (Nat.ltb_spec k offset) as [Hlt|Hge].
    - rewrite IH by (done || lia). by replace (offset - k)%nat with (S (offset - S k)) by lia.
    - replace (offset - k)%nat with 0%nat by lia. cbn [drop].
      destruct (Nat.eqb_spec limit 0) as [->|Hl].
      + cbn. rewrite IH by (done || lia). by replace (offset - k)%nat with 0%nat by lia.
      + rewrite (proj2 (Nat.ltb_lt 0 limit)) by lia. cbn [andb].
        destruct (Nat.leb_spec limit (S n)) as [Hfull|Hmore].
        * by replace (limit - n)%nat with 1%nat by lia.
        * rewrite IH by (done || lia). replace (offset - k)%nat with 0%nat by lia. cbn [drop].
          destruct (Nat.eqb_spec limit 0); [lia|].
          by replace (limit - n)%nat with (S (limit - S n)) by lia. }
  rewrite E; [|..].
  - by rewrite !Nat.sub_0_r.
  - intros i Hin. rewrite elem_of_reverse in Hin. destruct (inv_found m i Hi Hin) as (loc & t & Hl & Ht & _).
    by rewrite (getTask_found m i loc t).
  - lia.
  - lia.
Qed.

Lemma reverse_sublist {A} (l l' : list A) : l `sublist_of` l' → reverse l `sublist_of` reverse l'.
Proof.
  induction 1 as [|x l l' _ IH|x l l' _ IH]; [done|..]; rewrite !reverse_cons.
  - by apply sublist_app.
  - by apply sublist_inserts_r.
Qed.

Lemma omap_cons {A B} (f : A → option B) x l :
  omap f (x :: l) = match f x with Some y => y :: omap f l | None => omap f l end.
Proof. done. Qed.

(** A sublist on which [g], the part of [f] that [p] does not drop, is defined. *)
Lemma omap_sublist_filter {A B} (f g : A → option B) (p : B → bool) ids ids' :
  ids' `sublist_of` ids → NoDup ids → (∀ i, i ∈ ids → is_Some (f i)) →
  (∀ i, g i = t ← f i; if p t then None else Some t) →
  (∀ i, i ∈ ids → (i ∈ ids' ↔ is_Some (g i))) →
  omap g ids' = filter (λ t, p t = false) (omap f ids).
Proof.
  intros Hsub Hnd Hf Hg Hin. induction Hsub as [|i ids' ids Hsub IH|i ids' ids Hsub IH]; [done|..];
    apply NoDup_cons in Hnd as [Hni Hnd]; (destruct (Hf i) as [t Ht]; [by left|]); rewrite !omap_cons, ?Ht;
    pose proof (Hg i) as Hgi; rewrite Ht in Hgi; cbn in Hgi.
  - destruct (p t) eqn:Ep; rewrite Hgi.
    { assert (is_Some (g i)) as [? E] by (apply Hin; by left). by rewrite Hgi in E. }
    rewrite filter_cons_True by done. f_equal. apply IH; [done|by intros; apply Hf; right|].
    intros j Hj. rewrite <- Hin by by right. rewrite elem_of_cons. split; [by right|by intros [->|]].
  - assert (g i = None) as Hnone.
    { destruct (g i) eqn:E; [|done]. destruct Hni. eapply sublist_subseteq; [done|].
      apply Hin; [by left|]. by rewrite E. }
    destruct (p t) eqn:Ep; [|by rewrite Hgi in Hnone]. rewrite filter_cons_False by by rewrite Ep.
    apply IH; [done|by intros; apply Hf; right|]. intros j Hj. apply Hin. by right.
Qed.

Lemma omap_length {A B} (f : A → option B) ids :
  (∀ i, i ∈ ids → is_Some (f i)) → length (omap f ids) = length ids.
Proof.
  induction ids as [|i ids IH]; intros Hids; [done|]. destruct (Hids i) as [t Ht]; [by left|].
  rewrite omap_cons, Ht. cbn. f_equal. apply IH. intros j Hj. apply Hids. by right.
Qed.

Lemma listAllTasks_length m : manager_inv m → length (listAllTasks 0 0 m) = length (task_order m).
Proof.
  intros Hi. rewrite listAllTasks_all by done. rewrite omap_length; [apply length_reverse|].
  intros i Hin. rewrite elem_of_reverse in Hin. destruct (inv_found m i Hi Hin) as (loc & t & Hl & Ht & _).
  by rewrite (getTask_found m i loc t).
Qed.

(** Old tasks, and only they, are forgotten: [cleanupOldTasks] drops exactly
    the stale tasks, finished and not updated for more than the given age, reports their
    number, keeps the order of the others, and never drops a pending or running
    task; what the manager still lists is what it still finds. *)
Theorem cleanupOldTasks_correct m max_age now :
  reachable m →
  let '(m', n) := cleanupOldTasks max_age now m in
  (∀ i, getTask i m' = t ← getTask i m; if stale max_age now t then None else Some t)
  ∧ listAllTasks 0 0 m' = filter (λ t, stale max_age now t = false) (listAllTasks 0 0 m)
  ∧ (length (listAllTasks 0 0 m') + n = length (listAllTasks 0 0 m))%nat.
Proof.
  intros Hi%reachable_inv.
  pose proof (inv_cleanup_loop max_age now m Hi) as Hc. pose proof (cleanup_inv max_age now m Hi) as Hi'.
  unfold cleanupOldTasks in *.
  destruct (cleanup_loop _ _ _ _ _) as [[ts' order] n]. destruct Hc as (Hsub & Hn & Hord & Hts). cbn in Hi'.
  set (m' := m <| tasks := ts' |> <| task_order := order |>) in *.
  assert (∀ i, getTask i m' = t ← getTask i m; if stale max_age now t then None else Some t) as Hget.
  { intros i. unfold getTask. cbn. rewrite Hts. destruct (tasks m !! i) as [loc|]; [|done]. cbn.
    destruct (heap m !! loc) as [t|] eqn:Et; [|done]. cbn. destruct (stale max_age now t); [done|]. cbn. by rewrite Et. }
  assert (listAllTasks 0 0 m' = filter (λ t, stale max_age now t = false) (listAllTasks 0 0 m)) as Elist.
  { rewrite !listAllTasks_all by done. apply omap_sublist_filter.
    - by apply reverse_sublist.
    - rewrite reverse_Permutation; apply (inv_order m Hi).
    - intros i Hin. rewrite elem_of_reverse in Hin. destruct (inv_found m i Hi Hin) as (loc & t & Hl & Ht & _).
      by rewrite (getTask_found m i loc t).
    - exact Hget.
    - intros i _. change (task_order m') with order. rewrite elem_of_reverse, Hord. unfold getTask. cbn.
      split; [|destruct (ts' !! i); [by eauto|by intros [? ?]]]. intros [loc Hloc]. rewrite Hloc. cbn. rewrite Hts in Hloc.
      destruct (tasks m !! i) as [l|]; [|done]. cbn in Hloc. destruct (heap m !! l) eqn:El; [|done].
      cbn in Hloc. destruct (stale _ _ _); [done|]. injection Hloc as <-. by rewrite El. }
  split; [done|]. split; [done|].
  rewrite !listAllTasks_length by done. change (task_order m') with order. apply sublist_length in Hsub. lia.
Qed.
End invariant.

(** ** Examples *)

(** A loop that only remembers the closures. *)
Definition list_loop : Loop (list nat) :=
  {| loop_post _ j _ l := l ++ [j]; loop_postDelayed _ _ j _ l := l ++ [j] |}.

Definition z_double : Double Z :=
  {| dbl_zero := 0; dbl_hundred := 100; dbl_clamp z := Z.max 0 (Z.min 100 z) |}.

Section examples.
Local Existing Instances demo_ops z_double list_loop.

Abbreviation manager := (TaskManager demo_json Z (list nat)).

Definition ex_new : manager := TaskManager_new (Some []).

(** One task, submitted at time 0. *)
Definition ex_submitted : manager := (submitTask "expose" DNull 5 "t0" 0 0 ex_new).1.

Lemma ex_submitted_reachable : reachable ex_submitted.
Proof.
  exists (Some []). eapply rtc_l; [|apply rtc_refl].
  apply (ms_submit "expose" DNull 5 "t0" 0 0 ex_new). by apply not_elem_of_nil.
Qed.

(** The status of the first task and the counters after some steps. *)
Definition ex_outcome (m : option manager) : option (Status * Z * Z * Z) :=
  m ← m; t ← getTask "t0" m; Some (status t, total_completed m, total_failed m, total_cancelled m).

(** A run without disturbance completes the task. *)
Lemma ex_completes :
  ex_outcome (m ← job_check 0 1 ex_submitted; m ← job_start 0 2 m; job_finish 0 Returns 3 m)
  = Some (Completed, 1, 0, 0).
Proof. done. Qed.

(** Cancelled before its call, a task is counted twice. *)
Lemma ex_cancelled_twice : ex_outcome (job_check 0 2 (cancelTask "t0" 1 ex_submitted).1) = Some (Cancelled, 0, 0, 2).
Proof. done. Qed.

(** Cancelled after the flag was looked at, the task runs all the same. *)
Lemma ex_cancelled_runs :
  ex_outcome (m ← job_check 0 1 ex_submitted; job_start 0 3 (cancelTask "t0" 2 m).1) = Some (Running, 0, 0, 1).
Proof. done. Qed.

(** A task failed before its call runs and completes, counted as both. *)
Lemma ex_failed_completes :
  ex_outcome (m ← job_check 0 2 (failTask "t0" "no" 1 ex_submitted).1; m ← job_start 0 3 m;
              job_finish 0 Returns 4 m) = Some (Completed, 1, 1, 0).
Proof. done. Qed.

(** A runner that throws something else leaves its task running forever. *)
Lemma ex_throws_other :
  ex_outcome (m ← job_check 0 1 ex_submitted; m ← job_start 0 2 m; job_finish 0 ThrowsOther 3 m)
  = Some (Running, 0, 0, 0).
Proof. done. Qed.

Lemma tasks_finish_witness :
  reachable ex_submitted ∧ ∀ n m', nsteps task_step n ex_submitted m' → (n ≤ 3)%nat.
Proof.
  split; [apply ex_submitted_reachable|].
  exact (proj1 (tasks_finish ex_submitted ex_submitted_reachable)).
Defined.

Lemma cancelled_before_call_witness :
  (cancelTask "t0" 1 ex_submitted).2 = true.
Proof.
  assert (tasks ex_submitted !! "t0"%string = Some 0%nat) as Hi by reflexivity.
  assert (jobs ex_submitted !! 0%nat = Some (JobWaiting 0 false)) as Hj by reflexivity.
  exact (proj1 (cancelled_before_call ex_submitted "t0" 0 false 1 ex_submitted ex_submitted_reachable Hi Hj)).
Defined.

Lemma cleanupOldTasks_correct_witness :
  listAllTasks 0 0 (cleanupOldTasks 60 100000000000 ex_submitted).1
  = filter (λ t, stale 60 100000000000 t = false) (listAllTasks 0 0 ex_submitted).
Proof. exact (proj1 (proj2 (cleanupOldTasks_correct ex_submitted 60 100000000000 ex_submitted_reachable))). Defined.
End examples.

(** ** The manager on the event loop of the server *)

Section on_event_loop.
Context {J F : Type} `{JO : JsonOps J, DF : Double F, PQ : PriorityQueue}.

#[local] Instance server_loop : Loop (EventLoop nat) :=
  {| loop_post prio j now l := EventLoop.post prio (Plain j) now l;
     loop_postDelayed delay prio j now l := EventLoop.postDelayed delay prio (Plain j) now l |}.

Implicit Types m : TaskManager J F (EventLoop nat).

Definition called_jobs (fs : list (closure nat)) : list nat :=
  omap (λ f, match f with Plain j => Some j | _ => None end) fs.

(** A step of the manager that moves only closures the workers have called, or
    an iteration of a worker. *)
Inductive server_step : TaskManager J F (EventLoop nat) * list nat → TaskManager J F (EventLoop nat) * list nat → Prop :=
| ss_manager m m' called :
    manager_step m m' → (∀ j jb, jobs m !! j = Some jb → j ∉ called → jobs m' !! j = Some jb) →
    server_step (m, called) (m', called)
| ss_worker now m l l' fs called :
    event_loop m = Some l → worker_iteration now l = (l', fs) →
    server_step (m, called) (m <| event_loop := Some l' |>, called ++ called_jobs fs).

(** Nothing has been called: closures wait, and no task has run. *)
Record nothing_ran (s : TaskManager J F (EventLoop nat) * list nat) : Prop := {
  nr_inv : manager_inv s.1;
  nr_called : s.2 = [];
  nr_idle : ∀ l, event_loop s.1 = Some l → workers_idle l;
  nr_jobs : ∀ j jb, jobs s.1 !! j = Some jb → stages jb = 3%nat ∨ stages jb = 0%nat;
  nr_status : ∀ loc t, heap s.1 !! loc = Some t → status t ≠ Running ∧ status t ≠ Completed
}.

(** The manager only posts to its loop. *)
Definition posts (o o' : option (EventLoop nat)) : Prop :=
  o' = None ∨ o' = o ∨ ∃ l l', o = Some l ∧ o' = Some l' ∧ task_queue l' = task_queue l.

Lemma runPeriodicTask_posts pid st m : posts (event_loop m) (event_loop (runPeriodicTask pid st m)).
Proof.
  unfold runPeriodicTask. destruct (_ ≫= _) as [[ploc info]|]; [|by right; left].
  destruct (cancelled info); [by right; left|]. destruct (event_loop m) as [l|] eqn:El; [|by left].
  right; right. cbn. by eexists _, _.
Qed.

Lemma submit_posts ty ps prio msg d i now st m :
  posts (event_loop m) (event_loop (submit ty ps prio msg d i now st m).1).
Proof.
  pose proof (submit_spec ty ps prio msg d i now st m) as Hs.
  destruct (submit _ _ _ _ _ _ _ _ m) as [m' i']. cbn [fst] in *. destruct Hs as (_ & _ & _ & _ & _ & Hs).
  destruct (event_loop m) as [l|]; destruct Hs as (_ & _ & Hl); [|by left].
  destruct Hl as (l' & -> & ->). right; right. destruct d; by eexists _, _.
Qed.

Lemma manager_step_posts m m' : manager_step m m' → posts (event_loop m) (event_loop m').
Proof.
  intros Hs. destruct Hs as [ty ps prio i now st m|ty ps d prio i now st m|j now m m1 E|j now m m1 E|
    j how now m m1 _ E|i now m|i p msg now m|i r now m|i err now m|age now m|cb m|m|ty ival pid st m|pid m|
    j m m1 b E|j st m m1 E]; try (by right; left); try (by left).
  - apply submit_posts.
  - apply submit_posts.
  - right; left. unfold job_check in E. destruct (jobs m !! j) as [[]|]; try done.
    destruct (heap m !! _); [|done]. cbn in E. destruct (cancelRequested _); injection E as <-;
      repeat (cbn; autorewrite with notify); done.
  - right; left. unfold job_start in E. destruct (jobs m !! j) as [[? d|? d| | |]|]; try done. injection E as <-.
    destruct d; repeat (cbn; autorewrite with notify); done.
  - right; left. unfold job_finish in E. destruct (jobs m !! j) as [[]|]; try done.
    destruct (heap m !! _) as [t|]; [|done]. cbn in E. injection E as <-.
    destruct how; [destruct (cancelRequested t && _); [|destruct (active (status t))]|..];
      repeat (cbn; autorewrite with notify); done.
  - right; left. unfold cancelTask. destruct (tasks m !! i) as [loc|]; [|done]. cbn.
    destruct (alter _ _ _ !! loc); [case_bool_decide|]; repeat (cbn; autorewrite with notify); done.
  - right; left. unfold updateProgress. destruct (tasks m !! i); [|done].
    destruct (str_empty msg); repeat (cbn; autorewrite with notify); done.
  - right; left. unfold setResult. destruct (tasks m !! i); repeat (cbn; autorewrite with notify); done.
  - right; left. unfold failTask. destruct (tasks m !! i); repeat (cbn; autorewrite with notify); done.
  - right; left. unfold cleanupOldTasks. by destruct (cleanup_loop _ _ _ _ _) as [[ts' order] n].
  - unfold schedulePeriodicTask. cbn. match goal with |- context [runPeriodicTask pid st ?m1] =>
      exact (runPeriodicTask_posts pid st m1) end.
  - right; left. unfold cancelPeriodicTask. by destruct (periodic_tasks m !! pid).
  - right; left. unfold job_periodic_call in E. destruct (jobs m !! j) as [[]|]; try done.
    destruct (periodic_heap m !! _) as [info|]; [|done]. cbn in E. by destruct (cancelled info); injection E as <- <-.
  - unfold job_periodic_finish in E. destruct (jobs m !! j) as [[]|]; try done. injection E as <-.
    match goal with |- context [runPeriodicTask ?p st ?m1] => exact (runPeriodicTask_posts p st m1) end.
Qed.

(** A new closure waits. *)
Lemma runPeriodicTask_new pid st m k jb :
  jobs m !! k = None → jobs (runPeriodicTask pid st m) !! k = Some jb → stages jb = 0%nat.
Proof.
  intros Hk. unfold runPeriodicTask. destruct (_ ≫= _) as [[ploc info]|]; [|by rewrite Hk].
  destruct (cancelled info); [by rewrite Hk|]. destruct (event_loop m); [|by rewrite Hk]. cbn.
  rewrite lookup_insert_Some. intros [[_ <-]|[_ E]]; [done|by rewrite Hk in E].
Qed.

Lemma submit_new ty ps prio msg d i now st m k jb :
  jobs m !! k = None → jobs (submit ty ps prio msg d i now st m).1 !! k = Some jb → stages jb = 3%nat.
Proof.
  intros Hk. pose proof (submit_spec ty ps prio msg d i now st m) as Hs.
  destruct (submit _ _ _ _ _ _ _ _ m) as [m' i']. cbn [fst] in *. destruct Hs as (_ & _ & _ & _ & _ & Hs).
  destruct (event_loop m) as [l|]; destruct Hs as (_ & -> & _); [|by rewrite Hk].
  rewrite lookup_insert_Some. intros [[_ <-]|[_ E]]; [done|by rewrite Hk in E].
Qed.

Lemma manager_step_new m m' k jb :
  manager_step m m' → jobs m !! k = None → jobs m' !! k = Some jb → stages jb = 3%nat ∨ stages jb = 0%nat.
Proof.
  intros Hs Hk. assert (∀ (js : gmap nat job) j jb', is_Some (jobs m !! j) → js = partial_alter (λ _, jb') j (jobs m) →
    js !! k ≠ Some jb) as Hpa.
  { intros js j jb' [x Hx] ->. rewrite lookup_partial_alter_ne by (intros ->; by rewrite Hk in Hx). by rewrite Hk. }
  destruct Hs as [ty ps prio i now st m|ty ps d prio i now st m|j now m m1 E|j now m m1 E|
    j how now m m1 _ E|i now m|i p msg now m|i r now m|i err now m|age now m|cb m|m|ty ival pid st m|pid m|
    j m m1 b E|j st m m1 E].
  - left. by eapply submit_new.
  - left. by eapply submit_new.
  - destruct (job_check_jobs _ _ _ _ E) as (_ & jb' & Ej & _). unfold job_check in E.
    destruct (jobs m !! j) eqn:Ejb; [|done]. intros []%(Hpa _ j jb'); [by rewrite Ejb|done].
  - destruct (job_start_jobs _ _ _ _ E) as (_ & jb' & Ej & _). unfold job_start in E.
    destruct (jobs m !! j) eqn:Ejb; [|done]. intros []%(Hpa _ j jb'); [by rewrite Ejb|done].
  - destruct (job_finish_jobs _ _ _ _ _ E) as (_ & Ej & Hs). by intros []%(Hpa _ j None).
  - destruct (cancelTask_fields i now m) as [-> _]. by rewrite Hk.
  - destruct (updateProgress_fields i p msg now m) as [-> _]. by rewrite Hk.
  - destruct (setResult_fields i r now m) as [-> _]. by rewrite Hk.
  - destruct (failTask_fields i err now m) as [-> _]. by rewrite Hk.
  - destruct (cleanup_fields age now m) as (_ & -> & _). by rewrite Hk.
  - cbn. by rewrite Hk.
  - cbn. by rewrite Hk.
  - unfold schedulePeriodicTask. cbn. intros Hjb. right. by eapply runPeriodicTask_new, Hjb.
  - unfold cancelPeriodicTask. destruct (periodic_tasks m !! pid); cbn; by rewrite Hk.
  - unfold job_periodic_call in E. destruct (jobs m !! j) as [[]|] eqn:Ejb; try done.
    destruct (periodic_heap m !! _) as [info|]; [|done]. cbn in E.
    destruct (cancelled info); injection E as <- <-.
    + intros []%(Hpa _ j None); [by rewrite Ejb|done].
    + intros []%(Hpa _ j (Some (JobPeriodicRunning pid ploc))); [by rewrite Ejb|done].
  - unfold job_periodic_finish in E. destruct (jobs m !! j) as [[]|] eqn:Ejb; try done. injection E as <-.
    intros Hjb. right. eapply runPeriodicTask_new, Hjb. cbn. rewrite lookup_delete_ne; [done|].
    intros ->. by rewrite Hk in Ejb.
Qed.

Lemma alter_absent {A} (f : A → A) l (h : gmap nat A) k : h !! k = None → alter f l h !! k = None.
Proof. intros Hk. by apply lookup_alter_None. Qed.

(** For the states that differ from one without the task in written tasks. *)
Ltac absent :=
  repeat (cbn; autorewrite with notify); unfold modify, count; repeat (cbn; autorewrite with notify);
  match goal with
  | |- ?x = Some _ → _ =>
      let E := fresh in
      assert (x = None) as E by
        (rewrite ?runPeriodicTask_heap; repeat (cbn; autorewrite with notify); repeat apply alter_absent; done);
      rewrite E; done
  end.

Lemma submit_new_task ty ps prio msg d i now st m k t :
  heap m !! k = None → heap (submit ty ps prio msg d i now st m).1 !! k = Some t →
  status t = Pending ∨ status t = Failed.
Proof.
  intros Hk. pose proof (submit_spec ty ps prio msg d i now st m) as Hs.
  destruct (submit _ _ _ _ _ _ _ _ m) as [m' i']. cbn [fst] in *. destruct Hs as (_ & _ & _ & _ & _ & Hs).
  destruct (event_loop m) as [l|]; destruct Hs as (-> & _); rewrite lookup_insert_Some;
    (intros [[_ <-]|[_ E]]; [auto|by rewrite Hk in E]).
Qed.

(** A new task is pending, or failed for want of a loop. *)
Lemma new_task_status m m' k t :
  manager_step m m' → heap m !! k = None → heap m' !! k = Some t → status t = Pending ∨ status t = Failed.
Proof.
  intros Hs Hk. destruct Hs as [ty ps prio i now st m|ty ps d prio i now st m|j now m m1 E|j now m m1 E|
    j how now m m1 _ E|i now m|i p msg now m|i r now m|i err now m|age now m|cb m|m|ty ival pid st m|pid m|
    j m m1 b E|j st m m1 E].
  - by apply submit_new_task.
  - by apply submit_new_task.
  - unfold job_check in E. destruct (jobs m !! j) as [[]|]; try done. destruct (heap m !! _); [|done].
    cbn in E. destruct (cancelRequested _); injection E as <-; absent.
  - unfold job_start in E. destruct (jobs m !! j) as [[? d|l d| | |]|]; try done. injection E as <-.
    destruct d; absent.
  - unfold job_finish in E. destruct (jobs m !! j) as [[]|]; try done. destruct (heap m !! _) as [t'|]; [|done].
    cbn in E. injection E as <-. destruct how; [|absent..].
    destruct (cancelRequested t' && _); [absent|]. destruct (active (status t')); absent.
  - unfold cancelTask. destruct (tasks m !! i) as [loc|]; [|absent]. cbn.
    destruct (alter _ _ _ !! loc); [case_bool_decide|]; absent.
  - unfold updateProgress. destruct (tasks m !! i); [|absent]. destruct (str_empty msg); absent.
  - unfold setResult. destruct (tasks m !! i); absent.
  - unfold failTask. destruct (tasks m !! i); absent.
  - destruct (cleanup_fields age now m) as (-> & _ & _). by rewrite Hk.
  - absent.
  - absent.
  - unfold schedulePeriodicTask. absent.
  - unfold cancelPeriodicTask. destruct (periodic_tasks m !! pid); absent.
  - unfold job_periodic_call in E. destruct (jobs m !! j) as [[]|]; try done.
    destruct (periodic_heap m !! _) as [info|]; [|done]. cbn in E. destruct (cancelled info); injection E as <- <-; absent.
  - unfold job_periodic_finish in E. destruct (jobs m !! j) as [[]|]; try done. injection E as <-. absent.
Qed.

Lemma server_step_nothing s s' : nothing_ran s → server_step s s' → nothing_ran s'.
Proof.
  intros Hn Hs. destruct Hs as [m m' called Hs Hmove|now m l l' fs called El Ew];
    destruct Hn as [Hi Hc Hidle Hj Hst]; cbn in *; subst.
  - assert (∀ k, ¬ started m k) as Hns.
    { intros k [[d E]|E]; by destruct (Hj _ _ E). }
    split; cbn.
    + by eapply manager_step_inv.
    + done.
    + intros l' El'. destruct (manager_step_posts m m' Hs) as [E|[E|(l & l2 & E1 & E2 & E3)]].
      * by rewrite E in El'.
      * apply Hidle. by rewrite <- E.
      * rewrite E2 in El'. injection El' as <-. unfold workers_idle. rewrite E3. by apply Hidle.
    + intros j jb Hjb. destruct (jobs m !! j) as [jb0|] eqn:E; [|by eapply manager_step_new].
      rewrite (Hmove j jb0 E) in Hjb by apply not_elem_of_nil. injection Hjb as <-. by eapply Hj.
    + intros k t Ht. destruct (heap m !! k) as [t0|] eqn:E.
      * destruct (manager_step_heap m m' Hi Hs k t0 E) as (t' & Ht' & _ & Hcase). simplify_eq.
        destruct Hcase as [H|[H|[H|H]]]; [by destruct (Hns k)|rewrite H; by eapply Hst|by rewrite H..].
      * destruct (new_task_status m m' k t Hs E Ht) as [->| ->]; done.
  - rewrite worker_idle in Ew by by apply Hidle. injection Ew as <- <-. split; cbn; try done.
    + apply (inv_same m); [by split_and!|done].
    + intros l1 [= <-]. by apply Hidle.
Qed.

(** Tasks submitted to the server never run: whatever clients do, and however
    long the worker threads run, no task is ever running or completed. *)
Lemma server_tasks_never_run s :
  rtc server_step (TaskManager_new (Some EventLoop_new), []) s →
  ∀ loc t, heap s.1 !! loc = Some t → status t ≠ Running ∧ status t ≠ Completed.
Proof.
  intros Hr. assert (nothing_ran s) as [_ _ _ _ Hst]; [|exact Hst].
  assert (nothing_ran (TaskManager_new (Some EventLoop_new), [])) as Hn.
  { split; cbn; try done; [apply new_inv|]. by intros l [= <-]. }
  revert Hn. induction Hr as [|s1 s2 s3 Hs _ IH]; intros Hn; [done|]. by eapply IH, server_step_nothing.
Qed.
End on_event_loop.
