(* ===== verification/Ipc.v ===== *)
(** * Ipc: messages between the server and its Python subprocesses

    Models src/src/script/ipc: the message header, messages and the JSON
    payloads of message.hpp and message.cpp, the helpers of serializer.cpp, and
    the pipe channel of channel.cpp.  Bytes and the unsigned integers of the
    header are [Z] in their range.  The operating system chooses how many bytes
    a read or a write moves, or makes it fail: an argument of the channel's
    operations.  Left out: Windows code, non-blocking mode, [hasData], and the
    child's half of the handshake after fork. *)

From S2P Require Import Prelude Json JsonCodec.

Local Open Scope Z_scope.

Inductive IPCError :=
| Success | ConnectionFailed | MessageTooLarge | SerializationFailed
| DeserializationFailed | Timeout | PipeError | InvalidMessage
| ChannelClosed | ProcessNotRunning | UnknownError.

(** [enum class MessageType : uint8_t]; a received byte is cast to it unchecked,
    so every byte is a value of the type. *)
Definition MessageType := Z.
Definition Handshake : MessageType := 0x01.
Definition HandshakeAck : MessageType := 0x02.
Definition Execute : MessageType := 0x10.
Definition Result : MessageType := 0x11.
Definition Progress : MessageType := 0x20.

Definition isControlMessage (t : MessageType) : bool := (0x01 <=? t) && (t <=? 0x0F).
Definition isExecutionMessage (t : MessageType) : bool := (0x10 <=? t) && (t <=? 0x1F).
Definition isProgressMessage (t : MessageType) : bool := (0x20 <=? t) && (t <=? 0x2F).
Definition isDataMessage (t : MessageType) : bool := (0x30 <=? t) && (t <=? 0x3F).

(** ** Bytes *)

Definition to_u8 (z : Z) : Z := z mod 256.
Definition to_u32 (z : Z) : Z := z mod 4294967296.
Definition is_u8 (z : Z) : Prop := 0 ≤ z < 256.
Definition is_u32 (z : Z) : Prop := 0 ≤ z < 4294967296.

(** The four bytes of an integer, the most significant first. *)
Definition put_be32 (z : Z) : list Z :=
  [to_u8 (Z.land (Z.shiftr z 24) 0xFF); to_u8 (Z.land (Z.shiftr z 16) 0xFF);
   to_u8 (Z.land (Z.shiftr z 8) 0xFF); to_u8 (Z.land z 0xFF)].

(** [data[i]], only used at indices within the data. *)
Definition byte_at (data : list Z) (i : nat) : Z := nth i data 0.

Definition get_be32 (data : list Z) (offset : nat) : Z :=
  Z.lor (Z.lor (Z.lor (Z.shiftl (byte_at data offset) 24) (Z.shiftl (byte_at data (offset + 1)) 16))
    (Z.shiftl (byte_at data (offset + 2)) 8)) (byte_at data (offset + 3)).

(** ** Message headers *)

Definition MAGIC : Z := 0x4C495448.
Definition VERSION : Z := 1.
Definition HEADER_SIZE : nat := 16.

Record MessageHeader := mkHeader {
  magic : Z;
  version : Z;
  type : MessageType;
  payloadSize : Z;
  sequenceId : Z;
  flags : Z;
  reserved : Z
}.

#[export] Instance MessageHeader_eta : Eta MessageHeader := λ h,
  mkHeader (magic h) (version h) (type h) (payloadSize h) (sequenceId h) (flags h) (reserved h).

Definition header_serialize (h : MessageHeader) : list Z :=
  put_be32 (magic h) ++ [version h; to_u8 (type h)] ++ put_be32 (payloadSize h)
  ++ put_be32 (sequenceId h) ++ [flags h; reserved h].

Definition header_deserialize (data : list Z) : result IPCError MessageHeader :=
  if (length data <? HEADER_SIZE)%nat then Throw InvalidMessage else
  let m := get_be32 data 0 in
  if negb (m =? MAGIC) then Throw InvalidMessage else
  Ok (mkHeader m (byte_at data 4) (byte_at data 5) (get_be32 data 6) (get_be32 data 10)
        (byte_at data 14) (byte_at data 15)).

Definition header_isValid (h : MessageHeader) : bool := (magic h =? MAGIC) && (version h =? VERSION).

(** ** Length-prefixed strings and byte sequences of the serializer *)

Definition serializeBytes (data : list Z) : list Z :=
  put_be32 (to_u32 (Z.of_nat (length data))) ++ data.

(** The string and the offset after it.  The sums of the checks are of [size_t]
    and wrap around; [None] is a read outside the data that they let pass. *)
Definition deserializeString (data : list Z) (offset : Z) : option (result IPCError (list Z * Z)) :=
  let size := Z.of_nat (length data) in
  if size <? to_size (offset + 4) then Some (Throw InvalidMessage) else
  if size <? offset + 4 then None else
  let len := get_be32 data (Z.to_nat offset) in
  let offset := offset + 4 in
  if size <? to_size (offset + len) then Some (Throw InvalidMessage) else
  if size <? offset + len then None else
  Some (Ok (take (Z.to_nat len) (drop (Z.to_nat offset) data), offset + len)).

(** ** Messages *)

Record Message := mkMessage { header : MessageHeader; payload : list Z }.

Definition message_create (ty : MessageType) (bytes : list Z) (seq : Z) : Message :=
  mkMessage (mkHeader MAGIC VERSION ty (to_u32 (Z.of_nat (length bytes))) seq 0 0) bytes.

Definition message_serialize (m : Message) : list Z := header_serialize (header m) ++ payload m.

Definition message_deserialize (data : list Z) : result IPCError Message :=
  match header_deserialize data with
  | Throw e => Throw e
  | Ok h =>
      let expectedSize := (HEADER_SIZE + Z.to_nat (payloadSize h))%nat in
      if (length data <? expectedSize)%nat then Throw InvalidMessage
      else Ok (mkMessage h (take (Z.to_nat (payloadSize h)) (drop HEADER_SIZE data)))
  end.

(** ** Payloads

    A payload is a structure with [toJson] and [fromJson]; a message carries the
    text of its JSON. *)

Section payloads.
Context `{JsonCodec J F}.

Definition bytes_of_string (s : string) : list Z := map (λ c, Z.of_N (Ascii.N_of_ascii c)) (chars s).
Definition string_of_bytes (bs : list Z) : string :=
  String.string_of_list_ascii (map (λ b, Ascii.ascii_of_N (Z.to_N b)) bs).

(** [IPCSerializer::serialize]; a text that is not UTF-8 makes [dump] throw. *)
Definition serializer_serialize (j : J) : result string (list Z) :=
  let* s := j_dump j in Ok (bytes_of_string s).

Definition serializer_deserialize (data : list Z) : result IPCError J :=
  match j_parse (string_of_bytes data) with
  | Some j => Ok j
  | None => Throw DeserializationFailed
  end.

Definition message_create_json (ty : MessageType) (j : J) (seq : Z) : result string Message :=
  let* bytes := serializer_serialize j in Ok (message_create ty bytes seq).

Definition getPayloadAsJson (m : Message) : result IPCError J :=
  match payload m with
  | [] => Ok (j_object [])
  | bytes => serializer_deserialize bytes
  end.

(** The try block of a [fromJson]: any conversion error is reported the same. *)
Definition from_json {A} (m : option A) : result IPCError A :=
  match m with
  | Some a => Ok a
  | None => Throw DeserializationFailed
  end.

Record ExecuteRequest := mkRequest {
  scriptContent : string;
  scriptPath : string;
  functionName : string;
  arguments : J;
  timeout : Z;                        (* seconds *)
  captureOutput : bool;
  allowedImports : list string;
  workingDirectory : string
}.

Definition ExecuteRequest_toJson (r : ExecuteRequest) : J :=
  j_object [("script_content", j_of_string (scriptContent r)); ("script_path", j_of_string (scriptPath r));
    ("function_name", j_of_string (functionName r)); ("arguments", arguments r);
    ("timeout_seconds", j_of_int (timeout r)); ("capture_output", j_of_bool (captureOutput r));
    ("allowed_imports", j_of_strings (allowedImports r));
    ("working_directory", j_of_string (workingDirectory r))]%string.

Definition ExecuteRequest_fromJson (j : J) : result IPCError ExecuteRequest :=
  from_json (
    content ← j_member j "script_content" j_get_string "";
    path ← j_member j "script_path" j_get_string "";
    fn ← j_member j "function_name" j_get_string "";
    args ← j_member j "arguments" Some j_null;
    secs ← j_member j "timeout_seconds" j_get_int64 300;
    capture ← j_member j "capture_output" j_get_bool true;
    imports ← j_member j "allowed_imports" j_get_strings [];
    dir ← j_member j "working_directory" j_get_string "";
    Some (mkRequest content path fn args secs capture imports dir))%string.

Record ExecuteResult := mkResult {
  success : bool;
  res_result : J;
  output : string;
  errorOutput : string;
  exception : string;
  exceptionType : string;
  traceback : string;
  executionTimeMs : Z;
  peakMemoryBytes : Z
}.

Definition ExecuteResult_toJson (r : ExecuteResult) : J :=
  j_object [("success", j_of_bool (success r)); ("result", res_result r);
    ("output", j_of_string (output r)); ("error_output", j_of_string (errorOutput r));
    ("exception", j_of_string (exception r)); ("exception_type", j_of_string (exceptionType r));
    ("traceback", j_of_string (traceback r)); ("execution_time_ms", j_of_int (executionTimeMs r));
    ("peak_memory_bytes", j_of_int (peakMemoryBytes r))]%string.

Definition ExecuteResult_fromJson (j : J) : result IPCError ExecuteResult :=
  from_json (
    ok ← j_member j "success" j_get_bool false;
    res ← j_member j "result" Some j_null;
    out ← j_member j "output" j_get_string "";
    err ← j_member j "error_output" j_get_string "";
    exc ← j_member j "exception" j_get_string "";
    exct ← j_member j "exception_type" j_get_string "";
    tb ← j_member j "traceback" j_get_string "";
    ms ← j_member j "execution_time_ms" j_get_int64 0;
    peak ← j_member j "peak_memory_bytes" j_get_size 0;
    Some (mkResult ok res out err exc exct tb ms peak))%string.

Record ProgressUpdate := mkProgress {
  percentage : F;
  message : string;
  currentStep : string;
  elapsedMs : Z;
  estimatedRemainingMs : option Z
}.

Definition ProgressUpdate_toJson (u : ProgressUpdate) : J :=
  let j := j_object [("percentage", j_of_float (percentage u)); ("message", j_of_string (message u));
    ("current_step", j_of_string (currentStep u)); ("elapsed_ms", j_of_int (elapsedMs u))]%string in
  match estimatedRemainingMs u with
  | Some ms => j_set j "estimated_remaining_ms"%string (j_of_int ms)
  | None => j
  end.

(** [zero] is the literal [0.0f]. *)
Definition ProgressUpdate_fromJson (zero : F) (j : J) : result IPCError ProgressUpdate :=
  from_json (
    pc ← j_member j "percentage" j_get_float zero;
    msg ← j_member j "message" j_get_string "";
    step ← j_member j "current_step" j_get_string "";
    ms ← j_member j "elapsed_ms" j_get_int64 0;
    rest ← j_member j "estimated_remaining_ms" (λ v, Some <$> j_get_int64 v) None;
    Some (mkProgress pc msg step ms rest))%string.

Record HandshakePayload := mkHandshake {
  hs_version : string;
  pythonVersion : string;
  capabilities : list string;
  pid : Z
}.

Definition HandshakePayload_toJson (p : HandshakePayload) : J :=
  j_object [("version", j_of_string (hs_version p)); ("python_version", j_of_string (pythonVersion p));
    ("capabilities", j_of_strings (capabilities p)); ("pid", j_of_int (pid p))]%string.

Definition HandshakePayload_fromJson (j : J) : result IPCError HandshakePayload :=
  from_json (
    v ← j_member j "version" j_get_string "";
    py ← j_member j "python_version" j_get_string "";
    caps ← j_member j "capabilities" j_get_strings [];
    p ← j_member j "pid" j_get_uint32 0;
    Some (mkHandshake v py caps p))%string.
End payloads.

(** ** The checksum *)

(** The array has 256 elements and an initializer of 248: the rest are zero. *)
Definition crcTable : list Z :=
  [0x00000000; 0x77073096; 0xEE0E612C; 0x990951BA; 0x076DC419; 0x706AF48F; 0xE963A535;
   0x9E6495A3; 0x0EDB8832; 0x79DCB8A4; 0xE0D5E91E; 0x97D2D988; 0x09B64C2B; 0x7EB17CBD;
   0xE7B82D07; 0x90BF1D91; 0x1DB71064; 0x6AB020F2; 0xF3B6E20C; 0x84BE41DE; 0x1ADAD47D;
   0x6DDDE4EB; 0xF4D4B551; 0x83F3D0C7; 0x136C9856; 0x646BA8C0; 0xFD62F97A; 0x8A65C9EC;
   0x14015C4F; 0x63066CD9; 0xFA44E5D6; 0x8D079F40; 0x15F5A3F4; 0x62E8EB62; 0xFBEFF47D;
   0x8C8315EB; 0x12C0A48C; 0x6162341A; 0xF88D5D60; 0x8FD40FF6; 0x21DA880B; 0x5605E89D;
   0xCF95D367; 0xB8843371; 0x236B22D2; 0x54D0B244; 0xCDC7075E; 0xBA0B88C8; 0x2A3AF9D7;
   0x5D1FB041; 0xC41B6ADB; 0xB3B6944D; 0x2B03B6EE; 0x5CB1D678; 0xC5D0C662; 0xB2D04CF4;
   0x3B6E20C8; 0x4C69105E; 0xD56041E4; 0xA2677172; 0x3C03E4D1; 0x4B04D447; 0xD20D85FD;
   0xA50AB56B; 0x35B5A8FA; 0x42B2986C; 0xDBBBC9D6; 0xACBCF940; 0x32D86CE3; 0x45DF5C75;
   0xDCD60DCF; 0xABD13D59; 0x26D930AC; 0x51DE003A; 0xC8D75180; 0xBFD06116; 0x21B4F4B5;
   0x56B3C423; 0xCFBA9599; 0xB8BDA50F; 0x2802B89E; 0x5F058808; 0xC60CD9B2; 0xB10BE924;
   0x2F6F7C87; 0x58684C11; 0xC1611DAB; 0xB6662D3D; 0x76DC4190; 0x01DB7106; 0x98D220BC;
   0xEFD5102A; 0x71B18589; 0x06B6B51F; 0x9FBFE4A5; 0xE8B8D433; 0x7807C9A2; 0x0F00F934;
   0x9609A88E; 0xE10E9818; 0x7F6A0DBB; 0x086D3D2D; 0x91646C97; 0xE6635C01; 0x6B6B51F4;
   0x1C6C6162; 0x856534D8; 0xF262004E; 0x6C0695ED; 0x1B01A57B; 0x8208F4C1; 0xF50FC457;
   0x65B0D9C6; 0x12B7E950; 0x8BBEB8EA; 0xFCB9887C; 0x62DD1DDF; 0x15DA2D49; 0x8CD37CF3;
   0xFBD44C65; 0x4DB26158; 0x3AB551CE; 0xA3BC0074; 0xD4BB30E2; 0x4ADFA541; 0x3DD895D7;
   0xA4D1C46D; 0xD3D6F4FB; 0x4369E96A; 0x346ED9FC; 0xAD678846; 0xDA60B8D0; 0x44042D73;
   0x33031DE5; 0xAA0A4C5F; 0xDD0D7CC9; 0x5005713C; 0x270241AA; 0xBE0B1850; 0xC90C2086;
   0x5A6AFF25; 0x2D6E22B3; 0xB56FE8A9; 0xC266A03F; 0x5A05DF1B; 0x2D02EF8D; 0xB3B6E20C;
   0xC4B5A09A; 0x5B04B331; 0x2C03E6A7; 0xB40BB85D; 0xC30C8DCB; 0x64D10002; 0x130B0094;
   0x8A7A006E; 0xFD30F0F8; 0x6A8D705B; 0x1D305CCD; 0x84F50137; 0xF3671FA1; 0x6309C830;
   0x140FA8A6; 0x8D0AB85C; 0xFA0A88CA; 0x6E8E1B69; 0x196C3CFF; 0x8059C305; 0xF70F0393;
   0x0EEF63C3; 0x79505955; 0xE0D5A2AF; 0x97D2D72D; 0x09B64C8E; 0x7EB17C18; 0xE7B82D02;
   0x90BF1D94; 0x1DB71064; 0x6AB020F2; 0xF3B6E20C; 0x84BE41DE; 0x1ADAD47D; 0x6DDDE4EB;
   0xF4D4B551; 0x83F3D0C7; 0x136C9856; 0x646BA8C0; 0xFD62F97A; 0x8A65C9EC; 0x14015C4F;
   0x63066CD9; 0xFA44E5D6; 0x8D079F40; 0x15F5A3F4; 0x62E8EB62; 0xFBEFF47D; 0x8C8315EB;
   0x12C0A48C; 0x6162341A; 0xF88D5D60; 0x8FD40FF6; 0x21DA880B; 0x5605E89D; 0xCF95D367;
   0xB8843371; 0x236B22D2; 0x54D0B244; 0xCDC7075E; 0xBA0B88C8; 0x2A3AF9D7; 0x5D1FB041;
   0xC41B6ADB; 0xB3B6944D; 0x2B03B6EE; 0x5CB1D678; 0xC5D0C662; 0xB2D04CF4; 0x3B6E20C8;
   0x4C69105E; 0xD56041E4; 0xA2677172; 0x3C03E4D1; 0x4B04D447; 0xD20D85FD; 0xA50AB56B;
   0x35B5A8FA; 0x42B2986C; 0xDBBBC9D6; 0xACBCF940; 0x32D86CE3; 0x45DF5C75; 0xDCD60DCF;
   0xABD13D59; 0x26D930AC; 0x51DE003A; 0xC8D75180; 0xBFD06116; 0x21B4F4B5; 0x56B3C423;
   0xCFBA9599; 0xB8BDA50F; 0x2802B89E; 0x5F058808; 0xC60CD9B2; 0xB10BE924; 0x2F6F7C87;
   0x58684C11; 0xC1611DAB; 0xB6662D3D].

Definition crc_step (crc byte : Z) : Z :=
  Z.lxor (Z.shiftr crc 8) (nth (Z.to_nat (Z.land (Z.lxor crc byte) 0xFF)) crcTable 0).

Definition calculateChecksum (data : list Z) : Z :=
  Z.lxor (fold_left crc_step data 0xFFFFFFFF) 0xFFFFFFFF.

(** ** The pipe channel

    [buffer] holds the bytes in the kernel's pipe, which has room for [capacity],
    [readFd] and [writeFd] whether the descriptors of this process are open, and
    [peerWrites] whether another process holds the write end open.  The
    descriptors are in blocking mode. *)

Record PipeChannel := mkPipe {
  readFd : bool;
  writeFd : bool;
  peerWrites : bool;
  nextSequence : Z;
  capacity : nat;
  buffer : list Z
}.

#[export] Instance PipeChannel_eta : Eta PipeChannel := λ p,
  mkPipe (readFd p) (writeFd p) (peerWrites p) (nextSequence p) (capacity p) (buffer p).

(** What the operating system does with the calls of one operation: the [i]-th
    [read] or [write] fails, or moves that many bytes. *)
Inductive os_call := Fails | Moves (n : nat).
Definition os := nat → os_call.

(** A call that succeeds moves at least one byte and at most what it may. *)
Definition moved (n limit : nat) : nat := Nat.max 1 (Nat.min n limit).

(** How an operation ends: a value, an error, or it waits inside a system call
    for another process: for room in the pipe or for bytes.  [OutOfFuel] does not
    happen, see [channel_refines_queue]. *)
Inductive outcome A :=
| Done (a : A)
| Failed (e : IPCError)
| Blocked
| OutOfFuel.
Arguments Done {A} a.
Arguments Failed {A} e.
Arguments Blocked {A}.
Arguments OutOfFuel {A}.

(** The write loop of [send]: what the pipe received and how the loop ended.
    [free] is the room left in the pipe: a write moves at most that much, and
    waits when there is none. *)
Fixpoint write_loop (fuel : nat) (o : os) (i free : nat) (data : list Z) : list Z * outcome unit :=
  match fuel, data with
  | _, [] => ([], Done ())
  | O, _ => ([], OutOfFuel)
  | S fuel, _ =>
      match o i, free with
      | Fails, _ => ([], Failed PipeError)
      | Moves _, O => ([], Blocked)
      | Moves n, _ =>
          let k := moved n (Nat.min (length data) free) in
          let '(sent, r) := write_loop fuel o (S i) (free - k) (drop k data) in
          (take k data ++ sent, r)
      end
  end.

Definition room (p : PipeChannel) : nat := (capacity p - length (buffer p))%nat.

Definition send (o : os) (m : Message) (p : PipeChannel) : PipeChannel * outcome unit :=
  if negb (writeFd p) then (p, Failed ChannelClosed) else
  let data := message_serialize m in
  let '(sent, r) := write_loop (length data) o 0 (room p) data in
  (p <| buffer ::= (λ b, b ++ sent) |>, r).

(** Reads [want] bytes; the state of the pipe after, the bytes, the call count. *)
Fixpoint read_loop (fuel : nat) (o : os) (i : nat) (want : nat) (got : list Z) (writers : bool)
    (b : list Z) : list Z * nat * outcome (list Z) :=
  match want, fuel with
  | O, _ => (b, i, Done got)
  | _, O => (b, i, OutOfFuel)
  | _, S fuel =>
      match o i with
      | Fails => (b, S i, Failed PipeError)
      | Moves n =>
          match b with
          | [] => (b, S i, if writers then Blocked else Failed ChannelClosed)
          | _ =>
              let k := moved n (Nat.min want (length b)) in
              read_loop fuel o (S i) (want - k) (got ++ take k b) writers (drop k b)
          end
      end
  end.

Definition writers (p : PipeChannel) : bool := writeFd p || peerWrites p.

(** How poll answers: an error, the end of the wait, or ready. *)
Inductive poll_answer := PollFails | PollTimesOut | PollWaits | PollReady.

(** The pipe is readable when it holds a byte or nobody can write to it.  If it
    is not, poll waits for [ms] milliseconds, and without limit when [ms] is
    negative. *)
Definition poll (fails : bool) (ms : Z) (p : PipeChannel) : poll_answer :=
  if fails then PollFails
  else if bool_decide (buffer p = []) && writers p
       then if ms <? 0 then PollWaits else PollTimesOut
       else PollReady.

(** [timeout] is a count of milliseconds of 64 bits, cast to [int] for poll;
    [poll_fails]: the call of poll reports an error. *)
Definition receive (o : os) (poll_fails : bool) (timeout : Z) (p : PipeChannel) :
    PipeChannel * outcome Message :=
  if negb (readFd p) then (p, Failed ChannelClosed) else
  match poll poll_fails (to_int timeout) p with
  | PollFails => (p, Failed PipeError)
  | PollTimesOut => (p, Failed Timeout)
  | PollWaits => (p, Blocked)
  | PollReady =>
  let '(b, i, hd) := read_loop HEADER_SIZE o 0 HEADER_SIZE [] (writers p) (buffer p) in
  let p := p <| buffer := b |> in
  match hd with
  | Failed e => (p, Failed e)
  | Blocked => (p, Blocked)
  | OutOfFuel => (p, OutOfFuel)
  | Done headerData =>
      match header_deserialize headerData with
      | Throw e => (p, Failed e)
      | Ok h =>
          let want := Z.to_nat (payloadSize h) in
          let '(b, _, body) := read_loop want o i want [] (writers p) (buffer p) in
          let p := p <| buffer := b |> in
          match body with
          | Failed e => (p, Failed e)
          | Blocked => (p, Blocked)
          | OutOfFuel => (p, OutOfFuel)
          | Done bytes => (p, Done (mkMessage h bytes))
          end
      end
  end
  end.

(** [pipe]: the capacity of the new pipe if the call of [pipe] succeeds. *)
Definition create (pipe : option nat) (p : PipeChannel) : PipeChannel * outcome unit :=
  match pipe with
  | Some cap =>
      (p <| readFd := true |> <| writeFd := true |> <| peerWrites := false |>
         <| capacity := cap |> <| buffer := [] |>, Done ())
  | None => (p, Failed PipeError)
  end.

Definition channel_close (p : PipeChannel) : PipeChannel :=
  p <| readFd := false |> <| writeFd := false |>.
Definition isOpen (p : PipeChannel) : bool := readFd p || writeFd p.
Definition closeRead (p : PipeChannel) : PipeChannel := p <| readFd := false |>.
Definition closeWrite (p : PipeChannel) : PipeChannel := p <| writeFd := false |>.

(** [sequenceId_++] of an [atomic<uint32_t>]. *)
Definition nextSequenceId (p : PipeChannel) : PipeChannel * Z :=
  (p <| nextSequence ::= (λ n, to_u32 (n + 1)) |>, nextSequence p).

Definition send_json `{JsonCodec J F} (o : os) (ty : MessageType) (j : J) (p : PipeChannel) :
    result string (PipeChannel * outcome unit) :=
  let '(p, seq) := nextSequenceId p in
  let* m := message_create_json ty j seq in Ok (send o m p).

(** ** Two pipes, parent to child and back *)

Record BidirectionalChannel := mkBidirectional {
  parentToChild : PipeChannel;
  childToParent : PipeChannel;
  bi_sequence : Z
}.

#[export] Instance BidirectionalChannel_eta : Eta BidirectionalChannel := λ c,
  mkBidirectional (parentToChild c) (childToParent c) (bi_sequence c).

Definition bi_create (pipe1 pipe2 : option nat) (c : BidirectionalChannel) : BidirectionalChannel * outcome unit :=
  let '(p1, r1) := create pipe1 (parentToChild c) in
  let c := c <| parentToChild := p1 |> in
  match r1 with
  | Done _ =>
      let '(p2, r2) := create pipe2 (childToParent c) in
      let c := c <| childToParent := p2 |> in
      match r2 with
      | Done _ => (c, Done ())
      | e => (c <| parentToChild ::= channel_close |>, e)
      end
  | e => (c, e)
  end.

Definition bi_isOpen (c : BidirectionalChannel) : bool := isOpen (parentToChild c) && isOpen (childToParent c).

(** The parent keeps the write end of one pipe and the read end of the other. *)
Definition setupParent (c : BidirectionalChannel) : BidirectionalChannel :=
  c <| parentToChild ::= closeRead |> <| childToParent ::= closeWrite |>.

Definition bi_send (o : os) (m : Message) (c : BidirectionalChannel) : BidirectionalChannel * outcome unit :=
  let '(p, r) := send o m (parentToChild c) in (c <| parentToChild := p |>, r).

Definition bi_receive (o : os) (poll_fails : bool) (timeout : Z) (c : BidirectionalChannel) :
    BidirectionalChannel * outcome Message :=
  let '(p, r) := receive o poll_fails timeout (childToParent c) in (c <| childToParent := p |>, r).

(** [sequenceId_++]. *)
Definition bi_next (c : BidirectionalChannel) : BidirectionalChannel * Z :=
  (c <| bi_sequence ::= (λ n, to_u32 (n + 1)) |>, bi_sequence c).

Definition respondToHandshake `{JsonCodec J F} (o : os) (p : HandshakePayload) (c : BidirectionalChannel) :
    result string (BidirectionalChannel * outcome unit) :=
  let '(c, seq) := bi_next c in
  let* m := message_create_json HandshakeAck (HandshakePayload_toJson p) seq in
  let '(q, r) := send o m (childToParent c) in
  Ok (c <| childToParent := q |>, r).

(** [child] is what the other process does to the pipes while the parent waits. *)
Definition performHandshake `{JsonCodec J F} (own_pid : Z) (os_write os_read : os) (poll_fails : bool) (timeout : Z)
    (child : BidirectionalChannel → BidirectionalChannel) (c : BidirectionalChannel) :
    result string (BidirectionalChannel * outcome HandshakePayload) :=
  let request := mkHandshake "1.0" "" ["execute"; "progress"; "cancel"]%string own_pid in
  let '(c, seq) := bi_next c in
  let* m := message_create_json Handshake (HandshakePayload_toJson request) seq in
  let '(c, sent) := bi_send os_write m c in
  match sent with
  | Failed e => Ok (c, Failed e)
  | Blocked => Ok (c, Blocked)
  | OutOfFuel => Ok (c, OutOfFuel)
  | Done _ =>
      let '(c, response) := bi_receive os_read poll_fails timeout (child c) in
      Ok (c, match response with
             | Failed e => Failed e
             | Blocked => Blocked
             | OutOfFuel => OutOfFuel
             | Done m =>
                 if negb (type (header m) =? HandshakeAck) then Failed InvalidMessage else
                 match getPayloadAsJson m with
                 | Throw e => Failed e
                 | Ok j =>
                     match HandshakePayload_fromJson j with
                     | Throw e => Failed e
                     | Ok p => Done p
                     end
                 end
             end)
  end.

(** * Properties *)

(** ** Integers as bytes *)

(** A bit of a value below [2^k] is zero from [k] on. *)
Lemma testbit_high z k n : 0 ≤ z < 2 ^ k → 0 ≤ k ≤ n → Z.testbit z n = false.
Proof.
  intros Hz Hk. rewrite <- (Z.mod_small z (2 ^ k)) by done. apply Z.mod_pow2_bits_high. lia.
Qed.

Lemma testbit_u8 z n : is_u8 z → Z.testbit z n = Z.testbit z n && (0 <=? n) && (n <? 8).
Proof.
  intros Hz. destruct (Z.leb_spec 0 n); [|by rewrite Z.testbit_neg_r].
  destruct (Z.ltb_spec n 8); rewrite ?andb_true_r; [done|].
  rewrite andb_false_r. apply (testbit_high _ 8); [done|lia].
Qed.

Lemma testbit_255 n : 0 ≤ n → Z.testbit 0xFF n = (n <? 8).
Proof.
  intros Hn. change 0xFF with (Z.ones 8). destruct (Z.ltb_spec n 8).
  - apply Z.ones_spec_low. lia.
  - apply Z.ones_spec_high. lia.
Qed.

Lemma land_255 z : Z.land z 0xFF = z mod 256.
Proof. change 0xFF with (Z.ones 8). by rewrite Z.land_ones. Qed.

Lemma to_u8_land z : to_u8 (Z.land z 0xFF) = Z.land z 0xFF.
Proof. unfold to_u8. rewrite land_255. apply Z.mod_mod. lia. Qed.

Lemma put_be32_u8 z : Forall is_u8 (put_be32 z).
Proof. repeat constructor; apply Z.mod_pos_bound; lia. Qed.

Lemma length_put_be32 z : length (put_be32 z) = 4%nat.
Proof. done. Qed.

(** The integer read from four bytes has those bytes, bit by bit. *)
Lemma be32_bits z : is_u32 z → get_be32 (put_be32 z) 0 = z.
Proof.
  intros Hz. unfold get_be32, put_be32, byte_at. cbn [nth Nat.add].
  rewrite !to_u8_land. apply Z.bits_inj'. intros n Hn.
  rewrite !Z.lor_spec, !Z.shiftl_spec by done.
  assert (∀ k m, 0 ≤ k → Z.testbit (Z.land (Z.shiftr z k) 0xFF) m
    = Z.testbit z (m + k) && (0 <=? m) && (m <? 8)) as E.
  { intros k m Hk. rewrite Z.land_spec. destruct (Z.leb_spec 0 m).
    - rewrite Z.shiftr_spec, testbit_255 by done. by rewrite andb_true_r.
    - rewrite !(Z.testbit_neg_r _ m) by done. by rewrite !andb_false_r. }
  rewrite !E by done. replace (Z.land z 0xFF) with (Z.land (Z.shiftr z 0) 0xFF) by done. rewrite E by done.
  rewrite !Z.sub_add, Z.add_0_r.
  destruct (Z.lt_ge_cases n 32) as [Hlt|Hge]; [|rewrite (testbit_high z 32 n) by (done || lia); done].
  destruct (Z.testbit z n); [|done].
  destruct (Z.leb_spec 0 (n - 24)), (Z.ltb_spec (n - 24) 8), (Z.leb_spec 0 (n - 16)),
    (Z.ltb_spec (n - 16) 8), (Z.leb_spec 0 (n - 8)), (Z.ltb_spec (n - 8) 8), (Z.leb_spec 0 n),
    (Z.ltb_spec n 8); try done; lia.
Qed.

Lemma get_be32_arith a b c d :
  is_u8 a → is_u8 b → is_u8 c → is_u8 d →
  get_be32 [a; b; c; d] 0 = a * 16777216 + b * 65536 + c * 256 + d.
Proof.
  intros Ha Hb Hc Hd. unfold is_u8 in *. unfold get_be32, byte_at. cbn [nth Nat.add].
  assert (∀ x y k, 0 ≤ k → 0 ≤ y < 2 ^ k → Z.lor (Z.shiftl x k) y = x * 2 ^ k + y) as E.
  { intros x y k Hk Hy. rewrite <- Z.shiftl_mul_pow2, <- Z.add_lor_land by done.
    rewrite <- (Z.add_0_r (Z.lor _ _)) at 1. f_equal. symmetry. apply Z.bits_inj'. intros n Hn. rewrite Z.land_spec, Z.shiftl_spec, Z.bits_0 by done.
    destruct (Z.lt_ge_cases n k).
    - by rewrite Z.testbit_neg_r by lia.
    - by rewrite (testbit_high y k), andb_false_r by (done || lia). }
  replace (Z.lor (Z.shiftl a 24) (Z.shiftl b 16)) with (Z.shiftl (Z.lor (Z.shiftl a 8) b) 16)
    by (rewrite Z.shiftl_lor, Z.shiftl_shiftl by lia; done).
  rewrite (E a b 8) by lia. change (2 ^ 8) with 256.
  replace (Z.lor (Z.shiftl (a * 256 + b) 16) (Z.shiftl c 8))
    with (Z.shiftl (Z.lor (Z.shiftl (a * 256 + b) 8) c) 8)
    by (rewrite Z.shiftl_lor, Z.shiftl_shiftl by lia; done).
  rewrite !E by lia. change (2 ^ 8) with 256. lia.
Qed.

Lemma put_get_be32 a b c d :
  is_u8 a → is_u8 b → is_u8 c → is_u8 d → put_be32 (get_be32 [a; b; c; d] 0) = [a; b; c; d].
Proof.
  intros Ha Hb Hc Hd. rewrite get_be32_arith by done. unfold is_u8 in *.
  unfold put_be32. rewrite !to_u8_land, !land_255, !Z.shiftr_div_pow2 by done.
  change (2 ^ 24) with 16777216. change (2 ^ 16) with 65536. change (2 ^ 8) with 256.
  set (x := a * 16777216 + b * 65536 + c * 256 + d).
  assert (∀ m q r, 0 ≤ r < m → x = m * q + r → x / m = q) as E.
  { intros. symmetry. by apply (Z.div_unique_pos _ _ _ r). }
  rewrite (E 16777216 a (b * 65536 + c * 256 + d)) by (unfold x; lia).
  rewrite (E 65536 (a * 256 + b) (c * 256 + d)) by (unfold x; lia).
  rewrite (E 256 (a * 65536 + b * 256 + c) d) by (unfold x; lia).
  f_equal; [apply Z.mod_small; lia|].
  f_equal; [symmetry; apply (Z.mod_unique_pos _ _ a); lia|].
  f_equal; [symmetry; apply (Z.mod_unique_pos _ _ (a * 256 + b)); lia|].
  f_equal. symmetry. apply (Z.mod_unique_pos _ _ (a * 65536 + b * 256 + c)); unfold x; lia.
Qed.

Lemma get_be32_u32 a b c d :
  is_u8 a → is_u8 b → is_u8 c → is_u8 d → is_u32 (get_be32 [a; b; c; d] 0).
Proof. intros. rewrite get_be32_arith by done. unfold is_u8, is_u32 in *. lia. Qed.

(** Reading at an offset is reading the bytes there. *)
Lemma get_be32_app (x y : list Z) n : length x = n → get_be32 (x ++ y) n = get_be32 y 0.
Proof.
  intros <-. unfold get_be32, byte_at. rewrite !app_nth2 by lia.
  by replace (length x - length x)%nat with 0%nat by lia;
    replace (length x + 1 - length x)%nat with 1%nat by lia;
    replace (length x + 2 - length x)%nat with 2%nat by lia;
    replace (length x + 3 - length x)%nat with 3%nat by lia.
Qed.

Lemma get_be32_prefix z (y : list Z) : is_u32 z → get_be32 (put_be32 z ++ y) 0 = z.
Proof. intros Hz. exact (be32_bits z Hz). Qed.

(** ** Headers *)

(** The fields are in the range of their types. *)
Definition header_wf (h : MessageHeader) : Prop :=
  is_u32 (magic h) ∧ is_u8 (version h) ∧ is_u8 (type h) ∧ is_u32 (payloadSize h)
  ∧ is_u32 (sequenceId h) ∧ is_u8 (flags h) ∧ is_u8 (reserved h).

Lemma length_header_serialize h : length (header_serialize h) = HEADER_SIZE.
Proof. done. Qed.

Lemma header_deserialize_serialize h rest :
  header_wf h → magic h = MAGIC → header_deserialize (header_serialize h ++ rest) = Ok h.
Proof.
  intros (Hm & Hv & Ht & Hp & Hs & Hf & Hr) Hmagic. unfold header_deserialize.
  rewrite length_app, length_header_serialize.
  replace (HEADER_SIZE + length rest <? HEADER_SIZE)%nat with false
    by (symmetry; apply Nat.ltb_ge; lia).
  unfold header_serialize. rewrite <- !app_assoc. rewrite get_be32_prefix by done.
  rewrite Hmagic, Z.eqb_refl. cbn [negb]. f_equal.
  destruct h as [mg ver ty ps sq fl rs]; cbn [magic version type payloadSize sequenceId flags reserved] in *.
  rewrite <- Hmagic. f_equal.
  - unfold byte_at. cbn. unfold to_u8. apply Z.mod_small. exact Ht.
  - rewrite (app_assoc (put_be32 mg)), get_be32_app by done. by apply get_be32_prefix.
  - rewrite (app_assoc (put_be32 mg)), (app_assoc (_ ++ _) (put_be32 ps)), get_be32_app by done.
    by apply get_be32_prefix.
Qed.

(** An accepted header is the one those sixteen bytes encode. *)
Lemma header_serialize_deserialize data h :
  Forall is_u8 data → header_deserialize data = Ok h →
  header_wf h ∧ magic h = MAGIC ∧ header_serialize h = take HEADER_SIZE data.
Proof.
  intros Hd. unfold header_deserialize.
  destruct (Nat.ltb_spec (length data) HEADER_SIZE) as [|Hlen]; [done|].
  do 16 (destruct data as [|? data]; [unfold HEADER_SIZE in Hlen; cbn in Hlen; lia|]).
  clear Hlen.
  repeat match goal with H : Forall is_u8 (_ :: _) |- _ => apply Forall_cons in H as [? H] end.
  change (get_be32 (?a :: ?b :: ?c :: ?d :: _) 0) with (get_be32 [a; b; c; d] 0).
  destruct (Z.eqb_spec (get_be32 [z; z0; z1; z2] 0) MAGIC) as [Hm|]; [|done].
  intros [= <-]. unfold header_serialize, header_wf.
  cbn [magic version type payloadSize sequenceId flags reserved].
  change (get_be32 (_ :: _) 6) with (get_be32 [z5; z6; z7; z8] 0).
  change (get_be32 (_ :: _) 10) with (get_be32 [z9; z10; z11; z12] 0).
  split; [split_and!; try done; by apply get_be32_u32|]. split; [done|].
  rewrite !put_get_be32 by done. unfold byte_at, to_u8. cbn. by rewrite Z.mod_small.
Qed.

(** ** Messages *)

(** The fields are in range and the header has the magic number and the length. *)
Definition message_wf (m : Message) : Prop :=
  header_wf (header m) ∧ magic (header m) = MAGIC
  ∧ payloadSize (header m) = Z.of_nat (length (payload m)) ∧ Forall is_u8 (payload m).

Lemma header_u8 h : header_wf h → Forall is_u8 (header_serialize h).
Proof.
  intros (Hm & Hv & Ht & Hp & Hs & Hf & Hr). unfold header_serialize.
  rewrite !Forall_app. split_and!; try apply put_be32_u8; repeat constructor; try apply Hv; try apply Hf;
    try apply Hr; apply Z.mod_pos_bound; lia.
Qed.

Lemma message_u8 m : message_wf m → Forall is_u8 (message_serialize m).
Proof. intros (Hh & _ & _ & Hp). apply Forall_app. by split; [apply header_u8|]. Qed.

Lemma header_deserialize_error data e : header_deserialize data = Throw e → e = InvalidMessage.
Proof.
  unfold header_deserialize. destruct (_ <? _)%nat; [by intros [= <-]|].
  destruct (negb _); [by intros [= <-]|done].
Qed.

Lemma message_deserialize_serialize m rest :
  message_wf m → message_deserialize (message_serialize m ++ rest) = Ok m.
Proof.
  intros (Hh & Hmagic & Hsize & Hp). unfold message_deserialize, message_serialize.
  rewrite <- app_assoc, header_deserialize_serialize by done.
  rewrite Hsize, Nat2Z.id, !length_app, length_header_serialize.
  replace (_ <? _)%nat with false by (symmetry; apply Nat.ltb_ge; lia).
  replace HEADER_SIZE with (length (header_serialize (header m))) by done.
  rewrite drop_app_length, take_app_length. by destruct m.
Qed.

Lemma message_serialize_deserialize data m :
  Forall is_u8 data → message_deserialize data = Ok m →
  message_wf m ∧ ∃ rest, data = message_serialize m ++ rest.
Proof.
  intros Hd. unfold message_deserialize.
  destruct (header_deserialize data) as [h|] eqn:E; [|done].
  apply header_serialize_deserialize in E as (Hh & Hmagic & Hs); [|done].
  destruct (Nat.ltb_spec (length data) (HEADER_SIZE + Z.to_nat (payloadSize h))) as [|Hlen]; [done|].
  intros [= <-]. pose proof Hh as (_ & _ & _ & Hps & _). unfold is_u32 in Hps. split.
  - split; [done|]. split; [done|]. cbn [header payload]. split.
    + rewrite length_take, length_drop. lia.
    + by apply Forall_take, Forall_drop.
  - exists (drop (Z.to_nat (payloadSize h)) (drop HEADER_SIZE data)). unfold message_serialize.
    cbn [header payload]. by rewrite Hs, <- app_assoc, !take_drop.
Qed.

(** [C16] The binary format: decoding bytes gives a message exactly when the bytes
    start with the encoding of that message, whose header has the magic number
    and the length of the payload; whatever follows is ignored.  Every other
    input is rejected as an invalid message. *)
Theorem message_codec_correct data :
  Forall is_u8 data →
  (∀ m, message_deserialize data = Ok m ↔ message_wf m ∧ ∃ rest, data = message_serialize m ++ rest)
  ∧ (∀ e, message_deserialize data = Throw e → e = InvalidMessage).
Proof.
  intros Hd. split.
  - intros m. split; [by apply message_serialize_deserialize|].
    intros (Hm & rest & ->). by apply message_deserialize_serialize.
  - intros e. unfold message_deserialize. destruct (header_deserialize data) as [h|e'] eqn:E.
    + destruct (_ <? _)%nat; [by intros [= <-]|done].
    + intros [= <-]. by eapply header_deserialize_error.
Qed.

Definition ex_message : Message := message_create Execute [123; 125] 7.

Lemma ex_message_wf : message_wf ex_message.
Proof.
  unfold message_wf, header_wf, is_u32, is_u8. cbn. split_and!; try done; try lia.
  repeat constructor; done.
Defined.

Lemma message_codec_correct_witness :
  message_deserialize (message_serialize ex_message ++ [255]) = Ok ex_message.
Proof.
  assert (Forall is_u8 (message_serialize ex_message ++ [255])) as Hd.
  { repeat constructor; done. }
  apply (proj1 (message_codec_correct _ Hd) ex_message). split; [exact ex_message_wf|].
  by exists [255].
Defined.

(** A message made by [create] is well-formed while its length fits. *)
Lemma message_create_wf ty bytes seq :
  is_u8 ty → is_u32 seq → Forall is_u8 bytes → is_u32 (Z.of_nat (length bytes)) →
  message_wf (message_create ty bytes seq).
Proof.
  intros Ht Hs Hb Hl. unfold message_wf, header_wf, message_create.
  cbn [header payload magic version type payloadSize sequenceId flags reserved].
  unfold to_u32. rewrite Z.mod_small by exact Hl. unfold is_u8, is_u32 in *.
  split_and!; try done; unfold MAGIC, VERSION; lia.
Qed.

(** The version of a header is not looked at: [isValid] is never called. *)
Lemma version_not_checked :
  let h := (header ex_message) <| version := 2 |> in
  header_isValid h = false ∧ header_deserialize (header_serialize h) = Ok h.
Proof. done. Qed.

(** ** Length-prefixed data *)

Lemma deserializeString_serialize before data rest :
  Forall is_u8 data → Z.of_nat (length (before ++ serializeBytes data ++ rest)) < 4294967296 →
  deserializeString (before ++ serializeBytes data ++ rest) (Z.of_nat (length before))
  = Some (Ok (data, Z.of_nat (length (before ++ serializeBytes data)))).
Proof.
  intros Hd Hl. unfold deserializeString, serializeBytes in *.
  rewrite !length_app, length_put_be32 in *. unfold to_u32, to_size, SIZE_MOD.
  rewrite (Z.mod_small (Z.of_nat (length data))) by lia.
  rewrite (Z.mod_small (_ + 4)) by lia.
  rewrite (proj2 (Z.ltb_ge _ _)) by lia.
  rewrite Nat2Z.id, <- (app_assoc (put_be32 _)), get_be32_app, get_be32_prefix by (done || (unfold is_u32; lia)).
  rewrite (Z.mod_small (_ + _)) by lia. rewrite !(proj2 (Z.ltb_ge _ _)) by lia.
  rewrite Nat2Z.id. replace (Z.to_nat (Z.of_nat (length before) + 4))
    with (length (before ++ put_be32 (Z.of_nat (length data)))) by (rewrite length_app, length_put_be32; lia).
  rewrite (app_assoc before), drop_app_length, take_app_length. repeat f_equal; lia.
Qed.

(** An offset close to the end of [size_t] passes the first check. *)
Lemma deserializeString_wraps : deserializeString [0; 0; 0; 0] (SIZE_MOD - 4) = None.
Proof. done. Qed.

(** ** Payloads *)

Lemma string_bytes_roundtrip s : string_of_bytes (bytes_of_string s) = s.
Proof.
  unfold string_of_bytes, bytes_of_string, chars. rewrite map_map.
  rewrite (map_ext _ (λ c, c)), map_id by (intros c; rewrite N2Z.id; apply Ascii.ascii_N_embedding).
  apply String.string_of_list_ascii_of_string.
Qed.

Lemma bytes_of_string_u8 s : Forall is_u8 (bytes_of_string s).
Proof.
  apply Forall_forall. intros b (c & <- & _)%list_elem_of_In%in_map_iff.
  pose proof (Ascii.N_ascii_bounded c). unfold is_u8. lia.
Qed.

Lemma length_bytes_of_string s : length (bytes_of_string s) = String.length s.
Proof.
  unfold bytes_of_string, chars. rewrite length_map. induction s; simpl; congruence.
Qed.

Section payload_properties.
Context `{JsonCodec J F}.

(** A JSON document sent in a message comes out of it. *)
Lemma json_message_roundtrip ty j seq s rest :
  is_u8 ty → is_u32 seq → j_dump j = Ok s → j_parse s = Some j → s ≠ ""%string →
  is_u32 (Z.of_nat (String.length s)) →
  ∃ m, message_create_json ty j seq = Ok m ∧ message_wf m
    ∧ message_deserialize (message_serialize m ++ rest) = Ok m
    ∧ type (header m) = ty ∧ sequenceId (header m) = seq ∧ getPayloadAsJson m = Ok j.
Proof.
  intros Ht Hs Hdump Hparse Hne Hlen. exists (message_create ty (bytes_of_string s) seq).
  assert (message_wf (message_create ty (bytes_of_string s) seq)) as Hwf.
  { apply message_create_wf; try done; [apply bytes_of_string_u8|by rewrite length_bytes_of_string]. }
  split; [unfold message_create_json, serializer_serialize; by rewrite Hdump|].
  split; [done|]. split; [by apply message_deserialize_serialize|]. split; [done|]. split; [done|].
  unfold getPayloadAsJson. cbn [payload message_create].
  assert (serializer_deserialize (bytes_of_string s) = Ok j) as Hd.
  { unfold serializer_deserialize. by rewrite string_bytes_roundtrip, Hparse. }
  by destruct s.
Qed.

Lemma ExecuteRequest_roundtrip r :
  INT64_MIN ≤ timeout r ≤ INT64_MAX → ExecuteRequest_fromJson (ExecuteRequest_toJson r) = Ok r.
Proof.
  intros Ht. unfold ExecuteRequest_fromJson, ExecuteRequest_toJson. read_members. by destruct r.
Qed.

Lemma ExecuteResult_roundtrip r :
  INT64_MIN ≤ executionTimeMs r ≤ INT64_MAX → 0 ≤ peakMemoryBytes r < SIZE_MOD →
  ExecuteResult_fromJson (ExecuteResult_toJson r) = Ok r.
Proof.
  intros Ht Hp. unfold ExecuteResult_fromJson, ExecuteResult_toJson. read_members. by destruct r.
Qed.

Lemma ProgressUpdate_roundtrip zero u :
  INT64_MIN ≤ elapsedMs u ≤ INT64_MAX →
  (∀ ms, estimatedRemainingMs u = Some ms → INT64_MIN ≤ ms ≤ INT64_MAX) →
  ProgressUpdate_fromJson zero (ProgressUpdate_toJson u) = Ok u.
Proof.
  intros He Hr. unfold ProgressUpdate_fromJson, ProgressUpdate_toJson.
  destruct u as [pc msg step ms [est|]]; cbn [estimatedRemainingMs percentage message currentStep elapsedMs] in *.
  - specialize (Hr est eq_refl). rewrite j_set_object by solve_keys. cbn [app].
    rewrite (j_member_object _ "estimated_remaining_ms"%string _ None (j_of_int est) (Some est))
      by (solve_keys || done || by rewrite j_int64_law). read_members. done.
  - read_members. done.
Qed.

Lemma HandshakePayload_roundtrip p :
  0 ≤ pid p < UINT32_MOD → HandshakePayload_fromJson (HandshakePayload_toJson p) = Ok p.
Proof.
  intros Hp. unfold HandshakePayload_fromJson, HandshakePayload_toJson. read_members. by destruct p.
Qed.
End payload_properties.

(** A payload survives its journey: a request, a result, a progress update
    or a handshake, turned into JSON, put in a message, encoded, received with
    more bytes behind it, decoded and read back, is the one sent, with the type
    and the sequence number of the message, as long as its integers are in the
    range of their types, the text is shorter than 4 GiB and the JSON library
    parses what it dumps. *)
Theorem payload_roundtrip `{JsonCodec J F} (zero : F) ty seq rest (carried : J → Prop) :
  is_u8 ty → is_u32 seq →
  (∀ j, carried j → ∃ s, j_dump j = Ok s ∧ j_parse s = Some j ∧ s ≠ ""%string
    ∧ is_u32 (Z.of_nat (String.length s))) →
  let arrives j (P : J → Prop) := ∃ m, message_create_json ty j seq = Ok m
    ∧ message_deserialize (message_serialize m ++ rest) = Ok m
    ∧ type (header m) = ty ∧ sequenceId (header m) = seq
    ∧ ∃ j', getPayloadAsJson m = Ok j' ∧ P j' in
  (∀ r, carried (ExecuteRequest_toJson r) → INT64_MIN ≤ timeout r ≤ INT64_MAX →
     arrives (ExecuteRequest_toJson r) (λ j, ExecuteRequest_fromJson j = Ok r))
  ∧ (∀ r, carried (ExecuteResult_toJson r) → INT64_MIN ≤ executionTimeMs r ≤ INT64_MAX →
     0 ≤ peakMemoryBytes r < SIZE_MOD →
     arrives (ExecuteResult_toJson r) (λ j, ExecuteResult_fromJson j = Ok r))
  ∧ (∀ u, carried (ProgressUpdate_toJson u) → INT64_MIN ≤ elapsedMs u ≤ INT64_MAX →
     (∀ ms, estimatedRemainingMs u = Some ms → INT64_MIN ≤ ms ≤ INT64_MAX) →
     arrives (ProgressUpdate_toJson u) (λ j, ProgressUpdate_fromJson zero j = Ok u))
  ∧ (∀ p, carried (HandshakePayload_toJson p) → 0 ≤ pid p < UINT32_MOD →
     arrives (HandshakePayload_toJson p) (λ j, HandshakePayload_fromJson j = Ok p)).
Proof.
  intros Ht Hs Hc arrives.
  assert (∀ j (P : J → Prop), carried j → P j → arrives j P) as Harr.
  { intros j P Hj HP. destruct (Hc j Hj) as (s & Hd & Hp & Hne & Hl).
    destruct (json_message_roundtrip ty j seq s rest Ht Hs Hd Hp Hne Hl) as (m & Hm & _ & Hde & Hty & Hsq & Hj').
    exists m. split_and!; eauto. }
  split_and!; intros; apply Harr; eauto using ExecuteRequest_roundtrip, ExecuteResult_roundtrip,
    ProgressUpdate_roundtrip, HandshakePayload_roundtrip.
Qed.

Definition ex_handshake : HandshakePayload := mkHandshake "1.0" "3.12" ["execute"] 4711.
Definition ex_json : jval :=
  JObj [("version", JStr "1.0"); ("python_version", JStr "3.12"); ("capabilities", JArr ["execute"]);
        ("pid", JInt 4711)]%string.

Lemma payload_roundtrip_witness :
  let C := jval_codec "document" ex_json in
  ∃ m, message_create_json HandshakeAck (HandshakePayload_toJson ex_handshake) 3 = Ok m
    ∧ message_deserialize (message_serialize m ++ []) = Ok m
    ∧ type (header m) = HandshakeAck ∧ sequenceId (header m) = 3
    ∧ ∃ j, getPayloadAsJson m = Ok j ∧ HandshakePayload_fromJson j = Ok ex_handshake.
Proof.
  intros C.
  assert (∀ j, j = ex_json → ∃ s, j_dump j = Ok s ∧ j_parse s = Some j ∧ s ≠ ""%string
    ∧ is_u32 (Z.of_nat (String.length s))) as Hc.
  { intros j ->. exists "document"%string. split_and!; try done. }
  assert (is_u8 HandshakeAck) as Ht by done. assert (is_u32 3) as Hs by done.
  apply (proj2 (proj2 (proj2 (payload_roundtrip 0 HandshakeAck 3 [] (λ j, j = ex_json) Ht Hs Hc)))).
  - reflexivity.
  - done.
Defined.

(** ** The checksum *)

(** The CRC-32 of the comment: the reflected polynomial, bit by bit. *)
Definition crc32_entry (i : Z) : Z :=
  Nat.iter 8 (λ c, if Z.odd c then Z.lxor (Z.shiftr c 1) 0xEDB88320 else Z.shiftr c 1) i.

(** Only 28 of the 256 entries of the table are those of CRC-32, the first 18
    among them. *)
Lemma crcTable_entries :
  length crcTable = 248%nat
  ∧ length (filter (λ i, nth i crcTable 0 = crc32_entry (Z.of_nat i)) (seq 0 256)) = 28%nat
  ∧ Forall (λ i, nth i crcTable 0 = crc32_entry (Z.of_nat i)) (seq 0 18).
Proof. split_and!; [done|by vm_compute|]. apply (bool_decide_unpack _). vm_compute. exact I. Qed.

(** The check value of CRC-32, of "123456789", is 0xCBF43926. *)
Lemma checksum_check_value :
  calculateChecksum (bytes_of_string "123456789") = 0x955D0DFF ∧ calculateChecksum [] = 0.
Proof. by vm_compute. Qed.

(** The index of a byte in the table can be chosen freely. *)
Lemma crc_index crc k : is_u8 k →
  let b := Z.lxor (Z.land crc 0xFF) k in is_u8 b ∧ Z.land (Z.lxor crc b) 0xFF = k.
Proof.
  intros Hk b.
  assert (Z.land (Z.lxor crc b) 0xFF = k) as E.
  { apply Z.bits_inj'. intros n Hn. unfold b.
    rewrite Z.land_spec, !Z.lxor_spec, Z.land_spec, testbit_255, (testbit_u8 k n Hk) by done.
    rewrite (proj2 (Z.leb_le 0 n) Hn), andb_true_r.
    destruct (Z.testbit crc n), (Z.testbit k n), (n <? 8); done. }
  split; [|done].
  assert (b = Z.land b 0xFF) as ->.
  { apply Z.bits_inj'. intros n Hn. unfold b.
    rewrite !Z.land_spec, !Z.lxor_spec, Z.land_spec, testbit_255, (testbit_u8 k n Hk) by done.
    rewrite (proj2 (Z.leb_le 0 n) Hn), andb_true_r.
    destruct (Z.testbit crc n), (Z.testbit k n), (n <? 8); done. }
  rewrite land_255. apply Z.mod_pos_bound. lia.
Qed.

(** At every position there are two bytes the checksum does not tell apart. *)
Lemma checksum_blind data rest :
  ∃ a b, is_u8 a ∧ is_u8 b ∧ a ≠ b
    ∧ calculateChecksum (data ++ a :: rest) = calculateChecksum (data ++ b :: rest).
Proof.
  set (crc := fold_left crc_step data 0xFFFFFFFF).
  destruct (crc_index crc 0) as [Ha Ea]; [done|]. destruct (crc_index crc 248) as [Hb Eb]; [done|].
  eexists _, _. split; [exact Ha|]. split; [exact Hb|]. split.
  - intros E. rewrite E, Eb in Ea. done.
  - unfold calculateChecksum. rewrite !fold_left_app. cbn [fold_left]. fold crc.
    unfold crc_step at 2 4. rewrite Ea, Eb. done.
Qed.

(** ** The channel as a queue of messages *)

Lemma moved_bounds n limit : (0 < limit → 1 ≤ moved n limit ≤ limit)%nat.
Proof. unfold moved. lia. Qed.

Definition never_fails (o : os) : Prop := ∀ i, ∃ n, o i = Moves n.

(** A write loop fills the pipe: it ends when all the data fits and waits
    otherwise, since each call moves at least one byte. *)
Lemma write_loop_spec o : never_fails o → ∀ fuel i free data,
  (length data ≤ fuel)%nat →
  write_loop fuel o i free data
  = (take free data, if decide (length data ≤ free)%nat then Done () else Blocked).
Proof.
  intros Ho. induction fuel as [|fuel IH]; intros i free data Hf.
  { destruct data; [|cbn in Hf; lia]. rewrite take_nil. cbn.
    by rewrite decide_True by (cbn; lia). }
  destruct data as [|x data].
  { rewrite take_nil. cbn. by rewrite decide_True by (cbn; lia). }
  cbn [write_loop]. destruct (Ho i) as [n ->]. destruct free as [|free]; [done|].
  set (k := moved n _). pose proof (moved_bounds n (Nat.min (length (x :: data)) (S free))) as Hk.
  fold k in Hk. cbn [length] in Hk, Hf.
  rewrite IH by (rewrite length_drop; cbn [length]; lia). rewrite length_drop. f_equal.
  - rewrite <- (take_drop k (take (S free) (x :: data))), take_take, skipn_firstn_comm.
    by replace (k `min` S free)%nat with k by lia.
  - cbn [length]. by repeat case_decide; try lia.
Qed.

(** A failing or waiting write leaves what was written before in the pipe. *)
Lemma write_loop_prefix o fuel i free data sent r :
  write_loop fuel o i free data = (sent, r) → sent `prefix_of` data.
Proof.
  revert i free data sent r. induction fuel as [|fuel IH]; intros i free data sent r.
  - destruct data; intros [= <- <-]; apply prefix_nil.
  - destruct data as [|x data]; cbn [write_loop]; [intros [= <- <-]; apply prefix_nil|].
    destruct (o i) as [|n]; [intros [= <- <-]; apply prefix_nil|].
    destruct free as [|free]; [intros [= <- <-]; apply prefix_nil|].
    destruct (write_loop fuel o (S i) _ _) as [sent' r'] eqn:E. intros [= <- <-].
    apply IH in E as [rest E]. exists rest. by rewrite <- app_assoc, <- E, take_drop.
Qed.

(** A read loop takes the bytes it wants from the front when they are there. *)
Lemma read_loop_spec o w : never_fails o → ∀ fuel i want got b,
  (want ≤ fuel)%nat → (want ≤ length b)%nat →
  ∃ i', read_loop fuel o i want got w b = (drop want b, i', Done (got ++ take want b)).
Proof.
  intros Ho. induction fuel as [|fuel IH]; intros i want got b Hf Hb.
  - assert (want = 0%nat) as -> by lia. exists i. destruct b; cbn; by rewrite app_nil_r.
  - destruct want as [|want]; [exists i; destruct b; cbn; by rewrite app_nil_r|]. cbn [read_loop].
    destruct (Ho i) as [n ->]. destruct b as [|x b]; [cbn in Hb; lia|].
    set (k := moved n _). pose proof (moved_bounds n (Nat.min (S want) (length (x :: b)))) as Hk.
    fold k in Hk. cbn [length] in Hk, Hb.
    destruct (IH (S i) (S want - k)%nat (got ++ take k (x :: b)) (drop k (x :: b))) as [i' E];
      [lia|rewrite length_drop; cbn [length]; lia|].
    exists i'. rewrite E, drop_drop, <- app_assoc.
    replace (k + (S want - k))%nat with (S want) by lia. do 3 f_equal.
    rewrite <- (take_drop k (take (S want) (x :: b))), take_take, skipn_firstn_comm.
    by replace (k `min` S want)%nat with k by lia.
Qed.

(** The pipe holds the encodings of the queued messages. *)
Definition holds (q : list Message) (p : PipeChannel) : Prop :=
  readFd p = true ∧ writeFd p = true ∧ Forall message_wf q
  ∧ buffer p = concat (map message_serialize q).

(** The bytes of the queued messages. *)
Definition queue_bytes (q : list Message) : nat := length (concat (map message_serialize q)).

Lemma queue_bytes_snoc q m :
  queue_bytes (q ++ [m]) = (queue_bytes q + length (message_serialize m))%nat.
Proof. unfold queue_bytes. by rewrite map_app, concat_app, length_app, <- (app_nil_r (message_serialize m)). Qed.

Lemma send_refines o m q p :
  never_fails o → message_wf m → holds q p →
  ∃ p', capacity p' = capacity p ∧
    if decide (queue_bytes (q ++ [m]) ≤ capacity p)%nat
    then send o m p = (p', Done ()) ∧ holds (q ++ [m]) p'
    else send o m p = (p', Blocked).
Proof.
  intros Ho Hm (Hr & Hw & Hq & Hb). unfold send. rewrite Hw, write_loop_spec by done.
  assert (length (buffer p) = queue_bytes q) as Hl by by rewrite Hb.
  rewrite queue_bytes_snoc. unfold room. rewrite Hl.
  assert (0 < length (message_serialize m))%nat as Hpos.
  { unfold message_serialize. rewrite length_app, length_header_serialize. unfold HEADER_SIZE. lia. }
  exists (p <| buffer ::= (λ b, b ++ take (capacity p - queue_bytes q) (message_serialize m)) |>).
  split; [done|]. repeat case_decide; try lia; [|done]. split; [done|].
  split; [done|]. split; [done|]. split.
  - apply Forall_app. split; [done|]. by constructor.
  - rewrite take_ge by lia. cbn [buffer upd].
    change (buffer p ++ message_serialize m = concat (map message_serialize (q ++ [m]))).
    rewrite Hb, map_app, concat_app. cbn. by rewrite app_nil_r.
Qed.

Lemma message_front m rest :
  message_wf m →
  take HEADER_SIZE (message_serialize m ++ rest) = header_serialize (header m)
  ∧ drop HEADER_SIZE (message_serialize m ++ rest) = payload m ++ rest
  ∧ Z.to_nat (payloadSize (header m)) = length (payload m).
Proof.
  intros (_ & _ & Hs & _). rewrite Hs, Nat2Z.id. unfold message_serialize. rewrite <- app_assoc.
  replace HEADER_SIZE with (length (header_serialize (header m))) by done.
  by rewrite take_app_length, drop_app_length.
Qed.

Lemma receive_front o ms m rest p :
  never_fails o → message_wf m → readFd p = true → buffer p = message_serialize m ++ rest →
  receive o false ms p = (p <| buffer := rest |>, Done m).
Proof.
  intros Ho Hm Hr Hb. destruct (message_front m rest Hm) as (Etake & Edrop & Esize).
  unfold receive, poll. rewrite Hr, Hb. cbn [negb].
  replace (bool_decide (message_serialize m ++ _ = [])) with false
    by (symmetry; by apply bool_decide_eq_false_2). cbn [andb].
  destruct (read_loop_spec o (writers p) Ho HEADER_SIZE 0 HEADER_SIZE [] (message_serialize m ++ rest))
    as [i ->]; [lia|unfold message_serialize; rewrite !length_app, length_header_serialize; lia|].
  rewrite Etake, Edrop. cbn [app]. pose proof Hm as (Hh & Hmagic & _ & _).
  rewrite <- (app_nil_r (header_serialize (header m))), header_deserialize_serialize by done.
  rewrite Esize. cbn [buffer upd].
  destruct (read_loop_spec o (writers (p <| buffer := payload m ++ rest |>)) Ho
    (length (payload m)) i (length (payload m)) [] (payload m ++ rest))
    as [i' E]; [lia|rewrite length_app; lia|].
  rewrite drop_app_length, take_app_length in E. cbn [app] in E.
  match goal with |- context [read_loop ?f ?o ?i ?w ?g ?x ?b] =>
    replace (read_loop f o i w g x b) with (rest, i', @Done (list Z) (payload m))
  end.
  by destruct m.
Qed.

Lemma receive_refines o ms m q p :
  never_fails o → holds (m :: q) p →
  ∃ p', receive o false ms p = (p', Done m) ∧ capacity p' = capacity p ∧ holds q p'.
Proof.
  intros Ho (Hr & Hw & [Hm Hq]%Forall_cons & Hb). eexists.
  split; [by apply (receive_front o ms m (concat (map message_serialize q)))|]. by split_and!.
Qed.

(** Sending and receiving with a timeout, and the same on a queue of messages
    that holds at most [cap] bytes. *)
Inductive channel_op := OpSend (o : os) (m : Message) | OpReceive (o : os) (timeout : Z).

Definition omap_outcome {A B} (f : A → B) (r : outcome A) : outcome B :=
  match r with Done a => Done (f a) | Failed e => Failed e | Blocked => Blocked | OutOfFuel => OutOfFuel end.

Definition channel_step (op : channel_op) (p : PipeChannel) : PipeChannel * outcome (option Message) :=
  match op with
  | OpSend o m => let '(p, r) := send o m p in (p, omap_outcome (λ _, None) r)
  | OpReceive o timeout => let '(p, r) := receive o false timeout p in (p, omap_outcome Some r)
  end.

Definition queue_step (cap : nat) (op : channel_op) (q : list Message) :
    list Message * outcome (option Message) :=
  match op, q with
  | OpSend _ m, _ =>
      if decide (queue_bytes (q ++ [m]) ≤ cap)%nat then (q ++ [m], Done None) else (q, Blocked)
  | OpReceive _ timeout, [] => ([], if to_int timeout <? 0 then Blocked else Failed Timeout)
  | OpReceive _ _, m :: q => (q, Done (Some m))
  end.

(** The results up to the first operation that does not return. *)
Fixpoint run_ops {S} (step : channel_op → S → S * outcome (option Message)) (ops : list channel_op) (s : S) :
    S * list (outcome (option Message)) :=
  match ops with
  | [] => (s, [])
  | op :: ops =>
      match step op s with
      | (s, Blocked) => (s, [Blocked])
      | (s, r) => let '(s, rs) := run_ops step ops s in (s, r :: rs)
      end
  end.

Definition op_ok (op : channel_op) : Prop :=
  match op with
  | OpSend o m => never_fails o ∧ message_wf m
  | OpReceive o _ => never_fails o
  end.

Lemma channel_step_refines op q p :
  op_ok op → holds q p →
  ∃ p', channel_step op p = (p', (queue_step (capacity p) op q).2) ∧ capacity p' = capacity p
    ∧ ((queue_step (capacity p) op q).2 = Blocked ∨ holds (queue_step (capacity p) op q).1 p').
Proof.
  intros Hop Hq. destruct op as [o m|o ms]; cbn in Hop.
  - destruct Hop as [Ho Hm]. destruct (send_refines o m q p Ho Hm Hq) as (p' & Hc & E).
    exists p'. cbn. case_decide; [destruct E as [-> E]|rewrite E]; eauto.
  - destruct q as [|m q].
    + exists p. split_and!; [|done|by right]. destruct Hq as (Hr & Hw & _ & Hb). cbn.
      unfold receive, poll, writers. rewrite Hr, Hw, Hb. cbn. by destruct (to_int ms <? 0).
    + destruct (receive_refines o ms m q p Hop Hq) as (p' & E & Hc & Hp').
      exists p'. cbn. rewrite E. eauto.
Qed.

(** [C15] The pipe channel is a bounded queue of messages.  On a channel whose
    two ends are open in this process, and as long as no system call fails, any
    sequence of sends of well-formed messages and receives, however the operating
    system splits the writes and reads, gives the results of the same sequence on
    a first-in first-out queue with the capacity of the pipe.  A send whose
    message does not fit waits for room.  A receive returns the oldest message
    not yet received; when there is none it times out, or waits without limit if
    the timeout cast to int is negative.  No loop runs forever: the only way not
    to return is to wait in a system call. *)
Theorem channel_refines_queue ops : ∀ q p,
  Forall op_ok ops → holds q p →
  ∃ p', run_ops channel_step ops p = (p', (run_ops (queue_step (capacity p)) ops q).2)
    ∧ (Blocked ∈ (run_ops (queue_step (capacity p)) ops q).2
       ∨ holds (run_ops (queue_step (capacity p)) ops q).1 p').
Proof.
  induction ops as [|op ops IH]; intros q p Hops Hq; [exists p; auto|].
  apply Forall_cons in Hops as [Hop Hops]. cbn [run_ops].
  destruct (channel_step_refines op q p Hop Hq) as (p1 & -> & Hc & H1).
  destruct (queue_step (capacity p) op q) as [q1 r]. cbn in H1.
  destruct H1 as [->|H1]; [exists p1; split; [done|left; by left]|].
  destruct (IH q1 p1 Hops H1) as (p2 & E & H2). rewrite Hc in E, H2. rewrite E.
  destruct (run_ops (queue_step (capacity p)) ops q1) as [q2 rs]. cbn in H2.
  assert (Blocked ∈ r :: rs ∨ holds q2 p2) by (destruct H2; [left; by right|by right]).
  destruct r; [by exists p2..|exists p1|by exists p2].
  split; [done|left; by left].
Qed.

(** A pipe with room for one message of the example and a few bytes more. *)
Definition ex_pipe : PipeChannel := (create (Some 32%nat) (mkPipe false false false 0 0 [])).1.

(** Three bytes at a time. *)
Definition ex_os : os := λ _, Moves 3.

Lemma channel_refines_queue_witness :
  let ops := [OpReceive ex_os 100; OpSend ex_os ex_message; OpReceive ex_os 100;
              OpSend ex_os ex_message; OpSend ex_os ex_message; OpReceive ex_os 100] in
  ∃ p, run_ops channel_step ops ex_pipe
    = (p, [Failed Timeout; Done None; Done (Some ex_message); Done None; Blocked]).
Proof.
  intros ops. assert (never_fails ex_os) as Ho by (intros i; by exists 3%nat).
  destruct (channel_refines_queue ops [] ex_pipe) as (p & E & _).
  - do 6 (apply List.Forall_cons; [solve [exact Ho | exact (conj Ho ex_message_wf)]|]). apply List.Forall_nil.
  - split; [done|]. split; [done|]. split; [apply List.Forall_nil|done].
  - exists p. exact E.
Defined.

(** A timeout of 2^31 milliseconds, about 25 days, is negative as an int: the
    receive on an empty channel waits without limit. *)
Example long_timeout_waits : (receive ex_os false (2 ^ 31) ex_pipe).2 = Blocked.
Proof. by vm_compute. Qed.

(** A write that fails half-way leaves the start of the message behind, and the
    next message is not recognised. *)
Lemma failed_send_desynchronises :
  let cut : os := λ i, match i with O => Moves 3 | _ => Fails end in
  let '(p, r) := send cut ex_message ex_pipe in
  r = Failed PipeError
  ∧ (receive ex_os false 100 (send ex_os ex_message p).1).2 = Failed InvalidMessage.
Proof. by vm_compute. Qed.

(** A header alone makes the receiver wait for its payload without a timeout. *)
Lemma receive_waits_for_payload :
  (receive ex_os false 100 (ex_pipe <| buffer := header_serialize (header ex_message) |>)).2 = Blocked.
Proof. by vm_compute. Qed.

(** ** The handshake *)

(** The parent learns what the child answered.  [child] leaves an
    acknowledgement with the payload in the pipe the parent reads. *)
Lemma handshake_answer `{JsonCodec J F} own_pid o1 o2 ms child c seq p s1 s2 :
  never_fails o1 → never_fails o2 → writeFd (parentToChild c) = true →
  let request := HandshakePayload_toJson
    (mkHandshake "1.0" "" ["execute"; "progress"; "cancel"]%string own_pid) in
  j_dump request = Ok s1 →
  (HEADER_SIZE + String.length s1 ≤ room (parentToChild c))%nat →
  (∀ c', childToParent c' = childToParent c → childToParent (child c') =
     (childToParent c) <| buffer := message_serialize (message_create HandshakeAck (bytes_of_string s2) seq) |>) →
  readFd (childToParent c) = true → s2 ≠ ""%string → j_parse s2 = Some (HandshakePayload_toJson p) →
  is_u32 seq → is_u32 (Z.of_nat (String.length s2)) → 0 ≤ pid p < UINT32_MOD →
  ∃ c', performHandshake own_pid o1 o2 false ms child c = Ok (c', Done p).
Proof.
  intros Ho1 Ho2 Hw request Hd Hroom Hchild Hr Hne Hparse Hseq Hlen Hpid.
  unfold performHandshake, message_create_json, serializer_serialize. cbn [bi_next].
  fold request. rewrite Hd. cbn [rbind]. unfold bi_send, send. cbn [parentToChild upd].
  change (writeFd (parentToChild (c <| bi_sequence ::= λ n, to_u32 (n + 1) |>))) with (writeFd (parentToChild c)).
  change (room (parentToChild (c <| bi_sequence ::= λ n, to_u32 (n + 1) |>))) with (room (parentToChild c)).
  rewrite Hw, write_loop_spec by done. cbn [negb]. rewrite decide_True.
  2:{ unfold message_serialize. rewrite length_app, length_header_serialize.
      cbn [payload message_create]. by rewrite length_bytes_of_string. }
  cbn [negb]. unfold bi_receive.
  set (m := message_create HandshakeAck (bytes_of_string s2) seq) in *.
  assert (message_wf m) as Hm.
  { apply message_create_wf; [done|done|apply bytes_of_string_u8|by rewrite length_bytes_of_string]. }
  rewrite Hchild by done.
  rewrite (receive_front o2 ms m [] _ Ho2 Hm) by (done || by rewrite app_nil_r).
  eexists. f_equal. f_equal. cbn [type header m message_create]. rewrite Z.eqb_refl. cbn [negb].
  assert (getPayloadAsJson m = Ok (HandshakePayload_toJson p)) as ->.
  { unfold getPayloadAsJson. cbn [payload m message_create].
    assert (serializer_deserialize (bytes_of_string s2) = Ok (HandshakePayload_toJson p)) as E.
    { unfold serializer_deserialize. by rewrite string_bytes_roundtrip, Hparse. }
    by destruct s2. }
  by rewrite HandshakePayload_roundtrip.
Qed.
