(* ===== verification/ShellTools.v ===== *)
(** * ShellTools: retries, versions and hooks of shell scripts

    Models src/src/script/shell: RetryExecutor (retry.hpp, retry.cpp) in Module
    [Retry], VersionManager (versioning.hpp, versioning.cpp) in Module
    [Versions], HookManager (hooks.hpp, hooks.cpp) in Module [Hooks].  The
    operation of a retry, the custom callback and the hooks are parameters.
    Locks are left out; sleeping is the list of delays slept. *)

From S2P Require Import Prelude.
From Stdlib Require Import SpecFloat.

Local Open Scope Z_scope.

Record ScriptExecutionResult := mkExec {
  success : bool;
  exitCode : Z;
  output : string;
  errorOutput : string
}.

Module Retry.

Inductive RetryStrategy := RNone | Linear | Exponential | Custom.

#[export] Instance RetryStrategy_eq_dec : EqDecision RetryStrategy.
Proof. solve_decision. Defined.

Record RetryConfig := mkConfig {
  strategy : RetryStrategy;
  maxRetries : Z;
  initialDelay : Z;                              (* milliseconds *)
  maxDelay : Z;
  multiplier : spec_float;                       (* a float *)
  shouldRetry : option (Z → ScriptExecutionResult → bool)
}.

Record RetryAttemptInfo := mkAttempt {
  attemptNumber : Z;
  totalAttempts : Z;
  delayMs : Z;
  lastResult : ScriptExecutionResult
}.

(** ** Floats *)

(** A number as a float, nearest and ties to even, and a double made one. *)
Definition float_of_Z (z : Z) : spec_float := binary_normalize 24 128 z 0 false.
Definition float_of_double (x : spec_float) : spec_float :=
  match x with
  | S754_finite s m e => binary_normalize 24 128 (cond_Zopp s (Zpos m)) e s
  | x => x
  end.
(** [static_cast<long long>]: rounded to zero.  A value that does not fit is undefined
    behaviour; this is what the instruction of x86-64 gives then. *)
Definition long_long_of_float (x : spec_float) : Z :=
  let fit z := if (-9223372036854775808 <=? z) && (z <? 9223372036854775808) then z else -9223372036854775808 in
  match x with
  | S754_zero _ => 0
  | S754_finite s m e => fit (cond_Zopp s (if 0 <=? e then Zpos m * 2 ^ e else Zpos m / 2 ^ (- e)))
  | S754_infinity _ | S754_nan => -9223372036854775808
  end.

Section retry.
(** [std::pow] of the C++ library, for a float made a double and an int: the standard
    does not say how it rounds. *)
Context (pow : spec_float → Z → spec_float).
Variable config : RetryConfig.

(** [std::pow(multiplier, n)] is a double, and so is the product. *)
Definition exponential_delay (n : Z) : Z :=
  long_long_of_float (float_of_double (SFmul 53 1024 (float_of_Z (initialDelay config)) (pow (multiplier config) n))).

Definition calculateDelay (attempt : Z) : Z :=
  if attempt <? 0 then 0 else
  let delay := match strategy config with
               | Linear => to_int64 (initialDelay config * (attempt + 1))
               | Exponential => exponential_delay attempt
               | Custom | RNone => initialDelay config
               end in
  if maxDelay config <? delay then maxDelay config else delay.

Definition shouldRetryOperation (attempt : Z) (r : ScriptExecutionResult) : bool :=
  if success r then false
  else if maxRetries config <=? attempt then false
  else match shouldRetry config with
       | Some f => f attempt r
       | None => true
       end.

(** The state of the loop: the attempt, the calls made, the last result, the
    delays slept ([sleep] ignores those that are not positive) and the record. *)
Record loop_state := mkLoop {
  attempt : Z;
  calls : nat;
  result : ScriptExecutionResult;
  slept : list Z;
  info : option RetryAttemptInfo
}.

(** [op k] is the result of the [k]-th call of the operation. *)
Fixpoint retry_loop (op : nat → ScriptExecutionResult) (fuel : nat) (s : loop_state) : loop_state :=
  match fuel with
  | O => s
  | S fuel =>
      if negb (attempt s <? maxRetries config) then s else
      if negb (shouldRetryOperation (attempt s) (result s)) then s else
      let n := attempt s + 1 in
      let delay := calculateDelay n in
      retry_loop op fuel
        (mkLoop n (S (calls s)) (op (calls s))
           (slept s ++ if delay <=? 0 then [] else [delay])
           (Some (mkAttempt n (maxRetries config) delay (result s))))
  end.

(** An empty std::function, [None], is refused.  [info0] is the record left by an
    earlier execution. *)
Definition executeWithRetry (operation : option (nat → ScriptExecutionResult)) (info0 : option RetryAttemptInfo) : loop_state :=
  match operation with
  | None => mkLoop 0 0 (mkExec false (-1) "" "Operation is null") [] info0
  | Some op =>
      let s := mkLoop 0 1 (op 0%nat) [] info0 in
      if bool_decide (strategy config = RNone) || (maxRetries config <=? 0) then s
      else retry_loop op (Z.to_nat (maxRetries config)) s
  end.

(** ** Properties *)

(** What the loop has done: every earlier result was one to retry. *)
Definition loop_inv (op : nat → ScriptExecutionResult) (s : loop_state) : Prop :=
  calls s = S (Z.to_nat (attempt s)) ∧ 0 ≤ attempt s ≤ maxRetries config ∧ result s = op (Z.to_nat (attempt s))
  ∧ (∀ k, 0 ≤ k < attempt s → shouldRetryOperation k (op (Z.to_nat k)) = true)
  ∧ slept s = filter (λ d, 0 < d) (map (λ i, calculateDelay (Z.of_nat i)) (seq 1 (Z.to_nat (attempt s))))
  ∧ (0 < attempt s → info s = Some (mkAttempt (attempt s) (maxRetries config)
       (calculateDelay (attempt s)) (op (Z.to_nat (attempt s - 1))))).

Lemma retry_loop_spec op fuel : ∀ s,
  loop_inv op s → maxRetries config - attempt s ≤ Z.of_nat fuel →
  let s' := retry_loop op fuel s in
  loop_inv op s' ∧ attempt s ≤ attempt s' ∧ shouldRetryOperation (attempt s') (result s') = false
  ∧ (attempt s' = attempt s → info s' = info s).
Proof.
  induction fuel as [|fuel IH]; intros s Hs Hf; pose proof Hs as (Hc & Ha & Hr & Hk & Hsl & Hi).
  - cbn. split; [done|]. split; [lia|]. split; [|done]. unfold shouldRetryOperation.
    destruct (success (result s)); [done|]. by rewrite (proj2 (Z.leb_le _ _)) by lia.
  - cbn [retry_loop]. destruct (Z.ltb_spec (attempt s) (maxRetries config)) as [Hlt|Hge]; cbn [negb].
    2:{ split; [done|]. split; [lia|]. split; [|done]. unfold shouldRetryOperation.
        destruct (success (result s)); [done|]. by rewrite (proj2 (Z.leb_le _ _)) by lia. }
    destruct (shouldRetryOperation (attempt s) (result s)) eqn:Es; cbn [negb].
    2:{ split; [done|]. split; [lia|]. by split. }
    match goal with |- context [retry_loop op fuel ?x] => set (s1 := x) end.
    assert (loop_inv op s1) as H1.
    { unfold s1, loop_inv. cbn [calls attempt result slept info].
      replace (Z.to_nat (attempt s + 1)) with (S (Z.to_nat (attempt s))) by lia.
      split; [lia|]. split; [lia|]. split; [by rewrite Hc|]. split; [|split].
      - intros k Hk'. destruct (decide (k = attempt s)) as [->|]; [by rewrite <- Hr|apply Hk; lia].
      - rewrite seq_S, map_app, filter_app, <- Hsl. f_equal. cbn [map].
        replace (Z.of_nat (1 + Z.to_nat (attempt s))) with (attempt s + 1) by lia.
        destruct (Z.leb_spec (calculateDelay (attempt s + 1)) 0).
        + by rewrite filter_cons_False by lia.
        + by rewrite filter_cons_True by lia.
      - intros _. by rewrite Z.add_simpl_r, Hr. }
    destruct (IH s1 H1) as (H2 & H3 & H4 & H5); [cbn; lia|]. cbn in H3.
    split; [done|]. split; [lia|]. split; [done|]. intros E. lia.
Qed.

(** [C19] [executeWithRetry] ends after at most [maxRetries] retries.  The
    operation is called once and once more for each retry; every result but the
    last asked for a retry and the last does not, because it succeeded, the
    retries are used up or the callback declines; the result is that of the last
    call, the delays slept are those of the attempts, and the record is that of
    the last retry.  Without a strategy there is exactly one call; a null operation is
    not called and fails. *)
Theorem executeWithRetry_correct (operation : option (nat → ScriptExecutionResult)) (info0 : option RetryAttemptInfo) :
  let s := executeWithRetry operation info0 in
  let n := attempt s in
  match operation with
  | None => calls s = 0%nat ∧ success (result s) = false ∧ exitCode (result s) = -1 ∧ slept s = [] ∧ info s = info0
  | Some op =>
  if bool_decide (strategy config = RNone) || (maxRetries config <=? 0) then
    calls s = 1%nat ∧ result s = op 0%nat ∧ slept s = [] ∧ info s = info0
  else
    0 ≤ n ≤ maxRetries config ∧ calls s = S (Z.to_nat n) ∧ result s = op (Z.to_nat n)
    ∧ (∀ k, 0 ≤ k < n → shouldRetryOperation k (op (Z.to_nat k)) = true)
    ∧ shouldRetryOperation n (result s) = false
    ∧ slept s = filter (λ d, 0 < d) (map (λ i, calculateDelay (Z.of_nat i)) (seq 1 (Z.to_nat n)))
    ∧ info s = (if n =? 0 then info0
                else Some (mkAttempt n (maxRetries config) (calculateDelay n) (op (Z.to_nat (n - 1)))))
  end.
Proof.
  cbv zeta. unfold executeWithRetry. destruct operation as [op|]; [|done]. destruct (_ || _) eqn:E; [done|].
  apply orb_false_iff in E as [_ E%Z.leb_gt].
  destruct (retry_loop_spec op (Z.to_nat (maxRetries config)) (mkLoop 0 1 (op 0%nat) [] info0))
    as ((Hc & Ha & Hr & Hk & Hsl & Hi) & _ & Hend & Hinfo).
  - unfold loop_inv. cbn. split_and!; try done; lia.
  - cbn. lia.
  - cbn in Hinfo. set (s := retry_loop _ _ _) in *. clearbody s.
    split_and!; try done; try lia. destruct (Z.eqb_spec (attempt s) 0) as [E0|E0].
    + by apply Hinfo.
    + apply Hi. lia.
Qed.

(** No delay exceeds the maximum. *)
Lemma calculateDelay_capped n : 0 ≤ maxDelay config → calculateDelay n ≤ maxDelay config.
Proof.
  intros Hm. unfold calculateDelay. destruct (n <? 0); [done|].
  match goal with |- context [maxDelay config <? ?d] => destruct (Z.ltb_spec (maxDelay config) d) end; lia.
Qed.
End retry.

(** The first retry waits twice the initial delay, not the constant delay that
    the comment on the strategy announces. *)
Lemma linear_first_delay pow :
  let config := mkConfig Linear 3 100 30000 (float_of_Z 2) None in
  slept (executeWithRetry pow config (Some (λ _, mkExec false 1 "" "")) None) = [200; 300; 400].
Proof. by vm_compute. Qed.
(** Exponential delays with the default multiplier, for a [pow] that is exact. *)
Definition exact_pow (x : spec_float) (n : Z) : spec_float :=
  Nat.iter (Z.to_nat n) (SFmul 53 1024 x) (binary_normalize 53 1024 1 0 false).
Example exponential_delays :
  let config := mkConfig Exponential 4 100 1000 (float_of_Z 2) None in
  slept (executeWithRetry exact_pow config (Some (λ _, mkExec false 1 "" "")) None) = [200; 400; 800; 1000].
Proof. by vm_compute. Qed.
(** A delay beyond 64 bits is none. *)
Example delay_overflows :
  let config := mkConfig Exponential 100 100 30000 (float_of_Z 2) None in
  calculateDelay exact_pow config 50 = 30000 ∧ calculateDelay exact_pow config 60 = -9223372036854775808.
Proof. by vm_compute. Qed.
End Retry.

Module Versions.

Record ScriptVersion := mkVersion {
  versionNumber : Z;
  content : string;
  timestamp : Z;
  author : string;
  changeDescription : string
}.

Record VersionManager := mkManager {
  versionStorage : gmap string (list ScriptVersion);
  maxVersions : nat
}.

#[export] Instance VersionManager_eta : Eta VersionManager := λ m,
  mkManager (versionStorage m) (maxVersions m).

Definition VersionManager_new (max : nat) : VersionManager := mkManager ∅ max.

(** The newest [max] versions. *)
Definition prune (max : nat) (vs : list ScriptVersion) : list ScriptVersion :=
  if (max <? length vs)%nat then drop (length vs - max) vs else vs.

Definition pruneOldVersions (name : string) (m : VersionManager) : VersionManager :=
  match versionStorage m !! name with
  | None => m
  | Some vs => m <| versionStorage ::= <[name := prune (maxVersions m) vs]> |>
  end.

Definition getNextVersionNumber (name : string) (m : VersionManager) : Z :=
  match versionStorage m !! name with
  | None => 1
  | Some vs =>
      match last vs with
      | None => 1
      | Some v => to_size (versionNumber v + 1)
      end
  end.

Definition saveVersion (name text who what : string) (now : Z) (m : VersionManager) : VersionManager * Z :=
  let n := getNextVersionNumber name m in
  let v := mkVersion n text now who what in
  let m := m <| versionStorage ::= (λ st, <[name := default [] (st !! name) ++ [v]]> st) |> in
  (pruneOldVersions name m, n).

Definition getVersion (name : string) (n : Z) (m : VersionManager) : option ScriptVersion :=
  match versionStorage m !! name with
  | None => None
  | Some vs => snd <$> list_find (λ v, versionNumber v = n) vs
  end.

Definition getLatestVersion (name : string) (m : VersionManager) : option ScriptVersion :=
  vs ← versionStorage m !! name; last vs.

Definition rollback (name : string) (n : Z) (m : VersionManager) : option string :=
  match versionStorage m !! name with
  | None => None
  | Some vs => content ∘ snd <$> list_find (λ v, versionNumber v = n) vs
  end.

Definition getVersionHistory (name : string) (m : VersionManager) : list ScriptVersion :=
  default [] (versionStorage m !! name).

Definition getVersionCount (name : string) (m : VersionManager) : nat := length (getVersionHistory name m).

Definition setMaxVersions (max : nat) (m : VersionManager) : VersionManager :=
  mkManager (prune max <$> versionStorage m) max.

Definition clearVersionHistory (name : string) (m : VersionManager) : VersionManager :=
  m <| versionStorage ::= delete name |>.

Definition clearAllVersionHistory (m : VersionManager) : VersionManager := m <| versionStorage := ∅ |>.

Definition hasVersions (name : string) (m : VersionManager) : bool :=
  match versionStorage m !! name with
  | Some (_ :: _) => true
  | _ => false
  end.

Definition getAllVersionedScripts `{!HashIter string} (m : VersionManager) : list string :=
  iter_keys (versionStorage m).

(** ** Properties *)

(** What a client asks that changes the manager. *)
Inductive op :=
| OSave (name text who what : string) (now : Z)
| OSetMax (max : nat)
| OClear (name : string)
| OClearAll.

Definition run_op (m : VersionManager) (o : op) : VersionManager :=
  match o with
  | OSave name text who what now => (saveVersion name text who what now m).1
  | OSetMax max => setMaxVersions max m
  | OClear name => clearVersionHistory name m
  | OClearAll => clearAllVersionHistory m
  end.

(** The specification: per script everything saved since it was cleared, each
    version under its place in the log, and how many of the newest are kept. *)
Definition spec : Type := gmap string (list ScriptVersion * nat) * nat.

Definition spec_op (s : spec) (o : op) : spec :=
  match o with
  | OSave name text who what now =>
      let '(l, k) := default ([], O) (s.1 !! name) in
      let v := mkVersion (Z.of_nat (length l) + 1) text now who what in
      (<[name := (l ++ [v], Nat.min s.2 (S k))]> s.1, s.2)
  | OSetMax max => ((λ p : list ScriptVersion * nat, (p.1, Nat.min max p.2)) <$> s.1, max)
  | OClear name => (delete name s.1, s.2)
  | OClearAll => (∅, s.2)
  end.

(** The versions of a log carry their places. *)
Definition numbered (l : list ScriptVersion) : Prop :=
  ∀ i v, l !! i = Some v → versionNumber v = Z.of_nat i + 1.

Definition tracks (n : nat) (m : VersionManager) (s : spec) : Prop :=
  maxVersions m = s.2 ∧ (1 ≤ s.2)%nat
  ∧ ∀ name, match s.1 !! name with
            | None => versionStorage m !! name = None
            | Some (l, k) =>
                versionStorage m !! name = Some (drop (length l - k) l) ∧ numbered l
                ∧ (1 ≤ k ≤ length l)%nat ∧ (k ≤ s.2)%nat ∧ (length l ≤ n)%nat
            end.

Lemma last_drop k (l : list ScriptVersion) : (k < length l)%nat → last (drop k l) = last l.
Proof.
  intros Hk. rewrite !last_lookup, lookup_drop, length_drop. f_equal. lia.
Qed.

Lemma prune_drop max k (l : list ScriptVersion) :
  (k ≤ length l)%nat → prune max (drop (length l - k) l) = drop (length l - Nat.min max k) l.
Proof.
  intros Hk. unfold prune. rewrite length_drop.
  destruct (Nat.ltb_spec max (length l - (length l - k))).
  - rewrite drop_drop. f_equal. lia.
  - f_equal. lia.
Qed.

Lemma numbered_snoc l v : numbered l → versionNumber v = Z.of_nat (length l) + 1 → numbered (l ++ [v]).
Proof.
  intros Hl Hv i x [Hx|[Hi Hx]]%lookup_app_Some; [by apply Hl|].
  apply list_lookup_singleton_Some in Hx as [E <-]. rewrite Hv. lia.
Qed.

Lemma next_number name n m s :
  tracks n m s → Z.of_nat n < SIZE_MOD - 1 →
  getNextVersionNumber name m = Z.of_nat (length (default ([], O) (s.1 !! name)).1) + 1.
Proof.
  intros (_ & _ & Ht) Hn. specialize (Ht name). unfold getNextVersionNumber.
  destruct (s.1 !! name) as [[l k]|]; [|by rewrite Ht]. destruct Ht as (-> & Hl & Hk & _ & Hle). cbn.
  rewrite last_drop by lia. rewrite last_lookup.
  destruct (l !! pred (length l)) as [v|] eqn:E; [|apply lookup_ge_None in E; lia].
  rewrite (Hl _ _ E), to_size_id by lia. lia.
Qed.

Lemma saveVersion_state name text who what now m :
  let m' := (saveVersion name text who what now m).1 in
  maxVersions m' = maxVersions m
  ∧ versionStorage m' = <[name := prune (maxVersions m) (default [] (versionStorage m !! name) ++
      [mkVersion (getNextVersionNumber name m) text now who what])]> (versionStorage m).
Proof.
  unfold saveVersion. cbn. unfold pruneOldVersions. cbn. rewrite lookup_insert_eq. cbn.
  by rewrite insert_insert_eq.
Qed.

Lemma run_op_tracks n m s o :
  tracks n m s → Z.of_nat n < SIZE_MOD - 1 → (∀ max, o = OSetMax max → (1 ≤ max)%nat) →
  tracks (S n) (run_op m o) (spec_op s o).
Proof.
  intros Ht Hn Ho. pose proof Ht as (Hmax & Hpos & Hst). destruct o as [name text who what now|max|name|].
  - pose proof (next_number name n m s Ht Hn) as Hnext. unfold run_op, spec_op.
    specialize (Hst name) as Hname.
    destruct (saveVersion_state name text who what now m) as [Em Est].
    assert (∀ name', name' ≠ name → ∀ x, match (<[name := x]> s.1 : gmap _ _) !! name' with
      | None => versionStorage (saveVersion name text who what now m).1 !! name' = None
      | Some (l, k) => versionStorage (saveVersion name text who what now m).1 !! name' = Some (drop (length l - k) l)
          ∧ numbered l ∧ (1 ≤ k ≤ length l)%nat ∧ (k ≤ s.2)%nat ∧ (length l ≤ S n)%nat
      end) as Hother.
    { intros name' Hne x. rewrite Est, !lookup_insert_ne by done. specialize (Hst name').
      destruct (s.1 !! name') as [[l' k']|]; [|done]. destruct Hst as (? & ? & ? & ? & ?). split_and!; auto; lia. }
    rewrite Hnext in Est. clear Hnext.
    destruct (s.1 !! name) as [[l k]|] eqn:Es; cbn [default fst snd from_option id] in *;
      set (v := mkVersion _ text now who what) in *;
      (split; [by rewrite Em|split; [done|]]); intros name';
      (destruct (decide (name' = name)) as [->|Hne]; [|by apply Hother]); cbn [fst snd]; rewrite Est, !lookup_insert_eq, Hmax.
    + destruct Hname as (Hvs & Hl & Hk & Hk2 & Hle). rewrite Hvs. cbn [default from_option id].
      replace (drop (length l - k) l ++ [v]) with (drop (length (l ++ [v]) - S k) (l ++ [v]))
        by (rewrite length_app; cbn; rewrite drop_app_le by lia; f_equal; f_equal; lia).
            rewrite prune_drop by (rewrite length_app; cbn; lia).
      split; [done|]. rewrite length_app. cbn. split; [by apply numbered_snoc|]. lia.
    + rewrite Hname. cbn [default from_option id app].
      change [v] with (drop (length [v] - 1) [v]) at 1. rewrite prune_drop by done.
      split; [done|]. split; [by apply (numbered_snoc [])|]. cbn. lia.
  - specialize (Ho max eq_refl). unfold tracks. cbn. split; [done|]. split; [done|]. intros name.
    rewrite !lookup_fmap. specialize (Hst name). destruct (s.1 !! name) as [[l k]|]; cbn; [|by rewrite Hst].
    destruct Hst as (-> & Hl & Hk & _ & Hle). cbn. rewrite prune_drop by lia. split; [done|]. split; [done|]. lia.
  - unfold tracks. cbn. split; [done|]. split; [done|]. intros name'. destruct (decide (name' = name)) as [->|].
    + by rewrite !lookup_delete_eq.
    + rewrite !lookup_delete_ne by done. specialize (Hst name').
      destruct (s.1 !! name') as [[l k]|]; [|done]. destruct Hst as (? & ? & ? & ? & ?). split_and!; auto; lia.
  - unfold tracks. cbn. split; [done|]. split; [done|]. intros name'. by rewrite !lookup_empty.
Qed.

(** Looking a number up in the kept part of a log. *)
Lemma find_number l k n :
  numbered l →
  snd <$> list_find (λ v, versionNumber v = n) (drop k l)
  = if decide (Z.of_nat k < n ≤ Z.of_nat (length l)) then l !! Z.to_nat (n - 1) else None.
Proof.
  intros Hl. destruct (decide _) as [Hn|Hn].
  - destruct (lookup_lt_is_Some_2 l (Z.to_nat (n - 1))) as [v Hv]; [lia|]. rewrite Hv.
    assert (list_find (λ v, versionNumber v = n) (drop k l) = Some (Z.to_nat (n - 1) - k, v)%nat) as ->; [|done].
    apply list_find_Some. rewrite lookup_drop. replace (k + (Z.to_nat (n - 1) - k))%nat with (Z.to_nat (n - 1)) by lia.
    split; [done|]. split; [rewrite (Hl _ _ Hv); lia|].
    intros j y. rewrite lookup_drop. intros Hy%Hl Hj. lia.
  - assert (list_find (λ v, versionNumber v = n) (drop k l) = None) as ->; [|done].
    apply list_find_None, Forall_forall. intros v [i Hi]%list_elem_of_lookup. rewrite lookup_drop in Hi.
    pose proof (lookup_lt_Some _ _ _ Hi). rewrite (Hl _ _ Hi). lia.
Qed.

(** The versions of a script are the newest part of the log of everything
    saved since it was cleared.  After any saves, clearings and changes of the
    maximum, as long as that is at least one: a version keeps its number, its
    place in the log; the next save gets the number after the last; history and
    latest version are the kept part and the end of the log; [getVersion] and
    [rollback] find exactly the kept numbers. *)
Theorem versions_refine_log ops max :
  (1 ≤ max)%nat → (∀ n, OSetMax n ∈ ops → (1 ≤ n)%nat) → Z.of_nat (length ops) < SIZE_MOD - 1 →
  let m := fold_left run_op ops (VersionManager_new max) in
  let s := fold_left spec_op ops (∅, max) in
  ∀ name, let '(l, k) := default ([], O) (s.1 !! name) in
    let oldest := (length l - k)%nat in
    (k ≤ Nat.min (maxVersions m) (length l))%nat ∧ (l ≠ [] → k ≠ O)
    ∧ getNextVersionNumber name m = Z.of_nat (length l) + 1
    ∧ getVersionHistory name m = drop oldest l ∧ getLatestVersion name m = last l
    ∧ ∀ n, let v := if decide (Z.of_nat oldest < n ≤ Z.of_nat (length l)) then l !! Z.to_nat (n - 1) else None in
        getVersion name n m = v ∧ rollback name n m = content <$> v.
Proof.
  intros Hmax Hops Hlen m s name.
  assert (tracks (length ops) m s) as Ht.
  { unfold m, s. clear m s name. revert Hops Hlen. induction ops as [|o ops IH] using rev_ind; intros Hops Hlen.
    - split; [done|]. split; [done|]. intros name. cbn. by rewrite !lookup_empty.
    - rewrite !fold_left_app, length_app. rewrite length_app in Hlen. cbn in Hlen |- *. rewrite Nat.add_1_r.
      apply run_op_tracks; [apply IH|lia|].
      + intros n Hn. apply Hops. set_solver.
      + lia.
      + intros n ->. apply Hops. set_solver. }
  pose proof (next_number name _ m s Ht Hlen) as Hnext. destruct Ht as (Hm & Hp & Hst). specialize (Hst name).
  unfold getVersionHistory, getLatestVersion, getVersion, rollback. destruct (s.1 !! name) as [[l k]|]; cbn in *.
  - destruct Hst as (-> & Hl & Hk & Hk2 & _). rewrite Hm. cbn. split; [lia|]. split; [lia|]. split; [done|].
    split; [done|]. split; [apply last_drop; lia|]. intros n. rewrite <- find_number by done.
    split; [done|]. by destruct (list_find _ _) as [[]|].
  - rewrite Hst. split; [lia|]. split; [done|]. split; [done|]. split; [done|]. split; [done|]. intros n.
    by destruct (decide _).
Qed.

Lemma versions_refine_log_witness :
  let ops := [OSave "s" "a" "" "" 1; OSave "s" "b" "" "" 2; OSave "s" "c" "" "" 3; OSetMax 2]%string in
  let m := fold_left run_op ops (VersionManager_new 10) in
  getNextVersionNumber "s" m = 4 ∧ rollback "s" 2 m = Some "b"%string ∧ rollback "s" 1 m = None.
Proof.
  intros ops m.
  assert (∀ n, OSetMax n ∈ ops → (1 ≤ n)%nat) as Hops.
  { intros n Hn. unfold ops in Hn. rewrite !elem_of_cons, elem_of_nil in Hn. intuition; simplify_eq; lia. }
  assert (1 ≤ 10)%nat as Hmax by lia.
  assert (Z.of_nat (length ops) < SIZE_MOD - 1) as Hlen by done.
  pose proof (versions_refine_log ops 10 Hmax Hops Hlen "s"%string) as (_ & _ & Hn & _ & _ & Hv).
  split; [exact Hn|]. split; [exact (proj2 (Hv 2))|exact (proj2 (Hv 1))].
Defined.

(** With a maximum of zero nothing is kept and every version is number one. *)
Lemma zero_max_reuses_numbers :
  let '(m, n) := saveVersion "s" "a" "" "" 1 (VersionManager_new 0) in
  let '(m, n') := saveVersion "s" "b" "" "" 2 m in n = 1 ∧ n' = 1 ∧ getVersion "s" 1 m = None.
Proof. done. Qed.
End Versions.

Module Hooks.

(** How a hook ends; it runs with the lock held and does not touch the manager. *)
Inductive hook_end := Finishes | Throws (what : string) | ThrowsUnknown.

Record HookResult := mkHookResult {
  hook_success : bool;
  hookId : string;
  scriptId : string;
  hookType : string;
  errorMessage : string;
  executionTime : Z;
  hook_timestamp : Z
}.

Record HookManager := mkHooks {
  preHooks : gmap string (string → hook_end);
  postHooks : gmap string (string → Z → hook_end);
  executionHistory : list HookResult;
  enabled : bool
}.

#[export] Instance HookManager_eta : Eta HookManager := λ m,
  mkHooks (preHooks m) (postHooks m) (executionHistory m) (enabled m).

Definition HookManager_new : HookManager := mkHooks ∅ ∅ [] true.

Definition MAX_HISTORY_SIZE : nat := N.to_nat 10000.

Definition addPreHook (i : string) (h : string → hook_end) (m : HookManager) : result exn (HookManager * bool) :=
  if str_empty i then Throw InvalidArgument else
  match preHooks m !! i with
  | Some _ => Ok (m, false)
  | None => Ok (m <| preHooks ::= <[i := h]> |>, true)
  end.

Definition addPostHook (i : string) (h : string → Z → hook_end) (m : HookManager) : result exn (HookManager * bool) :=
  if str_empty i then Throw InvalidArgument else
  match postHooks m !! i with
  | Some _ => Ok (m, false)
  | None => Ok (m <| postHooks ::= <[i := h]> |>, true)
  end.

Definition removePreHook (i : string) (m : HookManager) : HookManager * bool :=
  match preHooks m !! i with
  | Some _ => (m <| preHooks ::= delete i |>, true)
  | None => (m, false)
  end.

Definition removePostHook (i : string) (m : HookManager) : HookManager * bool :=
  match postHooks m !! i with
  | Some _ => (m <| postHooks ::= delete i |>, true)
  | None => (m, false)
  end.

Definition removeHook (i : string) (m : HookManager) : HookManager * bool :=
  let '(m, removed) := removePreHook i m in
  if removed then (m, true) else removePostHook i m.

Definition recordHookExecution (r : HookResult) (m : HookManager) : HookManager :=
  let h := executionHistory m ++ [r] in
  m <| executionHistory := if (MAX_HISTORY_SIZE <? length h)%nat then drop (length h - MAX_HISTORY_SIZE) h else h |>.

Section execution.
Context `{!HashIter string}.

(** The clocks of a run: how long each hook took and when it started. *)
Variable elapsed stamp : string → Z.

Definition hook_result (kind script i : string) (e : hook_end) : HookResult :=
  let '(ok, msg) := match e with
                    | Finishes => (true, "")
                    | Throws what => (false, what)
                    | ThrowsUnknown => (false, "Unknown error")
                    end%string in
  mkHookResult ok i script kind msg (elapsed i) (stamp i).

(** The loop over the hooks: all results, each recorded. *)
Fixpoint run_hooks (kind script : string) (hooks : list (string * hook_end)) (m : HookManager) :
    HookManager * list HookResult :=
  match hooks with
  | [] => (m, [])
  | (i, e) :: hooks =>
      let r := hook_result kind script i e in
      let '(m, rs) := run_hooks kind script hooks (recordHookExecution r m) in
      (m, r :: rs)
  end.

Definition executePreHooks (script : string) (m : HookManager) : HookManager * list HookResult :=
  if negb (enabled m) then (m, []) else
  run_hooks "pre" script (map (λ p, (p.1, p.2 script)) (iter_map (preHooks m))) m.

Definition executePostHooks (script : string) (code : Z) (m : HookManager) : HookManager * list HookResult :=
  if negb (enabled m) then (m, []) else
  run_hooks "post" script (map (λ p, (p.1, p.2 script code)) (iter_map (postHooks m))) m.
End execution.

Definition hasHook (i : string) (m : HookManager) : bool :=
  bool_decide (is_Some (preHooks m !! i)) || bool_decide (is_Some (postHooks m !! i)).

Definition clearAllHooks (m : HookManager) : HookManager := m <| preHooks := ∅ |> <| postHooks := ∅ |>.
Definition clearPreHooks (m : HookManager) : HookManager := m <| preHooks := ∅ |>.
Definition clearPostHooks (m : HookManager) : HookManager := m <| postHooks := ∅ |>.

Definition getExecutionHistory (maxEntries : nat) (m : HookManager) : list HookResult :=
  let h := executionHistory m in
  let startIdx := if (maxEntries =? 0)%nat then 0%nat
                  else if (maxEntries <? length h)%nat then (length h - maxEntries)%nat else 0%nat in
  reverse (drop startIdx h).

(** The loop over the reversed history. *)
Fixpoint script_loop (script : string) (maxEntries count : nat) (h : list HookResult) : list HookResult :=
  match h with
  | [] => []
  | r :: h =>
      if String.eqb (scriptId r) script then
        r :: (if (0 <? maxEntries)%nat && (maxEntries <=? S count)%nat then []
              else script_loop script maxEntries (S count) h)
      else script_loop script maxEntries count h
  end.

Definition getScriptHistory (script : string) (maxEntries : nat) (m : HookManager) : list HookResult :=
  script_loop script maxEntries 0 (reverse (executionHistory m)).

Definition clearHistory (m : HookManager) : HookManager := m <| executionHistory := [] |>.
Definition setEnabled (b : bool) (m : HookManager) : HookManager := m <| enabled := b |>.

(** ** Properties *)

(** The newest entries of a log. *)
Definition newest (log : list HookResult) : list HookResult := drop (length log - MAX_HISTORY_SIZE) log.

Lemma record_newest log r m :
  executionHistory m = newest log → executionHistory (recordHookExecution r m) = newest (log ++ [r]).
Proof.
  intros Hm. unfold recordHookExecution. cbn -[MAX_HISTORY_SIZE length Nat.ltb]. rewrite Hm. unfold newest. rewrite !length_app, !length_drop.
  generalize MAX_HISTORY_SIZE. intros M. cbn [length].
  destruct (Nat.ltb_spec M (length log - (length log - M) + 1)).
  - rewrite <- (drop_app_le log [r] (length log - M)) by lia. rewrite drop_drop. f_equal. lia.
  - rewrite <- (drop_app_le log [r] (length log - M)) by lia. f_equal. lia.
Qed.

Lemma run_hooks_correct elapsed stamp kind script hooks : ∀ m log,
  executionHistory m = newest log →
  let '(m', rs) := run_hooks elapsed stamp kind script hooks m in
  rs = map (λ p, hook_result elapsed stamp kind script p.1 p.2) hooks
  ∧ executionHistory m' = newest (log ++ rs)
  ∧ preHooks m' = preHooks m ∧ postHooks m' = postHooks m ∧ enabled m' = enabled m.
Proof.
  induction hooks as [|[i e] hooks IH]; intros m log Hm; cbn.
  - by rewrite app_nil_r.
  - specialize (IH (recordHookExecution (hook_result elapsed stamp kind script i e) m)
      (log ++ [hook_result elapsed stamp kind script i e]) (record_newest _ _ _ Hm)).
    destruct (run_hooks _ _ _ _ hooks _) as [m' rs]. destruct IH as (-> & Hh & ? & ? & ?).
    rewrite <- app_assoc in Hh. done.
Qed.

(** Running the hooks of a script: every registered hook is run once, whatever
    the others throw, a result fails exactly when its hook throws, and the
    history is the newest ten thousand results of all recorded. *)
Theorem executePreHooks_correct `{!HashIter string} elapsed stamp script m log :
  executionHistory m = newest log →
  let '(m', rs) := executePreHooks elapsed stamp script m in
  (if enabled m then
     rs ≡ₚ map (λ p, hook_result elapsed stamp "pre" script p.1 (p.2 script)) (map_to_list (preHooks m))
   else rs = [])
  ∧ executionHistory m' = newest (log ++ rs) ∧ preHooks m' = preHooks m ∧ postHooks m' = postHooks m.
Proof.
  intros Hm. unfold executePreHooks. destruct (enabled m) eqn:E; cbn; [|by rewrite app_nil_r].
  match goal with |- context [run_hooks _ _ _ _ ?h m] =>
    pose proof (run_hooks_correct elapsed stamp "pre" script h m log Hm) as Hr; destruct (run_hooks _ _ _ _ h m) end.
  destruct Hr as (-> & Hh & ? & ? & ?). split; [|done]. rewrite map_map. cbn.
  apply Permutation_map, iter_map_perm.
Qed.

(** The history is given newest first. *)
Lemma getExecutionHistory_spec n m :
  getExecutionHistory n m = let h := reverse (executionHistory m) in if (n =? 0)%nat then h else take n h.
Proof.
  unfold getExecutionHistory. cbv zeta. destruct (Nat.eqb_spec n 0) as [->|Hn]; [by rewrite drop_0|].
  set (h := executionHistory m). destruct (Nat.ltb_spec n (length h)).
  - assert (reverse h = reverse (drop (length h - n) h) ++ reverse (take (length h - n) h)) as ->
      by by rewrite <- reverse_app, take_drop.
    rewrite take_app_length'; [done|]. rewrite length_reverse, length_drop. lia.
  - rewrite drop_0, take_ge; [done|]. rewrite length_reverse. lia.
Qed.

Lemma script_loop_spec script n h : ∀ c,
  (n = 0 ∨ c < n)%nat →
  script_loop script n c h =
    let l := filter (λ r, scriptId r = script) h in if (n =? 0)%nat then l else take (n - c) l.
Proof.
  induction h as [|r h IH]; intros c Hc; cbn [script_loop]; cbv zeta.
  - rewrite filter_nil, take_nil. by destruct (n =? 0)%nat.
  - destruct (String.eqb_spec (scriptId r) script) as [Hs|Hs].
    + rewrite filter_cons_True by done. destruct (Nat.eqb_spec n 0) as [->|Hn].
      * cbn. rewrite IH by lia. done.
      * rewrite (proj2 (Nat.ltb_lt 0 n)) by lia. cbn [andb]. destruct (Nat.leb_spec n (S c)).
        -- by replace (n - c)%nat with 1%nat by lia.
        -- rewrite IH by lia. cbv zeta. 
           by replace (n - c)%nat with (S (n - S c)) by lia.
    + rewrite filter_cons_False by done. by apply IH.
Qed.

Lemma getScriptHistory_spec script n m :
  getScriptHistory script n m =
    let l := filter (λ r, scriptId r = script) (reverse (executionHistory m)) in
    if (n =? 0)%nat then l else take n l.
Proof.
  unfold getScriptHistory. rewrite script_loop_spec by lia. by rewrite Nat.sub_0_r.
Qed.

(** A pre-hook and a post-hook of one name are removed by two calls. *)
Lemma removeHook_one i m h h' :
  preHooks m !! i = Some h → postHooks m !! i = Some h' →
  removeHook i m = (m <| preHooks ::= delete i |>, true).
Proof. intros H1 H2. unfold removeHook, removePreHook. by rewrite H1. Qed.
End Hooks.
