(* ===== verification/Repository.v ===== *)
(** * Repository: celestial objects and the interface of their repositories

    Models struct CelestialObjectModel of src/src/target/model/celestial_model.hpp,
    the search filter and class ICelestialRepository of
    src/src/target/repository/repository_interface.hpp.  The interface is a
    class: an implementation gives a state type with one function per virtual
    method, each returning the next state and the answer.  [RepositoryLaws] is
    what the comments of the interface promise to clients.

    Methods are atomic (each holds the lock of its
    repository) and their catch blocks, which only std::bad_alloc could reach,
    are left out. *)

From S2P Require Import Prelude.

Local Open Scope Z_scope.

(** ** Data *)

Record CelestialObjectModel (F : Type) := mkObject {
  id : Z;
  identifier : string;
  mIdentifier : string;
  extensionName : string;
  component : string;
  className : string;
  amateurRank : Z;
  chineseName : string;
  type : string;
  duplicateType : string;
  morphology : string;
  constellationZh : string;
  constellationEn : string;
  raJ2000 : string;
  radJ2000 : F;
  decJ2000 : string;
  decDJ2000 : F;
  visualMagnitudeV : F;
  photographicMagnitudeB : F;
  bMinusV : F;
  surfaceBrightness : F;
  majorAxis : F;
  minorAxis : F;
  positionAngle : F;
  detailedDescription : string;
  briefDescription : string;
  aliases : string;
  clickCount : Z
}.
Arguments mkObject {F}.
Arguments id {F}.
Arguments identifier {F}.
Arguments chineseName {F}.
Arguments type {F}.
Arguments radJ2000 {F}.
Arguments decDJ2000 {F}.
Arguments visualMagnitudeV {F}.

#[export] Instance CelestialObjectModel_eta F : Eta (CelestialObjectModel F) := λ o,
  mkObject (id o) (identifier o) (mIdentifier _ o) (extensionName _ o) (component _ o)
    (className _ o) (amateurRank _ o) (chineseName o) (type o) (duplicateType _ o)
    (morphology _ o) (constellationZh _ o) (constellationEn _ o) (raJ2000 _ o) (radJ2000 o)
    (decJ2000 _ o) (decDJ2000 o) (visualMagnitudeV o) (photographicMagnitudeB _ o) (bMinusV _ o)
    (surfaceBrightness _ o) (majorAxis _ o) (minorAxis _ o) (positionAngle _ o)
    (detailedDescription _ o) (briefDescription _ o) (aliases _ o) (clickCount _ o).

#[export] Instance CelestialObjectModel_eq_dec `{EqDecision F} : EqDecision (CelestialObjectModel F).
Proof. solve_decision. Defined.

(** An object with an identifier, a name and a type, everything else default. *)
Definition object_named `{Floats F} (n : Z) (name ty : string) : CelestialObjectModel F :=
  mkObject n name "" "" "" "" 0 "" ty "" "" "" "" "" f_zero "" f_zero f_zero f_zero f_zero f_zero
    f_zero f_zero f_zero "" "" "" 0.

Record CelestialSearchFilter (F : Type) := mkFilter {
  namePattern : string;
  filter_type : string;
  filter_morphology : string;
  filter_constellation : string;
  minMagnitude : F;
  maxMagnitude : F;
  minRA : F;
  maxRA : F;
  minDec : F;
  maxDec : F;
  limit : Z;
  offset : Z;
  orderBy : string;
  ascending : bool
}.
Arguments mkFilter {F}.
Arguments namePattern {F}.
Arguments filter_type {F}.
Arguments minMagnitude {F}.
Arguments maxMagnitude {F}.
Arguments minRA {F}.
Arguments maxRA {F}.
Arguments minDec {F}.
Arguments maxDec {F}.
Arguments limit {F}.
Arguments offset {F}.

#[export] Instance CelestialSearchFilter_eta F : Eta (CelestialSearchFilter F) := λ f,
  mkFilter (namePattern f) (filter_type f) (filter_morphology _ f) (filter_constellation _ f)
    (minMagnitude f) (maxMagnitude f) (minRA f) (maxRA f) (minDec f) (maxDec f) (limit f) (offset f)
    (orderBy _ f) (ascending _ f).

(** ** The interface *)

Section interface.
Context {F : Type}.
Abbreviation obj := (CelestialObjectModel F).

(** [std::expected<T, std::string>] is [result string T].  [search] returns
    [None] where the iterators it computes leave the vector. *)
Class Repository (R : Type) := {
  insert : obj → R → R * result string Z;
  update : obj → R → R * result string unit;
  remove : Z → R → R * bool;
  findById : Z → R → R * option obj;
  findByIdentifier : string → R → R * option obj;
  batchInsert : list obj → R → R * Z;
  batchUpdate : list obj → R → R * Z;
  upsert : list obj → R → R * Z;
  searchByName : string → Z → R → R * list obj;
  fuzzySearch : string → Z → Z → R → R * list (obj * nat);
  search : CelestialSearchFilter F → R → R * option (list obj);
  autocomplete : string → Z → R → R * list string;
  searchByCoordinates : F → F → F → Z → R → R * list obj;
  getByType : string → Z → R → R * list obj;
  getByMagnitudeRange : F → F → Z → R → R * list obj;
  count : R → R * Z;
  countByType : R → R * gmap string Z
}.

(** A call of the interface with its arguments, and what comes back. *)
Inductive repo_op :=
| Insert (o : obj)
| Update (o : obj)
| Remove (i : Z)
| FindById (i : Z)
| FindByIdentifier (n : string)
| BatchInsert (os : list obj)
| BatchUpdate (os : list obj)
| Upsert (os : list obj)
| SearchByName (pattern : string) (lim : Z)
| FuzzySearch (name : string) (tolerance lim : Z)
| Search (f : CelestialSearchFilter F)
| Autocomplete (prefix : string) (lim : Z)
| SearchByCoordinates (ra dec radius : F) (lim : Z)
| GetByType (ty : string) (lim : Z)
| GetByMagnitudeRange (lo hi : F) (lim : Z)
| Count
| CountByType.

Inductive answer :=
| AId (r : result string Z)
| ADone (r : result string unit)
| ABool (b : bool)
| AObject (o : option obj)
| ANumber (n : Z)
| AObjects (os : list obj)
| AScored (os : list (obj * nat))
| APage (os : option (list obj))
| ANames (ns : list string)
| ACounts (m : gmap string Z).

Definition on_answer {R A} (f : A → answer) (r : R * A) : R * answer := (r.1, f r.2).

Definition repo_call `{Repository R} (op : repo_op) (s : R) : R * answer :=
  match op with
  | Insert o => on_answer AId (insert o s)
  | Update o => on_answer ADone (update o s)
  | Remove i => on_answer ABool (remove i s)
  | FindById i => on_answer AObject (findById i s)
  | FindByIdentifier n => on_answer AObject (findByIdentifier n s)
  | BatchInsert os => on_answer ANumber (batchInsert os s)
  | BatchUpdate os => on_answer ANumber (batchUpdate os s)
  | Upsert os => on_answer ANumber (upsert os s)
  | SearchByName p l => on_answer AObjects (searchByName p l s)
  | FuzzySearch n t l => on_answer AScored (fuzzySearch n t l s)
  | Search f => on_answer APage (search f s)
  | Autocomplete p l => on_answer ANames (autocomplete p l s)
  | SearchByCoordinates ra dec r l => on_answer AObjects (searchByCoordinates ra dec r l s)
  | GetByType ty l => on_answer AObjects (getByType ty l s)
  | GetByMagnitudeRange lo hi l => on_answer AObjects (getByMagnitudeRange lo hi l s)
  | Count => on_answer ANumber (count s)
  | CountByType => on_answer ACounts (countByType s)
  end.

(** The calls that only look. *)
Definition reads (op : repo_op) : bool :=
  match op with
  | Insert _ | Update _ | Remove _ | BatchInsert _ | BatchUpdate _ | Upsert _ => false
  | _ => true
  end.

(** A batch writes its objects one after the other. *)
Definition write_all (os : list obj) (v : gmap Z obj) : gmap Z obj :=
  foldl (λ v o, <[id o := o]> v) v os.

(** What a repository promises: behind its state there is a map from ids to
    the objects with those ids.  A batch of updates is only described when it knows all the ids,
    an upsert when it knows them all and none is the "new object" mark 0. *)
Class RepositoryLaws (R : Type) `{Repository R} := {
  repo_ok : R → Prop;
  repo_view : R → gmap Z obj;
  law_ok op s : repo_ok s → repo_ok (repo_call op s).1;
  law_read op s : reads op = true → (repo_call op s).1 = s;
  law_id (s : R) i o : repo_ok s → repo_view s !! i = Some o → id o = i;
  law_findById i s : (findById i s).2 = repo_view s !! i;
  law_findByIdentifier n s o :
    repo_ok s → (findByIdentifier n s).2 = Some o → identifier o = n ∧ repo_view s !! id o = Some o;
  law_insert o s :
    repo_view (insert o s).1 = match (insert o s).2 with
                               | Ok i => <[i := o <| id := i |>]> (repo_view s)
                               | Throw _ => repo_view s
                               end;
  law_update o s :
    repo_view (update o s).1 = match (update o s).2 with
                               | Ok _ => <[id o := o]> (repo_view s)
                               | Throw _ => repo_view s
                               end;
  law_remove i s :
    repo_view (remove i s).1 = if (remove i s).2 then delete i (repo_view s) else repo_view s;
  law_batchUpdate os s :
    Forall (λ o, is_Some (repo_view s !! id o)) os →
    repo_view (batchUpdate os s).1 = write_all os (repo_view s);
  law_upsert os s :
    Forall (λ o, id o ≠ 0 ∧ is_Some (repo_view s !! id o)) os →
    repo_view (upsert os s).1 = write_all os (repo_view s)
}.

Fixpoint repo_calls `{Repository R} (ops : list repo_op) (s : R) : R * list answer :=
  match ops with
  | [] => (s, [])
  | op :: ops' =>
      let '(s, a) := repo_call op s in
      let '(s, l) := repo_calls ops' s in (s, a :: l)
  end.

Lemma repo_calls_ok `{RepositoryLaws R} ops s : repo_ok s → repo_ok (repo_calls ops s).1.
Proof.
  revert s. induction ops as [|op ops IH]; intros s Hs; [done|]. cbn [repo_calls].
  pose proof (law_ok op s Hs) as H1. destruct (repo_call op s) as [s1 a].
  specialize (IH s1 H1). by destruct (repo_calls ops s1).
Qed.

(** The last object of the batch with an id is what the map holds. *)
Lemma write_all_lookup os v i :
  write_all os v !! i =
    match List.find (λ o, bool_decide (id o = i)) (rev os) with Some o => Some o | None => v !! i end.
Proof.
  revert v. induction os as [|o os IH] using rev_ind; intros v; [done|].
  unfold write_all in *. rewrite foldl_app, rev_app_distr. cbn [foldl rev app List.find].
  case_bool_decide as Hi; [by rewrite Hi, lookup_insert_eq|]. by rewrite lookup_insert_ne.
Qed.

Lemma write_all_known os v :
  Forall (λ o, is_Some (v !! id o)) os → ∀ i, is_Some (write_all os v !! i) ↔ is_Some (v !! i).
Proof.
  intros Hos. revert v Hos. induction os as [|o os IH]; intros v Hos i; [done|].
  apply Forall_cons in Hos as [Ho Hos]. cbn [write_all foldl]. fold (write_all os).
  assert (Hv : ∀ j, is_Some (<[id o := o]> v !! j) ↔ is_Some (v !! j)).
  { intros j. destruct (decide (j = id o)) as [->|]; [rewrite lookup_insert_eq|by rewrite lookup_insert_ne].
    split; [done|by eexists]. }
  rewrite <- Hv. apply IH. eapply Forall_impl; [exact Hos|]. intros o' Ho'. by apply Hv.
Qed.
End interface.

Arguments repo_op F : clear implicits.
Arguments answer F : clear implicits.
