(* ===== verification/MemoryRepository.v ===== *)
(** * MemoryRepository: the volatile repository of celestial objects

    Models class MemoryRepository of
    src/src/target/repository/memory_repository.hpp and memory_repository.cpp:
    the two hash maps, the id counter, and every method of the interface of
    Repository.v.  Ids stay below 2^63, strings below 2^31 characters. *)

From S2P Require Import Prelude Fuzzy Repository.

Local Open Scope Z_scope.

(** ** Matching and distances *)

(** The inner loop of a star: skip to the first [c], and past it. *)
Fixpoint skip_to (c : char) (str : list char) : option (list char) :=
  match str with
  | [] => None
  | x :: str' => if Ascii.eqb x c then Some str' else skip_to c str'
  end.

(** The main loop, on what is left of the pattern and the string, and the test
    after it: the string is used up and only stars are left of the pattern. *)
Fixpoint match_loop (pattern str : list char) : bool :=
  match pattern with
  | [] => bool_decide (str = [])
  | p :: pattern' =>
      match str with
      | [] => if Ascii.eqb p "*" then match_loop pattern' [] else false
      | x :: str' =>
          if Ascii.eqb p "*" then
            match pattern' with
            | [] => true
            | c :: pattern'' =>
                match skip_to c str with
                | None => false
                | Some rest => match_loop pattern'' rest
                end
            end
          else if Ascii.eqb p x then match_loop pattern' str' else false
      end
  end.

Definition matchesPattern (str pattern : string) : bool :=
  if decide (pattern = "*") then true else match_loop (chars pattern) (chars str).

(** One row of the table: [prev] from the cell above the left one on, [left]
    the cell just written. *)
Fixpoint table_cells (c : char) (s2 : list char) (prev : list nat) (left : nat) : list nat :=
  match s2, prev with
  | b :: s2', diag :: ((up :: _) as prev') =>
      let cell := if decide (tolower c = tolower b) then diag
                  else (1 + Nat.min up (Nat.min left diag))%nat in
      cell :: table_cells c s2' prev' cell
  | _, _ => []
  end.

Fixpoint table_rows (s1 s2 : list char) (i : nat) (prev : list nat) : list nat :=
  match s1 with
  | [] => prev
  | c :: s1' => table_rows s1' s2 (S i) (i :: table_cells c s2 prev i)
  end.

Definition levenshteinDistance (s1 s2 : string) : nat :=
  let a := chars s1 in
  let b := chars s2 in
  match a, b with
  | [], _ => length b
  | _, [] => length a
  | _, _ => default 0%nat (table_rows a b 1 (seq 0 (S (length b))) !! length b)
  end.

Section memory.
Context {F : Type} `{FO : Floats F, HZ : !HashIter Z, sorter : StdSort}.
Abbreviation obj := (CelestialObjectModel F).

Definition f_rad (x : F) : F := f_mul x (f_div f_pi (f_of_Z 180)).

Definition haversineDistance (ra1 dec1 ra2 dec2 : F) : F :=
  let dRa := f_rad (f_sub ra2 ra1) in
  let dDec := f_rad (f_sub dec2 dec1) in
  let half x := f_sin (f_div x (f_of_Z 2)) in
  let a := f_add (f_mul (half dDec) (half dDec))
             (f_mul (f_mul (f_mul (f_cos (f_rad dec1)) (f_cos (f_rad dec2))) (half dRa)) (half dRa)) in
  let c := f_mul (f_of_Z 2) (f_asin (f_sqrt a)) in
  f_div c (f_div f_pi (f_of_Z 180)).

(** ** State and single-object operations *)

Record MemoryRepository := mkMemory {
  byId : gmap Z obj;
  byIdentifier : gmap string obj;
  nextId : Z
}.

#[global] Instance MemoryRepository_eta : Eta MemoryRepository := λ m,
  mkMemory (byId m) (byIdentifier m) (nextId m).

Definition MemoryRepository_new : MemoryRepository := mkMemory ∅ ∅ 1.

Definition generateId (m : MemoryRepository) : MemoryRepository * Z :=
  (m <| nextId ::= Z.succ |>, nextId m).

(** Both maps get the object under a new id. *)
Definition store_new (o : obj) (m : MemoryRepository) : MemoryRepository * Z :=
  let '(m, i) := generateId m in
  let newObj := o <| id := i |> in
  (m <| byId ::= <[i := newObj]> |> <| byIdentifier ::= <[identifier o := newObj]> |>, i).

Definition mem_insert (o : obj) (m : MemoryRepository) : MemoryRepository * result string Z :=
  match byIdentifier m !! identifier o with
  | Some _ => (m, Throw ("Duplicate identifier: " +:+ identifier o))
  | None => let '(m, i) := store_new o m in (m, Ok i)
  end.

(** What update, batchUpdate and upsert do with an object whose id is known;
    [old] is the object stored so far. *)
Definition store_known (o old : obj) (m : MemoryRepository) : MemoryRepository :=
  let oldIdentifier := identifier old in
  let m := m <| byId ::= <[id o := o]> |> in
  if decide (oldIdentifier ≠ identifier o)
  then m <| byIdentifier ::= delete oldIdentifier |> <| byIdentifier ::= <[identifier o := o]> |>
  else m <| byIdentifier ::= <[identifier o := o]> |>.

Definition mem_update (o : obj) (m : MemoryRepository) : MemoryRepository * result string unit :=
  match byId m !! id o with
  | None => (m, Throw ("Object not found: id=" +:+ pretty (id o)))
  | Some old => (store_known o old m, Ok ())
  end.

Definition mem_remove (i : Z) (m : MemoryRepository) : MemoryRepository * bool :=
  match byId m !! i with
  | None => (m, false)
  | Some o => (m <| byId ::= delete i |> <| byIdentifier ::= delete (identifier o) |>, true)
  end.

Definition mem_findById (i : Z) (m : MemoryRepository) : option obj := byId m !! i.
Definition mem_findByIdentifier (n : string) (m : MemoryRepository) : option obj := byIdentifier m !! n.

(** ** Batches: the state and the number of objects handled so far *)

Definition batchInsert_step (r : MemoryRepository * Z) (o : obj) : MemoryRepository * Z :=
  let '(m, n) := r in
  match byIdentifier m !! identifier o with
  | Some _ => (m, n)
  | None => ((store_new o m).1, n + 1)
  end.
Definition mem_batchInsert (os : list obj) (m : MemoryRepository) : MemoryRepository * Z :=
  foldl batchInsert_step (m, 0) os.

Definition batchUpdate_step (r : MemoryRepository * Z) (o : obj) : MemoryRepository * Z :=
  let '(m, n) := r in
  match byId m !! id o with
  | None => (m, n)
  | Some old => (store_known o old m, n + 1)
  end.
Definition mem_batchUpdate (os : list obj) (m : MemoryRepository) : MemoryRepository * Z :=
  foldl batchUpdate_step (m, 0) os.

Definition upsert_step (r : MemoryRepository * Z) (o : obj) : MemoryRepository * Z :=
  let '(m, n) := r in
  let m := match (if decide (id o = 0) then None else byId m !! id o) with
           | Some old => store_known o old m
           | None => (store_new o m).1
           end in
  (m, n + 1).
Definition mem_upsert (os : list obj) (m : MemoryRepository) : MemoryRepository * Z :=
  foldl upsert_step (m, 0) os.

(** ** Searches *)

(** The loops that push a result and stop once there are [limit] of them. *)
Fixpoint collect {A B} (limit : Z) (f : A → option B) (results : list B) (l : list A) : list B :=
  match l with
  | [] => results
  | o :: l' =>
      match f o with
      | None => collect limit f results l'
      | Some b =>
          let results := results ++ [b] in
          if to_size limit <=? Z.of_nat (length results) then results else collect limit f results l'
      end
  end.

Definition objects (m : MemoryRepository) : list obj := (iter_map (byId m)).*2.

Definition guarded (p : obj → bool) (o : obj) : option obj := if p o then Some o else None.

Definition name_matches (pattern : string) (o : obj) : bool :=
  matchesPattern (str_tolower (identifier o)) (str_tolower pattern)
  || matchesPattern (str_tolower (chineseName o)) (str_tolower pattern).

Definition mem_searchByName (pattern : string) (lim : Z) (m : MemoryRepository) : list obj :=
  collect lim (guarded (name_matches pattern)) [] (objects m).

Definition fuzzy_candidate (name : string) (tolerance : Z) (o : obj) : option (obj * nat) :=
  let distance := levenshteinDistance (str_tolower (identifier o)) (str_tolower name) in
  if Z.of_nat distance <=? tolerance then Some (o, distance) else None.

Definition mem_fuzzySearch (name : string) (tolerance lim : Z) (m : MemoryRepository) : list (obj * nat) :=
  let candidates := omap (fuzzy_candidate name tolerance) (objects m) in
  let candidates := std_sort (λ a b, (a.2 <? b.2)%nat) candidates in
  if to_size lim <? Z.of_nat (length candidates)
  then take (Z.to_nat (to_size lim)) candidates else candidates.

(** The chain of [continue]s. *)
Definition passes (f : CelestialSearchFilter F) (o : obj) : bool :=
  (str_empty (namePattern f) || name_matches (namePattern f) o)
  && (str_empty (filter_type f) || bool_decide (type o = filter_type f))
  && negb (f_ltb (visualMagnitudeV o) (minMagnitude f) || f_ltb (maxMagnitude f) (visualMagnitudeV o))
  && negb (f_ltb (radJ2000 o) (minRA f) || f_ltb (maxRA f) (radJ2000 o))
  && negb (f_ltb (decDJ2000 o) (minDec f) || f_ltb (maxDec f) (decDJ2000 o)).

(** [None]: [start] or [end] would lie before the beginning of the vector. *)
Definition mem_search (f : CelestialSearchFilter F) (m : MemoryRepository) : option (list obj) :=
  let results := List.filter (passes f) (objects m) in
  let n := Z.of_nat (length results) in
  if to_int n <=? offset f then Some []
  else
    let len := Z.min (limit f) (to_int (to_size (n - offset f))) in
    if (offset f <? 0) || (len <? 0) then None
    else Some (take (Z.to_nat len) (drop (Z.to_nat (offset f)) results)).

Definition mem_autocomplete (prefix : string) (lim : Z) (m : MemoryRepository) : list string :=
  collect lim (λ o, if decide (str_substr 0 (String.length prefix) (str_tolower (identifier o)) = str_tolower prefix)
                    then Some (identifier o) else None) [] (objects m).

Definition mem_searchByCoordinates (ra dec radius : F) (lim : Z) (m : MemoryRepository) : list obj :=
  let candidates := omap (λ o,
    let distance := haversineDistance (radJ2000 o) (decDJ2000 o) ra dec in
    if f_leb distance radius then Some (o, distance) else None) (objects m) in
  let candidates := std_sort (λ a b, f_ltb a.2 b.2) candidates in
  collect lim (λ c, Some c.1) [] candidates.

Definition mem_getByType (ty : string) (lim : Z) (m : MemoryRepository) : list obj :=
  collect lim (guarded (λ o, bool_decide (type o = ty))) [] (objects m).

Definition mem_getByMagnitudeRange (lo hi : F) (lim : Z) (m : MemoryRepository) : list obj :=
  collect lim (guarded (λ o, f_leb lo (visualMagnitudeV o) && f_leb (visualMagnitudeV o) hi)) [] (objects m).

(** ** Statistics and maintenance *)

Definition mem_count (m : MemoryRepository) : Z := Z.of_nat (size (byId m)).

Definition count_one (counts : gmap string Z) (o : obj) : gmap string Z :=
  <[type o := default 0 (counts !! type o) + 1]> counts.
Definition mem_countByType (m : MemoryRepository) : gmap string Z := foldl count_one ∅ (objects m).

Definition mem_clear (m : MemoryRepository) : MemoryRepository :=
  m <| byId := ∅ |> <| byIdentifier := ∅ |> <| nextId := 1 |>.
Definition mem_size (m : MemoryRepository) : Z := Z.of_nat (size (byId m)).

#[global] Instance MemoryRepository_repository : Repository (F := F) MemoryRepository := {
  insert := mem_insert;
  update := mem_update;
  remove := mem_remove;
  findById i m := (m, mem_findById i m);
  findByIdentifier n m := (m, mem_findByIdentifier n m);
  batchInsert := mem_batchInsert;
  batchUpdate := mem_batchUpdate;
  upsert := mem_upsert;
  searchByName p l m := (m, mem_searchByName p l m);
  fuzzySearch n t l m := (m, mem_fuzzySearch n t l m);
  search f m := (m, mem_search f m);
  autocomplete p l m := (m, mem_autocomplete p l m);
  searchByCoordinates ra dec r l m := (m, mem_searchByCoordinates ra dec r l m);
  getByType ty l m := (m, mem_getByType ty l m);
  getByMagnitudeRange lo hi l m := (m, mem_getByMagnitudeRange lo hi l m);
  count m := (m, mem_count m);
  countByType m := (m, mem_countByType m)
}.
End memory.

Arguments MemoryRepository F : clear implicits.

(** ** The two indexes *)

Section invariant.
Context {F : Type} `{FO : Floats F, HZ : !HashIter Z, sorter : StdSort}.
Abbreviation obj := (CelestialObjectModel F).
Abbreviation memory := (MemoryRepository F).

(** Every entry of either map is found in the id map under its own id. *)
Record mem_sound (m : memory) : Prop := {
  sound_id : ∀ i o, byId m !! i = Some o → id o = i ∧ 1 ≤ i < nextId m;
  sound_name : ∀ n o, byIdentifier m !! n = Some o → identifier o = n ∧ byId m !! id o = Some o;
  sound_next : 1 ≤ nextId m
}.

(** Every object is found by its identifier. *)
Definition mem_complete (m : memory) : Prop :=
  ∀ i o, byId m !! i = Some o → byIdentifier m !! identifier o = Some o.

Ltac lookups :=
  repeat match goal with
  | H : context [<[_:=_]> _ !! _] |- _ => rewrite lookup_insert_Some in H
  | H : delete _ _ !! _ = Some _ |- _ => rewrite lookup_delete_Some in H
  | H : _ ∧ _ |- _ => destruct H
  | H : _ ∨ _ |- _ => destruct H
  end; subst; cbn in *.

Lemma store_new_sound o m : mem_sound m → mem_sound (store_new o m).1.
Proof.
  intros [Hid Hname Hnext]. split; cbn; [| |lia].
  - intros i o' H. lookups; [lia|]. destruct (Hid _ _ H0). lia.
  - intros n o' H. lookups; [by rewrite lookup_insert_eq|]. destruct (Hname _ _ H0) as [? Ho'].
    split; [done|]. destruct (Hid _ _ Ho'). rewrite lookup_insert_ne by lia. done.
Qed.

Lemma store_known_lookups (o old : obj) (m : memory) :
  byId (store_known o old m) = <[id o := o]> (byId m)
  ∧ nextId (store_known o old m) = nextId m
  ∧ byIdentifier (store_known o old m) = <[identifier o := o]> (delete (identifier old) (byIdentifier m)).
Proof.
  unfold store_known. case_decide as Hn; cbn; split_and!; try done.
  assert (identifier old = identifier o) as -> by (by destruct (decide (identifier old = identifier o))).
  by rewrite insert_delete_eq.
Qed.

Lemma store_known_sound o old m :
  mem_sound m → byId m !! id o = Some old → mem_sound (store_known o old m).
Proof.
  intros [Hid Hname Hnext] Hold. destruct (store_known_lookups o old m) as (HI & HN & HM).
  split; rewrite ?HI, ?HN, ?HM; [| |done].
  - intros i o' H. lookups; [|eauto]. split; [done|]. by destruct (Hid _ _ Hold).
  - intros n o' H. lookups; [by rewrite lookup_insert_eq|]. destruct (Hname _ _ H1) as [? Ho'].
    split; [done|]. rewrite lookup_insert_ne; [done|]. intros Hio. rewrite <- Hio in Ho'. congruence.
Qed.

Lemma mem_remove_sound i m : mem_sound m → mem_sound (mem_remove i m).1.
Proof.
  intros [Hid Hname Hnext]. unfold mem_remove. destruct (byId m !! i) as [o|] eqn:Ho; [|done].
  split; cbn; [| |done].
  - intros j o' H. lookups. eauto.
  - intros n o' H. lookups. destruct (Hname _ _ H0) as [? Ho']. split; [done|].
    rewrite lookup_delete_ne; [done|]. intros ->. congruence.
Qed.

(** When an object may be written under its identifier: the identifier is the
    one it had, or no entry uses it. *)
Definition name_free (o : obj) (old : option obj) (m : memory) : Prop :=
  match old with
  | Some old => identifier old = identifier o ∨ byIdentifier m !! identifier o = None
  | None => byIdentifier m !! identifier o = None
  end.

Lemma store_new_complete o m :
  mem_sound m → mem_complete m → name_free o None m → mem_complete (store_new o m).1.
Proof.
  intros [Hid Hname _] Hc Hf i o' H. cbn in *. lookups; [by rewrite lookup_insert_eq|].
  rewrite lookup_insert_ne; [by eapply Hc|]. intros Heq. apply Hc in H0. cbn in *. congruence.
Qed.

Lemma store_known_complete o old m :
  mem_sound m → mem_complete m → byId m !! id o = Some old → name_free o (Some old) m →
  mem_complete (store_known o old m).
Proof.
  intros [Hid Hname _] Hc Hold Hf i o' H. destruct (store_known_lookups o old m) as (HI & _ & HM).
  rewrite HI in H. rewrite HM. lookups; [by rewrite lookup_insert_eq|].
  pose proof (Hc _ _ H0) as Ho'. pose proof (Hc _ _ Hold) as Hn.
  destruct (Hid _ _ H0), (Hid _ _ Hold).
  assert (identifier old ≠ identifier o') by (intros E; rewrite E in Hn; congruence).
  rewrite lookup_insert_ne, lookup_delete_ne; [done|done|].
  destruct Hf; [congruence|]. intros E. cbn in *. congruence.
Qed.

Lemma mem_remove_complete i m : mem_sound m → mem_complete m → mem_complete (mem_remove i m).1.
Proof.
  intros [Hid Hname _] Hc. unfold mem_remove. destruct (byId m !! i) as [o|] eqn:Ho; [|done].
  intros j o' H. cbn in *. lookups. pose proof (Hc _ _ H0) as Ho'.
  rewrite lookup_delete_ne; [done|]. intros E. pose proof (Hc _ _ Ho) as Hn. rewrite E in Hn.
  destruct (Hid _ _ H0), (Hid _ _ Ho). congruence.
Qed.

(** A batch is a fold of steps; [free] is what each step asks of its object. *)
Definition writes_known (o : obj) (m : memory) : Prop :=
  match byId m !! id o with Some old => name_free o (Some old) m | None => True end.
Definition writes_upsert (o : obj) (m : memory) : Prop :=
  name_free o (if decide (id o = 0) then None else byId m !! id o) m.

Section fold.
Context (step : memory * Z → obj → memory * Z) (free : obj → memory → Prop).
Hypothesis step_sound : ∀ m n o, mem_sound m → mem_sound (step (m, n) o).1.
Hypothesis step_complete : ∀ m n o, mem_sound m → mem_complete m → free o m → mem_complete (step (m, n) o).1.

Fixpoint all_free (os : list obj) (r : memory * Z) : Prop :=
  match os with [] => True | o :: os' => free o r.1 ∧ all_free os' (step r o) end.

Lemma fold_sound os r : mem_sound r.1 → mem_sound (foldl step r os).1.
Proof using step_sound. revert r. induction os; intros [m n] H; cbn [foldl]; [done|]. auto. Qed.

Lemma fold_complete os r :
  mem_sound r.1 → mem_complete r.1 → all_free os r → mem_complete (foldl step r os).1.
Proof using step_sound step_complete.
  revert r. induction os as [|o os IH]; intros [m n] Hs Hc Hf; cbn [foldl]; [done|].
  destruct Hf. apply IH; auto.
Qed.
End fold.

Lemma batchInsert_step_sound m n o : mem_sound m → mem_sound (batchInsert_step (m, n) o).1.
Proof. intros. cbn. destruct (_ !! _); [done|]. by apply store_new_sound. Qed.

Lemma batchInsert_step_complete m n o :
  mem_sound m → mem_complete m → True → mem_complete (batchInsert_step (m, n) o).1.
Proof. intros ? ? _. cbn. destruct (_ !! _) eqn:E; [done|]. by apply store_new_complete. Qed.

Lemma batchUpdate_step_sound m n o : mem_sound m → mem_sound (batchUpdate_step (m, n) o).1.
Proof. intros. cbn. destruct (_ !! _) eqn:E; [|done]. by apply store_known_sound. Qed.

Lemma batchUpdate_step_complete m n o :
  mem_sound m → mem_complete m → writes_known o m → mem_complete (batchUpdate_step (m, n) o).1.
Proof.
  unfold writes_known. intros ? ? Hf. cbn. destruct (byId m !! id o) eqn:E; [|done].
  by apply store_known_complete.
Qed.

Lemma upsert_step_sound m n o : mem_sound m → mem_sound (upsert_step (m, n) o).1.
Proof.
  intros. cbn. case_decide; [by apply store_new_sound|].
  destruct (_ !! _) eqn:E; [by apply store_known_sound|by apply store_new_sound].
Qed.

Lemma upsert_step_complete m n o :
  mem_sound m → mem_complete m → writes_upsert o m → mem_complete (upsert_step (m, n) o).1.
Proof.
  unfold writes_upsert. intros ? ? Hf. cbn. case_decide; [by apply store_new_complete|].
  destruct (byId m !! id o) eqn:E; [by apply store_known_complete|by apply store_new_complete].
Qed.
End invariant.

(** ** What the interface asks for *)

Section laws.
Context {F : Type} `{FO : Floats F, HZ : !HashIter Z, sorter : StdSort}.
Abbreviation obj := (CelestialObjectModel F).
Abbreviation memory := (MemoryRepository F).

Lemma mem_call_sound (op : repo_op F) (m : memory) : mem_sound m → mem_sound (repo_call op m).1.
Proof.
  intros Hm. destruct op; cbn; try done.
  - unfold mem_insert. destruct (_ !! _); [done|]. by apply store_new_sound.
  - unfold mem_update. destruct (_ !! _) eqn:E; [|done]. by apply store_known_sound.
  - by apply mem_remove_sound.
  - apply (fold_sound _ batchInsert_step_sound _ (m, 0)); done.
  - apply (fold_sound _ batchUpdate_step_sound _ (m, 0)); done.
  - apply (fold_sound _ upsert_step_sound _ (m, 0)); done.
Qed.

(** A batch of objects with known ids writes all of them. *)
Lemma fold_known (step : memory * Z → obj → memory * Z) (known : obj → memory → Prop) os r :
  (∀ m n o, known o m → byId (step (m, n) o).1 = <[id o := o]> (byId m)) →
  (∀ m m' o, byId m' = byId m ∨ (∃ o', is_Some (byId m !! id o') ∧ byId m' = <[id o' := o']> (byId m)) →
     known o m → known o m') →
  (∀ m o, known o m → is_Some (byId m !! id o)) →
  Forall (λ o, known o r.1) os → byId (foldl step r os).1 = write_all os (byId r.1).
Proof.
  intros Hstep Hmono Hin. revert r. induction os as [|o os IH]; intros [m n] Hos; [done|].
  apply Forall_cons in Hos as [Ho Hos]. cbn [foldl]. specialize (Hstep m n o Ho).
  destruct (step (m, n) o) as [m' n'] eqn:E. cbn [fst] in *. rewrite (IH (m', n')).
  - cbn. by rewrite Hstep.
  - cbn. eapply Forall_impl; [exact Hos|]. intros o' Ho'. eapply Hmono; [|exact Ho']. right. exists o. auto.
Qed.

Lemma known_mono (m m' : memory) (o : obj) :
  byId m' = byId m ∨ (∃ o', is_Some (byId m !! id o') ∧ byId m' = <[id o' := o']> (byId m)) →
  is_Some (byId m !! id o) → is_Some (byId m' !! id o).
Proof.
  intros [->|(o' & Ho' & ->)] Ho; [done|].
  destruct (decide (id o = id o')) as [->|]; [by rewrite lookup_insert_eq; eexists|by rewrite lookup_insert_ne].
Qed.

#[export] Instance MemoryRepository_laws : RepositoryLaws (F := F) memory.
Proof.
  refine {| repo_ok := mem_sound; repo_view := byId |}.
  - intros op s. apply mem_call_sound.
  - intros [] s; done.
  - intros s i o Hs. apply (sound_id _ Hs).
  - done.
  - cbn. intros n s o Hs Ho. by apply (sound_name _ Hs n).
  - intros o s. cbn. unfold mem_insert. by destruct (_ !! _).
  - intros o s. cbn. unfold mem_update. destruct (_ !! _); [|done]. cbn. by apply store_known_lookups.
  - intros i s. cbn. unfold mem_remove. by destruct (_ !! _).
  - intros os s Hos. cbn. apply (fold_known _ (λ o m, is_Some (byId m !! id o)) _ (s, 0)); try done.
    + intros m n o [old Hold]. cbn. rewrite Hold. cbn. by apply store_known_lookups.
    + intros m m' o. apply known_mono.
  - intros os s Hos. cbn. apply (fold_known _ (λ o m, id o ≠ 0 ∧ is_Some (byId m !! id o)) _ (s, 0)); try done.
    + intros m n o [Hne [old Hold]]. cbn. rewrite decide_False, Hold by done. by apply store_known_lookups.
    + intros m m' o H [? ?]. split; [done|]. by eapply known_mono.
    + by intros m o [? ?].
Defined.

(** ** Histories of a repository *)

Inductive mem_op := MCall (op : repo_op F) | MClear.

Definition mem_step (m : memory) (e : mem_op) : memory :=
  match e with MCall op => (repo_call op m).1 | MClear => mem_clear m end.

Definition mem_run (es : list mem_op) : memory := foldl mem_step MemoryRepository_new es.

(** The writes of the operation use the identifier the object had, or one that
    is not in use.  insert and batchInsert see to it themselves. *)
Definition names_free (m : memory) (e : mem_op) : Prop :=
  match e with
  | MCall (Update o) => writes_known o m
  | MCall (BatchUpdate os) => all_free batchUpdate_step writes_known os (m, 0)
  | MCall (Upsert os) => all_free upsert_step writes_upsert os (m, 0)
  | _ => True
  end.

Fixpoint names_free_run (m : memory) (es : list mem_op) : Prop :=
  match es with [] => True | e :: es' => names_free m e ∧ names_free_run (mem_step m e) es' end.

Lemma mem_new_sound : mem_sound (MemoryRepository_new : memory).
Proof. by split; cbn; [intros ? ? ?%lookup_empty_Some..|]. Qed.

Lemma mem_new_complete m : byId m = ∅ → mem_complete (m : memory).
Proof. intros E i o. rewrite E. by intros ?%lookup_empty_Some. Qed.

Lemma mem_step_sound m e : mem_sound m → mem_sound (mem_step m e).
Proof. destruct e; [apply mem_call_sound|]. intros _. apply mem_new_sound. Qed.

Lemma mem_step_complete m e :
  mem_sound m → mem_complete m → names_free m e → mem_complete (mem_step m e).
Proof.
  intros Hs Hc Hf. destruct e as [op|]; [|by apply mem_new_complete].
  destruct op; cbn in *; try done.
  - unfold mem_insert. destruct (_ !! _) eqn:E; [done|]. by apply store_new_complete.
  - unfold mem_update. destruct (_ !! _) eqn:E; [|done]. apply store_known_complete; try done.
    unfold writes_known in Hf. by rewrite E in Hf.
  - by apply mem_remove_complete.
  - apply (fold_complete _ (λ _ _, True) batchInsert_step_sound batchInsert_step_complete _ (m, 0)); try done.
    clear. generalize (m, 0). induction os; cbn; auto.
  - by apply (fold_complete _ _ batchUpdate_step_sound batchUpdate_step_complete _ (m, 0)).
  - by apply (fold_complete _ _ upsert_step_sound upsert_step_complete _ (m, 0)).
Qed.

Lemma mem_run_sound es m : mem_sound m → mem_sound (foldl mem_step m es).
Proof. revert m. induction es; intros m Hm; cbn; [done|]. by apply IHes, mem_step_sound. Qed.

Lemma mem_run_complete es m :
  mem_sound m → mem_complete m → names_free_run m es → mem_complete (foldl mem_step m es).
Proof.
  revert m. induction es; intros m Hm Hc Hf; cbn; [done|]. destruct Hf.
  apply IHes; [by apply mem_step_sound|by apply mem_step_complete|done].
Qed.

(** [C21] After any history the id map holds every object under its own id,
    between 1 and the next id to give out, and every entry of the identifier map
    is the object of the id map with that identifier; so what findByIdentifier
    returns, findById returns for its id.  If in addition every update kept the
    identifier of the object or took one not in use, and every upsert that added
    an object gave it an identifier not in use (insertions check this
    themselves), the converse holds too: every stored object is found by its
    identifier, and no two objects share one. *)
Theorem memory_repository_invariant (es : list mem_op) :
  let m := mem_run es in
  (∀ i o, mem_findById i m = Some o → id o = i ∧ 1 ≤ i < nextId m)
  ∧ (∀ n o, mem_findByIdentifier n m = Some o → identifier o = n ∧ mem_findById (id o) m = Some o)
  ∧ (names_free_run MemoryRepository_new es →
       (∀ i o, mem_findById i m = Some o → mem_findByIdentifier (identifier o) m = Some o)
       ∧ ∀ i j o o', mem_findById i m = Some o → mem_findById j m = Some o' →
           identifier o = identifier o' → i = j).
Proof.
  intros m. pose proof (mem_run_sound es _ mem_new_sound) as Hs. fold (mem_run es) in Hs. fold m in Hs.
  split_and!; [apply Hs|apply Hs|]. intros Hf.
  assert (Hc : mem_complete m).
  { apply mem_run_complete; [apply mem_new_sound|by apply mem_new_complete|done]. }
  split; [exact Hc|]. intros i j o o' Hi Hj E. pose proof (Hc _ _ Hi) as H1. pose proof (Hc _ _ Hj) as H2.
  apply (sound_id _ Hs) in Hi as [<- _], Hj as [<- _]. congruence.
Qed.
End laws.

Arguments mem_op F : clear implicits.

(** ** The edit distance ignores case *)

Definition lower : list char → list char := map tolower.

Lemma chars_tolower s : chars (str_tolower s) = lower (chars s).
Proof. induction s; cbn; [done|]. by f_equal. Qed.

Lemma dist_drop_r a y b : (dist a b ≤ dist a (y :: b) + 1)%nat.
Proof.
  destruct (align_trans _ _ _ (dist_align a (y :: b)) b 1) as (m & ? & ?%dist_min); [|lia].
  apply al_delete, align_refl.
Qed.

Lemma dist_drop_l x a b : (dist a b ≤ dist (x :: a) b + 1)%nat.
Proof.
  destruct (align_trans a (x :: a) 1 (al_insert x a a 0 (align_refl a)) b _ (dist_align (x :: a) b))
    as (m & ? & ?%dist_min). lia.
Qed.

(** The recurrence the table follows: equal characters cost nothing. *)
Lemma dist_cons_cases x a y b :
  dist (x :: a) (y :: b) = if decide (x = y) then dist a b
    else (1 + Nat.min (dist a (y :: b)) (Nat.min (dist (x :: a) b) (dist a b)))%nat.
Proof.
  rewrite dist_cons. pose proof (dist_drop_r a y b). pose proof (dist_drop_l x a b).
  case_decide; lia.
Qed.

Lemma table_cells_ref c a b0 b :
  dist (tolower c :: a) b0
    :: table_cells c b (ref_row a b0 (lower b)) (dist (tolower c :: a) b0)
  = ref_row (tolower c :: a) b0 (lower b).
Proof.
  revert b0. induction b as [|y b IH]; intros b0; [done|]. cbn [lower map]. fold (lower b).
  change (ref_row (tolower c :: a) b0 (tolower y :: lower b))
    with (dist (tolower c :: a) b0 :: ref_row (tolower c :: a) (tolower y :: b0) (lower b)).
  f_equal. rewrite <- IH.
  change (ref_row a b0 (tolower y :: lower b)) with (dist a b0 :: ref_row a (tolower y :: b0) (lower b)).
  rewrite dist_cons_cases. destruct b; done.
Qed.

Lemma table_rows_ref s a b :
  table_rows s b (S (length a)) (ref_row a [] (lower b)) = ref_row (rev (lower s) ++ a) [] (lower b).
Proof.
  revert a. induction s as [|c s IH]; intros a; [done|]. cbn [table_rows lower map rev]. fold (lower s).
  pose proof (table_cells_ref c a [] b) as H. rewrite dist_nil_r in H. cbn [length] in H.
  rewrite H, <- app_assoc. apply (IH (tolower c :: a)).
Qed.

Lemma levenshtein_lower s1 s2 :
  levenshteinDistance s1 s2 = dist (lower (chars s1)) (lower (chars s2)).
Proof.
  unfold levenshteinDistance. destruct (chars s1) as [|x a] eqn:Ha; [by unfold lower; cbn; rewrite length_map|].
  destruct (chars s2) as [|y b] eqn:Hb; [by unfold lower; cbn; rewrite length_map|]. rewrite <- Ha, <- Hb.
  pose proof (table_rows_ref (chars s1) [] (chars s2)) as H. rewrite ref_row_nil in H.
  unfold lower in H at 1. rewrite length_map in H. cbn [length] in H. rewrite H.
  assert (length (chars s2) = length (lower (chars s2))) as -> by (unfold lower; by rewrite length_map).
  rewrite ref_row_last, !app_nil_r. apply dist_rev.
Qed.

(** ** Wildcards

    [glob p s]: the string [s] is an instance of [p], where a star stands for
    any characters. *)
Inductive glob : list char → list char → Prop :=
| glob_nil : glob [] []
| glob_char c p s : c ≠ "*"%char → glob p s → glob (c :: p) (c :: s)
| glob_stop p s : glob p s → glob ("*"%char :: p) s
| glob_more x p s : glob ("*"%char :: p) s → glob ("*"%char :: p) (x :: s).

Lemma glob_any s : glob ["*"%char] s.
Proof. induction s; [apply glob_stop, glob_nil|by apply glob_more]. Qed.

Lemma glob_literal p s : "*"%char ∉ p → glob p s ↔ p = s.
Proof.
  intros Hp. split.
  - induction 1; [done| | |]; [f_equal; apply IHglob; set_solver|exfalso; set_solver..].
  - intros <-. induction p; constructor; set_solver.
Qed.

Lemma skip_to_glob c p str str' :
  skip_to c str = Some str' → glob p str' → glob ("*"%char :: c :: p) str.
Proof.
  revert str'. induction str as [|x str IH]; intros str'; cbn; [done|].
  destruct (Ascii.eqb_spec x c) as [->|]; [|intros; apply glob_more; eauto].
  intros [= <-] Hg. destruct (decide (c = "*"%char)) as [->|]; [|by apply glob_stop, glob_char].
  by apply glob_stop, glob_more, glob_stop.
Qed.

Lemma match_loop_glob p s : match_loop p s = true → glob p s.
Proof.
  revert s. induction p as [p IH] using (induction_ltof1 _ length); unfold ltof in IH.
  destruct p as [|c p]; intros s; cbn [match_loop].
  { intros ->%bool_decide_eq_true. constructor. }
  destruct s as [|x s].
  - destruct (Ascii.eqb_spec c "*") as [->|]; [|done]. intros H. apply glob_stop, IH; cbn; [lia|done].
  - destruct (Ascii.eqb_spec c "*") as [->|Hc].
    + destruct p as [|d p]; [intros _; apply glob_any|].
      destruct (skip_to d (x :: s)) as [rest|] eqn:E; [|done]. intros H.
      eapply skip_to_glob; [exact E|]. apply IH; cbn; [lia|done].
    + destruct (Ascii.eqb_spec c x) as [->|]; [|done]. intros H.
      apply glob_char; [done|]. apply IH; cbn; [lia|done].
Qed.

(** Without a star the pattern is the string; with one at the end, a prefix. *)
Lemma match_loop_literal p s : "*"%char ∉ p → match_loop p s = bool_decide (s = p).
Proof.
  revert s. induction p as [|c p IH]; intros s Hp; cbn [match_loop]; [by apply bool_decide_ext|].
  assert (c ≠ "*"%char) by set_solver. assert (Ascii.eqb c "*" = false) as -> by (by destruct (Ascii.eqb_spec c "*")).
  destruct s as [|x s]; [by rewrite bool_decide_false|]. rewrite IH by set_solver.
  destruct (Ascii.eqb_spec c x) as [->|]; [|rewrite bool_decide_false; congruence].
  apply bool_decide_ext. naive_solver.
Qed.

Lemma match_loop_prefix p s :
  "*"%char ∉ p → match_loop (p ++ ["*"%char]) s = true ↔ p `prefix_of` s.
Proof.
  revert s. induction p as [|c p IH]; intros s Hp; cbn [app match_loop].
  - split; [intros _; apply prefix_nil|]. by destruct s.
  - assert (c ≠ "*"%char) by set_solver.
    assert (Ascii.eqb c "*" = false) as -> by (by destruct (Ascii.eqb_spec c "*")).
    destruct s as [|x s]; [split; [done|intros [? [=]]]|].
    destruct (Ascii.eqb_spec c x) as [->|Hx].
    + rewrite IH by set_solver. split; [apply prefix_cons|apply prefix_cons_inv_2].
    + split; [done|]. intros Hpre. by apply prefix_cons_inv_1 in Hpre.
Qed.

Lemma chars_app a b : chars (a +:+ b) = chars a ++ chars b.
Proof. induction a as [|c a IH]; cbn; [done|]. by f_equal. Qed.

Lemma matchesPattern_glob str pattern :
  matchesPattern str pattern = true → glob (chars pattern) (chars str).
Proof. unfold matchesPattern. case_decide; [subst; intros _; apply glob_any|apply match_loop_glob]. Qed.

(** The wildcard test only accepts instances of the pattern.  It accepts
    exactly the pattern itself when the pattern has no star, and exactly the
    strings with prefix [p] for the pattern [p*]. *)
Theorem matchesPattern_correct (str pattern : string) :
  (matchesPattern str pattern = true → glob (chars pattern) (chars str))
  ∧ ("*"%char ∉ chars pattern → matchesPattern str pattern = true ↔ str = pattern)
  ∧ ∀ p, pattern = p +:+ "*" → "*"%char ∉ chars p →
      matchesPattern str pattern = true ↔ chars p `prefix_of` chars str.
Proof.
  split; [apply matchesPattern_glob|]. unfold matchesPattern. case_decide as Hp; [subst|split].
  - split; [set_solver|]. intros p E Hs. destruct p as [|c p]; [split; [intros _; apply prefix_nil|done]|].
    exfalso. injection E as E1 E2. destruct p; done.
  - intros Hs. rewrite match_loop_literal, bool_decide_eq_true by done.
    split; [apply chars_inj|by intros ->].
  - intros p -> Hs. rewrite chars_app. by apply match_loop_prefix.
Qed.

(** The search for the character after a star never comes back: an instance of
    the pattern is rejected when that character occurs too early. *)
Example star_does_not_backtrack :
  glob (chars "M*31") (chars "M331") ∧ matchesPattern "M331" "M*31" = false.
Proof.
  split; [|reflexivity]. apply glob_char; [done|]. apply glob_more, glob_stop.
  repeat (apply glob_char; [done|]). constructor.
Qed.

(** ** What the searches return *)

Section searches.
Context {F : Type} `{FO : Floats F, HZ : !HashIter Z, sorter : StdSort}.
Abbreviation obj := (CelestialObjectModel F).
Abbreviation memory := (MemoryRepository F).

Lemma collect_take {A B} lim (f : A → option B) results l :
  (Z.of_nat (length results) < to_size lim ∨ results = []) →
  collect lim f results l = results ++ take (Nat.max 1 (Z.to_nat (to_size lim)) - length results) (omap f l).
Proof.
  revert results. induction l as [|o l IH]; intros results H; cbn [collect omap list_omap].
  { by rewrite take_nil, app_nil_r. }
  change (list_omap A B f l) with (omap f l). destruct (f o) as [b|]; [|by apply IH].
  assert (0 ≤ to_size lim) by (apply Z.mod_pos_bound; done).
  assert (Hn : (length results < Nat.max 1 (Z.to_nat (to_size lim)))%nat) by (destruct H as [H| ->]; cbn; lia).
  destruct (Z.leb_spec (to_size lim) (Z.of_nat (length (results ++ [b])))) as [Hl|Hl];
    rewrite length_app in Hl; cbn [length] in Hl.
  - by replace (Nat.max 1 (Z.to_nat (to_size lim)) - length results)%nat with 1%nat by lia.
  - rewrite IH by (left; rewrite length_app; cbn; lia). rewrite length_app, <- app_assoc. cbn [length app].
    by replace (Nat.max 1 (Z.to_nat (to_size lim)) - length results)%nat
      with (S (Nat.max 1 (Z.to_nat (to_size lim)) - (length results + 1))) by lia.
Qed.

Lemma elem_of_objects (m : memory) o : o ∈ objects m ↔ ∃ i, byId m !! i = Some o.
Proof.
  unfold objects. rewrite list_elem_of_fmap. split.
  - intros ([i o'] & -> & H%elem_of_iter_map). by exists i.
  - intros [i H]. exists (i, o). by rewrite elem_of_iter_map.
Qed.

Lemma NoDup_objects (m : memory) : mem_sound m → NoDup (objects m).
Proof.
  intros Hm. unfold objects. apply NoDup_fmap_2_strong; [|rewrite iter_map_perm; apply NoDup_map_to_list].
  intros [i o] [j o'] Hi%elem_of_iter_map Hj%elem_of_iter_map E. cbn in E. subst o'.
  apply (sound_id _ Hm) in Hi as [<- _], Hj as [<- _]. done.
Qed.

(** [k] edits turn [a] into [b] and fewer do not. *)
Definition edit_distance (a b : string) (k : nat) : Prop :=
  align (chars a) (chars b) k ∧ ∀ k', align (chars a) (chars b) k' → (k ≤ k')%nat.

Lemma tolower_idemp c : tolower (tolower c) = tolower c.
Proof. by destruct c as [[] [] [] [] [] [] [] []]. Qed.

Lemma lower_idemp l : lower (lower l) = lower l.
Proof. unfold lower. rewrite map_map. apply map_ext, tolower_idemp. Qed.

Lemma edit_distance_lower a b k :
  edit_distance (str_tolower a) (str_tolower b) k ↔ k = levenshteinDistance (str_tolower a) (str_tolower b).
Proof.
  unfold edit_distance. rewrite levenshtein_lower, !chars_tolower, !lower_idemp. split.
  - intros [Ha Hmin]. apply Nat.le_antisymm; [apply Hmin, dist_align|by apply dist_min].
  - intros ->. split; [apply dist_align|intros k'; apply dist_min].
Qed.

Lemma fuzzy_candidate_object name tol (o : obj) c : fuzzy_candidate name tol o = Some c → c.1 = o.
Proof. unfold fuzzy_candidate. destruct (_ <=? _); [by intros [= <-]|done]. Qed.

Lemma NoDup_candidates name tol (l : list obj) : NoDup l → NoDup (omap (fuzzy_candidate name tol) l).
Proof.
  induction 1 as [|o l Ho Hl IH]; [constructor|]. cbn [omap list_omap].
  destruct (fuzzy_candidate name tol o) as [c|] eqn:E; [|done]. constructor; [|done].
  rewrite list_elem_of_omap. intros (o' & Ho' & E').
  apply fuzzy_candidate_object in E, E'. by subst.
Qed.

(** The fuzzy search returns the objects whose identifier is within
    [tolerance] edits of the name, ignoring case, each with its edit distance,
    nearest first, cut to the limit (a negative limit cuts nothing). *)
Theorem fuzzySearch_correct (name : string) (tolerance lim : Z) (m : memory) :
  ∃ all : list (obj * nat),
    mem_fuzzySearch name tolerance lim m = take (Z.to_nat (to_size lim)) all
    ∧ StronglySorted (λ a b, (a.2 ≤ b.2)%nat) all
    ∧ (mem_sound m → NoDup all)
    ∧ ∀ o k, (o, k) ∈ all ↔
        (∃ i, mem_findById i m = Some o)
        ∧ edit_distance (str_tolower (identifier o)) (str_tolower name) k ∧ Z.of_nat k ≤ tolerance.
Proof.
  set (c := omap (fuzzy_candidate name tolerance) (objects m)).
  assert (Hc : ∀ o k, (o, k) ∈ c ↔ o ∈ objects m ∧
    k = levenshteinDistance (str_tolower (identifier o)) (str_tolower name) ∧ Z.of_nat k ≤ tolerance).
  { intros o k. unfold c. rewrite list_elem_of_omap. unfold fuzzy_candidate. split.
    - intros (o' & Ho & H). destruct (Z.leb_spec (Z.of_nat (levenshteinDistance (str_tolower (identifier o'))
        (str_tolower name))) tolerance); [|done]. by simplify_eq.
    - intros (Ho & -> & Hk). exists o. split; [done|]. by rewrite (proj2 (Z.leb_le _ _) Hk). }
  exists (std_sort (λ a b, (a.2 <? b.2)%nat) c). split_and!.
  - unfold mem_fuzzySearch. fold c. destruct (Z.ltb_spec (to_size lim)
      (Z.of_nat (length (std_sort (λ a b, (a.2 <? b.2)%nat) c)))); [done|].
    rewrite take_ge; [done|]. lia.
  - pose proof (std_sort_sorted _ c (strict_weak_key snd)) as Hs. revert Hs.
    generalize (std_sort (λ a b : obj * nat, (a.2 <? b.2)%nat) c). induction 1 as [|a l _ IH Ha]; constructor; [done|].
    eapply Forall_impl; [exact Ha|]. intros b Hb. cbn in *. by apply Nat.ltb_ge in Hb.
  - intros Hm. rewrite std_sort_perm. pose proof (NoDup_objects m Hm) as Hnd.
    by apply NoDup_candidates.
  - intros o k. rewrite std_sort_perm, Hc, elem_of_objects, edit_distance_lower. done.
Qed.

(** The objects a filter accepts, in the order of the hash map. *)
Definition accepted (f : CelestialSearchFilter F) (m : memory) : list obj :=
  List.filter (passes f) (objects m).

Lemma mem_search_page (f : CelestialSearchFilter F) (m : memory) :
  0 ≤ offset f → 0 ≤ limit f → Z.of_nat (length (accepted f m)) ≤ INT_MAX →
  mem_search f m = Some (take (Z.to_nat (limit f)) (drop (Z.to_nat (offset f)) (accepted f m))).
Proof.
  intros Ho Hl Hn. unfold mem_search. fold (accepted f m). unfold INT_MAX in Hn.
  set (n := Z.of_nat (length (accepted f m))) in *.
  assert (Hi : ∀ z, 0 ≤ z ≤ 2147483647 → to_int z = z).
  { intros z Hz. apply to_int_id. unfold in_int, INT_MIN, INT_MAX. rewrite bool_decide_eq_true. lia. }
  rewrite (Hi n) by lia. destruct (Z.leb_spec n (offset f)).
  - rewrite drop_ge by lia. by rewrite take_nil.
  - rewrite to_size_id by (unfold SIZE_MOD; lia). rewrite Hi by lia.
    rewrite (proj2 (Z.ltb_ge (offset f) 0)), (proj2 (Z.ltb_ge (Z.min _ _) 0)) by lia. cbn [orb]. f_equal.
    destruct (Z.min_spec (limit f) (n - offset f)) as [[? ->]|[? ->]]; [done|].
    rewrite !take_ge; [done|rewrite length_drop; lia..].
Qed.

Definition page (f : CelestialSearchFilter F) (lim k : nat) : CelestialSearchFilter F :=
  f <| limit := Z.of_nat lim |> <| offset := Z.of_nat (k * lim) |>.

(** A search with a limit and an offset returns one page of the accepted
    objects, and walking through the pages returns every accepted object once.
    Accepted are the objects of the repository that meet all criteria of the
    filter; a name criterion is only met by an instance of the pattern. *)
Theorem search_correct (f : CelestialSearchFilter F) (m : memory) (lim pages : nat) :
  Z.of_nat (length (accepted f m)) ≤ INT_MAX →
  (length (accepted f m) ≤ pages * lim)%nat →
  (∀ k, mem_search (page f lim k) m = Some (take lim (drop (k * lim) (accepted f m))))
  ∧ concat (map (λ k, default [] (mem_search (page f lim k) m)) (seq 0 pages)) = accepted f m
  ∧ (∀ o, o ∈ accepted f m ↔ (∃ i, mem_findById i m = Some o) ∧ passes f o = true)
  ∧ ∀ o, o ∈ accepted f m → namePattern f ≠ "" →
      let p := chars (str_tolower (namePattern f)) in
      glob p (chars (str_tolower (identifier o))) ∨ glob p (chars (str_tolower (chineseName o))).
Proof.
  intros Hn Hp.
  assert (Hpage : ∀ k, mem_search (page f lim k) m = Some (take lim (drop (k * lim) (accepted f m)))).
  { intros k. rewrite mem_search_page by (try done; cbn; lia).
    unfold page. cbn [limit offset upd eta]. by rewrite !Nat2Z.id. }
  split; [exact Hpage|]. split; [|split].
  - assert (Hall : ∀ p b, concat (map (λ k, default [] (mem_search (page f lim k) m)) (seq b p))
      = take (p * lim) (drop (b * lim) (accepted f m))).
    { induction p as [|p IH]; intros b; [done|]. cbn [seq map concat].
      rewrite IH, Hpage. cbn [default Nat.mul]. replace (lim + b * lim)%nat with (b * lim + lim)%nat by lia.
      rewrite <- (drop_drop _ lim (b * lim)). apply take_take_drop. }
    rewrite Hall, drop_0. by apply take_ge.
  - intros o. unfold accepted. by rewrite list_elem_of_In, filter_In, <- list_elem_of_In, elem_of_objects.
  - intros o Ho Hne. unfold accepted in Ho. rewrite list_elem_of_In, filter_In in Ho. destruct Ho as [_ Ho].
    unfold passes in Ho. rewrite !andb_true_iff in Ho. destruct Ho as [[[[Ho _] _] _] _].
    destruct (namePattern f) eqn:E; [done|]. cbn [str_empty orb] in Ho. unfold name_matches in Ho.
    apply orb_true_iff in Ho. rewrite <- E in Ho |- *.
    destruct Ho; [left|right]; by apply matchesPattern_glob.
Qed.
End searches.

(** ** A concrete repository *)

Section examples.
#[local] Existing Instance floats_Z.
#[local] Instance hash_iter_Z : HashIter Z := canonical_iter.
#[local] Existing Instance insertion_sort.

Definition demo_history : list (mem_op Z) :=
  [MCall (Insert (object_named 0 "M31" "Galaxy"));
   MCall (BatchInsert [object_named 0 "M42" "Nebula"; object_named 0 "M31" "Galaxy"]);
   MCall (Update (object_named 1 "NGC224" "Galaxy"));
   MCall (Upsert [object_named 0 "M31" "Copy"; object_named 2 "M42" "Cluster"])].

Definition demo_memory : MemoryRepository Z := mem_run demo_history.

Example demo_fuzzy :
  map (λ r, (identifier r.1, r.2)) (mem_fuzzySearch "m32" 1 10 demo_memory) = [("M42", 1%nat); ("M31", 1%nat)].
Proof. vm_compute. reflexivity. Qed.

Lemma memory_repository_invariant_witness :
  names_free_run MemoryRepository_new demo_history
  ∧ mem_findByIdentifier "NGC224" demo_memory = mem_findById 1 demo_memory
  ∧ mem_findByIdentifier "M31" demo_memory = mem_findById 3 demo_memory
  ∧ ∀ i o, mem_findById i demo_memory = Some o →
      mem_findByIdentifier (identifier o) demo_memory = Some o.
Proof.
  assert (H : names_free_run MemoryRepository_new demo_history).
  { split_and!; cbn [names_free]; auto; cbn; split_and!; auto; vm_compute; auto. }
  split; [exact H|]. split; [reflexivity|]. split; [reflexivity|].
  exact (proj1 (proj2 (proj2 (memory_repository_invariant demo_history)) H)).
Defined.

Lemma search_correct_witness :
  let f := mkFilter "M*" "" "" "" (-30) 30 0 360 (-90) 90 0 0 "" true in
  Z.of_nat (length (accepted f demo_memory)) ≤ INT_MAX
  ∧ concat (map (λ k, default [] (mem_search (page f 1 k) demo_memory)) (seq 0 2)) = accepted f demo_memory
  ∧ length (accepted f demo_memory) = 2%nat.
Proof.
  intros f. assert (Hn : Z.of_nat (length (accepted f demo_memory)) ≤ INT_MAX) by (vm_compute; discriminate).
  split; [exact Hn|]. split; [|reflexivity].
  refine (proj1 (proj2 (search_correct f demo_memory 1 2 Hn _))). vm_compute. lia.
Defined.

(** Renaming an object to an identifier in use, then removing the other object
    with that identifier, leaves the first one unreachable by name. *)
Example rename_collision :
  let m := mem_run [MCall (Insert (object_named 0 "A" "")); MCall (Insert (object_named 0 "B" ""));
                    MCall (Update (object_named 1 "B" "")); MCall (Remove 2)] in
  identifier <$> mem_findById 1 m = Some "B" ∧ mem_findByIdentifier "B" m = None.
Proof. split; reflexivity. Qed.

(** So does an upsert of a new object under an identifier in use: both objects
    are stored, and only the second is found by name. *)
Example upsert_collision :
  let m := mem_run [MCall (Insert (object_named 0 "A" "")); MCall (Upsert [object_named 0 "A" ""])] in
  map (λ i, identifier <$> mem_findById i m) [1; 2] = [Some "A"; Some "A"]
  ∧ id <$> mem_findByIdentifier "A" m = Some 2.
Proof. split; reflexivity. Qed.

(** A limit of zero still returns one object. *)
Example limit_zero : length (mem_searchByName "*" 0 demo_memory) = 1%nat.
Proof. reflexivity. Qed.
End examples.
