(* ===== verification/CachedRepository.v ===== *)
(** * CachedRepository: a repository behind two caches

    Models class CachedRepository of
    src/src/target/repository/cached_repository.hpp and cached_repository.cpp.
    The repository inside is any instance of the interface of Repository.v; the
    caches (atom::search::ThreadSafeLRUCache, a library outside this repository)
    are any instance of [LruCache], whose laws are those of a cache: it never
    holds anything but the last value put under a key, and may drop entries.
    Calls are taken one after the other: two calls of a CachedRepository may
    interleave between the call of the inner repository and the cache. *)

From S2P Require Import Prelude Repository MemoryRepository.

Local Open Scope Z_scope.

(** ** The cache library *)

(** [lru_elapse] is the passing of time, which expires entries with a lifetime;
    [lru_resize] is [None] where it throws; [lru_contents] is what the cache
    holds, for the laws. *)
Class LruCache (K V C : Type) `{Countable K} := {
  lru_new : Z → C;
  lru_get : K → C → C * option V;
  lru_put : K → V → option Z → C → C;
  lru_erase : K → C → C;
  lru_clear : C → C;
  lru_resize : Z → C → option C;
  lru_size : C → Z;
  lru_elapse : Z → C → C;
  lru_contents : C → gmap K V;
  lru_new_law n : lru_contents (lru_new n) = ∅;
  lru_get_law k c : lru_contents (lru_get k c).1 ⊆ lru_contents c;
  lru_hit_law k c v : (lru_get k c).2 = Some v → lru_contents c !! k = Some v;
  lru_put_law k v ttl c : lru_contents (lru_put k v ttl c) ⊆ <[k := v]> (lru_contents c);
  lru_erase_law k c : lru_contents (lru_erase k c) ⊆ delete k (lru_contents c);
  lru_clear_law c : lru_contents (lru_clear c) = ∅;
  lru_resize_law n c c' : lru_resize n c = Some c' → lru_contents c' ⊆ lru_contents c;
  lru_elapse_law dt c : lru_contents (lru_elapse dt c) ⊆ lru_contents c
}.

Section cached.
Context {F : Type}.
Abbreviation obj := (CelestialObjectModel F).
Context {R CI CN : Type} `{IR : !Repository (F := F) R}.
Context `{LI : !LruCache Z obj CI, LN : !LruCache string obj CN}.

(** ** State *)

Record CachedRepository := mkCached {
  inner : R;
  idCache : CI;
  identifierCache : CN;
  cacheTTL : option Z;
  cacheHits : Z;
  cacheMisses : Z
}.

#[global] Instance CachedRepository_eta : Eta CachedRepository := λ c,
  mkCached (inner c) (idCache c) (identifierCache c) (cacheTTL c) (cacheHits c) (cacheMisses c).

Definition CachedRepository_new (r : R) (cacheSize : Z) : CachedRepository :=
  mkCached r (lru_new cacheSize) (lru_new cacheSize) None 0 0.

Definition updateCacheEntry (o : obj) (c : CachedRepository) : CachedRepository :=
  c <| idCache ::= lru_put (id o) o (cacheTTL c) |>
    <| identifierCache ::= lru_put (identifier o) o (cacheTTL c) |>.

Definition removeFromCache (i : Z) (n : string) (c : CachedRepository) : CachedRepository :=
  c <| idCache ::= lru_erase i |> <| identifierCache ::= lru_erase n |>.

Definition clearCache (c : CachedRepository) : CachedRepository :=
  c <| idCache ::= lru_clear |> <| identifierCache ::= lru_clear |>.

Definition hit (c : CachedRepository) : CachedRepository := c <| cacheHits ::= λ n, to_size (n + 1) |>.
Definition miss (c : CachedRepository) : CachedRepository := c <| cacheMisses ::= λ n, to_size (n + 1) |>.

(** ** Single objects *)

Definition cached_insert (o : obj) (c : CachedRepository) : CachedRepository * result string Z :=
  let '(r, res) := insert o (inner c) in
  let c := c <| inner := r |> in
  match res with
  | Ok i => (updateCacheEntry (o <| id := i |>) c, res)
  | Throw _ => (c, res)
  end.

Definition cached_update (o : obj) (c : CachedRepository) : CachedRepository * result string unit :=
  let '(r, res) := update o (inner c) in
  let c := c <| inner := r |> in
  match res with
  | Ok _ => (updateCacheEntry o c, res)
  | Throw _ => (removeFromCache (id o) (identifier o) c, res)
  end.

Definition cached_remove (i : Z) (c : CachedRepository) : CachedRepository * bool :=
  let '(r, res) := remove i (inner c) in
  let c := c <| inner := r |> in
  if res then
    let '(ci, cached) := lru_get i (idCache c) in
    let c := c <| idCache := ci |> in
    match cached with
    | Some o => (removeFromCache i (identifier o) c, res)
    | None => (c <| idCache ::= lru_erase i |>, res)
    end
  else (c, res).

Definition cached_findById (i : Z) (c : CachedRepository) : CachedRepository * option obj :=
  let '(ci, cached) := lru_get i (idCache c) in
  let c := c <| idCache := ci |> in
  match cached with
  | Some _ => (hit c, cached)
  | None =>
      let c := miss c in
      let '(r, res) := findById i (inner c) in
      let c := c <| inner := r |> in
      match res with
      | Some o => (updateCacheEntry o c, res)
      | None => (c, res)
      end
  end.

Definition cached_findByIdentifier (n : string) (c : CachedRepository) : CachedRepository * option obj :=
  let '(cn, cached) := lru_get n (identifierCache c) in
  let c := c <| identifierCache := cn |> in
  match cached with
  | Some _ => (hit c, cached)
  | None =>
      let c := miss c in
      let '(r, res) := findByIdentifier n (inner c) in
      let c := c <| inner := r |> in
      match res with
      | Some o => (updateCacheEntry o c, res)
      | None => (c, res)
      end
  end.

(** ** Batches *)

Definition cached_batchInsert (os : list obj) (c : CachedRepository) : CachedRepository * Z :=
  let '(r, n) := batchInsert os (inner c) in
  (clearCache (c <| inner := r |>), n).

Definition update_entries (os : list obj) (c : CachedRepository) : CachedRepository :=
  foldl (λ c o, updateCacheEntry o c) c os.

Definition cached_batchUpdate (os : list obj) (c : CachedRepository) : CachedRepository * Z :=
  let '(r, n) := batchUpdate os (inner c) in
  (update_entries os (c <| inner := r |>), n).

Definition cached_upsert (os : list obj) (c : CachedRepository) : CachedRepository * Z :=
  let '(r, n) := upsert os (inner c) in
  (update_entries os (c <| inner := r |>), n).

(** ** Searches and statistics go to the inner repository *)

Definition forward {A} (f : R → R * A) (c : CachedRepository) : CachedRepository * A :=
  let '(r, a) := f (inner c) in (c <| inner := r |>, a).

#[global] Instance CachedRepository_repository : Repository (F := F) CachedRepository := {
  insert := cached_insert;
  update := cached_update;
  remove := cached_remove;
  findById := cached_findById;
  findByIdentifier := cached_findByIdentifier;
  batchInsert := cached_batchInsert;
  batchUpdate := cached_batchUpdate;
  upsert := cached_upsert;
  searchByName p l c := forward (searchByName p l) (miss c);
  fuzzySearch n t l c := forward (fuzzySearch n t l) (miss c);
  search f c := forward (search f) (miss c);
  autocomplete p l c := forward (autocomplete p l) (miss c);
  searchByCoordinates ra dec r l c := forward (searchByCoordinates ra dec r l) (miss c);
  getByType ty l c := forward (getByType ty l) (miss c);
  getByMagnitudeRange lo hi l c := forward (getByMagnitudeRange lo hi l) (miss c);
  count c := forward count c;
  countByType c := forward countByType c
}.

(** ** Managing the caches *)

Definition invalidateById (i : Z) (c : CachedRepository) : CachedRepository := c <| idCache ::= lru_erase i |>.
Definition invalidateByIdentifier (n : string) (c : CachedRepository) : CachedRepository :=
  c <| identifierCache ::= lru_erase n |>.

(** hitCount, missCount, currentSize and maxSize; the rate is their quotient. *)
Definition getCacheStats (c : CachedRepository) : Z * Z * Z * Z :=
  (cacheHits c, cacheMisses c, lru_size (idCache c), 0).

(** The catch block keeps what was resized before the exception. *)
Definition resizeCache (newSize : Z) (c : CachedRepository) : CachedRepository :=
  match lru_resize newSize (idCache c) with
  | None => c
  | Some ci =>
      let c := c <| idCache := ci |> in
      match lru_resize newSize (identifierCache c) with
      | None => c
      | Some cn => c <| identifierCache := cn |>
      end
  end.

Definition setCacheTTL (ttl : option Z) (c : CachedRepository) : CachedRepository := c <| cacheTTL := ttl |>.

(** What happens to a cached repository: calls of the interface, calls of its
    own methods, and time passing. *)
Inductive cached_event :=
| Call (op : repo_op F)
| InvalidateById (i : Z)
| InvalidateByIdentifier (n : string)
| ClearCache
| ResizeCache (n : Z)
| SetCacheTTL (ttl : option Z)
| Elapse (dt : Z).

Definition cached_step (e : cached_event) (c : CachedRepository) : CachedRepository * list (answer F) :=
  match e with
  | Call op => let '(c, a) := repo_call op c in (c, [a])
  | InvalidateById i => (invalidateById i c, [])
  | InvalidateByIdentifier n => (invalidateByIdentifier n c, [])
  | ClearCache => (clearCache c, [])
  | ResizeCache n => (resizeCache n c, [])
  | SetCacheTTL ttl => (setCacheTTL ttl c, [])
  | Elapse dt => (c <| idCache ::= lru_elapse dt |> <| identifierCache ::= lru_elapse dt |>, [])
  end.

(** The same event without the caches. *)
Definition plain_step (e : cached_event) (r : R) : R * list (answer F) :=
  match e with
  | Call op => let '(r, a) := repo_call op r in (r, [a])
  | _ => (r, [])
  end.

Fixpoint run {X} (step : cached_event → X → X * list (answer F)) (es : list cached_event) (x : X) :
    X * list (list (answer F)) :=
  match es with
  | [] => (x, [])
  | e :: es' =>
      let '(x, a) := step e x in
      let '(x, l) := run step es' x in (x, a :: l)
  end.
End cached.

Arguments CachedRepository : clear implicits.
Arguments cached_event F : clear implicits.

(** ** Transparency *)

Section transparency.
Context {F : Type}.
Abbreviation obj := (CelestialObjectModel F).
Context {R CI CN : Type} `{LR : RepositoryLaws F R}.
Context `{LI : !LruCache Z obj CI, LN : !LruCache string obj CN}.
Abbreviation cached := (CachedRepository R CI CN).

(** The id cache holds objects of the inner repository only; the identifier
    cache holds objects under their identifier. *)
Record coherent (c : cached) : Prop := {
  coh_ok : repo_ok (inner c);
  coh_id : lru_contents (idCache c) ⊆ repo_view (inner c);
  coh_name : ∀ n o, lru_contents (identifierCache c) !! n = Some o → identifier o = n
}.

Lemma put_name n o ttl (cn : CN) :
  (∀ n' o', lru_contents cn !! n' = Some o' → identifier o' = n') → identifier o = n →
  ∀ n' o', lru_contents (lru_put n o ttl cn) !! n' = Some o' → identifier o' = n'.
Proof.
  intros Hcn Ho n' o' Ho'. eapply lookup_weaken in Ho'; [|apply lru_put_law].
  apply lookup_insert_Some in Ho' as [[<- <-]|[_ Ho']]; eauto.
Qed.

Lemma shrink_name (cn cn' : CN) :
  lru_contents cn' ⊆ lru_contents cn →
  (∀ n o, lru_contents cn !! n = Some o → identifier o = n) →
  ∀ n o, lru_contents cn' !! n = Some o → identifier o = n.
Proof. intros Hsub Hcn n o Hno. eapply Hcn, lookup_weaken; done. Qed.

(** One write: the inner repository and the id cache store the same object. *)
Lemma update_entry_coherent o (c : cached) v :
  repo_ok (inner c) → repo_view (inner c) = <[id o := o]> v → lru_contents (idCache c) ⊆ v →
  (∀ n o', lru_contents (identifierCache c) !! n = Some o' → identifier o' = n) →
  coherent (updateCacheEntry o c).
Proof.
  intros Hok Hv Hid Hname. split; cbn; [done| |by apply put_name].
  rewrite Hv. etrans; [apply lru_put_law|]. by apply insert_mono.
Qed.

Lemma entry_known_coherent o (c : cached) :
  coherent c → repo_view (inner c) !! id o = Some o → coherent (updateCacheEntry o c).
Proof.
  intros [Hok Hid Hname] Ho. eapply (update_entry_coherent _ _ (repo_view (inner c))); try done.
  by rewrite insert_id.
Qed.

Lemma shrink_coherent (c c' : cached) :
  coherent c → inner c' = inner c → lru_contents (idCache c') ⊆ lru_contents (idCache c) →
  lru_contents (identifierCache c') ⊆ lru_contents (identifierCache c) → coherent c'.
Proof.
  intros [Hok Hid Hname] Hi Hc Hn. split; rewrite ?Hi; [done|by etrans|]. by eapply shrink_name.
Qed.

Lemma write_all_mono (os : list obj) v w : v ⊆ w → write_all os v ⊆ write_all os w.
Proof.
  revert v w. induction os as [|o os IH]; intros v w Hvw; [done|]. cbn. apply IH. by apply insert_mono.
Qed.

Lemma update_entries_contents os (c : cached) :
  inner (update_entries os c) = inner c
  ∧ lru_contents (idCache (update_entries os c)) ⊆ write_all os (lru_contents (idCache c))
  ∧ ((∀ n o, lru_contents (identifierCache c) !! n = Some o → identifier o = n) →
     ∀ n o, lru_contents (identifierCache (update_entries os c)) !! n = Some o → identifier o = n).
Proof.
  revert c. induction os as [|o os IH]; intros c; [done|]. cbn [update_entries foldl].
  fold (update_entries os (updateCacheEntry o c)). destruct (IH (updateCacheEntry o c)) as (-> & Hid & Hname).
  split_and!; [done| |intros Hc; by apply Hname, put_name].
  etrans; [exact Hid|]. cbn. apply write_all_mono, lru_put_law.
Qed.

(** A batch whose writes the inner repository made in order. *)
Lemma update_entries_coherent os (c : cached) v :
  repo_ok (inner c) → repo_view (inner c) = write_all os v → lru_contents (idCache c) ⊆ v →
  (∀ n o, lru_contents (identifierCache c) !! n = Some o → identifier o = n) →
  coherent (update_entries os c).
Proof.
  intros Hok Hv Hid Hname. destruct (update_entries_contents os c) as (Hi & Hc & Hn).
  split; rewrite ?Hi; [done| |by apply Hn]. rewrite Hv. etrans; [exact Hc|]. by apply write_all_mono.
Qed.

(** Batches that write must know the ids of their objects: the cached
    repository stores every object of such a batch, written or not. *)
Definition known_batch (e : cached_event F) (r : R) : Prop :=
  match e with
  | Call (BatchUpdate os) => Forall (λ o, is_Some (repo_view r !! id o)) os
  | Call (Upsert os) => Forall (λ o, id o ≠ 0 ∧ is_Some (repo_view r !! id o)) os
  | _ => True
  end.

Fixpoint known_batches (es : list (cached_event F)) (r : R) : Prop :=
  match es with [] => True | e :: es' => known_batch e r ∧ known_batches es' (plain_step e r).1 end.

(** How the answers of one event relate: equal, except that a search by
    identifier may find an object that has it no longer. *)
Definition answers_agree (e : cached_event F) (a a' : list (answer F)) : Prop :=
  match e with
  | Call (FindByIdentifier n) => ∀ o, a = [AObject (Some o)] → identifier o = n
  | _ => a = a'
  end.

Definition simulates (e : cached_event F) (c : cached) : Prop :=
  let '(c', a) := cached_step e c in
  let '(r', a') := plain_step e (inner c) in
  inner c' = r' ∧ coherent c' ∧ answers_agree e a a'.

Lemma insert_simulates o c : coherent c → simulates (Call (Insert o)) c.
Proof.
  intros [Hok Hid Hname]. pose proof (law_ok (Insert o) _ Hok) as Hok'. pose proof (law_insert o (inner c)) as Hv.
  unfold simulates. cbn in *. unfold cached_insert. destruct (insert o (inner c)) as [r [i|e]]; cbn in *.
  - split_and!; [done| |done]. by eapply (update_entry_coherent (o <| id := i |>)).
  - split_and!; [done| |done]. split; cbn; [done|by rewrite Hv|done].
Qed.

Lemma update_simulates o c : coherent c → simulates (Call (Update o)) c.
Proof.
  intros [Hok Hid Hname]. pose proof (law_ok (Update o) _ Hok) as Hok'. pose proof (law_update o (inner c)) as Hv.
  unfold simulates. cbn in *. unfold cached_update. destruct (update o (inner c)) as [r [[]|e]]; cbn in *.
  - split_and!; [done| |done]. by eapply (update_entry_coherent o).
  - split_and!; [done| |done]. split; cbn; [done| |].
    + rewrite Hv. etrans; [apply lru_erase_law|]. etrans; [apply delete_subseteq|done].
    + eapply shrink_name; [|exact Hname]. etrans; [apply lru_erase_law|apply delete_subseteq].
Qed.

Lemma remove_simulates i c : coherent c → simulates (Call (Remove i)) c.
Proof.
  intros [Hok Hid Hname]. pose proof (law_ok (Remove i) _ Hok) as Hok'. pose proof (law_remove i (inner c)) as Hv.
  pose proof (lru_get_law i (idCache c)) as Hget.
  unfold simulates. cbn in *. unfold cached_remove. destruct (remove i (inner c)) as [r []]; cbn in *.
  - destruct (lru_get i (idCache c)) as [ci [o|]]; cbn in *; (split_and!; [done| |done]); split; cbn; try done.
    + rewrite Hv. etrans; [apply lru_erase_law|]. apply delete_mono. by etrans.
    + eapply shrink_name; [|exact Hname]. etrans; [apply lru_erase_law|apply delete_subseteq].
    + rewrite Hv. etrans; [apply lru_erase_law|]. apply delete_mono. by etrans.
  - split_and!; [done| |done]. split; cbn; [done|by rewrite Hv|done].
Qed.

Lemma findById_simulates i c : coherent c → simulates (Call (FindById i)) c.
Proof.
  intros Hc. pose proof Hc as [Hok Hid Hname].
  pose proof (law_read (FindById i) (inner c) eq_refl) as Hr. pose proof (law_findById i (inner c)) as Hf.
  pose proof (lru_get_law i (idCache c)) as Hget. pose proof (lru_hit_law i (idCache c)) as Hhit.
  unfold simulates. cbn in *. unfold cached_findById.
  destruct (lru_get i (idCache c)) as [ci [o|]]; cbn in *;
    destruct (findById i (inner c)) as [r res]; cbn in *; subst r res.
  - split_and!; [done|by eapply shrink_coherent; [exact Hc|..]|]. do 2 f_equal.
    symmetry. eapply lookup_weaken; [by apply Hhit|done].
  - destruct (repo_view (inner c) !! i) as [o|] eqn:Ho; cbn.
    + split_and!; [done| |done]. apply entry_known_coherent; [by eapply shrink_coherent; [exact Hc|..]|].
      cbn. by rewrite (law_id _ _ _ Hok Ho).
    + split_and!; [done| |done]. by eapply shrink_coherent; [exact Hc|..].
Qed.

Lemma findByIdentifier_simulates n c : coherent c → simulates (Call (FindByIdentifier n)) c.
Proof.
  intros Hc. pose proof Hc as [Hok Hid Hname].
  pose proof (law_read (FindByIdentifier n) (inner c) eq_refl) as Hr.
  pose proof (λ o, law_findByIdentifier n (inner c) o Hok) as Hf.
  pose proof (lru_get_law n (identifierCache c)) as Hget.
  pose proof (lru_hit_law n (identifierCache c)) as Hhit.
  unfold simulates. cbn in *. unfold cached_findByIdentifier.
  destruct (lru_get n (identifierCache c)) as [cn [o|]]; cbn in *;
    destruct (findByIdentifier n (inner c)) as [r res]; cbn in *; subst r.
  - split_and!; [done|by eapply shrink_coherent; [exact Hc|..]|]. intros o' [= ->]. by apply Hname, Hhit.
  - destruct res as [o|]; cbn.
    + destruct (Hf o eq_refl). split_and!; [done| |by intros o' [= <-]].
      apply entry_known_coherent; [by eapply shrink_coherent; [exact Hc|..]|done].
    + split_and!; [done| |done]. by eapply shrink_coherent; [exact Hc|..].
Qed.

Lemma batches_simulate e c : coherent c → known_batch e (inner c) →
  match e with Call (BatchInsert _ | BatchUpdate _ | Upsert _) => simulates e c | _ => True end.
Proof.
  intros [Hok Hid Hname] Hk. destruct e as [op| | | | | |]; try done. pose proof (law_ok op _ Hok) as Hok'.
  destruct op as [| | | | |os|os|os| | | | | | | | |]; try done; unfold simulates; cbn in *.
  - unfold cached_batchInsert. destruct (batchInsert os (inner c)) as [r n]; cbn in *.
    split_and!; [done| |done].
    split; cbn; [done|rewrite lru_clear_law; apply map_empty_subseteq|]. intros n' o. by rewrite lru_clear_law.
  - pose proof (law_batchUpdate os (inner c) Hk) as Hv. unfold cached_batchUpdate.
    destruct (batchUpdate os (inner c)) as [r n]; cbn in *.
    split_and!; [by rewrite (proj1 (update_entries_contents os _))| |done].
    by eapply update_entries_coherent.
  - pose proof (law_upsert os (inner c) Hk) as Hv. unfold cached_upsert.
    destruct (upsert os (inner c)) as [r n]; cbn in *.
    split_and!; [by rewrite (proj1 (update_entries_contents os _))| |done].
    by eapply update_entries_coherent.
Qed.

(** The searches only pass through. *)
Lemma forward_simulates op c :
  coherent c → reads op = true → (∀ i, op ≠ FindById i) → (∀ n, op ≠ FindByIdentifier n) → simulates (Call op) c.
Proof.
  intros Hc Hop Hi Hn. pose proof (law_read op (inner c) Hop) as Hr. unfold simulates.
  destruct op; try done; try (by destruct (Hi i)); try (by destruct (Hn n)); cbn in *;
    unfold forward; cbn; match goal with |- context [let '(_, _) := ?f in _] => destruct f end; cbn in *; subst;
    (split_and!; [done|by eapply shrink_coherent; [exact Hc|..]|done]).
Qed.

Lemma step_simulates e c : coherent c → known_batch e (inner c) → simulates e c.
Proof.
  intros Hc Hk. pose proof (batches_simulate e c Hc Hk) as Hb.
  destruct e as [op|i|n| |n|ttl|dt].
  - destruct op; auto using insert_simulates, update_simulates, remove_simulates, findById_simulates,
      findByIdentifier_simulates; by apply forward_simulates.
  - unfold simulates; cbn. split_and!; try done. eapply shrink_coherent; [exact Hc|done| |done]. cbn.
    etrans; [apply lru_erase_law|apply delete_subseteq].
  - unfold simulates; cbn. split_and!; try done. eapply shrink_coherent; [exact Hc|done|done|]. cbn.
    etrans; [apply lru_erase_law|apply delete_subseteq].
  - unfold simulates; cbn. split_and!; try done.
    eapply shrink_coherent; [exact Hc|done|..]; cbn; rewrite lru_clear_law; apply map_empty_subseteq.
  - unfold simulates; cbn. unfold resizeCache. destruct (lru_resize n (idCache c)) as [ci|] eqn:E; [|done].
    apply lru_resize_law in E. destruct (lru_resize n (identifierCache _)) as [cn|] eqn:E'; cbn in *.
    + apply lru_resize_law in E'. split_and!; try done. by eapply shrink_coherent; [exact Hc|..].
    + split_and!; try done. by eapply shrink_coherent; [exact Hc|..].
  - unfold simulates; cbn. split_and!; try done. by eapply shrink_coherent; [exact Hc|..].
  - unfold simulates; cbn. split_and!; try done. eapply shrink_coherent; [exact Hc|done|..]; apply lru_elapse_law.
Qed.

Lemma new_coherent r n : repo_ok r → coherent (CachedRepository_new r n).
Proof.
  intros Hr. split; cbn; [done|rewrite lru_new_law; apply map_empty_subseteq|].
  intros n' o. by rewrite lru_new_law.
Qed.

Lemma run_simulates es c :
  coherent c → known_batches es (inner c) →
  let '(c', l) := run cached_step es c in
  let '(r', l') := run plain_step es (inner c) in
  inner c' = r' ∧ coherent c' ∧ length l = length es ∧ length l' = length es
  ∧ ∀ k e a a', es !! k = Some e → l !! k = Some a → l' !! k = Some a' → answers_agree e a a'.
Proof.
  revert c. induction es as [|e es IH]; intros c Hc Hk; [done|]. destruct Hk as [Hk Hks].
  pose proof (step_simulates e c Hc Hk) as Hs. unfold simulates in Hs. cbn [run].
  destruct (cached_step e c) as [c1 a], (plain_step e (inner c)) as [r1 a']. destruct Hs as (<- & Hc1 & Ha).
  specialize (IH c1 Hc1 Hks). destruct (run cached_step es c1) as [c2 l], (run plain_step es (inner c1)) as [r2 l'].
  destruct IH as (Hi & Hc2 & Hl & Hl' & IH). cbn. split_and!; [done..|by rewrite Hl|by rewrite Hl'|].
  intros [|k] e' b b'; cbn; [by intros [= <-] [= <-] [= <-]|apply IH].
Qed.

(** [C20] The caches do not show.  Whatever is done to a cached repository, as
    long as batches of updates and upserts know the ids of their objects, the
    repository inside is in the state it would have without the caches, and
    every call is answered as it would be without them, except that a search by
    identifier may be answered with an older object that had the identifier.
    The id cache never holds anything but what the repository stores. *)
Theorem cached_repository_transparent (r : R) (cacheSize : Z) (es : list (cached_event F)) :
  repo_ok r → known_batches es r →
  let '(c, l) := run cached_step es (CachedRepository_new r cacheSize) in
  let '(r', l') := run plain_step es r in
  inner c = r'
  ∧ (∀ i o, lru_contents (idCache c) !! i = Some o → (findById i r').2 = Some o)
  ∧ (∀ k e, es !! k = Some e → (∀ n, e ≠ Call (FindByIdentifier n)) → l !! k = l' !! k)
  ∧ (∀ k n o, es !! k = Some (Call (FindByIdentifier n)) → l !! k = Some [AObject (Some o)] → identifier o = n).
Proof.
  intros Hr Hk. pose proof (run_simulates es _ (new_coherent r cacheSize Hr) Hk) as Hrun. cbn in Hrun.
  destruct (run cached_step _ _) as [c l], (run plain_step _ _) as [r' l'].
  destruct Hrun as (Hi & Hc & Hl & Hl' & Ha). split_and!; [done| | |].
  - intros i o Ho. rewrite law_findById, <- Hi. eapply lookup_weaken; [exact Ho|apply Hc].
  - intros k e He Hn. pose proof (lookup_lt_Some _ _ _ He) as Hlt.
    destruct (lookup_lt_is_Some_2 l k) as [a Hka]; [lia|].
    destruct (lookup_lt_is_Some_2 l' k) as [a' Hka']; [lia|].
    specialize (Ha _ _ _ _ He Hka Hka'). rewrite Hka, Hka'. f_equal.
    destruct e as [[]| | | | | |]; try done. by destruct (Hn n).
  - intros k n o He Hka. pose proof (lookup_lt_Some _ _ _ He) as Hlt.
    destruct (lookup_lt_is_Some_2 l' k) as [a' Hka']; [lia|].
    by apply (Ha _ _ _ _ He Hka Hka').
Qed.
End transparency.

(** ** A concrete cached repository *)

(** A cache that never drops anything by itself. *)
Program Definition map_cache (K V : Type) `{Countable K} : LruCache K V (gmap K V) := {|
  lru_new _ := ∅;
  lru_get k c := (c, c !! k);
  lru_put k v _ c := <[k := v]> c;
  lru_erase k c := delete k c;
  lru_clear _ := ∅;
  lru_resize n c := if 0 <? n then Some c else None;
  lru_size c := Z.of_nat (size c);
  lru_elapse _ c := c;
  lru_contents c := c
|}.
Solve Obligations with (intros; cbn in *; repeat case_match; simplify_eq; done).

Section examples.
#[local] Existing Instance floats_Z.
#[local] Instance hash_iter_Z : HashIter Z := canonical_iter.
#[local] Existing Instance insertion_sort.
#[local] Existing Instance map_cache.

Abbreviation demo_cached := (CachedRepository (MemoryRepository Z) (gmap Z (CelestialObjectModel Z))
  (gmap string (CelestialObjectModel Z))).

Definition demo_events : list (cached_event Z) :=
  [Call (Insert (object_named 0 "M31" "Galaxy")); Call (FindById 1); Call (FindById 2);
   Call (Update (object_named 1 "NGC224" "Galaxy")); Call (FindById 1); Call (FindByIdentifier "M31");
   Call (BatchUpdate [object_named 1 "M31" "Spiral"]); ResizeCache 0; InvalidateById 1;
   Call (FindById 1); Call (Remove 1); Call (FindById 1); Call Count].

Lemma cached_repository_transparent_witness :
  let m := MemoryRepository_new (F := Z) in
  known_batches demo_events m
  ∧ inner (run cached_step demo_events (CachedRepository_new m 1000 : demo_cached)).1
    = (run plain_step demo_events m).1.
Proof.
  intros m. assert (Hk : known_batches demo_events m).
  { vm_compute. repeat split. repeat constructor. by eexists. }
  split; [exact Hk|].
  pose proof (cached_repository_transparent (CI := gmap Z (CelestialObjectModel Z))
    (CN := gmap string (CelestialObjectModel Z)) m 1000 demo_events mem_new_sound Hk) as Ht.
  destruct (run cached_step _ _), (run plain_step _ _). exact (proj1 Ht).
Defined.

Definition demo_answers (es : list (cached_event Z)) : list (list (answer Z)) * list (list (answer Z)) :=
  let m := MemoryRepository_new (F := Z) in
  ((run cached_step es (CachedRepository_new m 1000 : demo_cached)).2, (run plain_step es m).2).

(** update stores the object under its new identifier and leaves the entry of
    the old one, which the repository no longer knows. *)
Example renamed_object_stays_cached :
  let '(l, l') := demo_answers [Call (Insert (object_named 0 "M31" "")); Call (Update (object_named 1 "NGC224" ""));
                                Call (FindByIdentifier "M31")] in
  l !! 2%nat = Some [AObject (Some (object_named 1 "M31" ""))] ∧ l' !! 2%nat = Some [AObject None].
Proof. split; reflexivity. Qed.

(** remove forgets the identifier only when the id is cached. *)
Example removed_object_stays_cached :
  let '(l, l') := demo_answers [Call (Insert (object_named 0 "M31" "")); InvalidateById 1; Call (Remove 1);
                                Call (FindByIdentifier "M31")] in
  l !! 3%nat = Some [AObject (Some (object_named 1 "M31" ""))] ∧ l' !! 3%nat = Some [AObject None].
Proof. split; reflexivity. Qed.

(** An upsert of a new object caches it under the id it came with, 0, and a
    batch update caches objects the repository rejected. *)
Example upserted_object_cached_without_id :
  let '(l, l') := demo_answers [Call (Upsert [object_named 0 "M31" ""]); Call (FindById 0);
                                Call (BatchUpdate [object_named 7 "M42" ""]); Call (FindById 7)] in
  l !! 1%nat = Some [AObject (Some (object_named 0 "M31" ""))] ∧ l' !! 1%nat = Some [AObject None]
  ∧ l !! 3%nat = Some [AObject (Some (object_named 7 "M42" ""))] ∧ l' !! 3%nat = Some [AObject None].
Proof. split_and!; reflexivity. Qed.
End examples.
