(* ===== verification/JsonTree.v ===== *)
(** * JsonTree: JSON documents as trees

    The part of nlohmann::json used by code that walks through documents:
    what kind of value a document is and what it contains, building a value,
    the conversions with a default, [dump] and [parse].  The library is
    third-party code, so [JsonTree] is an interface; its laws are those of
    the data model the library documents: a value is one of seven kinds, an
    object is a map from strings iterated in the order of its keys, and values
    are finite.  [jtree] is an instance for examples. *)

From S2P Require Import Prelude JsonCodec.

Local Open Scope Z_scope.

(** [J] the documents, [F] the floating-point numbers. *)
Inductive jshape (J F : Type) :=
| ShNull
| ShBool (b : bool)
| ShInt (z : Z)
| ShFloat (f : F)
| ShString (s : string)
| ShArray (l : list J)
| ShObject (fields : list (string * J)).
Arguments ShNull {J F}.
Arguments ShBool {J F}.
Arguments ShInt {J F}.
Arguments ShFloat {J F}.
Arguments ShString {J F}.
Arguments ShArray {J F}.
Arguments ShObject {J F}.

Definition key_before {J} (a b : string * J) : Prop := str_ltb a.1 b.1 = true.
Definition keys_sorted {J} (kvs : list (string * J)) : Prop := StronglySorted key_before kvs.

(** The values directly inside. *)
Definition children {J F} (s : jshape J F) : list J :=
  match s with ShArray l => l | ShObject kvs => kvs.*2 | _ => [] end.

Class JsonTree (J F : Type) := {
  jt_shape : J → jshape J F;
  jt_make : jshape J F → J;
  jt_depth : J → nat;
  jt_get_int : J → option Z;                      (* get<int>(); None is type_error *)
  jt_get_float : J → option F;                    (* get<double>() *)
  jt_dump : J → result string string;             (* dump(); Throw what for invalid UTF-8 *)
  jt_dump_indent : Z → J → result string string;  (* dump(n) *)
  jt_parse : string → result string J;            (* parse(s); Throw what of the parse error *)
  jt_what : Z → J → string;                       (* what() of exception number n about a value *)
  jt_shape_make s : match s with ShObject kvs => keys_sorted kvs | _ => True end → jt_shape (jt_make s) = s;
  jt_sorted j kvs : jt_shape j = ShObject kvs → keys_sorted kvs;
  jt_depth_child j c : c ∈ children (jt_shape j) → (jt_depth c < jt_depth j)%nat;
  jt_get_int_law j z : jt_shape j = ShInt z → INT_MIN ≤ z ≤ INT_MAX → jt_get_int j = Some z
}.

(** [kvs[k] = v] in a map sorted by key. *)
Fixpoint obj_set {J} (k : string) (v : J) (kvs : list (string * J)) : list (string * J) :=
  match kvs with
  | [] => [(k, v)]
  | (k', v') :: rest =>
      if String.eqb k k' then (k, v) :: rest
      else if str_ltb k k' then (k, v) :: kvs
      else (k', v') :: obj_set k v rest
  end.

Lemma assoc_obj_set {J} k v (kvs : list (string * J)) k' :
  assoc k' (obj_set k v kvs) = if String.eqb k' k then Some v else assoc k' kvs.
Proof.
  induction kvs as [|[k1 v1] kvs IH]; cbn; [done|].
  destruct (String.eqb_spec k k1) as [->|Hne]; cbn; [by destruct (String.eqb_spec k' k1)|].
  destruct (str_ltb k k1); cbn; [done|]. rewrite IH.
  destruct (String.eqb_spec k' k1) as [->|]; [|done]. by destruct (String.eqb_spec k1 k).
Qed.

Lemma obj_set_sorted {J} k (v : J) kvs : keys_sorted kvs → keys_sorted (obj_set k v kvs).
Proof.
  unfold keys_sorted. induction 1 as [|[k1 v1] kvs Hs IH Hall]; cbn; [repeat constructor|].
  destruct (String.eqb_spec k k1) as [->|Hne].
  { constructor; [done|]. eapply Forall_impl; [exact Hall|done]. }
  destruct (str_ltb k k1) eqn:Hlt.
  { constructor; [by constructor|]. constructor; [done|].
    eapply Forall_impl; [exact Hall|]. intros kv Hkv. by eapply str_ltb_trans. }
  constructor; [done|]. assert (str_ltb k1 k = true).
  { destruct (str_ltb k1 k) eqn:E; [done|]. by destruct Hne; apply str_ltb_total. }
  clear IH Hs Hlt. induction Hall as [|[k2 v2] kvs H2 Hall IH]; cbn; [by repeat constructor|].
  destruct (String.eqb_spec k k2); [by constructor|].
  destruct (str_ltb k k2); by repeat constructor.
Qed.

Lemma keys_sorted_fst {J} (kvs : list (string * J)) :
  keys_sorted kvs ↔ StronglySorted (λ a b, str_ltb a b = true) kvs.*1.
Proof.
  unfold keys_sorted. induction kvs as [|kv kvs IH]; [by split; constructor|].
  rewrite fmap_cons. split; intros Hs; apply StronglySorted_inv in Hs as [Hs Hall];
    (constructor; [by apply IH|]); [by rewrite Forall_fmap|by rewrite Forall_fmap in Hall].
Qed.

Lemma obj_set_elem {J} k (v : J) kvs x : x ∈ obj_set k v kvs → x = (k, v) ∨ x ∈ kvs.
Proof.
  induction kvs as [|[k1 v1] kvs IH]; cbn; [set_solver|].
  destruct (String.eqb k k1); [set_solver|]. destruct (str_ltb k k1); set_solver.
Qed.

Lemma assoc_elem {V} k (kvs : list (string * V)) v : assoc k kvs = Some v → (k, v) ∈ kvs.
Proof.
  induction kvs as [|[k1 v1] kvs IH]; cbn; [done|].
  destruct (String.eqb_spec k k1) as [->|]; [intros [= ->]; by left|]. right. auto.
Qed.

(** ** The operations the code calls *)

Section operations.
Context `{JsonTree J F}.

Definition jt_is_string (j : J) : bool := match jt_shape j with ShString _ => true | _ => false end.
Definition jt_is_array (j : J) : bool := match jt_shape j with ShArray _ => true | _ => false end.
Definition jt_is_object (j : J) : bool := match jt_shape j with ShObject _ => true | _ => false end.

(** [get<std::string>()], [get<bool>()]: only of that kind. *)
Definition jt_get_string (j : J) : option string := match jt_shape j with ShString s => Some s | _ => None end.
Definition jt_get_bool (j : J) : option bool := match jt_shape j with ShBool b => Some b | _ => None end.

(** [find], and [contains]: nothing is found in a value that is not an object. *)
Definition jt_find (j : J) (k : string) : option J :=
  match jt_shape j with ShObject kvs => assoc k kvs | _ => None end.
Definition jt_contains (j : J) (k : string) : bool :=
  match jt_find j k with Some _ => true | None => false end.

Definition jt_object (kvs : list (string * J)) : J :=
  jt_make (ShObject (foldr (λ kv acc, obj_set kv.1 kv.2 acc) [] kvs)).
Definition jt_array (l : list J) : J := jt_make (ShArray l).
Definition jt_string (s : string) : J := jt_make (ShString s).
Definition jt_int (z : Z) : J := jt_make (ShInt z).
Definition jt_bool (b : bool) : J := jt_make (ShBool b).

(** [j[k] = v]: null becomes an object; exception 305 for the other kinds. *)
Definition jt_put (j : J) (k : string) (v : J) : result string J :=
  match jt_shape j with
  | ShNull => Ok (jt_make (ShObject [(k, v)]))
  | ShObject kvs => Ok (jt_make (ShObject (obj_set k v kvs)))
  | _ => Throw (jt_what 305 j)
  end.

(** [items()], and the range of a for loop. *)
Definition jt_items (j : J) : list (string * J) :=
  match jt_shape j with
  | ShNull => []
  | ShArray l => imap (λ i x, (pretty (Z.of_nat i), x)) l
  | ShObject kvs => kvs
  | _ => [(""%string, j)]
  end.
Definition jt_elements (j : J) : list J :=
  match jt_shape j with
  | ShNull => []
  | ShArray l => l
  | ShObject kvs => kvs.*2
  | _ => [j]
  end.

(** [value(k, d)]: exception 306 for a value that is not an object, 302 for a
    member of another type. *)
Definition jt_value {A} (get : J → option A) (d : A) (k : string) (j : J) : result string A :=
  match jt_shape j with
  | ShObject kvs =>
      match assoc k kvs with
      | None => Ok d
      | Some v => match get v with Some a => Ok a | None => Throw (jt_what 302 v) end
      end
  | _ => Throw (jt_what 306 j)
  end.

(** The shape of what is built. *)
Lemma shape_string s : jt_shape (jt_string s) = ShString s.
Proof. by apply jt_shape_make. Qed.
Lemma shape_array l : jt_shape (jt_array l) = ShArray l.
Proof. by apply jt_shape_make. Qed.
Lemma shape_int z : jt_shape (jt_int z) = ShInt z.
Proof. by apply jt_shape_make. Qed.

Lemma fields_sorted (kvs : list (string * J)) : keys_sorted (foldr (λ kv acc, obj_set kv.1 kv.2 acc) [] kvs).
Proof. induction kvs; cbn; [constructor|by apply obj_set_sorted]. Qed.

Lemma shape_object kvs :
  jt_shape (jt_object kvs) = ShObject (foldr (λ kv acc, obj_set kv.1 kv.2 acc) [] kvs).
Proof. apply jt_shape_make, fields_sorted. Qed.

Lemma find_object kvs k : jt_find (jt_object kvs) k = assoc k kvs.
Proof.
  unfold jt_find. rewrite shape_object. induction kvs as [|[k1 v1] kvs IH]; cbn; [done|].
  by rewrite assoc_obj_set, IH.
Qed.

Lemma value_object {A} (get : J → option A) d k kvs :
  jt_value get d k (jt_object kvs) =
    match assoc k kvs with
    | None => Ok d
    | Some v => match get v with Some a => Ok a | None => Throw (jt_what 302 v) end
    end.
Proof. unfold jt_value. rewrite <- find_object. unfold jt_find. by rewrite shape_object. Qed.

Lemma get_string_law s : jt_get_string (jt_string s) = Some s.
Proof. unfold jt_get_string. by rewrite shape_string. Qed.
Lemma get_bool_law b : jt_get_bool (jt_bool b) = Some b.
Proof. unfold jt_get_bool, jt_bool. by rewrite jt_shape_make. Qed.
Lemma get_int_law z : INT_MIN ≤ z ≤ INT_MAX → jt_get_int (jt_int z) = Some z.
Proof. intros Hz. apply jt_get_int_law; [apply shape_int|done]. Qed.

Lemma find_put j k v j' k' :
  jt_put j k v = Ok j' → jt_find j' k' = if String.eqb k' k then Some v else jt_find j k'.
Proof.
  unfold jt_put, jt_find. destruct (jt_shape j) as [| | | | | |kvs] eqn:E; intros [= <-].
  - rewrite jt_shape_make; [done|]. repeat constructor.
  - rewrite jt_shape_make; [apply assoc_obj_set|]. apply obj_set_sorted. by eapply jt_sorted.
Qed.
End operations.

(** ** A concrete instance *)

Inductive jtree :=
| TNull
| TBool (b : bool)
| TInt (z : Z)
| TFloat (z : Z)
| TStr (s : string)
| TArr (l : list jtree)
| TObj (fields : list (string * jtree)).

Definition canon {J} (kvs : list (string * J)) : list (string * J) :=
  foldr (λ kv acc, obj_set kv.1 kv.2 acc) [] kvs.

Fixpoint jtree_depth (j : jtree) : nat :=
  match j with
  | TArr l => S (list_max (map jtree_depth l))
  | TObj kvs => S (list_max (map (λ kv, jtree_depth kv.2) kvs))
  | _ => 0%nat
  end.

Lemma canon_sorted {J} (kvs : list (string * J)) : keys_sorted (canon kvs).
Proof. induction kvs; cbn; [constructor|by apply obj_set_sorted]. Qed.

Lemma canon_elem {J} (kvs : list (string * J)) x : x ∈ canon kvs → x ∈ kvs.
Proof. induction kvs as [|[k v] kvs IH]; cbn; [done|]. intros [->|?]%obj_set_elem; set_solver. Qed.

Lemma canon_id {J} (kvs : list (string * J)) : keys_sorted kvs → canon kvs = kvs.
Proof.
  induction 1 as [|[k v] kvs Hs IH Hall]; cbn; [done|]. fold (canon kvs). rewrite IH.
  destruct kvs as [|[k1 v1] kvs]; cbn; [done|]. apply Forall_cons in Hall as [H1 _].
  unfold key_before in H1. cbn in H1. destruct (String.eqb_spec k k1) as [->|]; [by rewrite str_ltb_irrefl in H1|].
  by rewrite H1.
Qed.

Definition jtree_json (text : jtree → string) (read : string → option jtree) : JsonTree jtree Z.
Proof.
  refine {|
    jt_shape j := match j with
                  | TNull => ShNull | TBool b => ShBool b | TInt z => ShInt z | TFloat z => ShFloat z
                  | TStr s => ShString s
                  | TArr l => ShArray l | TObj kvs => ShObject (canon kvs)
                  end;
    jt_make s := match s with
                 | ShNull => TNull | ShBool b => TBool b | ShInt z => TInt z | ShFloat z => TFloat z
                 | ShString s => TStr s | ShArray l => TArr l | ShObject kvs => TObj kvs
                 end;
    jt_depth := jtree_depth;
    jt_get_int j := match j with TInt z => Some z | _ => None end;
    jt_get_float j := match j with TInt z | TFloat z => Some z | _ => None end;
    jt_dump j := Ok (text j);
    jt_dump_indent _ j := Ok (text j);
    jt_parse s := match read s with Some j => Ok j | None => Throw "parse_error"%string end;
    jt_what n _ := pretty n
  |}.
  - intros []; cbn; try done. intros Hs. f_equal. by apply canon_id.
  - intros [] kvs [= <-]. apply canon_sorted.
  - intros [| | | | |l|kvs] c; cbn; intros Hc; try (by apply not_elem_of_nil in Hc).
    + apply Nat.lt_succ_r. assert (Hm := proj1 (list_max_le (map jtree_depth l) _) (le_n _)).
      rewrite List.Forall_forall in Hm. apply Hm, in_map. by apply list_elem_of_In.
    + apply Nat.lt_succ_r. apply list_elem_of_fmap in Hc as ([k v] & -> & Hkv%canon_elem).
      assert (Hm := proj1 (list_max_le (map (λ kv, jtree_depth kv.2) kvs) _) (le_n _)).
      rewrite List.Forall_forall in Hm. apply Hm. apply in_map_iff. exists (k, v). split; [done|].
      by apply list_elem_of_In.
  - intros j z E _. by destruct j; cbn in *; simplify_eq.
Defined.
