(* ===== verification/TaskGenerator.v ===== *)
(** * TaskGenerator: macros and task lists

    Models class TaskGenerator of src/src/task/core/generator.hpp and
    generator.cpp, its macro part and its task-list part; the script part is in
    ScriptGenerator.v.  A macro is a text or a function of its arguments; a
    function may look at and change the [World]: the index counter of the
    generator and what lies outside the program.  Regular expressions are
    written out as the search they make.  The trimming of atom::utils is a
    parameter.  Left out: locks, the average evaluation time, clone (whose
    index macro goes on using the original object). *)

From S2P Require Import Prelude Version JsonCodec JsonTree.

Local Open Scope Z_scope.

Inductive ErrorCode :=
| UNDEFINED_MACRO
| INVALID_MACRO_ARGS
| MACRO_EVALUATION_ERROR
| JSON_PROCESSING_ERROR
| INVALID_MACRO_TYPE
| CACHE_ERROR
| TEMPLATE_NOT_FOUND
| TASK_GENERATION_ERROR
| FILE_IO_ERROR
| VALIDATION_ERROR.

(** A TaskGeneratorException, or another std::exception with its what(). *)
Inductive gen_exn :=
| GenExn (code : ErrorCode) (msg : string)
| StdExn (msg : string).

(** A call of a macro, and whatever calls one, returns a value or stops without
    one: an exception leaves it, or it runs forever, which no catch block sees. *)
Inductive stop :=
| Raises (e : gen_exn)
| Diverges.

Inductive outcome (A : Type) :=
| Returns (a : A)
| Stops (s : stop).
Arguments Returns {A} a.
Arguments Stops {A} s.

(** Code that always returns or throws. *)
Definition ends {A} (r : result gen_exn A) : outcome A :=
  match r with Ok a => Returns a | Throw e => Stops (Raises e) end.

#[export] Instance ErrorCode_eq_dec : EqDecision ErrorCode.
Proof. solve_decision. Defined.
#[export] Instance gen_exn_eq_dec : EqDecision gen_exn.
Proof. solve_decision. Defined.

Definition what (e : gen_exn) : string := match e with GenExn _ m | StdExn m => m end.

(** A catch block that throws a TaskGeneratorException of its own. *)
Definition wrap (code : ErrorCode) (before : string) (s : stop) : stop :=
  match s with Raises e => Raises (GenExn code (before +:+ what e)) | Diverges => Diverges end.

(** ** Text *)

Definition is_space (c : char) : bool :=
  let n := Ascii.N_of_ascii c in (n =? 32)%N || ((9 <=? n)%N && (n <=? 13)%N).

Fixpoint skip_space (s : string) : string :=
  match s with
  | String c s' => if is_space c then skip_space s' else s
  | EmptyString => EmptyString
  end.

(** [strtol]: white space, a sign, digits; [None] where there are none. *)
Definition strtol (s : string) : option Z :=
  match skip_space s with
  | String c s' => if Ascii.eqb c "-" then Z.opp <$> scan_nat s'
                   else if Ascii.eqb c "+" then scan_nat s' else scan_nat (String c s')
  | EmptyString => None
  end.

Definition stoi (s : string) : result gen_exn Z :=
  match strtol s with
  | Some z => if in_int z then Ok z else Throw (StdExn "stoi")
  | None => Throw (StdExn "stoi")
  end.

(** A negative number wraps around. *)
Definition stoul (s : string) : result gen_exn Z :=
  match strtol s with
  | Some z => if bool_decide (- SIZE_MOD < z < SIZE_MOD) then Ok (to_size z) else Throw (StdExn "stoul")
  | None => Throw (StdExn "stoul")
  end.

Definition toupper (c : char) : char :=
  let n := Ascii.N_of_ascii c in
  if (97 <=? n)%N && (n <=? 122)%N then Ascii.ascii_of_N (n - 32) else c.

Fixpoint str_toupper (s : string) : string :=
  match s with EmptyString => EmptyString | String c s' => String (toupper c) (str_toupper s') end.

Definition is_punct (c : char) : bool :=
  let n := Ascii.N_of_ascii c in
  ((33 <=? n)%N && (n <=? 47)%N) || ((58 <=? n)%N && (n <=? 64)%N)
  || ((91 <=? n)%N && (n <=? 96)%N) || ((123 <=? n)%N && (n <=? 126)%N).

Fixpoint str_repeat (n : nat) (s : string) : string :=
  match n with O => "" | S n' => s +:+ str_repeat n' s end.

(** [find(t, pos)] for a string [t], on what is left at [pos]. *)
Fixpoint str_prefix (t s : string) : bool :=
  match t, s with
  | EmptyString, _ => true
  | String c t', String d s' => Ascii.eqb c d && str_prefix t' s'
  | _, EmptyString => false
  end.

Fixpoint str_search (t s : string) : option nat :=
  if str_prefix t s then Some 0%nat
  else match s with EmptyString => None | String _ s' => S <$> str_search t s' end.

(** ** The macro pattern: a dollar sign, and in braces a text without braces *)

Fixpoint span_content (s : string) : string * string :=
  match s with
  | EmptyString => (EmptyString, EmptyString)
  | String c s' =>
      if Ascii.eqb c "{" || Ascii.eqb c "}" then (EmptyString, s)
      else let '(a, b) := span_content s' in (String c a, b)
  end.

(** A match at the beginning: the text between the braces, and what follows. *)
Definition macro_here (s : string) : option (string * string) :=
  match s with
  | String d (String o s') =>
      if Ascii.eqb d "$" && Ascii.eqb o "{" then
        match span_content s' with
        | (EmptyString, _) => None
        | (content, String c rest) => if Ascii.eqb c "}" then Some (content, rest) else None
        | (_, EmptyString) => None
        end
      else None
  | _ => None
  end.

(** regex_search: the leftmost match, with what precedes and follows it. *)
Fixpoint find_macro (s : string) : option (string * string * string) :=
  match macro_here s with
  | Some (content, rest) => Some (EmptyString, content, rest)
  | None =>
      match s with
      | EmptyString => None
      | String c s' =>
          match find_macro s' with
          | Some (before, content, rest) => Some (String c before, content, rest)
          | None => None
          end
      end
  end.

(** The pattern of the arguments: the runs of characters that are no commas. *)
Fixpoint split_commas (s : string) : string * list string :=
  match s with
  | EmptyString => (EmptyString, [])
  | String c s' =>
      let '(run, runs) := split_commas s' in
      if Ascii.eqb c "," then (EmptyString, if str_empty run then runs else run :: runs)
      else (String c run, runs)
  end.

Definition arg_tokens (s : string) : list string :=
  let '(run, runs) := split_commas s in if str_empty run then runs else run :: runs.

Definition last_is (c : char) (s : string) : bool :=
  match rev (chars s) with d :: _ => Ascii.eqb d c | [] => false end.

Section generator.
Context {J F E : Type} `{JT : JsonTree J F, HS : !HashIter string}.
Context (trim : string → string).

(** ** Data *)

Record World := mkWorld { indexCounter : Z; outside : E }.
#[global] Instance World_eta : Eta World := λ w, mkWorld (indexCounter w) (outside w).

Definition MacroFn : Type := list string → World → World * outcome string.

Inductive MacroValue :=
| MText (s : string)
| MFun (f : MacroFn).

Record ScriptConfig := mkScriptConfig {
  templatePath : string;
  outputFormat : string;
  enableValidation : bool;
  enableOptimization : bool;
  includePaths : list string;
  globalVariables : gmap string string
}.

Record ScriptTemplate := mkScriptTemplate {
  template_name : string;
  template_description : string;
  template_content : string;
  requiredParams : list string;
  parameterSchema : J;
  template_category : string;
  template_version : string
}.

Record TaskGenerator := mkGenerator {
  macros : gmap string MacroValue;
  macro_cache : gmap string string;
  max_cache_size : nat;
  cache_hits : Z;
  cache_misses : Z;
  macro_evaluations : Z;
  scriptConfig : ScriptConfig;
  scriptTemplates : gmap string ScriptTemplate;
  world : World
}.

#[global] Instance TaskGenerator_eta : Eta TaskGenerator := λ g,
  mkGenerator (macros g) (macro_cache g) (max_cache_size g) (cache_hits g) (cache_misses g)
    (macro_evaluations g) (scriptConfig g) (scriptTemplates g) (world g).

(** A call: the next state, and how it ends. *)
Definition Gen (A : Type) : Type := TaskGenerator → TaskGenerator * outcome A.

Definition g_ret {A} (a : A) : Gen A := λ g, (g, Returns a).
Definition g_throw {A} (e : gen_exn) : Gen A := λ g, (g, Stops (Raises e)).
Definition g_bind {A B} (m : Gen A) (k : A → Gen B) : Gen B := λ g,
  let '(g, r) := m g in match r with Returns a => k a g | Stops x => (g, Stops x) end.
Definition g_lift {A} (r : result gen_exn A) : Gen A := λ g, (g, ends r).
Definition g_modify (f : TaskGenerator → TaskGenerator) : Gen unit := λ g, (f g, Returns ()).

Notation "'do' x ← m ; k" := (g_bind m (λ x, k))
  (at level 20, x name, m at level 100, k at level 200) : lithium_scope.

(** ** The table of macros *)

Definition addMacro (name : string) (value : MacroValue) : Gen unit :=
  if str_empty name then g_throw (GenExn INVALID_MACRO_ARGS "Macro name cannot be empty")
  else g_modify (λ g, g <| macros ::= <[name := value]> |> <| macro_cache := ∅ |>).

Definition removeMacro (name : string) : Gen unit := λ g,
  match macros g !! name with
  | Some _ => (g <| macros ::= delete name |> <| macro_cache := ∅ |>, Returns ())
  | None => (g, Stops (Raises (GenExn INVALID_MACRO_ARGS ("Attempted to remove undefined macro: " +:+ name))))
  end.

Definition listMacros (g : TaskGenerator) : list string := iter_keys (macros g).
Definition hasMacro (name : string) (g : TaskGenerator) : bool :=
  match macros g !! name with Some _ => true | None => false end.
Definition getMacro (name : string) (g : TaskGenerator) : option MacroValue := macros g !! name.

(** [m] is iterated; every name of it ends up with its value. *)
Definition addMacros (m : gmap string MacroValue) : Gen unit :=
  g_modify (λ g, g <| macros := foldl (λ t kv, <[kv.1 := kv.2]> t) (macros g) (iter_map m) |>
                   <| macro_cache := ∅ |>).

(** ** The cache *)

Definition trimCache (g : TaskGenerator) : TaskGenerator :=
  if decide (max_cache_size g < size (macro_cache g))%nat then
    let to_remove := (size (macro_cache g) - max_cache_size g)%nat in
    g <| macro_cache ::= λ c, foldl (λ c k, delete k c) c (take to_remove (iter_keys c)) |>
  else g.

Definition clearMacroCache (g : TaskGenerator) : TaskGenerator := g <| macro_cache := ∅ |>.
Definition getCacheSize (g : TaskGenerator) : Z := Z.of_nat (size (macro_cache g)).
Definition setMaxCacheSize (n : nat) (g : TaskGenerator) : TaskGenerator :=
  trimCache (g <| max_cache_size := n |>).
Definition resetStatistics (g : TaskGenerator) : TaskGenerator :=
  g <| cache_hits := 0 |> <| cache_misses := 0 |> <| macro_evaluations := 0 |>.

(** ** Expansion *)

Definition evaluateMacro (name : string) (args : list string) : Gen string := λ g,
  match macros g !! name with
  | None => (g, Stops (Raises (GenExn INVALID_MACRO_ARGS ("Undefined macro: " +:+ name))))
  | Some (MText s) => (g, Returns s)
  | Some (MFun f) =>
      let '(w, r) := f args (world g) in
      (g <| world := w |>,
       match r with
       | Returns s => Returns s
       | Stops x => Stops (wrap MACRO_EVALUATION_ERROR ("Error evaluating macro '" +:+ name +:+ "': ") x)
       end)
  end.

(** The name and the arguments in the text between the braces. *)
Definition parse_macro (content : string) : result gen_exn (string * list string) :=
  match str_find "(" content with
  | None => Ok (content, [])
  | Some pos =>
      if last_is ")" content then
        let argsStr := str_substr (pos + 1) (String.length content - pos - 2) content in
        Ok (str_take pos content, map trim (arg_tokens argsStr))
      else Throw (GenExn INVALID_MACRO_ARGS ("Malformed macro definition: " +:+ content))
  end.

Definition cached_macro (content : string) : Gen string := λ g,
  match macro_cache g !! content with
  | Some replacement => (g <| cache_hits ::= Z.succ |>, Returns replacement)
  | None =>
      (do _ ← g_modify (λ g, g <| cache_misses ::= Z.succ |>);
       do call ← g_lift (parse_macro content);
       do replacement ← evaluateMacro call.1 call.2;
       do _ ← g_modify (λ g, trimCache (g <| macro_cache ::= <[content := replacement]> |>));
       g_ret replacement) g
  end.

(** The while loop over [result] and [search_pos].  Every round passes a match
    of the input, so its length is fuel enough. *)
Fixpoint replace_loop (fuel : nat) (result : string) (search_pos : nat) : Gen string :=
  match fuel, find_macro (str_drop search_pos result) with
  | S fuel', Some (before, content, rest) =>
      do replacement ← cached_macro content;
      let match_pos := (search_pos + String.length before)%nat in
      let match_len := (String.length content + 3)%nat in
      let result := str_take match_pos result +:+ (replacement +:+ str_drop (match_pos + match_len) result) in
      replace_loop fuel' result (match_pos + String.length replacement)
  | _, _ => g_ret result
  end.

Definition replaceMacros (input : string) : Gen string := λ g,
  let '(g, r) := replace_loop (String.length input) input 0 g in
  match r with
  | Returns s => (g <| macro_evaluations ::= Z.succ |>, Returns s)
  | Stops x => (g, Stops (wrap MACRO_EVALUATION_ERROR "Macro replacement failed: " x))
  end.

(** ** Walking through a document

    The document is changed in place: a walk that stops leaves it as far as it
    got. *)

Definition Walk (A : Type) : Type := TaskGenerator → TaskGenerator * A * option stop.

Fixpoint walk_list (f : J → Walk J) (l : list J) : Walk (list J) := λ g,
  match l with
  | [] => (g, [], None)
  | v :: l' =>
      match f v g with
      | (g, v, Some e) => (g, v :: l', Some e)
      | (g, v, None) => let '(g, l', e) := walk_list f l' g in (g, v :: l', e)
      end
  end.

(** One value inside a container. *)
Definition walk_value (inner : J → Walk J) (v : J) : Walk J := λ g,
  match jt_shape v with
  | ShString s =>
      let '(g, r) := replaceMacros s g in
      match r with Returns s' => (g, jt_string s', None) | Stops x => (g, v, Some x) end
  | ShObject _ | ShArray _ => inner v g
  | _ => (g, v, None)
  end.

Fixpoint process (fuel : nat) (j : J) : Walk J := λ g,
  match fuel with
  | O => (g, j, None)
  | S fuel' =>
      match jt_shape j with
      | ShObject kvs =>
          let '(g, vs, e) := walk_list (walk_value (process fuel')) kvs.*2 g in
          (g, jt_make (ShObject (zip kvs.*1 vs)), e)
      | ShArray l =>
          let '(g, l', e) := walk_list (walk_value (process fuel')) l g in (g, jt_array l', e)
      | _ => (g, j, None)
      end
  end.

(** Every value inside is less deep than the document, so the depth is fuel
    enough. *)
Definition processJson (j : J) : Walk J := process (S (jt_depth j)) j.

(** A string member that is a macro as a whole defines its key. *)
Definition define_macro (key content : string) : Gen unit :=
  do call ← g_lift (parse_macro content);
  g_modify (λ g, match macros g !! key with
                 | Some _ => g
                 | None => g <| macros ::= <[key := MText (match call.2 with [] => content
                                                           | _ => "macro_defined_in_json" end)]> |>
                 end).

Fixpoint g_iter {A} (f : A → Gen unit) (l : list A) : Gen unit :=
  match l with [] => g_ret () | a :: l' => do _ ← f a; g_iter f l' end.

Fixpoint preprocess (fuel : nat) (j : J) : Gen unit :=
  match fuel with
  | O => g_ret ()
  | S fuel' =>
      match jt_shape j with
      | ShObject kvs =>
          g_iter (λ kv, match jt_shape kv.2 with
                        | ShString s =>
                            match macro_here s with
                            | Some (content, EmptyString) => define_macro kv.1 content
                            | _ => g_ret ()
                            end
                        | ShObject _ | ShArray _ => preprocess fuel' kv.2
                        | _ => g_ret ()
                        end) kvs
      | ShArray l =>
          g_iter (λ v, match jt_shape v with
                       | ShObject _ | ShArray _ => preprocess fuel' v
                       | _ => g_ret ()
                       end) l
      | _ => g_ret ()
      end
  end.

Definition preprocessJsonMacros (j : J) : Gen unit := preprocess (S (jt_depth j)) j.

Definition processJsonWithJsonMacros (j : J) : Walk J := λ g,
  let '(g, r) := preprocessJsonMacros j g in
  match r with
  | Returns _ => processJson j g
  | Stops x => (g, j, Some x)
  end.

(** ** Macros of the constructor *)

Definition pure_fn (f : list string → result gen_exn string) : MacroValue :=
  MFun (λ args w, (w, ends (f args))).

Definition bad_args (msg : string) : result gen_exn string := Throw (GenExn INVALID_MACRO_ARGS msg).

Definition macro_uppercase (args : list string) : result gen_exn string :=
  match args with
  | [] => bad_args "uppercase macro requires at least 1 argument"
  | a :: _ => Ok (str_toupper a)
  end.

Definition concat_arg (result arg : string) : string :=
  match arg with
  | EmptyString => result
  | String c _ =>
      if is_punct c && negb (Ascii.eqb c "(") && negb (Ascii.eqb c "[") then result +:+ arg
      else result +:+ " " +:+ arg
  end.
Definition macro_concat (args : list string) : result gen_exn string :=
  match args with [] => Ok "" | a :: args' => Ok (foldl concat_arg a args') end.

Definition macro_if (args : list string) : result gen_exn string :=
  match args with
  | c :: a :: b :: _ => Ok (if String.eqb c "true" then a else b)
  | _ => bad_args "if macro requires 3 arguments"
  end.

Definition macro_length (args : list string) : result gen_exn string :=
  match args with
  | [a] => Ok (pretty (Z.of_nat (String.length a)))
  | _ => bad_args "length macro requires 1 argument"
  end.

Definition macro_equals (args : list string) : result gen_exn string :=
  match args with
  | [a; b] => Ok (if String.eqb a b then "true" else "false")
  | _ => bad_args "equals macro requires 2 arguments"
  end.

Definition macro_tolower (args : list string) : result gen_exn string :=
  match args with
  | [] => bad_args "tolower macro requires at least 1 argument"
  | a :: _ => Ok (str_tolower a)
  end.

Definition macro_repeat (args : list string) : result gen_exn string :=
  match args with
  | [a; n] =>
      match stoi n with
      | Throw e => bad_args ("Invalid repeat count: " +:+ what e)
      | Ok times => if times <? 0 then bad_args "Invalid repeat count: Negative repeat count"
                    else Ok (str_repeat (Z.to_nat times) a)
      end
  | _ => bad_args "repeat macro requires 2 arguments"
  end.

Definition default_macros : list (string * MacroValue) :=
  [("uppercase", pure_fn macro_uppercase); ("concat", pure_fn macro_concat); ("if", pure_fn macro_if);
   ("length", pure_fn macro_length); ("equals", pure_fn macro_equals); ("tolower", pure_fn macro_tolower);
   ("repeat", pure_fn macro_repeat)].

Definition add_all (ms : list (string * MacroValue)) : Gen unit := g_iter (λ nv, addMacro nv.1 nv.2) ms.

Definition DEFAULT_MAX_CACHE_SIZE : nat := 1000.

Definition TaskGenerator_new (e : E) : TaskGenerator :=
  (add_all default_macros (mkGenerator ∅ ∅ DEFAULT_MAX_CACHE_SIZE 0 0 0
     (mkScriptConfig "" "json" true true [] ∅) ∅ (mkWorld 0 e))).1.

(** ** Macros of initializeBuiltInMacros *)

(** The clock, the random numbers and the environment. *)
Class Outside := {
  put_time : string → E → string;             (* std::put_time of the local time *)
  milliseconds : E → Z;                       (* since the epoch *)
  random_u64 : E → E * Z;
  getenv : string → E → option string
}.

Context `{OE : Outside, FO : !Floats F}.

Definition now_fn (default_format : string) : MacroValue :=
  MFun (λ args w, (w, Returns (put_time (match args with [] => default_format | f :: _ => f end) (outside w)))).

Definition timestamp_fn : MacroValue := MFun (λ _ w, (w, Returns (pretty (milliseconds (outside w))))).

Definition stod (s : string) : result gen_exn F :=
  match f_parse s with Some x => Ok x | None => Throw (StdExn "stod") end.

Definition print_number (r : F) : string := if f_eqb r (f_floor r) then pretty (f_to_int r) else f_print r.

Fixpoint fold_numbers (op : F → F → F) (r : F) (args : list string) : result gen_exn F :=
  match args with
  | [] => Ok r
  | a :: args' => let* x := stod a in fold_numbers op (op r x) args'
  end.

Definition macro_add (args : list string) : result gen_exn string :=
  let* r := fold_numbers f_add (f_of_Z 0) args in Ok (print_number r).
Definition macro_mul (args : list string) : result gen_exn string :=
  let* r := fold_numbers f_mul (f_of_Z 1) args in Ok (print_number r).
Definition macro_sub (args : list string) : result gen_exn string :=
  match args with
  | [a; b] => let* x := stod a in let* y := stod b in Ok (print_number (f_sub x y))
  | _ => Ok "0"
  end.
Definition macro_div (args : list string) : result gen_exn string :=
  match args with
  | [a; b] =>
      let* y := stod b in
      if f_eqb y (f_of_Z 0) then Ok "0" else let* x := stod a in Ok (f_print (f_div x y))
  | _ => Ok "0"
  end.

(** The remainder of INT_MIN and -1, which int cannot compute, is left out. *)
Definition macro_mod (args : list string) : result gen_exn string :=
  match args with
  | [a; b] =>
      let* y := stoi b in
      if y =? 0 then Ok "0" else let* x := stoi a in Ok (pretty (Z.rem x y))
  | _ => Ok "0"
  end.

(** The while loop, on what is left of [r] after [p]; an empty text is found
    again and again. *)
Fixpoint replace_text (fuel : nat) (old new s : string) : option string :=
  match fuel with
  | O => None
  | S fuel' =>
      match str_search old s with
      | None => Some s
      | Some i =>
          match replace_text fuel' old new (str_drop (i + String.length old) s) with
          | Some t => Some (str_take i s +:+ new +:+ t)
          | None => None
          end
      end
  end.
Definition macro_replace (args : list string) : outcome string :=
  match args with
  | [] => Returns ""
  | [s; old; new] => match replace_text (S (String.length s)) old new s with
                     | Some t => Returns t
                     | None => Stops Diverges
                     end
  | s :: _ => Returns s
  end.

Definition macro_substring (args : list string) : result gen_exn string :=
  match args with
  | a :: b :: args' =>
      let* s := stoul b in
      if Z.of_nat (String.length a) <=? s then Ok ""
      else match args' with
           | [] => Ok (str_drop (Z.to_nat s) a)
           | c :: _ => let* n := stoul c in
                       Ok (str_substr (Z.to_nat s) (Z.to_nat (Z.min n (Z.of_nat (String.length a)))) a)
           end
  | _ => Ok ""
  end.

(** Widths for which there is memory. *)
Definition macro_pad (args : list string) : result gen_exn string :=
  match args with
  | a :: b :: args' =>
      let* w := stoul b in
      let c := match args' with String c _ :: _ => c | _ => "0"%char end in
      if w <=? Z.of_nat (String.length a) then Ok a
      else Ok (str_repeat (Z.to_nat (w - Z.of_nat (String.length a))) (String c "") +:+ a)
  | [a] => Ok a
  | [] => Ok ""
  end.

Definition hex_digit (z : Z) : string :=
  match String.get (Z.to_nat z) "0123456789abcdef" with Some c => String c "" | None => "" end.
(** The last [n] hexadecimal digits; the numbers printed have no more. *)
Fixpoint hex (n : nat) (z : Z) : string :=
  match n with O => "" | S n' => hex n' (Z.shiftr z 4) +:+ hex_digit (Z.land z 15) end.

Definition uuid_fn : MacroValue := MFun (λ _ w,
  let '(o, p1) := random_u64 (outside w) in
  let '(o, p2) := random_u64 o in
  (w <| outside := o |>,
   Returns (hex 8 (Z.shiftr p1 32) +:+ "-" +:+ hex 4 (Z.land (Z.shiftr p1 16) 65535) +:+ "-"
       +:+ hex 4 (Z.land p1 65535) +:+ "-" +:+ hex 4 (Z.shiftr p2 48) +:+ "-"
       +:+ hex 12 (Z.land p2 281474976710655)))).

Definition env_fn : MacroValue := MFun (λ args w,
  (w, Returns match args with
              | [] => ""
              | a :: rest => match getenv a (outside w) with
                             | Some v => v
                             | None => match rest with b :: _ => b | [] => "" end
                             end
              end)).

(** The int arithmetic of the counter is taken not to overflow. *)
Definition index_fn : MacroValue := MFun (λ args w,
  match (match args with [] => Ok 0 | a :: _ => stoi a end),
        (match args with _ :: b :: _ => stoi b | _ => Ok 1 end) with
  | Ok start, Ok step =>
      (w <| indexCounter ::= Z.succ |>, Returns (pretty (start + indexCounter w * step)))
  | Throw e, _ | _, Throw e => (w, Stops (Raises e))
  end).

Definition reset_index_fn : MacroValue := MFun (λ _ w, (w <| indexCounter := 0 |>, Returns "")).

Definition builtin_macros : list (string * MacroValue) :=
  [("date", now_fn "%Y-%m-%d"); ("time", now_fn "%H:%M:%S"); ("timestamp", timestamp_fn);
   ("add", pure_fn macro_add); ("sub", pure_fn macro_sub); ("mul", pure_fn macro_mul);
   ("div", pure_fn macro_div); ("mod", pure_fn macro_mod); ("replace", MFun (λ args w, (w, macro_replace args)));
   ("substring", pure_fn macro_substring); ("pad", pure_fn macro_pad); ("uuid", uuid_fn);
   ("env", env_fn); ("index", index_fn); ("reset_index", reset_index_fn)].

Definition initializeBuiltInMacros : Gen unit := add_all builtin_macros.
End generator.

(** ** What the search for a macro finds *)

Definition brace_free (s : string) : Prop := str_mem "{" s = false ∧ str_mem "}" s = false.

(** [s] has the macro with the content [c] after [b] and before [r]. *)
Definition macro_in (b c r s : string) : Prop :=
  s = b +:+ ("${" +:+ (c +:+ String "}" r)) ∧ c ≠ "" ∧ brace_free c.

Lemma span_content_spec s :
  let '(a, b) := span_content s in
  s = a +:+ b ∧ brace_free a ∧ (b = "" ∨ ∃ b', b = String "{" b' ∨ b = String "}" b').
Proof.
  induction s as [|c s IH]; cbn [span_content]; [by split_and!; [|split|left]|].
  destruct (Ascii.eqb_spec c "{") as [->|H1]; cbn [orb]; [split_and!; [done|done|right; eauto]|].
  destruct (Ascii.eqb_spec c "}") as [->|H2]; [split_and!; [done|done|right; eauto]|].
  destruct (span_content s) as [a b]. destruct IH as (-> & [Ho Hc] & Hb). split_and!; [done| |done].
  split; cbn [str_mem]; [rewrite Ho|rewrite Hc]; rewrite orb_false_r; by apply Ascii.eqb_neq.
Qed.

Lemma span_content_app c x r :
  brace_free c → x = "{"%char ∨ x = "}"%char → span_content (c +:+ String x r) = (c, String x r).
Proof.
  intros [Ho Hc] Hx. induction c as [|d c IH]; cbn [String.append span_content str_mem] in *.
  - by destruct Hx as [->| ->].
  - apply orb_false_iff in Ho as [Hd Ho], Hc as [Hd' Hc].
    rewrite (Ascii.eqb_sym d "{"), (Ascii.eqb_sym d "}"), Hd, Hd'. cbn [orb]. by rewrite IH.
Qed.

Lemma macro_here_spec s c r : macro_here s = Some (c, r) ↔ macro_in "" c r s.
Proof.
  unfold macro_in, macro_here. split.
  - destruct s as [|d [|o s]]; [done..|].
    destruct (Ascii.eqb_spec d "$") as [->|]; [|done]. destruct (Ascii.eqb_spec o "{") as [->|]; [|done].
    cbn [andb]. pose proof (span_content_spec s) as Hs. destruct (span_content s) as [a b].
    destruct Hs as (-> & Hf & _). destruct a as [|x a]; [by destruct b|]. destruct b as [|y b]; [done|].
    destruct (Ascii.eqb_spec y "}") as [->|]; [|done]. intros [= <- <-]. done.
  - intros (-> & Hne & Hf). cbn [String.append]. cbn [Ascii.eqb andb].
    replace (Ascii.eqb "$" "$" && Ascii.eqb "{" "{") with true by reflexivity.
    rewrite span_content_app by auto. destruct c; [done|]. by rewrite Ascii.eqb_refl.
Qed.

Lemma find_macro_some s b c r :
  find_macro s = Some (b, c, r) →
  macro_in b c r s ∧ ∀ b' c' r', macro_in b' c' r' s → (String.length b ≤ String.length b')%nat.
Proof.
  revert b. induction s as [|x s IH]; intros b; cbn [find_macro].
  - destruct (macro_here "") as [[]|] eqn:E; [|done]. by apply macro_here_spec in E as [? _].
  - destruct (macro_here (String x s)) as [[c1 r1]|] eqn:E.
    + intros [= <- <- <-]. split; [by apply macro_here_spec|]. intros. cbn. lia.
    + destruct (find_macro s) as [[[b1 c1] r1]|] eqn:E'; [|done]. intros [= <- <- <-].
      destruct (IH _ eq_refl) as [(-> & Hc & Hf) Hmin]. split; [done|].
      intros [|x' b'] c' r' Hin; [by apply macro_here_spec in Hin; rewrite E in Hin|].
      destruct Hin as (Heq & Hc' & Hf'). injection Heq as _ Heq. cbn [String.length].
      apply le_n_S, (Hmin b' c' r'). done.
Qed.

Lemma find_macro_none s : find_macro s = None → ∀ b c r, ¬ macro_in b c r s.
Proof.
  induction s as [|x s IH]; cbn [find_macro]; intros E b c r Hin.
  - destruct Hin as [Heq _]. by destruct b.
  - destruct (macro_here (String x s)) as [[]|] eqn:E1; [done|].
    destruct (find_macro s) as [[[]]|]; [done|]. destruct b as [|x' b].
    + apply macro_here_spec in Hin. by rewrite E1 in Hin.
    + destruct Hin as (Heq & Hc & Hf). injection Heq as _ Heq. by apply (IH eq_refl b c r).
Qed.

(** The text that [input] stands for: its macros, from the left and not looking
    again at what replaces them, are replaced by their values; the first that
    has no value decides. *)
Inductive expands (value : string → outcome string) : string → outcome string → Prop :=
| expands_plain s : (∀ b c r, ¬ macro_in b c r s) → expands value s (Returns s)
| expands_macro s b c r v res :
    macro_in b c r s → (∀ b' c' r', macro_in b' c' r' s → (String.length b ≤ String.length b')%nat) →
    value c = Returns v → expands value r res →
    expands value s (match res with Returns t => Returns (b +:+ (v +:+ t)) | Stops x => Stops x end)
| expands_stops s b c r x :
    macro_in b c r s → (∀ b' c' r', macro_in b' c' r' s → (String.length b ≤ String.length b')%nat) →
    value c = Stops x → expands value s (Stops x).

Lemma str_app_inj_length (a b x y : string) :
  String.length a = String.length b → a +:+ x = b +:+ y → a = b ∧ x = y.
Proof.
  revert b. induction a as [|c a IH]; intros [|d b]; cbn; try done.
  intros [= Hl] [= -> H]. destruct (IH b Hl H) as [-> ->]. done.
Qed.

Lemma macro_in_unique s b c r b' c' r' :
  macro_in b c r s → macro_in b' c' r' s → String.length b = String.length b' → b = b' ∧ c = c' ∧ r = r'.
Proof.
  intros (-> & Hne & Hf) (Heq & Hne' & Hf') Hl. destruct (str_app_inj_length _ _ _ _ Hl Heq) as [-> Heq'].
  assert (Hhere : macro_in "" c r ("${" +:+ (c +:+ String "}" r))) by done.
  assert (Hhere' : macro_in "" c' r' ("${" +:+ (c +:+ String "}" r))) by (by rewrite Heq').
  apply macro_here_spec in Hhere, Hhere'. rewrite Hhere in Hhere'. by simplify_eq.
Qed.

(** The text is determined. *)
Lemma expands_functional value s res res' : expands value s res → expands value s res' → res = res'.
Proof.
  intros Hres. revert res'. induction Hres as [s Hno|s b c r v res Hin Hmin Hv _ IH|s b c r e Hin Hmin Hv];
    intros res' Hres'; inversion Hres' as [s1 Hno1|s1 b1 c1 r1 v1 res1 Hin1 Hmin1 Hv1 Hr1|s1 b1 c1 r1 e1 Hin1 Hmin1 Hv1];
    subst; try done; try (by exfalso; eapply Hno); try (by exfalso; eapply Hno1);
    pose proof (Hmin _ _ _ Hin1); pose proof (Hmin1 _ _ _ Hin);
    destruct (macro_in_unique _ _ _ _ _ _ _ Hin Hin1 ltac:(lia)) as (-> & -> & ->); try congruence.
  rewrite (IH _ Hr1). by assert (v = v1) as -> by congruence.
Qed.

(** ** The cache does not show *)

Section transparency.
Context {J F E : Type} `{JT : JsonTree J F, HS : !HashIter string}.
Context (trim : string → string).
Abbreviation gen := (@TaskGenerator J E).
Abbreviation table := (gmap string (@MacroValue E)).

(** A macro whose value depends on its arguments only. *)
Definition is_pure (v : @MacroValue E) : Prop :=
  match v with
  | MText _ => True
  | MFun f => ∃ h, ∀ args w, f args w = (w, h args)
  end.

Definition pure_table (t : table) : Prop := ∀ name v, t !! name = Some v → is_pure v.

(** The value of the text between the braces, without a cache. *)
Definition macro_value (t : table) (w : @World E) (content : string) : outcome string :=
  match parse_macro trim content with
  | Throw e => Stops (Raises e)
  | Ok call =>
      match t !! call.1 with
      | None => Stops (Raises (GenExn INVALID_MACRO_ARGS ("Undefined macro: " +:+ call.1)))
      | Some (MText s) => Returns s
      | Some (MFun f) =>
          match (f call.2 w).2 with
          | Returns s => Returns s
          | Stops x => Stops (wrap MACRO_EVALUATION_ERROR ("Error evaluating macro '" +:+ call.1 +:+ "': ") x)
          end
      end
  end.

(** What is cached is the value. *)
Definition cache_sound (g : gen) : Prop :=
  ∀ c s w, macro_cache g !! c = Some s → macro_value (macros g) w c = Returns s.

(** All macros are pure, the cache is sound and within its bound. *)
Record gen_ok (g : gen) : Prop := {
  ok_pure : pure_table (macros g);
  ok_cache : cache_sound g;
  ok_size : (size (macro_cache g) ≤ max_cache_size g)%nat
}.

Lemma empty_cache_ok (g : gen) : pure_table (macros g) → macro_cache g = ∅ → gen_ok g.
Proof.
  intros Hp Hc. split; [done| |rewrite Hc, map_size_empty; lia].
  intros c s w. rewrite Hc. by intros ?%lookup_empty_Some.
Qed.

Definition same_table (g g' : gen) : Prop := macros g' = macros g ∧ world g' = world g.

Lemma pure_value t w w' c : pure_table t → macro_value t w c = macro_value t w' c.
Proof.
  intros Hp. unfold macro_value. destruct (parse_macro trim c) as [[n args]|e]; [|done]. cbn.
  destruct (t !! n) as [[s|f]|] eqn:En; try done. destruct (Hp _ _ En) as [h Hh]. by rewrite !Hh.
Qed.

Lemma evaluateMacro_value n args (g : gen) :
  pure_table (macros g) →
  evaluateMacro n args g = (g, match macros g !! n with
    | None => Stops (Raises (GenExn INVALID_MACRO_ARGS ("Undefined macro: " +:+ n)))
    | Some (MText s) => Returns s
    | Some (MFun f) =>
        match (f args (world g)).2 with
        | Returns s => Returns s
        | Stops x => Stops (wrap MACRO_EVALUATION_ERROR ("Error evaluating macro '" +:+ n +:+ "': ") x)
        end
    end).
Proof.
  intros Hp. unfold evaluateMacro. destruct (macros g !! n) as [[s|f]|] eqn:En; try done.
  destruct (Hp _ _ En) as [h Hh]. rewrite Hh. f_equal. by destruct g.
Qed.

Lemma foldl_delete_lookup {V} (ks : list string) (m : gmap string V) k v :
  foldl (λ c k, delete k c) m ks !! k = Some v → m !! k = Some v.
Proof.
  revert m. induction ks as [|k1 ks IH]; intros m; cbn; [done|].
  intros [_ Hk]%IH%lookup_delete_Some. done.
Qed.

Lemma foldl_delete_size {V} (ks : list string) (m : gmap string V) :
  NoDup ks → (∀ k, k ∈ ks → is_Some (m !! k)) →
  size (foldl (λ c k, delete k c) m ks) = (size m - length ks)%nat.
Proof.
  intros Hnd. revert m. induction Hnd as [|k ks Hk Hnd IH]; intros m Hm; cbn; [lia|].
  rewrite IH.
  - rewrite map_size_delete_Some by (apply Hm; by left). lia.
  - intros k' Hk'. rewrite lookup_delete_ne; [apply Hm; by right|]. by intros ->.
Qed.

Lemma trimCache_ok (g : gen) :
  cache_sound g → pure_table (macros g) → gen_ok (trimCache g) ∧ same_table g (trimCache g).
Proof.
  intros Hc Hp. unfold trimCache. case_decide as Hsz; [|by split; [split; [..|lia]|]].
  split; [|done]. split; cbn; [done| |].
  - intros c s w Hs%foldl_delete_lookup. by apply Hc.
  - rewrite foldl_delete_size.
    + rewrite length_take. unfold iter_keys. rewrite length_fmap, (Permutation_length (iter_map_perm _)).
      rewrite length_map_to_list. lia.
    + pose proof (NoDup_iter_keys (macro_cache g)) as Hnd.
      rewrite <- (take_drop (size (macro_cache g) - max_cache_size g)) in Hnd. by apply NoDup_app in Hnd as [? _].
    + intros k Hk. apply elem_of_iter_keys. apply elem_of_take in Hk as (i & Hk & _). by eapply list_elem_of_lookup_2.
Qed.

Lemma cached_macro_value c (g : gen) :
  gen_ok g →
  let '(g', r) := cached_macro trim c g in
  gen_ok g' ∧ same_table g g' ∧ r = macro_value (macros g) (world g) c.
Proof.
  intros [Hp Hc Hn]. unfold cached_macro. destruct (macro_cache g !! c) as [s|] eqn:Es.
  - split_and!; [by split|done|]. symmetry. by apply Hc.
  - unfold g_bind, g_modify, g_lift, g_ret. cbn. unfold macro_value.
    destruct (parse_macro trim c) as [[n args]|e] eqn:Ep; cbn; [|split_and!; [by split|done|done]].
    rewrite evaluateMacro_value by done. cbn.
    match goal with |- context [match ?r with Returns _ => _ | Stops _ => _ end] =>
      match r with match macros g !! n with _ => _ end => destruct r as [v|e] eqn:Er end end; cbn;
      [|split_and!; [by split|done|done]].
    match goal with |- context [trimCache ?x] => destruct (trimCache_ok x) as [Hok Hs]; [|done|] end.
    { intros c' s' w'. cbn. intros [[<- <-]|[_ ?]]%lookup_insert_Some; [|by apply Hc].
      rewrite (pure_value _ w' (world g)) by done. unfold macro_value. by rewrite Ep. }
    split_and!; [done| |done]. by destruct Hs.
Qed.

Lemma str_take_add_app (a b : string) n : str_take (String.length a + n) (a +:+ b) = a +:+ str_take n b.
Proof. induction a; cbn; [done|]. by f_equal. Qed.

(** The loop on [done +:+ rest] with the position after [done]. *)
Lemma replace_loop_expands fuel (before rest : string) (g : gen) :
  gen_ok g → (String.length rest ≤ fuel)%nat →
  let '(g', r) := replace_loop trim fuel (before +:+ rest) (String.length before) g in
  gen_ok g' ∧ same_table g g'
  ∧ ∃ res, expands (macro_value (macros g) (world g)) rest res
    ∧ r = match res with Returns t => Returns (before +:+ t) | Stops x => Stops x end.
Proof.
  revert before rest g. induction fuel as [|fuel IH]; intros before rest g Hg Hf.
  - destruct rest; [|cbn in Hf; lia]. cbn. split_and!; [done|done|].
    exists (Returns ""). split; [|done]. constructor. by apply find_macro_none.
  - cbn [replace_loop]. rewrite str_drop_app. destruct (find_macro rest) as [[[b c] r]|] eqn:Em; cycle 1.
    { split_and!; [done|done|]. exists (Returns rest). split; [|done]. constructor. by apply find_macro_none. }
    destruct (find_macro_some _ _ _ _ Em) as [Hin Hmin]. pose proof Hin as (Heq & Hne & Hfree).
    unfold g_bind. pose proof (cached_macro_value c g Hg) as Hval.
    destruct (cached_macro trim c g) as [g1 [v|e]]; destruct Hval as (Hg1 & [Ht1 Hw1] & Hv); cycle 1.
    { split_and!; [done|done|]. exists (Stops e). split; [|done]. by eapply expands_stops. }
    assert (Htake : str_take (String.length before + String.length b) (before +:+ rest) = before +:+ b).
    { by rewrite Heq, str_take_add_app, str_take_app. }
    assert (Hdrop : str_drop (String.length before + String.length b + (String.length c + 3)) (before +:+ rest) = r).
    { rewrite Heq, <- Nat.add_assoc, !str_drop_app_add.
      replace (String.length c + 3)%nat with (2 + (String.length c + 1))%nat by lia.
      rewrite str_drop_drop. cbn [str_drop String.append]. rewrite str_drop_0, str_drop_app_add. apply str_drop_0. }
    rewrite Htake, Hdrop.
    replace ((before +:+ b) +:+ (v +:+ r)) with ((before +:+ (b +:+ v)) +:+ r) by (by rewrite !str_app_assoc).
    replace (String.length before + String.length b + String.length v)%nat
      with (String.length (before +:+ (b +:+ v))) by (rewrite !str_length_app; lia).
    assert (Hlen : (String.length r ≤ fuel)%nat) by (rewrite Heq in Hf; rewrite !str_length_app in Hf; cbn in Hf; lia).
    specialize (IH (before +:+ (b +:+ v)) r g1 Hg1 Hlen).
    destruct (replace_loop trim fuel _ _ g1) as [g2 r2]. destruct IH as (Hg2 & [Ht2 Hw2] & res & Hres & Hr2).
    split_and!; [done|split; congruence|]. rewrite Ht1, Hw1 in Hres.
    eexists. split; [by eapply expands_macro|]. rewrite Hr2. destruct res; [|done]. by rewrite !str_app_assoc.
Qed.

Lemma replaceMacros_expands input (g : gen) :
  gen_ok g →
  let '(g', r) := replaceMacros trim input g in
  gen_ok g' ∧ same_table g g'
  ∧ ∃ res, expands (macro_value (macros g) (world g)) input res
    ∧ r = match res with
          | Returns t => Returns t
          | Stops x => Stops (wrap MACRO_EVALUATION_ERROR "Macro replacement failed: " x)
          end.
Proof.
  intros Hg. unfold replaceMacros. pose proof (replace_loop_expands (String.length input) "" input g Hg (le_n _)) as H.
  cbn [String.append String.length] in H. destruct (replace_loop trim _ input 0 g) as [g' r].
  destruct H as (Hg' & Hs & res & Hres & ->). destruct res; (split_and!; [|done|by eexists]); [|done].
  destruct Hg'. by split.
Qed.

(** ** Documents *)

Section documents.
Context (value : string → outcome string).

(** A value inside a document becomes another: its strings are expanded, its
    keys, its arrays' lengths and everything else stay. *)
Inductive val_expands : J → J → Prop :=
| ve_string v v' s s' :
    jt_shape v = ShString s → expands value s (Returns s') → jt_shape v' = ShString s' → val_expands v v'
| ve_object v v' kvs kvs' :
    jt_shape v = ShObject kvs → jt_shape v' = ShObject kvs' → kvs'.*1 = kvs.*1 →
    Forall2 val_expands kvs.*2 kvs'.*2 → val_expands v v'
| ve_array v v' l l' :
    jt_shape v = ShArray l → jt_shape v' = ShArray l' → Forall2 val_expands l l' → val_expands v v'
| ve_other v :
    match jt_shape v with ShString _ | ShObject _ | ShArray _ => False | _ => True end → val_expands v v.

(** A string somewhere inside. *)
Inductive string_inside : J → string → Prop :=
| si_here j c s : c ∈ children (jt_shape j) → jt_shape c = ShString s → string_inside j s
| si_deeper j c s : c ∈ children (jt_shape j) → string_inside c s → string_inside j s.

(** How replaceMacros stops for the string. *)
Definition string_fails (s : string) (e : stop) : Prop :=
  ∃ e0, expands value s (Stops e0) ∧ e = wrap MACRO_EVALUATION_ERROR "Macro replacement failed: " e0.

Definition value_fails (v : J) (e : stop) : Prop :=
  ∃ s, (jt_shape v = ShString s ∨ string_inside v s) ∧ string_fails s e.
End documents.

(** A generator with the macros [t] and the world [w]. *)
Section walks.
Context (t : table) (w : @World E).
Abbreviation value := (macro_value t w).

Definition state_ok (g : gen) : Prop := gen_ok g ∧ macros g = t ∧ world g = w.

(** What a step of the walk promises. *)
Definition walk_ok {A} (r : gen * A * option stop) (good : A → Prop) (bad : stop → Prop) : Prop :=
  let '(g', a, e) := r in state_ok g' ∧ match e with None => good a | Some x => bad x end.

Lemma replaceMacros_state input (g : gen) :
  state_ok g →
  let '(g', r) := replaceMacros trim input g in
  state_ok g' ∧ match r with Returns s => expands value input (Returns s) | Stops x => string_fails value input x end.
Proof.
  intros (Hg & Ht & Hw). pose proof (replaceMacros_expands input g Hg) as H.
  destruct (replaceMacros trim input g) as [g' r]. destruct H as (Hg' & [Ht' Hw'] & res & Hres & ->).
  rewrite Ht, Hw in *. split; [by split_and!|]. destruct res; [done|]. by eexists.
Qed.

Lemma walk_list_ok (f : J → Walk J) (l : list J) (g : gen) :
  state_ok g →
  (∀ v g1, v ∈ l → state_ok g1 → walk_ok (f v g1) (val_expands value v) (value_fails value v)) →
  walk_ok (walk_list f l g) (Forall2 (val_expands value) l) (λ e, ∃ v, v ∈ l ∧ value_fails value v e).
Proof.
  revert g. induction l as [|v l IH]; intros g Hg Hf; cbn [walk_list]; [by split|].
  pose proof (Hf v g (list_elem_of_here _ _) Hg) as Hv.
  destruct (f v g) as [[g1 v'] [e|]]; destruct Hv as (Hg1 & Hv).
  - split; [done|]. exists v. split; [by left|done].
  - specialize (IH g1 Hg1). destruct (walk_list f l g1) as [[g2 l'] e].
    destruct IH as (Hg2 & He); [by intros; apply Hf; [right|]|]. split; [done|].
    destruct e as [x|]; [|by constructor]. destruct He as (v1 & Hv1 & He). exists v1. split; [by right|done].
Qed.

(** Containers and the values inside them, by induction on the fuel. *)
Lemma process_ok fuel (j : J) (g : gen) :
  (jt_depth j < fuel)%nat → state_ok g →
  walk_ok (process trim fuel j g)
    (λ j', match jt_shape j with ShObject _ | ShArray _ => val_expands value j j' | _ => j' = j end)
    (λ e, ∃ s, string_inside j s ∧ string_fails value s e).
Proof.
  revert j g. induction fuel as [|fuel IH]; intros j g Hd Hg; [lia|]. cbn [process].
  assert (Hval : ∀ v g1, v ∈ children (jt_shape j) → state_ok g1 →
    walk_ok (walk_value trim (process trim fuel) v g1) (val_expands value v) (value_fails value v)).
  { intros v g1 Hv Hg1. unfold walk_value. pose proof (jt_depth_child j v Hv) as Hdv.
    specialize (IH v g1 ltac:(lia) Hg1).
    destruct (jt_shape v) as [| | | |s|l|kvs] eqn:Ev;
      try (split; [done|apply ve_other; by rewrite Ev]).
    - pose proof (replaceMacros_state s g1 Hg1) as Hs. destruct (replaceMacros trim s g1) as [g2 [s'|e]];
        destruct Hs as [Hg2 Hs]; (split; [done|]).
      + eapply ve_string; [done|exact Hs|apply shape_string].
      + exists s. auto.
    - destruct (process trim fuel v g1) as [[g2 v'] e]. destruct IH as [Hg2 IH]. split; [done|].
      destruct e as [x|]; [|done]. destruct IH as (s & ? & ?). exists s. auto.
    - destruct (process trim fuel v g1) as [[g2 v'] e]. destruct IH as [Hg2 IH]. split; [done|].
      destruct e as [x|]; [|done]. destruct IH as (s & ? & ?). exists s. auto. }
  assert (Hbad : ∀ e, (∃ v, v ∈ children (jt_shape j) ∧ value_fails value v e) →
    ∃ s, string_inside j s ∧ string_fails value s e).
  { intros e (v & Hv & s & [Hs|Hs] & Hf); exists s; (split; [|done]); [by eapply si_here|by eapply si_deeper]. }
  destruct (jt_shape j) as [| | | |s|l|kvs] eqn:Ej; try (by split).
  - pose proof (walk_list_ok _ l g Hg Hval) as Hl.
    destruct (walk_list _ l g) as [[g1 l'] e]. destruct Hl as [Hg1 Hl]. split; [done|].
    destruct e; [by apply Hbad|]. eapply ve_array; [done|apply shape_array|done].
  - pose proof (walk_list_ok _ kvs.*2 g Hg Hval) as Hl.
    destruct (walk_list _ kvs.*2 g) as [[g1 vs] e]. destruct Hl as [Hg1 Hl]. split; [done|].
    destruct e; [by apply Hbad|]. pose proof (Forall2_length _ _ _ Hl) as Hlen. rewrite !length_fmap in Hlen.
    assert (Hz : (zip kvs.*1 vs).*1 = kvs.*1) by (apply fst_zip; rewrite length_fmap; lia).
    eapply ve_object; [done|apply jt_shape_make| |].
    + pose proof (jt_sorted _ _ Ej) as Hsort. rewrite keys_sorted_fst in Hsort |- *. by rewrite Hz.
    + done.
    + rewrite snd_zip; [done|]. rewrite length_fmap. lia.
Qed.
End walks.

(** ** Histories *)

Lemma macro_value_defined (t : table) w c s k v :
  macro_value t w c = Returns s → t !! k = None → macro_value (<[k := v]> t) w c = Returns s.
Proof.
  unfold macro_value. destruct (parse_macro trim c) as [[n args]|e]; [|done]. cbn. intros Hv Hk.
  destruct (decide (n = k)) as [->|]; [by rewrite Hk in Hv|]. by rewrite lookup_insert_ne.
Qed.

Lemma define_macro_ok k c (g : gen) : gen_ok g → gen_ok (define_macro trim k c g).1.
Proof.
  intros [Hp Hc Hsz]. unfold define_macro, g_bind, g_lift, g_modify.
  destruct (parse_macro trim c) as [call|e]; cbn; [|by split]. destruct (macros g !! k) eqn:Ek; [by split|].
  split; cbn; [| |done].
  - intros n v [[<- <-]|[_ Hn]]%lookup_insert_Some; [done|]. by eapply Hp.
  - intros c' s w Hs. apply macro_value_defined; [by apply Hc|done].
Qed.

Lemma g_iter_ok {A} (f : A → Gen unit) (l : list A) (g : gen) :
  (∀ a g, a ∈ l → gen_ok g → gen_ok (f a g).1) → gen_ok g → gen_ok (g_iter f l g).1.
Proof.
  revert g. induction l as [|a l IH]; intros g Hf Hg; [done|]. cbn [g_iter]. unfold g_bind.
  pose proof (Hf a g (list_elem_of_here _ _) Hg) as H1. destruct (f a g) as [g1 [[]|e]]; [|done].
  apply IH; [|done]. intros. apply Hf; [by right|done].
Qed.

Lemma preprocess_ok fuel (j : J) (g : gen) : gen_ok g → gen_ok (preprocess trim fuel j g).1.
Proof.
  revert j g. induction fuel as [|fuel IH]; intros j g Hg; [done|]. cbn [preprocess].
  destruct (jt_shape j) as [| | | | |l|kvs]; try done; apply g_iter_ok; try done.
  - intros v g1 _ Hg1. destruct (jt_shape v); auto.
  - intros [k v] g1 _ Hg1. cbn. destruct (jt_shape v); auto.
    destruct (macro_here s) as [[c []]|]; auto using define_macro_ok.
Qed.

Inductive gen_op :=
| AddMacro (name : string) (v : @MacroValue E)
| RemoveMacro (name : string)
| AddMacros (m : table)
| ReplaceMacros (input : string)
| ProcessJson (j : J)
| ProcessJsonWithJsonMacros (j : J)
| ClearMacroCache
| SetMaxCacheSize (n : nat)
| ResetStatistics.

Definition gen_step (g : gen) (op : gen_op) : gen :=
  match op with
  | AddMacro n v => (addMacro n v g).1
  | RemoveMacro n => (removeMacro n g).1
  | AddMacros m => (addMacros m g).1
  | ReplaceMacros s => (replaceMacros trim s g).1
  | ProcessJson j => (processJson trim j g).1.1
  | ProcessJsonWithJsonMacros j => (processJsonWithJsonMacros trim j g).1.1
  | ClearMacroCache => clearMacroCache g
  | SetMaxCacheSize n => setMaxCacheSize n g
  | ResetStatistics => resetStatistics g
  end.

Definition op_pure (op : gen_op) : Prop :=
  match op with
  | AddMacro _ v => is_pure v
  | AddMacros m => pure_table m
  | _ => True
  end.

Definition gen_run (e : E) (ops : list gen_op) : gen := foldl gen_step (TaskGenerator_new e) ops.

Lemma addMacro_ok n v (g : gen) : is_pure v → gen_ok g → gen_ok (addMacro n v g).1.
Proof.
  intros Hv [Hp Hc]. unfold addMacro. destruct (str_empty n); [by split|]. apply empty_cache_ok; [cbn|done].
  intros n' v' [[<- <-]|[_ ?]]%lookup_insert_Some; [done|]. by eapply Hp.
Qed.

Lemma foldl_insert_pure (kvs : list (string * @MacroValue E)) (t : table) :
  pure_table t → (∀ k v, (k, v) ∈ kvs → is_pure v) → pure_table (foldl (λ t kv, <[kv.1 := kv.2]> t) t kvs).
Proof.
  revert t. induction kvs as [|[k v] kvs IH]; intros t Ht Hkvs; [done|]. cbn [foldl]. apply IH.
  - intros n v' [[<- <-]|[_ ?]]%lookup_insert_Some; [by eapply (Hkvs k); left|by eapply Ht].
  - intros k' v' Hin. eapply Hkvs. by right.
Qed.

Lemma process_gen_ok fuel (j : J) (g : gen) : gen_ok g → gen_ok (process trim fuel j g).1.1.
Proof.
  revert j g. induction fuel as [|fuel IH]; intros j g Hg; [done|]. cbn [process].
  assert (Hl : ∀ l g, gen_ok g → gen_ok (walk_list (walk_value trim (process trim fuel)) l g).1.1).
  { induction l as [|v l IHl]; intros g1 Hg1; [done|]. cbn [walk_list].
    assert (Hv : gen_ok (walk_value trim (process trim fuel) v g1).1.1).
    { unfold walk_value. destruct (jt_shape v); try done; [|by apply IH..].
      pose proof (replaceMacros_expands s g1 Hg1) as Hs. destruct (replaceMacros trim s g1) as [g2 []]; apply Hs. }
    destruct (walk_value trim _ v g1) as [[g2 v'] [x|]]; [done|].
    specialize (IHl g2 Hv). by destruct (walk_list _ l g2) as [[? ?] ?]. }
  destruct (jt_shape j) as [| | | | |l|kvs]; try done.
  - specialize (Hl l g Hg). by destruct (walk_list _ l g) as [[? ?] ?].
  - specialize (Hl kvs.*2 g Hg). by destruct (walk_list _ kvs.*2 g) as [[? ?] ?].
Qed.

Lemma gen_step_ok (g : gen) op : gen_ok g → op_pure op → gen_ok (gen_step g op).
Proof.
  intros Hg Hop. destruct op as [n v|n|m|s|j|j| |n|]; cbn [gen_step].
  - by apply addMacro_ok.
  - unfold removeMacro. destruct (macros g !! n) eqn:En; [|done]. apply empty_cache_ok; [cbn|done].
    intros n' v' [_ ?]%lookup_delete_Some. by eapply (ok_pure _ Hg).
  - apply empty_cache_ok; [cbn|done]. apply foldl_insert_pure; [apply Hg|].
    intros k v Hkv%elem_of_iter_map. by eapply Hop.
  - pose proof (replaceMacros_expands s g Hg) as Hs. destruct (replaceMacros trim s g). apply Hs.
  - by apply process_gen_ok.
  - unfold processJsonWithJsonMacros. pose proof (preprocess_ok (S (jt_depth j)) j g Hg) as Hpre.
    unfold preprocessJsonMacros. destruct (preprocess trim _ j g) as [g1 [[]|e]]; [|done].
    by apply process_gen_ok.
  - apply empty_cache_ok; [apply Hg|done].
  - apply trimCache_ok; [|apply Hg]. intros c s w. apply (ok_cache _ Hg).
  - destruct Hg. by split.
Qed.

Lemma gen_new_ok (e : E) : gen_ok (TaskGenerator_new e).
Proof.
  unfold TaskGenerator_new, add_all. apply g_iter_ok; [|apply empty_cache_ok; [intros ??; cbn; by intros ?%lookup_empty_Some|done]].
  intros [n v] g Hin Hg. apply addMacro_ok; [|done]. cbn.
  assert (Hall : Forall (λ nv, is_pure nv.2) (@default_macros E)) by (repeat constructor; cbn; eauto).
  rewrite Forall_forall in Hall. apply (Hall _ Hin).
Qed.

Lemma gen_run_ok e ops : Forall op_pure ops → gen_ok (gen_run e ops).
Proof.
  unfold gen_run. generalize (gen_new_ok e). generalize (@TaskGenerator_new J E e).
  induction ops as [|op ops IH]; intros g Hg Hops; [done|]. apply Forall_cons in Hops as [Hop Hops].
  cbn. apply IH; [by apply gen_step_ok|done].
Qed.

(** A text whose value is not found in finite time has a macro that calls a
    function which runs forever. *)
Lemma expands_diverges (t : table) w s res :
  expands (macro_value t w) s res → res = Stops Diverges →
  ∃ name f args, t !! name = Some (MFun f) ∧ (f args w).2 = Stops Diverges.
Proof.
  induction 1 as [s Hno|s b c r v res Hin Hmin Hv Hr IH|s b c r x Hin Hmin Hv]; [done|..].
  - intros Hd. apply IH. by destruct res.
  - intros [= ->]. unfold macro_value in Hv. destruct (parse_macro trim c) as [[name args]|]; [|done].
    cbn in Hv. destruct (t !! name) as [[?|f]|] eqn:En; try done.
    exists name, f, args. split; [done|]. destruct (f args w).2 as [|[]]; naive_solver.
Qed.

(** [C22] The macro cache does not show.  After any history of a generator whose
    macros depend on their arguments only, replaceMacros ends the one way the
    input does under the current macros, read without a cache: from the left,
    each macro is replaced by its value, and what replaces it is not looked at
    again; the first macro without a value ends it, with the exception of that
    macro, or by never returning when the function of that macro does not.  The
    loop over the text itself always ends: replaceMacros runs forever only if
    some macro function does.  The macros stay, and the cache keeps within its
    bound. *)
Theorem replaceMacros_correct (e : E) (ops : list gen_op) (input : string) :
  Forall op_pure ops →
  let g := gen_run e ops in
  let '(g', r) := replaceMacros trim input g in
  (∃ res, (∀ res', expands (macro_value (macros g) (world g)) input res' ↔ res' = res)
     ∧ r = match res with
           | Returns t => Returns t
           | Stops x => Stops (wrap MACRO_EVALUATION_ERROR "Macro replacement failed: " x)
           end)
  ∧ (r = Stops Diverges →
       ∃ name f args, macros g !! name = Some (MFun f) ∧ (f args (world g)).2 = Stops Diverges)
  ∧ macros g' = macros g ∧ world g' = world g
  ∧ (size (macro_cache g') ≤ max_cache_size g')%nat.
Proof.
  intros Hops g. pose proof (gen_run_ok e ops Hops) as Hg. fold g in Hg.
  pose proof (replaceMacros_expands input g Hg) as H. destruct (replaceMacros trim input g) as [g' r].
  destruct H as (Hg' & [Ht Hw] & res & Hres & Hr). split_and!; [| |done|done|apply Hg'].
  - exists res. split; [|done]. intros res'. split; [|by intros ->]. intros Hres'. by eapply expands_functional.
  - intros ->. eapply expands_diverges; [done|]. by destruct res as [|[]].
Qed.

(** processJson walks the whole document.  When it succeeds, every string
    inside the document is replaced by the text it stands for and nothing else
    changes: kinds, keys, lengths and the other values stay.  When it stops,
    some string inside has a macro without a value, and it stops the way the
    expansion of that string does. *)
Theorem processJson_correct (e : E) (ops : list gen_op) (j : J) :
  Forall op_pure ops →
  let g := gen_run e ops in
  let value := macro_value (macros g) (world g) in
  let '(g', j', x) := processJson trim j g in
  macros g' = macros g ∧ world g' = world g
  ∧ match x with
    | None => match jt_shape j with
              | ShObject _ | ShArray _ => val_expands value j j'
              | _ => j' = j
              end
    | Some x => ∃ s, string_inside j s ∧ string_fails value s x
    end.
Proof.
  intros Hops g value. pose proof (gen_run_ok e ops Hops) as Hg. fold g in Hg.
  pose proof (process_ok (macros g) (world g) (S (jt_depth j)) j g (Nat.lt_succ_diag_r _)) as H.
  unfold processJson. destruct (process trim _ j g) as [[g' j'] x].
  destruct H as [(Hg' & Ht & Hw) H]; [by split_and!|]. by split_and!.
Qed.
End transparency.

(** ** A concrete generator *)

Section examples.
#[local] Instance hash_iter_string : HashIter string := canonical_iter.
#[local] Instance demo_tree : JsonTree jtree Z := jtree_json (λ _, "") (λ _, None).
#[local] Existing Instance floats_Z.

Definition demo_trim (s : string) : string :=
  let cut l := chars (skip_space (String.string_of_list_ascii l)) in
  String.string_of_list_ascii (rev (cut (rev (cut (chars s))))).

#[local] Instance demo_outside : @Outside unit := {|
  put_time f _ := f; milliseconds _ := 0; random_u64 o := (o, 0); getenv _ _ := None |}.

Definition demo_ops : list (@gen_op jtree unit) :=
  [AddMacro "filter" (MText "Ha"); SetMaxCacheSize 1;
   ReplaceMacros "${filter}_${concat(a, b,, c)}"; AddMacro "filter" (MText "OIII")].

Definition demo_generator : TaskGenerator := gen_run (F := Z) demo_trim () demo_ops.

Lemma demo_ops_pure : Forall op_pure demo_ops.
Proof. repeat constructor. Qed.

Lemma replaceMacros_correct_witness :
  Forall op_pure demo_ops
  ∧ (replaceMacros demo_trim "${${filter}}: ${concat(a, b,, c)}" demo_generator).2 = Returns "${OIII}: a b c"
  ∧ macros (replaceMacros demo_trim "${filter}" demo_generator).1 = macros demo_generator.
Proof.
  split; [exact demo_ops_pure|]. split; [vm_compute; reflexivity|].
  pose proof (replaceMacros_correct (F := Z) demo_trim () demo_ops "${filter}" demo_ops_pure) as H.
  cbn zeta in H. unfold demo_generator. destruct (replaceMacros demo_trim "${filter}" _). exact (proj1 (proj2 (proj2 H))).
Defined.

Definition demo_doc : jtree := TObj [("a", TArr [TStr "${filter}"; TInt 1]); ("b", TStr "${nope}")].

Lemma processJson_correct_witness :
  Forall op_pure demo_ops
  ∧ ∃ s x, (processJson demo_trim demo_doc demo_generator).2 = Some x
      ∧ string_inside demo_doc s
      ∧ string_fails (macro_value demo_trim (macros demo_generator) (world demo_generator)) s x.
Proof.
  split; [exact demo_ops_pure|].
  pose proof (processJson_correct (F := Z) demo_trim () demo_ops demo_doc demo_ops_pure) as H.
  cbn zeta in H. assert (Hx : is_Some (processJson demo_trim demo_doc demo_generator).2) by (vm_compute; by eexists).
  unfold demo_generator in *. destruct (processJson demo_trim demo_doc _) as [[g' j'] [x|]]; [|by destruct Hx].
  destruct H as (_ & _ & s & Hs & Hf). by exists s, x.
Defined.

Definition demo_fresh : @TaskGenerator jtree unit := TaskGenerator_new ().
Definition demo_builtin : @TaskGenerator jtree unit := (initializeBuiltInMacros (F := Z) demo_fresh).1.

(** The index macro is cached like any other: it counts once per text. *)
Example index_counts_once :
  (replaceMacros demo_trim "${index} ${index} ${index(0)}" demo_builtin).2 = Returns "0 0 1".
Proof. vm_compute. reflexivity. Qed.

(** A blank second argument of replace is trimmed to the empty text, which is
    found forever. *)
Lemma replace_text_empty fuel new s : replace_text fuel "" new s = None.
Proof.
  revert s. induction fuel as [|fuel IH]; intros s; [done|]. cbn [replace_text].
  assert (str_search "" s = Some 0%nat) as -> by by destruct s. by rewrite IH.
Qed.

Example replace_diverges :
  (replaceMacros demo_trim "${replace(a, ,b)}" demo_builtin).2 = Stops Diverges.
Proof. vm_compute. reflexivity. Qed.

(** A member that is a call of a macro defines a macro with the text of the
    call, which is not looked at again: nothing calls [test_macro] through it. *)
Example json_macro_not_called :
  let g := (addMacro "test_macro" (MFun (λ _ w, (w, Returns "test"))) demo_fresh).1 in
  let j := TObj [("key1", TStr "${macro1}"); ("macro1", TStr "${test_macro()}")] in
  (processJsonWithJsonMacros demo_trim j g).1.2
  = TObj [("key1", TStr "test_macro()"); ("macro1", TStr "test")].
Proof. vm_compute. reflexivity. Qed.

(** addMacros takes the empty name addMacro refuses. *)
Example addMacros_empty_name :
  hasMacro "" (addMacros {[ "" := MText "x" ]} demo_fresh).1 = true
  ∧ (addMacro "" (MText "x") demo_fresh).2
    = Stops (Raises (GenExn INVALID_MACRO_ARGS "Macro name cannot be empty")).
Proof. split; reflexivity. Qed.
End examples.
