(* ===== verification/TaskList.v ===== *)
(** * TaskList: task lists from definitions

    Models the task-list part of class TaskGenerator of
    src/src/task/core/generator.hpp and generator.cpp: conditions, repetitions,
    parameters shared by all tasks, and reading a configuration from JSON.
    Macros are expanded with processJson of TaskGenerator.v. *)

From S2P Require Import Prelude JsonCodec JsonTree TaskGenerator.

Local Open Scope Z_scope.

Section task_list.
Context {J F E : Type} `{JT : JsonTree J F, HS : !HashIter string}.
Context (trim : string → string).

Record TaskDefinition := mkDefinition {
  type : string;
  name : string;
  params : J;
  repeatCount : Z;
  condition : string;
  dependencies : list string;
  priority : Z;
  enabled : bool
}.

Record TaskListConfig := mkListConfig {
  targetName : string;
  tasks : list TaskDefinition;
  globalParams : J;
  expandRepeats : bool;
  processConditions : bool;
  applyMacros : bool
}.

(** [taskList] are the elements of the JSON array. *)
Record TaskListResult := mkListResult {
  taskList : list J;
  warnings : list string;
  errors : list string;
  totalTasks : Z;
  success : bool
}.

(** An exception of the JSON library. *)
Definition std {A} (r : result string A) : result gen_exn A :=
  match r with Ok a => Ok a | Throw m => Throw (StdExn m) end.

(** ** Conditions *)

(** An operand of equals: the member of the context with this name, or itself. *)
Definition operand (ctx : J) (s : string) : result gen_exn string :=
  match jt_find ctx s with
  | None => Ok s
  | Some v => match jt_get_string v with Some t => Ok t | None => std (jt_dump v) end
  end.

Definition evaluateCondition (c : string) (ctx : J) : result gen_exn bool :=
  if str_empty c || String.eqb c "true" then Ok true
  else if String.eqb c "false" then Ok false
  else if str_prefix "equals(" c then
    let a := str_substr 7 (String.length c - 8) c in
    match str_find "," a with
    | Some pos =>
        let* l := operand ctx (trim (str_take pos a)) in
        let* r := operand ctx (trim (str_drop (pos + 1) a)) in
        Ok (String.eqb l r)
    | None => Ok true
    end
  else Ok true.

(** ** The list *)

(** The parameters of the task, completed by those of all tasks. *)
Fixpoint merge_params (p : J) (globals : list (string * J)) : result gen_exn J :=
  match globals with
  | [] => Ok p
  | (k, v) :: rest =>
      if jt_contains p k then merge_params p rest
      else let* p := std (jt_put p k v) in merge_params p rest
  end.

Definition instance_name (td : TaskDefinition) (n i : nat) : string :=
  if decide (1 < n)%nat then name td +:+ "_" +:+ pretty (Z.of_nat i + 1) else name td.

(** The object of repetition [i] of [n]. *)
Definition make_task (cfg : TaskListConfig) (td : TaskDefinition) (n i : nat) : result gen_exn J :=
  let* p := merge_params (params td) (jt_items (globalParams cfg)) in
  Ok (jt_object [("type", jt_string (type td)); ("params", p); ("priority", jt_int (priority td));
                 ("name", jt_string (instance_name td n i));
                 ("dependencies", jt_array (map jt_string (dependencies td)))]).

(** The list as far as it got, and what ended the loop before its end. *)
Definition Loop : Type := @TaskGenerator J E → @TaskGenerator J E * list J * option stop.

Fixpoint repeat_loop (cfg : TaskListConfig) (td : TaskDefinition) (n : nat) (idx : list nat) (acc : list J) : Loop :=
  λ g,
  match idx with
  | [] => (g, acc, None)
  | i :: idx' =>
      match make_task cfg td n i with
      | Throw e => (g, acc, Some (Raises e))
      | Ok t =>
          let '(g, t, e) := if applyMacros cfg then processJson trim t g else (g, t, None) in
          match e with
          | Some e => (g, acc, Some e)
          | None => repeat_loop cfg td n idx' (acc ++ [t]) g
          end
      end
  end.

Definition copies (cfg : TaskListConfig) (td : TaskDefinition) : nat :=
  Z.to_nat (if expandRepeats cfg then repeatCount td else 1).

(** The two [continue]s. *)
Definition skipped (cfg : TaskListConfig) (td : TaskDefinition) : result gen_exn bool :=
  if negb (enabled td) then Ok true
  else if negb (str_empty (condition td)) && processConditions cfg then
    let* b := evaluateCondition (condition td) (globalParams cfg) in Ok (negb b)
  else Ok false.

Fixpoint task_loop (cfg : TaskListConfig) (tds : list TaskDefinition) (acc : list J) : Loop := λ g,
  match tds with
  | [] => (g, acc, None)
  | td :: tds' =>
      match skipped cfg td with
      | Throw e => (g, acc, Some (Raises e))
      | Ok true => task_loop cfg tds' acc g
      | Ok false =>
          match repeat_loop cfg td (copies cfg td) (seq 0 (copies cfg td)) acc g with
          | (g, acc, Some e) => (g, acc, Some e)
          | (g, acc, None) => task_loop cfg tds' acc g
          end
      end
  end.

Definition generateTaskList (cfg : TaskListConfig) : @Gen J E TaskListResult := λ g,
  match task_loop cfg (tasks cfg) [] g with
  | (g, l, None) => (g, Returns (mkListResult l [] [] (Z.of_nat (length l)) true))
  | (g, _, Some Diverges) => (g, Stops Diverges)
  | (g, l, Some (Raises e)) => (g, Returns (mkListResult l [] [what e] 0 false))
  end.

(** ** Reading the configuration *)

Definition member {A} (get : J → option A) (d : A) (k : string) (j : J) : result gen_exn A :=
  std (jt_value get d k j).

Fixpoint strings_of (l : list J) : result gen_exn (list string) :=
  match l with
  | [] => Ok []
  | d :: l' =>
      match jt_get_string d with
      | None => Throw (StdExn (jt_what 302 d))
      | Some s => let* r := strings_of l' in Ok (s :: r)
      end
  end.

Definition definition_of (tj : J) : result gen_exn TaskDefinition :=
  let* ty := member jt_get_string "" "type" tj in
  let* nm := member jt_get_string "Task" "name" tj in
  let* ps := member Some (jt_object []) "params" tj in
  let* rc := member jt_get_int 1 "repeat_count" tj in
  let* cond := member jt_get_string "" "condition" tj in
  let* prio := member jt_get_int 0 "priority" tj in
  let* en := member jt_get_bool true "enabled" tj in
  let* deps := match jt_find tj "dependencies" with
               | Some ds => strings_of (jt_elements ds)
               | None => Ok []
               end in
  Ok (mkDefinition ty nm ps rc cond deps prio en).

Fixpoint definitions_of (l : list J) : result gen_exn (list TaskDefinition) :=
  match l with
  | [] => Ok []
  | tj :: l' => let* td := definition_of tj in let* tds := definitions_of l' in Ok (td :: tds)
  end.

Definition config_of (j : J) : result gen_exn TaskListConfig :=
  let* gp := member Some (jt_object []) "global_params" j in
  let* er := member jt_get_bool true "expand_repeats" j in
  let* pc := member jt_get_bool true "process_conditions" j in
  let* am := member jt_get_bool true "apply_macros" j in
  let* tds := match jt_find j "tasks" with
              | Some ts => if jt_is_array ts then definitions_of (jt_elements ts) else Ok []
              | None => Ok []
              end in
  Ok (mkListConfig "" tds gp er pc am).

Definition generateTaskListFromJson (j : J) : @Gen J E TaskListResult :=
  g_bind (g_lift (config_of j)) generateTaskList.

(** ** Repetitions and conditions of a JSON list *)

Definition jt_erase (j : J) (k : string) : J :=
  match jt_shape j with
  | ShObject kvs => jt_make (ShObject (List.filter (λ kv, negb (String.eqb kv.1 k)) kvs))
  | _ => j
  end.

Definition repetition (t : J) (base : string) (n i : Z) : result gen_exn J :=
  let et := jt_erase t "repeat_count" in
  if 1 <? n then
    let* et := std (jt_put et "name" (jt_string (base +:+ "_" +:+ pretty (i + 1)))) in
    std (jt_put et "iteration" (jt_int i))
  else Ok et.

Fixpoint collect_results {A} (l : list (result gen_exn A)) : result gen_exn (list A) :=
  match l with
  | [] => Ok []
  | r :: l' => let* a := r in let* rest := collect_results l' in Ok (a :: rest)
  end.

Definition expand_task (t : J) : result gen_exn (list J) :=
  let* n := member jt_get_int 1 "repeat_count" t in
  let* base := member jt_get_string "task" "name" t in
  collect_results (map (λ i, repetition t base n (Z.of_nat i)) (seq 0 (Z.to_nat n))).

Definition expandTaskRepetitions (ts : J) : result gen_exn J :=
  let* lists := collect_results (map expand_task (jt_elements ts)) in Ok (jt_array (concat lists)).

Fixpoint conditional_tasks (ctx : J) (l : list J) : result gen_exn (list J) :=
  match l with
  | [] => Ok []
  | t :: l' =>
      let* keep := match jt_find t "condition" with
                   | None => Ok true
                   | Some c => match jt_get_string c with
                               | None => Throw (StdExn (jt_what 302 c))
                               | Some s => evaluateCondition s ctx
                               end
                   end in
      let* rest := conditional_tasks ctx l' in
      Ok (if keep then t :: rest else rest)
  end.

Definition processConditionalTasks (ts ctx : J) : result gen_exn J :=
  let* l := conditional_tasks ctx (jt_elements ts) in Ok (jt_array l).
End task_list.

(** ** What the list contains *)

Section specification.
Context {J F E : Type} `{JT : JsonTree J F, HS : !HashIter string}.
Context (trim : string → string).
Abbreviation gen := (@TaskGenerator J E).
Abbreviation config := (@TaskListConfig J).
Abbreviation definition := (@TaskDefinition J).

(** A definition counts when it is enabled and its condition holds. *)
Definition wanted (cfg : config) (td : definition) : Prop :=
  enabled td = true
  ∧ (condition td = "" ∨ processConditions cfg = false
     ∨ evaluateCondition trim (condition td) (globalParams cfg) = Ok true).

#[global] Instance wanted_dec cfg td : Decision (wanted cfg td).
Proof. unfold wanted. apply _. Defined.

(** The tasks to come, as definitions with the number of the repetition. *)
Definition planned (cfg : config) : list (definition * nat) :=
  concat (map (λ td, map (pair td) (seq 0 (copies cfg td))) (filter (wanted cfg) (tasks cfg))).

(** A parameter of a task: its own, or the one for all tasks. *)
Definition param_of (cfg : config) (td : definition) (k : string) : option J :=
  match jt_find (params td) k with
  | Some v => Some v
  | None => assoc k (jt_items (globalParams cfg))
  end.

(** The task [t] for repetition [i] of [td], when the macros have these values. *)
Definition task_of (value : string → outcome string) (cfg : config) (td : definition) (i : nat) (t : J) : Prop :=
  ∃ t0 ps,
    t0 = jt_object [("type", jt_string (type td)); ("params", ps); ("priority", jt_int (priority td));
                    ("name", jt_string (instance_name td (copies cfg td) i));
                    ("dependencies", jt_array (map jt_string (dependencies td)))]
    ∧ (∀ k, jt_find ps k = param_of cfg td k)
    ∧ if applyMacros cfg then val_expands value t0 t else t = t0.

Lemma merge_params_find (p p' : J) globals k :
  merge_params p globals = Ok p' →
  jt_find p' k = match jt_find p k with Some v => Some v | None => assoc k globals end.
Proof.
  revert p. induction globals as [|[k1 v1] globals IH]; intros p; cbn [merge_params assoc].
  - intros [= ->]. by destruct (jt_find p' k).
  - unfold jt_contains. destruct (jt_find p k1) as [v|] eqn:E1.
    + intros H%IH. rewrite H. destruct (jt_find p k) eqn:Ek; [done|].
      destruct (String.eqb_spec k k1) as [->|]; [congruence|done].
    + intros (p1 & Hp1 & H%IH)%rbind_ok_inv. rewrite H. unfold std in Hp1.
      destruct (jt_put p k1 v1) as [p2|] eqn:Ep; [|done]. injection Hp1 as ->.
      rewrite (find_put _ _ _ _ k Ep). destruct (String.eqb_spec k k1) as [->|]; [by rewrite E1|].
      by destruct (jt_find p k).
Qed.

(** A list grows by the tasks of some planned repetitions. *)
Definition grows (value : string → outcome string) (cfg : config) (plan : list (definition * nat))
    (acc acc' : list J) : Prop :=
  ∃ new, acc' = acc ++ new ∧ Forall2 (λ p t, task_of value cfg p.1 p.2 t) plan new.

Lemma grows_nil value cfg acc : grows value cfg [] acc acc.
Proof. exists []. by rewrite app_nil_r. Qed.

Lemma grows_app value cfg plan plan' acc acc' acc'' :
  grows value cfg plan acc acc' → grows value cfg plan' acc' acc'' → grows value cfg (plan ++ plan') acc acc''.
Proof.
  intros (n1 & -> & H1) (n2 & -> & H2). exists (n1 ++ n2). split; [by rewrite app_assoc|by apply Forall2_app].
Qed.

(** What a loop promises: the whole plan, or a part of it and an exception. *)
Definition loop_ok t w cfg (plan : list (definition * nat)) (acc : list J)
    (r : gen * list J * option stop) : Prop :=
  let '(g', acc', e) := r in
  state_ok trim t w g'
  ∧ match e with
    | None => grows (macro_value trim t w) cfg plan acc acc'
    | Some _ => ∃ k, (k < length plan)%nat ∧ grows (macro_value trim t w) cfg (take k plan) acc acc'
    end.

Lemma repeat_loop_ok t w cfg td idx acc (g : gen) :
  state_ok trim t w g →
  loop_ok t w cfg (map (pair td) idx) acc (repeat_loop trim cfg td (copies cfg td) idx acc g).
Proof.
  revert acc g. induction idx as [|i idx IH]; intros acc g Hg; cbn [repeat_loop map].
  { split; [done|apply grows_nil]. }
  destruct (make_task cfg td (copies cfg td) i) as [t0|e] eqn:Et; cycle 1.
  { split; [done|]. exists 0%nat. split; [cbn; lia|apply grows_nil]. }
  unfold make_task in Et. apply rbind_ok_inv in Et as (ps & Hps & [= Ht0]).
  assert (Hstep : let '(g1, t1, e) := if applyMacros cfg then processJson trim t0 g else (g, t0, None) in
    state_ok trim t w g1 ∧ (e = None → task_of (macro_value trim t w) cfg td i t1)).
  { assert (Hparams : ∀ k, jt_find ps k = param_of cfg td k) by (intros k; by apply merge_params_find).
    destruct (applyMacros cfg) eqn:Em.
    - pose proof (process_ok trim t w (S (jt_depth t0)) t0 g (Nat.lt_succ_diag_r _) Hg) as Hp.
      unfold processJson. destruct (process trim _ t0 g) as [[g1 t1] e]. destruct Hp as [Hg1 Hp].
      split; [done|]. intros ->. exists t0, ps. rewrite Em. split_and!; [done|done|].
      rewrite <- Ht0, shape_object in Hp. by rewrite <- Ht0.
    - split; [done|]. intros _. exists t0, ps. by rewrite Em. }
  destruct (if applyMacros cfg then _ else _) as [[g1 t1] [e|]]; destruct Hstep as [Hg1 Ht1].
  { split; [done|]. exists 0%nat. split; [cbn; lia|apply grows_nil]. }
  assert (Hone : grows (macro_value trim t w) cfg [(td, i)] acc (acc ++ [t1])).
  { exists [t1]. split; [done|]. repeat constructor. by apply Ht1. }
  specialize (IH (acc ++ [t1]) g1 Hg1). destruct (repeat_loop trim cfg td _ idx _ g1) as [[g2 acc2] e].
  destruct IH as [Hg2 IH]. split; [done|]. destruct e as [e|].
  - destruct IH as (k & Hk & Hgr). exists (S k). split; [cbn in *; lia|]. cbn [take].
    by apply (grows_app _ _ [(td, i)] _ _ _ _ Hone).
  - by apply (grows_app _ _ [(td, i)] _ _ _ _ Hone).
Qed.

Lemma skipped_wanted cfg td b : skipped trim cfg td = Ok b → (b = false ↔ wanted cfg td).
Proof.
  unfold skipped, wanted. destruct (enabled td); cbn [negb]; [|intros [= <-]; naive_solver].
  destruct (str_empty (condition td)) eqn:Ec; cbn [negb andb].
  { intros [= <-]. destruct (condition td); naive_solver. }
  destruct (processConditions cfg) eqn:Ep; [|intros [= <-]; naive_solver].
  intros (b' & Hb & [= <-])%rbind_ok_inv. rewrite Hb.
  assert (condition td ≠ "") by (by destruct (condition td)). destruct b'; naive_solver.
Qed.

Lemma task_loop_ok t w cfg tds acc (g : gen) :
  state_ok trim t w g →
  let plan := concat (map (λ td, map (pair td) (seq 0 (copies cfg td))) (filter (wanted cfg) tds)) in
  let '(g', acc', e) := task_loop trim cfg tds acc g in
  state_ok trim t w g'
  ∧ match e with
    | None => grows (macro_value trim t w) cfg plan acc acc'
    | Some _ => ∃ k, (k ≤ length plan)%nat ∧ grows (macro_value trim t w) cfg (take k plan) acc acc'
    end.
Proof.
  revert acc g. induction tds as [|td tds IH]; intros acc g Hg; cbn [task_loop].
  { split; [done|apply grows_nil]. }
  rewrite filter_cons. destruct (skipped trim cfg td) as [[]|e] eqn:Es.
  - assert (¬ wanted cfg td) by (intros Hw; by apply (skipped_wanted _ _ _ Es) in Hw).
    rewrite decide_False by done. by apply IH.
  - rewrite decide_True by (by apply (skipped_wanted _ _ _ Es)). cbn [map concat].
    pose proof (repeat_loop_ok t w cfg td (seq 0 (copies cfg td)) acc g Hg) as Hr.
    destruct (repeat_loop trim cfg td _ _ acc g) as [[g1 acc1] e]. destruct Hr as [Hg1 Hr]. destruct e as [e|].
    + split; [done|]. destruct Hr as (k & Hk & Hr). exists k. rewrite length_app. split; [lia|].
      by rewrite take_app_le by lia.
    + specialize (IH acc1 g1 Hg1). destruct (task_loop trim cfg tds acc1 g1) as [[g2 acc2] e].
      destruct IH as [Hg2 IH]. split; [done|]. destruct e as [e|].
      * destruct IH as (k & Hk & IH). exists (length (map (pair td) (seq 0 (copies cfg td))) + k)%nat.
        rewrite length_app. split; [lia|]. rewrite take_app_add. by eapply grows_app.
      * by eapply grows_app.
  - split; [done|]. exists 0%nat. split; [lia|]. rewrite take_0. apply grows_nil.
Qed.

(** ** When nothing can fail *)

Definition fail_free (cfg : config) : Prop :=
  applyMacros cfg = false
  ∧ ∀ td, td ∈ tasks cfg → jt_is_object (params td) = true ∧ is_ok (skipped trim cfg td) = true.

Lemma put_object (p : J) k v : jt_is_object p = true → ∃ p', jt_put p k v = Ok p' ∧ jt_is_object p' = true.
Proof.
  unfold jt_is_object, jt_put. destruct (jt_shape p) as [| | | | | |kvs] eqn:Ep; try done. intros _.
  eexists. split; [done|]. rewrite jt_shape_make; [done|]. apply obj_set_sorted. by eapply jt_sorted.
Qed.

Lemma merge_params_object (p : J) globals : jt_is_object p = true → ∃ p', merge_params p globals = Ok p'.
Proof.
  revert p. induction globals as [|[k v] globals IH]; intros p Hp; cbn [merge_params]; [by eexists|].
  destruct (jt_contains p k); [by apply IH|]. destruct (put_object p k v Hp) as (p' & -> & Hp'). by apply IH.
Qed.

Lemma repeat_loop_succeeds cfg td n idx acc (g : gen) :
  applyMacros cfg = false → jt_is_object (params td) = true → (repeat_loop trim cfg td n idx acc g).2 = None.
Proof.
  intros Hm Hp. revert acc g. induction idx as [|i idx IH]; intros acc g; cbn [repeat_loop]; [done|].
  unfold make_task. destruct (merge_params_object _ (jt_items (globalParams cfg)) Hp) as [p' ->]. cbn. rewrite Hm.
  apply IH.
Qed.

Lemma task_loop_succeeds cfg tds acc (g : gen) :
  applyMacros cfg = false →
  (∀ td, td ∈ tds → jt_is_object (params td) = true ∧ is_ok (skipped trim cfg td) = true) →
  (task_loop trim cfg tds acc g).2 = None.
Proof.
  intros Hm. revert acc g. induction tds as [|td tds IH]; intros acc g Htds; cbn [task_loop]; [done|].
  destruct (Htds td (list_elem_of_here _ _)) as [Hp Hs].
  assert (Htds' : ∀ td, td ∈ tds → jt_is_object (params td) = true ∧ is_ok (skipped trim cfg td) = true)
    by (intros; apply Htds; by right).
  destruct (skipped trim cfg td) as [[]|]; [by apply IH| |done].
  pose proof (repeat_loop_succeeds cfg td (copies cfg td) (seq 0 (copies cfg td)) acc g Hm Hp) as Hr.
  destruct (repeat_loop trim cfg td _ _ acc g) as [[g1 acc1] e]. cbn in Hr. subst e. by apply IH.
Qed.

(** A generated list holds, in order, one task for each repetition of each
    definition that is enabled and whose condition holds; the task has the type,
    priority and dependencies of its definition, its name (numbered from 1 when
    there are several), and its parameters completed by the shared ones; strings
    are expanded if macros are applied.  Otherwise the result carries one error
    and the list is that of the first repetitions.  Without macros, and with
    parameters that are objects and conditions that can be evaluated, it
    succeeds. *)
Theorem generateTaskList_correct (e : E) (ops : list gen_op) (cfg : config) :
  Forall op_pure ops →
  let g := gen_run trim e ops in
  let made := Forall2 (λ p t, task_of (macro_value trim (macros g) (world g)) cfg p.1 p.2 t) in
  let '(g', r) := generateTaskList trim cfg g in
  macros g' = macros g
  ∧ (match r with
     | Returns res =>
         if success res
         then errors res = [] ∧ made (planned cfg) (taskList res)
              ∧ totalTasks res = Z.of_nat (length (planned cfg))
         else (∃ m, errors res = [m]) ∧ totalTasks res = 0
              ∧ ∃ k, (k ≤ length (planned cfg))%nat ∧ made (take k (planned cfg)) (taskList res)
     | Stops x => x = Diverges
     end)
  ∧ (fail_free cfg → ∃ res, r = Returns res ∧ success res = true).
Proof.
  intros Hops g made. pose proof (gen_run_ok trim e ops Hops) as Hg. fold g in Hg.
  pose proof (task_loop_ok (macros g) (world g) cfg (tasks cfg) [] g (conj Hg (conj eq_refl eq_refl))) as Hl.
  cbn zeta in Hl. fold (planned cfg) in Hl.
  assert (Hfree : fail_free cfg → (task_loop trim cfg (tasks cfg) [] g).2 = None).
  { intros [Hm Htds]. by apply task_loop_succeeds. }
  unfold generateTaskList. destruct (task_loop trim cfg (tasks cfg) [] g) as [[g' l] x]. cbn [snd] in Hfree.
  destruct Hl as [(_ & Ht & _) Hl]. destruct x as [x|].
  - destruct Hl as (k & Hk & new & -> & Hnew).
    destruct x; (split_and!; [done| |by intros Hf; apply Hfree in Hf]); cbn; eauto 7.
  - destruct Hl as (new & -> & Hnew). split_and!; [done| |by eexists]. cbn. split_and!; [done|done|].
    by rewrite (Forall2_length _ _ _ Hnew).
Qed.
End specification.

(** ** A concrete list *)

Section examples.
#[local] Instance hash_iter_string : HashIter string := canonical_iter.
#[local] Instance demo_tree : JsonTree jtree Z := jtree_json (λ _, "1") (λ _, None).

Definition demo_config (macros : bool) : TaskListConfig :=
  mkListConfig "M31"
    [mkDefinition "TakeExposure" "expose" (TObj [("filter", TStr "${filter}")]) 2 "equals(night, yes)" [] 5 true;
     mkDefinition "Focus" "focus" (TObj []) 1 "equals(night, no)" ["expose"] 0 true;
     mkDefinition "Park" "park" (TObj []) (-1) "" [] 0 true]
    (TObj [("night", TStr "yes"); ("gain", TInt 100)]) true true macros.

Example demo_list :
  match generateTaskList demo_trim (demo_config true) (gen_run (F := Z) demo_trim () demo_ops) with
  | (_, Returns res) => map (λ t, (jt_find t "name", jt_find t "params")) (taskList res)
  | _ => []
  end = [(Some (TStr "expose_1"), Some (TObj [("filter", TStr "OIII"); ("gain", TInt 100); ("night", TStr "yes")]));
         (Some (TStr "expose_2"), Some (TObj [("filter", TStr "OIII"); ("gain", TInt 100); ("night", TStr "yes")]))].
Proof. vm_compute. reflexivity. Qed.

Lemma generateTaskList_correct_witness :
  Forall op_pure demo_ops ∧ fail_free demo_trim (demo_config false)
  ∧ ∃ res, (generateTaskList demo_trim (demo_config false) (gen_run (F := Z) demo_trim () demo_ops)).2 = Returns res
      ∧ success res = true.
Proof.
  assert (Hfree : fail_free demo_trim (demo_config false)).
  { split; [done|]. apply Forall_forall. repeat constructor; vm_compute; reflexivity. }
  split; [exact demo_ops_pure|]. split; [exact Hfree|].
  pose proof (generateTaskList_correct demo_trim () demo_ops (demo_config false) demo_ops_pure) as H.
  cbn zeta in H. destruct (generateTaskList demo_trim (demo_config false) _) as [g' r].
  exact (proj2 (proj2 H) Hfree).
Defined.

(** A condition that is neither a constant nor an equals holds. *)
Example unknown_condition_holds :
  evaluateCondition demo_trim "night == no" (TObj [("night", TStr "yes")]) = Ok true.
Proof. reflexivity. Qed.
End examples.
