(* ===== verification/ScriptGenerator.v ===== *)
(** * ScriptGenerator: scripts from templates

    Models the script part of class TaskGenerator of
    src/src/task/core/generator.hpp and generator.cpp.  The YAML branches of the
    code read and write JSON, as here; loading and saving template directories
    are placeholders in the code.  [now] is the time in milliseconds. *)

From S2P Require Import Prelude JsonCodec JsonTree TaskGenerator TaskList.

Local Open Scope Z_scope.

Section scripts.
Context {J F E : Type} `{JT : JsonTree J F, HS : !HashIter string, sorter : StdSort, FO : !Floats F}.
Context (trim : string → string).
Abbreviation gen := (@TaskGenerator J E).
Abbreviation template := (@ScriptTemplate J).

Record ScriptGenerationResult := mkScriptResult {
  generatedScript : string;
  script_warnings : list string;
  script_errors : list string;
  metadata : J;
  script_success : bool
}.

Definition script_failed (e : list string) : ScriptGenerationResult :=
  mkScriptResult "" [] e (jt_make ShNull) false.
Definition script_done (text : string) (meta : J) : ScriptGenerationResult :=
  mkScriptResult text [] [] meta true.

(** The catch block around a generation: [prefix] and what() become the error. *)
Definition caught (before : string) (r : result gen_exn ScriptGenerationResult) : ScriptGenerationResult :=
  match r with Ok res => res | Throw e => script_failed [before +:+ what e] end.

(** ** Configuration and templates *)

Definition setScriptConfig (c : ScriptConfig) (g : gen) : gen := g <| scriptConfig := c |>.
Definition getScriptConfig (g : gen) : ScriptConfig := scriptConfig g.

Definition registerScriptTemplate (n : string) (t : template) (g : gen) : gen :=
  g <| scriptTemplates ::= <[n := t]> |>.
Definition unregisterScriptTemplate (n : string) (g : gen) : gen := g <| scriptTemplates ::= delete n |>.

Definition getAvailableTemplates (g : gen) : list string := std_sort str_ltb (iter_keys (scriptTemplates g)).
Definition getTemplateInfo (n : string) (g : gen) : option template := scriptTemplates g !! n.

Definition dq : string := String (Ascii.ascii_of_nat 34) "".

Definition exposure_template : template :=
  mkScriptTemplate "exposure" ""
    ("{" +:+ dq +:+ "type" +:+ dq +:+ ":" +:+ dq +:+ "exposure" +:+ dq +:+ "," +:+ dq +:+ "params" +:+ dq
     +:+ ":{" +:+ dq +:+ "exposure_time" +:+ dq +:+ ":${exposure_time}," +:+ dq +:+ "filter" +:+ dq
     +:+ ":" +:+ dq +:+ "${filter}" +:+ dq +:+ "}}")
    ["exposure_time"; "filter"] (jt_make ShNull) "imaging" "1.0".
Definition registerDefaultTemplates (g : gen) : gen := registerScriptTemplate "exposure" exposure_template g.

(** ** Generation from a template *)

Definition validateParameters (required : list string) (provided : J) : bool :=
  forallb (jt_contains provided) required.

(** The replacement loop for one parameter; the placeholder is not empty. *)
Definition fill (key replacement s : string) : string :=
  default s (replace_text (S (String.length s)) ("${" +:+ key +:+ "}") replacement s).

(** A string is taken as it is, another value as its dump. *)
Definition param_text (value : J) : result gen_exn string :=
  match jt_get_string value with Some t => Ok t | None => std (jt_dump value) end.

Fixpoint fill_all (s : string) (params : list (string * J)) : result gen_exn string :=
  match params with
  | [] => Ok s
  | (key, value) :: rest =>
      let* replacement := param_text value in
      fill_all (fill key replacement s) rest
  end.

Definition processTemplate (content : string) (parameters : J) : @Gen J E string :=
  g_bind (g_lift (fill_all content (jt_items parameters))) (λ s, replaceMacros trim s).

Definition generateScript (now : Z) (n : string) (parameters : J) : @Gen J E ScriptGenerationResult := λ g,
  match scriptTemplates g !! n with
  | None => (g, Returns (script_failed ["Template not found: " +:+ n]))
  | Some t =>
      if validateParameters (requiredParams t) parameters then
        let '(g, r) := processTemplate (template_content t) parameters g in
        (g, match r with
            | Returns text => Returns (script_done text
                (jt_object [("template_name", jt_string n); ("template_version", jt_string (template_version t));
                            ("generated_at", jt_int now)]))
            | Stops (Raises e) => Returns (script_failed ["Script generation failed: " +:+ what e])
            | Stops Diverges => Stops Diverges
            end)
      else (g, Returns (script_failed ["Missing required parameters"]))
  end.

(** ** Scripts as documents *)

Definition generateJsonScript (data : J) : result gen_exn string := std (jt_dump_indent 2 data).
Definition parseJsonScript (script : string) : result gen_exn J := std (jt_parse script).

Definition validateScriptStructure (script : J) : list string :=
  if negb (jt_is_object script) then ["Script must be a JSON object"]
  else match jt_find script "targets" with
       | Some ts =>
           if jt_is_array ts
           then omap (λ t, if jt_contains t "name" then None else Some "Target must have a name") (jt_elements ts)
           else []
       | None => []
       end.

Definition target_of (t : J) : result gen_exn J :=
  let* nm := member jt_get_string "Unnamed Target" "name" t in
  let* ra := member jt_get_float f_zero "ra" t in
  let* dec := member jt_get_float f_zero "dec" t in
  let* ts := member Some (jt_array []) "tasks" t in
  Ok (jt_object [("name", jt_string nm); ("ra", jt_make (ShFloat ra)); ("dec", jt_make (ShFloat dec)); ("tasks", ts)]).

Definition sequence_script (c : J) (ts : J) : result gen_exn ScriptGenerationResult :=
  let* nm := member jt_get_string "Generated Sequence" "name" c in
  let* desc := member jt_get_string "Auto-generated sequence" "description" c in
  let* targets := collect_results (map target_of (jt_elements ts)) in
  let* text := generateJsonScript (jt_object [("name", jt_string nm); ("description", jt_string desc);
                                              ("targets", jt_array targets)]) in
  Ok (script_done text (jt_object [("type", jt_string "sequence");
                                   ("target_count", jt_int (Z.of_nat (length (jt_elements ts))))])).

Definition generateSequenceScript (c : J) : ScriptGenerationResult :=
  match jt_find c "targets" with
  | Some ts =>
      if jt_is_array ts then caught "Sequence generation failed: " (sequence_script c ts)
      else script_failed ["Sequence configuration must contain 'targets' array"]
  | None => script_failed ["Sequence configuration must contain 'targets' array"]
  end.

Definition parseScript (script : string) : ScriptGenerationResult :=
  caught "Parse error: "
    (let* parsed := parseJsonScript script in
     match validateScriptStructure parsed with
     | [] => let* meta := member Some (jt_object []) "metadata" parsed in Ok (script_done script meta)
     | errors => Ok (script_failed errors)
     end).

Definition generateCustomTaskScript (taskType : string) (c : J) : ScriptGenerationResult :=
  caught "Custom task script generation failed: "
    (let* nm := member jt_get_string "Custom Task" "name" c in
     let* ps := member Some (jt_object []) "parameters" c in
     let* timeout := member jt_get_int 30 "timeout" c in
     let* retry := member jt_get_int 0 "retry_count" c in
     let* text := generateJsonScript (jt_object [("task_type", jt_string taskType); ("name", jt_string nm);
       ("parameters", ps); ("timeout", jt_int timeout); ("retry_count", jt_int retry)]) in
     Ok (script_done text (jt_object [("task_type", jt_string taskType)]))).

(** Tasks without a name are dropped. *)
Fixpoint named_tasks (l : list J) : result gen_exn (list J) :=
  match l with
  | [] => Ok []
  | t :: l' =>
      let* nm := member jt_get_string "" "name" t in
      let* rest := named_tasks l' in
      Ok (if str_empty nm then rest else t :: rest)
  end.

Definition optimizeScriptJson (script : J) : result gen_exn J :=
  match jt_find script "tasks" with
  | Some ts =>
      if jt_is_array ts then
        let* filtered := named_tasks (jt_elements ts) in std (jt_put script "tasks" (jt_array filtered))
      else Ok script
  | None => Ok script
  end.

Definition optimizeScript (script : string) : ScriptGenerationResult :=
  caught "Script optimization failed: "
    (let* parsed := parseJsonScript script in
     let* optimized := optimizeScriptJson parsed in
     let* text := generateJsonScript optimized in
     Ok (script_done text (jt_object [("optimized", jt_bool true)]))).

Definition validateScript (script templateName : string) (g : gen) : bool :=
  match parseJsonScript script with
  | Throw _ => false
  | Ok parsed =>
      let errors := validateScriptStructure parsed in
      let params_ok :=
        if str_empty templateName then true
        else match scriptTemplates g !! templateName with
             | Some t => validateParameters (requiredParams t) parsed
             | None => true
             end in
      params_ok && match errors with [] => true | _ => false end
  end.

Definition convertScriptFormat (script fromFormat toFormat : string) : ScriptGenerationResult :=
  caught "Format conversion failed: "
    (let* parsed := parseJsonScript script in
     let* text := generateJsonScript parsed in
     Ok (script_done text (jt_object [("converted_from", jt_string fromFormat); ("converted_to", jt_string toFormat)]))).

(** ** What a template becomes *)

Lemma str_prefix_app (t s : string) : str_prefix t s = true ↔ ∃ r, s = t +:+ r.
Proof.
  revert s. induction t as [|c t IH]; intros s; cbn; [split; [by exists s|done]|].
  destruct s as [|d s]; [split; [done|by intros [? ?]]|].
  rewrite andb_true_iff, IH, Ascii.eqb_eq. split.
  - intros [<- [r ->]]. by exists r.
  - intros [r [= <- ->]]. split; [done|by exists r].
Qed.

Lemma str_search_some (t s : string) i :
  str_search t s = Some i → (i + String.length t ≤ String.length s)%nat.
Proof.
  revert i. induction s as [|c s IH]; intros i; cbn [str_search].
  - destruct (str_prefix t "") eqn:Ep; [|done]. intros [= <-]. apply str_prefix_app in Ep as [r Ep].
    apply (f_equal String.length) in Ep. rewrite str_length_app in Ep. lia.
  - destruct (str_prefix t (String c s)) eqn:Ep.
    + intros [= <-]. apply str_prefix_app in Ep as [r Ep]. apply (f_equal String.length) in Ep.
      rewrite str_length_app in Ep. lia.
    + destruct (str_search t s) as [j|]; [|done]. intros [= <-]. specialize (IH j eq_refl). cbn. lia.
Qed.

(** The loop ends when what it looks for is not empty. *)
Lemma replace_text_total fuel (old new s : string) :
  old ≠ "" → (String.length s < fuel)%nat → is_Some (replace_text fuel old new s).
Proof.
  intros Hold. revert s. induction fuel as [|fuel IH]; intros s Hf; [lia|]. cbn [replace_text].
  destruct (str_search old s) as [i|] eqn:Ei; [|by eexists]. apply str_search_some in Ei.
  assert (0 < String.length old)%nat by (destruct old; cbn; [done|lia]).
  destruct (IH (str_drop (i + String.length old) s)) as [t ->]; [rewrite str_length_drop; lia|by eexists].
Qed.

(** Expansion keeps the templates. *)
Lemma cached_macro_templates c (g : gen) : scriptTemplates (cached_macro trim c g).1 = scriptTemplates g.
Proof.
  unfold cached_macro, g_bind, g_lift, g_modify, g_ret. destruct (macro_cache g !! c); [done|].
  destruct (parse_macro trim c) as [[nm args]|]; [|done]. cbn. unfold evaluateMacro. cbn.
  destruct (macros g !! nm) as [[text|f]|]; [| |done]; cbn; [by unfold trimCache; case_decide|].
  destruct (f args (world g)) as [w [text|x]]; cbn; [by unfold trimCache; case_decide|done].
Qed.

Lemma replaceMacros_templates input (g : gen) : scriptTemplates (replaceMacros trim input g).1 = scriptTemplates g.
Proof.
  unfold replaceMacros. enough (Hloop : ∀ fuel s pos (g : gen),
    scriptTemplates (replace_loop trim fuel s pos g).1 = scriptTemplates g).
  { specialize (Hloop (String.length input) input 0%nat g). by destruct (replace_loop _ _ _ _ g) as [? []]. }
  clear. induction fuel as [|fuel IH]; intros s pos g; cbn [replace_loop]; [done|].
  destruct (find_macro _) as [[[before c] rest]|]; [|done]. unfold g_bind.
  pose proof (cached_macro_templates c g) as Hc. destruct (cached_macro trim c g) as [g1 [v|x]]; [|done].
  by rewrite IH.
Qed.

Lemma validateParameters_spec required (provided : J) :
  validateParameters required provided = true ↔ Forall (λ p, is_Some (jt_find provided p)) required.
Proof.
  unfold validateParameters. rewrite forallb_forall, Forall_forall. setoid_rewrite <- list_elem_of_In.
  unfold jt_contains. split; intros Hall p Hp; specialize (Hall p Hp); by destruct (jt_find provided p).
Qed.

(** What filling in is: from the left, every occurrence of the placeholder is
    replaced, and what replaces it is not looked at again. *)
Inductive replaced (old new : string) : string → string → Prop :=
| replaced_none s : (∀ a b, s ≠ a +:+ (old +:+ b)) → replaced old new s s
| replaced_some a b t :
    (∀ a' b', a +:+ (old +:+ b) = a' +:+ (old +:+ b') → (String.length a ≤ String.length a')%nat) →
    replaced old new b t → replaced old new (a +:+ (old +:+ b)) (a +:+ (new +:+ t)).

(** One parameter after the other; the first whose text cannot be had decides. *)
Inductive filled : string → list (string * J) → result gen_exn string → Prop :=
| filled_nil s : filled s [] (Ok s)
| filled_cons s key value rest text t res :
    param_text value = Ok text → replaced ("${" +:+ (key +:+ "}")) text s t → filled t rest res →
    filled s ((key, value) :: rest) res
| filled_fails s key value rest e :
    param_text value = Throw e → filled s ((key, value) :: rest) (Throw e).

Lemma replaced_functional (old new s t t' : string) :
  replaced old new s t → replaced old new s t' → t = t'.
Proof.
  intros Ht. revert t'. induction Ht as [s Hno|a b t Hmin _ IH]; intros t' Ht'.
  - inversion Ht'; subst; [done|]. by edestruct Hno.
  - inversion Ht' as [s' Hno|a' b' t1 Hmin' H1 Heq]; subst; [by edestruct Hno|].
    pose proof (Hmin _ _ (eq_sym Heq)). pose proof (Hmin' _ _ Heq).
    destruct (str_app_inj_length a' a (old +:+ b') (old +:+ b)) as [-> Erest]; [lia|done|].
    apply str_app_inj_length in Erest as [_ ->]; [|done]. by rewrite (IH _ H1).
Qed.

Lemma filled_functional s params res res' : filled s params res → filled s params res' → res = res'.
Proof.
  intros H. revert res'. induction H as [s|s key value rest text t res Hp Hr _ IH|s key value rest e Hp];
    intros res' H'; inversion H' as [|? ? ? ? text' t' ? Hp' Hr' H1|? ? ? ? ? Hp']; subst; try congruence.
  apply IH. assert (text' = text) as -> by congruence. by rewrite (replaced_functional _ _ _ _ _ Hr Hr').
Qed.

(** [find] gives the leftmost occurrence. *)
Lemma str_search_spec (t s : string) :
  match str_search t s with
  | Some i => s = str_take i s +:+ (t +:+ str_drop (i + String.length t) s) ∧ (i ≤ String.length s)%nat
              ∧ ∀ a b, s = a +:+ (t +:+ b) → (i ≤ String.length a)%nat
  | None => ∀ a b, s ≠ a +:+ (t +:+ b)
  end.
Proof.
  induction s as [|c s IH]; cbn [str_search].
  - destruct (str_prefix t "") eqn:Ep.
    + apply str_prefix_app in Ep as [r Ep]. symmetry in Ep. destruct t; [|done]. cbn.
      split_and!; [done|lia|intros; lia].
    + intros [|] b; [|done]. cbn. intros Eb. enough (str_prefix t "" = true) by congruence.
      apply str_prefix_app. by exists b.
  - destruct (str_prefix t (String c s)) eqn:Ep.
    + apply str_prefix_app in Ep as [r Ep]. split_and!; [|lia|intros; lia]. cbn [str_take Nat.add].
      rewrite Ep at 1. cbn [String.append]. f_equal. by rewrite Ep, str_drop_app.
    + assert (Hno : ∀ b, String c s ≠ t +:+ b).
      { intros b Eb. enough (str_prefix t (String c s) = true) by congruence. apply str_prefix_app. by exists b. }
      destruct (str_search t s) as [i|]; cbn [fmap option_fmap option_map].
      * destruct IH as (Heq & Hlen & Hmin). split_and!; [cbn; by f_equal|cbn; lia|].
        intros [|d a] b; cbn; [intros Eb; by destruct (Hno b)|]. intros [= _ Eb]. specialize (Hmin a b Eb). lia.
      * intros [|d a] b; cbn; [apply Hno|]. intros [= _ Eb]. by eapply IH.
Qed.

Lemma str_length_take i (s : string) : (String.length (str_take i s) ≤ i)%nat.
Proof. revert s. induction i as [|i IH]; intros [|c s]; cbn; [lia..|]. specialize (IH s). lia. Qed.

Lemma replace_text_replaced fuel (old new s t : string) :
  replace_text fuel old new s = Some t → replaced old new s t.
Proof.
  revert s t. induction fuel as [|fuel IH]; intros s t; [done|]. cbn [replace_text].
  pose proof (str_search_spec old s) as Hs. destruct (str_search old s) as [i|].
  - destruct Hs as (Heq & Hlen & Hmin).
    destruct (replace_text fuel old new (str_drop (i + String.length old) s)) as [u|] eqn:Eu; [|done].
    intros [= <-]. rewrite Heq at 1. apply replaced_some; [|by apply IH].
    rewrite <- Heq. intros a b Eab. specialize (Hmin a b Eab). pose proof (str_length_take i s). lia.
  - intros [= <-]. by apply replaced_none.
Qed.

Lemma fill_replaced key text s : replaced ("${" +:+ (key +:+ "}")) text s (fill key text s).
Proof.
  unfold fill. destruct (replace_text_total (S (String.length s)) ("${" +:+ (key +:+ "}")) text s) as [t Et];
    [done|lia|]. rewrite Et. by apply replace_text_replaced in Et.
Qed.

Lemma fill_all_filled s params : filled s params (fill_all s params).
Proof.
  revert s. induction params as [|[key value] params IH]; intros s; cbn [fill_all]; [constructor|].
  destruct (param_text value) as [text|e] eqn:Ep; cbn [rbind]; [|by constructor].
  eapply filled_cons; [exact Ep|apply fill_replaced|apply IH].
Qed.

(** What generateScript answers when the template is filled in to [f], and the
    text expands to [res]. *)
Definition script_answer (now : Z) (n version : string) (value : string → outcome string)
    (f : result gen_exn string) (r : outcome ScriptGenerationResult) : Prop :=
  match f with
  | Throw e => r = Returns (script_failed ["Script generation failed: " +:+ what e])
  | Ok text => ∃ res, expands value text res ∧
      match res with
      | Returns out => r = Returns (mkScriptResult out [] []
          (jt_object [("template_name", jt_string n); ("template_version", jt_string version);
                      ("generated_at", jt_int now)]) true)
      | Stops (Raises e) => r = Returns (mkScriptResult ""%string []
          ["Script generation failed: " +:+ ("Macro replacement failed: " +:+ what e)] (jt_make ShNull) false)
      | Stops Diverges => r = Stops Diverges
      end
  end.

(** [C23] What a script is, on every branch.  Without the template, or with a
    required parameter missing, the result has the one error that says so and
    the generator is unchanged.  Otherwise every placeholder of the template is
    replaced by the text of its parameter, one parameter after the other, and
    the macros of what results are expanded.  If this succeeds, so does the
    generation: the script is the text it gives, without errors or warnings,
    with the name and version of the template and the time as metadata.  If a
    parameter has no text or a macro no value, the result has the one error of
    it, no text and no metadata; it does not return only if a macro function
    does not.  The macros and the templates stay. *)
Theorem generateScript_correct (e : E) (ops : list (@gen_op J E)) (templates : gmap string template)
    (now : Z) (n : string) (parameters : J) :
  Forall op_pure ops →
  let g := (gen_run trim e ops) <| scriptTemplates := templates |> in
  let '(g', r) := generateScript now n parameters g in
  macros g' = macros g ∧ scriptTemplates g' = scriptTemplates g ∧
  match templates !! n with
  | None => g' = g ∧ r = Returns (mkScriptResult "" [] ["Template not found: " +:+ n] (jt_make ShNull) false)
  | Some t =>
      if decide (Forall (λ p, is_Some (jt_find parameters p)) (requiredParams t)) then
        ∃ f, (∀ f', filled (template_content t) (jt_items parameters) f' ↔ f' = f)
          ∧ script_answer now n (template_version t) (macro_value trim (macros g) (world g)) f r
      else g' = g ∧ r = Returns (mkScriptResult "" [] ["Missing required parameters"%string] (jt_make ShNull) false)
  end.
Proof.
  intros Hops g.
  assert (Hg : gen_ok trim g) by (destruct (gen_run_ok trim e ops Hops) as [? ? ?]; by split).
  unfold generateScript. change (scriptTemplates g) with templates.
  destruct (templates !! n) as [t|]; [|by split_and!].
  case_decide as Hreq.
  - rewrite (proj2 (validateParameters_spec _ _) Hreq). unfold processTemplate, g_bind, g_lift.
    pose proof (fill_all_filled (template_content t) (jt_items parameters)) as Hf.
    assert (Hu : ∀ f', filled (template_content t) (jt_items parameters) f'
      ↔ f' = fill_all (template_content t) (jt_items parameters)).
    { intros f'. split; [intros H; by eapply filled_functional|by intros ->]. }
    destruct (fill_all (template_content t) (jt_items parameters)) as [text|x]; cbn [ends].
    + pose proof (replaceMacros_expands trim text g Hg) as Hr. pose proof (replaceMacros_templates text g) as Htm.
      destruct (replaceMacros trim text g) as [g' r]. destruct Hr as (_ & [Hm _] & res & Hres & ->).
      split_and!; [done|done|]. exists (Ok text). split; [exact Hu|]. exists res. split; [done|].
      by destruct res as [out|[x|]].
    + split_and!; [done|done|]. exists (Throw x). by split.
  - destruct (validateParameters (requiredParams t) parameters) eqn:Ev.
    + by apply validateParameters_spec in Ev.
    + by split_and!.
Qed.
End scripts.

(** ** A concrete script *)

Section examples.
#[local] Instance hash_iter_string : HashIter string := canonical_iter.
#[local] Instance demo_tree : JsonTree jtree Z :=
  jtree_json (λ j, match j with TInt z => pretty z | _ => "" end) (λ _, None).

Definition demo_templates : gmap string (@ScriptTemplate jtree) := {[ "exposure" := exposure_template ]}.

Lemma generateScript_correct_witness :
  Forall op_pure demo_ops
  ∧ (generateScript (F := Z) demo_trim 0 "exposure" (TObj [("exposure_time", TInt 30); ("filter", TStr "${filter}")])
       ((gen_run (F := Z) demo_trim () demo_ops) <| scriptTemplates := demo_templates |>)).2
    = Returns (script_done ("{" +:+ dq +:+ "type" +:+ dq +:+ ":" +:+ dq +:+ "exposure" +:+ dq +:+ "," +:+ dq +:+ "params" +:+ dq
        +:+ ":{" +:+ dq +:+ "exposure_time" +:+ dq +:+ ":30," +:+ dq +:+ "filter" +:+ dq
        +:+ ":" +:+ dq +:+ "OIII" +:+ dq +:+ "}}")
        (jt_object [("template_name", TStr "exposure"); ("template_version", TStr "1.0"); ("generated_at", TInt 0)]))
  ∧ (generateScript (F := Z) demo_trim 0 "nope" TNull
       ((gen_run (F := Z) demo_trim () demo_ops) <| scriptTemplates := demo_templates |>)).2
    = Returns (script_failed ["Template not found: nope"]).
Proof.
  split; [exact demo_ops_pure|]. split; [vm_compute; reflexivity|].
  pose proof (generateScript_correct (F := Z) demo_trim () demo_ops demo_templates 0 "nope" TNull demo_ops_pure) as H.
  cbn zeta in H. destruct (generateScript demo_trim 0 "nope" TNull _) as [g' r].
  exact (proj2 (proj2 (proj2 H))).
Defined.
End examples.
