(* ===== verification/Text.v ===== *)
(** * Text: character classes and cutting strings

    The part of <cctype> and of the views and string functions that several
    components use: the classes of the "C" locale, splitting at a character
    and joining. *)

From S2P Require Import Prelude.

(** ** Character classes, byte by byte, in the "C" locale *)

Definition code (c : char) : N := Ascii.N_of_ascii c.

Definition is_lower (c : char) : bool := (97 <=? code c)%N && (code c <=? 122)%N.
Definition is_upper (c : char) : bool := (65 <=? code c)%N && (code c <=? 90)%N.
Definition is_digit (c : char) : bool := (48 <=? code c)%N && (code c <=? 57)%N.
Definition is_alpha (c : char) : bool := is_lower c || is_upper c.
Definition is_alnum (c : char) : bool := is_alpha c || is_digit c.
(** Space, and the characters 9 to 13. *)
Definition is_space (c : char) : bool := (code c =? 32)%N || ((9 <=? code c)%N && (code c <=? 13)%N).
Definition is_print (c : char) : bool := (32 <=? code c)%N && (code c <=? 126)%N.

(** ** Every character, no character *)

Fixpoint str_all (p : char → bool) (s : string) : bool :=
  match s with
  | EmptyString => true
  | String c s' => p c && str_all p s'
  end.

(** The longest prefix of characters in a class, and what follows it. *)
Fixpoint str_span (p : char → bool) (s : string) : string * string :=
  match s with
  | EmptyString => (EmptyString, EmptyString)
  | String c s' =>
      if p c then let '(a, b) := str_span p s' in (String c a, b) else (EmptyString, s)
  end.

(** The first character, if any, is outside the class. *)
Definition str_stops (p : char → bool) (s : string) : bool :=
  match s with EmptyString => true | String c _ => negb (p c) end.

Lemma str_span_app p s a b : str_span p s = (a, b) → s = a +:+ b ∧ str_all p a = true ∧ str_stops p b = true.
Proof.
  revert a b. induction s as [|c s IH]; cbn; intros a b; [by intros [= <- <-]|].
  destruct (p c) eqn:Hc.
  - destruct (str_span p s) as [a' b'] eqn:E. intros [= <- <-].
    destruct (IH _ _ eq_refl) as (-> & Ha & Hb). cbn. by rewrite Hc.
  - intros [= <- <-]. cbn. by rewrite Hc.
Qed.

Lemma str_span_at p a b : str_all p a = true → str_stops p b = true → str_span p (a +:+ b) = (a, b).
Proof.
  induction a as [|c a IH]; cbn; intros Ha Hb.
  - destruct b as [|c b]; cbn in *; [done|]. by destruct (p c).
  - apply andb_true_iff in Ha as [-> Ha]. by rewrite IH.
Qed.

Lemma str_all_app p a b : str_all p (a +:+ b) = str_all p a && str_all p b.
Proof. induction a as [|c a IH]; cbn; [done|]. by rewrite IH, andb_assoc. Qed.

(** ** Splitting and joining *)

(** [s | views::split(d)]: an empty string has no pieces. *)
Fixpoint split_pieces (d : char) (s : string) : string * list string :=
  match s with
  | EmptyString => (EmptyString, [])
  | String c s' =>
      let '(p, ps) := split_pieces d s' in
      if Ascii.eqb c d then (EmptyString, p :: ps) else (String c p, ps)
  end.

Definition split_on (d : char) (s : string) : list string :=
  match s with
  | EmptyString => []
  | _ => let '(p, ps) := split_pieces d s in p :: ps
  end.

Fixpoint join (sep : string) (l : list string) : string :=
  match l with
  | [] => EmptyString
  | [x] => x
  | x :: rest => x +:+ sep +:+ join sep rest
  end.

Lemma split_pieces_plain d s : str_mem d s = false → split_pieces d s = (s, []).
Proof.
  induction s as [|c s IH]; cbn; [done|]. intros [Hc Hs]%orb_false_iff.
  rewrite IH by done. rewrite Ascii.eqb_sym in Hc. by rewrite Hc.
Qed.

Lemma split_pieces_app d a s : str_mem d a = false →
  split_pieces d (a +:+ String d s) = (a, let '(p, ps) := split_pieces d s in p :: ps).
Proof.
  induction a as [|c a IH]; cbn; intros Ha.
  - destruct (split_pieces d s). by rewrite Ascii.eqb_refl.
  - apply orb_false_iff in Ha as [Hc Ha]. rewrite IH by done.
    destruct (split_pieces d s). rewrite Ascii.eqb_sym in Hc. by rewrite Hc.
Qed.

Lemma split_pieces_no d s p ps : split_pieces d s = (p, ps) → Forall (λ x, str_mem d x = false) (p :: ps).
Proof.
  revert p ps. induction s as [|c s IH]; cbn; intros p ps; [intros [= <- <-]; by repeat constructor|].
  destruct (split_pieces d s) as [p' ps'] eqn:E. specialize (IH _ _ eq_refl).
  destruct (Ascii.eqb c d) eqn:Hc; intros [= <- <-]; [by constructor|].
  apply Forall_cons in IH as [Hp Hps]. constructor; [|done]. cbn. rewrite Hp, orb_false_r.
  by rewrite Ascii.eqb_sym.
Qed.

Lemma join_cons d x y l : join (String d "") (x :: y :: l) = x +:+ String d (join (String d "") (y :: l)).
Proof. done. Qed.

(** Joining the pieces back, and splitting what was joined. *)
Lemma split_join d l : l ≠ [] → Forall (λ x, str_mem d x = false) l → join (String d "") l ≠ ""%string →
  split_on d (join (String d "") l) = l.
Proof.
  intros Hne Hl Hj.
  assert (Hp : split_pieces d (join (String d "") l) = match l with [] => (""%string, []) | p :: ps => (p, ps) end).
  { clear Hj. induction l as [|x l IH]; [done|]. apply Forall_cons in Hl as [Hx Hl].
    destruct l as [|y l]; [by apply split_pieces_plain|].
    by rewrite join_cons, split_pieces_app, IH. }
  unfold split_on. destruct (join (String d "") l) eqn:E; [done|]. rewrite Hp. by destruct l.
Qed.

Lemma split_no d s : Forall (λ x, str_mem d x = false) (split_on d s).
Proof.
  unfold split_on. destruct s as [|c s]; [constructor|].
  destruct (split_pieces d (String c s)) as [p ps] eqn:E. by apply split_pieces_no in E.
Qed.

(** ** Paths, as [std::filesystem::path] reads them on POSIX systems *)

(** Around the last [d]. *)
Fixpoint rsplit (d : char) (s : string) : option (string * string) :=
  match s with
  | EmptyString => None
  | String c s' =>
      match rsplit d s' with
      | Some (a, b) => Some (String c a, b)
      | None => if Ascii.eqb c d then Some (EmptyString, s') else None
      end
  end.

Definition path_filename (p : string) : string :=
  match rsplit "/"%char p with Some (_, f) => f | None => p end.

(** The stem and what follows the last dot of a file name that has an extension. *)
Definition path_dot (p : string) : option (string * string) :=
  let f := path_filename p in
  if String.eqb f "." || String.eqb f ".." then None
  else match rsplit "."%char f with
       | Some (EmptyString, _) | None => None
       | Some (a, b) => Some (a, b)
       end.

Definition path_extension (p : string) : string :=
  match path_dot p with Some (_, e) => String "."%char e | None => EmptyString end.
Definition path_stem (p : string) : string :=
  match path_dot p with Some (a, _) => a | None => path_filename p end.

(** [dir / name] for a relative name. *)
Definition path_join (dir name : string) : string :=
  match rsplit "/"%char dir with
  | Some (_, EmptyString) => dir +:+ name
  | _ => if str_empty dir then name else dir +:+ "/" +:+ name
  end.

Example path_examples :
  (path_extension "./a.b/c.tar.gz", path_stem "./a.b/c.tar.gz", path_extension "x/.json", path_stem "x/.json") =
  (".gz", "c.tar", "", ".json")%string.
Proof. reflexivity. Qed.

(** ** Lines *)

Definition nl : char := Ascii.ascii_of_nat 10.
Definition cr : char := Ascii.ascii_of_nat 13.

(** The lines that [std::getline] reads from a text, one call after the other. *)
Fixpoint getlines (s : string) : list string :=
  match s with
  | EmptyString => []
  | String c s' =>
      if Ascii.eqb c nl then "" :: getlines s'
      else match getlines s' with
           | [] => [String c ""]
           | l :: ls => String c l :: ls
           end
  end.

Lemma getlines_line a s : str_mem nl a = false → getlines (a +:+ String nl s) = a :: getlines s.
Proof.
  induction a as [|c a IH]; cbn; [done|]. intros [Hc Ha]%orb_false_iff.
  rewrite Ascii.eqb_sym in Hc. by rewrite Hc, IH.
Qed.

Lemma getlines_rows (rows : list string) : Forall (λ r, str_mem nl r = false) rows →
  getlines (foldr (λ r t, r +:+ String nl t) "" rows) = rows.
Proof. induction 1 as [|r rows Hr _ IH]; cbn; [done|]. by rewrite getlines_line, IH. Qed.

(** ** Finding *)

(** [s.find(sub) != npos]; [String.prefix sub s] is [s.find(sub) == 0]. *)
Fixpoint contains_text (sub s : string) : bool :=
  String.prefix sub s || match s with EmptyString => false | String _ s' => contains_text sub s' end.

Lemma string_prefix_spec s n : String.prefix s n = true ↔ ∃ q, n = s +:+ q.
Proof.
  revert n. induction s as [|c s IH]; intros n; [split; [intros _; by exists n|by intros _; destruct n]|].
  destruct n as [|c' n]; [split; [done|intros [q E]; discriminate E]|]. cbn [String.prefix].
  destruct (Ascii.ascii_dec c c') as [->|Hc].
  - rewrite IH. split; intros [q E]; exists q; cbn in *; congruence.
  - split; [done|]. intros [q E]. injection E as -> _. done.
Qed.

Lemma contains_text_spec s n : contains_text s n = true ↔ ∃ p q, n = p +:+ s +:+ q.
Proof.
  induction n as [|c n IH]; cbn [contains_text]; rewrite orb_true_iff.
  - split.
    + intros [H|]; [|done]. destruct s; [|done]. by exists ""%string, ""%string.
    + intros (p & q & E). left. destruct p; [|done]. by destruct s.
  - rewrite IH, string_prefix_spec. split.
    + intros [[q ->]|(p & q & ->)]; [by exists ""%string, q|by exists (String c p), q].
    + intros ([|c' p] & q & E); [left; by exists q|]. injection E as -> ->. right. by exists p, q.
Qed.
