(* ===== verification/Json5.v ===== *)
(** * Json5: from JSON5 to JSON text

    Models [removeComments] and [convertJSON5toJSON] of
    src/src/config/utils/json5.hpp: the scanner that drops comments outside of
    string literals, and the one that puts quotes around the keys of objects.
    Both are one pass over the text with a few flags, kept here as they are;
    [expected] is [result].  [std::isalpha] and the like are those of the "C"
    locale.  The loop of the second pass moves its index over a whole word, so
    it has fuel, one unit per character. *)

From S2P Require Import Prelude Text.

Record JSON5ParseError := mkJSON5ParseError { message : string; position : nat }.

Definition what (e : JSON5ParseError) : string :=
  message e +:+ (if 0 <? position e then " at position " +:+ pretty (Z.of_nat (position e)) else "").

Definition QUOTE : char := Ascii.ascii_of_nat 34.
Definition BACKSLASH : char := Ascii.ascii_of_nat 92.
Definition SLASH : char := Ascii.ascii_of_nat 47.
Definition STAR : char := Ascii.ascii_of_nat 42.
Definition NEWLINE : char := Ascii.ascii_of_nat 10.
Definition COLON : char := Ascii.ascii_of_nat 58.

Definition push {E} (c : char) (m : result E string) : result E string :=
  let* r := m in Ok (String c r).
Definition append_all {E} (s : string) (m : result E string) : result E string :=
  let* r := m in Ok (s +:+ r).

(** ** Comments *)

Record scan := mkScan {
  inSingleLineComment : bool;
  inMultiLineComment : bool;
  inString : bool;
  escaped : bool
}.
#[export] Instance scan_eta : Eta scan := λ s,
  mkScan (inSingleLineComment s) (inMultiLineComment s) (inString s) (escaped s).
#[export] Instance inSingleLineComment_upd : Upd inSingleLineComment. Proof. derive_upd. Defined.
#[export] Instance inMultiLineComment_upd : Upd inMultiLineComment. Proof. derive_upd. Defined.
#[export] Instance inString_upd : Upd inString. Proof. derive_upd. Defined.
#[export] Instance escaped_upd : Upd escaped. Proof. derive_upd. Defined.

Definition begins (c d : char) (s : string) : bool :=
  match s with String x (String y _) => Ascii.eqb x c && Ascii.eqb y d | _ => false end.

(** The loop on the rest of the input, of which [n] characters is the whole. *)
Fixpoint remove_loop (n : nat) (st : scan) (s : string) : result JSON5ParseError string :=
  match s with
  | EmptyString =>
      if inString st then Throw (mkJSON5ParseError "Unterminated string" n)
      else if inMultiLineComment st then Throw (mkJSON5ParseError "Unterminated multi-line comment" n)
      else Ok EmptyString
  | String c rest =>
      let outside := negb (inSingleLineComment st) && negb (inMultiLineComment st) in
      if outside && Ascii.eqb c BACKSLASH && inString st then
        push c (remove_loop n (st <| escaped ::= negb |>) rest)
      else if outside && Ascii.eqb c QUOTE && negb (escaped st) then
        push c (remove_loop n (st <| inString ::= negb |>) rest)
      else if escaped st then push c (remove_loop n (st <| escaped := false |>) rest)
      else if inString st then push c (remove_loop n st rest)
      else if outside && begins SLASH SLASH s then
        match rest with
        | String _ rest' => remove_loop n (st <| inSingleLineComment := true |>) rest'
        | EmptyString => Ok EmptyString
        end
      else if outside && begins SLASH STAR s then
        match rest with
        | String _ rest' => remove_loop n (st <| inMultiLineComment := true |>) rest'
        | EmptyString => Ok EmptyString
        end
      else if inSingleLineComment st then
        if Ascii.eqb c NEWLINE then push c (remove_loop n (st <| inSingleLineComment := false |>) rest)
        else remove_loop n st rest
      else if inMultiLineComment st then
        if begins STAR SLASH s then
          match rest with
          | String _ rest' => remove_loop n (st <| inMultiLineComment := false |>) rest'
          | EmptyString => Ok EmptyString
          end
        else remove_loop n st rest
      else push c (remove_loop n st rest)
  end.

Definition removeComments (json5 : string) : result JSON5ParseError string :=
  if str_empty json5 then Ok EmptyString
  else remove_loop (String.length json5) (mkScan false false false false) json5.

(** ** Keys *)

Definition key_start (c : char) : bool := is_alpha c || Ascii.eqb c "_"%char.
Definition key_char (c : char) : bool := is_alnum c || Ascii.eqb c "_"%char || Ascii.eqb c "-"%char.

(** The search for the colon after a word. *)
Fixpoint colon_follows (s : string) : bool :=
  match s with
  | EmptyString => false
  | String c rest => if Ascii.eqb c COLON then true else if is_space c then colon_follows rest else false
  end.

Fixpoint quote_loop (fuel n : nat) (in_str esc : bool) (s : string) : result JSON5ParseError string :=
  match fuel with
  | O => Ok EmptyString
  | S fuel =>
      match s with
      | EmptyString =>
          if in_str then Throw (mkJSON5ParseError "Unterminated string in JSON5" n) else Ok EmptyString
      | String c rest =>
          if esc then push c (quote_loop fuel n in_str false rest)
          else if Ascii.eqb c BACKSLASH && in_str then push c (quote_loop fuel n in_str true rest)
          else if Ascii.eqb c QUOTE then push c (quote_loop fuel n (negb in_str) false rest)
          else if in_str then push c (quote_loop fuel n in_str false rest)
          else if key_start c then
            let '(word, after) := str_span key_char s in
            append_all (if colon_follows after then String QUOTE (word +:+ String QUOTE EmptyString) else word)
              (quote_loop fuel n in_str false after)
          else push c (quote_loop fuel n in_str false rest)
      end
  end.

Definition convertJSON5toJSON (json5 : string) : result JSON5ParseError string :=
  let* json := removeComments json5 in
  if str_empty json then Ok EmptyString
  else quote_loop (S (String.length json)) (String.length json) false false json.

Example convert_example :
  convertJSON5toJSON "{a: 1, /* x */ c-d :2} // end" =
  Ok ("{" +:+ String QUOTE ("a" +:+ String QUOTE (": 1,  " +:+ String QUOTE ("c-d" +:+ String QUOTE " :2} ")))).
Proof. reflexivity. Qed.

(** ** What the two passes mean

    [Literal] is the rest of a string literal after its opening quote, with its
    closing one. *)

Inductive Literal : string → Prop :=
| Literal_end : Literal (String QUOTE EmptyString)
| Literal_escape c l : Literal l → Literal (String BACKSLASH (String c l))
| Literal_char c l : c ≠ QUOTE → c ≠ BACKSLASH → Literal l → Literal (String c l).

(** [close] does not occur in [text]. *)
Fixpoint no_close (text : string) : bool :=
  match text with
  | EmptyString => true
  | String _ rest => negb (begins STAR SLASH text) && no_close rest
  end.

Definition opens_comment (s : string) : bool := begins SLASH SLASH s || begins SLASH STAR s.

Inductive Strip : string → string → Prop :=
| Strip_nil : Strip EmptyString EmptyString
| Strip_string l s r : Literal l → Strip s r → Strip (String QUOTE (l +:+ s)) (String QUOTE (l +:+ r))
| Strip_line text s r : str_mem NEWLINE text = false → Strip s r →
    Strip (String SLASH (String SLASH (text +:+ String NEWLINE s))) (String NEWLINE r)
| Strip_line_end text : str_mem NEWLINE text = false → Strip (String SLASH (String SLASH text)) EmptyString
| Strip_block text s r : no_close text = true → Strip s r →
    Strip (String SLASH (String STAR (text +:+ String STAR (String SLASH s)))) r
| Strip_char c s r : c ≠ QUOTE → opens_comment (String c s) = false → Strip s r → Strip (String c s) (String c r).

Inductive Quoted : string → string → Prop :=
| Quoted_nil : Quoted EmptyString EmptyString
| Quoted_string l s r : Literal l → Quoted s r → Quoted (String QUOTE (l +:+ s)) (String QUOTE (l +:+ r))
| Quoted_word c w s r : key_start c = true → str_all key_char w = true → str_stops key_char s = true → Quoted s r →
    Quoted (String c w +:+ s)
      ((if colon_follows s then String QUOTE (String c w +:+ String QUOTE EmptyString) else String c w) +:+ r)
| Quoted_char c s r : c ≠ QUOTE → key_start c = false → Quoted s r → Quoted (String c s) (String c r).

Create HintDb json5.
#[local] Hint Constructors Literal Strip Quoted : json5.

(** *** The scanner in each of its states *)

Definition text_mode := mkScan false false false false.
Definition string_mode := mkScan false false true false.
Definition escape_mode := mkScan false false true true.
Definition line_mode := mkScan true false false false.
Definition block_mode := mkScan false true false false.

Lemma push_ok {E} c (m : result E string) r : push c m = Ok r ↔ ∃ r', m = Ok r' ∧ r = String c r'.
Proof. destruct m as [r'|]; cbn; [|naive_solver]. split; [intros [= <-]; eauto|by intros (? & [= ->] & ->)]. Qed.

Lemma append_all_ok {E} s (m : result E string) r : append_all s m = Ok r ↔ ∃ r', m = Ok r' ∧ r = s +:+ r'.
Proof. destruct m as [r'|]; cbn; [|naive_solver]. split; [intros [= <-]; eauto|by intros (? & [= ->] & ->)]. Qed.

(** One step in a string literal. *)
Lemma string_step n c s : remove_loop n string_mode (String c s) =
  push c (remove_loop n (if Ascii.eqb c BACKSLASH then escape_mode else if Ascii.eqb c QUOTE then text_mode else string_mode) s).
Proof. cbn. destruct (Ascii.eqb c BACKSLASH) eqn:E1; cbn; [done|]. by destruct (Ascii.eqb c QUOTE). Qed.

(** The character after a backslash may be a backslash, which the code takes
    in its first branch, or a quote, which it takes in the third. *)
Lemma escape_step n c s : remove_loop n escape_mode (String c s) = push c (remove_loop n string_mode s).
Proof. cbn. destruct (Ascii.eqb c BACKSLASH) eqn:E1; cbn; [done|]. by destruct (Ascii.eqb c QUOTE). Qed.

Lemma line_step n c s : remove_loop n line_mode (String c s) =
  if Ascii.eqb c NEWLINE then push c (remove_loop n text_mode s) else remove_loop n line_mode s.
Proof. done. Qed.

Lemma text_step n c s : c ≠ QUOTE → opens_comment (String c s) = false →
  remove_loop n text_mode (String c s) = push c (remove_loop n text_mode s).
Proof.
  intros Hq [H1 H2]%orb_false_iff. cbn -[begins]. rewrite H1, H2, andb_false_r. cbn -[begins].
  by destruct (Ascii.eqb_spec c QUOTE).
Qed.

Lemma literal_loop n l s : Literal l → remove_loop n string_mode (l +:+ s) =
  append_all l (remove_loop n text_mode s).
Proof.
  induction 1 as [|c l Hl IH|c l Hq Hb Hl IH]; cbn [String.append].
  - rewrite string_step. change (push QUOTE (remove_loop n text_mode s) = append_all (String QUOTE "") (remove_loop n text_mode s)).
    by destruct (remove_loop n text_mode s).
  - rewrite string_step, Ascii.eqb_refl, escape_step, IH. by destruct (remove_loop n text_mode s).
  - rewrite string_step. destruct (Ascii.eqb_spec c BACKSLASH), (Ascii.eqb_spec c QUOTE); try done.
    rewrite IH. by destruct (remove_loop n text_mode s).
Qed.

(** ** Comments: the pass computes [Strip] *)

Lemma block_loop n text s : no_close text = true →
  remove_loop n block_mode (text +:+ String STAR (String SLASH s)) = remove_loop n text_mode s.
Proof.
  induction text as [|c text IH]; [done|]. intros [Hc Hn]%andb_true_iff. rewrite <- IH by done.
  cbn -[begins]. replace (begins STAR SLASH (String c (text +:+ String STAR (String SLASH s)))) with false; [done|].
  symmetry. destruct text as [|d text]; cbn in *; [by rewrite andb_false_r|]. by apply negb_true_iff.
Qed.

Lemma line_loop n text s : str_mem NEWLINE text = false →
  remove_loop n line_mode (text +:+ s) = remove_loop n line_mode s.
Proof.
  induction text as [|c text IH]; [done|]. intros [Hc Hn]%orb_false_iff. cbn [String.append].
  rewrite line_step, Ascii.eqb_sym, Hc. by apply IH.
Qed.

Lemma strip_loop n s r : Strip s r → remove_loop n text_mode s = Ok r.
Proof.
  induction 1 as [|l s r Hl Hs IH|text s r Ht Hs IH|text Ht|text s r Ht Hs IH|c s r Hq Ho Hs IH]; [done| | | | |].
  - change (push QUOTE (remove_loop n string_mode (l +:+ s)) = Ok (String QUOTE (l +:+ r))).
    by rewrite literal_loop, IH.
  - change (remove_loop n line_mode (text +:+ String NEWLINE s) = Ok (String NEWLINE r)).
    by rewrite line_loop, line_step, Ascii.eqb_refl, IH.
  - change (remove_loop n line_mode text = Ok ""%string).
    rewrite <- (str_app_empty_r text). by rewrite line_loop.
  - change (remove_loop n block_mode (text +:+ String STAR (String SLASH s)) = Ok r). by rewrite block_loop.
  - by rewrite text_step, IH.
Qed.

(** The other way: each mode ends a construct of [Strip] or fails. *)
Lemma string_inv n s r :
  (remove_loop n string_mode s = Ok r →
   ∃ l s' r', Literal l ∧ s = l +:+ s' ∧ r = l +:+ r' ∧ remove_loop n text_mode s' = Ok r') ∧
  (remove_loop n escape_mode s = Ok r →
   ∃ c l s' r', Literal l ∧ s = String c (l +:+ s') ∧ r = String c (l +:+ r') ∧ remove_loop n text_mode s' = Ok r').
Proof.
  revert r. induction s as [|c s IH]; intros r; [by split; intros [=]|]. split.
  - rewrite string_step. intros (r' & Hr & ->)%push_ok.
    destruct (Ascii.eqb_spec c BACKSLASH) as [->|Hb].
    { apply IH in Hr as (d & l & s' & r'' & Hl & -> & -> & H'). exists (String BACKSLASH (String d l)), s', r''.
      eauto with json5. }
    destruct (Ascii.eqb_spec c QUOTE) as [->|Hq].
    { exists (String QUOTE ""), s, r'. eauto with json5. }
    apply IH in Hr as (l & s' & r'' & Hl & -> & -> & H'). exists (String c l), s', r''. eauto with json5.
  - rewrite escape_step. intros (r' & Hr & ->)%push_ok.
    apply IH in Hr as (l & s' & r'' & Hl & -> & -> & H'). eauto 10.
Qed.

Lemma line_inv n s r : remove_loop n line_mode s = Ok r →
  (str_mem NEWLINE s = false ∧ r = ""%string) ∨
  ∃ text s' r', str_mem NEWLINE text = false ∧ s = text +:+ String NEWLINE s' ∧ r = String NEWLINE r' ∧
    remove_loop n text_mode s' = Ok r'.
Proof.
  induction s as [|c s IH]; [intros [= <-]; by left|]. rewrite line_step.
  destruct (Ascii.eqb_spec c NEWLINE) as [->|Hc].
  - intros (r' & Hr & ->)%push_ok. right. by exists ""%string, s, r'.
  - intros [[Hm ->]|(text & s' & r' & Ht & -> & -> & Hr)]%IH; [left|right; exists (String c text), s', r'];
      cbn; rewrite ?Hm, ?Ht; by destruct (Ascii.eqb_spec NEWLINE c).
Qed.

Lemma block_inv n s r : remove_loop n block_mode s = Ok r →
  ∃ text s', no_close text = true ∧ s = text +:+ String STAR (String SLASH s') ∧ remove_loop n text_mode s' = Ok r.
Proof.
  induction s as [|c s IH]; [done|]. cbn -[begins]. destruct (begins STAR SLASH (String c s)) eqn:Eb.
  - destruct s as [|d s]; [done|]. cbn in Eb. apply andb_true_iff in Eb as [->%Ascii.eqb_eq ->%Ascii.eqb_eq].
    intros Hr. by exists ""%string, s.
  - intros (text & s' & Ht & -> & Hr)%IH. exists (String c text), s'. split_and!; [|done|done].
    cbn -[begins]. rewrite Ht, andb_true_r. destruct text; [done|]. by cbn in *; rewrite Eb.
Qed.

Lemma strip_inv n s r : remove_loop n text_mode s = Ok r → Strip s r.
Proof.
  remember (String.length s) as k eqn:Hk. revert s r Hk.
  induction k as [k IH] using lt_wf_ind. intros s r ->. destruct s as [|c s]; [intros [= <-]; constructor|].
  destruct (Ascii.eqb_spec c QUOTE) as [->|Hq].
  { change (remove_loop n text_mode (String QUOTE s)) with (push QUOTE (remove_loop n string_mode s)).
    intros (r' & (l & s' & r'' & Hl & -> & -> & Hr)%string_inv & ->)%push_ok.
    constructor; [done|]. eapply IH; [|done|done]. cbn. rewrite str_length_app. lia. }
  destruct (opens_comment (String c s)) eqn:Ho.
  2:{ rewrite text_step by done. intros (r' & Hr & ->)%push_ok. constructor; [done|done|]. eapply IH; [|done|done]. cbn; lia. }
  destruct s as [|d s]; [done|].
  unfold opens_comment in Ho. cbn in Ho.
  destruct (Ascii.eqb_spec c SLASH) as [->|]; [|done].
  destruct (Ascii.eqb_spec d SLASH) as [->|Hs].
  { change (remove_loop n text_mode _) with (remove_loop n line_mode s).
    intros [[Hm ->]|(text & s' & r' & Ht & -> & -> & Hr)]%line_inv; [by constructor|].
    constructor; [done|]. eapply IH; [|done|done]. cbn. rewrite str_length_app. cbn. lia. }
  destruct (Ascii.eqb_spec d STAR) as [->|]; [|done].
  change (remove_loop n text_mode _) with (remove_loop n block_mode s).
  intros (text & s' & Ht & -> & Hr)%block_inv.
  constructor; [done|]. eapply IH; [|done|done]. cbn. rewrite str_length_app. cbn. lia.
Qed.

Lemma removeComments_ok s r : removeComments s = Ok r ↔ Strip s r.
Proof.
  assert (Hloop : removeComments s = remove_loop (String.length s) text_mode s) by by destruct s.
  rewrite Hloop. split; [apply strip_inv|apply strip_loop].
Qed.

Lemma push_throw {E} c (m : result E string) e : push c m = Throw e ↔ m = Throw e.
Proof. by destruct m. Qed.

Lemma remove_loop_error n s : ∀ st e, remove_loop n st s = Throw e →
  position e = n ∧ (message e = "Unterminated string" ∨ message e = "Unterminated multi-line comment")%string.
Proof.
  remember (String.length s) as k eqn:Hk. revert s Hk.
  induction k as [k IH] using lt_wf_ind. intros [|c s] -> st e.
  { cbn. destruct (inString st), (inMultiLineComment st); intros [= <-]; auto. }
  cbn -[begins]. repeat case_match; intros He; rewrite ?push_throw in He; try discriminate He;
    (eapply IH; [|reflexivity|exact He]); cbn; lia.
Qed.

Lemma removeComments_error s e : removeComments s = Throw e →
  position e = String.length s ∧
  (message e = "Unterminated string" ∨ message e = "Unterminated multi-line comment")%string.
Proof. unfold removeComments. destruct (str_empty s); [done|]. apply remove_loop_error. Qed.

(** ** Keys: the pass computes [Quoted] *)

Lemma quote_fuel n s : ∀ f f' i e, String.length s < f → String.length s < f' →
  quote_loop f n i e s = quote_loop f' n i e s.
Proof.
  remember (String.length s) as k eqn:Hk. revert s Hk.
  induction k as [k IH] using lt_wf_ind. intros s -> f f' i e Hf Hf'.
  destruct f as [|f], f' as [|f']; [lia..|]. destruct s as [|c s]; [done|].
  cbn [String.length] in *. cbn -[str_span].
  assert (Hs : ∀ i e, quote_loop f n i e s = quote_loop f' n i e s) by (intros; apply (IH (String.length s)); lia).
  rewrite !Hs. destruct e, (Ascii.eqb c BACKSLASH && i), (Ascii.eqb c QUOTE), i, (key_start c) eqn:Hc; try done.
  all: destruct (str_span key_char (String c s)) as [w a] eqn:E; f_equal; apply (IH (String.length a)); try done.
  all: cbn in E; assert (key_char c = true) as Hkc by
    (unfold key_start, key_char, is_alnum in *; destruct (is_alpha c), (Ascii.eqb c "_"%char); cbn in *; try done; by rewrite ?orb_true_r).
  all: rewrite Hkc in E; destruct (str_span key_char s) as [w' a'] eqn:E'; injection E as <- <-;
    apply str_span_app in E' as [-> _]; rewrite str_length_app in *; lia.
Qed.

#[local] Abbreviation quote n i e s := (quote_loop (S (String.length s)) n i e s).

Lemma key_start_char c : key_start c = true → key_char c = true.
Proof.
  unfold key_start, key_char, is_alnum. intros [->| ->]%orb_true_iff; by rewrite ?orb_true_r.
Qed.

Lemma quote_string_step n c s : quote n true false (String c s) =
  push c (if Ascii.eqb c BACKSLASH then quote n true true s
          else if Ascii.eqb c QUOTE then quote n false false s else quote n true false s).
Proof. cbn. rewrite andb_true_r. by destruct (Ascii.eqb c BACKSLASH), (Ascii.eqb c QUOTE). Qed.

Lemma quote_escape_step n c s : quote n true true (String c s) = push c (quote n true false s).
Proof. done. Qed.

Lemma quote_char_step n c s : c ≠ QUOTE → key_start c = false →
  quote n false false (String c s) = push c (quote n false false s).
Proof.
  intros Hq Hk. cbn -[str_span]. rewrite andb_false_r, Hk. by destruct (Ascii.eqb_spec c QUOTE).
Qed.

Lemma quote_open_step n s : quote n false false (String QUOTE s) = push QUOTE (quote n true false s).
Proof. done. Qed.

Lemma key_start_not_quote c : key_start c = true → Ascii.eqb c QUOTE = false.
Proof. intros Hk. destruct (Ascii.eqb_spec c QUOTE) as [->|]; done. Qed.

Lemma quote_word_step n c w s : key_start c = true → str_all key_char w = true → str_stops key_char s = true →
  quote n false false (String c w +:+ s) =
  append_all (if colon_follows s then String QUOTE (String c w +:+ String QUOTE EmptyString) else String c w)
    (quote n false false s).
Proof.
  intros Hc Hw Hs.
  transitivity (append_all (if colon_follows s then String QUOTE (String c w +:+ String QUOTE EmptyString) else String c w)
    (quote_loop (String.length (String c w +:+ s)) n false false s)).
  - assert (Hspan : str_span key_char (String c (w +:+ s)) = (String c w, s)).
    { apply (str_span_at key_char (String c w)); [cbn; by rewrite key_start_char|done]. }
    change (String c w +:+ s) with (String c (w +:+ s)). cbn -[str_span str_length_app String.length].
    rewrite Hspan, andb_false_r, Hc, key_start_not_quote by done. done.
  - f_equal. apply quote_fuel; [|lia]. cbn. rewrite str_length_app. lia.
Qed.

Lemma quote_literal n l s : Literal l → quote n true false (l +:+ s) = append_all l (quote n false false s).
Proof.
  induction 1 as [|c l Hl IH|c l Hq Hb Hl IH]; cbn [String.append].
  - rewrite quote_string_step. change (push QUOTE (quote n false false s) = append_all (String QUOTE "") (quote n false false s)).
    by destruct (quote n false false s).
  - rewrite quote_string_step, Ascii.eqb_refl, quote_escape_step, IH. by destruct (quote n false false s).
  - rewrite quote_string_step. destruct (Ascii.eqb_spec c BACKSLASH), (Ascii.eqb_spec c QUOTE); try done.
    rewrite IH. by destruct (quote n false false s).
Qed.

Lemma quoted_loop n s r : Quoted s r → quote n false false s = Ok r.
Proof.
  induction 1 as [|l s r Hl Hs IH|c w s r Hc Hw Hst Hs IH|c s r Hq Hk Hs IH]; [done| | |].
  - by rewrite quote_open_step, quote_literal, IH.
  - by rewrite quote_word_step, IH.
  - by rewrite quote_char_step, IH.
Qed.

Lemma quote_string_inv n s r :
  (quote n true false s = Ok r →
   ∃ l s' r', Literal l ∧ s = l +:+ s' ∧ r = l +:+ r' ∧ quote n false false s' = Ok r') ∧
  (quote n true true s = Ok r →
   ∃ c l s' r', Literal l ∧ s = String c (l +:+ s') ∧ r = String c (l +:+ r') ∧ quote n false false s' = Ok r').
Proof.
  revert r. induction s as [|c s IH]; intros r; [by split|]. split.
  - rewrite quote_string_step. intros (r' & Hr & ->)%push_ok.
    destruct (Ascii.eqb_spec c BACKSLASH) as [->|Hb].
    { apply IH in Hr as (d & l & s' & r'' & Hl & -> & -> & H'). exists (String BACKSLASH (String d l)), s', r''.
      eauto with json5. }
    destruct (Ascii.eqb_spec c QUOTE) as [->|Hq].
    { exists (String QUOTE ""), s, r'. eauto with json5. }
    apply IH in Hr as (l & s' & r'' & Hl & -> & -> & H'). exists (String c l), s', r''. eauto with json5.
  - rewrite quote_escape_step. intros (r' & Hr & ->)%push_ok.
    apply IH in Hr as (l & s' & r'' & Hl & -> & -> & H'). eauto 10.
Qed.

Lemma quoted_inv n s r : quote n false false s = Ok r → Quoted s r.
Proof.
  remember (String.length s) as k eqn:Hk. revert s r Hk.
  induction k as [k IH] using lt_wf_ind. intros s r ->. destruct s as [|c s]; [intros [= <-]; constructor|].
  destruct (Ascii.eqb_spec c QUOTE) as [->|Hq].
  { rewrite quote_open_step. intros (r' & (l & s' & r'' & Hl & -> & -> & Hr)%quote_string_inv & ->)%push_ok.
    constructor; [done|]. eapply IH; [|done|done]. cbn. rewrite str_length_app. lia. }
  destruct (key_start c) eqn:Hc.
  - destruct (str_span key_char s) as [w a] eqn:E. apply str_span_app in E as (-> & Hw & Ha).
    change (String c (w +:+ a)) with (String c w +:+ a). rewrite quote_word_step by done.
    intros (r' & Hr & ->)%append_all_ok. constructor; [done..|].
    eapply IH; [|done|done]. cbn. rewrite str_length_app. lia.
  - rewrite quote_char_step by done. intros (r' & Hr & ->)%push_ok. constructor; [done..|].
    eapply IH; [|done|done]. cbn. lia.
Qed.

(** What is left after the first pass has no open string literal, so the
    second pass cannot fail. *)
Inductive Balanced : string → Prop :=
| Balanced_nil : Balanced EmptyString
| Balanced_string l s : Literal l → Balanced s → Balanced (String QUOTE (l +:+ s))
| Balanced_char c s : c ≠ QUOTE → Balanced s → Balanced (String c s).

Lemma strip_balanced s m : Strip s m → Balanced m.
Proof. induction 1; try constructor; try done. Qed.

Lemma balanced_word w a : str_all key_char w = true → Balanced (w +:+ a) → Balanced a.
Proof.
  induction w as [|c w IH]; [done|]. intros [Hc Hw]%andb_true_iff H. apply IH; [done|].
  inversion H; subst; [by vm_compute in Hc|done].
Qed.

Lemma balanced_quoted m : Balanced m → ∃ r, Quoted m r.
Proof.
  remember (String.length m) as k eqn:Hk. revert m Hk.
  induction k as [k IH] using lt_wf_ind. intros m -> Hm.
  inversion Hm as [|l s Hl Hs|c s Hq Hs]; subst.
  - eexists. constructor.
  - destruct (IH (String.length s) ltac:(cbn; rewrite str_length_app; lia) s eq_refl Hs) as [r Hr].
    eexists. by constructor.
  - destruct (key_start c) eqn:Hc.
    + destruct (str_span key_char s) as [w a] eqn:E. apply str_span_app in E as (-> & Hw & Ha).
      apply balanced_word in Hs; [|done].
      destruct (IH (String.length a) ltac:(cbn; rewrite str_length_app; lia) a eq_refl Hs) as [r Hr].
      eexists. by apply (Quoted_word c w a r).
    + destruct (IH (String.length s) ltac:(cbn; lia) s eq_refl Hs) as [r Hr]. eexists. by constructor.
Qed.

Lemma convert_unfold s : convertJSON5toJSON s =
  let* m := removeComments s in quote (String.length m) false false m.
Proof. unfold convertJSON5toJSON. by destruct (removeComments s) as [[]|]. Qed.

Lemma convert_ok s r : convertJSON5toJSON s = Ok r ↔ ∃ m, Strip s m ∧ Quoted m r.
Proof.
  rewrite convert_unfold. split.
  - destruct (removeComments s) as [m|] eqn:E; cbn -[quote_loop]; [|done]. intros Hr%quoted_inv. exists m. by rewrite <- removeComments_ok.
  - intros (m & Hm & Hr). apply removeComments_ok in Hm as ->. by apply quoted_loop.
Qed.

(** ** JSON texts

    The grammar of RFC 8259, with numbers and the three words told apart only
    by their characters. *)

Definition scalar_char (c : char) : bool :=
  is_alnum c || Ascii.eqb c "."%char || Ascii.eqb c "+"%char || Ascii.eqb c "-"%char.

Inductive JsonText : string → Prop :=
| Json_string l : Literal l → JsonText (String QUOTE l)
| Json_scalar s : s ≠ EmptyString → str_all scalar_char s = true → JsonText s
| Json_array s : JsonItems s → JsonText ("[" +:+ s +:+ "]")
| Json_empty_array s : str_all is_space s = true → JsonText ("[" +:+ s +:+ "]")
| Json_object s : JsonMembers s → JsonText ("{" +:+ s +:+ "}")
| Json_empty_object s : str_all is_space s = true → JsonText ("{" +:+ s +:+ "}")
| Json_spaces a s b : str_all is_space a = true → str_all is_space b = true → JsonText s → JsonText (a +:+ s +:+ b)
with JsonItems : string → Prop :=
| Json_item s : JsonText s → JsonItems s
| Json_items s t : JsonText s → JsonItems t → JsonItems (s +:+ "," +:+ t)
with JsonMembers : string → Prop :=
| Json_member a k b s : str_all is_space a = true → Literal k → str_all is_space b = true → JsonText s →
    JsonMembers (a +:+ String QUOTE (k +:+ b +:+ String COLON s))
| Json_members s t : JsonMembers s → JsonMembers t → JsonMembers (s +:+ "," +:+ t).

Scheme JsonText_ind' := Minimality for JsonText Sort Prop
with JsonItems_ind' := Minimality for JsonItems Sort Prop
with JsonMembers_ind' := Minimality for JsonMembers Sort Prop.
Combined Scheme Json_mutind from JsonText_ind', JsonItems_ind', JsonMembers_ind'.

(** [s] can be copied by both passes, whatever follows. *)
Definition copied_before (s t : string) : Prop :=
  (∀ r, Strip t r → Strip (s +:+ t) (s +:+ r)) ∧ (∀ r, Quoted t r → Quoted (s +:+ t) (s +:+ r)).

(** What may follow a value: no more of a word, and no colon. *)
Definition after_value (t : string) : Prop := str_stops key_char t = true ∧ colon_follows t = false.

Definition copied (s : string) : Prop := ∀ t, after_value t → copied_before s t.

Lemma copied_app a b t : copied_before b t → copied_before a (b +:+ t) → copied_before (a +:+ b) t.
Proof.
  intros [Hs Hq] [Hs' Hq']. split; intros r Hr; rewrite <- !str_app_assoc; auto.
Qed.

Lemma copied_char c t : c ≠ QUOTE → c ≠ SLASH → key_start c = false → copied_before (String c EmptyString) t.
Proof.
  intros Hq Hs Hk. split; intros r Hr; cbn; constructor; try done. unfold opens_comment. cbn.
  destruct t; [done|]. by destruct (Ascii.eqb_spec c SLASH).
Qed.

Lemma copied_literal l t : Literal l → copied_before (String QUOTE l) t.
Proof. intros Hl. split; intros r Hr; cbn; by constructor. Qed.

Lemma space_cases c : is_space c = true → c ≠ QUOTE ∧ c ≠ SLASH ∧ c ≠ COLON ∧ key_start c = false ∧ key_char c = false.
Proof. destruct c as [[] [] [] [] [] [] [] []]; by intros Hc; vm_compute in Hc. Qed.

Lemma copied_spaces s t : str_all is_space s = true → copied_before s t.
Proof.
  induction s as [|c s IH]; [done|]. intros [Hc Hs]%andb_true_iff.
  apply space_cases in Hc as (? & ? & ? & ? & _). apply (copied_app (String c EmptyString)); [by apply IH|].
  by apply copied_char.
Qed.

Lemma after_spaces s t : str_all is_space s = true → after_value t → after_value (s +:+ t).
Proof.
  intros Hs [Ht Hc]. induction s as [|c s IH]; [done|]. cbn in Hs. apply andb_true_iff in Hs as [Hsp Hs].
  destruct (IH Hs) as [_ IHc]. pose proof (space_cases c Hsp) as (? & ? & Hcol & ? & Hk).
  split; cbn; [by rewrite Hk|]. rewrite Hsp. by destruct (Ascii.eqb_spec c COLON).
Qed.

Lemma scalar_cases c : scalar_char c = true →
  c ≠ QUOTE ∧ c ≠ SLASH ∧ c ≠ COLON ∧ is_space c = false ∧ (key_start c = false ∨ key_char c = true).
Proof. destruct c as [[] [] [] [] [] [] [] []]; intros Hc; vm_compute in Hc; (done || by split_and!; try done; vm_compute; auto). Qed.

Lemma scalar_after s t : s ≠ EmptyString → str_all scalar_char s = true → colon_follows (s +:+ t) = false.
Proof.
  destruct s as [|c s]; [done|]. intros _ [Hc _]%andb_true_iff. apply scalar_cases in Hc as (? & ? & Hcol & Hsp & _).
  cbn. rewrite Hsp. by destruct (Ascii.eqb_spec c COLON).
Qed.

Lemma copied_scalar s : str_all scalar_char s = true → copied s.
Proof.
  intros Hs t [Ht Hc]. split; intros r Hr.
  - induction s as [|c s IH]; [done|]. cbn in Hs. apply andb_true_iff in Hs as [Hsc Hs].
    apply scalar_cases in Hsc as (? & ? & _). cbn. constructor; [done| |by apply IH].
    unfold opens_comment. cbn. destruct (s +:+ t); [done|]. by destruct (Ascii.eqb_spec c SLASH).
  - remember (String.length s) as k eqn:Hk. revert s Hs Hk.
    induction k as [k IH] using lt_wf_ind. intros s Hs ->. destruct s as [|c s]; [done|].
    apply andb_true_iff in Hs as [Hsc Hs]. apply scalar_cases in Hsc as (Hq & _ & _ & _ & _).
    destruct (key_start c) eqn:Hkc; [|by constructor; [..|apply (IH (String.length s)); cbn; [lia|..]]].
    destruct (str_span key_char s) as [w a] eqn:E. apply str_span_app in E as (-> & Hw & Ha).
    rewrite str_all_app in Hs. apply andb_true_iff in Hs as [_ Hsa].
    assert (Hcol : colon_follows (a +:+ t) = false) by (destruct a as [|d a]; [done|by apply scalar_after]).
    assert (Hstop : str_stops key_char (a +:+ t) = true) by (by destruct a).
    pose proof (Quoted_word c w (a +:+ t) (a +:+ r) Hkc Hw Hstop) as Hword. rewrite Hcol in Hword.
    cbn in *. rewrite <- !str_app_assoc. apply Hword.
    apply (IH (String.length a)); [|done..]. rewrite str_length_app. lia.
Qed.

Lemma copied_bracket s t : copied s → after_value t → ∀ o c : char,
  o ≠ QUOTE → o ≠ SLASH → key_start o = false → c ≠ QUOTE → c ≠ SLASH → c ≠ COLON → key_start c = false →
  key_char c = false → is_space c = false →
  copied_before (String o (s +:+ String c EmptyString)) t.
Proof.
  intros Hs Ht o c ??? ?? Hcol ? Hk Hsp. apply (copied_app (String o EmptyString)); [|by apply copied_char].
  apply copied_app; [by apply copied_char|]. apply Hs. split; cbn; [by rewrite Hk|].
  rewrite Hsp. by destruct (Ascii.eqb_spec c COLON).
Qed.

Lemma copied_comma s u : copied s → copied u → copied (s +:+ "," +:+ u).
Proof.
  intros Hs Hu t Ht. apply copied_app; [|by apply Hs].
  apply (copied_app (String _ EmptyString)); [by apply Hu|by apply copied_char].
Qed.

Lemma json_copied :
  (∀ s, JsonText s → copied s) ∧ (∀ s, JsonItems s → copied s) ∧ (∀ s, JsonMembers s → copied s).
Proof.
  apply Json_mutind.
  - intros l Hl t _. by apply copied_literal.
  - intros s _. apply copied_scalar.
  - intros s _ IH t Ht. by apply copied_bracket.
  - intros s Hs t Ht. apply copied_bracket; try done. intros u _. by apply copied_spaces.
  - intros s _ IH t Ht. by apply copied_bracket.
  - intros s Hs t Ht. apply copied_bracket; try done. intros u _. by apply copied_spaces.
  - intros a s b Ha Hb _ IH t Ht. apply copied_app; [|by apply copied_spaces].
    apply copied_app; [by apply copied_spaces|]. apply IH. by apply after_spaces.
  - done.
  - intros s u _ Hs _ Hu. by apply copied_comma.
  - intros a k b s Ha Hk Hb _ IH t Ht. apply copied_app; [|by apply copied_spaces].
    apply (copied_app (String QUOTE k)); [|by apply copied_literal].
    apply copied_app; [|by apply copied_spaces].
    apply (copied_app (String COLON EmptyString)); [by apply IH|by apply copied_char].
  - intros s u _ Hs _ Hu. by apply copied_comma.
Qed.

Lemma json_unchanged s : JsonText s → convertJSON5toJSON s = Ok s.
Proof.
  intros Hs. destruct (proj1 json_copied s Hs EmptyString) as [H1 H2]; [done|].
  specialize (H1 _ Strip_nil). specialize (H2 _ Quoted_nil). rewrite str_app_empty_r in *.
  apply convert_ok. by exists s.
Qed.

(** [C24] The conversion of JSON5 to JSON computes the two specifications: it
    returns [r] exactly when [r] is the text with its comments removed
    ([Strip]) and its unquoted keys quoted ([Quoted]), string literals being
    left alone; it fails only when the removal of comments does, on a string
    literal or a block comment without end, reporting the length of the text;
    and a JSON text is returned as it is. *)
Theorem convertJSON5toJSON_correct (s : string) :
  (∀ r, convertJSON5toJSON s = Ok r ↔ ∃ m, Strip s m ∧ Quoted m r) ∧
  (∀ e, convertJSON5toJSON s = Throw e →
     (∀ m, ¬ Strip s m) ∧ position e = String.length s ∧
     (message e = "Unterminated string" ∨ message e = "Unterminated multi-line comment")%string) ∧
  (JsonText s → convertJSON5toJSON s = Ok s).
Proof.
  split; [apply convert_ok|]. split; [|apply json_unchanged].
  intros e He. split.
  - intros m Hm. destruct (balanced_quoted m) as [r Hr]; [by eapply strip_balanced|].
    assert (convertJSON5toJSON s = Ok r) by (apply convert_ok; eauto). congruence.
  - rewrite convert_unfold in He. destruct (removeComments s) as [m|e'] eqn:E.
    + apply removeComments_ok in E. destruct (balanced_quoted m) as [r Hr]; [by eapply strip_balanced|].
      apply (quoted_loop (String.length m)) in Hr. cbn -[quote_loop] in He. congruence.
    + injection He as ->. by apply removeComments_error.
Qed.

(** The list [1, null] is a JSON text; a text with an open comment fails. *)
Lemma convertJSON5toJSON_correct_witness :
  convertJSON5toJSON "[1, null]" = Ok "[1, null]"%string ∧
  (∀ m, ¬ Strip "{a: 1} /* x" m) ∧ (∃ m, Strip "a //b" m ∧ Quoted m "a "%string).
Proof.
  split_and!.
  - apply (convertJSON5toJSON_correct "[1, null]"). apply (Json_array "1, null").
    apply (Json_items "1" " null"); [by apply Json_scalar|]. apply Json_item.
    apply (Json_spaces " " "null" ""); [done..|]. by apply Json_scalar.
  - destruct (convertJSON5toJSON_correct "{a: 1} /* x") as (_ & H & _).
    by destruct (H (mkJSON5ParseError "Unterminated multi-line comment" 11) eq_refl).
  - by apply (convertJSON5toJSON_correct "a //b").
Defined.
