(* ===== verification/ConfigSerializer.v ===== *)
(** * ConfigSerializer: configuration documents as text

    Models class ConfigSerializer of src/src/config/components/serializer.hpp
    and serializer.cpp: the formats, printing with the optional check of the
    output, parsing, files, batches, format detection and conversion.  Printing
    and parsing JSON text is the JSON library's; [JsonPrinter] states what the
    serializer relies on.  The file system is a parameter.  Left out: times and
    the logger; the batches run their elements in threads, which share nothing,
    so they are a map. *)

From S2P Require Import Prelude Text JsonCodec JsonTree Json5.

Local Open Scope Z_scope.

(** ** The same document

    Two values the library cannot tell apart. *)

Section sim.
Context `{JT : JsonTree J F}.

Inductive jsim : J → J → Prop :=
| jsim_same a b : jt_shape a = jt_shape b → jsim a b
| jsim_array a b l l' : jt_shape a = ShArray l → jt_shape b = ShArray l' → Forall2 jsim l l' → jsim a b
| jsim_object a b kvs kvs' : jt_shape a = ShObject kvs → jt_shape b = ShObject kvs' →
    Forall2 (λ x y, x.1 = y.1 ∧ jsim x.2 y.2) kvs kvs' → jsim a b.

#[export] Instance jsim_refl : Reflexive jsim.
Proof. intros a. by apply jsim_same. Qed.

(** Induction on what a value contains. *)
Lemma jt_ind (P : J → Prop) : (∀ j, (∀ c, c ∈ children (jt_shape j) → P c) → P j) → ∀ j, P j.
Proof.
  intros Hstep j. remember (jt_depth j) as n eqn:Hn. revert j Hn.
  induction n as [n IH] using lt_wf_ind. intros j ->. apply Hstep. intros c Hc.
  by eapply IH; [eapply jt_depth_child|].
Qed.

#[export] Instance jsim_sym : Symmetric jsim.
Proof.
  intros a. induction a as [a IH] using jt_ind. intros b Hab.
  destruct Hab as [x y Hs|x y l l' Hx Hy Hl|x y l l' Hx Hy Hl]; [by apply jsim_same|..];
    rewrite Hx in IH; cbn in IH; [eapply jsim_array; [done..|]|eapply jsim_object; [done..|]];
    clear Hx Hy; induction Hl as [|u v l l' Huv Hl IHl]; constructor.
  - apply IH; [by left|done].
  - apply IHl. intros c Hc. apply IH. by right.
  - destruct Huv as [-> Huv]. split; [done|]. apply IH; [by left|done].
  - apply IHl. intros c Hc. apply IH. by right.
Qed.

#[export] Instance jsim_trans : Transitive jsim.
Proof.
  intros a. induction a as [a IH] using jt_ind. intros b c Hab Hbc.
  destruct Hab as [x y Hs|x y l l' Hx Hy Hl|x y l l' Hx Hy Hl].
  - destruct Hbc as [y z Hs'|y z l l' Hy Hz Hl|y z l l' Hy Hz Hl];
      [apply jsim_same|eapply jsim_array|eapply jsim_object]; try done; congruence.
  - rewrite Hx in IH. destruct Hbc as [y z Hs'|y z k k' Hy' Hz Hk|y z k k' Hy' Hz Hk]; [|..|congruence].
    { eapply jsim_array; [done| |done]. congruence. }
    assert (k = l') as -> by congruence. eapply jsim_array; [done..|]. clear Hx Hy Hy' Hz. cbn in IH. revert k' Hk.
    induction Hl as [|u v l l' Huv Hl IHl]; intros k' Hk; inversion Hk; subst; constructor.
    + eapply IH; [by left|done|done].
    + apply IHl; [|done]. intros w Hw. apply IH. by right.
  - rewrite Hx in IH. destruct Hbc as [y z Hs'|y z k k' Hy' Hz Hk|y z k k' Hy' Hz Hk]; [|congruence|].
    { eapply jsim_object; [done| |done]. congruence. }
    assert (k = l') as -> by congruence. eapply jsim_object; [done..|]. clear Hx Hy Hy' Hz. cbn in IH. revert k' Hk.
    induction Hl as [|u v l l' [Hk1 Huv] Hl IHl]; intros k' Hk; inversion Hk as [|? w ? k'' [Hk2 Hvw] Hk']; subst; constructor.
    + split; [congruence|]. eapply IH; [by left|done|done].
    + apply IHl; [|done]. intros w' Hw'. apply IH. by right.
Qed.

#[export] Instance jsim_equiv : Equivalence jsim := {}.
End sim.

(** What the serializer relies on: printing depends on the content only and
    gives a JSON text, which the parser reads back as the same document.  NaN
    and infinity, which are printed as null, are not [representable]. *)
Class JsonPrinter (J F : Type) `{JT : JsonTree J F} := {
  representable : J → Prop;
  jt_eqb : J → J → bool;                         (* operator== *)
  jt_dump_sim a b : jsim a b → jt_dump a = jt_dump b;
  jt_dump_indent_sim n a b : jsim a b → jt_dump_indent n a = jt_dump_indent n b;
  jt_dump_text j s : jt_dump j = Ok s → JsonText s;
  jt_dump_indent_text n j s : jt_dump_indent n j = Ok s → JsonText s;
  jt_parse_dump j s : jt_dump j = Ok s → ∃ j', jt_parse s = Ok j' ∧ (representable j → jsim j' j);
  jt_parse_dump_indent n j s : jt_dump_indent n j = Ok s → ∃ j', jt_parse s = Ok j' ∧ (representable j → jsim j' j);
  jt_parse_newline s j : jt_parse s = Ok j → jt_parse (String NEWLINE s) = Ok j;
  jt_eqb_sim a b : representable b → jsim a b → jt_eqb a b = true
}.

#[export] Instance jt_dump_proper `{JsonPrinter J F} : Proper (jsim ==> eq) jt_dump.
Proof. intros a b Hab. by apply jt_dump_sim. Qed.
#[export] Instance jt_dump_indent_proper `{JsonPrinter J F} n : Proper (jsim ==> eq) (jt_dump_indent n).
Proof. intros a b Hab. by apply jt_dump_indent_sim. Qed.

(** ** Options and results *)

Inductive SerializationFormat := JSON | JSON5 | PRETTY_JSON | COMPACT_JSON | BINARY_JSON.
#[export] Instance SerializationFormat_eq_dec : EqDecision SerializationFormat.
Proof. solve_decision. Defined.

Record SerializationOptions := mkOptions {
  format : SerializationFormat;
  indentSize : Z;
  sortKeys : bool;
  preserveComments : bool;
  validateOutput : bool
}.
Definition default_options : SerializationOptions := mkOptions PRETTY_JSON 4 false true true.
Definition compact : SerializationOptions := mkOptions COMPACT_JSON 0 false true true.
Definition pretty_options (indent : Z) : SerializationOptions := mkOptions PRETTY_JSON indent false true true.
Definition json5 : SerializationOptions := mkOptions JSON5 4 false true true.

(** The fields of the configuration that are read. *)
Record Config := mkConfig {
  enableMetrics : bool;
  enableValidation : bool;
  maxFileSize : Z
}.
Definition default_config : Config := mkConfig true true (100 * 1024 * 1024).

Record SerializationResult := mkSer {
  success : bool;
  data : string;
  errorMessage : string;
  originalSize : Z;
  serializedSize : Z
}.
#[export] Instance SerializationResult_eta : Eta SerializationResult := λ r,
  mkSer (success r) (data r) (errorMessage r) (originalSize r) (serializedSize r).
#[export] Instance success_upd : Upd success. Proof. derive_upd. Defined.
#[export] Instance data_upd : Upd data. Proof. derive_upd. Defined.
#[export] Instance errorMessage_upd : Upd errorMessage. Proof. derive_upd. Defined.
#[export] Instance originalSize_upd : Upd originalSize. Proof. derive_upd. Defined.
#[export] Instance serializedSize_upd : Upd serializedSize. Proof. derive_upd. Defined.

Definition ser_isValid (r : SerializationResult) : bool := success r && negb (str_empty (data r)).

Definition str_size (s : string) : Z := Z.of_nat (String.length s).

(** The file system: what [exists], [file_size], an input stream and an output
    stream return.  A file that was written to the end holds the text. *)
Class FileOps (W : Type) := {
  fs_exists : W → string → result string bool;   (* Throw what of a filesystem_error *)
  fs_size : W → string → result string Z;
  fs_read : W → string → option string;          (* None when the file cannot be opened *)
  fs_write : W → string → string → W * option bool;  (* None likewise; then good() *)
  fs_write_exists w p s w' : fs_write w p s = (w', Some true) → fs_exists w' p = Ok true;
  fs_write_size w p s w' : fs_write w p s = (w', Some true) → fs_size w' p = Ok (str_size s);
  fs_write_read w p s w' : fs_write w p s = (w', Some true) → fs_read w' p = Some s
}.

Section serializer.
Context `{JP : JsonPrinter J F, SS : !StdSort}.

Record DeserializationResult := mkDeser {
  d_success : bool;
  d_data : J;
  d_errorMessage : string;
  bytesProcessed : Z
}.

Definition jt_null : J := jt_make ShNull.
Definition jt_is_null (j : J) : bool := match jt_shape j with ShNull => true | _ => false end.

Definition deser_isValid (r : DeserializationResult) : bool := d_success r && negb (jt_is_null (d_data r)).

(** ** Printing *)

Definition serializeToJson5 (d : J) (options : SerializationOptions) : result string string :=
  let* jsonStr := jt_dump_indent (indentSize options) d in
  Ok (if preserveComments options then "// Generated JSON5 configuration" +:+ String NEWLINE jsonStr else jsonStr).

Definition serializeToBinary (d : J) : result string string := jt_dump d.

(** The recursion is over the members of the value, so its depth is enough fuel. *)
Fixpoint sort_keys (fuel : nat) (d : J) : J :=
  match fuel with
  | O => d
  | S fuel =>
      match jt_shape d with
      | ShObject kvs =>
          let keys := std_sort str_ltb kvs.*1 in
          jt_make (ShObject (foldl (λ sorted key,
            obj_set key (sort_keys fuel (default jt_null (jt_find d key))) sorted) [] keys))
      | ShArray l => jt_array (map (sort_keys fuel) l)
      | _ => d
      end
  end.
Definition sortJsonKeys (d : J) : J := sort_keys (S (jt_depth d)) d.

Definition validateSerialization (output : string) (fmt : SerializationFormat) : bool :=
  match fmt with
  | JSON | PRETTY_JSON | COMPACT_JSON => is_ok (jt_parse output)
  | JSON5 =>
      match convertJSON5toJSON output with
      | Throw _ => false
      | Ok text => is_ok (jt_parse text)
      end
  | BINARY_JSON => negb (str_empty output)
  end.

(** The text, or what the library threw. *)
Definition print_as (d : J) (options : SerializationOptions) : result string string :=
  let d' := if sortKeys options then sortJsonKeys d else d in
  match format options with
  | JSON | PRETTY_JSON => jt_dump_indent (indentSize options) d'
  | COMPACT_JSON => jt_dump d'
  | JSON5 => serializeToJson5 d options
  | BINARY_JSON => serializeToBinary d
  end.

Definition serializeToString (config : Config) (d : J) (options : SerializationOptions) : SerializationResult :=
  let result := mkSer false "" "" 0 0 in
  match (if enableMetrics config then let* s := jt_dump d in Ok (str_size s) else Ok 0) with
  | Throw what => result <| errorMessage := what |>
  | Ok size =>
      let result := result <| originalSize := size |> in
      match print_as d options with
      | Throw what => result <| errorMessage := what |>
      | Ok text =>
          let result := result <| data := text |> <| serializedSize := str_size text |> <| success := true |> in
          if enableValidation config && validateOutput options && negb (validateSerialization text (format options))
          then result <| success := false |> <| errorMessage := "Output validation failed" |>
          else result
      end
  end.

Definition serialize := serializeToString.

(** ** Parsing *)

Definition deserializeFromString (input : string) (fmt : SerializationFormat) : DeserializationResult :=
  let failed what := mkDeser false jt_null what (str_size input) in
  let parsed text :=
    match jt_parse text with
    | Ok d => mkDeser true d "" (str_size input)
    | Throw what => failed what
    end in
  match fmt with
  | JSON | PRETTY_JSON | COMPACT_JSON | BINARY_JSON => parsed input
  | JSON5 =>
      match convertJSON5toJSON input with
      | Throw e => failed (Json5.what e)
      | Ok text => parsed text
      end
  end.
Definition deserialize := deserializeFromString.

Definition convertFormat (config : Config) (input : string) (fromFormat toFormat : SerializationFormat)
  (options : SerializationOptions) : SerializationResult :=
  let deserResult := deserialize input fromFormat in
  if deser_isValid deserResult then serialize config (d_data deserResult) options
  else mkSer false "" ("Failed to deserialize input: " +:+ d_errorMessage deserResult) 0 0.

Definition validateJson (d : J) : bool :=
  match jt_dump d with
  | Throw _ => false
  | Ok dumped =>
      match jt_parse dumped with
      | Throw _ => false
      | Ok parsed => jt_eqb parsed d
      end
  end.

(** More than four elements are handed to threads, whose results are collected
    in order. *)
Definition serializeBatch (config : Config) (dataList : list J) (options : SerializationOptions) : list SerializationResult :=
  map (λ d, serialize config d options) dataList.
Definition deserializeBatch (inputList : list string) (fmt : SerializationFormat) : list DeserializationResult :=
  map (λ input, deserialize input fmt) inputList.

(** ** Detecting the format *)

Definition formatMap : list (string * SerializationFormat) :=
  [(".json", JSON); (".json5", JSON5); (".lithium", JSON); (".config", JSON); (".lithium5", JSON5);
   (".cbor", BINARY_JSON); (".msgpack", BINARY_JSON)]%string.

Definition detectFormat_path (filePath : string) : option SerializationFormat :=
  assoc (str_tolower (path_extension filePath)) formatMap.

Definition SAMPLE_SIZE : nat := 100.

(** Whether a character of the sample is neither printable nor a space. *)
Definition binary_sample (rest : string) : bool :=
  negb (str_all (λ c, is_print c || is_space c) (str_take SAMPLE_SIZE rest)).

Definition detectFormat_content (content : string) : option SerializationFormat :=
  let '(_, rest) := str_span is_space content in
  match rest with
  | EmptyString => None
  | String first _ =>
      if begins SLASH SLASH rest then Some JSON5
      else if Ascii.eqb first "{"%char || Ascii.eqb first "["%char then Some JSON
      else if binary_sample rest then Some BINARY_JSON
      else Some JSON
  end.

Definition getSupportedExtensions (fmt : SerializationFormat) : list string :=
  match fmt with
  | JSON | PRETTY_JSON | COMPACT_JSON => [".json"; ".lithium"]
  | JSON5 => [".json5"; ".lithium5"]
  | BINARY_JSON => [".cbor"; ".msgpack"; ".bin"]
  end%string.

(** ** Files *)

Section files.
Context {W : Type} `{FO : FileOps W}.

Definition serializeToFile (config : Config) (w : W) (d : J) (filePath : string) (options : SerializationOptions) : W * bool :=
  let r := serialize config d options in
  if negb (ser_isValid r) then (w, false)
  else
    let '(w', written) := fs_write w filePath (data r) in
    (w', match written with Some good => good | None => false end).

Definition deserializeFromFile (config : Config) (w : W) (filePath : string) (fmt : option SerializationFormat) : DeserializationResult :=
  let failed what := mkDeser false jt_null what 0 in
  match fs_exists w filePath with
  | Throw what => failed what
  | Ok false => failed ("File does not exist: " +:+ filePath)
  | Ok true =>
      match fs_size w filePath with
      | Throw what => failed what
      | Ok fileSize =>
          if maxFileSize config <? fileSize then failed ("File too large: " +:+ filePath)
          else match fs_read w filePath with
               | None => failed ("Failed to open file: " +:+ filePath)
               | Some content =>
                   let detectedFormat :=
                     match fmt with
                     | Some f => f
                     | None => default JSON (detectFormat_path filePath)
                     end in
                   deserialize content detectedFormat
               end
      end
  end.

(** A stream takes the text and says whether it is still good. *)
Definition streamSerialize {O : Type} (write : O → string → O * bool) (config : Config) (output : O) (d : J)
  (options : SerializationOptions) : O * bool :=
  let r := serialize config d options in
  if negb (ser_isValid r) then (output, false) else write output (data r).
Definition streamDeserialize (content : string) (fmt : SerializationFormat) : DeserializationResult :=
  deserialize content fmt.
End files.
End serializer.

(** ** Sorting the keys changes nothing

    The library keeps the members of an object in the order of their keys. *)

Lemma str_ltb_strict : strict_weak str_ltb.
Proof.
  split; [apply str_ltb_irrefl|intros; by eapply str_ltb_trans|].
  intros a b c Hba Hcb. destruct (str_ltb c a) eqn:Hca; [|done].
  destruct (str_ltb a b) eqn:Hab; [by rewrite (str_ltb_trans _ _ _ Hca Hab) in Hcb|].
  rewrite (str_ltb_total _ _ Hab Hba) in Hca. congruence.
Qed.

Lemma std_sort_keys `{!StdSort} (keys : list string) :
  StronglySorted (λ a b, str_ltb a b = true) keys → std_sort str_ltb keys = keys.
Proof.
  intros Hs. assert (AntiSymm (=) (λ a b, str_ltb b a = false)) by (intros a b ??; by apply str_ltb_total).
  apply (StronglySorted_unique (λ a b, str_ltb b a = false)).
  - by apply std_sort_sorted, str_ltb_strict.
  - induction Hs as [|a l Hs IH Hall]; constructor; [done|]. eapply Forall_impl; [exact Hall|]. intros b. apply str_ltb_antisym.
  - apply std_sort_perm.
Qed.

Lemma obj_set_last {J} k (v : J) kvs : Forall (λ kv, str_ltb kv.1 k = true) kvs → obj_set k v kvs = kvs ++ [(k, v)].
Proof.
  induction 1 as [|[k1 v1] kvs H1 Hall IH]; [done|]. cbn in *.
  destruct (String.eqb_spec k k1) as [->|]; [by rewrite str_ltb_irrefl in H1|].
  by rewrite (str_ltb_antisym _ _ H1), IH.
Qed.

Lemma foldl_obj_set {J} (g : string → J) (keys : list string) acc :
  StronglySorted (λ a b, str_ltb a b = true) keys →
  Forall (λ kv, Forall (λ k, str_ltb kv.1 k = true) keys) acc →
  foldl (λ acc k, obj_set k (g k) acc) acc keys = acc ++ map (λ k, (k, g k)) keys.
Proof.
  intros Hs. revert acc. induction Hs as [|k keys Hs IH Hall]; intros acc Hacc; cbn; [by rewrite app_nil_r|].
  rewrite obj_set_last.
  - rewrite IH, <- app_assoc; [done|]. apply Forall_app. split; [|by repeat constructor].
    eapply Forall_impl; [exact Hacc|]. intros kv Hkv. by apply Forall_cons in Hkv as [_ ?].
  - eapply Forall_impl; [exact Hacc|]. intros kv Hkv. by apply Forall_cons in Hkv as [? _].
Qed.

Lemma assoc_sorted {J} (kvs : list (string * J)) k v : keys_sorted kvs → (k, v) ∈ kvs → assoc k kvs = Some v.
Proof.
  induction 1 as [|[k1 v1] kvs Hs IH Hall]; intros Hin; [by apply not_elem_of_nil in Hin|].
  apply elem_of_cons in Hin as [[= -> ->]|Hin]; cbn; [by rewrite String.eqb_refl|].
  rewrite IH by done. destruct (String.eqb_spec k k1) as [->|]; [|done].
  rewrite Forall_forall in Hall. apply Hall in Hin. unfold key_before in Hin. cbn in Hin. by rewrite str_ltb_irrefl in Hin.
Qed.

Lemma json_not_empty t : JsonText t → t ≠ ""%string.
Proof. induction 1 as [| | | | | |a s b _ _ _ IH]; try done. intros H. by destruct a, s. Qed.

#[export] Instance Ok_inj {E A} : Inj (=) (=) (@Ok E A).
Proof. by intros x y [= ->]. Qed.

Section laws.
Context `{JP : JsonPrinter J F, SS : !StdSort}.
Implicit Types d : J.

Lemma sort_keys_sim fuel d : (jt_depth d < fuel)%nat → jsim (sort_keys fuel d) d.
Proof.
  revert fuel. induction d as [d IH] using jt_ind. intros fuel Hf. destruct fuel as [|fuel]; [lia|]. cbn [sort_keys].
  assert (Hc : ∀ c, c ∈ children (jt_shape d) → jsim (sort_keys fuel c) c).
  { intros c Hc. apply IH; [done|]. apply jt_depth_child in Hc. lia. }
  destruct (jt_shape d) as [| | | | |l|kvs] eqn:E; try done.
  - eapply jsim_array; [apply shape_array|done|]. cbn in Hc. clear E IH.
    induction l as [|c l IHl]; constructor; [apply Hc; by left|]. apply IHl. intros ??. apply Hc. by right.
  - pose proof (jt_sorted d kvs E) as Hs. pose proof (proj1 (keys_sorted_fst kvs) Hs) as Hk.
    rewrite std_sort_keys, foldl_obj_set by done. cbn.
    set (g := λ k, sort_keys fuel (default jt_null (jt_find d k))).
    assert (Hg : ∀ kv, kv ∈ kvs → jsim (g kv.1) kv.2).
    { intros [k v] Hkv. unfold g, jt_find. rewrite E. cbn. rewrite (assoc_sorted kvs k v) by done. apply Hc.
      cbn. apply list_elem_of_fmap. by exists (k, v). }
    eapply jsim_object; [apply jt_shape_make|done|].
    + apply keys_sorted_fst. by rewrite <- list_fmap_compose, list_fmap_id.
    + clear -Hg. induction kvs as [|kv kvs IH]; constructor; [split; [done|apply Hg; by left]|].
      apply IH. intros ??. apply Hg. by right.
Qed.

Lemma sortJsonKeys_sim d : jsim (sortJsonKeys d) d.
Proof. apply sort_keys_sim. lia. Qed.

(** ** Printing and reading back *)

Lemma print_as_ok d options t0 t1 :
  jt_dump d = Ok t0 → jt_dump_indent (indentSize options) d = Ok t1 →
  print_as d options = Ok match format options with
                          | JSON | PRETTY_JSON => t1
                          | COMPACT_JSON | BINARY_JSON => t0
                          | JSON5 => if preserveComments options
                                     then "// Generated JSON5 configuration" +:+ String NEWLINE t1 else t1
                          end.
Proof.
  intros H0 H1. unfold print_as, serializeToJson5, serializeToBinary.
  assert (Hs : jsim (if sortKeys options then sortJsonKeys d else d) d)
    by (destruct (sortKeys options); [apply sortJsonKeys_sim|done]).
  destruct (format options); rewrite ?Hs, ?H0, ?H1; done.
Qed.

(** A line comment in front of a JSON text is removed with its line kept. *)
Lemma convert_commented text t : str_mem NEWLINE text = false → JsonText t →
  convertJSON5toJSON (String SLASH (String SLASH (text +:+ String NEWLINE t))) = Ok (String NEWLINE t).
Proof.
  intros Hn Ht%json_unchanged. apply convert_ok in Ht as (m & Hm & Hq). apply convert_ok.
  exists (String NEWLINE m). by split; constructor.
Qed.

(** What the parser makes of a printed document. *)
Lemma parse_of_printed d options t0 t1 text :
  jt_dump d = Ok t0 → jt_dump_indent (indentSize options) d = Ok t1 → print_as d options = Ok text →
  ∃ d', deserialize text (format options) = mkDeser true d' "" (str_size text) ∧ (representable d → jsim d' d) ∧
    validateSerialization (J := J) text (format options) = true.
Proof.
  intros H0 H1 Ht. rewrite (print_as_ok _ _ _ _ H0 H1) in Ht. apply Ok_inj in Ht.
  destruct (jt_parse_dump d t0 H0) as (d0 & Hp0 & Hs0), (jt_parse_dump_indent _ d t1 H1) as (d1 & Hp1 & Hs1).
  unfold deserialize, deserializeFromString, validateSerialization.
  destruct (format options) eqn:Ef; subst text; rewrite ?Hp0, ?Hp1; [by exists d1| |by exists d1|by exists d0|].
  - exists d1. assert (Hconv : ∃ u, convertJSON5toJSON (if preserveComments options
        then "// Generated JSON5 configuration" +:+ String NEWLINE t1 else t1) = Ok u ∧ jt_parse u = Ok d1).
    { pose proof (jt_dump_indent_text _ _ _ H1) as Hj. destruct (preserveComments options).
      - exists (String NEWLINE t1). split; [|by apply jt_parse_newline].
        by apply (convert_commented " Generated JSON5 configuration").
      - exists t1. split; [by apply json_unchanged|done]. }
    destruct Hconv as (u & -> & ->). done.
  - exists d0. split_and!; [done..|]. apply jt_dump_text, json_not_empty in H0. by destruct t0.
Qed.

Lemma serialize_ok config d options t0 t1 :
  jt_dump d = Ok t0 → jt_dump_indent (indentSize options) d = Ok t1 →
  ∃ text n, print_as d options = Ok text ∧ serialize config d options = mkSer true text "" n (str_size text).
Proof.
  intros H0 H1. destruct (print_as d options) as [text|what] eqn:Ht.
  - destruct (parse_of_printed d options t0 t1 text H0 H1 Ht) as (d' & _ & _ & Hv).
    exists text, (if enableMetrics config then str_size t0 else 0). split; [done|].
    unfold serialize, serializeToString. rewrite H0. destruct (enableMetrics config); cbn; rewrite Ht, Hv; cbn; by rewrite andb_false_r.
  - by rewrite (print_as_ok _ _ _ _ H0 H1) in Ht.
Qed.

Lemma jsim_null d d' : jsim d' d → jt_is_null d' = jt_is_null d.
Proof. unfold jt_is_null. intros [a b ->|a b l l' -> -> _|a b l l' -> -> _]; done. Qed.

(** [C25] Round trip of configuration documents: a document whose strings are
    valid UTF-8 and which holds no NaN or infinity is printed successfully, for
    every format and every choice of options, and parsing the text in the same
    format gives the same document; the check of the output never rejects what
    was printed.  Only the document null is not a valid result of the parser.
    When the library refuses to print, so does the serializer, with the
    library's message and no text. *)
Theorem serialize_roundtrip (config : Config) (d : J) (options : SerializationOptions) :
  let r := serialize config d options in
  (∀ t0 t1, jt_dump d = Ok t0 → jt_dump_indent (indentSize options) d = Ok t1 → representable d →
     success r = true ∧ errorMessage r = ""%string ∧ serializedSize r = str_size (data r) ∧
     let back := deserialize (data r) (format options) in
     d_success back = true ∧ jsim (d_data back) d ∧ deser_isValid back = negb (jt_is_null d)) ∧
  (∀ what, enableMetrics config = true → jt_dump d = Throw what →
     success r = false ∧ errorMessage r = what ∧ data r = ""%string).
Proof.
  intros r. split.
  - intros t0 t1 H0 H1 Hr. destruct (serialize_ok config d options t0 t1 H0 H1) as (text & n & Ht & Hs).
    destruct (parse_of_printed d options t0 t1 text H0 H1 Ht) as (d' & Hd & Hsim & _). specialize (Hsim Hr).
    unfold r. rewrite Hs. cbn [success errorMessage data serializedSize]. rewrite Hd. unfold deser_isValid. cbn.
    by rewrite (jsim_null d d').
  - intros what Hc H0. unfold r, serialize, serializeToString. by rewrite Hc, H0.
Qed.

(** The target format of a conversion is not looked at. *)
Lemma convertFormat_ignores_target config input from to1 to2 options :
  convertFormat config input from to1 options = convertFormat config input from to2 options.
Proof. done. Qed.

(** ** Files *)

Section file_laws.
Context {W : Type} `{FO : FileOps W}.

(** A text without JSON5 comments is read the same in every format. *)
Lemma any_format d options t0 t1 text fmt :
  jt_dump d = Ok t0 → jt_dump_indent (indentSize options) d = Ok t1 → print_as d options = Ok text → representable d →
  (format options = JSON5 → preserveComments options = true → fmt = JSON5) →
  ∃ d', deserialize text fmt = mkDeser true d' "" (str_size text) ∧ jsim d' d.
Proof.
  intros H0 H1 Ht Hr Hf.
  destruct (decide (format options = JSON5 ∧ preserveComments options = true)) as [[Hj Hp]|Hn].
  - destruct (parse_of_printed d options t0 t1 text H0 H1 Ht) as (d' & Hd & Hsim & _).
    exists d'. split; [|auto]. by rewrite (Hf Hj Hp), <- Hj.
  - rewrite (print_as_ok _ _ _ _ H0 H1) in Ht. apply Ok_inj in Ht.
    assert (Hplain : JsonText text ∧ ∃ d', jt_parse text = Ok d' ∧ (representable d → jsim d' d)).
    { subst text. assert (text_0 := jt_dump_text _ _ H0). assert (text_1 := jt_dump_indent_text _ _ _ H1).
      pose proof (jt_parse_dump d t0 H0). pose proof (jt_parse_dump_indent _ d t1 H1).
      destruct (format options); try done. destruct (preserveComments options); [|done]. by destruct Hn. }
    destruct Hplain as (Htext%json_unchanged & d' & Hp & Hsim). exists d'. split; [|auto].
    unfold deserialize, deserializeFromString. rewrite Htext. by destruct fmt; rewrite Hp.
Qed.

(** Saving and loading a document: when the file could be written, is not
    larger than the limit, and its extension does not announce another syntax
    than the one written (every extension will do, unless JSON5 comments were
    written), loading it without naming a format gives the same document. *)
Lemma saved_reads_back (config : Config) (w w' : W) (d : J) (filePath : string) (options : SerializationOptions)
  (t0 t1 : string)
  (Hdump : jt_dump d = Ok t0) (Hindent : jt_dump_indent (indentSize options) d = Ok t1)
  (Hfinite : representable d) (Hnull : jt_is_null d = false)
  (Hwritten : serializeToFile config w d filePath options = (w', true))
  (Hsize : str_size (data (serialize config d options)) ≤ maxFileSize config)
  (Hext : format options = JSON5 → preserveComments options = true → detectFormat_path filePath = Some JSON5) :
  let back := deserializeFromFile config w' filePath None in
  deser_isValid back = true ∧ jsim (d_data back) d.
Proof.
  destruct (serialize_ok config d options t0 t1 Hdump Hindent) as (text & n & Ht & Hs).
  destruct (parse_of_printed d options t0 t1 text Hdump Hindent Ht) as (d' & Hd & Hsim & _). specialize (Hsim Hfinite).
  unfold serializeToFile in Hwritten. rewrite Hs in *. cbn [data] in *.
  destruct (ser_isValid _); cbn in Hwritten; [|done].
  destruct (fs_write w filePath text) as [w1 [[]|]] eqn:Ew; simplify_eq.
  unfold deserializeFromFile. erewrite fs_write_exists, fs_write_size, fs_write_read by done.
  replace (maxFileSize config <? str_size text) with false by lia.
  assert (Hb : ∃ d2, deserialize text (default JSON (detectFormat_path filePath)) = mkDeser true d2 "" (str_size text) ∧ jsim d2 d).
  { eapply any_format; [done..|]. intros Hj Hp. by rewrite (Hext Hj Hp). }
  destruct Hb as (d2 & -> & Hd2). unfold deser_isValid. cbn. by rewrite (jsim_null d d2), Hnull.
Qed.
End file_laws.
End laws.

(** ** Examples

    A printer that knows booleans, null and the empty array, and prints null
    for the rest. *)

Definition demo_text (j : jtree) : string :=
  match j with TBool true => "true" | TBool false => "false" | TArr [] => "[]" | _ => "null" end.

Fixpoint demo_read (s : string) : option jtree :=
  match s with
  | String c s' =>
      if Ascii.eqb c NEWLINE then demo_read s'
      else if String.eqb s "true" then Some (TBool true)
      else if String.eqb s "false" then Some (TBool false)
      else if String.eqb s "[]" then Some (TArr [])
      else if String.eqb s "null" then Some TNull
      else None
  | EmptyString => None
  end.

#[local] Instance demo_json_tree : JsonTree jtree Z := jtree_json demo_text demo_read.

Definition demo_representable (j : jtree) : Prop :=
  match j with TNull | TBool _ | TArr [] => True | _ => False end.

Lemma demo_text_json j : JsonText (demo_text j).
Proof.
  destruct j as [|[]| | | |[]|]; try (by apply Json_scalar). by apply (Json_empty_array "").
Qed.

Lemma demo_text_sim (a b : jtree) : jsim a b → demo_text a = demo_text b.
Proof.
  intros [x y Hs|x y l l' Hx Hy Hl|x y l l' Hx Hy Hl].
  - by destruct x, y; cbn in Hs; simplify_eq.
  - destruct x, y; cbn in Hx, Hy; simplify_eq. by destruct Hl.
  - by destruct x, y; cbn in Hx, Hy; simplify_eq.
Qed.

Lemma demo_read_text j : ∃ j', demo_read (demo_text j) = Some j' ∧ (demo_representable j → jsim j' j).
Proof.
  destruct j as [|[]| | | |[]|]; eexists; (split; [reflexivity|done]).
Qed.

#[local] Instance demo_printer : JsonPrinter jtree Z.
Proof.
  refine {| representable := demo_representable; jt_eqb a b := String.eqb (demo_text a) (demo_text b) |}.
  - intros a b Hab. cbn. by rewrite (demo_text_sim a b).
  - intros n a b Hab. cbn. by rewrite (demo_text_sim a b).
  - intros j s [= <-]. apply demo_text_json.
  - intros n j s [= <-]. apply demo_text_json.
  - intros j s [= <-]. cbn. destruct (demo_read_text j) as (j' & -> & Hj). eauto.
  - intros n j s [= <-]. cbn. destruct (demo_read_text j) as (j' & -> & Hj). eauto.
  - done.
  - intros a b _ Hab. by rewrite (demo_text_sim a b), String.eqb_refl.
Defined.

(** A file system that always works. *)
#[local] Instance demo_files : FileOps (gmap string string).
Proof.
  refine {|
    fs_exists w p := Ok (bool_decide (is_Some (w !! p)));
    fs_size w p := Ok (str_size (default "" (w !! p)));
    fs_read w p := w !! p;
    fs_write w p s := (<[p := s]> w, Some true)
  |}; intros w p s w' [= <-]; by rewrite lookup_insert_eq.
Defined.

Lemma serialize_roundtrip_witness :
  let _ := insertion_sort in
  let r := serialize default_config (TBool true) json5 in
  success r = true ∧ d_success (deserialize (J := jtree) (data r) JSON5) = true.
Proof.
  intros S. destruct (@serialize_roundtrip jtree Z demo_json_tree demo_printer S default_config (TBool true) json5) as [H _].
  destruct (H "true"%string "true"%string eq_refl eq_refl I) as (Hs & _ & _ & Hd & _).
  split; [exact Hs|exact Hd].
Defined.

(** JSON5 comments saved under the name of a JSON file cannot be loaded back. *)
Example json5_in_json_file :
  let _ := insertion_sort in
  let '(w', ok) := serializeToFile default_config (∅ : gmap string string) (TBool true) "a.json" json5 in
  ok = true ∧ deser_isValid (deserializeFromFile (J := jtree) default_config w' "a.json" None) = false.
Proof. by vm_compute. Qed.
