(* ===== verification/ConfigValidator.v ===== *)
(** * ConfigValidator: schema checks of configuration documents

    Models class ConfigValidator of src/src/config/components/validator.hpp
    and validator.cpp: the recursive check of a document against a schema,
    custom rules, schema loading and the static checks.  An exception of the
    JSON library inside the check is [Throw what].  The recursion goes into the
    members of the document, whose depth is enough fuel.  Regular expressions,
    the conversion of a double to an integer and the custom rules are
    parameters.  Left out: the logger, the methods the header declares and no
    file defines, the options that no code reads. *)

From S2P Require Import Prelude Text JsonCodec JsonTree Json5 ConfigSerializer.

Local Open Scope Z_scope.

Record ValidationResult := mkValidation {
  isValid : bool;
  errors : list string;
  warnings : list string;
  path : string
}.
#[export] Instance ValidationResult_eta : Eta ValidationResult := λ r,
  mkValidation (isValid r) (errors r) (warnings r) (path r).
#[export] Instance isValid_upd : Upd isValid. Proof. derive_upd. Defined.
#[export] Instance errors_upd : Upd errors. Proof. derive_upd. Defined.
#[export] Instance warnings_upd : Upd warnings. Proof. derive_upd. Defined.

Definition new_result (p : string) : ValidationResult := mkValidation true [] [] p.
Definition addError (e : string) (r : ValidationResult) : ValidationResult :=
  r <| isValid := false |> <| errors ::= (λ l, l ++ [e]) |>.
Definition addWarning (e : string) (r : ValidationResult) : ValidationResult :=
  r <| warnings ::= (λ l, l ++ [e]) |>.

(** The numbered lines of [getErrorMessage] and [getWarningMessage]. *)
Definition message_of (title : string) (p : string) (l : list string) : string :=
  match l with
  | [] => ""
  | _ => title +:+ (if str_empty p then "" else " at '" +:+ p +:+ "'") +:+ ":" +:+ String NEWLINE
           (foldr (λ ie acc, "  " +:+ pretty (Z.of_nat (S ie.1)) +:+ ". " +:+ ie.2 +:+ String NEWLINE acc) ""%string
              (imap (λ i e, (i, e)) l))
  end.
Definition getErrorMessage (r : ValidationResult) : string := message_of "Validation errors" (path r) (errors r).
Definition getWarningMessage (r : ValidationResult) : string := message_of "Validation warnings" (path r) (warnings r).

Definition mergeResults (target source : ValidationResult) : ValidationResult :=
  (if isValid source then target else target <| isValid := false |>)
    <| errors ::= (λ l, l ++ errors source) |> <| warnings ::= (λ l, l ++ warnings source) |>.

Section validator.
Context `{JP : JsonPrinter J F, FO : !Floats F, HI : !HashIter string}.
Context (size_of_float : F → Z)                  (* static_cast<size_t> *)
  (regex_match : string → string → option bool). (* pattern, text; None is regex_error *)

Abbreviation Checked := (result string ValidationResult).

(** [get<size_t>()], [get<double>()], [get<std::string>()]: type_error 302 for
    the other kinds. *)
Definition get_size (j : J) : result string Z :=
  match jt_shape j with
  | ShInt z => Ok (to_size z)
  | ShFloat f => Ok (size_of_float f)
  | _ => Throw (jt_what 302 j)
  end.
Definition get_double (j : J) : result string F :=
  match jt_shape j with
  | ShInt z => Ok (f_of_Z z)
  | ShFloat f => Ok f
  | _ => Throw (jt_what 302 j)
  end.
Definition get_text (j : J) : result string string :=
  match jt_shape j with ShString s => Ok s | _ => Throw (jt_what 302 j) end.

Definition is_number (j : J) : bool := match jt_shape j with ShInt _ | ShFloat _ => true | _ => false end.
Definition is_integer (j : J) : bool := match jt_shape j with ShInt _ => true | _ => false end.
Definition is_boolean (j : J) : bool := match jt_shape j with ShBool _ => true | _ => false end.

Definition type_name (j : J) : string :=
  match jt_shape j with
  | ShNull => "null" | ShBool _ => "boolean" | ShInt _ | ShFloat _ => "number" | ShString _ => "string"
  | ShArray _ => "array" | ShObject _ => "object"
  end.

(** ** Types *)

Definition type_check (data : J) (expected : string) : option bool :=
  if String.eqb expected "null" then Some (jt_is_null data)
  else if String.eqb expected "boolean" then Some (is_boolean data)
  else if String.eqb expected "integer" then Some (is_integer data)
  else if String.eqb expected "number" then Some (is_number data)
  else if String.eqb expected "string" then Some (jt_is_string data)
  else if String.eqb expected "array" then Some (jt_is_array data)
  else if String.eqb expected "object" then Some (jt_is_object data)
  else None.

Definition validateSingleType (data : J) (expectedType : string) (r : ValidationResult) (add : bool) : ValidationResult * bool :=
  match type_check data expectedType with
  | None => (if add then addError ("Unknown type: " +:+ expectedType) r else r, false)
  | Some ok =>
      (if negb ok && add then addError ("Expected type " +:+ expectedType +:+ " but got " +:+ type_name data) r else r, ok)
  end.

Fixpoint validate_any (data : J) (types : list J) (r : ValidationResult) : ValidationResult * bool :=
  match types with
  | [] => (addError "Value does not match any of the expected types" r, false)
  | t :: rest =>
      match jt_shape t with
      | ShString name => let '(r, ok) := validateSingleType data name r false in if ok then (r, true) else validate_any data rest r
      | _ => validate_any data rest r
      end
  end.

Definition validateType (data expectedType : J) (r : ValidationResult) : ValidationResult * bool :=
  match jt_shape expectedType with
  | ShString type => validateSingleType data type r true
  | ShArray types => validate_any data types r
  | _ => (r, true)
  end.

(** ** Bounds *)

(** [if (schema.contains(key)) { auto limit = schema[key].get<T>(); if (bad) addError }] *)
Definition bound {A} (get : J → result string A) (schema : J) (key : string) (bad : A → bool) (msg : A → string)
  (r : ValidationResult) : Checked :=
  match jt_find schema key with
  | None => Ok r
  | Some v => let* limit := get v in Ok (if bad limit then addError (msg limit) r else r)
  end.

Definition validateNumber (data schema : J) (r : ValidationResult) : Checked :=
  let* value := get_double data in
  let* r := bound get_double schema "minimum" (λ m, f_ltb value m)
              (λ m, "Value " +:+ f_print value +:+ " is below minimum " +:+ f_print m) r in
  bound get_double schema "maximum" (λ m, f_ltb m value)
    (λ m, "Value " +:+ f_print value +:+ " is above maximum " +:+ f_print m) r.

Definition validateString (data schema : J) (r : ValidationResult) : Checked :=
  let* str := get_text data in
  let length := str_size str in
  let* r := bound get_size schema "minLength" (λ m, length <? m)
              (λ m, "String length " +:+ pretty length +:+ " is below minimum " +:+ pretty m) r in
  let* r := bound get_size schema "maxLength" (λ m, m <? length)
              (λ m, "String length " +:+ pretty length +:+ " is above maximum " +:+ pretty m) r in
  match jt_find schema "pattern" with
  | None => Ok r
  | Some v =>
      let* pattern := get_text v in
      Ok match regex_match pattern str with
         | None => addError ("Invalid regex pattern: " +:+ pattern) r
         | Some false => addError ("String does not match pattern: " +:+ pattern) r
         | Some true => r
         end
  end.

Definition validateEnumConstraint (data enumValues : J) (r : ValidationResult) : ValidationResult :=
  if existsb (jt_eqb data) (jt_elements enumValues) then r
  else addError "Value is not one of the allowed enum values" r.

(** ** Objects and arrays *)

Definition validate_required (data schema : J) (r : ValidationResult) : ValidationResult :=
  match jt_find schema "required" with
  | None => r
  | Some required =>
      match jt_shape required with
      | ShArray fields =>
          foldl (λ r field,
            match jt_shape field with
            | ShString name => if jt_contains data name then r else addError ("Missing required field: " +:+ name) r
            | _ => r
            end) r fields
      | _ => r
      end
  end.

(** A loop whose body may throw. *)
Fixpoint each {A} (f : A → ValidationResult → Checked) (l : list A) (r : ValidationResult) : Checked :=
  match l with
  | [] => Ok r
  | x :: rest => let* r := f x r in each f rest r
  end.

Definition validate_property (allow : bool) (check : J → J → string → Checked) (properties : J) (p : string)
  (kv : string * J) (r : ValidationResult) : Checked :=
  let currentPath := (if str_empty p then "" else p +:+ ".") +:+ kv.1 in
  match jt_find properties kv.1 with
  | Some sub => let* s := check kv.2 sub currentPath in Ok (mergeResults r s)
  | None => Ok (if negb allow then addError ("Additional property not allowed: " +:+ kv.1) r else r)
  end.

Definition validateObject (allow : bool) (check : J → J → string → Checked) (data schema : J) (p : string)
  (r : ValidationResult) : Checked :=
  let r := validate_required data schema r in
  match jt_find schema "properties" with
  | None => Ok r
  | Some properties => each (validate_property allow check properties p) (jt_items data) r
  end.

Definition validate_item (check : J → J → string → Checked) (itemsSchema : J) (p : string)
  (ix : nat * J) (r : ValidationResult) : Checked :=
  let currentPath := p +:+ "[" +:+ pretty (Z.of_nat ix.1) +:+ "]" in
  let* s := check ix.2 itemsSchema currentPath in Ok (mergeResults r s).

Definition validateArray (check : J → J → string → Checked) (data schema : J) (p : string)
  (r : ValidationResult) : Checked :=
  let elements := jt_elements data in
  let size := Z.of_nat (length elements) in
  let* r :=
    match jt_find schema "items" with
    | None => Ok r
    | Some itemsSchema => each (validate_item check itemsSchema p) (imap pair elements) r
    end in
  let* r := bound get_size schema "minItems" (λ m, size <? m)
              (λ m, "Array has " +:+ pretty size +:+ " items, minimum is " +:+ pretty m) r in
  bound get_size schema "maxItems" (λ m, m <? size)
    (λ m, "Array has " +:+ pretty size +:+ " items, maximum is " +:+ pretty m) r.

Fixpoint validate_rec (fuel : nat) (allow : bool) (data schema : J) (p : string) : Checked :=
  let r := new_result p in
  match fuel with
  | O => Ok r
  | S fuel =>
      let '(r, typed) :=
        match jt_find schema "type" with
        | None => (r, true)
        | Some expectedType => validateType data expectedType r
        end in
      if negb typed then Ok r
      else
        let* r :=
          match jt_shape data with
          | ShObject _ => validateObject allow (validate_rec fuel allow) data schema p r
          | ShArray _ => validateArray (validate_rec fuel allow) data schema p r
          | ShInt _ | ShFloat _ => validateNumber data schema r
          | ShString _ => validateString data schema r
          | _ => Ok r
          end in
        Ok match jt_find schema "enum" with
           | None => r
           | Some enumValues => validateEnumConstraint data enumValues r
           end
  end.

Definition validateRecursive (allow : bool) (data schema : J) (p : string) : Checked :=
  validate_rec (S (jt_depth data)) allow data schema p.

(** ** The validator *)

Definition ValidationRule : Type := J → string → Checked.

Record ConfigValidator := mkValidator {
  strictMode : bool;
  allowAdditionalProperties : bool;
  schema_ : J;
  hasSchema_ : bool;
  customRules_ : gmap string ValidationRule
}.

Definition ConfigValidator_new (strict allow : bool) : ConfigValidator :=
  mkValidator strict allow jt_null false ∅.

Definition setSchema (schema : J) (v : ConfigValidator) : ConfigValidator * bool :=
  (mkValidator (strictMode v) (allowAdditionalProperties v) schema true (customRules_ v), true).
Definition setSchema_text (schemaJson : string) (v : ConfigValidator) : ConfigValidator * bool :=
  match jt_parse schemaJson with
  | Throw _ => (v, false)
  | Ok schema => setSchema schema v
  end.
(** [content] is the file's text, [None] when it cannot be opened, and
    [read_stream] is [file >> schema], which stops after one value. *)
Definition loadSchema (read_stream : string → result string J) (content : option string) (v : ConfigValidator) : ConfigValidator * bool :=
  match content with
  | None => (v, false)
  | Some text => match read_stream text with Throw _ => (v, false) | Ok schema => setSchema schema v end
  end.

Definition set_rules (m : gmap string ValidationRule) (v : ConfigValidator) : ConfigValidator :=
  mkValidator (strictMode v) (allowAdditionalProperties v) (schema_ v) (hasSchema_ v) m.
Definition addRule (name : string) (rule : ValidationRule) (v : ConfigValidator) : ConfigValidator :=
  set_rules (<[name := rule]> (customRules_ v)) v.
Definition removeRule (name : string) (v : ConfigValidator) : ConfigValidator * bool :=
  (set_rules (delete name (customRules_ v)) v, bool_decide (is_Some (customRules_ v !! name))).
Definition clearRules (v : ConfigValidator) : ConfigValidator := set_rules ∅ v.
Definition setConfig (strict allow : bool) (v : ConfigValidator) : ConfigValidator :=
  mkValidator strict allow (schema_ v) (hasSchema_ v) (customRules_ v).

Definition apply_rule (data : J) (p : string) (r : ValidationResult) (named : string * ValidationRule) : ValidationResult :=
  match named.2 data p with
  | Ok custom => mergeResults r custom
  | Throw what => addError ("Custom rule '" +:+ named.1 +:+ "' failed: " +:+ what) r
  end.

Definition validate (v : ConfigValidator) (data : J) (p : string) : ValidationResult :=
  if negb (hasSchema_ v) then addWarning "No schema loaded for validation" (new_result p)
  else
    match validateRecursive (allowAdditionalProperties v) data (schema_ v) p with
    | Throw what => addError ("Validation error: " +:+ what) (new_result p)
    | Ok r => foldl (apply_rule data p) r (iter_map (customRules_ v))
    end.

(** The walk of [validateValue] along the dots of a path. *)
Fixpoint walk_segments (segments : list string) (current : J) : string + J :=
  match segments with
  | [] => inr current
  | segment :: rest =>
      if str_empty segment then walk_segments rest current
      else match jt_find current segment with
           | Some next => walk_segments rest next
           | None => inl segment
           end
  end.

Definition validateValue (v : ConfigValidator) (data : J) (valuePath : string) : ValidationResult :=
  let segments := if str_empty valuePath || String.eqb valuePath "/" then [] else split_on "."%char valuePath in
  match walk_segments segments data with
  | inl segment => addError ("Path not found: " +:+ segment) (new_result "")
  | inr current => validate v current valuePath
  end.

(** ** Static checks *)

Definition validateRequired (data : J) (requiredFields : list string) (p : string) : ValidationResult :=
  if negb (jt_is_object data) then addError "Expected object for required field validation" (new_result p)
  else foldl (λ r field, if jt_contains data field then r else addError ("Missing required field: " +:+ field) r)
         (new_result p) requiredFields.

(** [if (limit.has_value() && bad(limit)) addError] *)
Definition opt_bound {A} (limit : option A) (bad : A → bool) (msg : A → string) (r : ValidationResult) : ValidationResult :=
  match limit with Some m => if bad m then addError (msg m) r else r | None => r end.

Definition validateRange (value : J) (min max : option F) (p : string) : Checked :=
  if negb (is_number value) then Ok (addError "Expected numeric value for range validation" (new_result p))
  else
    let* num := get_double value in
    Ok (opt_bound max (λ m, f_ltb m num) (λ m, "Value " +:+ f_print num +:+ " is above maximum " +:+ f_print m)
      (opt_bound min (λ m, f_ltb num m) (λ m, "Value " +:+ f_print num +:+ " is below minimum " +:+ f_print m)
        (new_result p))).

Definition validatePattern (value : J) (pattern p : string) : ValidationResult :=
  match jt_shape value with
  | ShString str =>
      match regex_match pattern str with
      | None => addError ("Invalid regex pattern: " +:+ pattern) (new_result p)
      | Some false => addError ("String does not match pattern: " +:+ pattern) (new_result p)
      | Some true => new_result p
      end
  | _ => addError "Expected string value for pattern validation" (new_result p)
  end.

Definition validateLength (value : J) (minLength maxLength : option Z) (p : string) : ValidationResult :=
  match jt_shape value with
  | ShString str =>
      let length := str_size str in
      opt_bound maxLength (λ m, m <? length) (λ m, "String length " +:+ pretty length +:+ " is above maximum " +:+ pretty m)
        (opt_bound minLength (λ m, length <? m) (λ m, "String length " +:+ pretty length +:+ " is below minimum " +:+ pretty m)
          (new_result p))
  | _ => addError "Expected string value for length validation" (new_result p)
  end.

Definition validateArraySize (value : J) (minItems maxItems : option Z) (p : string) : ValidationResult :=
  match jt_shape value with
  | ShArray l =>
      let size := Z.of_nat (length l) in
      opt_bound maxItems (λ m, m <? size) (λ m, "Array has " +:+ pretty size +:+ " items, maximum is " +:+ pretty m)
        (opt_bound minItems (λ m, size <? m) (λ m, "Array has " +:+ pretty size +:+ " items, minimum is " +:+ pretty m)
          (new_result p))
  | _ => addError "Expected array value for size validation" (new_result p)
  end.

Definition validateEnum (value : J) (allowedValues : list J) (p : string) : ValidationResult :=
  if existsb (jt_eqb value) allowedValues then new_result p
  else addError "Value is not one of the allowed enum values" (new_result p).

(** ** What the check means *)

Definition type_ok (data schema : J) : Prop :=
  match jt_find schema "type" with
  | None => True
  | Some t =>
      match jt_shape t with
      | ShString name => type_check data name = Some true
      | ShArray ts => ∃ t' name, t' ∈ ts ∧ jt_shape t' = ShString name ∧ type_check data name = Some true
      | _ => True
      end
  end.

(** The limit under [key], if there is one, satisfies [ok]. *)
Definition limit_ok {A} (get : J → result string A) (schema : J) (key : string) (ok : A → Prop) : Prop :=
  ∀ v m, jt_find schema key = Some v → get v = Ok m → ok m.

Record leaf_ok (data schema : J) : Prop := {
  lo_type : type_ok data schema;
  lo_minimum x : get_double data = Ok x → limit_ok get_double schema "minimum" (λ m, f_ltb x m = false);
  lo_maximum x : get_double data = Ok x → limit_ok get_double schema "maximum" (λ m, f_ltb m x = false);
  lo_minLength s : jt_shape data = ShString s → limit_ok get_size schema "minLength" (λ m, m ≤ str_size s);
  lo_maxLength s : jt_shape data = ShString s → limit_ok get_size schema "maxLength" (λ m, str_size s ≤ m);
  lo_pattern s : jt_shape data = ShString s → limit_ok get_text schema "pattern" (λ p, regex_match p s = Some true);
  lo_minItems l : jt_shape data = ShArray l → limit_ok get_size schema "minItems" (λ m, m ≤ Z.of_nat (length l));
  lo_maxItems l : jt_shape data = ShArray l → limit_ok get_size schema "maxItems" (λ m, Z.of_nat (length l) ≤ m);
  lo_required kvs req fields f name : jt_shape data = ShObject kvs → jt_find schema "required" = Some req →
    jt_shape req = ShArray fields → f ∈ fields → jt_shape f = ShString name → is_Some (assoc name kvs);
  lo_enum e : jt_find schema "enum" = Some e → ∃ x, x ∈ jt_elements e ∧ jt_eqb data x = true
}.

(** The document is of the form the schema describes. *)
Inductive Conforms (allow : bool) : J → J → Prop :=
| Conforms_intro data schema :
    leaf_ok data schema →
    (∀ kvs properties k v sub, jt_shape data = ShObject kvs → jt_find schema "properties" = Some properties →
       (k, v) ∈ kvs → jt_find properties k = Some sub → Conforms allow v sub) →
    (∀ kvs properties k v, jt_shape data = ShObject kvs → jt_find schema "properties" = Some properties →
       (k, v) ∈ kvs → jt_find properties k = None → allow = true) →
    (∀ l items x, jt_shape data = ShArray l → jt_find schema "items" = Some items → x ∈ l → Conforms allow x items) →
    Conforms allow data schema.

(** The keywords hold values of the right kind. *)
Definition keyword {A} (get : J → result string A) (schema : J) (key : string) : Prop :=
  ∀ v, jt_find schema key = Some v → ∃ m, get v = Ok m.

Inductive WfSchema : J → Prop :=
| WfSchema_intro schema :
    keyword get_double schema "minimum" → keyword get_double schema "maximum" →
    keyword get_size schema "minLength" → keyword get_size schema "maxLength" → keyword get_text schema "pattern" →
    keyword get_size schema "minItems" → keyword get_size schema "maxItems" →
    (∀ properties k sub, jt_find schema "properties" = Some properties → jt_find properties k = Some sub → WfSchema sub) →
    (∀ items, jt_find schema "items" = Some items → WfSchema items) →
    WfSchema schema.

(** ** The steps of the check

    [steps r r' P]: the step adds an error exactly when [P] fails. *)

Definition consistent (r : ValidationResult) : Prop := isValid r = true ↔ errors r = [].

Definition steps (r r' : ValidationResult) (P : Prop) : Prop :=
  (consistent r → consistent r') ∧ (isValid r' = true ↔ isValid r = true ∧ P).

Lemma steps_id r : steps r r True.
Proof. split; tauto. Qed.

Lemma steps_error e r : steps r (addError e r) False.
Proof. split; [|cbn; by split; [|intros []]]. intros _. split; [done|]. cbn. by destruct (errors r). Qed.

Lemma steps_iff r r' P Q : (P ↔ Q) → steps r r' P → steps r r' Q.
Proof. unfold steps. tauto. Qed.

Lemma steps_trans r r1 r2 P Q : steps r r1 P → steps r1 r2 Q → steps r r2 (P ∧ Q).
Proof. unfold steps. tauto. Qed.

(** [if (!ok) addError] *)
Lemma steps_if r e (ok : bool) (P : Prop) : (ok = true ↔ P) → steps r (if ok then r else addError e r) P.
Proof. destruct ok; intros HP; eapply steps_iff; [|apply steps_id| |apply steps_error]; intuition congruence. Qed.

Lemma steps_merge r s P : consistent s → (isValid s = true ↔ P) → steps r (mergeResults r s) P.
Proof.
  intros Hs HP. unfold steps, consistent, mergeResults in *.
  destruct (isValid s) eqn:E; cbn.
  - assert (errors s = []) as -> by tauto. rewrite app_nil_r. tauto.
  - split; [|naive_solver]. intros _. split; [done|]. intros [_ Hn]%app_eq_nil. apply Hs in Hn. done.
Qed.

Lemma bound_steps {A} (get : J → result string A) schema key bad msg r r' (ok : A → Prop) :
  (∀ m, bad m = false ↔ ok m) → bound get schema key bad msg r = Ok r' → steps r r' (limit_ok get schema key ok).
Proof.
  intros Hbad. unfold bound, limit_ok. destruct (jt_find schema key) as [v|].
  - destruct (get v) as [m|what] eqn:Hm; cbn; [|done]. intros [= <-].
    pose proof (steps_if r (msg m) (negb (bad m)) (ok m)) as Hst. destruct (bad m) eqn:E; cbn in Hst.
    + eapply steps_iff; [|apply Hst]; [|rewrite <- Hbad; split; congruence].
      split; [intros Hok v' m' [= <-]; congruence|eauto].
    + eapply steps_iff; [|apply Hst]; [|rewrite <- Hbad; split; congruence].
      split; [intros Hok v' m' [= <-]; congruence|eauto].
  - intros [= <-]. eapply steps_iff; [|apply steps_id]. split; [by intros _ v m|done].
Qed.

Lemma each_steps {A} (f : A → ValidationResult → Checked) (P : A → Prop) l :
  (∀ x r r', x ∈ l → f x r = Ok r' → steps r r' (P x)) →
  ∀ r r', each f l r = Ok r' → steps r r' (∀ x, x ∈ l → P x).
Proof.
  induction l as [|x l IH]; intros Hf r r'; cbn.
  - intros [= <-]. eapply steps_iff; [|apply steps_id]. split; [by intros _ x ?%not_elem_of_nil|done].
  - destruct (f x r) as [r1|] eqn:E; cbn; [|done]. intros Hr.
    eapply steps_iff; [|eapply steps_trans; [apply (Hf x r r1); [by left|done]|apply IH; [|done]]].
    + split; [intros [??] y [->|?]%elem_of_cons; auto|]. intros Hall. split; [|intros y Hy]; apply Hall; by constructor.
    + intros y r2 r3 Hy. apply Hf. by right.
Qed.

Lemma steps_fold {A} (f : ValidationResult → A → ValidationResult) (P : A → Prop) l :
  (∀ x r, x ∈ l → steps r (f r x) (P x)) → ∀ r, steps r (foldl f r l) (∀ x, x ∈ l → P x).
Proof.
  induction l as [|x l IH]; intros Hf r; cbn.
  - eapply steps_iff; [|apply steps_id]. split; [by intros _ x ?%not_elem_of_nil|done].
  - eapply steps_iff; [|eapply steps_trans; [apply (Hf x r); by left|apply IH]].
    + split; [intros [??] y [->|?]%elem_of_cons; auto|]. intros Hall. split; [|intros y Hy]; apply Hall; by constructor.
    + intros y r' Hy. apply Hf. by right.
Qed.

(** ** Each part of the check *)

Lemma single_type_steps data name r add r' ok : validateSingleType data name r add = (r', ok) →
  ok = bool_decide (type_check data name = Some true) ∧ steps r r' (add = true → ok = true).
Proof.
  unfold validateSingleType. destruct (type_check data name) as [[]|]; intros [= <- <-]; cbn.
  - split; [done|]. eapply steps_iff; [|apply steps_id]. done.
  - split; [done|]. destruct add; [|eapply steps_iff; [|apply steps_id]; done].
    eapply steps_iff; [|apply steps_error]. naive_solver.
  - split; [done|]. destruct add; [|eapply steps_iff; [|apply steps_id]; done].
    eapply steps_iff; [|apply steps_error]. naive_solver.
Qed.

Lemma single_type_quiet data name r : validateSingleType data name r false = (r, bool_decide (type_check data name = Some true)).
Proof. unfold validateSingleType. destruct (type_check data name) as [[]|]; done. Qed.

Lemma any_type_steps data ts r r' ok : validate_any data ts r = (r', ok) →
  (ok = true ↔ ∃ t' name, t' ∈ ts ∧ jt_shape t' = ShString name ∧ type_check data name = Some true) ∧ steps r r' (ok = true).
Proof.
  induction ts as [|t ts IH]; cbn.
  - intros [= <- <-]. split; [|eapply steps_iff; [|apply steps_error]; done].
    split; [done|]. by intros (t' & n & ?%not_elem_of_nil & _).
  - assert (Hskip : (∀ n, jt_shape t = ShString n → type_check data n ≠ Some true) →
      (∃ t' name, t' ∈ t :: ts ∧ jt_shape t' = ShString name ∧ type_check data name = Some true) ↔
      (∃ t' name, t' ∈ ts ∧ jt_shape t' = ShString name ∧ type_check data name = Some true)).
    { intros Hno. split; intros (t' & n & Hin & Hn & Ht); exists t', n; (split; [|done]); [|by right].
      apply elem_of_cons in Hin as [->|?]; [|done]. by destruct (Hno n). }
    destruct (jt_shape t) as [| | | |name| |] eqn:Et; try (rewrite Hskip by done; apply IH).
    rewrite single_type_quiet. case_bool_decide as Hc.
    + intros [= <- <-]. split; [|eapply steps_iff; [|apply steps_id]; done]. split; [|done].
      intros _. exists t, name. split; [by left|done].
    + rewrite Hskip by (intros n [= <-]; done). apply IH.
Qed.

Lemma type_steps data schema r r' ok :
  match jt_find schema "type" with None => (r, true) | Some t => validateType data t r end = (r', ok) →
  (ok = true ↔ type_ok data schema) ∧ steps r r' (ok = true).
Proof.
  unfold type_ok, validateType. destruct (jt_find schema "type") as [t|]; cycle 1.
  { intros [= <- <-]. split; [done|]. eapply steps_iff; [|apply steps_id]. done. }
  destruct (jt_shape t) as [| | | |name|ts|];
    try (intros [= <- <-]; (split; [done|]; eapply steps_iff; [|apply steps_id]; done)).
  - intros [-> Hs]%single_type_steps. split; [apply bool_decide_eq_true|].
    eapply steps_iff; [|exact Hs]. tauto.
  - apply any_type_steps.
Qed.

Lemma get_double_number data : is_number data = true → ∃ x, get_double data = Ok x.
Proof. unfold is_number, get_double. destruct (jt_shape data); eauto; done. Qed.

Lemma number_steps data schema r r' : validateNumber data schema r = Ok r' →
  steps r r' (∀ x, get_double data = Ok x →
    limit_ok get_double schema "minimum" (λ m, f_ltb x m = false) ∧
    limit_ok get_double schema "maximum" (λ m, f_ltb m x = false)).
Proof.
  unfold validateNumber. destruct (get_double data) as [x|]; cbn [rbind]; [|done].
  destruct (bound _ _ "minimum" _ _ r) as [r1|] eqn:E1; cbn [rbind]; [|done]. intros E2.
  apply (bound_steps _ _ _ _ _ _ _ (λ m, f_ltb x m = false)) in E1; [|done].
  apply (bound_steps _ _ _ _ _ _ _ (λ m, f_ltb m x = false)) in E2; [|done].
  eapply steps_iff; [|exact (steps_trans _ _ _ _ _ E1 E2)].
  split; [by intros H y [= <-]|intros H; by apply H].
Qed.

Lemma string_steps data schema r r' s : jt_shape data = ShString s → validateString data schema r = Ok r' →
  steps r r' ((limit_ok get_size schema "minLength" (λ m, m ≤ str_size s) ∧
    limit_ok get_size schema "maxLength" (λ m, str_size s ≤ m)) ∧
    limit_ok get_text schema "pattern" (λ p, regex_match p s = Some true)).
Proof.
  intros Hs. unfold validateString. assert (get_text data = Ok s) as -> by (unfold get_text; by rewrite Hs). cbn [rbind].
  destruct (bound _ _ "minLength" _ _ r) as [r1|] eqn:E1; cbn [rbind]; [|done].
  destruct (bound _ _ "maxLength" _ _ r1) as [r2|] eqn:E2; cbn [rbind]; [|done]. intros E3.
  apply (bound_steps _ _ _ _ _ _ _ (λ m, m ≤ str_size s)) in E1; [|intros m; cbn; lia].
  apply (bound_steps _ _ _ _ _ _ _ (λ m, str_size s ≤ m)) in E2; [|intros m; cbn; lia].
  eapply steps_trans; [exact (steps_trans _ _ _ _ _ E1 E2)|].
  unfold limit_ok. destruct (jt_find schema "pattern") as [v|]; cycle 1.
  { injection E3 as <-. eapply steps_iff; [|apply steps_id]. split; [by intros _ ?|done]. }
  destruct (get_text v) as [p|] eqn:Ep; cbn in E3; [|done]. injection E3 as <-.
  assert (Hiff : regex_match p s = Some true ↔ ∀ v' m, Some v = Some v' → get_text v' = Ok m → regex_match m s = Some true).
  { split; [intros H v' m [= <-]; congruence|eauto]. }
  eapply steps_iff; [exact Hiff|]. destruct (regex_match p s) as [[]|];
    (eapply steps_iff; [|first [apply steps_id|apply steps_error]]; done).
Qed.

Lemma enum_steps data schema r :
  steps r match jt_find schema "enum" with None => r | Some e => validateEnumConstraint data e r end
    (∀ e, jt_find schema "enum" = Some e → ∃ x, x ∈ jt_elements e ∧ jt_eqb data x = true).
Proof.
  destruct (jt_find schema "enum") as [e|]; [|eapply steps_iff; [|apply steps_id]; done].
  apply steps_if. rewrite existsb_exists. setoid_rewrite list_elem_of_In. split; [by intros H e' [= <-]|eauto].
Qed.

Lemma required_steps data schema r kvs : jt_shape data = ShObject kvs →
  steps r (validate_required data schema r) (∀ req fields f name, jt_find schema "required" = Some req →
    jt_shape req = ShArray fields → f ∈ fields → jt_shape f = ShString name → is_Some (assoc name kvs)).
Proof.
  intros Hd. unfold validate_required. destruct (jt_find schema "required") as [req|]; cycle 1.
  { eapply steps_iff; [|apply steps_id]. done. }
  destruct (jt_shape req) as [| | | | |fields|] eqn:Er;
    try (eapply steps_iff; [|apply steps_id]; split; [intros _ req' fs f' n [= <-] Hfs; congruence|done]).
  eapply steps_iff; [|apply (steps_fold _ (λ f, ∀ name, jt_shape f = ShString name → is_Some (assoc name kvs)))].
  - split; [intros H req' fs f n [= <-]; rewrite Er; intros [= <-]; eauto|intros H f Hf n; by eapply H].
  - intros f r1 _. destruct (jt_shape f) as [| | | |name| |];
      try (eapply steps_iff; [|apply steps_id]; done).
    apply steps_if. unfold jt_contains, jt_find. rewrite Hd. destruct (assoc name kvs) eqn:Ea.
    + split; [|done]. intros _ n [= <-]. rewrite Ea. eauto.
    + split; [done|]. intros H. destruct (H name eq_refl) as [? ?]. congruence.
Qed.

(** ** The whole check *)

Lemma map_snd_pair {A B} (l : list (A * B)) x : x ∈ l.*2 → ∃ k, (k, x) ∈ l.
Proof. intros ([k v] & -> & Hin)%list_elem_of_fmap. by exists k. Qed.

Section recursion.
Context (allow : bool) (check : J → J → string → Checked) (data : J).
Hypothesis check_ok : ∀ c sub p s, c ∈ children (jt_shape data) → check c sub p = Ok s →
  consistent s ∧ (isValid s = true ↔ Conforms allow c sub).

Lemma object_steps schema p r r' kvs : jt_shape data = ShObject kvs →
  validateObject allow check data schema p r = Ok r' →
  steps r r' ((∀ req fields f name, jt_find schema "required" = Some req →
      jt_shape req = ShArray fields → f ∈ fields → jt_shape f = ShString name → is_Some (assoc name kvs)) ∧
    ∀ properties, jt_find schema "properties" = Some properties → ∀ kv, kv ∈ kvs →
      match jt_find properties kv.1 with Some sub => Conforms allow kv.2 sub | None => allow = true end).
Proof.
  intros Hd. unfold validateObject. intros Hr. eapply steps_trans; [by apply required_steps|].
  destruct (jt_find schema "properties") as [props|]; cycle 1.
  { injection Hr as <-. eapply steps_iff; [|apply steps_id]. done. }
  assert (jt_items data = kvs) as Hitems by (unfold jt_items; by rewrite Hd). rewrite Hitems in Hr.
  eapply steps_iff; [|eapply each_steps; [|exact Hr]; intros [k v] r1 r2 Hin].
  { split; [intros H ps [= <-]; exact H|intros H; by apply H]. }
  unfold validate_property. cbn [fst snd]. destruct (jt_find props k) as [sub|] eqn:Ep.
  - destruct (check v sub _) as [s|] eqn:Es; cbn; [|done]. intros [= <-].
    apply check_ok in Es as [??]; [by apply steps_merge|]. rewrite Hd. cbn. apply list_elem_of_fmap. by exists (k, v).
  - intros [= <-]. cbn. destruct allow; cbn; eapply steps_iff; [|apply steps_id| |apply steps_error]; done.
Qed.

Lemma array_steps schema p r r' l : jt_shape data = ShArray l →
  validateArray check data schema p r = Ok r' →
  steps r r' (((∀ items, jt_find schema "items" = Some items → ∀ x, x ∈ l → Conforms allow x items) ∧
    limit_ok get_size schema "minItems" (λ m, m ≤ Z.of_nat (length l))) ∧
    limit_ok get_size schema "maxItems" (λ m, Z.of_nat (length l) ≤ m)).
Proof.
  intros Hd. unfold validateArray. assert (jt_elements data = l) as -> by (unfold jt_elements; by rewrite Hd).
  destruct (match jt_find schema "items" with None => Ok r | Some i => _ end) as [r1|] eqn:E0; cbn [rbind]; [|done].
  destruct (bound _ _ "minItems" _ _ r1) as [r2|] eqn:E1; cbn [rbind]; [|done]. intros E2.
  apply (bound_steps _ _ _ _ _ _ _ (λ m, m ≤ Z.of_nat (length l))) in E1; [|intros m; cbn; lia].
  apply (bound_steps _ _ _ _ _ _ _ (λ m, Z.of_nat (length l) ≤ m)) in E2; [|intros m; cbn; lia].
  eapply steps_trans; [eapply steps_trans; [|exact E1]|exact E2].
  destruct (jt_find schema "items") as [items|]; cycle 1.
  { injection E0 as <-. eapply steps_iff; [|apply steps_id]. done. }
  eapply steps_iff; [|eapply (each_steps _ (λ ix, Conforms allow ix.2 items)); [|exact E0]].
  - split.
    + intros H i [= <-] x Hx. apply list_elem_of_lookup in Hx as [n Hn]. apply (H (n, x)).
      apply list_elem_of_lookup. exists n. by rewrite list_lookup_imap, Hn.
    + intros H [n x] Hin. apply (H items eq_refl). apply elem_of_lookup_imap in Hin as (i & y & [= -> ->] & Hy).
      apply list_elem_of_lookup. eauto.
  - intros [n x] r3 r4 Hin. unfold validate_item. cbn [fst snd].
    destruct (check x items _) as [s|] eqn:Es; cbn; [|done]. intros [= <-].
    apply check_ok in Es as [??]; [by apply steps_merge|]. rewrite Hd. cbn.
    apply elem_of_lookup_imap in Hin as (i & y & [= -> ->] & Hy). apply list_elem_of_lookup. eauto.
Qed.
End recursion.

(** A document of one kind, with the part of the check for it. *)
Definition shape_ok (allow : bool) (data schema : J) : Prop :=
  match jt_shape data with
  | ShObject kvs =>
      (∀ req fields f name, jt_find schema "required" = Some req → jt_shape req = ShArray fields → f ∈ fields →
         jt_shape f = ShString name → is_Some (assoc name kvs)) ∧
      ∀ properties, jt_find schema "properties" = Some properties → ∀ kv, kv ∈ kvs →
        match jt_find properties kv.1 with Some sub => Conforms allow kv.2 sub | None => allow = true end
  | ShArray l =>
      ((∀ items, jt_find schema "items" = Some items → ∀ x, x ∈ l → Conforms allow x items) ∧
       limit_ok get_size schema "minItems" (λ m, m ≤ Z.of_nat (length l))) ∧
      limit_ok get_size schema "maxItems" (λ m, Z.of_nat (length l) ≤ m)
  | ShString s =>
      (limit_ok get_size schema "minLength" (λ m, m ≤ str_size s) ∧
       limit_ok get_size schema "maxLength" (λ m, str_size s ≤ m)) ∧
      limit_ok get_text schema "pattern" (λ p, regex_match p s = Some true)
  | ShInt _ | ShFloat _ =>
      ∀ x, get_double data = Ok x →
        limit_ok get_double schema "minimum" (λ m, f_ltb x m = false) ∧
        limit_ok get_double schema "maximum" (λ m, f_ltb m x = false)
  | _ => True
  end.

Lemma conforms_shape allow data schema :
  Conforms allow data schema ↔
  type_ok data schema ∧ shape_ok allow data schema ∧
  (∀ e, jt_find schema "enum" = Some e → ∃ x, x ∈ jt_elements e ∧ jt_eqb data x = true).
Proof.
  unfold shape_ok. split.
  - intros [d sc Hleaf Hprops Hno Hitems]. split; [apply Hleaf|split; [|apply Hleaf]].
    destruct (jt_shape d) as [| | | |s|l|kvs] eqn:Ed; [exact I|exact I|..].
    + intros x Hx. by split; apply Hleaf.
    + intros x Hx. by split; apply Hleaf.
    + split; [split|]; by apply Hleaf.
    + split; [split|]; [|by apply Hleaf..]. intros items Hi x Hx. by eapply Hitems.
    + split; [intros req fields f name; by apply Hleaf|]. intros props Hp [k v] Hin. cbn.
      destruct (jt_find props k) as [sub|] eqn:Es; [by eapply Hprops|by eapply Hno].
  - intros (Ht & Hs & He). constructor.
    + constructor; [done|..|done]; unfold get_double in *; destruct (jt_shape data) eqn:Ed; try done;
        intros; simplify_eq; by eapply Hs.
    + intros kvs props k v sub Hd Hp Hin Hsub. rewrite Hd in Hs. destruct Hs as [_ Hs].
      specialize (Hs props Hp (k, v) Hin). cbn in Hs. by rewrite Hsub in Hs.
    + intros kvs props k v Hd Hp Hin Hsub. rewrite Hd in Hs. destruct Hs as [_ Hs].
      specialize (Hs props Hp (k, v) Hin). cbn in Hs. by rewrite Hsub in Hs.
    + intros l items x Hd Hi Hx. rewrite Hd in Hs. destruct Hs as [[Hs _] _]. by eapply Hs.
Qed.

Lemma validate_rec_spec allow data : ∀ fuel schema p r, (jt_depth data < fuel)%nat →
  validate_rec fuel allow data schema p = Ok r → consistent r ∧ (isValid r = true ↔ Conforms allow data schema).
Proof.
  induction data as [data IH] using jt_ind. intros [|fuel] schema p r Hf; [lia|]. cbn [validate_rec].
  assert (Hcheck : ∀ c sub q s, c ∈ children (jt_shape data) → validate_rec fuel allow c sub q = Ok s →
    consistent s ∧ (isValid s = true ↔ Conforms allow c sub)).
  { intros c sub q s Hc. apply IH; [done|]. apply jt_depth_child in Hc. lia. }
  destruct (match jt_find schema "type" with None => _ | Some t => _ end) as [r0 ok] eqn:Et.
  apply type_steps in Et as [Hok Hty]. assert (Hnew : consistent (new_result p)) by done.
  rewrite conforms_shape. destruct ok; cbn [negb].
  2:{ intros [= <-]. destruct Hty as [Hc Hv]. split; [by apply Hc|]. rewrite Hv. naive_solver. }
  destruct (match jt_shape data with ShNull => _ | _ => _ end) as [r1|] eqn:E1; cbn [rbind]; [|done].
  assert (Hst : steps r0 r1 (shape_ok allow data schema)).
  { unfold shape_ok. destruct (jt_shape data) as [| | | |s|l|kvs] eqn:Ed.
    - injection E1 as <-. apply steps_id.
    - injection E1 as <-. apply steps_id.
    - by eapply number_steps.
    - by eapply number_steps.
    - by eapply string_steps.
    - rewrite <- Ed in Hcheck. by eapply array_steps.
    - rewrite <- Ed in Hcheck. by eapply object_steps. }
  intros [= <-]. destruct (steps_trans _ _ _ _ _ (steps_trans _ _ _ _ _ Hty Hst) (enum_steps data schema r1)) as [Hc Hv].
  split; [by apply Hc|]. rewrite Hv, Hok. cbn. tauto.
Qed.

(** *** A well-formed schema never makes the library throw *)

Lemma bound_total {A} (get : J → result string A) schema key bad msg r :
  keyword get schema key → ∃ r', bound get schema key bad msg r = Ok r'.
Proof.
  unfold keyword, bound. destruct (jt_find schema key) as [v|]; [|eauto].
  intros Hk. destruct (Hk v eq_refl) as [m ->]. cbn. eauto.
Qed.

Lemma each_total {A} (f : A → ValidationResult → Checked) l :
  (∀ x r, x ∈ l → ∃ r', f x r = Ok r') → ∀ r, ∃ r', each f l r = Ok r'.
Proof.
  induction l as [|x l IH]; intros Hf r; cbn; [eauto|].
  destruct (Hf x r) as [r1 ->]; [by left|]. apply IH. intros y r2 Hy. apply Hf. by right.
Qed.

Ltac take_bound := match goal with
  | H : keyword ?g ?s ?k |- context [bound ?g ?s ?k ?b ?m ?r] =>
      let r' := fresh "r" in let E := fresh "E" in
      destruct (bound_total g s k b m r H) as [r' E]; rewrite E; cbn [rbind]; clear E
  end.

Lemma validate_rec_total allow data : ∀ fuel schema p, WfSchema schema → ∃ r, validate_rec fuel allow data schema p = Ok r.
Proof.
  intros fuel. revert data. induction fuel as [|fuel IH]; intros data schema p Hwf; [eexists; reflexivity|].
  cbn [validate_rec]. destruct Hwf as [schema Hmin Hmax Hml Hxl Hpat Hmi Hxi Hprops Hitems].
  destruct (match jt_find schema "type" with None => _ | Some t => _ end) as [r0 [|]]; cbn [negb]; [|eauto].
  match goal with |- context [rbind ?m _] => assert (Hm : ∃ r1, m = Ok r1) end; [|destruct Hm as [r1 ->]; cbn; eauto].
  destruct (jt_shape data) as [| | | |s|l|kvs] eqn:Ed; [eauto|eauto|..].
  - unfold validateNumber, get_double at 1. rewrite Ed. cbn. take_bound. by apply bound_total.
  - unfold validateNumber, get_double at 1. rewrite Ed. cbn. take_bound. by apply bound_total.
  - unfold validateString, get_text at 1. rewrite Ed. cbn. take_bound. take_bound.
    unfold keyword in Hpat. destruct (jt_find schema "pattern") as [v|]; [|eauto].
    destruct (Hpat v eq_refl) as [pat ->]. cbn. eauto.
  - unfold validateArray.
    destruct (jt_find schema "items") as [items|] eqn:Ei; cbn [rbind].
    + edestruct (each_total (validate_item (validate_rec fuel allow) items p) (imap pair (jt_elements data))) as [r1 ->].
      { intros [n x] r Hin. unfold validate_item. cbn. 
        match goal with |- context [validate_rec fuel allow x items ?q] => destruct (IH x items q) as [r2 ->] end;
          [by apply Hitems|]. cbn. eauto. }
      cbn [rbind]. take_bound. by apply bound_total.
    + take_bound. by apply bound_total.
  - unfold validateObject. destruct (jt_find schema "properties") as [props|] eqn:Ep; [|eauto].
    apply each_total. intros [k v] r Hin. unfold validate_property. cbn [fst snd].
    destruct (jt_find props k) as [sub|] eqn:Es; [|eauto].
    edestruct (IH v sub) as [r2 ->]; [by eapply Hprops|]. cbn. eauto.
Qed.

(** ** Custom rules and the whole result *)

Definition rules_pass (v : ConfigValidator) (data : J) (p : string) : Prop :=
  ∀ name rule, customRules_ v !! name = Some rule → ∃ c, rule data p = Ok c ∧ isValid c = true.

Lemma apply_rule_valid data p r named :
  isValid (apply_rule data p r named) = true ↔ isValid r = true ∧ ∃ c, named.2 data p = Ok c ∧ isValid c = true.
Proof.
  unfold apply_rule, mergeResults. destruct (named.2 data p) as [c|what]; cbn; [|naive_solver].
  destruct (isValid c) eqn:E; cbn; naive_solver.
Qed.

Lemma rules_valid data p l r :
  isValid (foldl (apply_rule data p) r l) = true ↔
  isValid r = true ∧ ∀ named, named ∈ l → ∃ c, named.2 data p = Ok c ∧ isValid c = true.
Proof.
  revert r. induction l as [|x l IH]; intros r; cbn.
  - split; [|tauto]. intros Hr. split; [done|]. by intros ? ?%not_elem_of_nil.
  - rewrite IH, apply_rule_valid. setoid_rewrite elem_of_cons. naive_solver.
Qed.

(** [C26] The validator accepts exactly what the schema describes, in the
    reading of the twelve keywords it knows ([Conforms]), which is not that of
    JSON Schema (see [draft07_differs]).  Without a schema every document is
    valid, with a warning.  With one, a valid result means that the document
    conforms to the schema and passes every custom rule; when the schema's
    keywords hold values of the right kind the converse holds too, whatever the
    kind of the document; and if there are no custom rules the result is valid
    exactly when it lists no error. *)
Theorem validate_correct (v : ConfigValidator) (data : J) (p : string) :
  let r := validate v data p in
  let conforms := Conforms (allowAdditionalProperties v) data (schema_ v) in
  (hasSchema_ v = false → r = mkValidation true [] ["No schema loaded for validation"%string] p) ∧
  (hasSchema_ v = true → isValid r = true → conforms ∧ rules_pass v data p) ∧
  (hasSchema_ v = true → WfSchema (schema_ v) → (isValid r = true ↔ conforms ∧ rules_pass v data p)) ∧
  (customRules_ v = ∅ → (isValid r = true ↔ errors r = [])).
Proof.
  intros r conforms. subst r. unfold validate, validateRecursive.
  assert (Hrules : ∀ r, isValid (foldl (apply_rule data p) r (iter_map (customRules_ v))) = true ↔
                        isValid r = true ∧ rules_pass v data p).
  { intros r. rewrite rules_valid. unfold rules_pass. split; intros [Hr H]; (split; [done|]).
    - intros name rule Hn. by apply (H (name, rule)), elem_of_iter_map.
    - intros [name rule] Hin. by apply (H name), elem_of_iter_map. }
  split; [by intros ->|]. destruct (hasSchema_ v); cbn [negb]; [|done].
  destruct (validate_rec _ _ data (schema_ v) p) as [r|what] eqn:E.
  - destruct (validate_rec_spec _ _ _ _ _ _ (Nat.lt_succ_diag_r _) E) as [Hc Hv].
    assert (isValid (foldl (apply_rule data p) r (iter_map (customRules_ v))) = true ↔ conforms ∧ rules_pass v data p)
      as Hiff by (rewrite Hrules, Hv; done).
    split_and!; [by intros _ ?%Hiff|by intros _ _|].
    intros Hempty. rewrite Hempty. pose proof (iter_map_perm (∅ : gmap string ValidationRule)) as Hp.
    rewrite map_to_list_empty in Hp. by apply Permutation_nil_r in Hp as ->.
  - split_and!; [done| |done]. intros _ Hwf.
    destruct (validate_rec_total (allowAdditionalProperties v) data (S (jt_depth data)) (schema_ v) p Hwf) as [r Hr].
    congruence.
Qed.
End validator.

(** A schema that asks for a boolean. *)
Definition boolean_schema : jtree := TObj [("type"%string, TStr "boolean")].

#[local] Existing Instances demo_json_tree demo_printer.
#[local] Instance demo_floats : Floats Z := floats_Z.
#[local] Instance demo_order : HashIter string := canonical_iter.
#[local] Abbreviation demo_validator := (fst (setSchema boolean_schema (ConfigValidator_new (J := jtree) false true))).

Lemma validate_correct_witness :
  Conforms (λ z, z) (λ _ _, None) true (TBool true) boolean_schema ∧
  (isValid (validate (λ z, z) (λ _ _, None) demo_validator (TInt 3) "") = true ↔
   errors (validate (λ z, z) (λ _ _, None) demo_validator (TInt 3) "") = []).
Proof.
  split.
  - destruct (validate_correct (JP := demo_printer) (λ z, z) (λ _ _, None) demo_validator (TBool true) "") as (_ & H & _).
    by apply H.
  - destruct (validate_correct (JP := demo_printer) (λ z, z) (λ _ _, None) demo_validator (TInt 3) "") as (_ & _ & _ & H).
    by apply H.
Defined.

(** Where the check differs from draft-07 of JSON Schema: 1.0 is no integer,
    lengths count bytes (the text is one character of two), and keywords like
    const are ignored. *)
Example draft07_differs :
  let valid schema data := isValid (validate (λ z, z) (λ _ _, None)
    (fst (setSchema schema (ConfigValidator_new (J := jtree) false true))) data "") in
  valid (TObj [("type"%string, TStr "integer")]) (TFloat 1) = false
  ∧ valid (TObj [("maxLength"%string, TInt 1)])
      (TStr (String (Ascii.ascii_of_nat 195) (String (Ascii.ascii_of_nat 169) ""))) = false
  ∧ valid (TObj [("const"%string, TInt 1)]) (TInt 2) = true.
Proof. by vm_compute. Qed.

(** A schema with a limit of the wrong kind rejects every document it is used
    on, with the library's message. *)
Example bad_limit_rejects :
  let schema := TObj [("maxItems"%string, TStr "ten")] in
  errors (validate (λ z, z) (λ _ _, None) (fst (setSchema schema (ConfigValidator_new (J := jtree) false true))) (TArr []) "") =
  ["Validation error: 302"%string].
Proof. by vm_compute. Qed.
