(* ===== verification/ConfigManager.v ===== *)
(** * ConfigManager: the configuration store

    Models src/src/config/core/manager.hpp and manager.cpp: one JSON document
    addressed by paths like "server/port", with an optional validation of the
    values written, an optional cache of the values read, callbacks, loading
    and saving of files, merging and listing.  The cache, the validator and the
    serializer are those of Cache.v, ConfigValidator.v and ConfigSerializer.v.
    Every method takes the lock of the document, so it is one step; the clock
    is an argument, read once.  Callbacks are kept by number, and the calls are
    recorded in [notified].  Left out: the background saving thread, which
    nothing ever gives a file to save, the file watcher, whose event handler is
    [onFileChanged], the average times and the logger. *)

From S2P Require Import Prelude Text JsonCodec JsonTree Json5 Cache ConfigSerializer ConfigValidator.

Inductive FileEvent := CREATED | MODIFIED | DELETED | MOVED.

Record Options := mkManagerOptions {
  enable_auto_reload : bool;
  enable_validation : bool;
  enable_caching : bool
}.
Definition default_manager_options : Options := mkManagerOptions true true true.

Record Metrics := mkMetrics {
  total_operations : nat;
  cache_hits : nat;
  cache_misses : nat;
  validation_successes : nat;
  validation_failures : nat;
  files_loaded : nat;
  files_saved : nat;
  auto_reloads : nat
}.
Definition no_metrics : Metrics := mkMetrics 0 0 0 0 0 0 0 0.
#[export] Instance Metrics_eta : Eta Metrics := λ x,
  mkMetrics (total_operations x) (cache_hits x) (cache_misses x) (validation_successes x)
    (validation_failures x) (files_loaded x) (files_saved x) (auto_reloads x).
#[export] Instance total_operations_upd : Upd total_operations. Proof. derive_upd. Defined.
#[export] Instance cache_hits_upd : Upd cache_hits. Proof. derive_upd. Defined.
#[export] Instance cache_misses_upd : Upd cache_misses. Proof. derive_upd. Defined.
#[export] Instance validation_successes_upd : Upd validation_successes. Proof. derive_upd. Defined.
#[export] Instance validation_failures_upd : Upd validation_failures. Proof. derive_upd. Defined.
#[export] Instance files_loaded_upd : Upd files_loaded. Proof. derive_upd. Defined.
#[export] Instance files_saved_upd : Upd files_saved. Proof. derive_upd. Defined.
#[export] Instance auto_reloads_upd : Upd auto_reloads. Proof. derive_upd. Defined.

(** ** Paths into a document *)

Section document.
Context `{JT : JsonTree J F}.

(** The segments of a path that are looked at. *)
Definition segments (key_path : string) : list string :=
  filter (λ k, str_empty k = false) (split_on "/"%char key_path).

Fixpoint lookup_path (keys : list string) (p : J) : option J :=
  match keys with
  | [] => Some p
  | k :: rest => match jt_find p k with Some child => lookup_path rest child | None => None end
  end.

Inductive walk_end := Stored (currentPath : string) (stored : J) | Refused | Threw.

Definition empty_object : J := jt_make (ShObject []).

(** [push_back] on an array. *)
Definition push_back (j v : J) : J :=
  match jt_shape j with ShArray l => jt_array (l ++ [v]) | _ => j end.

(** The last segment: assign, or append to an array. *)
Definition store_at (append : bool) (value : J) (k cur : string) (p : J) : J * walk_end :=
  let put v := match jt_put p k v with Ok p' => (p', Stored cur v) | Throw _ => (p, Threw) end in
  if append then
    match jt_find p k with
    | None => put (push_back (jt_array []) value)
    | Some old => if jt_is_array old then put (push_back old value) else (p, Refused)
    end
  else put value.

(** The loop of [setOrAppendImpl], which creates the objects on its way. *)
Fixpoint set_walk (append : bool) (value : J) (keys : list string) (cur : string) (p : J) : J * walk_end :=
  match keys with
  | [] => (p, Refused)
  | k :: rest =>
      if str_empty k then set_walk append value rest cur p
      else
        let cur := if str_empty cur then k else cur +:+ "/" +:+ k in
        match rest with
        | [] => store_at append value k cur p
        | _ =>
            let made :=
              match jt_find p k with
              | Some child => if jt_is_object child then Ok (p, child)
                              else let* p' := jt_put p k empty_object in Ok (p', empty_object)
              | None => let* p' := jt_put p k empty_object in Ok (p', empty_object)
              end in
            match made with
            | Throw _ => (p, Threw)
            | Ok (p', child) =>
                let '(child', e) := set_walk append value rest cur child in
                (match jt_put p' k child' with Ok p'' => p'' | Throw _ => p' end, e)
            end
        end
  end.

(** [erase(k)] of an object. *)
Definition jt_erase (p : J) (k : string) : J :=
  match jt_shape p with ShObject kvs => jt_make (ShObject (filter (λ kv, kv.1 ≠ k) kvs)) | _ => p end.

Fixpoint erase_walk (keys : list string) (p : J) : option J :=
  match keys with
  | [] => None
  | k :: rest =>
      match jt_find p k with
      | None => None
      | Some child =>
          match rest with
          | [] => Some (jt_erase p k)
          | _ => match erase_walk rest child with
                 | Some child' => match jt_put p k child' with Ok p' => Some p' | Throw _ => None end
                 | None => None
                 end
          end
      end
  end.

(** [collectPaths]: the recursion is over members. *)
Fixpoint collectPaths (fuel : nat) (node : J) (prefix : string) : list string :=
  match fuel with
  | O => []
  | S fuel =>
      match jt_shape node with
      | ShObject kvs =>
          concat (map (λ kv, let path := if str_empty prefix then kv.1 else prefix +:+ "/" +:+ kv.1 in
                             path :: collectPaths fuel kv.2 path) kvs)
      | _ => []
      end
  end.

(** [merge(src, target)]. *)
Fixpoint merge_into (fuel : nat) (src target : J) : J :=
  match fuel with
  | O => target
  | S fuel =>
      match jt_shape src, jt_shape target with
      | ShObject kvs, ShObject _ =>
          foldl (λ target kv,
            let v := match jt_find target kv.1 with
                     | Some old => if jt_is_object old && jt_is_object kv.2 then merge_into fuel kv.2 old else kv.2
                     | None => kv.2
                     end in
            match jt_put target kv.1 v with Ok t => t | Throw _ => target end) target kvs
      | _, _ => src
      end
  end.
Definition merge_docs (src target : J) : J := merge_into (S (jt_depth src)) src target.
End document.

(** ** The manager *)

Section manager.
Context `{JP : JsonPrinter J F, FO : !Floats F, HI : !HashIter string, SS : !StdSort}.
Context (size_of_float : F → Z) (regex_match : string → string → option bool).

Record ConfigManager := mkManager {
  options_ : Options;
  config_ : J;
  cache_ : ConfigCache J;
  validator_ : @ConfigValidator J;
  serializer_ : Config;
  callbacks_ : list nat;
  nextCallbackId_ : nat;
  metrics_ : Metrics;
  notified : list (nat * string)
}.
#[export] Instance ConfigManager_eta : Eta ConfigManager := λ m,
  mkManager (options_ m) (config_ m) (cache_ m) (validator_ m) (serializer_ m) (callbacks_ m)
    (nextCallbackId_ m) (metrics_ m) (notified m).
#[export] Instance options__upd : Upd options_. Proof. derive_upd. Defined.
#[export] Instance config__upd : Upd config_. Proof. derive_upd. Defined.
#[export] Instance cache__upd : Upd cache_. Proof. derive_upd. Defined.
#[export] Instance validator__upd : Upd validator_. Proof. derive_upd. Defined.
#[export] Instance callbacks__upd : Upd callbacks_. Proof. derive_upd. Defined.
#[export] Instance nextCallbackId__upd : Upd nextCallbackId_. Proof. derive_upd. Defined.
#[export] Instance metrics__upd : Upd metrics_. Proof. derive_upd. Defined.
#[export] Instance notified_upd : Upd notified. Proof. derive_upd. Defined.

Definition ConfigManager_new (options : Options) (c : ConfigCache J) (v : @ConfigValidator J) : ConfigManager :=
  mkManager options jt_null c v default_config [] 1 no_metrics [].

Definition caching (m : ConfigManager) : bool := enable_caching (options_ m).

Definition updateOperationMetrics (m : ConfigManager) : ConfigManager :=
  m <| metrics_ ::= (λ x, x <| total_operations ::= S |>) |>.

Definition notifyChanges (path : string) (m : ConfigManager) : ConfigManager :=
  m <| notified ::= (λ l, l ++ map (λ id, (id, path)) (callbacks_ m)) |>.

Definition cache_put (key : string) (v : J) (now : Z) (m : ConfigManager) : ConfigManager :=
  if caching m then m <| cache_ ::= Cache.put key v 0 now |> else m.

(** After a store: the cache, the callbacks, and the log line, whose [dump]
    throws for invalid UTF-8. *)
Definition finish_store (path : string) (stored : J) (now : Z) (m : ConfigManager) : ConfigManager * bool :=
  let m := notifyChanges path (cache_put path stored now m) in
  match jt_dump stored with
  | Throw _ => (m, false)
  | Ok _ => (updateOperationMetrics m, true)
  end.

(** The validation, if enabled. *)
Definition check_value (key_path : string) (value : J) (m : ConfigManager) : ConfigManager * bool :=
  if enable_validation (options_ m) then
    if isValid (validate size_of_float regex_match (validator_ m) value key_path)
    then (m <| metrics_ ::= (λ x, x <| validation_successes ::= S |>) |>, true)
    else (m <| metrics_ ::= (λ x, x <| validation_failures ::= S |>) |>, false)
  else (m, true).

(** What is left to store.  An argument passed by rvalue reference ([moved])
    was moved into the variable that the validator got, and a moved-from value
    is null. *)
Definition value_left (moved : bool) (value : J) (m : ConfigManager) : J :=
  if enable_validation (options_ m) && moved then jt_null else value.

Definition setOrAppendImpl (moved append : bool) (key_path : string) (value : J) (now : Z) (m : ConfigManager) : ConfigManager * bool :=
  let left := value_left moved value m in
  let '(m, ok) := check_value key_path value m in
  if negb ok then (m, false)
  else if String.eqb key_path "/" then
    let root := if append then push_back (if jt_is_array (config_ m) then config_ m else jt_array []) left else left in
    finish_store "/" root now (m <| config_ := root |>)
  else
    match set_walk append left (split_on "/"%char key_path) "" (config_ m) with
    | (root, Stored path stored) => finish_store path stored now (m <| config_ := root |>)
    | (root, _) => (m <| config_ := root |>, false)
    end.

Definition set (key_path : string) (value : J) := setOrAppendImpl false false key_path value.
Definition set_moved (key_path : string) (value : J) := setOrAppendImpl true false key_path value.
Definition append (key_path : string) (value : J) := setOrAppendImpl false true key_path value.

Definition count_cache (hit : bool) (m : ConfigManager) : ConfigManager :=
  m <| metrics_ ::= (λ x, if hit then x <| cache_hits ::= S |> else x <| cache_misses ::= S |>) |>.

Definition get (key_path : string) (now : Z) (m : ConfigManager) : ConfigManager * option J :=
  let '(m, cached) :=
    if caching m then
      let '(c, r) := Cache.get key_path now (cache_ m) in
      (count_cache (bool_decide (is_Some r)) (m <| cache_ := c |>), r)
    else (m, None) in
  match cached with
  | Some v => (updateOperationMetrics m, Some v)
  | None =>
      match lookup_path (segments key_path) (config_ m) with
      | None => (updateOperationMetrics m, None)
      | Some result => (updateOperationMetrics (cache_put key_path result now m), Some result)
      end
  end.

Definition has (key_path : string) (now : Z) (m : ConfigManager) : ConfigManager * bool :=
  if caching m && Cache.contains key_path now (cache_ m) then (updateOperationMetrics (count_cache true m), true)
  else
    let m := if caching m then count_cache false m else m in
    let '(m, r) := get key_path now m in
    (updateOperationMetrics m, bool_decide (is_Some r)).

Definition remove (key_path : string) (m : ConfigManager) : ConfigManager * bool :=
  match erase_walk (segments key_path) (config_ m) with
  | None => (m, false)
  | Some root =>
      let m := m <| config_ := root |> in
      let m := if caching m then m <| cache_ ::= (λ c, (Cache.remove key_path c).1) |> else m in
      (updateOperationMetrics (notifyChanges key_path m), true)
  end.

Definition getKeys (m : ConfigManager) : list string :=
  match jt_shape (config_ m) with ShObject kvs => kvs.*1 | _ => [] end.

Definition listPaths (m : ConfigManager) : list string :=
  collectPaths (S (jt_depth (config_ m))) (config_ m) "".

Definition clear_cache (m : ConfigManager) : ConfigManager :=
  if caching m then m <| cache_ ::= Cache.clear |> else m.

Definition clear (m : ConfigManager) : ConfigManager := clear_cache (m <| config_ := empty_object |>).

Definition merge (src : J) (m : ConfigManager) : ConfigManager :=
  notifyChanges "/" (clear_cache (m <| config_ ::= merge_docs src |>)).

Definition tidy (now : Z) (m : ConfigManager) : ConfigManager :=
  if caching m then m <| cache_ ::= (λ c, (performCleanup now c).1) |> else m.

Definition onChanged (m : ConfigManager) : ConfigManager * nat :=
  let id := nextCallbackId_ m in
  (m <| nextCallbackId_ ::= S |> <| callbacks_ ::= (λ l, l ++ [id]) |>, id).

Fixpoint erase_first (id : nat) (l : list nat) : list nat :=
  match l with
  | [] => []
  | x :: rest => if x =? id then rest else x :: erase_first id rest
  end.
Definition removeCallback (id : nat) (m : ConfigManager) : ConfigManager * bool :=
  if existsb (Nat.eqb id) (callbacks_ m) then (m <| callbacks_ ::= erase_first id |>, true) else (m, false).

Definition updateOptions (options : Options) (m : ConfigManager) : ConfigManager := m <| options_ := options |>.

(** The counters of the cache replace the manager's own; [events] is what the
    watcher counted. *)
Definition getMetrics (events : nat) (m : ConfigManager) : Metrics :=
  (metrics_ m) <| cache_hits := Cache.hits (cache_ m) |> <| cache_misses := Cache.misses (cache_ m) |>
    <| auto_reloads := events |>.
Definition resetMetrics (m : ConfigManager) : ConfigManager := m <| metrics_ := no_metrics |>.

Definition set_schema (schema : J) (m : ConfigManager) : ConfigManager * bool :=
  let '(v, ok) := setSchema schema (validator_ m) in (m <| validator_ := v |>, ok).

Definition validate_path (config_path : string) (now : Z) (m : ConfigManager) : ConfigManager * ValidationResult :=
  let '(m, value) := get config_path now m in
  (m, match value with
      | None => mkValidation false [] [] ("Configuration path not found: " +:+ config_path)
      | Some v => validate size_of_float regex_match (validator_ m) v config_path
      end).
Definition validateAll (m : ConfigManager) : ValidationResult :=
  validate size_of_float regex_match (validator_ m) (config_ m) "".

(** ** Files *)

Section files.
Context {W : Type} `{FS : FileOps W}.

Definition loadFromFile (path : string) (w : W) (m : ConfigManager) : ConfigManager * bool :=
  let r := deserializeFromFile (serializer_ m) w path None in
  if negb (deser_isValid r) then (m, false)
  else
    match jt_put (config_ m) (path_stem path) (d_data r) with
    | Throw _ => (m, false)
    | Ok root =>
        let m := clear_cache (m <| config_ := root |>) in
        (updateOperationMetrics (m <| metrics_ ::= (λ x, x <| files_loaded ::= S |>) |>), true)
    end.

Fixpoint loadFromFiles (paths : list string) (w : W) (m : ConfigManager) : ConfigManager * nat :=
  match paths with
  | [] => (m, 0)
  | p :: rest =>
      let '(m, ok) := loadFromFile p w m in
      let '(m, n) := loadFromFiles rest w m in
      (m, if ok then S n else n)
  end.

Definition config_extension (p : string) : bool :=
  existsb (String.eqb (path_extension p)) [".json"; ".json5"; ".lithium"]%string.

(** [listing]: [None] when the path is no directory, otherwise the entries that
    the iterator gave, with whether each is a regular file, and whether it then
    threw. *)
Definition loadFromDir (listing : option (list (string * bool) * bool)) (w : W) (m : ConfigManager) : ConfigManager * bool :=
  match listing with
  | None => (m, false)
  | Some (entries, threw) =>
      let files := (filter (λ e, e.2 && config_extension e.1 = true) entries).*1 in
      let '(m, n) := loadFromFiles files w m in
      (m, negb threw && (0 <? n))
  end.

Definition save (file_path : string) (w : W) (m : ConfigManager) : W * ConfigManager * bool :=
  let '(w, ok) := serializeToFile (serializer_ m) w (config_ m) file_path default_options in
  (w, if ok then updateOperationMetrics (m <| metrics_ ::= (λ x, x <| files_saved ::= S |>) |>) else m, ok).

Fixpoint save_members (dir_path : string) (kvs : list (string * J)) (cfg : Config) (w : W) : W * bool :=
  match kvs with
  | [] => (w, true)
  | (k, v) :: rest =>
      let '(w, ok) := serializeToFile cfg w v (path_join dir_path (k +:+ ".json")) default_options in
      let '(w, all_success) := save_members dir_path rest cfg w in
      (w, ok && all_success)
  end.

Definition saveAll (dir_path : string) (w : W) (m : ConfigManager) : W * ConfigManager * bool :=
  match jt_shape (config_ m) with
  | ShObject kvs => let '(w, ok) := save_members dir_path kvs (serializer_ m) w in (w, m, ok)
  | _ => save (path_join dir_path "config.json") w m
  end.

Definition onFileChanged (file_path : string) (event : FileEvent) (w : W) (m : ConfigManager) : ConfigManager :=
  match event with
  | MODIFIED | CREATED =>
      let '(m, ok) := loadFromFile file_path w m in
      if ok then m <| metrics_ ::= (λ x, x <| auto_reloads ::= S |>) |> else m
  | DELETED => (remove ("/" +:+ path_stem file_path) m).1
  | MOVED => m
  end.
End files.
End manager.

(** ** Laws of paths *)

Section document_laws.
Context `{JT : JsonTree J F}.
Implicit Types (p v : J) (keys q : list string).

(** Values that take members. *)
Definition container (p : J) : Prop := jt_shape p = ShNull ∨ ∃ kvs, jt_shape p = ShObject kvs.

Lemma shape_empty_object : jt_shape (empty_object (J := J) (F := F)) = ShObject [].
Proof. apply jt_shape_make. constructor. Qed.

Lemma container_empty : container empty_object.
Proof. right. exists []. apply shape_empty_object. Qed.

Lemma find_empty_object k : jt_find (empty_object (J := J) (F := F)) k = None.
Proof. unfold jt_find. by rewrite shape_empty_object. Qed.

Lemma is_object_container p : jt_is_object p = true → container p.
Proof. unfold jt_is_object. intros Hp. right. destruct (jt_shape p); by eauto. Qed.

Lemma find_object_of p k c : jt_find p k = Some c → jt_is_object p = true.
Proof. unfold jt_find, jt_is_object. by destruct (jt_shape p). Qed.

Lemma put_ok p k v : container p → ∃ p', jt_put p k v = Ok p' ∧ jt_is_object p' = true ∧
  (∀ k', jt_find p' k' = if String.eqb k' k then Some v else jt_find p k').
Proof.
  intros Hp. assert (Hput : ∃ p', jt_put p k v = Ok p').
  { unfold jt_put. destruct Hp as [->|[kvs ->]]; eauto. }
  destruct Hput as [p' Hput]. exists p'. split; [done|]. pose proof (λ k', find_put p k v p' k' Hput) as Hf.
  split; [|done]. eapply find_object_of. rewrite Hf, String.eqb_refl. done.
Qed.

Lemma lookup_path_app q r p : lookup_path (q ++ r) p = match lookup_path q p with Some c => lookup_path r c | None => None end.
Proof. revert p. induction q as [|k q IH]; intros p; cbn; [done|]. destruct (jt_find p k); [apply IH|done]. Qed.

(** [p'] is [p] with [v] at the end of [keys], and objects on the way. *)
Record placed (keys : list string) (v p p' : J) : Prop := {
  pl_at r : lookup_path (keys ++ r) p' = lookup_path r v;
  pl_frame q : ¬ keys `prefix_of` q → ¬ q `prefix_of` keys → lookup_path q p' = lookup_path q p;
  pl_above q : q `prefix_of` keys → q ≠ keys → ∃ j, lookup_path q p' = Some j ∧ jt_is_object j = true
}.

(** What an assignment or an append leaves, [None] when it is refused. *)
Definition new_value (append : bool) (value : J) (old : option J) : option J :=
  if append then
    match old with
    | None => Some (push_back (jt_array []) value)
    | Some a => if jt_is_array a then Some (push_back a value) else None
    end
  else Some value.

Definition full_path (cur : string) (keys : list string) : string :=
  if str_empty cur then join "/" keys else cur +:+ "/" +:+ join "/" keys.

(** One level: a child replaced in a container. *)
Lemma placed_cons k keys v p p' c c' :
  jt_is_object p' = true → (∀ k', jt_find p' k' = if String.eqb k' k then Some c' else jt_find p k') →
  (∀ q, q ≠ [] → lookup_path q c = match jt_find p k with Some old => lookup_path q old | None => None end) →
  placed keys v c c' → placed (k :: keys) v p p'.
Proof.
  intros Hobj Hf Hc [Hat Hframe Habove]. split.
  - intros r. cbn. rewrite Hf, String.eqb_refl. apply Hat.
  - intros [|k' q] Hk Hq; [by destruct Hq; apply prefix_nil|]. cbn. rewrite Hf.
    destruct (String.eqb_spec k' k) as [->|Hne]; [|done].
    assert (Hk' : ¬ keys `prefix_of` q) by (intros ?; by apply Hk, prefix_cons).
    assert (Hq' : ¬ q `prefix_of` keys) by (intros ?; by apply Hq, prefix_cons).
    rewrite Hframe by done. apply Hc. intros ->. by destruct Hq'; apply prefix_nil.
  - intros [|k' q] Hq Hne; [by exists p'|]. cbn. pose proof (prefix_cons_inv_1 _ _ _ _ Hq) as ->.
    rewrite Hf, String.eqb_refl. apply prefix_cons_inv_2 in Hq. apply Habove; [done|congruence].
Qed.

Lemma placed_nil v p : placed [] v p v.
Proof.
  split; [done|intros q Hq; by destruct Hq; apply prefix_nil|].
  intros q Hq Hne. by apply prefix_nil_inv in Hq.
Qed.

Lemma full_path_cons cur k keys : str_empty k = false →
  full_path (if str_empty cur then k else cur +:+ "/" +:+ k) keys =
  (if str_empty cur then k else cur +:+ "/" +:+ k) +:+ "/" +:+ join "/" keys.
Proof. intros Hk. unfold full_path. destruct cur; cbn; [by rewrite Hk|done]. Qed.

Lemma full_path_step cur k l keys : str_empty k = false →
  full_path (if str_empty cur then k else cur +:+ "/" +:+ k) (l :: keys) = full_path cur (k :: l :: keys).
Proof.
  intros Hk. rewrite full_path_cons by done. unfold full_path. destruct cur; [done|]. cbn [str_empty].
  by rewrite <- !str_app_assoc.
Qed.

Lemma lookup_not_object q p : q ≠ [] → jt_is_object p = false → lookup_path q p = None.
Proof. destruct q as [|k q]; [done|]. intros _ Hp. cbn. unfold jt_find, jt_is_object in *. by destruct (jt_shape p). Qed.

Lemma lookup_empty_object q : q ≠ [] → lookup_path q empty_object = None.
Proof. destruct q as [|k q]; [done|]. intros _. cbn. by rewrite find_empty_object. Qed.

Lemma store_at_spec append value k cur p : container p →
  ∃ p' e, store_at append value k cur p = (p', e) ∧
  match new_value append value (jt_find p k) with
  | Some v => e = Stored cur v ∧ jt_is_object p' = true ∧ placed [k] v p p'
  | None => e = Refused
  end.
Proof.
  intros Hp. assert (Hput : ∀ v, ∃ p', jt_put p k v = Ok p' ∧ jt_is_object p' = true ∧ placed [k] v p p').
  { intros v. destruct (put_ok p k v Hp) as (p' & Hput & Hobj & Hf). exists p'. split_and!; [done..|].
    apply (placed_cons k [] v p p' (default empty_object (jt_find p k)) v); [done|done| |apply placed_nil].
    intros q Hq. destruct (jt_find p k); [done|]. by apply lookup_empty_object. }
  unfold store_at, new_value. destruct append.
  - destruct (jt_find p k) as [old|]; [destruct (jt_is_array old)|].
    + destruct (Hput (push_back old value)) as (p' & -> & ? & ?). eauto 10.
    + eauto.
    + destruct (Hput (push_back (jt_array []) value)) as (p' & -> & ? & ?). eauto 10.
  - destruct (Hput value) as (p' & -> & ? & ?). eauto 10.
Qed.

(** The object entered on the way: the old one, or a new empty one. *)
Lemma enter_spec k p : container p → ∃ p1 child,
  match jt_find p k with
  | Some child => if jt_is_object child then Ok (p, child) else let* p' := jt_put p k empty_object in Ok (p', empty_object)
  | None => let* p' := jt_put p k empty_object in Ok (p', empty_object)
  end = Ok (p1, child) ∧ jt_is_object p1 = true ∧ jt_is_object child = true ∧
  (∀ k', k' ≠ k → jt_find p1 k' = jt_find p k') ∧
  (∀ q, q ≠ [] → lookup_path q child = match jt_find p k with Some old => lookup_path q old | None => None end).
Proof.
  intros Hp. assert (Hnew : ∃ p1, jt_put p k empty_object = Ok p1 ∧ jt_is_object p1 = true ∧
    ∀ k', k' ≠ k → jt_find p1 k' = jt_find p k').
  { destruct (put_ok p k empty_object Hp) as (p1 & -> & Hobj & Hf). exists p1. split_and!; [done..|].
    intros k' Hne. rewrite Hf. by destruct (String.eqb_spec k' k). }
  destruct Hnew as (p1 & Hput & Hobj & Hf). assert (Hempty : jt_is_object empty_object = true)
    by (unfold jt_is_object; by rewrite shape_empty_object).
  destruct (jt_find p k) as [child|] eqn:Ek; [destruct (jt_is_object child) eqn:Eo|].
  - exists p, child. split_and!; [done|by eapply find_object_of|done..].
  - exists p1, empty_object. rewrite Hput. split_and!; [done..|].
    intros q Hq. by rewrite lookup_empty_object, lookup_not_object.
  - exists p1, empty_object. rewrite Hput. split_and!; [done..|].
    intros q Hq. by rewrite lookup_empty_object.
Qed.

Lemma set_walk_spec append value keys : keys ≠ [] → Forall (λ k, str_empty k = false) keys →
  ∀ cur p, container p → ∃ p' e, set_walk append value keys cur p = (p', e) ∧
  match new_value append value (lookup_path keys p) with
  | Some v => e = Stored (full_path cur keys) v ∧ jt_is_object p' = true ∧ placed keys v p p'
  | None => e = Refused
  end.
Proof.
  induction keys as [|k keys IH]; [done|]. intros _ [Hk Hkeys]%Forall_cons cur p Hp. cbn [set_walk lookup_path]. rewrite Hk.
  destruct keys as [|l keys].
  - destruct (store_at_spec append value k (if str_empty cur then k else cur +:+ "/" +:+ k) p Hp) as (p' & e & -> & H).
    exists p', e. split; [done|]. replace (match jt_find p k with Some c => _ | None => _ end) with (jt_find p k) by by destruct (jt_find p k).
    replace (full_path cur [k]) with (if str_empty cur then k else cur +:+ "/" +:+ k) by done. exact H.
  - destruct (enter_spec k p Hp) as (p1 & child & -> & Hobj1 & Hoc & Hf1 & Hc).
    destruct (IH ltac:(done) Hkeys (if str_empty cur then k else cur +:+ "/" +:+ k) child) as (child' & e & -> & H);
      [by apply is_object_container|].
    destruct (put_ok p1 k child') as (p2 & -> & Hobj2 & Hf2); [by apply is_object_container|].
    exists p2, e. split; [done|].
    replace (match jt_find p k with Some c => _ | None => _ end) with (lookup_path (l :: keys) child) by by apply Hc.
    destruct (new_value append value (lookup_path (l :: keys) child)) as [v|]; [|done].
    destruct H as (-> & Hoc' & Hpl). rewrite full_path_step by done. split_and!; [done..|].
    eapply (placed_cons k (l :: keys) v p p2 child child'); [done| |exact Hc|done].
    intros k'. rewrite Hf2. destruct (String.eqb_spec k' k); [done|by apply Hf1].
Qed.

(** Empty segments are skipped, unless the last one is empty. *)
Lemma set_walk_skip append value keys : (∀ k, last keys = Some k → str_empty k = false) →
  ∀ cur p, set_walk append value keys cur p = set_walk append value (filter (λ k, str_empty k = false) keys) cur p.
Proof.
  induction keys as [|k keys IH]; intros Hlast cur p; [done|].
  assert (Htail : ∀ k, last keys = Some k → str_empty k = false).
  { intros k' Hk'. apply Hlast. destruct keys; [done|exact Hk']. }
  rewrite filter_cons. cbn [set_walk]. destruct (str_empty k) eqn:Ek.
  - rewrite decide_False by done. by apply IH.
  - rewrite decide_True by done. cbn [set_walk]. rewrite Ek. destruct keys as [|l keys]; [done|].
    destruct (filter (λ k, str_empty k = false) (l :: keys)) as [|l' keys'] eqn:Ef.
    { exfalso. destruct (last (l :: keys)) as [z|] eqn:Ez; [|by apply last_None in Ez].
      assert (z ∈ filter (λ k, str_empty k = false) (l :: keys)) as Hz; [|rewrite Ef in Hz; by apply not_elem_of_nil in Hz].
      apply list_elem_of_filter. split; [by apply Htail|]. by apply last_Some_elem_of. }
    destruct (match jt_find p k with Some _ => _ | None => _ end) as [[p1 child]|]; [|done].
    by rewrite IH.
Qed.

(** ** Removal *)

(** [p'] is [p] without what is at [keys]. *)
Record removed (keys : list string) (p p' : J) : Prop := {
  rm_at r : lookup_path (keys ++ r) p' = None;
  rm_frame q : ¬ keys `prefix_of` q → ¬ q `prefix_of` keys → lookup_path q p' = lookup_path q p;
  rm_above q : q `prefix_of` keys → q ≠ keys → ∃ j, lookup_path q p' = Some j ∧ jt_is_object j = true
}.

Lemma assoc_filter (k k' : string) (kvs : list (string * J)) :
  assoc k' (filter (λ kv, kv.1 ≠ k) kvs) = if String.eqb k' k then None else assoc k' kvs.
Proof.
  induction kvs as [|[k1 v1] kvs IH]; [by cbn; destruct (String.eqb k' k)|]. rewrite filter_cons.
  destruct (decide _) as [Hne|Heq]; cbn [assoc fst] in *; rewrite IH.
  - destruct (String.eqb_spec k' k1) as [->|]; [|done]. by destruct (String.eqb_spec k1 k).
  - apply dec_stable in Heq as ->. by destruct (String.eqb_spec k' k).
Qed.

Lemma filter_sorted (k : string) (kvs : list (string * J)) : keys_sorted kvs → keys_sorted (filter (λ kv, kv.1 ≠ k) kvs).
Proof.
  induction 1 as [|kv kvs Hs IH Hall]; [constructor|]. rewrite filter_cons. destruct (decide _); [|done].
  constructor; [done|]. apply Forall_forall. intros x [_ Hx]%list_elem_of_filter. by eapply Forall_forall in Hall.
Qed.

Lemma erase_spec p k : jt_is_object p = true →
  jt_is_object (jt_erase p k) = true ∧ ∀ k', jt_find (jt_erase p k) k' = if String.eqb k' k then None else jt_find p k'.
Proof.
  unfold jt_is_object, jt_erase, jt_find. destruct (jt_shape p) as [| | | | | |kvs] eqn:E; try done. intros _.
  assert (jt_shape (jt_make (ShObject (filter (λ kv, kv.1 ≠ k) kvs)) : J) = ShObject (filter (λ kv, kv.1 ≠ k) kvs)) as Hs.
  { apply jt_shape_make, filter_sorted. by eapply jt_sorted. }
  rewrite Hs. split; [done|]. intros k'. apply assoc_filter.
Qed.

Lemma erase_walk_spec keys p :
  match erase_walk keys p with
  | Some p' => keys ≠ [] ∧ is_Some (lookup_path keys p) ∧ jt_is_object p' = true ∧ removed keys p p'
  | None => keys = [] ∨ lookup_path keys p = None
  end.
Proof.
  revert p. induction keys as [|k keys IH]; intros p; [by left|]. cbn [erase_walk lookup_path].
  destruct (jt_find p k) as [child|] eqn:Ek; [|by right].
  pose proof (find_object_of _ _ _ Ek) as Hobj. destruct keys as [|l keys].
  - destruct (erase_spec p k Hobj) as [Ho Hf]. cbn. split_and!; [done|by eexists|done|]. split.
    + intros r. cbn. by rewrite Hf, String.eqb_refl.
    + intros [|k' q] Hk Hq; [by destruct Hq; apply prefix_nil|]. cbn. rewrite Hf.
      destruct (String.eqb_spec k' k) as [->|]; [|done]. destruct Hk. apply prefix_cons, prefix_nil.
    + intros [|k' q] Hq Hne; [by eexists|]. pose proof (prefix_cons_inv_1 _ _ _ _ Hq) as ->.
      apply prefix_cons_inv_2, prefix_nil_inv in Hq. congruence.
  - specialize (IH child). destruct (erase_walk (l :: keys) child) as [child'|] eqn:Ec; [|destruct IH; [done|by right]].
    destruct IH as (_ & Hsome & Hoc & [Hat Hframe Habove]).
    destruct (put_ok p k child') as (p2 & -> & Ho2 & Hf2); [by apply is_object_container|]. split_and!; [done..|]. split.
    + intros r. cbn [app lookup_path]. rewrite Hf2, String.eqb_refl. apply Hat.
    + intros [|k' q] Hk Hq; [by destruct Hq; apply prefix_nil|]. cbn. rewrite Hf2.
      destruct (String.eqb_spec k' k) as [->|]; [|done]. rewrite Ek.
      apply Hframe; intros ?; [apply Hk|apply Hq]; by apply prefix_cons.
    + intros [|k' q] Hq Hne; [by eexists|]. cbn. pose proof (prefix_cons_inv_1 _ _ _ _ Hq) as ->.
      rewrite Hf2, String.eqb_refl. apply prefix_cons_inv_2 in Hq. apply Habove; [done|congruence].
Qed.

(** ** Listing *)

(** Every member, at any depth, has a name that can be a segment of a path. *)
Inductive plain_names : J → Prop :=
| plain_names_intro j :
    (∀ k c, jt_find j k = Some c → str_empty k = false ∧ str_mem "/"%char k = false ∧ plain_names c) → plain_names j.

Lemma find_elem p k c kvs : jt_shape p = ShObject kvs → jt_find p k = Some c ↔ (k, c) ∈ kvs.
Proof.
  intros E. unfold jt_find. rewrite E. split; [apply assoc_elem|]. apply assoc_sorted. by eapply jt_sorted.
Qed.

Lemma find_depth j k c : jt_find j k = Some c → (jt_depth c < jt_depth j)%nat.
Proof.
  intros Hc. apply jt_depth_child. unfold jt_find in Hc. destruct (jt_shape j); try done.
  apply assoc_elem in Hc. cbn. apply list_elem_of_fmap. by exists (k, c).
Qed.

Lemma full_path_inner prefix k keys : str_empty k = false → keys ≠ [] →
  full_path (if str_empty prefix then k else prefix +:+ "/" +:+ k) keys = full_path prefix (k :: keys).
Proof. intros Hk Hne. destruct keys as [|l keys]; [done|]. by apply full_path_step. Qed.

Lemma collectPaths_spec fuel node prefix path : plain_names node → (jt_depth node < fuel)%nat →
  path ∈ collectPaths fuel node prefix ↔
  ∃ keys, keys ≠ [] ∧ is_Some (lookup_path keys node) ∧ path = full_path prefix keys.
Proof.
  revert node prefix. induction fuel as [|fuel IH]; intros node prefix [j Hplain] Hf; [lia|]. cbn [collectPaths].
  destruct (jt_shape j) as [| | | | | |kvs] eqn:E;
    try (split; [by intros ?%not_elem_of_nil|]; intros ([|k keys] & Hne & [v Hv] & _); [done|]; cbn in Hv;
         unfold jt_find in Hv; by rewrite E in Hv).
  rewrite elem_of_concat_map. split.
  - intros ([k c] & Hin & Hp). cbn in Hp. apply (find_elem j k c kvs E) in Hin.
    destruct (Hplain k c Hin) as (Hk & _ & Hpc). apply elem_of_cons in Hp as [->|Hp].
    + exists [k]. cbn. rewrite Hin. split_and!; [done|by eexists|by destruct prefix].
    + apply IH in Hp as (keys & Hne & Hl & ->); [|done|].
      2:{ apply find_depth in Hin. lia. }
      exists (k :: keys). cbn. rewrite Hin. split_and!; [done|done|]. by apply full_path_inner.
  - intros ([|k keys] & Hne & Hl & ->); [done|]. cbn in Hl. destruct (jt_find j k) as [c|] eqn:Hc; [|by destruct Hl].
    exists (k, c). split; [by apply (find_elem j k c kvs E)|]. cbn.
    destruct (Hplain k c Hc) as (Hk & _ & Hpc). destruct keys as [|l keys]; [left; by destruct prefix|right].
    apply IH; [done|apply find_depth in Hc; lia|]. exists (l :: keys). split_and!; [done|done|]. symmetry. by apply full_path_inner.
Qed.

Lemma lookup_plain keys p : plain_names p → is_Some (lookup_path keys p) →
  Forall (λ k, str_empty k = false ∧ str_mem "/"%char k = false) keys.
Proof.
  revert p. induction keys as [|k keys IH]; intros p [j Hj] Hl; [constructor|]. cbn in Hl.
  destruct (jt_find j k) as [c|] eqn:Hc; [|by destruct Hl]. destruct (Hj k c Hc) as (? & ? & ?). constructor; [done|by eapply IH].
Qed.

Lemma segments_join keys : keys ≠ [] → Forall (λ k, str_empty k = false ∧ str_mem "/"%char k = false) keys →
  segments (join "/" keys) = keys.
Proof.
  intros Hne Hk. unfold segments. rewrite split_join.
  - clear Hne. induction Hk as [|k keys [Hk _] _ IH]; [done|]. rewrite filter_cons, decide_True by done. by rewrite IH.
  - done.
  - eapply Forall_impl; [exact Hk|]. by intros ? [_ ?].
  - destruct keys as [|k [|l keys]]; [done| |]; apply Forall_cons in Hk as [[Hk _] _]; by destruct k.
Qed.

(** ** Merging *)

(** What the merge leaves under one name. *)
Definition merge_member (fuel : nat) (sv : J) (old : option J) : J :=
  match old with
  | Some t => if jt_is_object t && jt_is_object sv then merge_into fuel sv t else sv
  | None => sv
  end.

Lemma merge_fold_find fuel kvs target : NoDup kvs.*1 → jt_is_object target = true →
  let merged := foldl (λ target kv,
    match jt_put target kv.1 (merge_member fuel kv.2 (jt_find target kv.1)) with Ok t => t | Throw _ => target end) target kvs in
  jt_is_object merged = true ∧ ∀ k, jt_find merged k =
    match assoc k kvs with Some sv => Some (merge_member fuel sv (jt_find target k)) | None => jt_find target k end.
Proof.
  revert target. induction kvs as [|[k1 v1] kvs IH]; intros target Hnd Ht; [done|].
  apply NoDup_cons in Hnd as [Hk1 Hnd]. cbn [foldl fst snd].
  destruct (put_ok target k1 (merge_member fuel v1 (jt_find target k1)) (is_object_container _ Ht)) as (t' & -> & Ho & Hf).
  destruct (IH t' Hnd Ho) as [Hc Hfind]. split; [exact Hc|].
  intros k. rewrite Hfind, Hf. cbn. destruct (String.eqb_spec k k1) as [->|Hne]; [|done].
  destruct (assoc k1 kvs) eqn:Ea; [|done]. apply assoc_elem in Ea. destruct Hk1. apply list_elem_of_fmap. by exists (k1, j).
Qed.

Lemma keys_sorted_NoDup (kvs : list (string * J)) : keys_sorted kvs → NoDup kvs.*1.
Proof.
  intros Hs%keys_sorted_fst. induction Hs as [|k l Hs IH Hall]; constructor; [|done].
  intros Hin. rewrite Forall_forall in Hall. apply Hall in Hin. by rewrite str_ltb_irrefl in Hin.
Qed.

Lemma merge_into_find fuel src target : jt_is_object src = true → jt_is_object target = true →
  jt_is_object (merge_into (S fuel) src target) = true ∧
  ∀ k, jt_find (merge_into (S fuel) src target) k =
    match jt_find src k with Some sv => Some (merge_member fuel sv (jt_find target k)) | None => jt_find target k end.
Proof.
  intros Hs Ht. assert (Ht' := Ht). unfold jt_is_object in Hs, Ht'. cbn [merge_into].
  destruct (jt_shape src) as [| | | | | |kvs] eqn:Es; try done.
  destruct (jt_shape target) as [| | | | | |tvs] eqn:Et; try done.
  destruct (merge_fold_find fuel kvs target (keys_sorted_NoDup _ (jt_sorted _ _ Es)) Ht) as [Ho Hf].
  split; [exact Ho|]. intros k. replace (jt_find src k) with (assoc k kvs) by (unfold jt_find; by rewrite Es). apply Hf.
Qed.

Lemma merge_into_other fuel src target : jt_is_object src = false ∨ jt_is_object target = false →
  merge_into (S fuel) src target = src.
Proof. unfold jt_is_object. cbn [merge_into]. destruct (jt_shape src), (jt_shape target); by intros [?|?]. Qed.

Lemma merge_takes fuel q src target v : (jt_depth src < fuel)%nat →
  lookup_path q src = Some v → jt_is_object v = false → lookup_path q (merge_into fuel src target) = Some v.
Proof.
  revert q src target. induction fuel as [|fuel IH]; intros q src target Hf Hq Hv; [lia|].
  destruct (jt_is_object src) eqn:Es; [|by rewrite merge_into_other by auto].
  destruct (jt_is_object target) eqn:Et; [|by rewrite merge_into_other by auto].
  destruct q as [|k q]; [injection Hq as ->; congruence|].
  destruct (merge_into_find fuel src target Es Et) as [_ Hfind]. cbn [lookup_path] in *. rewrite Hfind.
  destruct (jt_find src k) as [sv|] eqn:Hk; [|done]. unfold merge_member.
  destruct (jt_find target k) as [t|]; [|done]. destruct (jt_is_object t && jt_is_object sv); [|done].
  apply IH; [|done..]. apply find_depth in Hk. lia.
Qed.

Lemma merge_keeps fuel q src target : (jt_depth src < fuel)%nat → lookup_path q src = None →
  (∀ r j, r `prefix_of` q → lookup_path r src = Some j → jt_is_object j = true) →
  lookup_path q (merge_into fuel src target) = lookup_path q target.
Proof.
  revert q src target. induction fuel as [|fuel IH]; intros q src target Hf Hq Hobj; [lia|].
  destruct q as [|k q]; [done|]. assert (Es : jt_is_object src = true) by (by apply (Hobj []); [apply prefix_nil|]).
  destruct (jt_is_object target) eqn:Et.
  2:{ rewrite merge_into_other by auto. by rewrite Hq, (lookup_not_object _ target). }
  destruct (merge_into_find fuel src target Es Et) as [_ Hfind]. cbn [lookup_path] in *. rewrite Hfind.
  destruct (jt_find src k) as [sv|] eqn:Hk; [|done]. unfold merge_member.
  assert (Esv : jt_is_object sv = true).
  { apply (Hobj [k]); [apply prefix_cons, prefix_nil|]. cbn. by rewrite Hk. }
  assert (Hsub : ∀ r j, r `prefix_of` q → lookup_path r sv = Some j → jt_is_object j = true).
  { intros r j Hr Hj. apply (Hobj (k :: r)); [by apply prefix_cons|]. cbn. by rewrite Hk. }
  destruct (jt_find target k) as [t|] eqn:Hkt; [|done]. rewrite Esv, andb_true_r.
  destruct (jt_is_object t) eqn:Eo; [apply IH; [apply find_depth in Hk; lia|done..]|].
  rewrite Hq. destruct q as [|l q]; [done|]. by rewrite lookup_not_object.
Qed.
End document_laws.

(** ** Laws of the manager *)

Section manager_laws.
Context `{JP : JsonPrinter J F, FO : !Floats F, HI : !HashIter string, SS : !StdSort}.
Context (size_of_float : F → Z) (regex_match : string → string → option bool).
Abbreviation Manager := (@ConfigManager J).
Implicit Types m : Manager.

Lemma cache_after_put key v ttl now now' (c : ConfigCache J) :
  (Cache.get key now' (Cache.put key v ttl now c)).2 = Some v ∨ (Cache.get key now' (Cache.put key v ttl now c)).2 = None.
Proof.
  unfold Cache.get, get_read, Cache.put. cbn. rewrite lookup_insert_eq. cbn.
  destruct (isExpired now' _); cbn; auto.
Qed.

Lemma cache_after_remove key now (c : ConfigCache J) : (Cache.get key now (Cache.remove key c).1).2 = None.
Proof.
  unfold Cache.remove. destruct (cache c !! key) eqn:E; cbn; unfold Cache.get, get_read; cbn; [by rewrite lookup_delete_eq|by rewrite E].
Qed.

(** [get] answers from the cache when it holds a live value for this spelling
    of the path, and from the document otherwise. *)
Lemma get_spec key_path now m :
  config_ (get key_path now m).1 = config_ m ∧
  (get key_path now m).2 =
    match (if caching m then (Cache.get key_path now (cache_ m)).2 else None) with
    | Some v => Some v
    | None => lookup_path (segments key_path) (config_ m)
    end.
Proof.
  unfold get, cache_put. destruct (caching m) eqn:Ec.
  - destruct (Cache.get key_path now (cache_ m)) as [c [v|]]; [done|]. cbn -[Cache.put].
    destruct (lookup_path _ _); [|done]. split; [|done]. by destruct (caching _).
  - destruct (lookup_path _ _); [|done]. split; [|done]. by rewrite Ec.
Qed.

Lemma finish_store_spec path v now m :
  config_ (finish_store path v now m).1 = config_ m ∧
  (finish_store path v now m).2 = is_ok (jt_dump v) ∧
  options_ (finish_store path v now m).1 = options_ m ∧
  notified (finish_store path v now m).1 = notified m ++ map (λ id, (id, path)) (callbacks_ m) ∧
  cache_ (finish_store path v now m).1 = if caching m then Cache.put path v 0 now (cache_ m) else cache_ m.
Proof.
  unfold finish_store, notifyChanges, cache_put. destruct (jt_dump v); destruct (caching m); done.
Qed.

Lemma check_value_spec key_path value m :
  let accepted := negb (enable_validation (options_ m)) || isValid (validate size_of_float regex_match (validator_ m) value key_path) in
  (check_value size_of_float regex_match key_path value m).2 = accepted ∧
  ∃ x, (check_value size_of_float regex_match key_path value m).1 = m <| metrics_ := x |>.
Proof.
  unfold check_value. destruct (enable_validation (options_ m)); cbn; [destruct (isValid _)|]; (split; [done|]); eexists; try done.
  instantiate (1 := metrics_ m). by destruct m.
Qed.

Lemma segments_not_root key_path : segments key_path ≠ [] → String.eqb key_path "/" = false.
Proof. intros H. by destruct (String.eqb_spec key_path "/") as [->|]. Qed.

Lemma segments_nonempty key_path : Forall (λ k, str_empty k = false) (segments key_path).
Proof. apply Forall_forall. by intros k [Hk _]%list_elem_of_filter. Qed.

(** Assigning or appending: the document, the callbacks and the next read. *)
Lemma store_spec append key_path value now m m1 x :
  m1 = m <| metrics_ := x |> → container (config_ m) → segments key_path ≠ [] →
  (∀ k, last (split_on "/"%char key_path) = Some k → str_empty k = false) →
  ∀ v, new_value append value (lookup_path (segments key_path) (config_ m)) = Some v →
  ∃ m' ok, match set_walk append value (split_on "/"%char key_path) "" (config_ m1) with
    | (root, Stored path stored) => finish_store path stored now (m1 <| config_ := root |>)
    | (root, _) => (m1 <| config_ := root |>, false)
    end = (m', ok) ∧
  ok = is_ok (jt_dump v) ∧ jt_is_object (config_ m') = true ∧ placed (segments key_path) v (config_ m) (config_ m') ∧
  notified m' = notified m ++ map (λ id, (id, join "/" (segments key_path))) (callbacks_ m) ∧
  (key_path = join "/" (segments key_path) ∨ caching m = false → ∀ now', (get key_path now' m').2 = Some v).
Proof.
  intros -> Hc Hne Hlast v Hv. rewrite set_walk_skip by done. cbn [config_].
  change (config_ (m <| metrics_ := x |>)) with (config_ m).
  destruct (set_walk_spec append value (segments key_path) Hne (segments_nonempty key_path) "" (config_ m) Hc) as (root & e & Hw & Hr).
  unfold segments in Hw at 1. rewrite Hw, Hv in *. destruct Hr as (-> & Hobj & Hpl).
  set (m2 := (m <| metrics_ := x |>) <| config_ := root |>).
  destruct (finish_store_spec (full_path "" (segments key_path)) v now m2) as (Hcfg & Hok & Hopt & Hnot & Hcache).
  destruct (finish_store _ v now m2) as [m' ok]. cbn [fst snd] in *. exists m', ok.
  split_and!; [done|done|by rewrite Hcfg|by rewrite Hcfg|done|].
  intros Hkey now'. destruct (get_spec key_path now' m') as [_ ->]. unfold caching at 1. rewrite Hopt, Hcache, Hcfg.
  assert (Hl : lookup_path (segments key_path) (config_ m2) = Some v).
  { pose proof (pl_at _ _ _ _ Hpl []) as Ha. by rewrite app_nil_r in Ha. }
  change (enable_caching (options_ m2)) with (caching m). change (caching m2) with (caching m).
  destruct (caching m); [|done]. destruct Hkey as [Hkey|]; [|done]. change (full_path "" (segments key_path)) with (join "/" (segments key_path)).
  rewrite <- Hkey. by destruct (cache_after_put key_path v 0 now now' (cache_ m2)) as [-> | ->].
Qed.

(** The path names something, and does not end with a slash. *)
Definition proper_path (key_path : string) : Prop :=
  segments key_path ≠ [] ∧ ∀ k, last (split_on "/"%char key_path) = Some k → str_empty k = false.

Definition accepted (key_path : string) (value : J) (m : Manager) : bool :=
  negb (enable_validation (options_ m)) || isValid (validate size_of_float regex_match (validator_ m) value key_path).

Lemma setOrAppend_spec moved append key_path value now m :
  let '(m', ok) := setOrAppendImpl size_of_float regex_match moved append key_path value now m in
  if accepted key_path value m then
    proper_path key_path → container (config_ m) →
    ∀ v, new_value append (value_left moved value m) (lookup_path (segments key_path) (config_ m)) = Some v →
    ok = is_ok (jt_dump v) ∧ jt_is_object (config_ m') = true ∧ placed (segments key_path) v (config_ m) (config_ m') ∧
    notified m' = notified m ++ map (λ id, (id, join "/" (segments key_path))) (callbacks_ m) ∧
    (key_path = join "/" (segments key_path) ∨ caching m = false → ∀ now', (get key_path now' m').2 = Some v)
  else ok = false ∧ config_ m' = config_ m ∧ notified m' = notified m.
Proof.
  unfold setOrAppendImpl, accepted. destruct (check_value_spec key_path value m) as [Hok [x Hx]].
  destruct (check_value size_of_float regex_match key_path value m) as [m1 ok1]. cbn [fst snd] in Hok, Hx. rewrite <- Hok.
  destruct ok1; cbn [negb]; [|by subst m1].
  destruct (if String.eqb key_path "/" then _ else _) as [m' ok] eqn:E. intros [Hne Hlast] Hc v Hv.
  rewrite (segments_not_root _ Hne) in E.
  destruct (store_spec append key_path _ now m m1 x Hx Hc Hne Hlast v Hv) as (m2 & ok2 & Heq & H2).
  rewrite E in Heq. by injection Heq as -> ->.
Qed.

(** [C27] Setting a value by const reference (a value passed by rvalue reference
    is lost, see [set_moved_stores_null]).  A value the validator rejects changes
    nothing.  Otherwise, for a path that names something and has no trailing
    slash (see [trailing_slash_destroys]), in a document whose root is an object
    or null, the document holds the value at that path afterwards, objects on the way to it, and at every path
    that is neither above nor below it what it held before; every callback is
    called once with the normalized path; the result tells whether the value
    can be printed; and, when the path is spelled in its normal form or the
    cache is off, the next read of the path gives the value, whatever was
    cached before and however late it comes. *)
Theorem set_correct (key_path : string) (value : J) (now : Z) (m : Manager) :
  let '(m', ok) := set size_of_float regex_match key_path value now m in
  (accepted key_path value m = false → ok = false ∧ config_ m' = config_ m ∧ notified m' = notified m) ∧
  (accepted key_path value m = true → proper_path key_path → container (config_ m) →
     placed (segments key_path) value (config_ m) (config_ m') ∧
     notified m' = notified m ++ map (λ id, (id, join "/" (segments key_path))) (callbacks_ m) ∧
     ok = is_ok (jt_dump value) ∧
     (key_path = join "/" (segments key_path) ∨ caching m = false → ∀ now', (get key_path now' m').2 = Some value)).
Proof.
  pose proof (setOrAppend_spec false false key_path value now m) as Hs. unfold set.
  destruct (setOrAppendImpl _ _ false false key_path value now m) as [m' ok]. destruct (accepted key_path value m); [|done].
  split; [done|]. intros _ Hp Hc. destruct (Hs Hp Hc value) as (-> & _ & Hpl & Hn & Hg); [|done].
  unfold new_value, value_left. by rewrite andb_false_r.
Qed.

(** Appending: to the array at the path, or to a new one. *)
Lemma append_spec key_path value now m v :
  accepted key_path value m = true → proper_path key_path → container (config_ m) →
  new_value true value (lookup_path (segments key_path) (config_ m)) = Some v →
  let '(m', ok) := append size_of_float regex_match key_path value now m in
  placed (segments key_path) v (config_ m) (config_ m') ∧ ok = is_ok (jt_dump v).
Proof.
  intros Ha Hp Hc Hv. pose proof (setOrAppend_spec false true key_path value now m) as Hs. unfold append.
  destruct (setOrAppendImpl _ _ false true key_path value now m) as [m' ok]. rewrite Ha in Hs.
  assert (Hv' : new_value true (value_left false value m) (lookup_path (segments key_path) (config_ m)) = Some v)
    by (unfold value_left; by rewrite andb_false_r).
  destruct (Hs Hp Hc v Hv') as (? & _ & ? & _). done.
Qed.

(** With validation on, a value passed by rvalue reference is lost: null is
    stored in its place. *)
Lemma set_moved_stores_null key_path value now m :
  enable_validation (options_ m) = true → accepted key_path value m = true → proper_path key_path → container (config_ m) →
  lookup_path (segments key_path) (config_ (set_moved size_of_float regex_match key_path value now m).1) = Some jt_null.
Proof.
  intros He Ha Hp Hc. pose proof (setOrAppend_spec true false key_path value now m) as Hs. unfold set_moved.
  destruct (setOrAppendImpl _ _ true false key_path value now m) as [m' ok]. rewrite Ha in Hs.
  destruct (Hs Hp Hc jt_null) as (_ & _ & Hpl & _); [unfold new_value, value_left; by rewrite He|].
  pose proof (pl_at _ _ _ _ Hpl []) as Hl. by rewrite app_nil_r in Hl.
Qed.

(** Removing a path succeeds exactly when it names a member that exists.
    Then nothing is left at or below it, the paths neither above nor below it
    are as before, those above are still objects, every callback is called
    with the path as given, and reading it finds nothing, with or without the
    cache.  Otherwise nothing changes. *)
Theorem remove_correct (key_path : string) (m : Manager) :
  let keys := segments key_path in
  let '(m', ok) := remove key_path m in
  (ok = true ↔ keys ≠ [] ∧ is_Some (lookup_path keys (config_ m))) ∧
  (ok = true → removed keys (config_ m) (config_ m') ∧
     notified m' = notified m ++ map (λ id, (id, key_path)) (callbacks_ m) ∧
     ∀ now, (get key_path now m').2 = None) ∧
  (ok = false → m' = m).
Proof.
  unfold remove. pose proof (erase_walk_spec (segments key_path) (config_ m)) as Hs.
  destruct (erase_walk (segments key_path) (config_ m)) as [root|].
  - destruct Hs as (Hne & Hl & Hobj & Hrm). split; [done|]. split; [intros _|done].
    split; [|split].
    + cbn. by destruct (caching _).
    + cbn. by destruct (caching _).
    + intros now. match goal with |- (get _ _ ?mm).2 = _ => destruct (get_spec key_path now mm) as [_ ->] end.
      pose proof (rm_at _ _ _ Hrm []) as Ha. rewrite app_nil_r in Ha.
      unfold updateOperationMetrics, notifyChanges. unfold caching. cbn [options_ config_].
      change (options_ (m <| config_ := root |>)) with (options_ m).
      destruct (enable_caching (options_ m)) eqn:Ec; cbn -[Cache.get Cache.remove lookup_path]; rewrite Ec; [|done].
      by rewrite cache_after_remove.
  - split; [|by split]. split; [done|]. intros [Hne Hl]. destruct Hs as [?|Hs]; [done|]. rewrite Hs in Hl. by destruct Hl.
Qed.

(** Listing: when the names of all members can be segments of a path,
    [listPaths] lists exactly the paths in normal form that name something. *)
Theorem listPaths_correct (m : Manager) (Hnames : plain_names (config_ m)) (path : string) :
  path ∈ listPaths m ↔
  path = join "/" (segments path) ∧ segments path ≠ [] ∧ is_Some (lookup_path (segments path) (config_ m)).
Proof.
  unfold listPaths. rewrite collectPaths_spec by (done || lia). split.
  - intros (keys & Hne & Hl & ->). change (full_path "" keys) with (join "/" keys).
    rewrite segments_join by (done || by eapply lookup_plain). done.
  - intros (Hp & Hne & Hl). by exists (segments path).
Qed.

(** Merging a document into the configuration: whatever value other than
    an object the document holds at some path, the configuration holds there
    afterwards; a path at which the document holds nothing, and above which it
    holds only objects, reads as before; the cache is emptied and every callback
    told of the root. *)
Theorem merge_correct (src : J) (m : Manager) :
  let m' := merge src m in
  (∀ q v, lookup_path q src = Some v → jt_is_object v = false → lookup_path q (config_ m') = Some v) ∧
  (∀ q, lookup_path q src = None →
     (∀ r j, r `prefix_of` q → lookup_path r src = Some j → jt_is_object j = true) →
     lookup_path q (config_ m') = lookup_path q (config_ m)) ∧
  (∀ key_path now, (get key_path now m').2 = lookup_path (segments key_path) (config_ m')) ∧
  notified m' = notified m ++ map (λ id, (id, "/"%string)) (callbacks_ m).
Proof.
  intros m'. assert (Hcfg : config_ m' = merge_docs src (config_ m)).
  { unfold m', merge, clear_cache. by destruct (caching _). }
  rewrite Hcfg. unfold merge_docs. split_and!.
  - intros q v. apply merge_takes. lia.
  - intros q. apply merge_keeps. lia.
  - intros key_path now. destruct (get_spec key_path now m') as [_ ->]. rewrite Hcfg.
    unfold m', merge, clear_cache, notifyChanges, caching. cbn -[Cache.get merge_into].
    destruct (enable_caching (options_ m)) eqn:E; cbn -[Cache.get merge_into]; rewrite E; [|done]. done.
  - unfold m', merge, clear_cache. by destruct (caching _).
Qed.

(** *** Files *)

Section file_laws.
Context {W : Type} `{FOps : FileOps W}.

Lemma placed_one k v p p' : jt_put p k v = Ok p' → placed [k] v p p'.
Proof.
  intros Hput. pose proof (λ k', find_put p k v p' k' Hput) as Hf.
  assert (Ho : jt_is_object p' = true) by (eapply (find_object_of p' k v); by rewrite Hf, String.eqb_refl).
  apply (placed_cons k [] v p p' (default empty_object (jt_find p k)) v); [done|done| |apply placed_nil].
  intros q Hq. destruct (jt_find p k); [done|]. by apply lookup_empty_object.
Qed.

(** A file that loads puts its document under its stem, where it is read
    whatever was cached; one that does not changes nothing. *)
Lemma loadFromFile_spec path (w : W) m :
  let r := deserializeFromFile (serializer_ m) w path None in
  let '(m', ok) := loadFromFile path w m in
  if ok then deser_isValid r = true ∧ placed [path_stem path] (d_data r) (config_ m) (config_ m') ∧
    (∀ key_path now, (get key_path now m').2 = lookup_path (segments key_path) (config_ m'))
  else m' = m ∧ (container (config_ m) → deser_isValid r = false).
Proof.
  unfold loadFromFile. destruct (deser_isValid _) eqn:Ev; cbn [negb]; [|done].
  destruct (jt_put (config_ m) (path_stem path) _) as [root|what] eqn:Ep.
  - split; [done|]. unfold clear_cache. split.
    + apply placed_one in Ep. by destruct (caching _).
    + intros key_path now. match goal with |- (get _ _ ?mm).2 = _ => destruct (get_spec key_path now mm) as [_ ->] end.
      unfold updateOperationMetrics, caching. cbn -[Cache.get].
      destruct (enable_caching (options_ m)) eqn:E; cbn -[Cache.get]; by rewrite E.
  - split; [done|]. intros Hc. destruct (put_ok _ (path_stem path) (d_data (deserializeFromFile (serializer_ m) w path None)) Hc)
      as (p' & Hput & _). congruence.
Qed.

Lemma rsplit_none d s : str_mem d s = false → rsplit d s = None.
Proof.
  induction s as [|c s IH]; [done|]. cbn. intros [Hc Hs]%orb_false_iff. rewrite IH by done. by rewrite Ascii.eqb_sym, Hc.
Qed.

Lemma rsplit_at d a b : str_mem d b = false → rsplit d (a +:+ String d b) = Some (a, b).
Proof.
  intros Hb. induction a as [|c a IH]; cbn; [by rewrite rsplit_none, Ascii.eqb_refl|by rewrite IH].
Qed.

Lemma path_filename_join dir f : str_mem "/"%char f = false → path_filename (path_join dir f) = f.
Proof.
  intros Hf. unfold path_join, path_filename. destruct (rsplit "/"%char dir) as [[a [|c b]]|] eqn:E.
  - assert (dir = a +:+ String "/"%char "") as ->.
    { clear -E. revert a E. induction dir as [|x dir IH]; cbn; intros a; [done|].
      destruct (rsplit "/"%char dir) as [[a' b']|].
      - intros [= <- ->]. cbn. by rewrite <- IH.
      - destruct (Ascii.eqb_spec x "/"%char) as [->|]; [|done]. by intros [= <- ->]. }
    rewrite <- str_app_assoc. cbn. by rewrite rsplit_at.
  - destruct (str_empty dir) eqn:Ed; [by destruct dir|].
    change (dir +:+ "/" +:+ f) with (dir +:+ String "/"%char f). by rewrite rsplit_at.
  - destruct (str_empty dir) eqn:Ed; [by rewrite rsplit_none|].
    change (dir +:+ "/" +:+ f) with (dir +:+ String "/"%char f). by rewrite rsplit_at.
Qed.

(** The file that [saveAll] gives a section, and the section's name back. *)
Lemma section_file dir k : str_empty k = false → str_mem "/"%char k = false →
  path_stem (path_join dir (k +:+ ".json")) = k ∧ path_extension (path_join dir (k +:+ ".json")) = ".json"%string.
Proof.
  intros Hk Hs. unfold path_stem, path_extension, path_dot.
  rewrite path_filename_join by (by rewrite str_mem_app, Hs).
  destruct k as [|c k]; [done|].
  assert (Hdots : (String c k +:+ ".json" =? ".")%string || (String c k +:+ ".json" =? "..")%string = false).
  { apply orb_false_iff. split; apply String.eqb_neq; cbn; intros [= _ Hk']; destruct k as [|a k]; try done.
    cbn in Hk'. injection Hk' as _ Hk'. by destruct k. }
  rewrite Hdots. change (String c k +:+ ".json") with (String c k +:+ String "."%char "json").
  by rewrite rsplit_at.
Qed.

(** Saving and loading a section of the configuration.  When the file
    that [saveAll] gives the section could be written, loading it into any
    manager whose document takes members succeeds, puts the same document under
    the section's name, leaves the other sections alone, and the next read of
    the name gives it, cache or not.  The section must not be null, must have
    text the library can print, and must fit the size limit. *)
Theorem section_roundtrip (dir k : string) (d : J) (w w' : W) (m m2 : Manager) (t0 t1 : string)
  (Hname : str_empty k = false) (Hslash : str_mem "/"%char k = false)
  (Hdump : jt_dump d = Ok t0) (Hindent : jt_dump_indent 4 d = Ok t1)
  (Hfinite : representable d) (Hnull : jt_is_null d = false)
  (Hwritten : save_members dir [(k, d)] (serializer_ m) w = (w', true))
  (Hcfg : serializer_ m2 = serializer_ m)
  (Hsize : (str_size (data (serialize (serializer_ m) d default_options)) ≤ maxFileSize (serializer_ m))%Z)
  (Hc : container (config_ m2)) :
  ∃ m' d', loadFromFile (path_join dir (k +:+ ".json")) w' m2 = (m', true) ∧
    jsim d' d ∧ placed [k] d' (config_ m2) (config_ m') ∧ ∀ now, (get k now m').2 = Some d'.
Proof.
  destruct (section_file dir k Hname Hslash) as [Hstem Hext].
  pose proof (loadFromFile_spec (path_join dir (k +:+ ".json")) w' m2) as Hload. cbn zeta in Hload.
  rewrite Hstem, Hcfg in Hload.
  cbn in Hwritten. destruct (serializeToFile (serializer_ m) w d _ default_options) as [w1 ok1] eqn:Ew.
  injection Hwritten as -> Hok. rewrite andb_true_r in Hok. subst ok1.
  pose proof (saved_reads_back (serializer_ m) w w' d (path_join dir (k +:+ ".json")) default_options t0 t1
    Hdump Hindent Hfinite Hnull Ew Hsize) as Hb.
  destruct Hb as [Hvalid Hsim]; [done|].
  destruct (loadFromFile (path_join dir (k +:+ ".json")) w' m2) as [m' [|]] eqn:El; cycle 1.
  { destruct Hload as [_ Hload]. rewrite Hload in Hvalid by done. done. }
  destruct Hload as (_ & Hpl & Hget). exists m', (d_data (deserializeFromFile (serializer_ m) w' (path_join dir (k +:+ ".json")) None)).
  split_and!; [done|done|done|]. intros now. rewrite Hget.
  pose proof (pl_at _ _ _ _ Hpl []) as Ha. rewrite app_nil_r in Ha.
  pose proof (segments_join [k]) as Hsj. cbn [join] in Hsj. by rewrite Hsj by (done || by constructor).
Qed.
End file_laws.
End manager_laws.

(** ** Examples *)

#[local] Existing Instances demo_json_tree demo_printer demo_files.
#[local] Instance demo_floats : Floats Z := floats_Z.
#[local] Instance demo_order : HashIter string := canonical_iter.
#[local] Instance demo_sort : StdSort := insertion_sort.

Definition demo_manager (options : Options) : @ConfigManager jtree :=
  ConfigManager_new options (ConfigCache_new 100 0) (ConfigValidator_new false true).

#[local] Abbreviation demo_set := (set (λ z, z) (λ _ _, None)).
#[local] Abbreviation demo_set_moved := (set_moved (λ z, z) (λ _ _, None)).
#[local] Abbreviation with_cache := (mkManagerOptions false false true).

Lemma set_correct_witness :
  (get "a/b" 5 (demo_set "a/b" (TBool true) 0 (demo_manager default_manager_options)).1).2 = Some (TBool true).
Proof.
  pose proof (set_correct (λ z, z) (λ _ _, None) "a/b" (TBool true) 0 (demo_manager default_manager_options)) as H.
  destruct (set _ _ "a/b" _ 0 _) as [m' ok]. apply H; [done| |by left|by left].
  split; [done|]. by intros k [= <-].
Defined.

Lemma remove_correct_witness :
  let m := (demo_set "a/b" (TBool true) 0 (demo_manager default_manager_options)).1 in
  (remove "a/b" m).2 = true ∧ (get "a/b" 5 (remove "a/b" m).1).2 = None.
Proof.
  intros m. pose proof (remove_correct "a/b" m) as H. destruct (remove "a/b" m) as [m' ok] eqn:E.
  cbn zeta in H. assert (ok = true) as ->; [apply H; split; [done|by eexists; vm_compute]|]. split; [done|]. by apply H.
Defined.

Lemma listPaths_correct_witness :
  let m := (demo_set "a/b" (TBool true) 0 (demo_manager default_manager_options)).1 in
  listPaths m = ["a"; "a/b"]%string ∧ "a/b"%string ∈ listPaths m.
Proof.
  intros m. split; [by vm_compute|]. apply listPaths_correct; [|split; [done|split; [done|by eexists]]].
  assert (Hleaf : plain_names (TBool true)) by (constructor; intros k c Hk; discriminate Hk).
  assert (Hinner : plain_names (TObj [("b"%string, TBool true)])).
  { constructor. intros k c Hk. cbn in Hk. destruct (String.eqb_spec k "b") as [->|]; [injection Hk as <-; done|done]. }
  constructor. intros k c Hk. change (config_ m) with (TObj [("a"%string, TObj [("b"%string, TBool true)])]) in Hk.
  cbn in Hk. destruct (String.eqb_spec k "a") as [->|]; [injection Hk as <-; done|done].
Defined.

Lemma merge_correct_witness :
  let m := (demo_set "a/b" (TBool true) 0 (demo_manager default_manager_options)).1 in
  let m' := merge (TObj [("a"%string, TObj [("c"%string, TBool false)])]) m in
  lookup_path ["a"; "c"]%string (config_ m') = Some (TBool false) ∧
  lookup_path ["a"; "b"]%string (config_ m') = Some (TBool true).
Proof.
  intros m m'. destruct (merge_correct (TObj [("a"%string, TObj [("c"%string, TBool false)])]) m) as (H1 & H2 & _).
  split; [by apply H1|]. unfold m'. rewrite H2; [by vm_compute|done|].
  intros r j [z Hz] Hj. destruct r as [|k [|l r]]; [by injection Hj as <-| |].
  - injection Hz as <- Hz. by injection Hj as <-.
  - injection Hz as <- <- Hz. cbn in Hj. discriminate Hj.
Defined.

Lemma section_roundtrip_witness :
  let m := (demo_set "net" (TBool true) 0 (demo_manager default_manager_options)).1 in
  let w' := <["cfg/net.json"%string := "true"%string]> (∅ : gmap string string) in
  ∃ m' d', loadFromFile "cfg/net.json" w' (demo_manager default_manager_options) = (m', true) ∧
    jsim d' (TBool true) ∧ ∀ now, (get "net" now m').2 = Some d'.
Proof.
  intros m w'.
  destruct (section_roundtrip (JP := demo_printer) (FOps := demo_files) "cfg" "net" (TBool true) ∅ w' m (demo_manager default_manager_options) "true" "true"
    eq_refl eq_refl eq_refl eq_refl I eq_refl eq_refl eq_refl) as (m' & d' & H1 & H2 & _ & H4);
    [vm_compute; discriminate|by left|]. by exists m', d'.
Defined.

(** With the default options, setting a temporary stores null. *)
Example set_value_stores_null :
  (get "a" 0 (demo_set_moved "a" (TBool true) 0 (demo_manager default_manager_options)).1).2 = Some TNull.
Proof. by vm_compute. Qed.

(** Reading "/a" caches under that spelling, which no later write of "/a" updates. *)
Example stale_spelling :
  let m := (demo_set "/a" (TBool true) 0 (demo_manager with_cache)).1 in
  let m := (get "/a" 1 m).1 in
  let m := (demo_set "/a" (TBool false) 2 m).1 in
  (get "/a" 3 m).2 = Some (TBool true) ∧ lookup_path ["a"%string] (config_ m) = Some (TBool false).
Proof. by vm_compute. Qed.

(** A cached section does not see a later change inside it. *)
Example stale_section :
  let m := (demo_set "a/b" (TBool true) 0 (demo_manager with_cache)).1 in
  let m := (get "a" 1 m).1 in
  let m := (demo_set "a/b" (TBool false) 2 m).1 in
  (get "a" 3 m).2 = Some (TObj [("b"%string, TBool true)]) ∧ (get "a/b" 3 m).2 = Some (TBool false).
Proof. by vm_compute. Qed.

(** A removed section's members are still read from the cache. *)
Example stale_after_remove :
  let m := (demo_set "a/b" (TBool true) 0 (demo_manager with_cache)).1 in
  let m := (remove "a" m).1 in
  (get "a/b" 1 m).2 = Some (TBool true) ∧ config_ m = TObj [].
Proof. by vm_compute. Qed.

(** What the tests of the manager do: a string literal becomes a temporary
    document, so the overload for rvalues is taken and null is read back. *)
Example set_literal_reads_null :
  (get "test/string" 0 (demo_set_moved "test/string" (TStr "hello") 0 (demo_manager default_manager_options)).1).2
  = Some TNull.
Proof. by vm_compute. Qed.

(** A path with a trailing slash is refused, after the value it names was
    replaced by an empty object. *)
Example trailing_slash_destroys :
  let m := (demo_set "a" (TBool true) 0 (demo_manager (mkManagerOptions false false false))).1 in
  let '(m', ok) := demo_set "a/" (TBool false) 1 m in
  ok = false ∧ config_ m' = TObj [("a"%string, TObj [])].
Proof. by vm_compute. Qed.
