(* ===== verification/DeviceManager.v ===== *)
(** * DeviceManager: the registered devices and their connections

    Models src/src/device/manager/manager.hpp, manager.cpp, manager_impl.hpp,
    manager_impl.cpp and types.hpp: devices by type, the primary device of each
    type, metadata, states and health, retries, events with their subscribers
    and queue, statistics.  A device is a shared object of the atom library,
    known by its identity and acting on a world ([AtomDriver]); its name does
    not change.  A method runs as one step; callbacks are recorded in
    [delivered].  Machine floats are [Floats]; the counters are not bounded.
    Left out: the backend methods (they forward to the backend registry), the
    loop around the health check, the futures, which run the modelled bodies. *)

From S2P Require Import Prelude JsonCodec JsonTree.

Create HintDb quiet.

Local Open Scope Z_scope.

(** ** Devices *)

Class AtomDriver (D W : Type) := {
  driver_eq_dec :: EqDecision D;                 (* the same object *)
  getName : D → string;
  drv_isConnected : D → W → result string bool;  (* Throw what *)
  drv_connect : D → string → Z → Z → W → W * result string bool;   (* port, timeout, tries *)
  drv_connect_port : D → string → W → W * result string bool;      (* with the default arguments *)
  drv_disconnect : D → W → W * result string bool;
  drv_destroy : D → W → W * bool;
  drv_initialize : D → W → W * bool;
  drv_scan : D → W → W * list string;
  clock : W → Z;                                 (* system_clock::now *)
  sleep_for : Z → W → W                          (* milliseconds *)
}.

Inductive Strategy := NoRetry | Linear | Exponential.
Record DeviceRetryConfig (F : Type) := mkRetry {
  strategy : Strategy;
  maxRetries : Z;
  initialDelay : Z;
  maxDelay : Z;
  multiplier : F
}.
Arguments mkRetry {F}.
Arguments strategy {F}.
Arguments maxRetries {F}.
Arguments initialDelay {F}.
Arguments maxDelay {F}.
Arguments multiplier {F}.

Inductive DeviceEventType :=
| Connected | Disconnected | StateChanged | PropertyChanged | ErrorEvent | HealthChanged
| OperationStarted | OperationCompleted | OperationFailed.
#[export] Instance DeviceEventType_eq_dec : EqDecision DeviceEventType.
Proof. solve_decision. Defined.

Record DeviceEvent := mkEvent {
  ev_type : DeviceEventType;
  deviceName : string;
  deviceType : string;
  message : string;
  timestamp : Z
}.

Record EventSubscription := mkSubscription {
  sub_id : nat;
  eventTypes : list DeviceEventType              (* empty means all events *)
}.

Record ManagerStatistics := mkStatistics {
  totalConnections : Z;
  successfulConnections : Z;
  failedConnections : Z;
  st_totalOperations : Z;
  successfulOperations : Z;
  st_failedOperations : Z;
  totalRetries : Z
}.
Definition no_statistics : ManagerStatistics := mkStatistics 0 0 0 0 0 0 0.
#[export] Instance ManagerStatistics_eta : Eta ManagerStatistics := λ s,
  mkStatistics (totalConnections s) (successfulConnections s) (failedConnections s) (st_totalOperations s)
    (successfulOperations s) (st_failedOperations s) (totalRetries s).
#[export] Instance totalConnections_upd : Upd totalConnections. Proof. derive_upd. Defined.
#[export] Instance successfulConnections_upd : Upd successfulConnections. Proof. derive_upd. Defined.
#[export] Instance failedConnections_upd : Upd failedConnections. Proof. derive_upd. Defined.
#[export] Instance st_totalOperations_upd : Upd st_totalOperations. Proof. derive_upd. Defined.
#[export] Instance successfulOperations_upd : Upd successfulOperations. Proof. derive_upd. Defined.
#[export] Instance st_failedOperations_upd : Upd st_failedOperations. Proof. derive_upd. Defined.
#[export] Instance totalRetries_upd : Upd totalRetries. Proof. derive_upd. Defined.

Inductive device_exn := DeviceNotFound (name : string) | DeviceTypeNotFound (type : string) | JsonTypeError (what : string).

Section manager.
Context {J F D W : Type} `{JT : JsonTree J F, FO : !Floats F, AD : !AtomDriver D W, HI : !HashIter string}.
(** [1.0f], [0.1f], [2.0f], a float times an int, and
    [static_cast<long long>(delay * std::pow(multiplier, attempt))]. *)
Context (one tenth two : F) (times : F → Z → F) (grown : Z → F → Z → Z).

Record DeviceMetadata := mkMetadata {
  deviceId : string;
  displayName : string;
  driverName : string;
  driverVersion : string;
  connectionString : string;
  priority : Z;
  autoConnect : bool;
  customProperties : J
}.

Record DeviceState := mkState {
  isConnected : bool;
  isInitialized : bool;
  isBusy : bool;
  lastError : string;
  healthScore : F;
  lastActivity : Z;
  consecutiveErrors : Z;
  totalOperations : Z;
  failedOperations : Z
}.
#[export] Instance DeviceState_eta : Eta DeviceState := λ s,
  mkState (isConnected s) (isInitialized s) (isBusy s) (lastError s) (healthScore s) (lastActivity s)
    (consecutiveErrors s) (totalOperations s) (failedOperations s).
#[export] Instance isConnected_upd : Upd isConnected. Proof. derive_upd. Defined.
#[export] Instance isBusy_upd : Upd isBusy. Proof. derive_upd. Defined.
#[export] Instance lastError_upd : Upd lastError. Proof. derive_upd. Defined.
#[export] Instance healthScore_upd : Upd healthScore. Proof. derive_upd. Defined.
#[export] Instance lastActivity_upd : Upd lastActivity. Proof. derive_upd. Defined.
#[export] Instance consecutiveErrors_upd : Upd consecutiveErrors. Proof. derive_upd. Defined.
#[export] Instance totalOperations_upd : Upd totalOperations. Proof. derive_upd. Defined.
#[export] Instance failedOperations_upd : Upd failedOperations. Proof. derive_upd. Defined.

Definition new_state : DeviceState := mkState false false false "" one 0 0 0 0.
Definition default_retry : DeviceRetryConfig F := mkRetry Exponential 3 100 5000 two.

(** *** JSON forms *)

Definition metadata_toJson (m : DeviceMetadata) : J :=
  jt_object [("deviceId", jt_string (deviceId m)); ("displayName", jt_string (displayName m));
    ("driverName", jt_string (driverName m)); ("driverVersion", jt_string (driverVersion m));
    ("connectionString", jt_string (connectionString m)); ("priority", jt_int (priority m));
    ("autoConnect", jt_bool (autoConnect m)); ("customProperties", customProperties m)]%string.

(** [type_error] is thrown for a member of another type. *)
Definition metadata_fromJson (j : J) : result string DeviceMetadata :=
  let text := jt_value jt_get_string "" in
  let* id := text "deviceId" j in
  let* name := text "displayName" j in
  let* driver := text "driverName" j in
  let* version := text "driverVersion" j in
  let* connection := text "connectionString" j in
  let* prio := jt_value jt_get_int 0 "priority" j in
  let* auto := jt_value jt_get_bool false "autoConnect" j in
  Ok (mkMetadata id name driver version connection prio auto
        match jt_find j "customProperties" with Some v => v | None => jt_make ShNull end).

(** ** The manager *)

Record DeviceManager := mkManager {
  devices : gmap string (list D);
  primaryDevices : gmap string (option D);
  deviceMetadata : gmap string DeviceMetadata;
  deviceStates : gmap string DeviceState;
  retryConfigs : gmap string (DeviceRetryConfig F);
  legacyEventCallback : bool;
  eventSubscriptions : list EventSubscription;
  pendingEvents : list DeviceEvent;
  nextCallbackId : nat;
  healthMonitorRunning : bool;
  statistics : ManagerStatistics;
  delivered : list (option nat * DeviceEvent);   (* None is the legacy callback *)
  world : W
}.
#[export] Instance DeviceManager_eta : Eta DeviceManager := λ m,
  mkManager (devices m) (primaryDevices m) (deviceMetadata m) (deviceStates m) (retryConfigs m) (legacyEventCallback m)
    (eventSubscriptions m) (pendingEvents m) (nextCallbackId m) (healthMonitorRunning m) (statistics m) (delivered m) (world m).
#[export] Instance devices_upd : Upd devices. Proof. derive_upd. Defined.
#[export] Instance primaryDevices_upd : Upd primaryDevices. Proof. derive_upd. Defined.
#[export] Instance deviceMetadata_upd : Upd deviceMetadata. Proof. derive_upd. Defined.
#[export] Instance deviceStates_upd : Upd deviceStates. Proof. derive_upd. Defined.
#[export] Instance retryConfigs_upd : Upd retryConfigs. Proof. derive_upd. Defined.
#[export] Instance legacyEventCallback_upd : Upd legacyEventCallback. Proof. derive_upd. Defined.
#[export] Instance eventSubscriptions_upd : Upd eventSubscriptions. Proof. derive_upd. Defined.
#[export] Instance pendingEvents_upd : Upd pendingEvents. Proof. derive_upd. Defined.
#[export] Instance nextCallbackId_upd : Upd nextCallbackId. Proof. derive_upd. Defined.
#[export] Instance healthMonitorRunning_upd : Upd healthMonitorRunning. Proof. derive_upd. Defined.
#[export] Instance statistics_upd : Upd statistics. Proof. derive_upd. Defined.
#[export] Instance delivered_upd : Upd delivered. Proof. derive_upd. Defined.
#[export] Instance world_upd : Upd world. Proof. derive_upd. Defined.

Definition DeviceManager_new (w : W) : DeviceManager :=
  mkManager ∅ ∅ ∅ ∅ ∅ false [] [] 1 false no_statistics [] w.

Definition MAX_PENDING_EVENTS : nat := 1000.

(** *** Helpers *)

(** Every device with its type, in the order of the container. *)
Definition all_devices (m : DeviceManager) : list (string * D) :=
  concat (map (λ kv, map (pair kv.1) kv.2) (iter_map (devices m))).

Definition find_by_name (m : DeviceManager) (name : string) : option (string * D) :=
  head (filter (λ td, getName td.2 = name) (all_devices m)).
Definition findDeviceByName (m : DeviceManager) (name : string) : option D := snd <$> find_by_name m name.
Definition findDeviceType (m : DeviceManager) (name : string) : string :=
  match find_by_name m name with Some (type, _) => type | None => "" end.

Definition wants (ev : DeviceEvent) (sub : EventSubscription) : bool :=
  bool_decide (eventTypes sub = []) || bool_decide (ev_type ev ∈ eventTypes sub).

Definition emitEvent (ev : DeviceEvent) (m : DeviceManager) : DeviceManager :=
  let queue := pendingEvents m ++ [ev] in
  m <| pendingEvents := last_n MAX_PENDING_EVENTS queue |>
    <| delivered ::= (λ l, l ++ (if legacyEventCallback m then [(None, ev)] else [])
         ++ map (λ sub, (Some (sub_id sub), ev)) (filter (λ sub, wants ev sub = true) (eventSubscriptions m))) |>.

(** [deviceStates[name]] creates the entry. *)
Definition update_state (name : string) (f : DeviceState → DeviceState) (m : DeviceManager) : DeviceManager :=
  m <| deviceStates ::= (λ s, <[name := f (default new_state (s !! name))]> s) |>.

Definition updateDeviceState (name : string) (connected : bool) (m : DeviceManager) : DeviceManager :=
  update_state name (λ s, s <| isConnected := connected |> <| lastActivity := clock (world m) |>) m.

Definition getRetryConfig (m : DeviceManager) (name : string) : DeviceRetryConfig F :=
  default default_retry (retryConfigs m !! name).

Definition calculateRetryDelay (c : DeviceRetryConfig F) (attempt : Z) : Z :=
  match strategy c with
  | NoRetry => 0
  | Linear => initialDelay c
  | Exponential => Z.min (grown (initialDelay c) (multiplier c) attempt) (maxDelay c)
  end.

(** *** Registration *)

Definition drop_entries (name : string) (m : DeviceManager) : DeviceManager :=
  m <| deviceStates ::= delete name |> <| deviceMetadata ::= delete name |>.

(** An exception of the driver leaves the method after the device was stored. *)
Definition addDevice (type : string) (d : D) (m : DeviceManager) : DeviceManager * result string unit :=
  let m := m <| devices ::= (λ ds, <[type := default [] (ds !! type) ++ [d]]> ds) |> in
  let m := if bool_decide (primaryDevices m !! type = None) then m <| primaryDevices ::= <[type := Some d]> |> else m in
  let m := m <| deviceStates ::= <[getName d := new_state]> |> in
  match drv_isConnected d (world m) with
  | Throw what => (m, Throw what)
  | Ok connected =>
      let m := updateDeviceState (getName d) connected m in
      (emitEvent (mkEvent StateChanged (getName d) type "Device added" (clock (world m))) m, Ok tt)
  end.

Definition addDeviceWithMetadata (type : string) (d : D) (meta : DeviceMetadata) (m : DeviceManager) : DeviceManager * result string unit :=
  let '(m, r) := addDevice type d m in
  match r with
  | Throw what => (m, Throw what)
  | Ok _ => (m <| deviceMetadata ::= <[getName d := meta]> |>, Ok tt)
  end.

Fixpoint remove_first (p : D → bool) (l : list D) : list D :=
  match l with
  | [] => []
  | x :: rest => if p x then rest else x :: remove_first p rest
  end.

(** The primary of a type after a device left its list. *)
Definition new_primary (l : list D) : option D := head l.

Definition removeDevice (type : string) (d : D) (m : DeviceManager) : DeviceManager :=
  let deviceList := default [] (devices m !! type) in
  let m := m <| devices ::= <[type := deviceList]> |> in
  if bool_decide (d ∈ deviceList) then
    let '(w, _) := drv_destroy d (world m) in
    let rest := remove_first (λ x, bool_decide (x = d)) deviceList in
    let m := m <| world := w |> <| devices ::= <[type := rest]> |> in
    let primary := default None (primaryDevices m !! type) in
    let m := m <| primaryDevices ::= <[type := if bool_decide (primary = Some d) then new_primary rest else primary]> |> in
    drop_entries (getName d) m
  else m.

(** The first type, in the order of the container, that has a device of the name. *)
Definition removeDeviceByName (name : string) (m : DeviceManager) : DeviceManager :=
  match find_by_name m name with
  | None => m
  | Some (type, d) =>
      let deviceList := default [] (devices m !! type) in
      let '(w, _) := drv_destroy d (world m) in
      let rest := remove_first (λ x, bool_decide (getName x = name)) deviceList in
      let m := m <| world := w |> <| devices ::= <[type := rest]> |> in
      let primary := default None (primaryDevices m !! type) in
      let same := match primary with Some p => bool_decide (getName p = name) | None => false end in
      let m := m <| primaryDevices ::= <[type := if same then new_primary rest else primary]> |> in
      drop_entries name m
  end.

Definition destroy_one (m : DeviceManager) (d : D) : DeviceManager :=
  drop_entries (getName d) (m <| world := (drv_destroy d (world m)).1 |>).

Definition removeAllDevicesOfType (type : string) (m : DeviceManager) : DeviceManager :=
  let m := fold_left destroy_one (default [] (devices m !! type)) m in
  m <| devices ::= <[type := []]> |> <| primaryDevices ::= delete type |>.

(** *** Access *)

Definition getDevicesByType (m : DeviceManager) (type : string) : list D := default [] (devices m !! type).
Definition getPrimaryDevice (m : DeviceManager) (type : string) : option D := default None (primaryDevices m !! type).
Definition setPrimaryDevice (type : string) (d : option D) (m : DeviceManager) : DeviceManager :=
  m <| primaryDevices ::= <[type := d]> |>.
Definition getDeviceMetadata (m : DeviceManager) (name : string) : option DeviceMetadata := deviceMetadata m !! name.
Definition updateDeviceMetadata (name : string) (meta : DeviceMetadata) (m : DeviceManager) : DeviceManager :=
  m <| deviceMetadata ::= <[name := meta]> |>.
Definition getDeviceState (m : DeviceManager) (name : string) : DeviceState := default new_state (deviceStates m !! name).
Definition isDeviceValid (m : DeviceManager) (name : string) : bool := bool_decide (is_Some (findDeviceByName m name)).
Definition setDeviceRetryConfig (name : string) (c : DeviceRetryConfig F) (m : DeviceManager) : DeviceManager :=
  m <| retryConfigs ::= <[name := c]> |>.
Definition getDeviceById (m : DeviceManager) (id : string) : option D :=
  match filter (λ nm, deviceId nm.2 = id) (iter_map (deviceMetadata m)) with
  | (name, _) :: _ => findDeviceByName m name
  | [] => None
  end.
Definition findDevicesByDriver (m : DeviceManager) (driver : string) : list D :=
  snd <$> filter (λ td, driverName <$> deviceMetadata m !! getName td.2 = Some driver) (all_devices m).
Definition getDevicesWithState (m : DeviceManager) (type : string) : list (D * DeviceState) :=
  map (λ d, (d, getDeviceState m (getName d))) (getDevicesByType m type).

(** *** Connecting *)

Definition count (f : ManagerStatistics → ManagerStatistics) (m : DeviceManager) : DeviceManager := m <| statistics ::= f |>.

Definition run_driver {A} (f : W → W * A) (m : DeviceManager) : DeviceManager * A :=
  let '(w, a) := f (world m) in (m <| world := w |>, a).

(** The loop of [connectDeviceByName] from attempt [attempts] on, [fuel] of
    which are left. *)
Fixpoint connect_loop (fuel : nat) (attempts : Z) (d : D) (name : string) (timeout : Z) (c : DeviceRetryConfig F)
  (m : DeviceManager) : DeviceManager * bool :=
  match fuel with
  | O => (count (λ s, s <| failedConnections ::= Z.succ |>) m, false)
  | S fuel =>
      let '(m, r) := run_driver (drv_connect d "" timeout 1) m in
      match r with
      | Ok true =>
          let m := updateDeviceState name true (count (λ s, s <| successfulConnections ::= Z.succ |>) m) in
          (emitEvent (mkEvent Connected name (findDeviceType m name) "" (clock (world m))) m, true)
      | _ =>
          let attempts := attempts + 1 in
          let m :=
            if attempts <=? maxRetries c then
              count (λ s, s <| totalRetries ::= Z.succ |>) (m <| world ::= sleep_for (calculateRetryDelay c attempts) |>)
            else m in
          connect_loop fuel attempts d name timeout c m
      end
  end.

Definition connectDeviceByName (name : string) (timeout : Z) (m : DeviceManager) : DeviceManager * result device_exn bool :=
  match findDeviceByName m name with
  | None => (m, Throw (DeviceNotFound name))
  | Some d =>
      let m := count (λ s, s <| totalConnections ::= Z.succ |>) m in
      let c := getRetryConfig m name in
      let '(m, r) := connect_loop (Z.to_nat (maxRetries c + 1)) 0 d name timeout c m in
      (m, Ok r)
  end.

(** An exception of the driver leaves the method. *)
Definition disconnectDeviceByName (name : string) (m : DeviceManager) : DeviceManager * result string bool :=
  match findDeviceByName m name with
  | None => (m, Ok true)
  | Some d =>
      let '(m, r) := run_driver (drv_disconnect d) m in
      match r with
      | Ok true =>
          let m := updateDeviceState name false m in
          (emitEvent (mkEvent Disconnected name (findDeviceType m name) "" (clock (world m))) m, Ok true)
      | r => (m, r)
      end
  end.

(** What the driver returned is not looked at; an exception is logged. *)
Definition switch_device (f : D → W → W * result string bool) (connected : bool) (m : DeviceManager) (d : D) : DeviceManager :=
  let '(m, r) := run_driver (f d) m in
  match r with
  | Ok _ => updateDeviceState (getName d) connected m
  | Throw _ => m
  end.

Definition connectAllDevices (m : DeviceManager) : DeviceManager :=
  fold_left (switch_device (λ d, drv_connect_port d "7624") true) (snd <$> all_devices m) m.
Definition disconnectAllDevices (m : DeviceManager) : DeviceManager :=
  fold_left (switch_device drv_disconnect false) (snd <$> all_devices m) m.

Definition by_type (type : string) (f : DeviceManager → D → DeviceManager) (m : DeviceManager) : result device_exn DeviceManager :=
  match devices m !! type with
  | None => Throw (DeviceTypeNotFound type)
  | Some l => Ok (fold_left f l m)
  end.
Definition connectDevicesByType (type : string) : DeviceManager → result device_exn DeviceManager :=
  by_type type (switch_device (λ d, drv_connect_port d "7624") true).
Definition disconnectDevicesByType (type : string) : DeviceManager → result device_exn DeviceManager :=
  by_type type (switch_device drv_disconnect false).

Definition with_device {A} (name : string) (f : D → W → W * A) (m : DeviceManager) : DeviceManager * result device_exn A :=
  match findDeviceByName m name with
  | None => (m, Throw (DeviceNotFound name))
  | Some d => let '(m, a) := run_driver (f d) m in (m, Ok a)
  end.
Definition initializeDevice (name : string) := with_device name drv_initialize.
Definition destroyDevice (name : string) := with_device name drv_destroy.

Definition scan_one (acc : DeviceManager * list string) (d : D) : DeviceManager * list string :=
  let '(m, ports) := acc in
  let '(m, found) := run_driver (drv_scan d) m in (m, ports ++ found).
Definition scanDevices (type : string) (m : DeviceManager) : DeviceManager * result device_exn (list string) :=
  match devices m !! type with
  | None => (m, Throw (DeviceTypeNotFound type))
  | Some l => let '(m, ports) := fold_left scan_one l (m, []) in (m, Ok ports)
  end.

Definition isDeviceConnected (name : string) (m : DeviceManager) : result device_exn (result string bool) :=
  match findDeviceByName m name with
  | None => Throw (DeviceNotFound name)
  | Some d => Ok (drv_isConnected d (world m))
  end.

(** *** Health *)

Definition resetDevice (name : string) (m : DeviceManager) : result device_exn DeviceManager :=
  match findDeviceByName m name with
  | None => Throw (DeviceNotFound name)
  | Some _ =>
      let m := update_state name (λ s, s <| consecutiveErrors := 0 |> <| healthScore := one |> <| isBusy := false |>
                 <| lastError := ""%string |> <| lastActivity := clock (world m) |>) m in
      Ok (emitEvent (mkEvent StateChanged name (findDeviceType m name) "Device reset" (clock (world m))) m)
  end.

Definition abortDeviceOperation (name : string) (m : DeviceManager) : DeviceManager :=
  match deviceStates m !! name with
  | Some s => m <| deviceStates ::= <[name := s <| isBusy := false |>]> |>
  | None => m
  end.

Definition f_min (a b : F) : F := if f_ltb b a then b else a.
Definition f_max (a b : F) : F := if f_ltb a b then b else a.

Definition updateDeviceHealth (name : string) (operationSuccess : bool) (m : DeviceManager) : DeviceManager :=
  let m := update_state name (λ s,
    let s := s <| totalOperations ::= Z.succ |> <| lastActivity := clock (world m) |> in
    if operationSuccess then s <| consecutiveErrors := 0 |> <| healthScore := f_min one (f_add (healthScore s) tenth) |>
    else
      let errors := consecutiveErrors s + 1 in
      s <| failedOperations ::= Z.succ |> <| consecutiveErrors := errors |>
        <| healthScore := f_max f_zero (f_sub (healthScore s) (times tenth errors)) |>) m in
  count (λ s, let s := s <| st_totalOperations ::= Z.succ |> in
    if operationSuccess then s <| successfulOperations ::= Z.succ |> else s <| st_failedOperations ::= Z.succ |>) m.

Definition getDeviceHealth (m : DeviceManager) (name : string) : F :=
  match deviceStates m !! name with Some s => healthScore s | None => one end.
Definition getUnhealthyDevices (m : DeviceManager) (threshold : F) : list string :=
  fst <$> filter (λ ns, f_ltb (healthScore ns.2) threshold = true) (iter_map (deviceStates m)).

(** One device of the health check. *)
Definition check_device (m : DeviceManager) (td : string * D) : DeviceManager :=
  let '(type, d) := td in
  match drv_isConnected d (world m) with
  | Throw _ => m
  | Ok connected =>
      let name := getName d in
      let m := update_state name id m in
      if Bool.eqb (isConnected (getDeviceState m name)) connected then m
      else
        let m := updateDeviceState name connected m in
        emitEvent (mkEvent (if connected then Connected else Disconnected) name type "" (clock (world m))) m
  end.
Definition check_health (m : DeviceManager) : DeviceManager := fold_left check_device (all_devices m) m.

(** The states after the backends were refreshed; an exception of a driver
    leaves the loop. *)
Fixpoint refresh_loop (l : list (string * D)) (m : DeviceManager) : DeviceManager * result string unit :=
  match l with
  | [] => (m, Ok tt)
  | (_, d) :: rest =>
      match drv_isConnected d (world m) with
      | Throw what => (m, Throw what)
      | Ok connected => refresh_loop rest (updateDeviceState (getName d) connected m)
      end
  end.
Definition refresh_states (m : DeviceManager) : DeviceManager * result string unit := refresh_loop (all_devices m) m.

Definition startHealthMonitor (m : DeviceManager) : DeviceManager := m <| healthMonitorRunning := true |>.
Definition stopHealthMonitor (m : DeviceManager) : DeviceManager := m <| healthMonitorRunning := false |>.

(** *** Events *)

Definition subscribeToEvents (types : list DeviceEventType) (m : DeviceManager) : DeviceManager * nat :=
  let id := nextCallbackId m in
  (m <| nextCallbackId ::= S |> <| eventSubscriptions ::= (λ l, l ++ [mkSubscription id types]) |>, id).
Definition unsubscribeFromEvents (id : nat) (m : DeviceManager) : DeviceManager :=
  m <| eventSubscriptions ::= filter (λ s, sub_id s ≠ id) |>.
Definition setEventCallback (given : bool) (m : DeviceManager) : DeviceManager := m <| legacyEventCallback := given |>.
Definition getPendingEvents (maxEvents : nat) (m : DeviceManager) : DeviceManager * list DeviceEvent :=
  (m <| pendingEvents ::= drop maxEvents |>, take maxEvents (pendingEvents m)).
Definition clearPendingEvents (m : DeviceManager) : DeviceManager := m <| pendingEvents := [] |>.

(** *** Configuration and status *)

Definition export_device (m : DeviceManager) (td : string * D) : J :=
  let name := getName td.2 in
  let meta := match deviceMetadata m !! name with Some meta => [("metadata"%string, metadata_toJson meta)] | None => [] end in
  jt_object ([("type"%string, jt_string td.1); ("name"%string, jt_string name)] ++ meta
    ++ [("isPrimary"%string, jt_bool (bool_decide (primaryDevices m !! td.1 = Some (Some td.2))))]).

Definition exportConfiguration (m : DeviceManager) : J :=
  jt_object [("version", jt_string "1.0"); ("devices", jt_array (map (export_device m) (all_devices m)))]%string.

(** An exception of the library leaves the method, with the entries before it
    imported. *)
Fixpoint import_devices (l : list J) (m : DeviceManager) : DeviceManager * result device_exn unit :=
  match l with
  | [] => (m, Ok tt)
  | dj :: rest =>
      match jt_find dj "name", jt_find dj "metadata" with
      | Some n, Some meta =>
          match jt_get_string n with
          | None => (m, Throw (JsonTypeError (jt_what 302 n)))
          | Some name =>
              match metadata_fromJson meta with
              | Throw what => (m, Throw (JsonTypeError what))
              | Ok meta => import_devices rest (updateDeviceMetadata name meta m)
              end
          end
      | _, _ => import_devices rest m
      end
  end.
Definition importConfiguration (config : J) (m : DeviceManager) : DeviceManager * result device_exn unit :=
  match jt_find config "devices" with
  | Some ds => match jt_shape ds with ShArray l => import_devices l m | _ => (m, Ok tt) end
  | None => (m, Ok tt)
  end.

Fixpoint count_connected (l : list (string * D)) (w : W) : result string Z :=
  match l with
  | [] => Ok 0
  | (_, d) :: rest =>
      let* connected := drv_isConnected d w in
      let* n := count_connected rest w in
      Ok (if connected : bool then n + 1 else n)
  end.
Definition getStatus (m : DeviceManager) : result string J :=
  let* connected := count_connected (all_devices m) (world m) in
  Ok (jt_object [("totalDevices", jt_int (Z.of_nat (length (all_devices m)))); ("connectedDevices", jt_int connected);
    ("deviceTypes", jt_int (Z.of_nat (size (devices m)))); ("healthMonitorRunning", jt_bool (healthMonitorRunning m))]%string).

Record DeviceOperationResult := mkOperationResult { op_success : bool; errorMessage : string; retryCount : Z }.

(** The loop of [executeWithRetry]: the operation, its delays and the last
    error. *)
Fixpoint execute_loop (fuel : nat) (attempt : Z) (operation : D → W → W * result string bool) (d : D)
  (c : DeviceRetryConfig F) (r : DeviceOperationResult) (m : DeviceManager) : DeviceManager * DeviceOperationResult :=
  match fuel with
  | O => (m, r)
  | S fuel =>
      let '(m, outcome) := run_driver (operation d) m in
      match outcome with
      | Ok true => (m, mkOperationResult true (errorMessage r) attempt)
      | _ =>
          let r := match outcome with Throw what => mkOperationResult false what (retryCount r) | _ => r end in
          let attempt := attempt + 1 in
          let m :=
            if attempt <=? maxRetries c then
              (count (λ s, s <| totalRetries ::= Z.succ |>) m) <| world ::= sleep_for (calculateRetryDelay c attempt) |>
            else m in
          execute_loop fuel attempt operation d c r m
      end
  end.
Definition executeWithRetry (name : string) (operation : D → W → W * result string bool) (m : DeviceManager)
  : DeviceManager * DeviceOperationResult :=
  match findDeviceByName m name with
  | None => (m, mkOperationResult false "Device not found" 0)
  | Some d =>
      let c := getRetryConfig m name in
      execute_loop (Z.to_nat (maxRetries c + 1)) 0 operation d c (mkOperationResult false "" 0) m
  end.

Definition resetStatistics (m : DeviceManager) : DeviceManager := m <| statistics := no_statistics |>.

(** ** Connecting: the attempts *)

(** The world before attempt [i] (from 0), when the attempts before it failed. *)
Fixpoint world_before (d : D) (timeout : Z) (c : DeviceRetryConfig F) (w : W) (i : nat) : W :=
  match i with
  | O => w
  | S i => sleep_for (calculateRetryDelay c (Z.of_nat (S i))) (drv_connect d "" timeout 1 (world_before d timeout c w i)).1
  end.
Definition world_after (d : D) (timeout : Z) (c : DeviceRetryConfig F) (w : W) (i : nat) : W :=
  (drv_connect d "" timeout 1 (world_before d timeout c w i)).1.
Definition succeeds (d : D) (timeout : Z) (c : DeviceRetryConfig F) (w : W) (i : nat) : bool :=
  match (drv_connect d "" timeout 1 (world_before d timeout c w i)).2 with Ok b => b | Throw _ => false end.

(** What [connectDeviceByName] does, by its first successful attempt among the
    [maxRetries + 1] it may make. *)
Definition connect_spec (name : string) (timeout : Z) (m : DeviceManager) : DeviceManager * result device_exn bool :=
  match findDeviceByName m name with
  | None => (m, Throw (DeviceNotFound name))
  | Some d =>
      let c := getRetryConfig m name in
      let n := Z.to_nat (maxRetries c + 1) in
      let counted := (statistics m) <| totalConnections ::= Z.succ |> in
      match head (filter (λ i, succeeds d timeout c (world m) i = true) (seq 0 n)) with
      | Some i =>
          let m := m <| world := world_after d timeout c (world m) i |>
                     <| statistics := counted <| totalRetries ::= Z.add (Z.of_nat i) |> <| successfulConnections ::= Z.succ |> |> in
          let m := updateDeviceState name true m in
          (emitEvent (mkEvent Connected name (findDeviceType m name) "" (clock (world m))) m, Ok true)
      | None =>
          (m <| world := if decide (n = O) then world m else world_after d timeout c (world m) (pred n) |>
             <| statistics := counted <| totalRetries ::= Z.add (Z.of_nat (pred n)) |> <| failedConnections ::= Z.succ |> |>,
           Ok false)
      end
  end.

Lemma statistics_ext s s' :
  totalConnections s = totalConnections s' → successfulConnections s = successfulConnections s' →
  failedConnections s = failedConnections s' → st_totalOperations s = st_totalOperations s' →
  successfulOperations s = successfulOperations s' → st_failedOperations s = st_failedOperations s' →
  totalRetries s = totalRetries s' → s = s'.
Proof. destruct s, s'; cbn; congruence. Qed.

(** What the loop leaves of [m0] before attempt [i]. *)
Definition attempting (m0 : DeviceManager) (w : W) (i : nat) : DeviceManager :=
  m0 <| world := w |> <| statistics ::= λ s, s <| totalRetries ::= Z.add (Z.of_nat i) |> |>.

Lemma attempting_succ m0 w i (f : W → W) :
  count (λ s, s <| totalRetries ::= Z.succ |>) ((attempting m0 w i) <| world ::= f |>) = attempting m0 (f w) (S i).
Proof.
  unfold attempting, count. destruct m0 as [? ? ? ? ? ? ? ? ? ? [? ? ? ? ? ? t] ? ?].
  assert (Z.succ (Z.of_nat i + t) = Z.of_nat (S i) + t) as E by lia.
  refine (f_equal (λ t, mkManager _ _ _ _ _ _ _ _ _ _ (mkStatistics _ _ _ _ _ _ t) _ _) E).
Qed.

Lemma attempting_zero m0 : attempting m0 (world m0) 0 = m0.
Proof. by destruct m0 as [? ? ? ? ? ? ? ? ? ? [] ? ?]. Qed.

(** The state and the result of a successful attempt. *)
Definition connected_at (m : DeviceManager) (name : string) : DeviceManager * bool :=
  let m := updateDeviceState name true (count (λ s, s <| successfulConnections ::= Z.succ |>) m) in
  (emitEvent (mkEvent Connected name (findDeviceType m name) "" (clock (world m))) m, true).

Lemma connect_loop_step d name timeout c m0 k i :
  connect_loop (S k) (Z.of_nat i) d name timeout c (attempting m0 (world_before d timeout c (world m0) i) i) =
    if succeeds d timeout c (world m0) i then connected_at (attempting m0 (world_after d timeout c (world m0) i) i) name
    else connect_loop k (Z.of_nat (S i)) d name timeout c
           (if Z.of_nat (S i) <=? maxRetries c then attempting m0 (world_before d timeout c (world m0) (S i)) (S i)
            else attempting m0 (world_after d timeout c (world m0) i) i).
Proof.
  cbn [connect_loop]. unfold run_driver, succeeds. cbn [world_before]. unfold world_after.
  change (world (attempting m0 ?w i)) with w.
  destruct (drv_connect d "" timeout 1 (world_before d timeout c (world m0) i)) as [w' r]. cbn [fst snd].
  change ((attempting m0 ?w i) <| world := w' |>) with (attempting m0 w' i).
  replace (Z.of_nat i + 1) with (Z.of_nat (S i)) by lia.
  rewrite attempting_succ. by destruct r as [[]|].
Qed.

Lemma connect_loop_spec d name timeout c m0 k i :
  (S k + i)%nat = Z.to_nat (maxRetries c + 1) →
  connect_loop (S k) (Z.of_nat i) d name timeout c (attempting m0 (world_before d timeout c (world m0) i) i) =
    match head (filter (λ i, succeeds d timeout c (world m0) i = true) (seq i (S k))) with
    | Some j => connected_at (attempting m0 (world_after d timeout c (world m0) j) j) name
    | None => (count (λ s, s <| failedConnections ::= Z.succ |>)
                 (attempting m0 (world_after d timeout c (world m0) (k + i)) (k + i)), false)
    end.
Proof.
  revert i. induction k as [|k IH]; intros i Hn; rewrite connect_loop_step; cbn [seq]; rewrite filter_cons;
    destruct (succeeds d timeout c (world m0) i) eqn:Hs; try done.
  - replace (Z.of_nat (S i) <=? maxRetries c) with false by (symmetry; apply Z.leb_gt; lia). done.
  - replace (Z.of_nat (S i) <=? maxRetries c) with true by (symmetry; apply Z.leb_le; lia).
    rewrite decide_False by congruence. rewrite IH by lia. by replace (k + S i)%nat with (S k + i)%nat by lia.
Qed.

(** [C28] Connecting a device by name makes its attempts in order, at most
    [maxRetries + 1] and none when that is negative, waits the configured delay
    between two of them, and stops at the first that succeeds: then the device
    is recorded as connected and the event reaches the queue and the
    subscribers; otherwise only the counters change.  An unknown name is
    reported. *)
Theorem connectDeviceByName_correct name timeout m :
  connectDeviceByName name timeout m = connect_spec name timeout m.
Proof.
  unfold connectDeviceByName, connect_spec. destruct (findDeviceByName m name) as [d|]; [|done].
  set (m1 := count _ m). cbn zeta. change (getRetryConfig m1 name) with (getRetryConfig m name).
  set (c := getRetryConfig m name). destruct (Z.to_nat (maxRetries c + 1)) as [|k] eqn:En.
  { cbn. by destruct m as [? ? ? ? ? ? ? ? ? ? [] ? ?]. }
  pose proof (connect_loop_spec d name timeout c m1 k 0) as Hl.
  cbn [world_before] in Hl. rewrite attempting_zero in Hl. change (Z.of_nat 0) with 0 in Hl. rewrite Hl by lia.
  change (world m1) with (world m). rewrite Nat.add_0_r.
  by destruct (head (filter (λ i, succeeds d timeout c (world m) i = true) (seq 0 (S k)))).
Qed.
(** ** The invariant of the manager *)

Inductive manager_op :=
| OpAdd (type : string) (d : D) (meta : option DeviceMetadata)
| OpRemove (type : string) (d : D)
| OpRemoveByName (name : string)
| OpRemoveAll (type : string)
| OpSetPrimary (type : string) (d : option D)
| OpUpdateMetadata (name : string) (meta : DeviceMetadata)
| OpSetRetry (name : string) (c : DeviceRetryConfig F)
| OpConnect (name : string) (timeout : Z)
| OpDisconnect (name : string)
| OpConnectAll
| OpDisconnectAll
| OpConnectType (type : string)
| OpDisconnectType (type : string)
| OpInitialize (name : string)
| OpDestroy (name : string)
| OpScan (type : string)
| OpReset (name : string)
| OpAbort (name : string)
| OpUpdateHealth (name : string) (ok : bool)
| OpCheckHealth
| OpRefresh
| OpMonitor (on : bool)
| OpSubscribe (types : list DeviceEventType)
| OpUnsubscribe (id : nat)
| OpSetCallback (given : bool)
| OpDrain (maxEvents : nat)
| OpClearEvents
| OpImport (config : J)
| OpExecute (name : string) (operation : D → W → W * result string bool)
| OpResetStatistics.

Definition after {E} (m : DeviceManager) (r : result E DeviceManager) : DeviceManager :=
  match r with Ok m' => m' | Throw _ => m end.

Definition apply_op (op : manager_op) (m : DeviceManager) : DeviceManager :=
  match op with
  | OpAdd t d None => (addDevice t d m).1
  | OpAdd t d (Some meta) => (addDeviceWithMetadata t d meta m).1
  | OpRemove t d => removeDevice t d m
  | OpRemoveByName n => removeDeviceByName n m
  | OpRemoveAll t => removeAllDevicesOfType t m
  | OpSetPrimary t d => setPrimaryDevice t d m
  | OpUpdateMetadata n meta => updateDeviceMetadata n meta m
  | OpSetRetry n c => setDeviceRetryConfig n c m
  | OpConnect n timeout => (connectDeviceByName n timeout m).1
  | OpDisconnect n => (disconnectDeviceByName n m).1
  | OpConnectAll => connectAllDevices m
  | OpDisconnectAll => disconnectAllDevices m
  | OpConnectType t => after m (connectDevicesByType t m)
  | OpDisconnectType t => after m (disconnectDevicesByType t m)
  | OpInitialize n => (initializeDevice n m).1
  | OpDestroy n => (destroyDevice n m).1
  | OpScan t => (scanDevices t m).1
  | OpReset n => after m (resetDevice n m)
  | OpAbort n => abortDeviceOperation n m
  | OpUpdateHealth n ok => updateDeviceHealth n ok m
  | OpCheckHealth => check_health m
  | OpRefresh => (refresh_states m).1
  | OpMonitor on => if on then startHealthMonitor m else stopHealthMonitor m
  | OpSubscribe types => (subscribeToEvents types m).1
  | OpUnsubscribe id => unsubscribeFromEvents id m
  | OpSetCallback given => setEventCallback given m
  | OpDrain n => (getPendingEvents n m).1
  | OpClearEvents => clearPendingEvents m
  | OpImport config => (importConfiguration config m).1
  | OpExecute n operation => (executeWithRetry n operation m).1
  | OpResetStatistics => resetStatistics m
  end.

Definition registered (m : DeviceManager) (type : string) (d : D) : Prop := d ∈ getDevicesByType m type.

(** What a caller must see to: a new device has a name of its own. *)
Definition allowed (op : manager_op) (m : DeviceManager) : Prop :=
  match op with
  | OpAdd _ d _ => ∀ t d', registered m t d' → getName d' ≠ getName d
  | _ => True
  end.

(** The devices given to [setPrimaryDevice], which does not look at the
    registry. *)
Definition choice (op : manager_op) : list (string * D) :=
  match op with OpSetPrimary t (Some d) => [(t, d)] | _ => [] end.

Section invariant.
Variable chosen : list (string * D).

Record Inv (m : DeviceManager) : Prop := {
  inv_names t : NoDup (getName <$> getDevicesByType m t);
  inv_types t t' d d' : registered m t d → registered m t' d' → getName d = getName d' → t = t';
  inv_primary t d : primaryDevices m !! t = Some (Some d) → registered m t d ∨ (t, d) ∈ chosen;
  inv_states t d : registered m t d → is_Some (deviceStates m !! getName d);
  inv_pending : (length (pendingEvents m) <= MAX_PENDING_EVENTS)%nat;
  inv_ids : NoDup (sub_id <$> eventSubscriptions m);
  inv_next : Forall (λ s, (sub_id s < nextCallbackId m)%nat) (eventSubscriptions m);
  inv_connections : successfulConnections (statistics m) + failedConnections (statistics m) = totalConnections (statistics m);
  inv_operations : successfulOperations (statistics m) + st_failedOperations (statistics m) = st_totalOperations (statistics m)
}.

(** The operations that leave the registry alone. *)
Record quiet (m m' : DeviceManager) : Prop := {
  q_devices : devices m' = devices m;
  q_primary : primaryDevices m' = primaryDevices m;
  q_states n : is_Some (deviceStates m !! n) → is_Some (deviceStates m' !! n);
  q_pending : (length (pendingEvents m) <= MAX_PENDING_EVENTS → length (pendingEvents m') <= MAX_PENDING_EVENTS)%nat;
  q_subs : eventSubscriptions m' = eventSubscriptions m;
  q_next : nextCallbackId m' = nextCallbackId m;
  q_connections : successfulConnections (statistics m') + failedConnections (statistics m') - totalConnections (statistics m')
    = successfulConnections (statistics m) + failedConnections (statistics m) - totalConnections (statistics m);
  q_operations : successfulOperations (statistics m') + st_failedOperations (statistics m') - st_totalOperations (statistics m')
    = successfulOperations (statistics m) + st_failedOperations (statistics m) - st_totalOperations (statistics m)
}.

#[export] Instance quiet_preorder : PreOrder quiet.
Proof.
  split; [by split|]. intros m1 m2 m3 [] []. split; try congruence; auto.
Qed.

Lemma quiet_inv m m' : quiet m m' → Inv m → Inv m'.
Proof.
  intros [Hd Hp Hs Hq Hsub Hn Hc Ho] [].
  assert (Hg : ∀ t, getDevicesByType m' t = getDevicesByType m t) by (intros t; unfold getDevicesByType; by rewrite Hd).
  unfold registered in *. split; intros *; unfold registered; rewrite ?Hg, ?Hp, ?Hsub, ?Hn; eauto; lia.
Qed.

Lemma quiet_fold {A} (f : DeviceManager → A → DeviceManager) l m : (∀ m a, quiet m (f m a)) → quiet m (fold_left f l m).
Proof.
  intros Hf. revert m. induction l as [|a l IH]; intros m; cbn; [done|]. etrans; [apply Hf|apply IH].
Qed.

Lemma quiet_world f m : quiet m (m <| world ::= f |>).
Proof. by split. Qed.
Lemma quiet_metadata f m : quiet m (m <| deviceMetadata ::= f |>).
Proof. by split. Qed.

Lemma quiet_update_state n f m : quiet m (update_state n f m).
Proof.
  split; try done. intros n' Hn'. cbn. destruct (decide (n = n')) as [->|]; [rewrite lookup_insert_eq; eauto|by rewrite lookup_insert_ne].
Qed.
Lemma quiet_updateDeviceState n b m : quiet m (updateDeviceState n b m).
Proof. apply quiet_update_state. Qed.

Lemma quiet_emit ev m : quiet m (emitEvent ev m).
Proof. split; try done. intros _. cbn. rewrite length_last_n. lia. Qed.

Lemma quiet_retries m : quiet m (count (λ s, s <| totalRetries ::= Z.succ |>) m).
Proof. by split. Qed.

Hint Resolve quiet_world quiet_metadata quiet_update_state quiet_updateDeviceState quiet_emit quiet_retries : quiet.
Definition one_failed (m : DeviceManager) : DeviceManager := count (λ s, s <| failedConnections ::= Z.succ |>) m.

Lemma quiet_one_failed m m' : quiet m m' → quiet (one_failed m) (one_failed m').
Proof. intros []; split; try done; cbn; lia. Qed.

Lemma quiet_connect_loop k i d n timeout c m : quiet (one_failed m) (connect_loop k i d n timeout c m).1.
Proof.
  revert i m. induction k as [|k IH]; intros i m; [done|]. cbn [connect_loop]. unfold run_driver.
  destruct (drv_connect d "" timeout 1 (world m)) as [w r].
  assert (Hstep : quiet (one_failed m) (one_failed (m <| world := w |>))) by (apply quiet_one_failed, quiet_world).
  assert (Hretry : ∀ i, quiet (one_failed m) (connect_loop k (i + 1) d n timeout c
    (if i + 1 <=? maxRetries c then count (λ s, s <| totalRetries ::= Z.succ |>)
       ((m <| world := w |>) <| world ::= sleep_for (calculateRetryDelay c (i + 1)) |>) else m <| world := w |>)).1).
  { intros i'. etrans; [exact Hstep|]. etrans; [|apply IH]. apply quiet_one_failed. destruct (i' + 1 <=? _); [|done].
    etrans; [apply quiet_world|apply quiet_retries]. }
  destruct r as [[]|what]; [|apply Hretry..]. cbn [fst].
  etrans; [|apply quiet_emit]. etrans; [|apply quiet_updateDeviceState]. split; try done; cbn; lia.
Qed.

Lemma quiet_connect n timeout m : quiet m (connectDeviceByName n timeout m).1.
Proof.
  unfold connectDeviceByName. destruct (findDeviceByName m n) as [d|]; [|done].
  set (m1 := count _ m). cbn zeta. destruct (connect_loop _ _ _ _ _ _ m1) as [m' r] eqn:E. cbn [fst].
  pose proof (quiet_connect_loop (Z.to_nat (maxRetries (getRetryConfig m1 n) + 1)) 0 d n timeout (getRetryConfig m1 n) m1) as Hl.
  rewrite E in Hl. etrans; [|exact Hl]. split; try done; cbn; lia.
Qed.

Lemma quiet_run {A} (f : W → W * A) m : quiet m (run_driver f m).1.
Proof. unfold run_driver. destruct (f (world m)) as [w a]. apply quiet_world. Qed.

Lemma quiet_disconnect n m : quiet m (disconnectDeviceByName n m).1.
Proof.
  unfold disconnectDeviceByName. destruct (findDeviceByName m n) as [d|]; [|done].
  pose proof (quiet_run (drv_disconnect d) m) as Hr. destruct (run_driver _ m) as [m' [[]|]]; try done. cbn [fst].
  etrans; [exact Hr|]. etrans; [apply quiet_updateDeviceState|apply quiet_emit].
Qed.

Lemma quiet_switch f b m d : quiet m (switch_device f b m d).
Proof.
  unfold switch_device. pose proof (quiet_run (f d) m) as Hr. destruct (run_driver _ m) as [m' []]; [|done].
  etrans; [exact Hr|apply quiet_updateDeviceState].
Qed.

Lemma quiet_by_type t f m : (∀ m d, quiet m (f m d)) → quiet m (after m (by_type t f m)).
Proof. intros Hf. unfold by_type. destruct (devices m !! t); [|done]. by apply quiet_fold. Qed.

Lemma quiet_with_device {A} n (f : D → W → W * A) m : quiet m (with_device n f m).1.
Proof.
  unfold with_device. destruct (findDeviceByName m n) as [d|]; [|done].
  pose proof (quiet_run (f d) m) as Hr. by destruct (run_driver _ m).
Qed.

Lemma quiet_scan t m : quiet m (scanDevices t m).1.
Proof.
  unfold scanDevices. destruct (devices m !! t) as [l|]; [|done].
  enough (Hf : ∀ m ports, quiet m (fold_left scan_one l (m, ports)).1).
  { specialize (Hf m []). by destruct (fold_left _ _ _). }
  induction l as [|d l IH]; intros m' ports; cbn; [done|].
  pose proof (quiet_run (drv_scan d) m') as Hr. destruct (run_driver _ m') as [m2 found]. etrans; [exact Hr|apply IH].
Qed.

Lemma quiet_check m td : quiet m (check_device m td).
Proof.
  unfold check_device. destruct td as [t d]. destruct (drv_isConnected d (world m)) as [b|]; [|done].
  etrans; [apply (quiet_update_state (getName d) id)|]. cbn zeta. destruct (Bool.eqb _ _); [done|].
  etrans; [apply quiet_updateDeviceState|apply quiet_emit].
Qed.

Lemma quiet_refresh l m : quiet m (refresh_loop l m).1.
Proof.
  revert m. induction l as [|[t d] l IH]; intros m; cbn; [done|].
  destruct (drv_isConnected d (world m)); [|done]. etrans; [apply quiet_updateDeviceState|apply IH].
Qed.

Lemma quiet_reset n m : quiet m (after m (resetDevice n m)).
Proof.
  unfold resetDevice. destruct (findDeviceByName m n); [|done]. cbn [after].
  etrans; [apply quiet_update_state|apply quiet_emit].
Qed.

Lemma quiet_abort n m : quiet m (abortDeviceOperation n m).
Proof.
  unfold abortDeviceOperation. destruct (deviceStates m !! n) as [s|] eqn:E; [|done].
  split; try done. intros n' Hn'. cbn. destruct (decide (n = n')) as [->|]; [rewrite lookup_insert_eq; eauto|by rewrite lookup_insert_ne].
Qed.

Lemma quiet_count_operation ok m :
  quiet m (count (λ s, let s := s <| st_totalOperations ::= Z.succ |> in
    if ok : bool then s <| successfulOperations ::= Z.succ |> else s <| st_failedOperations ::= Z.succ |>) m).
Proof. destruct ok; split; try done; cbn; lia. Qed.

Lemma quiet_health n ok m : quiet m (updateDeviceHealth n ok m).
Proof. etrans; [|apply quiet_count_operation]. apply quiet_update_state. Qed.

Lemma quiet_import l m : quiet m (import_devices l m).1.
Proof.
  revert m. induction l as [|dj l IH]; intros m; cbn; [done|].
  destruct (jt_find dj "name") as [n|]; [|apply IH]. destruct (jt_find dj "metadata") as [meta|]; [|apply IH].
  destruct (jt_get_string n); [|done]. destruct (metadata_fromJson meta); [|done].
  etrans; [apply quiet_metadata|apply IH].
Qed.

Lemma quiet_execute_loop k i operation d c r m : quiet m (execute_loop k i operation d c r m).1.
Proof.
  revert i r m. induction k as [|k IH]; intros i r m; [done|]. cbn [execute_loop].
  pose proof (quiet_run (operation d) m) as Hr. destruct (run_driver _ m) as [m' outcome]. cbn [fst] in Hr.
  assert (Hretry : ∀ r, quiet m (execute_loop k (i + 1) operation d c r (if i + 1 <=? maxRetries c then
    (count (λ s, s <| totalRetries ::= Z.succ |>) m') <| world ::= sleep_for (calculateRetryDelay c (i + 1)) |> else m')).1).
  { intros r'. etrans; [exact Hr|]. etrans; [|apply IH]. destruct (i + 1 <=? _); [|done].
    etrans; [apply quiet_retries|apply quiet_world]. }
  destruct outcome as [[]|]; [exact Hr|apply Hretry..].
Qed.

Lemma quiet_execute n operation m : quiet m (executeWithRetry n operation m).1.
Proof. unfold executeWithRetry. destruct (findDeviceByName m n); [apply quiet_execute_loop|done]. Qed.
(** *** Adding and removing *)

Lemma getDevicesByType_insert m t l t' :
  getDevicesByType (m <| devices ::= <[t := l]> |>) t' = if decide (t = t') then l else getDevicesByType m t'.
Proof.
  unfold getDevicesByType. cbn. case_decide as E; [subst; by rewrite lookup_insert_eq|by rewrite lookup_insert_ne].
Qed.

Lemma remove_first_incl p l x : x ∈ remove_first p l → x ∈ l.
Proof. induction l as [|y l IH]; cbn; [done|]. destruct (p y); set_solver. Qed.

Lemma remove_first_sublist p l : sublist (remove_first p l) l.
Proof. induction l as [|y l IH]; cbn; [done|]. destruct (p y); by constructor. Qed.

Lemma remove_first_keeps p l x : x ∈ l → p x = false → x ∈ remove_first p l.
Proof. induction l as [|y l IH]; cbn; [set_solver|]. destruct (p y) eqn:E; [intros [->|]%elem_of_cons; congruence|set_solver]. Qed.

(** The device that left had the only name of its kind. *)
Lemma remove_first_names p l d :
  NoDup (getName <$> l) → d ∈ l → (∀ x, x ∈ l → p x = true ↔ getName x = getName d) →
  ∀ x, x ∈ remove_first p l → getName x ≠ getName d.
Proof.
  induction l as [|y l IH]; cbn; [set_solver|]. intros [Hy Hnd]%NoDup_cons Hd Hp x Hx Heq.
  destruct (p y) eqn:E.
  - apply Hp in E; [|by left]. apply Hy. rewrite E, <- Heq. apply list_elem_of_fmap. eauto.
  - apply elem_of_cons in Hx as [->|Hx].
    + assert (p y = true) by (apply Hp; [by left|done]). congruence.
    + revert Hx Heq. apply IH; [done| |set_solver]. apply elem_of_cons in Hd as [->|]; [|done].
      assert (p y = true) by (apply Hp; [by left|done]). congruence.
Qed.

(** The registry after the devices of type [t] became [rest], its primary
    [primary], and the entries of the devices that left were dropped. *)
Lemma Inv_shrink m m' t rest (gone : string → Prop) :
  Inv m → (∀ t', getDevicesByType m' t' = if decide (t = t') then rest else getDevicesByType m t') →
  (∀ d, primaryDevices m' !! t = Some (Some d) → d ∈ rest ∨ (t, d) ∈ chosen) →
  (∀ t', t ≠ t' → primaryDevices m' !! t' = primaryDevices m !! t') →
  sublist rest (getDevicesByType m t) →
  (∀ n, ¬ gone n → deviceStates m' !! n = deviceStates m !! n) →
  (∀ n, gone n → n ∈ getName <$> getDevicesByType m t ∧ n ∉ getName <$> rest) →
  eventSubscriptions m' = eventSubscriptions m → nextCallbackId m' = nextCallbackId m →
  pendingEvents m' = pendingEvents m → statistics m' = statistics m → Inv m'.
Proof.
  intros [] Hdev Hprim Hother Hsub Hstates Hgone He Hn Hq Hst.
  assert (Hreg : ∀ t' d, registered m' t' d → registered m t' d).
  { intros t' d. unfold registered. rewrite Hdev. case_decide; [subst|done]. intros Hd. by eapply sublist_subseteq in Hd; [|exact Hsub]. }
  split; rewrite ?He, ?Hn, ?Hq, ?Hst; try done.
  - intros t'. rewrite Hdev. case_decide; [subst|done]. eapply sublist_NoDup; [apply inv_names0|].
    by apply fmap_sublist.
  - intros t1 t2 d1 d2 H1%Hreg H2%Hreg. eauto.
  - intros t' d Hp. unfold registered. rewrite Hdev. case_decide; [subst; by apply Hprim|].
    rewrite Hother in Hp by done. by apply inv_primary0.
  - intros t' d Hd. rewrite Hstates; [by eauto|]. intros [Hin Hout]%Hgone.
    apply list_elem_of_fmap in Hin as (d0 & Hname & Hd0).
    assert (t' = t) as -> by (eapply inv_types0; [by apply Hreg|exact Hd0|done]).
    apply Hout. apply list_elem_of_fmap. exists d. split; [done|]. unfold registered in Hd. rewrite Hdev in Hd. by rewrite decide_True in Hd.
Qed.
Lemma find_by_name_registered m name t d : find_by_name m name = Some (t, d) → registered m t d ∧ getName d = name.
Proof.
  unfold find_by_name. intros Hf. assert (Hin : (t, d) ∈ filter (λ td, getName td.2 = name) (all_devices m)).
  { destruct (filter _ _) as [|x l]; [done|]. cbn in Hf. simplify_eq. by left. }
  apply list_elem_of_filter in Hin as [Hname Hin]. split; [|done].
  apply elem_of_concat_map in Hin as ([t' l] & Hl%elem_of_iter_map & Hd). cbn in Hd.
  apply list_elem_of_fmap in Hd as (d' & [= -> ->] & Hd'). unfold registered, getDevicesByType. by rewrite Hl.
Qed.

Lemma all_devices_registered m t d : (t, d) ∈ all_devices m ↔ registered m t d.
Proof.
  unfold all_devices, registered, getDevicesByType. rewrite elem_of_concat_map. split.
  - intros ([t' l] & Hl%elem_of_iter_map & Hd). cbn in Hd. apply list_elem_of_fmap in Hd as (d' & [= -> ->] & Hd').
    by rewrite Hl.
  - destruct (devices m !! t) as [l|] eqn:E; cbn; [|by intros ?%not_elem_of_nil]. intros Hd.
    exists (t, l). split; [by apply elem_of_iter_map|]. apply list_elem_of_fmap. eauto.
Qed.

Lemma NoDup_names_inj {A B} (f : A → B) l x y : NoDup (f <$> l) → x ∈ l → y ∈ l → f x = f y → x = y.
Proof.
  induction l as [|z l IH]; cbn; [set_solver|]. intros [Hz Hnd]%NoDup_cons.
  intros [->|Hx]%elem_of_cons [->|Hy]%elem_of_cons Heq; [done| | |by apply IH];
    destruct Hz; [rewrite Heq|rewrite <- Heq]; apply list_elem_of_fmap; eauto.
Qed.

(** A registered device is found by its name, whatever the order of the types. *)
Lemma find_registered m t d : Inv m → registered m t d → find_by_name m (getName d) = Some (t, d).
Proof.
  intros HI' Hd. unfold find_by_name.
  assert (Hin : (t, d) ∈ filter (λ td, getName td.2 = getName d) (all_devices m)).
  { apply list_elem_of_filter. split; [done|]. by apply all_devices_registered. }
  destruct (filter _ _) as [|[t' d'] l] eqn:E; [by apply not_elem_of_nil in Hin|]. cbn.
  assert (H' : (t', d') ∈ filter (λ td, getName td.2 = getName d) (all_devices m)) by (rewrite E; by left).
  apply list_elem_of_filter in H' as [Hname H'%all_devices_registered]. cbn in Hname.
  assert (t' = t) as -> by by eapply inv_types.
  f_equal. f_equal. eapply NoDup_names_inj; [by apply (inv_names _ HI' t)|done..].
Qed.

Lemma Inv_remove m t d p :
  Inv m → registered m t d → (∀ x, registered m t x → p x = true ↔ getName x = getName d) →
  ∀ primary, (∀ x, primary = Some x → x ∈ remove_first p (getDevicesByType m t) ∨ (t, x) ∈ chosen) → ∀ w,
  Inv (drop_entries (getName d) (m <| world := w |> <| devices ::= <[t := remove_first p (getDevicesByType m t)]> |>
        <| primaryDevices ::= <[t := primary]> |>)).
Proof.
  intros HI' Hd Hp primary Hprim w. eapply (Inv_shrink m _ t (remove_first p (getDevicesByType m t)) (λ n, n = getName d)); try done.
  - intros t'. exact (getDevicesByType_insert _ _ _ _).
  - intros x. cbn. rewrite lookup_insert_eq. intros [= ->]. by apply Hprim.
  - intros t' Hne. cbn. by rewrite lookup_insert_ne.
  - apply remove_first_sublist.
  - intros n Hn. cbn. by rewrite lookup_delete_ne.
  - intros n ->. split; [apply list_elem_of_fmap; eauto|]. intros (x & Hname & Hx)%list_elem_of_fmap.
    symmetry in Hname. revert Hname. eapply remove_first_names; [by apply inv_names|exact Hd|exact Hp|exact Hx].
Qed.

Lemma Inv_insert_same m t : Inv m → Inv (m <| devices ::= <[t := getDevicesByType m t]> |>).
Proof.
  intros []. assert (Hg : ∀ t', getDevicesByType (m <| devices ::= <[t := getDevicesByType m t]> |>) t' = getDevicesByType m t').
  { intros t'. rewrite getDevicesByType_insert. by case_decide; subst. }
  split; unfold registered in *; intros *; rewrite ?Hg; eauto.
Qed.

Lemma head_elem {A} (l : list A) x : head l = Some x → x ∈ l.
Proof. destruct l; cbn; [done|intros [= ->]; by left]. Qed.

Lemma Inv_removeDevice m t d : Inv m → Inv (removeDevice t d m).
Proof.
  intros HI'. unfold removeDevice. fold (getDevicesByType m t). case_bool_decide as Hd; [|by apply Inv_insert_same].
  destruct (drv_destroy d (world _)) as [w b]. cbn zeta.
  set (p := λ x, bool_decide (x = d)).
  assert (Hp : ∀ x, registered m t x → p x = true ↔ getName x = getName d).
  { intros x Hx. unfold p. rewrite bool_decide_eq_true. split; [by intros ->|]. eapply NoDup_names_inj; [by apply inv_names|done..]. }
  set (primary := default None (primaryDevices m !! t)).
  assert (Hprim : ∀ x, (if bool_decide (primary = Some d) then new_primary (remove_first p (getDevicesByType m t)) else primary) = Some x →
    x ∈ remove_first p (getDevicesByType m t) ∨ (t, x) ∈ chosen).
  { intros x. case_bool_decide as Hpd; [intros Hx; left; by apply head_elem|]. intros Hx.
    destruct (inv_primary _ HI' t x) as [Hr|Hr]; [|left|by right].
    - unfold primary in Hx. destruct (primaryDevices m !! t); cbn in Hx; congruence.
    - apply remove_first_keeps; [exact Hr|]. unfold p. apply bool_decide_eq_false. congruence. }
  pose proof (Inv_remove m t d p HI' Hd Hp _ Hprim w) as Hi.
  replace (drop_entries _ _) with (drop_entries (getName d) (m <| world := w |> <| devices ::= <[t := remove_first p (getDevicesByType m t)]> |>
        <| primaryDevices ::= <[t := if bool_decide (primary = Some d) then new_primary (remove_first p (getDevicesByType m t)) else primary]> |>)); [done|].
  unfold drop_entries. cbn. unfold upd, devices_upd; cbn. by rewrite insert_insert_eq.
Qed.

Lemma Inv_removeByName m n : Inv m → Inv (removeDeviceByName n m).
Proof.
  intros HI'. unfold removeDeviceByName. destruct (find_by_name m n) as [[t d]|] eqn:E; [|done].
  apply find_by_name_registered in E as [Hd <-]. fold (getDevicesByType m t).
  destruct (drv_destroy d (world m)) as [w b]. cbn zeta. cbn [primaryDevices].
  set (p := λ x, bool_decide (getName x = getName d)).
  assert (Hp : ∀ x, registered m t x → p x = true ↔ getName x = getName d).
  { intros x Hx. unfold p. by rewrite bool_decide_eq_true. }
  apply (Inv_remove m t d p HI' Hd Hp).
  intros x. cbn. destruct (default None (primaryDevices m !! t)) as [q|] eqn:Eq; [|done].
  case_bool_decide as Hpd; [intros Hx; left; by apply head_elem|]. intros [= ->].
  destruct (inv_primary _ HI' t x) as [Hr|Hr]; [|left|by right].
  - destruct (primaryDevices m !! t); cbn in Eq; congruence.
  - apply remove_first_keeps; [exact Hr|]. unfold p. by apply bool_decide_eq_false.
Qed.
Lemma destroy_fold l m :
  let m' := fold_left destroy_one l m in
  (∀ n, deviceStates m' !! n = if decide (n ∈ getName <$> l) then None else deviceStates m !! n) ∧
  devices m' = devices m ∧ primaryDevices m' = primaryDevices m ∧ eventSubscriptions m' = eventSubscriptions m ∧
  nextCallbackId m' = nextCallbackId m ∧ pendingEvents m' = pendingEvents m ∧ statistics m' = statistics m.
Proof.
  revert m. induction l as [|d l IH]; intros m; cbn.
  { by split_and!. }
  destruct (IH (destroy_one m d)) as (Hs & -> & -> & -> & -> & -> & ->). split_and!; try done.
  intros n. rewrite Hs. cbn. destruct (decide (n = getName d)) as [->|Hne].
  - rewrite lookup_delete_eq. rewrite (decide_True (P := getName d ∈ getName d :: (getName <$> l))) by (by left). by case_decide.
  - rewrite lookup_delete_ne by done. rewrite (decide_ext (n ∈ getName d :: (getName <$> l)) (n ∈ getName <$> l)); [done|]. rewrite elem_of_cons. tauto.
Qed.

Lemma Inv_removeAll m t : Inv m → Inv (removeAllDevicesOfType t m).
Proof.
  intros HI'. unfold removeAllDevicesOfType. fold (getDevicesByType m t). cbn zeta.
  destruct (destroy_fold (getDevicesByType m t) m) as (Hs & Hd & Hp & He & Hn & Hq & Hst).
  set (m1 := fold_left destroy_one _ m) in *.
  eapply (Inv_shrink m _ t [] (λ n, n ∈ getName <$> getDevicesByType m t)); try done.
  - intros t'. unfold getDevicesByType. cbn. rewrite Hd. case_decide; [subst; by rewrite lookup_insert_eq|by rewrite lookup_insert_ne].
  - intros d. cbn. by rewrite lookup_delete_eq.
  - intros t' Hne. cbn. by rewrite lookup_delete_ne, Hp.
  - apply sublist_nil_l.
  - intros n Hn'. cbn. rewrite Hs. by rewrite decide_False.
  - intros n Hn'. split; [done|]. apply not_elem_of_nil.
Qed.

Lemma Inv_addDevice m t d : Inv m → allowed (OpAdd t d None) m → Inv (addDevice t d m).1.
Proof.
  clear tenth two times grown.
  intros HI' Hfresh. cbn in Hfresh. unfold addDevice. fold (getDevicesByType m t).
  set (m1 := m <| devices ::= _ |>). set (m2 := if bool_decide _ then _ else m1).
  set (m3 := m2 <| deviceStates ::= _ |>).
  enough (HI3 : Inv m3).
  { cbn zeta. destruct (drv_isConnected d (world m3)); [|done]. cbn [fst].
    eapply quiet_inv; [|exact HI3]. etrans; [apply quiet_updateDeviceState|apply quiet_emit]. }
  assert (Hdev : ∀ t', getDevicesByType m3 t' = if decide (t = t') then getDevicesByType m t ++ [d] else getDevicesByType m t').
  { intros t'. transitivity (getDevicesByType m1 t'); [by unfold m3, m2; destruct (bool_decide _)|]. exact (getDevicesByType_insert m t _ t'). }
  assert (Hreg : ∀ t' x, registered m3 t' x → registered m t' x ∨ (t' = t ∧ x = d)).
  { intros t' x. unfold registered. rewrite Hdev. case_decide; [subst; rewrite elem_of_app, list_elem_of_singleton; tauto|tauto]. }
  assert (Hmono : ∀ t' x, registered m t' x → registered m3 t' x).
  { intros t' x. unfold registered. rewrite Hdev. case_decide; [subst; rewrite elem_of_app; tauto|done]. }
  assert (Hnew : registered m3 t d).
  { unfold registered. rewrite Hdev, decide_True by done. apply elem_of_app. right. by left. }
  destruct HI'. split; try (by unfold m3, m2; destruct (bool_decide _)).
  - intros t'. rewrite Hdev. case_decide; [subst|done]. rewrite fmap_app. apply NoDup_app. split_and!; [done| |apply NoDup_singleton].
    intros n (x & -> & Hx)%list_elem_of_fmap Hn. cbn in Hn. apply list_elem_of_singleton in Hn. by apply (Hfresh t' x).
  - intros t1 t2 d1 d2 [H1|[-> ->]]%Hreg [H2|[-> ->]]%Hreg Heq; try done; [by eapply inv_types0|..].
    + by destruct (Hfresh _ _ H1).
    + by destruct (Hfresh _ _ H2).
  - intros t' x Hp. unfold m3, m2 in Hp. cbn in Hp. case_bool_decide as Hnone; cbn in Hp; [|apply inv_primary0 in Hp as [?|?]; auto].
    destruct (decide (t = t')) as [->|Hne]; [rewrite lookup_insert_eq in Hp; simplify_eq; by left|].
    rewrite lookup_insert_ne in Hp by done. apply inv_primary0 in Hp as [?|?]; auto.
  - intros t' x [Hx|[-> ->]]%Hreg.
    + assert (is_Some (deviceStates m !! getName x)) as Hs by eauto. unfold m3, m2; destruct (bool_decide _); cbn;
        (destruct (decide (getName d = getName x)) as [<-|]; [rewrite lookup_insert_eq; eauto|by rewrite lookup_insert_ne]).
    + unfold m3, m2; destruct (bool_decide _); cbn; rewrite lookup_insert_eq; eauto.
Qed.

Lemma Inv_setPrimary m t d : Inv m → choice (OpSetPrimary t d) ⊆ chosen → Inv (setPrimaryDevice t d m).
Proof.
  intros [] Hd. split; try done. intros t' x. cbn. destruct (decide (t = t')) as [->|Hne].
  - rewrite lookup_insert_eq. intros [= ->]. right. apply Hd. by left.
  - rewrite lookup_insert_ne by done. apply inv_primary0.
Qed.

Lemma Inv_subscribe m types : Inv m → Inv (subscribeToEvents types m).1.
Proof.
  intros []. split; try done; cbn.
  - rewrite fmap_app. apply NoDup_app. split_and!; [done| |apply NoDup_singleton].
    intros i (s & -> & Hs)%list_elem_of_fmap Hi. cbn in Hi. apply list_elem_of_singleton in Hi.
    rewrite Forall_forall in inv_next0. specialize (inv_next0 s Hs). lia.
  - apply Forall_app. split; [|by repeat constructor]. eapply Forall_impl; [exact inv_next0|]. cbn. lia.
Qed.

Lemma Inv_unsubscribe m i : Inv m → Inv (unsubscribeFromEvents i m).
Proof.
  intros []. split; try done; cbn.
  - eapply sublist_NoDup; [exact inv_ids0|]. apply fmap_sublist, sublist_filter.
  - apply Forall_forall. intros s [_ Hs]%list_elem_of_filter. rewrite Forall_forall in inv_next0. by apply inv_next0.
Qed.

Lemma Inv_queue m q : (length q <= length (pendingEvents m))%nat → Inv m → Inv (m <| pendingEvents := q |>).
Proof. intros Hq []. split; try done. cbn. lia. Qed.

Lemma Inv_apply op m : Inv m → allowed op m → choice op ⊆ chosen → Inv (apply_op op m).
Proof.
  intros HI' Ha Hch. destruct op; cbn [apply_op].
  - pose proof (Inv_addDevice m type d HI' Ha) as Hi. destruct meta as [meta|]; [|done]. unfold addDeviceWithMetadata.
    destruct (addDevice type d m) as [m' []]; [|done]. eapply quiet_inv; [apply quiet_metadata|exact Hi].
  - by apply Inv_removeDevice.
  - by apply Inv_removeByName.
  - by apply Inv_removeAll.
  - by apply Inv_setPrimary.
  - eapply quiet_inv; [apply quiet_metadata|done].
  - eapply quiet_inv; [|done]. by split.
  - eapply quiet_inv; [apply quiet_connect|done].
  - eapply quiet_inv; [apply quiet_disconnect|done].
  - eapply quiet_inv; [|done]. apply quiet_fold. intros; apply quiet_switch.
  - eapply quiet_inv; [|done]. apply quiet_fold. intros; apply quiet_switch.
  - eapply quiet_inv; [|done]. apply quiet_by_type. intros; apply quiet_switch.
  - eapply quiet_inv; [|done]. apply quiet_by_type. intros; apply quiet_switch.
  - eapply quiet_inv; [apply quiet_with_device|done].
  - eapply quiet_inv; [apply quiet_with_device|done].
  - eapply quiet_inv; [apply quiet_scan|done].
  - eapply quiet_inv; [apply quiet_reset|done].
  - eapply quiet_inv; [apply quiet_abort|done].
  - eapply quiet_inv; [apply quiet_health|done].
  - eapply quiet_inv; [|done]. apply quiet_fold. intros; apply quiet_check.
  - eapply quiet_inv; [apply quiet_refresh|done].
  - eapply quiet_inv; [|done]. destruct on; by split.
  - by apply Inv_subscribe.
  - by apply Inv_unsubscribe.
  - eapply quiet_inv; [|done]. by split.
  - apply Inv_queue; [rewrite length_drop; lia|done].
  - apply Inv_queue; [cbn; lia|done].
  - eapply quiet_inv; [|done]. unfold importConfiguration. destruct (jt_find _ _) as [ds|]; [|done].
    destruct (jt_shape ds); try done. apply quiet_import.
  - eapply quiet_inv; [apply quiet_execute|done].
  - destruct HI'. by split.
Qed.

Lemma Inv_new w : Inv (DeviceManager_new w).
Proof.
  split; try (intros; constructor); cbn; try done; try (intros *; unfold registered, getDevicesByType; cbn; rewrite lookup_empty);
    try (by intros ?%not_elem_of_nil); try constructor.
  unfold MAX_PENDING_EVENTS. lia.
Qed.

Fixpoint run_ops (ops : list manager_op) (m : DeviceManager) : DeviceManager :=
  match ops with
  | [] => m
  | op :: ops => run_ops ops (apply_op op m)
  end.
Fixpoint all_allowed (ops : list manager_op) (m : DeviceManager) : Prop :=
  match ops with
  | [] => True
  | op :: ops => allowed op m ∧ all_allowed ops (apply_op op m)
  end.

Lemma Inv_run ops m : Inv m → all_allowed ops m → concat (map choice ops) ⊆ chosen → Inv (run_ops ops m).
Proof.
  revert m. induction ops as [|op ops IH]; intros m HI'; cbn; [done|]. intros [Ha Hall] Hch.
  apply IH; [apply Inv_apply; try done|done|]; set_solver.
Qed.
End invariant.

(** [C29] After any sequence of operations on a new manager in which devices
    are added under names of their own: names are unique, a device is found by
    its name with its type in whatever order the types are visited, the primary
    device of a type is one of its devices or one that was given to
    [setPrimaryDevice] for the type, which does not check it, every device has a
    state, at most 1000 events wait, subscription ids are distinct and unused
    ones are larger, and every connection and operation counted ended as one
    success or one failure. *)
Theorem manager_invariant w ops :
  all_allowed ops (DeviceManager_new w) →
  let m := run_ops ops (DeviceManager_new w) in
  Inv (concat (map choice ops)) m ∧
  (∀ t d, getPrimaryDevice m t = Some d → registered m t d ∨ OpSetPrimary t (Some d) ∈ ops) ∧
  (∀ t d, registered m t d → findDeviceByName m (getName d) = Some d ∧ findDeviceType m (getName d) = t) ∧
  (∀ n, isDeviceValid m n = true ↔ ∃ t d, registered m t d ∧ getName d = n).
Proof.
  intros Hall m. assert (HI' : Inv (concat (map choice ops)) m) by (apply Inv_run; [apply Inv_new|done|done]).
  split_and!; [done| | |].
  - intros t d Hp. destruct (inv_primary _ _ HI' t d) as [?|Hin]; [|by left|right].
    + unfold getPrimaryDevice in Hp. destruct (primaryDevices m !! t); cbn in Hp; congruence.
    + apply elem_of_concat_map in Hin as (op & Hop & Hin). destruct op as [| | | |t' [d'|]| | | | | | | | | | | | | | | | | | | | | | | | |];
        cbn in Hin; try by apply not_elem_of_nil in Hin. by apply list_elem_of_singleton in Hin as [= -> ->].
  - intros t d Hd. unfold findDeviceByName, findDeviceType. by rewrite (find_registered _ m t d HI').
  - intros n. unfold isDeviceValid, findDeviceByName. rewrite bool_decide_eq_true. split.
    + intros [d Hd]. destruct (find_by_name m n) as [[t d']|] eqn:E; [|done].
      apply find_by_name_registered in E. eauto.
    + intros (t & d & Hd & <-). rewrite (find_registered _ m t d HI') by done. cbn. eauto.
Qed.
(** ** Events *)

(** Who is called for an event, in order. *)
Definition deliveries (m : DeviceManager) (ev : DeviceEvent) : list (option nat * DeviceEvent) :=
  (if legacyEventCallback m then [(None, ev)] else [])
    ++ map (λ sub, (Some (sub_id sub), ev)) (filter (λ sub, wants ev sub = true) (eventSubscriptions m)).

(** After events were emitted one after the other, the last 1000 wait in the
    queue and everyone who listens has been told of each, in order; draining
    takes the oldest. *)
Theorem events_correct evs m :
  (length (pendingEvents m) <= MAX_PENDING_EVENTS)%nat →
  let m' := fold_left (λ m ev, emitEvent ev m) evs m in
  let queue := pendingEvents m ++ evs in
  pendingEvents m' = last_n MAX_PENDING_EVENTS queue ∧
  delivered m' = delivered m ++ concat (map (deliveries m) evs) ∧
  (∀ n, (getPendingEvents n m').2 ++ pendingEvents (getPendingEvents n m').1 = pendingEvents m').
Proof.
  intros Hlen m' queue. split_and!; [| |intros n; apply take_drop].
  - unfold m', queue. clear m' queue. revert m Hlen. induction evs as [|ev evs IH]; intros m Hlen; cbn.
    { by rewrite app_nil_r, last_n_all. }
    rewrite IH by (apply (q_pending _ _ (quiet_emit ev m)); done).
    change (pendingEvents (emitEvent ev m)) with (last_n MAX_PENDING_EVENTS (pendingEvents m ++ [ev])).
    by rewrite last_n_app, <- app_assoc.
  - unfold m'. clear m' queue Hlen. revert m. induction evs as [|ev evs IH]; intros m; cbn; [by rewrite app_nil_r|].
    rewrite IH. cbn. fold (deliveries m ev). by rewrite <- app_assoc.
Qed.

(** ** The configuration round trip *)

Lemma metadata_roundtrip meta : INT_MIN ≤ priority meta ≤ INT_MAX → metadata_fromJson (metadata_toJson meta) = Ok meta.
Proof.
  intros Hp. unfold metadata_fromJson, metadata_toJson. rewrite !value_object, find_object. cbn.
  rewrite !get_string_law, get_bool_law, get_int_law by done. by destruct meta.
Qed.

Lemma import_exported m l m' :
  (∀ n meta, deviceMetadata m !! n = Some meta → INT_MIN ≤ priority meta ≤ INT_MAX) →
  ∃ meta', import_devices (map (export_device m) l) m' = (m' <| deviceMetadata := meta' |>, Ok tt) ∧
    ∀ n, meta' !! n = if decide (n ∈ getName <$> l.*2) then match deviceMetadata m !! n with Some x => Some x | None => deviceMetadata m' !! n end
                      else deviceMetadata m' !! n.
Proof using JT AD.
  clear one tenth two times grown.
  intros Hrange. revert m'. induction l as [|[t d] l IH]; intros m'.
  { exists (deviceMetadata m'). split; [by destruct m'|]. done. }
  cbn [map import_devices]. unfold export_device at 1 2. rewrite !find_object. cbn [fst snd]. destruct (deviceMetadata m !! getName d) as [meta|] eqn:E; cbn.
  - rewrite get_string_law, metadata_roundtrip by eauto.
    destruct (IH (updateDeviceMetadata (getName d) meta m')) as (meta' & -> & Hm). exists meta'. split; [done|].
    intros n. rewrite Hm. cbn. destruct (decide (n = getName d)) as [->|Hne].
    + rewrite (decide_True (P := getName d ∈ getName d :: _)) by (by left). rewrite E, lookup_insert_eq. by case_decide.
    + rewrite lookup_insert_ne by done. rewrite (decide_ext (n ∈ getName d :: (getName <$> l.*2)) (n ∈ getName <$> l.*2)); [done|]. rewrite elem_of_cons. tauto.
  - destruct (IH m') as (meta' & -> & Hm). exists meta'. split; [done|]. intros n. rewrite Hm.
    destruct (decide (n = getName d)) as [->|Hne].
    + rewrite (decide_True (P := getName d ∈ getName d :: _)) by (by left). rewrite E. by case_decide.
    + rewrite (decide_ext (n ∈ getName d :: (getName <$> l.*2)) (n ∈ getName <$> l.*2)); [done|]. rewrite elem_of_cons. tauto.
Qed.

(** A configuration exported by one manager and imported by another gives
    the second the metadata of every registered device of the first, and
    changes nothing else. *)
Theorem configuration_roundtrip m m' :
  (∀ n meta, deviceMetadata m !! n = Some meta → INT_MIN ≤ priority meta ≤ INT_MAX) →
  ∃ meta', importConfiguration (exportConfiguration m) m' = (m' <| deviceMetadata := meta' |>, Ok tt) ∧
    (∀ t d meta, registered m t d → deviceMetadata m !! getName d = Some meta → meta' !! getName d = Some meta) ∧
    (∀ n, (∀ t d, registered m t d → getName d = n → deviceMetadata m !! n = None) → meta' !! n = deviceMetadata m' !! n).
Proof using JT AD HI.
  intros Hrange. unfold importConfiguration, exportConfiguration. rewrite find_object. cbn [assoc String.eqb Ascii.eqb Bool.eqb].
  rewrite shape_array. destruct (import_exported m (all_devices m) m' Hrange) as (meta' & -> & Hm). exists meta'. split_and!; [done| |].
  - intros t d meta Hd Hmeta. rewrite Hm, decide_True, Hmeta; [done|]. apply list_elem_of_fmap. exists d. split; [done|].
    apply list_elem_of_fmap. exists (t, d). split; [done|]. by apply all_devices_registered.
  - intros n Hn. rewrite Hm. case_decide as Hin; [|done]. apply list_elem_of_fmap in Hin as (d & -> & Hin).
    apply list_elem_of_fmap in Hin as ([t d'] & -> & Hin%all_devices_registered). by rewrite (Hn t d').
Qed.
End manager.

(** ** Examples *)

(** Devices are their names; a connection attempt answers as scripted, and
    each attempt and each wait is logged. *)
Record demo_world := mkDemo {
  answers : list (result string bool);
  waits : list Z;
  attempts : nat
}.

Definition demo_attempt (w : demo_world) : demo_world * result string bool :=
  (mkDemo (tl (answers w)) (waits w) (S (attempts w)), default (Ok false) (head (answers w))).

#[local] Instance demo_driver : AtomDriver string demo_world := {|
  getName d := d;
  drv_isConnected _ _ := Ok false;
  drv_connect _ _ _ _ := demo_attempt;
  drv_connect_port _ _ := demo_attempt;
  drv_disconnect _ w := (w, Ok true);
  drv_destroy _ w := (w, true);
  drv_initialize _ w := (w, true);
  drv_scan _ w := (w, []);
  clock w := Z.of_nat (attempts w);
  sleep_for ms w := mkDemo (answers w) (waits w ++ [ms]) (attempts w)
|}.
#[local] Instance demo_tree : JsonTree jtree Z := jtree_json (λ _, ""%string) (λ _, None).
#[local] Instance demo_floats : Floats Z := floats_Z.
#[local] Instance demo_iter : HashIter string := canonical_iter.

Abbreviation demo_manager := (@DeviceManager jtree Z string demo_world).
Abbreviation demo_op := (@manager_op jtree Z string demo_world).
Definition demo_new (l : list (result string bool)) : demo_manager := DeviceManager_new (mkDemo l [] 0).
Definition demo_grown (d m n : Z) : Z := d * m ^ n.
Definition demo_apply (ops : list demo_op) (m : demo_manager) : demo_manager := run_ops 10 1 2 Z.mul demo_grown ops m.


(** Two failures, then success: the third attempt of four. *)
Example connects_at_third :
  let m := demo_apply [OpAdd "Camera" "cam" None; OpConnect "cam" 5000] (demo_new [Ok false; Throw "timeout"; Ok true])%string in
  waits (world m) = [200; 400] ∧ attempts (world m) = 3%nat ∧ isConnected (getDeviceState 10 m "cam") = true ∧
  map ev_type (pendingEvents m) = [StateChanged; Connected] ∧ totalRetries (statistics m) = 2.
Proof. vm_compute. done. Qed.

(** The strategy [None], documented as no retry, retries without a delay. *)
Example no_retry_retries :
  let m := demo_apply [OpAdd "Camera" "cam" None; OpSetRetry "cam" (mkRetry NoRetry 3 100 5000 2); OpConnect "cam" 5000] (demo_new [])%string in
  attempts (world m) = 4%nat ∧ waits (world m) = [0; 0; 0].
Proof. vm_compute. done. Qed.

(** After the only device of a type was removed, the next one does not become
    its primary device. *)
Example primary_lost :
  let m := demo_apply [OpAdd "Camera" "a" None; OpRemove "Camera" "a"; OpAdd "Camera" "b" None] (demo_new [])%string in
  getDevicesByType m "Camera" = ["b"%string] ∧ getPrimaryDevice m "Camera" = None.
Proof. vm_compute. done. Qed.

(** Connecting all devices records a device as connected although its driver
    answered that it is not. *)
Example connect_all_ignores_answer :
  let m := demo_apply [OpAdd "Camera" "cam" None; OpConnectAll] (demo_new [Ok false])%string in
  isConnected (getDeviceState 10 m "cam") = true.
Proof. vm_compute. done. Qed.

(** Without a name of its own, a device loses its state when its namesake is
    removed. *)
Example shared_name_loses_state :
  let m := demo_apply [OpAdd "Camera" "x" None; OpAdd "Mount" "x" None; OpRemove "Camera" "x"] (demo_new [])%string in
  registered m "Mount" "x" ∧ deviceStates m !! "x"%string = None.
Proof. split; [|reflexivity]. apply list_elem_of_singleton. reflexivity. Qed.

(** The result of a failed operation never says how often it was retried. *)
Example failed_retry_count :
  let m := demo_apply [OpAdd "Camera" "cam" None] (demo_new [])%string in
  let '(m', r) := executeWithRetry 2 demo_grown "cam" (λ _ w, demo_attempt w) m in
  op_success r = false ∧ retryCount r = 0 ∧ totalRetries (statistics m') = 3.
Proof. vm_compute. done. Qed.

Lemma manager_invariant_witness :
  let ops := [OpAdd "Camera" "a" None; OpAdd "Camera" "b" None; OpConnect "b" 10; OpSetPrimary "Camera" (Some "b"); OpRemove "Camera" "b"]%string in
  let m := demo_apply ops (demo_new [Ok true]) in
  findDeviceByName m "a" = Some "a"%string ∧ getPrimaryDevice m "Camera" = Some "a"%string.
Proof.
  intros ops m. split; [|vm_compute; reflexivity].
  refine (proj1 (proj1 (proj2 (proj2 (manager_invariant (J := jtree) 10 1 2 Z.mul demo_grown (mkDemo [Ok true] [] 0) ops _))) "Camera"%string "a"%string _)).
  - unfold ops. cbn [all_allowed]. split_and!; try exact I.
    + cbn [allowed]; intros t d Hd; apply all_devices_registered in Hd. by vm_compute in Hd; apply not_elem_of_nil in Hd.
    + cbn [allowed]; intros t d Hd; apply all_devices_registered in Hd. vm_compute in Hd. apply list_elem_of_singleton in Hd as [= -> ->]. done.
  - vm_compute. left.
Defined.

(** [setPrimaryDevice] takes a device that was never added, and removing a name
    nobody has passes over in silence. *)
Example primary_not_registered :
  let m := demo_apply [OpAdd "Camera" "a" None; OpSetPrimary "Camera" (Some "b"); OpRemoveByName "c"]%string (demo_new []) in
  getPrimaryDevice m "Camera" = Some "b"%string ∧ getDevicesByType m "Camera" = ["a"%string].
Proof. split; reflexivity. Qed.

Lemma configuration_roundtrip_witness :
  let meta := mkMetadata "id" "Cam" "INDI" "1" "" 5 false TNull in
  let m := demo_apply [OpAdd "Camera" "cam" (Some meta)] (demo_new [])%string in
  ∃ meta', importConfiguration (exportConfiguration m) (demo_new []) = ((demo_new []) <| deviceMetadata := meta' |>, Ok tt) ∧
    meta' !! "cam"%string = Some meta.
Proof.
  intros meta m. destruct (configuration_roundtrip (JT := demo_tree) (AD := demo_driver) m (demo_new [])) as (meta' & He & Hm & _).
  - intros n x Hx. unfold m in Hx. cbn in Hx. apply lookup_insert_Some in Hx as [[_ <-]|[_ Hx]]; [cbn; unfold INT_MIN, INT_MAX; lia|by rewrite lookup_empty in Hx].
  - exists meta'. split; [exact He|]. apply (Hm "Camera"%string "cam"%string meta); [by left|reflexivity].
Defined.
