(* ===== verification/DeviceBackends.v ===== *)
(** * DeviceBackends: discovering devices and making drivers for them

    Models src/src/device/service/device_types.hpp (the device types and their
    names), device_backend.hpp (discovered devices, the interface of a backend,
    the class [DeviceBackend]), backend_registry.hpp (the registered backends),
    device_factory.hpp (the creators of drivers), and the methods of
    src/src/device/manager/manager.cpp that use them.  The backends themselves
    (INDI, ASCOM) talk to servers: they are instances of the class and act on
    the world; they do not throw here.  Of the creators the code registers by
    default only their keys matter, so a registry of creators is an argument. *)

From S2P Require Import Prelude JsonCodec JsonTree DeviceManager.

Local Open Scope Z_scope.

(** ** Device types *)

Inductive DeviceType :=
| Unknown | Camera | Telescope | Focuser | FilterWheel | Dome | Rotator | Weather | GPS | Guider
| AuxiliaryDevice | SafetyMonitor | Switch | CoverCalibrator | ObservingConditions | Video.
#[export] Instance DeviceType_eq_dec : EqDecision DeviceType.
Proof. solve_decision. Defined.

Definition deviceTypeToString (t : DeviceType) : string :=
  match t with
  | Camera => "Camera"
  | Telescope => "Telescope"
  | Focuser => "Focuser"
  | FilterWheel => "FilterWheel"
  | Dome => "Dome"
  | Rotator => "Rotator"
  | Weather => "Weather"
  | GPS => "GPS"
  | Guider => "Guider"
  | AuxiliaryDevice => "AuxiliaryDevice"
  | SafetyMonitor => "SafetyMonitor"
  | Switch => "Switch"
  | CoverCalibrator => "CoverCalibrator"
  | ObservingConditions => "ObservingConditions"
  | Video => "Video"
  | Unknown => "Unknown"
  end.

Definition typeMap : list (string * DeviceType) :=
  [("Camera", Camera); ("camera", Camera); ("CCD", Camera); ("ccd", Camera);
   ("Telescope", Telescope); ("telescope", Telescope); ("Mount", Telescope); ("mount", Telescope);
   ("Focuser", Focuser); ("focuser", Focuser);
   ("FilterWheel", FilterWheel); ("filterwheel", FilterWheel); ("Filter Wheel", FilterWheel);
   ("Dome", Dome); ("dome", Dome); ("Rotator", Rotator); ("rotator", Rotator);
   ("Weather", Weather); ("weather", Weather); ("GPS", GPS); ("gps", GPS); ("Guider", Guider); ("guider", Guider);
   ("AuxiliaryDevice", AuxiliaryDevice); ("Auxiliary", AuxiliaryDevice); ("SafetyMonitor", SafetyMonitor);
   ("Switch", Switch); ("switch", Switch); ("CoverCalibrator", CoverCalibrator);
   ("ObservingConditions", ObservingConditions); ("Video", Video); ("video", Video)]%string.
Definition stringToDeviceType (s : string) : DeviceType := default Unknown (assoc s typeMap).

Definition getAllDeviceTypes : list DeviceType :=
  [Camera; Telescope; Focuser; FilterWheel; Dome; Rotator; Weather; GPS; Guider; AuxiliaryDevice; SafetyMonitor; Switch;
   CoverCalibrator; ObservingConditions; Video].
Definition isDeviceTypeSupported (t : DeviceType) : bool := negb (bool_decide (t = Unknown)).

(** The interface flags of INDI, with the type of each; the flags of adaptive
    optics (8), detectors (11) and spectrographs (13) have none. *)
Definition indi_flags : list (Z * DeviceType) :=
  [(0, Telescope); (1, Camera); (2, Guider); (3, Focuser); (4, FilterWheel); (5, Dome); (6, GPS); (7, Weather);
   (9, CoverCalibrator); (10, CoverCalibrator); (12, Rotator); (15, AuxiliaryDevice)].
Definition indiInterfaceToDeviceTypes (interfaces : Z) : list DeviceType :=
  map snd (filter (λ ft, Z.land interfaces (Z.shiftl 1 ft.1) ≠ 0) indi_flags).

Definition ascomMap : list (string * DeviceType) :=
  [("Camera", Camera); ("Telescope", Telescope); ("Focuser", Focuser); ("FilterWheel", FilterWheel); ("Dome", Dome);
   ("Rotator", Rotator); ("SafetyMonitor", SafetyMonitor); ("Switch", Switch); ("CoverCalibrator", CoverCalibrator);
   ("ObservingConditions", ObservingConditions); ("Video", Video)]%string.
Definition ascomDeviceTypeToDeviceType (s : string) : DeviceType := default Unknown (assoc s ascomMap).

(** ** Discovered devices and backends *)

Record BackendConfig := mkBackendConfig {
  host : string;
  port : Z;
  timeout : Z;
  options : gmap string string
}.
Definition default_backend_config : BackendConfig := mkBackendConfig "localhost" 0 5000 ∅.

Section backends.
Context {J F D W B : Type} `{JT : JsonTree J F, FO : !Floats F, AD : !AtomDriver D W, HI : !HashIter string}.
Context (one tenth two : F) (times : F → Z → F) (grown : Z → F → Z → Z).

Record DiscoveredDevice := mkDiscovered {
  dd_deviceId : string;
  dd_displayName : string;
  dd_deviceType : string;
  dd_driverName : string;
  dd_driverVersion : string;
  dd_connectionString : string;
  dd_priority : Z;
  dd_isConnected : bool;
  dd_customProperties : J
}.

Definition discovered_toJson (d : DiscoveredDevice) : J :=
  jt_object [("deviceId", jt_string (dd_deviceId d)); ("displayName", jt_string (dd_displayName d));
    ("deviceType", jt_string (dd_deviceType d)); ("driverName", jt_string (dd_driverName d));
    ("driverVersion", jt_string (dd_driverVersion d)); ("connectionString", jt_string (dd_connectionString d));
    ("priority", jt_int (dd_priority d)); ("isConnected", jt_bool (dd_isConnected d));
    ("customProperties", dd_customProperties d)]%string.

Definition discovered_fromJson (j : J) : result string DiscoveredDevice :=
  let text := jt_value jt_get_string "" in
  let* id := text "deviceId" j in
  let* name := text "displayName" j in
  let* type := text "deviceType" j in
  let* driver := text "driverName" j in
  let* version := text "driverVersion" j in
  let* connection := text "connectionString" j in
  let* prio := jt_value jt_get_int 0 "priority" j in
  let* connected := jt_value jt_get_bool false "isConnected" j in
  Ok (mkDiscovered id name type driver version connection prio connected
        match jt_find j "customProperties" with Some v => v | None => jt_make ShNull end).

Class DeviceBackend := {
  getBackendName : B → string;
  connectServer : B → BackendConfig → W → W * bool;
  disconnectServer : B → W → W * bool;
  isServerConnected : B → W → bool;
  getServerStatus : B → W → J;
  be_discoverDevices : B → Z → W → W * list DiscoveredDevice;
  be_getDevices : B → W → W * list DiscoveredDevice;
  be_refreshDevices : B → W → W * Z;
  be_setCallback : B → bool → W → W             (* register, unregister *)
}.
Context `{BE : DeviceBackend}.

(** ** The registry of backends *)

(** [factories] hold what makes a backend; a backend or a made backend may be a
    null pointer. *)
Record BackendRegistry := mkRegistry {
  backends : gmap string (option B);
  factories : gmap string (W → W * option B);
  globalCallback : bool
}.
#[export] Instance BackendRegistry_eta : Eta BackendRegistry := λ r, mkRegistry (backends r) (factories r) (globalCallback r).
#[export] Instance backends_upd : Upd backends. Proof. derive_upd. Defined.
#[export] Instance factories_upd : Upd factories. Proof. derive_upd. Defined.
#[export] Instance globalCallback_upd : Upd globalCallback. Proof. derive_upd. Defined.

Definition registerBackend (b : option B) (r : BackendRegistry) : BackendRegistry :=
  match b with Some b => r <| backends ::= <[getBackendName b := Some b]> |> | None => r end.
Definition registerFactory (name : string) (make : W → W * option B) (r : BackendRegistry) : BackendRegistry :=
  r <| factories ::= <[name := make]> |>.
Definition unregisterBackend (name : string) (r : BackendRegistry) : BackendRegistry := r <| backends ::= delete name |>.

Definition getBackend (name : string) (r : BackendRegistry) (w : W) : BackendRegistry * W * option B :=
  match backends r !! name with
  | Some b => (r, w, b)
  | None =>
      match factories r !! name with
      | Some make => let '(w, b) := make w in (r <| backends ::= <[name := b]> |>, w, b)
      | None => (r, w, None)
      end
  end.

Definition getBackendNames (r : BackendRegistry) : list string := iter_keys (backends r).
Definition hasBackend (name : string) (r : BackendRegistry) : bool :=
  bool_decide (is_Some (backends r !! name)) || bool_decide (is_Some (factories r !! name)).

(** The backends that are there, in the order of the container. *)
Definition present (r : BackendRegistry) : list (string * B) :=
  omap (λ nb, match nb with (n, Some b) => Some (n, b) | (_, None) => None end) (iter_map (backends r)).

(** A loop over the backends that are connected to their servers. *)
Fixpoint over_connected {A} (f : B → A → W → W * A) (l : list (string * B)) (a : A) (w : W) : W * A :=
  match l with
  | [] => (w, a)
  | (_, b) :: l =>
      if isServerConnected b w then let '(w, a) := f b a w in over_connected f l a w else over_connected f l a w
  end.

Definition discoverAllDevices (timeout : Z) (r : BackendRegistry) (w : W) : W * list DiscoveredDevice :=
  over_connected (λ b all w, let '(w, ds) := be_discoverDevices b timeout w in (w, all ++ ds)) (present r) [] w.

Definition discoverDevices_of (name : string) (timeout : Z) (r : BackendRegistry) (w : W)
  : BackendRegistry * W * list DiscoveredDevice :=
  let '(r, w, b) := getBackend name r w in
  match b with
  | Some b => if isServerConnected b w then let '(w, ds) := be_discoverDevices b timeout w in (r, w, ds) else (r, w, [])
  | None => (r, w, [])
  end.

Definition refreshAllDevices (r : BackendRegistry) (w : W) : W * Z :=
  over_connected (λ b total w, let '(w, n) := be_refreshDevices b w in (w, total + n)) (present r) 0 w.

Fixpoint getAllDevices_loop (l : list (string * B)) (all : list DiscoveredDevice) (w : W) : W * list DiscoveredDevice :=
  match l with
  | [] => (w, all)
  | (_, b) :: l => let '(w, ds) := be_getDevices b w in getAllDevices_loop l (all ++ ds) w
  end.
Definition getAllDevices (r : BackendRegistry) (w : W) : W * list DiscoveredDevice := getAllDevices_loop (present r) [] w.

Definition getStatus_backends (r : BackendRegistry) (w : W) : J :=
  jt_object (map (λ nb, (nb.1, getServerStatus nb.2 w)) (present r)).

Fixpoint connectAllBackends_loop (configs : gmap string BackendConfig) (l : list (string * B)) (n : Z) (w : W) : W * Z :=
  match l with
  | [] => (w, n)
  | (name, b) :: l =>
      match configs !! name with
      | Some c => let '(w, ok) := connectServer b c w in connectAllBackends_loop configs l (if ok then n + 1 else n) w
      | None => connectAllBackends_loop configs l n w
      end
  end.
Definition connectAllBackends (configs : gmap string BackendConfig) (r : BackendRegistry) (w : W) : W * Z :=
  connectAllBackends_loop configs (present r) 0 w.

Definition disconnectAllBackends (r : BackendRegistry) (w : W) : W :=
  (over_connected (λ b (u : unit) w, ((disconnectServer b w).1, u)) (present r) tt w).1.

Definition registerGlobalEventCallback (r : BackendRegistry) (w : W) : BackendRegistry * W :=
  (r <| globalCallback := true |>, fold_left (λ w nb, be_setCallback nb.2 true w) (present r) w).
Definition unregisterGlobalEventCallback (r : BackendRegistry) (w : W) : BackendRegistry * W :=
  (r <| globalCallback := false |>, fold_left (λ w nb, be_setCallback nb.2 false w) (present r) w).

(** ** The factory of drivers *)

Definition DeviceCreator : Type := string → DiscoveredDevice → W → W * option D.
Abbreviation DeviceFactory := (gmap string DeviceCreator).

Definition makeKey (backend : string) (type : DeviceType) : string := backend +:+ ":" +:+ deviceTypeToString type.

Definition registerCreator (backend : string) (type : DeviceType) (c : DeviceCreator) (f : DeviceFactory) : DeviceFactory :=
  <[makeKey backend type := c]> f.
Definition registerCreator_name (backend typeStr : string) (c : DeviceCreator) (f : DeviceFactory) : DeviceFactory :=
  registerCreator backend (stringToDeviceType typeStr) c f.
Definition unregisterCreator (backend : string) (type : DeviceType) (f : DeviceFactory) : DeviceFactory :=
  delete (makeKey backend type) f.
Definition hasCreator (backend : string) (type : DeviceType) (f : DeviceFactory) : bool :=
  bool_decide (is_Some (f !! makeKey backend type)).

Definition createDevice_typed (f : DeviceFactory) (backend : string) (type : DeviceType) (name : string) (info : DiscoveredDevice) (w : W)
  : W * option D :=
  match f !! makeKey backend type with
  | Some c => c name info w
  | None =>
      match f !! makeKey "*" type with
      | Some c => c name info w
      | None => (w, None)
      end
  end.

Definition createDevice (f : DeviceFactory) (info : DiscoveredDevice) (w : W) : W * option D :=
  let type := stringToDeviceType (dd_deviceType info) in
  if bool_decide (type = Unknown) then (w, None)
  else createDevice_typed f (dd_driverName info) type (dd_displayName info) info w.

Definition createDevices_step (f : DeviceFactory) (acc : W * gmap string D) (info : DiscoveredDevice) : W * gmap string D :=
  let '(w, made) := acc in
  let '(w, d) := createDevice f info w in
  (w, match d with Some d => <[dd_deviceId info := d]> made | None => made end).
Definition createDevices (f : DeviceFactory) (l : list DiscoveredDevice) (w : W) : W * gmap string D :=
  fold_left (createDevices_step f) l (w, ∅).

(** ** The manager and the backends *)

Definition connectBackend (name host : string) (port : Z) (r : BackendRegistry) (w : W) : BackendRegistry * W * result string bool :=
  let '(r, w, b) := getBackend name r w in
  match b with
  | None => (r, w, Throw name)                    (* BackendNotFound *)
  | Some b => let '(w, ok) := connectServer b (mkBackendConfig host port 5000 ∅) w in (r, w, Ok ok)
  end.
Definition disconnectBackend (name : string) (r : BackendRegistry) (w : W) : BackendRegistry * W * bool :=
  let '(r, w, b) := getBackend name r w in
  match b with
  | None => (r, w, true)
  | Some b => let '(w, ok) := disconnectServer b w in (r, w, ok)
  end.
Definition isBackendConnected (name : string) (r : BackendRegistry) (w : W) : BackendRegistry * W * bool :=
  let '(r, w, b) := getBackend name r w in
  (r, w, match b with Some b => isServerConnected b w | None => false end).

(** The metadata of a discovered device; [operator[]] throws for properties that
    are neither null nor an object. *)
Definition metadata_of (d : DiscoveredDevice) : result string DeviceMetadata :=
  let* props := jt_put (dd_customProperties d) "deviceType" (jt_string (dd_deviceType d)) in
  let* props := jt_put props "isConnected" (jt_bool (dd_isConnected d)) in
  Ok (mkMetadata (dd_deviceId d) (dd_displayName d) (dd_driverName d) (dd_driverVersion d) (dd_connectionString d)
        (dd_priority d) false props).

Fixpoint all_metadata (l : list DiscoveredDevice) : result string (list DeviceMetadata) :=
  match l with
  | [] => Ok []
  | d :: l => let* meta := metadata_of d in let* rest := all_metadata l in Ok (meta :: rest)
  end.

Definition discoverDevices (backend : string) (r : BackendRegistry) (w : W)
  : BackendRegistry * W * result string (list DeviceMetadata) :=
  let '(r, w, found) :=
    if str_empty backend || String.eqb backend "ALL" then let '(w, ds) := discoverAllDevices 5000 r w in (r, w, ds)
    else discoverDevices_of backend 5000 r w in
  (r, w, all_metadata found).

(** What the factory is told about the device. *)
Definition device_info (meta : DeviceMetadata) : result string DiscoveredDevice :=
  let* type := jt_value jt_get_string "Unknown" "deviceType" (customProperties meta) in
  Ok (mkDiscovered (deviceId meta) (displayName meta) type (driverName meta) (driverVersion meta) (connectionString meta)
        0 false (customProperties meta)).

Abbreviation Manager := (@DeviceManager J F D W).

(** Registering the device of one entry: the manager, and whether it is new. *)
Definition register_one (f : DeviceFactory) (autoConnect : bool) (meta : DeviceMetadata) (m : Manager) : Manager * result string bool :=
  match findDeviceByName m (displayName meta) with
  | Some _ => (m, Ok false)
  | None =>
      match device_info meta with
      | Throw what => (m, Throw what)
      | Ok info =>
          let '(m, made) := run_driver (createDevice f info) m in
          match made with
          | None => (m, Ok false)
          | Some d =>
              let type := if str_empty (dd_deviceType info) || String.eqb (dd_deviceType info) "Unknown" then "generic"%string
                          else dd_deviceType info in
              let '(m, r) := addDeviceWithMetadata one type d meta m in
              match r with
              | Throw what => (m, Throw what)
              | Ok _ =>
                  (* an exception of the connection is logged *)
                  (if autoConnect then (connectDeviceByName one two grown (displayName meta) 5000 m).1 else m, Ok true)
              end
          end
      end
  end.

Fixpoint register_all (f : DeviceFactory) (autoConnect : bool) (l : list DeviceMetadata) (n : Z) (m : Manager)
  : Manager * result string Z :=
  match l with
  | [] => (m, Ok n)
  | meta :: l =>
      let '(m, r) := register_one f autoConnect meta m in
      match r with
      | Throw what => (m, Throw what)
      | Ok new => register_all f autoConnect l (if new then n + 1 else n) m
      end
  end.

Definition discoverAndRegisterDevices (f : DeviceFactory) (backend : string) (autoConnect : bool) (r : BackendRegistry) (m : Manager)
  : BackendRegistry * Manager * result string Z :=
  let '(r, w, discovered) := discoverDevices backend r (world m) in
  let m := m <| world := w |> in
  match discovered with
  | Throw what => (r, m, Throw what)
  | Ok l => let '(m, n) := register_all f autoConnect l 0 m in (r, m, n)
  end.

Definition refreshDevices (r : BackendRegistry) (m : Manager) : Manager * result string unit :=
  let '(w, _) := refreshAllDevices r (world m) in refresh_states one (m <| world := w |>).
(** ** Names and keys of types *)

(** A separator outside the right part cuts at one place only. *)
Lemma cut_inj c a b a' b' :
  str_mem c b = false → str_mem c b' = false → a +:+ String c b = a' +:+ String c b' → a = a' ∧ b = b'.
Proof.
  intros Hb Hb'. revert a'. induction a as [|x a IH]; intros [|x' a']; cbn; intros E; simplify_eq; try done.
  - by rewrite str_mem_app in Hb; cbn in Hb; rewrite Ascii.eqb_refl, orb_true_r in Hb.
  - by rewrite str_mem_app in Hb'; cbn in Hb'; rewrite Ascii.eqb_refl, orb_true_r in Hb'.
  - match goal with E : _ = _ |- _ => destruct (IH _ E) as [-> ->] end. done.
Qed.

Lemma makeKey_inj b t b' t' : makeKey b t = makeKey b' t' → b = b' ∧ t = t'.
Proof.
  unfold makeKey. intros E. apply (cut_inj ":"%char) in E as [-> E]; [|by destruct t|by destruct t'].
  split; [done|]. by destruct t, t'.
Qed.

(** The factory is a map from a backend and a type to a creator: the key
    strings never collide; a creator is found under every name of its type;
    a device is made by the creator for its driver and type, by the one for any
    driver if there is none, and not at all for an unknown type. *)
Theorem factory_correct (f : DeviceFactory) backend type c :
  (∀ t, stringToDeviceType (deviceTypeToString t) = t) ∧
  (∀ b t, registerCreator backend type c f !! makeKey b t =
     if decide (b = backend ∧ t = type) then Some c else f !! makeKey b t) ∧
  (∀ b t, unregisterCreator backend type f !! makeKey b t =
     if decide (b = backend ∧ t = type) then None else f !! makeKey b t) ∧
  (∀ info w, createDevice f info w =
     match stringToDeviceType (dd_deviceType info) with
     | Unknown => (w, None)
     | t => match f !! makeKey (dd_driverName info) t, f !! makeKey "*" t with
            | Some own, _ => own (dd_displayName info) info w
            | None, Some any => any (dd_displayName info) info w
            | None, None => (w, None)
            end
     end).
Proof.
  split_and!.
  - by intros [].
  - intros b t. unfold registerCreator. case_decide as Hd.
    + destruct Hd as [-> ->]. by rewrite lookup_insert_eq.
    + rewrite lookup_insert_ne; [done|]. intros E. apply makeKey_inj in E as [-> ->]. by destruct Hd.
  - intros b t. unfold unregisterCreator. case_decide as Hd.
    + destruct Hd as [-> ->]. by rewrite lookup_delete_eq.
    + rewrite lookup_delete_ne; [done|]. intros E. apply makeKey_inj in E as [-> ->]. by destruct Hd.
  - intros info w. unfold createDevice, createDevice_typed. case_bool_decide as E; [by rewrite E|].
    destruct (stringToDeviceType _); try done;
      (destruct (f !! makeKey (dd_driverName info) _); [done|]; by destruct (f !! makeKey "*" _)).
Qed.

Lemma all_types_supported t : t ∈ getAllDeviceTypes ↔ isDeviceTypeSupported t = true.
Proof. split; [|destruct t; intros E; try done; cbn; set_solver]. intros Ht. destruct t; try done. by repeat (apply elem_of_cons in Ht as [?|Ht]; [done|]); apply not_elem_of_nil in Ht. Qed.

(** A type is reported when one of its flags is set. *)
Lemma indi_types interfaces t :
  t ∈ indiInterfaceToDeviceTypes interfaces ↔ ∃ bit, (bit, t) ∈ indi_flags ∧ Z.testbit interfaces bit = true.
Proof.
  unfold indiInterfaceToDeviceTypes. rewrite list_elem_of_fmap.
  assert (Hbit : ∀ bit, 0 ≤ bit → Z.land interfaces (Z.shiftl 1 bit) ≠ 0 ↔ Z.testbit interfaces bit = true).
  { intros bit Hpos. rewrite Z.shiftl_1_l. split.
    - intros Hne. destruct (Z.testbit interfaces bit) eqn:E; [done|]. destruct Hne. apply Z.bits_inj'. intros n Hn.
      rewrite Z.land_spec, Z.bits_0, Z.pow2_bits_eqb by done. destruct (Z.eqb_spec bit n) as [->|]; [by rewrite E|by rewrite andb_false_r].
    - intros E E0. assert (Hb : Z.testbit (Z.land interfaces (2 ^ bit)) bit = false) by (rewrite E0; apply Z.bits_0).
      by rewrite Z.land_spec, E, Z.pow2_bits_true in Hb. }
  assert (Hpos : ∀ bit x, (bit, x) ∈ indi_flags → 0 ≤ bit).
  { intros bit x Hx. assert (Hall : Forall (λ ft : Z * DeviceType, 0 ≤ ft.1) indi_flags) by (repeat constructor; cbn; lia).
    rewrite Forall_forall in Hall. by apply (Hall _ Hx). }
  split.
  - intros ([bit x] & -> & [Hf Hin]%list_elem_of_filter). exists bit. split; [done|]. apply Hbit; [by eapply Hpos|done].
  - intros (bit & Hin & Hb). exists (bit, t). split; [done|]. apply list_elem_of_filter. split; [|done]. apply Hbit; [by eapply Hpos|done].
Qed.

(** ** Registering what was discovered *)

Lemma find_none (m : Manager) n t d : findDeviceByName m n = None → registered m t d → getName d ≠ n.
Proof.
  unfold findDeviceByName, find_by_name. intros Hf Hd%all_devices_registered Hn.
  assert (Hin : (t, d) ∈ filter (λ td, getName td.2 = n) (all_devices m)) by (apply list_elem_of_filter; by split).
  destruct (filter _ _); [by apply not_elem_of_nil in Hin|done].
Qed.

(** The devices given to setPrimaryDevice, which the invariant of the manager allows. *)
Variable chosen : list (string * D).

Lemma all_devices_ext (m m' : Manager) : devices m = devices m' → all_devices m = all_devices m'.
Proof. intros E. unfold all_devices. by rewrite E. Qed.

Lemma all_devices_add (m m' : Manager) t d :
  devices m' = <[t := getDevicesByType m t ++ [d]]> (devices m) → all_devices m' ≡ₚ (t, d) :: all_devices m.
Proof.
  intros E. unfold all_devices. rewrite E.
  assert (Hcat : ∀ (ds : gmap string (list D)), concat (map (λ kv, map (pair kv.1) kv.2) (iter_map ds))
    ≡ₚ concat (map (λ kv, map (pair kv.1) kv.2) (map_to_list ds))).
  { intros ds. by rewrite iter_map_perm. }
  rewrite !Hcat. unfold getDevicesByType. destruct (devices m !! t) as [l|] eqn:El; cbn [default].
  - rewrite <- (insert_delete_id (devices m) t l El) at 2. rewrite <- insert_delete_eq.
    rewrite !map_to_list_insert by apply lookup_delete_eq. cbn. rewrite map_app. cbn. rewrite <- Permutation_middle, app_nil_r. done.
  - rewrite map_to_list_insert by done. done.
Qed.

Lemma quiet_all_devices (m m' : Manager) : quiet m m' → all_devices m' = all_devices m.
Proof. intros [E]. by apply all_devices_ext. Qed.

Lemma addDevice_devices t d (m : Manager) : devices (addDevice one t d m).1 = <[t := getDevicesByType m t ++ [d]]> (devices m).
Proof.
  unfold addDevice. fold (getDevicesByType m t). cbn zeta. set (m1 := if bool_decide _ then _ else _).
  assert (E : devices m1 = <[t := getDevicesByType m t ++ [d]]> (devices m)) by (unfold m1; by destruct (bool_decide _)).
  by destruct (drv_isConnected _ _).
Qed.

Lemma addDeviceWithMetadata_spec t d meta (m : Manager) :
  Inv chosen m → (∀ t' d', registered m t' d' → getName d' ≠ getName d) →
  let '(m', r) := addDeviceWithMetadata one t d meta m in
  Inv chosen m' ∧ all_devices m' ≡ₚ (t, d) :: all_devices m.
Proof.
  intros HI' Hfresh. pose proof (Inv_addDevice one _ m t d HI' Hfresh) as Hi. pose proof (addDevice_devices t d m) as Hd.
  unfold addDeviceWithMetadata. destruct (addDevice one t d m) as [m1 [u|what]]; cbn in *.
  - split; [eapply quiet_inv; [apply quiet_metadata|done]|]. by apply all_devices_add.
  - split; [done|]. by apply all_devices_add.
Qed.

(** The name "generic" for a device without a type is never used: no driver is
    made for such a device. *)
Lemma generic_unreachable f info w w' d :
  createDevice f info w = (w', Some d) → dd_deviceType info ≠ ""%string ∧ dd_deviceType info ≠ "Unknown"%string.
Proof. unfold createDevice. case_bool_decide as E; [done|]. split; intros Et; by rewrite Et in E. Qed.

(** What a creator makes has the name it was asked for. *)
Definition creators_named (f : DeviceFactory) : Prop :=
  ∀ key c name info w w' d, f !! key = Some c → c name info w = (w', Some d) → getName d = name.

Lemma createDevice_named f info w w' d : creators_named f → createDevice f info w = (w', Some d) → getName d = dd_displayName info.
Proof.
  intros Hf. unfold createDevice, createDevice_typed. case_bool_decide; [done|].
  destruct (f !! makeKey (dd_driverName info) _) as [c|] eqn:E1; [by apply (Hf _ _ _ _ _ _ _ E1)|].
  destruct (f !! makeKey "*" _) as [c|] eqn:E2; [by apply (Hf _ _ _ _ _ _ _ E2)|done].
Qed.

Definition made_for (f : DeviceFactory) (meta : DeviceMetadata) : Prop :=
  ∀ info w, device_info meta = Ok info → is_Some (createDevice f info w).2.

Definition has_name (m : Manager) (n : string) : Prop := n ∈ getName <$> (all_devices m).*2.

Lemma has_name_find (m : Manager) n : has_name m n ↔ is_Some (findDeviceByName m n).
Proof.
  unfold has_name, findDeviceByName, find_by_name. rewrite list_elem_of_fmap. split.
  - intros (d & -> & ([t d'] & -> & Hin)%list_elem_of_fmap).
    assert (Hf : (t, d') ∈ filter (λ td, getName td.2 = getName d') (all_devices m)) by (apply list_elem_of_filter; by split).
    cbn in *. destruct (filter _ _) as [|x l]; [by apply not_elem_of_nil in Hf|cbn; eauto].
  - intros [d Hd]. destruct (filter _ _) as [|[t x] l] eqn:E; [done|].
    assert (Hf : (t, x) ∈ filter (λ td, getName td.2 = n) (all_devices m)) by (rewrite E; by left).
    apply list_elem_of_filter in Hf as [<- Hf]. exists x. split; [done|]. apply list_elem_of_fmap. by exists (t, x).
Qed.

Lemma register_one_spec f auto meta (m : Manager) :
  creators_named f → Inv chosen m →
  let '(m', r) := register_one f auto meta m in
  Inv chosen m' ∧ (∀ n, has_name m n → has_name m' n) ∧
  (∀ new, r = Ok new → length (all_devices m') = (length (all_devices m) + if new : bool then 1 else 0)%nat ∧
     (made_for f meta → has_name m' (displayName meta))).
Proof.
  intros Hf HI'. unfold register_one. destruct (findDeviceByName m (displayName meta)) as [d0|] eqn:Efind.
  { split_and!; [done|done|]. intros new [= <-]. split; [lia|]. intros _. apply has_name_find. by rewrite Efind. }
  destruct (device_info meta) as [info|what] eqn:Einfo; [|done].
  assert (Ename : dd_displayName info = displayName meta).
  { unfold device_info in Einfo. apply rbind_ok_inv in Einfo as (type & _ & [= <-]). done. }
  pose proof (quiet_run (createDevice f info) m) as Hq. unfold run_driver in *.
  destruct (createDevice f info (world m)) as [w made] eqn:Emade. cbn [fst] in Hq.
  set (m1 := m <| world := w |>) in *. pose proof (quiet_inv _ _ _ Hq HI') as HI1.
  assert (Eall : all_devices m1 = all_devices m) by (by apply quiet_all_devices).
  destruct made as [d|].
  2:{ split_and!; [done|by unfold has_name; rewrite Eall|]. intros new [= <-]. rewrite Eall. split; [lia|].
      intros Hm. specialize (Hm info (world m) Einfo). rewrite Emade in Hm. by destruct Hm. }
  pose proof (createDevice_named _ _ _ _ _ Hf Emade) as Hd. rewrite Ename in Hd.
  match goal with |- context [addDeviceWithMetadata one ?t d meta m1] => set (type := t) end.
  pose proof (addDeviceWithMetadata_spec type d meta m1 HI1) as Hadd.
  destruct (addDeviceWithMetadata one type d meta m1) as [m2 [u|what]].
  - destruct Hadd as [HI2 Hp]. { intros t' d' Hd'. rewrite Hd. eapply find_none; [exact Efind|exact Hd']. }
    rewrite Eall in Hp. cbn zeta. set (m3 := if auto then _ else m2).
    assert (H3 : Inv chosen m3 ∧ all_devices m3 = all_devices m2).
    { unfold m3. destruct auto; [|done]. pose proof (quiet_connect one two grown (displayName meta) 5000 m2) as Hc.
      split; [by eapply quiet_inv|by apply quiet_all_devices]. }
    destruct H3 as [HI3 Eall3]. unfold has_name. rewrite Eall3. split_and!; [done| |].
    + intros n Hn. rewrite Hp. cbn. by right.
    + intros new [= <-]. rewrite Hp. cbn. split; [lia|]. intros _. rewrite Hd. by left.
  - destruct Hadd as [HI2 Hp]. { intros t' d' Hd'. rewrite Hd. eapply find_none; [exact Efind|exact Hd']. }
    rewrite Eall in Hp. split_and!; [done| |done]. intros n Hn. unfold has_name. rewrite Hp. cbn. by right.
Qed.

Lemma register_all_spec f auto l : creators_named f → ∀ n (m : Manager), Inv chosen m →
  let '(m', r) := register_all f auto l n m in
  Inv chosen m' ∧ (∀ x, has_name m x → has_name m' x) ∧
  (∀ n', r = Ok n' → Z.of_nat (length (all_devices m')) = Z.of_nat (length (all_devices m)) + (n' - n) ∧
     (∀ meta, meta ∈ l → made_for f meta → has_name m' (displayName meta))).
Proof.
  intros Hf. induction l as [|meta l IH]; intros n m HI'; cbn [register_all].
  { split_and!; [done|done|]. intros n' [= <-]. split; [lia|]. by intros meta ?%not_elem_of_nil. }
  pose proof (register_one_spec f auto meta m Hf HI') as H1. destruct (register_one f auto meta m) as [m1 [new|what]].
  - destruct H1 as (HI1 & Hmono1 & Hok1). specialize (Hok1 new eq_refl) as [Hlen1 Hmade1].
    specialize (IH (if new then n + 1 else n) m1 HI1). destruct (register_all f auto l _ m1) as [m2 r].
    destruct IH as (HI2 & Hmono2 & Hok2). split_and!; [done|auto|]. intros n' ->. destruct (Hok2 n' eq_refl) as [Hlen2 Hmade2].
    split; [destruct new; lia|]. intros meta' [->|Hin]%elem_of_cons Hmade; auto.
  - destruct H1 as (HI1 & Hmono1 & _). by split_and!.
Qed.

(** Discovering and registering keeps the invariant of the manager and
    every device it had, even when an exception leaves the method; when it
    returns, the number returned is the number of devices added, and every
    discovered device for which a driver can be made is registered under its
    name, once. *)
Theorem discoverAndRegister_correct f backend auto r (m : Manager) :
  creators_named f → Inv chosen m →
  let '(r', w, discovered) := discoverDevices backend r (world m) in
  let '(_, m', result) := discoverAndRegisterDevices f backend auto r m in
  Inv chosen m' ∧ (∀ n, isDeviceValid m n = true → isDeviceValid m' n = true) ∧
  (∀ n, result = Ok n → ∃ l, discovered = Ok l ∧
     Z.of_nat (length (all_devices m')) = Z.of_nat (length (all_devices m)) + n ∧
     (∀ meta, meta ∈ l → made_for f meta → isDeviceValid m' (displayName meta) = true)).
Proof.
  intros Hf HI'. unfold discoverAndRegisterDevices. destruct (discoverDevices backend r (world m)) as [[r' w] [l|what]].
  2:{ split_and!; [|done|done]. eapply quiet_inv; [apply quiet_world|done]. }
  pose proof (register_all_spec f auto l Hf 0 (m <| world := w |>) (quiet_inv _ _ _ (quiet_world _ _) HI')) as Hall.
  destruct (register_all f auto l 0 (m <| world := w |>)) as [m' n]. destruct Hall as (HI2 & Hmono & Hok).
  assert (Hvalid : ∀ (m : Manager) x, isDeviceValid m x = true ↔ has_name m x).
  { intros m0 x. unfold isDeviceValid. by rewrite bool_decide_eq_true, has_name_find. }
  split_and!; [done|intros x; rewrite !Hvalid; apply Hmono|]. intros n' ->. destruct (Hok n' eq_refl) as [Hlen Hmade].
  exists l. split_and!; [done|by rewrite Hlen, Z.sub_0_r|]. intros meta Hin Hm. apply Hvalid. auto.
Qed.
End backends.

(** ** Examples *)

#[local] Existing Instance demo_driver.
#[local] Existing Instance demo_tree.
#[local] Existing Instance demo_floats.
#[local] Existing Instance demo_iter.

Definition demo_device (id name type : string) : @DiscoveredDevice jtree :=
  mkDiscovered id name type "INDI" "1" "localhost:7624" 0 false TNull.

(** A backend that always finds two cameras, one of them twice, and a device
    of a type nobody knows. *)
#[local] Instance demo_backend : @DeviceBackend jtree demo_world string := {|
  getBackendName b := b;
  connectServer _ _ w := (w, true);
  disconnectServer _ w := (w, true);
  isServerConnected _ _ := true;
  getServerStatus _ _ := TNull;
  be_discoverDevices _ _ w :=
    (w, [demo_device "1" "cam" "CCD"; demo_device "2" "cam" "CCD"; demo_device "3" "guide" "Camera"; demo_device "4" "x" "Laser"]%string);
  be_getDevices _ w := (w, []);
  be_refreshDevices _ w := (w, 0);
  be_setCallback _ _ w := w
|}.

Definition demo_creator (name : string) (_ : @DiscoveredDevice jtree) (w : demo_world) : demo_world * option string := (w, Some name).
Definition demo_factory : gmap string (string → @DiscoveredDevice jtree → demo_world → demo_world * option string) :=
  {[ makeKey "INDI" Camera := demo_creator ]}.
Definition demo_registry : BackendRegistry := registerBackend (Some "INDI"%string) (mkRegistry ∅ ∅ false).

Definition demo_discovered :=
  discoverAndRegisterDevices 10 2 demo_grown demo_factory "ALL" false demo_registry (demo_new []).

(** The types of the devices are the strings of the backends, so two cameras
    are registered under two types. *)
Example two_spellings_two_types :
  demo_discovered.2 = Ok 2 ∧ getDevicesByType demo_discovered.1.2 "CCD" = ["cam"%string] ∧
  getDevicesByType demo_discovered.1.2 "Camera" = ["guide"%string].
Proof. vm_compute. done. Qed.

Lemma discoverAndRegister_correct_witness :
  Z.of_nat (length (all_devices demo_discovered.1.2)) = 2 ∧ isDeviceValid demo_discovered.1.2 "guide" = true.
Proof.
  assert (Hf : creators_named demo_factory).
  { intros key c name info w w' d Hc. unfold demo_factory in Hc. apply lookup_singleton_Some in Hc as [_ <-]. by intros [= _ <-]. }
  pose proof (discoverAndRegister_correct 10 2 demo_grown [] demo_factory "ALL" false demo_registry (demo_new []) Hf (Inv_new [] _)) as Hall.
  change (discoverAndRegisterDevices 10 2 demo_grown demo_factory "ALL" false demo_registry (demo_new [])) with demo_discovered in Hall.
  destruct (discoverDevices "ALL" demo_registry (world (demo_new []))) as [[r' w] disc] eqn:Ed.
  destruct demo_discovered as [[r m] res] eqn:E. cbn [fst snd]. destruct Hall as (_ & _ & Hok).
  assert (Hres : res = Ok 2) by (change res with ((r, m, res).2); rewrite <- E; vm_compute; reflexivity).
  destruct (Hok 2 Hres) as (l & Hl & Hlen & Hmade). split; [exact Hlen|].
  assert (Hd : disc = all_metadata (be_discoverDevices "INDI" 5000 (world (demo_new []))).2).
  { change disc with ((r', w, disc).2). rewrite <- Ed. vm_compute. reflexivity. }
  rewrite Hd in Hl. vm_compute in Hl. injection Hl as <-. eapply (Hmade (mkMetadata "3" "guide" "INDI" "1" "localhost:7624" 0 false _)).
  - right. right. left.
  - intros info w0 Hi. vm_compute in Hi. injection Hi as <-. eexists. vm_compute. reflexivity.
Defined.
