(* ===== verification/ApiRateLimiter.v ===== *)
(** * ApiRateLimiter: limits on the requests to online catalogs

    Models src/src/target/online/rate_limiter/api_rate_limiter.hpp and
    api_rate_limiter.cpp: for each provider a token bucket for bursts, sliding
    windows of a minute and of an hour, and the Retry-After time of the server.
    Times are nanoseconds of the system clock; a method reads the clock once,
    [now].  Tokens are [double], the operations of [Floats].  The blocking
    [acquire] runs over the clock readings it makes. *)

From S2P Require Import Prelude.

Local Open Scope Z_scope.

Record RateLimitRule := mkRule {
  maxRequestsPerSecond : Z;
  maxRequestsPerMinute : Z;
  maxRequestsPerHour : Z;
  burstLimit : Z;
  respectRetryAfter : bool
}.
Definition default_rule : RateLimitRule := mkRule 10 100 1000 20 true.

Record RateLimiterStats := mkStats {
  totalRequests : Z;
  throttledRequests : Z;
  successfulRequests : Z;
  lastRequest : Z;
  lastThrottle : Z
}.
Definition no_stats : RateLimiterStats := mkStats 0 0 0 0 0.
#[export] Instance RateLimiterStats_eta : Eta RateLimiterStats := λ s,
  mkStats (totalRequests s) (throttledRequests s) (successfulRequests s) (lastRequest s) (lastThrottle s).
#[export] Instance totalRequests_upd : Upd totalRequests. Proof. derive_upd. Defined.
#[export] Instance throttledRequests_upd : Upd throttledRequests. Proof. derive_upd. Defined.
#[export] Instance successfulRequests_upd : Upd successfulRequests. Proof. derive_upd. Defined.
#[export] Instance lastRequest_upd : Upd lastRequest. Proof. derive_upd. Defined.
#[export] Instance lastThrottle_upd : Upd lastThrottle. Proof. derive_upd. Defined.

Record WindowCounter := mkWindow {
  timestamps : list Z;
  count : Z
}.

Definition NS_PER_MS : Z := 1000000.
Definition MINUTE : Z := 60 * 1000 * NS_PER_MS.
Definition HOUR : Z := 60 * MINUTE.
(** [duration_cast<milliseconds>]. *)
Definition to_ms (ns : Z) : Z := Z.quot ns NS_PER_MS.

Section limiter.
Context `{Floats F}.
(** [0.1], and [static_cast<long long>(std::ceil(x))]. *)
Context (tenth : F) (ceil : F → Z).

Record TokenBucket := mkBucket {
  rule : RateLimitRule;
  tokensPerSecond : F;
  lastRefillSecond : Z;
  minuteWindow : WindowCounter;
  hourWindow : WindowCounter;
  retryAfterTime : Z;
  stats : RateLimiterStats
}.
#[export] Instance TokenBucket_eta : Eta TokenBucket := λ b,
  mkBucket (rule b) (tokensPerSecond b) (lastRefillSecond b) (minuteWindow b) (hourWindow b) (retryAfterTime b) (stats b).
#[export] Instance rule_upd : Upd rule. Proof. derive_upd. Defined.
#[export] Instance tokensPerSecond_upd : Upd tokensPerSecond. Proof. derive_upd. Defined.
#[export] Instance lastRefillSecond_upd : Upd lastRefillSecond. Proof. derive_upd. Defined.
#[export] Instance minuteWindow_upd : Upd minuteWindow. Proof. derive_upd. Defined.
#[export] Instance hourWindow_upd : Upd hourWindow. Proof. derive_upd. Defined.
#[export] Instance retryAfterTime_upd : Upd retryAfterTime. Proof. derive_upd. Defined.
#[export] Instance stats_upd : Upd stats. Proof. derive_upd. Defined.

Definition new_bucket (r : RateLimitRule) (now : Z) : TokenBucket :=
  mkBucket r (f_of_Z (burstLimit r)) now (mkWindow [] 0) (mkWindow [] 0) now
    (no_stats <| lastRequest := now |> <| lastThrottle := now |>).

Abbreviation ApiRateLimiter := (gmap string TokenBucket).

(** ** Helpers *)

Definition f_min (a b : F) : F := if f_ltb b a then b else a.

Definition refillTokens (b : TokenBucket) (now : Z) : TokenBucket :=
  let elapsed := to_ms (now - lastRefillSecond b) in
  let tokensToAdd := f_mul (f_div (f_of_Z elapsed) (f_of_Z 1000)) (f_of_Z (maxRequestsPerSecond (rule b))) in
  let b := b <| tokensPerSecond := f_min (f_of_Z (burstLimit (rule b))) (f_add (tokensPerSecond b) tokensToAdd) |> in
  if f_ltb tenth tokensToAdd then b <| lastRefillSecond := now |> else b.

Fixpoint pop_old (now size : Z) (l : list Z) (n : Z) : WindowCounter :=
  match l with
  | t :: l' => if size <? now - t then pop_old now size l' (n - 1) else mkWindow l n
  | [] => mkWindow [] n
  end.
Definition cleanupWindow (w : WindowCounter) (now size : Z) : WindowCounter := pop_old now size (timestamps w) (count w).

Definition calculateWaitTime (b : TokenBucket) : Z :=
  let perSecond := f_of_Z (maxRequestsPerSecond (rule b)) in
  let tokensNeeded := f_sub (f_of_Z 1) (tokensPerSecond b) in
  ceil (if f_eqb perSecond f_zero then f_of_Z 1000 else f_mul (f_div tokensNeeded perSecond) (f_of_Z 1000)).

Definition calculateWindowWaitTime (w : WindowCounter) (now size : Z) : Z :=
  match timestamps w with
  | [] => 0
  | oldest :: _ => let resetTime := oldest + size in if resetTime <=? now then 0 else to_ms (resetTime - now)
  end.

(** ** Operations *)

Definition setProviderLimit (provider : string) (r : RateLimitRule) (now : Z) (l : ApiRateLimiter) : ApiRateLimiter :=
  match l !! provider with
  | Some b => <[provider := b <| rule := r |>]> l
  | None => <[provider := new_bucket r now]> l
  end.

Definition throttle (now : Z) (b : TokenBucket) : TokenBucket :=
  b <| stats ::= λ s, s <| throttledRequests ::= Z.succ |> <| lastThrottle := now |> |>.

(** The bucket of a provider; [None] when the request may be made. *)
Definition try_bucket (now : Z) (b : TokenBucket) : TokenBucket * option Z :=
  if now <? retryAfterTime b then (b, Some (to_ms (retryAfterTime b - now)))
  else
    let b := refillTokens b now in
    if f_ltb (tokensPerSecond b) (f_of_Z 1) then (throttle now b, Some (calculateWaitTime b))
    else
      let b := b <| minuteWindow ::= λ w, cleanupWindow w now MINUTE |> in
      if maxRequestsPerMinute (rule b) <=? count (minuteWindow b) then
        (throttle now b, Some (calculateWindowWaitTime (minuteWindow b) now MINUTE))
      else
        let b := b <| hourWindow ::= λ w, cleanupWindow w now HOUR |> in
        if maxRequestsPerHour (rule b) <=? count (hourWindow b) then
          (throttle now b, Some (calculateWindowWaitTime (hourWindow b) now HOUR))
        else (b, None).

Definition tryAcquire (provider : string) (now : Z) (l : ApiRateLimiter) : ApiRateLimiter * option Z :=
  match l !! provider with
  | None => (l, None)
  | Some b => let '(b, wait) := try_bucket now b in (<[provider := b]> l, wait)
  end.

(** The waits until a request may be made, with the clock readings the loop
    makes; [None] when it is still waiting after the last of them. *)
Fixpoint acquire (provider : string) (readings : list Z) (l : ApiRateLimiter) : ApiRateLimiter * option (list Z) :=
  match readings with
  | [] => (l, None)
  | now :: readings =>
      let '(l, wait) := tryAcquire provider now l in
      match wait with
      | None => (l, Some [])
      | Some ms => let '(l, waits) := acquire provider readings l in (l, cons ms <$> waits)
      end
  end.

Definition recordRateLimitResponse (provider : string) (retryAfter now : Z) (l : ApiRateLimiter) : ApiRateLimiter :=
  match l !! provider with
  | None => l
  | Some b => <[provider := b <| retryAfterTime := now + retryAfter * 1000 * NS_PER_MS |>]> l
  end.

Definition push (now : Z) (w : WindowCounter) : WindowCounter := mkWindow (timestamps w ++ [now]) (count w + 1).

Definition complete_bucket (now : Z) (success : bool) (b : TokenBucket) : TokenBucket :=
  b <| tokensPerSecond ::= λ t, f_sub t (f_of_Z 1) |> <| minuteWindow ::= push now |> <| hourWindow ::= push now |>
    <| stats ::= λ s,
         let s := s <| totalRequests ::= Z.succ |> <| lastRequest := now |> in
         if success then s <| successfulRequests ::= Z.succ |> else s |>.

Definition recordRequestComplete (provider : string) (success : bool) (now : Z) (l : ApiRateLimiter) : ApiRateLimiter :=
  match l !! provider with
  | None => l
  | Some b => <[provider := complete_bucket now success b]> l
  end.

Definition getStats (provider : string) (l : ApiRateLimiter) : RateLimiterStats :=
  match l !! provider with Some b => stats b | None => no_stats end.

Definition reset (provider : string) (now : Z) (l : ApiRateLimiter) : ApiRateLimiter :=
  match l !! provider with
  | None => l
  | Some b => <[provider := new_bucket (rule b) now]> l
  end.
Definition resetAll (now : Z) (l : ApiRateLimiter) : ApiRateLimiter := (λ b, new_bucket (rule b) now) <$> l.

Definition isRateLimited (provider : string) (now : Z) (l : ApiRateLimiter) : bool :=
  match l !! provider with
  | None => false
  | Some b => (now <? retryAfterTime b) || f_ltb (tokensPerSecond b) (f_of_Z 1)
  end.

Definition getTimeUntilReset (provider : string) (now : Z) (l : ApiRateLimiter) : Z :=
  match l !! provider with
  | None => 0
  | Some b => if now <? retryAfterTime b then to_ms (retryAfterTime b - now) else calculateWaitTime b
  end.

(** ** The sliding windows *)

(** The requests recorded within [size] before [t], among those of [h]. *)
Definition recent (size t : Z) (h : list Z) : list Z := filter (λ x, t - size ≤ x ≤ t) h.

(** [h] lists the times of the recorded requests, oldest first, all at most
    [t]: the window holds the newest of them, those it dropped are too old. *)
Record window_of (size : Z) (h : list Z) (t : Z) (w : WindowCounter) : Prop := {
  w_split : ∃ old, h = old ++ timestamps w ∧ Forall (λ x, x < t - size) old;
  w_count : count w = Z.of_nat (length (timestamps w))
}.

Definition history (h : list Z) (t : Z) : Prop := StronglySorted Z.le h ∧ Forall (λ x, x ≤ t) h.

Lemma pop_old_split now size l n :
  n = Z.of_nat (length l) → StronglySorted Z.le l →
  let w := pop_old now size l n in
  (∃ old, l = old ++ timestamps w ∧ Forall (λ x, x < now - size) old) ∧
  count w = Z.of_nat (length (timestamps w)) ∧ Forall (λ x, now - size ≤ x) (timestamps w).
Proof.
  intros Hn Hs. revert n Hn. induction Hs as [|x l Hs IH Hx]; intros n ->; cbn.
  { split_and!; [exists []; by split|done|constructor]. }
  destruct (Z.ltb_spec size (now - x)) as [Hold|Hnew].
  - destruct (IH (Z.of_nat (S (length l)) - 1)) as ((old & Heq & Hold') & Hc & Hk); [lia|].
    split_and!; [|done..]. exists (x :: old). split; [cbn; by f_equal|]. constructor; [lia|done].
  - split; [by exists []|]. split; [reflexivity|]. constructor; [lia|]. eapply Forall_impl; [exact Hx|]. cbn. lia.
Qed.

Lemma StronglySorted_app_r (l l' : list Z) : StronglySorted Z.le (l ++ l') → StronglySorted Z.le l'.
Proof. induction l; cbn; [done|]. intros [? _]%StronglySorted_inv. auto. Qed.

Lemma cleanup_window size h t w now :
  0 ≤ size → history h t → window_of size h t w → t ≤ now →
  window_of size h now (cleanupWindow w now size) ∧
  count (cleanupWindow w now size) = Z.of_nat (length (recent size now h)).
Proof.
  intros Hsize [Hs Ht] [(old & Hh & Hold) Hc] Hnow. unfold cleanupWindow.
  assert (Hsw : StronglySorted Z.le (timestamps w)) by (rewrite Hh in Hs; by eapply StronglySorted_app_r).
  destruct (pop_old_split now size (timestamps w) (count w) Hc Hsw) as ((old' & Hw & Hold') & Hc' & Hk).
  set (w' := pop_old _ _ _ _) in *.
  assert (Hall : Forall (λ x, x < now - size) (old ++ old')).
  { apply Forall_app. split; [|done]. eapply Forall_impl; [exact Hold|]. cbn. lia. }
  assert (Hh' : h = (old ++ old') ++ timestamps w') by (by rewrite Hh, Hw, app_assoc).
  split; [split; [eauto|done]|]. rewrite Hc'. f_equal. f_equal. unfold recent. rewrite Hh', filter_app.
  rewrite Hh' in Ht. apply Forall_app in Ht as [_ Ht].
  assert (Hnone : filter (λ x, now - size ≤ x ≤ now) (old ++ old') = []).
  { clear -Hall. induction Hall as [|x l Hx Hl IH]; [done|]. rewrite filter_cons, decide_False by lia. done. }
  rewrite Hnone. cbn. clear -Hk Ht Hnow. induction Hk as [|x l Hx Hl IH]; [done|]. apply Forall_cons in Ht as [Hx' Ht].
  rewrite filter_cons, decide_True by lia. f_equal. auto.
Qed.

Lemma window_later size h t now w : window_of size h t w → t ≤ now → window_of size h now w.
Proof.
  intros [(old & Hh & Hold) Hc] Hnow. split; [|done]. exists old. split; [done|]. eapply Forall_impl; [exact Hold|]. cbn. lia.
Qed.

Lemma push_window size h t w now : window_of size h t w → t ≤ now → window_of size (h ++ [now]) now (push now w).
Proof.
  intros Hw Hnow. destruct (window_later _ _ _ _ _ Hw Hnow) as [(old & Hh & Hold) Hc]. split; cbn.
  - exists old. split; [by rewrite Hh, app_assoc|done].
  - rewrite length_app, Hc. cbn. lia.
Qed.

Lemma history_push h t now : history h t → t ≤ now → history (h ++ [now]) now.
Proof.
  intros [Hs Ht] Hnow. split.
  - induction Hs as [|x l Hs IH Hx]; cbn; [repeat constructor|]. apply Forall_cons in Ht as [Hxt Ht].
    constructor; [auto|]. apply Forall_app. split; [done|]. constructor; [lia|constructor].
  - apply Forall_app. split; [|by repeat constructor]. eapply Forall_impl; [exact Ht|]. cbn. lia.
Qed.

Lemma history_later h t now : history h t → t ≤ now → history h now.
Proof. intros [Hs Ht] Hnow. split; [done|]. eapply Forall_impl; [exact Ht|]. cbn. lia. Qed.

(** Fewer requests are recent later on. *)
Lemma recent_later size h t T : Forall (λ x, x ≤ t) h → t ≤ T → (length (recent size T h) <= length (recent size t h))%nat.
Proof.
  unfold recent. induction 1 as [|x l Hx Hl IH]; intros HT; [done|]. rewrite !filter_cons.
  destruct (decide (T - size ≤ x ≤ T)); destruct (decide (t - size ≤ x ≤ t)); cbn; try lia; auto with lia.
Qed.

Lemma recent_push size h t now T n :
  Forall (λ x, x ≤ t) h → t ≤ now → (length (recent size t h) < n)%nat → (∀ T, (length (recent size T h) <= n)%nat) →
  (length (recent size T (h ++ [now])) <= n)%nat.
Proof.
  intros Hh Hnow Hlt Hall. unfold recent at 1. rewrite filter_app, length_app, filter_cons.
  destruct (decide (T - size ≤ now ≤ T)) as [HT|HT]; cbn.
  - pose proof (recent_later size h t T Hh ltac:(lia)). unfold recent in *. lia.
  - specialize (Hall T). unfold recent in Hall. lia.
Qed.
(** ** Sessions

    A caller that asks before each request: [h] the requests it recorded, [t]
    the latest time, and whether it holds an answer that it may go on. *)
Inductive session (provider : string) (r : RateLimitRule) : list Z → Z → bool → ApiRateLimiter → Prop :=
| session_set now l : l !! provider = None → session provider r [] now false (setProviderLimit provider r now l)
| session_try h t permit l now l' wait :
    session provider r h t permit l → t ≤ now → tryAcquire provider now l = (l', wait) →
    session provider r h now (permit || bool_decide (wait = None)) l'
| session_complete h t l now success :
    session provider r h t true l → t ≤ now →
    session provider r (h ++ [now]) now false (recordRequestComplete provider success now l)
| session_response h t permit l now retryAfter :
    session provider r h t permit l → t ≤ now →
    session provider r h now permit (recordRateLimitResponse provider retryAfter now l)
| session_other h t permit l l' :
    session provider r h t permit l → l' !! provider = l !! provider → session provider r h t permit l'.

(** What a bucket knows of one window. *)
Record window_inv (size limit : Z) (h : list Z) (t : Z) (permit : bool) (w : WindowCounter) : Prop := {
  wi_window : window_of size h t w;
  wi_bound T : Z.of_nat (length (recent size T h)) ≤ limit;
  wi_permit : permit = true → Z.of_nat (length (recent size t h)) < limit
}.

Lemma window_inv_later size limit h t permit w now :
  history h t → window_inv size limit h t permit w → t ≤ now → window_inv size limit h now permit w.
Proof.
  intros [_ Ht] [] Hnow. split; [by eapply window_later|done|]. intros Hp. pose proof (recent_later size h t now Ht Hnow).
  specialize (wi_permit0 Hp). lia.
Qed.

Lemma window_inv_clean size limit h t permit w now :
  0 ≤ size → history h t → window_inv size limit h t permit w → t ≤ now →
  window_inv size limit h now permit (cleanupWindow w now size) ∧
  (count (cleanupWindow w now size) < limit → window_inv size limit h now true (cleanupWindow w now size)).
Proof.
  intros Hsize Hh Hi Hnow. destruct (cleanup_window size h t w now Hsize Hh (wi_window _ _ _ _ _ _ Hi) Hnow) as [Hw Hc].
  pose proof (wi_permit _ _ _ _ _ _ (window_inv_later _ _ _ _ _ _ _ Hh Hi Hnow)) as Hp. pose proof (wi_bound _ _ _ _ _ _ Hi) as Hb.
  split; [by split|]. intros Hlt. split; [done|done|]. intros _. by rewrite <- Hc.
Qed.

Lemma window_inv_push size limit h t w now :
  history h t → window_inv size limit h t true w → t ≤ now → window_inv size limit (h ++ [now]) now false (push now w).
Proof.
  intros [Hs Ht] [] Hnow. split; [by eapply push_window| |done]. intros T.
  pose proof (recent_push size h t now T (Z.to_nat limit) Ht Hnow) as Hp. specialize (wi_permit0 eq_refl).
  assert (Hle : (length (recent size T (h ++ [now])) <= Z.to_nat limit)%nat).
  { apply Hp; [lia|]. intros T'. specialize (wi_bound0 T'). lia. }
  lia.
Qed.

Definition bucket_inv (r : RateLimitRule) (h : list Z) (t : Z) (permit : bool) (b : TokenBucket) : Prop :=
  rule b = r ∧ history h t ∧ window_inv MINUTE (maxRequestsPerMinute r) h t permit (minuteWindow b) ∧
  window_inv HOUR (maxRequestsPerHour r) h t permit (hourWindow b).

Lemma bucket_inv_later r h t permit b now : bucket_inv r h t permit b → t ≤ now → bucket_inv r h now permit b.
Proof.
  intros (Hr & Hh & Hm & Hho) Hnow. split_and!; [done|by eapply history_later|by eapply window_inv_later..].
Qed.

Lemma refill_keeps b now :
  rule (refillTokens b now) = rule b ∧ minuteWindow (refillTokens b now) = minuteWindow b ∧
  hourWindow (refillTokens b now) = hourWindow b.
Proof. unfold refillTokens. by destruct (f_ltb tenth _). Qed.

Lemma try_bucket_inv r h t permit b now :
  bucket_inv r h t permit b → t ≤ now →
  bucket_inv r h now (permit || bool_decide ((try_bucket now b).2 = None)) (try_bucket now b).1.
Proof.
  intros Hb Hnow. pose proof (bucket_inv_later _ _ _ _ _ _ Hb Hnow) as Hlater. unfold try_bucket.
  destruct (now <? retryAfterTime b); cbn; [by rewrite orb_false_r|].
  destruct (refill_keeps b now) as (Er & Em & Eh). set (b1 := refillTokens b now) in *.
  destruct (f_ltb _ _); cbn; [rewrite orb_false_r; destruct Hlater as (?&?&?&?); split_and!; cbn; by rewrite ?Er, ?Em, ?Eh|].
  destruct Hb as (Hr & Hh & Hm & Hho), Hlater as (_ & Hh' & Hm' & Hho').
  destruct (window_inv_clean MINUTE _ h t permit (minuteWindow b) now ltac:(done) Hh Hm Hnow) as [Hm1 Hm2].
  destruct (window_inv_clean HOUR _ h t permit (hourWindow b) now ltac:(done) Hh Hho Hnow) as [Hh1 Hh2].
  rewrite Er, Em, Eh, Hr.
  destruct (Z.leb_spec (maxRequestsPerMinute r) (count (cleanupWindow (minuteWindow b) now MINUTE))) as [Hfull|Hfree]; cbn.
  { rewrite orb_false_r. split_and!; cbn; by rewrite ?Er, ?Em, ?Eh. }
  destruct (Z.leb_spec (maxRequestsPerHour r) (count (cleanupWindow (hourWindow b) now HOUR))) as [Hfull'|Hfree']; cbn.
  - rewrite orb_false_r. split_and!; cbn; by rewrite ?Er, ?Em, ?Eh.
  - rewrite orb_true_r. split_and!; cbn; rewrite ?Er, ?Em, ?Eh; auto.
Qed.

(** However often and whenever a provider is asked, refused or told to
    wait, a caller that records a request only after an answer that it may go
    on never makes more requests than the limits in any minute and in any hour,
    for monotonic clock readings. *)
Theorem sliding_windows_safe provider r h t permit l :
  0 ≤ maxRequestsPerMinute r → 0 ≤ maxRequestsPerHour r → session provider r h t permit l →
  ∀ T, Z.of_nat (length (recent MINUTE T h)) ≤ maxRequestsPerMinute r ∧
       Z.of_nat (length (recent HOUR T h)) ≤ maxRequestsPerHour r.
Proof.
  intros Hm Hh Hsess. enough (∃ b, l !! provider = Some b ∧ bucket_inv r h t permit b) as (b & _ & _ & _ & Hb & Hb').
  { intros T. split; [apply Hb|apply Hb']. }
  induction Hsess as [now l Hl|h t permit l now l' wait _ (b & Hb & Hi) Hnow Htry|h t l now success _ (b & Hb & Hi) Hnow
                     |h t permit l now retryAfter _ (b & Hb & Hi) Hnow|h t permit l l' _ (b & Hb & Hi) Hl].
  - unfold setProviderLimit. rewrite Hl. exists (new_bucket r now). split; [by rewrite lookup_insert_eq|].
    split_and!; [done|by repeat constructor|..]; (split; [|done|done]; split; [by exists []|done]).
  - unfold tryAcquire in Htry. rewrite Hb in Htry. pose proof (try_bucket_inv _ _ _ _ _ now Hi Hnow) as Hi'.
    destruct (try_bucket now b) as [b' w]. simplify_eq. exists b'. by rewrite lookup_insert_eq.
  - unfold recordRequestComplete. rewrite Hb. exists (complete_bucket now success b). split; [by rewrite lookup_insert_eq|].
    destruct Hi as (Hr & Hhist & Hmin & Hhour). split_and!; [done|by eapply history_push|by eapply window_inv_push..].
  - unfold recordRateLimitResponse. rewrite Hb. eexists. split; [by rewrite lookup_insert_eq|].
    by destruct (bucket_inv_later _ _ _ _ _ _ Hi Hnow) as (?&?&?&?).
  - exists b. by rewrite Hl.
Qed.

(** ** The answer of the server *)

(** Until the time the server asked for, every request is refused with the
    rest of the wait, and nothing changes. *)
Lemma retry_after_respected provider seconds now l later :
  is_Some (l !! provider) → later < now + seconds * 1000 * NS_PER_MS →
  let l := recordRateLimitResponse provider seconds now l in
  tryAcquire provider later l = (l, Some (to_ms (now + seconds * 1000 * NS_PER_MS - later))) ∧
  isRateLimited provider later l = true ∧ getTimeUntilReset provider later l = to_ms (now + seconds * 1000 * NS_PER_MS - later).
Proof.
  intros [b Hb] Hlater. unfold recordRateLimitResponse. rewrite Hb. unfold tryAcquire, isRateLimited, getTimeUntilReset.
  rewrite lookup_insert_eq. unfold try_bucket. cbn. rewrite (proj2 (Z.ltb_lt _ _) Hlater). cbn. by rewrite insert_insert_eq.
Qed.

(** A provider without a rule is never limited. *)
Lemma unknown_provider provider now l : l !! provider = None → tryAcquire provider now l = (l, None).
Proof. intros Hl. unfold tryAcquire. by rewrite Hl. Qed.

(** With a limit of no requests a minute, [acquire] never returns: it loops
    without ever sleeping once tokens are there. *)
Lemma acquire_never_returns provider l readings :
  (∃ b, l !! provider = Some b ∧ maxRequestsPerMinute (rule b) = 0 ∧ minuteWindow b = mkWindow [] 0) →
  (acquire provider readings l).2 = None.
Proof.
  revert l. induction readings as [|now readings IH]; intros l (b & Hb & Hr & Hw); [done|]. cbn [acquire].
  unfold tryAcquire. rewrite Hb.
  assert (Htry : rule (try_bucket now b).1 = rule b ∧ minuteWindow (try_bucket now b).1 = mkWindow [] 0 ∧ (try_bucket now b).2 ≠ None).
  { unfold try_bucket. destruct (now <? retryAfterTime b); [done|]. destruct (refill_keeps b now) as (Er & Em & Eh).
    destruct (f_ltb _ _); [cbn; by rewrite Er, Em|]. cbn. rewrite Er, Em, Hr, Hw. cbn. by rewrite Er, Em, Hw. }
  destruct (try_bucket now b) as [b' [w|]]; cbn in Htry; [|by destruct Htry as (_ & _ & ?)].
  specialize (IH (<[provider := b']> l)). destruct (acquire provider readings _) as [l' waits]. cbn in *. rewrite IH; [done|].
  exists b'. rewrite lookup_insert_eq. destruct Htry as (-> & -> & _). by rewrite Hr.
Qed.
End limiter.

(** ** Examples *)

(** Decimal fractions with six places. *)
Definition micro : Z := 1000000.
#[local] Instance floats_micro : Floats Z := {|
  f_zero := 0; f_leb := Z.leb; f_ltb := Z.ltb; f_eqb := Z.eqb; f_add := Z.add; f_sub := Z.sub;
  f_mul a b := a * b / micro; f_div a b := a * micro / b; f_of_Z z := z * micro; f_to_int z := z / micro;
  f_floor z := z / micro * micro; f_parse _ := None; f_print := pretty; f_pi := 3 * micro; f_sin z := z; f_cos z := z;
  f_asin z := z; f_sqrt z := Z.sqrt (z * micro)
|}.
Definition micro_ceil (z : Z) : Z := - (- z / micro).

Definition ms (n : Z) : Z := n * NS_PER_MS.
Definition try_at (l : gmap string TokenBucket) (t : Z) : gmap string TokenBucket :=
  (tryAcquire 100000 micro_ceil "SIMBAD" (ms t) l).1.
Definition tokens (l : gmap string TokenBucket) : option Z := tokensPerSecond <$> l !! "SIMBAD"%string.
(** The default rule, with its twenty tokens spent at time 0. *)
Definition spent : gmap string TokenBucket :=
  Nat.iter 20 (recordRequestComplete "SIMBAD" true 0) (setProviderLimit "SIMBAD" default_rule 0 ∅).

(** Asking every millisecond counts the same time again and again: after ten
    milliseconds there are 0.55 tokens, where one question at the end gives
    0.1. *)
Example polling_gains_tokens :
  tokens (fold_left try_at [1; 2; 3; 4; 5; 6; 7; 8; 9; 10] spent) = Some 550000 ∧ tokens (try_at spent 10) = Some 100000.
Proof. vm_compute. done. Qed.

(** Asking takes nothing: with one token, two callers are told to go on, and
    after their requests the bucket owes one. *)
Example two_callers_one_token :
  let r := mkRule 1 100 1000 1 true in
  let l := setProviderLimit "SIMBAD" r 0 ∅ in
  let '(l, first) := tryAcquire 100000 micro_ceil "SIMBAD" 0 l in
  let '(l, second) := tryAcquire 100000 micro_ceil "SIMBAD" 0 l in
  let l := recordRequestComplete "SIMBAD" true 0 (recordRequestComplete "SIMBAD" true 0 l) in
  first = None ∧ second = None ∧ tokens l = Some (- micro).
Proof. vm_compute. done. Qed.

(** The queries do not refill: long after the burst the provider is still
    reported as limited, although a request would be allowed; and with a full
    bucket the time until the next slot is negative. *)
Example stale_queries :
  isRateLimited "SIMBAD" (ms 60000) spent = true ∧ (tryAcquire 100000 micro_ceil "SIMBAD" (ms 60000) spent).2 = None ∧
  getTimeUntilReset micro_ceil "SIMBAD" 0 (setProviderLimit "SIMBAD" default_rule 0 ∅) = -1900.
Proof. vm_compute. done. Qed.

(** Two requests a minute: the third within the minute is refused, and one
    millisecond after the minute it may be made. *)
Lemma sliding_windows_safe_witness :
  let r := mkRule 10 2 1000 20 true in
  Z.of_nat (length (recent MINUTE (ms 5000) [0; ms 1000])) ≤ 2.
Proof.
  intros r. set (l0 := setProviderLimit "SIMBAD" r 0 ∅).
  set (l1 := (tryAcquire 100000 micro_ceil "SIMBAD" 0 l0).1). set (l2 := recordRequestComplete "SIMBAD" true 0 l1).
  set (l3 := (tryAcquire 100000 micro_ceil "SIMBAD" (ms 1000) l2).1).
  assert (s0 : session 100000 micro_ceil "SIMBAD" r [] 0 false l0) by (refine (session_set _ _ "SIMBAD" r 0 ∅ _); reflexivity).
  assert (s1 : session 100000 micro_ceil "SIMBAD" r [] 0 true l1)
    by (refine (session_try _ _ _ _ _ _ _ l0 0 l1 None s0 _ _); [done|vm_compute; reflexivity]).
  assert (s2 : session 100000 micro_ceil "SIMBAD" r [0] 0 false l2)
    by (refine (session_complete _ _ _ _ _ _ _ 0 true s1 _); done).
  assert (s3 : session 100000 micro_ceil "SIMBAD" r [0] (ms 1000) true l3)
    by (refine (session_try _ _ _ _ _ _ _ l2 (ms 1000) l3 None s2 _ _); [done|vm_compute; reflexivity]).
  refine (proj1 (sliding_windows_safe 100000 micro_ceil "SIMBAD" r [0; ms 1000] (ms 1000) false _ _ _ _ (ms 5000))); [done..|].
  refine (session_complete _ _ _ _ _ _ _ (ms 1000) true s3 _). done.
Defined.
