(* ===== verification/ResultMerger.v ===== *)
(** * ResultMerger: combining local and online search results

    Models src/src/target/online/merger/result_merger.hpp and
    result_merger.cpp: when two objects are the same, how their fields are
    merged, and the merging of lists by the five strategies, plain and scored.
    Coordinates and scores are [double], the operations of [Floats]. *)

From S2P Require Import Prelude Text Repository.

Local Open Scope Z_scope.

Inductive MergeStrategy := PreferLocal | PreferOnline | MostRecent | MostComplete | Union.
#[export] Instance MergeStrategy_eq_dec : EqDecision MergeStrategy.
Proof. solve_decision. Defined.

Record MergeStats := mkMergeStats {
  localCount : Z;
  onlineCount : Z;
  mergedCount : Z;
  duplicatesRemoved : Z;
  conflictsResolved : Z
}.

(** [vector::resize] beyond [max_size]. *)
Inductive length_error := LengthError.

(** ** Names *)

(** [substr] from the first to the last character that is not blank. *)
Fixpoint str_rtrim (s : string) : string :=
  match s with
  | EmptyString => EmptyString
  | String c s' => let t := str_rtrim s' in if str_empty t && is_space c then EmptyString else String c t
  end.
Definition str_trim (s : string) : string := str_rtrim (str_span is_space s).2.

Definition normalizeString (s : string) : string := str_trim (str_tolower s).

(** [resize(n)] to at most the size there is. *)
Definition cut_to {A} (maxResults : Z) (l : list A) : result length_error (list A) :=
  if maxResults <? to_int (Z.of_nat (length l)) then
    if maxResults <? 0 then Throw LengthError else Ok (take (Z.to_nat maxResults) l)
  else Ok l.

Section merger.
Context `{FO : Floats F}.
(** [std::atan2], and the literals. *)
Context (atan2 : F → F → F) (one two f180 : F).
Abbreviation obj := (CelestialObjectModel F).

Record MergeConfig := mkMergeConfig {
  strategy : MergeStrategy;
  removeDuplicates : bool;
  coordinateMatchRadius : F;
  matchByName : bool;
  matchByCoordinates : bool;
  localScoreBonus : F;
  onlineScoreBonus : F;
  maxResults : Z;
  minScore : F
}.

(** ** When two objects are the same *)

Definition calculateAngularDistance (ra1 dec1 ra2 dec2 : F) : F :=
  let rad x := f_div (f_mul x f_pi) f180 in
  let dRa := f_sub (rad ra2) (rad ra1) in
  let dDec := f_sub (rad dec2) (rad dec1) in
  let a := f_add (f_mul (f_sin (f_div dDec two)) (f_sin (f_div dDec two)))
                 (f_mul (f_mul (f_mul (f_cos (rad dec1)) (f_cos (rad dec2))) (f_sin (f_div dRa two))) (f_sin (f_div dRa two))) in
  let c := f_mul two (atan2 (f_sqrt a) (f_sqrt (f_sub one a))) in
  f_mul (f_div f180 f_pi) c.

Definition doesNameMatch (cfg : MergeConfig) (a b : string) : bool :=
  matchByName cfg && negb (str_empty a || str_empty b) && String.eqb (normalizeString a) (normalizeString b).

Definition no_coordinates (o : obj) : bool := f_eqb (radJ2000 o) f_zero && str_empty (raJ2000 _ o).
Definition doesCoordinateMatch (cfg : MergeConfig) (a b : obj) : bool :=
  matchByCoordinates cfg && negb (no_coordinates a) && negb (no_coordinates b)
    && f_leb (calculateAngularDistance (radJ2000 a) (decDJ2000 a) (radJ2000 b) (decDJ2000 b)) (coordinateMatchRadius cfg).

Definition both (f : string → string → bool) (a b : string) : bool := negb (str_empty a) && negb (str_empty b) && f a b.

Definition isIdentifierDuplicate (cfg : MergeConfig) (a b : obj) : bool :=
  both (doesNameMatch cfg) (identifier a) (identifier b) || both (doesNameMatch cfg) (mIdentifier _ a) (mIdentifier _ b)
    || both (λ x y, String.eqb (normalizeString x) (normalizeString y)) (aliases _ a) (aliases _ b).

Definition isDuplicate (cfg : MergeConfig) (a b : obj) : bool :=
  isIdentifierDuplicate cfg a b || doesCoordinateMatch cfg a b
    || matchByName cfg && (both (doesNameMatch cfg) (identifier a) (mIdentifier _ b)
                           || both (doesNameMatch cfg) (mIdentifier _ a) (identifier b)).

(** ** Merging two objects *)

Definition one_if (b : bool) : Z := if b then 1 else 0.
Definition text_field (s : string) : Z := one_if (negb (str_empty s)).
Definition real_field (x : F) : Z := one_if (negb (f_eqb x f_zero)).

Definition countNonEmptyFields (o : obj) : Z :=
  text_field (identifier o) + text_field (mIdentifier _ o) + text_field (extensionName _ o) + text_field (component _ o)
  + text_field (className _ o) + one_if (negb (amateurRank _ o =? 0)) + text_field (chineseName o) + text_field (type o)
  + text_field (duplicateType _ o) + text_field (morphology _ o) + text_field (constellationZh _ o)
  + text_field (constellationEn _ o) + text_field (raJ2000 _ o) + real_field (radJ2000 o) + text_field (decJ2000 _ o)
  + real_field (decDJ2000 o) + real_field (visualMagnitudeV o) + real_field (photographicMagnitudeB _ o)
  + real_field (bMinusV _ o) + real_field (surfaceBrightness _ o) + real_field (majorAxis _ o) + real_field (minorAxis _ o)
  + real_field (positionAngle _ o) + text_field (detailedDescription _ o) + text_field (briefDescription _ o)
  + text_field (aliases _ o).

Definition fill_text (a b : string) : string := if str_empty a && negb (str_empty b) then b else a.
Definition fill_int (a b : Z) : Z := if (a =? 0) && negb (b =? 0) then b else a.
Definition fill_real (a b : F) : F := if f_eqb a f_zero && negb (f_eqb b f_zero) then b else a.

(** The missing fields of [base] from [source]. *)
Definition fill (base source : obj) : obj :=
  mkObject (id base) (fill_text (identifier base) (identifier source)) (fill_text (mIdentifier _ base) (mIdentifier _ source))
    (fill_text (extensionName _ base) (extensionName _ source)) (fill_text (component _ base) (component _ source))
    (fill_text (className _ base) (className _ source)) (fill_int (amateurRank _ base) (amateurRank _ source))
    (fill_text (chineseName base) (chineseName source)) (fill_text (type base) (type source))
    (fill_text (duplicateType _ base) (duplicateType _ source)) (fill_text (morphology _ base) (morphology _ source))
    (fill_text (constellationZh _ base) (constellationZh _ source)) (fill_text (constellationEn _ base) (constellationEn _ source))
    (fill_text (raJ2000 _ base) (raJ2000 _ source)) (fill_real (radJ2000 base) (radJ2000 source))
    (fill_text (decJ2000 _ base) (decJ2000 _ source)) (fill_real (decDJ2000 base) (decDJ2000 source))
    (fill_real (visualMagnitudeV base) (visualMagnitudeV source))
    (fill_real (photographicMagnitudeB _ base) (photographicMagnitudeB _ source)) (fill_real (bMinusV _ base) (bMinusV _ source))
    (fill_real (surfaceBrightness _ base) (surfaceBrightness _ source)) (fill_real (majorAxis _ base) (majorAxis _ source))
    (fill_real (minorAxis _ base) (minorAxis _ source)) (fill_real (positionAngle _ base) (positionAngle _ source))
    (fill_text (detailedDescription _ base) (detailedDescription _ source))
    (fill_text (briefDescription _ base) (briefDescription _ source)) (fill_text (aliases _ base) (aliases _ source))
    (clickCount _ base).

Definition mergeObjects (cfg : MergeConfig) (primary secondary : obj) : obj :=
  match strategy cfg with
  | PreferOnline => fill secondary primary
  | MostComplete =>
      if countNonEmptyFields primary <? countNonEmptyFields secondary then fill secondary primary else fill primary secondary
  | _ => fill primary secondary
  end.

(** ** Merging lists *)

(** The first online object not used yet that is the same as [o]. *)
Definition first_duplicate (cfg : MergeConfig) (o : obj) (online : list obj) (used : list nat) : option nat :=
  head (filter (λ i, (i ∉ used) ∧ (isDuplicate cfg o <$> online !! i) = Some true) (seq 0 (length online))).

(** The first pass: the local objects, merged, and the indices used. *)
Fixpoint match_local (cfg : MergeConfig) (locals online : list obj) (used : list nat) : list obj * list nat :=
  match locals with
  | [] => ([], used)
  | o :: rest =>
      match first_duplicate cfg o online used with
      | Some i =>
          let current := match online !! i with Some on => mergeObjects cfg o on | None => o end in
          let '(merged, used) := match_local cfg rest online (i :: used) in (current :: merged, used)
      | None => let '(merged, used) := match_local cfg rest online used in (o :: merged, used)
      end
  end.

(** The second pass. *)
Definition remaining (online : list obj) (used : list nat) : list obj :=
  omap (λ i, online !! i) (filter (λ i, i ∉ used) (seq 0 (length online))).

Definition object_key (o : obj) : string :=
  let key := if str_empty (identifier o) then mIdentifier _ o else identifier o in
  if str_empty key then f_print (radJ2000 o) +:+ "_" +:+ f_print (decDJ2000 o) else key.

Fixpoint dedup (seen : gset string) (l : list obj) : list obj :=
  match l with
  | [] => []
  | o :: l => if bool_decide (object_key o ∈ seen) then dedup seen l else o :: dedup ({[object_key o]} ∪ seen) l
  end.

(** The statistics are those of the call. *)
Definition merge (cfg : MergeConfig) (locals online : list obj) : MergeStats * result length_error (list obj) :=
  let stats merged dups conflicts :=
    mkMergeStats (Z.of_nat (length locals)) (Z.of_nat (length online)) (Z.of_nat merged) (Z.of_nat dups) (Z.of_nat conflicts) in
  match strategy cfg with
  | Union =>
      let all := locals ++ online in
      if removeDuplicates cfg then
        let l := dedup ∅ all in (stats (length l) (length all - length l)%nat 0%nat, Ok l)
      else (stats (length all) 0%nat 0%nat, Ok all)
  | _ =>
      let '(first, used) := match_local cfg locals online [] in
      let merged := first ++ remaining online used in
      (stats (length merged) 0%nat (length used), cut_to (maxResults cfg) merged)
  end.

(** The objects of each provider. *)
Definition mergeMultiple (cfg : MergeConfig) (results : list (list obj)) : MergeStats * result length_error (list obj) :=
  merge cfg [] (concat results).

(** ** Scored results *)

(** The fields of the search engine's object that the merger reads. *)
Record CelestialObject := mkCelestial {
  Identifier : string;
  RADJ2000 : F;
  DecDJ2000 : F
}.
Record ScoredSearchResult := mkScored {
  sr_object : option CelestialObject;             (* None is a null pointer *)
  relevanceScore : F
}.

Definition f_min (a b : F) : F := if f_ltb b a then b else a.

(** A [CelestialObjectModel] with these members and defaults elsewhere. *)
Definition model_of (o : CelestialObject) : obj :=
  (object_named 0 (Identifier o) "") <| radJ2000 := RADJ2000 o |> <| decDJ2000 := DecDJ2000 o |>.

Definition online_key (o : obj) : string := if str_empty (identifier o) then mIdentifier _ o else identifier o.

Fixpoint first_match (cfg : MergeConfig) (o : obj) (online : list obj) : option obj :=
  match online with
  | [] => None
  | on :: rest => if isDuplicate cfg o on then Some on else first_match cfg o rest
  end.

(** A local result after the online results were looked through, and the key
    of the one it matched. *)
Definition score_local (cfg : MergeConfig) (online : list obj) (s : ScoredSearchResult) : ScoredSearchResult * option string :=
  match sr_object s with
  | None => (s, None)
  | Some o =>
      match first_match cfg (model_of o) online with
      | Some on => (mkScored (sr_object s) (f_min one (f_add (relevanceScore s) (onlineScoreBonus cfg))), Some (online_key on))
      | None => (s, None)
      end
  end.

Context `{SO : StdSort}.

Definition mergeScored (cfg : MergeConfig) (locals : list ScoredSearchResult) (online : list obj) (base : F)
  : MergeStats * result length_error (list ScoredSearchResult) :=
  let adjusted := filter (λ s, f_leb (minScore cfg) (relevanceScore s) = true)
    (map (λ s, mkScored (sr_object s) (f_min one (f_add (relevanceScore s) (localScoreBonus cfg)))) locals) in
  let scored := map (score_local cfg online) adjusted in
  let keys := omap snd scored in
  let fresh := omap (λ on, if bool_decide (online_key on ∈ keys) then None
    else let s := f_min one (f_add base (onlineScoreBonus cfg)) in
         if f_leb (minScore cfg) s then Some (mkScored None s) else None) online in
  let sorted := std_sort (λ a b, f_ltb (relevanceScore b) (relevanceScore a)) (map fst scored ++ fresh) in
  let r := cut_to (maxResults cfg) sorted in
  (mkMergeStats (Z.of_nat (length locals)) (Z.of_nat (length online))
     (match r with Ok l => Z.of_nat (length l) | Throw _ => 0 end) 0 (Z.of_nat (length keys)), r).
(** ** Merging two objects loses nothing *)

Lemma fill_text_same a : fill_text a a = a.
Proof. unfold fill_text. by destruct (str_empty a). Qed.
Lemma fill_int_same a : fill_int a a = a.
Proof. unfold fill_int. by destruct (a =? 0). Qed.
Lemma fill_real_same a : fill_real a a = a.
Proof. unfold fill_real. by destruct (f_eqb a f_zero). Qed.

Lemma text_field_fill a b : text_field (fill_text a b) = Z.max (text_field a) (text_field b).
Proof. unfold text_field, fill_text. by destruct (str_empty a) eqn:Ea, (str_empty b) eqn:Eb; cbn; rewrite ?Ea, ?Eb. Qed.
Lemma int_field_fill a b :
  one_if (negb (fill_int a b =? 0)) = Z.max (one_if (negb (a =? 0))) (one_if (negb (b =? 0))).
Proof. unfold fill_int. by destruct (a =? 0) eqn:Ea, (b =? 0) eqn:Eb; cbn; rewrite ?Ea, ?Eb. Qed.
Lemma real_field_fill a b : real_field (fill_real a b) = Z.max (real_field a) (real_field b).
Proof. unfold real_field, fill_real. by destruct (f_eqb a f_zero) eqn:Ea, (f_eqb b f_zero) eqn:Eb; cbn; rewrite ?Ea, ?Eb. Qed.

Lemma fill_same o : fill o o = o.
Proof. unfold fill. rewrite !fill_text_same, !fill_int_same, !fill_real_same. by destruct o. Qed.

Lemma count_fill a b :
  countNonEmptyFields a ≤ countNonEmptyFields (fill a b) ∧ countNonEmptyFields b ≤ countNonEmptyFields (fill a b).
Proof.
  unfold countNonEmptyFields. cbn. rewrite !text_field_fill, !real_field_fill, int_field_fill.
  split; repeat apply Z.add_le_mono; apply Z.le_max_l || apply Z.le_max_r.
Qed.

Lemma mergeObjects_complete cfg a b :
  countNonEmptyFields a ≤ countNonEmptyFields (mergeObjects cfg a b) ∧
  countNonEmptyFields b ≤ countNonEmptyFields (mergeObjects cfg a b) ∧ mergeObjects cfg a a = a.
Proof.
  pose proof (count_fill a b) as [? ?]. pose proof (count_fill b a) as [? ?].
  unfold mergeObjects. destruct (strategy cfg); try (split_and!; [done..|apply fill_same]).
  split_and!; [by destruct (_ <? _)..|destruct (_ <? _); apply fill_same].
Qed.

(** ** Merging lists *)

(** Which online object, if any, each local object was merged with. *)
Definition combine (cfg : MergeConfig) (online : list obj) (o : obj) (p : option nat) : obj :=
  match p ≫= (online !!.) with Some on => mergeObjects cfg o on | None => o end.

(** [p] is the first online object that is the same as [o], leaving out those
    taken by [earlier] ones. *)
Definition chosen (cfg : MergeConfig) (online : list obj) (o : obj) (earlier : list nat) (p : option nat) : Prop :=
  (∀ i, p = Some i → ∃ on, online !! i = Some on ∧ isDuplicate cfg o on = true ∧ i ∉ earlier) ∧
  (∀ j on, online !! j = Some on → isDuplicate cfg o on = true → match p with Some i => (j < i)%nat | None => True end →
     j ∈ earlier).

Lemma head_filter_seq (P : nat → Prop) `{∀ i, Decision (P i)} a n :
  match head (filter P (seq a n)) with
  | Some i => P i ∧ (a <= i < a + n)%nat ∧ ∀ j, (a <= j < i)%nat → ¬ P j
  | None => ∀ j, (a <= j < a + n)%nat → ¬ P j
  end.
Proof.
  revert a. induction n as [|n IH]; intros a; cbn [seq]; [rewrite filter_nil; cbn; lia|].
  rewrite filter_cons. case_decide as Ha; cbn.
  - split_and!; [done|lia..|intros; lia].
  - specialize (IH (S a)). destruct (head (filter P (seq (S a) n))) as [i|].
    + destruct IH as (Hi & Hr & Hb). split_and!; [done|lia..|]. intros j Hj. destruct (decide (j = a)) as [->|]; [done|]. apply Hb. lia.
    + intros j Hj. destruct (decide (j = a)) as [->|]; [done|]. apply IH. lia.
Qed.

Lemma first_duplicate_chosen cfg o online used : chosen cfg online o used (first_duplicate cfg o online used).
Proof.
  unfold first_duplicate. pose proof (head_filter_seq (λ i, (i ∉ used) ∧ (isDuplicate cfg o <$> online !! i) = Some true) 0 (length online)) as Hh.
  destruct (head _) as [i|].
  - destruct Hh as ((Hu & Hd) & Hi & Hb). apply fmap_Some in Hd as (on & Hon & Hd). split.
    + intros i' [= <-]. exists on. by rewrite <- Hd.
    + intros j on' Hj Hd' Hlt. destruct (decide (j ∈ used)) as [|Hj']; [done|]. destruct (Hb j); [lia|]. split; [done|]. by rewrite Hj, <- Hd'.
  - split; [done|]. intros j on' Hj Hd' _. destruct (decide (j ∈ used)) as [|Hj']; [done|].
    destruct (Hh j); [split; [lia|]; cbn; by eapply lookup_lt_Some|]. split; [done|]. by rewrite Hj, <- Hd'.
Qed.

Fixpoint all_chosen (cfg : MergeConfig) (online locals : list obj) (earlier : list nat) (partners : list (option nat)) : Prop :=
  match locals, partners with
  | [], [] => True
  | o :: locals, p :: partners =>
      chosen cfg online o earlier p ∧
      all_chosen cfg online locals (match p with Some i => i :: earlier | None => earlier end) partners
  | _, _ => False
  end.

Lemma match_local_spec cfg online locals used :
  NoDup used → Forall (λ i, (i < length online)%nat) used →
  ∃ partners,
    let '(merged, used') := match_local cfg locals online used in
    merged = zip_with (combine cfg online) locals partners ∧ all_chosen cfg online locals used partners ∧
    used' ≡ₚ omap (λ p, p) partners ++ used ∧ NoDup used' ∧ Forall (λ i, (i < length online)%nat) used'.
Proof.
  revert used. induction locals as [|o locals IH]; intros used Hnd Hr; cbn [match_local].
  { exists []. by split_and!. }
  pose proof (first_duplicate_chosen cfg o online used) as Hc. destruct (first_duplicate cfg o online used) as [i|] eqn:Ef.
  - destruct (proj1 Hc i eq_refl) as (on & Hon & Hd & Hi).
    destruct (IH (i :: used)) as (partners & Hs); [by constructor|constructor; [by eapply lookup_lt_Some|done]|].
    exists (Some i :: partners). destruct (match_local cfg locals online (i :: used)) as [merged used'].
    destruct Hs as (-> & Hall & Hp & Hnd' & Hr'). split_and!; [|done..| |done|done].
    + cbn. unfold combine at 2. cbn. by rewrite Hon.
    + rewrite Hp. cbn. by rewrite Permutation_middle.
  - destruct (IH used Hnd Hr) as (partners & Hs). exists (None :: partners).
    destruct (match_local cfg locals online used) as [merged used']. destruct Hs as (-> & Hall & Hp & Hnd' & Hr'). by split_and!.
Qed.

Lemma length_remaining online used :
  NoDup used → Forall (λ i, (i < length online)%nat) used → (length (remaining online used) + length used = length online)%nat.
Proof.
  intros Hnd Hr. unfold remaining.
  assert (Hlen : ∀ l, Forall (λ i, (i < length online)%nat) l → length (omap (λ i, online !! i) l) = length l).
  { induction 1 as [|i l Hi Hl IH]; [done|]. cbn. destruct (lookup_lt_is_Some_2 online i Hi) as [x ->]. cbn. by rewrite IH. }
  rewrite Hlen by (apply Forall_forall; intros i [_ Hi]%list_elem_of_filter; apply elem_of_seq in Hi; lia).
  assert (Hp : filter (λ i, i ∈ used) (seq 0 (length online)) ≡ₚ used).
  { apply NoDup_Permutation; [apply NoDup_filter, NoDup_seq|done|]. intros i. rewrite list_elem_of_filter, elem_of_seq.
    rewrite Forall_forall in Hr. split; [tauto|]. intros Hi. specialize (Hr i Hi). split; [done|lia]. }
  transitivity (length (filter (λ i, i ∉ used) (seq 0 (length online))) + length (filter (λ i, i ∈ used) (seq 0 (length online))))%nat;
    [by rewrite Hp|].
  transitivity (length (seq 0 (length online))); [|apply length_seq]. generalize (seq 0 (length online)) as l. clear.
  induction l as [|i l IH]; [done|]. rewrite !filter_cons.
  destruct (decide (i ∈ used)) as [Hi|Hi].
  - rewrite decide_False by tauto. cbn. lia.
  - rewrite decide_True by done. cbn. lia.
Qed.

(** Merging by a strategy other than union: every local object appears
    once, in order, merged with the first online object that is the same and was
    not taken by an earlier one; the online objects not taken follow in order,
    so nothing is lost and nothing appears twice; the statistics count them; and
    the list is cut to the maximum. *)
Theorem mergeWith_correct cfg locals online :
  strategy cfg ≠ Union →
  ∃ partners used,
    all_chosen cfg online locals [] partners ∧ used ≡ₚ omap (λ p, p) partners ∧ NoDup used ∧
    let merged := zip_with (combine cfg online) locals partners ++ remaining online used in
    (length merged + length used = length locals + length online)%nat ∧
    merge cfg locals online =
      (mkMergeStats (Z.of_nat (length locals)) (Z.of_nat (length online)) (Z.of_nat (length merged)) 0 (Z.of_nat (length used)),
       cut_to (maxResults cfg) merged).
Proof.
  intros Hs. destruct (match_local_spec cfg online locals []) as (partners & Hm); [constructor|constructor|].
  destruct (match_local cfg locals online []) as [merged used] eqn:Em. destruct Hm as (-> & Hall & Hp & Hnd & Hr).
  exists partners, used. rewrite app_nil_r in Hp. split; [done|]. split; [done|]. split; [done|]. cbn zeta. split.
  - rewrite length_app, length_zip_with. pose proof (length_remaining online used Hnd Hr).
    assert (length partners = length locals) as ->; [|lia].
    clear -Hall. revert partners Hall. generalize (@nil nat). induction locals as [|o l IH]; intros e [|p ps]; cbn; try done.
    intros [_ Hps]. f_equal. eauto.
  - unfold merge. rewrite Em. by destruct (strategy cfg).
Qed.

(** ** The union *)

Lemma dedup_spec seen l :
  NoDup (object_key <$> dedup seen l) ∧ (∀ o, o ∈ dedup seen l → object_key o ∉ seen) ∧ sublist (dedup seen l) l ∧
  (∀ o, o ∈ l → object_key o ∈ seen ∨ object_key o ∈ object_key <$> dedup seen l).
Proof.
  revert seen. induction l as [|o l IH]; intros seen; cbn.
  { split_and!; [constructor|by intros o ?%not_elem_of_nil|constructor|by intros o ?%not_elem_of_nil]. }
  case_bool_decide as Hseen.
  - destruct (IH seen) as (H1 & H2 & H3 & H4). split_and!; [done|done|by constructor|].
    intros o' [->|Ho']%elem_of_cons; auto.
  - destruct (IH ({[object_key o]} ∪ seen)) as (H1 & H2 & H3 & H4). split_and!.
    + cbn. constructor; [|done]. intros (o' & Hk & Ho')%list_elem_of_fmap. apply H2 in Ho'. set_solver.
    + intros o' [->|Ho']%elem_of_cons; [done|]. apply H2 in Ho'. set_solver.
    + by constructor.
    + cbn. intros o' [->|Ho']%elem_of_cons; [right; by left|]. destruct (H4 o' Ho') as [Hin|Hin]; [|right; by right].
      apply elem_of_union in Hin as [->%elem_of_singleton|]; [right; by left|by left].
Qed.

(** The union without duplicates keeps the first object of every key, in
    order, whatever its maximum; it never fails. *)
Theorem union_correct cfg locals online :
  strategy cfg = Union → removeDuplicates cfg = true →
  ∃ l, (merge cfg locals online).2 = Ok l ∧ sublist l (locals ++ online) ∧ NoDup (object_key <$> l) ∧
    (∀ o, o ∈ locals ++ online → object_key o ∈ object_key <$> l) ∧
    mergedCount (merge cfg locals online).1 + duplicatesRemoved (merge cfg locals online).1
      = Z.of_nat (length locals + length online).
Proof.
  intros Hs Hd. unfold merge. rewrite Hs, Hd. destruct (dedup_spec ∅ (locals ++ online)) as (H1 & H2 & H3 & H4).
  eexists. split_and!; [done..| |].
  - intros o Ho. destruct (H4 o Ho); [set_solver|done].
  - cbn. apply sublist_length in H3. rewrite length_app in H3. rewrite <- Nat2Z.inj_add, length_app. lia.
Qed.

(** ** Scored results *)

(** The answer is sorted by relevance and no longer than the maximum. *)
Lemma mergeScored_sorted cfg locals online base l :
  strict_weak (λ a b : ScoredSearchResult, f_ltb (relevanceScore b) (relevanceScore a)) →
  (mergeScored cfg locals online base).2 = Ok l →
  StronglySorted (λ a b, f_ltb (relevanceScore a) (relevanceScore b) = false) l ∧
  (to_int (Z.of_nat (length l)) = Z.of_nat (length l) → Z.of_nat (length l) ≤ maxResults cfg).
Proof.
  intros Hsw. unfold mergeScored. cbn zeta. cbn [snd]. set (all := map fst _ ++ _).
  pose proof (std_sort_sorted (λ a b : ScoredSearchResult, f_ltb (relevanceScore b) (relevanceScore a)) all Hsw) as Hsort.
  set (sorted := std_sort _ all) in *. unfold cut_to.
  destruct (Z.ltb_spec (maxResults cfg) (to_int (Z.of_nat (length sorted)))) as [Hlt|Hge].
  - destruct (Z.ltb_spec (maxResults cfg) 0) as [|Hpos]; [discriminate|]. intros [= <-]. split.
    + clear -Hsort. revert Hsort. generalize (Z.to_nat (maxResults cfg)) as n. generalize sorted as s.
      induction s as [|x s IH]; intros [|n] Hs; cbn; [constructor..|]. apply StronglySorted_inv in Hs as [Hs Hx].
      constructor; [auto|by apply Forall_take].
    + intros _. rewrite length_take. lia.
  - intros [= <-]. split; [done|]. intros Heq. by rewrite <- Heq.
Qed.
End merger.

(** ** Examples *)

#[local] Instance merger_floats : Floats Z := floats_Z.
#[local] Instance merger_sort : StdSort := insertion_sort.

(** Names decide; distances are not looked at. *)
Definition by_name (s : MergeStrategy) : MergeConfig := mkMergeConfig (F := Z) s true 0 true false 0 0 100 0.
Abbreviation merge_Z := (merge (F := Z) (λ _ _, 0) 1 2 180).
Abbreviation mergeScored_Z := (mergeScored (F := Z) (λ _ _, 0) 100 2 180).
Definition named (n : Z) (name : string) : CelestialObjectModel Z := object_named n name "".

(** The results of several providers: with the default strategy the same object
    of two providers stays twice. *)
Example providers_not_merged :
  (mergeMultiple (F := Z) (λ _ _, 0) 1 2 180 (by_name PreferLocal) [[named 1 "M31"]; [named 2 "m31 "]]).2
    = Ok [named 1 "M31"; named 2 "m31 "].
Proof. vm_compute. done. Qed.

(** The strategy by time stamps is the strategy that prefers local objects. *)
Lemma most_recent_is_prefer_local `{Floats F} (cfg : MergeConfig) a b :
  strategy cfg = MostRecent → mergeObjects cfg a b = fill a b.
Proof. unfold mergeObjects. by intros ->. Qed.

(** A scored result for an object that is only online has no object. *)
Example online_result_without_object :
  (mergeScored_Z (by_name PreferLocal) [] [named 1 "M31"] 50).2 = Ok [mkScored None 50].
Proof. vm_compute. done. Qed.

(** One online object without a name that matches by its coordinates hides all
    the others without a name. *)
Example nameless_objects_hidden :
  let cfg := mkMergeConfig (F := Z) PreferLocal true 0 true true 0 0 100 0 in
  let nameless (n ra : Z) := (named n "") <| radJ2000 := ra |> in
  let local := mkScored (Some (mkCelestial "" 5 0)) 80 in
  length <$> (match (mergeScored (F := Z) (λ y _, y) 100 2 180 cfg [local] [nameless 1 5; nameless 2 9000000] 50).2 with
              | Ok l => Some l | Throw _ => None end) = Some 1%nat.
Proof. vm_compute. done. Qed.

(** A negative maximum makes the merge throw. *)
Example negative_maximum :
  (merge_Z (mkMergeConfig PreferLocal true 0 true false 0 0 (-1) 0) [] [named 1 "M31"]).2 = Throw LengthError.
Proof. vm_compute. done. Qed.

(** Two local objects and three online ones, of which two are the first local
    object again. *)
Lemma mergeWith_correct_witness :
  ∃ partners used,
    used ≡ₚ omap (λ p, p) partners ∧ length used = 1%nat ∧
    (merge_Z (by_name PreferLocal) [named 1 "M31"; named 2 "M42"] [named 3 "m31"; named 4 "M1"; named 5 "M31"]).2 =
      Ok (zip_with (combine (by_name PreferLocal) [named 3 "m31"; named 4 "M1"; named 5 "M31"]) [named 1 "M31"; named 2 "M42"] partners
            ++ remaining [named 3 "m31"; named 4 "M1"; named 5 "M31"] used).
Proof.
  destruct (mergeWith_correct (F := Z) (λ _ _, 0) 1 2 180 (by_name PreferLocal) [named 1 "M31"; named 2 "M42"]
    [named 3 "m31"; named 4 "M1"; named 5 "M31"] ltac:(discriminate)) as (partners & used & Hall & Hp & Hnd & Hlen & Hm).
  exists partners, used. split; [exact Hp|]. rewrite Hm in *. cbn zeta in Hlen, Hm.
  assert (Hu : length used = 1%nat).
  { assert (Hc : conflictsResolved (merge_Z (by_name PreferLocal) [named 1 "M31"; named 2 "M42"]
      [named 3 "m31"; named 4 "M1"; named 5 "M31"]).1 = 1) by (vm_compute; reflexivity).
    rewrite Hm in Hc. cbn [fst conflictsResolved] in Hc. lia. }
  split; [exact Hu|]. cbn [snd]. unfold cut_to. cbn [maxResults by_name].
  rewrite Hu in Hlen. cbn [length] in Hlen.
  match goal with |- context [to_int (Z.of_nat (length ?l))] => replace (length l) with 4%nat by (cbn [length] in *; lia) end.
  vm_compute (100 <? to_int (Z.of_nat 4)). reflexivity.
Defined.
