(* ===== verification/DeviceEventBus.v ===== *)
(** * DeviceEventBus: events of the device layer

    Models src/src/device/events/device_event_bus.hpp and device_event_bus.cpp:
    the types of events, subscriptions by type, category and source, publishing
    with sequence numbers, history and counts, and the hand-over to a message
    bus.  A method is one step; a callback is the id of its subscription, and
    [delivered] lists the calls made.  The message bus is the atom library's:
    [sent] lists what it was given.  Sequence numbers and counters are not
    bounded.  Left out: [subscribeTyped], whose cast cannot succeed. *)

From S2P Require Import Prelude JsonCodec JsonTree.

Local Open Scope Z_scope.

Inductive DeviceEventCategory := Device | Plugin | Backend | Component | System.
#[export] Instance DeviceEventCategory_eq_dec : EqDecision DeviceEventCategory.
Proof. solve_decision. Defined.

Inductive DeviceEventType :=
| DeviceAdded | DeviceRemoved | DeviceConnected | DeviceDisconnected | DeviceStateChanged | DevicePropertyChanged | DeviceError
| PluginLoaded | PluginUnloaded | PluginReloading | PluginReloaded | PluginError
| BackendConnected | BackendDisconnected | BackendDiscovery | BackendError
| ComponentRegistered | ComponentUnregistered | ComponentStateSync
| SystemStartup | SystemShutdown | ConfigurationChanged.
#[export] Instance DeviceEventType_eq_dec : EqDecision DeviceEventType.
Proof. solve_decision. Defined.

(** The values of the enumeration. *)
Definition all_event_types : list DeviceEventType :=
  [DeviceAdded; DeviceRemoved; DeviceConnected; DeviceDisconnected; DeviceStateChanged; DevicePropertyChanged; DeviceError;
   PluginLoaded; PluginUnloaded; PluginReloading; PluginReloaded; PluginError;
   BackendConnected; BackendDisconnected; BackendDiscovery; BackendError;
   ComponentRegistered; ComponentUnregistered; ComponentStateSync; SystemStartup; SystemShutdown; ConfigurationChanged].
Definition type_index (t : DeviceEventType) : nat :=
  default 0%nat (fst <$> list_find (λ t', t' = t) all_event_types).
#[export] Instance DeviceEventType_countable : Countable DeviceEventType.
Proof. refine (inj_countable' type_index (λ n, default DeviceAdded (all_event_types !! n)) _). by intros []. Defined.

Definition eventCategoryToString (c : DeviceEventCategory) : string :=
  match c with
  | Device => "Device"
  | Plugin => "Plugin"
  | Backend => "Backend"
  | Component => "Component"
  | System => "System"
  end.

Definition eventTypeToString (t : DeviceEventType) : string :=
  match t with
  | DeviceAdded => "DeviceAdded"
  | DeviceRemoved => "DeviceRemoved"
  | DeviceConnected => "DeviceConnected"
  | DeviceDisconnected => "DeviceDisconnected"
  | DeviceStateChanged => "DeviceStateChanged"
  | DevicePropertyChanged => "DevicePropertyChanged"
  | DeviceError => "DeviceError"
  | PluginLoaded => "PluginLoaded"
  | PluginUnloaded => "PluginUnloaded"
  | PluginReloading => "PluginReloading"
  | PluginReloaded => "PluginReloaded"
  | PluginError => "PluginError"
  | BackendConnected => "BackendConnected"
  | BackendDisconnected => "BackendDisconnected"
  | BackendDiscovery => "BackendDiscovery"
  | BackendError => "BackendError"
  | ComponentRegistered => "ComponentRegistered"
  | ComponentUnregistered => "ComponentUnregistered"
  | ComponentStateSync => "ComponentStateSync"
  | SystemStartup => "SystemStartup"
  | SystemShutdown => "SystemShutdown"
  | ConfigurationChanged => "ConfigurationChanged"
  end.

Definition getEventCategory (t : DeviceEventType) : DeviceEventCategory :=
  match t with
  | DeviceAdded | DeviceRemoved | DeviceConnected | DeviceDisconnected | DeviceStateChanged | DevicePropertyChanged
  | DeviceError => Device
  | PluginLoaded | PluginUnloaded | PluginReloading | PluginReloaded | PluginError => Plugin
  | BackendConnected | BackendDisconnected | BackendDiscovery | BackendError => Backend
  | ComponentRegistered | ComponentUnregistered | ComponentStateSync => Component
  | SystemStartup | SystemShutdown | ConfigurationChanged => System
  end.

Definition getTopic (t : DeviceEventType) : string :=
  match t with
  | DeviceAdded => "device.added"
  | DeviceRemoved => "device.removed"
  | DeviceConnected => "device.connected"
  | DeviceDisconnected => "device.disconnected"
  | DeviceStateChanged => "device.state"
  | DevicePropertyChanged => "device.property"
  | DeviceError => "device.error"
  | PluginLoaded => "device.plugin.loaded"
  | PluginUnloaded => "device.plugin.unloaded"
  | PluginReloading => "device.plugin.reloading"
  | PluginReloaded => "device.plugin.reloaded"
  | _ => "device"
  end.

Section bus.
Context `{JT : JsonTree J F, HI : !HashIter DeviceEventType}.
(** [get<uint64_t>()]; None is [type_error]. *)
Context (get_u64 : J → option Z).

Record DeviceEvent := mkEvent {
  ev_type : DeviceEventType;
  category : DeviceEventCategory;
  source : string;
  target : string;
  message : string;
  data : J;
  timestamp : Z;                                 (* milliseconds *)
  sequenceNumber : Z
}.
#[export] Instance DeviceEvent_eta : Eta DeviceEvent := λ e,
  mkEvent (ev_type e) (category e) (source e) (target e) (message e) (data e) (timestamp e) (sequenceNumber e).
#[export] Instance category_upd : Upd category. Proof. derive_upd. Defined.
#[export] Instance source_upd : Upd source. Proof. derive_upd. Defined.
#[export] Instance target_upd : Upd target. Proof. derive_upd. Defined.
#[export] Instance message_upd : Upd message. Proof. derive_upd. Defined.
#[export] Instance data_upd : Upd data. Proof. derive_upd. Defined.
#[export] Instance sequenceNumber_upd : Upd sequenceNumber. Proof. derive_upd. Defined.

(** ** JSON forms *)

Definition event_fields (e : DeviceEvent) : list (string * J) :=
  [("type", jt_string (eventTypeToString (ev_type e))); ("category", jt_string (eventCategoryToString (category e)));
   ("source", jt_string (source e)); ("target", jt_string (target e)); ("message", jt_string (message e)); ("data", data e);
   ("timestamp", jt_int (timestamp e)); ("sequenceNumber", jt_int (sequenceNumber e))]%string.
Definition event_toJson (e : DeviceEvent) : J := jt_object (event_fields e).

(** [if (j.contains(k)) event.x = j[k].get<A>()]. *)
Definition read_member {A} (get : J → option A) (k : string) (j : J) (set : A → DeviceEvent → DeviceEvent) (e : DeviceEvent)
  : result string DeviceEvent :=
  match jt_find j k with
  | None => Ok e
  | Some v => match get v with Some a => Ok (set a e) | None => Throw (jt_what 302 v) end
  end.

(** The type, the category and the sequence number of a new event are not
    initialised: they are those of [junk], whose other members are the
    defaults. *)
Definition event_fromJson (junk : DeviceEvent) (j : J) : result string DeviceEvent :=
  let* e := read_member jt_get_string "source" j (λ s e, e <| source := s |>) junk in
  let* e := read_member jt_get_string "target" j (λ s e, e <| target := s |>) e in
  let* e := read_member jt_get_string "message" j (λ s e, e <| message := s |>) e in
  let* e := read_member Some "data" j (λ v e, e <| data := v |>) e in
  read_member get_u64 "sequenceNumber" j (λ n e, e <| sequenceNumber := n |>) e.

(** The events with more members: their JSON forms, and what the helpers make. *)
Definition stateChange_toJson (e : DeviceEvent) (deviceId deviceName deviceType oldState newState : string) : J :=
  jt_object (event_fields e ++ [("deviceId", jt_string deviceId); ("deviceName", jt_string deviceName);
    ("deviceType", jt_string deviceType); ("oldState", jt_string oldState); ("newState", jt_string newState)]%string).
Definition propertyChange_toJson (e : DeviceEvent) (deviceId propertyName : string) (oldValue newValue : J) : J :=
  jt_object (event_fields e ++ [("deviceId", jt_string deviceId); ("propertyName", jt_string propertyName);
    ("oldValue", oldValue); ("newValue", newValue)]%string).
Definition errorEvent_toJson (e : DeviceEvent) (deviceId errorCode errorMessage : string) (recoverable : bool) : J :=
  jt_object (event_fields e ++ [("deviceId", jt_string deviceId); ("errorCode", jt_string errorCode);
    ("errorMessage", jt_string errorMessage); ("recoverable", jt_bool recoverable)]%string).
Definition pluginEvent_toJson (e : DeviceEvent) (pluginName pluginVersion : string) : J :=
  jt_object (event_fields e ++ [("pluginName", jt_string pluginName); ("pluginVersion", jt_string pluginVersion)]%string).
Definition discoveryEvent_toJson (e : DeviceEvent) (backendName : string) (discoveredDevices : list string) (deviceCount : Z) : J :=
  jt_object (event_fields e ++ [("backendName", jt_string backendName);
    ("discoveredDevices", jt_array (map jt_string discoveredDevices)); ("deviceCount", jt_int deviceCount)]%string).

(** The base of a state change, of an error, and of a plugin event; the
    sequence number is not initialised. *)
Definition createStateChangeEvent (now junk : Z) (deviceId oldState newState : string) : DeviceEvent :=
  mkEvent DeviceStateChanged Device deviceId "" ("Device state changed from " +:+ oldState +:+ " to " +:+ newState)
    (jt_make ShNull) now junk.
Definition createErrorEvent (now junk : Z) (deviceId errorMessage : string) : DeviceEvent :=
  mkEvent DeviceError Device deviceId "" errorMessage (jt_make ShNull) now junk.
Definition createPluginEvent (now junk : Z) (t : DeviceEventType) (pluginName msg : string) : DeviceEvent :=
  mkEvent t Plugin pluginName "" (if str_empty msg then eventTypeToString t +:+ ": " +:+ pluginName else msg)
    (jt_make ShNull) now junk.

(** ** The bus *)

Record Subscription := mkSubscription {
  sub_id : Z;
  sub_type : option DeviceEventType;
  sub_category : option DeviceEventCategory;
  sub_source : option string
}.

Record DeviceEventBus := mkBus {
  hasMessageBus : bool;
  initialized : bool;
  subscriptions : list Subscription;
  nextSubscriptionId : Z;
  eventHistory : list DeviceEvent;
  maxHistorySize : Z;
  sequenceCounter : Z;
  publishedCount : Z;
  eventCounts : gmap DeviceEventType Z;
  asyncEnabled : bool;
  historyEnabled : bool;
  delivered : list (Z * DeviceEvent);
  sent : list (string * DeviceEvent * Z)         (* topic, event, delay in milliseconds *)
}.
#[export] Instance DeviceEventBus_eta : Eta DeviceEventBus := λ b,
  mkBus (hasMessageBus b) (initialized b) (subscriptions b) (nextSubscriptionId b) (eventHistory b) (maxHistorySize b)
    (sequenceCounter b) (publishedCount b) (eventCounts b) (asyncEnabled b) (historyEnabled b) (delivered b) (sent b).
#[export] Instance hasMessageBus_upd : Upd hasMessageBus. Proof. derive_upd. Defined.
#[export] Instance initialized_upd : Upd initialized. Proof. derive_upd. Defined.
#[export] Instance subscriptions_upd : Upd subscriptions. Proof. derive_upd. Defined.
#[export] Instance nextSubscriptionId_upd : Upd nextSubscriptionId. Proof. derive_upd. Defined.
#[export] Instance eventHistory_upd : Upd eventHistory. Proof. derive_upd. Defined.
#[export] Instance maxHistorySize_upd : Upd maxHistorySize. Proof. derive_upd. Defined.
#[export] Instance sequenceCounter_upd : Upd sequenceCounter. Proof. derive_upd. Defined.
#[export] Instance publishedCount_upd : Upd publishedCount. Proof. derive_upd. Defined.
#[export] Instance eventCounts_upd : Upd eventCounts. Proof. derive_upd. Defined.
#[export] Instance asyncEnabled_upd : Upd asyncEnabled. Proof. derive_upd. Defined.
#[export] Instance historyEnabled_upd : Upd historyEnabled. Proof. derive_upd. Defined.
#[export] Instance delivered_upd : Upd delivered. Proof. derive_upd. Defined.
#[export] Instance sent_upd : Upd sent. Proof. derive_upd. Defined.

Definition new_bus : DeviceEventBus := mkBus false false [] 1 [] 1000 0 0 ∅ true true [] [].

(** A member of the configuration; an exception leaves what was set before. *)
Definition config_member {A} (get : J → option A) (k : string) (config : J) (set : A → DeviceEventBus → DeviceEventBus)
  (acc : DeviceEventBus * result string unit) : DeviceEventBus * result string unit :=
  match acc with
  | (b, Throw what) => (b, Throw what)
  | (b, Ok _) =>
      match jt_find config k with
      | None => (b, Ok tt)
      | Some v => match get v with Some a => (set a b, Ok tt) | None => (b, Throw (jt_what 302 v)) end
      end
  end.

Definition initialize (config : J) (b : DeviceEventBus) : DeviceEventBus * result string unit :=
  if initialized b then (b, Ok tt)
  else
    let acc := config_member get_u64 "maxHistorySize" config (λ n b, b <| maxHistorySize := n |>) (b, Ok tt) in
    let acc := config_member jt_get_bool "asyncEnabled" config (λ x b, b <| asyncEnabled := x |>) acc in
    match config_member jt_get_bool "historyEnabled" config (λ x b, b <| historyEnabled := x |>) acc with
    | (b, Ok _) => (b <| initialized := true |>, Ok tt)
    | (b, Throw what) => (b, Throw what)
    end.

Definition shutdown (b : DeviceEventBus) : DeviceEventBus :=
  if initialized b then
    b <| subscriptions := [] |> <| eventHistory := [] |> <| hasMessageBus := false |> <| initialized := false |>
  else b.
Definition setMessageBus (given : bool) (b : DeviceEventBus) : DeviceEventBus := b <| hasMessageBus := given |>.

(** *** Publishing *)

Definition differs {A} `{EqDecision A} (want : option A) (a : A) : bool :=
  match want with Some x => negb (bool_decide (x = a)) | None => false end.
Definition matches (e : DeviceEvent) (s : Subscription) : bool :=
  negb (differs (sub_type s) (ev_type e) || differs (sub_category s) (category e) || differs (sub_source s) (source e)).

Definition dispatchEvent (e : DeviceEvent) (b : DeviceEventBus) : DeviceEventBus :=
  b <| delivered ::= (λ l, l ++ map (λ s, (sub_id s, e)) (filter (λ s, matches e s = true) (subscriptions b))) |>.

Definition recordEvent (e : DeviceEvent) (b : DeviceEventBus) : DeviceEventBus :=
  let history := eventHistory b ++ [e] in
  b <| eventHistory := if maxHistorySize b <? Z.of_nat (length history)
                       then drop (length history - Z.to_nat (maxHistorySize b)) history else history |>.

(** The copy with the next sequence number and its category. *)
Definition stamp (e : DeviceEvent) (b : DeviceEventBus) : DeviceEvent * DeviceEventBus :=
  (e <| sequenceNumber := sequenceCounter b |> <| category := getEventCategory (ev_type e) |>, b <| sequenceCounter ::= Z.succ |>).

Definition count_of (t : DeviceEventType) (b : DeviceEventBus) : Z := default 0 (eventCounts b !! t).

Definition publish (e : DeviceEvent) (b : DeviceEventBus) : DeviceEventBus :=
  let '(copy, b) := stamp e b in
  let b := b <| publishedCount ::= Z.succ |> in
  let b := b <| eventCounts ::= <[ev_type e := count_of (ev_type e) b + 1]> |> in
  let b := if historyEnabled b then recordEvent copy b else b in
  let b := dispatchEvent copy b in
  if asyncEnabled b && hasMessageBus b then b <| sent ::= (λ l, l ++ [(getTopic (ev_type copy), copy, 0)]) |> else b.

Definition publishDelayed (e : DeviceEvent) (delayMs : Z) (b : DeviceEventBus) : DeviceEventBus :=
  if hasMessageBus b then
    let '(copy, b) := stamp e b in b <| sent ::= (λ l, l ++ [(getTopic (ev_type copy), copy, delayMs)]) |>
  else publish e b.
Definition publishAsync (e : DeviceEvent) (b : DeviceEventBus) : DeviceEventBus := publishDelayed e 0 b.

(** *** Subscribing *)

Definition add_subscription (t : option DeviceEventType) (c : option DeviceEventCategory) (s : option string) (b : DeviceEventBus)
  : DeviceEventBus * Z :=
  let id := nextSubscriptionId b in
  (b <| nextSubscriptionId ::= Z.succ |> <| subscriptions ::= (λ l, l ++ [mkSubscription id t c s]) |>, id).
Definition subscribeAll : DeviceEventBus → DeviceEventBus * Z := add_subscription None None None.
Definition subscribe (t : DeviceEventType) : DeviceEventBus → DeviceEventBus * Z := add_subscription (Some t) None None.
Definition subscribeCategory (c : DeviceEventCategory) : DeviceEventBus → DeviceEventBus * Z := add_subscription None (Some c) None.
Definition subscribeSource (s : string) : DeviceEventBus → DeviceEventBus * Z := add_subscription None None (Some s).
Definition unsubscribe (id : Z) (b : DeviceEventBus) : DeviceEventBus := b <| subscriptions ::= filter (λ s, sub_id s ≠ id) |>.
Definition unsubscribeAll (t : DeviceEventType) (b : DeviceEventBus) : DeviceEventBus :=
  b <| subscriptions ::= filter (λ s, sub_type s ≠ Some t) |>.
Definition clearSubscriptions (b : DeviceEventBus) : DeviceEventBus := b <| subscriptions := [] |>.

(** *** History and statistics *)

Definition getRecentEvents (count : nat) (b : DeviceEventBus) : list DeviceEvent :=
  match eventHistory b with
  | [] => []
  | l => drop (if (count <? length l)%nat then (length l - count)%nat else 0%nat) l
  end.

(** From the newest on, until [count] are found. *)
Fixpoint collect (t : DeviceEventType) (count : nat) (newest_first : list DeviceEvent) : list DeviceEvent :=
  match count, newest_first with
  | S count', e :: rest => if bool_decide (ev_type e = t) then e :: collect t count' rest else collect t count rest
  | _, _ => []
  end.
Definition getEventsByType (t : DeviceEventType) (count : nat) (b : DeviceEventBus) : list DeviceEvent :=
  rev (collect t count (rev (eventHistory b))).
Definition clearHistory (b : DeviceEventBus) : DeviceEventBus := b <| eventHistory := [] |>.

Definition getStatistics (b : DeviceEventBus) : J :=
  let counts := iter_map (eventCounts b) in
  jt_object [("publishedCount", jt_int (publishedCount b)); ("subscriptionCount", jt_int (Z.of_nat (length (subscriptions b))));
    ("historySize", jt_int (Z.of_nat (length (eventHistory b)))); ("maxHistorySize", jt_int (maxHistorySize b));
    ("asyncEnabled", jt_bool (asyncEnabled b)); ("historyEnabled", jt_bool (historyEnabled b));
    ("hasMessageBus", jt_bool (hasMessageBus b));
    ("eventCounts", match counts with
                    | [] => jt_make ShNull
                    | _ => jt_object (map (λ tn, (eventTypeToString tn.1, jt_int tn.2)) counts)
                    end)]%string.

(** ** Publishing *)

(** The events as they are published from sequence number [n] on. *)
Fixpoint stamps (n : Z) (evs : list DeviceEvent) : list DeviceEvent :=
  match evs with
  | [] => []
  | e :: evs => (e <| sequenceNumber := n |> <| category := getEventCategory (ev_type e) |>) :: stamps (n + 1) evs
  end.

(** The calls made for an event. *)
Definition calls (subs : list Subscription) (e : DeviceEvent) : list (Z * DeviceEvent) :=
  map (λ s, (sub_id s, e)) (filter (λ s, matches e s = true) subs).

Definition occurrences (t : DeviceEventType) (evs : list DeviceEvent) : Z := Z.of_nat (length (filter (λ e, ev_type e = t) evs)).

Lemma record_last e b :
  0 ≤ maxHistorySize b → eventHistory (recordEvent e b) = last_n (Z.to_nat (maxHistorySize b)) (eventHistory b ++ [e]).
Proof.
  intros Hm. unfold recordEvent. cbn. destruct (Z.ltb_spec (maxHistorySize b) (Z.of_nat (length (eventHistory b ++ [e])))) as [|Hle]; [done|].
  symmetry. apply last_n_all. lia.
Qed.

(** What one event changes. *)
Lemma publish_fields e b :
  let copy := e <| sequenceNumber := sequenceCounter b |> <| category := getEventCategory (ev_type e) |> in
  let b' := publish e b in
  subscriptions b' = subscriptions b ∧ maxHistorySize b' = maxHistorySize b ∧ historyEnabled b' = historyEnabled b ∧
  asyncEnabled b' = asyncEnabled b ∧ hasMessageBus b' = hasMessageBus b ∧ nextSubscriptionId b' = nextSubscriptionId b ∧
  eventHistory b' = (if historyEnabled b then eventHistory (recordEvent copy b) else eventHistory b) ∧
  delivered b' = delivered b ++ calls (subscriptions b) copy ∧
  publishedCount b' = publishedCount b + 1 ∧ sequenceCounter b' = sequenceCounter b + 1 ∧
  (∀ t, count_of t b' = count_of t b + if decide (ev_type e = t) then 1 else 0) ∧
  sent b' = sent b ++ if asyncEnabled b && hasMessageBus b then [(getTopic (ev_type e), copy, 0)] else [].
Proof.
  cbn zeta. unfold publish, stamp. cbn. destruct (historyEnabled b) eqn:Eh; cbn; rewrite ?Eh;
    (destruct (asyncEnabled b && hasMessageBus b) eqn:Es; cbn; rewrite ?Eh, ?Es, ?app_nil_r;
     split_and!; try done; try lia; intros t; unfold count_of; cbn;
     (destruct (decide (ev_type e = t)) as [Ht|Ht]; [subst t; rewrite lookup_insert_eq; cbn; lia|rewrite lookup_insert_ne by done; lia])).
Qed.

(** Events published one after the other get consecutive sequence numbers
    and the category of their type; every subscription whose filters match is
    called once for each, in the order of the subscriptions; the history keeps the
    newest, up to its size, unless it is off; each type is counted, and each
    event goes to the message bus under its topic when there is one. *)
Theorem publish_correct evs b :
  0 ≤ maxHistorySize b → Z.of_nat (length (eventHistory b)) ≤ maxHistorySize b →
  let b' := fold_left (λ b e, publish e b) evs b in
  let copies := stamps (sequenceCounter b) evs in
  eventHistory b' = (if historyEnabled b then last_n (Z.to_nat (maxHistorySize b)) (eventHistory b ++ copies) else eventHistory b) ∧
  delivered b' = delivered b ++ concat (map (calls (subscriptions b)) copies) ∧
  publishedCount b' = publishedCount b + Z.of_nat (length evs) ∧
  sequenceCounter b' = sequenceCounter b + Z.of_nat (length evs) ∧
  (∀ t, count_of t b' = count_of t b + occurrences t evs) ∧
  sent b' = sent b ++ (if asyncEnabled b && hasMessageBus b then map (λ e, (getTopic (ev_type e), e, 0)) copies else []).
Proof.
  intros Hm Hlen. cbn zeta. revert b Hm Hlen. induction evs as [|e evs IH]; intros b Hm Hlen; cbn [fold_left stamps].
  { cbn. rewrite !app_nil_r, last_n_all by lia. unfold occurrences. cbn. split_and!; [by destruct (historyEnabled b)|done|lia|lia|intros t; lia|].
    by destruct (_ && _); rewrite app_nil_r. }
  destruct (publish_fields e b) as (Esub & Emax & Eh & Ea & Eb & _ & Ehist & Ed & Ep & Es & Ec & Esent).
  set (b1 := publish e b) in *. set (copy := e <| sequenceNumber := _ |> <| category := _ |>) in *.
  assert (Hlen1 : Z.of_nat (length (eventHistory b1)) ≤ maxHistorySize b1).
  { rewrite Ehist, Emax. destruct (historyEnabled b); [|done]. rewrite record_last, length_last_n by done. lia. }
  destruct (IH b1) as (IH1 & IH2 & IH3 & IH4 & IH5 & IH6); [by rewrite Emax|done|].
  rewrite IH1, IH2, IH3, IH4, IH6, Ehist, Ed, Ep, Es, Esent, Esub, Emax, Eh, Ea, Eb. cbn [length]. split_and!.
  - destruct (historyEnabled b); [|done]. rewrite record_last by done. by rewrite last_n_app, <- app_assoc.
  - cbn. by rewrite <- app_assoc.
  - lia.
  - lia.
  - intros t. rewrite IH5, Ec. unfold occurrences. rewrite filter_cons. case_decide; cbn; lia.
  - destruct (_ && _); cbn; [by rewrite <- app_assoc|by rewrite !app_nil_r].
Qed.

(** What the subscriptions of the four kinds receive. *)
Lemma subscribed_events e id t c s :
  (matches e (mkSubscription id None None None) = true) ∧
  (matches e (mkSubscription id (Some t) None None) = true ↔ ev_type e = t) ∧
  (matches e (mkSubscription id None (Some c) None) = true ↔ category e = c) ∧
  (matches e (mkSubscription id None None (Some s)) = true ↔ source e = s).
Proof.
  unfold matches. cbn. split_and!; [done|..]; rewrite ?orb_false_r, negb_involutive, bool_decide_eq_true; split; congruence.
Qed.

(** ** The history *)

Lemma collect_is_take t n l : collect t n l = take n (filter (λ e, ev_type e = t) l).
Proof.
  revert n. induction l as [|e l IH]; intros [|n]; cbn [collect]; try done. rewrite filter_cons.
  case_bool_decide as Ht; [rewrite decide_True by done; cbn; by rewrite IH|by rewrite decide_False].
Qed.

Lemma filter_rev_eq {A} (P : A → Prop) `{∀ x, Decision (P x)} (l : list A) : filter P (rev l) = rev (filter P l).
Proof.
  induction l as [|x l IH]; [done|]. cbn [rev]. rewrite filter_app, filter_cons, IH, filter_cons.
  case_decide; cbn; [done|by rewrite app_nil_r].
Qed.

(** The queries answer with the newest events, oldest first. *)
Theorem history_queries t n b :
  getRecentEvents n b = last_n n (eventHistory b) ∧
  getEventsByType t n b = last_n n (filter (λ e, ev_type e = t) (eventHistory b)).
Proof.
  split.
  - unfold getRecentEvents, last_n. destruct (eventHistory b) as [|e l]; [by rewrite drop_nil|].
    destruct (Nat.ltb_spec n (length (e :: l))); [done|]. by replace (length (e :: l) - n)%nat with 0%nat by lia.
  - unfold getEventsByType. rewrite collect_is_take, filter_rev_eq. unfold last_n. apply rev_inj.
    rewrite rev_involutive. apply firstn_rev.
Qed.

(** ** JSON *)

Lemma type_names_inj t t' : eventTypeToString t = eventTypeToString t' → t = t'.
Proof. by destruct t, t'. Qed.

(** Reading back what was printed loses the type, the category and the time. *)
Theorem event_json_roundtrip junk e :
  get_u64 (jt_int (sequenceNumber e)) = Some (sequenceNumber e) →
  event_fromJson junk (event_toJson e) =
    Ok (mkEvent (ev_type junk) (category junk) (source e) (target e) (message e) (data e) (timestamp junk) (sequenceNumber e)).
Proof.
  intros Hn. unfold event_fromJson, event_toJson, event_fields, read_member. rewrite !find_object. cbn.
  rewrite !get_string_law. cbn. rewrite Hn. by destruct e.
Qed.

(** ** Invariant *)

Inductive reachable : DeviceEventBus → Prop :=
| reach_new : reachable new_bus
| reach_initialize config b : reachable b → reachable (initialize config b).1
| reach_shutdown b : reachable b → reachable (shutdown b)
| reach_message_bus given b : reachable b → reachable (setMessageBus given b)
| reach_publish e b : reachable b → reachable (publish e b)
| reach_delayed e delayMs b : reachable b → reachable (publishDelayed e delayMs b)
| reach_subscribe t c s b : reachable b → reachable (add_subscription t c s b).1
| reach_unsubscribe id b : reachable b → reachable (unsubscribe id b)
| reach_unsubscribeAll t b : reachable b → reachable (unsubscribeAll t b)
| reach_clear b : reachable b → reachable (clearSubscriptions b)
| reach_clear_history b : reachable b → reachable (clearHistory b).

Record bus_ok (b : DeviceEventBus) : Prop := {
  ok_ids : NoDup (sub_id <$> subscriptions b);
  ok_next : Forall (λ s, sub_id s < nextSubscriptionId b) (subscriptions b);
  ok_sorted : StronglySorted Z.lt (sequenceNumber <$> eventHistory b);
  ok_below : Forall (λ e, sequenceNumber e < sequenceCounter b) (eventHistory b);
  ok_category : Forall (λ e, category e = getEventCategory (ev_type e)) (eventHistory b);
  ok_published : publishedCount b ≤ sequenceCounter b
}.

Lemma StronglySorted_app_one (l : list Z) n : StronglySorted Z.lt l → Forall (λ x, x < n) l → StronglySorted Z.lt (l ++ [n]).
Proof.
  induction 1 as [|x l Hs IH Hx]; cbn; intros Hn; [repeat constructor|]. apply Forall_cons in Hn as [Hxn Hn].
  constructor; [auto|]. apply Forall_app. split; [done|by repeat constructor].
Qed.

Lemma StronglySorted_drop {A} (R : A → A → Prop) n l : StronglySorted R l → StronglySorted R (drop n l).
Proof. revert n. induction l as [|x l IH]; intros [|n] Hs; cbn; try done. apply StronglySorted_inv in Hs as [Hs _]. auto. Qed.

Lemma config_member_bus {A} (get : J → option A) k config set acc (P : DeviceEventBus → Prop) :
  (∀ a b, P b → P (set a b)) → P acc.1 → P (config_member get k config set acc).1.
Proof.
  intros Hset. destruct acc as [b [u|what]]; cbn; [|done]. intros Hb.
  destruct (jt_find config k); [|done]. destruct (get _); cbn; auto.
Qed.

Lemma publish_ok e b : bus_ok b → bus_ok (publish e b).
Proof.
  intros []. destruct (publish_fields e b) as (Esub & Emax & Eh & Ea & Eb & En & Ehist & Ed & Ep & Es & Ec & Esent).
  split; rewrite ?Esub, ?En, ?Ehist, ?Ep, ?Es; try done; [..|lia].
  - destruct (historyEnabled b); [|done]. unfold recordEvent. cbn.
    assert (Hs : StronglySorted Z.lt (sequenceNumber <$> eventHistory b ++ [e <| sequenceNumber := sequenceCounter b |> <| category := getEventCategory (ev_type e) |>])).
    { rewrite fmap_app. apply StronglySorted_app_one; [done|]. by apply Forall_fmap. }
    destruct (_ <? _); [|done]. rewrite fmap_drop. by apply StronglySorted_drop.
  - assert (Hf : Forall (λ e, sequenceNumber e < sequenceCounter b + 1) (eventHistory b)).
    { eapply Forall_impl; [exact ok_below0|]. cbn. lia. }
    destruct (historyEnabled b); [|done]. unfold recordEvent. cbn.
    assert (Hs : Forall (λ e, sequenceNumber e < sequenceCounter b + 1)
      (eventHistory b ++ [e <| sequenceNumber := sequenceCounter b |> <| category := getEventCategory (ev_type e) |>])).
    { apply Forall_app. split; [done|]. constructor; [cbn; lia|constructor]. }
    destruct (_ <? _); [by apply Forall_drop|done].
  - destruct (historyEnabled b); [|done]. unfold recordEvent. cbn.
    assert (Hs : Forall (λ e, category e = getEventCategory (ev_type e))
      (eventHistory b ++ [e <| sequenceNumber := sequenceCounter b |> <| category := getEventCategory (ev_type e) |>])).
    { apply Forall_app. split; [done|]. by repeat constructor. }
    destruct (_ <? _); [by apply Forall_drop|done].
Qed.

Lemma filter_ok (P : Subscription → Prop) `{∀ s, Decision (P s)} b : bus_ok b → bus_ok (b <| subscriptions ::= filter P |>).
Proof.
  intros []. split; try done; cbn.
  - eapply sublist_NoDup; [exact ok_ids0|]. apply fmap_sublist, sublist_filter.
  - apply Forall_forall. intros s [_ Hs]%list_elem_of_filter. rewrite Forall_forall in ok_next0. auto.
Qed.

(** In every reachable state of the bus, subscriptions have ids of their
    own, and the history is ordered by sequence numbers already given out, with the
    category of each type. *)
Theorem bus_invariant b : reachable b → bus_ok b.
Proof.
  induction 1 as [|config b _ IH|b _ IH|given b _ IH|e b _ IH|e d b _ IH|t c s b _ IH|i b _ IH|t b _ IH|b _ IH|b _ IH].
  - split; cbn; try constructor; lia.
  - unfold initialize. destruct (initialized b); [done|].
    assert (Hset : ∀ b', bus_ok b' → (∀ n, bus_ok (b' <| maxHistorySize := n |>)) ∧ (∀ x, bus_ok (b' <| asyncEnabled := x |>)) ∧
      (∀ x, bus_ok (b' <| historyEnabled := x |>)) ∧ bus_ok (b' <| initialized := true |>)).
    { intros b' []. split_and!; intros; by split. }
    set (acc1 := config_member _ "maxHistorySize" _ _ _). set (acc2 := config_member _ "asyncEnabled" _ _ _).
    set (acc3 := config_member _ "historyEnabled" _ _ _).
    assert (H1 : bus_ok acc1.1) by (apply config_member_bus; [intros a b' Hb'; by apply Hset|done]).
    assert (H2 : bus_ok acc2.1) by (apply config_member_bus; [intros a b' Hb'; by apply Hset|done]).
    assert (H3 : bus_ok acc3.1) by (apply config_member_bus; [intros a b' Hb'; by apply Hset|done]).
    destruct acc3 as [b3 []]; cbn in *; [by apply Hset|done].
  - unfold shutdown. destruct (initialized b); [|done]. destruct IH. split; cbn; try constructor; done.
  - destruct IH. by split.
  - by apply publish_ok.
  - unfold publishDelayed. destruct (hasMessageBus b); [|by apply publish_ok]. destruct IH. split; cbn; try done; [|lia].
    eapply Forall_impl; [exact ok_below0|]. cbn. lia.
  - destruct IH. split; cbn; try done.
    + rewrite fmap_app. apply NoDup_app. split_and!; [done| |apply NoDup_singleton].
      intros x (s' & -> & Hs')%list_elem_of_fmap Hx. cbn in Hx. apply list_elem_of_singleton in Hx.
      rewrite Forall_forall in ok_next0. specialize (ok_next0 s' Hs'). lia.
    + apply Forall_app. split; [|constructor; [cbn; lia|constructor]]. eapply Forall_impl; [exact ok_next0|]. cbn. lia.
  - by apply filter_ok.
  - by apply filter_ok.
  - destruct IH. split; cbn; try done; constructor.
  - destruct IH. split; cbn; try done; constructor.
Qed.
End bus.

(** ** Examples *)

#[local] Instance bus_tree : JsonTree jtree Z := jtree_json (λ _, ""%string) (λ _, None).
#[local] Instance bus_iter : HashIter DeviceEventType := canonical_iter.
Definition u64_of (j : jtree) : option Z := match j with TInt z => Some z | _ => None end.

Definition demo_event (t : DeviceEventType) (src : string) : @DeviceEvent jtree := mkEvent t System src "" "" TNull 0 77.
(** A listener for connections, one for everything about a camera, and a
    history of two. *)
Definition demo_bus : @DeviceEventBus jtree :=
  (subscribeSource "cam" (subscribe DeviceConnected (initialize u64_of (TObj [("maxHistorySize"%string, TInt 2)]) new_bus).1).1).1.

Example demo_publish :
  let b := fold_left (λ b e, publish e b) [demo_event DeviceAdded "cam"; demo_event DeviceConnected "cam"; demo_event DeviceConnected "x"] demo_bus in
  map (λ ce, (ce.1, sequenceNumber ce.2)) (delivered b) = [(2, 0); (1, 1); (2, 1); (1, 2)] ∧
  map sequenceNumber (eventHistory b) = [1; 2] ∧ map category (eventHistory b) = [Device; Device].
Proof. vm_compute. done. Qed.

(** With a message bus, an event published asynchronously reaches neither the
    subscribers of the bus nor its history and counts. *)
Example async_skips_subscribers :
  let b := publishAsync (demo_event DeviceConnected "cam") (setMessageBus true demo_bus) in
  delivered b = [] ∧ eventHistory b = [] ∧ publishedCount b = 0 ∧ length (sent b) = 1%nat.
Proof. vm_compute. done. Qed.

(** Events of backends, of components and of the system share one topic. *)
Example one_topic_for_the_rest :
  map getTopic [BackendConnected; ComponentRegistered; SystemShutdown; PluginError] = ["device"; "device"; "device"; "device"]%string.
Proof. reflexivity. Qed.

(** Three events: the history of two keeps the last ones. *)
Lemma publish_correct_witness :
  let b := fold_left (λ b e, publish e b) [demo_event DeviceAdded "cam"; demo_event DeviceConnected "cam"; demo_event DeviceConnected "x"] demo_bus in
  map sequenceNumber (eventHistory b) = [1; 2] ∧ count_of DeviceConnected b = 2.
Proof.
  destruct (publish_correct [demo_event DeviceAdded "cam"; demo_event DeviceConnected "cam"; demo_event DeviceConnected "x"] demo_bus
    ltac:(vm_compute; discriminate) ltac:(vm_compute; discriminate)) as (Hh & _ & _ & _ & Hc & _).
  cbn zeta. split; [rewrite Hh; vm_compute; reflexivity|rewrite Hc; vm_compute; reflexivity].
Defined.
