(* ===== verification/ComponentManager.v ===== *)
(** * ComponentManager: the components of the application

    Models ComponentManagerImpl and the ComponentManager in front of it
    (src/src/components/manager/: types.hpp, manager_impl.cpp, manager.cpp and
    the template of manager.hpp) on top of the module loader and the dependency
    graph.  [mutex_] is a plain std::mutex that some methods lock again, so it
    is part of the state, as in the loader.  The pool of component objects, the
    file system and what the loader asks of the system are parameters; the file
    tracker is one too.  The loads of a batch run one after the other.  A
    listener is a number and its calls are recorded; a listener that calls the
    manager back is not modelled. *)

From S2P Require Import Prelude Version DependencyGraph Loader JsonTree Text.

(** ** types.hpp *)

Inductive ComponentEvent :=
| PreLoad | PostLoad | PreUnload | PostUnload | ConfigChanged | StateChanged
| ErrorEvent | DependencyResolved | HealthCheck.

Inductive ComponentState :=
| Created | Initialized | Running | Paused | Stopped | ErrorState | Unloading | Disabled.

#[export] Instance ComponentEvent_eq_dec : EqDecision ComponentEvent.
Proof. solve_decision. Defined.
#[export] Instance ComponentState_eq_dec : EqDecision ComponentState.
Proof. solve_decision. Defined.

Definition event_index (e : ComponentEvent) : nat :=
  match e with
  | PreLoad => 0 | PostLoad => 1 | PreUnload => 2 | PostUnload => 3 | ConfigChanged => 4
  | StateChanged => 5 | ErrorEvent => 6 | DependencyResolved => 7 | HealthCheck => 8
  end.

#[export] Instance ComponentEvent_countable : Countable ComponentEvent.
Proof.
  refine (inj_countable' event_index (λ n, match n with
    | 0 => PreLoad | 1 => PostLoad | 2 => PreUnload | 3 => PostUnload | 4 => ConfigChanged
    | 5 => StateChanged | 6 => ErrorEvent | 7 => DependencyResolved | _ => HealthCheck end) _).
  by intros [].
Defined.

Definition componentEventToString (event : ComponentEvent) : string :=
  match event with
  | PreLoad => "PreLoad" | PostLoad => "PostLoad" | PreUnload => "PreUnload"
  | PostUnload => "PostUnload" | ConfigChanged => "ConfigChanged" | StateChanged => "StateChanged"
  | ErrorEvent => "Error" | DependencyResolved => "DependencyResolved" | HealthCheck => "HealthCheck"
  end.

Definition componentStateToString (state : ComponentState) : string :=
  match state with
  | Created => "Created" | Initialized => "Initialized" | Running => "Running"
  | Paused => "Paused" | Stopped => "Stopped" | ErrorState => "Error"
  | Unloading => "Unloading" | Disabled => "Disabled"
  end.

(** The value of the enumerator, which [static_cast<int>] gives. *)
Definition state_code (s : ComponentState) : Z :=
  match s with
  | Created => 0 | Initialized => 1 | Running => 2 | Paused => 3 | Stopped => 4
  | ErrorState => 5 | Unloading => 6 | Disabled => 7
  end.

Definition isValidStateTransition (from to : ComponentState) : bool :=
  if bool_decide (to = ErrorState) || bool_decide (to = Disabled) then true else
  match from with
  | Created => bool_decide (to = Initialized) || bool_decide (to = Stopped)
  | Initialized => bool_decide (to = Running) || bool_decide (to = Stopped)
  | Running => bool_decide (to = Paused) || bool_decide (to = Stopped) || bool_decide (to = Unloading)
  | Paused => bool_decide (to = Running) || bool_decide (to = Stopped)
  | Stopped => bool_decide (to = Initialized) || bool_decide (to = Unloading)
  | ErrorState => bool_decide (to = Stopped) || bool_decide (to = Initialized)
  | Unloading => false
  | Disabled => bool_decide (to = Created)
  end.

Definition isActiveState (s : ComponentState) : bool :=
  bool_decide (s = Running) || bool_decide (s = Paused).
Definition isTerminalState (s : ComponentState) : bool := bool_decide (s = Unloading).

Record ComponentOptions (J : Type) := mkComponentOptions {
  autoStart : bool;
  lazy : bool;
  priority : Z;
  group : string;
  config : J;
  timeout : Z;
  restartOnError : bool;
  maxRetries : Z
}.
Arguments mkComponentOptions {J}.
Arguments autoStart {J}.
Arguments lazy {J}.
Arguments priority {J}.
Arguments group {J}.
Arguments config {J}.
Arguments timeout {J}.
Arguments restartOnError {J}.
Arguments maxRetries {J}.

#[export] Instance ComponentOptions_eta J : Eta (ComponentOptions J) := λ o,
  mkComponentOptions (autoStart o) (lazy o) (priority o) (group o) (config o) (timeout o)
    (restartOnError o) (maxRetries o).

(** ** The manager *)

(** A call of a listener. *)
Record notification (J : Type) := mkNotification {
  listener : nat;
  about : string;
  event : ComponentEvent;
  data : J
}.
Arguments mkNotification {J}.
Arguments listener {J}.
Arguments about {J}.
Arguments event {J}.
Arguments data {J}.

(** [C] is what a component pointer points at; a pointer may be null.
    [acquired] counts the objects taken from the pool; [notified] are the calls
    of the listeners, the latest last. *)
Record Manager (J C : Type) := mkManager {
  moduleLoader_ : ModuleLoader;
  dependencyGraph_ : DependencyGraph;
  components_ : gmap string (option C);
  componentOptions_ : gmap string (ComponentOptions J);
  componentStates_ : gmap string ComponentState;
  locked : bool;
  lastError_ : string;
  performanceMonitoringEnabled_ : bool;
  acquired : nat;
  eventListeners_ : gmap ComponentEvent (list nat);
  componentGroups_ : gmap string (list string);
  notified : list (notification J)
}.
Arguments mkManager {J C}.
Arguments moduleLoader_ {J C}.
Arguments dependencyGraph_ {J C}.
Arguments components_ {J C}.
Arguments componentOptions_ {J C}.
Arguments componentStates_ {J C}.
Arguments locked {J C}.
Arguments lastError_ {J C}.
Arguments performanceMonitoringEnabled_ {J C}.
Arguments acquired {J C}.
Arguments eventListeners_ {J C}.
Arguments componentGroups_ {J C}.
Arguments notified {J C}.

#[export] Instance Manager_eta J C : Eta (Manager J C) := λ m,
  mkManager (moduleLoader_ m) (dependencyGraph_ m) (components_ m) (componentOptions_ m)
    (componentStates_ m) (locked m) (lastError_ m) (performanceMonitoringEnabled_ m) (acquired m)
    (eventListeners_ m) (componentGroups_ m) (notified m).

Definition Manager_new {J C} : Manager J C :=
  mkManager ModuleLoader_new DependencyGraph_new ∅ ∅ ∅ false "" true 0 ∅ ∅ [].

(** A call returns, or its thread locks a mutex it holds (undefined behaviour of
    std::mutex and std::shared_mutex, so nothing is said of what follows), or a
    search of the loader runs out of fuel. *)
Inductive call (J C A : Type) :=
| Returned (m : Manager J C) (a : A)
| SelfLock
| Unfinished.
Arguments Returned {J C A}.
Arguments SelfLock {J C A}.
Arguments Unfinished {J C A}.

Definition Op (J C A : Type) : Type := Manager J C → call J C A.

#[export] Instance Op_ret J C : MRet (Op J C) := λ A a m, Returned m a.
#[export] Instance Op_bind J C : MBind (Op J C) := λ A B k c m,
  match c m with
  | Returned m' a => k a m'
  | SelfLock => SelfLock
  | Unfinished => Unfinished
  end.

Section manager.
Context `{JsonTree J F} `{!HashIter string} {sorter : StdSort} {C : Type}.
Variables (fs : string → option file) (computeHash : string → Z)
          (open_library : string → option string) (uninitialized : Z).
(** The n-th object of the pool: none, or a component pointer. *)
Variable pool : nat → option (option C).
(** [fs::exists], and the names in a directory with whether they are regular files. *)
Variables (exists_file : string → bool) (listing : string → list (string * bool)).
Variable componentsDirectory_ : string.
(** The file tracker: whether there is one, and whether its scan and watch return. *)
Variable fileTracker_ : option bool.

Abbreviation Op := (Op J C).

Definition asks {A} (f : Manager J C → A) : Op A := λ m, Returned m (f m).
Definition change (f : Manager J C → Manager J C) : Op unit := λ m, Returned (f m) tt.

(** A method of the module loader. *)
Definition of_loader {A} (op : ModuleLoader → outcome A) : Op A := λ m,
  match op (moduleLoader_ m) with
  | Done l a => Returned (m <| moduleLoader_ := l |>) a
  | Relock => SelfLock
  | OutOfFuel => Unfinished
  end.

(** A [std::lock_guard] on [mutex_] around [body]. *)
Definition with_lock {A} (body : Op A) : Op A := λ m,
  if locked m then SelfLock else
  match body (m <| locked := true |>) with
  | Returned m' a => Returned (m' <| locked := false |>) a
  | r => r
  end.

Definition null : J := jt_make ShNull.
Definition default_options : ComponentOptions J :=
  mkComponentOptions true false 0 "" null 30000 false 3.

Definition notifyListeners (component : string) (e : ComponentEvent) (d : J) : Op unit :=
  change (λ m, m <| notified ::= (λ calls,
    calls ++ map (λ callback, mkNotification callback component e d) (default [] (eventListeners_ m !! e))) |>).

(** A transition that is not valid is logged and made. *)
Definition updateComponentState (name : string) (newState : ComponentState) : Op unit :=
  with_lock (change (λ m, m <| componentStates_ ::= <[name := newState]> |>)).

Definition validateComponentOperation (name : string) : Op bool :=
  with_lock (asks (λ m, bool_decide (is_Some (components_ m !! name)))).

Definition handleError (name operation what : string) : Op unit :=
  change (λ m, m <| lastError_ := operation +:+ ": " +:+ what |>);;
  updateComponentState name ErrorState;;
  notifyListeners name ErrorEvent
    (jt_object [("operation"%string, jt_string operation); ("error"%string, jt_string what)]).

Definition getComponent (component_name : string) : Op (option (option C)) :=
  with_lock (asks (λ m, components_ m !! component_name)).
Definition hasComponent (component_name : string) : Op bool :=
  with_lock (asks (λ m, bool_decide (is_Some (components_ m !! component_name)))).

(** *** Loading *)

(** [params.at(k).get<std::string>()]. *)
Definition at_string (k : string) (params : J) : option string := jt_find params k ≫= jt_get_string.

(** The dependencies that are listed; [None] is a type_error. *)
Definition dependencies_of (params : J) : option (list string) :=
  match jt_find params "dependencies" with
  | None => Some []
  | Some v => match jt_shape v with ShArray l => mapM jt_get_string l | _ => None end
  end.

Definition acquire : Op (option (option C)) := λ m,
  Returned (m <| acquired ::= S |>) (pool (acquired m)).

(** A call that may throw; false if it does. *)
Definition try_graph (f : DependencyGraph → result exn DependencyGraph) : Op bool := λ m,
  match f (dependencyGraph_ m) with
  | Ok g => Returned (m <| dependencyGraph_ := g |>) true
  | Throw _ => Returned m false
  end.

(** Stops at the first exception. *)
Fixpoint add_dependencies (name : string) (ver : Version) (deps : list string) : Op bool :=
  match deps with
  | [] => mret true
  | dep :: rest =>
      ok ← try_graph (addDependency name dep ver);
      if ok : bool then add_dependencies name ver rest else mret false
  end.

(** What is read from the parameters, in the order the code reads it: the
    name, then (after the pool) the path and the version. *)
Definition path_and_version (params : J) : option (string * Version) :=
  path ← at_string "path" params;
  match jt_value jt_get_string "1.0.0"%string "version" params with
  | Throw _ => None
  | Ok version => match Version_parse version with Ok ver => Some (path, ver) | Throw _ => None end
  end.

Definition loadComponent (params : J) : Op bool :=
  match at_string "name" params with
  | None => mret false
  | Some name =>
      got ← acquire;
      match got with
      | None => mret false
      | Some instance =>
          match path_and_version params with
          | None => mret false
          | Some (path, ver) =>
              already ← asks (λ m, bool_decide (is_Some (components_ m !! name)));
              if already : bool then mret false else
              node ← try_graph (addNode name ver);
              if negb node then mret false else
              match dependencies_of params with
              | None => mret false
              | Some deps =>
                  ok ← add_dependencies name ver deps;
                  if negb ok then mret false else
                  loaded ← of_loader (loadModule fs computeHash open_library uninitialized path name);
                  match loaded with
                  | Throw _ => mret false
                  | Ok _ =>
                      with_lock
                        (change (λ m, m <| components_ ::= <[name := instance]> |>
                                        <| componentOptions_ ::= <[name := default_options]> |>);;
                         updateComponentState name Created;;
                         notifyListeners name PostLoad null;;
                         mret true)
                  end
              end
          end
      end
  end.

(** A module the loader keeps is only logged. *)
Definition unloadComponent (params : J) : Op bool :=
  match at_string "name" params with
  | None => mret false
  | Some name =>
      with_lock
        (found ← asks (λ m, bool_decide (is_Some (components_ m !! name)));
         if negb found then mret false else
         notifyListeners name PreUnload null;;
         of_loader (unloadModule name);;
         change (λ m, m <| components_ ::= delete name |> <| componentOptions_ ::= delete name |>
                        <| componentStates_ ::= delete name |>
                        <| dependencyGraph_ ::= removeNode name |>);;
         notifyListeners name PostUnload null;;
         mret true)
  end.

(** [basePath / file]. *)
Definition append_path (dir file : string) : string :=
  match file with String "/" _ => file | _ => path_join dir file end.

Definition component_file (name : string) : option string :=
  let plain := append_path componentsDirectory_ (name +:+ ".so") in
  let path := if exists_file plain then plain
              else append_path componentsDirectory_ ("lib" +:+ name +:+ ".so") in
  if exists_file path then Some path else None.

Definition loadComponentByName (name : string) : Op bool :=
  if str_empty componentsDirectory_ then mret false else
  match component_file name with
  | None => mret false
  | Some path => loadComponent (jt_object [("name"%string, jt_string name); ("path"%string, jt_string path)])
  end.

Definition name_params (name : string) : J := jt_object [("name"%string, jt_string name)].

Fixpoint load_each (names : list string) (success : bool) : Op bool :=
  match names with
  | [] => mret success
  | name :: rest => ok ← loadComponentByName name; load_each rest (success && ok)
  end.

Definition priority_of (m : Manager J C) (name : string) : Z :=
  match componentOptions_ m !! name with Some o => priority o | None => 0 end.

Definition batchLoad (components : list string) : Op bool :=
  sorted ← asks (λ m, std_sort (λ a b, Z.ltb (priority_of m b) (priority_of m a)) components);
  load_each sorted true.

Fixpoint batchUnload_loop (names : list string) (success : bool) : Op bool :=
  match names with
  | [] => mret success
  | name :: rest => ok ← unloadComponent (name_params name); batchUnload_loop rest (success && ok)
  end.
Definition batchUnload (components : list string) : Op bool := batchUnload_loop components true.

(** The template of manager.hpp; [cast] is [dynamic_pointer_cast<T>]. *)
Definition createComponent {T} (cast : C → option T) (name : string) (options : ComponentOptions J)
    : Op (option T) :=
  loaded ← loadComponent (jt_object [("name"%string, jt_string name); ("config"%string, config options);
                                     ("autoStart"%string, jt_bool (autoStart options));
                                     ("priority"%string, jt_int (priority options))]);
  if loaded : bool then
    comp ← getComponent name;
    mret (match comp with Some (Some c) => cast c | _ => None end)
  else mret None.

Definition discoverComponents (directory : string) : list string :=
  if str_empty directory || negb (exists_file directory) then [] else
  (λ entry, path_stem entry.1) <$>
    filter (λ entry, entry.2 && String.eqb (path_extension entry.1) ".so" = true) (listing directory).

(** A tracker whose scan or watch throws ends the initialization. *)
Definition initialize : Op bool :=
  if bool_decide (fileTracker_ = Some false) then mret false else
  (if negb (str_empty componentsDirectory_) then
     match discoverComponents componentsDirectory_ with
     | [] => mret tt
     | discovered => batchLoad discovered;; mret tt
     end
   else mret tt);;
  mret true.

(** The dependency graph is left as it is. *)
Definition destroy : Op bool :=
  r ← of_loader unloadAllModules;
  match r with
  | Throw _ => mret false
  | Ok _ => change (λ m, m <| components_ := ∅ |> <| componentOptions_ := ∅ |> <| componentStates_ := ∅ |>);;
            mret true
  end.

Definition handleFileChange (path fileChange : string) : Op unit :=
  let name := path_stem path in
  if String.eqb fileChange "modified" then
    has ← hasComponent name;
    if has : bool then unloadComponent (name_params name);; loadComponentByName name;; mret tt
    else mret tt
  else if String.eqb fileChange "added" then loadComponentByName name;; mret tt
  else if String.eqb fileChange "removed" || String.eqb fileChange "deleted" then
    has ← hasComponent name;
    if has : bool then unloadComponent (name_params name);; mret tt else mret tt
  else mret tt.

(** The loop of [updateDependencyGraph]; an exception ends it. *)
Fixpoint update_dependencies (name : string) (deps versions : list string) : Op unit :=
  match deps with
  | [] => mret tt
  | dep :: rest =>
      match (match versions with [] => Ok (Version3 1 0 0) | v :: _ => Version_parse v end) with
      | Throw _ => mret tt
      | Ok depVer =>
          ok ← try_graph (addDependency name dep depVer);
          if ok : bool then update_dependencies name rest (tail versions) else mret tt
      end
  end.

Definition updateDependencyGraph (component_name version : string) (deps versions : list string) : Op unit :=
  match Version_parse version with
  | Throw _ => mret tt
  | Ok ver =>
      ok ← try_graph (addNode component_name ver);
      if ok : bool then update_dependencies component_name deps versions else mret tt
  end.

(** *** The life of a component *)

(** [getComponent] and [lock()]: whether there is a component that is not null. *)
Definition live (name : string) : Op bool :=
  comp ← getComponent name;
  mret (match comp with Some (Some _) => true | _ => false end).

Definition initializeComponent (name : string) : Op bool :=
  valid ← validateComponentOperation name;
  if negb valid then mret false else
  alive ← live name;
  if alive : bool then updateComponentState name Initialized;; mret true else mret false.

Definition startComponent (name : string) : Op bool :=
  valid ← validateComponentOperation name;
  if negb valid then mret false else
  alive ← live name;
  if alive : bool
  then updateComponentState name Running;; notifyListeners name StateChanged null;; mret true
  else mret false.

(** The common body of the methods of manager.cpp. *)
Definition move_to (state : ComponentState) (name : string) : Op bool :=
  alive ← live name;
  if alive : bool
  then updateComponentState name state;; notifyListeners name StateChanged null;; mret true
  else mret false.

Definition stopComponent : string → Op bool := move_to Stopped.
Definition pauseComponent : string → Op bool := move_to Paused.
Definition resumeComponent : string → Op bool := move_to Running.

Definition restartComponent (name : string) : Op bool :=
  stopped ← stopComponent name;
  if negb stopped then mret false else startComponent name.

Definition getComponentState (name : string) : Op ComponentState :=
  asks (λ m, default ErrorState (componentStates_ m !! name)).

Definition enableComponent (name : string) : Op bool :=
  state ← getComponentState name;
  if bool_decide (state = Disabled)
  then updateComponentState name Created;; notifyListeners name StateChanged null;; mret true
  else mret false.

Definition disableComponent (name : string) : Op bool :=
  comp ← getComponent name;
  match comp with
  | None => mret false
  | Some _ =>
      stopComponent name;;
      updateComponentState name Disabled;; notifyListeners name StateChanged null;; mret true
  end.

Definition isComponentEnabled (name : string) : Op bool :=
  asks (λ m, match componentStates_ m !! name with
             | Some s => negb (bool_decide (s = Disabled)) | None => false end).

(** *** Groups, options, listeners, queries *)

Definition addToGroup (name grp : string) : Op unit :=
  change (λ m, m <| componentGroups_ ::= (λ gs, <[grp := default [] (gs !! grp) ++ [name]]> gs) |>).
Definition getGroupComponents (grp : string) : Op (list string) :=
  asks (λ m, default [] (componentGroups_ m !! grp)).
Definition getGroups : Op (list string) := asks (λ m, iter_keys (componentGroups_ m)).

Fixpoint for_group (op : string → Op bool) (names : list string) (success : bool) : Op bool :=
  match names with
  | [] => mret success
  | name :: rest => ok ← op name; for_group op rest (success && ok)
  end.
Definition on_group (op : string → Op bool) (grp : string) : Op bool :=
  names ← getGroupComponents grp;
  match names with [] => mret false | _ => for_group op names true end.
Definition startGroup : string → Op bool := on_group startComponent.
Definition stopGroup : string → Op bool := on_group stopComponent.

Definition updateConfig (name : string) (cfg : J) : Op unit :=
  valid ← validateComponentOperation name;
  if negb valid then mret tt else
  with_lock
    (known ← asks (λ m, bool_decide (is_Some (componentOptions_ m !! name)));
     if negb known then mret tt else
     change (λ m, m <| componentOptions_ ::= alter (λ o, o <| config := cfg |>) name |>);;
     notifyListeners name ConfigChanged cfg).
Definition getConfig (name : string) : Op J :=
  asks (λ m, match componentOptions_ m !! name with Some o => config o | None => null end).

Definition addEventListener (e : ComponentEvent) (callback : nat) : Op unit :=
  change (λ m, m <| eventListeners_ ::= (λ ls, <[e := default [] (ls !! e) ++ [callback]]> ls) |>).
Definition removeEventListener (e : ComponentEvent) : Op unit :=
  change (λ m, m <| eventListeners_ ::= delete e |>).

(** [componentStates_[name]] adds a state that is missing. *)
Definition state_at (name : string) : Op ComponentState := λ m,
  match componentStates_ m !! name with
  | Some s => Returned m s
  | None => Returned (m <| componentStates_ ::= <[name := Created]> |>) Created
  end.

Definition getComponentInfo (component_name : string) : Op (option J) :=
  with_lock
    (found ← asks (λ m, bool_decide (is_Some (components_ m !! component_name)));
     if negb found then mret None else
     state ← state_at component_name;
     options ← asks (λ m, componentOptions_ m !! component_name);
     mret (Some (jt_object
       ([("name"%string, jt_string component_name); ("state"%string, jt_int (state_code state))] ++
        match options with Some o => [("options"%string, config o)] | None => [] end)))).
Definition getComponentList : Op (list string) := with_lock (asks (λ m, iter_keys (components_ m))).
Definition getComponentDoc (component_name : string) : Op string :=
  with_lock (asks (λ m, match components_ m !! component_name with
                        | Some _ => "Component documentation for " +:+ component_name
                        | None => ""%string end)).
Definition getComponentsByState (state : ComponentState) : Op (list string) :=
  asks (λ m, (filter (λ kv, kv.2 = state) (iter_map (componentStates_ m))).*1).

Fixpoint metrics_of (names : list string) : Op (list (string * J)) :=
  match names with
  | [] => mret []
  | name :: rest =>
      state ← state_at name;
      others ← metrics_of rest;
      mret ((name, jt_object [("name"%string, jt_string name); ("state"%string, jt_int (state_code state))]) :: others)
  end.
Definition getPerformanceMetrics : Op J :=
  enabled ← asks performanceMonitoringEnabled_;
  if negb enabled then mret null else
  names ← asks (λ m, iter_keys (components_ m));
  metrics ← metrics_of names;
  mret (match metrics with [] => null | _ => jt_object metrics end).
Definition enablePerformanceMonitoring (enable : bool) : Op unit :=
  change (λ m, m <| performanceMonitoringEnabled_ := enable |>).
Definition getLastError : Op string := asks lastError_.
Definition clearErrors : Op unit := change (λ m, m <| lastError_ := ""%string |>).
Definition getComponentCount : Op nat := asks (λ m, size (components_ m)).
Definition hasLoadedComponents : Op bool := asks (λ m, negb (bool_decide (components_ m = ∅))).

(** ** Runs *)

Inductive manager_op :=
| MLoad (params : J) | MUnload (params : J) | MInitialize | MDestroy
| MBatchLoad (names : list string) | MBatchUnload (names : list string)
| MCreate (name : string) (options : ComponentOptions J)
| MFileChange (path fileChange : string)
| MUpdateGraph (name version : string) (deps versions : list string)
| MInit (name : string) | MStart (name : string) | MStop (name : string) | MPause (name : string)
| MResume (name : string) | MRestart (name : string) | MEnable (name : string) | MDisable (name : string)
| MAddToGroup (name grp : string) | MStartGroup (grp : string) | MStopGroup (grp : string)
| MUpdateConfig (name : string) (cfg : J) | MListen (e : ComponentEvent) (callback : nat)
| MUnlisten (e : ComponentEvent) | MInfo (name : string) | MMetrics | MMonitor (enable : bool).

Definition run_manager_op (o : manager_op) : Op unit :=
  match o with
  | MLoad p => loadComponent p;; mret tt
  | MUnload p => unloadComponent p;; mret tt
  | MInitialize => initialize;; mret tt
  | MDestroy => destroy;; mret tt
  | MBatchLoad ns => batchLoad ns;; mret tt
  | MBatchUnload ns => batchUnload ns;; mret tt
  | MCreate n o => createComponent Some n o;; mret tt
  | MFileChange p c => handleFileChange p c
  | MUpdateGraph n v ds vs => updateDependencyGraph n v ds vs
  | MInit n => initializeComponent n;; mret tt
  | MStart n => startComponent n;; mret tt
  | MStop n => stopComponent n;; mret tt
  | MPause n => pauseComponent n;; mret tt
  | MResume n => resumeComponent n;; mret tt
  | MRestart n => restartComponent n;; mret tt
  | MEnable n => enableComponent n;; mret tt
  | MDisable n => disableComponent n;; mret tt
  | MAddToGroup n g => addToGroup n g
  | MStartGroup g => startGroup g;; mret tt
  | MStopGroup g => stopGroup g;; mret tt
  | MUpdateConfig n c => updateConfig n c
  | MListen e l => addEventListener e l
  | MUnlisten e => removeEventListener e
  | MInfo n => getComponentInfo n;; mret tt
  | MMetrics => getPerformanceMetrics;; mret tt
  | MMonitor b => enablePerformanceMonitoring b
  end.

Fixpoint run_manager_ops (ops : list manager_op) : Op unit :=
  match ops with
  | [] => mret tt
  | o :: rest => run_manager_op o;; run_manager_ops rest
  end.

(** * Properties *)

(** ** Single calls, in any state whose mutex is free *)

Lemma with_lock_change f m :
  locked m = false → (∀ m b, f (m <| locked := b |>) = (f m) <| locked := b |>) → locked (f m) = false →
  with_lock (change f) m = Returned (f m) tt.
Proof.
  intros Hl Hf Hfl. unfold with_lock, change. rewrite Hl, (Hf m true). f_equal.
  revert Hfl. destruct (f m). cbn. by intros ->.
Qed.

Lemma updateComponentState_eq n st m :
  locked m = false → updateComponentState n st m = Returned (m <| componentStates_ ::= <[n := st]> |>) tt.
Proof. intros Hl. apply with_lock_change; [done|by intros []|done]. Qed.

Lemma with_lock_asks {A} (f : Manager J C → A) m :
  locked m = false → (∀ b, f (m <| locked := b |>) = f m) → with_lock (asks f) m = Returned m (f m).
Proof. intros Hl Hf. unfold with_lock, asks. rewrite Hl, (Hf true). f_equal. destruct m. cbn in *. by rewrite Hl. Qed.

(** The calls of the listeners of [e]. *)
Definition calls_for (m : Manager J C) (n : string) (e : ComponentEvent) (d : J) : list (notification J) :=
  (λ callback, mkNotification callback n e d) <$> default [] (eventListeners_ m !! e).

(** The component [n] in the state [st], and its listeners told. *)
Definition moved (n : string) (st : ComponentState) (m : Manager J C) : Manager J C :=
  m <| componentStates_ ::= <[n := st]> |> <| notified ::= (λ c, c ++ calls_for m n StateChanged null) |>.

Definition is_live (m : Manager J C) (n : string) : bool :=
  match components_ m !! n with Some (Some _) => true | _ => false end.

Lemma live_eq n m : locked m = false → live n m = Returned m (is_live m n).
Proof. intros Hl. unfold live, mbind, Op_bind, getComponent. by rewrite with_lock_asks. Qed.

Lemma move_to_eq st n m :
  locked m = false →
  move_to st n m = if is_live m n then Returned (moved n st m) true else Returned m false.
Proof.
  intros Hl. unfold move_to, mbind, Op_bind. rewrite live_eq by done.
  destruct (is_live m n); [|done]. by rewrite updateComponentState_eq.
Qed.

Lemma validate_eq n m :
  locked m = false →
  validateComponentOperation n m = Returned m (bool_decide (is_Some (components_ m !! n))).
Proof. intros Hl. unfold validateComponentOperation. by rewrite with_lock_asks. Qed.

Lemma is_live_known m n : is_live m n = true → is_Some (components_ m !! n).
Proof. unfold is_live. destruct (components_ m !! n); [by eexists|done]. Qed.

Lemma startComponent_eq n m :
  locked m = false →
  startComponent n m = if is_live m n then Returned (moved n Running m) true else Returned m false.
Proof.
  intros Hl. unfold startComponent, mbind, Op_bind. rewrite validate_eq by done.
  case_bool_decide as Hc; cbn [negb].
  - rewrite live_eq by done. destruct (is_live m n); [|done]. by rewrite updateComponentState_eq.
  - destruct (is_live m n) eqn:E; [by apply is_live_known in E|done].
Qed.

(** What each method of the life cycle sets. *)
Inductive lifecycle := LStart | LStop | LPause | LResume.
Definition run_lifecycle (x : lifecycle) : string → Op bool :=
  match x with
  | LStart => startComponent | LStop => stopComponent | LPause => pauseComponent | LResume => resumeComponent
  end.
Definition lifecycle_state (x : lifecycle) : ComponentState :=
  match x with LStart => Running | LStop => Stopped | LPause => Paused | LResume => Running end.

Lemma run_lifecycle_eq x n m :
  locked m = false →
  run_lifecycle x n m = if is_live m n then Returned (moved n (lifecycle_state x) m) true else Returned m false.
Proof. intros Hl. destruct x; [by apply startComponent_eq|by apply move_to_eq..]. Qed.

(** In any state whose mutex is free, starting, stopping, pausing and resuming a
    component move it to their state from every other one, valid transition or
    not, tell each listener of StateChanged once and change nothing else; a
    component that is missing, or whose pointer is null, is refused.  Restarting
    is a stop followed by a start; only a disabled component is enabled, and
    comes back as created; any component, null or not, can be disabled. *)
Theorem lifecycle_correct (m : Manager J C) (n : string) :
  locked m = false →
  (∀ x, run_lifecycle x n m =
     if is_live m n then Returned (moved n (lifecycle_state x) m) true else Returned m false)
  ∧ restartComponent n m =
      (if is_live m n then Returned (moved n Running (moved n Stopped m)) true else Returned m false)
  ∧ initializeComponent n m =
      (if is_live m n then Returned (m <| componentStates_ ::= <[n := Initialized]> |>) true else Returned m false)
  ∧ enableComponent n m =
      (if decide (componentStates_ m !! n = Some Disabled) then Returned (moved n Created m) true
       else Returned m false)
  ∧ disableComponent n m =
      (if decide (is_Some (components_ m !! n))
       then Returned (moved n Disabled (if is_live m n then moved n Stopped m else m)) true
       else Returned m false).
Proof.
  intros Hl. split_and!.
  - intros x. by apply run_lifecycle_eq.
  - unfold restartComponent, mbind, Op_bind. unfold stopComponent. rewrite move_to_eq by done.
    destruct (is_live m n) eqn:E; [|done]. cbn [negb]. rewrite startComponent_eq by done.
    by change (is_live (moved n Stopped m) n) with (is_live m n); rewrite E.
  - unfold initializeComponent, mbind, Op_bind. rewrite validate_eq by done.
    case_bool_decide as Hc; cbn [negb].
    + rewrite live_eq by done. destruct (is_live m n); [|done]. by rewrite updateComponentState_eq.
    + destruct (is_live m n) eqn:E; [by apply is_live_known in E|done].
  - unfold enableComponent, getComponentState, asks, mbind, Op_bind.
    case_decide as E'.
    + rewrite E', bool_decide_eq_true_2 by done. by rewrite updateComponentState_eq.
    + rewrite bool_decide_eq_false_2; [done|]. destruct (componentStates_ m !! n); cbn; congruence.
  - unfold disableComponent, mbind, Op_bind, getComponent. rewrite with_lock_asks by done.
    destruct (components_ m !! n) as [c|] eqn:Ec;
      [rewrite decide_True by (by eexists)|by rewrite decide_False by (by intros [])].
    unfold stopComponent. rewrite move_to_eq by done.
    destruct (is_live m n); by rewrite updateComponentState_eq.
Qed.

Lemma unloadModule_returns n l : owner l = Free → ∃ l' r, unloadModule n l = Done l' r.
Proof.
  intros Ho. unfold unloadModule. destruct (str_empty n); [by do 2 eexists|]. unfold with_unique. rewrite Ho.
  cbv [mbind M_bind gets]. destruct (modules _ !! n); [|by do 2 eexists]. by destruct (getDependents _ _); do 2 eexists.
Qed.

(** In any state whose locks are free, unloading takes a component that is there
    out of every table and out of the graph with all its edges, whoever depends on
    it and whether or not the loader unloads the module, and tells the listeners
    before and after; a component that is not there changes nothing. *)
Theorem unloadComponent_correct (m : Manager J C) (params : J) (n : string) :
  locked m = false → owner (moduleLoader_ m) = Free → at_string "name" params = Some n →
  ∃ l' r m', unloadModule n (moduleLoader_ m) = Done l' r
    ∧ unloadComponent params m = Returned m' (bool_decide (is_Some (components_ m !! n)))
    ∧ if decide (is_Some (components_ m !! n)) then
        components_ m' = delete n (components_ m) ∧ componentStates_ m' = delete n (componentStates_ m)
        ∧ componentOptions_ m' = delete n (componentOptions_ m) ∧ moduleLoader_ m' = l' ∧ locked m' = false
        ∧ (∀ x y, depends (dependencyGraph_ m') x y ↔ depends (dependencyGraph_ m) x y ∧ x ≠ n ∧ y ≠ n)
        ∧ notified m' = notified m ++ calls_for m n PreUnload null ++ calls_for m n PostUnload null
      else m' = m.
Proof.
  clear fs computeHash open_library exists_file listing.
  intros Hl Ho Hp. destruct (unloadModule_returns n (moduleLoader_ m) Ho) as (l' & r & Hu).
  exists l', r. unfold unloadComponent. rewrite Hp. unfold with_lock. rewrite Hl.
  unfold mbind, Op_bind, asks. cbn -[of_loader]. case_bool_decide as Hc; cbn -[of_loader].
  2: { exists m. rewrite decide_False by done. split_and!; [done| |done]. f_equal. destruct m; cbn in *; by rewrite Hl. }
  unfold of_loader. cbn -[unloadModule]. rewrite Hu. cbn.
  eexists. split; [done|]. split; [reflexivity|]. rewrite decide_True by done. cbn. split_and!; try done.
  - intros x y. unfold depends, neighbors_of. cbn. rewrite elem_remove_key. naive_solver.
  - unfold calls_for. by rewrite <- app_assoc.
Qed.

(** The template of manager.hpp passes no path, which [loadComponent] requires:
    it never creates a component. *)
Theorem createComponent_never {T} (cast : C → option T) n o m m' r :
  createComponent cast n o m = Returned m' r → r = None ∧ components_ m' = components_ m.
Proof.
  unfold createComponent, loadComponent, path_and_version, at_string.
  rewrite !find_object. cbn. rewrite get_string_law. unfold mbind at 1, Op_bind at 1.
  destruct (mbind _ acquire m) as [m1 b| |] eqn:E; [|done..].
  unfold mbind, Op_bind, acquire in E. destruct (pool _); injection E as <- <-; by intros [= <- <-].
Qed.

(** ** Loading *)










(** ** Runs from the new manager *)

(** Nothing was ever loaded, and the locks are free. *)
Record nothing (m : Manager J C) : Prop := {
  no_components : components_ m = ∅;
  no_options : componentOptions_ m = ∅;
  no_states : componentStates_ m = ∅;
  no_modules : idle Free (moduleLoader_ m);
  no_bad_graph : graph_ok (dependencyGraph_ m);
  no_lock : locked m = false
}.

(** From such a state [c] ends in such a state, or locks twice if it may. *)
Definition kept {A} (may_lock : bool) (c : Op A) : Prop :=
  ∀ m, nothing m → match c m with Returned m' _ => nothing m' | SelfLock => may_lock = true | Unfinished => False end.



Lemma kept_same {A} b (f : Manager J C → Manager J C) (g : Manager J C → A) :
  (∀ m, nothing m → nothing (f m)) → kept b (λ m, Returned (f m) (g m)).
Proof. intros Hf m Hm. by apply Hf. Qed.


Lemma kept_with_lock {A} b (body : Op A) :
  (∀ m, nothing m → match body (m <| locked := true |>) with
                    | Returned m' _ => nothing (m' <| locked := false |>) | _ => False end) → kept b (with_lock body).
Proof. intros Hb m Hm. unfold with_lock. rewrite (no_lock m Hm). specialize (Hb m Hm). by destruct (body _). Qed.


Lemma kept_query {A} b (f : Manager J C → A) : kept b (with_lock (asks f)).
Proof. apply kept_with_lock. by intros m []. Qed.
































End manager.

(** ** Examples *)

#[local] Existing Instance canonical_iter.
#[local] Existing Instance insertion_sort.
#[local] Instance component_tree : JsonTree jtree Z := jtree_json (λ _, ""%string) (λ _, None).

(** A directory of two libraries, which open. *)
Definition in_directory (path : string) : bool :=
  existsb (String.eqb path) ["./components/base.so"; "./components/libcamera.so"]%string.
Definition dir_fs (path : string) : option file :=
  if in_directory path then Some (mkFile [127; 69; 76; 70; 2]%Z true) else None.

Definition demo_exists (path : string) : bool := String.eqb path "./components" || in_directory path.
Definition demo_listing (dir : string) : list (string * bool) :=
  [("base.so", true); ("libcamera.so", true); ("notes.txt", true)]%string.

Definition run_demo (ops : list manager_op) : Op jtree nat unit :=
  run_manager_ops dir_fs demo_hash demo_open 0 (λ n, Some (Some n)) demo_exists demo_listing "./components" None ops.
Definition state_of (c : call jtree nat unit) : Manager jtree nat := match c with Returned m _ => m | _ => Manager_new end.

Definition load_params (name path version : string) (deps : list string) : jtree :=
  TObj [("dependencies"%string, TArr (map TStr deps)); ("name"%string, TStr name);
        ("path"%string, TStr path); ("version"%string, TStr version)].
Definition load_base : manager_op := MLoad (load_params "base" "./components/base.so" "1.0.0" []).
Definition load_camera (version : string) (deps : list string) : manager_op :=
  MLoad (load_params "camera" "./components/libcamera.so" version deps).

(** The first load that passes its checks locks twice, and so does the start. *)
Example demo_self_lock : run_demo [load_base] Manager_new = SelfLock ∧ run_demo [MInitialize] Manager_new = SelfLock.
Proof. vm_compute. done. Qed.

(** A dependency is compared with the version of the component that needs it, not
    with a required version: a camera 2.0.0 is refused when it uses a base 1.0.0,
    and a camera 1.0.0 goes on to the loader. *)
Example dependency_needs_own_version :
  let m := state_of (run_demo [MUpdateGraph "base" "1.0.0" [] []] Manager_new) in
  run_demo [load_camera "1.0.0" ["base"%string]] m = SelfLock
  ∧ ∃ m', run_demo [load_camera "2.0.0" ["base"%string]] m = Returned m' tt.
Proof. split; [vm_compute; reflexivity|]. eexists. vm_compute. reflexivity. Qed.

(** A component whose load failed stays a node of the graph, so another that
    depends on it goes on to the loader. *)
Example failed_load_satisfies :
  let fails := MLoad (load_params "ghost" "" "1.0.0" []) in
  run_demo [fails; load_camera "1.0.0" ["ghost"%string]] Manager_new = SelfLock
  ∧ ∃ m', run_demo [load_camera "1.0.0" ["ghost"%string]] Manager_new = Returned m' tt.
Proof. split; [vm_compute; reflexivity|]. eexists. vm_compute. reflexivity. Qed.

(** [destroy] keeps the graph. *)
Example destroy_keeps_graph :
  let m := state_of (run_demo [MUpdateGraph "base" "1.0.0" [] []; MUpdateGraph "camera" "1.0.0" ["base"%string] []; MDestroy] Manager_new) in
  getDependencies (dependencyGraph_ m) "camera" = ["base"]%string.
Proof. vm_compute. done. Qed.

(** A state with two components, the camera depending on the base. *)
Definition two_components : Manager jtree nat :=
  (state_of (run_demo [MUpdateGraph "base" "1.0.0" [] []; MUpdateGraph "camera" "1.0.0" ["base"%string] []] Manager_new))
    <| components_ := <["base"%string := Some 0%nat]> {["camera"%string := Some 1%nat]} |>
    <| componentStates_ := <["base"%string := Created]> {["camera"%string := Created]} |>
    <| eventListeners_ := {[StateChanged := [7%nat]]} |>.

(** A component is unloaded under the one that depends on it. *)
Example unload_ignores_dependents :
  let m := state_of (run_demo [MUnload (TObj [("name"%string, TStr "base")])] two_components) in
  (map_to_list (components_ m)).*1 = ["camera"]%string ∧ getDependencies (dependencyGraph_ m) "camera" = [].
Proof. vm_compute. done. Qed.

(** Restarting makes a transition that [isValidStateTransition] refuses, and so
    does starting a component that was just loaded. *)
Example restart_is_invalid :
  isValidStateTransition Stopped Running = false ∧ isValidStateTransition Created Running = false
  ∧ componentStates_ (state_of (run_demo [MStart "base"; MRestart "base"] two_components)) !! "base"%string = Some Running.
Proof. vm_compute. done. Qed.



Lemma lifecycle_correct_witness :
  startComponent "base" two_components = Returned (moved "base" Running two_components) true.
Proof.
  assert (locked two_components = false) as Hl by (vm_compute; reflexivity).
  destruct (lifecycle_correct two_components "base" Hl) as (H & _). exact (H LStart).
Defined.

Lemma unloadComponent_correct_witness :
  ∃ m', unloadComponent (TObj [("name"%string, TStr "base")]) two_components = Returned m' true.
Proof.
  destruct (unloadComponent_correct two_components (TObj [("name"%string, TStr "base")]) "base") as (l' & r & m' & _ & H & _);
    [vm_compute; reflexivity..|]. exists m'. exact H.
Defined.
