(* ===== verification/QueryBuilder.v ===== *)
(** * QueryBuilder: SELECT statements

    Models class QueryBuilder of src/src/database/query/query_builder.hpp and
    query_builder.cpp.  A method is a function on the builder.  The values bound
    by [where] keep the three kinds the code stores; a floating-point number is
    of the type [F]. *)

From S2P Require Import Prelude.

Local Open Scope Z_scope.

(** The arguments of [where], by the branch of [storeParamValue] they take; an
    argument of any other type is dropped. *)
Inductive argument (F : Type) :=
| Integral (z : Z)
| Floating (f : F)
| Text (s : string)
| Unsupported.
Arguments Integral {F}.
Arguments Floating {F}.
Arguments Text {F}.
Arguments Unsupported {F}.

(** std::variant<int, double, std::string> *)
Inductive paramValue (F : Type) :=
| PInt (z : Z)
| PDouble (f : F)
| PString (s : string).
Arguments PInt {F}.
Arguments PDouble {F}.
Arguments PString {F}.

Record QueryBuilder (F : Type) := mkQueryBuilder {
  tableName : string;
  selectColumns : list string;
  whereConditions : list string;
  joinClauses : list string;
  groupByColumns : list string;
  havingCondition : string;
  orderByClause : string;
  limitValue : Z;
  offsetValue : Z;
  paramValues : list (paramValue F)
}.
Arguments mkQueryBuilder {F}.
Arguments tableName {F}.
Arguments selectColumns {F}.
Arguments whereConditions {F}.
Arguments joinClauses {F}.
Arguments groupByColumns {F}.
Arguments havingCondition {F}.
Arguments orderByClause {F}.
Arguments limitValue {F}.
Arguments offsetValue {F}.
Arguments paramValues {F}.

#[export] Instance QueryBuilder_eta F : Eta (QueryBuilder F) := λ q,
  mkQueryBuilder (tableName q) (selectColumns q) (whereConditions q) (joinClauses q) (groupByColumns q)
    (havingCondition q) (orderByClause q) (limitValue q) (offsetValue q) (paramValues q).

Section builder.
Context {F : Type}.
Abbreviation Q := (QueryBuilder F).

Definition QueryBuilder_new (table : string) : Q :=
  mkQueryBuilder table ["*"%string] [] [] [] "" "" (-1) 0 [].

Definition select (columns : list string) (q : Q) : Q :=
  match columns with [] => q | _ => q <| selectColumns := columns |> end.

Definition storeParamValue (value : argument F) (values : list (paramValue F)) : list (paramValue F) :=
  match value with
  | Integral z => values ++ [PInt (to_int z)]
  | Floating f => values ++ [PDouble f]
  | Text s => values ++ [PString s]
  | Unsupported => values
  end.

Definition where_ (condition : string) (args : list (argument F)) (q : Q) : Q :=
  if str_empty condition then q else
  q <| whereConditions ::= (λ l, l ++ [condition]) |>
    <| paramValues ::= (λ vs, fold_left (λ vs a, storeParamValue a vs) args vs) |>.

Definition connect (word condition : string) (q : Q) : Q :=
  if str_empty condition then q else
  match whereConditions q with
  | [] => q <| whereConditions := [condition] |>
  | l => q <| whereConditions := l ++ [word +:+ condition] |>
  end.
Definition andWhere : string → Q → Q := connect "AND ".
Definition orWhere : string → Q → Q := connect "OR ".

Definition join (table condition joinType : string) (q : Q) : Q :=
  q <| joinClauses ::= (λ l, l ++ [joinType +:+ " JOIN " +:+ table +:+ " ON " +:+ condition]) |>.
Definition groupBy (columns : list string) (q : Q) : Q := q <| groupByColumns := columns |>.
Definition having (condition : string) (q : Q) : Q := q <| havingCondition := condition |>.
Definition orderBy (column : string) (asc : bool) (q : Q) : Q :=
  q <| orderByClause := column +:+ (if asc then " ASC" else " DESC") |>.
Definition limit (n : Z) (q : Q) : Q := if 0 <=? n then q <| limitValue := n |> else q.
Definition offset (n : Z) (q : Q) : Q := if 0 <=? n then q <| offsetValue := n |> else q.

Definition getParamCount (q : Q) : nat := length (paramValues q).

Definition validate (q : Q) : result exn unit :=
  if str_empty (tableName q) then Throw ValidationError else
  if (0 <? offsetValue q) && (limitValue q <? 0) then Throw ValidationError else Ok tt.

(** The loops that print a list with a separator; [first] is their flag. *)
Fixpoint separated (sep : string) (first : bool) (l : list string) : string :=
  match l with
  | [] => ""
  | x :: rest => (if first then "" else sep) +:+ x +:+ separated sep false rest
  end.

Definition joins_text (q : Q) : string := foldr (λ j acc, " " +:+ j +:+ acc) ""%string (joinClauses q).
Definition where_text (q : Q) : string :=
  match whereConditions q with [] => "" | l => " WHERE " +:+ separated " " true l end.
Definition group_text (q : Q) : string :=
  match groupByColumns q with [] => "" | l => " GROUP BY " +:+ separated ", " true l end.
Definition having_text (q : Q) : string :=
  if str_empty (havingCondition q) then "" else " HAVING " +:+ havingCondition q.

Definition build (q : Q) : result exn string :=
  let* _ := validate q in
  Ok ("SELECT " +:+ match selectColumns q with [] => "*" | l => separated ", " true l end +:+
      " FROM " +:+ tableName q +:+ joins_text q +:+ where_text q +:+ group_text q +:+ having_text q +:+
      (if str_empty (orderByClause q) then "" else " ORDER BY " +:+ orderByClause q) +:+
      (if 0 <=? limitValue q then " LIMIT " +:+ pretty (limitValue q) else "") +:+
      (if 0 <? offsetValue q then " OFFSET " +:+ pretty (offsetValue q) else "")).

Definition buildCount (q : Q) : string :=
  "SELECT COUNT(*) FROM " +:+ tableName q +:+ joins_text q +:+ where_text q +:+ group_text q +:+ having_text q.

(** ** A chain of calls *)

Inductive builder_call :=
| BSelect (columns : list string)
| BWhere (condition : string) (args : list (argument F))
| BAnd (condition : string)
| BOr (condition : string)
| BJoin (table condition joinType : string)
| BGroupBy (columns : list string)
| BHaving (condition : string)
| BOrderBy (column : string) (asc : bool)
| BLimit (n : Z)
| BOffset (n : Z).

Definition apply_call (q : Q) (c : builder_call) : Q :=
  match c with
  | BSelect cs => select cs q
  | BWhere w args => where_ w args q
  | BAnd w => andWhere w q
  | BOr w => orWhere w q
  | BJoin t w j => join t w j q
  | BGroupBy cs => groupBy cs q
  | BHaving w => having w q
  | BOrderBy c a => orderBy c a q
  | BLimit n => limit n q
  | BOffset n => offset n q
  end.
Definition chain (table : string) (calls : list builder_call) : Q := fold_left apply_call calls (QueryBuilder_new table).

(** ** What a chain means

    Each clause depends on the calls for it only: a setting is the last one
    that is accepted, the joins and the values add up. *)

Definition last_of {A} (get : builder_call → option A) (d : A) (calls : list builder_call) : A :=
  List.last (omap get calls) d.

Definition get_select c := match c with BSelect ((_ :: _) as cs) => Some cs | _ => None end.
Definition get_group c := match c with BGroupBy cs => Some cs | _ => None end.
Definition get_having c := match c with BHaving w => Some w | _ => None end.
Definition get_order c := match c with BOrderBy col asc => Some (col +:+ (if asc then " ASC" else " DESC")) | _ => None end.
Definition get_limit c := match c with BLimit n => if 0 <=? n then Some n else None | _ => None end.
Definition get_offset c := match c with BOffset n => if 0 <=? n then Some n else None | _ => None end.
Definition get_join c :=
  match c with BJoin t w j => Some (j +:+ " JOIN " +:+ t +:+ " ON " +:+ w) | _ => None end.

(** A condition with the word that connects it to those before it. *)
Definition get_condition c : option (string * string) :=
  match c with
  | BWhere w _ => if str_empty w then None else Some (""%string, w)
  | BAnd w => if str_empty w then None else Some ("AND "%string, w)
  | BOr w => if str_empty w then None else Some ("OR "%string, w)
  | _ => None
  end.
Definition conditions (calls : list builder_call) : list string :=
  match omap get_condition calls with
  | [] => []
  | (_, w) :: rest => w :: map (λ pw, pw.1 +:+ pw.2) rest
  end.

Definition get_values c : list (paramValue F) :=
  match c with
  | BWhere w args =>
      if str_empty w then [] else
      omap (λ a, match a with Integral z => Some (PInt (to_int z)) | Floating f => Some (PDouble f)
                            | Text s => Some (PString s) | Unsupported => None end) args
  | _ => []
  end.

Definition meaning (table : string) (calls : list builder_call) : Q :=
  mkQueryBuilder table (last_of get_select ["*"%string] calls) (conditions calls) (omap get_join calls)
    (last_of get_group [] calls) (last_of get_having ""%string calls) (last_of get_order ""%string calls)
    (last_of get_limit (-1) calls) (last_of get_offset 0 calls) (concat (map get_values calls)).

(** * Properties *)

Lemma omap_snoc {A B} (f : A → option B) l x :
  omap f (l ++ [x]) = omap f l ++ match f x with Some y => [y] | None => [] end.
Proof. rewrite omap_app. cbn. by destruct (f x). Qed.

Lemma last_of_snoc {A} (get : builder_call → option A) d calls c :
  last_of get d (calls ++ [c]) = default (last_of get d calls) (get c).
Proof.
  unfold last_of. rewrite omap_snoc. destruct (get c); [by rewrite List.last_last|by rewrite app_nil_r].
Qed.

Lemma conditions_snoc calls c :
  conditions (calls ++ [c]) =
    match get_condition c with
    | None => conditions calls
    | Some (p, w) => match conditions calls with [] => [w] | l => l ++ [p +:+ w] end
    end.
Proof.
  unfold conditions. rewrite omap_snoc. destruct (get_condition c) as [[p w]|]; [|by rewrite app_nil_r].
  destruct (omap get_condition calls) as [|[p0 w0] rest]; [done|]. cbn. by rewrite map_app.
Qed.

#[local] Arguments storeParamValue : simpl never.

Lemma storeParamValues args vs :
  fold_left (λ vs a, storeParamValue a vs) args vs =
  vs ++ omap (λ a, match a with Integral z => Some (PInt (to_int z)) | Floating f => Some (PDouble f)
                              | Text s => Some (PString s) | Unsupported => None end) args.
Proof.
  revert vs. induction args as [|a args IH]; intros vs; cbn; [by rewrite app_nil_r|].
  rewrite IH. destruct a; unfold storeParamValue; by rewrite <- ?app_assoc.
Qed.

Lemma meaning_snoc table calls c : meaning table (calls ++ [c]) = apply_call (meaning table calls) c.
Proof.
  unfold meaning. rewrite !last_of_snoc, conditions_snoc, omap_snoc, map_app, concat_app. cbn.
  destruct c as [[|col cs]|w args|w|w|t w j|cs|w|col asc|n|n]; cbn; rewrite ?app_nil_r; try done;
    unfold where_, andWhere, orWhere, connect, limit, offset; cbn.
  - destruct (str_empty w); cbn; rewrite ?app_nil_r; [done|]. unfold upd. rewrite storeParamValues.
    by destruct (conditions calls).
  - destruct (str_empty w); cbn; [done|]. by destruct (conditions calls).
  - destruct (str_empty w); cbn; [done|]. by destruct (conditions calls).
  - by destruct (0 <=? n).
  - by destruct (0 <=? n).
Qed.

(** Every call keeps the builder to what its calls mean. *)
Lemma chain_meaning table calls : chain table calls = meaning table calls.
Proof.
  unfold chain. induction calls as [|c calls IH] using rev_ind; [done|].
  rewrite fold_left_app. cbn. rewrite IH. symmetry. apply meaning_snoc.
Qed.

(** The clause a call is for. *)
Inductive clause := CSelect | CWhere | CJoin | CGroup | CHaving | COrder | CLimit | COffset.

#[export] Instance clause_eq_dec : EqDecision clause.
Proof. solve_decision. Defined.

Definition clause_of (c : builder_call) : clause :=
  match c with
  | BSelect _ => CSelect | BWhere _ _ | BAnd _ | BOr _ => CWhere | BJoin _ _ _ => CJoin | BGroupBy _ => CGroup
  | BHaving _ => CHaving | BOrderBy _ _ => COrder | BLimit _ => CLimit | BOffset _ => COffset
  end.

Abbreviation calls_of k := (filter (λ c, clause_of c = k)).

Lemma omap_calls_of {A} (get : builder_call → option A) k (calls : list builder_call) :
  (∀ c, clause_of c ≠ k → get c = None) → omap get calls = omap get (calls_of k calls).
Proof.
  intros Hk. induction calls as [|c calls IH]; [done|]. rewrite filter_cons. cbn.
  case_decide as E; cbn; rewrite IH; [done|]. by rewrite Hk.
Qed.

Lemma values_calls_of (calls : list builder_call) : concat (map get_values calls) = concat (map get_values (calls_of CWhere calls)).
Proof.
  induction calls as [|c calls IH]; [done|]. rewrite filter_cons. cbn. rewrite IH.
  case_decide as E; [done|]. by destruct c.
Qed.

Lemma chain_by_clause table (calls calls' : list builder_call) :
  (∀ k, calls_of k calls = calls_of k calls') → chain table calls = chain table calls'.
Proof.
  intros Hk. rewrite !chain_meaning. unfold meaning, last_of, conditions.
  assert (∀ A (get : builder_call → option A) k, (∀ c, clause_of c ≠ k → get c = None) →
            omap get calls = omap get calls') as Ho.
  { intros A get k Hg. by rewrite (omap_calls_of get k calls Hg), (omap_calls_of get k calls' Hg), Hk. }
  rewrite (Ho _ get_select CSelect), (Ho _ get_condition CWhere), (Ho _ get_join CJoin), (Ho _ get_group CGroup),
    (Ho _ get_having CHaving), (Ho _ get_order COrder), (Ho _ get_limit CLimit), (Ho _ get_offset COffset)
    by (by intros []).
  by rewrite (values_calls_of calls), (values_calls_of calls'), Hk.
Qed.

Lemma validate_throws q :
  match validate q with
  | Throw e => e = ValidationError ∧ (tableName q = ""%string ∨ (0 < offsetValue q ∧ limitValue q < 0))
  | Ok _ => tableName q ≠ ""%string ∧ ¬ (0 < offsetValue q ∧ limitValue q < 0)
  end.
Proof.
  unfold validate. destruct (tableName q); cbn; [by auto|].
  destruct (Z.ltb_spec 0 (offsetValue q)), (Z.ltb_spec (limitValue q) 0); cbn; (split; [done|]); auto; lia.
Qed.

(** The statement a chain of calls builds depends, clause by clause, on the
    calls for that clause and not on how they are interleaved: the conditions,
    joins and bound values are those of the calls in their order, every other
    setting is the last one accepted; and [build] fails, with a validation
    error, exactly when the table has no name or an offset has no limit. *)
Theorem build_correct (table : string) (calls calls' : list builder_call) :
  (∀ k, calls_of k calls = calls_of k calls') →
  build (chain table calls) = build (chain table calls')
  ∧ chain table calls = meaning table calls
  ∧ match build (chain table calls) with
    | Throw e => e = ValidationError ∧
        (table = ""%string ∨ (0 < last_of get_offset 0 calls ∧ last_of get_limit (-1) calls < 0))
    | Ok _ => table ≠ ""%string ∧ ¬ (0 < last_of get_offset 0 calls ∧ last_of get_limit (-1) calls < 0)
    end.
Proof.
  intros Hk. split; [by rewrite (chain_by_clause table calls calls' Hk)|].
  rewrite chain_meaning. split; [done|]. unfold build.
  pose proof (validate_throws (meaning table calls)) as Hv. by destruct (validate _).
Qed.
End builder.

(** ** Examples *)

Definition demo_chain (calls : list (builder_call (F := Z))) : QueryBuilder Z := chain "stars" calls.

Example demo_build :
  build (demo_chain [BLimit 5; BWhere "mag < ?" [Integral 6]; BOr "name = 'Vega'"; BSelect ["name"; "mag"]%string;
                     BOrderBy "mag" false; BOffset 10; BLimit (-3)]) =
  Ok "SELECT name, mag FROM stars WHERE mag < ? OR name = 'Vega' ORDER BY mag DESC LIMIT 5 OFFSET 10"%string.
Proof. vm_compute. reflexivity. Qed.

(** Two calls of [where] are put next to each other without a connecting word. *)
Example where_twice :
  build (demo_chain [BWhere "a = 1" []; BWhere "b = 2" []]) = Ok "SELECT * FROM stars WHERE a = 1 b = 2"%string.
Proof. vm_compute. reflexivity. Qed.

(** [buildCount] does not check the table. *)
Example count_unchecked :
  buildCount (chain (F := Z) "" []) = "SELECT COUNT(*) FROM "%string ∧ build (chain (F := Z) "" []) = Throw ValidationError.
Proof. vm_compute. done. Qed.

(** A 64-bit value is bound as an int. *)
Example bound_value_wraps :
  paramValues (demo_chain [BWhere "id = ?" [Integral 4294967297]]) = [PInt 1].
Proof. vm_compute. reflexivity. Qed.

Lemma build_correct_witness :
  build (demo_chain [BLimit 5; BAnd "a"; BOffset 2]) = build (demo_chain [BAnd "a"; BOffset 2; BLimit 5]).
Proof. apply (build_correct (F := Z) "stars"). intros []; reflexivity. Defined.
