(* ===== verification/TtlCache.v ===== *)
(** * TtlCache: the string cache of the database

    Models class CacheManager of src/src/database/cache/cache_entry.hpp,
    cache_manager.hpp and cache_manager.cpp: a map whose entries expire.  Times
    are nanoseconds of the steady clock, which an operation reads once.  The
    thread that purges is the operation [purgeExpired], run at any time; its loop
    ([purgePeriodically], the stop flag and its condition variable) is not
    modelled, nor is logging. *)

From S2P Require Import Prelude.

Local Open Scope Z_scope.

Record CacheEntry := mkCacheEntry { value : string; expiry : Z }.

Record CacheManager := mkCacheManager {
  cache : gmap string CacheEntry;
  defaultTTL : Z
}.

#[export] Instance CacheManager_eta : Eta CacheManager := λ c, mkCacheManager (cache c) (defaultTTL c).

Definition CacheManager_new : CacheManager := mkCacheManager ∅ 300.

(** Nanoseconds in a second. *)
Definition second : Z := 1000000000.

Definition put (key v : string) (ttlSeconds now : Z) (c : CacheManager) : CacheManager :=
  if str_empty key then c else
  let ttlSeconds := if ttlSeconds <=? 0 then defaultTTL c else ttlSeconds in
  c <| cache ::= <[key := mkCacheEntry v (now + ttlSeconds * second)]> |>.

(** An entry that expired is not returned, and stays. *)
Definition get (key : string) (now : Z) (c : CacheManager) : option string :=
  if str_empty key then None else
  match cache c !! key with
  | Some e => if now <? expiry e then Some (value e) else None
  | None => None
  end.

Definition remove (key : string) (c : CacheManager) : CacheManager * bool :=
  (c <| cache ::= delete key |>, bool_decide (is_Some (cache c !! key))).

Definition clear (c : CacheManager) : CacheManager := c <| cache := ∅ |>.

Definition fresh (now : Z) (e : CacheEntry) : bool := now <? expiry e.

Definition purgeExpired (now : Z) (c : CacheManager) : CacheManager * nat :=
  let kept := filter (λ ke : string * CacheEntry, fresh now ke.2 = true) (cache c) in
  (c <| cache := kept |>, (size (cache c) - size kept)%nat).

Definition setDefaultTTL (seconds : Z) (c : CacheManager) : CacheManager :=
  if 0 <? seconds then c <| defaultTTL := seconds |> else c.

Definition size_of (c : CacheManager) : nat := size (cache c).

(** ** Schedules of operations

    Each with the time its clock shows; [None] as time to live is the default
    argument of [put]. *)

Inductive cache_op :=
| CPut (key v : string) (ttlSeconds : option Z) (now : Z)
| CRemove (key : string)
| CClear
| CPurge (now : Z)
| CSetDefaultTTL (seconds : Z).

Definition run_cache_op (c : CacheManager) (o : cache_op) : CacheManager :=
  match o with
  | CPut k v ttl now => put k v (default 300 ttl) now c
  | CRemove k => (remove k c).1
  | CClear => clear c
  | CPurge now => (purgeExpired now c).1
  | CSetDefaultTTL s => setDefaultTTL s c
  end.
Definition run_cache (ops : list cache_op) : CacheManager := fold_left run_cache_op ops CacheManager_new.

Definition op_time (o : cache_op) : option Z :=
  match o with CPut _ _ _ now => Some now | CPurge now => Some now | _ => None end.

(** ** What a cache is for: the last value put, while it lives *)

(** The time to live in force after the operations. *)
Definition ttl_of (ops : list cache_op) : Z :=
  List.last (omap (λ o, match o with CSetDefaultTTL s => if 0 <? s then Some s else None | _ => None end) ops) 300.

(** The last value put under [key], not removed since, and when it expires;
    [ops] are the operations, the latest first. *)
Fixpoint last_put (key : string) (ops : list cache_op) : option (string * Z) :=
  match ops with
  | [] => None
  | o :: before =>
      match o with
      | CPut k v ttl now =>
          if String.eqb k key then
            let ttl := default 300 ttl in
            Some (v, now + (if ttl <=? 0 then ttl_of (rev before) else ttl) * second)
          else last_put key before
      | CRemove k => if String.eqb k key then None else last_put key before
      | CClear => None
      | CPurge _ | CSetDefaultTTL _ => last_put key before
      end
  end.

Definition expected (key : string) (now : Z) (ops : list cache_op) : option string :=
  match last_put key (rev ops) with
  | Some (v, expires) => if now <? expires then Some v else None
  | None => None
  end.

(** * Properties *)

Lemma ttl_of_snoc ops o :
  ttl_of (ops ++ [o]) = match o with CSetDefaultTTL s => if 0 <? s then s else ttl_of ops | _ => ttl_of ops end.
Proof.
  unfold ttl_of. rewrite omap_app. cbn. destruct o; cbn; rewrite ?app_nil_r; try done.
  destruct (0 <? seconds); [by rewrite List.last_last|by rewrite app_nil_r].
Qed.

Lemma run_snoc ops o : run_cache (ops ++ [o]) = run_cache_op (run_cache ops) o.
Proof. unfold run_cache. by rewrite fold_left_app. Qed.

Lemma run_ttl ops : defaultTTL (run_cache ops) = ttl_of ops.
Proof.
  induction ops as [|o ops IH] using rev_ind; [done|]. rewrite run_snoc, ttl_of_snoc.
  destruct o; cbn; try done.
  - unfold put. by destruct (str_empty key).
  - unfold setDefaultTTL. by destruct (0 <? seconds).
Qed.

(** The map against the history at a time no purge was after: what is live is
    what the history expects, and what is missing has been removed or expired. *)
Definition agrees (now : Z) (ops : list cache_op) (c : CacheManager) : Prop :=
  ∀ key, key ≠ ""%string →
    match last_put key (rev ops) with
    | Some (v, expires) =>
        cache c !! key = Some (mkCacheEntry v expires) ∨ (cache c !! key = None ∧ expires ≤ now)
    | None => cache c !! key = None
    end.

Lemma agrees_run now ops :
  Forall (λ o, match op_time o with Some t => t ≤ now | None => True end) ops → agrees now ops (run_cache ops).
Proof.
  induction ops as [|o ops IH] using rev_ind; intros Ht key Hk; [done|].
  apply Forall_app in Ht as [Ht Ho]. apply Forall_cons_1 in Ho as [Ho _]. specialize (IH Ht key Hk).
  rewrite rev_app_distr, run_snoc. cbn [rev app last_put].
  destruct o as [k v ttl t|k| |t|s]; cbn [run_cache_op].
  - unfold put. destruct (String.eqb_spec k key) as [->|Hne].
    + destruct key; [done|]. cbn [str_empty]. left. cbn. rewrite lookup_insert_eq, rev_involutive, run_ttl. done.
    + destruct (str_empty k); [done|]. cbn. by rewrite lookup_insert_ne.
  - cbn. destruct (String.eqb_spec k key) as [->|Hne]; [by rewrite lookup_delete_eq|by rewrite lookup_delete_ne].
  - by cbn; rewrite lookup_empty.
  - cbn in Ho |- *. rewrite map_lookup_filter. destruct (last_put key (rev ops)) as [[v e]|]; [|by rewrite IH].
    destruct IH as [->|[-> ?]]; [|by right]. cbn. unfold fresh. cbn. case_guard as Hf; [by left|].
    right. split; [done|]. apply not_true_is_false, Z.ltb_ge in Hf. lia.
  - unfold setDefaultTTL. by destruct (0 <? s).
Qed.

(** Whatever was put, removed, cleared and purged, by a clock that has not
    passed [now], [get] at [now] returns the last value put under the key since it
    was last removed, as long as its time to live (its own if positive, else the
    default then in force) has not passed, and nothing otherwise. *)
Theorem get_correct (ops : list cache_op) (key : string) (now : Z) :
  Forall (λ o, match op_time o with Some t => t ≤ now | None => True end) ops →
  get key now (run_cache ops) = if str_empty key then None else expected key now ops.
Proof.
  intros Ht. unfold get, expected. destruct (str_empty key) eqn:Ek; [done|].
  assert (key ≠ ""%string) as Hk by by intros ->.
  pose proof (agrees_run now ops Ht key Hk) as Ha.
  destruct (last_put key (rev ops)) as [[v e]|]; [|by rewrite Ha].
  destruct Ha as [->|[-> He]]; [done|]. cbn. by rewrite (proj2 (Z.ltb_ge now e)).
Qed.

(** [purgeExpired] keeps exactly the entries that are still live, and returns how
    many it dropped; after it every entry lives. *)
Theorem purgeExpired_correct (c : CacheManager) (now : Z) :
  let '(c', removed) := purgeExpired now c in
  (∀ k e, cache c' !! k = Some e ↔ cache c !! k = Some e ∧ now < expiry e)
  ∧ (size_of c = size_of c' + removed)%nat
  ∧ ∀ k t, now ≤ t → get k t c' = get k t c.
Proof.
  cbn. split_and!.
  - intros k e. rewrite map_lookup_filter_Some. cbn. unfold fresh. by rewrite Z.ltb_lt.
  - unfold size_of. cbn. pose proof (map_size_filter (λ ke : string * CacheEntry, fresh now ke.2 = true) (cache c)).
    lia.
  - intros k t Ht. unfold get. destruct (str_empty k); [done|]. cbn. rewrite map_lookup_filter.
    destruct (cache c !! k) as [e|]; [|done]. cbn. unfold fresh. case_guard as Hf; [done|]. cbn.
    apply not_true_is_false, Z.ltb_ge in Hf. by rewrite (proj2 (Z.ltb_ge t (expiry e))) by lia.
Qed.

(** ** Examples *)

(** The default argument of [put] is a time to live of its own, so a default
    that was set is not used unless the caller passes a number that is not
    positive. *)
Example default_argument_wins :
  get "k" (100 * second) (run_cache [CSetDefaultTTL 60; CPut "k" "v" None 0]) = Some "v"%string
  ∧ get "k" (100 * second) (run_cache [CSetDefaultTTL 60; CPut "k" "v" (Some 0) 0]) = None.
Proof. vm_compute. done. Qed.

(** An expired entry is counted until it is purged. *)
Example expired_is_counted :
  size_of (run_cache [CPut "k" "v" (Some 1) 0]) = 1%nat ∧ get "k" second (run_cache [CPut "k" "v" (Some 1) 0]) = None.
Proof. vm_compute. done. Qed.

Lemma get_correct_witness :
  get "k" 5 (run_cache [CPut "k" "v" None 0; CPurge 3; CPut "j" "w" None 4]) = Some "v"%string.
Proof.
  rewrite (get_correct [CPut "k" "v" None 0; CPurge 3; CPut "j" "w" None 4] "k" 5);
    [reflexivity|repeat constructor; cbn; lia].
Defined.
