(* ===== verification/SpatialIndex.v ===== *)
(** * SpatialIndex: the R-tree of coordinates

    Models class SpatialIndex of src/src/target/index/spatial_index.hpp and
    spatial_index.cpp: the tree of bounding boxes, insertion with its split,
    batches, removal, both searches, and the table of coordinates beside the
    tree.  The mutex is modelled where it is locked twice: [insert] of an object
    that is there calls [remove], which locks it again.  Left out: moves and
    logging.  Right ascension and declination are of the type [F]. *)

From S2P Require Import Prelude.

Record BoundingBox (F : Type) := mkBox { minRa : F; maxRa : F; minDec : F; maxDec : F }.
Arguments mkBox {F}.
Arguments minRa {F}.
Arguments maxRa {F}.
Arguments minDec {F}.
Arguments maxDec {F}.

(** [ids] and [points] are parallel vectors. *)
Inductive RTreeNode (F : Type) :=
  RNode (isLeaf : bool) (bbox : BoundingBox F) (ids : list string) (points : list (F * F))
    (children : list (RTreeNode F)).
Arguments RNode {F}.

Record SpatialIndex (F : Type) := mkSpatial {
  maxEntries_ : nat;
  minEntries_ : nat;
  root_ : RTreeNode F;
  objectMap_ : gmap string (F * F)
}.
Arguments mkSpatial {F}.
Arguments maxEntries_ {F}.
Arguments minEntries_ {F}.
Arguments root_ {F}.
Arguments objectMap_ {F}.

#[export] Instance SpatialIndex_eta F : Eta (SpatialIndex F) := λ x,
  mkSpatial (maxEntries_ x) (minEntries_ x) (root_ x) (objectMap_ x).

Section spatial.
Context {F : Type} `{FO : Floats F, sorter : StdSort}.
Variable f_max : F.                       (* std::numeric_limits<double>::max() *)

Abbreviation node := (RTreeNode F).
Abbreviation index := (SpatialIndex F).

(** [std::min] and [std::max]. *)
Definition f_min2 (a b : F) : F := if f_ltb b a then b else a.
Definition f_max2 (a b : F) : F := if f_ltb a b then b else a.

Definition area (b : BoundingBox F) : F := f_mul (f_sub (maxRa b) (minRa b)) (f_sub (maxDec b) (minDec b)).
Definition box_contains (b : BoundingBox F) (ra dec : F) : bool :=
  f_leb (minRa b) ra && f_leb ra (maxRa b) && f_leb (minDec b) dec && f_leb dec (maxDec b).

Definition whole_sky : BoundingBox F := mkBox (f_of_Z 0) (f_of_Z 360) (f_of_Z (-90)) (f_of_Z 90).
Definition empty_root : node := RNode true whole_sky [] [] [].

Definition SpatialIndex_new (maxEntries minEntries : nat) : result exn index :=
  if maxEntries <=? minEntries then Throw InvalidArgument
  else Ok (mkSpatial maxEntries minEntries empty_root ∅).

Definition degreesToRadians (degrees : F) : F := f_div (f_mul degrees f_pi) (f_of_Z 180).

Definition sphericalDistance (ra1 dec1 ra2 dec2 : F) : F :=
  let lat1 := degreesToRadians dec1 in
  let lat2 := degreesToRadians dec2 in
  let deltaLng := degreesToRadians (f_sub ra2 ra1) in
  let a := f_sin (f_div (f_sub lat2 lat1) (f_of_Z 2)) in
  let a := f_mul a a in
  let b := f_mul (f_cos lat1) (f_cos lat2) in
  let c := f_sin (f_div deltaLng (f_of_Z 2)) in
  let c := f_mul c c in
  let angle := f_mul (f_of_Z 2) (f_asin (f_sqrt (f_add a (f_mul b c)))) in
  f_div (f_mul angle (f_of_Z 180)) f_pi.

Definition bbox_of (n : node) : BoundingBox F := match n with RNode _ b _ _ _ => b end.

(** The box with a point. *)
Definition expand (b : BoundingBox F) (ra dec : F) : BoundingBox F :=
  mkBox (f_min2 (minRa b) ra) (f_max2 (maxRa b) ra) (f_min2 (minDec b) dec) (f_max2 (maxDec b) dec).

(** The box with the box of a child. *)
Definition join_box (b c : BoundingBox F) : BoundingBox F :=
  mkBox (f_min2 (minRa b) (minRa c)) (f_max2 (maxRa b) (maxRa c))
    (f_min2 (minDec b) (minDec c)) (f_max2 (maxDec b) (maxDec c)).

Definition updateBoundingBox (n : node) : node :=
  match n with
  | RNode true _ ids (((ra, dec) :: _) as points) ch =>
      RNode true (fold_left (λ b p, expand b p.1 p.2) points (mkBox ra ra dec dec)) ids points ch
  | RNode false _ ids points ((c :: _) as ch) =>
      let b := bbox_of c in
      RNode false (fold_left (λ b c, join_box b (bbox_of c)) ch (mkBox (minRa b) (minRa b) (minDec b) (minDec b)))
        ids points ch
  | n => n
  end.

(** The second half of a leaf goes to a sibling that is thrown away. *)
Definition splitNode (n : node) : node :=
  match n with
  | RNode true b ids points ch =>
      let splitPoint := (length ids / 2)%nat in
      updateBoundingBox (RNode true b (take splitPoint ids) (take splitPoint points) ch)
  | n => n
  end.

(** The child whose box grows least; [i] is the index of the first of [cs]. *)
Fixpoint best_child (cs : list node) (ra dec : F) (i bestChild : nat) (minIncrease : F) : nat :=
  match cs with
  | [] => bestChild
  | c :: rest =>
      let increase := f_sub (area (expand (bbox_of c) ra dec)) (area (bbox_of c)) in
      if f_ltb increase minIncrease then best_child rest ra dec (S i) i increase
      else best_child rest ra dec (S i) bestChild minIncrease
  end.

Fixpoint insertNode (maxEntries : nat) (id : string) (ra dec : F) (n : node) : node :=
  match n with
  | RNode true b ids points ch =>
      let n := updateBoundingBox (RNode true b (ids ++ [id]) (points ++ [(ra, dec)]) ch) in
      if maxEntries <? length (ids ++ [id]) then splitNode n else n
  | RNode false b ids points [] => n
  | RNode false b ids points ch =>
      let at_child := fix at_child (cs : list node) (i : nat) : list node :=
        match cs, i with
        | [], _ => []
        | c :: cs, 0 => insertNode maxEntries id ra dec c :: cs
        | c :: cs, S i => c :: at_child cs i
        end in
      let n := updateBoundingBox (RNode false b ids points (at_child ch (best_child ch ra dec 0 0 f_max))) in
      if maxEntries <? length ch then splitNode n else n
  end.

(** Erases the first entry [id] of the first leaf that has one. *)
Fixpoint erase_entry (id : string) (ids : list string) (points : list (F * F)) : list string * list (F * F) :=
  match ids, points with
  | i :: ids', p :: points' =>
      if String.eqb i id then (ids', points')
      else let '(ids'', points'') := erase_entry id ids' points' in (i :: ids'', p :: points'')
  | _, _ => (ids, points)
  end.

(** [findNodeContaining] and the erasure in the node it finds; [None] if there
    is none.  The boxes above the leaf stay as they were. *)
Fixpoint removeNode (id : string) (n : node) : option node :=
  match n with
  | RNode true b ids points ch =>
      if existsb (String.eqb id) ids then
        let '(ids', points') := erase_entry id ids points in
        Some (updateBoundingBox (RNode true b ids' points' ch))
      else None
  | RNode false b ids points ch =>
      let in_children := fix in_children (cs : list node) : option (list node) :=
        match cs with
        | [] => None
        | c :: cs => match removeNode id c with
                     | Some c' => Some (c' :: cs)
                     | None => cons c <$> in_children cs
                     end
        end in
      RNode false b ids points <$> in_children ch
  end.

Definition remove (id : string) (x : index) : index :=
  match objectMap_ x !! id with
  | None => x
  | Some _ =>
      let x := x <| objectMap_ ::= delete id |> in
      match removeNode id (root_ x) with Some r => x <| root_ := r |> | None => x end
  end.

(** [None]: an object that is there is removed first, which locks the mutex that
    is held (undefined behaviour). *)
Definition insert (id : string) (ra dec : F) (x : index) : option index :=
  let put x := x <| root_ ::= insertNode (maxEntries_ x) id ra dec |> <| objectMap_ ::= <[id := (ra, dec)]> |> in
  match objectMap_ x !! id with
  | None => Some (put x)
  | Some _ => None
  end.

(** An object that is there loses its entry in the table, not in the tree. *)
Definition insertBatch (objects : list (string * (F * F))) (x : index) : index :=
  fold_left (λ x o,
    let x := x <| objectMap_ ::= delete o.1 |> in
    x <| root_ ::= insertNode (maxEntries_ x) o.1 o.2.1 o.2.2 |> <| objectMap_ ::= <[o.1 := o.2]> |>) objects x.

Definition clear (x : index) : index := x <| root_ := empty_root |> <| objectMap_ := ∅ |>.
Definition size_of (x : index) : nat := size (objectMap_ x).
Definition contains (id : string) (x : index) : bool := bool_decide (is_Some (objectMap_ x !! id)).
Definition getCoordinates (id : string) (x : index) : F * F :=
  default (f_of_Z 0, f_of_Z 0) (objectMap_ x !! id).

(** ** Searches *)

(** How far a coordinate is outside an interval, squared. *)
Definition outside (v lo hi : F) : F :=
  if f_ltb v lo then f_mul (f_sub lo v) (f_sub lo v)
  else if f_ltb hi v then f_mul (f_sub v hi) (f_sub v hi) else f_of_Z 0.
Definition distToBox (b : BoundingBox F) (ra dec : F) : F :=
  f_add (outside ra (minRa b) (maxRa b)) (outside dec (minDec b) (maxDec b)).

(** The loop over the entries of a leaf; [hit] is what to add for one. *)
Fixpoint leaf_loop {A} (hit : string → F * F → option A) (limit : nat) (ids : list string) (points : list (F * F))
    (results : list A) : list A :=
  match ids, points with
  | i :: ids', p :: points' =>
      if limit <=? length results then results else
      leaf_loop hit limit ids' points' (results ++ match hit i p with Some a => [a] | None => [] end)
  | _, _ => results
  end.

(** Both recursive searches: [skip] is the test of the box. *)
Fixpoint searchNode {A} (skip : BoundingBox F → bool) (hit : string → F * F → option A) (limit : nat)
    (n : node) (results : list A) : list A :=
  if limit <=? length results then results else
  match n with
  | RNode isLeaf b ids points ch =>
      if skip b then results else
      if isLeaf : bool then leaf_loop hit limit ids points results else
      (fix over (cs : list node) (results : list A) : list A :=
         match cs with
         | [] => results
         | c :: cs => if limit <=? length results then results else over cs (searchNode skip hit limit c results)
         end) ch results
  end.

Definition radius_hit (ra dec radius : F) (id : string) (p : F * F) : option (string * F) :=
  let dist := sphericalDistance ra dec p.1 p.2 in
  if f_leb dist radius then Some (id, dist) else None.
Definition searchRadiusNode (ra dec radius : F) : nat → node → list (string * F) → list (string * F) :=
  searchNode (λ b, f_ltb radius (f_sqrt (distToBox b ra dec))) (radius_hit ra dec radius).

Definition searchRadius (ra dec radius : F) (limit : nat) (x : index) : list (string * F) :=
  std_sort (λ a b, f_ltb a.2 b.2) (searchRadiusNode ra dec radius limit (root_ x) []).

Definition box_hit (box : BoundingBox F) (id : string) (p : F * F) : option string :=
  if box_contains box p.1 p.2 then Some id else None.
Definition apart (box b : BoundingBox F) : bool :=
  f_ltb (maxRa b) (minRa box) || f_ltb (maxRa box) (minRa b)
  || f_ltb (maxDec b) (minDec box) || f_ltb (maxDec box) (minDec b).
Definition searchBoxNode (box : BoundingBox F) : nat → node → list string → list string :=
  searchNode (apart box) (box_hit box).

Definition searchBox (minRa maxRa minDec maxDec : F) (limit : nat) (x : index) : list string :=
  searchBoxNode (mkBox minRa maxRa minDec maxDec) limit (root_ x) [].

(** ** Runs *)

Inductive spatial_op :=
| SInsert (id : string) (ra dec : F)
| SInsertBatch (objects : list (string * (F * F)))
| SRemove (id : string)
| SClear.

(** An insertion that gets stuck ends the run. *)
Definition run_spatial_op (x : index) (o : spatial_op) : option index :=
  match o with
  | SInsert id ra dec => insert id ra dec x
  | SInsertBatch os => Some (insertBatch os x)
  | SRemove id => Some (remove id x)
  | SClear => Some (clear x)
  end.
Fixpoint run_spatial (ops : list spatial_op) (x : index) : option index :=
  match ops with
  | [] => Some x
  | o :: rest => run_spatial_op x o ≫= run_spatial rest
  end.

(** * Properties *)

(** ** The tree stays one leaf

    A split gives the root no second child, so the root is a leaf for ever; its
    entries are [tree]. *)

Definition tree (n : node) : list (string * (F * F)) :=
  match n with RNode _ _ ids points _ => zip ids points end.

(** The box of the points of a leaf. *)
Definition bounds (points : list (F * F)) (b : BoundingBox F) : BoundingBox F :=
  match points with
  | [] => b
  | (ra, dec) :: _ => fold_left (λ b p, expand b p.1 p.2) points (mkBox ra ra dec dec)
  end.

Record leaf_ok (maxEntries : nat) (n : node) : Prop := {
  lo_leaf : ∃ b ids points, n = RNode true b ids points [] ∧ length ids = length points
              ∧ (points ≠ [] → b = bounds points b);
  lo_size : length (tree n) ≤ maxEntries
}.

Lemma update_leaf b ids points :
  updateBoundingBox (RNode true b ids points []) = RNode true (bounds points b) ids points [].
Proof. by destruct points as [|[ra dec] points]. Qed.

Lemma bounds_idem points b b' : points ≠ [] → bounds points b = bounds points b'.
Proof. by destruct points as [|[]]. Qed.

Lemma mk_leaf_ok maxEntries b ids points :
  length ids = length points → length points ≤ maxEntries →
  leaf_ok maxEntries (RNode true (bounds points b) ids points []).
Proof.
  intros Hl Hm. split; [|cbn; rewrite length_zip_with; lia].
  eexists _, _, _. split; [reflexivity|]. split; [done|]. intros Hp. by apply bounds_idem.
Qed.

(** One more entry, or the first half of them. *)
Lemma leaf_insert_spec maxEntries id ra dec n :
  leaf_ok maxEntries n → 1 ≤ maxEntries →
  leaf_ok maxEntries (insertNode maxEntries id ra dec n)
  ∧ tree (insertNode maxEntries id ra dec n) =
      let t := tree n ++ [(id, (ra, dec))] in
      if decide (length t ≤ maxEntries) then t else take (length t / 2) t.
Proof.
  intros [(b & ids & points & -> & Hl & Hb) Hs] Hm. cbn [insertNode]. rewrite update_leaf.
  assert (zip (ids ++ [id]) (points ++ [(ra, dec)]) = zip ids points ++ [(id, (ra, dec))]) as Hz.
  { by rewrite zip_with_app. }
  cbn [tree] in Hs |- *. rewrite length_zip_with in Hs.
  assert (length (zip ids points ++ [(id, (ra, dec))]) = S (length ids)) as Hlen.
  { rewrite length_app, length_zip_with. cbn. lia. }
  rewrite Hlen. rewrite !length_app. cbn [length].
  destruct (Nat.ltb_spec maxEntries (length ids + 1)) as [Hlt|Hge].
  - cbn [splitNode]. rewrite update_leaf. rewrite length_app. cbn [length].
    replace (length ids + 1) with (S (length ids)) by lia.
    rewrite decide_False by lia. cbn [tree]. split.
    + apply mk_leaf_ok; rewrite !length_take, !length_app; cbn [length]; [lia|].
      assert (S (length ids) / 2 ≤ maxEntries); [|lia].
      apply Nat.Div0.div_le_upper_bound. lia.
    + rewrite <- zip_with_take, Hz. done.
  - rewrite decide_True by lia. cbn [tree]. rewrite Hz. split; [|done].
    apply mk_leaf_ok; rewrite !length_app; cbn; lia.
Qed.

(** The first entry of an object goes. *)
Fixpoint delete_first (id : string) (t : list (string * (F * F))) : list (string * (F * F)) :=
  match t with
  | [] => []
  | e :: rest => if String.eqb e.1 id then rest else e :: delete_first id rest
  end.

Lemma erase_entry_spec id ids points :
  length ids = length points →
  let '(ids', points') := erase_entry id ids points in
  length ids' = length points' ∧ length points' ≤ length points
  ∧ zip ids' points' = delete_first id (zip ids points).
Proof.
  revert points. induction ids as [|i ids IH]; intros [|p points] Hl; try done.
  cbn. destruct (String.eqb i id); [split_and!; [by injection Hl|lia|done]|].
  specialize (IH points ltac:(by injection Hl)). destruct (erase_entry id ids points) as [ids' points'].
  destruct IH as (H1 & H2 & H3). cbn. split_and!; [by f_equal|lia|by f_equal].
Qed.

Lemma delete_first_absent id t : existsb (String.eqb id) t.*1 = false → delete_first id t = t.
Proof.
  induction t as [|[i p] t IH]; [done|]. cbn. intros [Hi Ht]%orb_false_iff.
  rewrite String.eqb_sym, Hi. by rewrite IH.
Qed.

Lemma delete_first_length id t : length (delete_first id t) ≤ length t.
Proof. induction t as [|e t IH]; cbn; [done|]. destruct (String.eqb e.1 id); cbn; lia. Qed.

Lemma removeNode_spec maxEntries id n :
  leaf_ok maxEntries n →
  leaf_ok maxEntries (default n (removeNode id n)) ∧ tree (default n (removeNode id n)) = delete_first id (tree n).
Proof.
  intros [(b & ids & points & -> & Hl & Hb) Hs]. cbn [removeNode].
  destruct (existsb (String.eqb id) ids) eqn:E; cbn [default].
  - pose proof (erase_entry_spec id ids points Hl) as He.
    destruct (erase_entry id ids points) as [ids' points']. destruct He as (H1 & H2 & H3).
    cbn [from_option Datatypes.id]. cbn in Hs. rewrite length_zip_with in Hs. rewrite update_leaf.
    split; [apply mk_leaf_ok; [done|lia]|done].
  - cbn. split; [split; [by eexists _, _, _|done]|]. rewrite delete_first_absent; [done|].
    rewrite fst_zip by lia. done.
Qed.

(** ** The index as a list of entries of bounded length *)

Definition index_ok (x : index) : Prop := 1 ≤ maxEntries_ x ∧ leaf_ok (maxEntries_ x) (root_ x).

(** Adding an entry: past the capacity, the later half is dropped. *)
Definition add_entry (cap : nat) (t : list (string * (F * F))) (e : string * (F * F)) : list (string * (F * F)) :=
  let t := t ++ [e] in if decide (length t ≤ cap) then t else take (length t / 2) t.

(** The entries and the table, without tree or boxes. *)
Definition flat : Type := list (string * (F * F)) * gmap string (F * F).
Definition flat_remove (id : string) (f : flat) : flat :=
  match f.2 !! id with Some _ => (delete_first id f.1, delete id f.2) | None => f end.
Definition flat_op (cap : nat) (f : flat) (o : spatial_op) : option flat :=
  match o with
  | SInsert id ra dec =>
      match f.2 !! id with
      | None => Some (add_entry cap f.1 (id, (ra, dec)), <[id := (ra, dec)]> f.2)
      | Some _ => None
      end
  | SInsertBatch os => Some (fold_left (λ f o, (add_entry cap f.1 o, <[o.1 := o.2]> f.2)) os f)
  | SRemove id => Some (flat_remove id f)
  | SClear => Some ([], ∅)
  end.
Fixpoint flat_run (cap : nat) (ops : list spatial_op) (f : flat) : option flat :=
  match ops with [] => Some f | o :: rest => flat_op cap f o ≫= flat_run cap rest end.

Definition view (x : index) : flat := (tree (root_ x), objectMap_ x).

Lemma remove_view id x : index_ok x → index_ok (remove id x) ∧ view (remove id x) = flat_remove id (view x)
  ∧ maxEntries_ (remove id x) = maxEntries_ x.
Proof.
  intros [Hm Hok]. destruct (removeNode_spec _ id _ Hok) as [H1 H2].
  unfold remove, flat_remove, view, index_ok in *. cbn. destruct (objectMap_ x !! id); [|done].
  destruct (removeNode id (root_ x)); cbn in *; rewrite <- H2; done.
Qed.

Lemma put_view id ra dec x :
  index_ok x →
  let x' := x <| root_ ::= insertNode (maxEntries_ x) id ra dec |> <| objectMap_ ::= <[id := (ra, dec)]> |> in
  index_ok x' ∧ view x' = (add_entry (maxEntries_ x) (tree (root_ x)) (id, (ra, dec)), <[id := (ra, dec)]> (objectMap_ x)).
Proof.
  intros [Hm Hok]. destruct (leaf_insert_spec (maxEntries_ x) id ra dec _ Hok Hm) as [H1 H2].
  cbn. split; [by split|]. unfold view. cbn. by rewrite H2.
Qed.

Lemma batch_view os x :
  index_ok x →
  index_ok (insertBatch os x) ∧ maxEntries_ (insertBatch os x) = maxEntries_ x
  ∧ view (insertBatch os x) = fold_left (λ f o, (add_entry (maxEntries_ x) f.1 o, <[o.1 := o.2]> f.2)) os (view x).
Proof.
  unfold insertBatch. revert x. induction os as [|[id [ra dec]] os IH]; intros x Hx; [done|]. cbn [fold_left].
  set (x' := x <| objectMap_ ::= delete id |>).
  assert (index_ok x') as Hx' by exact Hx. destruct (put_view id ra dec x' Hx') as [H1 H2].
  destruct (IH _ H1) as (H3 & H4 & H5). split; [exact H3|]. split; [exact H4|].
  etrans; [exact H5|]. f_equal. etrans; [exact H2|]. cbn. by rewrite insert_delete_eq.
Qed.

Lemma empty_ok cap : leaf_ok cap empty_root.
Proof. split; [by eexists _, _, _|cbn; lia]. Qed.

Lemma run_op_view x o :
  index_ok x →
  match run_spatial_op x o with
  | Some x' => index_ok x' ∧ maxEntries_ x' = maxEntries_ x ∧ flat_op (maxEntries_ x) (view x) o = Some (view x')
  | None => flat_op (maxEntries_ x) (view x) o = None
  end.
Proof.
  intros Hx. destruct o as [id ra dec|os|id|]; cbn [run_spatial_op flat_op].
  - unfold insert. cbn [view snd]. destruct (objectMap_ x !! id).
    + done.
    + destruct (put_view id ra dec x Hx) as [H4 H5]. split; [done|]. split; [done|]. by rewrite H5.
  - destruct (batch_view os x Hx) as (H1 & H2 & H3). by rewrite H3.
  - destruct (remove_view id x Hx) as (H1 & H2 & H3). by rewrite H2.
  - destruct Hx as [Hm _]. split; [split; [done|apply empty_ok]|done].
Qed.

Lemma run_view ops x :
  index_ok x →
  match run_spatial ops x with
  | Some x' => index_ok x' ∧ maxEntries_ x' = maxEntries_ x ∧ flat_run (maxEntries_ x) ops (view x) = Some (view x')
  | None => flat_run (maxEntries_ x) ops (view x) = None
  end.
Proof.
  revert x. induction ops as [|o ops IH]; intros x Hx; cbn [run_spatial flat_run]; [done|].
  pose proof (run_op_view x o Hx) as Ho. destruct (run_spatial_op x o) as [x'|]; cbn; [|by rewrite Ho].
  destruct Ho as (H1 & H2 & ->). cbn. specialize (IH x' H1). rewrite H2 in IH.
  destruct (run_spatial ops x'); [|done]. destruct IH as (? & -> & ?). done.
Qed.

(** ** Searches *)

Lemma leaf_loop_spec {A} (hit : string → F * F → option A) limit ids points results :
  length ids = length points →
  leaf_loop hit limit ids points results =
    if limit <=? length results then results
    else results ++ take (limit - length results) (omap (λ e, hit e.1 e.2) (zip ids points)).
Proof.
  revert points results. induction ids as [|i ids IH]; intros [|p points] results Hl; try done.
  { cbn. destruct (_ <=? _); [done|]. by rewrite take_nil, app_nil_r. }
  cbn [leaf_loop zip_with omap list_omap fst snd]. destruct (Nat.leb_spec limit (length results)) as [|Hlt]; [done|].
  rewrite IH by by injection Hl. destruct (hit i p) as [a|]; rewrite ?app_nil_r; cbn [length].
  - rewrite length_app. cbn. replace (limit - length results) with (S (limit - (length results + 1))) by lia.
    cbn [take]. destruct (Nat.leb_spec limit (length results + 1)) as [H|]; [|by rewrite <- app_assoc].
    by replace (limit - (length results + 1)) with 0 by lia.
  - destruct (Nat.leb_spec limit (length results)); [lia|done].
Qed.

Lemma searchNode_leaf {A} skip (hit : string → F * F → option A) limit b ids points :
  length ids = length points →
  searchNode skip hit limit (RNode true b ids points []) [] =
    if skip b then [] else take limit (omap (λ e, hit e.1 e.2) (zip ids points)).
Proof.
  intros Hl. cbn [searchNode length]. destruct (Nat.leb_spec limit 0) as [H0|H0].
  { replace limit with 0 by lia. by destruct (skip b). }
  destruct (skip b); [done|]. rewrite leaf_loop_spec by done. cbn [length].
  destruct (Nat.leb_spec limit 0); [lia|]. by rewrite Nat.sub_0_r.
Qed.

Definition in_box (box : BoundingBox F) (t : list (string * (F * F))) : list string :=
  omap (λ e, box_hit box e.1 e.2) t.
Definition in_radius (ra dec radius : F) (t : list (string * (F * F))) : list (string * F) :=
  omap (λ e, radius_hit ra dec radius e.1 e.2) t.

Section ordered.
Hypothesis order : float_order F.

Lemma f_refl a : f_leb a a = true.
Proof. by destruct (fo_total order a a). Qed.

Lemma min2_le a b : f_leb (f_min2 a b) a = true ∧ f_leb (f_min2 a b) b = true.
Proof.
  unfold f_min2. rewrite (fo_lt order). destruct (f_leb a b) eqn:E; cbn; [by rewrite f_refl|].
  destruct (fo_total order a b); [congruence|]. by rewrite f_refl.
Qed.

Lemma max2_ge a b : f_leb a (f_max2 a b) = true ∧ f_leb b (f_max2 a b) = true.
Proof.
  unfold f_max2. rewrite (fo_lt order). destruct (f_leb b a) eqn:E; cbn; [by rewrite f_refl|].
  destruct (fo_total order a b); [|congruence]. by rewrite f_refl.
Qed.

(** [b] is inside [b']. *)
Definition inside (b b' : BoundingBox F) : Prop :=
  f_leb (minRa b') (minRa b) = true ∧ f_leb (maxRa b) (maxRa b') = true
  ∧ f_leb (minDec b') (minDec b) = true ∧ f_leb (maxDec b) (maxDec b') = true.

Lemma inside_trans b1 b2 b3 : inside b1 b2 → inside b2 b3 → inside b1 b3.
Proof. intros (? & ? & ? & ?) (? & ? & ? & ?). split_and!; eapply (fo_trans order); eauto. Qed.

Lemma expand_inside b ra dec : inside b (expand b ra dec) ∧ box_contains (expand b ra dec) ra dec = true.
Proof.
  destruct (min2_le (minRa b) ra), (min2_le (minDec b) dec), (max2_ge (maxRa b) ra), (max2_ge (maxDec b) dec).
  split; [done|]. unfold box_contains, expand. cbn. rewrite !andb_true_iff. done.
Qed.

Lemma contains_inside b b' ra dec : inside b b' → box_contains b ra dec = true → box_contains b' ra dec = true.
Proof.
  unfold box_contains. rewrite !andb_true_iff. intros (? & ? & ? & ?) (((? & ?) & ?) & ?).
  split_and!; eapply (fo_trans order); eauto.
Qed.

Lemma fold_expand points b :
  inside b (fold_left (λ b p, expand b p.1 p.2) points b)
  ∧ ∀ p, p ∈ points → box_contains (fold_left (λ b p, expand b p.1 p.2) points b) p.1 p.2 = true.
Proof.
  revert b. induction points as [|q points IH]; intros b; cbn.
  { split; [|by intros p ?%not_elem_of_nil]. split_and!; apply f_refl. }
  destruct (IH (expand b q.1 q.2)) as [H1 H2]. destruct (expand_inside b q.1 q.2) as [H3 H4].
  split; [by eapply inside_trans|]. intros p [->|Hp]%elem_of_cons; [|by apply H2]. by eapply contains_inside.
Qed.

Lemma bounds_contains points b p : p ∈ points → box_contains (bounds points b) p.1 p.2 = true.
Proof.
  destruct points as [|[ra dec] points]; [by intros ?%not_elem_of_nil|].
  intros Hp. by apply (fold_expand ((ra, dec) :: points)).
Qed.

(** A box that is apart from the box of the points holds none of them. *)
Lemma apart_none box b ra dec : apart box b = true → box_contains b ra dec = true → box_contains box ra dec = false.
Proof.
  intros Ha Hb. destruct (box_contains box ra dec) eqn:E; [|done].
  unfold box_contains in *. apply andb_true_iff in Hb as [[[B1 B2]%andb_true_iff B3]%andb_true_iff B4].
  apply andb_true_iff in E as [[[E1 E2]%andb_true_iff E3]%andb_true_iff E4].
  unfold apart in Ha. rewrite !(fo_lt order) in Ha.
  rewrite (fo_trans order _ _ _ E1 B2), (fo_trans order _ _ _ B1 E2), (fo_trans order _ _ _ E3 B4),
    (fo_trans order _ _ _ B3 E4) in Ha. done.
Qed.

Lemma omap_none {A B} (f : A → option B) l : (∀ a, a ∈ l → f a = None) → omap f l = [].
Proof.
  induction l as [|a l IH]; intros Hf; [done|]. cbn. rewrite Hf by by left. apply IH. intros. apply Hf. by right.
Qed.

Lemma searchBox_spec x a b c d limit :
  index_ok x → searchBox a b c d limit x = take limit (in_box (mkBox a b c d) (tree (root_ x))).
Proof.
  intros [Hm [(bb & ids & points & Hr & Hl & Hb) _]]. unfold searchBox, searchBoxNode. rewrite Hr.
  rewrite searchNode_leaf by done. destruct (apart _ bb) eqn:E; [|done]. cbn [tree].
  unfold in_box. rewrite omap_none; [by rewrite take_nil|]. intros [i p] Hip. unfold box_hit. cbn.
  apply elem_of_zip_r in Hip. rewrite (apart_none _ bb p.1 p.2 E); [done|].
  rewrite Hb by (intros ->; by apply not_elem_of_nil in Hip). by apply bounds_contains.
Qed.
End ordered.

Lemma searchRadius_spec x ra dec radius limit :
  index_ok x →
  searchRadius ra dec radius limit x ≡ₚ
    if f_ltb radius (f_sqrt (distToBox (bbox_of (root_ x)) ra dec)) then []
    else take limit (in_radius ra dec radius (tree (root_ x))).
Proof.
  intros [Hm [(bb & ids & points & Hr & Hl & Hb) _]]. unfold searchRadius, searchRadiusNode.
  rewrite std_sort_perm, Hr. rewrite searchNode_leaf by done. done.
Qed.

(** Whatever is inserted and removed, the index is one leaf of at most
    [maxEntries] entries: an entry past that number drops the later half.
    So the tree is the list that the operations give by that rule; on
    coordinates without NaN a box search returns exactly the entries of that
    list in the box, up to the limit, the boxes losing none of them; a radius
    search returns entries within the radius, unless the box of the whole tree
    is farther than that by the plane distance; and neither ever returns more than
    [maxEntries], whatever the limit. *)
Theorem spatial_index_correct (maxEntries minEntries : nat) (ops : list spatial_op) (x0 x : index) :
  SpatialIndex_new maxEntries minEntries = Ok x0 → run_spatial ops x0 = Some x → float_order F →
  ∃ t table, flat_run maxEntries ops ([], ∅) = Some (t, table) ∧ length t ≤ maxEntries
  ∧ size_of x = size table
  ∧ (∀ a b c d limit, searchBox a b c d limit x = take limit (in_box (mkBox a b c d) t))
  ∧ ∀ ra dec radius limit,
      (searchRadius ra dec radius limit x = [] ∧ f_ltb radius (f_sqrt (distToBox (bbox_of (root_ x)) ra dec)) = true)
      ∨ searchRadius ra dec radius limit x ≡ₚ take limit (in_radius ra dec radius t).
Proof.
  unfold SpatialIndex_new. destruct (Nat.leb_spec maxEntries minEntries) as [|Hlt]; [done|]. intros [= <-] Hrun Ho.
  assert (index_ok (mkSpatial maxEntries minEntries empty_root ∅)) as H0 by (split; [cbn; lia|apply empty_ok]).
  pose proof (run_view ops _ H0) as Hv. rewrite Hrun in Hv. destruct Hv as (Hok & Hmax & Hf).
  exists (tree (root_ x)), (objectMap_ x). split; [exact Hf|].
  split; [destruct Hok as [_ [_ Hs]]; by rewrite Hmax in Hs|]. split; [done|]. split.
  - intros a b c d limit. by apply searchBox_spec.
  - intros ra dec radius limit. pose proof (searchRadius_spec x ra dec radius limit Hok) as Hr.
    destruct (f_ltb radius _) eqn:E; [left|by right]. split; [|done]. by apply Permutation_nil.
Qed.
End spatial.

(** ** Examples *)

#[local] Existing Instance insertion_sort.

(** Whole degrees, with a sine that is a triangle wave of period 360. *)
Definition wave (x : Z) : Z :=
  let r := (x mod 360)%Z in if (r <=? 90)%Z then r else if (r <=? 270)%Z then (180 - r)%Z else (r - 360)%Z.
#[local] Instance degrees : Floats Z := {|
  f_zero := 0%Z; f_leb := Z.leb; f_ltb := Z.ltb; f_eqb := Z.eqb; f_add := Z.add; f_sub := Z.sub;
  f_mul := Z.mul; f_div := Z.div; f_of_Z z := z; f_to_int z := z; f_floor z := z; f_parse _ := None;
  f_print := pretty; f_pi := 180%Z; f_sin := wave; f_cos _ := 1%Z; f_asin z := z; f_sqrt := Z.sqrt
|}.

Definition demo_index (cap : nat) : SpatialIndex Z := mkSpatial cap 0 empty_root ∅.
Definition demo_run (cap : nat) (ops : list spatial_op) : option (SpatialIndex Z) :=
  run_spatial (10 ^ 9)%Z ops (demo_index cap).
Definition found (x : option (SpatialIndex Z)) : option (nat * list string) :=
  (λ x, (size_of x, searchBox 0%Z 360%Z (-90)%Z 90%Z 1000 x)) <$> x.

(** Of 51 objects in an index of the default capacity, a search of the whole sky
    finds 25, and [size] says 51. *)
Example split_loses_half :
  (λ r, (r.1, length r.2)) <$>
    found (demo_run 50 ((λ i, SInsert (pretty (Z.of_nat i)) (Z.of_nat i) 0%Z) <$> seq 0 51)) = Some (51, 25).
Proof. vm_compute. reflexivity. Qed.

(** Updating an object locks the mutex twice. *)
Example update_gets_stuck : demo_run 50 [SInsert "a" 1%Z 1%Z; SInsert "a" 2%Z 2%Z] = None.
Proof. vm_compute. reflexivity. Qed.

(** A batch that updates an object leaves its old entry in the tree, where it
    is found after the object was removed. *)
Example batch_leaves_ghost :
  found (demo_run 50 [SInsertBatch [("a"%string, (1, 1)%Z)]; SInsertBatch [("a"%string, (2, 2)%Z)]])
    = Some (1, ["a"; "a"]%string)
  ∧ found (demo_run 50 [SInsertBatch [("a"%string, (1, 1)%Z)]; SInsertBatch [("a"%string, (2, 2)%Z)]; SRemove "a"])
    = Some (0, ["a"]%string).
Proof. vm_compute. done. Qed.

(** The box is compared by plane distance, so an object two degrees away across
    the origin of right ascension is not found. *)
Example wrap_is_missed :
  sphericalDistance 359%Z 0%Z 1%Z 0%Z = 2%Z
  ∧ (λ x, searchRadius 359%Z 0%Z 5%Z 10 x) <$> demo_run 50 [SInsert "a" 1%Z 0%Z] = Some [].
Proof. vm_compute. done. Qed.

Lemma degrees_order : float_order Z.
Proof.
  split; cbn; intros *.
  - by rewrite Z.leb_antisym, negb_involutive.
  - rewrite !Z.leb_le. lia.
  - rewrite !Z.leb_le. lia.
Qed.

Lemma spatial_index_correct_witness :
  ∃ x, demo_run 50 [SInsert "a" 1%Z 0%Z; SInsert "b" 4%Z 0%Z; SRemove "a"] = Some x
    ∧ searchBox 3%Z 9%Z (-1)%Z 1%Z 10 x = ["b"%string].
Proof.
  eexists. split; [vm_compute; reflexivity|].
  destruct (spatial_index_correct (10 ^ 9)%Z 50 0 [SInsert "a" 1%Z 0%Z; SInsert "b" 4%Z 0%Z; SRemove "a"]
    (demo_index 50) _ eq_refl ltac:(vm_compute; reflexivity) degrees_order) as (t & table & Hf & _ & _ & Hb & _).
  rewrite Hb. vm_compute in Hf. injection Hf as <- <-. vm_compute. reflexivity.
Defined.
