(* ===== verification/FilterEvaluator.v ===== *)
(** * FilterEvaluator: filtering, sorting and paging of search results

    Models class FilterEvaluator of src/src/target/search/filter_evaluator.hpp
    and filter_evaluator.cpp, on the objects and filters of Repository.v.  The
    declared but never defined helpers (matchesType, matchesSurfaceBrightness
    and the like) have no code to model.  Results are fewer than 2^31. *)

From S2P Require Import Prelude Repository.

(** ** SQL LIKE *)

(** Skips to the first [c]; [None] if there is none. *)
Fixpoint find_char (c : char) (str : list char) : option (list char) :=
  match str with
  | [] => None
  | x :: str' => if Ascii.eqb x c then Some str else find_char c str'
  end.

(** The loop, on what is left of the pattern and the string.  A run of stars is
    taken one star at a time. *)
Fixpoint like_loop (pattern str : list char) : bool :=
  match pattern with
  | [] => match str with [] => true | _ => false end
  | p :: pattern' =>
      if Ascii.eqb p "%" then
        match pattern' with
        | [] => true
        | c :: _ =>
            if Ascii.eqb c "%" then like_loop pattern' str else
            match find_char c str with None => false | Some str' => like_loop pattern' str' end
        end
      else if Ascii.eqb p "_" then
        match str with [] => false | _ :: str' => like_loop pattern' str' end
      else
        match str with
        | [] => false
        | x :: str' => if Ascii.eqb x p then like_loop pattern' str' else false
        end
  end.

Definition likeMatch (str pattern : string) : bool :=
  if str_empty pattern then true else like_loop (chars pattern) (chars str).

Section evaluator.
Context {F : Type} `{FO : Floats F, sorter : StdSort}.
Variable fixed2 : F → string.                    (* std::format of {:.2f} *)
Abbreviation obj := (CelestialObjectModel F).
Abbreviation filt := (CelestialSearchFilter F).

Definition matchesNamePattern (o : obj) (f : filt) : bool :=
  likeMatch (identifier o) (namePattern f) || likeMatch (mIdentifier _ o) (namePattern f)
  || likeMatch (chineseName o) (namePattern f) || likeMatch (extensionName _ o) (namePattern f).

Definition matchesMagnitude (o : obj) (f : filt) : bool :=
  f_leb (minMagnitude f) (visualMagnitudeV o) && f_leb (visualMagnitudeV o) (maxMagnitude f).
Definition matchesSize (o : obj) (f : filt) : bool := true.
Definition matchesCoordinates (o : obj) (f : filt) : bool :=
  f_leb (minRA f) (radJ2000 o) && f_leb (radJ2000 o) (maxRA f)
  && f_leb (minDec f) (decDJ2000 o) && f_leb (decDJ2000 o) (maxDec f).

(** A constraint that is given and not met. *)
Definition differs (wanted actual : string) : bool := negb (str_empty wanted) && negb (String.eqb actual wanted).

Definition matches (o : obj) (f : filt) : bool :=
  if negb (str_empty (namePattern f)) && negb (matchesNamePattern o f) then false
  else if differs (filter_type f) (type o) then false
  else if differs (filter_morphology _ f) (morphology _ o) then false
  else if differs (filter_constellation _ f) (constellationEn _ o) then false
  else if negb (matchesMagnitude o f) then false
  else if negb (matchesSize o f) then false
  else if negb (matchesCoordinates o f) then false
  else true.

Fixpoint filterResults (results : list obj) (f : filt) : list obj :=
  match results with
  | [] => []
  | o :: rest => if matches o f then o :: filterResults rest f else filterResults rest f
  end.

Definition validateFilter (f : filt) : string :=
  if f_ltb (maxMagnitude f) (minMagnitude f) then "Min magnitude cannot be greater than max magnitude"
  else if f_ltb (maxRA f) (minRA f) then "Min RA cannot be greater than max RA"
  else if f_ltb (maxDec f) (minDec f) then "Min declination cannot be greater than max declination"
  else "".

Definition explainMismatch (o : obj) (f : filt) : string :=
  if negb (str_empty (namePattern f)) && negb (matchesNamePattern o f) then
    "Name '" +:+ identifier o +:+ "' does not match pattern '" +:+ namePattern f +:+ "'"
  else if differs (filter_type f) (type o) then
    "Type '" +:+ type o +:+ "' does not match '" +:+ filter_type f +:+ "'"
  else if negb (matchesMagnitude o f) then
    "Magnitude " +:+ fixed2 (visualMagnitudeV o) +:+ " not in range [" +:+ fixed2 (minMagnitude f) +:+ ", " +:+
    fixed2 (maxMagnitude f) +:+ "]"
  else if negb (matchesSize o f) then "Major axis " +:+ fixed2 (visualMagnitudeV o) +:+ " outside range"
  else if negb (matchesCoordinates o f) then
    "Coordinates (RA=" +:+ fixed2 (radJ2000 o) +:+ ", Dec=" +:+ fixed2 (decDJ2000 o) +:+
    ") outside box [RA: " +:+ fixed2 (minRA f) +:+ "-" +:+ fixed2 (maxRA f) +:+
    ", Dec: " +:+ fixed2 (minDec f) +:+ "-" +:+ fixed2 (maxDec f) +:+ "]"
  else "".

(** [cmp] of the lambda of [sortResults], and [std::string::compare]. *)
Definition compare_string (a b : string) : Z := if str_ltb a b then -1 else if str_ltb b a then 1 else 0.
Definition compare_float (a b : F) : Z := if f_ltb a b then -1 else if f_ltb b a then 1 else 0.
Definition compare_by (key : string) (a b : obj) : Z :=
  if String.eqb key "identifier" then compare_string (identifier a) (identifier b)
  else if String.eqb key "magnitude" then compare_float (visualMagnitudeV a) (visualMagnitudeV b)
  else if String.eqb key "ra" then compare_float (radJ2000 a) (radJ2000 b)
  else if String.eqb key "dec" then compare_float (decDJ2000 a) (decDJ2000 b)
  else compare_string (identifier a) (identifier b).
Definition before (f : filt) (a b : obj) : bool :=
  if ascending _ f then Z.ltb (compare_by (orderBy _ f) a b) 0 else Z.ltb 0 (compare_by (orderBy _ f) a b).

Definition sortResults (results : list obj) (f : filt) : list obj := std_sort (before f) results.

(** [None]: the sum of two ints overflows. *)
Definition paginate (results : list obj) (offset limit : Z) : option (list obj) :=
  if ((offset <? 0) || (limit <=? 0))%Z then Some [] else
  if (Z.of_nat (length results) <=? offset)%Z then Some [] else
  if (INT_MAX <? offset + limit)%Z then None else
  let last := Z.min (Z.of_nat (length results)) (offset + limit) in
  Some (take (Z.to_nat last - Z.to_nat offset) (drop (Z.to_nat offset) results)).

Definition activeConstraints (f : filt) : Z :=
  let one (b : bool) : Z := (if b then 1 else 0)%Z in
  (one (negb (str_empty (namePattern f))) + one (negb (str_empty (filter_type f)))
  + one (negb (str_empty (filter_morphology _ f))) + one (negb (str_empty (filter_constellation _ f)))
  + one (f_ltb (f_of_Z (-30)) (minMagnitude f) || f_ltb (maxMagnitude f) (f_of_Z 30))
  + one (f_ltb (f_of_Z 0) (minRA f) || f_ltb (maxRA f) (f_of_Z 360))
  + one (f_ltb (f_of_Z (-90)) (minDec f) || f_ltb (maxDec f) (f_of_Z 90)))%Z.

Definition newline : string := String (Ascii.ascii_of_nat 10) "".
Definition getFilterStats (f : filt) : string :=
  "Filter Statistics:" +:+ newline +:+ "  Active Constraints: " +:+ pretty (activeConstraints f) +:+ newline +:+
  "  Limit: " +:+ pretty (limit f) +:+ newline +:+ "  Offset: " +:+ pretty (offset f) +:+ newline +:+
  "  Sort By: " +:+ orderBy _ f +:+ " (" +:+ (if ascending _ f then "ascending" else "descending") +:+ ")" +:+ newline.

(** * Properties *)

(** ** The pattern matcher against LIKE *)

Inductive like : list char → list char → Prop :=
| like_nil : like [] []
| like_stop p s : like p s → like ("%"%char :: p) s
| like_more p x s : like ("%"%char :: p) s → like ("%"%char :: p) (x :: s)
| like_one p x s : like p s → like ("_"%char :: p) (x :: s)
| like_char c p s : c ≠ "%"%char → c ≠ "_"%char → like p s → like (c :: p) (c :: s).

Lemma find_char_suffix c s s' : find_char c s = Some s' → ∃ a, s = a ++ s'.
Proof.
  induction s as [|x s IH]; cbn; [done|]. destruct (Ascii.eqb x c); [intros [= <-]; by exists []|].
  intros [a ->]%IH. by exists (x :: a).
Qed.

Lemma like_skip p a s : like ("%"%char :: p) s → like ("%"%char :: p) (a ++ s).
Proof. intros Hs. induction a as [|x a IH]; cbn; [done|]. by apply like_more. Qed.

Lemma like_all s : like ["%"%char] s.
Proof. rewrite <- (app_nil_r s). apply like_skip, like_stop, like_nil. Qed.

(** What the loop accepts is a match. *)
Lemma like_loop_sound p s : like_loop p s = true → like p s.
Proof.
  revert s. induction p as [|c p IH]; intros s; cbn [like_loop]; [destruct s; [constructor|done]|].
  destruct (Ascii.eqb_spec c "%") as [->|Hp].
  { destruct p as [|d p]; [intros _; apply like_all|]. destruct (Ascii.eqb_spec d "%") as [->|Hd].
    - intros Hs. apply like_stop. by apply IH.
    - destruct (find_char d s) as [s'|] eqn:E; [|done]. intros Hs.
      apply find_char_suffix in E as [a ->]. apply like_skip, like_stop. by apply IH. }
  destruct (Ascii.eqb_spec c "_") as [->|Hu].
  { destruct s as [|x s]; [done|]. intros Hs. apply like_one. by apply IH. }
  destruct s as [|x s]; [done|]. destruct (Ascii.eqb_spec x c) as [->|]; [|done].
  intros Hs. apply like_char; [done..|]. by apply IH.
Qed.

(** The patterns it decides: stars at the end only. *)
Fixpoint stars_last (p : list char) : bool :=
  match p with
  | [] => true
  | c :: p' => if Ascii.eqb c "%" then forallb (λ d, Ascii.eqb d "%") p' else stars_last p'
  end.

Lemma like_loop_stars p s : forallb (λ d, Ascii.eqb d "%") p = true → like_loop ("%"%char :: p) s = true.
Proof.
  revert s. induction p as [|d p IH]; intros s; [done|].
  change (like_loop ("%"%char :: d :: p) s) with
    (if Ascii.eqb d "%" then like_loop (d :: p) s else
     match find_char d s with None => false | Some str' => like_loop (d :: p) str' end).
  cbn [forallb]. intros [Hd Hp]%andb_true_iff. rewrite Hd. apply Ascii.eqb_eq in Hd as ->. by apply IH.
Qed.

Lemma like_loop_complete p s : stars_last p = true → like p s → like_loop p s = true.
Proof.
  intros Hp Hl. induction Hl as [|p s Hl IH|p x s Hl IH|p x s Hl IH|c p s Hc Hu Hl IH]; [done| | | |].
  - by apply like_loop_stars.
  - by apply like_loop_stars.
  - cbn in Hp |- *. auto.
  - cbn in Hp |- *. apply Ascii.eqb_neq in Hc, Hu. rewrite Hc, Hu, Ascii.eqb_refl in *. auto.
Qed.

(** The loop ends on every pattern and string; what it accepts is a match
    of SQL LIKE ([%] any characters, [_] one); and where stars come last in
    the pattern it accepts every match.  An empty pattern accepts everything. *)
Theorem likeMatch_correct (str pattern : string) :
  (pattern = ""%string → likeMatch str pattern = true)
  ∧ (pattern ≠ ""%string → likeMatch str pattern = true → like (chars pattern) (chars str))
  ∧ (stars_last (chars pattern) = true → like (chars pattern) (chars str) → likeMatch str pattern = true).
Proof.
  unfold likeMatch. split_and!.
  - by intros ->.
  - intros Hp. destruct pattern; [done|]. apply like_loop_sound.
  - intros Hs Hl. destruct (str_empty pattern); [done|]. by apply like_loop_complete.
Qed.

(** ** Filtering *)

Lemma filterResults_eq results f : filterResults results f = filter (λ o, matches o f = true) results.
Proof.
  induction results as [|o results IH]; [done|]. cbn [filterResults]. rewrite filter_cons, IH.
  by case_decide; destruct (matches o f).
Qed.

(** The explanation ignores the morphology and the constellation. *)
Definition without_class (f : filt) : filt := f <| filter_morphology F := ""%string |> <| filter_constellation F := ""%string |>.

Lemma explainMismatch_spec o f : explainMismatch o f = ""%string ↔ matches o (without_class f) = true.
Proof.
  unfold explainMismatch, matches, without_class. cbn -[String.append].
  change (matchesNamePattern o _) with (matchesNamePattern o f).
  change (matchesMagnitude o _) with (matchesMagnitude o f).
  change (matchesSize o _) with (matchesSize o f).
  change (matchesCoordinates o _) with (matchesCoordinates o f).
  destruct (_ && _); [done|]. destruct (differs _ _); [done|].
  destruct (matchesMagnitude o f); cbn -[String.append]; [|done].
  by destruct (matchesCoordinates o f).
Qed.

(** ** Order *)

Lemma compare_string_sign a b : Z.ltb 0 (compare_string a b) = Z.ltb (compare_string b a) 0.
Proof.
  unfold compare_string. destruct (str_ltb a b) eqn:Hab.
  - by rewrite (str_ltb_antisym _ _ Hab).
  - by destruct (str_ltb b a).
Qed.

Lemma compare_float_sign a b : float_order F → Z.ltb 0 (compare_float a b) = Z.ltb (compare_float b a) 0.
Proof.
  intros Ho. unfold compare_float. rewrite !(fo_lt Ho).
  destruct (fo_total Ho a b) as [-> | ->]; cbn; by destruct (f_leb _ _).
Qed.

Lemma compare_string_weak : strict_weak (λ a b, Z.ltb (compare_string a b) 0).
Proof.
  assert (∀ a b, Z.ltb (compare_string a b) 0 = str_ltb a b) as E.
  { intros a b. unfold compare_string. destruct (str_ltb a b); [done|]. by destruct (str_ltb b a). }
  split; intros *; rewrite ?E.
  - by rewrite str_ltb_irrefl.
  - apply str_ltb_trans.
  - intros Hba Hcb. destruct (str_ltb c a) eqn:Hca; [|done].
    destruct (str_ltb a b) eqn:Hab; [by rewrite (str_ltb_trans _ _ _ Hca Hab) in Hcb|].
    by rewrite (str_ltb_total _ _ Hab Hba), Hcb in Hca.
Qed.

Lemma compare_float_weak : float_order F → strict_weak (λ a b : F, Z.ltb (compare_float a b) 0).
Proof.
  intros Ho. assert (∀ a b : F, Z.ltb (compare_float a b) 0 = negb (f_leb b a)) as E.
  { intros a b. unfold compare_float. rewrite !(fo_lt Ho). destruct (f_leb b a); [|done]. by destruct (f_leb a b). }
  split; intros *; rewrite ?E, ?negb_true_iff, ?negb_false_iff.
  - by destruct (fo_total Ho a a).
  - intros Hba Hcb. destruct (f_leb c a) eqn:Hca; [|done].
    destruct (fo_total Ho a b) as [Hab|]; [|congruence]. by rewrite (fo_trans Ho _ _ _ Hca Hab) in Hcb.
  - intros. by eapply (fo_trans Ho).
Qed.

Lemma strict_weak_on {A B} (key : A → B) (lt : B → B → bool) :
  strict_weak lt → strict_weak (λ a b, lt (key a) (key b)).
Proof. intros [H1 H2 H3]. split; intros *; eauto. Qed.

Lemma strict_weak_flip {A} (lt : A → A → bool) : strict_weak lt → strict_weak (λ a b, lt b a).
Proof. intros [H1 H2 H3]. split; intros *; eauto. Qed.

Lemma compare_by_weak key : float_order F → strict_weak (λ a b : obj, Z.ltb (compare_by key a b) 0).
Proof.
  intros Ho. pose proof (λ key : obj → string, strict_weak_on key _ compare_string_weak) as Hs.
  pose proof (λ key : obj → F, strict_weak_on key _ (compare_float_weak Ho)) as Hf. unfold compare_by.
  destruct (String.eqb key _); [apply Hs|]. destruct (String.eqb key _); [apply Hf|].
  destruct (String.eqb key _); [apply Hf|]. destruct (String.eqb key _); [apply Hf|apply Hs].
Qed.

(** An object passes exactly when it meets every constraint that is given. *)
Record passes (o : obj) (f : filt) : Prop := {
  ps_name : namePattern f ≠ ""%string → matchesNamePattern o f = true;
  ps_type : filter_type f ≠ ""%string → type o = filter_type f;
  ps_morphology : filter_morphology _ f ≠ ""%string → morphology _ o = filter_morphology _ f;
  ps_constellation : filter_constellation _ f ≠ ""%string → constellationEn _ o = filter_constellation _ f;
  ps_magnitude : f_leb (minMagnitude f) (visualMagnitudeV o) = true ∧ f_leb (visualMagnitudeV o) (maxMagnitude f) = true;
  ps_ra : f_leb (minRA f) (radJ2000 o) = true ∧ f_leb (radJ2000 o) (maxRA f) = true;
  ps_dec : f_leb (minDec f) (decDJ2000 o) = true ∧ f_leb (decDJ2000 o) (maxDec f) = true
}.

Lemma differs_false w a : differs w a = false ↔ (w ≠ ""%string → a = w).
Proof.
  unfold differs. destruct w as [|c w]; cbn; [by split|].
  destruct (String.eqb_spec a (String c w)) as [->|Hne]; cbn; [by split|]. split; [done|]. intros Hw. by destruct Hne, Hw.
Qed.

Lemma matches_passes o f : matches o f = true ↔ passes o f.
Proof.
  unfold matches. split.
  - destruct (negb (str_empty (namePattern f)) && negb (matchesNamePattern o f)) eqn:En; [done|].
    destruct (differs (filter_type f) _) eqn:Et; [done|]. destruct (differs (filter_morphology _ f) _) eqn:Em; [done|].
    destruct (differs (filter_constellation _ f) _) eqn:Ec; [done|].
    destruct (matchesMagnitude o f) eqn:Eg; [|done]. cbn. destruct (matchesCoordinates o f) eqn:Eo; [|done]. intros _.
    unfold matchesMagnitude in Eg. unfold matchesCoordinates in Eo.
    rewrite !andb_true_iff in Eg. rewrite !andb_true_iff in Eo.
    destruct Eo as (((? & ?) & ?) & ?). rewrite differs_false in Et, Em, Ec. split; try done.
    intros Hn. destruct (namePattern f); [done|]. cbn in En. by destruct (matchesNamePattern o f).
  - intros [Hn Ht Hm Hc [Hg1 Hg2] [Hr1 Hr2] [Hd1 Hd2]].
    rewrite <- differs_false in Ht. rewrite <- differs_false in Hm. rewrite <- differs_false in Hc.
    rewrite Ht, Hm, Hc. unfold matchesMagnitude, matchesCoordinates.
    rewrite Hg1, Hg2, Hr1, Hr2, Hd1, Hd2. cbn. destruct (namePattern f) eqn:E; cbn; [done|]. by rewrite Hn.
Qed.

(** Filtering keeps, in order, exactly the objects that meet every
    constraint given; sorting, on numbers without NaN, returns them in the order of
    the key, forwards or backwards; and a page, where the ints do not overflow,
    is the results from the offset on, up to the limit.  The explanation is empty
    exactly when the object passes the filter without its morphology and
    constellation. *)
Theorem filter_pipeline_correct (results : list obj) (f : filt) :
  float_order F →
  (filterResults results f = filter (λ o, matches o f = true) results
   ∧ ∀ o, matches o f = true ↔ passes o f)
  ∧ (sortResults results f ≡ₚ results ∧ StronglySorted (λ a b, before f b a = false) (sortResults results f))
  ∧ (∀ off lim, (off + lim ≤ INT_MAX)%Z →
       paginate results off lim =
         Some (if bool_decide (0 ≤ off ∧ 0 < lim)%Z then take (Z.to_nat lim) (drop (Z.to_nat off) results) else []))
  ∧ ∀ o, explainMismatch o f = ""%string ↔ passes o (without_class f).
Proof.
  intros Ho. split; [split; [apply filterResults_eq|intros; apply matches_passes]|]. split; [|split].
  - split; [apply std_sort_perm|]. apply std_sort_sorted. unfold before. destruct (ascending F f).
    + by apply compare_by_weak.
    + assert (strict_weak (λ a b : obj, Z.ltb 0 (compare_by (orderBy F f) a b))) as Hw; [|exact Hw].
      assert (∀ a b : obj, Z.ltb 0 (compare_by (orderBy F f) a b) = Z.ltb (compare_by (orderBy F f) b a) 0) as E.
      { intros a b. unfold compare_by. repeat destruct (String.eqb (orderBy F f) _);
          auto using compare_string_sign, compare_float_sign. }
      pose proof (strict_weak_flip _ (compare_by_weak (orderBy F f) Ho)) as [H1 H2 H3].
      split; intros *; rewrite ?E; eauto.
  - intros off lim Hov. unfold paginate.
    destruct (Z.ltb_spec off 0), (Z.leb_spec lim 0); cbn; try (by rewrite bool_decide_eq_false_2 by lia).
    rewrite bool_decide_eq_true_2 by lia.
    destruct (Z.leb_spec (Z.of_nat (length results)) off); [by rewrite drop_ge, take_nil by lia|].
    rewrite (proj2 (Z.ltb_ge _ _)) by lia. f_equal.
    destruct (Z.min_spec (Z.of_nat (length results)) (off + lim)) as [[? ->]|[? ->]].
    + rewrite !take_ge by (rewrite length_drop; lia). done.
    + f_equal. lia.
  - intros o. by rewrite explainMismatch_spec, matches_passes.
Qed.
End evaluator.

(** ** Examples *)

#[local] Existing Instance floats_Z.
#[local] Existing Instance insertion_sort.

(** The matcher does not go back: the first character that fits is taken for
    good, and after a star an underscore stands for itself. *)
Example like_no_backtracking :
  likeMatch "NGC 1001" "%01" = false ∧ like (chars "%01") (chars "NGC 1001")
  ∧ likeMatch "ab" "%_" = false ∧ like (chars "%_") (chars "ab").
Proof.
  split_and!; [reflexivity| |reflexivity|]; cbn.
  - apply (like_skip _ (chars "NGC 10")), like_stop. repeat (apply like_char; [done..|]). constructor.
  - apply (like_skip _ (chars "a")), like_stop, like_one. constructor.
Qed.

Definition demo_filter (morphology : string) : CelestialSearchFilter Z :=
  mkFilter "M%" "" morphology "" (-30)%Z 30%Z 0%Z 360%Z (-90)%Z 90%Z 100 0 "identifier" false.

(** An object that fails only by its morphology gets no explanation. *)
Example unexplained_mismatch :
  matches (object_named 1 "M31" "Galaxy") (demo_filter "Sb") = false
  ∧ explainMismatch pretty (object_named 1 "M31" "Galaxy") (demo_filter "Sb") = ""%string.
Proof. vm_compute. done. Qed.

(** A page past the range of int overflows. *)
Example page_overflows : paginate [object_named 1 "M31" "Galaxy"; object_named 2 "M33" "Galaxy"] 1 INT_MAX = None.
Proof. vm_compute. reflexivity. Qed.

Lemma filter_pipeline_correct_witness :
  paginate [object_named 1 "M31" "Galaxy"; object_named 2 "M33" "Galaxy"] 1 5 = Some [object_named 2 "M33" "Galaxy"].
Proof.
  destruct (filter_pipeline_correct pretty [object_named 1 "M31" "Galaxy"; object_named 2 "M33" "Galaxy"] (demo_filter "")) as (_ & _ & Hp & _).
  - split; cbn; intros *; [by rewrite Z.leb_antisym, negb_involutive|rewrite !Z.leb_le; lia|rewrite !Z.leb_le; lia].
  - rewrite (Hp 1%Z 5%Z) by (vm_compute; discriminate). reflexivity.
Defined.
