(* ===== verification/SearchEngine.v ===== *)
(** * SearchEngine: searching the catalog through the indexes

    Models class SearchEngine of src/src/target/search/search_engine.hpp and
    search_engine.cpp on top of the trie, the spatial index and the fuzzy matcher,
    and class CoordinateSearcher of coordinate_searcher.hpp and
    coordinate_searcher.cpp on top of the spatial index.  The catalog, class
    CelestialRepository, is an interface with the two queries the engine makes.
    The shared mutex is modelled where it is locked twice: [rebuildIndexes] calls
    [initialize].  Left out: the text of the statistics, moves and logging; the
    queries of the catalog do not throw (they catch). *)

From S2P Require Import Prelude Repository Trie Fuzzy SpatialIndex.

(** What the engine asks of the catalog. *)
Class Catalog (F R : Type) := {
  cat_search : CelestialSearchFilter F → R → list (CelestialObjectModel F);
  cat_find : string → R → option (CelestialObjectModel F)
}.

(** What it relies on: a search keeps to the limit of its filter. *)
Class CatalogLaws (F R : Type) `{Catalog F R} := {
  cat_limit f r : (0 ≤ limit f)%Z → length (cat_search f r) ≤ Z.to_nat (limit f)
}.

(** The null pointer is [None]. *)
Record SearchEngine (F R : Type) := mkEngine {
  repository_ : option R;
  trieIndex_ : option TrieNode;
  spatialIndex_ : option (SpatialIndex F);
  fuzzyMatcher_ : option FuzzyMatcher;
  isInitialized_ : bool;
  objectCount_ : nat
}.
Arguments mkEngine {F R}.
Arguments repository_ {F R}.
Arguments trieIndex_ {F R}.
Arguments spatialIndex_ {F R}.
Arguments fuzzyMatcher_ {F R}.
Arguments isInitialized_ {F R}.
Arguments objectCount_ {F R}.

#[export] Instance SearchEngine_eta F R : Eta (SearchEngine F R) := λ e,
  mkEngine (repository_ e) (trieIndex_ e) (spatialIndex_ e) (fuzzyMatcher_ e) (isInitialized_ e) (objectCount_ e).

Record SearchOptions := mkOptions { useFuzzy : bool; fuzzyTolerance : Z; maxResults : Z }.

(** A call returns, locks a mutex its thread holds, or runs out of fuel. *)
Inductive outcome (A : Type) := Done (a : A) | SelfLock | OutOfFuel.
Arguments Done {A}.
Arguments SelfLock {A}.
Arguments OutOfFuel {A}.

(** The exceptions of a search. *)
Inductive search_exn := LengthError | Other (e : exn).

Section engine.
Context {F R : Type} `{FO : Floats F, CR : !Catalog F R, sorter : StdSort, HC : !HashIter char, HN : !HashIter nat}.
Variable f_max : F.

Abbreviation obj := (CelestialObjectModel F).
Abbreviation engine := (SearchEngine F R).

Definition SearchEngine_new (repository : option R) (trie : option TrieNode) (spatial : option (SpatialIndex F))
    (fuzzy : option FuzzyMatcher) : engine :=
  mkEngine repository trie spatial fuzzy false 0.

(** [CelestialSearchFilter()]. *)
Definition default_filter : CelestialSearchFilter F :=
  mkFilter "" "" "" "" (f_of_Z (-30)) (f_of_Z 30) (f_of_Z 0) (f_of_Z 360) (f_of_Z (-90)) (f_of_Z 90) 100 0
    "identifier" true.

(** The names of one object that go into the trie. *)
Definition names_of (o : obj) : list string :=
  (if str_empty (identifier o) then [] else [identifier o]) ++
  (if str_empty (mIdentifier _ o) then [] else [mIdentifier _ o]) ++
  (if str_empty (chineseName o) then [] else [chineseName o]).

(** The terms of one object that go into the fuzzy matcher. *)
Definition terms_of (o : obj) : list (string * string) :=
  (identifier o, identifier o) :: (if str_empty (mIdentifier _ o) then [] else [(mIdentifier _ o, identifier o)]).

(** The loop of [initialize]. *)
Fixpoint index_objects (objects : list obj) (names : list string) (spatial : SpatialIndex F) (fuzzy : FuzzyMatcher)
    : outcome (list string * SpatialIndex F * FuzzyMatcher) :=
  match objects with
  | [] => Done (names, spatial, fuzzy)
  | o :: rest =>
      match SpatialIndex.insert f_max (identifier o) (radJ2000 o) (decDJ2000 o) spatial with
      | None => SelfLock
      | Some spatial =>
          match addTerms (terms_of o) fuzzy with
          | None => OutOfFuel
          | Some fuzzy => index_objects rest (names ++ names_of o) spatial fuzzy
          end
      end
  end.

Definition default_spatial : SpatialIndex F := mkSpatial 50 20 empty_root ∅.

(** [held] is whether the calling thread holds the mutex already; locking it again
    is undefined behaviour. *)
Definition initialize (held : bool) (e : engine) : outcome (engine * result string unit) :=
  if held then SelfLock else
  if isInitialized_ e then Done (e, Ok tt) else
  match repository_ e with
  | None => Done (e, Throw "Repository not available"%string)
  | Some r =>
      let trie := default TrieNode_new (trieIndex_ e) in
      let objects := cat_search default_filter r in
      match index_objects objects [] (default default_spatial (spatialIndex_ e))
              (default FuzzyMatcher_new (fuzzyMatcher_ e)) with
      | SelfLock => SelfLock
      | OutOfFuel => OutOfFuel
      | Done (names, spatial, fuzzy) =>
          let trie := match names with [] => trie | _ => Trie.insertBatch (chars <$> names) trie end in
          Done (mkEngine (Some r) (Some trie) (Some spatial) (Some fuzzy) true (length objects), Ok tt)
      end
  end.

Definition exactSearchImpl (query : string) (e : engine) : list obj :=
  match repository_ e with
  | None => []
  | Some r => match cat_find query r with Some o => [o] | None => [] end
  end.

(** Looking up what an index found. *)
Definition look_up {A} (r : R) (hits : list (string * A)) : list obj := omap (λ hit, cat_find hit.1 r) hits.

Definition fuzzySearchImpl (query : string) (tolerance : Z) (e : engine) : option (result search_exn (list obj)) :=
  match fuzzyMatcher_ e, repository_ e with
  | Some m, Some r =>
      match fuzzy_match m query tolerance 50 with
      | Some (Ok hits) => Some (Ok (look_up r hits))
      | Some (Throw x) => Some (Throw (Other x))
      | None => None
      end
  | _, _ => Some (Ok [])
  end.

(** [if (size > n) results.resize(n)], which throws for a negative [n]. *)
Definition cut_to (n : Z) (results : list obj) : result search_exn (list obj) :=
  if (n <? Z.of_nat (length results))%Z then
    if (n <? 0)%Z then Throw LengthError else Ok (take (Z.to_nat n) results)
  else Ok results.

Definition search (query : string) (options : SearchOptions) (e : engine) : option (result search_exn (list obj)) :=
  if negb (isInitialized_ e) then Some (Ok []) else
  let results := exactSearchImpl query e in
  let r := match results with
           | [] => if useFuzzy options && (0 <? fuzzyTolerance options)%Z
                   then fuzzySearchImpl query (fuzzyTolerance options) e else Some (Ok [])
           | _ => Some (Ok results)
           end in
  match r with
  | Some (Ok results) => Some (cut_to (maxResults options) results)
  | r => r
  end.

Definition exactSearch (query : string) (lim : Z) (e : engine) : result search_exn (list obj) :=
  cut_to lim (exactSearchImpl query e).
Definition fuzzySearch (query : string) (tolerance lim : Z) (e : engine) : option (result search_exn (list obj)) :=
  match fuzzySearchImpl query tolerance e with
  | Some (Ok results) => Some (cut_to lim results)
  | r => r
  end.
Definition searchByCoordinates (ra dec radius : F) (lim : Z) (e : engine) : list obj :=
  match spatialIndex_ e, repository_ e with
  | Some x, Some r => look_up r (searchRadius ra dec radius (Z.to_nat (to_size lim)) x)
  | _, _ => []
  end.
Definition autocomplete (prefix : string) (lim : Z) (e : engine) : option (list word) :=
  match trieIndex_ e with
  | None => Some []
  | Some t => Trie.autocomplete t (chars prefix) (Z.to_nat (to_size lim))
  end.
Definition advancedSearch (f : CelestialSearchFilter F) (e : engine) : list obj :=
  match repository_ e with None => [] | Some r => cat_search f r end.

Definition clearIndexes (e : engine) : engine :=
  e <| trieIndex_ ::= fmap (λ _, TrieNode_new) |> <| spatialIndex_ ::= fmap SpatialIndex.clear |>
    <| fuzzyMatcher_ ::= fmap Fuzzy.clear |> <| isInitialized_ := false |> <| objectCount_ := 0%nat |>.

Definition rebuildIndexes (e : engine) : outcome (engine * result string unit) :=
  initialize true (clearIndexes e).

(** * Properties *)

Lemma insert_new id ra dec (x : SpatialIndex F) :
  index_ok x → objectMap_ x !! id = None →
  ∃ x', SpatialIndex.insert f_max id ra dec x = Some x' ∧ index_ok x' ∧ maxEntries_ x' = maxEntries_ x
    ∧ objectMap_ x' = <[id := (ra, dec)]> (objectMap_ x).
Proof.
  intros Hx Hid. pose proof (run_op_view f_max x (SInsert id ra dec) Hx) as Hv. cbn [run_spatial_op] in Hv.
  unfold SpatialIndex.insert in *. rewrite Hid in *. eexists. split; [reflexivity|].
  destruct Hv as (H1 & H2 & _). done.
Qed.

Lemma run_terms ts m :
  matcher_ok m → ∃ m', addTerms ts m = Some m' ∧ matcher_ok m' ∧ termMap m' = fold_left spec_add ts (termMap m).
Proof. intros Hm. apply (run_matcher_op_ok m (OpAddTerms ts) Hm). Qed.

Lemma index_objects_spec objects names x m :
  index_ok x → matcher_ok m → NoDup (map identifier objects) →
  (∀ o, o ∈ objects → objectMap_ x !! identifier o = None) →
  ∃ x' m', index_objects objects names x m = Done (names ++ concat (map names_of objects), x', m')
    ∧ index_ok x' ∧ maxEntries_ x' = maxEntries_ x ∧ matcher_ok m'
    ∧ termMap m' = fold_left spec_add (concat (map terms_of objects)) (termMap m)
    ∧ ∀ id, is_Some (objectMap_ x' !! id) ↔ is_Some (objectMap_ x !! id) ∨ id ∈ map identifier objects.
Proof.
  revert names x m. induction objects as [|o objects IH]; intros names x m Hx Hm Hnd Hnew.
  { exists x, m. cbn. rewrite app_nil_r. split_and!; try done. set_solver. }
  cbn [map] in Hnd. apply NoDup_cons in Hnd as [Ho Hnd].
  destruct (insert_new (identifier o) (radJ2000 o) (decDJ2000 o) x Hx) as (x1 & E1 & Hx1 & Hmax & Hmap).
  { apply Hnew. by left. }
  destruct (run_terms (terms_of o) m Hm) as (m1 & E2 & Hm1 & Ht).
  destruct (IH (names ++ names_of o) x1 m1 Hx1 Hm1 Hnd) as (x2 & m2 & E3 & H1 & H2 & H3 & H4 & H5).
  { intros o' Ho'. rewrite Hmap, lookup_insert_ne; [apply Hnew; by right|].
    intros Heq. apply Ho. rewrite Heq. apply list_elem_of_In, in_map, list_elem_of_In, Ho'. }
  exists x2, m2. cbn [index_objects]. rewrite E1, E2, E3. cbn [map concat].
  split; [by rewrite app_assoc|]. split_and!; try done.
  - congruence.
  - rewrite H4, Ht. by rewrite fold_left_app.
  - intros id. rewrite H5, Hmap, lookup_insert_is_Some. cbn. rewrite elem_of_cons.
    destruct (decide (identifier o = id)); naive_solver.
Qed.

(** The engine after it loaded the objects [os] of the catalog [r]. *)
Record loaded (r : R) (os : list obj) (e : engine) : Prop := {
  ld_repository : repository_ e = Some r;
  ld_ready : isInitialized_ e = true;
  ld_count : objectCount_ e = length os;
  ld_trie : ∃ t, trieIndex_ e = Some t ∧ ∀ w, has_word t w ↔ w ∈ chars <$> concat (map names_of os);
  ld_fuzzy : ∃ m, fuzzyMatcher_ e = Some m ∧ matcher_ok m ∧ termMap m = fold_left spec_add (concat (map terms_of os)) ∅;
  ld_spatial : ∃ x, spatialIndex_ e = Some x ∧ index_ok x ∧ maxEntries_ x = 50
    ∧ ∀ id, is_Some (objectMap_ x !! id) ↔ id ∈ map identifier os
}.

Lemma initialize_loads r :
  NoDup (map identifier (cat_search default_filter r)) →
  ∃ e, initialize false (SearchEngine_new (Some r) None None None) = Done (e, Ok tt)
    ∧ loaded r (cat_search default_filter r) e.
Proof.
  intros Hnd. unfold initialize.
  cbn [isInitialized_ SearchEngine_new repository_ trieIndex_ spatialIndex_ fuzzyMatcher_ default from_option].
  destruct (index_objects_spec (cat_search default_filter r) [] default_spatial FuzzyMatcher_new)
    as (x & m & E & H1 & H2 & H3 & H4 & H5); [split; [cbn; lia|apply empty_ok]|done|done|done|].
  change (Datatypes.id default_spatial) with default_spatial in *. rewrite E.
  eexists. split; [reflexivity|]. cbn [app] in *.
  split; [done|done|done|exists (match concat (map names_of (cat_search default_filter r)) with [] => TrieNode_new
      | _ => Trie.insertBatch (chars <$> concat (map names_of (cat_search default_filter r))) TrieNode_new end)|by exists m|].
  - split; [done|]. intros w. destruct (concat _) as [|n ns] eqn:En.
    + cbn. split; [by intros ?%has_word_new|by intros ?%not_elem_of_nil].
    + rewrite has_word_batch. split; [intros [?|?%has_word_new]; done|by left].
  - exists x. split; [done|]. split; [done|]. split; [done|]. intros id. rewrite H5. cbn. rewrite lookup_empty.
    split; [intros [[]|?]; done|by right].
Qed.

(** The terms within the tolerance, as identifiers with distances. *)
Definition near (terms : gmap string string) (query : string) (tolerance : Z) : list (string * nat) :=
  (λ '(term, oid), (oid, Fuzzy.levenshteinDistance (normalize query) term)) <$>
    filter (λ kv, Z.of_nat (Fuzzy.levenshteinDistance (normalize query) kv.1) ≤ tolerance)%Z (map_to_list terms).

Lemma fuzzySearch_spec r os e query tolerance :
  loaded r os e →
  ∃ met hits, fuzzySearchImpl query tolerance e = Some (Ok (look_up r hits))
    ∧ met ≡ₚ near (fold_left spec_add (concat (map terms_of os)) ∅) query tolerance
    ∧ hits ≡ₚ take 50 met ∧ StronglySorted (λ a b, a.2 ≤ b.2) hits.
Proof.
  intros [Hr _ _ _ (m & Hm & Hok & Ht) _]. unfold fuzzySearchImpl. rewrite Hm, Hr.
  destruct (fuzzy_match_spec m query tolerance 50 Hok) as (met & hits & -> & Hmet & Hhits & Hs).
  exists met, hits. rewrite <- Ht. split_and!; [done|exact Hmet|exact Hhits|exact Hs].
Qed.

(** [C31] A new engine on a catalog whose identifiers are distinct loads what one
    search with the default filter returns, at most 100 objects.  Then a query is
    answered by the catalog; if it has no such object, by the objects for 50 of
    the terms within the tolerance, whichever the tree meets first, these in
    order of distance; the answer is cut to the maximum, which is not negative.
    A completion gives the names of those objects that begin with the prefix. *)
Theorem search_engine_correct (r : R) `{!CatalogLaws F R} :
  let os := cat_search default_filter r in
  NoDup (map identifier os) →
  ∃ e, initialize false (SearchEngine_new (Some r) None None None) = Done (e, Ok tt)
  ∧ objectCount_ e = length os ∧ length os ≤ 100
  ∧ (∀ query options, (0 ≤ maxResults options)%Z →
      ∃ met hits,
        met ≡ₚ near (fold_left spec_add (concat (map terms_of os)) ∅) query (fuzzyTolerance options)
        ∧ hits ≡ₚ take 50 met ∧ StronglySorted (λ a b, a.2 ≤ b.2) hits
        ∧ search query options e = Some (Ok (take (Z.to_nat (maxResults options))
            match cat_find query r with
            | Some o => [o]
            | None => if useFuzzy options && (0 <? fuzzyTolerance options)%Z then look_up r hits else []
            end)))
  ∧ ∀ prefix lim, ∃ found, autocomplete prefix lim e = Some (take (Z.to_nat (to_size lim)) found)
      ∧ NoDup found
      ∧ ∀ w, w ∈ found ↔ w ∈ chars <$> concat (map names_of os) ∧ chars prefix `prefix_of` w.
Proof.
  intros os Hnd. destruct (initialize_loads r Hnd) as (e & He & Hl). fold os in Hl.
  exists e. split; [done|]. split; [apply Hl|].
  split; [apply (cat_limit default_filter r); cbn; lia|]. split.
  - intros query options Hmax.
    destruct (fuzzySearch_spec r os e query (fuzzyTolerance options) Hl) as (met & hits & Hf & Hmet & Hhits & Hs).
    exists met, hits. split; [done|]. split; [done|]. split; [done|].
    unfold search, exactSearchImpl. rewrite (ld_ready _ _ _ Hl), (ld_repository _ _ _ Hl). cbn [negb].
    assert (∀ l, cut_to (maxResults options) l = Ok (take (Z.to_nat (maxResults options)) l)) as Hcut.
    { intros l. unfold cut_to. destruct (Z.ltb_spec (maxResults options) (Z.of_nat (length l))).
      - by rewrite (proj2 (Z.ltb_ge _ _) Hmax).
      - by rewrite take_ge by lia. }
    destruct (cat_find query r) as [o|]; [by rewrite Hcut|].
    destruct (_ && _); [by rewrite Hf, Hcut|by rewrite Hcut].
  - intros prefix lim. destruct (ld_trie _ _ _ Hl) as (t & Ht & Hw). unfold autocomplete. rewrite Ht.
    destruct (autocomplete_words t (chars prefix) (Z.to_nat (to_size lim))) as (found & -> & Hnd' & Hx).
    exists found. split; [done|]. split; [done|]. intros w. by rewrite Hx, Hw.
Qed.

(** [rebuildIndexes] holds the mutex while [initialize] locks it. *)
Lemma rebuildIndexes_locks (e : engine) : rebuildIndexes e = SelfLock.
Proof. done. Qed.

(** However many objects were loaded, a search by coordinates sees at most 50. *)
Theorem coordinates_capacity (r : R) ra dec radius lim :
  NoDup (map identifier (cat_search default_filter r)) →
  ∃ e, initialize false (SearchEngine_new (Some r) None None None) = Done (e, Ok tt)
    ∧ length (searchByCoordinates ra dec radius lim e) ≤ 50.
Proof.
  intros Hnd. destruct (initialize_loads r Hnd) as (e & He & [Hr _ _ _ _ (x & Hx & Hok & Hmax & _)]).
  exists e. split; [done|]. unfold searchByCoordinates, look_up. rewrite Hx, Hr.
  etrans; [apply length_omap_le|]. rewrite (searchRadius_spec x ra dec radius _ Hok).
  destruct (f_ltb _ _); [cbn; lia|]. rewrite length_take. etrans; [apply Nat.le_min_r|].
  etrans; [apply length_omap_le|]. destruct Hok as [_ [_ Hs]]. by rewrite Hmax in Hs.
Qed.
End engine.

(** ** The searcher by coordinates alone *)

Section coordinates.
Context {F : Type} `{FO : Floats F, sorter : StdSort}.
Variables (f_fmod : F → F → F) (f_atan2 : F → F → F).       (* std::fmod and std::atan2 *)

Definition isValidCoordinate (ra dec : F) : bool :=
  f_leb (f_of_Z 0) ra && f_ltb ra (f_of_Z 360) && f_leb (f_of_Z (-90)) dec && f_leb dec (f_of_Z 90).

(** An object that has an identifier only. *)
Definition bare (id : string) : CelestialObjectModel F := object_named 0 id "".

Definition coord_searchRadius (spatial : option (SpatialIndex F)) (ra dec radius : F) (lim : Z)
    : list (CelestialObjectModel F) :=
  match spatial with
  | None => []
  | Some x =>
      if negb (isValidCoordinate ra dec) then [] else
      if f_ltb radius (f_of_Z 0) || f_ltb (f_of_Z 180) radius then [] else
      (λ hit, bare hit.1) <$> searchRadius ra dec radius (Z.to_nat (to_size lim)) x
  end.

(** [std::clamp]. *)
Definition f_clamp (v lo hi : F) : F := if f_ltb v lo then lo else if f_ltb hi v then hi else v.

Definition coord_searchBox (spatial : option (SpatialIndex F)) (centerRa centerDec raWidth decHeight : F) (lim : Z)
    : list (CelestialObjectModel F) :=
  match spatial with
  | None => []
  | Some x =>
      if negb (isValidCoordinate centerRa centerDec) then [] else
      if f_leb raWidth (f_of_Z 0) || f_leb decHeight (f_of_Z 0) then [] else
      let half v := f_div v (f_of_Z 2) in
      let minRa := f_fmod (f_add (f_sub centerRa (half raWidth)) (f_of_Z 360)) (f_of_Z 360) in
      let maxRa := f_fmod (f_add (f_add centerRa (half raWidth)) (f_of_Z 360)) (f_of_Z 360) in
      let minDec := f_clamp (f_sub centerDec (half decHeight)) (f_of_Z (-90)) (f_of_Z 90) in
      let maxDec := f_clamp (f_add centerDec (half decHeight)) (f_of_Z (-90)) (f_of_Z 90) in
      bare <$> searchBox minRa maxRa minDec maxDec (Z.to_nat (to_size lim)) x
  end.

Definition getObjectCount (spatial : option (SpatialIndex F)) : nat :=
  match spatial with None => 0 | Some x => size_of x end.

(** [std::abs]. *)
Definition f_abs (v : F) : F := if f_ltb v (f_of_Z 0) then f_sub (f_of_Z 0) v else v.

Definition isVisible (ra dec observerLatitude minAltitude : F) : bool :=
  let minVisibleDec := f_sub observerLatitude (f_of_Z 90) in
  let maxVisibleDec := f_add observerLatitude (f_of_Z 90) in
  if negb (f_leb minVisibleDec dec && f_leb dec maxVisibleDec) then false else
  f_leb minAltitude (f_sub (f_of_Z 90) (f_abs (f_sub observerLatitude dec))).

Definition angularDistance (ra1 dec1 ra2 dec2 : F) : F :=
  let rad v := f_div (f_mul v f_pi) (f_of_Z 180) in
  let dRa := f_sub (rad ra2) (rad ra1) in
  let dDec := f_sub (rad dec2) (rad dec1) in
  let half_sin v := f_sin (f_div v (f_of_Z 2)) in
  let a := f_add (f_mul (half_sin dDec) (half_sin dDec))
             (f_mul (f_mul (f_mul (f_cos (rad dec1)) (f_cos (rad dec2))) (half_sin dRa)) (half_sin dRa)) in
  let c := f_mul (f_of_Z 2) (f_atan2 (f_sqrt a) (f_sqrt (f_sub (f_of_Z 1) a))) in
  f_mul (f_div (f_of_Z 180) f_pi) c.
End coordinates.

(** ** Examples *)

#[local] Existing Instance canonical_iter.
#[local] Existing Instance insertion_sort.
#[local] Existing Instance degrees.

(** A catalog that is a list. *)
#[local] Instance demo_catalog : Catalog Z (list (CelestialObjectModel Z)) := {|
  cat_search f os := take (Z.to_nat (limit f)) os;
  cat_find n os := List.find (λ o, String.eqb (identifier o) n) os
|}.
#[local] Instance demo_laws : CatalogLaws Z (list (CelestialObjectModel Z)).
Proof. split. intros f os _. cbn. rewrite length_take. lia. Qed.

Definition messier : list (CelestialObjectModel Z) :=
  [object_named 1 "M31" "Galaxy"; object_named 2 "M33" "Galaxy"; object_named 3 "NGC 7000" "Nebula"].

Definition demo_engine (os : list (CelestialObjectModel Z)) : SearchEngine Z (list (CelestialObjectModel Z)) :=
  match initialize (10 ^ 9)%Z false (SearchEngine_new (Some os) None None None) with
  | Done (e, _) => e | _ => SearchEngine_new None None None None
  end.

Definition names (r : option (result search_exn (list (CelestialObjectModel Z)))) : option (list string) :=
  match r with Some (Ok os) => Some (map identifier os) | _ => None end.

Example demo_search :
  names (search "M33" (mkOptions true 2 100) (demo_engine messier)) = Some ["M33"]%string
  ∧ names (search "m3" (mkOptions true 1 100) (demo_engine messier)) = Some ["M33"; "M31"]%string
  ∧ names (search "m3" (mkOptions false 1 100) (demo_engine messier)) = Some [].
Proof. vm_compute. done. Qed.

(** A negative maximum throws, as soon as there is a result. *)
Example negative_limit_throws : search "M33" (mkOptions true 2 (-1)) (demo_engine messier) = Some (Throw LengthError).
Proof. vm_compute. reflexivity. Qed.

(** Of a catalog of 101 objects the last is not loaded. *)
Example loads_a_hundred :
  let os := (λ i, object_named (Z.of_nat i) (pretty (Z.of_nat i)) "Star") <$> seq 0 101 in
  objectCount_ (demo_engine os) = 100
  ∧ autocomplete "100" 10 (demo_engine os) = Some [] ∧ autocomplete "99" 10 (demo_engine os) = Some [chars "99"].
Proof. vm_compute. done. Qed.

(** A box across the origin of right ascension contains nothing. *)
Example box_across_origin :
  let x := SpatialIndex.insertBatch (10 ^ 9)%Z [("a"%string, (358, 0)%Z); ("b"%string, (1, 0)%Z)] default_spatial in
  coord_searchBox Z.rem (Some x) 359%Z 0%Z 6%Z 2%Z 10 = []
  ∧ map identifier (coord_searchBox Z.rem (Some x) 357%Z 0%Z 4%Z 2%Z 10) = ["a"]%string.
Proof. vm_compute. done. Qed.

Lemma search_engine_correct_witness :
  ∃ e, initialize (10 ^ 9)%Z false (SearchEngine_new (Some messier) None None None) = Done (e, Ok tt)
    ∧ objectCount_ e = 3.
Proof.
  destruct (search_engine_correct (10 ^ 9)%Z messier) as (e & He & Hc & _).
  - apply (bool_decide_unpack _). vm_compute. exact I.
  - exists e. split; [exact He|exact Hc].
Defined.
