(* ===== verification/CsvHandler.v ===== *)
(** * CsvHandler: celestial objects in CSV files

    Models src/src/target/io/csv_handler.hpp and csv_handler.cpp: parsing and
    quoting by a dialect, reading and writing of records, conversion of celestial
    objects, import and export.  A file is its text; [Disk] is how a file opened
    for writing behaves.  [std::stod] and the printing of a double with six
    decimals are parameters.  Files have fewer than 2^31 lines. *)

From S2P Require Import Prelude Version Text Repository.

Local Open Scope Z_scope.

(** ** The dialect *)

Record CsvDialect := mkDialect {
  delimiter : char;
  quotechar : char;
  escapechar : char;
  doublequote : bool;
  skipinitialspace : bool;
  lineterminator : string;
  strict : bool
}.

Definition quote : char := Ascii.ascii_of_nat 34.
Definition default_dialect : CsvDialect :=
  mkDialect ","%char quote (Ascii.ascii_of_nat 92) true false (String nl "") false.

Section dialect.
Context (d : CsvDialect).

(** [field.erase(0, 1)] when asked for and there is a blank. *)
Definition trim_space (field : string) : string :=
  match field with
  | String c rest => if skipinitialspace d && is_space c then rest else field
  | EmptyString => field
  end.

Definition one (c : char) : string := String c "".

(** The loop of [parseLine] from some position: [field], [inQuotes] and
    [escapeNext] are its variables, the result the fields still to come. *)
Fixpoint parse_loop (s : string) (field : string) (inQuotes escapeNext : bool) : list string :=
  match s with
  | EmptyString => if negb (str_empty field) || negb inQuotes then [trim_space field] else []
  | String c s' =>
      if escapeNext then parse_loop s' (field +:+ one c) inQuotes false
      else if Ascii.eqb c (escapechar d) then parse_loop s' field inQuotes true
      else if Ascii.eqb c (quotechar d) then
        match s' with
        | String c2 s'' =>
            if inQuotes && Ascii.eqb c2 (quotechar d) && doublequote d
            then parse_loop s'' (field +:+ one (quotechar d)) inQuotes false
            else parse_loop s' field (negb inQuotes) false
        | EmptyString => parse_loop s' field (negb inQuotes) false
        end
      else if Ascii.eqb c (delimiter d) && negb inQuotes then
        if negb (str_empty field) || negb inQuotes
        then trim_space field :: parse_loop s' "" inQuotes false
        else parse_loop s' field inQuotes false
      else parse_loop s' (field +:+ one c) inQuotes false
  end.

Definition parseLine (line : string) : list string := parse_loop line "" false false.

(** ** Quoting *)

Definition needsQuotes (field : string) : bool :=
  str_mem (delimiter d) field || str_mem (quotechar d) field || str_mem (escapechar d) field
  || str_mem nl field || str_mem cr field.

Fixpoint escape_chars (s : string) : string :=
  match s with
  | EmptyString => EmptyString
  | String c s' =>
      (if Ascii.eqb c (quotechar d)
       then String (if doublequote d then quotechar d else escapechar d) (one (quotechar d))
       else one c) +:+ escape_chars s'
  end.

Definition escapeField (field : string) : string :=
  if needsQuotes field
  then one (quotechar d) +:+ escape_chars field +:+ one (quotechar d)
  else field.

(** ** Reading *)

Abbreviation row := (gmap string string).

(** [vector::resize], with empty strings. *)
Definition resize (n : nat) (fields : list string) : list string :=
  take n fields ++ replicate (n - length fields) "".

Definition make_record (fieldnames fields : list string) : row :=
  foldl (λ r kv, <[kv.1 := kv.2]> r) ∅ (zip fieldnames fields).

Definition mismatch (lineNum expected got : nat) : string :=
  "Field count mismatch at line " +:+ pretty lineNum +:+ ": expected " +:+ pretty expected
  +:+ ", got " +:+ pretty got.

(** The loop over the data lines; [lineNum] counts the lines read before. *)
Fixpoint read_loop (fieldnames : list string) (lines : list string) (lineNum : nat) (records : list row)
  : result string (list row) :=
  match lines with
  | [] => Ok records
  | line :: rest =>
      let lineNum := S lineNum in
      if str_empty line then read_loop fieldnames rest lineNum records
      else
        let fields := parseLine line in
        if negb (length fields =? length fieldnames)%nat && strict d
        then Throw (mismatch lineNum (length fieldnames) (length fields))
        else read_loop fieldnames rest lineNum
               (records ++ [make_record fieldnames (resize (length fieldnames) fields)])
  end.

(** The contents of the file, [None] when it cannot be opened. *)
Definition read (filename : string) (file : option string) : result string (list row) :=
  match file with
  | None => Throw ("Failed to open file: " +:+ filename)
  | Some text =>
      match getlines text with
      | [] => Throw "Empty CSV file"
      | header :: lines =>
          let fieldnames := parseLine header in
          match fieldnames with
          | [] => Throw "No field names in CSV header"
          | _ => read_loop fieldnames lines 1 []
          end
      end
  end.

(** ** Writing *)

(** The loop over the fields of a line. *)
Definition line_of (values : list string) : string := join (one (delimiter d)) (map escapeField values).
Definition write_line (values : list string) : string := line_of values +:+ lineterminator d.

Definition row_values (fields : list string) (record : row) : list string :=
  map (λ f, default "" (record !! f)) fields.

(** What becomes of a file opened for writing: it does not open, it takes some
    text and fails, or it takes everything. *)
Inductive Disk := Refuses | FailsAfter (written : string) | Works.

Definition csv_text (data : list row) (fields : list string) : string :=
  write_line fields +:+ foldr (λ r t, write_line (row_values fields r) +:+ t) "" data.

(** The contents of the file afterwards, and the answer. *)
Definition write (filename : string) (disk : Disk) (file : option string) (data : list row) (fields : list string)
  : option string * result string Z :=
  match disk with
  | Refuses => (file, Throw ("Failed to create file: " +:+ filename))
  | FailsAfter written => (Some written, Throw "Error writing to CSV file")
  | Works => (Some (csv_text data fields), Ok (Z.of_nat (length data)))
  end.
End dialect.

(** ** Numbers *)

(** [std::stoi] and [std::stoll]: white space, a sign, digits; the value and how
    much of the text was read, [None] where they throw. *)
Definition sto_integer (lo hi : Z) (s : string) : option (Z * nat) :=
  let '(blank, rest) := str_span is_space s in
  let '(sign, n, digits) :=
    match rest with
    | String c r => if Ascii.eqb c "-" then (-1, 1%nat, r)
                    else if Ascii.eqb c "+" then (1, 1%nat, r) else (1, 0%nat, rest)
    | EmptyString => (1, 0%nat, "")
    end in
  match scan_nat digits with
  | Some v =>
      if bool_decide (lo ≤ sign * v ≤ hi)%Z
      then Some ((sign * v)%Z, (String.length blank + n + String.length (str_span is_digit digits).1)%nat)
      else None
  | None => None
  end.

Definition INT64_MIN : Z := -9223372036854775808.
Definition INT64_MAX : Z := 9223372036854775807.

(** The number when it is the whole text. *)
Definition whole {A} (zero : A) (sto : string → option (A * nat)) (str : string) : A :=
  if str_empty str then zero
  else match sto str with
       | Some (val, idx) => if (idx =? String.length str)%nat then val else zero
       | None => zero
       end.

Definition stringToInt : string → Z := whole 0%Z (sto_integer INT_MIN INT_MAX).
Definition stringToInt64 : string → Z := whole 0%Z (sto_integer INT64_MIN INT64_MAX).
Definition intToString (val : Z) : string := if (val =? 0)%Z then "" else pretty val.

(** [erase(find_last_not_of(c) + 1)]. *)
Fixpoint erase_trailing (c : char) (s : string) : string :=
  match s with
  | EmptyString => EmptyString
  | String x s' =>
      match erase_trailing c s' with
      | EmptyString => if Ascii.eqb x c then EmptyString else one x
      | t => String x t
      end
  end.

(** [pop_back] when the last character is [c]. *)
Fixpoint pop_if (c : char) (s : string) : string :=
  match s with
  | EmptyString => EmptyString
  | String x EmptyString => if Ascii.eqb x c then EmptyString else s
  | String x s' => String x (pop_if c s')
  end.

(** ** Celestial objects *)

Section objects.
Context `{FO : Floats F}.
(** [std::stod] as [sto_integer], and a double printed by [std::fixed] with
    [setprecision(6)]. *)
Context (stod : string → option (F * nat)) (fixed6 : F → string).
Abbreviation obj := (CelestialObjectModel F).
Abbreviation row := (gmap string string).

Definition stringToDouble : string → F := whole f_zero stod.
Definition doubleToString (val : F) : string :=
  if f_eqb val f_zero then "" else pop_if "."%char (erase_trailing "0"%char (fixed6 val)).

Definition getField (r : row) (key : string) : string := default "" (r !! key).

Definition rowToCelestialObject (r : row) : result string obj :=
  let text := getField r in
  let real key := stringToDouble (getField r key) in
  let int key := stringToInt (getField r key) in
  if str_empty (text "identifier") then Throw "Missing required field: identifier"
  else Ok (mkObject 0%Z (text "identifier") (text "mIdentifier") (text "extensionName") (text "component")
    (text "className") (int "amateurRank") (text "chineseName") (text "type") (text "duplicateType")
    (text "morphology") (text "constellationZh") (text "constellationEn") (text "raJ2000") (real "radJ2000")
    (text "decJ2000") (real "decDJ2000") (real "visualMagnitudeV") (real "photographicMagnitudeB") (real "bMinusV")
    (real "surfaceBrightness") (real "majorAxis") (real "minorAxis") (real "positionAngle")
    (text "detailedDescription") (text "briefDescription") (text "aliases") (int "clickCount")).

(** The assignments [row[key] = value], one after the other. *)
Definition object_entries (o : obj) : list (string * string) :=
  [("identifier", identifier o); ("mIdentifier", mIdentifier _ o); ("extensionName", extensionName _ o);
   ("component", component _ o); ("className", className _ o); ("chineseName", chineseName o); ("type", type o);
   ("duplicateType", duplicateType _ o); ("morphology", morphology _ o); ("constellationZh", constellationZh _ o);
   ("constellationEn", constellationEn _ o); ("raJ2000", raJ2000 _ o); ("radJ2000", doubleToString (radJ2000 o));
   ("decJ2000", decJ2000 _ o); ("decDJ2000", doubleToString (decDJ2000 o));
   ("visualMagnitudeV", doubleToString (visualMagnitudeV o));
   ("photographicMagnitudeB", doubleToString (photographicMagnitudeB _ o)); ("bMinusV", doubleToString (bMinusV _ o));
   ("surfaceBrightness", doubleToString (surfaceBrightness _ o)); ("majorAxis", doubleToString (majorAxis _ o));
   ("minorAxis", doubleToString (minorAxis _ o)); ("positionAngle", doubleToString (positionAngle _ o));
   ("detailedDescription", detailedDescription _ o); ("briefDescription", briefDescription _ o);
   ("aliases", aliases _ o); ("amateurRank", intToString (amateurRank _ o)); ("clickCount", intToString (clickCount _ o))].

Definition celestialObjectToRow (o : obj) : row :=
  foldl (λ r kv, <[kv.1 := kv.2]> r) ∅ (object_entries o).

Record ImportResult := mkImportResult {
  totalRecords : Z;
  successCount : Z;
  errorCount : Z;
  duplicateCount : Z;
  errors : list string
}.
#[export] Instance ImportResult_eta : Eta ImportResult := λ r,
  mkImportResult (totalRecords r) (successCount r) (errorCount r) (duplicateCount r) (errors r).

Definition import_row (acc : list obj * ImportResult) (r : row) : list obj * ImportResult :=
  let '(objects, stats) := acc in
  match rowToCelestialObject r with
  | Ok o => (objects ++ [o], stats <| successCount ::= Z.succ |>)
  | Throw e => (objects, stats <| errorCount ::= Z.succ |> <| errors ::= λ l, l ++ [e] |>)
  end.

Definition importCelestialObjects (d : CsvDialect) (filename : string) (file : option string)
  : result string (list obj * ImportResult) :=
  let* rawData := read d filename file in
  Ok (foldl import_row ([], mkImportResult (to_int (Z.of_nat (length rawData))) 0 0 0 []) rawData).

Definition fieldOrder : list string :=
  ["identifier"; "mIdentifier"; "extensionName"; "component"; "className"; "chineseName"; "type"; "duplicateType";
   "morphology"; "constellationZh"; "constellationEn"; "raJ2000"; "radJ2000"; "decJ2000"; "decDJ2000";
   "visualMagnitudeV"; "photographicMagnitudeB"; "bMinusV"; "surfaceBrightness"; "majorAxis"; "minorAxis";
   "positionAngle"; "detailedDescription"; "briefDescription"; "aliases"; "amateurRank"; "clickCount"].

Definition exportCelestialObjects (d : CsvDialect) (filename : string) (disk : Disk) (file : option string)
  (objects : list obj) : option string * result string Z :=
  match objects with
  | [] => (file, Throw "No objects to export")
  | first :: _ =>
      let firstRow := celestialObjectToRow first in
      let fieldnames := filter (λ f, is_Some (firstRow !! f)) fieldOrder in
      write d filename disk file (map celestialObjectToRow objects) fieldnames
  end.
End objects.

(** * Properties *)

(** ** Quoting and parsing *)

(** Four different characters; otherwise nothing can be quoted. *)
Definition sane (d : CsvDialect) : bool :=
  bool_decide (NoDup [delimiter d; quotechar d; escapechar d; nl]).

(** What survives a line: no escape character, no line break, and no blank that
    the dialect asks to skip. *)
Definition clean (d : CsvDialect) (f : string) : bool :=
  negb (str_mem (escapechar d) f) && negb (str_mem nl f) && String.eqb (trim_space d f) f.

Lemma str_app_one (a : string) c (b : string) : (a +:+ one c) +:+ b = a +:+ String c b.
Proof. by rewrite <- str_app_assoc. Qed.

Section roundtrip.
Context (d : CsvDialect) (Hsane : sane d = true).

Lemma sane_neq : Ascii.eqb (quotechar d) (escapechar d) = false ∧ Ascii.eqb (delimiter d) (escapechar d) = false
  ∧ Ascii.eqb (delimiter d) (quotechar d) = false ∧ Ascii.eqb nl (delimiter d) = false
  ∧ Ascii.eqb nl (quotechar d) = false ∧ Ascii.eqb nl (escapechar d) = false.
Proof.
  unfold sane in Hsane. apply bool_decide_eq_true in Hsane.
  rewrite !NoDup_cons, !elem_of_cons in Hsane. rewrite !Ascii.eqb_neq.
  destruct Hsane as (H1 & H2 & H3 & _ & _). split_and!; intros E; rewrite E in *; naive_solver.
Qed.

Lemma parse_opening t : parse_loop d (String (quotechar d) t) "" false false = parse_loop d t "" true false.
Proof.
  destruct sane_neq as (Hqe & _). cbn. rewrite Hqe, Ascii.eqb_refl. by destruct t.
Qed.

Lemma parse_closing t acc : (∀ t', t ≠ String (quotechar d) t') →
  parse_loop d (String (quotechar d) t) acc true false = parse_loop d t acc false false.
Proof.
  intros Ht. destruct sane_neq as (Hqe & _). cbn. rewrite Hqe, Ascii.eqb_refl.
  destruct t as [|c t]; [done|]. destruct (Ascii.eqb_spec c (quotechar d)) as [->|]; [by destruct (Ht t)|done].
Qed.

Lemma parse_plain f t acc :
  str_mem (delimiter d) f = false → str_mem (quotechar d) f = false → str_mem (escapechar d) f = false →
  parse_loop d (f +:+ t) acc false false = parse_loop d t (acc +:+ f) false false.
Proof.
  revert acc. induction f as [|c f IH]; intros acc; cbn; [by rewrite str_app_empty_r|].
  intros [Hd Hfd]%orb_false_iff [Hq Hfq]%orb_false_iff [He Hfe]%orb_false_iff.
  rewrite (Ascii.eqb_sym c (escapechar d)), He, (Ascii.eqb_sym c (quotechar d)), Hq, (Ascii.eqb_sym c (delimiter d)), Hd. cbn.
  by rewrite IH, str_app_one.
Qed.

Lemma parse_quoted f t acc : str_mem (escapechar d) f = false → (∀ t', t ≠ String (quotechar d) t') →
  parse_loop d (escape_chars d f +:+ String (quotechar d) t) acc true false = parse_loop d t (acc +:+ f) false false.
Proof.
  intros Hf Ht. destruct sane_neq as (Hqe & _). revert acc Hf.
  induction f as [|c f IH]; intros acc; [by rewrite str_app_empty_r; intros; apply parse_closing|].
  cbn [str_mem]. intros [He Hf]%orb_false_iff. cbn [escape_chars]. rewrite <- str_app_assoc.
  destruct (Ascii.eqb_spec c (quotechar d)) as [->|Hc].
  - destruct (doublequote d) eqn:Hdd; cbn.
    + by rewrite Hqe, Ascii.eqb_refl, Hdd, IH, str_app_one.
    + by rewrite Ascii.eqb_refl, IH, str_app_one.
  - cbn. apply Ascii.eqb_neq in Hc. rewrite (Ascii.eqb_sym c (escapechar d)), He, Hc, andb_false_r.
    by rewrite IH, str_app_one.
Qed.

(** A field followed by the end of the line or a delimiter. *)
Lemma parse_field f t : clean d f = true → (∀ t', t ≠ String (quotechar d) t') →
  parse_loop d (escapeField d f +:+ t) "" false false = parse_loop d t f false false.
Proof.
  unfold clean. rewrite !andb_true_iff, !negb_true_iff. intros [[He _] _] Ht.
  unfold escapeField, needsQuotes.
  destruct (str_mem (delimiter d) f) eqn:Hd; [|destruct (str_mem (quotechar d) f) eqn:Hq;
    [|rewrite He; destruct (str_mem nl f) eqn:Hn; [|destruct (str_mem cr f) eqn:Hr]]].
  5: exact (parse_plain f t "" Hd Hq He).
  all: cbn [orb]; rewrite <- !str_app_assoc; change (one (quotechar d) +:+ ?x) with (String (quotechar d) x);
    rewrite parse_opening; by apply parse_quoted.
Qed.

Lemma clean_trim f : clean d f = true → trim_space d f = f.
Proof. unfold clean. rewrite !andb_true_iff, String.eqb_eq. tauto. Qed.

Lemma parse_joined fs : fs ≠ [] → Forall (λ f, clean d f = true) fs →
  parseLine d (line_of d fs) = fs.
Proof.
  unfold line_of.
  destruct sane_neq as (_ & Hde & Hdq & _). unfold parseLine. intros Hne Hfs.
  induction Hfs as [|f fs Hf Hfs IH]; [done|]. destruct fs as [|g fs]; cbn [map].
  - cbn [join]. rewrite <- (str_app_empty_r (escapeField d f)), parse_field by done. cbn.
    by rewrite orb_true_r, clean_trim.
  - unfold one at 1. rewrite join_cons, parse_field; [|done|].
    + cbn [parse_loop]. rewrite Hde, Hdq, Ascii.eqb_refl. cbn. rewrite orb_true_r, clean_trim by done.
      f_equal. by apply IH.
    + intros t' [= E _]. by rewrite E, Ascii.eqb_refl in Hdq.
Qed.

(** ** Lines of a written file *)

Lemma no_nl_escape f : str_mem nl f = false → str_mem nl (escapeField d f) = false.
Proof.
  destruct sane_neq as (_ & _ & _ & _ & Hnq & Hne). intros Hf. unfold escapeField.
  destruct (needsQuotes d f); [|done]. rewrite !str_mem_app. cbn. rewrite Hnq. cbn. rewrite orb_false_r.
  induction f as [|c f IH]; cbn; [done|]. cbn in Hf. apply orb_false_iff in Hf as [Hc Hf].
  rewrite str_mem_app, (IH Hf), orb_false_r.
  destruct (Ascii.eqb c (quotechar d)), (doublequote d); cbn; by rewrite ?Hnq, ?Hne, ?Hc.
Qed.

Lemma no_nl_join fs : Forall (λ f, clean d f = true) fs →
  str_mem nl (line_of d fs) = false.
Proof.
  unfold line_of.
  destruct sane_neq as (_ & _ & _ & Hnd & _). induction 1 as [|f fs Hf _ IH]; [done|].
  assert (str_mem nl (escapeField d f) = false) as Hn.
  { apply no_nl_escape. unfold clean in Hf. rewrite !andb_true_iff, !negb_true_iff in Hf. tauto. }
  destruct fs as [|g fs]; [done|]. cbn [map] in *. unfold one at 1. rewrite join_cons, str_mem_app, Hn.
  cbn [str_mem orb]. by rewrite Hnd.
Qed.

Lemma escape_empty f : str_empty (escapeField d f) = str_empty f.
Proof. unfold escapeField. destruct (needsQuotes d f) eqn:E; [|done]. by destruct f. Qed.

Lemma line_empty fs : str_empty (line_of d fs) =
  match fs with [] => true | [f] => str_empty f | _ => false end.
Proof.
  unfold line_of.
  destruct fs as [|f [|g fs]]; [done|apply escape_empty|]. cbn [map]. unfold one at 1. rewrite join_cons.
  by destruct (escapeField d f).
Qed.

(** ** Records *)

Lemma make_record_lookup (fields : list string) (g : string → string) k (m : gmap string string) :
  foldl (λ r kv, <[kv.1 := kv.2]> r) m (zip fields (map g fields)) !! k
  = if bool_decide (k ∈ fields) then Some (g k) else m !! k.
Proof.
  revert m. induction fields as [|f fields IH]; intros m; [done|]. cbn [map zip foldl]. rewrite IH.
  destruct (decide (k ∈ fields)) as [Hk|Hk].
  - rewrite !bool_decide_eq_true_2; [done|by right|done].
  - rewrite (bool_decide_eq_false_2 (k ∈ fields)) by done. cbn. destruct (decide (f = k)) as [->|Hfk].
    + rewrite lookup_insert_eq, bool_decide_eq_true_2; [done|by left].
    + rewrite lookup_insert_ne, bool_decide_eq_false_2 by (rewrite ?elem_of_cons; naive_solver). done.
Qed.

Lemma resize_same n (l : list string) : length l = n → resize n l = l.
Proof. intros <-. unfold resize. rewrite Nat.sub_diag, take_ge by done. apply app_nil_r. Qed.

(** The loop on data lines, without its accumulator: the first line with the
    wrong number of fields stops a strict reader, otherwise each line that is
    not empty is a record. *)
Fixpoint bad_line (n : nat) (lines : list string) (lineNum : nat) : option (nat * nat) :=
  match lines with
  | [] => None
  | line :: rest =>
      if negb (str_empty line) && negb (length (parseLine d line) =? n)%nat
      then Some (S lineNum, length (parseLine d line)) else bad_line n rest (S lineNum)
  end.

Definition line_record (names : list string) (line : string) : gmap string string :=
  make_record names (resize (length names) (parseLine d line)).

Definition data_lines (lines : list string) : list string := filter (λ l, str_empty l = false) lines.

Lemma csv_loop_spec names lines n recs :
  read_loop d names lines n recs =
    match (if strict d then bad_line (length names) lines n else None) with
    | Some (at_line, got) => Throw (mismatch at_line (length names) got)
    | None => Ok (recs ++ map (line_record names) (data_lines lines))
    end.
Proof.
  revert n recs. induction lines as [|line lines IH]; intros n recs; cbn -[mismatch data_lines].
  - destruct (strict d); by rewrite app_nil_r.
  - unfold data_lines in *. rewrite filter_cons. destruct (str_empty line) eqn:He; cbn -[mismatch filter].
    + by rewrite IH.
    + destruct (strict d), (Nat.eqb_spec (length (parseLine d line)) (length names)) as [E|E]; cbn -[mismatch];
        rewrite ?IH, <- ?app_assoc; done.
Qed.
End roundtrip.

(** ** Numbers *)

Lemma all_digits_str_all s : all_digits s = true → str_all is_digit s = true.
Proof.
  induction s as [|c s IH]; cbn; [done|]. intros [Hc Hs]%andb_true_iff. rewrite (IH Hs), andb_true_r.
  apply bool_decide_eq_true in Hc as [v Hv]. unfold digit_val in Hv. unfold is_digit, code.
  destruct (_ && _) eqn:E in Hv; [|done]. rewrite andb_true_iff, !Z.leb_le in E. rewrite andb_true_iff, !N.leb_le. lia.
Qed.

Lemma digit_not_blank c : is_digit c = true → is_space c = false.
Proof.
  unfold is_digit, is_space. rewrite andb_true_iff, orb_false_iff, andb_false_iff, N.eqb_neq, !N.leb_le, !N.leb_gt. lia.
Qed.

Lemma digit_not_sign c : is_digit c = true → Ascii.eqb c "-" = false ∧ Ascii.eqb c "+" = false.
Proof. intros H. split; apply Ascii.eqb_neq; intros ->; by vm_compute in H. Qed.

Lemma sto_integer_pretty lo hi z : (lo ≤ z ≤ hi)%Z →
  sto_integer lo hi (pretty z) = Some (z, String.length (pretty z)).
Proof.
  intros Hz. assert (∀ v, (0 ≤ v)%Z → str_all is_digit (pretty v) = true ∧ scan_nat (pretty v) = Some v) as Hd.
  { intros v Hv. destruct (format_nonneg v Hv) as [H1 H2]. split; [by apply all_digits_str_all|done]. }
  assert (∀ s, str_all is_digit s = true → str_span is_digit s = (s, ""%string)) as Hspan.
  { intros s Hs. rewrite <- (str_app_empty_r s) at 1. by apply str_span_at. }
  unfold sto_integer. destruct (decide (0 ≤ z)%Z) as [Hpos|Hneg].
  - destruct (Hd z Hpos) as [Hall Hscan]. destruct (pretty z) as [|c s] eqn:E; [done|].
    cbn in Hall. apply andb_true_iff in Hall as [Hc Hs]. cbn [str_span]. rewrite digit_not_blank by done.
    destruct (digit_not_sign c Hc) as [-> ->]. rewrite Hscan, Hspan by (cbn; by rewrite Hc).
    rewrite bool_decide_eq_true_2 by lia. do 2 f_equal; lia.
  - destruct z as [|p|p]; [lia..|]. change (pretty (Z.neg p)) with (String "-" (pretty (Z.pos p))).
    destruct (Hd (Z.pos p) ltac:(done)) as [Hall Hscan]. cbn [str_span]. change (is_space "-") with false. cbn iota.
    change (Ascii.eqb "-" "-") with true. cbn iota. rewrite Hscan, Hspan by done.
    rewrite bool_decide_eq_true_2 by lia. do 2 f_equal; cbn; lia.
Qed.

(** An [int] written by the exporter is read back. *)
Lemma stringToInt_intToString v : in_int v = true → stringToInt (intToString v) = v.
Proof.
  unfold in_int, intToString, stringToInt, whole. rewrite bool_decide_eq_true. intros Hv.
  destruct (Z.eqb_spec v 0) as [->|Hv0]; [done|]. rewrite sto_integer_pretty by done. rewrite Nat.eqb_refl.
  destruct (pretty v) eqn:E; [|done]. exfalso.
  pose proof (sto_integer_pretty INT_MIN INT_MAX v Hv) as H. by rewrite E in H.
Qed.

(** What is not a whole number in range reads as zero. *)
Lemma stringToInt_range s : in_int (stringToInt s) = true.
Proof.
  unfold stringToInt, whole, in_int. destruct (str_empty s); [done|].
  destruct (sto_integer INT_MIN INT_MAX s) as [[v i]|] eqn:E; [|done]. destruct (i =? _)%nat; [|done].
  unfold sto_integer in E. repeat case_match; simplify_eq; done.
Qed.

(** ** Files *)

(** What reading means, without the loop. *)
Definition read_spec (d : CsvDialect) (filename : string) (file : option string) : result string (list (gmap string string)) :=
  match file with
  | None => Throw ("Failed to open file: " +:+ filename)
  | Some text =>
      match getlines text with
      | [] => Throw "Empty CSV file"%string
      | header :: lines =>
          let names := parseLine d header in
          if bool_decide (names = []) then Throw "No field names in CSV header"%string
          else match (if strict d then bad_line d (length names) lines 1 else None) with
               | Some (at_line, got) => Throw (mismatch at_line (length names) got)
               | None => Ok (map (line_record d names) (data_lines lines))
               end
      end
  end.

Lemma make_record_dom names : ∀ fields (m : gmap string string) k, length fields = length names →
  is_Some (foldl (λ r kv, <[kv.1 := kv.2]> r) m (zip names fields) !! k) ↔ k ∈ names ∨ is_Some (m !! k).
Proof.
  induction names as [|n names IH]; intros [|f fields] m k Hl; try done; cbn.
  - rewrite elem_of_nil. tauto.
  - injection Hl as Hl. rewrite IH by done. rewrite elem_of_cons. destruct (decide (n = k)) as [->|Hn].
    + rewrite lookup_insert_eq. split; eauto.
    + rewrite lookup_insert_ne by done. naive_solver.
Qed.

Lemma length_resize n l : length (resize n l) = n.
Proof. unfold resize. rewrite length_app, length_take, length_replicate. lia. Qed.

(** Reading: an error for a file that is not there, is empty or has no names; a
    strict reader stops at the first line that is not empty and has another number
    of fields than the header, and names it; otherwise every line that is not empty
    becomes one record, in order, with exactly the names of the header. *)
Theorem read_correct (d : CsvDialect) (filename : string) (file : option string) :
  read d filename file = read_spec d filename file ∧
  ∀ names line k, is_Some (line_record d names line !! k) ↔ k ∈ names.
Proof.
  split.
  - unfold read, read_spec. destruct file as [text|]; [|done]. destruct (getlines text) as [|header lines]; [done|].
    destruct (parseLine d header) as [|n names]; [done|]. by rewrite csv_loop_spec.
  - intros names line k. unfold line_record, make_record. rewrite make_record_dom by apply length_resize.
    rewrite lookup_empty. split; [intros [?|[? [=]]]; done|by left].
Qed.

(** The record a row becomes in a file with these columns. *)
Definition restricted (fields : list string) (r s : gmap string string) : Prop :=
  ∀ k, s !! k = if bool_decide (k ∈ fields) then Some (default ""%string (r !! k)) else None.

Lemma restricted_make fields r : restricted fields r (make_record fields (row_values fields r)).
Proof. intros k. unfold make_record, row_values. by rewrite make_record_lookup, lookup_empty. Qed.

Definition written_rows (fields : list string) (data : list (gmap string string)) : list (gmap string string) :=
  filter (λ r, row_values fields r ≠ [""%string]) data.

(** The rows of a written file are its lines. *)
Lemma getlines_written d data fields : sane d = true → lineterminator d = one nl →
  Forall (λ f, clean d f = true) fields →
  Forall (λ r, Forall (λ f, clean d f = true) (row_values fields r)) data →
  getlines (csv_text d data fields) =
    map (line_of d) (fields :: map (row_values fields) data).
Proof.
  intros Hs Hnl Hf Hdata. unfold csv_text, write_line. rewrite Hnl.
  transitivity (getlines (foldr (λ r t, r +:+ String nl t) ""
    (map (line_of d) (fields :: map (row_values fields) data)))).
  - f_equal. cbn [map foldr]. rewrite <- str_app_assoc. f_equal. cbn. f_equal.
    clear Hdata. induction data as [|r data IH]; cbn; [done|]. rewrite <- str_app_assoc. cbn. by rewrite IH.
  - apply getlines_rows, Forall_map. constructor; [by apply no_nl_join|].
    apply Forall_map. eapply Forall_impl; [exact Hdata|]. intros r Hr. by apply no_nl_join.
Qed.

Lemma no_bad_lines d n rows k : sane d = true →
  Forall (λ l : list string, length l = n ∧ Forall (λ f, clean d f = true) l) rows →
  bad_line d n (map (line_of d) rows) k = None.
Proof.
  intros Hs H. revert k. induction H as [|l rows [Hl Hc] _ IH]; intros k; [done|]. cbn.
  rewrite IH. destruct l as [|f l]; [by rewrite line_empty|].
  rewrite parse_joined by done. by rewrite Hl, Nat.eqb_refl, andb_false_r.
Qed.

Lemma written_records d fields data : sane d = true → fields ≠ [] →
  Forall (λ r, Forall (λ f, clean d f = true) (row_values fields r)) data →
  map (line_record d fields) (data_lines (map (line_of d) (map (row_values fields) data))) =
    map (λ r, make_record fields (row_values fields r)) (written_rows fields data).
Proof.
  intros Hs Hne. unfold data_lines, written_rows. induction 1 as [|r data Hr _ IH]; [done|].
  assert (length (row_values fields r) = length fields) as Hlen by apply length_map.
  assert (line_record d fields (line_of d (row_values fields r)) = make_record fields (row_values fields r)) as Hrec.
  { unfold line_record. rewrite parse_joined by (done || by destruct fields). by rewrite resize_same. }
  cbn [map]. rewrite !filter_cons, line_empty.
  destruct (row_values fields r) as [|f [|g l]] eqn:E; [by destruct fields| |].
  - destruct f as [|c f]; cbn [str_empty]; [by rewrite decide_False by done; rewrite decide_False by naive_solver|].
    rewrite !decide_True by done. cbn [map]. by rewrite Hrec, E, IH.
  - rewrite !decide_True by done. cbn [map]. by rewrite Hrec, E, IH.
Qed.

Lemma written_and_read (d : CsvDialect) (filename : string) (file : option string)
    (data : list (gmap string string)) (fields : list string)
  (Hsane : sane d = true) (Hnl : lineterminator d = one nl) (Hne : fields ≠ [])
  (Hfields : Forall (λ f, clean d f = true) fields)
  (Hdata : Forall (λ r, Forall (λ f, clean d f = true) (row_values fields r)) data) :
  ∃ text, write d filename Works file data fields = (Some text, Ok (Z.of_nat (length data))) ∧
    ∃ records, read d filename (Some text) = Ok records ∧
      Forall2 (restricted fields) (written_rows fields data) records.
Proof.
  exists (csv_text d data fields). split; [done|]. rewrite (proj1 (read_correct _ _ _)). unfold read_spec.
  rewrite getlines_written by done. cbn [map]. rewrite parse_joined by done. rewrite bool_decide_eq_false_2 by done.
  rewrite no_bad_lines; [|done|].
  2: { apply Forall_map. eapply Forall_impl; [exact Hdata|]. cbn. intros r Hr. unfold row_values at 1. by rewrite length_map. }
  exists (map (λ r, make_record fields (row_values fields r)) (written_rows fields data)). split.
  - transitivity (Ok (E := string) (map (line_record d fields) (data_lines (map (line_of d) (map (row_values fields) data)))));
      [by destruct (strict d)|]. f_equal. by apply written_records.
  - induction (written_rows fields data) as [|r l IH]; constructor; [apply restricted_make|done].
Qed.

(** [C32] Writing rows and reading the file back, for any dialect with different
    special characters and lines ended by a line feed: if no name and no value has
    an escape character, a line feed or a skipped blank, the records read are the
    rows, restricted to the columns with the empty string where a row has none, in
    order; only a row whose single value is empty disappears.  Strict reading makes
    no difference, and the answer of the writer counts every row. *)
Theorem csv_roundtrip (d : CsvDialect) (filename : string) (file : option string)
    (data : list (gmap string string)) (fields : list string)
  (Hsane : sane d = true) (Hnl : lineterminator d = one nl) (Hne : fields ≠ [])
  (Hfields : Forall (λ f, clean d f = true) fields)
  (Hdata : Forall (λ r, Forall (λ f, clean d f = true) (row_values fields r)) data) :
  ∃ text, write d filename Works file data fields = (Some text, Ok (Z.of_nat (length data))) ∧
    ∃ records, read d filename (Some text) = Ok records ∧
      Forall2 (restricted fields) (written_rows fields data) records.
Proof. by apply written_and_read. Qed.

Lemma filter_keeps {A} (P : A → Prop) `{∀ x, Decision (P x)} (l : list A) : (∀ x, x ∈ l → P x) → filter P l = l.
Proof.
  induction l as [|x l IH]; intros Hl; [done|]. rewrite filter_cons, decide_True by (apply Hl; by left).
  rewrite IH; [done|]. intros y Hy. apply Hl. by right.
Qed.

Section object_files.
Context `{FO : Floats F} (stod : string → option (F * nat)) (fixed6 : F → string).
Abbreviation obj := (CelestialObjectModel F).
Abbreviation to_row := (celestialObjectToRow fixed6).
Abbreviation of_row := (rowToCelestialObject stod).

Definition imported (rows : list (gmap string string)) : list obj :=
  omap (λ r, match of_row r with Ok o => Some o | Throw _ => None end) rows.
Definition refused (rows : list (gmap string string)) : list string :=
  omap (λ r, match of_row r with Ok _ => None | Throw e => Some e end) rows.

Lemma import_fold rows objects stats : foldl (import_row stod) (objects, stats) rows =
  (objects ++ imported rows,
   mkImportResult (totalRecords stats) (successCount stats + Z.of_nat (length (imported rows)))
     (errorCount stats + Z.of_nat (length (refused rows))) (duplicateCount stats) (errors stats ++ refused rows)).
Proof.
  revert objects stats. induction rows as [|r rows IH]; intros objects stats.
  - cbn. rewrite !app_nil_r, !Z.add_0_r. by destruct stats.
  - cbn [foldl import_row]. unfold imported, refused in *. cbn [omap list_omap].
    destruct (of_row r); rewrite IH; cbn; rewrite <- ?app_assoc; do 2 f_equal; cbn; lia.
Qed.

Lemma row_keys o f : f ∈ fieldOrder → is_Some (to_row o !! f).
Proof.
  intros Hf. unfold celestialObjectToRow. rewrite list_elem_of_In in Hf. cbn [In fieldOrder] in Hf.
  by repeat destruct Hf as [<-|Hf]; [eexists; reflexivity..|].
Qed.

Lemma all_columns o : filter (λ f, is_Some (to_row o !! f)) fieldOrder = fieldOrder.
Proof. apply filter_keeps. intros f. apply row_keys. Qed.

(** What a file can hold of an object: a name, ints, and doubles whose text with
    six decimals reads as the same double. *)
Definition storable (o : obj) : Prop :=
  identifier o ≠ ""%string ∧ in_int (amateurRank _ o) = true ∧ in_int (clickCount _ o) = true ∧
  Forall (λ x, stringToDouble stod (doubleToString fixed6 x) = x)
    [radJ2000 o; decDJ2000 o; visualMagnitudeV o; photographicMagnitudeB _ o; bMinusV _ o; surfaceBrightness _ o;
     majorAxis _ o; minorAxis _ o; positionAngle _ o].

Lemma row_roundtrip o s : storable o → restricted fieldOrder (to_row o) s → of_row s = Ok (o <| id := 0%Z |>).
Proof.
  intros (Hid & Hrank & Hclick & Hreal) Hs.
  assert (∀ k v, to_row o !! k = Some v → k ∈ fieldOrder → getField s k = v) as Hget.
  { intros k v Hv Hk. unfold getField. rewrite Hs, bool_decide_eq_true_2, Hv by done. done. }
  assert (Forall (λ kv, getField s kv.1 = kv.2) (object_entries fixed6 o)) as Hall.
  { unfold object_entries. repeat (constructor; [apply Hget; [reflexivity|apply list_elem_of_In; cbn; tauto]|]).
    constructor. }
  clear Hget Hs. unfold rowToCelestialObject, object_entries in *.
  repeat (apply Forall_cons in Hall as [E Hall]; cbn [fst snd] in E; rewrite E; clear E).
  repeat (apply Forall_cons in Hreal as [E Hreal]; rewrite E; clear E).
  rewrite !stringToInt_intToString by done. destruct (identifier o) eqn:E; [done|]. cbn [str_empty]. by rewrite <- E.
Qed.

Lemma row_values_clean d o : Forall (λ kv, clean d kv.2 = true) (object_entries fixed6 o) →
  Forall (λ f, clean d f = true) (row_values fieldOrder (to_row o)).
Proof.
  intros H. replace (row_values fieldOrder (to_row o)) with (map snd (object_entries fixed6 o)) by reflexivity.
  by apply Forall_map.
Qed.

Lemma written_objects (objects : list obj) : written_rows fieldOrder (map to_row objects) = map to_row objects.
Proof. apply filter_keeps. intros r _ H%(f_equal length). done. Qed.

Lemma imported_objects objects records : Forall storable objects →
  Forall2 (restricted fieldOrder) (map to_row objects) records →
  imported records = map (λ o, o <| id := 0%Z |>) objects ∧ refused records = [].
Proof.
  intros Hst. revert records. induction Hst as [|o objects Ho _ IH]; intros records H; inversion H; subst; [done|].
  destruct (IH _ ltac:(eassumption)) as [E1 E2]. unfold imported, refused in *. cbn [omap list_omap map].
  rewrite (row_roundtrip o) by done. cbn [omap list_omap] in *. by rewrite E1, E2.
Qed.

(** Exporting objects and importing the file again gives back the same
    objects, in order, except for their ids, which the file does not hold; the
    statistics count them all as successes.  The objects are not empty, have an
    identifier, ints in range and doubles of at most six decimals, and no text with
    an escape character, a line feed or a skipped blank. *)
Theorem import_export (d : CsvDialect) (filename : string) (file : option string) (objects : list obj)
  (Hsane : sane d = true) (Hnl : lineterminator d = one nl) (Hne : objects ≠ [])
  (Hcolumns : Forall (λ f, clean d f = true) fieldOrder)
  (Hstorable : Forall storable objects)
  (Hclean : Forall (λ o, Forall (λ kv, clean d kv.2 = true) (object_entries fixed6 o)) objects) :
  ∃ text, exportCelestialObjects fixed6 d filename Works file objects = (Some text, Ok (Z.of_nat (length objects))) ∧
    importCelestialObjects stod d filename (Some text) =
      Ok (map (λ o, o <| id := 0%Z |>) objects,
          mkImportResult (to_int (Z.of_nat (length objects))) (Z.of_nat (length objects)) 0 0 []).
Proof.
  destruct (written_and_read d filename file (map to_row objects) fieldOrder) as (text & Hw & records & Hr & Hrec);
    try done.
  { apply Forall_map. eapply Forall_impl; [exact Hclean|]. intros o Ho. by apply row_values_clean. }
  exists text. split.
  - destruct objects as [|o objects]; [done|]. unfold exportCelestialObjects. rewrite all_columns, Hw. by rewrite length_map.
  - unfold importCelestialObjects. rewrite Hr. cbn [rbind]. rewrite written_objects in Hrec.
    destruct (imported_objects _ _ Hstorable Hrec) as [E1 E2]. rewrite import_fold, E1, E2.
    apply Forall2_length in Hrec. rewrite length_map in *. by rewrite <- Hrec.
Qed.

(** Every record of a readable file is an object or an error message, in order,
    and the statistics add up. *)
Theorem import_counts (d : CsvDialect) (filename : string) (file : option string) :
  match read d filename file with
  | Throw e => importCelestialObjects stod d filename file = Throw e
  | Ok rows => ∃ stats, importCelestialObjects stod d filename file = Ok (imported rows, stats) ∧
      successCount stats = Z.of_nat (length (imported rows)) ∧ errors stats = refused rows ∧
      errorCount stats = Z.of_nat (length (refused rows)) ∧
      (successCount stats + errorCount stats = Z.of_nat (length rows))%Z
  end.
Proof.
  unfold importCelestialObjects. destruct (read d filename file) as [rows|e]; [|done]. cbn [rbind].
  rewrite import_fold. eexists. split; [done|]. cbn. split_and!; [done..|].
  clear. unfold imported, refused. induction rows as [|r rows IH]; cbn in *; [done|]. destruct (of_row r); cbn; lia.
Qed.
End object_files.

(** What the round trip leaves out is lost: a backslash disappears, a line feed
    inside a value breaks the record in two, with the line ending of Windows a
    carriage return is added to the last value of each line, and a single empty
    value is no record. *)
Theorem csv_losses :
  let back := Ascii.ascii_of_nat 92 in
  let file d fields rows := read d "f" (Some (csv_text d rows fields)) in
  parseLine default_dialect (escapeField default_dialect ("a" +:+ one back +:+ "b")) = ["ab"%string] ∧
  file default_dialect ["x"%string] [{[ "x"%string := "a" +:+ one nl +:+ "b" ]}]
    = Ok [{[ "x"%string := "a"%string ]}; {[ "x"%string := "b"%string ]}] ∧
  file (mkDialect "," quote back true false (one cr +:+ one nl) false) ["x"%string; "y"%string]
      [{[ "x"%string := "1"%string; "y"%string := "2"%string ]}]
    = Ok [{[ "x"%string := "1"%string; ("y" +:+ one cr)%string := ("2" +:+ one cr)%string ]}] ∧
  file default_dialect ["x"%string] [{[ "x"%string := ""%string ]}] = Ok [].
Proof. vm_compute. done. Qed.

(** * Witnesses *)

Definition demo_rows : list (gmap string string) :=
  [{[ "name"%string := "M31, Andromeda"%string; "note"%string := one quote +:+ "big" +:+ one quote ]}; ∅].

Lemma csv_roundtrip_witness :
  ∃ text, write default_dialect "out.csv" Works None demo_rows ["name"%string; "note"%string] = (Some text, Ok 2%Z) ∧
    ∃ records, read default_dialect "out.csv" (Some text) = Ok records ∧
      Forall2 (restricted ["name"%string; "note"%string]) (written_rows ["name"%string; "note"%string] demo_rows) records.
Proof.
  apply (csv_roundtrip default_dialect "out.csv" None demo_rows ["name"%string; "note"%string]); try reflexivity; [done|..].
  - repeat constructor.
  - repeat constructor.
Defined.

(** Doubles that are integers, printed with six zeros. *)
Definition demo_stod (s : string) : option (Z * nat) :=
  match rsplit "."%char s with None => sto_integer INT_MIN INT_MAX s | Some _ => None end.
Definition demo_fixed6 (z : Z) : string := pretty z +:+ ".000000".
Definition demo_objects : list (CelestialObjectModel Z) :=
  [(object_named (H := floats_Z) 7 "NGC 224" "Galaxy") <| radJ2000 := 1000%Z |> <| visualMagnitudeV := (-3)%Z |>
     <| amateurRank _ := (-12)%Z |> <| aliases _ := "M31,Andromeda"%string |>].

Lemma import_export_witness :
  ∃ text, exportCelestialObjects (FO := floats_Z) demo_fixed6 default_dialect "out.csv" Works None demo_objects
      = (Some text, Ok 1%Z) ∧
    importCelestialObjects (FO := floats_Z) demo_stod default_dialect "out.csv" (Some text) =
      Ok (map (λ o, o <| id := 0%Z |>) demo_objects, mkImportResult 1 1 0 0 []).
Proof.
  apply (import_export (FO := floats_Z) demo_stod demo_fixed6 default_dialect "out.csv" None demo_objects); try reflexivity.
  - done.
  - repeat constructor.
  - constructor; [|constructor]. split; [done|]. split; [reflexivity|]. split; [reflexivity|].
    repeat constructor.
  - repeat constructor.
Defined.
