(* ===== verification/DictCsv.v ===== *)
(** * DictCsv: the older CSV reader and writer

    Models classes DictReader and DictWriter of src/src/target/io/reader.hpp and
    reader.cpp, used by the preference and search engines.  The input is a text
    with a position.  [trim] of atom::utils is a parameter.  The constructor of
    the reader takes the size of its buffer from a member that is initialized
    later, which is undefined behaviour; the model supposes some buffer is made.
    Left out: progress callbacks, the encoding and the checksum, which are stored
    and never read. *)

From S2P Require Import Prelude Text CsvHandler.

Local Open Scope Z_scope.

Inductive CSVError := NONE | INVALID_FORMAT | ENCODING_ERROR | IO_ERROR | FIELD_MISMATCH.
Inductive Quoting := MINIMAL | ALL | NONNUMERIC | STRINGS | NOTNULL | QUOTE_NONE.
#[export] Instance Quoting_eq_dec : EqDecision Quoting.
Proof. solve_decision. Defined.

Record Dialect := mkDictDialect {
  delimiter : char;
  quotechar : char;
  doublequote : bool;
  skip_initial_space : bool;
  lineterminator : string;
  quoting : Quoting;
  buffer_size : Z;
  dialect_validate_fields : bool;
  ignore_errors : bool
}.

Definition default_dict_dialect : Dialect :=
  mkDictDialect "," quote true false (one nl) MINIMAL 8192 true false.

Section dict.
Context (trim : string → string) (d : Dialect).

(** ** Lines *)

(** One [std::getline]: the line and what follows it, [None] at the end. *)
Fixpoint getline (s : string) : option (string * string) :=
  match s with
  | EmptyString => None
  | String c s' =>
      if Ascii.eqb c nl then Some (""%string, s')
      else match getline s' with
           | Some (l, rest) => Some (String c l, rest)
           | None => Some (one c, ""%string)
           end
  end.

(** A line that ends in a carriage return loses it. *)
Definition strip_cr (line : string) : string := pop_if cr line.

Fixpoint str_last (s : string) : option char :=
  match s with
  | EmptyString => None
  | String c EmptyString => Some c
  | String _ s' => str_last s'
  end.

(** The loop of [parseLine]. *)
Fixpoint cell_loop (s cell : string) (insideQuotes : bool) : list string :=
  match s with
  | EmptyString => [trim cell]
  | String ch s' =>
      if Ascii.eqb ch (quotechar d) then
        if doublequote d && insideQuotes && bool_decide (str_last cell = Some (quotechar d))
        then cell_loop s' (pop_if (quotechar d) cell +:+ one ch) insideQuotes
        else cell_loop s' cell (negb insideQuotes)
      else if Ascii.eqb ch (delimiter d) && negb insideQuotes then trim cell :: cell_loop s' "" insideQuotes
      else cell_loop s' (cell +:+ one ch) insideQuotes
  end.
Definition dict_parseLine (line : string) : list string := cell_loop line "" false.

(** ** The reader *)

(** [stream] is what is left to read, [None] when the stream has failed. *)
Record DictReader := mkReader {
  fieldnames : list string;
  content : string;
  stream : option string;
  line_number : Z;
  last_error : CSVError;
  validate_fields : bool
}.
#[export] Instance DictReader_eta : Eta DictReader := λ r,
  mkReader (fieldnames r) (content r) (stream r) (line_number r) (last_error r) (validate_fields r).

Definition readNextLine (r : DictReader) : option string * DictReader :=
  match stream r ≫= getline with
  | Some (line, rest) => (Some (strip_cr line), r <| stream := Some rest |> <| line_number ::= Z.succ |>)
  | None => (None, r <| stream := None |>)
  end.

Definition bytes (l : list Z) : string := foldr (λ b s, String (Ascii.ascii_of_N (Z.to_N b)) s) "" l.

(** How much of a text is a byte order mark; four bytes are read to find out. *)
Definition bom_length (text : string) : nat :=
  if String.prefix (bytes [239; 187; 191]) text then 3
  else if String.prefix (bytes [255; 254]) text || String.prefix (bytes [254; 255]) text then 2
  else 0.

(** Reading four bytes of a shorter text fails the stream, and so do the moves to
    another position. *)
Definition detectEncoding (r : DictReader) : DictReader :=
  r <| stream := if (String.length (content r) <? 4)%nat then None
                 else Some (str_drop (bom_length (content r)) (content r)) |>.

Definition skipHeader (r : DictReader) : DictReader :=
  if bool_decide (fieldnames r = []) then r else (readNextLine r).2.

Definition new_reader (text : string) (names : list string) : result exn DictReader :=
  let r := mkReader names text (Some text) 0 NONE true in
  match names with
  | [] => if ignore_errors d then Ok (r <| last_error := INVALID_FORMAT |>) else Throw InvalidArgument
  | _ => Ok (skipHeader (detectEncoding r))
  end.

Definition processLine (r : DictReader) (line : string) : result exn (gmap string string) :=
  let parsedFields := dict_parseLine line in
  if validate_fields r && negb (length parsedFields =? length (fieldnames r))%nat
  then Throw RuntimeError
  else Ok (make_record (fieldnames r) (resize (length (fieldnames r)) parsedFields)).

(** The row as the caller has it afterwards, and the answer. *)
Definition next (r : DictReader) (row : gmap string string)
  : DictReader * gmap string string * result exn bool :=
  match readNextLine r with
  | (None, r) => (r, row, Ok false)
  | (Some line, r) =>
      match processLine r line with
      | Ok row => (r, row, Ok true)
      | Throw e =>
          let r := r <| last_error := INVALID_FORMAT |> in
          if ignore_errors d then (r, row, Ok true) else (r, row, Throw e)
      end
  end.

Fixpoint read_rows (count : nat) (r : DictReader) (row : gmap string string) (results : list (gmap string string))
  : DictReader * result exn (list (gmap string string)) :=
  match count with
  | O => (r, Ok results)
  | S count' =>
      match next r row with
      | (r, row, Ok true) => read_rows count' r row (results ++ [row])
      | (r, _, Ok false) => (r, Ok results)
      | (r, _, Throw e) => (r, Throw e)
      end
  end.
Definition readRows (count : nat) (r : DictReader) : DictReader * result exn (list (gmap string string)) :=
  read_rows count r ∅ [].

Definition reset (r : DictReader) : DictReader :=
  skipHeader (r <| stream := Some (content r) |> <| line_number := 0 |> <| last_error := NONE |>).

Definition enableFieldValidation (enable : bool) (r : DictReader) : DictReader :=
  r <| validate_fields := enable |>.
Definition getLastError (r : DictReader) : CSVError := last_error r.
Definition getLineNumber (r : DictReader) : Z := line_number r.

(** ** The writer *)

Record DictWriter := mkWriter {
  columns : list string;
  quote_all : bool;
  output : string;
  written_rows : Z
}.
#[export] Instance DictWriter_eta : Eta DictWriter := λ w,
  mkWriter (columns w) (quote_all w) (output w) (written_rows w).

Definition dict_needsQuotes (field : string) : bool :=
  str_mem (delimiter d) field || str_mem (quotechar d) field || str_mem nl field.

Fixpoint double_quotes (s : string) : string :=
  match s with
  | EmptyString => EmptyString
  | String c s' => if Ascii.eqb c (quotechar d) then String c (String c (double_quotes s')) else String c (double_quotes s')
  end.

Definition escape (field : string) : string :=
  if bool_decide (quoting d = ALL) || dict_needsQuotes field then
    if doublequote d then double_quotes field else field
  else field.

Definition wrap (all : bool) (field : string) : string :=
  if all || dict_needsQuotes field then one (quotechar d) +:+ field +:+ one (quotechar d) else field.

Definition line_text (all : bool) (line : list string) : string :=
  join (one (delimiter d)) (map (wrap all) line).
Definition writeLine (line : list string) (w : DictWriter) : DictWriter :=
  w <| output := output w +:+ (line_text (quote_all w) line +:+ lineterminator d) |>.

Definition writeHeader (w : DictWriter) : DictWriter := writeLine (columns w) w <| written_rows ::= Z.succ |>.
Definition new_writer (names : list string) (all : bool) : DictWriter := writeHeader (mkWriter names all "" 0).

Definition writeRow (row : gmap string string) (w : DictWriter) : DictWriter :=
  let outputRow := map (λ f, match row !! f with Some v => escape v | None => ""%string end) (columns w) in
  writeLine outputRow w <| written_rows ::= Z.succ |>.
Definition writeRows (rows : list (gmap string string)) (w : DictWriter) : DictWriter :=
  foldl (λ w row, writeRow row w) w rows.
Definition getWrittenRows (w : DictWriter) : Z := written_rows w.
End dict.

(** * Properties *)

(** ** Cells *)

Fixpoint remove_char (q : char) (s : string) : string :=
  match s with
  | EmptyString => EmptyString
  | String c s' => if Ascii.eqb c q then remove_char q s' else String c (remove_char q s')
  end.

Lemma remove_char_id q s : str_mem q s = false → remove_char q s = s.
Proof.
  induction s as [|c s IH]; cbn; [done|]. intros [Hc Hs]%orb_false_iff.
  rewrite Ascii.eqb_sym in Hc. by rewrite Hc, IH.
Qed.

Lemma str_last_app s c : str_last (s +:+ one c) = Some c.
Proof. induction s as [|x s IH]; [done|]. cbn. rewrite IH. by destruct s. Qed.

Lemma str_last_mem q s : str_last s = Some q → str_mem q s = true.
Proof.
  induction s as [|c s IH]; [done|]. cbn. destruct s as [|c' s].
  - intros [= ->]. cbn. by rewrite Ascii.eqb_refl.
  - intros H. rewrite IH by done. apply orb_true_r.
Qed.

Section cells.
Context (trim : string → string) (d : Dialect).
Abbreviation cells := (cell_loop trim d).

(** No cell ever holds a quote, so the test for a doubled quote never succeeds:
    each quote of a line only changes sides. *)
Lemma cell_loop_quote s cell b : str_mem (quotechar d) cell = false →
  cells (String (quotechar d) s) cell b = cells s cell (negb b).
Proof.
  intros Hc. cbn. rewrite Ascii.eqb_refl. rewrite bool_decide_eq_false_2, andb_false_r; [done|].
  intros H%str_last_mem. by rewrite H in Hc.
Qed.

Lemma cell_loop_char c s cell b : Ascii.eqb c (quotechar d) = false →
  Ascii.eqb c (delimiter d) && negb b = false → cells (String c s) cell b = cells s (cell +:+ one c) b.
Proof. intros Hq Hd. cbn. by rewrite Hq, Hd. Qed.

Lemma mem_app_one q cell c : str_mem q cell = false → Ascii.eqb c q = false → str_mem q (cell +:+ one c) = false.
Proof. intros H Hc. rewrite str_mem_app, H. cbn. by rewrite Ascii.eqb_sym, Hc. Qed.

(** Text between quotes, its quotes doubled. *)
Lemma cells_inside f t cell : str_mem (quotechar d) cell = false →
  cells (double_quotes d f +:+ t) cell true = cells t (cell +:+ remove_char (quotechar d) f) true.
Proof.
  revert cell. induction f as [|c f IH]; intros cell Hc; cbn [double_quotes remove_char]; [by rewrite str_app_empty_r|].
  destruct (Ascii.eqb_spec c (quotechar d)) as [->|Hne].
  - cbn [String.append]. by rewrite cell_loop_quote, cell_loop_quote, IH.
  - apply Ascii.eqb_neq in Hne. cbn [String.append]. rewrite cell_loop_char by (rewrite ?andb_false_r; done).
    rewrite IH by by apply mem_app_one. by rewrite str_app_one.
Qed.

Lemma cells_outside f t cell : str_mem (delimiter d) f = false → str_mem (quotechar d) f = false →
  cells (f +:+ t) cell false = cells t (cell +:+ f) false.
Proof.
  revert cell. induction f as [|c f IH]; intros cell; [by rewrite str_app_empty_r|].
  cbn [str_mem String.append]. intros [Hd Hfd]%orb_false_iff [Hq Hfq]%orb_false_iff.
  rewrite Ascii.eqb_sym in Hd, Hq. rewrite cell_loop_char by (rewrite ?Hd; done). by rewrite IH, str_app_one.
Qed.

Lemma double_quotes_id f : str_mem (quotechar d) f = false → double_quotes d f = f.
Proof.
  induction f as [|c f IH]; cbn; [done|]. intros [Hc Hf]%orb_false_iff.
  rewrite Ascii.eqb_sym in Hc. by rewrite Hc, IH.
Qed.

Lemma needs_doubled f : dict_needsQuotes d (double_quotes d f) = dict_needsQuotes d f.
Proof.
  assert (∀ c, str_mem c (double_quotes d f) = str_mem c f) as Hm.
  { intros c. induction f as [|x f IH]; cbn; [done|]. destruct (Ascii.eqb x (quotechar d)); cbn; rewrite IH; [|done].
    by destruct (Ascii.eqb c x). }
  unfold dict_needsQuotes. by rewrite !Hm.
Qed.

(** Quotes can only be written when they are doubled. *)
Definition quotable (f : string) : bool := doublequote d || negb (str_mem (quotechar d) f).

(** The text a field becomes: its doubled form between quotes, or the field when
    nothing in it needs them. *)
Lemma wrap_escape all f : quotable f = true →
  wrap d all (escape d f) = one (quotechar d) +:+ double_quotes d f +:+ one (quotechar d) ∨
  wrap d all (escape d f) = f ∧ dict_needsQuotes d f = false.
Proof.
  unfold quotable, wrap, escape. intros Hq.
  assert ((if doublequote d then double_quotes d f else f) = double_quotes d f) as E.
  { destruct (doublequote d); [done|]. cbn in Hq. apply negb_true_iff in Hq. by rewrite double_quotes_id. }
  destruct (dict_needsQuotes d f) eqn:Hn.
  - rewrite orb_true_r, E, needs_doubled, Hn, orb_true_r. by left.
  - assert (double_quotes d f = f) as E'.
    { apply double_quotes_id. unfold dict_needsQuotes in Hn. apply orb_false_iff in Hn as [[_ Hn]%orb_false_iff _]. done. }
    rewrite orb_false_r. assert ((if bool_decide (quoting d = ALL) then if doublequote d then double_quotes d f else f else f) = f)
      as -> by (rewrite E, E'; by destruct (bool_decide _)).
    rewrite Hn, orb_false_r. destruct all; [left; by rewrite E'|by right].
Qed.

Lemma cells_field all f t : quotable f = true →
  cells (wrap d all (escape d f) +:+ t) "" false = cells t (remove_char (quotechar d) f) false.
Proof.
  intros Hq. destruct (wrap_escape all f Hq) as [->|[-> Hn]].
  - rewrite <- !str_app_assoc. cbn [String.append one]. rewrite cell_loop_quote, cells_inside by done. cbn [String.append].
    apply cell_loop_quote. clear. induction f as [|c f IH]; cbn; [done|].
    destruct (Ascii.eqb c (quotechar d)) eqn:E; [done|]. cbn. by rewrite Ascii.eqb_sym, E, IH.
  - unfold dict_needsQuotes in Hn. apply orb_false_iff in Hn as [[Hd Hqf]%orb_false_iff _].
    rewrite cells_outside by done. cbn [String.append]. by rewrite remove_char_id.
Qed.

(** What is read of a line of fields. *)
Lemma dict_parse_line all fs : Ascii.eqb (delimiter d) (quotechar d) = false → fs ≠ [] →
  Forall (λ f, quotable f = true) fs →
  dict_parseLine trim d (line_text d all (map (escape d) fs)) = map (λ f, trim (remove_char (quotechar d) f)) fs.
Proof.
  intros Hdq Hne Hfs. unfold dict_parseLine, line_text. rewrite map_map.
  induction Hfs as [|f fs Hf Hfs IH]; [done|]. destruct fs as [|g fs].
  - cbn [map join]. rewrite <- (str_app_empty_r (wrap d all (escape d f))). by rewrite cells_field.
  - cbn [map] in *. unfold one at 1. rewrite join_cons, cells_field by done. cbn [cell_loop].
    rewrite Hdq, Ascii.eqb_refl. cbn [negb andb]. f_equal. by apply IH.
Qed.
End cells.

(** ** Files *)

Definition one_line (s : string) : bool := negb (str_mem nl s) && negb (str_mem cr s).

Section files.
Context (trim : string → string) (d : Dialect).

(** Delimiter, quote and the characters that end lines are different, and lines
    end as on Unix or as on Windows. *)
Definition usable : bool :=
  bool_decide (NoDup [delimiter d; quotechar d; nl; cr]) &&
  (String.eqb (lineterminator d) (one nl) || String.eqb (lineterminator d) (one cr +:+ one nl)).

Lemma usable_neq : usable = true → Ascii.eqb (delimiter d) (quotechar d) = false ∧
  ∀ c, c = nl ∨ c = cr → Ascii.eqb c (delimiter d) = false ∧ Ascii.eqb c (quotechar d) = false.
Proof.
  unfold usable. rewrite andb_true_iff, bool_decide_eq_true, !NoDup_cons, !elem_of_cons.
  intros [(H1 & H2 & _) _]. rewrite Ascii.eqb_neq. split; [naive_solver|].
  intros c Hc. rewrite !Ascii.eqb_neq. split; intros ->; naive_solver.
Qed.

Lemma pop_if_app l c : pop_if c (l +:+ one c) = l.
Proof.
  induction l as [|x l IH]; cbn; [by rewrite Ascii.eqb_refl|]. rewrite IH. by destruct l.
Qed.

Lemma pop_if_id l c : str_mem c l = false → pop_if c l = l.
Proof.
  induction l as [|x l IH]; [done|]. cbn [str_mem]. intros [Hx Hl]%orb_false_iff. cbn. rewrite Ascii.eqb_sym in Hx.
  rewrite Hx, IH by done. by destruct l.
Qed.

Lemma getline_at l t : str_mem nl l = false → getline (l +:+ String nl t) = Some (l, t).
Proof.
  induction l as [|c l IH]; cbn; [done|]. intros [Hc Hl]%orb_false_iff. rewrite Ascii.eqb_sym in Hc.
  by rewrite Hc, IH.
Qed.

Lemma one_line_iff s : one_line s = true ↔ str_mem nl s = false ∧ str_mem cr s = false.
Proof. unfold one_line. by rewrite andb_true_iff, !negb_true_iff. Qed.

(** A line and its end, read back. *)
Lemma readNextLine_at l t r : usable = true → one_line l = true → stream r = Some (l +:+ lineterminator d +:+ t) →
  readNextLine r = (Some l, r <| stream := Some t |> <| line_number ::= Z.succ |>).
Proof.
  intros Hu [Hn Hc]%one_line_iff Hs. unfold readNextLine. rewrite Hs. cbn.
  unfold usable in Hu. apply andb_true_iff in Hu as [_ [E|E]%orb_true_iff]; apply String.eqb_eq in E; rewrite E.
  - change (one nl +:+ t) with (String nl t). rewrite getline_at by done. unfold strip_cr. by rewrite pop_if_id.
  - replace (l +:+ (one cr +:+ one nl) +:+ t) with ((l +:+ one cr) +:+ String nl t) by by rewrite <- !str_app_assoc.
    rewrite getline_at by by rewrite str_mem_app, Hn. unfold strip_cr. by rewrite pop_if_app.
Qed.

Lemma line_text_one_line all fs : usable = true → Forall (λ f, one_line f = true) fs → one_line (line_text d all fs) = true.
Proof.
  intros Hu Hfs. destruct (usable_neq Hu) as [_ Hne]. apply one_line_iff.
  assert (∀ c, c = nl ∨ c = cr → Forall (λ f, str_mem c f = false) fs → str_mem c (line_text d all fs) = false) as H.
  { intros c Hc. destruct (Hne c Hc) as [Hd Hq]. unfold line_text. clear Hfs. induction 1 as [|f fs Hf _ IH]; [done|].
    assert (str_mem c (wrap d all f) = false) as Hw.
    { unfold wrap. destruct (all || _); [|done]. rewrite !str_mem_app, Hf. cbn. by rewrite Hq. }
    destruct fs as [|g fs]; [done|]. cbn [map] in *. unfold one at 1. rewrite join_cons, str_mem_app, Hw.
    cbn [str_mem orb]. by rewrite Hd. }
  split; apply H; auto; (eapply Forall_impl; [exact Hfs|]); intros f [? ?]%one_line_iff; done.
Qed.

Lemma escape_one_line f : usable = true → one_line f = true → one_line (escape d f) = true.
Proof.
  intros Hu. destruct (usable_neq Hu) as [_ Hne]. rewrite !one_line_iff. unfold escape.
  assert (∀ c, c = nl ∨ c = cr → str_mem c f = false → str_mem c (double_quotes d f) = false) as H.
  { intros c Hc. destruct (Hne c Hc) as [_ Hq]. induction f as [|x f IH]; cbn; [done|].
    intros [Hx Hf]%orb_false_iff. destruct (Ascii.eqb x (quotechar d)) eqn:E; cbn; rewrite Hx, IH; done. }
  destruct (_ || _), (doublequote d); intros []; split; auto.
Qed.

(** What the writer adds to a text for some rows. *)
Definition row_text (all : bool) (names : list string) (row : gmap string string) : string :=
  line_text d all (map (escape d) (row_values names row)) +:+ lineterminator d.
Definition rows_text all names (rows : list (gmap string string)) : string :=
  foldr (λ r t, row_text all names r +:+ t) "" rows.

Lemma writeRow_eq row w : writeRow d row w =
  mkWriter (columns w) (quote_all w) (output w +:+ row_text (quote_all w) (columns w) row) (written_rows w + 1).
Proof.
  unfold writeRow, writeLine, row_text, row_values. rewrite map_map.
  replace (map (λ f, match row !! f with Some v => escape d v | None => ""%string end) (columns w))
    with (map (λ f, escape d (default ""%string (row !! f))) (columns w)); [done|].
  apply map_ext. intros f. destruct (row !! f); [done|]. cbn. unfold escape, dict_needsQuotes. cbn.
  destruct (_ || _), (doublequote d); done.
Qed.

Lemma writeRows_eq rows w : writeRows d rows w =
  mkWriter (columns w) (quote_all w) (output w +:+ rows_text (quote_all w) (columns w) rows)
    (written_rows w + Z.of_nat (length rows)).
Proof.
  unfold writeRows. revert w. induction rows as [|row rows IH]; intros w; cbn [foldl].
  - cbn. rewrite str_app_empty_r, Z.add_0_r. by destruct w.
  - rewrite writeRow_eq, IH. cbn -[Z.of_nat]. rewrite str_app_assoc. f_equal. lia.
Qed.

(** The row the reader makes of a row that was written: every value is trimmed
    and has lost its quotes. *)
Definition reread (names : list string) (row s : gmap string string) : Prop :=
  ∀ k, s !! k = if bool_decide (k ∈ names)
                then Some (trim (remove_char (quotechar d) (default ""%string (row !! k)))) else None.

Lemma next_written all names row t r prev : usable = true → names ≠ [] → fieldnames r = names →
  Forall (λ f, one_line f = true ∧ quotable d f = true) (row_values names row) →
  stream r = Some (row_text all names row +:+ t) →
  ∃ s, next trim d r prev = (r <| stream := Some t |> <| line_number ::= Z.succ |>, s, Ok true) ∧ reread names row s.
Proof.
  intros Hu Hne Hr Hvals Hs. unfold next, row_text in *. rewrite <- str_app_assoc in Hs.
  rewrite (readNextLine_at _ _ _ Hu) with (2 := Hs).
  2: { apply line_text_one_line; [done|]. apply Forall_map. eapply Forall_impl; [exact Hvals|].
       intros f [Hf _]. by apply escape_one_line. }
  unfold processLine. cbn [fieldnames validate_fields upd]. rewrite dict_parse_line; [|exact (proj1 (usable_neq Hu))|unfold row_values; destruct names; [done|discriminate]|].
  2: { eapply Forall_impl; [exact Hvals|]. by intros f []. }
  unfold row_values. rewrite map_map. cbn. rewrite Hr, length_map, Nat.eqb_refl, andb_false_r.
  rewrite resize_same by by rewrite length_map.
  eexists. split; [done|]. intros k. unfold make_record. by rewrite make_record_lookup, lookup_empty.
Qed.

Lemma read_rows_written all names rows n r prev results : usable = true → names ≠ [] → fieldnames r = names →
  Forall (λ row, Forall (λ f, one_line f = true ∧ quotable d f = true) (row_values names row)) rows →
  stream r = Some (rows_text all names rows) →
  ∃ r' got, read_rows trim d n r prev results = (r', Ok (results ++ got)) ∧ Forall2 (reread names) (take n rows) got.
Proof.
  intros Hu Hne Hr Hrows. revert n r prev results Hr. induction Hrows as [|row rows Hrow _ IH]; intros n r prev results Hr Hs.
  - destruct n; cbn; [eexists _, []; by rewrite app_nil_r|]. unfold next, readNextLine. rewrite Hs. cbn.
    eexists _, []. by rewrite app_nil_r.
  - destruct n as [|n]; cbn [take read_rows]; [eexists _, []; by rewrite app_nil_r|].
    destruct (next_written all names row (rows_text all names rows) r prev) as (s & -> & Hrow'); try done.
    edestruct IH as (r' & got & -> & Hgot); cycle 2.
    + exists r', (s :: got). split; [by rewrite <- app_assoc|by constructor].
    + done.
    + done.
Qed.
End files.

Section roundtrip.
Context (trim : string → string) (d : Dialect).

Lemma line_end : usable d = true → ∃ c rest, lineterminator d = String c rest ∧ (c = nl ∨ c = cr).
Proof.
  unfold usable. rewrite andb_true_iff, orb_true_iff, !String.eqb_eq. intros [_ [-> | ->]]; eauto.
Qed.

(** A byte order mark can only be part of the first line. *)
Lemma drop_in_line b h t : usable d = true → str_mem nl b = false → str_mem cr b = false →
  String.prefix b (h +:+ lineterminator d +:+ t) = true → one_line h = true →
  ∃ h', one_line h' = true ∧ str_drop (String.length b) (h +:+ lineterminator d +:+ t) = h' +:+ lineterminator d +:+ t.
Proof.
  intros Hu. destruct (line_end Hu) as (e & rest & E & He). revert h. induction b as [|c b IH]; intros h; cbn [str_mem].
  - intros. exists h. by rewrite str_drop_0.
  - intros [Hn Hbn]%orb_false_iff [Hc Hbc]%orb_false_iff. destruct h as [|x h].
    + rewrite E. cbn. destruct (Ascii.ascii_dec c e) as [->|]; [|done].
      destruct He as [-> | ->]; rewrite Ascii.eqb_refl in *; done.
    + cbn [String.append String.prefix String.length str_drop]. destruct (Ascii.ascii_dec c x); [|done].
      intros Hp Hh. apply IH; try done. apply one_line_iff in Hh. cbn in Hh. apply one_line_iff.
      by destruct Hh as [[_ ?]%orb_false_iff [_ ?]%orb_false_iff].
Qed.

Lemma bom_in_line h t : usable d = true → one_line h = true → let text := h +:+ lineterminator d +:+ t in
  ∃ h', one_line h' = true ∧ str_drop (bom_length text) text = h' +:+ lineterminator d +:+ t.
Proof.
  intros Hu Hh. cbv zeta. unfold bom_length. destruct (String.prefix _ _) eqn:E1; [by eapply drop_in_line in E1|].
  destruct (String.prefix (bytes [255; 254]) _) eqn:E2; [by eapply drop_in_line in E2|].
  destruct (String.prefix (bytes [254; 255]) _) eqn:E3; [by eapply drop_in_line in E3|].
  exists h. by rewrite str_drop_0.
Qed.

Lemma output_text names all rows : output (writeRows d rows (new_writer d names all)) =
  line_text d all names +:+ lineterminator d +:+ rows_text d all names rows.
Proof. rewrite writeRows_eq. cbn. by rewrite <- !str_app_assoc. Qed.

(** A text written by the writer and read by the reader with the same column
    names: the reader starts after the header, and any number of rows read are the
    first rows written, in order, every value trimmed and without its quotes, and
    the empty text where a row had none.  This holds for line ends of Unix and
    Windows, with or without quoting of everything, when names and values have no
    line ends, quotes in values are doubled, and the text has four bytes or more. *)
Theorem dict_roundtrip (names : list string) (all : bool) (rows : list (gmap string string)) (n : nat)
  (Husable : usable d = true) (Hne : names ≠ []) (Hnames : Forall (λ f, one_line f = true) names)
  (Hrows : Forall (λ row, Forall (λ f, one_line f = true ∧ quotable d f = true) (row_values names row)) rows)
  (Hlength : (4 ≤ String.length (output (writeRows d rows (new_writer d names all))))%nat) :
  let w := writeRows d rows (new_writer d names all) in
  getWrittenRows w = 1 + Z.of_nat (length rows) ∧
  ∃ r, new_reader d (output w) names = Ok r ∧
    ∃ r' got, readRows trim d n r = (r', Ok got) ∧ Forall2 (reread trim d names) (take n rows) got.
Proof.
  cbv zeta. rewrite output_text in *. split; [by rewrite writeRows_eq|].
  destruct (bom_in_line (line_text d all names) (rows_text d all names rows) Husable) as (h & Hh & Hdrop).
  { by apply line_text_one_line. }
  unfold new_reader. destruct names as [|nm names]; [done|]. eexists. split; [done|].
  unfold skipHeader. cbn [detectEncoding fieldnames upd]. rewrite bool_decide_eq_false_2 by done.
  rewrite (readNextLine_at d h (rows_text d all (nm :: names) rows) _ Husable Hh).
  2: { unfold detectEncoding. cbn [content stream upd]. apply Nat.ltb_ge in Hlength. by rewrite Hlength, Hdrop. }
  destruct (read_rows_written trim d all (nm :: names) rows n
              ((detectEncoding (mkReader (nm :: names) (line_text d all (nm :: names) +:+ lineterminator d +:+ rows_text d all (nm :: names) rows)
                 (Some (line_text d all (nm :: names) +:+ lineterminator d +:+ rows_text d all (nm :: names) rows)) 0 NONE true))
               <| stream := Some (rows_text d all (nm :: names) rows) |> <| line_number ::= Z.succ |>)
              ∅ [] Husable) as (r' & got & Hr & Hgot); try done.
  by exists r', got.
Qed.
End roundtrip.

(** What the pair does not keep: quotes are lost; a file of three bytes has no
    rows; with [ignore_errors], a line with the wrong number of fields counts as
    the row before it once more; [Quoting::ALL] quotes nothing. *)
Theorem dict_losses (trim : string → string) (Htrim : ∀ s, str_mem " "%char s = false → trim s = s) :
  let d := default_dict_dialect in
  let reading d text names := match new_reader d text names with Ok r => (readRows trim d 5 r).2 | Throw e => Throw e end in
  dict_parseLine trim d (wrap d false (escape d ("5" +:+ one quote +:+ "scope"))) = ["5scope"%string] ∧
  reading d ("a" +:+ one nl +:+ "1") ["a"%string] = Ok [] ∧
  reading (mkDictDialect "," quote true false (one nl) MINIMAL 8192 true true)
      ("a,b" +:+ one nl +:+ "1,2" +:+ one nl +:+ "3" +:+ one nl) ["a"%string; "b"%string]
    = Ok (replicate 2 {[ "a"%string := "1"%string; "b"%string := "2"%string ]}) ∧
  wrap (mkDictDialect "," quote true false (one nl) ALL 8192 true false) false
    (escape (mkDictDialect "," quote true false (one nl) ALL 8192 true false) "abc") = "abc"%string.
Proof.
  cbv zeta. split_and!; try reflexivity.
  - vm_compute. by rewrite Htrim.
  - vm_compute. by rewrite !Htrim.
Qed.

(** * Witness *)

Definition demo_dict_rows : list (gmap string string) :=
  [{[ "name"%string := "M31, Andromeda"%string; "note"%string := "big"%string ]}; {[ "name"%string := "M1"%string ]}].

Lemma dict_roundtrip_witness :
  let w := writeRows default_dict_dialect demo_dict_rows (new_writer default_dict_dialect ["name"%string; "note"%string] true) in
  getWrittenRows w = 3 ∧
  ∃ r, new_reader default_dict_dialect (output w) ["name"%string; "note"%string] = Ok r ∧
    ∃ r' got, readRows (λ s, s) default_dict_dialect 7 r = (r', Ok got) ∧
      Forall2 (reread (λ s, s) default_dict_dialect ["name"%string; "note"%string]) (take 7 demo_dict_rows) got.
Proof.
  apply (dict_roundtrip (λ s, s) default_dict_dialect ["name"%string; "note"%string] true demo_dict_rows 7).
  - reflexivity.
  - done.
  - repeat constructor.
  - repeat constructor.
  - vm_compute. lia.
Defined.
