(* ===== verification/InterpreterPool.v ===== *)
(** * InterpreterPool: Python tasks on worker threads

    Models class InterpreterPool of src/src/script/interpreter_pool.hpp and
    interpreter_pool.cpp: the queue of prioritized tasks, the workers, the futures
    handed out, the interpreters to borrow, shutdown and statistics.  A worker
    takes a task, runs it and accounts for it in three steps, between which
    anything else may happen; waiting for the workers is the step [shutdown_end],
    possible when all have stopped.  What a task comes to is an argument of the step
    that ends it: a result, a std::exception, or an exception that escapes and ends
    the program; a task may also never end ([worker_hang]).  A call of [acquire]
    that has taken an interpreter waits for the lock of Python with the mutex held,
    and as long as it does no step that needs the mutex happens ([python_wait]);
    when Python gives its lock is open.  The queue is that of EventLoop.v, whose
    order of equivalent elements is open.  Left out: modules and paths of Python;
    counters are not bounded. *)

From S2P Require Import Prelude EventLoop.

Local Open Scope Z_scope.

(** ** Data *)

Inductive InterpreterPoolError :=
| Success | PoolNotInitialized | PoolExhausted | TaskQueueFull | ExecutionFailed | Timeout | Cancelled
| GILAcquisitionFailed | InvalidInterpreter | ShutdownInProgress | UnknownError.

Definition interpreterPoolErrorToString (e : InterpreterPoolError) : string :=
  match e with
  | Success => "Success"
  | PoolNotInitialized => "Pool not initialized"
  | PoolExhausted => "Pool exhausted"
  | TaskQueueFull => "Task queue full"
  | ExecutionFailed => "Execution failed"
  | Timeout => "Operation timed out"
  | Cancelled => "Operation cancelled"
  | GILAcquisitionFailed => "GIL acquisition failed"
  | InvalidInterpreter => "Invalid interpreter"
  | ShutdownInProgress => "Shutdown in progress"
  | UnknownError => "Unknown error"
  end.

Inductive TaskPriority := Low | NormalPriority | High | Critical.
Definition priority_value (p : TaskPriority) : Z :=
  match p with Low => 0 | NormalPriority => 5 | High => 10 | Critical => 15 end.

Record InterpreterPoolConfig := mkPoolConfig {
  poolSize : nat;
  maxQueuedTasks : nat;
  taskTimeout : Z;
  workerThreads : nat
}.
Definition default_pool_config : InterpreterPoolConfig := mkPoolConfig 4 1000 30000 0.

Section pool.
(** The tasks, the objects of Python, and doubles. *)
Context {Fn V : Type} (null : V) `{FO : Floats F} `{PQ : PriorityQueue} `{HI : !HashIter nat}.

Record PythonTaskResult := mkTaskResult {
  success : bool;
  result_value : V;
  error : string;
  executionTime : Z
}.
Definition failed_result (message : string) : PythonTaskResult := mkTaskResult false null message 0.

Record PrioritizedTask := mkPTask {
  task : Fn;
  promise : nat;
  task_priority : TaskPriority;
  submitTime : Z;
  sequenceNumber : Z
}.

(** [PrioritizedTask::operator<]. *)
Definition PrioritizedTask_lt (a b : PrioritizedTask) : bool :=
  if negb (priority_value (task_priority a) =? priority_value (task_priority b))
  then priority_value (task_priority a) <? priority_value (task_priority b)
  else submitTime b <? submitTime a.

(** A future that nobody will set any more is [Broken]. *)
Inductive future_state := Unready | Ready (r : PythonTaskResult) | Broken.

(** A worker looks for a task, runs one, or has run one and accounts for it. *)
Inductive worker :=
| Looking | Running (t : PrioritizedTask) | Accounting (succeeded : bool) | Stopped
| Hung (t : PrioritizedTask).            (* in a task that never ends *)

Record InterpreterPoolStats := mkPoolStats {
  totalTasks : Z;
  successfulTasks : Z;
  failedTasks : Z;
  cancelledTasks : Z;
  currentQueuedTasks : Z;
  availableInterpreters : Z;
  busyInterpreters : Z;
  averageExecutionTimeMs : F;
  maxExecutionTimeMs : F
}.
Definition no_stats : InterpreterPoolStats := mkPoolStats 0 0 0 0 0 0 0 f_zero f_zero.
#[export] Instance InterpreterPoolStats_eta : Eta InterpreterPoolStats := λ s,
  mkPoolStats (totalTasks s) (successfulTasks s) (failedTasks s) (cancelledTasks s) (currentQueuedTasks s)
    (availableInterpreters s) (busyInterpreters s) (averageExecutionTimeMs s) (maxExecutionTimeMs s).

(** [joining] is the argument of a call of [shutdown] that waits for the workers;
    [waiters] counts the calls of [acquire] that wait for an interpreter;
    [python_wait]: a call of [acquire] holds the mutex and waits for Python's lock;
    [terminated]: an exception left a thread, which ends the program. *)
Record Pool := mkPool {
  pool_config : InterpreterPoolConfig;
  initialized : bool;
  shuttingDown : bool;
  available : gset nat;
  busy : gset nat;
  taskQueue : list PrioritizedTask;
  workers : list worker;
  futures : list future_state;
  sequenceCounter : Z;
  stats : InterpreterPoolStats;
  joining : option bool;
  waiters : nat;
  python_wait : bool;
  terminated : bool
}.
#[export] Instance Pool_eta : Eta Pool := λ p,
  mkPool (pool_config p) (initialized p) (shuttingDown p) (available p) (busy p) (taskQueue p) (workers p)
    (futures p) (sequenceCounter p) (stats p) (joining p) (waiters p) (python_wait p) (terminated p).

Definition new_pool (c : InterpreterPoolConfig) : Pool :=
  mkPool c false false ∅ ∅ [] [] [] 0 no_stats None 0 false false.

(** ** Starting *)

(** Is Python running, and how many threads can be started: an exception of the
    first that cannot leaves those before it running. *)
Definition initialize (python : bool) (threads : nat) (p : Pool) : Pool * result InterpreterPoolError unit :=
  if initialized p then (p, Ok tt)
  else if negb python then (p, Throw PoolNotInitialized)
  else
    let size := poolSize (pool_config p) in
    let p := p <| available ::= λ s, s ∪ list_to_set (seq 0 size) |> in
    let numWorkers := if (0 <? workerThreads (pool_config p))%nat then workerThreads (pool_config p) else size in
    let p := p <| workers ::= λ ws, ws ++ replicate (Nat.min numWorkers threads) Looking |> in
    if (numWorkers <=? threads)%nat then (p <| initialized := true |>, Ok tt) else (p, Throw PoolNotInitialized).

(** ** Tasks *)

Definition new_future (s : future_state) (p : Pool) : Pool * nat :=
  (p <| futures ::= λ l, l ++ [s] |>, length (futures p)).

(** The pool and the future of the task. *)
Definition submitTask (f : Fn) (priority : TaskPriority) (now : Z) (p : Pool) : Pool * nat :=
  if negb (initialized p) then new_future (Ready (failed_result "Pool not initialized")) p
  else if shuttingDown p then new_future (Ready (failed_result "Pool is shutting down")) p
  else if (maxQueuedTasks (pool_config p) <=? length (taskQueue p))%nat
       then new_future (Ready (failed_result "Task queue full")) p
  else
    let '(p, fut) := new_future Unready p in
    let ptask := mkPTask f fut priority now (sequenceCounter p) in
    (p <| sequenceCounter ::= Z.succ |> <| taskQueue ::= cons ptask |>, fut).

(** Dropping tasks breaks their promises. *)
Definition break_futures (l : list future_state) (ts : list PrioritizedTask) : list future_state :=
  foldl (λ l t, <[promise t := Broken]> l) l ts.
Definition drop_tasks (p : Pool) : Pool :=
  p <| futures ::= λ l, break_futures l (taskQueue p) |> <| taskQueue := [] |>
    <| stats ::= λ s, s <| cancelledTasks ::= Z.add (Z.of_nat (length (taskQueue p))) |> |>.
Definition cancelAllTasks (p : Pool) : Pool * nat := (drop_tasks p, length (taskQueue p)).

(** ** Workers *)

(** The worker's turn with the lock: it stops, goes on waiting, or takes a task. *)
Definition worker_take (w : nat) (p : Pool) : Pool :=
  match workers p !! w with
  | Some Looking =>
      match pq_pop PrioritizedTask_lt (taskQueue p) with
      | None => if shuttingDown p then p <| workers ::= <[w := Stopped]> |> else p
      | Some (t, rest) => p <| taskQueue := rest |> <| workers ::= <[w := Running t]> |>
      end
  | _ => p
  end.

(** What a task comes to: a result, a std::exception with its text, or an
    exception that no handler takes. *)
Inductive task_outcome := Returned (r : PythonTaskResult) | Raised (what : string) | Escaped.
Definition outcome_result (o : task_outcome) : option PythonTaskResult :=
  match o with Returned r => Some r | Raised what => Some (failed_result what) | Escaped => None end.

(** The closure that [submitTask] put around the task. *)
Definition worker_run (w : nat) (o : task_outcome) (p : Pool) : Pool :=
  match workers p !! w with
  | Some (Running t) =>
      match outcome_result o with
      | Some r => p <| futures ::= <[promise t := Ready r]> |> <| workers ::= <[w := Accounting (success r)]> |>
      | None => p <| terminated := true |>
      end
  | _ => p
  end.

(** The task never ends. *)
Definition worker_hang (w : nat) (p : Pool) : Pool :=
  match workers p !! w with
  | Some (Running t) => p <| workers ::= <[w := Hung t]> |>
  | _ => p
  end.

Definition account (ok : bool) (elapsedMs : Z) (s : InterpreterPoolStats) : InterpreterPoolStats :=
  let s := s <| totalTasks ::= Z.succ |> in
  let s := if ok then s <| successfulTasks ::= Z.succ |> else s <| failedTasks ::= Z.succ |> in
  let ms := f_of_Z elapsedMs in
  let s := s <| averageExecutionTimeMs :=
    f_div (f_add (f_mul (averageExecutionTimeMs s) (f_of_Z (totalTasks s - 1))) ms) (f_of_Z (totalTasks s)) |> in
  if f_ltb (maxExecutionTimeMs s) ms then s <| maxExecutionTimeMs := ms |> else s.

Definition worker_account (w : nat) (elapsedMs : Z) (p : Pool) : Pool :=
  match workers p !! w with
  | Some (Accounting ok) => p <| stats ::= account ok elapsedMs |> <| workers ::= <[w := Looking]> |>
  | _ => p
  end.

(** ** Interpreters *)

(** The pointer in a guard: [acquire] passes the address of the Impl object as that
    of a pool. *)
Inductive pointer := ToPool | ToImpl.
Record InterpreterGuard := mkGuard { guard_pool : option pointer; guard_index : nat; guard_valid : bool }.

(** [Got g] is what the call will return when Python has given its lock. *)
Inductive acquired := Got (g : InterpreterGuard) | Waits | Refused (e : InterpreterPoolError).

Definition take_interpreter (p : Pool) : Pool * acquired :=
  match iter_set (available p) with
  | [] => (p, Waits)
  | index :: _ =>
      (p <| available ::= λ s, s ∖ {[index]} |> <| busy ::= λ s, s ∪ {[index]} |> <| python_wait := true |>, Got (mkGuard (Some ToImpl) index true))
  end.

Definition acquire (p : Pool) : Pool * acquired :=
  if negb (initialized p) then (p, Refused PoolNotInitialized)
  else if shuttingDown p then (p, Refused ShutdownInProgress)
  else
    let '(p, a) := take_interpreter p in
    (match a with Waits => p <| waiters ::= S |> | _ => p end, a).

(** Python gives its lock to the call, which then gives back the mutex. *)
Definition acquire_python (p : Pool) : Pool := p <| python_wait := false |>.

(** A waiting call wakes up, because its time is over or for another reason. *)
Definition acquire_wake (timed_out : bool) (p : Pool) : Pool * acquired :=
  let '(p, a) :=
    if timed_out then (p, Refused Timeout)
    else if shuttingDown p then (p, Refused ShutdownInProgress)
    else take_interpreter p in
  (match a with Waits => p | _ => p <| waiters ::= Nat.pred |> end, a).

Definition release (index : nat) (p : Pool) : Pool :=
  if bool_decide (index ∈ busy p) then
    p <| busy ::= λ s, s ∖ {[index]} |> <| available ::= λ s, s ∪ {[index]} |>
  else p.

Definition isValid (g : InterpreterGuard) : bool := guard_valid g && bool_decide (is_Some (guard_pool g)).

(** [None] is a call through a pointer to no pool. *)
Definition guard_release (g : InterpreterGuard) (p : Pool) : option (InterpreterGuard * Pool) :=
  if guard_valid g then
    match guard_pool g with
    | None => Some (g, p)
    | Some ToPool => Some (mkGuard None (guard_index g) false, release (guard_index g) p)
    | Some ToImpl => None
    end
  else Some (g, p).

(** Moving a guard: the new one and what the old one becomes. *)
Definition guard_move (g : InterpreterGuard) : InterpreterGuard * InterpreterGuard :=
  (g, mkGuard None (guard_index g) false).

(** ** Shutdown *)

Definition shutdown_begin (waitForTasks : bool) (p : Pool) : Pool :=
  if negb (initialized p) || shuttingDown p then p
  else p <| shuttingDown := true |> <| joining := Some waitForTasks |>.

Definition all_stopped (p : Pool) : bool := forallb (λ w, match w with Stopped => true | _ => false end) (workers p).

(** The rest of [shutdown] when the workers have been joined. *)
Definition shutdown_end (p : Pool) : Pool :=
  match joining p with
  | Some waitForTasks =>
      if all_stopped p then
        let p := p <| workers := [] |> in
        let p := if waitForTasks then p else drop_tasks p in
        p <| initialized := false |> <| joining := None |>
      else p
  | None => p
  end.

(** ** The rest *)

Definition isInitialized (p : Pool) : bool := initialized p.
Definition isShuttingDown (p : Pool) : bool := shuttingDown p.
Definition availableCount (p : Pool) : nat := size (available p).
Definition busyCount (p : Pool) : nat := size (busy p).
Definition pendingTaskCount (p : Pool) : nat := length (taskQueue p).
Definition getStatistics (p : Pool) : InterpreterPoolStats :=
  (stats p) <| currentQueuedTasks := Z.of_nat (length (taskQueue p)) |>
    <| availableInterpreters := Z.of_nat (size (available p)) |> <| busyInterpreters := Z.of_nat (size (busy p)) |>.
Definition resetStatistics (p : Pool) : Pool := p <| stats := no_stats |>.
Definition setMaxQueueSize (n : nat) (p : Pool) : Pool :=
  p <| pool_config ::= λ c, mkPoolConfig (poolSize c) n (taskTimeout c) (workerThreads c) |>.
Definition setDefaultTimeout (ms : Z) (p : Pool) : Pool :=
  p <| pool_config ::= λ c, mkPoolConfig (poolSize c) (maxQueuedTasks c) ms (workerThreads c) |>.

(** [execute]: what is known of the future when the time is over; [None] is the
    exception of a broken promise. *)
Definition execute_result (fut : nat) (p : Pool) : option (result InterpreterPoolError PythonTaskResult) :=
  match futures p !! fut with
  | Some (Ready r) => Some (Ok r)
  | Some Broken => None
  | _ => Some (Throw Timeout)
  end.

(** ** Runs *)

Inductive op :=
| OInitialize (python : bool) (threads : nat)
| OSubmit (f : Fn) (priority : TaskPriority) (now : Z)
| OCancelAll
| OTake (w : nat)
| ORun (w : nat) (o : task_outcome)
| OHang (w : nat)
| OAccount (w : nat) (elapsedMs : Z)
| OAcquire
| OGotPython
| OWake (timed_out : bool)
| ORelease (index : nat)
| OShutdown (waitForTasks : bool)
| OShutdownEnd
| OResetStatistics
| OSetMaxQueueSize (n : nat)
| OSetDefaultTimeout (ms : Z).

(** Does the step need the mutex? *)
Definition locks (o : op) (p : Pool) : bool :=
  match o with
  | ORun _ _ | OHang _ | OGotPython => false
  | OShutdownEnd => match joining p with Some waitForTasks => negb waitForTasks | None => false end
  | _ => true
  end.

Definition free_step (o : op) (p : Pool) : Pool :=
  match o with
  | OInitialize python threads => (initialize python threads p).1
  | OSubmit f priority now => (submitTask f priority now p).1
  | OCancelAll => (cancelAllTasks p).1
  | OTake w => worker_take w p
  | ORun w o => worker_run w o p
  | OHang w => worker_hang w p
  | OAccount w ms => worker_account w ms p
  | OAcquire => (acquire p).1
  | OGotPython => acquire_python p
  | OWake timed_out => if (0 <? waiters p)%nat then (acquire_wake timed_out p).1 else p
  | ORelease index => release index p
  | OShutdown waitForTasks => shutdown_begin waitForTasks p
  | OShutdownEnd => shutdown_end p
  | OResetStatistics => resetStatistics p
  | OSetMaxQueueSize n => setMaxQueueSize n p
  | OSetDefaultTimeout ms => setDefaultTimeout ms p
  end.

(** What needs the mutex does not happen while it is held. *)
Definition step (o : op) (p : Pool) : Pool :=
  if terminated p || (python_wait p && locks o p) then p else free_step o p.
Definition run (ops : list op) (p : Pool) : Pool := foldl (λ p o, step o p) p ops.
End pool.

(** * Properties *)

Lemma insert_at_Permutation {A} (l : list A) w (a b : A) : l !! w = Some a →
  l ≡ₚ a :: delete w l ∧ <[w := b]> l ≡ₚ b :: delete w l.
Proof.
  intros Hw. split; [by apply delete_Permutation|].
  rewrite insert_take_drop by by eapply lookup_lt_Some. rewrite delete_take_drop.
  symmetry. apply Permutation_middle.
Qed.

Lemma list_elem_of_insert_or {A} (l : list A) w (a b : A) : a ∈ <[w := b]> l → a = b ∨ a ∈ l.
Proof.
  intros [i Hi]%list_elem_of_lookup. destruct (decide (i = w)) as [->|Hne].
  - apply list_lookup_insert_Some in Hi as [(_ & <- & _)|[? _]]; [by left|done].
  - rewrite list_lookup_insert_ne in Hi by done. right. by eapply list_elem_of_lookup_2.
Qed.

Lemma forallb_false_exists {A} (f : A → bool) l : forallb f l = false → ∃ x, x ∈ l ∧ f x = false.
Proof.
  induction l as [|x l IH]; cbn; [done|]. destruct (f x) eqn:E; cbn.
  - intros (y & Hy & Hf)%IH. exists y. by split; [right|].
  - intros _. exists x. by split; [left|].
Qed.

Section properties.
Context {Fn V : Type} (null : V) `{FO : Floats F} `{PQ : PriorityQueue} `{HI : !HashIter nat}.
Abbreviation Pool := (Pool (Fn := Fn) (V := V) (F := F)).
Abbreviation step := (step (Fn := Fn) null).
Abbreviation run := (run (Fn := Fn) null).
Abbreviation op := (op (Fn := Fn) (V := V)).
Abbreviation PrioritizedTask := (PrioritizedTask (Fn := Fn)).
Abbreviation worker := (worker (Fn := Fn)).

(** The promises that somebody will still set. *)
Definition running_promise (w : worker) : option nat :=
  match w with Running t | Hung t => Some (promise t) | _ => None end.
Definition pending (p : Pool) : list nat := map promise (taskQueue p) ++ omap running_promise (workers p).

(** ** Workers change one at a time *)

Lemma pending_worker (p : Pool) w a b : workers p !! w = Some a →
  omap running_promise (workers p) ≡ₚ option_list (running_promise a) ++ omap running_promise (delete w (workers p)) ∧
  omap running_promise (<[w := b]> (workers p)) ≡ₚ option_list (running_promise b) ++ omap running_promise (delete w (workers p)).
Proof.
  intros Hw. destruct (insert_at_Permutation _ w a b Hw) as [E1 E2]. rewrite E2. rewrite E1 at 1. cbn.
  by destruct (running_promise a), (running_promise b).
Qed.

(** ** The invariant *)

Record pool_ok (p : Pool) : Prop := {
  ok_futures : ∀ i, futures p !! i = Some Unready ↔ i ∈ pending p;
  ok_nodup : NoDup (pending p);
  ok_stats : totalTasks (stats p) = successfulTasks (stats p) + failedTasks (stats p);
  ok_stopped : Stopped ∈ workers p → shuttingDown p = true ∧ taskQueue p = [];
  ok_joining : is_Some (joining p) → initialized p = true ∧ shuttingDown p = true;
  ok_range : ∀ i, i ∈ available p ∪ busy p → (i < poolSize (pool_config p))%nat;
  ok_cover : initialized p = true → ∀ i, (i < poolSize (pool_config p))%nat → i ∈ available p ∪ busy p;
  ok_disjoint : shuttingDown p = false → available p ## busy p ∧ (initialized p = false → busy p = ∅);
  ok_waiters : (0 < waiters p)%nat → initialized p = true ∨ shuttingDown p = true
}.

Lemma new_pool_ok c : pool_ok (new_pool c).
Proof.
  split; cbn; try done; try lia; try set_solver.
  constructor.
Qed.

(** Operations that leave the tasks alone. *)
Lemma same_tasks_ok (p q : Pool) : pool_ok p → futures q = futures p → taskQueue q = taskQueue p → workers q = workers p →
  (∀ i, futures q !! i = Some Unready ↔ i ∈ pending q) ∧ NoDup (pending q).
Proof. intros [] E1 E2 E3. unfold pending in *. by rewrite E1, E2, E3. Qed.

Lemma new_future_ok s p : pool_ok p → s ≠ Unready → pool_ok (new_future s p).1.
Proof.
  intros [] Hs. split; cbn; try done. intros i. unfold pending in *. cbn. rewrite <- ok_futures0.
  rewrite lookup_app_Some. split; [|by left]. intros [H|[_ H]]; [done|].
  apply list_lookup_singleton_Some in H as [_ ?]. done.
Qed.

Lemma pending_lt p i : pool_ok p → i ∈ pending p → (i < length (futures p))%nat.
Proof. intros [] Hi%ok_futures0. by eapply lookup_lt_Some. Qed.

Lemma submitTask_ok f pr now p : pool_ok p → pool_ok (submitTask null f pr now p).1.
Proof.
  intros Hp. unfold submitTask. destruct (negb (initialized p)) eqn:Hi; [by apply new_future_ok|].
  destruct (shuttingDown p) eqn:Hs; [by apply new_future_ok|]. destruct (_ <=? _)%nat; [by apply new_future_ok|].
  pose proof (pending_lt p (length (futures p)) Hp) as Hlt. destruct Hp. cbn. split; cbn; try done.
  - intros i. unfold pending in *. cbn. rewrite elem_of_cons, <- ok_futures0, lookup_app_Some, list_lookup_singleton_Some.
    split; [intros [?|[? ?]]; [by right|left; lia]|intros [->|?]; [right; split; [lia|split; [lia|done]]|by left]].
  - unfold pending in *. cbn. constructor; [|done]. intros H. specialize (Hlt H). lia.
  - intros Hst. destruct (ok_stopped0 Hst) as [H _]. by rewrite H in Hs.
Qed.

Lemma break_futures_lookup (l : list (future_state (V := V))) (ts : list PrioritizedTask) i : (∀ t, t ∈ ts → (promise t < length l)%nat) →
  break_futures l ts !! i = if bool_decide (i ∈ map promise ts) then Some Broken else l !! i.
Proof.
  unfold break_futures. revert l. induction ts as [|t ts IH]; intros l Hl; [done|]. cbn [foldl map].
  rewrite IH by (intros t' Ht'; rewrite length_insert; apply Hl; by right).
  destruct (decide (i ∈ map promise ts)) as [Hi|Hi].
  - rewrite !bool_decide_eq_true_2; [done|by right|done].
  - rewrite (bool_decide_eq_false_2 (i ∈ map promise ts)) by done. destruct (decide (i = promise t)) as [->|Hne].
    + rewrite list_lookup_insert_eq, bool_decide_eq_true_2; [done|by left|]. apply Hl. by left.
    + rewrite list_lookup_insert_ne, bool_decide_eq_false_2 by (rewrite ?elem_of_cons; naive_solver). done.
Qed.

Lemma queued_lt p t : pool_ok p → t ∈ taskQueue p → (promise t < length (futures p))%nat.
Proof.
  intros Hp Ht. apply pending_lt; [done|]. unfold pending. apply elem_of_app. left. by apply list_elem_of_fmap_2.
Qed.

Lemma drop_tasks_ok p : pool_ok p → pool_ok (drop_tasks p).
Proof.
  intros Hp. pose proof (λ t, queued_lt p t Hp) as Hlt. destruct Hp. split; cbn; try done.
  - intros i. rewrite break_futures_lookup by done. unfold pending in *. cbn.
    case_bool_decide as Hi.
    + split; [done|]. intros H. apply NoDup_app in ok_nodup0 as (_ & Hd & _). by destruct (Hd i Hi).
    + rewrite ok_futures0, elem_of_app. naive_solver.
  - unfold pending in *. cbn. by apply NoDup_app in ok_nodup0 as (_ & _ & ?).
  - intros Hst. by destruct (ok_stopped0 Hst).
Qed.

Lemma initialize_ok py n p : pool_ok p → pool_ok (initialize py n p).1.
Proof.
  intros Hp. unfold initialize. destruct (initialized p) eqn:Hi; [done|]. destruct (negb py); [done|]. destruct Hp.
  assert (∀ k, omap running_promise (workers p ++ replicate k Looking) = omap running_promise (workers p)) as Hr.
  { intros k. rewrite omap_app. replace (omap running_promise (replicate k Looking)) with (@nil nat); [apply app_nil_r|].
    by induction k. }
  assert (∀ k, Stopped ∈ workers p ++ replicate k Looking → Stopped ∈ workers p) as Hst.
  { intros k [H|H]%elem_of_app; [done|]. by apply elem_of_replicate in H as [? _]. }
  assert (∀ i, i ∈ available p ∪ list_to_set (seq 0 (poolSize (pool_config p))) ∪ busy p
               ↔ i ∈ available p ∪ busy p ∨ (i < poolSize (pool_config p))%nat) as Hin.
  { intros i. rewrite !elem_of_union, elem_of_list_to_set, elem_of_seq. lia || naive_solver lia. }
  destruct (_ <=? _)%nat; split; cbn; unfold pending in *; cbn; rewrite ?Hr; try done; eauto.
  all: try (intros Hj; by destruct (ok_joining0 Hj)).
  all: try (intros Hs; destruct (ok_disjoint0 Hs) as [_ Hb]; rewrite Hb by done; split; [set_solver|done]).
  all: try (intros i H%Hin; destruct H; [by apply ok_range0|done]).
  all: intros _ i H; apply Hin; by right.
Qed.

(** A worker takes a task from the queue, or stops. *)
Lemma worker_take_ok w p : pool_ok p → pool_ok (worker_take w p).
Proof.
  intros Hp. unfold worker_take. destruct (workers p !! w) as [[]|] eqn:Hw; try done.
  destruct (pq_pop PrioritizedTask_lt (taskQueue p)) as [[t rest]|] eqn:Hpop.
  - apply pq_pop_perm in Hpop. destruct (pending_worker p w Looking (Running t) Hw) as [E1 E2]. destruct Hp.
    assert (pending (p <| taskQueue := rest |> <| workers ::= <[w := Running t]> |>) ≡ₚ pending p) as E.
    { unfold pending. cbn. rewrite E2, E1, Hpop. cbn. by rewrite Permutation_middle. }
    split; cbn; try done.
    + intros i. by rewrite E.
    + by rewrite E.
    + intros [Hs|Hs]%list_elem_of_insert_or; [done|]. destruct (ok_stopped0 Hs) as [_ Hq]. rewrite Hq in Hpop.
      by apply Permutation_nil_cons in Hpop.
  - assert (taskQueue p = []) as Hq by (destruct (taskQueue p) eqn:E; [done|by apply pq_pop_cons in Hpop]).
    destruct (shuttingDown p) eqn:Hs; [|done]. destruct (pending_worker p w Looking Stopped Hw) as [E1 E2]. destruct Hp.
    assert (pending (p <| workers ::= <[w := Stopped]> |>) ≡ₚ pending p) as E by (unfold pending; cbn; by rewrite E2, E1).
    split; cbn; try done; intros; rewrite ?E; eauto.
Qed.

Lemma worker_run_ok w o p : pool_ok p → pool_ok (worker_run null w o p).
Proof.
  intros Hp. unfold worker_run. destruct (workers p !! w) as [[| t | | |]|] eqn:Hw; try done.
  destruct (outcome_result null o) as [res|]; [|by destruct Hp].
  destruct (pending_worker p w (Running t) (Accounting (success res)) Hw) as [E1 E2].
  pose proof (pending_lt p (promise t) Hp) as Hlt. destruct Hp. unfold pending in *. cbn in E1, E2.
  rewrite E1 in ok_nodup0, Hlt. setoid_rewrite E1 in ok_futures0. rewrite <- Permutation_middle in ok_nodup0, Hlt.
  apply NoDup_cons in ok_nodup0 as [Hnew Hnd].
  split; cbn; unfold pending; cbn; try done.
  - intros i. rewrite E2. destruct (decide (i = promise t)) as [->|Hne].
    + rewrite list_lookup_insert_eq by (apply Hlt; by left). split; [done|]. intros H. by destruct Hnew.
    + rewrite list_lookup_insert_ne, ok_futures0 by done. rewrite <- Permutation_middle, elem_of_cons. naive_solver.
  - by rewrite E2.
  - intros [Hs|Hs]%list_elem_of_insert_or; [done|]. by apply ok_stopped0.
Qed.

Lemma worker_hang_ok w p : pool_ok p → pool_ok (worker_hang w p).
Proof.
  intros Hp. unfold worker_hang. destruct (workers p !! w) as [[| t | | |]|] eqn:Hw; try done.
  destruct (pending_worker p w (Running t) (Hung t) Hw) as [E1 E2]. destruct Hp.
  assert (pending (p <| workers ::= <[w := Hung t]> |>) ≡ₚ pending p) as E by (unfold pending; cbn; by rewrite E2, E1).
  split; cbn; try done; intros; rewrite ?E; eauto.
  apply list_elem_of_insert_or in H as [?|?]; [done|by apply ok_stopped0].
Qed.

Lemma worker_account_ok w ms p : pool_ok p → pool_ok (worker_account w ms p).
Proof.
  intros Hp. unfold worker_account. destruct (workers p !! w) as [[| |b| |]|] eqn:Hw; try done.
  destruct (pending_worker p w (Accounting b) Looking Hw) as [E1 E2]. destruct Hp.
  assert (pending (p <| stats ::= account b ms |> <| workers ::= <[w := Looking]> |>) ≡ₚ pending p) as E.
  { unfold pending. cbn. by rewrite E2, E1. }
  split; cbn; try done; intros; rewrite ?E; eauto.
  - unfold account. destruct b, (f_ltb _ _); cbn; lia.
  - apply list_elem_of_insert_or in H as [?|?]; [done|by apply ok_stopped0].
Qed.
(** ** Interpreters *)

Lemma iter_first (s : gset nat) i l : iter_set s = i :: l → i ∈ s.
Proof. intros E. apply elem_of_iter_set. rewrite E. by left. Qed.

Lemma move_in (a b : gset nat) i j : i ∈ a → j ∈ a ∖ {[i]} ∪ (b ∪ {[i]}) ↔ j ∈ a ∪ b.
Proof. intros Hi. destruct (decide (j = i)) as [->|]; set_solver. Qed.

Lemma take_interpreter_ok p : pool_ok p → (initialized p = true ∨ shuttingDown p = true) → pool_ok (take_interpreter p).1.
Proof.
  intros Hp Hon. unfold take_interpreter. destruct (iter_set (available p)) as [|i l] eqn:E; [done|].
  apply iter_first in E. destruct Hp. split; cbn; try done.
  - intros j Hj%move_in; eauto.
  - intros Hi j Hj. apply move_in; eauto.
  - intros Hs. destruct (ok_disjoint0 Hs) as [Hd _]. split; [set_solver|]. intros Hf. destruct Hon; congruence.
Qed.

Lemma set_waiters_ok p n : pool_ok p → ((0 < n)%nat → initialized p = true ∨ shuttingDown p = true) →
  pool_ok (p <| waiters := n |>).
Proof. intros [] Hn. by split. Qed.

Lemma acquire_ok p : pool_ok p → pool_ok (acquire p).1.
Proof.
  intros Hp. unfold acquire. destruct (initialized p) eqn:Hi; [|done]. destruct (shuttingDown p) eqn:Hs; [done|].
  cbn. pose proof (take_interpreter_ok p Hp (or_introl Hi)) as H.
  assert ((take_interpreter p).2 = Waits → (take_interpreter p).1 = p) as Hw.
  { unfold take_interpreter. by destruct (iter_set _). }
  destruct (take_interpreter p) as [q []]; cbn in *; try done. rewrite Hw by done.
  apply (set_waiters_ok p (S (waiters p))); auto.
Qed.

Lemma acquire_wake_ok b p : pool_ok p → (0 < waiters p)%nat → pool_ok (acquire_wake b p).1.
Proof.
  intros Hp Hw. pose proof (ok_waiters _ Hp Hw) as Hon.
  assert (∀ q : Pool, pool_ok q → waiters q = waiters p → initialized q = initialized p → shuttingDown q = shuttingDown p →
    pool_ok (q <| waiters ::= Nat.pred |>)) as Hpred.
  { intros q Hq _ E1 E2. apply (set_waiters_ok q (Nat.pred (waiters q))); [done|]. intros _. by rewrite E1, E2. }
  pose proof (take_interpreter_ok p Hp Hon) as H.
  unfold acquire_wake. destruct b; [by apply Hpred|]. destruct (shuttingDown p) eqn:Hs; [by apply Hpred|].
  unfold take_interpreter in *.
  destruct (iter_set (available p)); [done|]. by apply Hpred.
Qed.

Lemma release_ok i p : pool_ok p → pool_ok (release i p).
Proof.
  intros Hp. unfold release. case_bool_decide as Hi; [|done]. destruct Hp.
  assert (∀ j, j ∈ available p ∪ {[i]} ∪ busy p ∖ {[i]} ↔ j ∈ available p ∪ busy p) as Hin.
  { intros j. destruct (decide (j = i)) as [->|]; set_solver. }
  split; cbn; try done.
  - intros j Hj%Hin. eauto.
  - intros Hon j Hj. apply Hin; eauto.
  - intros Hs. destruct (ok_disjoint0 Hs) as [Hd Hb]. split; [set_solver|]. intros Hn. rewrite (Hb Hn). set_solver.
Qed.

(** ** Shutdown *)

Lemma shutdown_begin_ok b p : pool_ok p → pool_ok (shutdown_begin b p).
Proof.
  intros Hp. unfold shutdown_begin. destruct (initialized p) eqn:Hi; [|done]. destruct (shuttingDown p) eqn:Hs; [done|].
  destruct Hp. split; cbn; try done; eauto. intros Hst. split; [done|]. by apply ok_stopped0.
Qed.

Lemma all_stopped_none (p : Pool) w : all_stopped p = true → w ∈ workers p → w = Stopped.
Proof.
  unfold all_stopped. rewrite forallb_forall. intros H Hw%list_elem_of_In. apply H in Hw. by destruct w.
Qed.

Lemma stopped_no_promise (p : Pool) : all_stopped p = true → omap running_promise (workers p) = [].
Proof.
  intros H. apply elem_of_nil_inv. intros i (w & Hw & Hi)%list_elem_of_omap.
  apply (all_stopped_none p w H) in Hw as ->. done.
Qed.

(** When the workers are gone there is nothing left to drop, if there were any. *)
Lemma stopped_queue p : pool_ok p → all_stopped p = true → workers p ≠ [] → taskQueue p = [].
Proof.
  intros Hp Ha Hw. destruct (workers p) as [|w ws] eqn:E; [done|]. apply (ok_stopped _ Hp). rewrite E.
  assert (w ∈ workers p) as H by (rewrite E; by left). apply (all_stopped_none p w Ha) in H as ->. by left.
Qed.

Lemma shutdown_end_ok p : pool_ok p → pool_ok (shutdown_end p).
Proof.
  intros Hp. unfold shutdown_end. destruct (joining p) as [b|] eqn:Hj; [|done]. destruct (all_stopped p) eqn:Ha; [|done].
  assert (pool_ok (p <| workers := [] |>)) as Hq.
  { pose proof (stopped_no_promise p Ha) as E. destruct Hp. split; cbn; try done.
    - intros i. unfold pending in *. cbn. by rewrite E in *.
    - unfold pending in *. cbn. by rewrite E in *.
    - by intros H%elem_of_nil. }
  assert (∀ q : Pool, pool_ok q → shuttingDown q = true → pool_ok (q <| initialized := false |> <| joining := None |>)) as Hoff.
  { intros q [] Hs. split; cbn; try done; rewrite ?Hs; try done; try (by intros []). by right. }
  assert (shuttingDown p = true) as Hs by by apply (ok_joining _ Hp).
  destruct b; [by apply Hoff|]. apply Hoff; [|done]. by apply drop_tasks_ok.
Qed.

Lemma frame_ok (p : Pool) c s : pool_ok p → poolSize c = poolSize (pool_config p) →
  totalTasks s = successfulTasks s + failedTasks s → pool_ok (p <| pool_config := c |> <| stats := s |>).
Proof. intros [] Hc Hs. split; cbn; rewrite ?Hc; done. Qed.

Lemma step_cases o p (P : Pool → Prop) : P p → P (free_step null o p) → P (step o p).
Proof. unfold InterpreterPool.step. by destruct (_ || _). Qed.

Lemma step_ok o p : pool_ok p → pool_ok (step o p).
Proof.
  intros Hp. apply step_cases; [done|]. destruct o; cbn [free_step].
  - by apply initialize_ok.
  - by apply submitTask_ok.
  - by apply drop_tasks_ok.
  - by apply worker_take_ok.
  - by apply worker_run_ok.
  - by apply worker_hang_ok.
  - by apply worker_account_ok.
  - by apply acquire_ok.
  - by destruct Hp.
  - destruct (0 <? waiters p)%nat eqn:E; [|done]. apply Nat.ltb_lt in E. by apply acquire_wake_ok.
  - by apply release_ok.
  - by apply shutdown_begin_ok.
  - by apply shutdown_end_ok.
  - by apply (frame_ok p (pool_config p) no_stats).
  - by apply (frame_ok p (pool_config (setMaxQueueSize n p)) (stats p)), ok_stats.
  - by apply (frame_ok p (pool_config (setDefaultTimeout ms p)) (stats p)), ok_stats.
Qed.

Lemma run_ok ops p : pool_ok p → pool_ok (run ops p).
Proof. revert p. induction ops as [|o ops IH]; intros p Hp; [done|]. by apply IH, step_ok. Qed.
(** ** Futures are set once *)

Lemma step_final o p i s : pool_ok p → futures p !! i = Some s → s ≠ Unready → futures (step o p) !! i = Some s.
Proof.
  intros Hp Hi Hs.
  assert (∀ s' : future_state, (futures p ++ [s']) !! i = Some s) as Happ.
  { intros s'. rewrite lookup_app_l; [done|]. by eapply lookup_lt_Some. }
  assert (futures (drop_tasks p) !! i = Some s) as Hdrop.
  { cbn. rewrite break_futures_lookup by (intros; by apply queued_lt). case_bool_decide as Hq; [|done].
    assert (i ∈ pending p) as H by (unfold pending; apply elem_of_app; by left).
    apply (ok_futures _ Hp) in H. congruence. }
  apply step_cases; [done|]. destruct o; cbn [free_step]; try done.
  - unfold initialize. destruct (initialized p), python; cbn; try done. by destruct (_ <=? _)%nat.
  - unfold submitTask. destruct (negb (initialized p)); [apply Happ|]. destruct (shuttingDown p); [apply Happ|].
    destruct (_ <=? _)%nat; apply Happ.
  - unfold worker_take. destruct (workers p !! w) as [[]|]; try done. destruct (pq_pop _ _) as [[]|]; [done|].
    by destruct (shuttingDown p).
  - unfold worker_run. destruct (workers p !! w) as [[| t | | |]|] eqn:Hw; try done.
    destruct (outcome_result null o); [|done]. cbn. rewrite list_lookup_insert_ne; [done|]. intros E.
    assert (promise t ∈ pending p) as H.
    { unfold pending. apply elem_of_app. right. apply list_elem_of_omap. exists (Running t). split; [|done].
      by eapply list_elem_of_lookup_2. }
    apply (ok_futures _ Hp) in H. congruence.
  - unfold worker_hang. by destruct (workers p !! w) as [[]|].
  - unfold worker_account. by destruct (workers p !! w) as [[]|].
  - unfold acquire, take_interpreter. destruct (initialized p), (shuttingDown p), (iter_set (available p)); done.
  - destruct (0 <? waiters p)%nat; [|done]. unfold acquire_wake, take_interpreter.
    destruct timed_out, (shuttingDown p), (iter_set (available p)); done.
  - unfold release. by case_bool_decide.
  - unfold shutdown_begin. by destruct (_ || _).
  - unfold shutdown_end. destruct (joining p) as [[]|], (all_stopped p); done.
Qed.

Lemma run_final ops p i s : pool_ok p → futures p !! i = Some s → s ≠ Unready → futures (run ops p) !! i = Some s.
Proof.
  revert p. induction ops as [|o ops IH]; intros p Hp Hi Hs; [done|].
  apply IH; [by apply step_ok|by apply step_final|done].
Qed.

(** After any sequence of calls and worker steps on a new pool: an unset future
    belongs to exactly one task, in the queue or on a worker, and every other future
    keeps its value for good; the tasks counted are the successes and the failures;
    the interpreters lent and those free are the configured ones, and none is both
    unless the pool was shut down. *)
Theorem pool_invariant (c : InterpreterPoolConfig) (ops : list op) :
  let p := run ops (new_pool c) in
  (∀ i, futures p !! i = Some Unready ↔ i ∈ pending p) ∧ NoDup (pending p) ∧
  (∀ i s ops', futures p !! i = Some s → s ≠ Unready → futures (run ops' p) !! i = Some s) ∧
  totalTasks (stats p) = successfulTasks (stats p) + failedTasks (stats p) ∧
  (∀ i, i ∈ available p ∪ busy p → (i < poolSize (pool_config p))%nat) ∧
  (initialized p = true → ∀ i, (i < poolSize (pool_config p))%nat → i ∈ available p ∪ busy p) ∧
  (shuttingDown p = false → available p ## busy p).
Proof.
  intros p. assert (pool_ok p) as Hp by apply run_ok, new_pool_ok. split_and!.
  - apply ok_futures, Hp.
  - apply ok_nodup, Hp.
  - intros i s ops'. by apply run_final.
  - apply ok_stats, Hp.
  - apply ok_range, Hp.
  - apply ok_cover, Hp.
  - intros Hs. by apply (ok_disjoint _ Hp).
Qed.

(** ** Draining *)

(** The steps of the workers that are possible when the mutex is free: a running
    task may end with a result or a std::exception. *)
Definition enabled (o : op) (p : Pool) : bool :=
  match o with
  | OTake w =>
      match workers p !! w with
      | Some Looking => negb (length (taskQueue p) =? 0)%nat || shuttingDown p
      | _ => false
      end
  | ORun w o =>
      match workers p !! w with Some (Running _) => bool_decide (is_Some (outcome_result null o)) | _ => false end
  | OAccount w _ => match workers p !! w with Some (Accounting _) => true | _ => false end
  | _ => false
  end.
Fixpoint schedule (ops : list op) (p : Pool) : bool :=
  match ops with
  | [] => true
  | o :: ops' => enabled o p && schedule ops' (step o p)
  end.

(** The program runs and no call of [acquire] holds the mutex. *)
Definition flowing (p : Pool) : Prop := terminated p = false ∧ python_wait p = false.
Definition hung (w : worker) : bool := match w with Hung _ => true | _ => false end.

Definition stop_weight (p : Pool) : nat := if shuttingDown p then 1 else 0.
Definition weight (k : nat) (w : worker) : nat :=
  match w with Looking => k | Running _ => 2 + k | Accounting _ => 1 + k | Stopped | Hung _ => 0 end.
(** How many steps the workers can still make. *)
Definition work_left (p : Pool) : nat :=
  3 * length (taskQueue p) + sum_list_with (weight (stop_weight p)) (workers p).

Lemma weight_worker (p : Pool) k w a b : workers p !! w = Some a → ∃ rest,
  sum_list_with (weight k) (workers p) = (weight k a + rest)%nat ∧
  sum_list_with (weight k) (<[w := b]> (workers p)) = (weight k b + rest)%nat.
Proof.
  intros Hw. destruct (insert_at_Permutation _ w a b Hw) as [E1 E2]. exists (sum_list_with (weight k) (delete w (workers p))).
  split; [exact (sum_list_with_Permutation_proper (weight k) _ _ E1)|exact (sum_list_with_Permutation_proper (weight k) _ _ E2)].
Qed.

Lemma hung_worker (l : list worker) w a b i x : l !! w = Some a → hung a = false → hung b = false → hung x = true →
  <[w := b]> l !! i = Some x ↔ l !! i = Some x.
Proof.
  intros Hw Ha Hb Hx. destruct (decide (i = w)) as [->|Hi]; [|by rewrite list_lookup_insert_ne].
  rewrite list_lookup_insert_eq by by eapply lookup_lt_Some. rewrite Hw. split; intros [= <-]; congruence.
Qed.

(** What a step of a worker changes. *)
Record progress (p q : Pool) : Prop := {
  pr_work : S (work_left q) = work_left p;
  pr_workers : length (workers q) = length (workers p);
  pr_flowing : flowing q;
  pr_hung i x : hung x = true → workers q !! i = Some x ↔ workers p !! i = Some x
}.

Lemma flowing_step o p : flowing p → step o p = free_step null o p.
Proof. intros [H1 H2]. unfold InterpreterPool.step. by rewrite H1, H2. Qed.

Lemma enabled_step o p : flowing p → enabled o p = true → progress p (step o p).
Proof.
  intros Hf. rewrite flowing_step by done.
  destruct o; cbn [enabled free_step]; try done.
  - unfold worker_take. destruct (workers p !! w) as [[]|] eqn:Hw; try done. intros He.
    destruct (pq_pop PrioritizedTask_lt (taskQueue p)) as [[t rest]|] eqn:Hpop.
    + apply pq_pop_perm in Hpop. split; cbn; [|by rewrite length_insert|done|intros i x; by eapply hung_worker].
      unfold work_left. cbn [taskQueue workers upd].
      change (stop_weight (p <| taskQueue := rest |> <| workers ::= <[w := Running t]> |>)) with (stop_weight p).
      destruct (weight_worker p (stop_weight p) w _ (Running t) Hw) as (r & -> & ->). rewrite Hpop. cbn. lia.
    + assert (taskQueue p = []) as Hq by (destruct (taskQueue p) eqn:E; [done|by apply pq_pop_cons in Hpop]).
      rewrite Hq in He. cbn in He. rewrite He.
      split; cbn; [|by rewrite length_insert|done|intros i x; by eapply hung_worker].
      unfold work_left. cbn [taskQueue workers upd].
      change (stop_weight (p <| workers ::= <[w := Stopped]> |>)) with (stop_weight p).
      destruct (weight_worker p (stop_weight p) w _ Stopped Hw) as (r & -> & ->).
      unfold stop_weight. rewrite He. cbn. lia.
  - unfold worker_run. destruct (workers p !! w) as [[| t | | |]|] eqn:Hw; try done.
    destruct (outcome_result null o) as [res|]; [|done]. intros _.
    split; cbn; [|by rewrite length_insert|done|intros i x; by eapply hung_worker].
    unfold work_left. cbn [taskQueue workers futures upd].
    match goal with |- context [stop_weight ?q] => change (stop_weight q) with (stop_weight p) end.
    destruct (weight_worker p (stop_weight p) w _ (Accounting (success res)) Hw) as (r & E1 & E2).
    cbn in *. rewrite E1, E2. lia.
  - unfold worker_account. destruct (workers p !! w) as [[| |b| |]|] eqn:Hw; try done. intros _.
    split; cbn; [|by rewrite length_insert|done|intros i x; by eapply hung_worker].
    unfold work_left. cbn [taskQueue workers futures upd].
    match goal with |- context [stop_weight ?q] => change (stop_weight q) with (stop_weight p) end.
    destruct (weight_worker p (stop_weight p) w _ Looking Hw) as (r & E1 & E2).
    cbn in *. rewrite E1, E2. lia.
Qed.

(** What a schedule changes. *)
Lemma schedule_progress ops p : flowing p → schedule ops p = true →
  (length ops + work_left (run ops p))%nat = work_left p ∧ length (workers (run ops p)) = length (workers p)
  ∧ ∀ i x, hung x = true → workers (run ops p) !! i = Some x ↔ workers p !! i = Some x.
Proof.
  revert p. induction ops as [|o ops IH]; intros p Hf; [done|]. cbn [schedule]. intros [Ho Hops]%andb_true_iff.
  destruct (enabled_step o p Hf Ho) as [E1 E2 Hf' Hh]. destruct (IH _ Hf' Hops) as (E3 & E4 & Hh').
  change (run (o :: ops) p) with (run ops (step o p)). cbn [length]. split_and!; [lia|lia|].
  intros i x Hx. by rewrite Hh', Hh.
Qed.

Definition can_move (p : Pool) (w : worker) : bool :=
  match w with
  | Looking => negb (length (taskQueue p) =? 0)%nat || shuttingDown p
  | Running _ | Accounting _ => true
  | Stopped | Hung _ => false
  end.
(** No worker can move. *)
Definition quiet (p : Pool) : Prop := ∀ o, enabled o p = false.

Lemma enabled_iff (p : Pool) : (∃ o, enabled o p = true) ↔ ∃ w, w ∈ workers p ∧ can_move p w = true.
Proof.
  split.
  - intros [o Ho]. destruct o; cbn in Ho; try done; destruct (workers p !! w) as [x|] eqn:Hw; try done;
      (exists x; split; [by eapply list_elem_of_lookup_2|by destruct x]).
  - intros (x & [w Hw]%list_elem_of_lookup & Hx). destruct x; try done.
    + exists (OTake w). cbn. by rewrite Hw.
    + exists (ORun w (Raised "")). cbn. by rewrite Hw.
    + exists (OAccount w 0). cbn. by rewrite Hw.
Qed.

Lemma enabled_or_quiet (p : Pool) : (∃ o, enabled o p = true) ∨ quiet p.
Proof.
  destruct (decide (Exists (λ w, can_move p w = true) (workers p))) as [H|H].
  - left. by apply enabled_iff, Exists_exists.
  - right. intros o. destruct (enabled o p) eqn:Ho; [|done]. destruct H. apply Exists_exists, enabled_iff. eauto.
Qed.

(** The end of draining: the tasks that never end apart, nothing is left. *)
Record drained (p : Pool) : Prop := {
  dr_queue : taskQueue p = [];
  dr_futures i : futures p !! i = Some Unready → ∃ t, Hung t ∈ workers p ∧ promise t = i;
  dr_stopped w : shuttingDown p = true → w ∈ workers p → w = Stopped ∨ hung w = true
}.

Lemma quiet_drained p w : pool_ok p → w ∈ workers p → hung w = false → quiet p → drained p.
Proof.
  intros Hp Hw Hh Hq.
  assert (∀ w, w ∈ workers p → can_move p w = false) as Hno.
  { intros x Hx. destruct (can_move p x) eqn:E; [|done]. destruct (proj2 (enabled_iff p)) as [o Ho]; [eauto|].
    by rewrite Hq in Ho. }
  assert (taskQueue p = []) as Hempty.
  { pose proof (Hno w Hw) as Hm. destruct w; try done.
    - cbn in Hm. apply orb_false_iff in Hm as [Hl%negb_false_iff%Nat.eqb_eq _]. by apply nil_length_inv.
    - by apply (ok_stopped _ Hp). }
  split; [done| |].
  - intros i Hi%(ok_futures _ Hp). unfold pending in Hi. rewrite Hempty in Hi. cbn in Hi.
    apply list_elem_of_omap in Hi as (x & Hx & Hxi). specialize (Hno x Hx). destruct x; try done.
    injection Hxi as <-. eauto.
  - intros x Hs Hx. specialize (Hno x Hx). destruct x; cbn in Hno; rewrite ?Hs, ?orb_true_r in Hno; auto; done.
Qed.

(** [C33] Draining.  From any state of a pool where a worker is not in a task that
    never ends and no call of [acquire] holds the mutex, the workers alone, if each
    task they run ends with a result or a std::exception, make at most three steps
    per queued task and three per worker, in whatever order; when none of them can
    move, the queue is empty, the only futures not set are those of the tasks that
    were known never to end, and in a shutdown all other workers have stopped; and
    such an end is reached. *)
Theorem pool_drains (c : InterpreterPoolConfig) (before : list op) (w : worker)
    (Hw : w ∈ workers (run before (new_pool c))) (Hhung : hung w = false)
    (Hflow : flowing (run before (new_pool c))) :
  let p := run before (new_pool c) in
  (work_left p ≤ 3 * length (taskQueue p) + 3 * length (workers p))%nat ∧
  (∀ ops, schedule ops p = true → (length ops ≤ work_left p)%nat) ∧
  (∀ ops, schedule ops p = true → quiet (run ops p) →
     taskQueue (run ops p) = [] ∧
     (∀ i, futures (run ops p) !! i = Some Unready → ∃ t, Hung t ∈ workers p ∧ promise t = i) ∧
     (shuttingDown (run ops p) = true → ∀ x, x ∈ workers (run ops p) → x = Stopped ∨ hung x = true ∧ x ∈ workers p)) ∧
  (∃ ops, schedule ops p = true ∧ quiet (run ops p)).
Proof.
  cbv zeta. assert (pool_ok (run before (new_pool c))) as Hp by apply run_ok, new_pool_ok.
  revert Hw Hflow Hp. generalize (run before (new_pool c)). clear c before. intros p Hw Hf Hp. split_and!.
  - unfold work_left. enough (∀ k ws, (k ≤ 1)%nat → sum_list_with (weight k) ws ≤ 3 * length ws)%nat as H.
    { specialize (H (stop_weight p) (workers p) ltac:(unfold stop_weight; destruct (shuttingDown p); lia)). lia. }
    intros k ws Hk. induction ws as [|[] ws IH]; cbn; lia.
  - intros ops Hops. apply schedule_progress in Hops; [lia|done].
  - intros ops Hops Hq. destruct (schedule_progress ops p Hf Hops) as (_ & El & Hh).
    assert (∃ x, x ∈ workers (run ops p) ∧ hung x = false) as (x & Hx & Hxh).
    { apply list_elem_of_lookup in Hw as [i Hi]. destruct (lookup_lt_is_Some_2 (workers (run ops p)) i) as [x Hx].
      { rewrite El. by eapply lookup_lt_Some. }
      exists x. split; [by eapply list_elem_of_lookup_2|]. apply not_true_is_false. intros Hxh.
      apply (Hh i x Hxh) in Hx. congruence. }
    assert (∀ x, hung x = true → x ∈ workers (run ops p) → x ∈ workers p) as Hold.
    { intros y Hy [i Hi]%list_elem_of_lookup. eapply list_elem_of_lookup_2. by apply (Hh i y Hy). }
    destruct (quiet_drained _ x ltac:(by apply run_ok) Hx Hxh Hq) as [H1 H2 H3]. split_and!; [done| |].
    + intros i Hi. destruct (H2 i Hi) as (t & Ht & <-). exists t. split; [|done]. by apply (Hold (Hung t)).
    + intros Hs y Hy. destruct (H3 y Hs Hy) as [?|Hyh]; [by left|right; split; [done|by apply Hold]].
  - clear Hw. remember (work_left p) as n eqn:Hn. revert p Hf Hp Hn. induction n as [n IH] using lt_wf_ind. intros p Hf Hp ->.
    destruct (enabled_or_quiet p) as [[o Ho]|Hq]; [|by exists []].
    destruct (enabled_step o p Hf Ho) as [E _ Hf' _]. destruct (IH (work_left (step o p)) ltac:(lia) (step o p)) as (ops & H1 & H2);
      [done|by apply step_ok|done|]. exists (o :: ops). split; [|done]. cbn. by rewrite Ho, H1.
Qed.

(** ** The lock of Python *)

Lemma waiting_step o p : python_wait p = true → o ≠ OGotPython →
  python_wait (step o p) = true ∧ taskQueue (step o p) = taskQueue p.
Proof.
  intros Hw Ho. unfold InterpreterPool.step. rewrite Hw. destruct (terminated p); [done|]. cbn [orb andb].
  destruct (locks o p) eqn:Hl; [done|]. destruct o; try done; cbn [free_step].
  - unfold worker_run. destruct (workers p !! w) as [[]|]; try done. by destruct (outcome_result null o).
  - unfold worker_hang. by destruct (workers p !! w) as [[]|].
  - unfold shutdown_end. cbn in Hl. destruct (joining p) as [[]|]; [|done..]. by destruct (all_stopped p).
Qed.

(** As long as a call of [acquire] waits for the lock of Python, no queued task is
    taken and no future of one is set, whatever else is called. *)
Theorem acquire_blocks_pool (c : InterpreterPoolConfig) (before ops : list op) (t : PrioritizedTask) :
  let p := run before (new_pool c) in
  python_wait p = true → OGotPython ∉ ops → t ∈ taskQueue p →
  taskQueue (run ops p) = taskQueue p ∧ futures (run ops p) !! promise t = Some Unready.
Proof.
  cbv zeta. assert (pool_ok (run before (new_pool c))) as Hp by apply run_ok, new_pool_ok.
  revert Hp. generalize (run before (new_pool c)). clear c before. intros p Hp Hw Hops Ht.
  assert (taskQueue (run ops p) = taskQueue p) as E.
  { clear Ht Hp. revert p Hw. induction ops as [|o ops IH]; intros p Hw; [done|]. apply not_elem_of_cons in Hops as [Ho Hops].
    destruct (waiting_step o p Hw (not_eq_sym Ho)) as [Hw' <-]. by apply IH. }
  split; [done|]. apply ok_futures; [by apply run_ok|]. unfold pending. rewrite E. apply elem_of_app. left.
  by apply list_elem_of_fmap_2.
Qed.

(** ** Order *)

Lemma PrioritizedTask_lt_strict_weak : strict_weak (PrioritizedTask_lt (Fn := Fn)).
Proof.
  split; [intros a|intros a b c..]; unfold PrioritizedTask_lt; [rewrite Z.eqb_refl; apply Z.ltb_irrefl|..].
  - destruct (Z.eqb_spec (priority_value (task_priority a)) (priority_value (task_priority b))),
      (Z.eqb_spec (priority_value (task_priority b)) (priority_value (task_priority c))),
      (Z.eqb_spec (priority_value (task_priority a)) (priority_value (task_priority c))); cbn; rewrite ?Z.ltb_lt; lia.
  - destruct (Z.eqb_spec (priority_value (task_priority b)) (priority_value (task_priority a))),
      (Z.eqb_spec (priority_value (task_priority c)) (priority_value (task_priority b))),
      (Z.eqb_spec (priority_value (task_priority c)) (priority_value (task_priority a))); cbn; rewrite ?Z.ltb_ge; lia.
Qed.

(** A worker takes a task of the highest priority in the queue, and of those one
    submitted first. *)
Theorem worker_takes_best (p : Pool) w t : workers p !! w = Some Looking → workers (worker_take w p) !! w = Some (Running t) →
  ∀ t', t' ∈ taskQueue p → priority_value (task_priority t') ≤ priority_value (task_priority t) ∧
    (priority_value (task_priority t') = priority_value (task_priority t) → submitTime t ≤ submitTime t').
Proof.
  intros Hw Ht t' Ht'. unfold worker_take in Ht. rewrite Hw in Ht.
  destruct (pq_pop PrioritizedTask_lt (taskQueue p)) as [[x rest]|] eqn:E.
  - cbn in Ht. rewrite list_lookup_insert_eq in Ht by by eapply lookup_lt_Some. injection Ht as ->.
    pose proof (pq_pop_top _ _ _ _ PrioritizedTask_lt_strict_weak E t' Ht') as H. unfold PrioritizedTask_lt in H.
    destruct (Z.eqb_spec (priority_value (task_priority t)) (priority_value (task_priority t'))) as [Heq|Hneq];
      cbn in H; apply Z.ltb_ge in H; lia.
  - destruct (shuttingDown p); [|congruence]. cbn in Ht. by rewrite list_lookup_insert_eq in Ht by by eapply lookup_lt_Some.
Qed.
(** ** Shutdown *)

(** A shutdown that has waited for its workers finds an empty queue, so it drops
    nothing, whether it was asked to wait for the tasks or not. *)
Theorem shutdown_cancels_nothing (c : InterpreterPoolConfig) (ops : list op) (b : bool) :
  let p := run ops (new_pool c) in
  workers p ≠ [] → joining p = Some b → all_stopped p = true →
  futures (shutdown_end p) = futures p ∧ stats (shutdown_end p) = stats p ∧ pending p = [] ∧
  initialized (shutdown_end p) = false ∧ shutdown_end p = shutdown_end (p <| joining := Some (negb b) |>).
Proof.
  cbv zeta. assert (pool_ok (run ops (new_pool c))) as Hp by apply run_ok, new_pool_ok.
  revert Hp. generalize (run ops (new_pool c)). clear. intros p Hp Hne Hj Ha.
  assert (taskQueue p = []) as Hq by by apply stopped_queue.
  assert (pending p = []) as Hpend by (unfold pending; by rewrite Hq, stopped_no_promise).
  assert (∀ b', shutdown_end (p <| joining := Some b' |>) = p <| workers := [] |> <| initialized := false |> <| joining := None |>) as Hend.
  { intros b'. unfold shutdown_end. cbn [joining upd]. change (all_stopped (p <| joining := Some b' |>)) with (all_stopped p).
    rewrite Ha. destruct b'; [done|]. clear -Hq. destruct p as [? ? ? ? ? ? ? ? ? s ? ?]. cbn in *. subst. by destruct s. }
  assert (p <| joining := Some b |> = p) as Eb by (destruct p; cbn in *; by subst).
  pose proof (Hend b) as E1. rewrite Eb in E1. rewrite (Hend (negb b)), E1. done.
Qed.

Lemma step_shuttingDown o p : shuttingDown p = true → shuttingDown (step o p) = true.
Proof.
  intros Hs. apply step_cases; [done|]. destruct o; cbn [free_step]; try done.
  - unfold initialize. destruct (initialized p), python; cbn; try done. by destruct (_ <=? _)%nat.
  - unfold submitTask. rewrite Hs. destruct (negb (initialized p)); exact Hs.
  - unfold worker_take. destruct (workers p !! w) as [[]|]; try done. destruct (pq_pop _ _) as [[]|]; [done|].
    destruct (shuttingDown p) eqn:E; cbn; congruence.
  - unfold worker_run. destruct (workers p !! w) as [[]|]; try done. by destruct (outcome_result null o).
  - unfold worker_hang. by destruct (workers p !! w) as [[]|].
  - unfold worker_account. by destruct (workers p !! w) as [[]|].
  - unfold acquire. rewrite Hs. by destruct (initialized p).
  - destruct (0 <? waiters p)%nat; [|done]. unfold acquire_wake. rewrite Hs. by destruct timed_out.
  - unfold release. by case_bool_decide.
  - unfold shutdown_begin. by destruct (_ || _).
  - unfold shutdown_end. destruct (joining p) as [[]|], (all_stopped p); done.
Qed.

(** A pool that was told to shut down never works again: even when [initialize] is
    called once more and answers success, every task is refused, no interpreter is
    lent, and a second [shutdown] does nothing, so that it leaves the new threads
    running. *)
Theorem shutdown_is_final (p : Pool) (ops : list op) (Hs : shuttingDown p = true) :
  let q := run ops p in
  (∀ f pr now, ∃ message, futures (submitTask null f pr now q).1 !! (submitTask null f pr now q).2
                          = Some (Ready (failed_result null message))) ∧
  (∃ e, (acquire q).2 = Refused e) ∧ (∀ b, shutdown_begin b q = q) ∧
  (initialized q = false → ∀ n,
    (if (0 <? workerThreads (pool_config q))%nat then workerThreads (pool_config q) else poolSize (pool_config q)) ≤ n →
    (initialize true n q).2 = Ok tt)%nat.
Proof.
  cbv zeta. assert (shuttingDown (run ops p) = true) as Hq.
  { revert p Hs. induction ops as [|o ops IH]; intros p Hs; [done|]. by apply IH, step_shuttingDown. }
  generalize dependent (run ops p). clear. intros q Hq. split_and!.
  - intros f pr now. unfold submitTask. rewrite Hq. destruct (negb (initialized q)); cbn;
      eexists; rewrite lookup_app_r, Nat.sub_diag by done; done.
  - unfold acquire. rewrite Hq. destruct (initialized q); cbn; eauto.
  - intros b. unfold shutdown_begin. by rewrite Hq, orb_true_r.
  - intros Hi n Hn. unfold initialize. rewrite Hi. cbn -[Nat.leb Nat.ltb]. apply Nat.leb_le in Hn. by rewrite Hn.
Qed.

(** ** Guards *)

(** The guard of an acquired interpreter cannot be released, nor destroyed, without a
    call through a pointer that is not one to a pool. *)
Theorem guard_release_undefined (p q p' : Pool) (g : InterpreterGuard) :
  acquire p = (q, Got g) → isValid g = true ∧ guard_release g p' = None ∧
    guard_release (guard_move g).1 p' = None ∧ guard_release (guard_move g).2 p' = Some ((guard_move g).2, p').
Proof.
  unfold acquire, take_interpreter. destruct (initialized p), (shuttingDown p), (iter_set (available p)); cbn; intros [= <- <-].
  done.
Qed.
End properties.

(** * Witness *)

(** Two tasks on one worker, the second more urgent, then a shutdown that does not
    wait for tasks. *)
Definition demo_before : list (op (Fn := string) (V := unit)) :=
  [OInitialize true 8; OSubmit "slow" Low 1; OSubmit "fast" Critical 2; OShutdown false].
Definition demo_config : InterpreterPoolConfig := mkPoolConfig 1 10 1000 1.
Abbreviation demo_run := (run (Fn := string) (F := Z) tt (FO := floats_Z) (PQ := first_queue) (HI := canonical_iter)).

Lemma pool_drains_witness :
  Looking ∈ workers (demo_run demo_before (new_pool (FO := floats_Z) demo_config)) ∧
  flowing (demo_run demo_before (new_pool (FO := floats_Z) demo_config)) ∧
  ∃ ops, schedule tt (FO := floats_Z) (PQ := first_queue) (HI := canonical_iter) ops
           (demo_run demo_before (new_pool (FO := floats_Z) demo_config)) = true.
Proof.
  assert (Looking ∈ workers (demo_run demo_before (new_pool (FO := floats_Z) demo_config))) as Hw by by left.
  assert (flowing (demo_run demo_before (new_pool (FO := floats_Z) demo_config))) as Hf by done.
  split; [exact Hw|]. split; [exact Hf|].
  destruct (pool_drains (Fn := string) tt (FO := floats_Z) (PQ := first_queue) (HI := canonical_iter) demo_config demo_before
              Looking Hw eq_refl Hf) as (_ & _ & _ & ops & H & _).
  by exists ops.
Defined.

(** The run to the end: the urgent task first, both futures set, nothing cancelled. *)
Example demo_pool :
  let q := demo_run (demo_before ++ [OTake 0; ORun 0 (Returned (mkTaskResult true tt "" 5)); OAccount 0 5;
                                     OTake 0; ORun 0 (Raised "boom"); OAccount 0 7; OTake 0; OShutdownEnd])
             (new_pool (FO := floats_Z) demo_config) in
  futures q = [Ready (mkTaskResult false tt "boom" 0); Ready (mkTaskResult true tt "" 5)] ∧
  (totalTasks (stats q), failedTasks (stats q), cancelledTasks (stats q)) = (2, 1, 0) ∧
  initialized q = false ∧ shuttingDown q = true.
Proof. vm_compute. done. Qed.

(** A call of [acquire] by another thread, made while a guard has Python's lock,
    holds the mutex: a task that is submitted then does not get into the queue. *)
Example demo_acquire_twice :
  let q := demo_run [OInitialize true 8; OAcquire; OGotPython; OAcquire; OSubmit "task" Low 1; OTake 0]
             (new_pool (FO := floats_Z) (mkPoolConfig 2 10 1000 1)) in
  python_wait q = true ∧ taskQueue q = [] ∧ futures q = [].
Proof. vm_compute. done. Qed.

(** An exception that is no std::exception ends the program, and a shutdown does
    not end while a task does not. *)
Example demo_bad_tasks :
  terminated (demo_run (demo_before ++ [OTake 0; ORun 0 Escaped]) (new_pool (FO := floats_Z) demo_config)) = true
  ∧ initialized (demo_run (demo_before ++ [OTake 0; OHang 0; OTake 0; OShutdownEnd]) (new_pool (FO := floats_Z) demo_config)) = true.
Proof. vm_compute. done. Qed.
