(* ===== verification/PluginLoader.v ===== *)
(** * PluginLoader: the plugins of the server

    Models class PluginLoader of src/src/server/plugin/plugin_loader.hpp and
    plugin_loader.cpp, with the metadata and states of plugin_interface.hpp and
    plugin_interface.cpp: loading a plugin file step by step, unloading and
    reloading, discovery, queries, the order of dependencies.  The module loader,
    the libraries and the plugin objects in them act on a world ([PluginHost]);
    they do not throw, and the table of plugins holds the only lasting reference to
    an object.  Left out: times, logging, and the methods that only hand a call
    with its answer to a command or controller plugin. *)

From S2P Require Import Prelude Digraph Text Json JsonCodec JsonTree.
From stdpp Require Import relations.

Local Open Scope Z_scope.

(** ** Data *)

Inductive PluginLoadError :=
| FileNotFound | InvalidPlugin | ApiVersionMismatch | DependencyMissing | InitializationFailed | AlreadyLoaded
| LoadFailed | SymbolNotFound.
#[export] Instance PluginLoadError_eq_dec : EqDecision PluginLoadError.
Proof. solve_decision. Defined.

Definition pluginLoadErrorToString (e : PluginLoadError) : string :=
  match e with
  | FileNotFound => "Plugin file not found"
  | InvalidPlugin => "Invalid plugin format"
  | ApiVersionMismatch => "Plugin API version mismatch"
  | DependencyMissing => "Plugin dependency missing"
  | InitializationFailed => "Plugin initialization failed"
  | AlreadyLoaded => "Plugin already loaded"
  | LoadFailed => "Plugin load failed"
  | SymbolNotFound => "Required symbol not found in plugin"
  end.

Inductive PluginState :=
| Unloaded | Loading | Loaded | Initialized | Running | Paused | Stopping | ErrorState | Disabled.
Definition pluginStateToString (s : PluginState) : string :=
  match s with
  | Unloaded => "unloaded" | Loading => "loading" | Loaded => "loaded" | Initialized => "initialized"
  | Running => "running" | Paused => "paused" | Stopping => "stopping" | ErrorState => "error" | Disabled => "disabled"
  end.

Record PluginMetadata := mkMetadata {
  meta_name : string;
  meta_version : string;
  meta_description : string;
  meta_author : string;
  meta_license : string;
  meta_homepage : string;
  meta_repository : string;
  meta_priority : Z;
  dependencies : list string;
  optionalDeps : list string;
  conflicts : list string;
  tags : list string;
  capabilities : list string
}.
Definition meta_hasCapability (m : PluginMetadata) (cap : string) : bool := bool_decide (cap ∈ capabilities m).

Section metadata.
Context {J F : Type} `{JsonTree J F}.

Definition json_strings (l : list string) : J := jt_array (map jt_string l).
Definition metadata_toJson (m : PluginMetadata) : J :=
  jt_object [("name", jt_string (meta_name m)); ("version", jt_string (meta_version m));
    ("description", jt_string (meta_description m)); ("author", jt_string (meta_author m));
    ("license", jt_string (meta_license m)); ("homepage", jt_string (meta_homepage m));
    ("repository", jt_string (meta_repository m)); ("priority", jt_int (meta_priority m));
    ("dependencies", json_strings (dependencies m)); ("optionalDeps", json_strings (optionalDeps m));
    ("conflicts", json_strings (conflicts m)); ("tags", json_strings (tags m));
    ("capabilities", json_strings (capabilities m))]%string.

(** The strings of an array; other elements, and members that are not arrays, are
    passed over. *)
Definition parseStringArray (j : J) (key : string) : list string :=
  match jt_find j key with
  | Some a => if jt_is_array a then omap jt_get_string (jt_elements a) else []
  | None => []
  end.
Definition metadata_fromJson (j : J) : result string PluginMetadata :=
  let text k d := jt_value jt_get_string d k j in
  let* name := text "name" "" in
  let* version := text "version" "1.0.0" in
  let* description := text "description" "" in
  let* author := text "author" "" in
  let* license := text "license" "" in
  let* homepage := text "homepage" "" in
  let* repository := text "repository" "" in
  let* prio := jt_value jt_get_int 0 "priority" j in
  Ok (mkMetadata name version description author license homepage repository prio
        (parseStringArray j "dependencies") (parseStringArray j "optionalDeps") (parseStringArray j "conflicts")
        (parseStringArray j "tags") (parseStringArray j "capabilities")).

Lemma parse_json_strings j key l : jt_find j key = Some (json_strings l) → parseStringArray j key = l.
Proof.
  intros E. unfold parseStringArray, json_strings in *. rewrite E. unfold jt_is_array, jt_elements. rewrite shape_array. clear E.
  induction l as [|s l IH]; [done|]. cbn. by rewrite get_string_law, IH.
Qed.

(** Metadata written as JSON are read back, with a priority that is an int. *)
Theorem plugin_metadata_roundtrip (m : PluginMetadata) : INT_MIN ≤ meta_priority m ≤ INT_MAX →
  metadata_fromJson (metadata_toJson m) = Ok m.
Proof.
  intros Hp. unfold metadata_fromJson. unfold metadata_toJson at 1 2 3 4 5 6 7 8. rewrite !value_object. cbn.
  rewrite !get_string_law, get_int_law by done. cbn.
  do 2 f_equal. destruct m. f_equal; apply parse_json_strings; unfold metadata_toJson; by rewrite find_object.
Qed.
End metadata.

Inductive PluginType := Command | Controller | Full | Unknown.

(** The modules with their functions, and the plugin objects: [W] is the world they
    act on, [I] the objects, [J] JSON documents. *)
Class PluginHost (W I J : Type) := {
  ph_load : string → string → W → W * bool;                 (* loadModule(path, name) *)
  ph_unload : string → W → W;                               (* unloadModule(name) *)
  ph_api_version : string → W → option Z;                   (* getPluginApiVersion(), if it is there *)
  ph_create : string → W → option (W * option I);           (* createPlugin(), if it is there; None inside is nullptr *)
  ph_destroy : I → W → W;                                   (* the last reference goes away *)
  ph_type : I → PluginType;                                 (* the dynamic casts *)
  ph_metadata : I → W → PluginMetadata;
  ph_initialize : I → J → W → W * bool;
  ph_shutdown : I → W → W;
  ph_state : I → W → PluginState;
  ph_pause : I → W → W * bool;
  ph_resume : I → W → W * bool;
  ph_updateConfig : I → J → W → W * bool;
  ph_validateConfig : I → J → W → bool * string;
  ph_actions : I → W → list string;
  ph_executeAction : I → string → J → W → W * J
}.

Section loader.
Context {W I J : Type} `{PluginHost W I J} `{HI : !HashIter string}.
(** [json::empty], and the object [{{key, value}}] of two strings. *)
Context (json_empty : J → bool) (json_pair : string → string → J).
(** Is there such a file; the files of a directory with their names. *)
Context (exists_file : string → bool) (listing : string → list (string * bool)).

Record LoadedPluginInfo := mkPluginInfo {
  pi_name : string;
  pi_path : string;
  instance : I;
  state : PluginState;
  config : J;
  group : string;
  callCount : Z;
  pi_type : PluginType
}.
#[export] Instance LoadedPluginInfo_eta : Eta LoadedPluginInfo := λ i,
  mkPluginInfo (pi_name i) (pi_path i) (instance i) (state i) (config i) (group i) (callCount i) (pi_type i).

Record PluginLoaderConfig := mkLoaderConfig {
  pluginDirectory : string;
  searchPaths : list string;
  apiVersion : Z
}.

Record PluginLoader := mkPluginLoader {
  loader_config : PluginLoaderConfig;
  world : W;
  loadedPlugins : gmap string LoadedPluginInfo;
  pluginConfigs : gmap string J
}.
#[export] Instance PluginLoader_eta : Eta PluginLoader := λ l,
  mkPluginLoader (loader_config l) (world l) (loadedPlugins l) (pluginConfigs l).

(** ** Kinds of plugins *)

Definition asCommandPlugin (info : LoadedPluginInfo) : option I :=
  match pi_type info with
  | Command | Full => match ph_type (instance info) with Command | Full => Some (instance info) | _ => None end
  | _ => None
  end.
Definition asControllerPlugin (info : LoadedPluginInfo) : option I :=
  match pi_type info with
  | Controller | Full => match ph_type (instance info) with Controller | Full => Some (instance info) | _ => None end
  | _ => None
  end.
Definition asFullPlugin (info : LoadedPluginInfo) : option I :=
  match pi_type info with
  | Full => match ph_type (instance info) with Full => Some (instance info) | _ => None end
  | _ => None
  end.

(** ** Loading *)

(** The stem of the file, without a leading "lib". *)
Definition plugin_name (path : string) : string :=
  let s := path_stem path in if String.prefix "lib" s then str_drop 3 s else s.

Definition loadPlugin (path : string) (cfg : J) (l : PluginLoader) : PluginLoader * result PluginLoadError LoadedPluginInfo :=
  let pluginName := plugin_name path in
  let fail w e := (l <| world := w |>, Throw e) in
  if negb (exists_file path) then fail (world l) FileNotFound
  else if bool_decide (is_Some (loadedPlugins l !! pluginName)) then fail (world l) AlreadyLoaded
  else
    let '(w, ok) := ph_load path pluginName (world l) in
    if negb ok then fail w LoadFailed
    else if match ph_api_version pluginName w with
            | Some v => negb (v =? apiVersion (loader_config l))
            | None => false
            end
    then fail (ph_unload pluginName w) ApiVersionMismatch
    else
      match ph_create pluginName w with
      | None => fail (ph_unload pluginName w) SymbolNotFound
      | Some (w, None) => fail (ph_unload pluginName w) InvalidPlugin
      | Some (w, Some plugin) =>
          let pluginConfig := if json_empty cfg then default cfg (pluginConfigs l !! pluginName) else cfg in
          let '(w, ok) := ph_initialize plugin pluginConfig w in
          if negb ok then fail (ph_destroy plugin (ph_unload pluginName w)) InitializationFailed
          else
            let info := mkPluginInfo pluginName path plugin (ph_state plugin w) pluginConfig "" 0 (ph_type plugin) in
            (l <| world := w |> <| loadedPlugins ::= <[pluginName := info]> |>
               <| pluginConfigs ::= λ m, if json_empty pluginConfig then m else <[pluginName := pluginConfig]> m |>,
             Ok info)
      end.

Definition getLibraryExtension : string := ".so".

Fixpoint first_existing (paths : list string) : option string :=
  match paths with
  | [] => None
  | p :: rest => if exists_file p then Some p else first_existing rest
  end.
Definition findPluginFile (name : string) (l : PluginLoader) : option string :=
  let candidates := [name +:+ getLibraryExtension; "lib" +:+ name +:+ getLibraryExtension] in
  first_existing (concat (map (λ dir, map (path_join dir) candidates)
                            (pluginDirectory (loader_config l) :: searchPaths (loader_config l)))).

Definition loadPluginByName (name : string) (cfg : J) (l : PluginLoader)
  : PluginLoader * result PluginLoadError LoadedPluginInfo :=
  match findPluginFile name l with
  | None => (l, Throw FileNotFound)
  | Some path => loadPlugin path cfg l
  end.

Definition unloadPlugin (name : string) (l : PluginLoader) : PluginLoader * result PluginLoadError bool :=
  match loadedPlugins l !! name with
  | None => (l, Throw FileNotFound)
  | Some info =>
      let w := ph_unload name (ph_destroy (instance info) (ph_shutdown (instance info) (world l))) in
      (l <| world := w |> <| loadedPlugins ::= delete name |>, Ok true)
  end.

Definition reloadPlugin (name : string) (l : PluginLoader) : PluginLoader * result PluginLoadError LoadedPluginInfo :=
  match loadedPlugins l !! name with
  | None => (l, Throw FileNotFound)
  | Some info =>
      match unloadPlugin name l with
      | (l, Throw e) => (l, Throw e)
      | (l, Ok _) => loadPlugin (pi_path info) (config info) l
      end
  end.

(** ** Discovery *)

Definition library_files (dir : string) : list string :=
  if exists_file dir then
    omap (λ e, if e.2 && String.eqb (path_extension e.1) getLibraryExtension then Some (path_join dir e.1) else None)
      (listing dir)
  else [].
Definition discoverPlugins (l : PluginLoader) : list string :=
  concat (map library_files (pluginDirectory (loader_config l) :: searchPaths (loader_config l))).

Definition load_one (empty_config : J) (acc : PluginLoader * nat) (path : string) : PluginLoader * nat :=
  let '(l, loaded) := acc in
  let '(l, r) := loadPlugin path empty_config l in (l, if is_ok r then S loaded else loaded).
Definition loadAllDiscovered (empty_config : J) (l : PluginLoader) : PluginLoader * nat :=
  foldl (load_one empty_config) (l, 0%nat) (discoverPlugins l).

Definition unloadAll (l : PluginLoader) : PluginLoader :=
  foldl (λ l name, (unloadPlugin name l).1) l (rev (iter_keys (loadedPlugins l))).

(** ** Queries *)

Definition isPluginLoaded (name : string) (l : PluginLoader) : bool := bool_decide (is_Some (loadedPlugins l !! name)).
Definition getPlugin (name : string) (l : PluginLoader) : option LoadedPluginInfo := loadedPlugins l !! name.
Definition getAllPlugins (l : PluginLoader) : list LoadedPluginInfo := (iter_map (loadedPlugins l)).*2.
Definition getCommandPlugins (l : PluginLoader) : list I := omap asCommandPlugin (getAllPlugins l).
Definition getControllerPlugins (l : PluginLoader) : list I := omap asControllerPlugin (getAllPlugins l).

Definition metadata_of (l : PluginLoader) (info : LoadedPluginInfo) : PluginMetadata := ph_metadata (instance info) (world l).

Definition validateDependencies (name : string) (l : PluginLoader) : bool :=
  match loadedPlugins l !! name with
  | None => false
  | Some info => forallb (λ dep, isPluginLoaded dep l) (dependencies (metadata_of l info))
  end.

Definition getPluginsByCapability (cap : string) (l : PluginLoader) : list LoadedPluginInfo :=
  filter (λ i, meta_hasCapability (metadata_of l i) cap = true) (getAllPlugins l).
Definition getPluginsByTag (tag : string) (l : PluginLoader) : list LoadedPluginInfo :=
  filter (λ i, tag ∈ tags (metadata_of l i)) (getAllPlugins l).
Definition hasCapability (name cap : string) (l : PluginLoader) : bool :=
  match loadedPlugins l !! name with Some i => meta_hasCapability (metadata_of l i) cap | None => false end.
Definition getConflictingPlugins (name : string) (l : PluginLoader) : list string :=
  match loadedPlugins l !! name with
  | Some i => filter (λ c, isPluginLoaded c l = true) (conflicts (metadata_of l i))
  | None => []
  end.
Definition hasConflicts (name : string) (l : PluginLoader) : bool := negb (bool_decide (getConflictingPlugins name l = [])).
Definition getPluginConfig (name : string) (l : PluginLoader) : option J := pluginConfigs l !! name.
Definition getPluginActions (name : string) (l : PluginLoader) : list string :=
  match loadedPlugins l !! name with Some i => ph_actions (instance i) (world l) | None => [] end.
Definition validatePluginConfig (name : string) (cfg : J) (l : PluginLoader) : bool * string :=
  match loadedPlugins l !! name with
  | Some i => ph_validateConfig (instance i) cfg (world l)
  | None => (false, "Plugin not found"%string)
  end.

(** ** Changes of a loaded plugin *)

Definition setPluginConfig (name : string) (cfg : J) (l : PluginLoader) : PluginLoader :=
  l <| pluginConfigs ::= <[name := cfg]> |>.

Definition pausePlugin (name : string) (l : PluginLoader) : PluginLoader * bool :=
  match loadedPlugins l !! name with
  | None => (l, false)
  | Some i =>
      let '(w, ok) := ph_pause (instance i) (world l) in
      (l <| world := w |> <| loadedPlugins ::= λ m, if ok then <[name := i <| state := Paused |>]> m else m |>, ok)
  end.
Definition resumePlugin (name : string) (l : PluginLoader) : PluginLoader * bool :=
  match loadedPlugins l !! name with
  | None => (l, false)
  | Some i =>
      let '(w, ok) := ph_resume (instance i) (world l) in
      (l <| world := w |>
         <| loadedPlugins ::= λ m, if ok then <[name := i <| state := ph_state (instance i) w |>]> m else m |>, ok)
  end.
Definition updatePluginConfig (name : string) (cfg : J) (l : PluginLoader) : PluginLoader * bool :=
  match loadedPlugins l !! name with
  | None => (l, false)
  | Some i =>
      let '(w, ok) := ph_updateConfig (instance i) cfg (world l) in
      let l := l <| world := w |> in
      (if ok then l <| loadedPlugins ::= <[name := i <| config := cfg |>]> |> <| pluginConfigs ::= <[name := cfg]> |> else l, ok)
  end.
Definition updateStatistics (name : string) (l : PluginLoader) : PluginLoader :=
  match loadedPlugins l !! name with
  | None => l
  | Some i => l <| loadedPlugins ::= <[name := i <| callCount ::= Z.succ |>]> |>
  end.
Definition executePluginAction (name action : string) (params : J) (l : PluginLoader) : PluginLoader * J :=
  match loadedPlugins l !! name with
  | None => (l, json_pair "error" "Plugin not found")
  | Some i => let '(w, j) := ph_executeAction (instance i) action params (world l) in (l <| world := w |>, j)
  end.

(** ** The order of dependencies *)

Record Visits := mkVisits { order : list string; visited : gset string; inStack : gset string }.

Definition deps_of (l : PluginLoader) (name : string) : list string :=
  match loadedPlugins l !! name with Some i => dependencies (metadata_of l i) | None => [] end.

(** The function [visit]; the fuel bounds its depth. *)
Fixpoint visit (fuel : nat) (l : PluginLoader) (name : string) (v : Visits) : option (Visits * bool) :=
  match fuel with
  | O => None
  | S fuel' =>
      if bool_decide (name ∈ inStack v) then Some (v, false)
      else if bool_decide (name ∈ visited v) then Some (v, true)
      else
        let v := mkVisits (order v) (visited v) ({[name]} ∪ inStack v) in
        match (fix loop (deps : list string) (v : Visits) : option (Visits * bool) :=
                 match deps with
                 | [] => Some (v, true)
                 | dep :: rest =>
                     match visit fuel' l dep v with
                     | Some (v, true) => loop rest v
                     | r => r
                     end
                 end) (deps_of l name) v with
        | Some (v, true) =>
            Some (mkVisits (order v ++ [name]) ({[name]} ∪ visited v) (inStack v ∖ {[name]}), true)
        | r => r
        end
  end.

Fixpoint visit_all (fuel : nat) (l : PluginLoader) (names : list string) (v : Visits) : option Visits :=
  match names with
  | [] => Some v
  | name :: rest =>
      if bool_decide (name ∈ visited v) then visit_all fuel l rest v
      else match visit fuel l name v with
           | Some (v, _) => visit_all fuel l rest v
           | None => None
           end
  end.

(** The plugins and all names they depend on. *)
Definition load_nodes (l : PluginLoader) : gset string :=
  dom (loadedPlugins l) ∪ list_to_set (concat (map (deps_of l) (elements (dom (loadedPlugins l))))).
Definition order_fuel (l : PluginLoader) : nat := S (S (size (load_nodes l))).

Definition getLoadOrder (l : PluginLoader) : option (list string) :=
  order <$> visit_all (order_fuel l) l (iter_keys (loadedPlugins l)) (mkVisits [] ∅ ∅).
End loader.

(** * Properties *)

(** ** Sections share the host *)

Section properties.
Context {W I J : Type} `{PH : PluginHost W I J} `{HI : !HashIter string}.
Context (json_empty : J → bool) (json_pair : string → string → J).
Context (exists_file : string → bool) (listing : string → list (string * bool)).
Abbreviation PluginLoader := (PluginLoader (W := W) (I := I) (J := J)).
Abbreviation LoadedPluginInfo := (LoadedPluginInfo (I := I) (J := J)).
Abbreviation load := (loadPlugin json_empty exists_file).

(** ** Loading one file *)

(** The configuration a plugin starts with. *)
Definition start_config (cfg : J) (name : string) (l : PluginLoader) : J :=
  if json_empty cfg then default cfg (pluginConfigs l !! name) else cfg.

(** A plugin file loads: the object it gives and the world afterwards. *)
Inductive loads (path : string) (cfg : J) (l : PluginLoader) (i : I) (w : W) : Prop :=
| loads_intro w1 w2 :
    exists_file path = true → loadedPlugins l !! plugin_name path = None →
    ph_load path (plugin_name path) (world l) = (w1, true) →
    (∀ v, ph_api_version (plugin_name path) w1 = Some v → v = apiVersion (loader_config l)) →
    ph_create (plugin_name path) w1 = Some (w2, Some i) →
    ph_initialize i (start_config cfg (plugin_name path) l) w2 = (w, true) →
    loads path cfg l i w.

Definition loaded_info (path : string) (cfg : J) (l : PluginLoader) (i : I) (w : W) : LoadedPluginInfo :=
  mkPluginInfo (plugin_name path) path i (ph_state i w) (start_config cfg (plugin_name path) l) "" 0 (ph_type i).

(** Loading succeeds exactly for a file that exists, whose name is new, and whose
    module, version, object and initialization are all right; then one entry is
    added, under the name of the file.  Otherwise the tables are as before.
    Dependencies are not looked at. *)
Theorem loadPlugin_correct (path : string) (cfg : J) (l : PluginLoader) :
  match load path cfg l with
  | (l', Ok info) => ∃ i w, loads path cfg l i w ∧ info = loaded_info path cfg l i w ∧
      world l' = w ∧ loadedPlugins l' = <[plugin_name path := info]> (loadedPlugins l)
  | (l', Throw e) => (¬ ∃ i w, loads path cfg l i w) ∧ loadedPlugins l' = loadedPlugins l ∧
      pluginConfigs l' = pluginConfigs l ∧ e ≠ DependencyMissing
  end.
Proof.
  unfold loadPlugin.
  destruct (exists_file path) eqn:Hex; cbn [negb]; [|split_and!; try done; intros (i & w & []); congruence].
  case_bool_decide as Hl; [split_and!; try done; intros (i & w & []); destruct Hl; congruence|].
  destruct (ph_load path (plugin_name path) (world l)) as [w1 []] eqn:Hload; cbn [negb];
    [|split_and!; try done; intros (i & w & []); congruence].
  destruct (match ph_api_version (plugin_name path) w1 with Some v => negb (v =? apiVersion (loader_config l)) | None => false end) eqn:Hv.
  { split_and!; try done. intros (i & w & [w1' w2 _ _ Hload' Hv' _ _]). rewrite Hload in Hload'. injection Hload' as <-.
    destruct (ph_api_version (plugin_name path) w1) as [v|] eqn:E; [|done]. rewrite (Hv' v eq_refl), Z.eqb_refl in Hv. done. }
  destruct (ph_create (plugin_name path) w1) as [[w2 [i|]]|] eqn:Hc.
  2,3: split_and!; try done; intros (i & w & [w1' w2' _ _ Hload' _ Hc' _]); rewrite Hload in Hload';
    injection Hload' as <-; congruence.
  fold (start_config cfg (plugin_name path) l). destruct (ph_initialize i (start_config cfg (plugin_name path) l) w2) as [w3 []] eqn:Hi; cbn [negb].
  - exists i, w3. split; [|done]. econstructor; try done.
    + by apply eq_None_not_Some.
    + intros v E. rewrite E in Hv. apply negb_false_iff, Z.eqb_eq in Hv. done.
  - split_and!; try done. intros (i' & w & [w1' w2' _ _ Hload' _ Hc' Hi']). rewrite Hload in Hload'. injection Hload' as <-.
    fold (plugin_name path) in *. congruence.
Qed.

(** ** The table *)

(** Every plugin is under its own name, which is that of its file. *)
Definition table_ok (l : PluginLoader) : Prop :=
  ∀ name info, loadedPlugins l !! name = Some info → pi_name info = name ∧ plugin_name (pi_path info) = name.

Lemma load_ok path cfg l : table_ok l → table_ok (load path cfg l).1.
Proof.
  intros Hl. pose proof (loadPlugin_correct path cfg l) as H. destruct (load path cfg l) as [l' [info|e]]; cbn.
  - destruct H as (i & w & _ & -> & _ & E). intros name info. rewrite E.
    intros [[<- <-]|[_ Hn]]%lookup_insert_Some; [done|by apply Hl].
  - destruct H as (_ & E & _). intros name info. rewrite E. apply Hl.
Qed.

Lemma unload_ok name l : table_ok l → table_ok (unloadPlugin name l).1.
Proof.
  intros Hl. unfold unloadPlugin. destruct (loadedPlugins l !! name) eqn:E; [|done]. cbn. intros n info. cbn.
  intros [_ Hn]%lookup_delete_Some. by apply Hl.
Qed.

Lemma change_ok name info (l l' : PluginLoader) : table_ok l → loadedPlugins l !! name = Some info →
  (loadedPlugins l' = loadedPlugins l ∨
   ∃ info', loadedPlugins l' = <[name := info']> (loadedPlugins l) ∧ pi_name info' = pi_name info ∧ pi_path info' = pi_path info) →
  table_ok l'.
Proof.
  intros Hl Hi [E|(info' & E & E1 & E2)] n i; rewrite E; [apply Hl|].
  intros [[<- <-]|[_ Hn]]%lookup_insert_Some; [|by apply Hl]. rewrite E1, E2. by apply Hl.
Qed.

Inductive loader_op :=
| LLoad (path : string) (cfg : J) | LLoadByName (name : string) (cfg : J) | LUnload (name : string) | LReload (name : string)
| LLoadAll (empty : J) | LUnloadAll | LSetConfig (name : string) (cfg : J) | LPause (name : string) | LResume (name : string)
| LUpdateConfig (name : string) (cfg : J) | LUpdateStatistics (name : string) | LAction (name action : string) (params : J).

Definition loader_step (o : loader_op) (l : PluginLoader) : PluginLoader :=
  match o with
  | LLoad path cfg => (load path cfg l).1
  | LLoadByName name cfg => (loadPluginByName json_empty exists_file name cfg l).1
  | LUnload name => (unloadPlugin name l).1
  | LReload name => (reloadPlugin json_empty exists_file name l).1
  | LLoadAll empty => (loadAllDiscovered json_empty exists_file listing empty l).1
  | LUnloadAll => unloadAll l
  | LSetConfig name cfg => setPluginConfig name cfg l
  | LPause name => (pausePlugin name l).1
  | LResume name => (resumePlugin name l).1
  | LUpdateConfig name cfg => (updatePluginConfig name cfg l).1
  | LUpdateStatistics name => updateStatistics name l
  | LAction name action params => (executePluginAction json_pair name action params l).1
  end.

Lemma reload_ok name l : table_ok l → table_ok (reloadPlugin json_empty exists_file name l).1.
Proof.
  intros Hl. unfold reloadPlugin. destruct (loadedPlugins l !! name) as [info|]; [|done].
  pose proof (unload_ok name l Hl) as H. destruct (unloadPlugin name l) as [l' []]; [|done]. by apply load_ok.
Qed.

Lemma loader_step_ok o l : table_ok l → table_ok (loader_step o l).
Proof.
  intros Hl. destruct o; cbn [loader_step].
  - by apply load_ok.
  - unfold loadPluginByName. destruct (findPluginFile _ _ _); [by apply load_ok|done].
  - by apply unload_ok.
  - by apply reload_ok.
  - unfold loadAllDiscovered. generalize (discoverPlugins exists_file listing l), 0%nat. intros ps.
    revert l Hl. induction ps as [|p ps IH]; intros l Hl k; [done|]. cbn [foldl load_one].
    pose proof (load_ok p empty l Hl). destruct (load p empty l) as [l' []]; by apply IH.
  - unfold unloadAll. generalize (rev (iter_keys (loadedPlugins l))). intros ns.
    revert l Hl. induction ns as [|n ns IH]; intros l Hl; [done|]. by apply IH, unload_ok.
  - done.
  - unfold pausePlugin. destruct (loadedPlugins l !! name) as [i|] eqn:E; [|done]. destruct (ph_pause _ _) as [w []];
      (eapply change_ok; [done..|]); cbn; eauto 10.
  - unfold resumePlugin. destruct (loadedPlugins l !! name) as [i|] eqn:E; [|done]. destruct (ph_resume _ _) as [w []];
      (eapply change_ok; [done..|]); cbn; eauto 10.
  - unfold updatePluginConfig. destruct (loadedPlugins l !! name) as [i|] eqn:E; [|done]. destruct (ph_updateConfig _ _ _) as [w []];
      (eapply change_ok; [done..|]); cbn; eauto 10.
  - unfold updateStatistics. destruct (loadedPlugins l !! name) as [i|] eqn:E; [|done].
    eapply change_ok; [done..|]. cbn. eauto 10.
  - unfold executePluginAction. destruct (loadedPlugins l !! name) as [i|] eqn:E; [|done].
    destruct (ph_executeAction _ _ _ _) as [w j]. exact Hl.
Qed.

Lemma loader_run_ok ops l : table_ok l → table_ok (foldl (λ l o, loader_step o l) l ops).
Proof. revert l. induction ops as [|o ops IH]; intros l Hl; [done|]. by apply IH, loader_step_ok. Qed.

(** Reloading a plugin of a sound table keeps every other plugin; the plugin comes
    back from the same file under the same name with the configuration it had, or it
    is gone: it is never kept when its file cannot be loaded again. *)
Theorem reloadPlugin_correct (name : string) (l : PluginLoader) (info : LoadedPluginInfo) :
  table_ok l → loadedPlugins l !! name = Some info →
  match reloadPlugin json_empty exists_file name l with
  | (l', Ok info') => pi_name info' = name ∧ pi_path info' = pi_path info ∧ loadedPlugins l' = <[name := info']> (loadedPlugins l) ∧
      (json_empty (config info) = false → config info' = config info)
  | (l', Throw _) => loadedPlugins l' = delete name (loadedPlugins l)
  end.
Proof.
  intros Hl Hi. unfold reloadPlugin, unloadPlugin. rewrite Hi.
  set (l1 := l <| world := _ |> <| loadedPlugins ::= _ |>).
  pose proof (loadPlugin_correct (pi_path info) (config info) l1) as H.
  destruct (load (pi_path info) (config info) l1) as [l' [info'|e]].
  - destruct H as (i & w & _ & -> & _ & E). cbn. destruct (Hl name info Hi) as [_ En]. rewrite E, En. cbn.
    split_and!; [done..| |].
    + by rewrite insert_delete_eq.
    + intros He. unfold start_config. by rewrite He.
  - by destruct H as (_ & E & _).
Qed.
(** ** The order of dependencies *)

Section load_order.
Context (l : PluginLoader).

Definition depends (x y : string) : Prop := y ∈ deps_of l x.
(** Leads to a cycle. *)
Definition bad (x : string) : Prop := ∃ y, rtc depends x y ∧ tc depends y y.

Lemma bad_edge x y : depends x y → bad y → bad x.
Proof. intros He (z & Hz & Hc). exists z. split; [by eapply rtc_l|done]. Qed.

Lemma nodes_closed x y : depends x y → y ∈ load_nodes l.
Proof.
  unfold depends, load_nodes. intros Hy. apply elem_of_union_r, elem_of_list_to_set, elem_of_concat_map.
  exists x. split; [|done]. apply elem_of_elements, elem_of_dom. unfold deps_of in Hy.
  destruct (loadedPlugins l !! x); [eauto|]. by apply elem_of_nil in Hy.
Qed.

(** Between two calls: [path] is the chain of calls that are still open. *)
Record visit_inv (v : Visits) (path : list string) : Prop := {
  vi_visited : ∀ x, x ∈ visited v ↔ x ∈ order v;
  vi_order : finished depends (rev (order v));
  vi_apart : ∀ x, x ∈ inStack v → x ∉ visited v;
  vi_stack : ∀ x, x ∈ inStack v → x ∈ path ∨ bad x;
  vi_path : ∀ x, x ∈ path → x ∈ inStack v;
  vi_is_path : is_path depends path;
  vi_nodes : ∀ x, x ∈ order v → x ∈ load_nodes l
}.

Definition seen (v : Visits) : gset string := visited v ∪ inStack v.

Lemma visit_inv_enter v path name : visit_inv v path → name ∉ seen v →
  (∀ m rest, path = m :: rest → depends m name) →
  visit_inv (mkVisits (order v) (visited v) ({[name]} ∪ inStack v)) (name :: path).
Proof.
  unfold seen. rewrite not_elem_of_union. intros [] [Hn1 Hn2] He. split; cbn; try done.
  - intros x [->%elem_of_singleton|Hx]%elem_of_union; auto.
  - intros x [->%elem_of_singleton|Hx]%elem_of_union; [left; by left|]. destruct (vi_stack0 x Hx); [left; by right|by right].
  - intros x [->|Hx]%elem_of_cons; apply elem_of_union; [left; by apply elem_of_singleton|right; auto].
  - destruct path; constructor; eauto.
Qed.

Lemma visit_inv_leave v path name : visit_inv v (name :: path) → name ∉ path → name ∈ load_nodes l →
  (∀ d, d ∈ deps_of l name → d ∈ visited v) →
  visit_inv (mkVisits (order v ++ [name]) ({[name]} ∪ visited v) (inStack v ∖ {[name]})) path.
Proof.
  intros [] Hp Hn Hd. assert (name ∉ visited v) as Hnew by (apply vi_apart0, vi_path0; by left). split; cbn.
  - intros x. rewrite elem_of_app, list_elem_of_singleton, elem_of_union, elem_of_singleton, vi_visited0. tauto.
  - rewrite rev_app_distr. cbn. constructor; [| |done].
    + rewrite <- Permutation_rev. by rewrite <- vi_visited0.
    + intros d Hdd. apply Hd in Hdd. rewrite vi_visited0 in Hdd. by rewrite <- Permutation_rev.
  - intros x [Hx Hne]%elem_of_difference. apply not_elem_of_union. split; [done|by apply vi_apart0].
  - intros x [Hx Hne]%elem_of_difference. destruct (vi_stack0 x Hx) as [[->|H]%elem_of_cons|H]; [|by left|by right].
    by destruct Hne; apply elem_of_singleton.
  - intros x Hx. apply elem_of_difference. split; [apply vi_path0; by right|]. intros ->%elem_of_singleton. done.
  - inversion vi_is_path0; subst; [constructor|done].
  - intros x [Hx|Hx]%elem_of_app; [by apply vi_nodes0|]. by apply list_elem_of_singleton in Hx as ->.
Qed.

Lemma visit_inv_fail v path name : visit_inv v (name :: path) → bad name → visit_inv v path.
Proof.
  intros [] Hb. split; try done.
  - intros x Hx. destruct (vi_stack0 x Hx) as [[->|H]%elem_of_cons|H]; auto.
  - intros x Hx. apply vi_path0. by right.
  - inversion vi_is_path0; subst; [constructor|done].
Qed.
(** What a call of [visit] does. *)
Definition visit_result (name : string) (v : Visits) (path : list string) (r : option (Visits * bool)) : Prop :=
  ∃ v' b, r = Some (v', b) ∧ visit_inv v' path ∧ seen v ⊆ seen v' ∧ visited v ⊆ visited v' ∧
    (if b : bool then name ∈ visited v' else bad name).

(** The loop of [visit]. *)
Definition visit_deps (fuel : nat) : list string → Visits → option (Visits * bool) :=
  fix loop deps v :=
    match deps with
    | [] => Some (v, true)
    | dep :: rest => match visit fuel l dep v with Some (v, true) => loop rest v | r => r end
    end.

Lemma visit_deps_spec fuel name path deps v :
  (∀ dep v, depends name dep → visit_inv v (name :: path) → (unvisited (load_nodes l) (seen v) < fuel)%nat →
     visit_result dep v (name :: path) (visit fuel l dep v)) →
  (∀ dep, dep ∈ deps → depends name dep) → visit_inv v (name :: path) →
  (unvisited (load_nodes l) (seen v) < fuel)%nat →
  ∃ v' b, visit_deps fuel deps v = Some (v', b) ∧ visit_inv v' (name :: path) ∧ seen v ⊆ seen v' ∧ visited v ⊆ visited v' ∧
    (if b : bool then ∀ dep, dep ∈ deps → dep ∈ visited v' else bad name).
Proof.
  intros Hvisit. revert v. induction deps as [|dep deps IH]; intros v Hdeps Hv Hf.
  - exists v, true. split_and!; try done. by intros dep Hd%elem_of_nil.
  - destruct (Hvisit dep v) as (v1 & b & E & Hv1 & Hs1 & Hm1 & Hb); [apply Hdeps; by left|done..|].
    cbn [visit_deps]. rewrite E. destruct b.
    + destruct (IH v1) as (v2 & b & E2 & Hv2 & Hs2 & Hm2 & Hb2); [by intros d Hd; apply Hdeps; right|done| |].
      { eapply Nat.le_lt_trans; [by apply unvisited_mono|done]. }
      exists v2, b. rewrite E2. split_and!; [done..|by etrans|by etrans|]. destruct b; [|done].
      intros d [->|Hd]%elem_of_cons; [by apply Hm2|by apply Hb2].
    + exists v1, false. split_and!; try done. eapply bad_edge; [|done]. apply Hdeps. by left.
Qed.

Lemma visit_spec fuel name v path : visit_inv v path → name ∈ load_nodes l →
  (∀ m rest, path = m :: rest → depends m name) → (unvisited (load_nodes l) (seen v) < fuel)%nat →
  visit_result name v path (visit fuel l name v).
Proof.
  revert name v path. induction fuel as [|fuel IH]; intros name v path Hv Hn Hedge Hf; [lia|].
  cbn [visit]. case_bool_decide as Hin.
  { exists v, false. split_and!; try done. destruct (vi_stack _ _ Hv name Hin) as [Hp|Hb]; [|done].
    destruct path as [|m rest]; [by apply elem_of_nil in Hp|]. exists name. split; [done|].
    eapply tc_rtc_l; [eapply is_path_rtc; [apply (vi_is_path _ _ Hv)|done]|].
    apply tc_once. by eapply Hedge. }
  case_bool_decide as Hvis; [by exists v, true|].
  assert (name ∉ seen v) as Hnew by by apply not_elem_of_union.
  set (v1 := mkVisits (order v) (visited v) ({[name]} ∪ inStack v)).
  assert (seen v1 = {[name]} ∪ seen v) as Hseen by (unfold seen, v1; cbn; set_solver).
  pose proof (visit_inv_enter v path name Hv Hnew Hedge) as Hv1. fold v1 in Hv1.
  destruct (visit_deps_spec fuel name path (deps_of l name) v1) as (v2 & b & E & Hv2 & Hs & Hm & Hb); [|done|done| |].
  { intros dep v' Hd Hv' Hf'. apply IH; [done|by eapply nodes_closed| |done]. by intros m rest [= <- <-]. }
  { rewrite Hseen. pose proof (unvisited_lt (load_nodes l) (seen v) name Hn Hnew). lia. }
  unfold visit_deps in E. rewrite E.
  assert (name ∉ path) as Hnp by (intros Hp; by apply Hin, (vi_path _ _ Hv)).
  rewrite Hseen in Hs. destruct b.
  - eexists _, true. split; [done|]. split; [by apply visit_inv_leave|]. unfold seen in *. cbn. split_and!.
    + intros x Hx. destruct (decide (x = name)) as [->|Hne]; [set_solver|]. assert (x ∈ visited v2 ∪ inStack v2) by set_solver.
      set_solver.
    + etrans; [exact Hm|set_solver].
    + set_solver.
  - exists v2, false. split; [done|]. split; [by eapply visit_inv_fail|]. split_and!; [set_solver|done|done].
Qed.

Lemma visit_all_spec fuel names v : (size (load_nodes l) < fuel)%nat → visit_inv v [] → (∀ x, x ∈ names → x ∈ load_nodes l) →
  ∃ v', visit_all fuel l names v = Some v' ∧ visit_inv v' [] ∧ visited v ⊆ visited v' ∧
    ∀ x, x ∈ names → x ∈ visited v' ∨ bad x.
Proof.
  intros Hf. revert v. induction names as [|n names IH]; intros v Hv Hn.
  - exists v. split_and!; try done. by intros x Hx%elem_of_nil.
  - cbn [visit_all]. case_bool_decide as Hvis.
    + destruct (IH v Hv) as (v' & E & Hv' & Hm & Hall); [by intros x Hx; apply Hn; right|].
      exists v'. split_and!; try done. intros x [->|Hx]%elem_of_cons; [left; by apply Hm|by apply Hall].
    + destruct (visit_spec fuel n v []) as (v1 & b & E1 & Hv1 & Hs1 & Hm1 & Hb1); [done|apply Hn; by left|done| |].
      { eapply Nat.le_lt_trans; [apply unvisited_le_size|done]. }
      rewrite E1. destruct (IH v1 Hv1) as (v' & E & Hv' & Hm & Hall); [by intros x Hx; apply Hn; right|].
      exists v'. split_and!; [done..|by etrans|]. intros x [->|Hx]%elem_of_cons; [|by apply Hall].
      destruct b; [left; by apply Hm|by right].
Qed.

(** [C34] The search for the load order always ends.  The order lists every name once
    and dependencies before what depends on them.  It holds only loaded plugins and
    names they depend on, none of which leads to a cycle; and every loaded plugin is
    in it or leads to a cycle.  So a loaded plugin is in it exactly when it leads to
    no cycle; which names that are not loaded it holds depends on the search. *)
Theorem getLoadOrder_correct : ∃ names, getLoadOrder l = Some names ∧ NoDup names ∧
  (∀ x y, x ∈ names → depends x y → ∃ l1 l2, names = l1 ++ x :: l2 ∧ y ∈ l1) ∧
  (∀ x, x ∈ names → x ∈ load_nodes l ∧ ¬ bad x) ∧
  (∀ x, is_Some (loadedPlugins l !! x) → x ∈ names ∨ bad x).
Proof.
  destruct (visit_all_spec (order_fuel l) (iter_keys (loadedPlugins l)) (mkVisits [] ∅ ∅)) as (v & E & Hv & _ & Hall).
  { unfold order_fuel. lia. }
  { split; cbn; try done; try (by intros x Hx%elem_of_nil); try (by intros x Hx%elem_of_empty); try constructor.
    - by intros H%elem_of_empty.
    - by intros H%elem_of_nil. }
  { intros x Hx%elem_of_iter_keys. apply elem_of_union_l, elem_of_dom, Hx. }
  exists (order v). unfold getLoadOrder. rewrite E. split; [done|].
  pose proof (vi_order _ _ Hv) as Hfin. split_and!.
  - apply finished_NoDup in Hfin. by rewrite <- Permutation_rev in Hfin.
  - intros x y Hx He. destruct (finished_edge depends (rev (order v)) x y Hfin) as (l1 & l2 & El & Hy); [by rewrite <- Permutation_rev|done|].
    exists (rev l2), (rev l1). rewrite <- (rev_involutive (order v)), El, rev_app_distr. cbn. rewrite <- app_assoc.
    split; [done|]. by rewrite <- Permutation_rev.
  - intros x Hx. split; [by apply (vi_nodes _ _ Hv)|]. intros (y & Hxy & Hc).
    assert (x ∈ rev (order v)) as Hx' by by rewrite <- Permutation_rev.
    assert (y ∈ rev (order v)) as Hy.
    { clear Hc Hx. induction Hxy as [|x z y Hxz Hzy IH]; [done|]. apply IH.
      destruct (finished_edge depends _ x z Hfin Hx' Hxz) as (l1 & l2 & -> & Hz). apply elem_of_app. right. by right. }
    by apply (finished_acyclic depends (rev (order v)) y Hfin Hy).
  - intros x Hx. rewrite <- (vi_visited _ _ Hv). apply Hall. by apply elem_of_iter_keys.
Qed.
End load_order.
End properties.
