(* ===== verification/PluginManager.v ===== *)
(** * PluginManager: enabling the plugins of the server

    Models class PluginManager of src/src/server/plugin/plugin_manager.hpp and
    plugin_manager.cpp on top of the plugin loader: loading with events and
    automatic enabling, the registration of commands and routes, groups, searching,
    batches, configuration files, start and shutdown.  What the plugins are told to
    do with the command dispatcher and the web application is recorded in
    [dispatched], each call with whether it returned; an exception of it is caught.
    The calls of the subscribers are in [delivered] (without the data of the event).
    A method runs as one step.  Left out: the JSON reports of status, schemas and statistics. *)

From S2P Require Import Prelude Text Json JsonCodec JsonTree PluginLoader.

Local Open Scope Z_scope.

Inductive PluginEvent :=
| EvLoaded | EvUnloaded | EvReloaded | EvInitialized | EvShutdown | EvError | EvStateChanged | EvEnabled | EvDisabled
| EvPaused | EvResumed | EvConfigUpdated | EvActionExecuted.

Record PluginGroup := mkGroup {
  group_name : string;
  group_description : string;
  group_plugins : list string;
  group_enabled : bool
}.

(** What the manager asks of the dispatcher and the application for a plugin. *)
Inductive dispatch_call := RegisterCommands (name : string) | UnregisterCommands (name : string) | RegisterRoutes (name : string).

(** The code of the plugins: does a call, after these, return or throw? *)
Class PluginCalls := call_returns : dispatch_call → list (dispatch_call * bool) → bool.

Section manager.
Context {W I J F : Type} `{JT : JsonTree J F} `{PH : PluginHost W I J} `{HI : !HashIter string} `{PC : PluginCalls}.
Context (exists_file : string → bool) (listing : string → list (string * bool)).

(** [json::empty] and the object of one pair. *)
Definition json_empty (j : J) : bool :=
  match jt_shape j with ShNull | ShArray [] | ShObject [] => true | _ => false end.
Definition json_pair (k v : string) : J := jt_object [(k, jt_string v)].

Abbreviation PluginLoader := (PluginLoader (W := W) (I := I) (J := J)).
Abbreviation LoadedPluginInfo := (LoadedPluginInfo (I := I) (J := J)).

Record PluginManagerConfig := mkManagerConfig {
  autoRegisterOnLoad : bool;
  enableEventNotifications : bool;
  configFile : string
}.

Record PluginManager := mkPluginManager {
  mgr_config : PluginManagerConfig;
  loader : PluginLoader;
  app : bool;
  dispatcher : bool;
  enabledPlugins : gmap string bool;
  eventSubscribers : gset Z;
  nextSubscriberId : Z;
  initialized : bool;
  groups : gmap string PluginGroup;
  dispatched : list (dispatch_call * bool);
  delivered : list (Z * PluginEvent * string)
}.
#[export] Instance PluginManager_eta : Eta PluginManager := λ m,
  mkPluginManager (mgr_config m) (loader m) (app m) (dispatcher m) (enabledPlugins m) (eventSubscribers m)
    (nextSubscriberId m) (initialized m) (groups m) (dispatched m) (delivered m).

(** ** Events *)

Definition notifyEvent `{!HashIter Z} (e : PluginEvent) (name : string) (m : PluginManager) : PluginManager :=
  if enableEventNotifications (mgr_config m)
  then m <| delivered ::= λ l, l ++ map (λ id, (id, e, name)) (iter_set (eventSubscribers m)) |>
  else m.

Context `{HZ : !HashIter Z}.

Definition subscribeToEvents (m : PluginManager) : PluginManager * Z :=
  (m <| nextSubscriberId ::= Z.succ |> <| eventSubscribers ::= λ s, {[nextSubscriberId m]} ∪ s |>, nextSubscriberId m).
Definition unsubscribeFromEvents (id : Z) (m : PluginManager) : PluginManager :=
  m <| eventSubscribers ::= λ s, s ∖ {[id]} |>.

(** ** Enabling and disabling *)

Definition isPluginEnabled (name : string) (m : PluginManager) : bool := default false (enabledPlugins m !! name).

Definition is_command (info : LoadedPluginInfo) : bool := bool_decide (is_Some (asCommandPlugin info)).
Definition is_controller (info : LoadedPluginInfo) : bool := bool_decide (is_Some (asControllerPlugin info)).

(** registerPluginCommands, unregisterPluginCommands and registerPluginRoutes: what
    the plugin throws is caught and logged, and the caller goes on. *)
Definition dispatch (c : dispatch_call) (m : PluginManager) : PluginManager :=
  m <| dispatched ::= λ l, l ++ [(c, call_returns c l)] |>.

Definition enablePlugin (name : string) (m : PluginManager) : PluginManager * bool :=
  match getPlugin name (loader m) with
  | None => (m, false)
  | Some info =>
      if isPluginEnabled name m then (m, true)
      else
        let m := if is_command info && dispatcher m then dispatch (RegisterCommands name) m else m in
        let m := if is_controller info && app m then dispatch (RegisterRoutes name) m else m in
        let m := m <| enabledPlugins ::= <[name := true]> |> in
        (notifyEvent EvInitialized name m, true)
  end.

Definition disablePlugin (name : string) (m : PluginManager) : PluginManager * bool :=
  match getPlugin name (loader m) with
  | None => (m, false)
  | Some info =>
      if negb (isPluginEnabled name m) then (m, true)
      else
        let m := if is_command info && dispatcher m then dispatch (UnregisterCommands name) m else m in
        let m := m <| enabledPlugins ::= <[name := false]> |> in
        (notifyEvent EvShutdown name m, true)
  end.

(** ** Loading *)

Definition loaded (r : PluginLoader * result PluginLoadError LoadedPluginInfo) (error_name : string)
    (event : PluginEvent) (event_name enable_name : LoadedPluginInfo → string) (enable : bool) (m : PluginManager)
  : PluginManager * result PluginLoadError LoadedPluginInfo :=
  let '(l, r) := r in
  let m := m <| loader := l |> in
  match r with
  | Throw e => (notifyEvent EvError error_name m, Throw e)
  | Ok info =>
      let m := notifyEvent event (event_name info) m in
      (if enable then (enablePlugin (enable_name info) m).1 else m, Ok info)
  end.

Definition loadPlugin (name : string) (cfg : J) (m : PluginManager) : PluginManager * result PluginLoadError LoadedPluginInfo :=
  loaded (loadPluginByName json_empty exists_file name cfg (loader m)) name EvLoaded (λ _, name) (λ _, name)
    (autoRegisterOnLoad (mgr_config m)) m.

Definition loadPluginFromPath (path : string) (cfg : J) (m : PluginManager)
  : PluginManager * result PluginLoadError LoadedPluginInfo :=
  loaded (PluginLoader.loadPlugin json_empty exists_file path cfg (loader m)) (path_stem path) EvLoaded pi_name pi_name
    (autoRegisterOnLoad (mgr_config m)) m.

Definition unloadPlugin (name : string) (m : PluginManager) : PluginManager * result PluginLoadError bool :=
  let m := if isPluginEnabled name m then (disablePlugin name m).1 else m in
  match PluginLoader.unloadPlugin name (loader m) with
  | (l, Throw e) => (m <| loader := l |>, Throw e)
  | (l, Ok b) => (notifyEvent EvUnloaded name (m <| loader := l |>), Ok b)
  end.

Definition reloadPlugin (name : string) (m : PluginManager) : PluginManager * result PluginLoadError LoadedPluginInfo :=
  let wasEnabled := isPluginEnabled name m in
  let m := if wasEnabled then (disablePlugin name m).1 else m in
  loaded (PluginLoader.reloadPlugin json_empty exists_file name (loader m)) name EvReloaded (λ _, name) (λ _, name) wasEnabled m.

Definition restartPlugin (name : string) (m : PluginManager) : PluginManager * bool :=
  let wasEnabled := isPluginEnabled name m in
  let m := if wasEnabled then (disablePlugin name m).1 else m in
  match reloadPlugin name m with
  | (m, Throw _) => (m, false)
  | (m, Ok _) => (if wasEnabled then (enablePlugin name m).1 else m, true)
  end.

Definition discoverAndLoadAll (empty_config : J) (m : PluginManager) : PluginManager * nat :=
  let '(l, n) := loadAllDiscovered json_empty exists_file listing empty_config (loader m) in
  let m := m <| loader := l |> in
  (if autoRegisterOnLoad (mgr_config m)
   then foldl (λ m info, (enablePlugin (pi_name info) m).1) m (getAllPlugins l) else m, n).

(** ** Batches and groups *)

Definition batch {B} (f : string → PluginManager → PluginManager * B) (ok : B → bool) (names : list string) (m : PluginManager)
  : PluginManager * nat :=
  foldl (λ acc name, let '(m, n) := acc in let '(m, b) := f name m in (m, if ok b then S n else n)) (m, 0%nat) names.

Definition batchLoad (null : J) (names : list string) (m : PluginManager) : PluginManager * nat :=
  batch (λ name, loadPlugin name null) is_ok names m.
Definition batchUnload (names : list string) (m : PluginManager) : PluginManager * nat := batch unloadPlugin is_ok names m.
Definition batchEnable (names : list string) (m : PluginManager) : PluginManager * nat := batch enablePlugin (λ b, b) names m.
Definition batchDisable (names : list string) (m : PluginManager) : PluginManager * nat := batch disablePlugin (λ b, b) names m.

Definition createGroup (g : PluginGroup) (m : PluginManager) : PluginManager := m <| groups ::= <[group_name g := g]> |>.
Definition deleteGroup (name : string) (m : PluginManager) : PluginManager := m <| groups ::= delete name |>.
Definition getGroup (name : string) (m : PluginManager) : option PluginGroup := groups m !! name.
Definition with_plugins (f : list string → list string) (g : PluginGroup) : PluginGroup :=
  mkGroup (group_name g) (group_description g) (f (group_plugins g)) (group_enabled g).
Definition addToGroup (pluginName groupName : string) (m : PluginManager) : PluginManager :=
  m <| groups ::= alter (with_plugins (λ l, if bool_decide (pluginName ∈ l) then l else l ++ [pluginName])) groupName |>.
Definition removeFromGroup (pluginName groupName : string) (m : PluginManager) : PluginManager :=
  m <| groups ::= alter (with_plugins (filter (λ p, p ≠ pluginName))) groupName |>.
Definition enableGroup (name : string) (m : PluginManager) : PluginManager * nat :=
  match getGroup name m with None => (m, 0%nat) | Some g => batchEnable (group_plugins g) m end.
Definition disableGroup (name : string) (m : PluginManager) : PluginManager * nat :=
  match getGroup name m with None => (m, 0%nat) | Some g => batchDisable (group_plugins g) m end.
Definition getPluginsByGroup (name : string) (m : PluginManager) : list LoadedPluginInfo :=
  match getGroup name m with None => [] | Some g => omap (λ p, getPlugin p (loader m)) (group_plugins g) end.

(** ** Searching *)

Definition ends_with (sub s : string) : bool :=
  (String.length sub <=? String.length s)%nat
    && String.eqb (str_drop (String.length s - String.length sub) s) sub.

Definition star : char := "*"%char.
Definition search_match (pattern name : string) : bool :=
  let startsWithWildcard := match pattern with String c _ => Ascii.eqb c star | EmptyString => false end in
  let endsWithWildcard := match rsplit star pattern with Some (_, EmptyString) => true | _ => false end in
  let searchPattern := if startsWithWildcard then str_drop 1 pattern else pattern in
  let searchPattern := if endsWithWildcard && negb (str_empty searchPattern)
                       then str_take (String.length searchPattern - 1) searchPattern else searchPattern in
  if startsWithWildcard && endsWithWildcard then contains_text searchPattern name
  else if startsWithWildcard then ends_with searchPattern name
  else if endsWithWildcard then String.prefix searchPattern name
  else String.eqb name pattern.
Definition searchPlugins (pattern : string) (m : PluginManager) : list LoadedPluginInfo :=
  filter (λ i, search_match pattern (pi_name i) = true) (getAllPlugins (loader m)).

(** ** Dependencies *)

Definition getPluginDependencies (name : string) (m : PluginManager) : list string :=
  match getPlugin name (loader m) with Some i => dependencies (metadata_of (loader m) i) | None => [] end.
Definition getDependentPlugins (name : string) (m : PluginManager) : list string :=
  map pi_name (filter (λ i, name ∈ dependencies (metadata_of (loader m) i)) (getAllPlugins (loader m))).

(** ** State *)

Definition pausePlugin (name : string) (m : PluginManager) : PluginManager * bool :=
  let '(l, ok) := PluginLoader.pausePlugin name (loader m) in
  let m := m <| loader := l |> in (if ok then notifyEvent EvPaused name m else m, ok).
Definition resumePlugin (name : string) (m : PluginManager) : PluginManager * bool :=
  let '(l, ok) := PluginLoader.resumePlugin name (loader m) in
  let m := m <| loader := l |> in (if ok then notifyEvent EvResumed name m else m, ok).
Definition executeAction (name action : string) (params : J) (m : PluginManager) : PluginManager * J :=
  let '(l, j) := executePluginAction json_pair name action params (loader m) in
  (notifyEvent EvActionExecuted name (m <| loader := l |>), j).
Definition updatePluginConfig (name : string) (cfg : J) (m : PluginManager) : PluginManager :=
  m <| loader ::= setPluginConfig name cfg |>.

(** ** The configuration file *)

(** One entry of the array "plugins": [None] when it is skipped, an exception when
    a member has the wrong kind. *)
Definition load_entry (entry : J) (m : PluginManager) : PluginManager * result string unit :=
  match jt_value jt_get_string ""%string "name" entry with
  | Throw e => (m, Throw e)
  | Ok name =>
      if str_empty name then (m, Ok tt)
      else
        match jt_value Some (jt_object []) "config" entry with
        | Throw e => (m, Throw e)
        | Ok cfg =>
            let m := updatePluginConfig name cfg m in
            match jt_value jt_get_bool false "autoLoad" entry with
            | Throw e => (m, Throw e)
            | Ok autoLoad => (if autoLoad then (loadPlugin name cfg m).1 else m, Ok tt)
            end
        end
  end.
Fixpoint load_entries (entries : list J) (m : PluginManager) : PluginManager * result string unit :=
  match entries with
  | [] => (m, Ok tt)
  | e :: rest =>
      match load_entry e m with
      | (m, Ok _) => load_entries rest m
      | r => r
      end
  end.

(** The text of the file, [None] when it is not there. *)
Definition loadConfiguration (file : option string) (m : PluginManager) : PluginManager * bool :=
  match file with
  | None => (m, false)
  | Some text =>
      match jt_parse text with
      | Throw _ => (m, false)
      | Ok configJson =>
          match jt_find configJson "plugins" with
          | Some plugins =>
              if jt_is_array plugins then
                let '(m, r) := load_entries (jt_elements plugins) m in (m, is_ok r)
              else (m, true)
          | None => (m, true)
          end
      end
  end.

Definition plugin_entry (m : PluginManager) (info : LoadedPluginInfo) : J :=
  jt_object [("name"%string, jt_string (pi_name info)); ("path"%string, jt_string (pi_path info)); ("config"%string, config info);
             ("enabled"%string, jt_bool (isPluginEnabled (pi_name info) m)); ("autoLoad"%string, jt_bool true)].
Definition config_document (m : PluginManager) : J :=
  jt_object [("plugins"%string, jt_array (map (plugin_entry m) (getAllPlugins (loader m))))].
(** The text written; the directory may not be creatable. *)
Definition saveConfiguration (directory_ok : bool) (m : PluginManager) : option string * bool :=
  if directory_ok then
    match jt_dump_indent 2 (config_document m) with Ok text => (Some text, true) | Throw _ => (None, false) end
  else (None, false).

(** ** Start and end *)

Definition initialize (has_dispatcher : bool) (file : option string) (m : PluginManager) : PluginManager :=
  if initialized m then m
  else
    let m := m <| app := true |> <| dispatcher := has_dispatcher |> in
    let m := match file with Some _ => (loadConfiguration file m).1 | None => m end in
    m <| initialized := true |>.

Definition shutdown (m : PluginManager) : PluginManager :=
  if negb (initialized m) then m
  else
    let m := foldl (λ m name, (disablePlugin name m).1) m (iter_keys (enabledPlugins m)) in
    m <| loader ::= unloadAll |> <| initialized := false |> <| app := false |> <| dispatcher := false |>.
End manager.

(** * Properties *)

Section properties.
Context {W I J F : Type} `{JT : JsonTree J F} `{PH : PluginHost W I J} `{HI : !HashIter string} `{HZ : !HashIter Z} `{PC : PluginCalls}.
Context (exists_file : string → bool) (listing : string → list (string * bool)).
Abbreviation PluginManager := (PluginManager (W := W) (I := I) (J := J)).
Abbreviation PluginLoader := (PluginLoader (W := W) (I := I) (J := J)).
Abbreviation LoadedPluginInfo := (LoadedPluginInfo (I := I) (J := J)).
Implicit Types m : PluginManager.
Implicit Types l : PluginLoader.

(** ** The invariant *)

(** Where the commands of a plugin are: nowhere, at the dispatcher, or left there
    (all or some) by an attempt to take them back that threw. *)
Inductive registration := NotThere | Registered | LeftBehind.

Definition registered_after (name : string) (b : registration) (c : dispatch_call * bool) : registration :=
  match c with
  | (RegisterCommands n, _) => if String.eqb n name then Registered else b
  | (UnregisterCommands n, ok) => if String.eqb n name then if ok : bool then NotThere else LeftBehind else b
  | (RegisterRoutes _, _) => b
  end.
Definition commands_of (name : string) (calls : list (dispatch_call * bool)) : registration :=
  foldl (registered_after name) NotThere calls.

Arguments commands_of : simpl never.

(** [d] says whether there is a dispatcher, [i] whether the manager is initialized:
    only initialize and shutdown change them. *)
Record manager_ok (d i : bool) (m : PluginManager) : Prop := {
  ok_enabled n : isPluginEnabled n m = true → is_Some (loadedPlugins (loader m) !! n);
  ok_commands n : commands_of n (dispatched m) = Registered →
    isPluginEnabled n m = true ∧ dispatcher m = true ∧
    ∃ info, loadedPlugins (loader m) !! n = Some info ∧ is_command info = true;
  ok_flags : dispatcher m = d ∧ initialized m = i
}.

Lemma commands_of_snoc n calls c : commands_of n (calls ++ [c]) = registered_after n (commands_of n calls) c.
Proof. unfold commands_of. by rewrite foldl_app. Qed.

(** Commands are left behind only by a call that threw. *)
Lemma left_behind n calls : commands_of n calls = LeftBehind → (UnregisterCommands n, false) ∈ calls.
Proof.
  induction calls as [|c calls IH] using rev_ind; [done|]. rewrite commands_of_snoc, elem_of_app.
  destruct c as [[k|k|k] b]; cbn; [| |auto];
    destruct (String.eqb_spec k n) as [->|]; try (by auto). destruct b; [done|]. intros _. right. by left.
Qed.

Section flags.
Context (dd ini : bool).

Lemma notify_ok e n m : manager_ok dd ini m → manager_ok dd ini (notifyEvent e n m).
Proof. unfold notifyEvent. intros [? ? ?]. by destruct (enableEventNotifications _). Qed.
Lemma notify_loader e n m : loader (notifyEvent e n m) = loader m.
Proof. unfold notifyEvent. by destruct (enableEventNotifications _). Qed.
Lemma notify_enabled e n m k : isPluginEnabled k (notifyEvent e n m) = isPluginEnabled k m.
Proof. unfold notifyEvent. by destruct (enableEventNotifications _). Qed.
Lemma notify_initialized e n m : initialized (notifyEvent e n m) = initialized m.
Proof. unfold notifyEvent. by destruct (enableEventNotifications _). Qed.

Lemma enabled_insert n b k (m : PluginManager) :
  default false (<[n := b]> (enabledPlugins m) !! k) = if String.eqb n k then b else isPluginEnabled k m.
Proof.
  unfold isPluginEnabled. destruct (String.eqb_spec n k) as [->|Hn]; [by rewrite lookup_insert_eq|by rewrite lookup_insert_ne].
Qed.

(** Switching one plugin. *)
Lemma switch_ok n b m m' : manager_ok dd ini m →
  loader m' = loader m → dispatcher m' = dispatcher m → initialized m' = initialized m →
  enabledPlugins m' = <[n := b]> (enabledPlugins m) →
  (∀ k, n ≠ k → commands_of k (dispatched m') = commands_of k (dispatched m)) →
  (b = true → is_Some (loadedPlugins (loader m) !! n)) →
  (commands_of n (dispatched m') = Registered →
     b = true ∧ dispatcher m = true ∧ ∃ info, loadedPlugins (loader m) !! n = Some info ∧ is_command info = true) →
  manager_ok dd ini m'.
Proof.
  intros [H1 H2 H3] El Ed Ei Ee Hc Hb Hn.
  assert (E : ∀ k, isPluginEnabled k m' = if String.eqb n k then b else isPluginEnabled k m).
  { intros k. unfold isPluginEnabled at 1. by rewrite Ee, enabled_insert. }
  split; rewrite ?El, ?Ed, ?Ei; [intros k|intros k|exact H3]; rewrite E;
    (destruct (String.eqb_spec n k) as [<-|Hk]; [|rewrite ?(Hc k Hk)]); auto.
Qed.

Lemma enable_ok n m : manager_ok dd ini m → manager_ok dd ini (enablePlugin n m).1.
Proof.
  intros Hm. unfold enablePlugin, getPlugin. destruct (loadedPlugins (loader m) !! n) as [info|] eqn:Hn; [|done].
  destruct (isPluginEnabled n m) eqn:He; [done|]. apply notify_ok.
  assert (Hno : commands_of n (dispatched m) = Registered → False) by (intros (E & _)%(ok_commands dd ini m Hm); congruence).
  apply (switch_ok n true m); [done|..];
    (destruct (is_command info && dispatcher m) eqn:Hc; [apply andb_true_iff in Hc as [Hc Hd]|];
     cbn; destruct (is_controller info && app m)); cbn; try done; try (intros k Hk); rewrite ?commands_of_snoc; cbn [registered_after]; rewrite ?String.eqb_refl;
    try (by intros ?%Hno); try (by destruct (String.eqb_spec n k)); by eauto.
Qed.

Lemma disable_ok n m : manager_ok dd ini m → manager_ok dd ini (disablePlugin n m).1.
Proof.
  intros Hm. unfold disablePlugin, getPlugin. destruct (loadedPlugins (loader m) !! n) as [info|] eqn:Hn; [|done].
  destruct (isPluginEnabled n m) eqn:He; cbn [negb]; [|done]. apply notify_ok.
  apply (switch_ok n false m); [done|..]; destruct (is_command info && dispatcher m) eqn:Hc; cbn; try done;
    try (intros k Hk); rewrite ?commands_of_snoc; cbn [registered_after]; rewrite ?String.eqb_refl; try done.
  - by destruct (String.eqb_spec n k).
  - by destruct (call_returns _ _).
  - intros (_ & Hd & info' & Hi & Hc')%(ok_commands dd ini m Hm). rewrite Hi in Hn. injection Hn as ->. by rewrite Hc', Hd in Hc.
Qed.

Lemma disable_loader n m : loader (disablePlugin n m).1 = loader m.
Proof.
  unfold disablePlugin. destruct (getPlugin n (loader m)); [|done]. destruct (negb _); [done|].
  cbn. rewrite notify_loader. by destruct (is_command _ && _).
Qed.

Lemma disable_initialized n m : initialized (disablePlugin n m).1 = initialized m.
Proof.
  unfold disablePlugin. destruct (getPlugin n (loader m)); [|done]. destruct (negb _); [done|].
  cbn. rewrite notify_initialized. by destruct (is_command _ && _).
Qed.

(** Disabling turns one plugin off, if a sound manager had it on. *)
Lemma disable_enabled n m k : manager_ok dd ini m →
  isPluginEnabled k (disablePlugin n m).1 = isPluginEnabled k m && negb (String.eqb n k).
Proof.
  intros [H1 _ _]. unfold disablePlugin, getPlugin.
  destruct (loadedPlugins (loader m) !! n) as [info|] eqn:Hn;
    [|cbn; destruct (String.eqb_spec n k) as [<-|]; [|by rewrite andb_true_r];
      destruct (isPluginEnabled n m) eqn:E; [|done]; apply H1 in E; rewrite Hn in E; by apply is_Some_None in E].
  destruct (isPluginEnabled n m) eqn:He; cbn [negb];
    [|cbn; destruct (String.eqb_spec n k) as [<-|]; [by rewrite He|by rewrite andb_true_r]].
  cbn. rewrite notify_enabled. unfold isPluginEnabled at 1. destruct (is_command info && dispatcher m); cbn;
    rewrite enabled_insert; by destruct (String.eqb n k); rewrite ?andb_false_r, ?andb_true_r.
Qed.

(** The loader may change as long as the enabled plugins stay, of the same kind. *)
Lemma with_loader_ok (m : PluginManager) (l : PluginLoader) : manager_ok dd ini m →
  (∀ n info, isPluginEnabled n m = true → loadedPlugins (loader m) !! n = Some info →
     ∃ info', loadedPlugins l !! n = Some info' ∧ is_command info' = is_command info) →
  manager_ok dd ini (m <| loader := l |>).
Proof.
  intros [H1 H2 H3] Hl. split; cbn.
  - intros n Hn. destruct (H1 n Hn) as [info Hi]. destruct (Hl n info Hn Hi) as (info' & ? & _). eauto.
  - intros n Hn. destruct (H2 n Hn) as (He & Hd & info & Hi & Hc). destruct (Hl n info He Hi) as (info' & Hi' & E).
    split; [done|]. split; [done|]. exists info'. by rewrite E.
  - exact H3.
Qed.

Lemma load_keeps path cfg (l : PluginLoader) n info : loadedPlugins l !! n = Some info →
  loadedPlugins (PluginLoader.loadPlugin json_empty exists_file path cfg l).1 !! n = Some info.
Proof.
  intros Hn. pose proof (loadPlugin_correct json_empty exists_file path cfg l) as H.
  destruct (PluginLoader.loadPlugin json_empty exists_file path cfg l) as [l' [i|e]]; cbn.
  - destruct H as (o & w & [] & _ & _ & ->). rewrite lookup_insert_ne; [done|]. congruence.
  - destruct H as (_ & -> & _). done.
Qed.

Lemma unload_keeps k l n info : k ≠ n → loadedPlugins l !! n = Some info →
  loadedPlugins (PluginLoader.unloadPlugin k l).1 !! n = Some info.
Proof.
  intros Hk Hn. unfold PluginLoader.unloadPlugin. destruct (loadedPlugins l !! k); [|done]. cbn. by rewrite lookup_delete_ne.
Qed.

(** What happens after the loader has loaded a plugin. *)
Lemma loaded_ok r en ev (f g : LoadedPluginInfo → string) b m : manager_ok dd ini (m <| loader := r.1 |>) →
  manager_ok dd ini (loaded r en ev f g b m).1.
Proof.
  intros Hm. unfold loaded. destruct r as [l [info|e]]; cbn; [|by apply notify_ok].
  destruct b; [apply enable_ok|]; by apply notify_ok.
Qed.

Lemma loadPath_ok path cfg m : manager_ok dd ini m →
  manager_ok dd ini (m <| loader := (PluginLoader.loadPlugin json_empty exists_file path cfg (loader m)).1 |>).
Proof.
  intros Hm. apply with_loader_ok; [done|]. intros n info _ Hn. exists info. split; [|done]. by apply load_keeps.
Qed.

Lemma manager_load_ok n cfg m : manager_ok dd ini m → manager_ok dd ini (loadPlugin exists_file n cfg m).1.
Proof.
  intros Hm. apply loaded_ok. unfold loadPluginByName. destruct (findPluginFile _ _ _); [by apply loadPath_ok|].
  by apply with_loader_ok; eauto.
Qed.

Lemma manager_unload_ok n m : manager_ok dd ini m → manager_ok dd ini (unloadPlugin n m).1.
Proof.
  intros Hm. unfold unloadPlugin. set (m1 := if isPluginEnabled n m then _ else m).
  assert (Hm1 : manager_ok dd ini m1) by (unfold m1; destruct (isPluginEnabled n m); [by apply disable_ok|done]).
  assert (Hoff : isPluginEnabled n m1 = false).
  { unfold m1. destruct (isPluginEnabled n m) eqn:E; [|done]. rewrite disable_enabled, String.eqb_refl; [apply andb_false_r|done]. }
  assert (Hl : manager_ok dd ini (m1 <| loader := (PluginLoader.unloadPlugin n (loader m1)).1 |>)).
  { apply with_loader_ok; [done|]. intros k info Hk Hi. exists info. split; [|done]. apply unload_keeps; [congruence|done]. }
  destruct (PluginLoader.unloadPlugin n (loader m1)) as [l [b|e]]; cbn; [by apply notify_ok|done].
Qed.

Lemma manager_reload_ok n m : manager_ok dd ini m → manager_ok dd ini (reloadPlugin exists_file n m).1.
Proof.
  intros Hm. unfold reloadPlugin. set (m1 := if isPluginEnabled n m then _ else m).
  assert (Hm1 : manager_ok dd ini m1) by (unfold m1; destruct (isPluginEnabled n m); [by apply disable_ok|done]).
  assert (Hoff : isPluginEnabled n m1 = false).
  { unfold m1. destruct (isPluginEnabled n m) eqn:E; [|done]. rewrite disable_enabled, String.eqb_refl; [apply andb_false_r|done]. }
  apply loaded_ok, with_loader_ok; [done|]. intros k info Hk Hi. exists info. split; [|done].
  unfold PluginLoader.reloadPlugin. destruct (loadedPlugins (loader m1) !! n) as [old|] eqn:Hn; [|done].
  assert (Hu : loadedPlugins (PluginLoader.unloadPlugin n (loader m1)).1 !! k = Some info) by (apply unload_keeps; [congruence|done]).
  destruct (PluginLoader.unloadPlugin n (loader m1)) as [l []]; [by apply load_keeps|done].
Qed.

Lemma manager_restart_ok n m : manager_ok dd ini m → manager_ok dd ini (restartPlugin exists_file n m).1.
Proof.
  intros Hm. unfold restartPlugin. set (m1 := if isPluginEnabled n m then _ else m).
  assert (Hm1 : manager_ok dd ini m1) by (unfold m1; destruct (isPluginEnabled n m); [by apply disable_ok|done]).
  pose proof (manager_reload_ok n m1 Hm1) as H. destruct (reloadPlugin exists_file n m1) as [m2 []]; [|done]. cbn.
  destruct (isPluginEnabled n m); [by apply enable_ok|done].
Qed.

Lemma foldl_ok {B} (f : PluginManager → B → PluginManager) bs m :
  (∀ m b, manager_ok dd ini m → manager_ok dd ini (f m b)) → manager_ok dd ini m → manager_ok dd ini (foldl f m bs).
Proof. intros Hf. revert m. induction bs as [|b bs IH]; intros m Hm; [done|]. by apply IH, Hf. Qed.

Lemma batch_ok {B} (f : string → PluginManager → PluginManager * B) ok names m :
  (∀ n m, manager_ok dd ini m → manager_ok dd ini (f n m).1) → manager_ok dd ini m → manager_ok dd ini (batch f ok names m).1.
Proof.
  intros Hf. unfold batch. generalize 0%nat. revert m. induction names as [|n names IH]; intros m k Hm; [done|]. cbn [foldl].
  pose proof (Hf n m Hm). destruct (f n m) as [m' b]. by apply IH.
Qed.

Lemma discover_ok empty m : manager_ok dd ini m → manager_ok dd ini (discoverAndLoadAll exists_file listing empty m).1.
Proof.
  intros Hm. unfold discoverAndLoadAll.
  assert (Hl : ∀ n info, loadedPlugins (loader m) !! n = Some info →
    loadedPlugins (loadAllDiscovered json_empty exists_file listing empty (loader m)).1 !! n = Some info).
  { intros n info. unfold loadAllDiscovered. generalize (discoverPlugins exists_file listing (loader m)). intros ps.
    generalize (loader m), 0%nat. induction ps as [|p ps IH]; intros l k Hn; [done|]. cbn [foldl load_one].
    pose proof (load_keeps p empty l n info Hn). destruct (PluginLoader.loadPlugin json_empty exists_file p empty l) as [l' r]. by apply IH. }
  destruct (loadAllDiscovered json_empty exists_file listing empty (loader m)) as [l k]. cbn in *.
  assert (manager_ok dd ini (m <| loader := l |>)) by (apply with_loader_ok; eauto).
  destruct (autoRegisterOnLoad (mgr_config m)); [|done]. apply foldl_ok; [|done]. intros; by apply enable_ok.
Qed.

Lemma load_entries_ok entries m : manager_ok dd ini m → manager_ok dd ini (load_entries exists_file entries m).1.
Proof.
  revert m. induction entries as [|e es IH]; intros m Hm; [done|]. cbn [load_entries].
  assert (He : manager_ok dd ini (load_entry exists_file e m).1).
  { unfold load_entry. destruct (jt_value jt_get_string _ _ _) as [n|]; [|done]. destruct (str_empty n); [done|].
    destruct (jt_value Some _ _ _) as [cfg|]; [|done].
    assert (manager_ok dd ini (updatePluginConfig n cfg m)) by (apply with_loader_ok; eauto).
    destruct (jt_value jt_get_bool _ _ _) as [[]|]; [by apply manager_load_ok|done..]. }
  destruct (load_entry exists_file e m) as [m' []]; [by apply IH|done].
Qed.

Lemma loadConfiguration_ok file m : manager_ok dd ini m → manager_ok dd ini (loadConfiguration exists_file file m).1.
Proof.
  intros Hm. unfold loadConfiguration. destruct file as [text|]; [|done]. destruct (jt_parse text) as [j|]; [|done].
  destruct (jt_find j "plugins") as [ps|]; [|done]. destruct (jt_is_array ps); [|done].
  pose proof (load_entries_ok (jt_elements ps) m Hm). by destruct (load_entries exists_file (jt_elements ps) m).
Qed.

(** Nothing is enabled after all have been disabled. *)
Lemma disable_all_off names m k : manager_ok dd ini m →
  isPluginEnabled k (foldl (λ m n, (disablePlugin n m).1) m names) = isPluginEnabled k m && negb (bool_decide (k ∈ names)).
Proof.
  revert m. induction names as [|n names IH]; intros m Hm; cbn; [by rewrite andb_true_r|].
  rewrite IH by (by apply disable_ok). rewrite disable_enabled by done. rewrite <- andb_assoc. f_equal.
  destruct (String.eqb_spec n k) as [->|Hn]; cbn.
  - symmetry. rewrite bool_decide_true by (by left). done.
  - f_equal. apply bool_decide_ext. set_solver.
Qed.

Lemma unloadAll_empty l : loadedPlugins (unloadAll l) = ∅.
Proof.
  unfold unloadAll. apply map_eq. intros n. rewrite lookup_empty.
  assert (H : ∀ ns l, loadedPlugins (foldl (λ l n, (PluginLoader.unloadPlugin n l).1) l ns) !! n =
                     if bool_decide (n ∈ ns) then None else loadedPlugins l !! n).
  { clear l. intros ns. induction ns as [|k ns IH]; intros l; [done|]. cbn [foldl]. rewrite IH.
    case_bool_decide as H1; [by rewrite bool_decide_true by (by right)|].
    destruct (decide (n = k)) as [->|Hk].
    - rewrite bool_decide_true by (by left). unfold PluginLoader.unloadPlugin.
      destruct (loadedPlugins l !! k) eqn:E; [|done]. cbn. by rewrite lookup_delete_eq.
    - rewrite bool_decide_false by set_solver. unfold PluginLoader.unloadPlugin.
      destruct (loadedPlugins l !! k); [|done]. cbn. by rewrite lookup_delete_ne. }
  rewrite H. case_bool_decide as Hn; [done|]. apply eq_None_not_Some. intros [i Hi]. apply Hn.
  rewrite list_elem_of_In, <- in_rev, <- list_elem_of_In. apply elem_of_iter_keys. eauto.
Qed.
End flags.

(** What a shutdown leaves. *)
Record all_off (m : PluginManager) : Prop := {
  off_loaded : loadedPlugins (loader m) = ∅;
  off_enabled n : isPluginEnabled n m = false;
  off_commands n : commands_of n (dispatched m) ≠ Registered;
  off_flags : initialized m = false ∧ app m = false ∧ dispatcher m = false
}.

Lemma shutdown_off d m : manager_ok d true m → all_off (shutdown m).
Proof.
  intros Hm. unfold shutdown. rewrite (proj2 (ok_flags _ _ _ Hm)). cbn [negb]. set (m1 := foldl _ m _).
  assert (H1 : manager_ok d true m1) by (apply foldl_ok; [intros; by apply disable_ok|done]).
  assert (Hoff : ∀ n, isPluginEnabled n m1 = false).
  { intros n. unfold m1. rewrite (disable_all_off d true) by done. destruct (isPluginEnabled n m) eqn:E; [|done].
    rewrite bool_decide_true; [done|]. apply elem_of_iter_keys. unfold isPluginEnabled in E.
    by destruct (enabledPlugins m !! n). }
  split; cbn; [apply unloadAll_empty|exact Hoff| |done].
  intros n E. destruct (ok_commands _ _ m1 H1 n E) as (E' & _). by rewrite Hoff in E'.
Qed.

(** Between calls the manager has a dispatcher only when it is initialized. *)
Definition manager_inv (m : PluginManager) : Prop :=
  manager_ok (dispatcher m) (initialized m) m ∧ (dispatcher m = true → initialized m = true).

Lemma inv_intro d i m : manager_ok d i m → (d = true → i = true) → manager_inv m.
Proof. intros Hm. pose proof (ok_flags d i m Hm) as [<- <-]. by split. Qed.

Lemma initialize_inv d file m : manager_inv m → manager_inv (initialize exists_file d file m).
Proof.
  intros [Hm Hdi]. unfold initialize. destruct (initialized m) eqn:Hi; [by split; rewrite Hi|].
  assert (Hd : dispatcher m = false) by (apply not_true_is_false; intros E; discriminate (Hdi E)).
  assert (Hc : ∀ n, commands_of n (dispatched m) ≠ Registered).
  { intros n (_ & E & _)%(ok_commands _ _ m Hm). congruence. }
  set (m0 := m <| app := true |> <| dispatcher := d |>).
  assert (H0 : manager_ok d false m0).
  { split; [exact (ok_enabled _ _ m Hm)|intros n; cbn; by intros ?%Hc|done]. }
  assert (H1 : manager_ok d false (match file with Some _ => (loadConfiguration exists_file file m0).1 | None => m0 end))
    by (destruct file; [by apply loadConfiguration_ok|done]).
  destruct H1 as [H1 H2 [H3 _]]. apply (inv_intro d true); [|done].
  split; [exact H1|exact H2|by split].
Qed.

Lemma shutdown_inv m : manager_inv m → manager_inv (shutdown m).
Proof.
  intros [Hm Hdi]. destruct (initialized m) eqn:Hi; [|unfold shutdown; rewrite Hi; cbn [negb]; by split; rewrite ?Hi].
  destruct (shutdown_off _ m Hm) as [Hl He Hc (Hf & _ & Hd)].
  apply (inv_intro false false); [|done]. split; [intros n; by rewrite He|intros n; by intros ?%Hc|done].
Qed.

(** ** Runs *)

Inductive manager_op :=
| MLoad (name : string) (cfg : J) | MLoadPath (path : string) (cfg : J) | MUnload (name : string) | MReload (name : string)
| MRestart (name : string) | MEnable (name : string) | MDisable (name : string) | MDiscover (empty : J)
| MBatchLoad (null : J) (names : list string) | MBatchUnload (names : list string) | MBatchEnable (names : list string)
| MBatchDisable (names : list string) | MCreateGroup (g : PluginGroup) | MDeleteGroup (name : string)
| MAddToGroup (plugin name : string) | MRemoveFromGroup (plugin name : string) | MEnableGroup (name : string)
| MDisableGroup (name : string) | MPause (name : string) | MResume (name : string) | MAction (name action : string) (params : J)
| MUpdateConfig (name : string) (cfg : J) | MLoadConfiguration (file : option string) | MSubscribe | MUnsubscribe (id : Z)
| MInitialize (has_dispatcher : bool) (file : option string) | MShutdown.

Definition manager_step (o : manager_op) (m : PluginManager) : PluginManager :=
  match o with
  | MLoad name cfg => (loadPlugin exists_file name cfg m).1
  | MLoadPath path cfg => (loadPluginFromPath exists_file path cfg m).1
  | MUnload name => (unloadPlugin name m).1
  | MReload name => (reloadPlugin exists_file name m).1
  | MRestart name => (restartPlugin exists_file name m).1
  | MEnable name => (enablePlugin name m).1
  | MDisable name => (disablePlugin name m).1
  | MDiscover empty => (discoverAndLoadAll exists_file listing empty m).1
  | MBatchLoad null names => (batchLoad exists_file null names m).1
  | MBatchUnload names => (batchUnload names m).1
  | MBatchEnable names => (batchEnable names m).1
  | MBatchDisable names => (batchDisable names m).1
  | MCreateGroup g => createGroup g m
  | MDeleteGroup name => deleteGroup name m
  | MAddToGroup plugin name => addToGroup plugin name m
  | MRemoveFromGroup plugin name => removeFromGroup plugin name m
  | MEnableGroup name => (enableGroup name m).1
  | MDisableGroup name => (disableGroup name m).1
  | MPause name => (pausePlugin name m).1
  | MResume name => (resumePlugin name m).1
  | MAction name action params => (executeAction name action params m).1
  | MUpdateConfig name cfg => updatePluginConfig name cfg m
  | MLoadConfiguration file => (loadConfiguration exists_file file m).1
  | MSubscribe => (subscribeToEvents m).1
  | MUnsubscribe id => unsubscribeFromEvents id m
  | MInitialize d file => initialize exists_file d file m
  | MShutdown => shutdown m
  end.
Definition manager_run (ops : list manager_op) (m : PluginManager) : PluginManager := foldl (λ m o, manager_step o m) m ops.

Definition new_manager (cfg : PluginManagerConfig) (lcfg : PluginLoaderConfig) (w : W) : PluginManager :=
  mkPluginManager cfg (mkPluginLoader lcfg w ∅ ∅) false false ∅ ∅ 0 false ∅ [] [].

(** An operation of the loader that replaces the entry of one plugin. *)
Lemma replace_ok d i n m l : manager_ok d i m →
  (loadedPlugins l = loadedPlugins (loader m) ∨
   ∃ info info', loadedPlugins (loader m) !! n = Some info ∧ loadedPlugins l = <[n := info']> (loadedPlugins (loader m)) ∧
     is_command info' = is_command info) →
  manager_ok d i (m <| loader := l |>).
Proof.
  intros Hm Hl. apply with_loader_ok; [done|]. intros k info _ Hk.
  destruct Hl as [->|(i1 & i2 & H1 & -> & E)]; [by eauto|].
  destruct (decide (n = k)) as [->|Hn]; [rewrite lookup_insert_eq|rewrite lookup_insert_ne by done; by eauto].
  exists i2. split; [done|]. congruence.
Qed.

Lemma manager_step_ok d i o m : manager_ok d i m →
  match o with MInitialize _ _ | MShutdown => True | _ => manager_ok d i (manager_step o m) end.
Proof.
  intros Hm. destruct o; cbn [manager_step]; try done; auto using manager_load_ok, manager_unload_ok, manager_reload_ok,
    manager_restart_ok, enable_ok, disable_ok, discover_ok, batch_ok, loadConfiguration_ok.
  all: try (by destruct Hm).
  - by apply loaded_ok, loadPath_ok.
  - apply batch_ok; auto using manager_load_ok.
  - apply batch_ok; auto using manager_unload_ok.
  - apply batch_ok; auto using enable_ok.
  - apply batch_ok; auto using disable_ok.
  - unfold enableGroup. destruct (getGroup name m); [|done]. by apply batch_ok; auto using enable_ok.
  - unfold disableGroup. destruct (getGroup name m); [|done]. by apply batch_ok; auto using disable_ok.
  - unfold pausePlugin, PluginLoader.pausePlugin. destruct (loadedPlugins (loader m) !! name) as [p|] eqn:E;
      [destruct (ph_pause _ _) as [w []]|]; cbn; try apply notify_ok; apply (replace_ok _ _ name); cbn; eauto 10.
  - unfold resumePlugin, PluginLoader.resumePlugin. destruct (loadedPlugins (loader m) !! name) as [p|] eqn:E;
      [destruct (ph_resume _ _) as [w []]|]; cbn; try apply notify_ok; apply (replace_ok _ _ name); cbn; eauto 10.
  - unfold executeAction, executePluginAction. destruct (loadedPlugins (loader m) !! name) as [p|] eqn:E;
      [destruct (ph_executeAction _ _ _ _) as [w j]|]; cbn; apply notify_ok; apply (replace_ok _ _ name); cbn; eauto.
Qed.

Lemma plugin_step_inv o m : manager_inv m → manager_inv (manager_step o m).
Proof.
  intros Hm. pose proof (manager_step_ok _ _ o m (proj1 Hm)) as H.
  destruct o; try (by eapply inv_intro; [exact H|exact (proj2 Hm)]); [by apply initialize_inv|by apply shutdown_inv].
Qed.

Lemma plugin_run_inv ops m : manager_inv m → manager_inv (manager_run ops m).
Proof. revert m. induction ops as [|o ops IH]; intros m Hm; [done|]. by apply IH, plugin_step_inv. Qed.

(** [C35] After any calls, whatever the plugins throw: every enabled plugin is
    loaded, and a plugin has its commands at the dispatcher only while it is
    enabled, loaded and a plugin with commands, and the manager initialized, or
    because taking them back threw.  A shutdown of an initialized manager leaves
    nothing loaded or enabled, and commands only of plugins for which taking them
    back threw; routes are never taken back (see [routes_registered_twice]). *)
Theorem plugin_manager_safe (cfg : PluginManagerConfig) (lcfg : PluginLoaderConfig) (w : W) (ops : list manager_op) :
  let m := manager_run ops (new_manager cfg lcfg w) in
  (∀ n, isPluginEnabled n m = true → is_Some (loadedPlugins (loader m) !! n)) ∧
  (∀ n, match commands_of n (dispatched m) with
        | NotThere => True
        | Registered => isPluginEnabled n m = true ∧ initialized m = true ∧
            ∃ info, loadedPlugins (loader m) !! n = Some info ∧ is_command info = true
        | LeftBehind => (UnregisterCommands n, false) ∈ dispatched m
        end) ∧
  (initialized m = true → all_off (shutdown m) ∧
     ∀ n, commands_of n (dispatched (shutdown m)) = NotThere ∨ (UnregisterCommands n, false) ∈ dispatched (shutdown m)).
Proof.
  intros m. assert (Hm : manager_inv m).
  { apply plugin_run_inv. apply (inv_intro false false); [|done]. split; [intros n|intros n|done]; done. }
  destruct Hm as [Hm Hd]. split_and!.
  - exact (ok_enabled _ _ m Hm).
  - intros n. destruct (commands_of n (dispatched m)) eqn:E; [done| |by apply left_behind].
    apply (ok_commands _ _ m Hm) in E as (He & Hdi & Hi). auto.
  - intros Hi. rewrite Hi in Hm. pose proof (shutdown_off _ m Hm) as Hoff. split; [done|]. intros n.
    destruct (commands_of n (dispatched (shutdown m))) eqn:E; [by left|by destruct (off_commands _ Hoff n)|right; by apply left_behind].
Qed.

(** ** The configuration file *)

(** Reading back a saved file configures and loads every plugin with a name, in the
    order saved, with its configuration; whether it was enabled and where its file
    was have no effect. *)
Theorem loadConfiguration_correct (text : string) (m0 m : PluginManager) :
  jt_parse text = Ok (config_document m0) →
  loadConfiguration exists_file (Some text) m =
    (foldl (λ m info, (loadPlugin exists_file (pi_name info) (config info) (updatePluginConfig (pi_name info) (config info) m)).1)
       m (filter (λ info, pi_name info ≠ ""%string) (getAllPlugins (loader m0))), true).
Proof.
  intros Hp. unfold loadConfiguration. rewrite Hp. unfold config_document. rewrite find_object. cbn [assoc String.eqb].
  cbn. unfold jt_is_array, jt_elements. rewrite shape_array.
  assert (He : ∀ info m, load_entry exists_file (plugin_entry m0 info) m =
    (if str_empty (pi_name info) then m
     else (loadPlugin exists_file (pi_name info) (config info) (updatePluginConfig (pi_name info) (config info) m)).1, Ok tt)).
  { intros info m1. unfold load_entry, plugin_entry. rewrite !value_object. cbn. rewrite get_string_law, get_bool_law.
    by destruct (str_empty (pi_name info)). }
  generalize (getAllPlugins (loader m0)). intros infos.
  enough (H : load_entries exists_file (map (plugin_entry m0) infos) m =
    (foldl (λ m info, (loadPlugin exists_file (pi_name info) (config info) (updatePluginConfig (pi_name info) (config info) m)).1)
       m (filter (λ info, pi_name info ≠ ""%string) infos), Ok tt)) by by rewrite H.
  revert m. induction infos as [|info infos IH]; intros m; [done|]. cbn [map load_entries]. rewrite He, IH, filter_cons.
  destruct (str_empty (pi_name info)) eqn:E; case_decide as Hn; try done.
  - destruct Hn. by destruct (pi_name info).
  - by rewrite Hn in E.
Qed.

(** ** Searching *)

Definition starts_star (s : string) : bool := match s with String c _ => Ascii.eqb c star | EmptyString => false end.
Definition ends_star (s : string) : bool := match rsplit star s with Some (_, EmptyString) => true | _ => false end.

Lemma str_take_drop k n : str_take k n +:+ str_drop k n = n.
Proof. revert k. induction n as [|c n IH]; intros [|k]; cbn; [done..|]. by rewrite IH. Qed.

Lemma ends_with_spec s n : ends_with s n = true ↔ ∃ p, n = p +:+ s.
Proof.
  unfold ends_with. rewrite andb_true_iff, Nat.leb_le, String.eqb_eq. split.
  - intros [Hl E]. exists (str_take (String.length n - String.length s) n).
    rewrite <- (str_take_drop (String.length n - String.length s) n) at 1. by rewrite E.
  - intros [p ->]. rewrite str_length_app. split; [lia|]. replace (_ + _ - _)%nat with (String.length p) by lia. apply str_drop_app.
Qed.

Lemma ends_star_snoc s : ends_star (s +:+ "*") = true.
Proof.
  unfold ends_star. assert (H : rsplit star (s +:+ "*") = Some (s, ""%string)); [|by rewrite H].
  induction s as [|c s IH]; [done|]. cbn [String.append rsplit]. by rewrite IH.
Qed.

(** A pattern matches by its stars at both ends, at the front, or at the end:
    the name contains, ends with or starts with the rest; without such a star the
    name is the pattern.  Stars inside are ordinary characters. *)
Theorem search_match_correct (s name : string) :
  (search_match ("*" +:+ (s +:+ "*")) name = true ↔ ∃ p q, name = p +:+ s +:+ q) ∧
  (ends_star ("*" +:+ s) = false → (search_match ("*" +:+ s) name = true ↔ ∃ p, name = p +:+ s)) ∧
  (starts_star (s +:+ "*") = false → (search_match (s +:+ "*") name = true ↔ ∃ q, name = s +:+ q)) ∧
  (starts_star s = false → ends_star s = false → (search_match s name = true ↔ name = s)) ∧
  search_match "*" name = true.
Proof.
  assert (Htake : ∀ t, str_take (String.length (t +:+ "*") - 1) (t +:+ "*") = t).
  { intros t. rewrite str_length_app. cbn. replace (_ + 1 - 1)%nat with (String.length t) by lia. apply str_take_app. }
  assert (Hne : ∀ t, str_empty (t +:+ "*") = false) by (by intros []).
  assert (Hs : ∀ t, starts_star ("*" +:+ t) = true) by done.
  assert (Hd : ∀ t, str_drop 1 ("*" +:+ t) = t) by (intros []; done).
  assert (E : ∀ pattern, search_match pattern name =
    let a := starts_star pattern in let b := ends_star pattern in
    let t := if a then str_drop 1 pattern else pattern in
    let t := if b && negb (str_empty t) then str_take (String.length t - 1) t else t in
    if a && b then contains_text t name else if a then ends_with t name
    else if b then String.prefix t name else String.eqb name pattern) by done.
  rewrite !E. split_and!.
  - assert (He : ends_star ("*" +:+ (s +:+ "*")) = true) by apply (ends_star_snoc ("*" +:+ s)).
    cbv zeta. rewrite He, Hs, Hd, Hne, Htake. apply contains_text_spec.
  - intros He. cbv zeta. rewrite He, Hs, Hd. apply ends_with_spec.
  - intros Hb. cbv zeta. rewrite Hb, ends_star_snoc, Hne, Htake. apply string_prefix_spec.
  - intros Ha Hb. cbv zeta. rewrite Ha, Hb. apply String.eqb_eq.
  - cbn. by destruct name.
Qed.
End properties.

(** ** Examples *)

Module Demo.

(** Plugins of both kinds that always start; the state of the world is not used. *)
#[local] Instance demo_host : PluginHost unit string jtree := {|
  ph_load _ _ w := (w, true); ph_unload _ w := w; ph_api_version _ _ := None;
  ph_create name w := Some (w, Some name); ph_destroy _ w := w; ph_type _ := Full;
  ph_metadata name _ := mkMetadata name "" "" "" "" "" "" 0 [] [] [] [] [];
  ph_initialize _ _ w := (w, true); ph_shutdown _ w := w; ph_state _ _ := Running;
  ph_pause _ w := (w, true); ph_resume _ w := (w, true); ph_updateConfig _ _ w := (w, true);
  ph_validateConfig _ _ _ := (true, ""%string); ph_actions _ _ := []; ph_executeAction _ _ _ w := (w, TNull) |}.

Definition saved : jtree :=
  TObj [("plugins"%string, TArr [TObj [("autoLoad"%string, TBool true); ("config"%string, TObj []); ("enabled"%string, TBool false);
                                       ("name"%string, TStr "cam"); ("path"%string, TStr "/p/cam.so")]])].
#[local] Instance demo_json : JsonTree jtree Z := jtree_json (λ _, "saved") (λ s, if String.eqb s "saved" then Some saved else None).
#[local] Instance demo_names : HashIter string := canonical_iter.
#[local] Instance demo_ids : HashIter Z := canonical_iter.
(** Taking back the commands of "libx" throws. *)
#[local] Instance demo_calls : PluginCalls :=
  λ c _, match c with UnregisterCommands n => negb (String.eqb n "x") | _ => true end.

Definition exists_in (files : list string) (path : string) : bool := bool_decide (path ∈ files).
Definition files : string → bool := exists_in ["/p/cam.so"; "/p/libx.so"].
Definition start : PluginManager (W := unit) (I := string) (J := jtree) :=
  new_manager (mkManagerConfig true true "plugins.json") (mkLoaderConfig "/p" [] 1) ().
Definition run : list manager_op → PluginManager (W := unit) (I := string) (J := jtree) → PluginManager :=
  manager_run files (λ _, []).

(** Enabling again registers the routes again. *)
Example routes_registered_twice :
  dispatched (run [MInitialize true None; MLoad "cam" (TObj []); MDisable "cam"; MEnable "cam"; MShutdown] start) =
    map (λ c, (c, true))
      [RegisterCommands "cam"; RegisterRoutes "cam"; UnregisterCommands "cam"; RegisterCommands "cam"; RegisterRoutes "cam";
       UnregisterCommands "cam"].
Proof. vm_compute. reflexivity. Qed.

(** A plugin that throws when it is to take back its commands is disabled and
    unloaded all the same, and its commands stay at the dispatcher. *)
Example commands_left_behind :
  let m := run [MInitialize true None; MLoadPath "/p/libx.so" (TObj []); MUnload "x"] start in
  commands_of "x" (dispatched m) = LeftBehind ∧ loadedPlugins (loader m) !! "x"%string = None.
Proof. vm_compute. split; reflexivity. Qed.

(** What is loaded before the start is enabled without its commands. *)
Example loaded_before_initialize :
  let m := run [MLoad "cam" (TObj []); MInitialize true None; MEnable "cam"] start in
  isPluginEnabled "cam" m = true ∧ dispatcher m = true ∧ dispatched m = [].
Proof. vm_compute. repeat split. Qed.

(** A plugin asked for as "libx" is stored as "x", and nothing is enabled. *)
Example lib_names :
  let m := run [MInitialize true None; MLoad "libx" (TObj [])] start in
  iter_keys (loadedPlugins (loader m)) = ["x"%string] ∧ isPluginEnabled "x" m = false ∧ isPluginEnabled "libx" m = false.
Proof. vm_compute. repeat split. Qed.

Definition disabled : PluginManager := run [MInitialize true None; MLoad "cam" (TObj []); MDisable "cam"] start.

(** A plugin saved as disabled is enabled by the next start. *)
Example loadConfiguration_correct_witness :
  config_document disabled = saved ∧ isPluginEnabled "cam" disabled = false ∧
  loadConfiguration files (Some "saved"%string) start =
    (foldl (λ m info, (loadPlugin files (pi_name info) (config info) (updatePluginConfig (pi_name info) (config info) m)).1)
       start (filter (λ info, pi_name info ≠ ""%string) (getAllPlugins (loader disabled))), true) ∧
  isPluginEnabled "cam" (loadConfiguration files (Some "saved"%string) start).1 = true.
Proof.
  split; [vm_compute; reflexivity|]. split; [vm_compute; reflexivity|]. split; [|vm_compute; reflexivity].
  apply (loadConfiguration_correct files "saved" disabled start). vm_compute. reflexivity.
Defined.

End Demo.
