(* ===== verification/ConfigRegistry.v ===== *)
(** * ConfigRegistry: the sections of the configuration

    Models class ConfigRegistry of src/src/config/core/config_registry.hpp and
    config_registry.cpp, with the validation results of configurable.hpp: sections
    and components registered by path on top of a [ConfigManager], defaults, loading
    from files, updates with validation, subscriptions, import and export.  The file
    system, the parser that skips comments, [ConfigManager::flatten], which is declared
    and never defined, and the components ([IConfigurable]) are parameters.  What
    subscribers, components and the file watcher are told is recorded in [calls].
    Every method is one step; the readings of the clock in it are a stream. *)

From S2P Require Import Prelude Text JsonCodec JsonTree Cache ConfigSerializer ConfigValidator ConfigManager.

(** ** Data *)

Inductive ConfigFormat := FORMAT_JSON | FORMAT_JSON5 | FORMAT_YAML | FORMAT_AUTO.

Record ConfigLoadOptions := mkLoadOptions {
  load_format : ConfigFormat;
  strict : bool;
  mergeWithExisting : bool;
  enableWatch : bool
}.
Definition default_load_options : ConfigLoadOptions := mkLoadOptions FORMAT_AUTO true true false.

Record ConfigValidationError := mkConfigError { error_path : string; error_message : string; keyword : string }.
Record ConfigValidationResult := mkConfigResult { valid : bool; errors : list ConfigValidationError }.
Definition no_errors : ConfigValidationResult := mkConfigResult true [].
Definition addError (path message keyword : string) (r : ConfigValidationResult) : ConfigValidationResult :=
  mkConfigResult false (errors r ++ [mkConfigError path message keyword]).
(** The errors of [b] behind those of [a]. *)
Definition combine_results (a b : ConfigValidationResult) : ConfigValidationResult :=
  mkConfigResult (valid a && valid b) (errors a ++ errors b).

(** An object that implements IConfigurable; [C] are their addresses. *)
Class Configurable (C J : Type) := {
  getConfigPath : C → string;
  getConfigSchema : C → J;
  getDefaultConfig : C → J;
  supportsRuntimeReconfig : C → bool
}.

Record SectionInfo (J : Type) := mkSectionInfo {
  section_path : string;
  schemaGenerator : option J;
  defaultGenerator : option J;
  validator : option (J → ConfigValidationResult);
  runtimeReconfig : bool
}.
Arguments mkSectionInfo {J}.
Arguments section_path {J}.
Arguments schemaGenerator {J}.
Arguments defaultGenerator {J}.
Arguments validator {J}.
Arguments runtimeReconfig {J}.

(** A type with PATH, generateSchema, defaults and deserialize. *)
Record ConfigSection (J T : Type) := mkConfigSection {
  PATH : string;
  generateSchema : J;
  defaults_json : J;
  deserialize : J → result string T
}.
Arguments mkConfigSection {J T}.
Arguments PATH {J T}.
Arguments generateSchema {J T}.
Arguments defaults_json {J T}.
Arguments deserialize {J T}.

Record ConfigSubscription := mkConfigSubscription { subscription_id : nat; pathPattern : string }.

(** [fs::path::operator<] on POSIX systems. *)
Fixpoint strings_ltb (a b : list string) : bool :=
  match a, b with
  | [], _ :: _ => true
  | _, [] => false
  | x :: a', y :: b' => str_ltb x y || (String.eqb x y && strings_ltb a' b')
  end.
Definition path_ltb (a b : string) : bool :=
  let absolute p := match p with String c _ => Ascii.eqb c "/"%char | EmptyString => false end in
  if Bool.eqb (absolute a) (absolute b) then strings_ltb (segments a) (segments b) else absolute b.

Definition has_extension (exts : list string) (path : string) : bool :=
  existsb (String.eqb (str_tolower (path_extension path))) exts.
Definition detect_format (path : string) (f : ConfigFormat) : ConfigFormat :=
  match f with
  | FORMAT_AUTO => if has_extension [".yaml"; ".yml"]%string path then FORMAT_YAML
                   else if has_extension [".json5"]%string path then FORMAT_JSON5 else FORMAT_JSON
  | f => f
  end.

(** Does a subscription to [pattern] hear of [path]? *)
Definition pattern_matches (pattern path : string) : bool :=
  match rsplit "*"%char pattern with
  | Some (prefix, EmptyString) => String.prefix prefix path
  | _ => String.eqb pattern path
  end.

(** ** The registry *)

Section registry.
Context `{JP : JsonPrinter J F, FO : !Floats F, HI : !HashIter string, SS : !StdSort}.
Context {C : Type} `{EqDecision C} `{CO : Configurable C J}.
Context (size_of_float : F → Z) (regex_match : string → string → option bool).
Context (exists_file : string → bool) (read_file : string → option string) (parse_comments : string → result string J).
Abbreviation ConfigManager := (@ConfigManager J).

Inductive registry_call :=
| Notified (id : nat) (oldValue newValue : J)
| Applied (component : C) (value : J)
| Changed (component : C) (path : string) (value : J)
| Watched (path : string).

Record ConfigRegistry := mkRegistry {
  configManager : option ConfigManager;
  sections : gmap string (SectionInfo J);
  components : list C;
  loadedFiles : list string;
  subscriptions : list ConfigSubscription;
  nextSubscriptionId : nat;
  calls : list registry_call
}.
#[export] Instance ConfigRegistry_eta : Eta ConfigRegistry := λ r,
  mkRegistry (configManager r) (sections r) (components r) (loadedFiles r) (subscriptions r) (nextSubscriptionId r) (calls r).
#[export] Instance configManager_upd : Upd configManager. Proof. derive_upd. Defined.
#[export] Instance sections_upd : Upd sections. Proof. derive_upd. Defined.
#[export] Instance components_upd : Upd components. Proof. derive_upd. Defined.
#[export] Instance loadedFiles_upd : Upd loadedFiles. Proof. derive_upd. Defined.
#[export] Instance subscriptions_upd : Upd subscriptions. Proof. derive_upd. Defined.
#[export] Instance nextSubscriptionId_upd : Upd nextSubscriptionId. Proof. derive_upd. Defined.
#[export] Instance calls_upd : Upd calls. Proof. derive_upd. Defined.
Definition new_registry : ConfigRegistry := mkRegistry None ∅ [] [] [] 1 [].

Definition setConfigManager (m : option ConfigManager) (r : ConfigRegistry) : ConfigRegistry := r <| configManager := m |>.

Definition registerSectionInfo (path : string) (info : SectionInfo J) (r : ConfigRegistry) : ConfigRegistry :=
  let r := r <| sections ::= <[path := info]> |> in
  match configManager r, schemaGenerator info with
  | Some m, Some schema => r <| configManager := Some (set_schema schema m).1 |>
  | _, _ => r
  end.

Definition section_info {T} (s : ConfigSection J T) : SectionInfo J :=
  mkSectionInfo (PATH s) (Some (generateSchema s)) (Some (defaults_json s))
    (Some (λ j, match deserialize s j with Ok _ => no_errors | Throw what => addError (PATH s) what "deserialize" no_errors end))
    true.
Definition registerSection {T} (s : ConfigSection J T) (r : ConfigRegistry) : ConfigRegistry :=
  registerSectionInfo (PATH s) (section_info s) r.

Definition component_info (c : C) : SectionInfo J :=
  mkSectionInfo (getConfigPath c) (Some (getConfigSchema c)) (Some (getDefaultConfig c)) None (supportsRuntimeReconfig c).
Definition registerComponent (c : C) (r : ConfigRegistry) : ConfigRegistry :=
  if bool_decide (c ∈ components r) then r
  else r <| components ::= λ l, l ++ [c] |> <| sections ::= <[getConfigPath c := component_info c]> |>.

Fixpoint erase_component (c : C) (l : list C) : list C :=
  match l with
  | [] => []
  | x :: rest => if decide (x = c) then rest else x :: erase_component c rest
  end.
Definition unregisterComponent (c : C) (r : ConfigRegistry) : ConfigRegistry :=
  if bool_decide (c ∈ components r)
  then r <| components ::= erase_component c |> <| sections ::= delete (getConfigPath c) |>
  else r.

Definition hasSection (path : string) (r : ConfigRegistry) : bool := bool_decide (is_Some (sections r !! path)).
Definition getRegisteredSections (r : ConfigRegistry) : list string := iter_keys (sections r).

(** ** Values *)

Definition getValue (path : string) (now : Z) (r : ConfigRegistry) : ConfigRegistry * option J :=
  match configManager r with
  | None => (r, None)
  | Some m => let '(m, v) := get path now m in (r <| configManager := Some m |>, v)
  end.
Definition getSection {T} (s : ConfigSection J T) (now : Z) (r : ConfigRegistry) : ConfigRegistry * option T :=
  let '(r, v) := getValue (PATH s) now r in
  (r, match v with Some j => match deserialize s j with Ok t => Some t | Throw _ => None end | None => None end).
Definition getSectionOrDefault {T} (s : ConfigSection J T) (defaults : T) (now : Z) (r : ConfigRegistry) : ConfigRegistry * T :=
  let '(r, v) := getSection s now r in (r, default defaults v).

(** The defaults of the sections, in turn; each [set] reads the clock. *)
Fixpoint set_defaults (clock : nat → Z) (secs : list (string * SectionInfo J)) (m : ConfigManager) : ConfigManager :=
  match secs with
  | [] => m
  | (path, info) :: rest =>
      match defaultGenerator info with
      | Some d => set_defaults (λ n, clock (S n)) rest (set size_of_float regex_match path d (clock 0) m).1
      | None => set_defaults clock rest m
      end
  end.
Definition applyDefaults (clock : nat → Z) (r : ConfigRegistry) : ConfigRegistry :=
  match configManager r with
  | None => r
  | Some m => r <| configManager := Some (set_defaults clock (iter_map (sections r)) m) |>
  end.

(** ** Subscriptions *)

Definition subscribe (path : string) (r : ConfigRegistry) : ConfigRegistry * nat :=
  let id := nextSubscriptionId r in
  (r <| nextSubscriptionId := S id |> <| subscriptions ::= λ l, l ++ [mkConfigSubscription id path] |>, id).
Fixpoint erase_subscription (id : nat) (l : list ConfigSubscription) : list ConfigSubscription :=
  match l with
  | [] => []
  | s :: rest => if (subscription_id s =? id)%nat then rest else s :: erase_subscription id rest
  end.
Definition unsubscribe (id : nat) (r : ConfigRegistry) : ConfigRegistry * bool :=
  if existsb (λ s, (subscription_id s =? id)%nat) (subscriptions r)
  then (r <| subscriptions ::= erase_subscription id |>, true)
  else (r, false).
Definition unsubscribeAll (path : string) (r : ConfigRegistry) : ConfigRegistry :=
  r <| subscriptions ::= filter (λ s, pathPattern s ≠ path) |>.

Definition notifySubscribers (path : string) (oldValue newValue : J) (r : ConfigRegistry) : ConfigRegistry :=
  r <| calls ::= λ l, l ++ map (λ s, Notified (subscription_id s) oldValue newValue)
                          (filter (λ s, pattern_matches (pathPattern s) path = true) (subscriptions r)) |>.

(** ** Updates *)

Definition changed_components (path : string) (r : ConfigRegistry) : list C :=
  filter (λ c, String.eqb (getConfigPath c) path || String.prefix (getConfigPath c) path = true) (components r).

Definition updateSectionJson (path : string) (value : J) (clock : nat → Z) (r : ConfigRegistry)
  : ConfigRegistry * ConfigValidationResult :=
  match configManager r with
  | None => (r, addError path "ConfigManager not set" "internal" no_errors)
  | Some m =>
      let '(m, oldValue) := get path (clock 0) m in
      let checked := match sections r !! path with
                     | Some info => match validator info with Some v => v value | None => no_errors end
                     | None => no_errors
                     end in
      if negb (valid checked) then (r <| configManager := Some m |>, checked)
      else
        let '(m, ok) := set size_of_float regex_match path value (clock 1) m in
        let r := r <| configManager := Some m |> in
        if negb ok then (r, addError path "Failed to set value" "set" checked)
        else
          let r := notifySubscribers path (default jt_null oldValue) value r in
          (r <| calls ::= λ l, l ++ map (λ c, Changed c path value) (changed_components path r) |>, checked)
  end.
Definition updateValue (path : string) (value : J) := updateSectionJson path value.
Definition updateSection {T} (s : ConfigSection J T) (toJson : T → J) (t : T) := updateSectionJson (PATH s) (toJson t).

Definition deleteValue (path : string) (now : Z) (r : ConfigRegistry) : ConfigRegistry * bool :=
  match configManager r with
  | None => (r, false)
  | Some m =>
      let '(m, oldValue) := get path now m in
      let '(m, ok) := remove path m in
      let r := r <| configManager := Some m |> in
      if negb ok then (r, false) else (notifySubscribers path (default jt_null oldValue) jt_null r, true)
  end.

(** ** Validation *)

Definition validateSection (path : string) (now : Z) (r : ConfigRegistry) : ConfigRegistry * ConfigValidationResult :=
  match sections r !! path with
  | None => (r, addError path "Section not registered" "registry" no_errors)
  | Some info =>
      match configManager r with
      | None => (r, addError path "ConfigManager not set" "internal" no_errors)
      | Some _ =>
          let '(r, value) := getValue path now r in
          (r, match value with
              | None => addError path "Section not found in config" "missing" no_errors
              | Some v => match validator info with Some check => check v | None => no_errors end
              end)
      end
  end.

Fixpoint validate_sections (clock : nat → Z) (secs : list (string * SectionInfo J)) (m : option ConfigManager)
    (acc : ConfigValidationResult) : option ConfigManager * ConfigValidationResult :=
  match secs with
  | [] => (m, acc)
  | (path, info) :: rest =>
      match m with
      | None => validate_sections clock rest m (addError path "ConfigManager not set" "internal" acc)
      | Some mgr =>
          let '(mgr, value) := get path (clock 0) mgr in
          let acc := match value, validator info with
                     | Some v, Some check => combine_results acc (check v)
                     | _, _ => acc
                     end in
          validate_sections (λ n, clock (S n)) rest (Some mgr) acc
      end
  end.
Definition validateAll (clock : nat → Z) (r : ConfigRegistry) : ConfigRegistry * ConfigValidationResult :=
  let '(m, result) := validate_sections clock (iter_map (sections r)) (configManager r) no_errors in
  (r <| configManager := m |>, result).

(** ** Files *)

Definition parse_config (format : ConfigFormat) (content : string) : result string J :=
  match format with
  | FORMAT_YAML | FORMAT_JSON5 => parse_comments content
  | _ => jt_parse content
  end.

(** Every component gets the value at its path, if there is one. *)
Fixpoint apply_components (clock : nat → Z) (cs : list C) (r : ConfigRegistry) : ConfigRegistry :=
  match cs with
  | [] => r
  | c :: rest =>
      let '(r, value) := getValue (getConfigPath c) (clock 0) r in
      let r := match value with Some v => r <| calls ::= λ l, l ++ [Applied c v] |> | None => r end in
      apply_components (λ n, clock (S n)) rest r
  end.

(** [Throw] is a ConfigValidationException.  [checks] and [clock] are the clock
    readings before and after the file is taken over. *)
Definition loadFromFile (path : string) (options : ConfigLoadOptions) (checks clock : nat → Z) (r : ConfigRegistry)
  : ConfigRegistry * result ConfigValidationResult bool :=
  if negb (exists_file path) then (r, Ok false)
  else
    let format := detect_format path (load_format options) in
    match read_file path with
    | None => (r, Ok false)
    | Some content =>
        match parse_config format content with
        | Throw what =>
            (r, if strict options then Throw (mkConfigResult false [mkConfigError path what "parse"]) else Ok false)
        | Ok data =>
            let '(r, result) := if strict options then validateAll checks r else (r, no_errors) in
            if negb (valid result) then (r, Throw result)
            else
              match configManager r with
              | None => (r, Ok false)
              | Some m =>
                  let m := merge data (if mergeWithExisting options then m else clear m) in
                  let r := r <| configManager := Some m |> <| loadedFiles ::= λ l, l ++ [path] |> in
                  let r := if enableWatch options then r <| calls ::= λ l, l ++ [Watched path] |> else r in
                  (apply_components clock (components r) r, Ok true)
              end
        end
    end.

(** Each file has its own clock readings. *)
Fixpoint loadFromFiles (paths : list string) (options : ConfigLoadOptions) (clocks : nat → nat → Z) (r : ConfigRegistry)
  : ConfigRegistry * result ConfigValidationResult nat :=
  match paths with
  | [] => (r, Ok 0)
  | p :: rest =>
      match loadFromFile p options (clocks 0) (clocks 1) r with
      | (r, Throw e) => (r, Throw e)
      | (r, Ok ok) =>
          match loadFromFiles rest options (λ n, clocks (S (S n))) r with
          | (r, Ok n) => (r, Ok (if ok : bool then S n else n))
          | (r, Throw e) => (r, Throw e)
          end
      end
  end.

(** [listing]: the entries with whether each is a regular file, [None] for what is
    no directory. *)
Definition config_files (entries : list (string * bool)) : list string :=
  std_sort path_ltb
    (filter (λ p, has_extension [".json"; ".json5"; ".yaml"; ".yml"]%string p = true) (filter (λ e, e.2 = true) entries).*1).
Definition loadFromDirectory (listing : option (list (string * bool))) (options : ConfigLoadOptions) (clocks : nat → nat → Z)
    (r : ConfigRegistry) : ConfigRegistry * result ConfigValidationResult nat :=
  match listing with
  | None => (r, Ok 0)
  | Some entries => loadFromFiles (config_files entries) options clocks r
  end.

Definition clear_registry (r : ConfigRegistry) : ConfigRegistry :=
  r <| configManager ::= fmap clear |> <| loadedFiles := [] |>.

Fixpoint reload_files (files : list string) (clocks : nat → nat → Z) (r : ConfigRegistry)
  : ConfigRegistry * result ConfigValidationResult bool :=
  match files with
  | [] => (r, Ok true)
  | f :: rest =>
      match loadFromFile f default_load_options (clocks 0) (clocks 1) r with
      | (r, Ok true) => reload_files rest (λ n, clocks (S (S n))) r
      | (r, Ok false) => (r, Ok false)
      | (r, Throw e) => (r, Throw e)
      end
  end.
Definition reload (defaults_clock : nat → Z) (clocks : nat → nat → Z) (r : ConfigRegistry)
  : ConfigRegistry * result ConfigValidationResult bool :=
  match loadedFiles r with
  | [] => (r, Ok false)
  | files => reload_files files clocks (applyDefaults defaults_clock (clear_registry r))
  end.

(** ** Export and import *)

(** [v] at the end of [parts], objects made on the way; [Throw] is a type_error of
    operator[]. *)
Fixpoint store_parts (parts : list string) (v : J) (current : J) : result string J :=
  match parts with
  | [] => Ok current
  | [k] => jt_put current k v
  | k :: rest =>
      let* j := if jt_contains current k then Ok current else jt_put current k empty_object in
      let* child := store_parts rest v (default jt_null (jt_find j k)) in
      jt_put j k child
  end.

(** [None] is undefined behaviour: [parts.size() - 1] wraps around for a path
    without parts. *)
Fixpoint unflatten_into (flat : list (string * J)) (j : J) : option (result string J) :=
  match flat with
  | [] => Some (Ok j)
  | (path, v) :: rest =>
      match segments path with
      | [] => None
      | parts => match store_parts parts v j with
                 | Ok j => unflatten_into rest j
                 | Throw e => Some (Throw e)
                 end
      end
  end.
Definition exportAll (flatten : ConfigManager → list (string * J)) (r : ConfigRegistry) : option (result string J) :=
  match configManager r with
  | None => Some (Ok empty_object)
  | Some m => unflatten_into (flatten m) empty_object
  end.

(** The text written.  With a manager the lock is taken shared twice by the same
    thread, which is undefined ([None]). *)
Definition saveToFile (r : ConfigRegistry) : option (option string * bool) :=
  match configManager r with None => Some (None, false) | Some _ => None end.

(** One schema below the member "properties" of each part of the path. *)
Fixpoint store_schema (parts : list string) (schema : J) (current : J) : result string J :=
  match parts with
  | [] => Ok current
  | [k] => jt_put current k schema
  | k :: rest =>
      let* j := if jt_contains current k then Ok current
                else jt_put current k (jt_object [("type", jt_string "object"); ("properties", jt_object [])]%string) in
      let child := default jt_null (jt_find j k) in
      let* child := if jt_contains child "properties" then Ok child else jt_put child "properties" jt_null in
      let* properties := store_schema rest schema (default jt_null (jt_find child "properties")) in
      let* child := jt_put child "properties" properties in
      jt_put j k child
  end.
Fixpoint collect_schemas (secs : list (string * SectionInfo J)) (j : J) : option (result string J) :=
  match secs with
  | [] => Some (Ok j)
  | (path, info) :: rest =>
      match schemaGenerator info with
      | None => collect_schemas rest j
      | Some schema =>
          match segments path with
          | [] => None
          | parts => match store_schema parts schema j with
                     | Ok j => collect_schemas rest j
                     | Throw e => Some (Throw e)
                     end
          end
      end
  end.
Definition generateFullSchema (r : ConfigRegistry) : option (result string J) :=
  match collect_schemas (iter_map (sections r)) (jt_object []) with
  | None => None
  | Some (Throw e) => Some (Throw e)
  | Some (Ok properties) =>
      Some (Ok (jt_object [("$schema", jt_string "http://json-schema.org/draft-07/schema#"); ("type", jt_string "object");
                           ("properties", properties)]%string))
  end.

Definition check_import (config : J) (acc : ConfigValidationResult) (sec : string * SectionInfo J) : ConfigValidationResult :=
  match lookup_path (segments sec.1) config, validator sec.2 with
  | Some v, Some check => combine_results acc (check v)
  | _, _ => acc
  end.
Definition importAll (config : J) (validate : bool) (r : ConfigRegistry) : ConfigRegistry * ConfigValidationResult :=
  let result := if validate then foldl (check_import config) no_errors (iter_map (sections r)) else no_errors in
  if negb (valid result) then (r, result) else (r <| configManager ::= fmap (merge config) |>, result).

Definition getStats (r : ConfigRegistry) : J :=
  jt_object [("registeredSections", jt_int (Z.of_nat (size (sections r)))); ("registeredComponents", jt_int (Z.of_nat (length (components r))));
    ("activeSubscriptions", jt_int (Z.of_nat (length (subscriptions r)))); ("loadedFiles", jt_int (Z.of_nat (length (loadedFiles r))))]%string.
End registry.

(** * Properties *)

Section properties.
Context `{JP : JsonPrinter J F, FO : !Floats F, HI : !HashIter string, SS : !StdSort}.
Context {C : Type} `{EqDecision C} `{CO : Configurable C J}.
Context (size_of_float : F → Z) (regex_match : string → string → option bool).
Context (exists_file : string → bool) (read_file : string → option string) (parse_comments : string → result string J).
Abbreviation Manager := (@ConfigManager J).
Abbreviation Registry := (ConfigRegistry (J := J) (C := C)).
Implicit Types r : Registry.
Implicit Types m : Manager.

(** ** Updates *)

Lemma get_rest path now m :
  options_ (get path now m).1 = options_ m ∧ validator_ (get path now m).1 = validator_ m ∧
  callbacks_ (get path now m).1 = callbacks_ m ∧ notified (get path now m).1 = notified m.
Proof.
  unfold get, cache_put. destruct (caching m) eqn:Ec.
  - destruct (Cache.get path now (cache_ m)) as [c [v|]]; [done|]. cbn -[Cache.put].
    destruct (lookup_path _ _); [|done]. by destruct (caching _).
  - destruct (lookup_path _ _); [|done]. by rewrite Ec.
Qed.

(** What the validator of the section at exactly this path says. *)
Definition section_check (path : string) (value : J) r : ConfigValidationResult :=
  match sections r !! path with
  | Some info => match validator info with Some v => v value | None => no_errors end
  | None => no_errors
  end.

(** The calls for a change, in order. *)
Definition change_calls (path : string) (oldValue value : J) r : list (registry_call (J := J) (C := C)) :=
  map (λ s, Notified (subscription_id s) oldValue value)
      (filter (λ s, pattern_matches (pathPattern s) path = true) (subscriptions r)) ++
  map (λ c, Changed c path value) (changed_components path r).

(** An update.  Without a manager, with a value that the validator of the section
    at that path rejects, or that the manager does not accept, the document and the calls
    are as before and the result has an error.  Otherwise, for a value that can be
    printed and a proper path, the value is in the document, other paths are as before,
    and first the subscribers whose pattern matches, then the components at or above
    the path are called once each, in the order they were registered. *)
Theorem updateValue_correct (path : string) (value : J) (clock : nat → Z) r :
  match configManager r, updateValue size_of_float regex_match path value clock r with
  | None, (r', result) => r' = r ∧ valid result = false
  | Some m, (r', result) =>
      ∃ m', configManager r' = Some m' ∧ sections r' = sections r ∧
      if negb (valid (section_check path value r)) then
        result = section_check path value r ∧ config_ m' = config_ m ∧ calls r' = calls r
      else if negb (accepted size_of_float regex_match path value m) then
        valid result = false ∧ config_ m' = config_ m ∧ calls r' = calls r
      else proper_path path → container (config_ m) → is_ok (jt_dump value) = true →
        result = section_check path value r ∧ placed (segments path) value (config_ m) (config_ m') ∧
        calls r' = calls r ++ change_calls path (default jt_null (get path (clock 0) m).2) value r ∧
        (path = join "/" (segments path) ∨ caching m = false → ∀ now, (getValue path now r').2 = Some value)
  end.
Proof.
  unfold updateValue, updateSectionJson. destruct (configManager r) as [m|] eqn:Em; [|done].
  destruct (get_spec path (clock 0) m) as [Hcfg _]. destruct (get_rest path (clock 0) m) as (Ho & Hv & Hcb & Hn).
  destruct (get path (clock 0) m) as [m1 old]. cbn [fst snd] in *. fold (section_check path value r).
  destruct (valid (section_check path value r)) eqn:Ec; cbn [negb]; [|by exists m1].
  pose proof (setOrAppend_spec size_of_float regex_match false false path value (clock 1) m1) as Hs.
  change (setOrAppendImpl size_of_float regex_match false false path value (clock 1) m1)
    with (set size_of_float regex_match path value (clock 1) m1) in Hs.
  destruct (set size_of_float regex_match path value (clock 1) m1) as [m2 ok].
  assert (Ea : accepted size_of_float regex_match path value m1 = accepted size_of_float regex_match path value m)
    by (unfold accepted; by rewrite Ho, Hv).
  rewrite Ea in Hs. destruct (accepted size_of_float regex_match path value m); cbn [negb].
  - destruct ok eqn:Eok; cbn [negb]; exists m2; (split; [done|]; split; [done|]); intros Hp Hc Hd; rewrite Hcfg in Hs;
      destruct (Hs Hp Hc value) as (Hok & _ & Hpl & _ & Hg); try (unfold new_value, value_left; by rewrite andb_false_r);
      [|congruence].
    split_and!; [done|done| |].
    + cbn. unfold change_calls. rewrite <- app_assoc. done.
    + intros Hk now. unfold getValue. cbn. destruct (get path now m2) eqn:Eg. cbn. specialize (Hg (ltac:(by unfold caching in *; rewrite Ho)) now).
      by rewrite Eg in Hg.
  - destruct Hs as (-> & Hcfg2 & _). cbn [negb]. exists m2. split_and!; try done. by rewrite Hcfg2.
Qed.

(** ** Export *)

(** Every value on the way can be entered. *)
Definition open_path (parts : list string) (j : J) : Prop :=
  ∀ q, q `prefix_of` parts → q ≠ parts → ∀ c, lookup_path q j = Some c → container c.

Lemma open_path_child k l parts j c : open_path (k :: l :: parts) j → jt_find j k = Some c → open_path (l :: parts) c.
Proof.
  intros Ho Hc q Hq Hne d Hd. apply (Ho (k :: q)); [by apply prefix_cons|congruence|]. cbn. by rewrite Hc.
Qed.

Lemma store_parts_spec parts v j : parts ≠ [] → open_path parts j → container j →
  ∃ j', store_parts parts v j = Ok j' ∧ jt_is_object j' = true ∧ placed parts v j j'.
Proof.
  revert j. induction parts as [|k parts IH]; [done|]. intros j _ Ho Hj. destruct parts as [|l parts].
  - cbn [store_parts]. destruct (put_ok j k v Hj) as (j' & Hput & Hobj & Hf). exists j'. split_and!; [done..|].
    apply (placed_cons k [] v j j' (default empty_object (jt_find j k)) v); [done|done| |apply placed_nil].
    intros q Hq. destruct (jt_find j k); [done|]. by apply lookup_empty_object.
  - change (store_parts (k :: l :: parts) v j) with
      (let* j := if jt_contains j k then Ok j else jt_put j k empty_object in
       let* child := store_parts (l :: parts) v (default jt_null (jt_find j k)) in jt_put j k child).
    assert (H1 : ∃ j1 child, (if jt_contains j k then Ok j else jt_put j k empty_object) = Ok j1 ∧ jt_find j1 k = Some child ∧
      container j1 ∧ container child ∧ open_path (l :: parts) child ∧ (∀ k', k' ≠ k → jt_find j1 k' = jt_find j k') ∧
      (∀ q, q ≠ [] → lookup_path q child = match jt_find j k with Some old => lookup_path q old | None => None end)).
    { unfold jt_contains. destruct (jt_find j k) as [child|] eqn:Ek.
      - exists j, child. split_and!; try done; [|by eapply open_path_child].
        apply (Ho [k]); [apply prefix_cons, prefix_nil|done|]. cbn. by rewrite Ek.
      - destruct (put_ok j k empty_object Hj) as (j1 & Hput & Hobj & Hf). exists j1, empty_object.
        split_and!; [done|by rewrite Hf, String.eqb_refl|by apply is_object_container|apply container_empty| | |].
        + intros [|q0 q] Hq Hne c Hc; [injection Hc as <-; apply container_empty|]. by rewrite lookup_empty_object in Hc.
        + intros k' Hk. rewrite Hf. by destruct (String.eqb_spec k' k).
        + intros q Hq. by apply lookup_empty_object. }
    destruct H1 as (j1 & child & -> & Hf1 & Hc1 & Hcc & Hoc & Hother & Hlook). cbn [rbind]. rewrite Hf1.
    change (default jt_null (Some child)) with child.
    destruct (IH child ltac:(done) Hoc Hcc) as (child' & -> & Hobj' & Hpl). cbn [rbind].
    destruct (put_ok j1 k child' Hc1) as (j2 & -> & Hobj2 & Hf2). exists j2. split_and!; [done..|].
    eapply (placed_cons k (l :: parts) v j j2 child child'); [done| |exact Hlook|done].
    intros k'. rewrite Hf2. destruct (String.eqb_spec k' k); [done|by apply Hother].
Qed.

(** [j] holds exactly the values of [flat] at their paths. *)
Record holds (flat : list (string * J)) (j : J) : Prop := {
  holds_object : jt_is_object j = true;
  holds_at path v q : (path, v) ∈ flat → lookup_path (segments path ++ q) j = lookup_path q v;
  holds_above path v q : (path, v) ∈ flat → q `prefix_of` segments path → q ≠ segments path →
    ∃ c, lookup_path q j = Some c ∧ jt_is_object c = true;
  holds_only q : q ≠ [] → (∀ path v, (path, v) ∈ flat → ¬ q `prefix_of` segments path ∧ ¬ segments path `prefix_of` q) →
    lookup_path q j = None
}.

(** No path of [flat] is at or below another. *)
Definition apart_paths (flat : list (string * J)) : Prop :=
  ForallOrdPairs (λ a b, ¬ segments a.1 `prefix_of` segments b.1 ∧ ¬ segments b.1 `prefix_of` segments a.1) flat.

Lemma holds_snoc flat path v j : holds flat j → segments path ≠ [] →
  (∀ p w, (p, w) ∈ flat → ¬ segments p `prefix_of` segments path ∧ ¬ segments path `prefix_of` segments p) →
  ∃ j', store_parts (segments path) v j = Ok j' ∧ holds (flat ++ [(path, v)]) j'.
Proof.
  intros [Hobj Hat Habove Honly] Hne Hap.
  assert (Hopen : open_path (segments path) j).
  { intros q Hq Hqne c Hc. destruct q as [|k q]; [injection Hc as <-; by apply is_object_container|].
    destruct (decide (Exists (λ pw, (k :: q) `prefix_of` segments pw.1) flat)) as [He|He].
    - apply Exists_exists in He as ([p w] & Hin & Hp). cbn in Hp.
      destruct (Habove p w (k :: q) Hin Hp) as (d & Hd & Hdo); [|rewrite Hc in Hd; injection Hd as ->; by apply is_object_container].
      intros E. destruct (Hap p w Hin) as [H _]. apply H. by rewrite <- E.
    - rewrite (Honly (k :: q)) in Hc; [done|done|]. intros p w Hin. split.
      + intros Hp. apply He, Exists_exists. by exists (p, w).
      + intros Hp. destruct (Hap p w Hin) as [H _]. apply H. by etrans. }
  destruct (store_parts_spec (segments path) v j Hne Hopen (is_object_container _ Hobj)) as (j' & -> & Hobj' & [Pat Pframe Pabove]).
  exists j'. split; [done|]. split; [done|..].
  - intros p w q [Hin|[= -> ->]%list_elem_of_singleton]%elem_of_app; [|apply Pat].
    destruct (Hap p w Hin) as [H1 H2]. rewrite Pframe; [by apply Hat with (v := w)| |].
    + intros H. destruct (prefix_weak_total (segments path) (segments p) (segments p ++ q)) as [Hx|Hx]; [done|by apply prefix_app_r|by apply H2|by apply H1].
    + intros H. apply H1. etrans; [apply prefix_app_r; reflexivity|exact H].
  - intros p w q [Hin|[= -> ->]%list_elem_of_singleton]%elem_of_app; [|by apply Pabove].
    intros Hq Hqne. destruct (decide (q `prefix_of` segments path)) as [Hqp|Hqp].
    + apply Pabove; [done|]. intros ->. by destruct (Hap p w Hin).
    + rewrite Pframe; [by eapply Habove| |done]. intros H. destruct (Hap p w Hin) as [_ H2]. apply H2. by etrans.
  - intros q Hq Hno. destruct (Hno path v) as [N1 N2]; [apply elem_of_app; right; by left|].
    rewrite Pframe by done. apply Honly; [done|]. intros p w Hin. apply (Hno p w), elem_of_app. by left.
Qed.

Lemma unflatten_spec flat : apart_paths flat → (∀ p v, (p, v) ∈ flat → segments p ≠ []) →
  ∀ before j, holds before j →
  (∀ p w q v, (p, w) ∈ before → (q, v) ∈ flat → ¬ segments p `prefix_of` segments q ∧ ¬ segments q `prefix_of` segments p) →
  ∃ j', unflatten_into flat j = Some (Ok j') ∧ holds (before ++ flat) j'.
Proof.
  induction 1 as [|[path v] flat Hfirst Hap IH]; intros Hne before j Hj Hb.
  - exists j. by rewrite app_nil_r.
  - destruct (holds_snoc before path v j Hj) as (j1 & Hst & H1).
    { apply (Hne path v). by left. }
    { intros p w Hin. apply (Hb p w path v Hin). by left. }
    assert (Hcons : unflatten_into ((path, v) :: flat) j = unflatten_into flat j1).
    { cbn [unflatten_into]. destruct (segments path) eqn:E; [by destruct (Hne path v (list_elem_of_here _ _))|]. by rewrite Hst. }
    rewrite Hcons. destruct (IH (λ p w Hin, Hne p w (list_elem_of_further _ _ _ Hin)) (before ++ [(path, v)]) j1 H1) as (j' & Hj' & H').
    + intros p w q u [Hin|[= -> ->]%list_elem_of_singleton]%elem_of_app Hq.
      * apply (Hb p w q u Hin). by right.
      * rewrite Forall_forall in Hfirst. by apply (Hfirst (q, u)).
    + exists j'. split; [done|]. by rewrite <- app_assoc in H'.
Qed.

(** Exporting a flattened document whose paths are apart gives back exactly its values,
    in whatever order they come. *)
Theorem exportAll_correct (flatten : Manager → list (string * J)) r m : configManager r = Some m →
  apart_paths (flatten m) → (∀ p v, (p, v) ∈ flatten m → segments p ≠ []) →
  ∃ j, exportAll flatten r = Some (Ok j) ∧ holds (flatten m) j.
Proof.
  intros Hm Hap Hne. unfold exportAll. rewrite Hm.
  destruct (unflatten_spec (flatten m) Hap Hne [] empty_object) as (j & Hj & H); [|by intros ? ? ? ? ?%not_elem_of_nil|by exists j].
  split; [unfold jt_is_object; by rewrite shape_empty_object|by intros ? ? ? ?%not_elem_of_nil..|].
  intros q Hq _. by apply lookup_empty_object.
Qed.

(** ** Files *)

Abbreviation load_file := (loadFromFile exists_file).

(** Strict loading does not look at what the file says: it checks the sections as
    they are before the file is taken over, so any two files that can be parsed are
    both accepted or both refused with the same errors. *)
Theorem strict_ignores_content (path : string) (o : ConfigLoadOptions) (checks clock : nat → Z) r (content content' : string) (d d' : J) :
  exists_file path = true → strict o = true →
  parse_config parse_comments (detect_format path (load_format o)) content = Ok d →
  parse_config parse_comments (detect_format path (load_format o)) content' = Ok d' →
  (load_file (λ _, Some content) parse_comments path o checks clock r).2 =
  (load_file (λ _, Some content') parse_comments path o checks clock r).2.
Proof.
  intros He Hs Hd Hd'. unfold loadFromFile. rewrite He, Hs, Hd, Hd'. cbn [negb].
  destruct (validateAll checks r) as [r1 result]. destruct (valid result); cbn [negb]; [|done]. by destruct (configManager r1).
Qed.

Lemma apply_components_files clock cs r : loadedFiles (apply_components clock cs r) = loadedFiles r.
Proof.
  revert clock r. induction cs as [|c cs IH]; intros clock r; [done|]. cbn [apply_components]. unfold getValue.
  destruct (configManager r) as [m|]; [destruct (get _ _ m) as [m' [v|]]|]; by rewrite IH.
Qed.

Lemma load_files path o checks clock r :
  loadedFiles (load_file read_file parse_comments path o checks clock r).1 =
    match (load_file read_file parse_comments path o checks clock r).2 with
    | Ok true => loadedFiles r ++ [path]
    | _ => loadedFiles r
    end.
Proof.
  unfold loadFromFile. destruct (exists_file path); [|done]. cbn [negb]. destruct (read_file path) as [content|]; [|done].
  destruct (parse_config _ _ content) as [data|]; [|by destruct (strict o)].
  assert (Hv : loadedFiles (if strict o then validateAll checks r else (r, no_errors)).1 = loadedFiles r).
  { destruct (strict o); [|done]. unfold validateAll. by destruct (validate_sections _ _ _ _). }
  destruct (if strict o then validateAll checks r else (r, no_errors)) as [r1 result]. cbn [fst] in Hv.
  destruct (valid result); [|done]. cbn [negb]. destruct (configManager r1) as [m|]; [|done]. cbn [fst snd].
  rewrite apply_components_files. destruct (enableWatch o); cbn; by rewrite Hv.
Qed.

(** A reload that fails forgets the file it failed on and those behind it: a second
    reload does not try them again. *)
Theorem reload_correct (defaults_clock : nat → Z) (clocks : nat → nat → Z) r :
  let '(r', result) := reload size_of_float regex_match exists_file read_file parse_comments defaults_clock clocks r in
  match result with
  | Ok true => loadedFiles r ≠ [] ∧ loadedFiles r' = loadedFiles r
  | _ => (loadedFiles r = [] ∧ r' = r) ∨ ∃ f rest, loadedFiles r = loadedFiles r' ++ f :: rest
  end.
Proof.
  unfold reload. destruct (loadedFiles r) as [|f files] eqn:Ef; [by left|].
  set (r0 := applyDefaults _ _ _ _). assert (H0 : loadedFiles r0 = []).
  { unfold r0, applyDefaults. cbn. by destruct (configManager r). }
  assert (H : ∀ fs cl r1, loadedFiles r1 ++ fs = f :: files →
    let '(r', result) := reload_files exists_file read_file parse_comments fs cl r1 in
    match result with Ok true => loadedFiles r' = f :: files | _ => ∃ g rest, f :: files = loadedFiles r' ++ g :: rest end).
  { induction fs as [|g fs IH]; intros cl r1 E; [by rewrite app_nil_r in E|]. cbn [reload_files].
    pose proof (load_files g default_load_options (cl 0) (cl 1) r1) as Hl.
    destruct (load_file read_file parse_comments g default_load_options (cl 0) (cl 1) r1) as [r2 [[]|e]]; cbn [fst snd] in Hl.
    - apply IH. by rewrite Hl, <- app_assoc.
    - exists g, fs. by rewrite Hl.
    - exists g, fs. by rewrite Hl. }
  specialize (H (f :: files) clocks r0). rewrite H0 in H. specialize (H eq_refl).
  destruct (reload_files _ _ _ (f :: files) clocks r0) as [r' [[]|e]]; [by split|by right..].
Qed.

(** ** Subscriptions *)

(** Numbers are given once. *)
Definition subscriptions_ok r : Prop :=
  NoDup (map subscription_id (subscriptions r)) ∧ Forall (λ s, subscription_id s < nextSubscriptionId r)%nat (subscriptions r).

Lemma subscribe_ok path r : subscriptions_ok r → subscriptions_ok (subscribe path r).1.
Proof.
  intros [Hn Hlt]. split; cbn.
  - rewrite map_app. apply NoDup_app. split; [done|]. split; [|apply NoDup_singleton].
    intros x Hx ->%list_elem_of_singleton. apply list_elem_of_fmap in Hx as (s & E & Hs). rewrite Forall_forall in Hlt.
    specialize (Hlt s Hs). cbn in E. lia.
  - apply Forall_app. split; [eapply Forall_impl; [exact Hlt|cbn; intros; lia]|]. constructor; [cbn; lia|constructor].
Qed.

(** Erasing the first subscription with a number erases all with it. *)
Lemma erase_subscription_filter id l : NoDup (map subscription_id l) →
  erase_subscription id l = filter (λ s, subscription_id s ≠ id) l.
Proof.
  induction l as [|s l IH]; intros Hn; [done|]. cbn [map] in Hn. apply NoDup_cons in Hn as [Hs Hl]. cbn [erase_subscription].
  rewrite filter_cons. destruct (Nat.eqb_spec (subscription_id s) id) as [<-|Hne].
  - rewrite decide_False by auto. clear IH Hl. induction l as [|x l IH]; [done|]. cbn [map] in Hs.
    rewrite filter_cons, decide_True by (intros E; apply Hs; rewrite <- E; by left). f_equal. apply IH.
    intros H. apply Hs. by right.
  - rewrite decide_True by done. by rewrite IH.
Qed.

Lemma unsubscribe_ok id r : subscriptions_ok r → subscriptions_ok (unsubscribe id r).1 ∧
  subscriptions (unsubscribe id r).1 = filter (λ s, subscription_id s ≠ id) (subscriptions r) ∧
  ((unsubscribe id r).2 = true ↔ id ∈ map subscription_id (subscriptions r)).
Proof.
  intros [Hn Hlt]. unfold unsubscribe.
  assert (Hex : existsb (λ s, (subscription_id s =? id)%nat) (subscriptions r) = true ↔ id ∈ map subscription_id (subscriptions r)).
  { rewrite existsb_exists, list_elem_of_fmap. setoid_rewrite Nat.eqb_eq. setoid_rewrite <- list_elem_of_In. naive_solver. }
  destruct (existsb _ _) eqn:E; cbn.
  - rewrite erase_subscription_filter by done. split; [|by split]. split; cbn; [|rewrite erase_subscription_filter by done; 
      apply Forall_forall; intros s [_ Hs]%list_elem_of_filter; rewrite Forall_forall in Hlt; by apply Hlt].
    rewrite erase_subscription_filter by done. clear -Hn. induction (subscriptions r) as [|s l IH]; [constructor|].
    cbn [map] in Hn. apply NoDup_cons in Hn as [Hs Hl]. rewrite filter_cons. case_decide; [|by apply IH].
    cbn [map]. constructor; [|by apply IH]. intros (x & Ex & [_ Hx]%list_elem_of_filter)%list_elem_of_fmap. apply Hs.
    apply list_elem_of_fmap. by exists x.
  - split; [done|]. split; [|done]. assert (Hall : Forall (λ s, subscription_id s ≠ id) (subscriptions r)).
    { apply Forall_forall. intros s Hs Es. assert (false = true); [|done]. apply Hex, list_elem_of_fmap. by exists s. }
    clear -Hall. induction Hall as [|s l Hs _ IH]; [done|]. by rewrite filter_cons, decide_True, <- IH.
Qed.
End properties.

(** ** Examples *)

Module Demo.
#[local] Existing Instances demo_json_tree demo_printer.
#[local] Instance demo_floats : Floats Z := floats_Z.
#[local] Instance demo_order : HashIter string := canonical_iter.
#[local] Instance demo_sort : StdSort := insertion_sort.
(** Components are their paths. *)
#[local] Instance demo_component : Configurable string jtree := {|
  getConfigPath c := c; getConfigSchema _ := TObj []; getDefaultConfig _ := TObj []; supportsRuntimeReconfig _ := false |}.

Definition manager : @ConfigManager jtree :=
  ConfigManager_new default_manager_options (ConfigCache_new 100 0) (ConfigValidator_new false true).
Definition registry : ConfigRegistry (J := jtree) (C := string) := setConfigManager (Some manager) new_registry.
Definition update (path : string) (value : jtree) (r : ConfigRegistry (J := jtree) (C := string)) :=
  updateValue (λ z, z) (λ _ _, None) path value Z.of_nat r.

Definition of_type (path type : string) : ConfigSection jtree jtree :=
  mkConfigSection path (TObj [("type"%string, TStr type)]) TNull (λ j, Ok j).

(** The schema of a section takes the place of the one registered before, so a value
    of the first section is checked against the schema of the second. *)
Example last_schema_wins :
  let r := registerSection (of_type "log" "string") (registerSection (of_type "net" "integer") registry) in
  map keyword (errors (update "net" (TInt 5) r).2) = ["set"%string] ∧ valid (update "net" (TStr "five") r).2 = true.
Proof. vm_compute. split; reflexivity. Qed.

(** A path with a leading slash, as the documentation writes them, reads as before
    after the second update. *)
Example stale_after_update :
  let r := (update "/net/port" (TInt 1) registry).1 in
  let '(r, result) := update "/net/port" (TInt 2) r in
  valid result = true ∧ (getValue "/net/port" 5 r).2 = Some (TInt 1) ∧ (getValue "net/port" 5 r).2 = Some (TInt 2).
Proof. vm_compute. repeat split. Qed.

Definition net : ConfigSection jtree Z :=
  mkConfigSection "net" (TObj []) TNull
    (λ j, match jt_find j "port" with Some (TInt z) => Ok z | _ => Throw "port"%string end).

(** A value below a section is not checked by its validator, and the section is read
    from the cache as before; without the cache it is no longer a section. *)
Example below_section :
  let run options :=
    let r := setConfigManager (Some (ConfigManager_new options (ConfigCache_new 100 0) (ConfigValidator_new false true))) new_registry in
    let r := (update "net" (TObj [("port"%string, TInt 80)]) (registerSection net r)).1 in
    let '(r, result) := update "net/port" (TStr "x") r in
    (valid result, (getSection net 5 r).2) in
  run default_manager_options = (true, Some 80%Z) ∧ run (mkManagerOptions true true false) = (true, None).
Proof. vm_compute. split; reflexivity. Qed.

(** "net" hears of changes of "network", and although it does not support it. *)
Example prefix_of_name :
  calls (update "network/port" (TInt 1) (registerComponent "net"%string registry)).1 = [Changed "net"%string "network/port" (TInt 1)].
Proof. vm_compute. reflexivity. Qed.

Lemma updateValue_correct_witness :
  calls (update "net" (TInt 5) (subscribe "*" registry).1).1 = [Notified 1 TNull (TInt 5)].
Proof.
  pose proof (updateValue_correct (λ z, z) (λ _ _, None) "net" (TInt 5) Z.of_nat (subscribe "*" registry).1) as H.
  fold (update "net" (TInt 5) (subscribe "*" registry).1) in H.
  destruct (update "net" (TInt 5) (subscribe "*" registry).1) as [r' result]. destruct H as (m' & _ & _ & H).
  destruct H as (_ & _ & Hc & _); [|by left|done|].
  - split; [done|]. by intros k [= <-].
  - change (calls r' = [Notified 1 TNull (TInt 5)]). rewrite Hc. vm_compute. reflexivity.
Defined.

(** Two values exported from their paths. *)
Definition flat (_ : @ConfigManager jtree) : list (string * jtree) := [("a/b"%string, TInt 1); ("a/c"%string, TInt 2)].
Lemma exportAll_correct_witness :
  exportAll flat registry = Some (Ok (TObj [("a"%string, TObj [("b"%string, TInt 1); ("c"%string, TInt 2)])])) ∧
  ∃ j, exportAll flat registry = Some (Ok j) ∧ holds (flat manager) j.
Proof.
  split; [vm_compute; reflexivity|]. apply (exportAll_correct flat registry manager eq_refl).
  - constructor; [|constructor; constructor]. constructor; [|constructor]. cbn.
    split; intros H; apply prefix_cons_inv_2, prefix_cons_inv_1 in H; discriminate H.
  - intros p v [[= -> ->]|[[= -> ->]|?%not_elem_of_nil]%elem_of_cons]%elem_of_cons; done.
Defined.

Lemma strict_ignores_content_witness :
  (loadFromFile (λ _, true) (λ _, Some "true"%string) (λ _, Throw ""%string) "c.json" default_load_options Z.of_nat Z.of_nat registry).2 =
  (loadFromFile (λ _, true) (λ _, Some "false"%string) (λ _, Throw ""%string) "c.json" default_load_options Z.of_nat Z.of_nat registry).2.
Proof.
  eapply (strict_ignores_content (λ _, true) (λ _, Throw ""%string)); [done|done| |]; vm_compute; reflexivity.
Defined.
End Demo.
