(* ===== verification/DeviceError.v ===== *)
(** * DeviceError: errors of devices

    Models src/src/device/common/device_error.hpp and device_result.hpp: the error
    codes, the error with its context, its text and JSON forms, and the functions on
    results ([result] with a [DeviceError]).  An enumeration variable can hold any
    int, so the codes have a constructor for the values without a name.  The time of
    an error is an argument; it is written and never read back. *)

From S2P Require Import Prelude Text JsonCodec JsonTree.

Local Open Scope Z_scope.

(** ** Codes *)

Inductive DeviceErrorCode :=
| Unknown | Success | InvalidArgument | InvalidState | NotSupported | NotImplemented | AlreadyExists
| NotFound | ConnectionFailed | ConnectionTimeout | ConnectionRefused | ConnectionLost | NotConnected
| AlreadyConnected | AuthenticationFailed | OperationFailed | OperationTimeout | OperationAborted
| OperationBusy | OperationNotAllowed | DeviceBusy | DeviceNotReady | DeviceDisabled
| PluginLoadFailed | PluginNotFound | PluginInvalidInterface | PluginVersionMismatch
| PluginDependencyMissing | PluginAlreadyLoaded | PluginUnloadFailed | PluginInitFailed
| BackendNotConnected | BackendError | BackendTimeout | BackendUnavailable | ResourceExhausted
| ResourceUnavailable | MemoryAllocationFailed | CommunicationError | ProtocolError | DataCorruption
| MessageTooLarge | InternalError | ConfigurationError | InitializationFailed
| OtherCode (value : Z).

Definition code_value (c : DeviceErrorCode) : Z :=
  match c with
  | Unknown => 0
  | Success => 1
  | InvalidArgument => 10
  | InvalidState => 11
  | NotSupported => 12
  | NotImplemented => 13
  | AlreadyExists => 14
  | NotFound => 15
  | ConnectionFailed => 100
  | ConnectionTimeout => 101
  | ConnectionRefused => 102
  | ConnectionLost => 103
  | NotConnected => 104
  | AlreadyConnected => 105
  | AuthenticationFailed => 106
  | OperationFailed => 200
  | OperationTimeout => 201
  | OperationAborted => 202
  | OperationBusy => 203
  | OperationNotAllowed => 204
  | DeviceBusy => 205
  | DeviceNotReady => 206
  | DeviceDisabled => 207
  | PluginLoadFailed => 300
  | PluginNotFound => 301
  | PluginInvalidInterface => 302
  | PluginVersionMismatch => 303
  | PluginDependencyMissing => 304
  | PluginAlreadyLoaded => 305
  | PluginUnloadFailed => 306
  | PluginInitFailed => 307
  | BackendNotConnected => 400
  | BackendError => 401
  | BackendTimeout => 402
  | BackendUnavailable => 403
  | ResourceExhausted => 500
  | ResourceUnavailable => 501
  | MemoryAllocationFailed => 502
  | CommunicationError => 600
  | ProtocolError => 601
  | DataCorruption => 602
  | MessageTooLarge => 603
  | InternalError => 900
  | ConfigurationError => 901
  | InitializationFailed => 902
  | OtherCode v => v
  end.
Definition named_codes : list DeviceErrorCode :=
  [Unknown; Success; InvalidArgument; InvalidState; NotSupported; NotImplemented; AlreadyExists; NotFound;
   ConnectionFailed; ConnectionTimeout; ConnectionRefused; ConnectionLost; NotConnected; AlreadyConnected;
   AuthenticationFailed; OperationFailed; OperationTimeout; OperationAborted; OperationBusy;
   OperationNotAllowed; DeviceBusy; DeviceNotReady; DeviceDisabled; PluginLoadFailed; PluginNotFound;
   PluginInvalidInterface; PluginVersionMismatch; PluginDependencyMissing; PluginAlreadyLoaded;
   PluginUnloadFailed; PluginInitFailed; BackendNotConnected; BackendError; BackendTimeout;
   BackendUnavailable; ResourceExhausted; ResourceUnavailable; MemoryAllocationFailed; CommunicationError;
   ProtocolError; DataCorruption; MessageTooLarge; InternalError; ConfigurationError; InitializationFailed].

(** [static_cast<DeviceErrorCode>]. *)
Definition code_of_value (v : Z) : DeviceErrorCode :=
  default (OtherCode v) (find (λ c, code_value c =? v) named_codes).

(** [default]: the number. *)
Definition deviceErrorCodeToString (c : DeviceErrorCode) : string :=
  match c with
  | Unknown => "Unknown"
  | Success => "Success"
  | InvalidArgument => "InvalidArgument"
  | InvalidState => "InvalidState"
  | NotSupported => "NotSupported"
  | NotImplemented => "NotImplemented"
  | AlreadyExists => "AlreadyExists"
  | NotFound => "NotFound"
  | ConnectionFailed => "ConnectionFailed"
  | ConnectionTimeout => "ConnectionTimeout"
  | ConnectionRefused => "ConnectionRefused"
  | ConnectionLost => "ConnectionLost"
  | NotConnected => "NotConnected"
  | AlreadyConnected => "AlreadyConnected"
  | AuthenticationFailed => "AuthenticationFailed"
  | OperationFailed => "OperationFailed"
  | OperationTimeout => "OperationTimeout"
  | OperationAborted => "OperationAborted"
  | OperationBusy => "OperationBusy"
  | OperationNotAllowed => "OperationNotAllowed"
  | DeviceBusy => "DeviceBusy"
  | DeviceNotReady => "DeviceNotReady"
  | DeviceDisabled => "DeviceDisabled"
  | PluginLoadFailed => "PluginLoadFailed"
  | PluginNotFound => "PluginNotFound"
  | PluginInvalidInterface => "PluginInvalidInterface"
  | PluginVersionMismatch => "PluginVersionMismatch"
  | PluginDependencyMissing => "PluginDependencyMissing"
  | PluginAlreadyLoaded => "PluginAlreadyLoaded"
  | PluginUnloadFailed => "PluginUnloadFailed"
  | PluginInitFailed => "PluginInitFailed"
  | BackendNotConnected => "BackendNotConnected"
  | BackendError => "BackendError"
  | BackendTimeout => "BackendTimeout"
  | BackendUnavailable => "BackendUnavailable"
  | ResourceExhausted => "ResourceExhausted"
  | ResourceUnavailable => "ResourceUnavailable"
  | MemoryAllocationFailed => "MemoryAllocationFailed"
  | CommunicationError => "CommunicationError"
  | ProtocolError => "ProtocolError"
  | DataCorruption => "DataCorruption"
  | MessageTooLarge => "MessageTooLarge"
  | InternalError => "InternalError"
  | ConfigurationError => "ConfigurationError"
  | InitializationFailed => "InitializationFailed"
  | OtherCode v => "Unknown(" +:+ pretty v +:+ ")"
  end.

Arguments code_value : simpl never.
Arguments code_of_value : simpl never.
Arguments deviceErrorCodeToString : simpl never.

(** The values of the type: a value without a name is none of the named ones. *)
Definition code_ok (c : DeviceErrorCode) : Prop := code_of_value (code_value c) = c.

#[export] Instance DeviceErrorCode_eq_dec : EqDecision DeviceErrorCode.
Proof. solve_decision. Defined.

Definition isSuccess (c : DeviceErrorCode) : bool := match c with Success => true | _ => false end.
Definition isRecoverable (c : DeviceErrorCode) : bool :=
  match c with
  | ConnectionTimeout | OperationTimeout | OperationBusy | DeviceBusy | DeviceNotReady | BackendTimeout | ResourceExhausted => true
  | _ => false
  end.

(** ** Errors *)

Record DeviceError := mkDeviceError {
  err_code : DeviceErrorCode;
  err_message : string;
  err_deviceName : option string;
  err_operationName : option string;
  err_details : option string
}.

(** The constructors with a code and a message, and with a device. *)
Definition device_error (c : DeviceErrorCode) (message : string) : DeviceError := mkDeviceError c message None None None.
Definition device_error_of (c : DeviceErrorCode) (message device : string) : DeviceError := mkDeviceError c message (Some device) None None.

Definition nonempty (s : string) : option string := if str_empty s then None else Some s.
Definition create (c : DeviceErrorCode) (message device operation details : string) : DeviceError :=
  mkDeviceError c message (nonempty device) (nonempty operation) (nonempty details).

Definition error_toString (e : DeviceError) : string :=
  "[" +:+ deviceErrorCodeToString (err_code e) +:+ "] " +:+ err_message e
    +:+ match err_deviceName e with Some d => " (device: " +:+ d +:+ ")" | None => "" end
    +:+ match err_operationName e with Some o => " (operation: " +:+ o +:+ ")" | None => "" end
    +:+ match err_details e with Some d => " - " +:+ d | None => "" end.

Definition connectionFailed (device reason : string) : DeviceError :=
  device_error_of ConnectionFailed ("Connection failed" +:+ if str_empty reason then "" else ": " +:+ reason) device.
Definition operationFailed (operation reason : string) : DeviceError :=
  mkDeviceError OperationFailed ("Operation failed" +:+ if str_empty reason then "" else ": " +:+ reason) None (Some operation) None.
Definition operationTimeout (operation : string) : DeviceError :=
  mkDeviceError OperationTimeout "Operation timeout" None (Some operation) None.
Definition notFound (what : string) : DeviceError := device_error NotFound (what +:+ " not found").
Definition pluginLoadFailed (pluginName reason : string) : DeviceError :=
  device_error PluginLoadFailed ("Failed to load plugin: " +:+ pluginName +:+ if str_empty reason then "" else " - " +:+ reason).

Section json.
Context {J F : Type} `{JsonTree J F}.

Definition optional_member (k : string) (v : option string) : list (string * J) :=
  match v with Some s => [(k, jt_string s)] | None => [] end.
(** [now]: milliseconds of the clock when the error was made. *)
Definition error_toJson (now : Z) (e : DeviceError) : J :=
  jt_object ([("code"%string, jt_int (code_value (err_code e))); ("codeName"%string, jt_string (deviceErrorCodeToString (err_code e)));
              ("message"%string, jt_string (err_message e))]
    ++ optional_member "deviceName" (err_deviceName e) ++ optional_member "operationName" (err_operationName e)
    ++ optional_member "details" (err_details e) ++ [("timestamp"%string, jt_int now)]).

Definition get_optional (k : string) (j : J) : result string (option string) :=
  match jt_find j k with
  | None => Ok None
  | Some v => match jt_get_string v with Some s => Ok (Some s) | None => Throw (jt_what 302 v) end
  end.
Definition error_fromJson (j : J) : result string DeviceError :=
  let* c := jt_value jt_get_int 0 "code" j in
  let* message := jt_value jt_get_string ""%string "message" j in
  let* device := get_optional "deviceName" j in
  let* operation := get_optional "operationName" j in
  let* details := get_optional "details" j in
  Ok (mkDeviceError (code_of_value c) message device operation details).
End json.

(** ** Results *)

Abbreviation DeviceResult := (result DeviceError).

Definition map_result {T U} (r : DeviceResult T) (f : T → U) : DeviceResult U :=
  match r with Ok v => Ok (f v) | Throw e => Throw e end.
Definition flatMap {T U} (r : DeviceResult T) (f : T → DeviceResult U) : DeviceResult U :=
  match r with Ok v => f v | Throw e => Throw e end.
Definition valueOr {T} (r : DeviceResult T) (d : T) : T := match r with Ok v => v | Throw _ => d end.
Definition toOptional {T} (r : DeviceResult T) : option T := match r with Ok v => Some v | Throw _ => None end.

(** [combine] of results of one type: all values, or the first error. *)
Fixpoint first_error {T} (rs : list (DeviceResult T)) : option DeviceError :=
  match rs with
  | [] => None
  | Throw e :: _ => Some e
  | Ok _ :: rest => first_error rest
  end.
Definition combine {T} (rs : list (DeviceResult T)) : DeviceResult (list T) :=
  if negb (forallb is_ok rs) then Throw (default (device_error Unknown "") (first_error rs))
  else Ok (omap toOptional rs).

(** What a call can throw, for [tryExecute]. *)
Inductive thrown := DeviceException (e : DeviceError) | StdException (what : string) | OtherException.
Definition tryExecute {T} (r : result thrown T) : DeviceResult T :=
  match r with
  | Ok v => Ok v
  | Throw (DeviceException e) => Throw e
  | Throw (StdException what) => Throw (device_error InternalError what)
  | Throw OtherException => Throw (device_error Unknown "Unknown exception")
  end.

Record ResultBuilder := mkResultBuilder { builder_device : option string; builder_operation : option string }.
Definition builder_error {T} (b : ResultBuilder) (c : DeviceErrorCode) (message : string) : DeviceResult T :=
  Throw (create c message (default ""%string (builder_device b)) (default ""%string (builder_operation b)) "").

(** * Properties *)

(** ** Codes *)

(** Every int is the value of exactly one code. *)
Lemma code_of_value_ok v : code_value (code_of_value v) = v.
Proof.
  unfold code_of_value. destruct (find _ named_codes) as [c|] eqn:E; [|done]. by apply find_some in E as [_ E%Z.eqb_eq].
Qed.

Lemma code_ok_inv c : code_ok c ↔ c ∈ named_codes ∨ ∃ v, c = OtherCode v ∧ ∀ d, d ∈ named_codes → code_value d ≠ v.
Proof.
  unfold code_ok. split.
  - intros E. unfold code_of_value in E. destruct (find _ named_codes) as [d|] eqn:Ef.
    + apply find_some in Ef as [Hd _]. left. cbn in E. subst d. by apply list_elem_of_In.
    + right. cbn in E. eexists. split; [by symmetry|]. intros d Hd. apply list_elem_of_In in Hd.
      by apply Z.eqb_neq, (find_none _ _ Ef).
  - intros [Hc|(v & -> & Hv)].
    + assert (H : forallb (λ c, bool_decide (code_of_value (code_value c) = c)) named_codes = true) by (vm_compute; reflexivity).
      rewrite forallb_forall in H. apply list_elem_of_In in Hc. by apply H, bool_decide_eq_true in Hc.
    + unfold code_of_value. change (code_value (OtherCode v)) with v. destruct (find _ named_codes) as [d|] eqn:Ef; [|done].
      apply find_some in Ef as [Hd E%Z.eqb_eq]. by apply list_elem_of_In, Hv in Hd.
Qed.

(** The text of a code tells which one it is. *)
Theorem deviceErrorCodeToString_injective (c d : DeviceErrorCode) : code_ok c → code_ok d →
  deviceErrorCodeToString c = deviceErrorCodeToString d → c = d.
Proof.
  assert (Hn : NoDup (map deviceErrorCodeToString named_codes)) by (apply (bool_decide_unpack _); vm_compute; exact I).
  assert (Hp : ∀ c, c ∈ named_codes → str_mem "(" (deviceErrorCodeToString c) = false).
  { intros x Hx. assert (H : forallb (λ c, negb (str_mem "(" (deviceErrorCodeToString c))) named_codes = true) by (vm_compute; reflexivity).
    rewrite forallb_forall in H. apply list_elem_of_In in Hx. by apply H, negb_true_iff in Hx. }
  assert (Ho : ∀ v, str_mem "(" (deviceErrorCodeToString (OtherCode v)) = true) by done.
  intros Hc%code_ok_inv Hd%code_ok_inv E. destruct Hc as [Hc|(v & -> & _)], Hd as [Hd|(w & -> & _)].
  - apply list_elem_of_lookup in Hc as [i Hi], Hd as [j Hj].
    assert (i = j) as ->; [|congruence]. eapply NoDup_lookup; [exact Hn|apply list_lookup_fmap_Some; by eauto|].
    rewrite E. apply list_lookup_fmap_Some. by eauto.
  - apply Hp in Hc. by rewrite E, Ho in Hc.
  - apply Hp in Hd. by rewrite <- E, Ho in Hd.
  - unfold deviceErrorCodeToString in E. cbn in E. injection E as E. f_equal. apply (inj pretty).
    assert (Hdrop : ∀ a b : string, a +:+ ")" = b +:+ ")" → a = b); [|by apply Hdrop].
    clear. intros a. induction a as [|x a IH]; intros [|y b] E; cbn in E; [done|..].
    + injection E as -> E. by destruct b.
    + injection E as -> E. by destruct a.
    + injection E as -> E. f_equal. by apply IH.
Qed.

(** ** Errors *)

Section json_laws.
Context {J F : Type} `{JT : JsonTree J F}.

(** An error written as JSON is read back whole, with its code when it has a name
    or is another value of an int. *)
Theorem error_roundtrip (now : Z) (e : DeviceError) : code_ok (err_code e) → INT_MIN ≤ code_value (err_code e) ≤ INT_MAX →
  error_fromJson (error_toJson now e) = Ok e.
Proof.
  intros Hc Hr. unfold error_fromJson, error_toJson, get_optional. rewrite !value_object, !find_object.
  destruct e as [c msg d o t]. cbn [err_code err_message err_deviceName err_operationName err_details] in *.
  destruct d, o, t; cbn; rewrite get_int_law, ?get_string_law by done; cbn; rewrite ?get_string_law; cbn; by rewrite Hc.
Qed.
End json_laws.

(** ** Results *)

(** All succeed exactly when a combination does; otherwise it is the first error. *)
Theorem combine_correct {T} (rs : list (DeviceResult T)) :
  match combine rs with
  | Ok vs => rs = map Ok vs
  | Throw e => ∃ before after, rs = before ++ Throw e :: after ∧ forallb is_ok before = true
  end.
Proof.
  unfold combine. induction rs as [|[v|e] rs IH]; [done| |].
  - cbn. destruct (forallb is_ok rs); cbn in *; [by f_equal|]. destruct IH as (before & after & E & H).
    exists (Ok v :: before), after. by rewrite E at 1.
  - cbn. exists [], rs. done.
Qed.

(** ** Examples *)

#[local] Instance demo_json_tree : JsonTree jtree Z := jtree_json (λ _, ""%string) (λ _, None).
Lemma error_roundtrip_witness :
  error_fromJson (error_toJson (J := jtree) 7 (connectionFailed "cam" "no route")) = Ok (connectionFailed "cam" "no route").
Proof. apply (error_roundtrip 7 (connectionFailed "cam" "no route")); [reflexivity|cbv; split; discriminate]. Defined.

Lemma deviceErrorCodeToString_injective_witness : NotFound = NotFound.
Proof. apply (deviceErrorCodeToString_injective NotFound NotFound); reflexivity. Defined.

Example error_text :
  error_toString (create (OtherCode 77) "lost" "cam" "expose" "") = "[Unknown(77)] lost (device: cam) (operation: expose)"%string.
Proof. vm_compute. reflexivity. Qed.
