(* ===== verification/DeviceTypeRegistry.v ===== *)
(** * DeviceTypeRegistry: the types and categories of devices

    Models src/src/device/service/device_type_registry.hpp and
    device_type_registry.cpp: registering, updating, enabling and removing device types
    with events for subscribers, categories, queries, statistics and the JSON forms.
    A method takes the lock for its change and again, shared, to call the subscribers;
    both parts are functions here, a call alone is one after the other, and threads
    may have other steps between them.  What subscribers get is in [delivered]. *)

From S2P Require Import Prelude Text JsonCodec JsonTree DeviceError.

Local Open Scope Z_scope.

(** ** Data *)

Record DeviceCapabilities := mkCapabilities {
  canConnect : bool; canDisconnect : bool; canAbort : bool; canPark : bool; canHome : bool; canSync : bool;
  canSlew : bool; canTrack : bool; canGuide : bool; canCool : bool; canFocus : bool; canRotate : bool;
  hasShutter : bool; hasTemperature : bool; hasPosition : bool; supportsAsync : bool; supportsEvents : bool;
  supportsProperties : bool; supportsBatch : bool
}.
Definition default_capabilities : DeviceCapabilities :=
  mkCapabilities true true false false false false false false false false false false false false false true true true false.

Record DeviceTypeInfo (J : Type) := mkTypeInfo {
  typeName : string;
  category : string;
  displayName : string;
  description : string;
  pluginName : string;
  version : string;
  capabilities : DeviceCapabilities;
  propertySchema : J;
  metadata : J;
  priority : Z;
  enabled : bool
}.
Arguments mkTypeInfo {J}.
Arguments typeName {J}.
Arguments category {J}.
Arguments displayName {J}.
Arguments description {J}.
Arguments pluginName {J}.
Arguments version {J}.
Arguments capabilities {J}.
Arguments propertySchema {J}.
Arguments metadata {J}.
Arguments priority {J}.
Arguments enabled {J}.

Record DeviceCategoryInfo := mkCategoryInfo {
  categoryName : string;
  cat_displayName : string;
  cat_description : string;
  iconName : string;
  sortOrder : Z;
  isBuiltIn : bool
}.

Inductive Action := Registered | Unregistered | Updated | Enabled | Disabled.
Record TypeRegistrationEvent := mkEvent { action : Action; ev_type : string; ev_category : string; ev_plugin : string }.

Section registry.
Context {J F : Type} `{JT : JsonTree J F} `{HI : !HashIter string, HZ : !HashIter Z, SS : !StdSort}.
Abbreviation TypeInfo := (DeviceTypeInfo J).

(** ** JSON *)

Definition capabilities_toJson (c : DeviceCapabilities) : J :=
  jt_object [
    ("canConnect", jt_bool (canConnect c)); ("canDisconnect", jt_bool (canDisconnect c));
    ("canAbort", jt_bool (canAbort c)); ("canPark", jt_bool (canPark c)); ("canHome", jt_bool (canHome c));
    ("canSync", jt_bool (canSync c)); ("canSlew", jt_bool (canSlew c)); ("canTrack", jt_bool (canTrack c));
    ("canGuide", jt_bool (canGuide c)); ("canCool", jt_bool (canCool c)); ("canFocus", jt_bool (canFocus c));
    ("canRotate", jt_bool (canRotate c)); ("hasShutter", jt_bool (hasShutter c));
    ("hasTemperature", jt_bool (hasTemperature c)); ("hasPosition", jt_bool (hasPosition c));
    ("supportsAsync", jt_bool (supportsAsync c)); ("supportsEvents", jt_bool (supportsEvents c));
    ("supportsProperties", jt_bool (supportsProperties c)); ("supportsBatch", jt_bool (supportsBatch c))]%string.
Definition capabilities_fromJson (j : J) : result string DeviceCapabilities :=
  let flag d k := jt_value jt_get_bool d k j in
  let* v_canConnect := flag true "canConnect" in
  let* v_canDisconnect := flag true "canDisconnect" in
  let* v_canAbort := flag false "canAbort" in
  let* v_canPark := flag false "canPark" in
  let* v_canHome := flag false "canHome" in
  let* v_canSync := flag false "canSync" in
  let* v_canSlew := flag false "canSlew" in
  let* v_canTrack := flag false "canTrack" in
  let* v_canGuide := flag false "canGuide" in
  let* v_canCool := flag false "canCool" in
  let* v_canFocus := flag false "canFocus" in
  let* v_canRotate := flag false "canRotate" in
  let* v_hasShutter := flag false "hasShutter" in
  let* v_hasTemperature := flag false "hasTemperature" in
  let* v_hasPosition := flag false "hasPosition" in
  let* v_supportsAsync := flag true "supportsAsync" in
  let* v_supportsEvents := flag true "supportsEvents" in
  let* v_supportsProperties := flag true "supportsProperties" in
  let* v_supportsBatch := flag false "supportsBatch" in
  Ok (mkCapabilities v_canConnect v_canDisconnect v_canAbort v_canPark v_canHome v_canSync v_canSlew v_canTrack v_canGuide
    v_canCool v_canFocus v_canRotate v_hasShutter v_hasTemperature v_hasPosition v_supportsAsync
    v_supportsEvents v_supportsProperties v_supportsBatch).

Definition typeInfo_toJson (i : TypeInfo) : J :=
  jt_object [("typeName", jt_string (typeName i)); ("category", jt_string (category i)); ("displayName", jt_string (displayName i));
    ("description", jt_string (description i)); ("pluginName", jt_string (pluginName i)); ("version", jt_string (version i));
    ("capabilities", capabilities_toJson (capabilities i)); ("propertySchema", propertySchema i); ("metadata", metadata i);
    ("priority", jt_int (priority i)); ("enabled", jt_bool (enabled i))]%string.
Definition typeInfo_fromJson (j : J) : result string TypeInfo :=
  let text d k := jt_value jt_get_string d k j in
  let* name := text "" "typeName" in
  let* cat := text "" "category" in
  let* display := text "" "displayName" in
  let* desc := text "" "description" in
  let* plugin := text "" "pluginName" in
  let* ver := text "1.0.0" "version" in
  let* caps := match jt_find j "capabilities" with Some c => capabilities_fromJson c | None => Ok default_capabilities end in
  let member k := default (jt_make ShNull) (jt_find j k) in
  let* prio := jt_value jt_get_int 0 "priority" j in
  let* on := jt_value jt_get_bool true "enabled" j in
  Ok (mkTypeInfo name cat display desc plugin ver caps (member "propertySchema") (member "metadata") prio on).

Definition categoryInfo_toJson (i : DeviceCategoryInfo) : J :=
  jt_object [("categoryName", jt_string (categoryName i)); ("displayName", jt_string (cat_displayName i));
    ("description", jt_string (cat_description i)); ("iconName", jt_string (iconName i));
    ("sortOrder", jt_int (sortOrder i)); ("isBuiltIn", jt_bool (isBuiltIn i))]%string.
Definition categoryInfo_fromJson (j : J) : result string DeviceCategoryInfo :=
  let text k := jt_value jt_get_string "" k j in
  let* name := text "categoryName" in
  let* display := text "displayName" in
  let* desc := text "description" in
  let* icon := text "iconName" in
  let* order := jt_value jt_get_int 0 "sortOrder" j in
  let* built_in := jt_value jt_get_bool false "isBuiltIn" j in
  Ok (mkCategoryInfo name display desc icon order built_in).

(** ** The registry *)

Record DeviceTypeRegistry := mkTypeRegistry {
  types_ : gmap string TypeInfo;
  categories_ : gmap string DeviceCategoryInfo;
  subscribers_ : gset Z;
  nextCallbackId_ : Z;
  delivered : list (Z * TypeRegistrationEvent)
}.
#[export] Instance DeviceTypeRegistry_eta : Eta DeviceTypeRegistry := λ r,
  mkTypeRegistry (types_ r) (categories_ r) (subscribers_ r) (nextCallbackId_ r) (delivered r).
#[export] Instance types__upd : Upd types_. Proof. derive_upd. Defined.
#[export] Instance categories__upd : Upd categories_. Proof. derive_upd. Defined.
#[export] Instance subscribers__upd : Upd subscribers_. Proof. derive_upd. Defined.
#[export] Instance nextCallbackId__upd : Upd nextCallbackId_. Proof. derive_upd. Defined.
#[export] Instance delivered_upd : Upd delivered. Proof. derive_upd. Defined.

Definition notifySubscribers (e : TypeRegistrationEvent) (r : DeviceTypeRegistry) : DeviceTypeRegistry :=
  r <| delivered ::= λ l, l ++ map (λ id, (id, e)) (iter_set (subscribers_ r)) |>.
Definition notify (e : option TypeRegistrationEvent) (r : DeviceTypeRegistry) : DeviceTypeRegistry :=
  match e with Some e => notifySubscribers e r | None => r end.
Definition event_of (a : Action) (i : TypeInfo) : TypeRegistrationEvent := mkEvent a (typeName i) (category i) (pluginName i).

(** What a method does with the lock: the next state, the event to tell and the
    answer. *)
Abbreviation locked := (DeviceTypeRegistry * option TypeRegistrationEvent * result DeviceError bool)%type.

Definition not_found (name : string) (r : DeviceTypeRegistry) : locked :=
  (r, None, Throw (device_error NotFound ("Type not found: " +:+ name))).

Definition registerType_locked (info : TypeInfo) (r : DeviceTypeRegistry) : locked :=
  if str_empty (typeName info) then (r, None, Throw (device_error InvalidArgument "Type name cannot be empty"))
  else match types_ r !! typeName info with
       | Some _ => (r, None, Throw (device_error AlreadyExists ("Type already registered: " +:+ typeName info)))
       | None => (r <| types_ ::= <[typeName info := info]> |>, Some (event_of Registered info), Ok true)
       end.

Definition unregisterType_locked (name : string) (r : DeviceTypeRegistry) : locked :=
  match types_ r !! name with
  | None => not_found name r
  | Some i => (r <| types_ ::= delete name |>, Some (mkEvent Unregistered name (category i) (pluginName i)), Ok true)
  end.

Definition updateType_locked (info : TypeInfo) (r : DeviceTypeRegistry) : locked :=
  match types_ r !! typeName info with
  | None => not_found (typeName info) r
  | Some _ => (r <| types_ ::= <[typeName info := info]> |>, Some (event_of Updated info), Ok true)
  end.

Definition set_enabled (on : bool) (i : TypeInfo) : TypeInfo :=
  mkTypeInfo (typeName i) (category i) (displayName i) (description i) (pluginName i) (version i) (capabilities i)
    (propertySchema i) (metadata i) (priority i) on.
Definition switchType_locked (on : bool) (name : string) (r : DeviceTypeRegistry) : locked :=
  match types_ r !! name with
  | None => not_found name r
  | Some i =>
      if Bool.eqb (enabled i) on then (r, None, Ok true)
      else (r <| types_ ::= <[name := set_enabled on i]> |>,
            Some (mkEvent (if on then Enabled else Disabled) name (category i) (pluginName i)), Ok true)
  end.

(** The whole call, when no other thread comes between. *)
Definition call (l : DeviceTypeRegistry → locked) (r : DeviceTypeRegistry) : DeviceTypeRegistry * result DeviceError bool :=
  let '(r, e, answer) := l r in (notify e r, answer).

Definition registerType (info : TypeInfo) := call (registerType_locked info).
Definition from_plugin (plugin : string) (i : TypeInfo) : TypeInfo :=
  mkTypeInfo (typeName i) (category i) (displayName i) (description i) plugin (version i) (capabilities i)
    (propertySchema i) (metadata i) (priority i) (enabled i).
Definition registerTypeFromPlugin (info : TypeInfo) (plugin : string) := registerType (from_plugin plugin info).
Definition unregisterType (name : string) := call (unregisterType_locked name).
Definition updateType (info : TypeInfo) := call (updateType_locked info).
Definition enableType (name : string) := call (switchType_locked true name).
Definition disableType (name : string) := call (switchType_locked false name).

(** The names to remove are collected first; the lock is given up for each event. *)
Definition plugin_names (plugin : string) (r : DeviceTypeRegistry) : list string :=
  map fst (filter (λ ni, pluginName ni.2 = plugin) (iter_map (types_ r))).
Definition remove_plugin_type (plugin name : string) (r : DeviceTypeRegistry) : DeviceTypeRegistry * option TypeRegistrationEvent :=
  match types_ r !! name with
  | Some i => (r <| types_ ::= delete name |>, Some (mkEvent Unregistered name (category i) plugin))
  | None => (r, None)
  end.
Definition unregisterPluginTypes (plugin : string) (r : DeviceTypeRegistry) : DeviceTypeRegistry * nat :=
  let names := plugin_names plugin r in
  (foldl (λ r name, let '(r, e) := remove_plugin_type plugin name r in notify e r) r names, length names).

(** ** Queries *)

Definition hasType (name : string) (r : DeviceTypeRegistry) : bool := bool_decide (is_Some (types_ r !! name)).
Definition getTypeInfo (name : string) (r : DeviceTypeRegistry) : option TypeInfo := types_ r !! name.
Definition getAllTypes (r : DeviceTypeRegistry) : list TypeInfo := (iter_map (types_ r)).*2.
Definition getTypesByCategory (cat : string) (r : DeviceTypeRegistry) : list TypeInfo :=
  filter (λ i, category i = cat) (getAllTypes r).
Definition getPluginTypes (plugin : string) (r : DeviceTypeRegistry) : list TypeInfo :=
  filter (λ i, pluginName i = plugin) (getAllTypes r).
Definition getEnabledTypes (r : DeviceTypeRegistry) : list TypeInfo := filter (λ i, enabled i = true) (getAllTypes r).
Definition getTypeNames (r : DeviceTypeRegistry) : list string := iter_keys (types_ r).
Definition isTypeEnabled (name : string) (r : DeviceTypeRegistry) : bool :=
  match types_ r !! name with Some i => enabled i | None => false end.

(** ** Categories *)

Definition registerCategory (info : DeviceCategoryInfo) (r : DeviceTypeRegistry) : DeviceTypeRegistry * result DeviceError bool :=
  if str_empty (categoryName info) then (r, Throw (device_error InvalidArgument "Category name cannot be empty"))
  else match categories_ r !! categoryName info with
       | Some _ => (r, Throw (device_error AlreadyExists ("Category already registered: " +:+ categoryName info)))
       | None => (r <| categories_ ::= <[categoryName info := info]> |>, Ok true)
       end.
Definition getCategoryInfo (name : string) (r : DeviceTypeRegistry) : option DeviceCategoryInfo := categories_ r !! name.
Definition hasCategory (name : string) (r : DeviceTypeRegistry) : bool := bool_decide (is_Some (categories_ r !! name)).
Definition getAllCategories (r : DeviceTypeRegistry) : list DeviceCategoryInfo :=
  std_sort (λ a b, sortOrder a <? sortOrder b) (iter_map (categories_ r)).*2.

Definition builtInCategories : list (string * string * string) :=
  [("Camera", "Camera", "CCD/CMOS cameras"); ("Telescope", "Telescope", "Telescope mounts");
   ("Focuser", "Focuser", "Focus controllers"); ("FilterWheel", "Filter Wheel", "Filter wheel controllers");
   ("Dome", "Dome", "Observatory domes"); ("Rotator", "Rotator", "Field rotators"); ("Guider", "Guider", "Autoguiding systems");
   ("Weather", "Weather", "Weather stations"); ("GPS", "GPS", "GPS receivers"); ("AuxiliaryDevice", "Auxiliary", "Auxiliary devices");
   ("Switch", "Switch", "Power switches"); ("SafetyMonitor", "Safety Monitor", "Safety monitoring");
   ("CoverCalibrator", "Cover/Calibrator", "Cover and calibrator");
   ("ObservingConditions", "Observing Conditions", "Observing conditions sensors"); ("Video", "Video", "Video cameras")]%string.
Definition initializeBuiltInTypes (r : DeviceTypeRegistry) : DeviceTypeRegistry :=
  r <| categories_ ::= λ m, foldl (λ m iv, let '(i, (name, display, desc)) := iv in
         <[name := mkCategoryInfo name display desc "" (Z.of_nat i) true]> m) m (imap pair builtInCategories) |>.
Definition new_type_registry : DeviceTypeRegistry := initializeBuiltInTypes (mkTypeRegistry ∅ ∅ ∅ 1 []).

(** ** Subscribers, reset and statistics *)

Definition subscribe (r : DeviceTypeRegistry) : DeviceTypeRegistry * Z :=
  let id := nextCallbackId_ r in
  (r <| nextCallbackId_ := to_size (id + 1) |> <| subscribers_ ::= λ s, {[id]} ∪ s |>, id).
Definition unsubscribe (id : Z) (r : DeviceTypeRegistry) : DeviceTypeRegistry := r <| subscribers_ ::= λ s, s ∖ {[id]} |>.
Definition clear (r : DeviceTypeRegistry) : DeviceTypeRegistry := r <| types_ := ∅ |> <| categories_ := ∅ |>.

Definition count (p : TypeInfo → bool) (r : DeviceTypeRegistry) : Z := Z.of_nat (length (filter (λ i, p i = true) (getAllTypes r))).
Definition getStatistics (r : DeviceTypeRegistry) : J :=
  let total := Z.of_nat (size (types_ r)) in
  let on := count enabled r in
  let plugins := count (λ i, negb (str_empty (pluginName i))) r in
  let per_category :=
    match iter_keys (categories_ r) with
    | [] => (jt_make ShNull)
    | names => jt_object (map (λ c, (c, jt_int (count (λ i, String.eqb (category i) c) r))) names)
    end in
  jt_object [("totalTypes", jt_int total); ("totalCategories", jt_int (Z.of_nat (size (categories_ r))));
    ("subscriberCount", jt_int (Z.of_nat (size (subscribers_ r)))); ("typesPerCategory", per_category); ("enabledTypes", jt_int on);
    ("disabledTypes", jt_int (total - on)); ("pluginTypes", jt_int plugins); ("builtInTypes", jt_int (total - plugins))]%string.
End registry.

(** * Properties *)

Section properties.
Context {J F : Type} `{JT : JsonTree J F} `{HI : !HashIter string, HZ : !HashIter Z, SS : !StdSort}.
Abbreviation TypeInfo := (DeviceTypeInfo J).
Abbreviation Registry := (DeviceTypeRegistry (J := J)).
Implicit Types r : Registry.

(** ** JSON *)

Lemma capabilities_roundtrip c : capabilities_fromJson (capabilities_toJson (J := J) c) = Ok c.
Proof.
  unfold capabilities_fromJson, capabilities_toJson. rewrite !value_object. cbn. rewrite !get_bool_law. cbn. by destruct c.
Qed.

(** Types written as JSON are read back. *)
Theorem typeInfo_roundtrip (i : TypeInfo) : INT_MIN ≤ priority i ≤ INT_MAX → typeInfo_fromJson (typeInfo_toJson i) = Ok i.
Proof.
  intros Hp. unfold typeInfo_fromJson, typeInfo_toJson. rewrite !value_object, !find_object. cbn.
  rewrite !get_string_law. cbn. rewrite capabilities_roundtrip. cbn. rewrite get_int_law, get_bool_law by done. by destruct i.
Qed.
Lemma categoryInfo_roundtrip (i : DeviceCategoryInfo) : INT_MIN ≤ sortOrder i ≤ INT_MAX →
  categoryInfo_fromJson (categoryInfo_toJson (J := J) i) = Ok i.
Proof.
  intros Hp. unfold categoryInfo_fromJson, categoryInfo_toJson. rewrite !value_object. cbn.
  rewrite !get_string_law. cbn. rewrite get_int_law, get_bool_law by done. by destruct i.
Qed.

(** ** Events and the registry *)

(** What a subscriber can know of the types: category and plugin. *)
Definition view (types : gmap string TypeInfo) : gmap string (string * string) := (λ i, (category i, pluginName i)) <$> types.
Definition replay1 (v : gmap string (string * string)) (e : TypeRegistrationEvent) : gmap string (string * string) :=
  match action e with
  | Registered | Updated => <[ev_type e := (ev_category e, ev_plugin e)]> v
  | Unregistered => delete (ev_type e) v
  | Enabled | Disabled => v
  end.
Definition replay (v : gmap string (string * string)) (es : list TypeRegistrationEvent) : gmap string (string * string) :=
  foldl replay1 v es.
Definition events_for (id : Z) (l : list (Z * TypeRegistrationEvent)) : list TypeRegistrationEvent :=
  omap (λ ie, if decide (ie.1 = id) then Some ie.2 else None) l.

Arguments events_for : simpl never.

Lemma events_for_app id l1 l2 : events_for id (l1 ++ l2) = events_for id l1 ++ events_for id l2.
Proof. apply omap_app. Qed.

Lemma events_for_all id e ids : NoDup ids → events_for id (map (λ i, (i, e)) ids) = if bool_decide (id ∈ ids) then [e] else [].
Proof.
  induction 1 as [|x ids Hx Hn IH]; [done|]. cbn [map]. unfold events_for in *. cbn [omap list_omap fst snd].
  destruct (decide (x = id)) as [->|Hne].
  - rewrite IH, bool_decide_false by done. by rewrite bool_decide_true by (by left).
  - rewrite IH. apply (f_equal (λ b : bool, if b then [e] else [])), bool_decide_ext. set_solver.
Qed.

(** From [r] to [r'] subscriber [id] stays and is told the changes of the types. *)
Definition told (id : Z) r r' : Prop :=
  id ∈ subscribers_ r' ∧ ∃ es, events_for id (delivered r') = events_for id (delivered r) ++ es ∧
    view (types_ r') = replay (view (types_ r)) es.

Lemma told_refl id r : id ∈ subscribers_ r → told id r r.
Proof. intros Hid. split; [done|]. exists []. by rewrite app_nil_r. Qed.
Lemma told_trans id r1 r2 r3 : told id r1 r2 → told id r2 r3 → told id r1 r3.
Proof.
  intros [_ (es & E1 & V1)] [Hid (fs & E2 & V2)]. split; [done|]. exists (es ++ fs).
  rewrite E2, E1, <- app_assoc. split; [done|]. unfold replay. by rewrite foldl_app, V2, V1.
Qed.

(** The change made with the lock is the one the event says. *)
Definition says r r1 (e : option TypeRegistrationEvent) : Prop :=
  subscribers_ r1 = subscribers_ r ∧ delivered r1 = delivered r ∧
  view (types_ r1) = match e with Some e => replay1 (view (types_ r)) e | None => view (types_ r) end.

Lemma notify_told id r r1 e : id ∈ subscribers_ r → says r r1 e → told id r (notify e r1).
Proof.
  intros Hid (Hs & Hd & Hv). destruct e as [e|]; cbn [notify].
  - split; [by cbn; rewrite Hs|]. exists [e]. cbn. rewrite events_for_app, Hd, Hs. split; [|done].
    rewrite events_for_all by apply NoDup_iter_set. by rewrite bool_decide_true by (by apply elem_of_iter_set).
  - split; [by rewrite Hs|]. exists []. by rewrite app_nil_r, Hd.
Qed.

Lemma says_none r : says r r None.
Proof. done. Qed.

Lemma registerType_says info r : says r (registerType_locked info r).1.1 (registerType_locked info r).1.2.
Proof.
  unfold registerType_locked. destruct (str_empty _); [apply says_none|]. destruct (types_ r !! typeName info); [apply says_none|].
  split_and!; [done..|]. unfold view. cbn. by rewrite fmap_insert.
Qed.
Lemma unregisterType_says name r : says r (unregisterType_locked name r).1.1 (unregisterType_locked name r).1.2.
Proof.
  unfold unregisterType_locked. destruct (types_ r !! name); [|apply says_none].
  split_and!; [done..|]. unfold view. cbn. by rewrite fmap_delete.
Qed.
Lemma updateType_says info r : says r (updateType_locked info r).1.1 (updateType_locked info r).1.2.
Proof.
  unfold updateType_locked. destruct (types_ r !! typeName info); [|apply says_none].
  split_and!; [done..|]. unfold view. cbn. by rewrite fmap_insert.
Qed.
Lemma switchType_says on name r : says r (switchType_locked on name r).1.1 (switchType_locked on name r).1.2.
Proof.
  unfold switchType_locked. destruct (types_ r !! name) as [i|] eqn:E; [|apply says_none].
  destruct (Bool.eqb _ _); [apply says_none|]. split_and!; [done..|]. unfold view. cbn. rewrite fmap_insert.
  assert (Hi : ((λ i, (category i, pluginName i)) <$> types_ r) !! name = Some (category i, pluginName i)) by (by rewrite lookup_fmap, E).
  destruct on; by rewrite insert_id.
Qed.
Lemma remove_plugin_says plugin name r : says r (remove_plugin_type plugin name r).1 (remove_plugin_type plugin name r).2.
Proof.
  unfold remove_plugin_type. destruct (types_ r !! name); [|apply says_none].
  split_and!; [done..|]. unfold view. cbn. by rewrite fmap_delete.
Qed.

Inductive type_op :=
| TRegister (info : TypeInfo) | TRegisterFromPlugin (info : TypeInfo) (plugin : string) | TUnregister (name : string)
| TUnregisterPlugin (plugin : string) | TUpdate (info : TypeInfo) | TEnable (name : string) | TDisable (name : string)
| TCategory (info : DeviceCategoryInfo) | TSubscribe | TUnsubscribe (id : Z) | TClear.
Definition type_step (o : type_op) r : Registry :=
  match o with
  | TRegister info => (registerType info r).1
  | TRegisterFromPlugin info plugin => (registerTypeFromPlugin info plugin r).1
  | TUnregister name => (unregisterType name r).1
  | TUnregisterPlugin plugin => (unregisterPluginTypes plugin r).1
  | TUpdate info => (updateType info r).1
  | TEnable name => (enableType name r).1
  | TDisable name => (disableType name r).1
  | TCategory info => (registerCategory info r).1
  | TSubscribe => (subscribe r).1
  | TUnsubscribe id => unsubscribe id r
  | TClear => clear r
  end.
Definition type_run (ops : list type_op) r : Registry := foldl (λ r o, type_step o r) r ops.

(** Everything but a reset, and but removing the subscriber. *)
Definition keeps (id : Z) (o : type_op) : Prop :=
  match o with TUnsubscribe id' => id' ≠ id | TClear => False | _ => True end.

Lemma call_told id l r : id ∈ subscribers_ r → says r (l r).1.1 (l r).1.2 → told id r (call l r).1.
Proof. intros Hid Hs. unfold call. destruct (l r) as [[r1 e] a]. by apply notify_told. Qed.

Lemma type_step_told id o r : id ∈ subscribers_ r → keeps id o → told id r (type_step o r).
Proof.
  intros Hid Hk. destruct o; cbn [type_step keeps] in *; try done.
  - apply call_told, registerType_says; done.
  - apply call_told, registerType_says; done.
  - apply call_told, unregisterType_says; done.
  - unfold unregisterPluginTypes. cbn [fst]. generalize (plugin_names plugin r). intros ns. revert r Hid.
    induction ns as [|n ns IH]; intros r Hid; [by apply told_refl|]. cbn [foldl].
    pose proof (remove_plugin_says plugin n r) as Hs. destruct (remove_plugin_type plugin n r) as [r1 e]. cbn [fst snd] in Hs.
    pose proof (notify_told id r r1 e Hid Hs) as Ht. eapply told_trans; [exact Ht|]. apply IH, Ht.
  - apply call_told, updateType_says; done.
  - apply call_told, switchType_says; done.
  - apply call_told, switchType_says; done.
  - unfold registerCategory. destruct (str_empty _); [by apply told_refl|]. destruct (categories_ r !! _); [by apply told_refl|].
    by apply (told_refl id r).
  - split; [cbn; set_solver|]. exists []. by rewrite app_nil_r.
  - split; [cbn; set_solver|]. exists []. by rewrite app_nil_r.
Qed.

(** [C36] As long as every call runs alone and the registry is not reset, a subscriber
    that replays its events from the types there were when it joined knows exactly the
    types there are, with category and plugin. *)
Theorem events_mirror_registry (id : Z) (ops : list type_op) r : id ∈ subscribers_ r → Forall (keeps id) ops →
  let r' := type_run ops r in
  ∃ es, events_for id (delivered r') = events_for id (delivered r) ++ es ∧ view (types_ r') = replay (view (types_ r)) es.
Proof.
  intros Hid Hk. cut (told id r (type_run ops r)); [by intros [_ H]|]. revert r Hid.
  induction Hk as [|o ops Ho Hops IH]; intros r Hid; [by apply told_refl|].
  pose proof (type_step_told id o r Hid Ho) as Ht. eapply told_trans; [exact Ht|]. apply IH, Ht.
Qed.

(** ** Names *)

(** Types are stored under their names. *)
Definition names_ok r : Prop := ∀ n i, types_ r !! n = Some i → typeName i = n ∧ n ≠ ""%string.

Lemma notify_types e r : types_ (notify e r) = types_ r.
Proof. by destruct e. Qed.
Lemma remove_plugin_types plugin n r : types_ (remove_plugin_type plugin n r).1 = delete n (types_ r).
Proof. unfold remove_plugin_type. destruct (types_ r !! n) eqn:E; [done|]. cbn. by rewrite delete_id. Qed.
Lemma remove_all_types plugin ns r :
  types_ (foldl (λ r name, let '(r, e) := remove_plugin_type plugin name r in notify e r) r ns) = foldr delete (types_ r) (rev ns).
Proof.
  revert r. induction ns as [|n ns IH]; intros r; [done|]. cbn [foldl rev]. rewrite foldr_app. cbn [foldr]. rewrite IH.
  pose proof (remove_plugin_types plugin n r) as E. destruct (remove_plugin_type plugin n r) as [r1 e]. cbn [fst] in E.
  by rewrite notify_types, E.
Qed.

Lemma type_step_names o r : names_ok r → names_ok (type_step o r).
Proof.
  intros Hr. assert (Hins : ∀ i n j, str_empty (typeName i) = false → <[typeName i := i]> (types_ r) !! n = Some j → typeName j = n ∧ n ≠ ""%string).
  { intros i n j He [[<- <-]|[_ Hn]]%lookup_insert_Some; [|by apply Hr]. split; [done|]. intros E. by rewrite E in He. }
  assert (Hsw : ∀ on name, names_ok (call (switchType_locked on name) r).1).
  { intros on name. unfold call, switchType_locked. destruct (types_ r !! name) as [i|] eqn:E; [|done]. destruct (Bool.eqb _ _); [done|].
    intros n j. cbn. intros [[<- <-]|[_ Hn]]%lookup_insert_Some; [by apply (Hr _ i)|by apply Hr]. }
  assert (Hreg : ∀ i, names_ok (registerType i r).1).
  { intros i. unfold registerType, call, registerType_locked. destruct (str_empty (typeName i)) eqn:E; [done|].
    destruct (types_ r !! typeName i); [done|]. intros n j. cbn. by apply Hins. }
  destruct o; cbn [type_step]; try done; try apply Hreg; try apply Hsw.
  - unfold unregisterType, call, unregisterType_locked. destruct (types_ r !! name); [|done]. intros n j. cbn.
    intros [_ H]%lookup_delete_Some. by apply Hr.
  - unfold unregisterPluginTypes. cbn [fst]. intros n j. rewrite remove_all_types. generalize (rev (plugin_names plugin r)).
    intros ns. induction ns as [|m ns IH]; [apply Hr|]. cbn [foldr]. intros [_ H]%lookup_delete_Some. by apply IH.
  - unfold updateType, call, updateType_locked. destruct (types_ r !! typeName info) eqn:E; [|done]. intros n j. cbn.
    apply Hins. destruct (Hr _ _ E) as [_ Hne]. by destruct (typeName info).
  - unfold registerCategory. destruct (str_empty _); [done|]. by destruct (categories_ r !! _).
Qed.

(** Unregistering a plugin alone removes exactly its types, and answers how many. *)
Theorem unregisterPluginTypes_correct (plugin : string) r :
  let '(r', n) := unregisterPluginTypes plugin r in
  (∀ name, types_ r' !! name = match types_ r !! name with
                               | Some i => if decide (pluginName i = plugin) then None else Some i
                               | None => None
                               end) ∧ n = (size (types_ r) - size (types_ r'))%nat.
Proof.
  unfold unregisterPluginTypes. set (ns := plugin_names plugin r).
  assert (Hns : ∀ n, n ∈ ns ↔ ∃ i, types_ r !! n = Some i ∧ pluginName i = plugin).
  { intros n. unfold ns, plugin_names. rewrite list_elem_of_fmap. split.
    - intros ([m i] & -> & [Hp Hi]%list_elem_of_filter). apply elem_of_iter_map in Hi. by exists i.
    - intros (i & Hi & Hp). exists (n, i). split; [done|]. apply list_elem_of_filter. split; [done|]. by apply elem_of_iter_map. }
  assert (Hnd : NoDup ns).
  { unfold ns, plugin_names. pose proof (NoDup_iter_keys (types_ r)) as Hk. unfold iter_keys in Hk. clear -Hk.
    induction (iter_map (types_ r)) as [|[k i] l IH]; [constructor|]. rewrite filter_cons. rewrite fmap_cons in Hk.
    apply NoDup_cons in Hk as [Hk1 Hk2]. case_decide; [|by apply IH]. cbn [map]. constructor; [|by apply IH].
    intros (x & Ex & [_ Hx]%list_elem_of_filter)%list_elem_of_fmap. apply Hk1. apply list_elem_of_fmap. by exists x. }
  rewrite remove_all_types.
  assert (Hl : ∀ l name, foldr delete (types_ r) l !! name = if bool_decide (name ∈ l) then None else types_ r !! name).
  { intros l name. induction l as [|x l IH]; [done|]. cbn [foldr]. destruct (decide (x = name)) as [->|Hne].
    - rewrite lookup_delete_eq. by rewrite bool_decide_true by (by left).
    - rewrite lookup_delete_ne, IH by done. apply (f_equal (λ b : bool, if b then _ else _)), bool_decide_ext. set_solver. }
  split.
  - intros name. rewrite Hl. case_bool_decide as Hin.
    + apply list_elem_of_In, in_rev, list_elem_of_In, Hns in Hin as (i & -> & Hp). by rewrite decide_True.
    + destruct (types_ r !! name) as [i|] eqn:E; [|done]. rewrite decide_False; [done|]. intros Hp. apply Hin.
      apply list_elem_of_In, in_rev. rewrite rev_involutive. apply list_elem_of_In, Hns. by exists i.
  - assert (Hsz : ∀ l (m : gmap string TypeInfo), NoDup l → (∀ x, x ∈ l → is_Some (m !! x)) →
      (size (foldr delete m l) + length l = size m)%nat).
    { clear. intros l m Hn. induction Hn as [|x l Hx Hn IH]; intros Hm; [cbn; lia|]. cbn [foldr length].
      specialize (IH (λ y Hy, Hm y (list_elem_of_further _ _ _ Hy))). destruct (Hm x (list_elem_of_here _ _)) as [i Hi].
      assert (Hi' : foldr delete m l !! x = Some i).
      { clear -Hx Hi. induction l as [|y l IH]; [done|]. cbn [foldr]. rewrite lookup_delete_ne by set_solver. apply IH. set_solver. }
      rewrite map_size_delete_Some by (by rewrite Hi'). assert (size (foldr delete m l) ≠ 0)%nat; [|lia].
      intros E. apply map_size_empty_inv in E. by rewrite E in Hi'. }
    specialize (Hsz (rev ns) (types_ r)). rewrite length_rev in Hsz. enough (size (foldr delete (types_ r) (rev ns)) + length ns = size (types_ r))%nat by lia.
    apply Hsz; [rewrite <- rev_alt || idtac; apply NoDup_ListNoDup, NoDup_rev, NoDup_ListNoDup; done|].
    intros x Hx. apply list_elem_of_In, in_rev, list_elem_of_In, Hns in Hx as (i & -> & _). done.
Qed.
End properties.

(** ** Examples *)

Module Demo.
#[local] Instance demo_json : JsonTree jtree Z := jtree_json (λ _, ""%string) (λ _, None).
#[local] Instance demo_names : HashIter string := canonical_iter.
#[local] Instance demo_ids : HashIter Z := canonical_iter.

Definition info (name cat plugin : string) : DeviceTypeInfo jtree :=
  mkTypeInfo name cat "" "" plugin "1.0.0" default_capabilities TNull TNull 0 true.
Definition start : DeviceTypeRegistry (J := jtree) := (subscribe new_type_registry).1.
Definition know (r : DeviceTypeRegistry (J := jtree)) : list (string * (string * string)) :=
  map_to_list (replay ∅ (events_for 1 (delivered r))).

Lemma events_mirror_registry_witness :
  let ops := [TRegister (info "Cam" "Camera" "indi"); TRegister (info "Dome" "Dome" "ascom"); TDisable "Cam"; TUnregisterPlugin "indi"] in
  ∃ es, events_for 1 (delivered (type_run ops start)) = events_for 1 (delivered start) ++ es ∧
    view (types_ (type_run ops start)) = replay (view (types_ start)) es.
Proof.
  intros ops. apply (events_mirror_registry 1 ops start); [by apply (bool_decide_unpack _); vm_compute|].
  repeat constructor.
Defined.

Lemma typeInfo_roundtrip_witness : typeInfo_fromJson (typeInfo_toJson (info "Cam" "Camera" "indi")) = Ok (info "Cam" "Camera" "indi").
Proof. apply typeInfo_roundtrip. cbv. split; discriminate. Defined.

(** A reset tells no one: the subscriber still knows of the type. *)
Example reset_is_silent :
  let r := clear (registerType (info "Cam" "Camera" "indi") start).1 in
  getTypeNames r = [] ∧ know r = [("Cam"%string, ("Camera"%string, "indi"%string))] ∧ hasCategory "Camera" r = false.
Proof. vm_compute. repeat split. Qed.

(** One thread registers a type and another removes it before the first has told:
    the events come in the other order, and the subscriber knows of a type that is
    not there. *)
Example events_out_of_order :
  let '(r, e1, _) := registerType_locked (info "Cam" "Camera" "indi") start in
  let '(r, e2, _) := unregisterType_locked "Cam" r in
  let r := notify e1 (notify e2 r) in
  getTypeNames r = [] ∧ know r = [("Cam"%string, ("Camera"%string, "indi"%string))].
Proof. vm_compute. repeat split. Qed.

(** Between collecting the names of a plugin and removing them, the type can have
    become another plugin's; it is removed all the same, in the name of the first. *)
Example removes_another_plugin :
  let r := (registerType (info "Cam" "Camera" "indi") start).1 in
  let names := plugin_names "indi" r in
  let r := (registerType (info "Cam" "Camera" "ascom") (unregisterType "Cam" r).1).1 in
  let '(r, e) := remove_plugin_type "indi" "Cam" r in
  names = ["Cam"%string] ∧ getTypeNames r = [] ∧ e = Some (mkEvent Unregistered "Cam" "Camera" "indi").
Proof. vm_compute. repeat split. Qed.
End Demo.
