(* ===== verification/CommandDispatcher.v ===== *)
(** * CommandDispatcher: commands of the server

    Models class CommandDispatcher of src/src/server/command.hpp and command.cpp:
    registering handlers, dispatching commands to the event loop, the task the loop
    calls, states, timeouts, history and subscribers.  [V] are the values of std::any;
    handlers and callbacks are functions that return or throw, and what is called is
    recorded in [calls].  What a dispatch and its task have still to do is a list of
    actions, and so is what is left of a call of cancelCommand; other threads may come
    between any two of them, as far as the lock lets them: setting a state, telling
    the subscribers and cleaning up are three.  One action happens at once, although
    the maps are changed without the lock or with the shared lock only, which is a data
    race when two do so.  Subscribers throw nothing but std::exception, which is
    caught.  what() of an exception is its message.  Left out: undo, which does not
    compile when used. *)

From S2P Require Import Prelude EventLoop ServerTasks.

Local Open Scope Z_scope.

Inductive CommandStatus := PENDING | RUNNING | COMPLETED | FAILED | CANCELLED.
Definition status_int (s : CommandStatus) : Z :=
  match s with PENDING => 0 | RUNNING => 1 | COMPLETED => 2 | FAILED => 3 | CANCELLED => 4 end.
Definition terminal (s : CommandStatus) : bool := match s with PENDING | RUNNING => false | _ => true end.

(** A call of client code: it returns, throws a std::exception, or something else. *)
Inductive outcome (A : Type) := Returned (a : A) | StdThrown (what : string) | OtherThrown.
Arguments Returned {A}.
Arguments StdThrown {A}.
Arguments OtherThrown {A}.

Record Config := mkDispatcherConfig { maxHistorySize : nat; defaultTimeout : Z }.
Definition default_dispatcher_config : Config := mkDispatcherConfig 100 5000.

Record CommandExecutionInfo := mkExecution { ex_status : CommandStatus; startTime : Z; ex_timeout : Z }.

Section dispatcher.
Context {V T L : Type} (any_int : Z → V) `{LL : Loop L} `{HS : !HashIter string, HZ : !HashIter Z}.

(** [Throw] is an exception pointer. *)
Abbreviation ResultType := (result string V).

(** What the future holds: a result, or the exception that left the task. *)
Inductive future_value := Result (r : ResultType) | Raised.

(** What a thread of the dispatcher does at a time: the parts of an update of the
    state, of dispatching, and of the task. *)
Inductive action :=
| AUpdate (id : string) (s : CommandStatus)
| ANotify (id : string) (v : V)
| ACleanup (id : string)
| APost (prio : Z) (delay : option Z)
| ACheckTimeout
| ALock                                        (* std::shared_lock *)
| ACall                                        (* find and call the handler *)
| ARecord (v : V)
| AFree                                        (* the copy of the command *)
| ACallback (v : V)
| AUnlock
| AFailed (what : string)                      (* the callback in the catch clause *)
| AFinish (f : future_value).

(** A job is being dispatched, is in the loop, was called by it, or has ended. *)
Inductive job_phase := Preparing | Posted | Started | Finished.
Record Job := mkJob {
  job_id : string;
  job_command : V;
  job_callback : option (ResultType → outcome unit);
  job_phase_of : job_phase;
  job_todo : list action;
  job_future : option future_value
}.
#[export] Instance Job_eta : Eta Job := λ j,
  mkJob (job_id j) (job_command j) (job_callback j) (job_phase_of j) (job_todo j) (job_future j).
#[export] Instance job_phase_of_upd : Upd job_phase_of. Proof. derive_upd. Defined.
#[export] Instance job_todo_upd : Upd job_todo. Proof. derive_upd. Defined.
#[export] Instance job_future_upd : Upd job_future. Proof. derive_upd. Defined.

Inductive dispatcher_event :=
| Handled (job : nat) (command : V)
| Told (token : Z) (id : string) (value : V)
| CalledBack (job : nat) (r : ResultType).

(** The lock: the jobs that hold it shared; [cancelling] is what is left of a call
    of cancelCommand, which holds it exclusively. *)
Record CommandDispatcher := mkDispatcher {
  configuration : Config;
  commandHandlers : gmap string (V → outcome V);
  undoHandlers : gmap string (V → outcome unit);
  commandHistory : gmap string (list V);
  eventSubscribers : gmap string (gset Z);
  commandStatusMap : gmap string CommandStatus;
  commandTimeouts : gmap string Z;
  executionInfoMap : gmap string CommandExecutionInfo;
  nextSubscriberToken : Z;
  eventLoop : L;
  jobs : list Job;
  copies : gset nat;                             (* jobs whose copy of the command is not freed *)
  calls : list dispatcher_event;
  readers : gset nat;
  cancelling : option (list action)
}.
#[export] Instance CommandDispatcher_eta : Eta CommandDispatcher := λ d,
  mkDispatcher (configuration d) (commandHandlers d) (undoHandlers d) (commandHistory d) (eventSubscribers d)
    (commandStatusMap d) (commandTimeouts d) (executionInfoMap d) (nextSubscriberToken d) (eventLoop d) (jobs d) (copies d) (calls d) (readers d) (cancelling d).
#[export] Instance commandHandlers_upd : Upd commandHandlers. Proof. derive_upd. Defined.
#[export] Instance undoHandlers_upd : Upd undoHandlers. Proof. derive_upd. Defined.
#[export] Instance commandHistory_upd : Upd commandHistory. Proof. derive_upd. Defined.
#[export] Instance eventSubscribers_upd : Upd eventSubscribers. Proof. derive_upd. Defined.
#[export] Instance commandStatusMap_upd : Upd commandStatusMap. Proof. derive_upd. Defined.
#[export] Instance commandTimeouts_upd : Upd commandTimeouts. Proof. derive_upd. Defined.
#[export] Instance executionInfoMap_upd : Upd executionInfoMap. Proof. derive_upd. Defined.
#[export] Instance nextSubscriberToken_upd : Upd nextSubscriberToken. Proof. derive_upd. Defined.
#[export] Instance eventLoop_upd : Upd eventLoop. Proof. derive_upd. Defined.
#[export] Instance jobs_upd : Upd jobs. Proof. derive_upd. Defined.
#[export] Instance copies_upd : Upd copies. Proof. derive_upd. Defined.
#[export] Instance calls_upd : Upd calls. Proof. derive_upd. Defined.
#[export] Instance readers_upd : Upd readers. Proof. derive_upd. Defined.
#[export] Instance cancelling_upd : Upd cancelling. Proof. derive_upd. Defined.

Definition new_dispatcher (loop : L) (cfg : Config) : CommandDispatcher :=
  mkDispatcher cfg ∅ ∅ ∅ ∅ ∅ ∅ ∅ 0 loop [] ∅ [] ∅ None.

(** ** Handlers and subscribers *)

(** [cast]: std::any_cast, [None] is bad_any_cast; [wrap] puts the value back. *)
Definition registerCommand (cast : V → option T) (wrap : T → V) (id : string) (handler : T → outcome T)
    (undoHandler : option (T → outcome unit)) (d : CommandDispatcher) : CommandDispatcher :=
  let typed {B} (f : T → outcome B) (v : V) := match cast v with Some t => f t | None => StdThrown "bad any_cast" end in
  let d := d <| commandHandlers ::= <[id := typed (λ t, match handler t with
                                                      | Returned t => Returned (wrap t)
                                                      | StdThrown what => StdThrown what
                                                      | OtherThrown => OtherThrown
                                                      end)]> |> in
  match undoHandler with Some u => d <| undoHandlers ::= <[id := typed u]> |> | None => d end.
Definition unregisterCommand (id : string) (d : CommandDispatcher) : CommandDispatcher :=
  d <| commandHandlers ::= delete id |> <| undoHandlers ::= delete id |>.

Definition subscribe (id : string) (d : CommandDispatcher) : CommandDispatcher * Z :=
  let token := nextSubscriberToken d in
  (d <| nextSubscriberToken := to_int (token + 1) |>
     <| eventSubscribers ::= λ m, <[id := {[token]} ∪ default ∅ (m !! id)]> m |>, token).
Definition unsubscribe (id : string) (token : Z) (d : CommandDispatcher) : CommandDispatcher :=
  let rest := default ∅ (eventSubscribers d !! id) ∖ {[token]} in
  d <| eventSubscribers ::= λ m, if bool_decide (rest = ∅) then delete id m else <[id := rest]> m |>.

Definition notifyEventSubscribers (id : string) (v : V) (d : CommandDispatcher) : CommandDispatcher :=
  match eventSubscribers d !! id with
  | Some tokens => d <| calls ::= λ l, l ++ map (λ token, Told token id v) (iter_set tokens) |>
  | None => d
  end.

(** ** History *)

Definition recordCommandHistory (id : string) (v : V) (d : CommandDispatcher) : CommandDispatcher :=
  let history := default [] (commandHistory d !! id) ++ [v] in
  let history := if (maxHistorySize (configuration d) <? length history)%nat then drop 1 history else history in
  d <| commandHistory ::= <[id := history]> |>.
Definition clearHistory (d : CommandDispatcher) : CommandDispatcher := d <| commandHistory := ∅ |>.
Definition clearCommandHistory (id : string) (d : CommandDispatcher) : CommandDispatcher := d <| commandHistory ::= delete id |>.
(** [None]: an entry of another type, bad_any_cast. *)
Definition getCommandHistory (cast : V → option T) (id : string) (d : CommandDispatcher) : option (list T) :=
  mapM cast (default [] (commandHistory d !! id)).

(** ** States *)

Definition cleanupCommandResources (id : string) (d : CommandDispatcher) : CommandDispatcher :=
  d <| commandTimeouts ::= delete id |> <| commandStatusMap ::= delete id |> <| executionInfoMap ::= delete id |>
    <| commandHistory ::= alter (λ h, match last h with Some v => [v] | None => h end) id |>.

(** The first part of updateCommandStatus; [now]: system_clock, in nanoseconds. *)
Definition set_status (id : string) (s : CommandStatus) (now : Z) (d : CommandDispatcher) : CommandDispatcher :=
  let timeout := default (defaultTimeout (configuration d)) (commandTimeouts d !! id) in
  d <| executionInfoMap ::= <[id := mkExecution s now timeout]> |> <| commandStatusMap ::= <[id := s]> |>.
(** updateCommandStatus: the state, then the subscribers, then the cleanup. *)
Definition updateCommandStatus (a : action) (now : Z) (d : CommandDispatcher) : CommandDispatcher * list action :=
  match a with
  | AUpdate id s =>
      (set_status id s now d, ANotify id (any_int (status_int s)) :: if terminal s then [ACleanup id] else [])
  | ANotify id v => (notifyEventSubscribers id v d, [])
  | ACleanup id => (cleanupCommandResources id d, [])
  | _ => (d, [])
  end.

(** Nobody holds the lock. *)
Definition lock_free (d : CommandDispatcher) : bool := bool_decide (readers d = ∅) && negb (bool_decide (is_Some (cancelling d))).

(** cancelCommand holds the lock for all its parts. *)
Definition cancelCommand (id : string) (d : CommandDispatcher) : CommandDispatcher :=
  if lock_free d then d <| cancelling := Some [AUpdate id CANCELLED] |> else d.
Definition cancel_step (now : Z) (d : CommandDispatcher) : CommandDispatcher :=
  match cancelling d with
  | Some (a :: rest) => let '(d, new) := updateCommandStatus a now d in d <| cancelling := Some (new ++ rest) |>
  | Some [] => d <| cancelling := None |>
  | None => d
  end.
Definition setTimeout (id : string) (timeout : Z) (d : CommandDispatcher) : CommandDispatcher := d <| commandTimeouts ::= <[id := timeout]> |>.
(** The states that are asked for under the shared lock, when no call of cancelCommand
    holds it. *)
Definition getCommandStatus (id : string) (d : CommandDispatcher) : CommandStatus := default PENDING (commandStatusMap d !! id).
Definition getActiveCommands (d : CommandDispatcher) : list string :=
  filter (λ id, match commandStatusMap d !! id with Some s => negb (terminal s) | None => false end = true) (iter_keys (commandHandlers d)).

Definition checkCommandTimeout (id : string) (now : Z) (d : CommandDispatcher) : bool :=
  match executionInfoMap d !! id with
  | None => false
  | Some info => ex_timeout info <? Z.quot (now - startTime info) NS_PER_MS
  end.

(** ** Dispatching *)

Definition alter_job (j : nat) (f : Job → Job) (d : CommandDispatcher) : CommandDispatcher := d <| jobs ::= alter f j |>.
Definition set_todo (j : nat) (todo : list action) : CommandDispatcher → CommandDispatcher :=
  alter_job j (λ jb, jb <| job_todo := todo |>).

(** The beginning of [dispatch]: the copy; the caller then sets the state and posts. *)
Definition dispatch (id : string) (command : V) (prio : Z) (delay : option Z) (callback : option (ResultType → outcome unit))
    (d : CommandDispatcher) : CommandDispatcher * nat :=
  let j := length (jobs d) in
  (d <| copies ::= λ s, {[j]} ∪ s |>
     <| jobs ::= λ l, l ++ [mkJob id command callback Preparing [AUpdate id PENDING; APost prio delay] None] |>, j).

Definition finish (j : nat) (v : future_value) : CommandDispatcher → CommandDispatcher :=
  alter_job j (λ jb, jb <| job_phase_of := Finished |> <| job_future := Some v |>).
Definition free_copy (j : nat) (d : CommandDispatcher) : CommandDispatcher := d <| copies ::= λ s, s ∖ {[j]} |>.

(** The catch clause of the task, which has left the scope of the lock. *)
Definition task_failed (id what : string) : list action := [AUnlock; AUpdate id FAILED; AFailed what].

(** One action of a job: what comes instead of it, or [None] when it has to wait.
    [now] is the clock it reads, that of the loop for posting. *)
Definition job_action (j : nat) (jb : Job) (a : action) (now : Z) (d : CommandDispatcher)
  : option (CommandDispatcher * list action) :=
  let id := job_id jb in
  match a with
  | AUpdate _ _ | ANotify _ _ | ACleanup _ => Some (updateCommandStatus a now d)
  | APost prio delay =>
      Some (alter_job j (λ jb, jb <| job_phase_of := Posted |>) d
              <| eventLoop ::= match delay with
                               | Some ms => loop_postDelayed ms prio j now
                               | None => loop_post prio j now
                               end |>, [])
  | ACheckTimeout =>
      if checkCommandTimeout id now d
      then Some (free_copy j d, task_failed id "Command execution timeout")
      else Some (d, [ALock; ACall])
  | ALock =>
      match cancelling d with
      | Some _ => None
      | None => Some (d <| readers ::= λ s, {[j]} ∪ s |>, [])
      end
  | ACall =>
      match commandHandlers d !! id with
      | None => Some (free_copy j d, task_failed id ("Command handler not found: " +:+ id))
      | Some handler =>
          let d := d <| calls ::= λ l, l ++ [Handled j (job_command jb)] |> in
          Some (d, match handler (job_command jb) with
                   | Returned v => [ARecord v]
                   | StdThrown what => task_failed id what
                   | OtherThrown => [AUnlock; AFinish Raised]
                   end)
      end
  | ARecord v => Some (recordCommandHistory id v d, [ANotify id v; AUpdate id COMPLETED; AFree; ACallback v])
  | AFree => Some (free_copy j d, [])
  | ACallback v =>
      match job_callback jb with
      | None => Some (d, [AUnlock; AFinish (Result (Ok v))])
      | Some callback =>
          let d := d <| calls ::= λ l, l ++ [CalledBack j (Ok v)] |> in
          Some (d, match callback (Ok v) with
                   | Returned _ => [AUnlock; AFinish (Result (Ok v))]
                   | StdThrown what => task_failed id what
                   | OtherThrown => [AUnlock; AFinish Raised]
                   end)
      end
  | AUnlock => Some (d <| readers ::= λ s, s ∖ {[j]} |>, [])
  | AFailed what =>
      match job_callback jb with
      | None => Some (d, [AFinish (Result (Throw what))])
      | Some callback =>
          let d := d <| calls ::= λ l, l ++ [CalledBack j (Throw what)] |> in
          Some (d, match callback (Throw what) with
                   | Returned _ => [AFinish (Result (Throw what))]
                   | _ => [AFinish Raised]
                   end)
      end
  | AFinish f => Some (finish j f d, [])
  end.

Definition job_step (j : nat) (now : Z) (d : CommandDispatcher) : CommandDispatcher :=
  match jobs d !! j with
  | Some jb =>
      match job_todo jb with
      | a :: rest =>
          match job_action j jb a now d with
          | Some (d, new) => set_todo j (new ++ rest) d
          | None => d
          end
      | [] => d
      end
  | None => d
  end.

(** The loop calls the task of a job. *)
Definition call_task (j : nat) (d : CommandDispatcher) : CommandDispatcher :=
  match jobs d !! j with
  | Some jb =>
      match job_phase_of jb with
      | Posted =>
          alter_job j (λ jb, jb <| job_phase_of := Started |> <| job_todo := [AUpdate (job_id jb) RUNNING; ACheckTimeout] |>) d
      | _ => d
      end
  | None => d
  end.

(** Steps of one job alone, with their clock readings. *)
Definition job_steps (j : nat) (clock : list Z) (d : CommandDispatcher) : CommandDispatcher :=
  foldl (λ d now, job_step j now d) d clock.

(** The caller makes the three steps of each dispatch one after the other. *)
Fixpoint batchDispatch (commands : list (string * V)) (prio : Z) (clock : nat → list Z) (d : CommandDispatcher)
  : CommandDispatcher * list nat :=
  match commands with
  | [] => (d, [])
  | (id, v) :: rest =>
      let '(d, j) := dispatch id v prio None None d in
      let '(d, js) := batchDispatch rest prio (λ n, clock (S n)) (job_steps j (clock 0%nat) d) in (d, j :: js)
  end.

(** [getResult]: what the caller gets once the future is set; [None] is
    bad_any_cast. *)
Definition getResult (cast : V → option T) (v : future_value) : option (result string T) :=
  match v with
  | Result (Ok v) => Ok <$> cast v
  | Result (Throw what) => Some (Throw what)
  | Raised => None
  end.
End dispatcher.


(** * Properties *)

Section properties.
Context {V T L : Type} (any_int : Z → V) `{LL : Loop L} `{HS : !HashIter string, HZ : !HashIter Z}.
Abbreviation Dispatcher := (CommandDispatcher (V := V) (L := L)).
Abbreviation Job := (Job (V := V)).
Abbreviation action := (action (V := V)).
Implicit Types d : Dispatcher.

(** ** Runs *)

Inductive dispatcher_op :=
| DRegister (cast : V → option T) (wrap : T → V) (id : string) (handler : T → outcome T) (undoHandler : option (T → outcome unit))
| DUnregister (id : string) | DSubscribe (id : string) | DUnsubscribe (id : string) (token : Z)
| DClearHistory | DClearCommandHistory (id : string) | DSetTimeout (id : string) (timeout : Z)
| DCancel (id : string) | DCancelStep (now : Z)
| DDispatch (id : string) (command : V) (prio : Z) (delay : option Z) (callback : option (result string V → outcome unit))
| DCall (j : nat) | DStep (j : nat) (now : Z).

(** A call that needs the lock exclusively waits until nobody holds it. *)
Definition exclusively (f : Dispatcher → Dispatcher) d : Dispatcher := if lock_free d then f d else d.
Definition dispatcher_step (o : dispatcher_op) d : Dispatcher :=
  match o with
  | DRegister cast wrap id handler u => exclusively (registerCommand cast wrap id handler u) d
  | DUnregister id => exclusively (unregisterCommand id) d
  | DSubscribe id => exclusively (λ d, (subscribe id d).1) d
  | DUnsubscribe id token => exclusively (unsubscribe id token) d
  | DClearHistory => exclusively clearHistory d
  | DClearCommandHistory id => exclusively (clearCommandHistory id) d
  | DSetTimeout id timeout => exclusively (setTimeout id timeout) d
  | DCancel id => cancelCommand id d
  | DCancelStep now => cancel_step any_int now d
  | DDispatch id v prio delay cb => (dispatch id v prio delay cb d).1
  | DCall j => call_task j d
  | DStep j now => job_step any_int j now d
  end.
Definition dispatcher_run (ops : list dispatcher_op) d : Dispatcher := foldl (λ d o, dispatcher_step o d) d ops.

(** ** What the threads have to do *)

Definition todos d : list (list action) := (job_todo <$> jobs d) ++ option_list (cancelling d).

(** A thread has set an end state of [id] and cleans up next. *)
Definition cleaning (id : string) (todo : list action) : Prop :=
  ∃ rest, todo = ACleanup id :: rest ∨ ∃ v, todo = ANotify id v :: ACleanup id :: rest.
(** A thread will clean up after [id]. *)
Definition owes (id : string) (todo : list action) : Prop :=
  ACleanup id ∈ todo ∨ ∃ s, terminal s = true ∧ AUpdate id s ∈ todo.

(** What an action puts in its place, as far as it matters here. *)
Definition follows (a : action) (new : list action) : Prop :=
  match a with
  | AUpdate id s => ∃ v, new = ANotify id v :: if terminal s then [ACleanup id] else []
  | ANotify _ _ | ACleanup _ => new = []
  | _ => True
  end.

Definition status_effect (a : action) (m : gmap string CommandStatus) : gmap string CommandStatus :=
  match a with AUpdate id s => <[id := s]> m | ACleanup id => delete id m | _ => m end.

Definition ends_cleaned (m : gmap string CommandStatus) (ts : list (list action)) : Prop :=
  ∀ id s, m !! id = Some s → terminal s = true → ∃ t, t ∈ ts ∧ cleaning id t.
Definition short_or_owed (h : gmap string (list V)) (ts : list (list action)) : Prop :=
  ∀ id l, h !! id = Some l → (length l ≤ 1)%nat ∨ ∃ t, t ∈ ts ∧ owes id t.

Lemma replaced {A} (l : list A) i (x y t : A) : l !! i = Some x → t ∈ l → t = x ∨ t ∈ <[i := y]> l.
Proof.
  intros Hi [k Hk]%list_elem_of_lookup. destruct (decide (k = i)) as [->|Hne]; [left; congruence|].
  right. apply list_elem_of_lookup. exists k. by rewrite list_lookup_insert_ne.
Qed.
Lemma replacing {A} (l : list A) i (x y : A) : l !! i = Some x → y ∈ <[i := y]> l.
Proof. intros Hi. apply list_elem_of_lookup. exists i. apply list_lookup_insert_eq. by eapply lookup_lt_Some. Qed.

(** A step of one thread, seen from all of them. *)
Lemma cleaned_step m ts i a rest new :
  ends_cleaned m ts → ts !! i = Some (a :: rest) → follows a new → ends_cleaned (status_effect a m) (<[i := new ++ rest]> ts).
Proof.
  intros Hm Hi Hf id s Hs Ht.
  assert (Hnew : cleaning id (new ++ rest) → ∃ t, t ∈ <[i := new ++ rest]> ts ∧ cleaning id t).
  { intros Hc. exists (new ++ rest). split; [by eapply replacing|done]. }
  assert (Hold : m !! id = Some s → (cleaning id (a :: rest) → cleaning id (new ++ rest)) →
    ∃ t, t ∈ <[i := new ++ rest]> ts ∧ cleaning id t).
  { intros Hms Hc. destruct (Hm id s Hms Ht) as (t & Hin & Hcl).
    destruct (replaced ts i _ (new ++ rest) t Hi Hin) as [->|]; [by apply Hnew, Hc|by exists t]. }
  destruct a; cbn [status_effect follows] in *; try (apply Hold; [done|]; intros (r & [[=]|(v' & [=])]); fail).
  - destruct Hf as [v ->]. apply lookup_insert_Some in Hs as [[-> ->]|[_ Hs]].
    + rewrite Ht in *. apply Hnew. exists rest. right. by exists v.
    + apply Hold; [done|]. intros (r & [[=]|(v' & [=])]).
  - subst new. apply Hold; [done|]. intros (r & [[=]|(v' & E)]). injection E as _ _ ->. exists r. by left.
  - subst new. apply lookup_delete_Some in Hs as [Hne Hs]. apply Hold; [done|]. intros (r & [E|(v' & [=])]). congruence.
Qed.

Lemma owed_step h h' ts i a rest new :
  short_or_owed h ts → ts !! i = Some (a :: rest) → follows a new →
  (∀ id l, h' !! id = Some l → (length l ≤ 1)%nat ∨ owes id new ∨ (h !! id = Some l ∧ a ≠ ACleanup id)) →
  short_or_owed h' (<[i := new ++ rest]> ts).
Proof.
  intros Hh Hi Hf Heff id l Hl. destruct (Heff id l Hl) as [?|[Ho|[Hl' Ha]]]; [by left|..].
  { right. exists (new ++ rest). split; [by eapply replacing|].
    destruct Ho as [?|(s & ? & ?)]; [left|right; exists s; split; [done|]]; apply elem_of_app; by left. }
  destruct (Hh id l Hl') as [?|(t & Hin & Ho)]; [by left|right].
  destruct (replaced ts i _ (new ++ rest) t Hi Hin) as [->|]; [|by exists t].
  exists (new ++ rest). split; [by eapply replacing|].
  destruct Ho as [[?|Hc]%elem_of_cons|(s & Hs & [E|Hu]%elem_of_cons)].
  - congruence.
  - left. apply elem_of_app. by right.
  - subst a. destruct Hf as [v ->]. left. rewrite Hs. cbn. right. by left.
  - right. exists s. split; [done|]. apply elem_of_app. by right.
Qed.

(** ** One job *)

Definition preparing (a : action) : bool := match a with AUpdate _ _ | ANotify _ _ | ACleanup _ => true | _ => false end.
(** The actions that lead to the end of the task, and the others. *)
Definition leads (a : action) : bool :=
  match a with ACheckTimeout | ACall | ARecord _ | ACallback _ | AFailed _ | AFinish _ => true | _ => false end.
Definition simple (a : action) : bool := match a with APost _ _ => false | _ => negb (leads a) end.
(** The actions that need the copy of the command, or free it. *)
Definition uses (a : action) : bool := match a with ACheckTimeout | ACall | ARecord _ | AFree => true | _ => false end.
Definition uses_in (todo : list action) : nat := length (filter (λ a, uses a = true) todo).

Lemma uses_app l1 l2 : uses_in (l1 ++ l2) = (uses_in l1 + uses_in l2)%nat.
Proof. unfold uses_in. by rewrite filter_app, length_app. Qed.
Lemma uses_cons a l : uses_in (a :: l) = ((if uses a then 1 else 0) + uses_in l)%nat.
Proof. unfold uses_in. rewrite filter_cons. destruct (uses a); cbn; done. Qed.
Lemma uses_preparing l : Forall (λ a, preparing a = true) l → uses_in l = 0%nat.
Proof. induction 1 as [|a l Ha _ IH]; [done|]. rewrite uses_cons, IH. by destruct a. Qed.

(** [copied]: the copy of the command is there. *)
Definition job_ok (copied : Prop) (jb : Job) : Prop :=
  match job_phase_of jb with
  | Preparing => job_future jb = None ∧ copied ∧
      ∃ pre prio delay, job_todo jb = pre ++ [APost prio delay] ∧ Forall (λ a, preparing a = true) pre
  | Posted => job_future jb = None ∧ copied ∧ job_todo jb = []
  | Started => job_future jb = None ∧ (uses_in (job_todo jb) ≤ 1)%nat ∧ (uses_in (job_todo jb) = 1%nat → copied) ∧
      ∃ pre a, job_todo jb = pre ++ [a] ∧ Forall (λ a, simple a = true) pre ∧ leads a = true
  | Finished => is_Some (job_future jb) ∧ job_todo jb = []
  end.

Lemma notify_fields id v d : ∃ l, notifyEventSubscribers id v d = d <| calls := l |>.
Proof.
  unfold notifyEventSubscribers. destruct (eventSubscribers d !! id); [by eexists|]. exists (calls d). by destruct d.
Qed.

(** What an update leaves alone. *)
Definition same_jobs d d' : Prop :=
  jobs d' = jobs d ∧ copies d' = copies d ∧ cancelling d' = cancelling d ∧ readers d' = readers d.

Lemma update_frame a now d : same_jobs d (updateCommandStatus any_int a now d).1.
Proof.
  destruct a; try done. cbn. by destruct (notify_fields id v d) as [l ->].
Qed.
Lemma update_status a now d :
  commandStatusMap (updateCommandStatus any_int a now d).1 =
    match a with AUpdate _ _ | ACleanup _ => status_effect a (commandStatusMap d) | _ => commandStatusMap d end.
Proof. destruct a; try done. cbn. by destruct (notify_fields id v d) as [l ->]. Qed.
Lemma update_history a now d :
  commandHistory (updateCommandStatus any_int a now d).1 =
    match a with
    | ACleanup id => alter (λ h, match last h with Some v => [v] | None => h end) id (commandHistory d)
    | _ => commandHistory d
    end.
Proof. destruct a; try done. cbn. by destruct (notify_fields id v d) as [l ->]. Qed.
Lemma update_follows a now d : follows a (updateCommandStatus any_int a now d).2.
Proof. destruct a; try done. by eexists. Qed.

Lemma last_short (h : list V) : (length (match last h with Some v => [v] | None => h end) ≤ 1)%nat.
Proof. destruct (last h) eqn:El; [cbn; lia|]. apply last_None in El as ->. cbn. lia. Qed.

(** What an action of a job changes. *)
Record action_spec (j : nat) (jb : Job) (a : action) d d' (new : list action) : Prop := {
  as_status : commandStatusMap d' = status_effect a (commandStatusMap d);
  as_follows : follows a new;
  as_history id l : commandHistory d' !! id = Some l →
    (length l ≤ 1)%nat ∨ owes id new ∨ (commandHistory d !! id = Some l ∧ a ≠ ACleanup id);
  as_others k : k ≠ j → jobs d' !! k = jobs d !! k ∧ (k ∈ copies d → k ∈ copies d');
  as_todos : job_todo <$> jobs d' = job_todo <$> jobs d;
  as_cancelling : cancelling d' = cancelling d;
  as_readers : readers d' ⊆ readers d ∨ cancelling d = None
}.

Lemma alter_todos (f : Job → Job) j (l : list Job) : (∀ jb, job_todo (f jb) = job_todo jb) → job_todo <$> alter f j l = job_todo <$> l.
Proof.
  intros Hf. apply list_eq. intros k. rewrite !list_lookup_fmap. destruct (decide (k = j)) as [->|Hne].
  - rewrite list_lookup_alter_eq. destruct (l !! j); [|done]. cbn. by rewrite Hf.
  - by rewrite list_lookup_alter_ne.
Qed.

Lemma job_action_spec j jb a now d d' new :
  job_action any_int j jb a now d = Some (d', new) → action_spec j jb a d d' new.
Proof.
  assert (Hsame : ∀ new d2, follows a new → status_effect a (commandStatusMap d) = commandStatusMap d → (∀ id, a ≠ ACleanup id) →
    commandStatusMap d2 = commandStatusMap d → commandHistory d2 = commandHistory d → jobs d2 = jobs d →
    (∀ k, k ≠ j → k ∈ copies d → k ∈ copies d2) → cancelling d2 = cancelling d → readers d2 ⊆ readers d ∨ cancelling d = None →
    action_spec j jb a d d2 new).
  { intros new' d2 Hf Hs Hc E1 E2 E3 E4 E5 E6. split; rewrite ?E1, ?E2, ?E3; auto. }
  destruct a as [id s|id v|id|prio delay| | | |v| |v| |what|f]; cbn [job_action].
  - intros [= <- <-]. split; cbn; try done; auto; by eexists.
  - intros [= <- <-]. destruct (notify_fields id v d) as [l ->]. apply Hsame; auto; done.
  - intros [= <- <-]. split; cbn; auto; try done. intros k l. destruct (decide (id = k)) as [->|Hne].
    + rewrite lookup_alter_eq. intros (h & _ & ->)%fmap_Some_1. left. apply last_short.
    + rewrite lookup_alter_ne by done. intros Hl. right. right. split; [done|congruence].
  - intros [= <- <-]. split; cbn; auto; try done; [|by apply alter_todos].
    intros k Hk. split; [by apply list_lookup_alter_ne|done].
  - destruct (checkCommandTimeout _ _ _); intros [= <- <-]; apply Hsame; auto; cbn; set_solver.
  - destruct (cancelling d) eqn:Ec; [done|]. intros [= <- <-]. apply Hsame; cbn; auto; try done; rewrite ?Ec; auto.
  - destruct (commandHandlers d !! job_id jb) as [h|]; intros [= <- <-]; apply Hsame; auto; cbn; set_solver.
  - intros [= <- <-]. split; cbn; auto; try done. intros k l. destruct (decide (job_id jb = k)) as [<-|Hne].
    + intros _. right. left. right. exists COMPLETED. split; [done|]. right. by left.
    + rewrite lookup_insert_ne by done. auto.
  - intros [= <- <-]. apply Hsame; auto; cbn; set_solver.
  - destruct (job_callback jb); intros [= <- <-]; apply Hsame; auto; done.
  - intros [= <- <-]. apply Hsame; cbn; auto; try done. left. set_solver.
  - destruct (job_callback jb); intros [= <- <-]; apply Hsame; auto; done.
  - intros [= <- <-]. split; cbn; auto; try done; [|by apply alter_todos].
    intros k Hk. split; [by apply list_lookup_alter_ne|done].
Qed.

Lemma single {A} (pre : list A) x a rest : pre ++ [x] = a :: rest →
  (pre = [] ∧ x = a ∧ rest = []) ∨ ∃ pre', pre = a :: pre' ∧ rest = pre' ++ [x].
Proof. destruct pre as [|b pre]; cbn; intros [= -> <-]; [by left|right; eauto]. Qed.

Lemma failed_ok copied jb id what fut : job_future jb = None → job_phase_of jb = Started →
  fut = task_failed id what → job_ok copied (jb <| job_todo := fut |>).
Proof.
  intros Hf Hp ->. unfold job_ok. cbn. rewrite Hp. split; [done|]. split; [vm_compute; lia|]. split; [done|].
  exists [AUnlock; AUpdate id FAILED], (AFailed what). split_and!; [done|by repeat constructor|done].
Qed.
Ltac counted := first [by repeat constructor|vm_compute; lia|vm_compute; by intros _].

(** A task goes on with [pre], then [a]. *)
Lemma goes_on copied jb pre (a : action) : job_future jb = None → job_phase_of jb = Started →
  Forall (λ a, simple a = true) pre → leads a = true → (uses_in (pre ++ [a]) ≤ 1)%nat →
  (uses_in (pre ++ [a]) = 1%nat → copied) → job_ok copied (jb <| job_todo := pre ++ [a] |>).
Proof. intros Hf Hp H1 H2 H3 H4. unfold job_ok. cbn. rewrite Hp. split_and!; eauto. Qed.

(** The last action of a task. *)
Lemma leading_ok j jb a now d d' new jb' : jobs d !! j = Some jb → job_phase_of jb = Started → job_future jb = None →
  leads a = true → (uses a = true → j ∈ copies d) → job_action any_int j jb a now d = Some (d', new) →
  jobs d' !! j = Some jb' → job_ok (j ∈ copies d') (jb' <| job_todo := new |>).
Proof.
  intros Hj Hp Hf Hl Hc. destruct a as [id s|id v|id|prio delay| | | |v| |v| |what|f]; try done; cbn [job_action].
  - destruct (checkCommandTimeout _ _ _); intros [= <- <-]; cbn; rewrite Hj; intros [= <-]; [by eapply failed_ok|].
    apply (goes_on _ jb [ALock] ACall); auto; counted.
  - destruct (commandHandlers d !! job_id jb) as [h|]; intros [= <- <-]; cbn; rewrite Hj; intros [= <-]; [|by eapply failed_ok].
    destruct (h (job_command jb)) as [v|what|]; [|by eapply failed_ok|].
    + apply (goes_on _ jb [] (ARecord v)); auto; counted.
    + apply (goes_on _ jb [AUnlock] (AFinish Raised)); auto; counted.
  - intros [= <- <-]; cbn; rewrite Hj; intros [= <-].
    apply (goes_on _ jb [ANotify (job_id jb) v; AUpdate (job_id jb) COMPLETED; AFree] (ACallback v)); auto; counted.
  - assert (job_ok (j ∈ copies d) (jb <| job_todo := [AUnlock; AFinish (Result (Ok v))] |>) ∧
            job_ok (j ∈ copies d) (jb <| job_todo := [AUnlock; AFinish Raised] |>)) as [H1 H2].
    { split; apply (goes_on _ jb [AUnlock]); auto; counted. }
    destruct (job_callback jb) as [cb|]; intros [= <- <-]; cbn; rewrite Hj; intros [= <-]; [|exact H1].
    destruct (cb (Ok v)); [exact H1|by eapply failed_ok|exact H2].
  - assert (∀ f, job_ok (j ∈ copies d) (jb <| job_todo := [AFinish f] |>)) as H1.
    { intros f. apply (goes_on _ jb []); auto; counted. }
    destruct (job_callback jb) as [cb|]; intros [= <- <-]; cbn; rewrite Hj; intros [= <-]; [|apply H1].
    destruct (cb _); apply H1.
  - intros [= <- <-]. cbn. rewrite list_lookup_alter_eq, Hj. intros [= <-]. unfold job_ok. cbn. split; [by eexists|done].
Qed.

(** Another action of a task. *)
Lemma simple_ok j jb a rest now d d' new pre last jb' : jobs d !! j = Some jb → job_phase_of jb = Started → job_future jb = None →
  simple a = true → rest = pre ++ [last] → Forall (λ a, simple a = true) pre → leads last = true →
  (uses_in (a :: rest) ≤ 1)%nat → (uses_in (a :: rest) = 1%nat → j ∈ copies d) →
  job_action any_int j jb a now d = Some (d', new) →
  jobs d' !! j = Some jb' → job_ok (j ∈ copies d') (jb' <| job_todo := new ++ rest |>).
Proof.
  intros Hj Hp Hf Hs -> Hpre Hl Hu Hc. rewrite uses_cons in Hu, Hc.
  assert (Hgo : ∀ new copied, Forall (λ a, simple a = true) new → uses_in new = 0%nat → uses_in (pre ++ [last]) = 0%nat ∨ (uses_in (pre ++ [last]) = 1%nat ∧ copied) →
    job_ok copied (jb <| job_todo := new ++ pre ++ [last] |>)).
  { intros new' copied H1 H2 H3. rewrite app_assoc. apply goes_on; auto; [by apply Forall_app|..];
      rewrite <- app_assoc, uses_app, H2; naive_solver lia. }
  assert (Hsame : uses a = false → ∀ new, Forall (λ a, simple a = true) new → uses_in new = 0%nat →
    job_ok (j ∈ copies d) (jb <| job_todo := new ++ pre ++ [last] |>)).
  { intros Ha new' H1 H2. rewrite Ha in Hu, Hc. cbn in Hu, Hc. apply Hgo; [done|done|].
    destruct (uses_in (pre ++ [last])) as [|[|]]; [by left|right; auto|lia]. }
  destruct a as [id s|id v|id|prio delay| | | |v| |v| |what|f]; try done; cbn [job_action].
  - intros [= <- <-]. cbn. rewrite Hj. intros [= <-].
    apply (Hsame eq_refl (ANotify id _ :: if terminal s then [ACleanup id] else [])); destruct (terminal s); by repeat constructor.
  - intros [= <- <-]. destruct (notify_fields id v d) as [l ->]. cbn. rewrite Hj. intros [= <-]. by apply (Hsame eq_refl []).
  - intros [= <- <-]. cbn. rewrite Hj. intros [= <-]. by apply (Hsame eq_refl []).
  - destruct (cancelling d); [done|]. intros [= <- <-]. cbn. rewrite Hj. intros [= <-]. by apply (Hsame eq_refl []).
  - intros [= <- <-]. cbn. rewrite Hj. intros [= <-]. cbn in Hu, Hc. apply (Hgo []); [done|done|left; lia].
  - intros [= <- <-]. cbn. rewrite Hj. intros [= <-]. by apply (Hsame eq_refl []).
Qed.

(** Before the task: the caller of dispatch. *)
Lemma preparing_ok j jb a rest now d d' new pre prio delay jb' : jobs d !! j = Some jb → job_phase_of jb = Preparing →
  job_future jb = None → j ∈ copies d → a :: rest = pre ++ [APost prio delay] → Forall (λ a, preparing a = true) pre →
  job_action any_int j jb a now d = Some (d', new) →
  jobs d' !! j = Some jb' → job_ok (j ∈ copies d') (jb' <| job_todo := new ++ rest |>).
Proof.
  intros Hj Hp Hf Hc Ht Hpre. destruct (single pre _ a rest (eq_sym Ht)) as [(-> & <- & ->)|(pre' & -> & ->)]; clear Ht.
  { cbn [job_action]. intros [= <- <-]. cbn. rewrite list_lookup_alter_eq, Hj. intros [= <-]. unfold job_ok. by cbn. }
  apply Forall_cons in Hpre as [Ha Hpre].
  assert (H : ∀ new, Forall (λ a, preparing a = true) new → job_ok (j ∈ copies d) (jb <| job_todo := new ++ pre' ++ [APost prio delay] |>)).
  { intros new' H. unfold job_ok. cbn. rewrite Hp. split_and!; [done..|]. exists (new' ++ pre'), prio, delay.
    split; [by rewrite app_assoc|by apply Forall_app]. }
  destruct a as [id s|id v|id| | | | | | | | | |]; try done; cbn [job_action]; intros [= <- <-].
  - cbn. rewrite Hj. intros [= <-]. apply (H (ANotify id _ :: if terminal s then [ACleanup id] else [])).
    destruct (terminal s); by repeat constructor.
  - destruct (notify_fields id v d) as [l ->]. cbn. rewrite Hj. intros [= <-]. by apply (H []).
  - cbn. rewrite Hj. intros [= <-]. by apply (H []).
Qed.

Lemma own_job_ok j jb a rest now d d' new jb' : jobs d !! j = Some jb → job_todo jb = a :: rest → job_ok (j ∈ copies d) jb →
  job_action any_int j jb a now d = Some (d', new) → jobs d' !! j = Some jb' →
  job_ok (j ∈ copies d') (jb' <| job_todo := new ++ rest |>).
Proof.
  intros Hj Ht Hok Ha Hj'. unfold job_ok in Hok. rewrite Ht in Hok. destruct (job_phase_of jb) eqn:Hp.
  - destruct Hok as (Hf & Hc & pre & prio & delay & E & Hpre). by eapply (preparing_ok j jb a rest).
  - by destruct Hok as (_ & _ & [=]).
  - destruct Hok as (Hf & Hu & Hc & pre & x & E & Hpre & Hx).
    destruct (single pre x a rest (eq_sym E)) as [(-> & -> & ->)|(pre' & -> & Hr)].
    + rewrite app_nil_r. rewrite uses_cons in Hc. eapply (leading_ok j jb a); eauto. intros Hua. rewrite Hua in Hc. auto.
    + apply Forall_cons in Hpre as [Hs Hpre]. by eapply (simple_ok j jb a rest).
  - by destruct Hok as (_ & [=]).
Qed.

(** ** The invariant *)

Record all_ok d : Prop := {
  ok_ends : ends_cleaned (commandStatusMap d) (todos d);
  ok_short : short_or_owed (commandHistory d) (todos d);
  ok_jobs j jb : jobs d !! j = Some jb → job_ok (j ∈ copies d) jb;
  ok_lock : is_Some (cancelling d) → readers d = ∅
}.

Lemma todos_at j jb d : jobs d !! j = Some jb → todos d !! j = Some (job_todo jb).
Proof. intros Hj. unfold todos. rewrite lookup_app_l; [by rewrite list_lookup_fmap, Hj|]. rewrite length_fmap. by eapply lookup_lt_Some. Qed.

Lemma set_todo_todos j todo d d' : is_Some (jobs d !! j) → job_todo <$> jobs d' = job_todo <$> jobs d → cancelling d' = cancelling d →
  todos (set_todo j todo d') = <[j := todo]> (todos d).
Proof.
  intros Hj E1 E2. unfold todos. cbn. rewrite E2. apply lookup_lt_is_Some in Hj.
  rewrite insert_app_l by by rewrite length_fmap. f_equal. rewrite <- E1. apply list_eq. intros k.
  assert (j < length (jobs d'))%nat as Hj' by (rewrite <- (length_fmap job_todo), E1; by rewrite length_fmap).
  rewrite list_lookup_fmap. destruct (decide (j = k)) as [<-|Hne].
  - rewrite list_lookup_alter_eq, list_lookup_insert_eq by by rewrite length_fmap.
    apply lookup_lt_is_Some in Hj' as [jb ->]. done.
  - by rewrite list_lookup_alter_ne, list_lookup_insert_ne, list_lookup_fmap.
Qed.

Lemma job_step_ok j now d : all_ok d → all_ok (job_step any_int j now d).
Proof.
  intros Hd. unfold job_step. destruct (jobs d !! j) as [jb|] eqn:Hj; [|done].
  destruct (job_todo jb) as [|a rest] eqn:Ht; [done|]. destruct (job_action any_int j jb a now d) as [[d' new]|] eqn:Ha; [|done].
  pose proof (job_action_spec _ _ _ _ _ _ _ Ha) as [E1 E2 E3 E4 E5 E6 E7]. destruct Hd as [H1 H2 H3 H4].
  pose proof (todos_at j jb d Hj) as Hat. rewrite Ht in Hat.
  assert (todos (set_todo j (new ++ rest) d') = <[j := new ++ rest]> (todos d)) as Et by (by apply set_todo_todos).
  split; rewrite ?Et.
  - change (commandStatusMap (set_todo j (new ++ rest) d')) with (commandStatusMap d'). rewrite E1. by eapply cleaned_step.
  - by eapply owed_step.
  - intros k jk. cbn. destruct (decide (j = k)) as [<-|Hne].
    + rewrite list_lookup_alter_eq. intros (jb' & Hj' & ->)%fmap_Some_1.
      eapply (own_job_ok j jb a rest now d d'); eauto.
    + rewrite list_lookup_alter_ne by done. destruct (E4 k (not_eq_sym Hne)) as [-> Hc]. intros Hk. specialize (H3 k jk Hk).
      unfold job_ok in *. destruct (job_phase_of jk); naive_solver.
  - cbn. rewrite E6. intros Hc. specialize (H4 Hc). destruct E7 as [E7|E7]; [set_solver|]. rewrite E7 in Hc. by destruct Hc.
Qed.

(** More threads, or threads with nothing to do less, change nothing. *)
Lemma ends_mono m ts ts' : ends_cleaned m ts → (∀ t, t ∈ ts → t = [] ∨ t ∈ ts') → ends_cleaned m ts'.
Proof.
  intros Hm Hts id s Hs Ht. destruct (Hm id s Hs Ht) as (t & Hin & Hc). exists t. split; [|done].
  destruct (Hts t Hin) as [->|]; [|done]. destruct Hc as (r & [[=]|(v & [=])]).
Qed.
Lemma short_mono h h' ts ts' : short_or_owed h ts → (∀ id l, h' !! id = Some l → h !! id = Some l) →
  (∀ t, t ∈ ts → t = [] ∨ t ∈ ts') → short_or_owed h' ts'.
Proof.
  intros Hh Hsub Hts id l Hl. destruct (Hh id l (Hsub id l Hl)) as [?|(t & Hin & Ho)]; [by left|right].
  exists t. split; [|done]. destruct (Hts t Hin) as [->|]; [|done].
  destruct Ho as [H%elem_of_nil|(s & _ & H%elem_of_nil)]; done.
Qed.

(** The calls that hold the lock exclusively touch no state and no job. *)
Lemma exclusively_ok f d : all_ok d → (commandStatusMap (f d) = commandStatusMap d ∧ same_jobs d (f d) ∧
  ∀ id l, commandHistory (f d) !! id = Some l → commandHistory d !! id = Some l) → all_ok (exclusively f d).
Proof.
  intros [H1 H2 H3 H4] (E1 & (E2 & E3 & E4 & E5) & E6). unfold exclusively. destruct (lock_free d); [|done].
  assert (todos (f d) = todos d) as Et by (unfold todos; by rewrite E2, E4).
  split; rewrite ?E1, ?E2, ?E3, ?E4, ?E5, ?Et; auto. eapply short_mono; eauto.
Qed.

Lemma cancelCommand_ok id d : all_ok d → all_ok (cancelCommand id d).
Proof.
  intros [H1 H2 H3 H4]. unfold cancelCommand, lock_free. case_bool_decide as Hr; [|done]. cbn.
  case_bool_decide as Hc; [done|]. apply eq_None_not_Some in Hc.
  assert (∀ t, t ∈ todos d → t = [] ∨ t ∈ todos (d <| cancelling := Some [AUpdate id CANCELLED] |>)) as Ht.
  { intros t. unfold todos. rewrite Hc. cbn. rewrite app_nil_r, elem_of_app. auto. }
  split; [by eapply ends_mono|by eapply short_mono|done|done].
Qed.

Lemma cancel_step_ok now d : all_ok d → all_ok (cancel_step any_int now d).
Proof.
  intros Hd. unfold cancel_step. destruct (cancelling d) as [[|a rest]|] eqn:Hc; [..|exact Hd]; destruct Hd as [H1 H2 H3 H4].
  - assert (∀ t, t ∈ todos d → t = [] ∨ t ∈ todos (d <| cancelling := None |>)) as Ht.
    { intros t. unfold todos. rewrite Hc. cbn. rewrite app_nil_r, elem_of_app, list_elem_of_singleton. tauto. }
    split; [by eapply ends_mono|by eapply short_mono|done|by intros []].
  - pose proof (update_frame a now d) as (Ej & Ec & Ek & Er). pose proof (update_status a now d) as Es.
    pose proof (update_history a now d) as Eh. pose proof (update_follows a now d) as Ef.
    destruct (updateCommandStatus any_int a now d) as [d' new]. cbn in *.
    assert (todos d !! length (jobs d) = Some (a :: rest)) as Hat.
    { unfold todos. rewrite lookup_app_r, length_fmap, Nat.sub_diag, Hc by by rewrite length_fmap. done. }
    assert (todos (d' <| cancelling := Some (new ++ rest) |>) = <[length (jobs d) := new ++ rest]> (todos d)) as Et.
    { unfold todos. cbn. rewrite Ej, Hc. rewrite insert_app_r_alt by by rewrite length_fmap.
      by rewrite length_fmap, Nat.sub_diag. }
    split; rewrite ?Et; cbn; rewrite ?Ej, ?Ec, ?Er.
    + replace (commandStatusMap d') with (status_effect a (commandStatusMap d)) by (rewrite Es; by destruct a).
      by eapply cleaned_step.
    + eapply owed_step; eauto. intros id l. rewrite Eh. destruct a as [| |k| | | | | | | | | |]; auto.
      destruct (decide (k = id)) as [->|Hne].
      * rewrite lookup_alter_eq. intros (h & _ & ->)%fmap_Some_1. left. apply last_short.
      * rewrite lookup_alter_ne by done. intros Hl. right. right. split; [done|congruence].
    + exact H3.
    + intros _. apply H4. by eexists.
Qed.

Lemma dispatch_ok id v prio delay cb d : all_ok d → all_ok (dispatch id v prio delay cb d).1.
Proof.
  intros [H1 H2 H3 H4]. unfold dispatch. cbn [fst].
  match goal with |- all_ok ?x => set (d' := x) end.
  assert (∀ t, t ∈ todos d → t = [] ∨ t ∈ todos d') as Ht.
  { intros t. unfold todos, d'. cbn. rewrite fmap_app, !elem_of_app. tauto. }
  split; [by eapply ends_mono|by eapply short_mono| |done].
  intros j jb. cbn. intros [Hj|[Hlen [Hj E]%list_lookup_singleton_Some]]%lookup_app_Some.
  - specialize (H3 j jb Hj). unfold job_ok in *. destruct (job_phase_of jb); set_solver.
  - subst jb. unfold job_ok. cbn. split; [done|]. split; [assert (j = length (jobs d)) by lia; set_solver|].
    exists [AUpdate id PENDING], prio, delay. split; [done|by repeat constructor].
Qed.

Lemma call_task_ok j d : all_ok d → all_ok (call_task j d).
Proof.
  intros Hd. unfold call_task. destruct (jobs d !! j) as [jb|] eqn:Hj; [|done]. destruct (job_phase_of jb) eqn:Hp; try done.
  destruct Hd as [H1 H2 H3 H4]. pose proof (H3 j jb Hj) as Hok. unfold job_ok in Hok. rewrite Hp in Hok.
  destruct Hok as (Hf & Hc & Ht). match goal with |- all_ok ?x => set (d' := x) end.
  assert (∀ t, t ∈ todos d → t = [] ∨ t ∈ todos d') as Hts.
  { intros t. unfold todos, d'. cbn. rewrite !elem_of_app. intros [(jk & -> & [k Hk]%list_elem_of_lookup)%list_elem_of_fmap|]; [|tauto].
    destruct (decide (j = k)) as [->|Hne]; [left; congruence|]. right. left. apply list_elem_of_fmap. exists jk. split; [done|].
    apply list_elem_of_lookup. exists k. by rewrite list_lookup_alter_ne. }
  split; [by eapply ends_mono|by eapply short_mono| |done].
  intros k jk. cbn. destruct (decide (j = k)) as [<-|Hne]; [|rewrite list_lookup_alter_ne by done; apply H3].
  rewrite list_lookup_alter_eq, Hj. intros [= <-]. unfold job_ok. cbn. split; [done|]. split; [vm_compute; lia|]. split; [done|].
  exists [AUpdate (job_id jb) RUNNING], ACheckTimeout. split_and!; [done|by repeat constructor|done].
Qed.

Lemma dispatcher_step_ok o d : all_ok d → all_ok (dispatcher_step o d).
Proof.
  intros H. destruct o; cbn [dispatcher_step];
    auto using cancelCommand_ok, cancel_step_ok, dispatch_ok, call_task_ok, job_step_ok;
    apply exclusively_ok; try done; try (by unfold registerCommand; destruct undoHandler).
  all: split_and!; try done; intros k l; cbn; rewrite ?lookup_empty; try done.
  by intros [_ Hk]%lookup_delete_Some.
Qed.

Lemma dispatcher_run_ok cfg loop ops : all_ok (dispatcher_run ops (new_dispatcher loop cfg)).
Proof.
  assert (H0 : all_ok (new_dispatcher loop cfg)).
  { split; [intros id s; cbn; by rewrite lookup_empty|intros id l; cbn; by rewrite lookup_empty|done|by intros []]. }
  revert H0. generalize (new_dispatcher loop cfg : Dispatcher). induction ops as [|o ops IH]; intros d0 H0; [done|].
  by apply IH, dispatcher_step_ok.
Qed.

(** [C37] After any calls and steps of the threads, in any order the lock admits:
    when getCommandStatus can look, it answers the end of a command only while a task
    of that command has set the end and not yet cleaned up, and otherwise that the
    command is pending or running; a command has more than one entry of history only
    while a task of it has a cleanup to come; a future is set exactly when its task
    has ended; the copy of a command is there until its task begins, and whenever the
    task still is to use or free it, so that it is freed at most once. *)
Theorem dispatcher_invariant (cfg : Config) (loop : L) (ops : list dispatcher_op) :
  let d := dispatcher_run ops (new_dispatcher loop cfg) in
  (cancelling d = None →
     (∀ id, getCommandStatus id d = PENDING ∨ getCommandStatus id d = RUNNING ∨
            ∃ j jb, jobs d !! j = Some jb ∧ cleaning id (job_todo jb)) ∧
     (∀ id h, commandHistory d !! id = Some h →
        (length h ≤ 1)%nat ∨ ∃ j jb, jobs d !! j = Some jb ∧ owes id (job_todo jb))) ∧
  (is_Some (cancelling d) → readers d = ∅) ∧
  (∀ j jb, jobs d !! j = Some jb →
     (job_phase_of jb = Finished ↔ is_Some (job_future jb)) ∧
     (job_phase_of jb = Preparing ∨ job_phase_of jb = Posted → j ∈ copies d) ∧
     (uses_in (job_todo jb) ≤ 1)%nat ∧ (uses_in (job_todo jb) = 1%nat → j ∈ copies d)).
Proof.
  intros d. destruct (dispatcher_run_ok cfg loop ops) as [H1 H2 H3 H4]. fold d in H1, H2, H3, H4. split_and!.
  - intros Hc. assert (∀ t, t ∈ todos d → ∃ j jb, jobs d !! j = Some jb ∧ t = job_todo jb) as Ht.
    { intros t. unfold todos. rewrite Hc. cbn. rewrite app_nil_r.
      intros (jb & -> & [j Hj]%list_elem_of_lookup)%list_elem_of_fmap. eauto. }
    split.
    + intros id. unfold getCommandStatus. destruct (commandStatusMap d !! id) as [s|] eqn:E; [|by left]. cbn.
      destruct (terminal s) eqn:Es; [|destruct s; auto; done]. right. right.
      destruct (H1 id s E Es) as (t & Hin & Hcl). destruct (Ht t Hin) as (j & jb & Hj & ->). eauto.
    + intros id h Hh. destruct (H2 id h Hh) as [?|(t & Hin & Ho)]; [by left|right].
      destruct (Ht t Hin) as (j & jb & Hj & ->). eauto.
  - exact H4.
  - intros j jb Hj. specialize (H3 j jb Hj). unfold job_ok in H3. destruct (job_phase_of jb) eqn:Hp.
    + destruct H3 as (-> & Hc & pre & prio & delay & -> & Hpre).
      rewrite uses_app, uses_preparing by done. change (uses_in [APost prio delay]) with 0%nat. split_and!; [by split; [|intros []]|done|lia|done].
    + destruct H3 as (-> & Hc & ->). split_and!; [by split; [|intros []]|done|vm_compute; lia|done].
    + destruct H3 as (-> & Hu & Hc & _). split_and!; [by split; [|intros []]|by intros [|]|done|done].
    + destruct H3 as (Hf & ->). split_and!; [done|by intros [|]|vm_compute; lia|done].
Qed.

(** ** What a task does *)

Definition tell (id : string) (v : V) d : list (dispatcher_event (V := V)) :=
  map (λ token, Told token id v) (from_option iter_set [] (eventSubscribers d !! id)).
Definition call_back (j : nat) (jb : Job) (r : result string V) : list (dispatcher_event (V := V)) :=
  match job_callback jb with Some _ => [CalledBack j r] | None => [] end.

Lemma notify_eq id v d : notifyEventSubscribers id v d = d <| calls ::= λ l, l ++ tell id v d |>.
Proof.
  unfold notifyEventSubscribers, tell. destruct (eventSubscribers d !! id); [done|]. destruct d. unfold upd, calls_upd. cbn. by rewrite app_nil_r.
Qed.

Lemma record_history_last id v d : (1 ≤ maxHistorySize (configuration d))%nat →
  ∃ h, commandHistory (recordCommandHistory id v d) = <[id := h]> (commandHistory d) ∧ last h = Some v.
Proof.
  intros Hmax. unfold recordCommandHistory. set (h := default [] _).
  exists (if (maxHistorySize (configuration d) <? length (h ++ [v]))%nat then drop 1 (h ++ [v]) else h ++ [v]).
  split; [done|].
  destruct (Nat.ltb_spec (maxHistorySize (configuration d)) (length (h ++ [v]))) as [Hlen|Hlen]; [|apply last_snoc].
  destruct h as [|x xs]; [cbn in Hlen; lia|]. apply last_snoc.
Qed.

(** What a task has done: its calls, the state and the history of its command, and
    whether it has freed the copy and released the lock. *)
Record done_so_far := mkDone {
  dn_calls : list (dispatcher_event (V := V));
  dn_status : option CommandStatus;
  dn_history : option (list V);
  dn_freed : bool;
  dn_unlocked : bool
}.
Definition shows d0 (j : nat) (id : string) (w : done_so_far) d : Prop :=
  calls d = calls d0 ++ dn_calls w ∧ commandStatusMap d !! id = dn_status w ∧ commandHistory d !! id = dn_history w ∧
  (dn_freed w = true → j ∉ copies d) ∧ (dn_unlocked w = true → j ∉ readers d).

(** The task of [j], which was [jb] in [d0], has done [w] and has [todo] to do. *)
Record at_work d0 (j : nat) (jb : Job) (todo : list action) (w : done_so_far) d : Prop := {
  aw_job : jobs d !! j = Some (jb <| job_todo := todo |>);
  aw_subscribers : eventSubscribers d = eventSubscribers d0;
  aw_handlers : commandHandlers d = commandHandlers d0;
  aw_configuration : configuration d = configuration d0;
  aw_shows : shows d0 j (job_id jb) w d
}.

Lemma at_work_step d0 j jb a rest w now d d' new w' : at_work d0 j jb (a :: rest) w d →
  job_action any_int j (jb <| job_todo := a :: rest |>) a now d = Some (d', new) → jobs d' = jobs d →
  eventSubscribers d' = eventSubscribers d → commandHandlers d' = commandHandlers d → configuration d' = configuration d →
  shows d0 j (job_id jb) w' d' → at_work d0 j jb (new ++ rest) w' (job_step any_int j now d).
Proof.
  intros [H1 H2 H3 H4 _] Ha Ej E1 E2 E3 Hs. unfold job_step. rewrite H1. cbn [job_todo upd]. cbn. rewrite Ha.
  split; cbn; try congruence; [|exact Hs]. by rewrite Ej, list_lookup_alter_eq, H1.
Qed.

(** The steps that every end of a task has. *)
Lemma notify_step d0 j jb v rest w now d : at_work d0 j jb (ANotify (job_id jb) v :: rest) w d →
  at_work d0 j jb rest (mkDone (dn_calls w ++ tell (job_id jb) v d0) (dn_status w) (dn_history w) (dn_freed w) (dn_unlocked w))
    (job_step any_int j now d).
Proof.
  intros H. pose proof H as [_ Hsub _ _ (S1 & S2 & S3 & S4 & S5)].
  eapply (at_work_step d0 j jb _ _ _ now _ _ []) in H;
    [exact H|cbn [job_action updateCommandStatus]; by rewrite notify_eq|done..|].
  split_and!; cbn; auto. rewrite S1, <- app_assoc. unfold tell. by rewrite Hsub.
Qed.

Lemma end_steps d0 j jb s rest w now1 now2 now3 d : terminal s = true →
  at_work d0 j jb (AUpdate (job_id jb) s :: rest) w d →
  at_work d0 j jb rest
    (mkDone (dn_calls w ++ tell (job_id jb) (any_int (status_int s)) d0) None
       ((λ h, match last h with Some v => [v] | None => h end) <$> dn_history w) (dn_freed w) (dn_unlocked w))
    (job_steps any_int j [now1; now2; now3] d).
Proof.
  intros Hs H. unfold job_steps. cbn [foldl].
  pose proof H as [_ _ _ _ (S1 & S2 & S3 & S4 & S5)].
  eapply (at_work_step d0 j jb _ _ _ now1) with
    (w' := mkDone (dn_calls w) (Some s) (dn_history w) (dn_freed w) (dn_unlocked w)) in H;
    [|cbn [job_action updateCommandStatus]; reflexivity|done..|split_and!; cbn; auto; apply lookup_insert_eq].
  rewrite Hs in H. revert H. generalize (job_step any_int j now1 d). clear. intros d H.
  apply (notify_step _ _ _ _ _ _ now2) in H. revert H. generalize (job_step any_int j now2 d). clear. intros d H.
  pose proof H as [_ _ _ _ (S1 & S2 & S3 & S4 & S5)].
  eapply (at_work_step d0 j jb _ _ _ now3 _ _ []) in H; [exact H|reflexivity|done..|].
  cbn in *. split_and!; cbn; auto; [apply lookup_delete_eq|]. by rewrite lookup_alter_eq, S3.
Qed.
(** From waiting for the lock to the value in the history. *)
Lemma handler_steps d j jb handler v now1 now2 now3 :
  jobs d !! j = Some jb → job_todo jb = [ALock; ACall] → cancelling d = None →
  commandHandlers d !! job_id jb = Some handler → handler (job_command jb) = Returned v →
  (1 ≤ maxHistorySize (configuration d))%nat →
  ∃ h, last h = Some v ∧
    at_work d j jb [ANotify (job_id jb) v; AUpdate (job_id jb) COMPLETED; AFree; ACallback v]
      (mkDone [Handled j (job_command jb)] (commandStatusMap d !! job_id jb) (Some h) false false)
      (job_steps any_int j [now1; now2; now3] d).
Proof.
  intros Hj Ht Hc Hh Hv Hmax. unfold job_steps. cbn [foldl].
  set (w n h := mkDone n (commandStatusMap d !! job_id jb) h false false).
  assert (H : at_work d j jb [ALock; ACall] (w [] (commandHistory d !! job_id jb)) d).
  { split; try done; [rewrite Hj; f_equal; destruct jb; cbn in *; by subst|split_and!; cbn; try done]. by rewrite app_nil_r. }
  eapply (at_work_step d j jb _ _ _ now1 _ _ [] (w [] (commandHistory d !! job_id jb))) in H;
    [|cbn [job_action]; rewrite Hc; reflexivity|done..|split_and!; cbn; try done; by rewrite app_nil_r].
  revert H. generalize (job_step any_int j now1 d). intros d1 H. pose proof H as [_ _ Eh _ (S1 & S2 & S3 & S4 & S5)].
  eapply (at_work_step d j jb _ _ _ now2 _ _ [ARecord v] (w [Handled j (job_command jb)] (commandHistory d !! job_id jb))) in H;
    [|cbn [job_action]; cbn; rewrite Eh, Hh, Hv; reflexivity|done..|split_and!; cbn; try done; by rewrite S1, app_nil_r].
  revert H. generalize (job_step any_int j now2 d1). clear S1 S2 S3 S4 S5 Eh. clear d1. intros d1 H.
  pose proof H as [_ _ _ Ec (S1 & S2 & S3 & S4 & S5)].
  destruct (record_history_last (job_id jb) v d1) as (h & Eh & El); [by rewrite Ec|]. exists h. split; [done|].
  eapply (at_work_step d j jb _ _ _ now3 _ _ [ANotify (job_id jb) v; AUpdate (job_id jb) COMPLETED; AFree; ACallback v] (w [Handled j (job_command jb)] (Some h))) in H;
    [exact H|cbn [job_action]; reflexivity|done..|split_and!; auto; etrans; [exact (f_equal (lookup (job_id jb)) Eh)|apply lookup_insert_eq]].
Qed.

Lemma job_steps_app j clock clock' d : job_steps any_int j (clock ++ clock') d = job_steps any_int j clock' (job_steps any_int j clock d).
Proof. apply foldl_app. Qed.

(** From the copy to the future. *)
Lemma free_steps d0 j jb v w now1 now2 now3 now4 d :
  (∀ callback, job_callback jb = Some callback → callback (Ok v) = Returned ()) →
  at_work d0 j jb [AFree; ACallback v] w d →
  let d' := job_steps any_int j [now1; now2; now3; now4] d in
  job_future <$> (jobs d' !! j) = Some (Some (Result (Ok v))) ∧
  shows d0 j (job_id jb) (mkDone (dn_calls w ++ call_back j jb (Ok v)) (dn_status w) (dn_history w) true true) d'.
Proof.
  intros Hcb H. unfold job_steps. cbn [foldl]. cbv zeta.
  pose proof H as [_ _ _ _ (S1 & S2 & S3 & S4 & S5)].
  eapply (at_work_step d0 j jb _ _ _ now1 _ _ [] (mkDone (dn_calls w) (dn_status w) (dn_history w) true (dn_unlocked w))) in H;
    [|cbn [job_action]; reflexivity|done..|split_and!; cbn; auto; set_solver].
  revert H. generalize (job_step any_int j now1 d). clear S1 S2 S3 S4 S5. clear d. intros d H.
  pose proof H as [_ _ _ _ (S1 & S2 & S3 & S4 & S5)]. cbn in S1, S2, S3, S4, S5.
  eapply (at_work_step d0 j jb _ _ _ now2 _
    (if job_callback jb is Some _ then d <| calls ::= λ l, l ++ [CalledBack j (Ok v)] |> else d) [AUnlock; AFinish (Result (Ok v))]
    (mkDone (dn_calls w ++ call_back j jb (Ok v)) (dn_status w) (dn_history w) true (dn_unlocked w))) in H;
    [|cbn [job_action]; cbn; destruct (job_callback jb) as [cb|]; [by rewrite (Hcb cb)|done]|by destruct (job_callback jb)..|].
  2: { unfold call_back. destruct (job_callback jb); split_and!; cbn; auto; by rewrite S1, ?app_assoc, ?app_nil_r. }
  revert H. generalize (job_step any_int j now2 d). clear S1 S2 S3 S4 S5. clear d. intros d H.
  pose proof H as [_ _ _ _ (S1 & S2 & S3 & S4 & S5)]. cbn in S1, S2, S3, S4, S5.
  eapply (at_work_step d0 j jb _ _ _ now3 _ _ [] (mkDone (dn_calls w ++ call_back j jb (Ok v)) (dn_status w) (dn_history w) true true)) in H;
    [|cbn [job_action]; reflexivity|done..|split_and!; cbn; auto; set_solver].
  revert H. generalize (job_step any_int j now3 d). clear S1 S2 S3 S4 S5. clear d. intros d H.
  pose proof H as [Hj _ _ _ S]. unfold job_step. rewrite Hj. cbn. split; [|exact S].
  by rewrite !list_lookup_alter_eq, Hj.
Qed.

(** [C38] A task that waits for the lock while no call of cancelCommand holds it, whose
    handler is registered and returns, with a callback that returns if any, and which
    makes its steps without another thread between them: the future gets the handler's
    value, the copy of the command is freed and the lock released, the handler, the
    subscribers with the value and again with COMPLETED and the callback are called in
    this order, the state is forgotten, and if any history is kept (maxHistorySize is
    not 0) that of the command is this value. *)
Theorem task_success_correct j (clock : list Z) d jb handler v :
  jobs d !! j = Some jb → job_todo jb = [ALock; ACall] → cancelling d = None → length clock = 11%nat →
  commandHandlers d !! job_id jb = Some handler → handler (job_command jb) = Returned v →
  (∀ callback, job_callback jb = Some callback → callback (Ok v) = Returned ()) →
  (1 ≤ maxHistorySize (configuration d))%nat →
  let d' := job_steps any_int j clock d in
  job_future <$> (jobs d' !! j) = Some (Some (Result (Ok v))) ∧ (j ∉ copies d') ∧ (j ∉ readers d') ∧
  commandStatusMap d' !! job_id jb = None ∧ commandHistory d' !! job_id jb = Some [v] ∧
  calls d' = calls d ++ Handled j (job_command jb) :: tell (job_id jb) v d ++
                        tell (job_id jb) (any_int (status_int COMPLETED)) d ++ call_back j jb (Ok v).
Proof.
  intros Hj Ht Hc Hlen Hh Hv Hcb Hmax. do 11 (destruct clock as [|? clock]; [done|]). destruct clock; [|done]. clear Hlen.
  destruct (handler_steps d j jb handler v z z0 z1) as (h & El & H); try done.
  change [z; z0; z1; z2; z3; z4; z5; z6; z7; z8; z9] with ([z; z0; z1] ++ [z2] ++ [z3; z4; z5] ++ [z6; z7; z8; z9]).
  rewrite !job_steps_app. change (job_steps any_int j [z2]) with (job_step any_int j z2).
  revert H. generalize (job_steps any_int j [z; z0; z1] d). intros d1 H.
  apply (notify_step _ _ _ _ _ _ z2) in H. revert H. generalize (job_step any_int j z2 d1). clear d1. intros d1 H.
  apply (end_steps _ _ _ _ _ _ z3 z4 z5) in H; [|done].
  revert H. generalize (job_steps any_int j [z3; z4; z5] d1). clear d1. intros d1 H.
  apply (free_steps _ _ _ _ _ z6 z7 z8 z9) in H as (Hf & S1 & S2 & S3 & S4 & S5); [|done]. revert Hf S1 S2 S3 S4 S5.
  generalize (job_steps any_int j [z6; z7; z8; z9] d1). intros d2. cbn. rewrite El. intros. split_and!; auto.
  by rewrite S1, <- !app_assoc.
Qed.

(** The time a command waited does not count: what is checked is the time since RUNNING
    was set, whatever the subscribers did then. *)
Lemma timeout_from_running id v now1 now2 d :
  checkCommandTimeout id now2 (notifyEventSubscribers id v (set_status id RUNNING now1 d)) =
    (default (defaultTimeout (configuration d)) (commandTimeouts d !! id) <? Z.quot (now2 - now1) NS_PER_MS).
Proof.
  destruct (notify_fields id v (set_status id RUNNING now1 d)) as [l ->]. unfold checkCommandTimeout. cbn. by rewrite lookup_insert_eq.
Qed.

(** A timeout lasts until the first end of the command: what is left of the update
    forgets it. *)
Lemma timeout_lost d0 j jb s rest w now1 now2 now3 d : terminal s = true →
  at_work d0 j jb (AUpdate (job_id jb) s :: rest) w d →
  commandTimeouts (job_steps any_int j [now1; now2; now3] d) !! job_id jb = None.
Proof.
  intros Hs H. unfold job_steps. cbn [foldl]. pose proof H as [_ _ _ _ S].
  eapply (at_work_step d0 j jb _ _ _ now1) with
    (w' := mkDone (dn_calls w) (Some s) (dn_history w) (dn_freed w) (dn_unlocked w)) in H;
    [|cbn [job_action updateCommandStatus]; reflexivity|done..|destruct S as (?&?&?&?&?); split_and!; cbn; auto; apply lookup_insert_eq].
  rewrite Hs in H. revert H. generalize (job_step any_int j now1 d). clear. intros d H.
  apply (notify_step _ _ _ _ _ _ now2) in H. revert H. generalize (job_step any_int j now2 d). clear. intros d [Hj _ _ _ _].
  unfold job_step. rewrite Hj. cbn. apply lookup_delete_eq.
Qed.

(** The handler of a task that is about to call it is called, whatever was done to the
    command before, but for unregistering it. *)
Lemma task_handles j jb rest handler now d :
  jobs d !! j = Some jb → job_todo jb = ACall :: rest → commandHandlers d !! job_id jb = Some handler →
  Handled j (job_command jb) ∈ calls (job_step any_int j now d).
Proof.
  intros Hj Ht Hh. unfold job_step. rewrite Hj, Ht. cbn [job_action]. rewrite Hh. cbn. rewrite elem_of_app. right. by left.
Qed.
(** Cancelling a command stops no job. *)
Lemma cancelled_command_runs id now d :
  jobs (cancelCommand id d) = jobs d ∧ commandHandlers (cancelCommand id d) = commandHandlers d ∧
  jobs (cancel_step any_int now d) = jobs d ∧ commandHandlers (cancel_step any_int now d) = commandHandlers d.
Proof.
  unfold cancelCommand, cancel_step. split_and!; try by destruct (lock_free d).
  - destruct (cancelling d) as [[|a rest]|]; [done| |done]. destruct (update_frame a now d) as (E & _).
    by destruct (updateCommandStatus any_int a now d).
  - destruct (cancelling d) as [[|a rest]|]; [done| |done]. destruct a; try done. cbn.
    by destruct (notify_fields id0 v d) as [l ->].
Qed.
End properties.

(** ** The dispatcher on the event loop of the server *)

Section on_event_loop.
Context {V T : Type} (any_int : Z → V) `{PQ : PriorityQueue} `{HS : !HashIter string, HZ : !HashIter Z}.
Local Abbreviation Dispatcher := (CommandDispatcher (V := V) (L := EventLoop nat)).

#[local] Instance dispatcher_loop : Loop (EventLoop nat) :=
  {| loop_post prio j now l := EventLoop.post prio (Plain j) now l;
     loop_postDelayed delay prio j now l := EventLoop.postDelayed delay prio (Plain j) now l |}.

(** The calls of clients and what they still have to do; the beginning of a task is
    left to the workers. *)
Definition client_op (o : dispatcher_op (V := V) (T := T)) : bool := match o with DCall _ => false | _ => true end.
Definition loop_called (fs : list (closure nat)) : list nat :=
  omap (λ f, match f with Plain j => Some j | _ => None end) fs.

(** Clients call the dispatcher, and threads go on; a worker takes closures from the
    loop; a task that was taken is called. *)
Inductive command_step : Dispatcher * list nat → Dispatcher * list nat → Prop :=
| cs_client o d called : client_op o = true → command_step (d, called) (dispatcher_step any_int o d, called)
| cs_worker now d l fs called : worker_iteration now (eventLoop d) = (l, fs) →
    command_step (d, called) (d <| eventLoop := l |>, called ++ loop_called fs)
| cs_task j d called : j ∈ called → command_step (d, called) (dispatcher_step (T := T) any_int (DCall j) d, called).

(** Nothing was called: each job is being dispatched or waits. *)
Definition waits (jb : Job (V := V)) : Prop := job_phase_of jb = Preparing ∨ job_phase_of jb = Posted.
Definition quiet (s : Dispatcher * list nat) : Prop :=
  s.2 = [] ∧ workers_idle (eventLoop s.1) ∧ (∀ j jb, jobs s.1 !! j = Some jb → waits jb) ∧ all_ok s.1.

Lemma update_loop a now (d : Dispatcher) : eventLoop (updateCommandStatus any_int a now d).1 = eventLoop d.
Proof. destruct a; try done. cbn. by destruct (notify_fields id v d) as [l ->]. Qed.

Lemma job_step_quiet j now (d : Dispatcher) : quiet (d, []) → quiet (job_step any_int j now d, []).
Proof.
  intros (_ & Hl & Hj & Hok). pose proof (job_step_ok any_int j now d Hok) as Hok'. revert Hok'. unfold quiet, job_step in *. cbn [fst snd] in *.
  destruct (jobs d !! j) as [jb|] eqn:E; [|done]. destruct (job_todo jb) as [|a rest] eqn:Et; [done|].
  pose proof (ok_jobs d Hok j jb E) as Hjb. pose proof (Hj j jb E) as Hw. unfold job_ok in Hjb. rewrite Et in Hjb.
  assert (preparing a = true ∨ ∃ prio delay, a = APost prio delay) as Ha.
  { destruct Hw as [Hw|Hw]; rewrite Hw in Hjb; [|by destruct Hjb as (_ & _ & ?)].
    destruct Hjb as (_ & _ & [|b pre] & prio & delay & [= -> _] & Hpre); [eauto|]. left. by inversion_clear Hpre. }
  assert (∀ d1 todo, eventLoop d1 = eventLoop d → jobs d1 = jobs d →
    workers_idle (eventLoop (set_todo j todo d1)) ∧ ∀ k jk, jobs (set_todo j todo d1) !! k = Some jk → waits jk) as Hsame.
  { intros d1 todo E1 E2. cbn. rewrite E1, E2. split; [done|]. intros k jk.
    destruct (decide (j = k)) as [<-|Hne]; [|rewrite list_lookup_alter_ne by done; apply Hj].
    rewrite list_lookup_alter_eq, E. by intros [= <-]. }
  destruct Ha as [Ha|(prio & delay & ->)].
  - assert (job_action any_int j jb a now d = Some (updateCommandStatus any_int a now d)) as -> by by destruct a.
    pose proof (update_loop a now d) as E1. destruct (update_frame any_int a now d) as (E2 & _).
    destruct (updateCommandStatus any_int a now d) as [d1 new]. destruct (Hsame d1 (new ++ rest) E1 E2). auto.
  - cbn [job_action]. intros Hok'. split_and!; try done; [by destruct delay|]. intros k jk. cbn.
    destruct (decide (j = k)) as [<-|Hne]; [|rewrite !list_lookup_alter_ne by done; apply Hj].
    rewrite !list_lookup_alter_eq, E. intros [= <-]. by right.
Qed.

Lemma client_quiet o d : client_op o = true → quiet (d, []) → quiet (dispatcher_step any_int o d, []).
Proof.
  intros Ho Hq. pose proof Hq as (_ & Hl & Hj & Hok). pose proof (dispatcher_step_ok any_int o d Hok) as Hok'.
  unfold quiet. cbn [fst snd] in *. split; [done|].
  assert (Hex : ∀ f, (jobs (f d) = jobs d ∧ eventLoop (f d) = eventLoop d) →
    workers_idle (eventLoop (exclusively f d)) ∧ ∀ j jb, jobs (exclusively f d) !! j = Some jb → waits jb).
  { intros f [E1 E2]. unfold exclusively. destruct (lock_free d); rewrite ?E1, ?E2; done. }
  cut (workers_idle (eventLoop (dispatcher_step any_int o d)) ∧ ∀ j jb, jobs (dispatcher_step any_int o d) !! j = Some jb → waits jb).
  { intros [? ?]. by split_and!. }
  clear Hok'.
  destruct o; cbn [client_op] in Ho; try done; cbn [dispatcher_step]; try by apply Hex.
  - apply Hex. unfold registerCommand. by destruct undoHandler.
  - unfold cancel_step. destruct (cancelling d) as [[|a rest]|]; [split; [exact Hl|exact Hj]| |split; [exact Hl|exact Hj]].
    pose proof (update_loop a now d) as E1. destruct (update_frame any_int a now d) as (E2 & _).
    destruct (updateCommandStatus any_int a now d) as [d1 new]. cbn in *. by rewrite E1, E2.
  - cbn. split; [done|]. intros j jb [H|[_ [_ <-]%list_lookup_singleton_Some]]%lookup_app_Some; [by eapply Hj|by left].
  - destruct (job_step_quiet j now d Hq) as (_ & ? & ? & _). done.
Qed.

Lemma command_step_quiet s s' : command_step s s' → quiet s → quiet s'.
Proof.
  intros Hs Hq. destruct Hs as [o d called Ho|now d l fs called Hw|j d called Hj].
  - pose proof Hq as [E _]. cbn in E. subst called. by apply client_quiet.
  - destruct Hq as (E & Hl & H & Hok). cbn in E, Hl. rewrite worker_idle in Hw by done. injection Hw as <- <-. subst called.
    replace (d <| eventLoop := eventLoop d |>) with d by by destruct d. done.
  - destruct Hq as (E & _). cbn in E. subst. by apply elem_of_nil in Hj.
Qed.

(** On the event loop of the server no command ever runs: no task begins, so that no
    handler is called, no future is set, redo and quickDispatch wait forever, and the
    copy of every command stays. *)
Lemma dispatched_commands_never_run cfg s :
  rtc command_step (new_dispatcher (EventLoop_new : EventLoop nat) cfg, []) s →
  ∀ j jb, jobs s.1 !! j = Some jb → waits jb ∧ job_future jb = None ∧ j ∈ copies s.1.
Proof.
  intros Hr. assert (H : quiet s).
  { assert (H0 : quiet (new_dispatcher (EventLoop_new : EventLoop nat) cfg, [])).
    { split_and!; [done..|]. apply (dispatcher_run_ok any_int (T := T) cfg EventLoop_new []). }
    revert H0. induction Hr as [|s1 s2 s3 Hs _ IH]; intros H0; [done|]. by eapply IH, command_step_quiet. }
  destruct H as (_ & _ & Hj & Hok). intros j jb H. pose proof (Hj j jb H) as Hw. pose proof (ok_jobs _ Hok j jb H) as Hjb.
  split; [done|]. unfold job_ok in Hjb. destruct Hw as [Hw|Hw]; rewrite Hw in Hjb; tauto.
Qed.
End on_event_loop.

(** * Examples *)

Section examples.
Local Existing Instance canonical_iter.
#[local] Instance no_loop : Loop unit := {| loop_post _ _ _ l := l; loop_postDelayed _ _ _ _ l := l |}.

Definition ex_double (n : Z) : outcome Z :=
  if n <? 0 then StdThrown "negative" else if n =? 0 then OtherThrown else Returned (2 * n).
Abbreviation ex_ops := (list (dispatcher_op (V := Z) (T := Z))).
Definition ex_setup : ex_ops := [DRegister Some (λ n, n) "double" ex_double None; DSubscribe "double"].
Definition ex_steps (j n : nat) : ex_ops := replicate n (DStep j 0).
Definition ex_dispatch (v : Z) (cb : option (result string Z → outcome unit)) (j : nat) : ex_ops :=
  DDispatch "double" v 0 None cb :: ex_steps j 3.
Definition ex_call (v : Z) (cb : option (result string Z → outcome unit)) (j : nat) : ex_ops :=
  ex_dispatch v cb j ++ DCall j :: ex_steps j 14.
Definition ex_start : CommandDispatcher (V := Z) (L := unit) := new_dispatcher () default_dispatcher_config.
Definition ex_final (ops : ex_ops) := dispatcher_run (λ n : Z, n) (ex_setup ++ ops) ex_start.
Definition ex_run (ops : ex_ops) :=
  let d := ex_final ops in
  (job_future <$> jobs d, elements (copies d), commandHistory d !! "double", getCommandStatus "double" d).

Example runs : ex_run (ex_call 4 None 0 ++ ex_call 5 None 1) =
  ([Some (Result (Ok 8)); Some (Result (Ok 10))], [], Some [10], PENDING).
Proof. vm_compute. reflexivity. Qed.
(** Between the end of a command and its cleanup, when the subscribers are called, the
    end is answered. *)
Example end_seen : ex_run (ex_dispatch 4 None 0 ++ DCall 0 :: ex_steps 0 8) = ([None], [0%nat], Some [8], COMPLETED).
Proof. vm_compute. reflexivity. Qed.
(** Two tasks of one command, the second up to the value while the first has not yet
    cleaned up: two entries of history, until the first does. *)
Example history_of_two :
  let two := ex_dispatch 4 None 0 ++ ex_dispatch 5 None 1 ++ DCall 0 :: ex_steps 0 6 ++ DCall 1 :: ex_steps 1 6 in
  ex_run two = ([None; None], [1; 0]%nat, Some [8; 10], RUNNING) ∧
  ex_run (two ++ ex_steps 0 8 ++ ex_steps 1 8) = ([Some (Result (Ok 8)); Some (Result (Ok 10))], [], Some [10], PENDING).
Proof. vm_compute. done. Qed.
(** The copy of a command whose handler throws stays. *)
Example copy_leaks : ex_run (ex_call (-4) None 0 ++ ex_call 0 None 1) =
  ([Some (Result (Throw "negative")); Some Raised], [1; 0]%nat, None, RUNNING).
Proof. vm_compute. reflexivity. Qed.
(** A cancelled command runs when its turn comes. *)
Example cancelled_runs :
  let d := ex_final (ex_dispatch 4 None 0 ++ DCancel "double" :: replicate 4 (DCancelStep 0) ++ DCall 0 :: ex_steps 0 14) in
  (job_future <$> jobs d, calls d) =
    ([Some (Result (Ok 8))], [Told 0 "double" 0; Told 0 "double" 4; Told 0 "double" 1; Handled 0 4; Told 0 "double" 8; Told 0 "double" 2]).
Proof. vm_compute. done. Qed.
(** A callback that throws is called a second time, with its own exception, and the
    future of the completed command gets this exception if this call returns. *)
Example callback_twice :
  let cb r := match r with Ok _ => StdThrown "broken" | Throw _ => Returned () end in
  let d := ex_final (ex_call 4 (Some cb) 0 ++ ex_steps 0 5) in
  job_future <$> jobs d = [Some (Result (Throw "broken"))] ∧
  calls d = [Told 0 "double" 0; Told 0 "double" 1; Handled 0 4; Told 0 "double" 8; Told 0 "double" 2;
             CalledBack 0 (Ok 8); Told 0 "double" 3; CalledBack 0 (Throw "broken")].
Proof. vm_compute. done. Qed.

Definition ex_ready := ex_final (ex_dispatch 4 None 0 ++ DCall 0 :: ex_steps 0 3).
Lemma task_success_correct_witness :
  let d' := job_steps (λ n : Z, n) 0 (replicate 11 0) ex_ready in
  job_future <$> (jobs d' !! 0%nat) = Some (Some (Result (Ok 8))) ∧ (0%nat ∉ copies d') ∧ (0%nat ∉ readers d') ∧
  commandStatusMap d' !! "double" = None ∧ commandHistory d' !! "double" = Some [8] ∧
  calls d' = calls ex_ready ++ Handled 0 4 :: tell "double" 8 ex_ready ++ tell "double" (status_int COMPLETED) ex_ready ++ [].
Proof.
  eapply (task_success_correct (λ n : Z, n) 0 (replicate 11 0) ex_ready (mkJob "double" 4 None Started [ALock; ACall] None) _ 8);
    [reflexivity..|by intros callback [=]|vm_compute; lia].
Defined.
End examples.
