(* ===== verification/HistoryManager.v ===== *)
(** * HistoryManager: the history of commands of the terminal

    Models class HistoryManager of src/src/debug/terminal/history_manager.hpp and
    history_manager.cpp: adding with a bound and without consecutive duplicates,
    navigation, searching, favourites, tags, statistics, and the JSON and line
    formats.  Undefined behaviour and a lock taken twice are [None].  Times are
    nanoseconds.  A file is its text, [None] if it cannot be opened. *)

From S2P Require Import Prelude Text JsonCodec JsonTree.

Local Open Scope Z_scope.

Definition NS_PER_S : Z := 1000000000.

Record HistoryConfig := mkHistoryConfig {
  maxEntries : nat;
  persistOnAdd : bool;
  deduplicateConsecutive : bool;
  trackTimestamps : bool;
  trackResults : bool;
  historyFile : string
}.
Definition default_history_config : HistoryConfig := mkHistoryConfig 1000 false true true false "".

Record HistorySearchOptions := mkSearchOptions {
  caseSensitive : bool;
  regexSearch : bool;
  prefixMatch : bool;
  reverseOrder : bool;
  maxResults : nat;
  afterTime : option Z;
  beforeTime : option Z;
  search_tags : list string
}.
Definition default_search_options : HistorySearchOptions := mkSearchOptions false false false true 50 None None [].

Record CommandResult := mkCommandResult {
  success : bool;
  output : string;
  error : string;
  executionTime : Z;
  exitCode : Z
}.

Record HistoryEntry := mkEntry {
  command : string;
  timestamp : Z;
  entry_result : option CommandResult;
  favorite : bool;
  tags : list string
}.
#[export] Instance HistoryEntry_eta : Eta HistoryEntry := λ e,
  mkEntry (command e) (timestamp e) (entry_result e) (favorite e) (tags e).
#[export] Instance timestamp_upd : Upd timestamp. Proof. derive_upd. Defined.
#[export] Instance entry_result_upd : Upd entry_result. Proof. derive_upd. Defined.
#[export] Instance favorite_upd : Upd favorite. Proof. derive_upd. Defined.
#[export] Instance tags_upd : Upd tags. Proof. derive_upd. Defined.

Record HistoryStats := mkHistoryStats {
  totalEntries : nat;
  uniqueCommands : nat;
  favoriteCount : nat;
  oldestEntry : Z;
  newestEntry : Z;
  topCommands : list (string * nat)
}.

Record HistoryManager := mkHistory {
  config : HistoryConfig;
  entries : list HistoryEntry;
  currentPos : nat
}.
#[export] Instance HistoryManager_eta : Eta HistoryManager := λ m, mkHistory (config m) (entries m) (currentPos m).
#[export] Instance config_upd : Upd config. Proof. derive_upd. Defined.
#[export] Instance entries_upd : Upd entries. Proof. derive_upd. Defined.
#[export] Instance currentPos_upd : Upd currentPos. Proof. derive_upd. Defined.

(** ** Entries *)

Definition setConfig (c : HistoryConfig) (m : HistoryManager) : HistoryManager := m <| config := c |>.

(** [None]: [save] locks the mutex that [add] holds. *)
Definition add (e : HistoryEntry) (m : HistoryManager) : option HistoryManager :=
  let duplicate := match last (entries m) with Some b => String.eqb (command b) (command e) | None => false end in
  if deduplicateConsecutive (config m) && duplicate then Some m
  else
    let l := last_n (maxEntries (config m)) (entries m ++ [e]) in
    let m := m <| entries := l |> <| currentPos := length l |> in
    if persistOnAdd (config m) && negb (str_empty (historyFile (config m))) then None else Some m.
Definition add_command (cmd : string) (now : Z) : HistoryManager → option HistoryManager := add (mkEntry cmd now None false []).
Definition add_with_result (cmd : string) (r : CommandResult) (now : Z) : HistoryManager → option HistoryManager :=
  add (mkEntry cmd now (Some r) false []).

Definition get (i : nat) (m : HistoryManager) : option HistoryEntry := entries m !! i.
Definition getLast (m : HistoryManager) : option HistoryEntry := last (entries m).
(** Sizes fit into [int]. *)
Definition getRelative (offset : Z) (m : HistoryManager) : option HistoryEntry :=
  let pos := Z.of_nat (currentPos m) + offset in
  if (pos <? 0) || (Z.of_nat (length (entries m)) <=? pos) then None else entries m !! Z.to_nat pos.

Definition remove (i : nat) (m : HistoryManager) : HistoryManager * bool :=
  if (length (entries m) <=? i)%nat then (m, false)
  else (m <| entries ::= λ l, take i l ++ drop (S i) l |> <| currentPos ::= λ p, if (i <? p)%nat then Nat.pred p else p |>, true).
Fixpoint remove_loop (p : HistoryEntry → bool) (l : list HistoryEntry) : list HistoryEntry * nat :=
  match l with
  | [] => ([], 0%nat)
  | e :: l' => let '(r, n) := remove_loop p l' in if p e then (r, S n) else (e :: r, n)
  end.
Definition removeIf (p : HistoryEntry → bool) (m : HistoryManager) : HistoryManager * nat :=
  let '(l, removed) := remove_loop p (entries m) in (m <| entries := l |> <| currentPos := length l |>, removed).
Definition clear (m : HistoryManager) : HistoryManager := m <| entries := [] |> <| currentPos := 0%nat |>.
Definition size (m : HistoryManager) : nat := length (entries m).
Definition empty (m : HistoryManager) : bool := match entries m with [] => true | _ => false end.

(** ** Navigation *)

(** [None]: an index past the end. *)
Definition previous (m : HistoryManager) : option (HistoryManager * option HistoryEntry) :=
  if empty m || (currentPos m =? 0)%nat then Some (m, None)
  else
    let m := m <| currentPos ::= Nat.pred |> in
    match entries m !! currentPos m with Some e => Some (m, Some e) | None => None end.
Definition next (m : HistoryManager) : HistoryManager * option HistoryEntry :=
  if (size m <=? currentPos m)%nat then (m, None)
  else let m := m <| currentPos ::= S |> in (m, if (size m <=? currentPos m)%nat then None else entries m !! currentPos m).
Definition resetNavigation (m : HistoryManager) : HistoryManager := m <| currentPos := size m |>.
Definition getPosition (m : HistoryManager) : nat := currentPos m.
Definition setPosition (p : nat) (m : HistoryManager) : HistoryManager := m <| currentPos := Nat.min p (size m) |>.

(** ** Searching *)

Section search.
(** std::regex: with or without regard to case, [None] is regex_error. *)
Context (regex : bool → string → option (string → bool)).

Definition in_times (o : HistorySearchOptions) (e : HistoryEntry) : bool :=
  match afterTime o with Some t => negb (timestamp e <? t) | None => true end
  && match beforeTime o with Some t => negb (t <? timestamp e) | None => true end.
Definition has_tag (t : string) (e : HistoryEntry) : bool := existsb (String.eqb t) (tags e).
Definition has_tags (o : HistorySearchOptions) (e : HistoryEntry) : bool :=
  match search_tags o with [] => true | ts => existsb (λ t, has_tag t e) ts end.
Definition matchEntry (pattern : string) (o : HistorySearchOptions) (re : string → bool) (e : HistoryEntry) : bool :=
  if negb (in_times o e) then false
  else if negb (has_tags o e) then false
  else if regexSearch o then re (command e)
  else
    let cmd := if caseSensitive o then command e else str_tolower (command e) in
    let pattern := if caseSensitive o then pattern else str_tolower pattern in
    if prefixMatch o then String.prefix pattern cmd else contains_text pattern cmd.

(** Both loops stop once there are enough. *)
Fixpoint search_loop (p : HistoryEntry → bool) (l results : list HistoryEntry) (limit : nat) : list HistoryEntry :=
  match l with
  | [] => results
  | e :: l' => if (limit <=? length results)%nat then results
               else search_loop p l' (if p e then results ++ [e] else results) limit
  end.
Definition search (pattern : string) (o : HistorySearchOptions) (m : HistoryManager) : list HistoryEntry :=
  let go re := search_loop (matchEntry pattern o re) (if reverseOrder o then rev (entries m) else entries m) [] (maxResults o) in
  if regexSearch o then
    match regex (caseSensitive o) pattern with Some re => go re | None => [] end
  else go (λ _, false).
Definition searchPrefix (prefix : string) (limit : nat) (m : HistoryManager) : list HistoryEntry :=
  search prefix (mkSearchOptions false false true true limit None None []) m.
Definition getMatching (substring : string) (m : HistoryManager) : list string :=
  map command (search substring default_search_options m).

(** From [pos] down to 0. *)
Fixpoint reverse_loop (pattern : string) (pos : nat) (l : list HistoryEntry) : option (option HistoryEntry) :=
  match l !! pos with
  | None => None
  | Some e =>
      if contains_text (str_tolower pattern) (str_tolower (command e)) then Some (Some e)
      else match pos with O => Some None | S pos' => reverse_loop pattern pos' l end
  end.
Definition reverseSearch (pattern : string) (startPos : nat) (m : HistoryManager) : option (option HistoryEntry) :=
  if empty m then Some None
  else reverse_loop pattern (if (startPos =? 0)%nat then size m - 1 else startPos - 1)%nat (entries m).
End search.

(** ** Favourites and tags *)

Definition change (i : nat) (f : HistoryEntry → HistoryEntry) (m : HistoryManager) : HistoryManager := m <| entries ::= alter f i |>.
Definition setFavorite (i : nat) (b : bool) (m : HistoryManager) : HistoryManager * bool :=
  if (size m <=? i)%nat then (m, false) else (change i (λ e, e <| favorite := b |>) m, true).
Definition toggleFavorite (i : nat) (m : HistoryManager) : HistoryManager * bool :=
  if (size m <=? i)%nat then (m, false) else (change i (λ e, e <| favorite ::= negb |>) m, true).
Definition getFavorites (m : HistoryManager) : list HistoryEntry := filter (λ e, favorite e = true) (entries m).

Definition addTag (i : nat) (tag : string) (m : HistoryManager) : HistoryManager * bool :=
  if (size m <=? i)%nat then (m, false)
  else (change i (λ e, if has_tag tag e then e else e <| tags ::= λ l, l ++ [tag] |>) m, true).
Fixpoint erase_first (tag : string) (l : list string) : list string :=
  match l with [] => [] | t :: l' => if String.eqb tag t then l' else t :: erase_first tag l' end.
Definition removeTag (i : nat) (tag : string) (m : HistoryManager) : HistoryManager * bool :=
  match entries m !! i with
  | None => (m, false)
  | Some e => if has_tag tag e then (change i (λ e, e <| tags ::= erase_first tag |>) m, true) else (m, false)
  end.
Definition getByTag (tag : string) (m : HistoryManager) : list HistoryEntry := filter (λ e, has_tag tag e = true) (entries m).
Definition getAllTags `{!HashIter string} (m : HistoryManager) : list string :=
  iter_set (list_to_set (concat (map tags (entries m)))).

(** ** Statistics *)

Definition getInTimeRange (start stop : Z) (m : HistoryManager) : list HistoryEntry :=
  filter (λ e, (start <=? timestamp e) && (timestamp e <=? stop) = true) (entries m).
Definition getAll (m : HistoryManager) : list HistoryEntry := entries m.
Definition getRecent (count : nat) (m : HistoryManager) : list HistoryEntry :=
  let start := if (count <? size m)%nat then (size m - count)%nat else 0%nat in drop start (entries m).
Definition forEach {A} (callback : A → HistoryEntry → A) (a : A) (m : HistoryManager) : A := foldl callback a (entries m).

Definition count_commands (l : list HistoryEntry) : gmap string nat :=
  foldl (λ counts e, <[command e := S (default 0%nat (counts !! command e))]> counts) ∅ l.
Definition by_count `{!StdSort, !HashIter string} (l : list HistoryEntry) : list (string * nat) :=
  std_sort (λ a b, (b.2 <? a.2)%nat) (iter_map (count_commands l)).
Definition getCommandFrequency `{!StdSort, !HashIter string} (topN : nat) (m : HistoryManager) : list (string * nat) :=
  let sorted := by_count (entries m) in if (topN <? length sorted)%nat then take topN sorted else sorted.
Definition getStats `{!StdSort, !HashIter string} (m : HistoryManager) : HistoryStats :=
  let l := entries m in
  let sorted := by_count l in
  mkHistoryStats (length l) (base.size (list_to_set (C := gset string) (map command l))) (length (filter (λ e, favorite e = true) l))
    (from_option timestamp 0 (head l)) (from_option timestamp 0 (last l)) (take (Nat.min (length sorted) 10) sorted).

(** ** Files and JSON *)

Section persistence.
Context {J F : Type} `{JT : JsonTree J F}.
(** [get<int64_t>()], and [file >> j], which stops after one value. *)
Context (get_int64 : J → option Z) (parse_stream : string → result string J).

Definition to_time_t (t : Z) : Z := Z.quot t NS_PER_S.
(** [None]: overflow. *)
Definition from_time_t (ts : Z) : option Z :=
  let t := ts * NS_PER_S in if (INT64_MIN <=? t) && (t <=? INT64_MAX) then Some t else None.

Definition export_entry (e : HistoryEntry) : J :=
  jt_object [("command", jt_string (command e)); ("timestamp", jt_int (to_time_t (timestamp e)));
             ("favorite", jt_bool (favorite e)); ("tags", jt_array (map jt_string (tags e)))].
Definition export_doc (m : HistoryManager) : J :=
  jt_object [("entries", jt_array (map export_entry (entries m)))].
Definition exportJson (m : HistoryManager) : result string string := jt_dump_indent 2 (export_doc m).
(** The text of the file; an exception leaves the file opened and empty. *)
Definition save (can_open : bool) (m : HistoryManager) : result string (option string) :=
  if can_open then let* text := exportJson m in Ok (Some text) else Ok None.
Definition save_configured (can_open : bool) (m : HistoryManager) : result string (option string) :=
  if str_empty (historyFile (config m)) then Ok None else save can_open m.

Definition get_tags (j : J) : option (list string) :=
  match jt_shape j with ShArray l => mapM jt_get_string l | _ => None end.

(** One item; [None]: undefined, [Throw]: an exception of the library. *)
Definition import_item (item : J) : option (result string HistoryEntry) :=
  if negb (jt_is_object item) then Some (Throw (jt_what 305 item))
  else match jt_find item "command" with
  | None => None                                            (* operator[] of a const object *)
  | Some c =>
      match jt_get_string c with
      | None => Some (Throw (jt_what 302 c))
      | Some cmd =>
          let e := mkEntry cmd 0 None false [] in
          match (match jt_find item "timestamp" with
                 | None => Some (Ok e)
                 | Some j => match get_int64 j with
                             | None => Some (Throw (jt_what 302 j))
                             | Some ts => match from_time_t ts with
                                          | None => None
                                          | Some t => Some (Ok (e <| timestamp := t |>))
                                          end
                             end
                 end) with
          | None => None
          | Some r => Some (
              let* e := r in
              let* e := match jt_find item "favorite" with
                        | None => Ok e
                        | Some j => match jt_get_bool j with Some b => Ok (e <| favorite := b |>) | None => Throw (jt_what 302 j) end
                        end in
              match jt_find item "tags" with
              | None => Ok e
              | Some j => match get_tags j with Some ts => Ok (e <| tags := ts |>) | None => Throw (jt_what 302 j) end
              end)
          end
      end
  end.

(** The loop: what was pushed, and whether it ended without exception. *)
Fixpoint import_items (items : list J) (l : list HistoryEntry) : option (list HistoryEntry * bool) :=
  match items with
  | [] => Some (l, true)
  | item :: rest =>
      match import_item item with
      | None => None
      | Some (Throw _) => Some (l, false)
      | Some (Ok e) => import_items rest (l ++ [e])
      end
  end.

(** [j["entries"]], which adds null to null and to an object without it; [None]: an exception. *)
Definition entries_of (j : J) : option (list J) :=
  match jt_shape j with
  | ShNull => Some []
  | ShObject kvs => Some (match assoc "entries" kvs with Some v => jt_elements v | None => [] end)
  | _ => None
  end.

Definition importJson (json : string) (m : HistoryManager) : option (HistoryManager * bool) :=
  match jt_parse json with
  | Throw _ => Some (m, false)
  | Ok j =>
      let m := m <| entries := [] |> in
      match entries_of j with
      | None => Some (m, false)
      | Some items =>
          match import_items items [] with
          | None => None
          | Some (l, true) => Some (m <| entries := l |> <| currentPos := length l |>, true)
          | Some (l, false) => Some (m <| entries := l |>, false)
          end
      end
  end.

(** The line format; [clock] reads the time, once per entry. *)
Definition load_lines (text : string) (clock : nat → Z) (m : HistoryManager) : HistoryManager :=
  let l := imap (λ i line, mkEntry line (clock i) None false []) (filter (λ line, str_empty line = false) (getlines text)) in
  m <| entries := l |> <| currentPos := length l |>.

Definition load (file : option string) (clock : nat → Z) (m : HistoryManager) : option (HistoryManager * bool) :=
  match file with
  | None => Some (m, false)
  | Some text =>
      let lines := Some (load_lines text clock m, true) in
      match parse_stream text with
      | Throw _ => lines
      | Ok j =>
          match entries_of j with
          | None => lines
          | Some items =>
              match import_items items [] with
              | None => None
              | Some (l, true) => Some (m <| entries := l |> <| currentPos := length l |>, true)
              | Some (l, false) => lines
              end
          end
      end
  end.
Definition load_configured (file : option string) (clock : nat → Z) (m : HistoryManager) : option (HistoryManager * bool) :=
  if str_empty (historyFile (config m)) then Some (m, false) else load file clock m.

Definition new_history (c : HistoryConfig) (file : option string) (clock : nat → Z) : option HistoryManager :=
  let m := mkHistory c [] 0%nat in if str_empty (historyFile c) then Some m else fst <$> load file clock m.
End persistence.

(** * Properties *)

(** ** Adding and navigating *)

Definition persists (m : HistoryManager) : bool := persistOnAdd (config m) && negb (str_empty (historyFile (config m))).

(** All entries ever added, without the repeated ones. *)
Fixpoint log_add (dedup : bool) (log es : list HistoryEntry) : list HistoryEntry :=
  match es with
  | [] => log
  | e :: es' =>
      let repeated := match last log with Some b => String.eqb (command b) (command e) | None => false end in
      log_add dedup (if dedup && repeated then log else log ++ [e]) es'
  end.
Fixpoint adds (es : list HistoryEntry) (m : HistoryManager) : option HistoryManager :=
  match es with [] => Some m | e :: es' => m' ← add e m; adds es' m' end.

Lemma last_n_last {A} n (l : list A) : (1 ≤ n)%nat → last (last_n n l) = last l.
Proof.
  intros Hn. unfold last_n. destruct l as [|x l] using rev_ind; [by rewrite drop_nil|].
  rewrite drop_app_le by (rewrite length_app; cbn; lia). by rewrite !last_snoc.
Qed.

(** Any commands added to a new history: it holds the newest entries of the log of
    them without consecutive repetitions, at most [maxEntries], and navigation starts
    at the end. *)
Lemma adds_log es : ∀ m log, persists m = false → (1 ≤ maxEntries (config m))%nat →
  entries m = last_n (maxEntries (config m)) log → currentPos m = length (entries m) →
  ∃ m', adds es m = Some m' ∧ config m' = config m ∧
    entries m' = last_n (maxEntries (config m)) (log_add (deduplicateConsecutive (config m)) log es) ∧
    currentPos m' = length (entries m').
Proof.
  induction es as [|e es IH]; intros m log Hp Hmax El Ep; [by exists m|].
  cbn [adds log_add]. unfold add. fold (persists m).
  assert (Hlast : last (entries m) = last log) by (rewrite El; by apply last_n_last). rewrite Hlast.
  destruct (deduplicateConsecutive (config m) && _) eqn:Ed; [by apply IH|].
  unfold persists in Hp. cbn -[last_n]. rewrite Hp. cbn -[last_n].
  match goal with |- context [adds es ?m1] => destruct (IH m1 (log ++ [e])) as (m' & Em & Ec & Ee & Epos) end;
    [exact Hp|exact Hmax| |done|].
  - cbn -[last_n]. rewrite El. by rewrite last_n_app.
  - exists m'. done.
Qed.

(** [C39] Commands added to an empty history without automatic saving ([persist_deadlock]
    shows what happens with it) and with room for at least one entry: the history
    refines the log of all of them, without consecutive repetitions if
    [deduplicateConsecutive] is set and with them if it is not, of which it holds the
    newest [maxEntries]; going back from there meets them from the newest to the
    oldest and then nothing. *)
Theorem history_refines_log (c : HistoryConfig) (es : list HistoryEntry) :
  persistOnAdd c && negb (str_empty (historyFile c)) = false → (1 ≤ maxEntries c)%nat →
  ∃ m, adds es (mkHistory c [] 0) = Some m ∧
    entries m = last_n (maxEntries c) (log_add (deduplicateConsecutive c) [] es) ∧
    ∀ k, (k ≤ length (entries m))%nat →
      let back := Nat.iter k (λ r, r ≫= λ s : HistoryManager * list (option HistoryEntry),
                                    p ← previous s.1; Some (p.1, s.2 ++ [p.2])) in
      back (Some (m, [])) = Some (m <| currentPos := (length (entries m) - k)%nat |>, map Some (take k (rev (entries m)))) ∧
      previous (m <| currentPos := 0%nat |>) = Some (m <| currentPos := 0%nat |>, None).
Proof.
  intros Hp Hmax.
  destruct (adds_log es (mkHistory c [] 0) []) as (m & Em & Ec & Ee & Epos); [done..|].
  exists m. split; [done|]. split; [by rewrite Ee|]. intros k Hk. cbv zeta. split.
  2: { unfold previous. cbn. by rewrite orb_true_r. }
  clear Em Ee Ec. induction k as [|k IH]; cbn [Nat.iter nat_rect].
  - rewrite Nat.sub_0_r, <- Epos. by destruct m.
  - change (nat_rect _ ?a (λ _, ?f) k) with (Nat.iter k f a).
    rewrite IH by lia. cbn [mbind option_bind fst snd]. unfold previous.
    assert (He : empty (m <| currentPos := (length (entries m) - k)%nat |>) = false).
    { unfold empty. cbn. destruct (entries m); [cbn in Hk; lia|done]. }
    rewrite He. cbn. destruct (Nat.eqb_spec (length (entries m) - k) 0) as [E|E]; [lia|]. cbn.
    replace (Nat.pred (length (entries m) - k)) with (length (entries m) - S k)%nat by lia.
    destruct (lookup_lt_is_Some_2 (entries m) (length (entries m) - S k)) as [x Hx]; [lia|].
    rewrite Hx. cbn [fst snd].
    assert (Hr : rev (entries m) !! k = Some x).
    { rewrite rev_alt. fold (reverse (entries m)). rewrite reverse_lookup by lia. exact Hx. }
    rewrite (take_S_r _ _ _ Hr), map_app. unfold mbind, option_bind. cbn [fst snd].
    change (m <| currentPos := _ |> <| currentPos ::= Nat.pred |>) with (m <| currentPos := Nat.pred (length (entries m) - k) |>).
    by replace (Nat.pred (length (entries m) - k)) with (length (entries m) - S k)%nat by lia.
Qed.

(** ** The position *)

Inductive history_op :=
| HSetConfig (c : HistoryConfig) | HAdd (e : HistoryEntry) | HRemove (i : nat) | HRemoveIf (p : HistoryEntry → bool) | HClear
| HPrevious | HNext | HReset | HSetPosition (p : nat) | HFavorite (i : nat) (b : bool) | HToggle (i : nat)
| HAddTag (i : nat) (t : string) | HRemoveTag (i : nat) (t : string).
Definition history_step (o : history_op) (m : HistoryManager) : option HistoryManager :=
  match o with
  | HSetConfig c => Some (setConfig c m)
  | HAdd e => add e m
  | HRemove i => Some (remove i m).1
  | HRemoveIf p => Some (removeIf p m).1
  | HClear => Some (clear m)
  | HPrevious => fst <$> previous m
  | HNext => Some (next m).1
  | HReset => Some (resetNavigation m)
  | HSetPosition p => Some (setPosition p m)
  | HFavorite i b => Some (setFavorite i b m).1
  | HToggle i => Some (toggleFavorite i m).1
  | HAddTag i t => Some (addTag i t m).1
  | HRemoveTag i t => Some (removeTag i t m).1
  end.

Definition history_ok (m : HistoryManager) : Prop := (currentPos m ≤ length (entries m))%nat.

Lemma previous_defined m : history_ok m → is_Some (previous m).
Proof.
  unfold history_ok, previous. intros H. destruct (empty m || _) eqn:E; [by eexists|].
  apply orb_false_iff in E as [_ E%Nat.eqb_neq]. cbn.
  destruct (lookup_lt_is_Some_2 (entries m) (Nat.pred (currentPos m))) as [x ->]; [lia|by eexists].
Qed.

(** No operation on entries or navigation moves the position past the end, and none
    reads outside of the entries. *)
Lemma history_step_ok o m : history_ok m → history_ok (default m (history_step o m)) ∧
  (history_step o m = None → ∃ e, o = HAdd e ∧ persists m = true).
Proof.
  intros H. split.
  - unfold history_ok in *. destruct o; cbn [history_step default from_option].
    + exact H.
    + unfold add. destruct (_ && _); [exact H|]. destruct (_ && _); [exact H|]. cbn. lia.
    + unfold remove. destruct (Nat.leb_spec (length (entries m)) i); [exact H|]. cbn -[take drop Nat.ltb].
      rewrite length_app, length_take, length_drop. destruct (Nat.ltb_spec i (currentPos m)); lia.
    + unfold removeIf. destruct (remove_loop p (entries m)). cbn. lia.
    + cbn. lia.
    + unfold previous. destruct (_ || _); [exact H|]. cbn. destruct (entries m !! _); cbn; lia.
    + unfold next, size. destruct (Nat.leb_spec (length (entries m)) (currentPos m)); [exact H|]. cbn. lia.
    + cbn. unfold size. lia.
    + cbn. unfold size. lia.
    + unfold setFavorite. destruct (_ <=? _)%nat; [exact H|]. cbn. by rewrite length_alter.
    + unfold toggleFavorite. destruct (_ <=? _)%nat; [exact H|]. cbn. by rewrite length_alter.
    + unfold addTag. destruct (_ <=? _)%nat; [exact H|]. cbn. by rewrite length_alter.
    + unfold removeTag. destruct (entries m !! i); [|exact H]. destruct (has_tag t h); [|exact H]. cbn. by rewrite length_alter.
  - destruct o; cbn [history_step]; try done.
    + unfold add. destruct (_ && _); [done|]. fold (persists m). intros E. exists e. split; [done|].
      change (persistOnAdd _ && negb (str_empty (historyFile _))) with (persists m) in E. by destruct (persists m).
    + destruct (previous_defined m H) as [x ->]. done.
Qed.

(** ** Searching *)

Lemma search_loop_spec p l results limit :
  search_loop p l results limit = results ++ take (limit - length results) (filter (λ e, p e = true) l).
Proof.
  revert results. induction l as [|e l IH]; intros results; cbn [search_loop]; [rewrite filter_nil; by rewrite take_nil, app_nil_r|].
  destruct (Nat.leb_spec limit (length results)) as [Hl|Hl].
  { replace (limit - length results)%nat with 0%nat by lia. by rewrite app_nil_r. }
  rewrite IH, filter_cons. destruct (p e) eqn:E.
  - rewrite decide_True by done. rewrite length_app. cbn [length].
    replace (limit - length results)%nat with (S (limit - (length results + 1)))%nat by lia.
    cbn [take]. by rewrite <- app_assoc.
  - by rewrite decide_False.
Qed.

(** [search] gives the first [maxResults] matching entries, from the newest or from
    the oldest. *)
Lemma history_search_correct regex pattern o m :
  search regex pattern o m =
    match (if regexSearch o then regex (caseSensitive o) pattern else Some (λ _, false)) with
    | Some re => take (maxResults o) (filter (λ e, matchEntry pattern o re e = true) (if reverseOrder o then rev (entries m) else entries m))
    | None => []
    end.
Proof.
  unfold search. destruct (regexSearch o); [destruct (regex _ _); [|done]|]; rewrite search_loop_spec; cbn; by rewrite Nat.sub_0_r.
Qed.

Definition in_command (pattern : string) (e : HistoryEntry) : Prop :=
  ∃ p q, str_tolower (command e) = p +:+ str_tolower pattern +:+ q.

(** What [getMatching] finds are the newest fifty commands that contain the text, in
    any case. *)
Lemma getMatching_correct regex s m cmd :
  cmd ∈ getMatching regex s m → ∃ e, e ∈ entries m ∧ command e = cmd ∧ in_command s e.
Proof.
  unfold getMatching. rewrite history_search_correct. cbn [regexSearch default_search_options]. intros (e & -> & He)%list_elem_of_fmap.
  apply elem_of_take in He as (i & He & _). apply list_elem_of_lookup_2 in He. apply list_elem_of_filter in He as [Hm He].
  exists e. split; [by apply list_elem_of_In, in_rev, list_elem_of_In|]. split; [done|]. by apply contains_text_spec.
Qed.

Lemma reverse_loop_spec pattern pos l :
  (pos < length l)%nat →
  ∃ r, reverse_loop pattern pos l = Some r ∧
    match r with
    | Some e => ∃ i, (i ≤ pos)%nat ∧ l !! i = Some e ∧ in_command pattern e ∧
                     ∀ k e', (i < k ≤ pos)%nat → l !! k = Some e' → ¬ in_command pattern e'
    | None => ∀ k e', (k ≤ pos)%nat → l !! k = Some e' → ¬ in_command pattern e'
    end.
Proof.
  revert l. induction pos as [|pos IH]; intros l Hpos; destruct (lookup_lt_is_Some_2 l _ Hpos) as [e He]; cbn [reverse_loop]; rewrite He;
    (destruct (contains_text _ _) eqn:Ec; [exists (Some e); split; [done|]; eexists; split; [reflexivity|]; split; [done|];
       split; [by apply contains_text_spec|lia]|]);
    assert (Hno : ¬ in_command pattern e) by (intros Hc; apply contains_text_spec in Hc; congruence).
  - exists None. split; [done|]. intros k e' Hk He'. replace k with 0%nat in He' by lia. simplify_eq. done.
  - destruct (IH l) as (r & -> & Hr); [lia|]. exists r. split; [done|].
    assert (Hstep : ∀ k e', (k ≤ S pos)%nat → l !! k = Some e' → k = S pos ∧ e' = e ∨ (k ≤ pos)%nat).
    { intros k e' Hk He'. destruct (decide (k = S pos)) as [->|]; [left; split; congruence|right; lia]. }
    destruct r as [e1|].
    + destruct Hr as (i & Hi & E1 & Hin & Hlater). exists i. split; [lia|]. split; [done|]. split; [done|].
      intros k e' Hk He'. destruct (Hstep k e') as [[_ ->]|]; [lia|done|done|]. apply (Hlater k); [lia|done].
    + intros k e' Hk He'. destruct (Hstep k e') as [[_ ->]|]; [lia|done|done|]. by apply (Hr k).
Qed.

(** Reverse search gives the newest entry before the start that contains the text, in
    any case; a start past the end reads outside of the entries. *)
Lemma reverseSearch_correct pattern startPos m :
  (startPos ≤ size m)%nat → let bound := if (startPos =? 0)%nat then size m else startPos in
  ∃ r, reverseSearch pattern startPos m = Some r ∧
    match r with
    | Some e => ∃ i, (i < bound)%nat ∧ entries m !! i = Some e ∧ in_command pattern e ∧
                     ∀ k e', (i < k < bound)%nat → entries m !! k = Some e' → ¬ in_command pattern e'
    | None => ∀ k e', (k < bound)%nat → entries m !! k = Some e' → ¬ in_command pattern e'
    end.
Proof.
  intros Hs bound. unfold reverseSearch, size in *. destruct (empty m) eqn:Ee.
  { exists None. split; [done|]. cbn. intros k e'. unfold empty in Ee. by destruct (entries m). }
  assert (Hl : (0 < length (entries m))%nat) by (unfold empty in Ee; destruct (entries m); [done|cbn; lia]).
  set (pos := if (startPos =? 0)%nat then _ else _).
  assert (Hb : bound = S pos) by (unfold bound, pos; destruct (Nat.eqb_spec startPos 0); unfold size; lia).
  destruct (reverse_loop_spec pattern pos (entries m)) as (r & -> & Hr).
  { unfold pos. destruct (Nat.eqb_spec startPos 0); lia. }
  exists r. split; [done|]. rewrite Hb. destruct r as [e|].
  - destruct Hr as (i & Hi & E1 & Hin & Hlater). exists i. split; [lia|]. split; [done|]. split; [done|].
    intros k e' Hk. apply Hlater. lia.
  - intros k e' Hk. apply Hr. lia.
Qed.
Lemma reverseSearch_outside pattern startPos m :
  entries m ≠ [] → (size m < startPos)%nat → reverseSearch pattern startPos m = None.
Proof.
  unfold reverseSearch, size. intros Hne Hs. assert (Ee : empty m = false) by (unfold empty; by destruct (entries m)).
  rewrite Ee. destruct (Nat.eqb_spec startPos 0); [lia|]. destruct startPos as [|p]; [done|]. rewrite Nat.sub_1_r. cbn [Nat.pred].
  assert (E : entries m !! p = None) by (apply lookup_ge_None; lia). destruct p; cbn [reverse_loop]; by rewrite E.
Qed.

(** ** Frequencies *)

Definition occurrences (c : string) (l : list HistoryEntry) : nat := length (filter (λ e, command e = c) l).

Lemma occurrences_snoc c l e : occurrences c (l ++ [e]) = if decide (command e = c) then S (occurrences c l) else occurrences c l.
Proof.
  unfold occurrences. rewrite filter_app, length_app, filter_cons, filter_nil. destruct (decide (command e = c)); cbn; lia.
Qed.

Lemma count_commands_spec l c : count_commands l !! c = if decide (occurrences c l = 0%nat) then None else Some (occurrences c l).
Proof.
  unfold count_commands. induction l as [|e l IH] using rev_ind; [cbn; apply lookup_empty|].
  rewrite foldl_app, occurrences_snoc. cbn [foldl]. destruct (decide (command e = c)) as [->|Hne].
  - rewrite lookup_insert_eq, IH. by destruct (decide (occurrences c l = 0%nat)) as [->|].
  - by rewrite lookup_insert_ne.
Qed.

(** The command frequencies: each command of the history once with the number of its
    entries, the more frequent first; what [topN] leaves out is not more frequent. *)
Lemma getCommandFrequency_correct `{SS : !StdSort, HI : !HashIter string} topN m :
  let r := getCommandFrequency topN m in
  (∀ c n, (c, n) ∈ r → n = occurrences c (entries m) ∧ (0 < n)%nat) ∧ NoDup r.*1 ∧
  StronglySorted (λ a b : string * nat, (b.2 ≤ a.2)%nat) r ∧
  ∀ c, (0 < occurrences c (entries m))%nat → c ∉ r.*1 →
    length r = topN ∧ ∀ c' n, (c', n) ∈ r → (occurrences c (entries m) ≤ n)%nat.
Proof.
  unfold getCommandFrequency. set (l := by_count (entries m)).
  assert (Hsort : StronglySorted (λ a b : string * nat, (b.2 ≤ a.2)%nat) l).
  { pose proof (std_sort_sorted (λ a b : string * nat, (b.2 <? a.2)%nat) (iter_map (count_commands (entries m)))) as Hs.
    lapply Hs.
    2: { split; intros *; cbn beta; rewrite ?Nat.ltb_lt, ?Nat.ltb_ge; lia. }
    clear Hs. unfold l, by_count. generalize (std_sort (λ a b : string * nat, (b.2 <? a.2)%nat) (iter_map (count_commands (entries m)))).
    intros k. induction 1 as [|x k Hs IH Hall]; constructor; [done|].
    eapply Forall_impl; [exact Hall|]. intros y E%Nat.ltb_ge. exact E. }
  assert (Hperm : l ≡ₚ iter_map (count_commands (entries m))) by apply std_sort_perm.
  assert (Hin : ∀ c n, (c, n) ∈ l ↔ (0 < n)%nat ∧ n = occurrences c (entries m)).
  { intros c n. rewrite Hperm, elem_of_iter_map, count_commands_spec. destruct (decide _) as [E|E]; split; try done.
    - lia.
    - intros [= <-]. lia.
    - intros [_ ->]. done. }
  assert (Hnd : NoDup l.*1).
  { rewrite Hperm. apply (NoDup_iter_keys (count_commands (entries m))). }
  set (r := if (topN <? length l)%nat then take topN l else l).
  assert (Hr : ∃ rest, l = r ++ rest ∧ (rest ≠ [] → length r = topN)).
  { unfold r. destruct (Nat.ltb_spec topN (length l)).
    - exists (drop topN l). rewrite take_drop, length_take. split; [done|lia].
    - exists []. by rewrite app_nil_r. }
  clearbody r. destruct Hr as (rest & E & Hlen). rewrite E in Hsort, Hnd, Hin. clear Hperm. clearbody l. clear E l. split_and!.
  - intros c n H. destruct (proj1 (Hin c n)) as [? ?]; [rewrite elem_of_app; by left|done].
  - rewrite fmap_app in Hnd. by apply NoDup_app in Hnd as [? _].
  - clear Hin Hnd Hlen. induction r as [|x r IH]; [constructor|]. cbn in Hsort. apply StronglySorted_inv in Hsort as [H1 H2].
    constructor; [by apply IH|]. by apply Forall_app in H2 as [? _].
  - intros c Hc Hnc.
    assert (Hrest : (c, occurrences c (entries m)) ∈ rest).
    { assert (H : (c, occurrences c (entries m)) ∈ r ++ rest) by (by apply Hin).
      apply elem_of_app in H as [H|H]; [|done]. destruct Hnc. apply list_elem_of_fmap. by exists (c, occurrences c (entries m)). }
    split; [apply Hlen; intros ->; by apply not_elem_of_nil in Hrest|]. intros c' n Hr.
    clear Hin Hnd Hlen Hnc. induction r as [|x r IH]; [by apply not_elem_of_nil in Hr|].
    cbn in Hsort. apply StronglySorted_inv in Hsort as [H1 H2]. apply elem_of_cons in Hr as [<-|Hr]; [|by apply IH].
    apply Forall_app in H2 as [_ H2]. rewrite Forall_forall in H2. apply (H2 _ Hrest).
Qed.

(** ** Saving and importing *)

Section export.
Context {J F : Type} `{JT : JsonTree J F} (get_int64 : J → option Z) (parse_stream : string → result string J).
Context (get_int64_law : ∀ j z, jt_shape j = ShInt z → INT64_MIN ≤ z ≤ INT64_MAX → get_int64 j = Some z).

(** What a file keeps of an entry: no result, whole seconds. *)
Definition entry_kept (e : HistoryEntry) : HistoryEntry :=
  mkEntry (command e) (to_time_t (timestamp e) * NS_PER_S) None (favorite e) (tags e).

Lemma to_time_t_range t : INT64_MIN ≤ t ≤ INT64_MAX →
  INT64_MIN ≤ to_time_t t ≤ INT64_MAX ∧ INT64_MIN ≤ to_time_t t * NS_PER_S ≤ INT64_MAX.
Proof.
  unfold to_time_t, NS_PER_S, INT64_MIN, INT64_MAX. intros H.
  pose proof (Z.quot_rem' t 1000000000) as E. destruct (Z_le_gt_dec 0 t) as [Hp|Hn].
  - pose proof (Z.rem_bound_pos t 1000000000). lia.
  - pose proof (Z.rem_bound_pos (- t) 1000000000). rewrite Z.rem_opp_l in * by lia. lia.
Qed.

Lemma get_tags_law l : get_tags (jt_array (map jt_string l)) = Some l.
Proof.
  unfold get_tags. rewrite shape_array. induction l as [|t l IH]; [done|]. cbn. rewrite get_string_law. cbn.
  change (mapM jt_get_string (map jt_string l)) with (mapM jt_get_string (map jt_string l)) in IH.
  unfold mapM in IH |- *. cbn in IH. by rewrite IH.
Qed.

Lemma import_export_entry e : INT64_MIN ≤ timestamp e ≤ INT64_MAX →
  import_item get_int64 (export_entry e) = Some (Ok (entry_kept e)).
Proof.
  intros Ht. destruct (to_time_t_range _ Ht) as [H1 H2]. unfold import_item, export_entry.
  assert (Ho : ∀ kvs, jt_is_object (jt_object kvs) = true) by (intros; unfold jt_is_object; by rewrite shape_object).
  rewrite Ho, !find_object. cbn -[to_time_t]. rewrite get_string_law, (get_int64_law _ _ (shape_int _) H1).
  unfold from_time_t. rewrite (proj2 (Z.leb_le _ _) (proj1 H2)), (proj2 (Z.leb_le _ _) (proj2 H2)). cbn -[to_time_t].
  rewrite get_bool_law. cbn -[to_time_t]. by rewrite get_tags_law.
Qed.

Lemma import_export_entries l acc : Forall (λ e, INT64_MIN ≤ timestamp e ≤ INT64_MAX) l →
  import_items get_int64 (map export_entry l) acc = Some (acc ++ map entry_kept l, true).
Proof.
  intros H. revert acc. induction H as [|e l He _ IH]; intros acc; cbn; [by rewrite app_nil_r|].
  rewrite import_export_entry by done. rewrite IH. by rewrite <- app_assoc.
Qed.

(** The JSON export of a history, read by a library that parses what it printed,
    is imported into any history as the same commands with their favourites and tags,
    the times cut to whole seconds and the results gone. *)
Theorem history_roundtrip m m0 text :
  Forall (λ e, INT64_MIN ≤ timestamp e ≤ INT64_MAX) (entries m) →
  exportJson m = Ok text → jt_parse text = Ok (export_doc m) →
  importJson get_int64 text m0 =
    Some (m0 <| entries := map entry_kept (entries m) |> <| currentPos := length (entries m) |>, true).
Proof.
  intros Ht _ Hp. unfold importJson. rewrite Hp. unfold entries_of, export_doc at 1. rewrite shape_object. cbn.
  unfold jt_elements. rewrite shape_array, import_export_entries by done. cbn. by rewrite length_map.
Qed.
End export.

(** * Examples *)

Section examples.
#[local] Instance demo_json : JsonTree jtree Z :=
  jtree_json (λ j, match j with TObj _ => "good" | _ => "?" end)
    (λ s, if String.eqb s "good" then Some (TObj [("entries", TArr [TObj [("command", TStr "ls"); ("favorite", TBool true); ("tags", TArr [TStr "x"]); ("timestamp", TInt 3)]])])
          else if String.eqb s "bad" then Some (TObj [("entries", TArr [TObj [("command", TStr "ls")]; TStr "pwd"])]) else None).
Definition ex_int64 (j : jtree) : option Z := match j with TInt z => Some z | _ => None end.
Definition ex_entry (cmd : string) : HistoryEntry := mkEntry cmd 0 None false [].
Definition ex_history : HistoryManager := mkHistory default_history_config (map ex_entry ["a"; "b"; "a"]) 3.

(** An import that fails replaces the entries and keeps the position, which is then
    past the end: going back reads outside of the entries. *)
Example failed_import :
  (r ← importJson ex_int64 "bad" ex_history; Some (map command (entries r.1), currentPos r.1, r.2, previous r.1)) =
    Some (["ls"], 3%nat, false, None).
Proof. reflexivity. Qed.
(** A file that is JSON but not a history is read line by line, as commands. *)
Example json_as_lines :
  (r ← load ex_int64 (jt_parse (F := Z)) (Some "bad") (λ _, 0) ex_history; Some (map command (entries r.1), r.2)) = Some (["bad"], true).
Proof. reflexivity. Qed.
(** Automatic saving waits for the mutex that [add] holds. *)
Example persist_deadlock :
  add_command "c" 0 (mkHistory (mkHistoryConfig 1000 true true true false "h.json") [] 0) = None.
Proof. reflexivity. Qed.
(** Nothing applies the bound to what is loaded or to a smaller bound. *)
Example unbounded :
  length (entries (setConfig (mkHistoryConfig 1 false true true false "") ex_history)) = 3%nat.
Proof. reflexivity. Qed.
Example search_example : getMatching (λ _ _, None) "A" ex_history = ["a"; "a"].
Proof. reflexivity. Qed.
Example frequency_example : getCommandFrequency (H := insertion_sort) (HashIter0 := canonical_iter) 1 ex_history = [("a", 2%nat)].
Proof. vm_compute. reflexivity. Qed.

Definition ex_saved : HistoryManager :=
  mkHistory default_history_config [mkEntry "ls" 3500000000 (Some (mkCommandResult true "" "" 0 0)) true ["x"]] 1.
Lemma history_roundtrip_witness :
  importJson ex_int64 "good" ex_history =
    Some (ex_history <| entries := [mkEntry "ls" 3000000000 None true ["x"]] |> <| currentPos := 1%nat |>, true).
Proof.
  apply (history_roundtrip ex_int64) with (m := ex_saved); [|repeat constructor; cbn; unfold INT64_MIN, INT64_MAX; lia|reflexivity..].
  intros j z E _. destruct j; try discriminate E. by injection E as ->.
Defined.
Lemma history_refines_log_witness :
  ∃ m, adds (map ex_entry ["a"; "a"; "b"]) (mkHistory default_history_config [] 0) = Some m ∧
    entries m = map ex_entry ["a"; "b"] ∧ True.
Proof.
  destruct (history_refines_log default_history_config (map ex_entry ["a"; "a"; "b"])) as (m & E & El & _); [reflexivity|cbn; lia|].
  exists m. split; [exact E|]. split; [exact El|exact I].
Defined.
End examples.
