(* ===== verification/InputController.v ===== *)
(** * InputController: the line editor of the terminal

    Models class InputController of src/src/debug/terminal/input_controller.hpp and
    input_controller.cpp, built for Unix: reading lines, keys and passwords, the editing
    keys, the history and completion.  A build has the readline library or not
    (HAS_READLINE; src/CMakeLists.txt requires it, debug/terminal/CMakeLists.txt only
    looks for it); with it [readLine] asks the library, and the editing keys, history
    and completion of this class have no part in reading lines.  A text is its
    list of characters.  What getchar answers is a list of numbers, and EOF after its
    end.  What is printed is recorded in [out], and [show] is the terminal that
    prints it.  std::out_of_range of string functions is [None]. *)

From S2P Require Import Prelude Text.

Local Open Scope Z_scope.

Abbreviation text := (list char).
Definition text_of : string → text := String.list_ascii_of_string.

Inductive InputMode := Line | Character | Raw.
Record InputConfig := mkInputConfig {
  mode : InputMode;
  enableHistory : bool;
  enableCompletion : bool;
  enableEditing : bool;
  echoInput : bool;
  maxLineLength : Z;
  prompt : text
}.
#[export] Instance InputConfig_eta : Eta InputConfig := λ c,
  mkInputConfig (mode c) (enableHistory c) (enableCompletion c) (enableEditing c) (echoInput c) (maxLineLength c) (prompt c).
#[export] Instance mode_upd : Upd mode. Proof. derive_upd. Defined.
#[export] Instance prompt_upd : Upd prompt. Proof. derive_upd. Defined.
Definition default_input_config : InputConfig := mkInputConfig Line true true true true 4096 (text_of ">").

Record CompletionResult := mkCompletion {
  matches : list text;
  commonPrefix : text;
  hasMultiple : bool
}.

Record InputEvent := mkInputEvent {
  key : Z;
  character : char;
  isSpecialKey : bool;
  hasModifier : bool;
  ctrl : bool;
  alt : bool;
  shift : bool
}.

Inductive printed := Text (t : text) | CarriageReturn | ClearToEnd | Back (n : nat) | Newline | Bell.

Record InputController := mkInput {
  config : InputConfig;
  buffer : text;
  cursorPos : nat;
  history : list text;
  historyIndex : nat;
  maxHistorySize : nat;
  savedBuffer : text;
  completionHandler : option (text → nat → CompletionResult);
  initialized : bool;
  rawMode : bool;
  termiosSet : bool;
  tty_raw : bool;                                (* the mode of the terminal itself *)
  out : list printed
}.
#[export] Instance InputController_eta : Eta InputController := λ c,
  mkInput (config c) (buffer c) (cursorPos c) (history c) (historyIndex c) (maxHistorySize c) (savedBuffer c) (completionHandler c)
    (initialized c) (rawMode c) (termiosSet c) (tty_raw c) (out c).
#[export] Instance config_upd : Upd config. Proof. derive_upd. Defined.
#[export] Instance buffer_upd : Upd buffer. Proof. derive_upd. Defined.
#[export] Instance cursorPos_upd : Upd cursorPos. Proof. derive_upd. Defined.
#[export] Instance history_upd : Upd history. Proof. derive_upd. Defined.
#[export] Instance historyIndex_upd : Upd historyIndex. Proof. derive_upd. Defined.
#[export] Instance maxHistorySize_upd : Upd maxHistorySize. Proof. derive_upd. Defined.
#[export] Instance savedBuffer_upd : Upd savedBuffer. Proof. derive_upd. Defined.
#[export] Instance completionHandler_upd : Upd completionHandler. Proof. derive_upd. Defined.
#[export] Instance initialized_upd : Upd initialized. Proof. derive_upd. Defined.
#[export] Instance rawMode_upd : Upd rawMode. Proof. derive_upd. Defined.
#[export] Instance termiosSet_upd : Upd termiosSet. Proof. derive_upd. Defined.
#[export] Instance tty_raw_upd : Upd tty_raw. Proof. derive_upd. Defined.
#[export] Instance out_upd : Upd out. Proof. derive_upd. Defined.

Definition print (l : list printed) (c : InputController) : InputController := c <| out ::= λ o, o ++ l |>.

(** ** The terminal *)

(** [isatty] of the standard input. *)
Definition initialize (tty : bool) (c : InputController) : InputController :=
  if initialized c then c else (if tty then c <| termiosSet := true |> else c) <| initialized := true |>.
Definition setRawMode (enable : bool) (c : InputController) : InputController :=
  if Bool.eqb enable (rawMode c) then c
  else (if termiosSet c then c <| tty_raw := enable |> else c) <| rawMode := enable |>.
Definition restore (c : InputController) : InputController :=
  if negb (initialized c) then c
  else
    let c := if rawMode c then setRawMode false c else c in
    (if termiosSet c then c <| tty_raw := false |> else c) <| initialized := false |>.
Definition new_input (cfg : InputConfig) (tty : bool) : InputController :=
  initialize tty (mkInput cfg [] 0 [] 0 1000 [] None false false false false []).

Definition setConfig (cfg : InputConfig) (c : InputController) : InputController := c <| config := cfg |>.
Definition setPrompt (p : text) (c : InputController) : InputController := c <| config ::= λ cfg, cfg <| prompt := p |> |>.
Definition setMode (m : InputMode) (c : InputController) : InputController := c <| config ::= λ cfg, cfg <| mode := m |> |>.

Definition refreshLine (c : InputController) : InputController :=
  let moveBack := (length (buffer c) - cursorPos c)%nat in
  print ([CarriageReturn; ClearToEnd; Text (prompt (config c)); Text (buffer c)]
           ++ (if (0 <? moveBack)%nat then [Back moveBack] else [])) c.
Definition bell (c : InputController) : InputController := print [Bell] c.

(** ** The buffer *)

(** [insert(pos, s)] and [erase(pos, n)]. *)
Definition str_insert (pos : nat) (s b : text) : option text :=
  if (pos <=? length b)%nat then Some (take pos b ++ s ++ drop pos b) else None.
Definition str_erase (pos n : nat) (b : text) : option text :=
  if (pos <=? length b)%nat then Some (take pos b ++ drop (pos + n) b) else None.

Definition setBuffer (t : text) (c : InputController) : InputController := c <| buffer := t |> <| cursorPos := length t |>.
Definition clearBuffer (c : InputController) : InputController := c <| buffer := [] |> <| cursorPos := 0%nat |>.
Definition setCursorPosition (p : nat) (c : InputController) : InputController := c <| cursorPos := Nat.min p (length (buffer c)) |>.
Definition insertText (t : text) (c : InputController) : option InputController :=
  b ← str_insert (cursorPos c) t (buffer c); Some (c <| buffer := b |> <| cursorPos ::= λ p, (p + length t)%nat |>).
Definition deleteChar (c : InputController) : option InputController :=
  if (cursorPos c <? length (buffer c))%nat
  then b ← str_erase (cursorPos c) 1 (buffer c); Some (c <| buffer := b |>) else Some c.
Definition backspace (c : InputController) : option InputController :=
  if (0 <? cursorPos c)%nat
  then b ← str_erase (cursorPos c - 1) 1 (buffer c); Some (c <| buffer := b |> <| cursorPos ::= Nat.pred |>) else Some c.

(** ** History *)

Definition addToHistory (e : text) (c : InputController) : InputController :=
  let repeated := match last (history c) with Some b => bool_decide (b = e) | None => false end in
  if bool_decide (e = []) || repeated then c
  else
    let h := last_n (maxHistorySize c) (history c ++ [e]) in
    c <| history := h |> <| historyIndex := length h |>.
Definition clearHistory (c : InputController) : InputController := c <| history := [] |> <| historyIndex := 0%nat |>.
Definition setMaxHistorySize (n : nat) (c : InputController) : InputController := c <| maxHistorySize := n |>.

(** [history_[i]], with [i] in range where it is used. *)
Definition history_at (i : nat) (c : InputController) : text := default [] (history c !! i).
Definition historyPrevious (c : InputController) : InputController :=
  match history c with
  | [] => c
  | _ =>
      let c := if (historyIndex c =? length (history c))%nat then c <| savedBuffer := buffer c |> else c in
      if (0 <? historyIndex c)%nat then
        let c := c <| historyIndex ::= Nat.pred |> in
        refreshLine (setBuffer (history_at (historyIndex c) c) c)
      else c
  end.
Definition historyNext (c : InputController) : InputController :=
  if (historyIndex c <? length (history c))%nat then
    let c := c <| historyIndex ::= S |> in
    refreshLine (setBuffer (if (historyIndex c =? length (history c))%nat then savedBuffer c else history_at (historyIndex c) c) c)
  else c.

(** A file is its text, [None] if it cannot be opened. *)
Definition loadHistory (file : option string) (c : InputController) : InputController * bool :=
  match file with
  | None => (c, false)
  | Some s =>
      let h := map text_of (filter (λ line, str_empty line = false) (getlines s)) in
      (c <| history := h |> <| historyIndex := length h |>, true)
  end.
Definition saveHistory (can_open : bool) (c : InputController) : option string :=
  if can_open then Some (foldr (λ e t, String.string_of_list_ascii e +:+ String nl t) "" (history c)) else None.
Definition searchHistory (pattern : text) (c : InputController) : list text :=
  filter (λ e, contains_text (String.string_of_list_ascii pattern) (String.string_of_list_ascii e) = true) (history c).

(** ** Completion *)

Definition triggerCompletion (c : InputController) : InputController :=
  match completionHandler c with
  | None => c
  | Some handler =>
      match matches (handler (buffer c) (cursorPos c)) with
      | [] => bell c
      | [m] => refreshLine (setBuffer m c)
      | ms => print (Newline :: concat (map (λ m, [Text m; Text (text_of "  ")]) ms) ++ [Newline; Text (prompt (config c)); Text (buffer c)]) c
      end
  end.
Definition getCompletions (c : InputController) : CompletionResult :=
  match completionHandler c with Some handler => handler (buffer c) (cursorPos c) | None => mkCompletion [] [] false end.

(** ** Reading a line *)

Definition EOF : Z := -1.
Definition printable (ch : Z) : bool := (32 <=? ch) && (ch <? 127).
Definition char_of (ch : Z) : char := Ascii.ascii_of_N (Z.to_N (ch mod 256)).

(** The keys of one character, but for those that end the line and escape. *)
Definition handleKey (ch : Z) (c : InputController) : option InputController :=
  if (ch =? 127) || (ch =? 8) then
    if (0 <? cursorPos c)%nat then refreshLine <$> backspace c else Some c
  else if ch =? 9 then Some (triggerCompletion c)
  else if ch =? 21 then Some (refreshLine (clearBuffer c))
  else if ch =? 11 then b ← str_erase (cursorPos c) (length (buffer c)) (buffer c); Some (refreshLine (c <| buffer := b |>))
  else if ch =? 1 then Some (refreshLine (c <| cursorPos := 0%nat |>))
  else if ch =? 5 then Some (refreshLine (c <| cursorPos := length (buffer c) |>))
  else if printable ch then refreshLine <$> insertText [char_of ch] c
  else Some c.

(** After "ESC ["; the last character of the delete key is read by the caller. *)
Definition handleEscapeSequence (ch : Z) (c : InputController) : option InputController :=
  if ch =? 65 then Some (historyPrevious c)
  else if ch =? 66 then Some (historyNext c)
  else if ch =? 67 then Some (if (cursorPos c <? length (buffer c))%nat then refreshLine (c <| cursorPos ::= S |>) else c)
  else if ch =? 68 then Some (if (0 <? cursorPos c)%nat then refreshLine (c <| cursorPos ::= Nat.pred |>) else c)
  else if ch =? 72 then Some (refreshLine (c <| cursorPos := 0%nat |>))
  else if ch =? 70 then Some (refreshLine (c <| cursorPos := length (buffer c) |>))
  else if ch =? 51 then
    if (cursorPos c <? length (buffer c))%nat then refreshLine <$> deleteChar c else Some c
  else Some c.

(** What the line is, and the input that is left. *)
Fixpoint readLineUnix (input : list Z) (c : InputController) : option (InputController * option text * list Z) :=
  let end_of_input rest :=
    let c := print [Newline] (setRawMode false c) in
    Some (c, match buffer c with [] => None | b => Some b end, rest) in
  match input with
  | [] => end_of_input []
  | ch :: rest =>
      if (ch =? EOF) || (ch =? 4) then end_of_input rest
      else if (ch =? 10) || (ch =? 13) then Some (print [Newline] (setRawMode false c), Some (buffer c), rest)
      else if ch =? 3 then Some (print [Text (text_of "^C"); Newline] (setRawMode false c), None, rest)
      else if ch =? 27 then
        match rest with
        | next1 :: rest1 =>
            if next1 =? 91 then
              match rest1 with
              | next2 :: rest2 =>
                  c ← handleEscapeSequence next2 c;
                  if next2 =? 51 then match rest2 with _ :: rest3 => readLineUnix rest3 c | [] => readLineUnix rest2 c end
                  else readLineUnix rest2 c
              | [] => readLineUnix rest1 c
              end
            else readLineUnix rest1 c
        | [] => readLineUnix rest c
        end
      else c ← handleKey ch c; readLineUnix rest c
  end.

(** The library: [readline], what it gives for a prompt and the input ([None]: the
    null pointer), and [add_history], over a state of its own, [R]. *)
Record Readline (R : Type) := mkReadline {
  readline : text → list Z → R → R * option text * list Z;
  add_history : text → R → R
}.
Arguments mkReadline {R}.
Arguments readline {R}.
Arguments add_history {R}.

(** [lib] is [None] in a build without the library. *)
Definition readLine {R} (lib : option (Readline R)) (p : text) (input : list Z) (c : InputController) (r : R)
  : option (InputController * option text * list Z * R) :=
  match lib with
  | Some l =>
      let '(r, line, rest) := readline l p input r in
      let r := match line with None | Some [] => r | Some t => add_history l t r end in
      Some (c, line, rest, r)
  | None =>
      let c := print [Text p] c in
      let c := clearBuffer c in
      let c := c <| historyIndex := length (history c) |> in
      '(c, line, rest) ← readLineUnix input (setRawMode true c); Some (c, line, rest, r)
  end.

(** ** Characters, keys and passwords *)

Definition readChar (input : list Z) (c : InputController) : InputController * option char * list Z :=
  let c := setRawMode false (setRawMode true c) in
  match input with
  | [] => (c, None, [])
  | ch :: rest => (c, if ch =? EOF then None else Some (char_of ch), rest)
  end.

(** [char] is signed. *)
Definition signed (ch : char) : Z := let n := Z.of_N (Ascii.N_of_ascii ch) in if n <? 128 then n else n - 256.
Definition key_event (ch : char) : InputEvent :=
  let n := signed ch in
  if (n =? 10) || (n =? 13) then mkInputEvent 10 ch true false false false false
  else if n =? 9 then mkInputEvent 9 ch true false false false false
  else if n =? 27 then mkInputEvent 27 ch true false false false false
  else if n =? 127 then mkInputEvent 127 ch true false false false false
  else if (1 <=? n) && (n <=? 26) then mkInputEvent n ch false true true false false
  else mkInputEvent 0 ch false false false false false.
Definition readKey (input : list Z) (c : InputController) : InputController * option InputEvent * list Z :=
  let '(c, ch, rest) := readChar input c in (c, key_event <$> ch, rest).

Fixpoint password_loop (input : list Z) (password : text) : text * list Z :=
  match input with
  | [] => (password, [])
  | ch :: rest =>
      if (ch =? 10) || (ch =? 13) || (ch =? EOF) then (password, rest)
      else if (ch =? 127) || (ch =? 8) then password_loop rest (take (length password - 1) password)
      else if printable ch then password_loop rest (password ++ [char_of ch])
      else password_loop rest password
  end.
Definition readPassword (p : text) (input : list Z) (c : InputController) : InputController * text * list Z :=
  let c := setRawMode true (print [Text p] c) in
  let '(password, rest) := password_loop input [] in
  (print [Newline] (setRawMode false c), password, rest).

(** * Properties *)

(** ** The buffer and the cursor *)

Record editor_ok (c : InputController) : Prop := {
  ok_cursor : (cursorPos c ≤ length (buffer c))%nat;
  ok_index : (historyIndex c ≤ length (history c))%nat
}.

Lemma insertText_spec t c : (cursorPos c ≤ length (buffer c))%nat →
  insertText t c = Some (c <| buffer := take (cursorPos c) (buffer c) ++ t ++ drop (cursorPos c) (buffer c) |>
                           <| cursorPos := (cursorPos c + length t)%nat |>).
Proof. intros H. unfold insertText, str_insert. by rewrite (proj2 (Nat.leb_le _ _) H). Qed.
Lemma deleteChar_spec c : deleteChar c =
  Some (if (cursorPos c <? length (buffer c))%nat
        then c <| buffer := take (cursorPos c) (buffer c) ++ drop (S (cursorPos c)) (buffer c) |> else c).
Proof.
  unfold deleteChar, str_erase. destruct (Nat.ltb_spec (cursorPos c) (length (buffer c))); [|done].
  rewrite (proj2 (Nat.leb_le _ _)) by lia. by rewrite Nat.add_1_r.
Qed.
Lemma backspace_spec c : (cursorPos c ≤ length (buffer c))%nat → backspace c =
  Some (if (0 <? cursorPos c)%nat
        then c <| buffer := take (cursorPos c - 1) (buffer c) ++ drop (cursorPos c) (buffer c) |> <| cursorPos ::= Nat.pred |> else c).
Proof.
  intros H. unfold backspace, str_erase. destruct (Nat.ltb_spec 0 (cursorPos c)); [|done].
  rewrite (proj2 (Nat.leb_le _ _)) by lia. by replace (cursorPos c - 1 + 1)%nat with (cursorPos c) by lia.
Qed.

(** ** A line editor with a zipper *)

(** The text before the cursor, the nearest character first, and the text after. *)
Definition zipper : Type := text * text.
Definition zip_text (z : zipper) : text := rev z.1 ++ z.2.
Definition zip_left (z : zipper) : zipper := match z with (x :: l, r) => (l, x :: r) | _ => z end.
Definition zip_right (z : zipper) : zipper := match z with (l, x :: r) => (x :: l, r) | _ => z end.
Definition zip_key (ch : Z) (z : zipper) : zipper :=
  if (ch =? 127) || (ch =? 8) then (tail z.1, z.2)
  else if ch =? 9 then z
  else if ch =? 21 then ([], [])
  else if ch =? 11 then (z.1, [])
  else if ch =? 1 then ([], zip_text z)
  else if ch =? 5 then (rev (zip_text z), [])
  else if printable ch then (char_of ch :: z.1, z.2)
  else z.
Definition zip_escape (ch : Z) (z : zipper) : zipper :=
  if ch =? 67 then zip_right z
  else if ch =? 68 then zip_left z
  else if ch =? 72 then ([], zip_text z)
  else if ch =? 70 then (rev (zip_text z), [])
  else if ch =? 51 then (z.1, tail z.2)
  else z.
Fixpoint zip_line (input : list Z) (z : zipper) : option text * list Z :=
  match input with
  | [] => (match zip_text z with [] => None | t => Some t end, [])
  | ch :: rest =>
      if (ch =? EOF) || (ch =? 4) then (match zip_text z with [] => None | t => Some t end, rest)
      else if (ch =? 10) || (ch =? 13) then (Some (zip_text z), rest)
      else if ch =? 3 then (None, rest)
      else if ch =? 27 then
        match rest with
        | next1 :: rest1 =>
            if next1 =? 91 then
              match rest1 with
              | next2 :: rest2 =>
                  let z := zip_escape next2 z in
                  if next2 =? 51 then match rest2 with _ :: rest3 => zip_line rest3 z | [] => zip_line rest2 z end
                  else zip_line rest2 z
              | [] => zip_line rest1 z
              end
            else zip_line rest1 z
        | [] => zip_line rest z
        end
      else zip_line rest (zip_key ch z)
  end.

Definition view (c : InputController) (z : zipper) : Prop := buffer c = zip_text z ∧ cursorPos c = length z.1.
(** No history to walk in and nothing that completes. *)
Definition plain (c : InputController) : Prop := history c = [] ∧ completionHandler c = None.

Lemma view_cursor c z : view c z → (cursorPos c ≤ length (buffer c))%nat.
Proof. intros [-> ->]. unfold zip_text. rewrite length_app, length_rev. lia. Qed.
Lemma view_before c z : view c z → take (cursorPos c) (buffer c) = rev z.1 ∧ drop (cursorPos c) (buffer c) = z.2.
Proof.
  intros [-> ->]. unfold zip_text. rewrite <- (length_rev z.1). by rewrite take_app_length, drop_app_length.
Qed.

Lemma key_view ch c z : plain c → view c z →
  ∃ c', handleKey ch c = Some c' ∧ plain c' ∧ view c' (zip_key ch z).
Proof.
  intros Hp Hv. pose proof (view_cursor _ _ Hv) as Hc. destruct (view_before _ _ Hv) as [Hb Ha].
  unfold handleKey, zip_key. destruct (_ || _).
  { rewrite backspace_spec by done. destruct (Nat.ltb_spec 0 (cursorPos c)) as [H0|H0].
    - cbn [fmap option_fmap option_map]. eexists. split; [reflexivity|]. split; [exact Hp|].
      destruct z as [[|x l] r]; destruct Hv as [E1 E2]; cbn in E2; [lia|]. split; cbn [buffer cursorPos fst snd]; cbn -[take drop].
      + rewrite Ha. cbn. unfold zip_text in E1. cbn in E1. rewrite E1, E2. cbn. rewrite Nat.sub_0_r, <- app_assoc.
        rewrite <- (length_rev l), take_app_length. done.
      + by rewrite E2.
    - eexists. split; [reflexivity|]. split; [exact Hp|]. destruct z as [[|x l] r]; destruct Hv as [E1 E2]; cbn in E2; [|lia].
      by split. }
  destruct (ch =? 9). { eexists. split; [reflexivity|]. unfold triggerCompletion. by rewrite (proj2 Hp). }
  destruct (ch =? 21). { by eexists. }
  destruct (ch =? 11).
  { unfold str_erase. rewrite (proj2 (Nat.leb_le _ _) Hc). cbn [mbind option_bind]. eexists. split; [reflexivity|].
    split; [exact Hp|]. split; cbn -[take drop]; [|by destruct Hv]. rewrite Hb, drop_ge by lia. done. }
  destruct (ch =? 1). { eexists. split; [reflexivity|]. split; [exact Hp|]. split; [by destruct Hv|done]. }
  destruct (ch =? 5).
  { eexists. split; [reflexivity|]. split; [exact Hp|]. destruct Hv as [E1 E2]. unfold zip_text at 1.
    split; cbn; [by rewrite rev_involutive, app_nil_r|]. by rewrite length_rev, E1. }
  destruct (printable ch); [|by eexists]. rewrite insertText_spec by done. cbn [fmap option_fmap option_map].
  eexists. split; [reflexivity|]. split; [exact Hp|]. split; cbn -[take drop].
  - rewrite Hb, Ha. unfold zip_text. cbn. by rewrite <- app_assoc.
  - destruct Hv as [_ ->]. cbn. lia.
Qed.

Lemma escape_view ch c z : plain c → view c z →
  ∃ c', handleEscapeSequence ch c = Some c' ∧ plain c' ∧ view c' (zip_escape ch z).
Proof.
  intros Hp Hv. pose proof (view_cursor _ _ Hv) as Hc. destruct (view_before _ _ Hv) as [Hb Ha].
  pose proof Hp as [Hh _]. pose proof Hv as [E1 E2].
  unfold handleEscapeSequence, zip_escape.
  destruct (Z.eqb_spec ch 65) as [->|_]. { eexists. split; [reflexivity|]. unfold historyPrevious. by rewrite Hh. }
  destruct (Z.eqb_spec ch 66) as [->|_]. { eexists. split; [reflexivity|]. unfold historyNext. rewrite Hh. by destruct (_ <? _)%nat eqn:E. }
  destruct (ch =? 67).
  { eexists. split; [reflexivity|]. unfold zip_right. destruct z as [l [|x r]]; unfold zip_text in E1; cbn in E1, E2.
    - rewrite E1, E2, app_nil_r, length_rev, Nat.ltb_irrefl. done.
    - rewrite (proj2 (Nat.ltb_lt _ _)) by (rewrite E1, E2, length_app, length_rev; cbn; lia).
      split; [exact Hp|]. split; cbn; [|by rewrite E2]. unfold zip_text. cbn. by rewrite E1, <- app_assoc. }
  destruct (ch =? 68).
  { eexists. split; [reflexivity|]. unfold zip_left. destruct z as [[|x l] r]; unfold zip_text in E1; cbn in E1, E2.
    - rewrite E2. done.
    - rewrite E2. cbn [Nat.ltb Nat.leb]. split; [exact Hp|]. split; cbn; [|by rewrite E2]. unfold zip_text. cbn. by rewrite E1, <- app_assoc. }
  destruct (ch =? 72). { eexists. split; [reflexivity|]. split; [exact Hp|]. by split. }
  destruct (ch =? 70).
  { eexists. split; [reflexivity|]. split; [exact Hp|]. unfold zip_text at 1.
    split; cbn; [by rewrite rev_involutive, app_nil_r|]. by rewrite length_rev, E1. }
  destruct (ch =? 51); [|by eexists]. rewrite deleteChar_spec. destruct z as [l [|x r]]; unfold zip_text in E1; cbn in E1, E2.
  - rewrite E1, E2, app_nil_r, length_rev, Nat.ltb_irrefl. eexists. split; [reflexivity|]. by split.
  - assert (Hlt : (cursorPos c <? length (buffer c))%nat = true).
    { apply Nat.ltb_lt. rewrite E1, E2, length_app, length_rev. cbn. lia. }
    rewrite Hlt. cbn [fmap option_fmap option_map]. eexists. split; [reflexivity|]. split; [exact Hp|]. split; cbn -[take drop]; [|done].
    rewrite Hb. unfold zip_text. cbn [fst snd tail]. f_equal. rewrite E1, E2. rewrite <- (length_rev l), <- Nat.add_1_r.
    rewrite <- drop_drop, drop_app_length. done.
Qed.

Lemma setRawMode_fields b c : let c' := setRawMode b c in
  rawMode c' = b ∧ buffer c' = buffer c ∧ cursorPos c' = cursorPos c ∧ history c' = history c ∧ completionHandler c' = completionHandler c.
Proof.
  unfold setRawMode. destruct (Bool.eqb b (rawMode c)) eqn:E; [apply eqb_prop in E; by subst|]. by destruct (termiosSet c).
Qed.

Lemma readLineUnix_zip n : ∀ input c z, (length input ≤ n)%nat → plain c → view c z →
  ∃ c', readLineUnix input c = Some (c', (zip_line input z).1, (zip_line input z).2) ∧ rawMode c' = false.
Proof.
  assert (Hend : ∀ l (rest : list Z) c z, view c z →
    ∃ c', Some (print l (setRawMode false c), match buffer c with [] => None | b => Some b end, rest) =
            Some (c', (match zip_text z with [] => None | t => Some t end : option text), rest) ∧ rawMode c' = false).
  { intros l rest c z [E _]. rewrite E. eexists. split; [reflexivity|]. cbn. apply setRawMode_fields. }
  induction n as [|n IH]; intros input c z Hn Hp Hv; destruct input as [|ch rest]; cbn in Hn; try lia;
    cbn [readLineUnix zip_line].
  1,2: destruct (setRawMode_fields false c) as (Hr & Hbuf & _); cbn [buffer print]; change (buffer (print _ ?x)) with (buffer x); rewrite Hbuf;
       by apply Hend.
  destruct (setRawMode_fields false c) as (Hr & Hbuf & _).
  destruct (_ || _). { change (buffer (print _ ?x)) with (buffer x). rewrite Hbuf. by apply Hend. }
  destruct (_ || _). { destruct Hv as [E _]. rewrite E. eexists. split; [reflexivity|]. exact Hr. }
  destruct (ch =? 3). { eexists. split; [reflexivity|]. exact Hr. }
  destruct (ch =? 27).
  - destruct rest as [|n1 rest]; [apply IH; [cbn; lia|done..]|]. destruct (n1 =? 91); [|apply IH; [cbn in Hn; lia|done..]].
    destruct rest as [|n2 rest]; [apply IH; [cbn in *; lia|done..]|].
    destruct (escape_view n2 c z Hp Hv) as (c' & -> & Hp' & Hv'). cbn [mbind option_bind].
    destruct (n2 =? 51); [|apply IH; [cbn in *; lia|done..]].
    destruct rest as [|n3 rest]; apply IH; cbn in *; lia || done.
  - destruct (key_view ch c z Hp Hv) as (c' & -> & Hp' & Hv'). cbn [mbind option_bind]. apply IH; [lia|done..].
Qed.

(** [C40] In a build without the readline library, reading a line without a history to
    walk in and without completion refines an editor on a zipper: the line, or that
    there is none, and the input left are what the zipper gives for the same keys; no
    string function throws, and raw mode is off afterwards. *)
Theorem readLine_refines_zipper {R} p input c (r : R) : plain c →
  ∃ c', readLine None p input c r = Some (c', (zip_line input ([], [])).1, (zip_line input ([], [])).2, r) ∧ rawMode c' = false.
Proof.
  intros Hp. unfold readLine. set (c1 := _ <| historyIndex := _ |>).
  destruct (setRawMode_fields true c1) as (_ & Eb & Ec & Eh & Ek).
  destruct (readLineUnix_zip (length input) input (setRawMode true c1) ([], [])) as (c' & -> & Hr); [done|..|by exists c'].
  - unfold plain. rewrite Eh, Ek. exact Hp.
  - unfold view. rewrite Eb, Ec. done.
Qed.

(** With the library the line is the library's, whatever the history and the completion
    of the controller are, and the controller is left as it was; the library keeps the
    lines that are not empty. *)
Lemma readLine_of_readline {R} (l : Readline R) p input c1 c2 (r : R) :
  ∃ line rest r', readLine (Some l) p input c1 r = Some (c1, line, rest, r') ∧ readLine (Some l) p input c2 r = Some (c2, line, rest, r') ∧
    (∀ t, line = Some t → t ≠ [] → r' = add_history l t (readline l p input r).1.1).
Proof.
  unfold readLine. destruct (readline l p input r) as [[r1 [[|x t]|]] rest]; do 3 eexists; (split; [reflexivity|]); (split; [reflexivity|]).
  - by intros t [= <-].
  - by intros t' [= <-] _.
  - done.
Qed.

(** ** Any keys, with history and completion *)

Lemma refresh_ok c : editor_ok c → editor_ok (refreshLine c).
Proof. intros [? ?]. by split. Qed.
Lemma setBuffer_ok t c : (historyIndex c ≤ length (history c))%nat → editor_ok (setBuffer t c).
Proof. intros H. split; [done|exact H]. Qed.

Lemma historyPrevious_ok c : editor_ok c → editor_ok (historyPrevious c).
Proof.
  intros Hok. unfold historyPrevious. destruct (history c) eqn:Eh; [done|]. rewrite <- Eh. destruct Hok as [Hc Hi].
  destruct (historyIndex c =? length (history c))%nat.
  all: match goal with |- context [(0 <? ?x)%nat] => destruct (Nat.ltb_spec 0 x) end; [|split; [exact Hc|exact Hi]].
  all: apply refresh_ok, setBuffer_ok; cbn; lia.
Qed.
Lemma historyNext_ok c : editor_ok c → editor_ok (historyNext c).
Proof.
  intros Hok. pose proof Hok as [Hc Hi]. unfold historyNext. destruct (Nat.ltb_spec (historyIndex c) (length (history c))); [|done].
  apply refresh_ok, setBuffer_ok. cbn. lia.
Qed.
Lemma triggerCompletion_ok c : editor_ok c → editor_ok (triggerCompletion c).
Proof.
  intros Hok. pose proof Hok as [Hc Hi]. unfold triggerCompletion. destruct (completionHandler c); [|done].
  destruct (matches _) as [|m [|m' ms]]; [by split| |split; [exact Hc|exact Hi]]. by apply refresh_ok, setBuffer_ok.
Qed.
Lemma insertText_ok t c : editor_ok c → ∃ c', insertText t c = Some c' ∧ editor_ok c'.
Proof.
  intros [Hc Hi]. rewrite insertText_spec by done. eexists. split; [reflexivity|]. split; [|exact Hi].
  cbn -[take drop]. rewrite !length_app, length_take, length_drop. lia.
Qed.
Lemma deleteChar_ok c : editor_ok c → ∃ c', deleteChar c = Some c' ∧ editor_ok c'.
Proof.
  intros [Hc Hi]. rewrite deleteChar_spec. eexists. split; [reflexivity|]. destruct (Nat.ltb_spec (cursorPos c) (length (buffer c))); [|done].
  split; [|exact Hi]. cbn -[take drop]. rewrite length_app, length_take, length_drop. lia.
Qed.
Lemma backspace_ok c : editor_ok c → ∃ c', backspace c = Some c' ∧ editor_ok c'.
Proof.
  intros [Hc Hi]. rewrite backspace_spec by done. eexists. split; [reflexivity|]. destruct (Nat.ltb_spec 0 (cursorPos c)); [|done].
  split; [|exact Hi]. cbn -[take drop]. rewrite length_app, length_take, length_drop. lia.
Qed.

Lemma handleKey_ok ch c : editor_ok c → ∃ c', handleKey ch c = Some c' ∧ editor_ok c'.
Proof.
  intros Hok. pose proof Hok as [Hc Hi]. unfold handleKey. destruct (_ || _).
  { destruct (_ <? _)%nat; [|by eexists]. destruct (backspace_ok c Hok) as (c' & -> & H). eexists. split; [reflexivity|]. by apply refresh_ok. }
  destruct (ch =? 9). { eexists. split; [reflexivity|]. by apply triggerCompletion_ok. }
  destruct (ch =? 21). { eexists. split; [reflexivity|]. by apply refresh_ok. }
  destruct (ch =? 11).
  { unfold str_erase. rewrite (proj2 (Nat.leb_le _ _) Hc). eexists. split; [reflexivity|]. apply refresh_ok. split; [|exact Hi].
    cbn -[take drop]. rewrite length_app, length_take. lia. }
  destruct (ch =? 1). { eexists. split; [reflexivity|]. apply refresh_ok. split; [cbn; lia|exact Hi]. }
  destruct (ch =? 5). { eexists. split; [reflexivity|]. apply refresh_ok. split; [done|exact Hi]. }
  destruct (printable ch); [|by eexists]. destruct (insertText_ok [char_of ch] c Hok) as (c' & -> & H).
  eexists. split; [reflexivity|]. by apply refresh_ok.
Qed.
Lemma handleEscape_ok ch c : editor_ok c → ∃ c', handleEscapeSequence ch c = Some c' ∧ editor_ok c'.
Proof.
  intros Hok. pose proof Hok as [Hc Hi]. unfold handleEscapeSequence.
  destruct (ch =? 65). { eexists. split; [reflexivity|]. by apply historyPrevious_ok. }
  destruct (ch =? 66). { eexists. split; [reflexivity|]. by apply historyNext_ok. }
  destruct (ch =? 67). { eexists. split; [reflexivity|]. destruct (Nat.ltb_spec (cursorPos c) (length (buffer c))); [|done].
    apply refresh_ok. split; [cbn; lia|exact Hi]. }
  destruct (ch =? 68). { eexists. split; [reflexivity|]. destruct (Nat.ltb_spec 0 (cursorPos c)); [|done].
    apply refresh_ok. split; [cbn; lia|exact Hi]. }
  destruct (ch =? 72). { eexists. split; [reflexivity|]. apply refresh_ok. split; [cbn; lia|exact Hi]. }
  destruct (ch =? 70). { eexists. split; [reflexivity|]. apply refresh_ok. split; [done|exact Hi]. }
  destruct (ch =? 51); [|by eexists]. destruct (_ <? _)%nat; [|by eexists].
  destruct (deleteChar_ok c Hok) as (c' & -> & H). eexists. split; [reflexivity|]. by apply refresh_ok.
Qed.

Lemma readLineUnix_inv (P : InputController → Prop)
  (HK : ∀ ch c c', editor_ok c → P c → handleKey ch c = Some c' → P c')
  (HE : ∀ ch c c', editor_ok c → P c → handleEscapeSequence ch c = Some c' → P c') n :
  ∀ input c, (length input ≤ n)%nat → editor_ok c → P c →
  ∃ c1 l res rest, readLineUnix input c = Some (print (l ++ [Newline]) (setRawMode false c1), res, rest) ∧
    editor_ok c1 ∧ P c1 ∧ (res = None ∨ res = Some (buffer c1) ∧ l = []).
Proof.
  assert (Hend : ∀ (rest : list Z) c, editor_ok c → P c →
    let c' := print [Newline] (setRawMode false c) in
    ∃ c1 l res rest1, Some (c', match buffer c' with [] => None | b => Some b end, rest) =
      Some (print (l ++ [Newline]) (setRawMode false c1), res, rest1) ∧
      editor_ok c1 ∧ P c1 ∧ (res = None ∨ res = Some (buffer c1) ∧ l = [])).
  { intros rest c Hok HP c'. exists c, [], (match buffer c' with [] => None | b => Some b end), rest. split; [done|].
    split; [done|]. split; [done|]. change (buffer c') with (buffer (setRawMode false c)).
    destruct (setRawMode_fields false c) as (_ & -> & _). destruct (buffer c); auto. }
  induction n as [|n IH]; intros input c Hn Hok HP; destruct input as [|ch rest]; cbn in Hn; try lia; cbn [readLineUnix];
    [by apply Hend..|].
  destruct (_ || _); [by apply Hend|].
  destruct (_ || _). { exists c, [], (Some (buffer c)), rest. split; [done|]. auto. }
  destruct (ch =? 3). { exists c, [Text (text_of "^C")], None, rest. split; [done|]. auto. }
  destruct (ch =? 27).
  - destruct rest as [|n1 rest]; [apply IH; [cbn; lia|done..]|]. destruct (n1 =? 91); [|apply IH; [cbn in Hn; lia|done..]].
    destruct rest as [|n2 rest]; [apply IH; [cbn in *; lia|done..]|].
    destruct (handleEscape_ok n2 c Hok) as (c' & E & Hok'). rewrite E. cbn [mbind option_bind]. apply HE in E; [|done..].
    destruct (n2 =? 51); [|apply IH; [cbn in *; lia|done..]].
    destruct rest as [|n3 rest]; apply IH; cbn in *; lia || done.
  - destruct (handleKey_ok ch c Hok) as (c' & E & Hok'). rewrite E. cbn [mbind option_bind]. apply HK in E; [|done..].
    apply IH; [lia|done..].
Qed.

Lemma setRawMode_ok b c : editor_ok c → editor_ok (setRawMode b c).
Proof.
  intros Hok. unfold setRawMode. destruct (Bool.eqb b (rawMode c)); [done|]. destruct Hok. by destruct (termiosSet c).
Qed.

Definition tty_ok (c : InputController) : Prop := termiosSet c = true → tty_raw c = rawMode c.
Lemma setRawMode_tty b c : tty_ok c → tty_ok (setRawMode b c).
Proof.
  unfold tty_ok, setRawMode. intros H. destruct (Bool.eqb b (rawMode c)); [done|].
  destruct (termiosSet c) eqn:E; cbn; [done|congruence].
Qed.

(** ** The screen *)

(** The line of the terminal where the cursor is, and the column. *)
Definition show_one (s : text * nat) (p : printed) : text * nat :=
  let '(line, col) := s in
  match p with
  | Text t => (take col line ++ t ++ drop (col + length t) line, (col + length t)%nat)
  | CarriageReturn => (line, 0%nat)
  | ClearToEnd => (take col line, col)
  | Back n => (line, (col - n)%nat)
  | Newline => ([], 0%nat)
  | Bell => s
  end.
Definition show : list printed → text * nat := foldl show_one ([], 0%nat).

Definition shown (c : InputController) : Prop :=
  show (out c) = (prompt (config c) ++ buffer c, (length (prompt (config c)) + cursorPos c)%nat).

Lemma show_app a b : show (a ++ b) = foldl show_one (show a) b.
Proof. apply foldl_app. Qed.

Lemma refresh_shown c : (cursorPos c ≤ length (buffer c))%nat → shown (refreshLine c).
Proof.
  intros Hc. unfold shown, refreshLine.
  match goal with |- context [print ?l c] => change (show (out c ++ l) = (prompt (config c) ++ buffer c, (length (prompt (config c)) + cursorPos c)%nat)) end.
  rewrite show_app. destruct (show (out c)) as [line col]. rewrite foldl_app. cbn -[take drop].
  rewrite !take_0, !drop_nil, !app_nil_l, !app_nil_r, take_ge, drop_ge, app_nil_r by lia.
  destruct (length (buffer c) - cursorPos c)%nat eqn:E; cbn; (apply f_equal2; [done|lia]).
Qed.

Definition few_matches (c : InputController) : Prop :=
  ∀ handler, completionHandler c = Some handler → ∀ b p, (length (matches (handler b p)) ≤ 1)%nat.

Lemma handler_kept ch c c' : (handleKey ch c = Some c' ∨ handleEscapeSequence ch c = Some c') →
  completionHandler c' = completionHandler c ∧ config c' = config c.
Proof.
  assert (Hb : ∀ c c1, refreshLine <$> backspace c = Some c1 → completionHandler c1 = completionHandler c ∧ config c1 = config c).
  { intros d c1. unfold backspace. destruct (_ <? _)%nat; [|by intros [= <-]]. by destruct (str_erase _ _ _); intros [= <-]. }
  assert (Hd : ∀ c c1, refreshLine <$> deleteChar c = Some c1 → completionHandler c1 = completionHandler c ∧ config c1 = config c).
  { intros d c1. unfold deleteChar. destruct (_ <? _)%nat; [|by intros [= <-]]. by destruct (str_erase _ _ _); intros [= <-]. }
  intros [E|E]; revert E.
  - unfold handleKey. destruct (_ || _). { destruct (_ <? _)%nat; [apply Hb|by intros [= <-]]. }
    destruct (ch =? 9). { intros [= <-]. unfold triggerCompletion. destruct (completionHandler c) eqn:Eh; [|done]. by destruct (matches _) as [|? []]. }
    destruct (ch =? 21); [by intros [= <-]|]. destruct (ch =? 11); [by destruct (str_erase _ _ _); intros [= <-]|].
    destruct (ch =? 1); [by intros [= <-]|]. destruct (ch =? 5); [by intros [= <-]|].
    destruct (printable ch); [|by intros [= <-]]. unfold insertText. by destruct (str_insert _ _ _); intros [= <-].
  - unfold handleEscapeSequence. destruct (ch =? 65).
    { intros [= <-]. unfold historyPrevious. destruct (history c); [done|]. destruct (historyIndex c =? _)%nat; by destruct (0 <? _)%nat. }
    destruct (ch =? 66). { intros [= <-]. unfold historyNext. by destruct (_ <? _)%nat. }
    destruct (ch =? 67). { intros [= <-]. by destruct (_ <? _)%nat. }
    destruct (ch =? 68). { intros [= <-]. by destruct (_ <? _)%nat. }
    destruct (ch =? 72); [by intros [= <-]|]. destruct (ch =? 70); [by intros [= <-]|].
    destruct (ch =? 51); [|by intros [= <-]]. destruct (_ <? _)%nat; [apply Hd|by intros [= <-]].
Qed.

Lemma bell_shown c : shown c → shown (bell c).
Proof.
  unfold shown, bell. intros H. change (show (out c ++ [Bell]) = (prompt (config c) ++ buffer c, (length (prompt (config c)) + cursorPos c)%nat)).
  by rewrite show_app, H.
Qed.

Lemma key_shown ch c c' : editor_ok c → few_matches c → shown c → handleKey ch c = Some c' → shown c'.
Proof.
  intros Hok Hf Hs. pose proof Hok as [Hc Hi]. unfold handleKey. destruct (_ || _).
  { destruct (_ <? _)%nat; [|by intros [= <-]]. destruct (backspace_ok c Hok) as (c1 & -> & [H1 _]). intros [= <-]. by apply refresh_shown. }
  destruct (ch =? 9).
  { intros [= <-]. unfold triggerCompletion. destruct (completionHandler c) as [h|] eqn:Eh; [|done].
    pose proof (Hf h Eh (buffer c) (cursorPos c)) as Hlen. destruct (matches _) as [|m [|m' ms]].
    - by apply bell_shown.
    - by apply refresh_shown.
    - cbn in Hlen. lia. }
  destruct (ch =? 21). { intros [= <-]. by apply refresh_shown. }
  destruct (ch =? 11).
  { unfold str_erase. rewrite (proj2 (Nat.leb_le _ _) Hc). intros [= <-]. apply refresh_shown. cbn -[take drop].
    rewrite length_app, length_take. lia. }
  destruct (ch =? 1). { intros [= <-]. apply refresh_shown. cbn. lia. }
  destruct (ch =? 5). { intros [= <-]. by apply refresh_shown. }
  destruct (printable ch); [|by intros [= <-]]. destruct (insertText_ok [char_of ch] c Hok) as (c1 & -> & [H1 _]).
  intros [= <-]. by apply refresh_shown.
Qed.
Lemma escape_shown ch c c' : editor_ok c → shown c → handleEscapeSequence ch c = Some c' → shown c'.
Proof.
  intros Hok Hs. pose proof Hok as [Hc Hi]. unfold handleEscapeSequence.
  destruct (ch =? 65).
  { intros [= <-]. unfold historyPrevious. destruct (history c) eqn:Eh; [done|]. rewrite <- Eh.
    destruct (historyIndex c =? length (history c))%nat; (destruct (0 <? _)%nat; [by apply refresh_shown|exact Hs]). }
  destruct (ch =? 66). { intros [= <-]. unfold historyNext. destruct (_ <? _)%nat; [by apply refresh_shown|done]. }
  destruct (ch =? 67). { intros [= <-]. destruct (Nat.ltb_spec (cursorPos c) (length (buffer c))); [|done]. apply refresh_shown. cbn. lia. }
  destruct (ch =? 68). { intros [= <-]. destruct (Nat.ltb_spec 0 (cursorPos c)); [|done]. apply refresh_shown. cbn. lia. }
  destruct (ch =? 72). { intros [= <-]. apply refresh_shown. cbn. lia. }
  destruct (ch =? 70). { intros [= <-]. by apply refresh_shown. }
  destruct (ch =? 51); [|by intros [= <-]]. destruct (_ <? _)%nat; [|by intros [= <-]].
  destruct (deleteChar_ok c Hok) as (c1 & -> & [H1 _]). intros [= <-]. by apply refresh_shown.
Qed.

Lemma setRawMode_out b c : out (setRawMode b c) = out c ∧ config (setRawMode b c) = config c ∧ historyIndex (setRawMode b c) = historyIndex c.
Proof. unfold setRawMode. destruct (Bool.eqb _ _); [done|]. by destruct (termiosSet c). Qed.

(** A line read without the library, with the prompt of the configuration, at the start of an empty
    line, with any keys, history and a completion that never has several matches:
    reading ends without exception, raw mode is off, and if it gives a line, the last
    thing on the terminal was the prompt and exactly this line. *)
Theorem readLine_shows_what_it_returns input c :
  few_matches c → show (out c) = ([], 0%nat) →
  ∃ c' res rest, readLine None (prompt (config c)) input c tt = Some (c', res, rest, tt) ∧ rawMode c' = false ∧
    ∀ t, res = Some t → ∃ o, out c' = o ++ [Newline] ∧ (show o).1 = prompt (config c) ++ t.
Proof.
  intros Hf Hs. unfold readLine. set (c1 := _ <| historyIndex := _ |>).
  assert (Ho1 : out c1 = out c ++ [Text (prompt (config c))]) by done.
  destruct (setRawMode_fields true c1) as (_ & Eb & Ec & Eh & Ek). destruct (setRawMode_out true c1) as (Eo & Econf & Ei).
  set (c2 := setRawMode true c1) in *. clearbody c2.
  assert (Hp2 : config c2 = config c ∧ completionHandler c2 = completionHandler c) by (by rewrite Econf, Ek).
  assert (Hok2 : editor_ok c2) by (split; [rewrite Eb, Ec; done|rewrite Ei, Eh; done]).
  assert (Hs2 : shown c2).
  { unfold shown. rewrite Econf, Eb, Ec, Eo, Ho1, show_app, Hs. cbn. by rewrite drop_nil, app_nil_r, Nat.add_0_r. }
  clearbody c1. clear Eb Ec Eh Ek Eo Econf Ei Ho1 c1.
  destruct (readLineUnix_inv (λ d, shown d ∧ config d = config c ∧ completionHandler d = completionHandler c)) with
    (n := length input) (input := input) (c := c2) as (c3 & l & res & rest & E & Hok3 & (Hs3 & Hc3 & Hh3) & Hres); [| |done|done|by split|].
  - intros ch d d' Hokd (Hsd & Hcd & Hhd) E. destruct (handler_kept ch d d' (or_introl E)) as [Ek1 Ek2]. rewrite Ek1, Ek2.
    split; [|done]. eapply key_shown; [exact Hokd| |exact Hsd|exact E]. intros h Eh. apply Hf. by rewrite <- Hhd.
  - intros ch d d' Hokd (Hsd & Hcd & Hhd) E. destruct (handler_kept ch d d' (or_intror E)) as [Ek1 Ek2]. rewrite Ek1, Ek2.
    split; [|done]. by eapply escape_shown.
  - exists (print (l ++ [Newline]) (setRawMode false c3)), res, rest. split; [by rewrite E|]. split; [apply setRawMode_fields|].
    intros t ->. destruct Hres as [|[[= ->] ->]]; [done|]. exists (out c3). split.
    + change (out (setRawMode false c3) ++ [Newline] = out c3 ++ [Newline]). by rewrite (proj1 (setRawMode_out false c3)).
    + unfold shown in Hs3. rewrite Hs3, Hc3. done.
Qed.

(** ** Walking in the history *)

Lemma previous_iter c k : historyIndex c = length (history c) → (k ≤ length (history c))%nat →
  let c' := Nat.iter k historyPrevious c in
  history c' = history c ∧ historyIndex c' = (length (history c) - k)%nat ∧
  (0 < k → savedBuffer c' = buffer c)%nat ∧
  buffer c' = if (k =? 0)%nat then buffer c else history_at (length (history c) - k) c.
Proof.
  intros Hi. induction k as [|k IH]; intros Hk; [cbn; rewrite Nat.sub_0_r; split_and!; [done|done|lia|done]|]. cbn [Nat.iter nat_rect].
  change (nat_rect _ c (λ _, historyPrevious) k) with (Nat.iter k historyPrevious c).
  destruct IH as (E1 & E2 & E3 & E4); [lia|]. set (c1 := Nat.iter k historyPrevious c) in *. clearbody c1.
  unfold historyPrevious. destruct (history c1) as [|h0 hs] eqn:Eh.
  { rewrite <- E1 in Hk. cbn in Hk. lia. }
  rewrite <- Eh in *. set (c2 := if (historyIndex c1 =? length (history c1))%nat then c1 <| savedBuffer := buffer c1 |> else c1).
  assert (H2 : history c2 = history c ∧ historyIndex c2 = (length (history c) - k)%nat ∧ savedBuffer c2 = buffer c).
  { unfold c2. destruct (Nat.eqb_spec (historyIndex c1) (length (history c1))) as [E|E]; cbn; rewrite ?E1, ?E2.
    - rewrite E1, E2 in E. assert (k = 0%nat) as -> by lia. done.
    - rewrite E1, E2 in E. split_and!; [done..|]. apply E3. lia. }
  clearbody c2. destruct H2 as (H1 & H2 & H3).
  destruct (Nat.ltb_spec 0 (historyIndex c2)); [|lia]. cbn. rewrite H1, H2, H3. split_and!; [done|lia|done|].
  unfold history_at. cbn. rewrite H1. by replace (Nat.pred (length (history c) - k)) with (length (history c) - S k)%nat by lia.
Qed.

Lemma next_iter c k i : historyIndex c = i → (i + k ≤ length (history c))%nat → (0 < k)%nat →
  let c' := Nat.iter k historyNext c in
  history c' = history c ∧ historyIndex c' = (i + k)%nat ∧ savedBuffer c' = savedBuffer c ∧
  buffer c' = (if (i + k =? length (history c))%nat then savedBuffer c else history_at (i + k) c) ∧
  cursorPos c' = length (buffer c').
Proof.
  intros Hi Hk Hpos. induction k as [|k IH]; [lia|]. cbn [Nat.iter nat_rect].
  change (nat_rect _ c (λ _, historyNext) k) with (Nat.iter k historyNext c).
  assert (Hc1 : let c1 := Nat.iter k historyNext c in history c1 = history c ∧ historyIndex c1 = (i + k)%nat ∧ savedBuffer c1 = savedBuffer c).
  { destruct k as [|k]; [by rewrite Nat.add_0_r|]. destruct IH as (? & ? & ? & _); [lia|lia|done]. }
  clear IH. cbv zeta in Hc1. set (c1 := Nat.iter k historyNext c) in *. clearbody c1. destruct Hc1 as (E1 & E2 & E3).
  unfold historyNext. rewrite E1, E2. destruct (Nat.ltb_spec (i + k) (length (history c))); [|lia]. cbn.
  rewrite E1, E2, E3, <- plus_n_Sm. split_and!; [done..| |done]. unfold history_at. cbn. by rewrite E1.
Qed.

(** Going back [k] lines shows the [k]th newest one, and coming forward again as many
    gives back the line being typed, with the cursor at its end. *)
Lemma history_walk c k : historyIndex c = length (history c) → (0 < k ≤ length (history c))%nat →
  let back := Nat.iter k historyPrevious c in
  let forth := Nat.iter k historyNext back in
  history c !! (length (history c) - k)%nat = Some (buffer back) ∧
  buffer forth = buffer c ∧ cursorPos forth = length (buffer c) ∧ historyIndex forth = length (history c).
Proof.
  intros Hi Hk back forth. destruct (previous_iter c k Hi) as (E1 & E2 & E3 & E4); [lia|]. fold back in E1, E2, E3, E4.
  destruct (next_iter back k _ E2) as (F1 & F2 & _ & F4 & F5); [rewrite E1; lia|lia|]. fold forth in F1, F2, F4, F5.
  clearbody forth back. split.
  - rewrite E4. destruct (Nat.eqb_spec k 0); [lia|]. unfold history_at.
    destruct (lookup_lt_is_Some_2 (history c) (length (history c) - k)) as [x ->]; [lia|done].
  - rewrite F5, F4, E1, E3, F2 by lia. destruct (Nat.eqb_spec (length (history c) - k + k) (length (history c))); [|lia].
    split_and!; [done|done|lia].
Qed.

(** ** The history file *)

Lemma text_of_string t : text_of (String.string_of_list_ascii t) = t.
Proof. apply String.list_ascii_of_string_of_list_ascii. Qed.
Lemma string_of_empty t : str_empty (String.string_of_list_ascii t) = false ↔ t ≠ [].
Proof. by destruct t. Qed.

(** A history of entries without line ends, as [addToHistory] keeps them, is read back
    as it was saved. *)
Lemma history_file_roundtrip c c' s :
  Forall (λ e, e ≠ [] ∧ str_mem nl (String.string_of_list_ascii e) = false) (history c) → saveHistory true c = Some s →
  loadHistory (Some s) c' = (c' <| history := history c |> <| historyIndex := length (history c) |>, true).
Proof.
  intros Hall [= <-]. unfold loadHistory.
  assert (E : foldr (λ e t, String.string_of_list_ascii e +:+ String nl t) "" (history c) =
              foldr (λ r t, r +:+ String nl t) "" (map String.string_of_list_ascii (history c))).
  { clear Hall. induction (history c) as [|e l IH]; [done|]. cbn. by rewrite IH. }
  rewrite E, getlines_rows.
  2: { rewrite Forall_map. eapply Forall_impl; [exact Hall|]. by intros ? [_ ?]. }
  assert (E2 : map text_of (filter (λ line, str_empty line = false) (map String.string_of_list_ascii (history c))) = history c).
  { clear E. induction Hall as [|e l [He _] _ IH]; [done|]. cbn [map]. rewrite filter_cons_True by (by apply string_of_empty).
    cbn [map]. by rewrite text_of_string, IH. }
  by rewrite E2.
Qed.
Lemma addToHistory_nonempty e c : Forall (λ e, e ≠ []) (history c) → Forall (λ e, e ≠ []) (history (addToHistory e c)).
Proof.
  intros H. unfold addToHistory. destruct (bool_decide (e = []) || _) eqn:E; [done|]. apply orb_false_iff in E as [E _].
  apply bool_decide_eq_false_1 in E. cbn -[last_n]. unfold last_n. apply Forall_drop. by apply Forall_app; split; [|constructor].
Qed.

(** * Examples *)

Definition keys (s : string) : list Z := map (λ c, Z.of_N (Ascii.N_of_ascii c)) (text_of s).
Definition ex_input : InputController := new_input default_input_config true.
Definition ex_line (input : list Z) (c : InputController) : option (option string * list Z) :=
  match readLine None (text_of ">") input c tt with
  | Some (_, line, rest, _) => Some (String.string_of_list_ascii <$> line, rest)
  | None => None
  end.

Example typed : ex_line (keys "helo" ++ [27; 91; 68] ++ keys "l" ++ [10] ++ keys "x") ex_input = Some (Some "hello", keys "x").
Proof. vm_compute. reflexivity. Qed.
Example killed : ex_line (keys "hello world" ++ [1; 27; 91; 67; 11; 5] ++ keys "i" ++ [13]) ex_input = Some (Some "hi", []).
Proof. vm_compute. reflexivity. Qed.
Example interrupted : ex_line (keys "abc" ++ [3]) ex_input = Some (None, []) ∧ ex_line [4] ex_input = Some (None, []) ∧
  ex_line (keys "abc" ++ [4]) ex_input = Some (Some "abc", []).
Proof. vm_compute. done. Qed.
(** When several completions are listed, the terminal's cursor ends after the line
    wherever the cursor of the editor is. *)
Example listed_completions :
  let h := λ (_ : text) (_ : nat), mkCompletion [text_of "ab"; text_of "ac"] (text_of "a") true in
  let c := triggerCompletion (refreshLine (ex_input <| buffer := text_of "a" |> <| completionHandler := Some h |>)) in
  cursorPos c = 0%nat ∧ show (out c) = (text_of ">a", 2%nat).
Proof. vm_compute. done. Qed.
(** A prompt given to [readLine] is replaced by that of the configuration at the first key. *)
Example prompt_replaced :
  (λ r, out r.1.1.1) <$> readLine None (text_of "name: ") (keys "B") ex_input tt =
    Some [Text (text_of "name: "); CarriageReturn; ClearToEnd; Text (text_of ">"); Text (text_of "B"); Newline].
Proof. vm_compute. reflexivity. Qed.
(** A character read in raw mode leaves the terminal out of it. *)
Example raw_mode_lost : rawMode (readChar (keys "x") (setRawMode true ex_input)).1.1 = false.
Proof. reflexivity. Qed.

Lemma readLine_refines_zipper_witness :
  ∃ c', readLine None (text_of ">") (keys "ab" ++ [127; 10]) ex_input tt = Some (c', Some (text_of "a"), [], tt) ∧ rawMode c' = false.
Proof. apply (readLine_refines_zipper (text_of ">") (keys "ab" ++ [127; 10]) ex_input tt). by split. Defined.
Lemma readLine_shows_what_it_returns_witness :
  ∃ c' res rest, readLine None (text_of ">") (keys "ab" ++ [10]) ex_input tt = Some (c', res, rest, tt) ∧ rawMode c' = false ∧
    ∀ t, res = Some t → ∃ o, out c' = o ++ [Newline] ∧ (show o).1 = text_of ">" ++ t.
Proof. apply (readLine_shows_what_it_returns (keys "ab" ++ [10]) ex_input); [intros h [=]|reflexivity]. Defined.
